(* ===== verification/_CoqProject ===== *)
-Q . S2P
Prelude.v
GoStrings.v
Value.v
Path.v
Merge.v
Clone.v
Patch.v
PatchNumber.v
PatchStore.v
ProfileExpr.v
CodecRegistry.v
Scan.v
Secret.v
Provenance.v
LayerCache.v
History.v
Options.v
Subscribe.v
Assemble.v
Pipeline.v
Manager.v
ReloadQueue.v
Coalesce.v
Migration.v
Transform.v
Diff.v
Env.v
Labels.v
Feature.v
Downward.v
TypeInfo.v
SecretPlan.v
FieldMeta.v
TypedHooks.v
Watch.v
StateView.v
Codecs.v
KVProviders.v
Hierarchies.v
Documents.v
AppConfig.v
Notify.v
Observers.v
StructGen.v
Settings.v
LogHandler.v
Daemon.v
CliSetup.v
FileRender.v
Lifecycle.v
Sources.v
Calls.v
RemoteSetup.v
Bridge.v
Consumers.v
Adapters.v
LocalSetup.v
Memo.v
Convergence.v
Streams.v
RemoteWatch.v
Telemetry.v
Workflow.v
