(* ===== verification/Prelude.v ===== *)
(** * fastconf: a verified model of the configuration manager

    fastconf is a Go library that keeps a typed configuration in memory.  It
    reads layers (files of a [conf.d] tree, generators, providers), merges
    them into one tree, resolves secrets, decodes the tree into a Go struct,
    validates it and publishes it as an immutable state that readers load
    atomically.  Watchers and callers ask for reloads, and one writer
    goroutine serves them.  This library models that program, from the merge
    of two maps up to the writer goroutine, and proves what each part
    promises to the next.

    ** The parts, from the bottom up

    - [Prelude]: results of fallible functions with their inversion tactic
      [inv_result], monadic folds, a stable sort with its specification,
      decimal printing, and rebuilding of a map from its entries.
    - [GoStrings]: Go strings as byte strings, and the functions of Go's
      [strings] and [filepath] packages that the source calls.  What the
      model does not compute of Go's library is the class [GoStd]
      (lower-casing, number parsing, globbing) with an instance
      [example_std] that the witnesses use.
    - [Value]: the dynamic values ([any]) of a configuration tree.  A map or
      a slice may be nil, numbers keep their Go kind, and a value of any other
      Go type is opaque.
    - [Path], [Merge], [Clone], [Patch], [PatchNumber], [PatchStore]
      (src/confmap): dotted paths and coercion, deep merge with its options,
      copies, RFC 6902 patches and the number comparison of their [test]
      operation.  [Clone] and [PatchStore] run the copies and the patches on a
      store of objects with references, where sharing and edits in place can
      be stated; [PatchStore] proves that they do what [Patch] does on values.
    - [ProfileExpr], [Scan] (src/internal/scan): boolean profile expressions,
      and the discovery of base files, overlays and axis overlays in a
      directory.  The file system is the record [FileSystem] whose answers
      are arguments of the scan.
    - [CodecRegistry] (src/codec/registry.go, src/contracts/body.go): the
      tables that find a decoder, and bounded reads.
    - [Secret] (src/internal/secret): the walk over the strings of a tree,
      glob patterns and redaction.
    - [Provenance] (src/internal/provenance): who wrote which path.
    - [LayerCache] (src/layer_cache.go), [History] (src/history.go): the
      cache of decoded files and the ring of past states.
    - [Options] (src/options_resolve.go, src/internal/fcerr, src/policy): the
      resolved options, errors with the sentinels that [errors.Is] sees, and
      the interfaces of providers, generators, resolvers and policies.
    - [Subscribe] (src/subscribe.go): the registry of subscribers.
    - [Assemble] (src/assemble.go, src/input_fingerprint.go): the three layer
      sources, their precedence and the fingerprint of the inputs.  The
      decoders are the class [Codecs].
    - [Pipeline] (src/stages.go, src/pipeline.go, src/decode.go): the eight
      stages of a run.  The Go type of the configuration is the class
      [Target] (decode, defaults, field checks, canonical JSON).
    - [Manager] (src/manager.go, src/reload.go, src/commit.go, src/plan.go,
      src/history.go, src/state.go): the manager's state and its requests,
      run one at a time as the writer goroutine does.
    - [ReloadQueue] (src/reload_queue.go, src/provider_watch.go): the writer
      goroutine, its callers and the provider events as a transition system.
    - [Coalesce] (src/internal/coalesce): the burst coalescer of file events
      as a state machine of pushes and timer firings.
    - [Migration], [Transform] (src/transform): migration chains, aliases,
      deletion, raw capture and environment substitution.
    - [Diff] (src/diff.go): the differences between two trees.
    - [Env], [Labels], [Downward] (src/providers/env, dotenv, cliflag, labels,
      k8s, src/confmap/labels.go): the local providers, from the text they
      read to the tree they give the assembly.
    - [Feature] (src/feature): targets and rollouts of feature flags.
    - [TypeInfo] (src/internal/typeinfo): Go types as a table in which a type
      is its index, so that recursive types are cycles; tags, names,
      embedding, reachability, walks and the fields of the JSON form.
    - [SecretPlan] (src/internal/secret/plan.go): masking by type, and the
      provenance paths that may show a secret.
    - [FieldMeta] (src/internal/typeinfo/defaults.go, fieldmeta.go): Go values
      of such types, the defaults and the constraints that tags declare.
    - [TypedHooks] (src/codec/typed_hooks.go, typed_hooks_defaults.go): the plan
      of conversions of a type, their application to a tree and the assignment
      of the results, and the built-in hooks.
    - [Codecs] (src/codec/builtin.go, ini.go, decoder.go): the document
      decoders around the parsers of YAML, JSON, TOML and INI;
      [registry_codecs] is the instance of the class that [Assemble] uses.
    - [Watch] (src/internal/watcher, src/file_watch.go, src/provider_watch.go,
      src/internal/providerutil): the directories that are watched, the
      reload slot of a directory, and the loop of a provider watch.
    - [StateView] (src/state.go, src/dump.go, src/decode.go): the masked and
      plain views of a state, the origins of a path, and the dumps.
    - [KVProviders], [Hierarchies], [Documents], [AppConfig]
      (src/providers/consul, vault, parameterstore, azappconfig, http, s3, gcs,
      azblob, secretmanager, appconfig): the remote providers around their
      clients: which requests a provider makes, which tree and revision it
      derives from an answer, and when its watch announces an event.  A
      client is an argument that answers requests.  [RemoteSetup] holds
      their constructors: option checks, defaults, and names.
    - [Notify] (src/integrations/notify, src/providers/s3events): matching of
      bucket notifications, and messages acknowledged after the refresh.
    - [Observers] (src/observe, src/integrations/render): the asynchronous
      observer and the loop that renders each published state.
    - [StructGen] (src/cmd/fastconfgen): the generator of a Go struct from a
      sample tree: names, types and printed fields.
    - [Settings] (src/options.go, src/options_resolve.go): the option setters
      and their resolution to the [Options.options] of a manager.
    - [LogHandler] (src/integrations/log/internal/fclog): the logger and the
      fields that derived loggers carry.
    - [Daemon], [CliSetup] (src/cmd/fastconfd, src/cmd/internal/cli,
      src/cmd/fastconfctl): the requests the daemon answers, and the command
      line turned into options.
    - [FileRender] (src/integrations/render): writing a file over a file system
      that may crash between two operations, and the hooks after it.
    - [Lifecycle] (src/manager.go): New, Shutdown and Close with the
      goroutines they start and wait for, as a transition system.
    - [Sources] (src/providers/source, src/contracts/provider.go,
      src/load_file.go): byte sources, their adapters, and the loading of one
      file.
    - [Calls] (src/reload.go, src/plan.go, src/history.go): the public calls
      around the writer's queue, with the options of one request.
    - [Bridge] (src/decode.go): the instance of [Target] for a struct type of
      [TypeInfo] with its defaults and constraints.
    - [Consumers] (src/integrations/notify, src/providers/s3events): constructors
      and loops of the notification consumers, and a queue service with
      at-least-once delivery, as a transition system, in which they run.
    - [Adapters] (src/policy/opa, src/cue, src/validate/playground): policies and
      validators that other engines decide; the engines are arguments.
    - [LocalSetup] (src/providers/env, dotenv, cliflag, labels,
      src/integrations/cli/pflag): constructors and setters of the local
      providers, and their place among the other sources.
    - [Memo] (src/state.go, src/observe.go, src/input_fingerprint.go,
      src/internal/obs, src/internal/typeinfo/cache.go): values that goroutines
      compute once and share, spans and stage events.
    - [Convergence] (src/provider_watch.go, src/reload_queue.go, src/reload.go):
      [ReloadQueue] with the manager of [Manager] behind it and sources that
      change in front of it, as one transition system.
    - [Streams] (src/examples/redisstream, src/examples/nats,
      src/contracts/providertest): the two reference providers that follow a
      stream, down to the steps of their goroutines.
    - [RemoteWatch] (src/providers/http, parameterstore, azappconfig): the watch
      of the HTTP provider with the loads that overlap it, and the constructors
      of the providers that read a hierarchy.
    - [Telemetry] (src/observability, src/integrations/log): the Prometheus sink,
      the attributes that reach OpenTelemetry and the two log backends.
    - [Workflow] (src/examples/reload, src/plan.go, src/reload.go): preview, check
      and reload, one after the other.
    [Assemble.assemble] calls [Scan.Scan] and [LayerCache.getOrDecode];
    [Pipeline.runMerge] calls [Merge.Deep], [Provenance.RecordTree] and
    [Patch.ApplyPatch]; [Manager.reload] calls [assemble], [runPipeline] and
    [commit], which pushes on the ring of [History] and calls
    [Subscribe.notifySubscribers].  [ReloadQueue] is about the order of
    requests only, so that its requests carry an abstract result.

    ** What the theorems show

    - The manager as a whole.  [manager_refines_log]: any sequence of
      requests leaves the manager in agreement with a log of published
      states, numbered without gaps.  [reload_publishes] says what a
      successful reload publishes and when it has nothing to, [failed_request_preserves_state] that a
      failure changes nothing and is reported once, [rollback_correct] which
      states can be restored, [construction_has_snapshot] that a manager is
      never without a state, [errors_channel] that reporting never blocks.
    - The queue.  [queue_fifo] is the invariant of every reachable state,
      [no_stranded_caller] the liveness of waiting callers, and
      [dropped_event_refreshed] shows that overflow loses no update.
    - The pipeline.  [stages_outcome]: the stages stop at the first failure,
      with the sentinel of that stage; [preview_predicts_reload]: a dry run
      agrees with the reload it previews; [last_writer_wins] and
      [secret_resolution]: the contents of the merged tree.
    - Assembly.  [assembly_precedence]: every layer that the scan, the generators
      and the providers give, once and in order; and
      [fingerprint_identifies_inputs].
    - Trees.  [deep_merge_exact]: a merge gives the tree of the relation
      [merged], which is told without the code's loops; it does not depend on
      the iteration order of Go's maps.  Paths obey lens laws.
      [patch_operation_effect]: trees before and after an operation differ at
      one place; [patch_atomic]: a patch writes to its own copy only.  Pointers
      round trip; numbers are compared by value; copies are independent.
    - Discovery.  The parser of profile expressions terminates and inverts
      the printer; priorities increase; listing order is irrelevant; the
      selected overlays are exactly the matching ones; reads are bounded.
    - Containers.  The cache is transparent, the ring is a bounded queue,
      provenance lists exactly the writers, redaction masks exactly what the
      patterns match, and subscribers run once each, in order.
    - Files and events.  [coalescer_conserves]: no event is lost or delivered
      twice; [coalescer_bounded_lag]: none waits longer than the maximum lag.
    - Transforms.  [chain_upgrades], [envsubst_template], [aliases_rename],
      and [alias_below_itself], where an alias loses its value.
    - Providers.  [dotenv_roundtrip] and [downward_roundtrip] read back what
      is printed; [env_last_wins], [label_expansion] and [routing_promotion]
      say which tree a set of variables or labels makes.
    - Types.  [reaches_decides], [json_dominance] and [type_walks_complete]:
      searching and listing the fields of recursive types.
      [typed_redaction_exact]: masking by type hides exactly the topmost
      secret nodes; [provenance_covers_types]: the dotted path of an input
      that reaches a secret is reported as secret, so that
      [explain_hides_secrets].  [struct_defaults_exact] and
      [field_meta_exact]: defaults and constraints of values.
    - Hooks.  [hook_plan_exact]: the plan visits exactly the types from which a
      hook can be reached; [typed_hooks_convert]: exactly the values of hooked
      types are converted.
    - Documents.  [yaml_single_document]: no second document is dropped, as
      long as lines end with a line feed; [ini_layout];
      [normalize_order_independent].
    - Watching.  [watches_follow_directories]: every path is watched through its
      nearest existing directory, on a file system that changes while the
      watcher looks at it; [slot_no_lost_event]: every event is
      followed by a reload; [provider_resumes]: revisions and delays.
    - Dumps.  [toml_nulls]: when a tree has no TOML form; and
      [yaml_node_roundtrip]: the YAML nodes hold the tree with its keys sorted.
    - [diff_exact], [diff_patches]: the differences are exact, and turn the
      old tree into the new one ([same_tree], which the diff has no part in).
    - Remote providers.  [consul_tree], [vault_expand], [parameter_load_exact]
      and [azure_load_exact] give the tree of an answer;
      [consul_change_announced], [vault_no_lost_version] and
      [remote_documents_current] that a change of the remote value is noticed;
      [appconfig_session] how tokens chain, when a load asks the service, and
      which document it returns.  [remote_setup_ok] and
      [provider_names_public]: what a constructor accepts, and that no name
      holds a credential.
    - Notifications.  [s3_match_exact]; [acknowledged_after_refresh] and
      [s3events_poll]: no message is acknowledged before its refresh.
    - Observers.  [async_delivery]: what is delivered is what was sent less
      what was counted as dropped, in order; [rendered_newest]: the file ends
      with the newest state.
    - Tools.  [sample_conforms]: a sample decodes into the type generated
      from it; [generation_outcome]; [daemon_discloses_nothing]: without the
      token a request learns nothing; [base_only_reads_base],
      [flags_become_settings].
    - Options.  [resolved_options_ok]: what resolution guarantees to the rest;
      [option_order_irrelevant]: setters of different fields commute.
    - Files.  [atomic_write_safe]: a reader sees the old or the new contents
      at each point of a write, a crash included; [load_file_outcome] and
      [sources_agree].
    - Life of a manager.  [shutdown_safe] holds in all reachable states, and
      [close_returns]: if the code of requests and watches returns, Close does
      under every schedule, unless a subscriber calls it on the writer
      ([close_from_subscriber_deadlocks]).  [callback_outlives_close]: what
      Close does not wait for.
    - Public calls.  [override_wins]: the override of a request is above all
      layers; [published_valid]: a published value passed validation;
      [published_constraints] instantiates this for a described type.
    - [static_token_wins] is the order in which Vault's credentials are
      chosen.
    - Consumers.  [queue_current]: whatever is lost, late or repeated, a
      change that no reload has followed is still announced by a message, and
      well formed messages bring such a reload about.  It loads the newest
      revision if the provider reads its source each time;
      [cached_source_lags] is a run with one that does not.  [run_goes_on],
      [s3events_watch] and [consumer_settings_ok]: loops, batches and bounds.
    - [engines_guard]: no value is ever current that an installed engine denies
      or could not judge.  [local_precedence]: flags and the environment are on
      top.  [json_tree_shared], [lazy_diff_once], [type_cache_transparent]:
      racing goroutines share one result; [custom_encoding_no_shortcut] and
      [timed_stage_reports].
    - Catching up.  [manager_converges]: watchers, queue and writer come to rest
      after boundedly many steps, and then the last refresh ran on what the
      sources hold.  It needs of a source that a change leaves an event waiting;
      [redis_watch_exact], [nats_watch_exact] and [http_watch_current] show this
      of three providers that merge or drop events, with [redis_watch_stops] for
      the end of a watch.  [tail_read_misses]: a Redis watch without a
      revision can lose an entry.
    - Checked updates.  [checked_update_safe]: what a preview proposed and its
      checks accepted is what the reload publishes, with warm caches and after
      any history, unless a policy answers to the reason of the reload as it
      did not to that of the preview; [assemble_warm]: assembly does not depend on the caches.
    - Telemetry.  [metrics_exact]: gauges and counters agree with the manager;
      [layers_of_the_published] is where the help text of a gauge does not.
      [otel_complete], [prom_once] and [log_backend_writes]: attributes, names
      and records.  [ssm_setup_ok], [az_setup_ok]: constructors of hierarchies.

    ** Bounds and fuel

    The parser of [ProfileExpr] recurses on fuel [6 * length + 5], and
    [compile_terminates] shows that it never runs out.  [publish_loop] retries a
    full error channel: its fuel is one more than the channel's length and
    [errors_channel] shows the retry succeeds.  [maxTreeDepth] (256) is the
    source's own limit on recursion.  The reload queue has the source's
    capacity of 16, the layer cache 512 entries, the error channel 16.
    [no_stranded_caller] counts the steps of the writer that answer a
    caller.  [StructGen] searches a free name among [S (size used)] candidates,
    one more than there are names taken ([unique_search_total]), and prints a
    sample with its size as fuel.  [Lifecycle] uses no fuel: [close_returns] is
    an inductive [eventually], by a rank that each step decreases; the same holds of
    [manager_converges], by the measure [work], and [redis_watch_stops], by
    [steps_left].  [PatchStore] bounds the nesting of what is copied or compared,
    and [patch_atomic] says that some bound is enough.  Integers
    of the source that can wrap (generation counters, sequence numbers) are
    unbounded here unless a file says otherwise.

    ** What is not modelled

    The options of a manager hold what its providers and generators answer, so a
    history of requests with one [options] has constant providers (files and
    overrides do change); [perform_changing] in [Workflow] and the system of
    [Convergence] have sources that change.

    Decoding into a Go struct is the [Target] class; [Bridge] gives an instance
    for described types without hooks.  The YAML, JSON, TOML and INI parsers
    and SHA-256: parameters.  [fsnotify] and the file system: what they answer
    is an argument.  The network clients under the remote providers (HTTP,
    cloud SDKs), the parsing of flags, and the logging, metrics and tracing
    libraries.  The engines of OPA, CUE and struct validators.  These are not
    code of the repository; what it relies on is stated where it is used.

    The main functions of the commands and of the other examples are wiring:
    they parse flags, open sockets and print.  Accessors that return one field,
    and the safe error texts of the notification consumers, have no behaviour
    of their own.  Benchmarks and test helpers are not part of the program.

    ** What could come next

    An instance of [Target] with typed hooks in place, and overlapping loads of
    the S3 provider. *)
From stdpp Require Export base tactics list gmap strings sorting fin_maps.
From stdpp Require Import pretty.
From Stdlib Require Export ZArith Lia.

Set Default Proof Using "Type".

(** ** Results

    A Go function that returns [(T, error)] is a [result E T]: [Ok v] for
    [(v, nil)] and [Err e] for [(zero, err)]. *)

Inductive result (E A : Type) : Type :=
| Ok (a : A)
| Err (e : E).
Arguments Ok {E A} a.
Arguments Err {E A} e.

#[export] Instance result_ret E : MRet (result E) := λ A a, Ok a.
#[export] Instance result_bind E : MBind (result E) := λ A B f r,
  match r with Ok a => f a | Err e => Err e end.
#[export] Instance result_fmap E : FMap (result E) := λ A B f r,
  match r with Ok a => Ok (f a) | Err e => Err e end.

Definition is_Ok {E A} (r : result E A) : bool :=
  match r with Ok _ => true | Err _ => false end.

Definition map_err {E F A} (f : E → F) (r : result E A) : result F A :=
  match r with Ok a => Ok a | Err e => Err (f e) end.

Definition of_option {E A} (e : E) (o : option A) : result E A :=
  match o with Some a => Ok a | None => Err e end.

#[export] Instance result_eq_dec {E A} `{!EqDecision E, !EqDecision A} : EqDecision (result E A).
Proof. solve_decision. Defined.

Lemma bind_Ok {E A B} (r : result E A) (f : A → result E B) b :
  r ≫= f = Ok b ↔ ∃ a, r = Ok a ∧ f a = Ok b.
Proof. destruct r; simpl; naive_solver. Qed.

Lemma bind_of_Ok {E A B} (a : A) (f : A → result E B) : Ok a ≫= f = f a.
Proof. done. Qed.

Lemma bind_Err {E A B} (r : result E A) (f : A → result E B) e :
  r ≫= f = Err e ↔ r = Err e ∨ ∃ a, r = Ok a ∧ f a = Err e.
Proof. destruct r; simpl; naive_solver. Qed.

Lemma fmap_Ok {E A B} (r : result E A) (f : A → B) b :
  f <$> r = Ok b ↔ ∃ a, r = Ok a ∧ b = f a.
Proof. destruct r; simpl; naive_solver. Qed.

Lemma fmap_Err {E A B} (r : result E A) (f : A → B) e :
  f <$> r = Err e ↔ r = Err e.
Proof. destruct r; simpl; naive_solver. Qed.

Lemma is_Ok_true {E A} (r : result E A) : is_Ok r = true ↔ ∃ a, r = Ok a.
Proof. destruct r; simpl; naive_solver. Qed.

(** Case analysis on every bind of a successful (or failing) computation. *)
Ltac inv_result :=
  repeat match goal with
  | H : Ok _ = Ok _ |- _ => injection H as H
  | H : Err _ = Err _ |- _ => injection H as H
  | H : Ok _ = Err _ |- _ => discriminate H
  | H : Err _ = Ok _ |- _ => discriminate H
  | H : mbind _ _ = Ok _ |- _ => apply bind_Ok in H as (? & ? & H)
  | H : fmap _ _ = Ok _ |- _ => apply fmap_Ok in H as (? & H & ?)
  | H : fmap _ _ = Err _ |- _ => apply fmap_Err in H
  end; simplify_eq/=.

(** Fold a fallible step over a list, stopping at the first error: the body of
    a Go [for] loop that returns its error. *)
Fixpoint foldM {E A B} (f : A → B → result E A) (a : A) (l : list B) : result E A :=
  match l with
  | [] => Ok a
  | b :: l => a' ← f a b; foldM f a' l
  end.

Lemma foldM_app {E A B} (f : A → B → result E A) a l1 l2 :
  foldM f a (l1 ++ l2) = (a' ← foldM f a l1; foldM f a' l2).
Proof.
  revert a. induction l1 as [|b l1 IH]; intros a; simpl; [done|].
  destruct (f a b); simpl; [apply IH|done].
Qed.

(** Invariant rule for [foldM]. *)
Lemma foldM_inv {E A B} (P : A → Prop) (f : A → B → result E A) l a a' :
  (∀ a b a', b ∈ l → P a → f a b = Ok a' → P a') →
  P a → foldM f a l = Ok a' → P a'.
Proof.
  revert a. induction l as [|b l IH]; intros a Hstep HP Hf; simpl in *; [by inv_result|].
  destruct (f a b) eqn:Hb; simpl in Hf; [|done].
  eapply IH; [|by eapply Hstep; [constructor|..]|done].
  intros ???? ; eapply Hstep. by constructor.
Qed.

Lemma foldM_total {E A B} (P : A → Prop) (f : A → B → result E A) l a :
  (∀ a b, b ∈ l → P a → ∃ a', f a b = Ok a' ∧ P a') →
  P a → ∃ a', foldM f a l = Ok a' ∧ P a'.
Proof.
  revert a. induction l as [|b l IH]; intros a Hstep HP; simpl; [by eauto|].
  destruct (Hstep a b) as (a' & -> & HP'); [constructor|done|]. simpl.
  apply IH; [|done]. intros ???; apply Hstep; by constructor.
Qed.

(** A step whose successes commute does not depend on the order of the list. *)
Lemma foldM_perm {E A B} (f : A → B → result E A) l l' a r :
  (∀ a x y r, f a x ≫= (λ b, f b y) = Ok r → f a y ≫= (λ b, f b x) = Ok r) →
  l ≡ₚ l' → foldM f a l = Ok r → foldM f a l' = Ok r.
Proof.
  intros Hswap Hp. revert a r. induction Hp as [|x l l' _ IH|x y l|l1 l2 l3 _ IH1 _ IH2]; intros a r; [done| | |eauto].
  - cbn [foldM]. intros (b & Hb & Hr)%bind_Ok. rewrite Hb, bind_of_Ok. by apply IH.
  - cbn [foldM]. intros (b & Hb & Hr)%bind_Ok. apply bind_Ok in Hr as (c & Hc & Hr).
    assert (f a x ≫= (λ b, f b y) = Ok c) as (b' & Hb' & Hc')%bind_Ok by (apply Hswap; by rewrite Hb, bind_of_Ok).
    by rewrite Hb', bind_of_Ok, Hc', bind_of_Ok.
Qed.

(** ** Lists *)

Lemma foldl_same_in {A B} (f g : A → B → A) l acc : (∀ acc x, x ∈ l → f acc x = g acc x) → foldl f acc l = foldl g acc l.
Proof.
  revert acc. induction l as [|x l IH]; intros acc Hf; [done|]. cbn [foldl]. rewrite Hf by left. apply IH. intros acc' y Hy. apply Hf. by right.
Qed.

Lemma foldl_same {A B} (f g : A → B → A) l a : (∀ a b, f a b = g a b) → foldl f a l = foldl g a l.
Proof. intros Hfg. by apply foldl_same_in. Qed.

(** Running options that each keep a property. *)
Lemma options_keep {P} (Q : P → Prop) (opts : list (P → P)) p : Q p → Forall (λ opt, ∀ p, Q p → Q (opt p)) opts → Q (foldl (λ p opt, opt p) p opts).
Proof. intros Hp Ho. revert p Hp. induction Ho as [|opt opts Hopt _ IH]; intros p Hp; [done|]. apply IH. by apply Hopt. Qed.

Lemma find_none_elem {A} (p : A → bool) l : find p l = None → ∀ x, x ∈ l → p x = false.
Proof.
  induction l as [|y l IH]; [by intros _ ? ?%not_elem_of_nil|]. cbn [find]. destruct (p y) eqn:Hy; [done|].
  intros Hl x [->|Hx]%elem_of_cons; [done|by apply IH].
Qed.

Lemma ForallOrdPairs_snoc {A} (R : A → A → Prop) l x : ForallOrdPairs R (l ++ [x]) ↔ ForallOrdPairs R l ∧ ∀ y, y ∈ l → R y x.
Proof.
  induction l as [|z l IH]; cbn [app].
  - split; [intros _; split; [constructor|by intros ? ?%not_elem_of_nil]|intros _; repeat constructor].
  - split.
    + inversion 1 as [|? ? Hz Hl]; subst. apply IH in Hl as [Hl Hx]. apply Forall_app in Hz as [Hz [Hzx _]%Forall_cons].
      split; [by constructor|]. intros y [->|Hy]%elem_of_cons; [done|by apply Hx].
    + intros [Hl Hx]. inversion Hl as [|? ? Hz Hl']; subst. constructor.
      * apply Forall_app. split; [done|]. apply Forall_singleton, Hx. left.
      * apply IH. split; [done|]. intros y Hy. apply Hx. by right.
Qed.

(** Map a fallible function over a list. *)
Fixpoint mapR {E A B} (f : A → result E B) (l : list A) : result E (list B) :=
  match l with
  | [] => Ok []
  | a :: l => b ← f a; bs ← mapR f l; Ok (b :: bs)
  end.

Lemma mapR_Ok {E A B} (f : A → result E B) l bs :
  mapR f l = Ok bs ↔ Forall2 (λ a b, f a = Ok b) l bs.
Proof.
  revert bs. induction l as [|a l IH]; intros bs; simpl.
  - split; [intros; by inv_result|]. by inversion 1.
  - split.
    + intros H. inv_result. constructor; [done|]. by apply IH.
    + inversion 1 as [|? b ? bs' Hb Hbs]; subst. rewrite Hb. simpl.
      apply IH in Hbs. by rewrite Hbs.
Qed.

(** ** Stable sorting

    [slices.SortStableFunc] as an insertion sort: [le a b] is [cmp a b <= 0]. *)
Section stable_sort.
Context {A : Type} (le : A → A → bool).

Fixpoint insert_stable (x : A) (l : list A) : list A :=
  match l with
  | [] => [x]
  | y :: l' => if le x y then x :: l else y :: insert_stable x l'
  end.

Definition sort_stable (l : list A) : list A := foldr insert_stable [] l.

Lemma insert_stable_perm x l : insert_stable x l ≡ₚ x :: l.
Proof.
  induction l as [|y l IH]; simpl; [done|]. destruct (le x y); [done|].
  rewrite IH. apply Permutation_swap.
Qed.

Lemma sort_stable_perm l : sort_stable l ≡ₚ l.
Proof.
  induction l as [|x l IH]; simpl; [done|]. by rewrite insert_stable_perm, IH.
Qed.

Context (le_total : ∀ x y, le x y = true ∨ le y x = true).
Context (le_trans : ∀ x y z, le x y = true → le y z = true → le x z = true).

Lemma insert_stable_sorted x l :
  StronglySorted (λ a b, le a b = true) l → StronglySorted (λ a b, le a b = true) (insert_stable x l).
Proof using le_total le_trans.
  induction 1 as [|y l Hl IH Hy]; simpl; [by repeat constructor|].
  destruct (le x y) eqn:Hxy.
  - constructor; [by constructor|]. constructor; [done|].
    eapply Forall_impl; [exact Hy|]. intros z Hz; eapply le_trans; eauto.
  - constructor; [done|]. rewrite insert_stable_perm. constructor; [|done].
    destruct (le_total x y); congruence.
Qed.

Lemma sort_stable_sorted l : StronglySorted (λ a b, le a b = true) (sort_stable l).
Proof using le_total le_trans.
  induction l as [|x l IH]; simpl; [constructor|]. by apply insert_stable_sorted.
Qed.

(** Sorting a sorted list changes nothing. *)
Lemma sort_stable_id l : StronglySorted (λ a b, le a b = true) l → sort_stable l = l.
Proof.
  induction 1 as [|x l Hl IH Hx]; [done|]. simpl. rewrite IH.
  destruct l as [|y l]; [done|]. simpl. apply Forall_cons_1 in Hx as [Hxy _]. by rewrite Hxy.
Qed.

(** Stability: the elements equivalent to [k] keep their relative order. *)
Definition equivb (x y : A) : bool := le x y && le y x.

Lemma insert_stable_filter x l k :
  filter (λ y, equivb k y = true) (insert_stable x l) = filter (λ y, equivb k y = true) (x :: l).
Proof using le_trans.
  induction l as [|y l IH]; [done|]. simpl.
  destruct (le x y) eqn:Hxy; [done|].
  rewrite filter_cons, IH, !filter_cons.
  destruct (decide (equivb k y = true)) as [Hy|Hy]; [|done].
  destruct (decide (equivb k x = true)) as [Hx|Hx]; [|done].
  exfalso. unfold equivb in *. apply andb_prop in Hx as [_ Hx], Hy as [Hy _].
  pose proof (le_trans _ _ _ Hx Hy). congruence.
Qed.

Lemma sort_stable_filter l k :
  filter (λ y, equivb k y = true) (sort_stable l) = filter (λ y, equivb k y = true) l.
Proof using le_trans.
  induction l as [|x l IH]; [done|]. simpl sort_stable.
  rewrite insert_stable_filter, !filter_cons. by rewrite IH.
Qed.
End stable_sort.

(** ** Rebuilding a map entry by entry

    A Go loop [for k, v := range m { m[k] = f(k, v) }]. *)
Definition map_rebuild {A B} (f : string → A → B) (m : gmap string A) : gmap string B :=
  map_fold (λ k v acc, <[k := f k v]> acc) ∅ m.

Lemma lookup_map_rebuild {A B} (f : string → A → B) (m : gmap string A) k :
  map_rebuild f m !! k = f k <$> m !! k.
Proof.
  unfold map_rebuild. revert k.
  apply (map_fold_weak_ind (λ acc m, ∀ k, acc !! k = f k <$> m !! k)).
  - intros k. by rewrite !lookup_empty.
  - intros k v m' acc Hk IH j. destruct (decide (k = j)) as [->|Hne].
    + by rewrite !lookup_insert_eq.
    + by rewrite !lookup_insert_ne.
Qed.

(** The same loops when the body also changes a state that outlives it. *)
Definition map_rebuild_st {St A B} (f : string → A → St → St * B) (m : gmap string A) (st : St) : St * gmap string B :=
  map_fold (λ k v acc, let '(st, b) := f k v acc.1 in (st, <[k := b]> acc.2)) (st, ∅) m.

Fixpoint list_rebuild_st {St A B} (f : nat → A → St → St * B) (i : nat) (l : list A) (st : St) : St * list B :=
  match l with
  | [] => (st, [])
  | a :: l => let '(st, b) := f i a st in let '(st, bs) := list_rebuild_st f (S i) l st in (st, b :: bs)
  end.

(** Invariant rule: [P st done acc] relates the state, the entries visited and
    the map built from them. *)
Lemma map_rebuild_st_ind {St A B} (P : St → gmap string A → gmap string B → Prop) (f : string → A → St → St * B) m st :
  P st ∅ ∅ →
  (∀ k v m' acc st', m !! k = Some v → m' !! k = None → m' ⊆ m → P st' m' acc →
     P (f k v st').1 (<[k := v]> m') (<[k := (f k v st').2]> acc)) →
  P (map_rebuild_st f m st).1 m (map_rebuild_st f m st).2.
Proof.
  intros H0 Hstep. unfold map_rebuild_st.
  set (step := λ k v (acc : St * gmap string B), let '(st, b) := f k v acc.1 in (st, <[k := b]> acc.2)).
  assert (∀ m', m' ⊆ m → P (map_fold step (st, ∅) m').1 m' (map_fold step (st, ∅) m').2) as Hall; [|by apply Hall].
  intros m'. pose proof (map_fold_weak_ind (λ r m', m' ⊆ m → P r.1 m' r.2) step (st, ∅)) as Hind. apply Hind; [done|].
  intros k v m1 [st1 acc] Hk IH Hsub. simpl in *.
  assert (m1 ⊆ m) as Hm1 by (etransitivity; [apply insert_subseteq; exact Hk|exact Hsub]).
  specialize (Hstep k v m1 acc st1). unfold step. simpl. destruct (f k v st1) as [st2 b] eqn:Hf. simpl in *.
  apply Hstep; [|done|done|by apply IH].
  eapply lookup_weaken; [|exact Hsub]. apply lookup_insert_eq.
Qed.

(** ** Strings of decimal digits and integers *)

Definition itoa (n : nat) : string := pretty (N.of_nat n).

#[export] Instance itoa_inj : Inj (=) (=) itoa.
Proof. intros n m Heq. unfold itoa in Heq. apply (inj pretty) in Heq. lia. Qed.

(** The item of a list whose index, in decimal, is a path segment. *)
Fixpoint nth_named {A} (i : nat) (l : list A) (seg : string) : option A :=
  match l with
  | [] => None
  | x :: l => if String.eqb (itoa i) seg then Some x else nth_named (S i) l seg
  end.

(** ** Automation *)

Create HintDb fastconf.
#[export] Hint Resolve sort_stable_perm : fastconf.

(** Case analysis on the boolean test or the match that blocks the goal. *)
Ltac case_bool :=
  match goal with
  | |- context [if ?b then _ else _] => destruct b eqn:?
  | H : context [if ?b then _ else _] |- _ => destruct b eqn:?
  end.
