(* ===== verification/GoStrings.v ===== *)
(** * Go strings

    A Go string is a sequence of bytes, here a [string] (a sequence of 8-bit
    [ascii]).  The functions of the packages [strings], [strconv] and [path]
    the repository uses are written out on bytes.  What depends on Unicode
    tables or on binary floating point is a field of the class [GoStd]. *)
From S2P Require Import Prelude.
From stdpp Require Import pretty.
From Stdlib Require Import Ascii String SpecFloat.

Open Scope string_scope.
Open Scope list_scope.
Open Scope nat_scope.
#[global] Arguments String.append !_ _ : simpl nomatch.

(** Byte literals used by the code. *)
Definition byte_of (n : nat) : ascii := ascii_of_nat n.

Fixpoint str_forallb (p : ascii → bool) (s : string) : bool :=
  match s with "" => true | String c s => p c && str_forallb p s end.

Fixpoint str_map (f : ascii → ascii) (s : string) : string :=
  match s with "" => "" | String c s => String (f c) (str_map f s) end.

Fixpoint str_drop (n : nat) (s : string) : string :=
  match n, s with
  | 0, _ => s
  | S n, "" => ""
  | S n, String _ s => str_drop n s
  end.

Fixpoint str_take (n : nat) (s : string) : string :=
  match n, s with
  | 0, _ => ""
  | S n, "" => ""
  | S n, String c s => String c (str_take n s)
  end.

Fixpoint str_rev_app (s acc : string) : string :=
  match s with "" => acc | String c s => str_rev_app s (String c acc) end.
Definition str_rev (s : string) : string := str_rev_app s "".

(** [strings.HasPrefix], [HasSuffix], [TrimPrefix], [TrimSuffix]. *)
Definition HasPrefix (s pre : string) : bool := String.prefix pre s.
Definition HasSuffix (s suf : string) : bool := String.prefix (str_rev suf) (str_rev s).
Definition TrimPrefix (s pre : string) : string :=
  if HasPrefix s pre then str_drop (String.length pre) s else s.
Definition TrimSuffix (s suf : string) : string :=
  if HasSuffix s suf then str_take (String.length s - String.length suf) s else s.

(** [%x] of the bytes of a string. *)
Definition hex_digit (n : nat) : ascii := ascii_of_nat (if n <? 10 then 48 + n else 87 + n).
Fixpoint hex (s : string) : string :=
  match s with
  | "" => ""
  | String c s => String (hex_digit (nat_of_ascii c / 16)) (String (hex_digit (nat_of_ascii c mod 16)) (hex s))
  end.

(** [strings.Cut]: the text around the first occurrence of [sep]. *)
Fixpoint strings_Cut (s sep : string) : option (string * string) :=
  if String.prefix sep s then Some ("", str_drop (String.length sep) s)
  else match s with
       | "" => None
       | String c s' =>
           match strings_Cut s' sep with
           | Some (a, b) => Some (String c a, b)
           | None => None
           end
       end.

Definition strings_Contains (s sep : string) : bool := bool_decide (is_Some (strings_Cut s sep)).

(** [strings.Split] for a non-empty separator (every caller in the repository
    passes one): [skip] counts the bytes of a separator still to be dropped. *)
Fixpoint split_go (sep : string) (skip : nat) (s : string) : list string :=
  match s with
  | "" => [""]
  | String c s' =>
      match skip with
      | S k => split_go sep k s'
      | 0 =>
          if String.prefix sep s then "" :: split_go sep (pred (String.length sep)) s'
          else match split_go sep 0 s' with
               | [] => [String c ""]
               | h :: t => String c h :: t
               end
      end
  end.
Definition strings_Split (s sep : string) : list string := split_go sep 0 s.

(** [strings.Join]. *)
Fixpoint strings_Join (parts : list string) (sep : string) : string :=
  match parts with
  | [] => ""
  | [p] => p
  | p :: ps => p +:+ sep +:+ strings_Join ps sep
  end.

(** [strings.ReplaceAll] for a non-empty [old]. *)
Fixpoint replace_go (old new : string) (skip : nat) (s : string) : string :=
  match s with
  | "" => ""
  | String c s' =>
      match skip with
      | S k => replace_go old new k s'
      | 0 => if String.prefix old s then new +:+ replace_go old new (pred (String.length old)) s'
             else String c (replace_go old new 0 s')
      end
  end.
Definition ReplaceAll (s old new : string) : string := replace_go old new 0 s.

(** [strings.TrimSpace]: the UTF-8 encodings of the runes for which
    [unicode.IsSpace] holds. *)
Definition bytes (l : list nat) : string := foldr (λ n s, String (ascii_of_nat n) s) "" l.

Definition space_runes : list string :=
  ((λ n, bytes [n]) <$> [9; 10; 11; 12; 13; 32])
  ++ [bytes [194; 133]; bytes [194; 160]; bytes [225; 154; 128]]
  ++ ((λ n, bytes [226; 128; n]) <$> seq 128 11)
  ++ [bytes [226; 128; 168]; bytes [226; 128; 169]; bytes [226; 128; 175];
      bytes [226; 129; 159]; bytes [227; 128; 128]].

(** Length of the token at the front of [s], 0 when there is none. *)
Fixpoint token_at (toks : list string) (s : string) : nat :=
  match toks with
  | [] => 0
  | t :: toks => if String.prefix t s then String.length t else token_at toks s
  end.

Fixpoint trim_left_go (toks : list string) (skip : nat) (s : string) : string :=
  match s with
  | "" => ""
  | String c s' =>
      match skip with
      | S k => trim_left_go toks k s'
      | 0 => match token_at toks s with
             | S k => trim_left_go toks k s'
             | 0 => s
             end
      end
  end.

Definition trim_left (toks : list string) (s : string) : string := trim_left_go toks 0 s.
Definition trim_right (toks : list string) (s : string) : string :=
  str_rev (trim_left_go (str_rev <$> toks) 0 (str_rev s)).
Definition TrimSpace (s : string) : string := trim_right space_runes (trim_left space_runes s).

(** [strings.TrimLeft] and [TrimRight] with a cut set of ASCII bytes. *)
Fixpoint explode (s : string) : list string :=
  match s with "" => [] | String c s => String c "" :: explode s end.
Definition TrimLeft (s cutset : string) : string := trim_left (explode cutset) s.
Definition TrimRight (s cutset : string) : string := trim_right (explode cutset) s.

(** Bytes *)
Definition is_digit (c : ascii) : bool :=
  let n := nat_of_ascii c in (48 <=? n)%nat && (n <=? 57)%nat.
Definition is_lower (c : ascii) : bool :=
  let n := nat_of_ascii c in (97 <=? n)%nat && (n <=? 122)%nat.
Definition is_upper (c : ascii) : bool :=
  let n := nat_of_ascii c in (65 <=? n)%nat && (n <=? 90)%nat.
Definition is_ascii (c : ascii) : bool := (nat_of_ascii c <? 128)%nat.
Definition lower_byte (c : ascii) : ascii :=
  if is_upper c then ascii_of_nat (nat_of_ascii c + 32) else c.

(** ** What is left to the Go standard library

    [go_parse_float] is [strconv.ParseFloat(s, 64)], [go_lower_unicode] is
    [strings.ToLower] on a string with a byte of 128 or more, [go_sha256] is
    [crypto/sha256] and [go_marshal_float] is the JSON text [encoding/json]
    writes for a float (an error for NaN and the infinities). *)
Class GoStd := {
  go_parse_float : string → option spec_float;
  go_lower_unicode : string → string;
  go_sha256 : string → string;
  go_marshal_float : bool → spec_float → option string;
}.

(** One way to fill the class, to evaluate definitions on examples. *)
Definition example_std : GoStd := {|
  go_parse_float s := if String.eqb s "1.5" then Some (S754_finite false 3 (-1)) else None;
  go_lower_unicode s := s;
  go_sha256 s := s;
  go_marshal_float _ _ := Some "1.5";
|}.

Section go_std.
Context `{GoStd}.

Definition ToLower (s : string) : string :=
  if str_forallb is_ascii s then str_map lower_byte s else go_lower_unicode s.
End go_std.

(** [strconv.ParseInt(s, 10, bits)]. *)
Fixpoint digits_val (acc : Z) (s : string) : option Z :=
  match s with
  | "" => Some acc
  | String c s =>
      if is_digit c then digits_val (10 * acc + (Z.of_nat (nat_of_ascii c) - 48))%Z s else None
  end.

Definition parse_digits (s : string) : option Z :=
  match s with "" => None | _ => digits_val 0 s end.

Definition ParseInt (s : string) (bits : Z) : option Z :=
  let chk n := if ((- 2 ^ (bits - 1) <=? n) && (n <? 2 ^ (bits - 1)))%Z then Some n else None in
  match s with
  | String "-" s' => n ← parse_digits s'; chk (- n)%Z
  | String "+" s' => n ← parse_digits s'; chk n
  | _ => n ← parse_digits s; chk n
  end.

(** [strconv.ParseUint(s, 10, bits)]. *)
Definition ParseUint (s : string) (bits : Z) : option Z :=
  n ← parse_digits s; if (n <? 2 ^ bits)%Z then Some n else None.

(** [strconv.Atoi] on a platform whose [int] has 64 bits. *)
Definition Atoi (s : string) : option Z := ParseInt s 64.

(** [strings.Compare]: byte-wise lexicographic order, as a test for [<=]. *)
Fixpoint str_leb (a b : string) : bool :=
  match a, b with
  | "", _ => true
  | String _ _, "" => false
  | String x a', String y b' =>
      let m := nat_of_ascii x in let n := nat_of_ascii y in
      if (m <? n)%nat then true else if (n <? m)%nat then false else str_leb a' b'
  end.

Definition sort_strings (l : list string) : list string := sort_stable str_leb l.

(** [path.Clean] and [path.Join] on slash-separated paths. *)
Fixpoint clean_elems (rooted : bool) (out : list string) (l : list string) : list string :=
  match l with
  | [] => rev out
  | e :: l =>
      if String.eqb e "" || String.eqb e "." then clean_elems rooted out l
      else if String.eqb e ".." then
        match out with
        | h :: t => if String.eqb h ".." then clean_elems rooted (e :: out) l
                    else clean_elems rooted t l
        | [] => if rooted then clean_elems rooted [] l else clean_elems rooted [e] l
        end
      else clean_elems rooted (e :: out) l
  end.

Definition path_Clean (p : string) : string :=
  let rooted := String.prefix "/" p in
  let body := strings_Join (clean_elems rooted [] (strings_Split p "/")) "/" in
  if rooted then "/" +:+ body else if String.eqb body "" then "." else body.

Definition path_Join (elems : list string) : string :=
  match filter (λ e, e ≠ "") elems with
  | [] => ""
  | es => path_Clean (strings_Join es "/")
  end.

(** [utf8.ValidString]: [pend] holds the ranges the next bytes must be in. *)
Definition utf8_start (n : nat) : option (list (nat * nat)) :=
  let c := (128, 191) in
  if n <? 128 then Some []
  else if (194 <=? n) && (n <=? 223) then Some [c]
  else if n =? 224 then Some [(160, 191); c]
  else if ((225 <=? n) && (n <=? 236)) || (n =? 238) || (n =? 239) then Some [c; c]
  else if n =? 237 then Some [(128, 159); c]
  else if n =? 240 then Some [(144, 191); c; c]
  else if (241 <=? n) && (n <=? 243) then Some [c; c; c]
  else if n =? 244 then Some [(128, 143); c; c]
  else None.

Fixpoint utf8_valid_go (pend : list (nat * nat)) (s : string) : bool :=
  match s, pend with
  | "", [] => true
  | "", _ :: _ => false
  | String b s, [] =>
      match utf8_start (nat_of_ascii b) with Some p => utf8_valid_go p s | None => false end
  | String b s, (lo, hi) :: p =>
      (lo <=? nat_of_ascii b) && (nat_of_ascii b <=? hi) && utf8_valid_go p s
  end.
Definition utf8_ValidString (s : string) : bool := utf8_valid_go [] s.

(** [fs.ValidPath]. *)
Definition fs_ValidPath (name : string) : bool :=
  utf8_ValidString name
  && (String.eqb name "."
      || forallb (λ e, negb (String.eqb e "" || String.eqb e "." || String.eqb e ".."))
           (strings_Split name "/")).

(** [filepath.Ext]: from the last dot of the last element. *)
Fixpoint ext_go (s acc : string) : string :=
  match s with
  | "" => acc
  | String c s' =>
      if Ascii.eqb c "/" then ext_go s' "" else if Ascii.eqb c "." then ext_go s' s else ext_go s' acc
  end.
Definition filepath_Ext (s : string) : string := ext_go s "".

(** [strings.IndexByte] and [LastIndexByte] as cuts around the byte. *)
Fixpoint cut_last (b : ascii) (s : string) : option (string * string) :=
  match s with
  | "" => None
  | String c s' =>
      match cut_last b s' with
      | Some (x, y) => Some (String c x, y)
      | None => if Ascii.eqb c b then Some ("", s') else None
      end
  end.

(** [strings.ContainsAny] for a set of ASCII bytes. *)
Definition ContainsAny (s set_ : string) : bool :=
  negb (str_forallb (λ c, negb (existsb (String.eqb (String c "")) (explode set_))) s).

(** ** Lemmas *)

Lemma app_str_nil_r (s : string) : s +:+ "" = s.
Proof. induction s; simpl; congruence. Qed.

Lemma app_str_assoc (a b c : string) : (a +:+ b) +:+ c = a +:+ (b +:+ c).
Proof. induction a; simpl; congruence. Qed.

Lemma prefix_app (p s : string) : String.prefix p (p +:+ s) = true.
Proof.
  induction p as [|c p IH]; simpl; [by destruct s|]. by destruct (ascii_dec c c).
Qed.

Lemma prefix_inv (p s : string) :
  String.prefix p s = true → s = p +:+ str_drop (String.length p) s.
Proof.
  revert s. induction p as [|c p IH]; intros s Hp; simpl; [by destruct s|].
  destruct s as [|d s]; simpl in *; [done|].
  destruct (ascii_dec c d) as [->|]; [|done]. by rewrite <-IH.
Qed.

Lemma length_app_str (a b : string) : String.length (a +:+ b) = String.length a + String.length b.
Proof. induction a; simpl; congruence. Qed.

Lemma str_drop_app (a b : string) : str_drop (String.length a) (a +:+ b) = b.
Proof. by induction a. Qed.

Lemma TrimPrefix_app (a b : string) : TrimPrefix (a +:+ b) a = b.
Proof. unfold TrimPrefix, HasPrefix. by rewrite prefix_app, str_drop_app. Qed.

Lemma str_drop_length n s : String.length (str_drop n s) = String.length s - n.
Proof. revert s. induction n; intros [|c s]; simpl; auto with lia. Qed.

Lemma split_go_skip sep k s : split_go sep k s = split_go sep 0 (str_drop k s).
Proof. revert k. induction s as [|c s IH]; intros [|k]; simpl; auto. Qed.

Lemma split_go_ne sep k s : split_go sep k s ≠ [].
Proof.
  revert k. induction s as [|c s IH]; intros [|k]; cbn [split_go]; [done..| |by auto].
  destruct (String.prefix _ _); [done|]. by destruct (split_go sep 0 s).
Qed.

Lemma Split_eq sep s :
  strings_Split s sep = match s with
  | "" => [""]
  | String c s' =>
      if String.prefix sep s then "" :: strings_Split (str_drop (pred (String.length sep)) s') sep
      else match strings_Split s' sep with [] => [String c ""] | h :: t => String c h :: t end
  end.
Proof.
  unfold strings_Split. destruct s as [|c s]; [done|]. simpl.
  by rewrite (split_go_skip _ (pred _)).
Qed.

Lemma Split_ne s sep : strings_Split s sep ≠ [].
Proof. apply split_go_ne. Qed.

Lemma Join_cons p ps sep : ps ≠ [] → strings_Join (p :: ps) sep = p +:+ sep +:+ strings_Join ps sep.
Proof. by destruct ps. Qed.

(** Splitting and joining with the same separator gives the string back. *)
Lemma Join_Split s sep : sep ≠ "" → strings_Join (strings_Split s sep) sep = s.
Proof.
  intros Hsep. remember (String.length s) as n eqn:Hn.
  revert s Hn. induction (lt_wf n) as [n _ IH]; intros s ->.
  rewrite Split_eq. destruct s as [|c s]; [done|].
  destruct (String.prefix sep (String c s)) eqn:Hp.
  - rewrite Join_cons by apply Split_ne. rewrite (IH (String.length (str_drop (pred (String.length sep)) s)));
      [|rewrite str_drop_length; simpl; lia|done].
    apply prefix_inv in Hp. destruct sep as [|d sep]; [done|]. by rewrite Hp.
  - specialize (IH (String.length s) ltac:(simpl; lia) s eq_refl).
    destruct (strings_Split s sep) as [|h t] eqn:Hs; [by apply Split_ne in Hs|].
    destruct t as [|h' t]; simpl in *; congruence.
Qed.

(** A part that does not contain the separator byte. *)
Definition no_byte (d : ascii) (s : string) : bool := str_forallb (λ c, negb (Ascii.eqb c d)) s.

Lemma Split_no_byte d s : no_byte d s = true → strings_Split s (String d "") = [s].
Proof.
  induction s as [|c s IH]; [done|]. intros Hs. rewrite Split_eq. simpl in *.
  apply andb_prop in Hs as [Hc Hs]. destruct (ascii_dec d c) as [->|].
  - by rewrite Ascii.eqb_refl in Hc.
  - by rewrite IH.
Qed.

Lemma Split_app d p s :
  no_byte d p = true → strings_Split (p +:+ String d s) (String d "") = p :: strings_Split s (String d "").
Proof.
  induction p as [|c p IH]; intros Hp; rewrite Split_eq; simpl in *.
  - destruct (ascii_dec d d); [|done]. by destruct s.
  - apply andb_prop in Hp as [Hc Hp]. destruct (ascii_dec d c) as [->|].
    + by rewrite Ascii.eqb_refl in Hc.
    + by rewrite IH.
Qed.

(** Joining and splitting with a one-byte separator gives the parts back. *)
Lemma Split_Join d ps :
  ps ≠ [] → Forall (λ p, no_byte d p = true) ps → strings_Split (strings_Join ps (String d "")) (String d "") = ps.
Proof.
  intros Hne Hps. induction Hps as [|p ps Hp Hps IH]; [done|].
  destruct ps as [|q ps]; [by apply Split_no_byte|].
  rewrite Join_cons by done. change (String d "" +:+ ?x) with (String d x).
  rewrite Split_app by done. by rewrite IH.
Qed.

Lemma str_leb_refl a : str_leb a a = true.
Proof.
  induction a as [|c a IH]; simpl; [done|]. rewrite Nat.ltb_irrefl. done.
Qed.

Lemma str_leb_total a b : str_leb a b = true ∨ str_leb b a = true.
Proof.
  revert b. induction a as [|c a IH]; intros [|d b]; simpl; auto.
  destruct (Nat.ltb_spec (nat_of_ascii c) (nat_of_ascii d)); [by left|].
  destruct (Nat.ltb_spec (nat_of_ascii d) (nat_of_ascii c)); [by right|].
  apply IH.
Qed.

Lemma str_leb_trans a b c : str_leb a b = true → str_leb b c = true → str_leb a c = true.
Proof.
  revert b c. induction a as [|x a IH]; intros [|y b] [|z c]; simpl; try done.
  destruct (Nat.ltb_spec (nat_of_ascii x) (nat_of_ascii y));
    destruct (Nat.ltb_spec (nat_of_ascii y) (nat_of_ascii x));
    destruct (Nat.ltb_spec (nat_of_ascii y) (nat_of_ascii z));
    destruct (Nat.ltb_spec (nat_of_ascii z) (nat_of_ascii y));
    destruct (Nat.ltb_spec (nat_of_ascii x) (nat_of_ascii z));
    destruct (Nat.ltb_spec (nat_of_ascii z) (nat_of_ascii x)); try done; try lia; eauto.
Qed.

Lemma str_leb_antisym a b : str_leb a b = true → str_leb b a = true → a = b.
Proof.
  revert b. induction a as [|x a IH]; intros [|y b]; simpl; try done.
  destruct (Nat.ltb_spec (nat_of_ascii x) (nat_of_ascii y));
    destruct (Nat.ltb_spec (nat_of_ascii y) (nat_of_ascii x)); try done; try lia.
  intros Hab Hba. f_equal; [|by apply IH].
  rewrite <-(ascii_nat_embedding x), <-(ascii_nat_embedding y). f_equal. lia.
Qed.

Lemma str_rev_app_spec s acc : str_rev_app s acc = str_rev s +:+ acc.
Proof.
  revert acc. unfold str_rev. induction s as [|c s IH]; intros acc; simpl; [done|].
  rewrite IH, (IH (String c "")). by rewrite app_str_assoc.
Qed.

Lemma str_rev_cons c s : str_rev (String c s) = str_rev s +:+ String c "".
Proof. unfold str_rev at 1. simpl. apply str_rev_app_spec. Qed.

Lemma str_rev_append a b : str_rev (a +:+ b) = str_rev b +:+ str_rev a.
Proof.
  induction a as [|c a IH]; simpl.
  - by rewrite app_str_nil_r.
  - by rewrite !str_rev_cons, IH, app_str_assoc.
Qed.

Lemma str_rev_involutive s : str_rev (str_rev s) = s.
Proof. induction s as [|c s IH]; [done|]. by rewrite str_rev_cons, str_rev_append, IH. Qed.

Lemma str_snoc_cases s : s = "" ∨ ∃ t c, s = t +:+ String c "".
Proof.
  rewrite <-(str_rev_involutive s). destruct (str_rev s) as [|c t]; [by left|right].
  exists (str_rev t), c. apply str_rev_cons.
Qed.

Lemma str_forallb_app p a b : str_forallb p (a +:+ b) = str_forallb p a && str_forallb p b.
Proof. induction a; simpl; [done|]. by rewrite IHa, andb_assoc. Qed.

Lemma str_forallb_impl (p q : ascii → bool) s :
  (∀ c, p c = true → q c = true) → str_forallb p s = true → str_forallb q s = true.
Proof.
  intros Hpq. induction s as [|c s IH]; simpl; [done|].
  intros [Hc Hs]%andb_prop. by rewrite Hpq, IH.
Qed.

Lemma Cut_app a d b : no_byte d a = true → strings_Cut (a +:+ String d b) (String d "") = Some (a, b).
Proof.
  unfold no_byte. induction a as [|c a IH]; intros Ha; simpl.
  - destruct (ascii_dec d d); [|done]. by destruct b.
  - simpl in Ha. apply andb_prop in Ha as [Hc Ha]. destruct (ascii_dec d c) as [->|].
    + by rewrite Ascii.eqb_refl in Hc.
    + by rewrite IH.
Qed.

Lemma Cut_none a d : no_byte d a = true → strings_Cut a (String d "") = None.
Proof.
  unfold no_byte. induction a as [|c a IH]; intros Ha; simpl; [done|].
  simpl in Ha. apply andb_prop in Ha as [Hc Ha]. destruct (ascii_dec d c) as [->|].
  - by rewrite Ascii.eqb_refl in Hc.
  - by rewrite IH.
Qed.

(** Texts that end at the first byte [d], or after a fixed length. *)
Lemma app_byte_inj d a b x y :
  no_byte d a = true → no_byte d b = true → a +:+ String d x = b +:+ String d y → a = b ∧ x = y.
Proof.
  intros Ha Hb Heq. pose proof (Cut_app a d x Ha) as H1. rewrite Heq, (Cut_app b d y Hb) in H1.
  by simplify_eq.
Qed.

Lemma app_length_inj a b x y :
  String.length a = String.length b → a +:+ x = b +:+ y → a = b ∧ x = y.
Proof.
  revert b. induction a as [|c a IH]; intros [|d b] Hlen Heq; simpl in *; try done.
  injection Hlen as Hlen. injection Heq as -> Heq. by destruct (IH b Hlen Heq) as [-> ->].
Qed.

Lemma length_str_take n s : String.length (str_take n s) = Nat.min n (String.length s).
Proof. revert s. induction n as [|n IH]; intros [|c s]; simpl; [done..|]. by rewrite IH. Qed.

Lemma str_take_drop n s : str_take n s +:+ str_drop n s = s.
Proof. revert s. induction n as [|n IH]; intros [|c s]; simpl; [done..|]. by rewrite IH. Qed.

Lemma str_take_ge n s : (String.length s ≤ n)%nat → str_take n s = s.
Proof.
  revert s. induction n as [|n IH]; intros [|c s] Hn; simpl in *; [done|lia|done|].
  f_equal. apply IH. lia.
Qed.

Lemma str_take_app (a b : string) : str_take (String.length a) (a +:+ b) = a.
Proof. induction a as [|c a IH]; simpl; [by destruct b|by rewrite IH]. Qed.

Lemma lower_byte_dot c : lower_byte c = "."%char → c = "."%char.
Proof. destruct c as [[] [] [] [] [] [] [] []]; vm_compute; congruence. Qed.

(** A string without the byte, or its split at the first one. *)
Lemma byte_cut d s : no_byte d s = true ∨ ∃ a b, no_byte d a = true ∧ s = a +:+ String d b.
Proof.
  induction s as [|c s IH]; [by left|]. destruct (Ascii.eqb_spec c d) as [->|Hc]; [right; by exists "", s|].
  assert (∀ t, no_byte d t = true → no_byte d (String c t) = true) as Hcons.
  { intros t Ht. unfold no_byte in *. cbn. rewrite Ht. by destruct (Ascii.eqb_spec c d). }
  destruct IH as [IH|(a & b & Ha & ->)]; [left; by apply Hcons|right]. exists (String c a), b. split; [by apply Hcons|done].
Qed.

(** A separator at the end adds an empty piece. *)
Lemma Split_end d x : strings_Split (x +:+ String d "") (String d "") = strings_Split x (String d "") ++ [""].
Proof.
  remember (String.length x) as n eqn:Hn. revert x Hn. induction (lt_wf n) as [n _ IH]. intros x ->.
  destruct (byte_cut d x) as [Hx|(a & b & Ha & ->)].
  - rewrite Split_app, (Split_no_byte d x) by done. done.
  - change ((a +:+ String d b) +:+ String d "") with ((a +:+ String d b) +:+ String d ""). rewrite app_str_assoc.
    change (String d b +:+ String d "") with (String d (b +:+ String d "")). rewrite (Split_app d a (b +:+ String d "") Ha), (Split_app d a b Ha). cbn [app]. f_equal.
    eapply IH; [|done]. rewrite length_app_str. simpl. lia.
Qed.

(** ** Trimming *)

Definition head_not (p : ascii → bool) (t : string) : bool :=
  match t with String d _ => negb (p d) | "" => false end.

Lemma token_at_none (p : ascii → bool) toks c s :
  forallb (head_not p) toks = true → p c = true → token_at toks (String c s) = 0.
Proof.
  intros Ht Hc. induction toks as [|t toks IH]; [done|]. simpl in Ht. apply andb_prop in Ht as [H Ht].
  destruct t as [|d t]; [done|]. cbn [token_at String.prefix]. simpl in H.
  destruct (ascii_dec d c) as [->|]; [by rewrite Hc in H|]. by apply IH.
Qed.

(** A visible ASCII byte: no rune that [TrimSpace] removes starts or ends with it. *)
Definition visible (c : ascii) : bool := (33 <=? nat_of_ascii c) && (nat_of_ascii c <=? 126).

Lemma trim_left_visible toks c s :
  forallb (head_not visible) toks = true → visible c = true → trim_left_go toks 0 (String c s) = String c s.
Proof. intros Ht Hc. simpl. by rewrite (token_at_none visible). Qed.

Lemma TrimSpace_visible c s d t :
  visible c = true → visible d = true → String c s = t +:+ String d "" → TrimSpace (String c s) = String c s.
Proof.
  intros Hc Hd Heq. unfold TrimSpace, trim_left. rewrite trim_left_visible by done.
  unfold trim_right. rewrite Heq at 1. rewrite str_rev_append.
  change (str_rev (String d "") +:+ str_rev t) with (String d (str_rev t)).
  rewrite trim_left_visible by done. change (String d (str_rev t)) with (str_rev (String d "") +:+ str_rev t).
  by rewrite <-str_rev_append, str_rev_involutive.
Qed.

#[export] Hint Resolve str_leb_refl str_leb_total : fastconf.
