(* ===== verification/Value.v ===== *)
(** * Configuration values

    The dynamic values ([any]) of a JSON-shaped [map[string]any] tree.  A typed
    nil map or slice is distinct from an empty one, as in Go.  [VOpaque] stands
    for a value of any other dynamic type (a [time.Time], a typed container,
    ...): no type switch of the modelled code singles one out. *)
From S2P Require Import Prelude GoStrings.
From Stdlib Require Import SpecFloat.

Inductive intkind := KInt | KInt8 | KInt16 | KInt32 | KInt64
                   | KUint | KUint8 | KUint16 | KUint32 | KUint64.
Inductive floatkind := KFloat32 | KFloat64.

Inductive value : Type :=
| VNil
| VBool (b : bool)
| VString (s : string)
| VInt (k : intkind) (n : Z)
| VFloat (k : floatkind) (f : spec_float)
| VNumber (lit : string)
| VMap (m : gmap string value)
| VNilMap
| VSlice (l : list value)
| VNilSlice
| VOpaque (ty : string) (id : N).

#[export] Instance intkind_eq_dec : EqDecision intkind.
Proof. solve_decision. Defined.
#[export] Instance floatkind_eq_dec : EqDecision floatkind.
Proof. solve_decision. Defined.
#[export] Instance spec_float_eq_dec : EqDecision spec_float.
Proof. solve_decision. Defined.

(** A Go [map[string]any] variable: [None] is the nil map. *)
Notation gomap := (option (gmap string value)).

Definition VMapOpt (m : gomap) : value :=
  match m with Some m => VMap m | None => VNilMap end.

(** [v.(map[string]any)] *)
Definition as_map (v : value) : option gomap :=
  match v with VMap m => Some (Some m) | VNilMap => Some None | _ => None end.

(** [v.(string)] *)
Definition as_string (v : value) : option string :=
  match v with VString s => Some s | _ => None end.

(** The elements of [v.([]any)], a nil slice having none. *)
Definition as_slice (v : value) : option (list value) :=
  match v with VSlice l => Some l | VNilSlice => Some [] | _ => None end.

(** A read of a possibly nil map: [m[k]] with its [ok]. *)
Definition gomap_lookup (m : gomap) (k : string) : option value := m ≫= (.!! k).

(** ** Induction on values *)

Fixpoint value_size (v : value) : nat :=
  match v with
  | VMap m => S (map_fold (λ _ x acc, value_size x + acc) 0 m)
  | VSlice l => S (foldr (λ x acc, value_size x + acc) 0 l)
  | _ => 1
  end.

Lemma value_size_map m k v : m !! k = Some v → value_size v < value_size (VMap m).
Proof.
  intros Hk. simpl. apply Nat.lt_succ_r.
  rewrite <-(insert_delete_id m k v Hk).
  rewrite map_fold_insert_L; [lia| |apply lookup_delete_eq].
  intros. lia.
Qed.

Lemma value_size_slice l v : v ∈ l → value_size v < value_size (VSlice l).
Proof.
  intros Hv. simpl. apply Nat.lt_succ_r. induction Hv; simpl; lia.
Qed.

Lemma value_size_pos v : 0 < value_size v.
Proof. destruct v; simpl; lia. Qed.

(** Strong induction: the hypothesis holds for every smaller value. *)
Lemma value_lt_ind (P : value → Prop) :
  (∀ v, (∀ v', value_size v' < value_size v → P v') → P v) → ∀ v, P v.
Proof.
  intros HP v. remember (value_size v) as n eqn:Hn. revert v Hn.
  induction (lt_wf n) as [n _ IH]; intros v ->. apply HP. intros v' Hv'. by eapply IH.
Qed.

Section value_ind.
Variable P : value → Prop.
Hypothesis HMap : ∀ m, map_Forall (λ _, P) m → P (VMap m).
Hypothesis HSlice : ∀ l, Forall P l → P (VSlice l).
Hypothesis HLeaf : ∀ v, as_map v = None ∨ v = VNilMap → as_slice v = None ∨ v = VNilSlice → P v.

Lemma value_tree_ind v : P v.
Proof using HMap HSlice HLeaf.
  induction v as [v IH] using value_lt_ind.
  destruct v as [| | | | | |m| |l| |]; try (apply HLeaf; simpl; auto; fail).
  - apply HMap. intros k v Hk. by eapply IH, value_size_map.
  - apply HSlice. apply Forall_forall. intros v Hv. by apply IH, value_size_slice.
Qed.
End value_ind.

(** ** Decidable equality *)

Fixpoint value_eqb (a b : value) {struct a} : bool :=
  match a, b with
  | VNil, VNil => true
  | VBool x, VBool y => Bool.eqb x y
  | VString x, VString y => String.eqb x y
  | VInt k x, VInt j y => bool_decide (k = j) && Z.eqb x y
  | VFloat k x, VFloat j y => bool_decide (k = j) && bool_decide (x = y)
  | VNumber x, VNumber y => String.eqb x y
  | VMap x, VMap y =>
      bool_decide (dom x = dom y)
      && map_fold (λ k v acc, acc && match y !! k with Some w => value_eqb v w | None => false end) true x
  | VNilMap, VNilMap => true
  | VSlice x, VSlice y =>
      (fix go x y := match x, y with
       | [], [] => true
       | v :: x, w :: y => value_eqb v w && go x y
       | _, _ => false
       end) x y
  | VNilSlice, VNilSlice => true
  | VOpaque t i, VOpaque u j => String.eqb t u && N.eqb i j
  | _, _ => false
  end.

(** A conjunction over the entries of a map. *)
Definition map_all (p : string → value → bool) (m : gmap string value) : bool :=
  map_fold (λ k v acc, acc && p k v) true m.

Lemma map_all_spec p m : map_all p m = true ↔ map_Forall (λ k v, p k v = true) m.
Proof.
  unfold map_all.
  apply (map_fold_weak_ind (λ r m, r = true ↔ map_Forall (λ k v, p k v = true) m)).
  - split; [|done]. intros _. apply map_Forall_empty.
  - intros k v m' r Hk IH. rewrite map_Forall_insert by done.
    rewrite andb_true_iff, IH. tauto.
Qed.

Lemma value_eqb_spec a b : value_eqb a b = true ↔ a = b.
Proof.
  revert b. induction a as [m IH|l IH|v Hm Hs] using value_tree_ind; intros b.
  - destruct b as [| | | | | |y| | | |]; try done. simpl.
    change (map_fold _ true m) with
      (map_all (λ k v, match y !! k with Some w => value_eqb v w | None => false end) m).
    rewrite andb_true_iff, bool_decide_eq_true, map_all_spec. split.
    + intros [Hd Hall]. f_equal. apply map_eq. intros k.
      destruct (m !! k) as [v|] eqn:Hk.
      * specialize (Hall k v Hk). simpl in Hall. destruct (y !! k) as [w|] eqn:Hw; [|done].
        f_equal. by apply (IH k v Hk).
      * symmetry. apply not_elem_of_dom. rewrite <-Hd. by apply not_elem_of_dom.
    + intros [= ->]. split; [done|]. intros k v Hk. simpl. rewrite Hk. by apply (IH k v Hk).
  - destruct b as [| | | | | | | |y| |]; try done. simpl.
    revert y. induction IH as [|v l Hv Hl IHl]; intros [|w y]; try done.
    rewrite andb_true_iff, Hv. split.
    + intros [-> Hy]. apply IHl in Hy. congruence.
    + intros [= -> ->]. split; [done|]. by apply IHl.
  - destruct v, b; simpl; try done; try (by destruct Hm); try (by destruct Hs);
      rewrite ?andb_true_iff, ?Bool.eqb_true_iff, ?String.eqb_eq, ?Z.eqb_eq, ?N.eqb_eq,
        ?bool_decide_eq_true; naive_solver.
Qed.

#[export] Instance value_eq_dec : EqDecision value.
Proof.
  refine (λ a b, cast_if (decide (value_eqb a b = true)));
    [by apply value_eqb_spec | by rewrite <-value_eqb_spec].
Defined.
