(* ===== verification/Path.v ===== *)
(** * Dotted paths and scalar coercion (confmap/path.go, confmap/coerce.go)

    Reads, writes and deletes by path in a [map[string]any] tree, and the
    bool / int64 / float64 / string coercion ladder shared by the providers. *)
From S2P Require Import Prelude GoStrings Value.

(** [Split]: the empty path has no segments. *)
Definition Split (dotted : string) : list string :=
  if String.eqb dotted "" then [] else strings_Split dotted ".".

(** The loop of [Get], on the value reached so far. *)
Fixpoint get_at (cur : value) (parts : list string) : option value :=
  match parts with
  | [] => Some cur
  | p :: rest =>
      match as_map cur with
      | None => None
      | Some m =>
          match gomap_lookup m p with
          | None => None
          | Some v => get_at v rest
          end
      end
  end.

Definition Get (root : gomap) (parts : list string) : option value :=
  match root, parts with
  | None, _ => None
  | _, [] => None
  | Some m, _ => get_at (VMap m) parts
  end.

Definition GetDotted (root : gomap) (dotted : string) : option value := Get root (Split dotted).

(** The loop of [Set]: a missing, nil or non-map intermediate value is replaced
    by a fresh map. *)
Fixpoint set_at (cur : gmap string value) (parts : list string) (v : value) : gmap string value :=
  match parts with
  | [] => cur
  | [p] => <[p := v]> cur
  | p :: rest =>
      let next := match cur !! p with Some (VMap m) => m | _ => ∅ end in
      <[p := VMap (set_at next rest v)]> cur
  end.

Definition Set_ (root : gomap) (parts : list string) (v : value) : gomap :=
  match root, parts with
  | None, _ | _, [] => root
  | Some m, _ => Some (set_at m parts v)
  end.

Definition SetDotted (root : gomap) (dotted : string) (v : value) : gomap := Set_ root (Split dotted) v.

Fixpoint delete_at (cur : gmap string value) (parts : list string) : gmap string value :=
  match parts with
  | [] => cur
  | [p] => delete p cur
  | p :: rest =>
      match cur !! p with
      | Some (VMap next) => <[p := VMap (delete_at next rest)]> cur
      | _ => cur
      end
  end.

Definition Delete (root : gomap) (parts : list string) : gomap :=
  match root, parts with
  | None, _ | _, [] => root
  | Some m, _ => Some (delete_at m parts)
  end.

Definition DeleteDotted (root : gomap) (dotted : string) : gomap := Delete root (Split dotted).

(** ** Coercion *)

Record CoerceOptions := { co_TrimSpace : bool; co_IgnoreCase : bool }.

Section coerce.
Context `{GoStd}.

Definition Coerce (s : string) (opts : CoerceOptions) : value :=
  let s := if co_TrimSpace opts then TrimSpace s else s in
  let candidate := if co_IgnoreCase opts then ToLower s else s in
  if String.eqb candidate "true" then VBool true
  else if String.eqb candidate "false" then VBool false
  else match ParseInt s 64 with
       | Some n => VInt KInt64 n
       | None =>
           match go_parse_float s with
           | Some f => VFloat KFloat64 f
           | None => VString s
           end
       end.
End coerce.

(** ** Lemmas *)

(** Two paths none of which is a prefix of the other. *)
Definition disjoint_paths (p q : list string) : Prop := ¬ p `prefix_of` q ∧ ¬ q `prefix_of` p.

Lemma set_at_cons m p rest v :
  rest ≠ [] →
  set_at m (p :: rest) v =
    <[p := VMap (set_at (match m !! p with Some (VMap m') => m' | _ => ∅ end) rest v)]> m.
Proof. by destruct rest. Qed.

Lemma delete_at_cons m p rest :
  rest ≠ [] →
  delete_at m (p :: rest) =
    match m !! p with Some (VMap next) => <[p := VMap (delete_at next rest)]> m | _ => m end.
Proof. by destruct rest. Qed.

Lemma get_at_map m p rest :
  get_at (VMap m) (p :: rest) = match m !! p with Some v => get_at v rest | None => None end.
Proof. done. Qed.

Lemma get_set_at m parts v : parts ≠ [] → get_at (VMap (set_at m parts v)) parts = Some v.
Proof.
  revert m. induction parts as [|p rest IH]; intros m Hne; [done|].
  destruct (decide (rest = [])) as [->|Hrest].
  - simpl set_at. rewrite get_at_map. by rewrite lookup_insert_eq.
  - rewrite set_at_cons by done. rewrite get_at_map, lookup_insert_eq. by apply IH.
Qed.

Lemma disjoint_paths_cons p q rest rest' :
  disjoint_paths (p :: rest) (q :: rest') → p ≠ q ∨ disjoint_paths rest rest'.
Proof.
  intros [H1 H2]. destruct (decide (p = q)) as [->|]; [right|by left].
  split; intros Hp; [apply H1|apply H2]; by apply prefix_cons.
Qed.

Lemma disjoint_paths_ne p q : disjoint_paths p q → p ≠ [] ∧ q ≠ [].
Proof.
  intros [H1 H2]. split; intros ->; [by apply H1, prefix_nil | by apply H2, prefix_nil].
Qed.

Lemma get_at_empty q : q ≠ [] → get_at (VMap ∅) q = None.
Proof. by destruct q. Qed.

Lemma get_at_non_map w q : (∀ m, w ≠ VMap m) → q ≠ [] → get_at w q = None.
Proof. intros Hw Hq. destruct q as [|x q]; [done|]. destruct w; simpl; try done. by destruct (Hw m). Qed.

(** The map at [p], or the fresh map [Set] descends into. *)
Definition child_map (m : gmap string value) (p : string) : gmap string value :=
  match m !! p with Some (VMap m') => m' | _ => ∅ end.

Lemma get_at_child m p q :
  q ≠ [] → get_at (VMap m) (p :: q) = get_at (VMap (child_map m p)) q.
Proof.
  intros Hq. rewrite get_at_map. unfold child_map.
  destruct (m !! p) as [w|] eqn:Hw; [|by rewrite get_at_empty].
  destruct w; try done; by rewrite get_at_empty, get_at_non_map.
Qed.

(** A write is not seen through a path disjoint from it. *)
Lemma get_set_at_frame m parts q v :
  disjoint_paths parts q → get_at (VMap (set_at m parts v)) q = get_at (VMap m) q.
Proof.
  revert m q. induction parts as [|p rest IH]; intros m q Hd.
  { by apply disjoint_paths_ne in Hd as [? ?]. }
  destruct q as [|q rest']; [by apply disjoint_paths_ne in Hd as [? ?]|].
  destruct (decide (p = q)) as [->|Hpq].
  - apply disjoint_paths_cons in Hd as [?|Hd]; [done|].
    pose proof (disjoint_paths_ne _ _ Hd) as [Hr Hr'].
    rewrite set_at_cons by done. rewrite get_at_map, lookup_insert_eq.
    rewrite get_at_child by done. by apply (IH (child_map m q)).
  - destruct (decide (rest = [])) as [->|Hr]; [simpl set_at|rewrite set_at_cons by done];
      rewrite !get_at_map; by rewrite lookup_insert_ne.
Qed.

Lemma set_set_at m parts v w : set_at (set_at m parts v) parts w = set_at m parts w.
Proof.
  revert m. induction parts as [|p rest IH]; intros m; [done|].
  destruct (decide (rest = [])) as [->|Hr]; [apply insert_insert_eq|].
  rewrite !set_at_cons by done. rewrite lookup_insert_eq, insert_insert_eq. by rewrite IH.
Qed.

Lemma set_get_at m parts v :
  get_at (VMap m) parts = Some v → parts ≠ [] → set_at m parts v = m.
Proof.
  revert m. induction parts as [|p rest IH]; intros m Hg Hne; [done|].
  destruct (decide (rest = [])) as [->|Hr].
  - rewrite get_at_map in Hg. simpl in Hg. destruct (m !! p) eqn:Hp; simplify_eq.
    by apply insert_id.
  - rewrite set_at_cons by done. rewrite get_at_map in Hg.
    destruct (m !! p) as [w|] eqn:Hp; [|done].
    destruct w; try (by rewrite get_at_non_map in Hg).
    rewrite IH by done. by apply insert_id.
Qed.

Lemma get_delete_at m parts : parts ≠ [] → get_at (VMap (delete_at m parts)) parts = None.
Proof.
  revert m. induction parts as [|p rest IH]; intros m Hne; [done|].
  destruct (decide (rest = [])) as [->|Hr].
  - simpl delete_at. rewrite get_at_map. by rewrite lookup_delete_eq.
  - rewrite delete_at_cons by done. destruct (m !! p) as [w|] eqn:Hp.
    + destruct w; rewrite get_at_map; rewrite ?lookup_insert_eq, ?Hp;
        solve [by apply get_at_non_map | by apply IH].
    + by rewrite get_at_map, Hp.
Qed.

Lemma get_delete_at_frame m parts q :
  disjoint_paths parts q → get_at (VMap (delete_at m parts)) q = get_at (VMap m) q.
Proof.
  revert m q. induction parts as [|p rest IH]; intros m q Hd.
  { by apply disjoint_paths_ne in Hd as [? ?]. }
  destruct q as [|q rest']; [by apply disjoint_paths_ne in Hd as [? ?]|].
  destruct (decide (p = q)) as [->|Hpq].
  - apply disjoint_paths_cons in Hd as [?|Hd]; [done|].
    pose proof (disjoint_paths_ne _ _ Hd) as [Hr Hr'].
    rewrite delete_at_cons by done.
    destruct (m !! q) as [w|] eqn:Hq; [|done]. destruct w; try done.
    rewrite !get_at_map, lookup_insert_eq, Hq. by apply IH.
  - destruct (decide (rest = [])) as [->|Hr].
    + simpl delete_at. rewrite !get_at_map. by rewrite lookup_delete_ne.
    + rewrite delete_at_cons by done. destruct (m !! p) as [[]|]; try done.
      rewrite !get_at_map. by rewrite lookup_insert_ne.
Qed.

Lemma delete_at_missing m parts :
  get_at (VMap m) parts = None → delete_at m parts = m.
Proof.
  revert m. induction parts as [|p rest IH]; intros m Hg; [done|].
  destruct (decide (rest = [])) as [->|Hr].
  - rewrite get_at_map in Hg. simpl. apply delete_id. by destruct (m !! p).
  - rewrite delete_at_cons by done. rewrite get_at_map in Hg.
    destruct (m !! p) as [w|] eqn:Hp; [|done]. destruct w; try done.
    rewrite IH by done. by apply insert_id.
Qed.

(** ** Correctness of path access *)

(** The law of a lens on dotted paths: on a non-nil root and a non-empty
    path, [Get] after [Set] returns the value written, every path disjoint from
    the written one reads as before, and a second [Set] on the same path
    forgets the first. *)
Theorem path_set_lens (m : gmap string value) (parts : list string) (v : value)
    (Hparts : parts ≠ []) :
  Get (Set_ (Some m) parts v) parts = Some v
  ∧ (∀ q, disjoint_paths parts q → Get (Set_ (Some m) parts v) q = Get (Some m) q)
  ∧ (∀ w, Set_ (Set_ (Some m) parts v) parts w = Set_ (Some m) parts w).
Proof.
  destruct parts as [|p rest]; [done|]. unfold Get, Set_. split_and!.
  - by apply get_set_at.
  - intros q Hd. pose proof (disjoint_paths_ne _ _ Hd) as [_ Hq].
    destruct q; [done|]. by apply get_set_at_frame.
  - intros w. f_equal. apply set_set_at.
Qed.

Lemma path_set_lens_witness :
  ["a"; "b"] ≠ [] ∧ Get (Set_ (Some ∅) ["a"; "b"] (VBool true)) ["a"; "b"] = Some (VBool true).
Proof.
  split; [done|]. apply (path_set_lens ∅ ["a"; "b"] (VBool true)). done.
Defined.

(** [Delete] removes exactly its path. The path no longer resolves, every
    disjoint path reads as before, and a path that did not resolve leaves the
    tree as it was. *)
Theorem path_delete_exact (m : gmap string value) (parts : list string) (Hparts : parts ≠ []) :
  Get (Delete (Some m) parts) parts = None
  ∧ (∀ q, disjoint_paths parts q → Get (Delete (Some m) parts) q = Get (Some m) q)
  ∧ (Get (Some m) parts = None → Delete (Some m) parts = Some m).
Proof.
  destruct parts as [|p rest]; [done|]. unfold Get, Delete. split_and!.
  - by apply get_delete_at.
  - intros q Hd. pose proof (disjoint_paths_ne _ _ Hd) as [_ Hq].
    destruct q; [done|]. by apply get_delete_at_frame.
  - intros Hg. f_equal. by apply delete_at_missing.
Qed.

Lemma path_delete_exact_witness :
  Get (Delete (Some {["a" := VBool true; "b" := VNil]}) ["a"]) ["a"] = None.
Proof. apply (path_delete_exact {["a" := VBool true; "b" := VNil]} ["a"]). done. Defined.
