(* ===== verification/Merge.v ===== *)
(** * Deep merge (confmap/deep.go)

    [Deep] folds the entries of the source over the destination.  Go iterates a
    map in an unspecified order; the definitions use the order of [map_fold] and
    the theorems show that no order gives another result. *)
From S2P Require Import Prelude GoStrings Value Path.

Record Options := {
  AppendSlices : bool;
  Strict : bool;
  MergeKeys : gmap string string;
}.

Inductive merge_error :=
| ErrNilDestination
| ErrTypeMismatch (path : string)
(** Run-time panics of the Go code, shown unreachable below. *)
| PanicNilMap
| PanicIndex.

#[export] Instance merge_error_eq_dec : EqDecision merge_error.
Proof. solve_decision. Defined.

Definition join_path (pre k : string) : string :=
  if String.eqb pre "" then k else pre +:+ "." +:+ k.

Definition isNumber (v : value) : bool :=
  match v with VInt _ _ | VFloat _ _ | VNumber _ => true | _ => false end.

Definition sameKind (a b : value) : bool :=
  match a with
  | VNil => match b with VNil => true | _ => false end
  | VBool _ => match b with VBool _ => true | _ => false end
  | VString _ => match b with VString _ => true | _ => false end
  | _ => isNumber a && isNumber b
  end.

(** [stringKey], [None] standing for [("", false)] and for [(t, t != "")]. *)
Definition stringKey (v : value) : option string :=
  match v with VString s => if String.eqb s "" then None else Some s | _ => None end.

(** The slice a Go [append] chain starting at [a] ends with: appending nothing
    to a nil slice leaves it nil. *)
Definition slice_of (a : value) (l : list value) : value :=
  match a, l with VNilSlice, [] => VNilSlice | _, _ => VSlice l end.

(** [key, ok := opt.MergeKeys[path]; ok && key != ""] *)
Definition merge_key (opt : Options) (path : string) : option string :=
  match MergeKeys opt !! path with
  | Some key => if String.eqb key "" then None else Some key
  | None => None
  end.

(** One iteration of [deepAt], [rec] being [mergeValue]. *)
Definition deep_step (rec : string → value → value → result merge_error value) (pre : string)
    (k : string) (sv : value) (acc : result merge_error (gmap string value)) :
    result merge_error (gmap string value) :=
  dst ← acc;
  match dst !! k with
  | None => Ok (<[k := sv]> dst)
  | Some dv => merged ← rec (join_path pre k) dv sv; Ok (<[k := merged]> dst)
  end.

Section strategic.
(** [deepAt existing m (path + "[]")]. *)
Variable deep : gmap string value → gmap string value → result merge_error (gmap string value).
Variable strict : bool.
Variable path : string.
Variable key : string.

(** The index of [strategicMergeList]: the last entry with a key wins. *)
Fixpoint key_index (i : nat) (a : list value) (idx : gmap string nat) : gmap string nat :=
  match a with
  | [] => idx
  | e :: a =>
      let idx := match as_map e with
                 | Some m => match stringKey (default VNil (gomap_lookup m key)) with
                             | Some k => <[k := i]> idx
                             | None => idx
                             end
                 | None => idx
                 end in
      key_index (S i) a idx
  end.

(** The second loop of [strategicMergeList], [a] being the entries so far. *)
Fixpoint strategic_loop (idx : gmap string nat) (a b : list value) : result merge_error (list value) :=
  match b with
  | [] => Ok a
  | e :: b =>
      match e with
      | VMap m =>
          match stringKey (default VNil (m !! key)) with
          | None => strategic_loop idx (a ++ [e]) b
          | Some k =>
              match idx !! k with
              | Some i =>
                  match a !! i with
                  | Some (VMap existing) =>
                      merged ← deep existing m;
                      strategic_loop idx (<[i := VMap merged]> a) b
                  | Some VNilMap => Err PanicNilMap
                  | Some _ => if strict then Err (ErrTypeMismatch path)
                              else strategic_loop idx (<[i := e]> a) b
                  | None => Err PanicIndex
                  end
              | None => strategic_loop (<[k := length a]> idx) (a ++ [e]) b
              end
          end
      | _ => strategic_loop idx (a ++ [e]) b
      end
  end.
End strategic.

(** [strategicMergeList]. *)
Definition strategicMergeList
    (deep : gmap string value → gmap string value → result merge_error (gmap string value))
    (strict : bool) (path : string) (a b : list value) (key : string) : result merge_error (list value) :=
  strategic_loop deep strict path key (key_index key 0 a ∅) a b.

Fixpoint mergeValue (opt : Options) (path : string) (dv sv : value) {struct sv} :
    result merge_error value :=
  match dv with
  | VMap ds =>
      match sv with
      | VMap ss => VMap <$> map_fold (deep_step (λ p d s, mergeValue opt p d s) path) (Ok ds) ss
      | VNilMap => Ok dv
      | _ => if Strict opt then Err (ErrTypeMismatch path) else Ok sv
      end
  | VNilMap =>
      match sv with
      | VMap _ | VNilMap => Ok sv
      | _ => if Strict opt then Err (ErrTypeMismatch path) else Ok sv
      end
  | VSlice _ | VNilSlice =>
      let ds := default [] (as_slice dv) in
      match sv with
      | VSlice ss =>
          match merge_key opt path with
          | Some key =>
              slice_of dv <$>
                strategicMergeList
                  (λ d m, map_fold (deep_step (λ p d s, mergeValue opt p d s) (path +:+ "[]")) (Ok d) m)
                  (Strict opt) path ds ss key
          | None => Ok (if AppendSlices opt then slice_of dv (ds ++ ss) else sv)
          end
      | VNilSlice =>
          match merge_key opt path with
          | Some _ => Ok dv
          | None => Ok (if AppendSlices opt then dv else sv)
          end
      | _ => if Strict opt then Err (ErrTypeMismatch path) else Ok sv
      end
  | _ => if Strict opt && negb (sameKind dv sv) then Err (ErrTypeMismatch path) else Ok sv
  end.

Definition deepAt (opt : Options) (pre : string) (dst src : gmap string value) :
    result merge_error (gmap string value) :=
  map_fold (deep_step (mergeValue opt) pre) (Ok dst) src.

Definition Deep (dst src : gomap) (opt : Options) : result merge_error gomap :=
  match dst with
  | None => if bool_decide (default ∅ src = ∅) then Ok None else Err ErrNilDestination
  | Some d => Some <$> deepAt opt "" d (default ∅ src)
  end.

(** ** Unfolding *)

Lemma mergeValue_maps opt path ds ss :
  mergeValue opt path (VMap ds) (VMap ss) = VMap <$> deepAt opt path ds ss.
Proof. done. Qed.

Lemma mergeValue_slices opt path dv ss :
  is_Some (as_slice dv) →
  mergeValue opt path dv (VSlice ss) =
    match merge_key opt path with
    | Some key => slice_of dv <$> strategicMergeList (deepAt opt (path +:+ "[]")) (Strict opt) path
                                    (default [] (as_slice dv)) ss key
    | None => Ok (if AppendSlices opt then slice_of dv (default [] (as_slice dv) ++ ss) else VSlice ss)
    end.
Proof. by destruct dv; intros [? ?]. Qed.

Lemma mergeValue_nil_map opt path sv :
  is_Some (as_map sv) → mergeValue opt path VNilMap sv = Ok sv.
Proof. by destruct sv; intros [? ?]. Qed.

Lemma mergeValue_map_nil opt path ds : mergeValue opt path (VMap ds) VNilMap = Ok (VMap ds).
Proof. done. Qed.

Lemma mergeValue_slice_nil opt path dv :
  is_Some (as_slice dv) →
  mergeValue opt path dv VNilSlice =
    match merge_key opt path with
    | Some _ => Ok dv
    | None => Ok (if AppendSlices opt then dv else VNilSlice)
    end.
Proof. by destruct dv; intros [? ?]. Qed.

(** The kinds differ: replace, or fail in strict mode. *)
Lemma mergeValue_map_mismatch opt path dv sv :
  is_Some (as_map dv) → as_map sv = None →
  mergeValue opt path dv sv = if Strict opt then Err (ErrTypeMismatch path) else Ok sv.
Proof. destruct dv; intros [? ?]; try done; by destruct sv. Qed.

Lemma mergeValue_slice_mismatch opt path dv sv :
  is_Some (as_slice dv) → as_slice sv = None →
  mergeValue opt path dv sv = if Strict opt then Err (ErrTypeMismatch path) else Ok sv.
Proof. destruct dv; intros [? ?]; try done; by destruct sv. Qed.

Lemma mergeValue_scalar opt path dv sv :
  as_map dv = None → as_slice dv = None →
  mergeValue opt path dv sv =
    if Strict opt && negb (sameKind dv sv) then Err (ErrTypeMismatch path) else Ok sv.
Proof. destruct dv; intros ? ?; try done; by destruct sv. Qed.

(** The shape of the two arguments selects the rule. *)
Inductive merge_case : value → value → Prop :=
| case_maps ds ss : merge_case (VMap ds) (VMap ss)
| case_map_nil ds : merge_case (VMap ds) VNilMap
| case_nil_map sv : is_Some (as_map sv) → merge_case VNilMap sv
| case_map_mismatch dv sv : is_Some (as_map dv) → as_map sv = None → merge_case dv sv
| case_slices dv ss : is_Some (as_slice dv) → merge_case dv (VSlice ss)
| case_slice_nil dv : is_Some (as_slice dv) → merge_case dv VNilSlice
| case_slice_mismatch dv sv : is_Some (as_slice dv) → as_slice sv = None → merge_case dv sv
| case_scalar dv sv : as_map dv = None → as_slice dv = None → merge_case dv sv.

Lemma merge_cases dv sv : merge_case dv sv.
Proof.
  destruct (as_map dv) eqn:Hd; [|destruct (as_slice dv) eqn:Hs].
  - destruct (as_map sv) eqn:Hs; [|by apply case_map_mismatch].
    destruct dv; try discriminate Hd; [|by apply case_nil_map].
    destruct sv; try discriminate Hs; [apply case_maps|apply case_map_nil].
  - destruct (as_slice sv) eqn:Hs'; [|by apply case_slice_mismatch].
    destruct sv; try discriminate Hs'; [by apply case_slices|by apply case_slice_nil].
  - by apply case_scalar.
Qed.

(** ** The entry-wise specification of [deepAt] *)

(** What the merge leaves at one key. *)
Definition merged_entry (rec : value → value → result merge_error value)
    (od os res : option value) : Prop :=
  match od, os with
  | Some dv, Some sv => ∃ x, rec dv sv = Ok x ∧ res = Some x
  | Some v, None | None, Some v => res = Some v
  | None, None => res = None
  end.

Definition merged_map (opt : Options) (pre : string) (d s r : gmap string value) : Prop :=
  ∀ k, merged_entry (mergeValue opt (join_path pre k)) (d !! k) (s !! k) (r !! k).

(** A key whose two values do not merge. *)
Definition conflict (opt : Options) (pre : string) (d s : gmap string value) (e : merge_error) : Prop :=
  ∃ k dv sv, d !! k = Some dv ∧ s !! k = Some sv ∧ mergeValue opt (join_path pre k) dv sv = Err e.

Lemma merged_map_functional opt pre d s r1 r2 :
  merged_map opt pre d s r1 → merged_map opt pre d s r2 → r1 = r2.
Proof.
  intros H1 H2. apply map_eq. intros k. specialize (H1 k); specialize (H2 k).
  unfold merged_entry in *. destruct (d !! k), (s !! k); naive_solver congruence.
Qed.

Lemma merged_map_no_conflict opt pre d s r e :
  merged_map opt pre d s r → conflict opt pre d s e → False.
Proof.
  intros Hr (k & dv & sv & Hd & Hs & He). specialize (Hr k). rewrite Hd, Hs in Hr.
  destruct Hr as (x & Hx & _). congruence.
Qed.

(** One more entry. *)
Lemma deep_step_spec opt pre d s k sv acc :
  s !! k = None →
  match acc with Ok r => merged_map opt pre d s r | Err e => conflict opt pre d s e end →
  match deep_step (mergeValue opt) pre k sv acc with
  | Ok r => merged_map opt pre d (<[k := sv]> s) r
  | Err e => conflict opt pre d (<[k := sv]> s) e
  end.
Proof.
  intros Hk Hacc. destruct acc as [r|e]; simpl.
  2:{ destruct Hacc as (k' & dv & sv' & Hd & Hs & He). exists k', dv, sv'.
      rewrite lookup_insert_ne by congruence. done. }
  pose proof (Hacc k) as Hrk. rewrite Hk in Hrk.
  assert (r !! k = d !! k) as Hr by (unfold merged_entry in Hrk; by destruct (d !! k)).
  rewrite Hr. destruct (d !! k) as [dv|] eqn:Hd.
  - destruct (mergeValue opt (join_path pre k) dv sv) as [x|e] eqn:Hm; simpl.
    + intros k'. destruct (decide (k = k')) as [<-|Hne].
      * rewrite Hd, !lookup_insert_eq. simpl. eauto.
      * rewrite !lookup_insert_ne by done. apply Hacc.
    + exists k, dv, sv. by rewrite lookup_insert_eq.
  - intros k'. destruct (decide (k = k')) as [<-|Hne].
    + by rewrite Hd, !lookup_insert_eq.
    + rewrite !lookup_insert_ne by done. apply Hacc.
Qed.

Lemma merged_map_empty opt pre d : merged_map opt pre d ∅ d.
Proof. intros k. rewrite lookup_empty. unfold merged_entry. by destruct (d !! k). Qed.

Lemma deepAt_spec opt pre d s :
  match deepAt opt pre d s with
  | Ok r => merged_map opt pre d s r
  | Err e => conflict opt pre d s e
  end.
Proof.
  unfold deepAt.
  apply (map_fold_weak_ind (λ acc m,
    match acc with Ok r => merged_map opt pre d m r | Err e => conflict opt pre d m e end)).
  - apply merged_map_empty.
  - intros k sv m acc Hk. by apply deep_step_spec.
Qed.

Lemma deepAt_Ok opt pre d s r : deepAt opt pre d s = Ok r ↔ merged_map opt pre d s r.
Proof.
  pose proof (deepAt_spec opt pre d s) as Hs. destruct (deepAt opt pre d s) as [r'|e].
  - split; [by intros [= <-]|]. intros Hr. f_equal. by eapply merged_map_functional.
  - split; [done|]. intros Hr. by destruct (merged_map_no_conflict _ _ _ _ _ _ Hr Hs).
Qed.

Lemma deepAt_Err opt pre d s e : deepAt opt pre d s = Err e → conflict opt pre d s e.
Proof. intros He. pose proof (deepAt_spec opt pre d s) as Hs. by rewrite He in Hs. Qed.

(** ** Iteration order

    [runs_*] are the executions of the Go code in which every [range] over a
    map visits its entries in some order, chosen anew at every loop. *)
Inductive runs_value (opt : Options) :
    string → value → value → result merge_error value → Prop :=
| runs_maps path ds ss l r :
    l ≡ₚ map_to_list ss →
    runs_deep opt path ds l r →
    runs_value opt path (VMap ds) (VMap ss) (VMap <$> r)
| runs_keyed path dv ss key r :
    is_Some (as_slice dv) →
    merge_key opt path = Some key →
    runs_loop opt path key (key_index key 0 (default [] (as_slice dv)) ∅)
      (default [] (as_slice dv)) ss r →
    runs_value opt path dv (VSlice ss) (slice_of dv <$> r)
| runs_direct path dv sv :
    (∀ ds ss, dv = VMap ds → sv = VMap ss → False) →
    (is_Some (as_slice dv) → ∀ ss, sv = VSlice ss → merge_key opt path = None) →
    runs_value opt path dv sv (mergeValue opt path dv sv)
with runs_deep (opt : Options) :
    string → gmap string value → list (string * value) → result merge_error (gmap string value) → Prop :=
| runs_done pre d : runs_deep opt pre d [] (Ok d)
| runs_new pre d k sv l r :
    d !! k = None → runs_deep opt pre (<[k := sv]> d) l r → runs_deep opt pre d ((k, sv) :: l) r
| runs_old pre d k dv sv x l r :
    d !! k = Some dv → runs_value opt (join_path pre k) dv sv (Ok x) →
    runs_deep opt pre (<[k := x]> d) l r → runs_deep opt pre d ((k, sv) :: l) r
| runs_fail pre d k dv sv e l :
    d !! k = Some dv → runs_value opt (join_path pre k) dv sv (Err e) →
    runs_deep opt pre d ((k, sv) :: l) (Err e)
with runs_loop (opt : Options) :
    string → string → gmap string nat → list value → list value → result merge_error (list value) → Prop :=
| runs_loop_done path key idx a : runs_loop opt path key idx a [] (Ok a)
| runs_loop_merge path key idx a m b k i existing l d r :
    stringKey (default VNil (m !! key)) = Some k →
    idx !! k = Some i → a !! i = Some (VMap existing) →
    l ≡ₚ map_to_list m → runs_deep opt (path +:+ "[]") existing l (Ok d) →
    runs_loop opt path key idx (<[i := VMap d]> a) b r →
    runs_loop opt path key idx a (VMap m :: b) r
| runs_loop_fail path key idx a m b k i existing l e :
    stringKey (default VNil (m !! key)) = Some k →
    idx !! k = Some i → a !! i = Some (VMap existing) →
    l ≡ₚ map_to_list m → runs_deep opt (path +:+ "[]") existing l (Err e) →
    runs_loop opt path key idx a (VMap m :: b) (Err e)
| runs_loop_other path key idx a e b a' idx' r :
    (** every other branch makes one step of the loop *)
    (∀ m k i existing, e = VMap m → stringKey (default VNil (m !! key)) = Some k →
       idx !! k = Some i → a !! i = Some (VMap existing) → False) →
    (∀ deep, strategic_loop deep (Strict opt) path key idx a (e :: b) =
             strategic_loop deep (Strict opt) path key idx' a' b) →
    runs_loop opt path key idx' a' b r →
    runs_loop opt path key idx a (e :: b) r
| runs_loop_stop path key idx a e b err :
    (∀ m k i existing, e = VMap m → stringKey (default VNil (m !! key)) = Some k →
       idx !! k = Some i → a !! i = Some (VMap existing) → False) →
    (∀ deep, strategic_loop deep (Strict opt) path key idx a (e :: b) = Err err) →
    runs_loop opt path key idx a (e :: b) (Err err).

Scheme runs_value_mut := Minimality for runs_value Sort Prop
  with runs_deep_mut := Minimality for runs_deep Sort Prop
  with runs_loop_mut := Minimality for runs_loop Sort Prop.
Combined Scheme runs_mut from runs_value_mut, runs_deep_mut, runs_loop_mut.

(** Same outcome: the same value, or a failure on both sides. *)
Definition agree {A} (r1 r2 : result merge_error A) : Prop :=
  match r1, r2 with Ok a, Ok b => a = b | Err _, Err _ => True | _, _ => False end.

Lemma agree_fmap {A B} (f : A → B) r1 r2 : agree r1 r2 → agree (f <$> r1) (f <$> r2).
Proof. destruct r1, r2; simpl; congruence. Qed.

(** The entries left to visit, merged in any order, decide the outcome. *)
Lemma deepAt_insert opt pre d k sv m :
  m !! k = None → d !! k = None →
  agree (deepAt opt pre (<[k := sv]> d) m) (deepAt opt pre d (<[k := sv]> m)).
Proof.
  intros Hm Hd.
  pose proof (deepAt_spec opt pre (<[k := sv]> d) m) as H1.
  destruct (deepAt opt pre (<[k := sv]> d) m) as [r|e].
  - enough (deepAt opt pre d (<[k := sv]> m) = Ok r) as -> by done.
    apply deepAt_Ok. intros k'. specialize (H1 k').
    destruct (decide (k = k')) as [<-|Hne].
    + rewrite lookup_insert_eq, Hm in H1. by rewrite Hd, lookup_insert_eq.
    + by rewrite lookup_insert_ne in H1 |- * by done.
  - destruct (deepAt opt pre d (<[k := sv]> m)) as [r|] eqn:H2; [|done]. exfalso.
    apply deepAt_Ok in H2. eapply (merged_map_no_conflict opt pre d (<[k := sv]> m)); [done|].
    destruct H1 as (k' & dv & sv' & H1 & H3 & H4). exists k', dv, sv'.
    assert (k ≠ k') by congruence. by rewrite lookup_insert_ne in H1 |- * by done.
Qed.

Lemma deepAt_step opt pre d k dv sv x m :
  m !! k = None → d !! k = Some dv → mergeValue opt (join_path pre k) dv sv = Ok x →
  agree (deepAt opt pre (<[k := x]> d) m) (deepAt opt pre d (<[k := sv]> m)).
Proof.
  intros Hm Hd Hx.
  pose proof (deepAt_spec opt pre (<[k := x]> d) m) as H1.
  destruct (deepAt opt pre (<[k := x]> d) m) as [r|e].
  - enough (deepAt opt pre d (<[k := sv]> m) = Ok r) as -> by done.
    apply deepAt_Ok. intros k'. specialize (H1 k').
    destruct (decide (k = k')) as [<-|Hne].
    + rewrite lookup_insert_eq, Hm in H1. rewrite Hd, lookup_insert_eq. simpl in *. eauto.
    + by rewrite !lookup_insert_ne in H1 |- * by done.
  - destruct (deepAt opt pre d (<[k := sv]> m)) as [r|] eqn:H2; [|done]. exfalso.
    apply deepAt_Ok in H2. eapply (merged_map_no_conflict opt pre d (<[k := sv]> m)); [done|].
    destruct H1 as (k' & dv' & sv' & H1 & H3 & H4). exists k', dv', sv'.
    assert (k ≠ k') by congruence. by rewrite lookup_insert_ne in H1 |- * by done.
Qed.

Lemma deepAt_fail opt pre d k dv sv e m :
  m !! k = None → d !! k = Some dv → mergeValue opt (join_path pre k) dv sv = Err e →
  agree (@Err merge_error (gmap string value) e) (deepAt opt pre d (<[k := sv]> m)).
Proof.
  intros Hm Hd He. destruct (deepAt opt pre d (<[k := sv]> m)) as [r|] eqn:H; [|done].
  apply deepAt_Ok in H. eapply merged_map_no_conflict; [done|].
  exists k, dv, sv. by rewrite lookup_insert_eq.
Qed.

Lemma agree_trans {A} (r1 r2 r3 : result merge_error A) : agree r1 r2 → agree r2 r3 → agree r1 r3.
Proof. destruct r1, r2, r3; simpl; try done; congruence. Qed.

Lemma runs_agree opt :
  (∀ path dv sv r, runs_value opt path dv sv r → agree r (mergeValue opt path dv sv))
  ∧ (∀ pre d l r, runs_deep opt pre d l r → NoDup l.*1 →
       agree r (deepAt opt pre d (list_to_map l)))
  ∧ (∀ path key idx a b r, runs_loop opt path key idx a b r →
       agree r (strategic_loop (deepAt opt (path +:+ "[]")) (Strict opt) path key idx a b)).
Proof.
  assert (∀ ss (l : list (string * value)), l ≡ₚ map_to_list ss → NoDup l.*1 ∧ list_to_map l = ss) as Hperm.
  { intros ss l Hl. assert (NoDup l.*1) as Hnd by (rewrite Hl; apply NoDup_fst_map_to_list).
    split; [done|]. rewrite <-(list_to_map_to_list ss). by apply list_to_map_proper. }
  apply runs_mut.
  - intros path ds ss l r Hl _ IH. destruct (Hperm _ _ Hl) as [Hnd Heq].
    rewrite mergeValue_maps, <-Heq. by apply agree_fmap, IH.
  - intros path dv ss key r Hdv Hkey _ IH. rewrite mergeValue_slices, Hkey by done.
    by apply agree_fmap, IH.
  - intros path dv sv _ _. by destruct (mergeValue opt path dv sv).
  - done.
  - intros pre d k sv l r Hd _ IH Hnd. simpl in Hnd. apply NoDup_cons in Hnd as [Hk Hnd].
    eapply agree_trans; [by apply IH|]. apply deepAt_insert; [|done]. by apply not_elem_of_list_to_map_1.
  - intros pre d k dv sv x l r Hd _ IHv _ IH Hnd. simpl in Hnd. apply NoDup_cons in Hnd as [Hk Hnd].
    destruct (mergeValue opt (join_path pre k) dv sv) as [y|] eqn:Hy; [|done]. simpl in IHv. subst y.
    eapply agree_trans; [by apply IH|]. eapply deepAt_step; [|done..]. by apply not_elem_of_list_to_map_1.
  - intros pre d k dv sv e l Hd _ IHv Hnd. simpl in Hnd. apply NoDup_cons in Hnd as [Hk Hnd].
    destruct (mergeValue opt (join_path pre k) dv sv) as [y|e'] eqn:Hy; [done|].
    apply (agree_trans _ (Err e')); [done|].
    eapply deepAt_fail; [|done..]. by apply not_elem_of_list_to_map_1.
  - done.
  - intros path key idx a m b k i existing l d r Hk Hi Ha Hl _ IHd _ IH.
    destruct (Hperm _ _ Hl) as [Hnd Heq]. specialize (IHd Hnd). rewrite Heq in IHd.
    simpl. rewrite Hk, Hi, Ha. destruct (deepAt opt (path +:+ "[]") existing m); simpl in *; [|done].
    by subst.
  - intros path key idx a m b k i existing l e Hk Hi Ha Hl _ IHd.
    destruct (Hperm _ _ Hl) as [Hnd Heq]. specialize (IHd Hnd). rewrite Heq in IHd.
    simpl. rewrite Hk, Hi, Ha. by destruct (deepAt opt (path +:+ "[]") existing m).
  - intros path key idx a e b a' idx' r _ Hstep _ IH. by rewrite Hstep.
  - intros path key idx a e b err _ Hstep. by rewrite Hstep.
Qed.

(** ** The index of a keyed list *)

(** The identity of a list entry under [key]. *)
Definition entry_key (key : string) (e : value) : option string :=
  m ← as_map e; stringKey (default VNil (gomap_lookup m key)).

(** [idx] holds, for every key, a position whose entry has that key. *)
Definition idx_sound (key : string) (idx : gmap string nat) (a : list value) : Prop :=
  ∀ k i, idx !! k = Some i → ∃ e, a !! i = Some e ∧ entry_key key e = Some k.
Definition idx_complete (key : string) (idx : gmap string nat) (a : list value) : Prop :=
  ∀ k i e, a !! i = Some e → entry_key key e = Some k → idx !! k = Some i.

(** No two entries share an identity. *)
Definition unique_keys (key : string) (a : list value) : Prop :=
  ∀ i j e e' k, a !! i = Some e → a !! j = Some e' →
    entry_key key e = Some k → entry_key key e' = Some k → i = j.

Lemma entry_key_map key e k :
  entry_key key e = Some k →
  ∃ m, e = VMap m ∧ m !! key = Some (VString k) ∧ stringKey (default VNil (m !! key)) = Some k.
Proof.
  unfold entry_key. destruct e; simpl; try done.
  destruct (m !! key) as [[]|] eqn:Hm; simpl; try done.
  case_match; [done|]. intros [= ->]. exists m. split_and!; [done..|]. rewrite Hm. simpl. by case_match.
Qed.

Lemma entry_key_VMap key m k :
  stringKey (default VNil (m !! key)) = Some k → entry_key key (VMap m) = Some k.
Proof. done. Qed.

Lemma key_index_cons key j e a idx :
  key_index key j (e :: a) idx =
    key_index key (S j) a (match entry_key key e with Some k => <[k := j]> idx | None => idx end).
Proof.
  simpl. unfold entry_key. destruct (as_map e) as [m|]; simpl; [|done]. by destruct (stringKey _).
Qed.

Lemma key_index_app key j a b idx :
  key_index key j (a ++ b) idx = key_index key (length a + j) b (key_index key j a idx).
Proof.
  revert j idx. induction a as [|e a IH]; intros j idx; [done|].
  rewrite <-app_comm_cons, !key_index_cons, IH. simpl. by rewrite Nat.add_succ_r.
Qed.

Lemma key_index_snoc key a e :
  key_index key 0 (a ++ [e]) ∅ =
    match entry_key key e with
    | Some k => <[k := length a]> (key_index key 0 a ∅)
    | None => key_index key 0 a ∅
    end.
Proof. rewrite key_index_app, Nat.add_0_r, key_index_cons. done. Qed.

Lemma idx_sound_snoc key idx a e :
  idx_sound key idx a →
  idx_sound key (match entry_key key e with Some k => <[k := length a]> idx | None => idx end) (a ++ [e]).
Proof.
  intros Hs k i Hk.
  assert (idx !! k = Some i → ∃ e0, (a ++ [e]) !! i = Some e0 ∧ entry_key key e0 = Some k) as Hold.
  { intros Hi. destruct (Hs k i Hi) as (e0 & He0 & ?). exists e0. split; [|done]. by apply lookup_app_l_Some. }
  destruct (entry_key key e) as [k'|] eqn:He; [|by apply Hold].
  destruct (decide (k' = k)) as [->|Hne].
  - rewrite lookup_insert_eq in Hk. injection Hk as <-. exists e. split; [|done].
    by rewrite lookup_app_r, Nat.sub_diag.
  - rewrite lookup_insert_ne in Hk by done. by apply Hold.
Qed.

Lemma idx_complete_snoc key idx a e :
  idx_complete key idx a →
  (∀ k, entry_key key e = Some k → idx !! k = None) →
  idx_complete key (match entry_key key e with Some k => <[k := length a]> idx | None => idx end) (a ++ [e]).
Proof.
  intros Hc Hnew k i e' Hi Hk.
  apply lookup_app_Some in Hi as [Hi|[Hlen Hi]].
  - specialize (Hc k i e' Hi Hk). destruct (entry_key key e) as [k'|] eqn:He; [|done].
    rewrite lookup_insert_ne; [done|]. intros ->. specialize (Hnew k eq_refl). congruence.
  - destruct (i - length a) as [|n] eqn:Hn; simpl in Hi; [|by destruct n].
    injection Hi as <-. rewrite Hk. rewrite lookup_insert_eq. f_equal. lia.
Qed.

Lemma key_index_sound key a : idx_sound key (key_index key 0 a ∅) a.
Proof.
  induction a as [|e a IH] using rev_ind; [done|].
  rewrite key_index_snoc. by apply idx_sound_snoc.
Qed.

Lemma unique_keys_app_l key a b : unique_keys key (a ++ b) → unique_keys key a.
Proof. intros Hu i j e e' k Hi Hj. apply Hu; by apply lookup_app_l_Some. Qed.

Lemma key_index_complete key a : unique_keys key a → idx_complete key (key_index key 0 a ∅) a.
Proof.
  induction a as [|e a IH] using rev_ind; [done|]. intros Hu.
  rewrite key_index_snoc. apply idx_complete_snoc; [by eapply IH, unique_keys_app_l|].
  intros k Hk. destruct (key_index key 0 a ∅ !! k) as [i|] eqn:Hi; [|done].
  apply key_index_sound in Hi as (e' & Hi & Hk').
  assert (i = length a) as ->; [|by apply lookup_lt_Some in Hi; lia].
  apply (Hu i (length a) e' e k); [by apply lookup_app_l_Some| |done..].
  by rewrite lookup_app_r, Nat.sub_diag.
Qed.

Lemma idx_complete_unique key idx a : idx_complete key idx a → unique_keys key a.
Proof. intros Hc i j e e' k Hi Hj Hk Hk'. pose proof (Hc k i e Hi Hk). pose proof (Hc k j e' Hj Hk'). congruence. Qed.

(** A merge of two entries with the same identity keeps the identity. *)
Lemma deepAt_keeps_key opt pre key existing m d k :
  existing !! key = Some (VString k) → m !! key = Some (VString k) →
  deepAt opt pre existing m = Ok d → d !! key = Some (VString k).
Proof.
  intros He Hm Hd. apply deepAt_Ok in Hd. specialize (Hd key). rewrite He, Hm in Hd.
  destruct Hd as (x & Hx & Hr). simpl in Hx. rewrite andb_false_r in Hx. naive_solver.
Qed.

Lemma entry_key_of m key k :
  m !! key = Some (VString k) → k ≠ "" → entry_key key (VMap m) = Some k.
Proof.
  intros Hm Hk. unfold entry_key. simpl. rewrite Hm. simpl. destruct (String.eqb_spec k ""); done.
Qed.

Lemma entry_key_nonempty key e k : entry_key key e = Some k → k ≠ "".
Proof.
  intros (m & -> & Hm & Hk)%entry_key_map. rewrite Hm in Hk. simpl in Hk.
  by destruct (String.eqb_spec k "").
Qed.

(** Replacing an entry by one with the same identity keeps the index valid. *)
Lemma idx_sound_insert key idx a i e k :
  idx_sound key idx a → idx !! k = Some i → entry_key key e = Some k →
  (∀ k', idx !! k' = Some i → k' = k) →
  idx_sound key idx (<[i := e]> a).
Proof.
  intros Hs Hi He Hinj k' j Hj. destruct (Hs k' j Hj) as (e' & He' & Hk').
  destruct (decide (i = j)) as [->|Hne].
  - exists e. rewrite list_lookup_insert_eq by (by eapply lookup_lt_Some). split; [done|].
    by rewrite (Hinj k' Hj).
  - exists e'. by rewrite list_lookup_insert_ne.
Qed.

Lemma idx_sound_inj key idx a i k k' :
  idx_sound key idx a → idx !! k = Some i → idx !! k' = Some i → k' = k.
Proof. intros Hs Hk Hk'. apply Hs in Hk as (?&?&?), Hk' as (?&?&?). congruence. Qed.

Lemma idx_complete_insert key idx a i e k :
  idx_complete key idx a → idx !! k = Some i → entry_key key e = Some k →
  idx_complete key idx (<[i := e]> a).
Proof.
  intros Hc Hi He k' j e' Hj Hk'. apply list_lookup_insert_Some in Hj as [(-> & -> & _)|[Hne Hj]].
  - congruence.
  - by eapply Hc.
Qed.

Section loop_facts.
Context (deep : gmap string value → gmap string value → result merge_error (gmap string value)).
Context (strict : bool) (path key : string).
Hypothesis deep_key : ∀ existing m d k,
  existing !! key = Some (VString k) → m !! key = Some (VString k) →
  deep existing m = Ok d → d !! key = Some (VString k).

(** One step of the loop: the entry is appended, or merged into the entry
    the index names. *)
Lemma strategic_loop_cons idx a e b :
  idx_sound key idx a →
  strategic_loop deep strict path key idx a (e :: b) =
    match entry_key key e with
    | None => strategic_loop deep strict path key idx (a ++ [e]) b
    | Some k =>
        match idx !! k with
        | None => strategic_loop deep strict path key (<[k := length a]> idx) (a ++ [e]) b
        | Some i =>
            match a !! i, e with
            | Some (VMap existing), VMap m =>
                d ← deep existing m; strategic_loop deep strict path key idx (<[i := VMap d]> a) b
            | _, _ => Err PanicIndex
            end
        end
    end.
Proof using Type.
  intros Hs. destruct (entry_key key e) as [k|] eqn:He.
  - pose proof He as (m & -> & Hm & Hk)%entry_key_map. simpl. rewrite Hk.
    destruct (idx !! k) as [i|] eqn:Hi; [|done].
    destruct (Hs k i Hi) as (e' & Hi' & (m' & -> & _)%entry_key_map). by rewrite Hi'.
  - destruct e; try done. unfold entry_key in He. simpl in He |- *. by rewrite He.
Qed.

Lemma merged_entry_key idx a k i existing m d :
  idx_sound key idx a → idx !! k = Some i → a !! i = Some (VMap existing) →
  entry_key key (VMap m) = Some k → deep existing m = Ok d →
  entry_key key (VMap d) = Some k.
Proof using deep_key.
  intros Hs Hi Ha Hk Hd. pose proof Hk as (m' & [= <-] & Hm & _)%entry_key_map.
  destruct (Hs k i Hi) as (e' & Hi' & He'). rewrite Ha in Hi'. injection Hi' as <-.
  pose proof He' as (ex & [= <-] & Hex & _)%entry_key_map.
  eapply entry_key_of; [exact (deep_key _ _ _ _ Hex Hm Hd)|by eapply entry_key_nonempty].
Qed.

Lemma strategic_loop_keys idx a b r :
  idx_sound key idx a → idx_complete key idx a →
  strategic_loop deep strict path key idx a b = Ok r →
  unique_keys key r
  ∧ (∀ i e k, a !! i = Some e → entry_key key e = Some k →
       ∃ e', r !! i = Some e' ∧ entry_key key e' = Some k)
  ∧ (∀ e k, e ∈ b → entry_key key e = Some k → ∃ e', e' ∈ r ∧ entry_key key e' = Some k).
Proof using deep_key.
  revert idx a. induction b as [|e b IH]; intros idx a Hs Hc Hr.
  { simpl in Hr. inv_result. split_and!; [by eapply idx_complete_unique|by eauto|].
    intros e k He. by apply not_elem_of_nil in He. }
  rewrite strategic_loop_cons in Hr by done.
  assert (∀ idx' a', idx_sound key idx' a' → idx_complete key idx' a' →
    strategic_loop deep strict path key idx' a' b = Ok r →
    (∀ i e k, a !! i = Some e → entry_key key e = Some k →
       ∃ e', a' !! i = Some e' ∧ entry_key key e' = Some k) →
    (∀ k, entry_key key e = Some k → ∃ i e', a' !! i = Some e' ∧ entry_key key e' = Some k) →
    unique_keys key r
    ∧ (∀ i e k, a !! i = Some e → entry_key key e = Some k →
         ∃ e', r !! i = Some e' ∧ entry_key key e' = Some k)
    ∧ (∀ e' k, e' ∈ e :: b → entry_key key e' = Some k →
         ∃ e'', e'' ∈ r ∧ entry_key key e'' = Some k)) as Hnext.
  { intros idx' a' Hs' Hc' Hr' Hold Hnew. destruct (IH _ _ Hs' Hc' Hr') as (Hu & Hpos & Hb).
    split_and!; [done| |].
    - intros i e0 k Hi Hk. destruct (Hold i e0 k Hi Hk) as (e1 & ? & ?). by eapply Hpos.
    - intros e' k [->|He']%elem_of_cons Hk; [|by eapply Hb].
      destruct (Hnew k Hk) as (i & e1 & Hi & Hk1). destruct (Hpos i e1 k Hi Hk1) as (e2 & Hi2 & Hk2).
      exists e2. split; [by eapply list_elem_of_lookup_2|done]. }
  assert (∀ i e0 k, a !! i = Some e0 → entry_key key e0 = Some k →
    ∃ e', (a ++ [e]) !! i = Some e' ∧ entry_key key e' = Some k) as Happ.
  { intros i e0 k Hi Hk. exists e0. split; [by apply lookup_app_l_Some|done]. }
  pose proof (idx_sound_snoc key idx a e Hs) as Hs1.
  pose proof (idx_complete_snoc key idx a e Hc) as Hc1.
  assert ((a ++ [e]) !! length a = Some e) as Hlast by by rewrite lookup_app_r, Nat.sub_diag.
  destruct (entry_key key e) as [k|] eqn:He.
  2:{ apply (Hnext idx (a ++ [e])); [done|apply Hc1|done..|]; intros ? [=]. }
  destruct (idx !! k) as [i|] eqn:Hi.
  2:{ apply (Hnext (<[k := length a]> idx) (a ++ [e])); [done|apply Hc1|done..|]; intros ? [= <-].
      - done.
      - by exists (length a), e. }
  pose proof He as (m & -> & _)%entry_key_map.
  destruct (Hs k i Hi) as (e' & Hi' & (ex & -> & _)%entry_key_map). rewrite Hi' in Hr.
  apply bind_Ok in Hr as (d & Hd & Hr).
  assert (entry_key key (VMap d) = Some k) as Hkd by exact (merged_entry_key _ _ _ _ _ _ _ Hs Hi Hi' He Hd).
  apply (Hnext idx (<[i := VMap d]> a)); [|exact (idx_complete_insert _ _ _ _ _ _ Hc Hi Hkd)|done| |].
  - apply (idx_sound_insert _ _ _ _ _ k); [done..|].
    intros k' Hk'. exact (idx_sound_inj _ _ _ _ _ _ Hs Hi Hk').
  - intros j e0 k' Hj Hk'. destruct (decide (i = j)) as [->|Hne].
    + exists (VMap d). rewrite list_lookup_insert_eq by (by eapply lookup_lt_Some).
      split; [done|]. pose proof (Hc k' j e0 Hj Hk') as Hk2. rewrite Hkd. f_equal.
      exact (idx_sound_inj _ _ _ _ _ _ Hs Hk2 Hi).
    + exists e0. by rewrite list_lookup_insert_ne.
  - intros k' [= <-]. exists i, (VMap d). rewrite list_lookup_insert_eq by (by eapply lookup_lt_Some).
    done.
Qed.

Lemma strategic_loop_Err idx a b e :
  idx_sound key idx a →
  strategic_loop deep strict path key idx a b = Err e →
  ∃ existing m, VMap m ∈ b ∧ deep existing m = Err e.
Proof using deep_key.
  revert idx a. induction b as [|e0 b IH]; intros idx a Hs Hr; [done|].
  rewrite strategic_loop_cons in Hr by done.
  assert (∀ idx' a', idx_sound key idx' a' →
    strategic_loop deep strict path key idx' a' b = Err e →
    ∃ existing m, VMap m ∈ e0 :: b ∧ deep existing m = Err e) as Hnext.
  { intros idx' a' Hs' Hr'. destruct (IH _ _ Hs' Hr') as (ex & m & Hm & Hd).
    exists ex, m. split; [by apply list_elem_of_further|done]. }
  pose proof (idx_sound_snoc key idx a e0 Hs) as Hs1.
  destruct (entry_key key e0) as [k|] eqn:He; [|exact (Hnext _ _ Hs1 Hr)].
  destruct (idx !! k) as [i|] eqn:Hi; [|exact (Hnext _ _ Hs1 Hr)].
  pose proof He as (m & -> & _)%entry_key_map.
  destruct (Hs k i Hi) as (e' & Hi' & (ex & -> & _)%entry_key_map). rewrite Hi' in Hr.
  apply bind_Err in Hr as [Hr|(d & Hd & Hr)]; [exists ex, m; split; [constructor|done]|].
  eapply Hnext; [|done].
  apply (idx_sound_insert _ _ _ _ _ k); [done..|exact (merged_entry_key _ _ _ _ _ _ _ Hs Hi Hi' He Hd)|].
  intros k' Hk'. exact (idx_sound_inj _ _ _ _ _ _ Hs Hi Hk').
Qed.
End loop_facts.

(** The kinds the strict mode tells apart. *)
Inductive vkind := KNil | KBoolean | KText | KNumber | KMapping | KList | KOther.

Definition kind_of (v : value) : vkind :=
  match v with
  | VNil => KNil | VBool _ => KBoolean | VString _ => KText
  | VInt _ _ | VFloat _ _ | VNumber _ => KNumber
  | VMap _ | VNilMap => KMapping | VSlice _ | VNilSlice => KList | VOpaque _ _ => KOther
  end.

Lemma sameKind_kind a b :
  as_map a = None → as_slice a = None → sameKind a b = true → kind_of a = kind_of b.
Proof. by destruct a, b. Qed.

(** ** What a merge is

    [merged] says which value the merge of two values is, without the loops and
    the index of the code; [mismatch], at which paths a strict merge has two
    values that do not go together. *)

(** The strict mode accepts [sv] in the place of [dv]. *)
Definition compatible (dv sv : value) : Prop := kind_of dv = kind_of sv ∧ kind_of dv ≠ KOther.

(** No entry of [a] has the identity [k]. *)
Definition no_entry (key k : string) (a : list value) : Prop := ∀ e, e ∈ a → entry_key key e ≠ Some k.

Inductive merged (opt : Options) : string → value → value → value → Prop :=
| merged_maps path ds ss rs :
    (∀ k, ds !! k = None → rs !! k = ss !! k) →
    (∀ k, ss !! k = None → rs !! k = ds !! k) →
    (∀ k dv sv, ds !! k = Some dv → ss !! k = Some sv →
       ∃ x, rs !! k = Some x ∧ merged opt (join_path path k) dv sv x) →
    merged opt path (VMap ds) (VMap ss) (VMap rs)
| merged_no_source path ds : merged opt path (VMap ds) VNilMap (VMap ds)
| merged_into_nil path sv : kind_of sv = KMapping → merged opt path VNilMap sv sv
| merged_replaced path dv sv :
    kind_of dv = KList → kind_of sv = KList → merge_key opt path = None → AppendSlices opt = false →
    merged opt path dv sv sv
| merged_appended path dv sv ds ss :
    as_slice dv = Some ds → as_slice sv = Some ss → merge_key opt path = None → AppendSlices opt = true →
    merged opt path dv sv (slice_of dv (ds ++ ss))
| merged_aligned path key dv sv ds ss rs :
    as_slice dv = Some ds → as_slice sv = Some ss → merge_key opt path = Some key →
    aligned opt path key ds ss rs →
    merged opt path dv sv (slice_of dv rs)
| merged_other path dv sv :
    (kind_of dv = kind_of sv → kind_of dv ≠ KMapping ∧ kind_of dv ≠ KList) →
    (Strict opt = true → compatible dv sv) →
    merged opt path dv sv sv
(** The entries of the source, one after the other: an entry without identity,
    or whose identity is new, is appended, any other is merged into the last
    entry of its identity. *)
with aligned (opt : Options) : string → string → list value → list value → list value → Prop :=
| aligned_end path key a : aligned opt path key a [] a
| aligned_new path key a e b r :
    (∀ k, entry_key key e = Some k → no_entry key k a) →
    aligned opt path key (a ++ [e]) b r → aligned opt path key a (e :: b) r
| aligned_known path key a1 ex a2 m d b r k :
    entry_key key (VMap m) = Some k → entry_key key (VMap ex) = Some k → no_entry key k a2 →
    merged opt (path +:+ "[]") (VMap ex) (VMap m) (VMap d) →
    aligned opt path key (a1 ++ VMap d :: a2) b r → aligned opt path key (a1 ++ VMap ex :: a2) (VMap m :: b) r.

Inductive mismatch (opt : Options) : string → value → value → string → Prop :=
| mismatch_here path dv sv : ¬ compatible dv sv → mismatch opt path dv sv path
| mismatch_member path ds ss k dv sv p :
    ds !! k = Some dv → ss !! k = Some sv → mismatch opt (join_path path k) dv sv p →
    mismatch opt path (VMap ds) (VMap ss) p
| mismatch_entry path key dv sv ds b1 m b2 a1 ex a2 k p :
    as_slice dv = Some ds → as_slice sv = Some (b1 ++ VMap m :: b2) → merge_key opt path = Some key →
    aligned opt path key ds b1 (a1 ++ VMap ex :: a2) →
    entry_key key (VMap m) = Some k → entry_key key (VMap ex) = Some k → no_entry key k a2 →
    mismatch opt (path +:+ "[]") (VMap ex) (VMap m) p →
    mismatch opt path dv sv p.

(** The index names, for every identity, the last entry that has it. *)
Definition idx_last (key : string) (idx : gmap string nat) (a : list value) : Prop :=
  ∀ k, match idx !! k with
       | Some i => ∃ e, a !! i = Some e ∧ entry_key key e = Some k ∧ no_entry key k (drop (S i) a)
       | None => no_entry key k a
       end.

Lemma idx_last_sound key idx a : idx_last key idx a → idx_sound key idx a.
Proof. intros Hi k i Hk. specialize (Hi k). rewrite Hk in Hi. destruct Hi as (e & ? & ? & _). by exists e. Qed.

Lemma no_entry_snoc key k a e : no_entry key k a → entry_key key e ≠ Some k → no_entry key k (a ++ [e]).
Proof. intros Ha He e' [?| ->%list_elem_of_singleton]%elem_of_app; [by apply Ha|done]. Qed.

Lemma idx_last_snoc key idx a e :
  idx_last key idx a →
  idx_last key (match entry_key key e with Some k => <[k := length a]> idx | None => idx end) (a ++ [e]).
Proof.
  intros Hi k.
  assert (entry_key key e ≠ Some k → match idx !! k with
    | Some i => ∃ e', (a ++ [e]) !! i = Some e' ∧ entry_key key e' = Some k ∧ no_entry key k (drop (S i) (a ++ [e]))
    | None => no_entry key k (a ++ [e]) end) as Hold.
  { intros He. specialize (Hi k). destruct (idx !! k) as [i|]; [|by apply no_entry_snoc].
    destruct Hi as (e' & Hi & Hk & Hno). exists e'. split_and!; [by apply lookup_app_l_Some|done|].
    apply lookup_lt_Some in Hi. rewrite drop_app_le by lia. by apply no_entry_snoc. }
  destruct (entry_key key e) as [k'|] eqn:He; [|by apply Hold].
  destruct (decide (k' = k)) as [->|Hne].
  - rewrite lookup_insert_eq. exists e. split_and!; [by rewrite lookup_app_r, Nat.sub_diag|done|].
    rewrite drop_ge by (rewrite length_app; simpl; lia). by intros ? ?%elem_of_nil.
  - rewrite lookup_insert_ne by done. apply Hold. congruence.
Qed.

Lemma key_index_last key a : idx_last key (key_index key 0 a ∅) a.
Proof.
  induction a as [|e a IH] using rev_ind; [intros k; cbn [key_index]; rewrite lookup_empty; by intros ? ?%elem_of_nil|].
  rewrite key_index_snoc. by apply idx_last_snoc.
Qed.

(** An entry is replaced by one of the same identity. *)
Lemma no_entry_replace key k a1 e e' a2 :
  entry_key key e' = entry_key key e → no_entry key k (a1 ++ e :: a2) → no_entry key k (a1 ++ e' :: a2).
Proof. intros He Hno x Hx. apply elem_of_app in Hx as [Hx|[->|Hx]%elem_of_cons]; rewrite ?He; apply Hno; set_solver. Qed.

Lemma idx_last_replace key idx a1 e e' a2 :
  entry_key key e' = entry_key key e → idx_last key idx (a1 ++ e :: a2) → idx_last key idx (a1 ++ e' :: a2).
Proof.
  intros He Hi k. specialize (Hi k). destruct (idx !! k) as [i|]; [|by eapply no_entry_replace].
  destruct Hi as (x & Hx & Hk & Hno). destruct (Nat.lt_trichotomy i (length a1)) as [Hlt|[->|Hgt]].
  - exists x. rewrite lookup_app_l in Hx |- * by done. split_and!; [done..|].
    rewrite drop_app_le in Hno |- * by lia. by eapply no_entry_replace.
  - rewrite lookup_app_r, Nat.sub_diag in Hx by lia. injection Hx as <-. exists e'.
    rewrite lookup_app_r, Nat.sub_diag by lia. split_and!; [done|congruence|].
    rewrite drop_app_ge in Hno |- * by lia. by replace (S (length a1) - length a1) with 1 in * by lia.
  - exists x. rewrite lookup_app_r in Hx |- * by lia. rewrite drop_app_ge in Hno |- * by lia.
    destruct (i - length a1) as [|n] eqn:Hn; [lia|]. replace (S i - length a1) with (S (S n)) in * by lia. done.
Qed.

Lemma slice_of_self dv l : as_slice dv = Some l → slice_of dv l = dv.
Proof. destruct dv; intros [= <-]; [by destruct l0|done]. Qed.

(** The outcome [r] of the merge of [sv] into [dv] is the one described. *)
Definition described (opt : Options) (path : string) (dv sv : value) (r : result merge_error value) : Prop :=
  match r with
  | Ok x => merged opt path dv sv x
  | Err e => Strict opt = true ∧ ∃ p, e = ErrTypeMismatch p ∧ mismatch opt path dv sv p
  end.

Lemma deepAt_described opt path ds ss :
  (∀ k sv, ss !! k = Some sv → ∀ path dv, described opt path dv sv (mergeValue opt path dv sv)) →
  described opt path (VMap ds) (VMap ss) (VMap <$> deepAt opt path ds ss).
Proof.
  intros Hrec. pose proof (deepAt_spec opt path ds ss) as Hspec.
  destruct (deepAt opt path ds ss) as [r|e]; cbn [fmap result_fmap described].
  - apply merged_maps.
    + intros k Hd. specialize (Hspec k). rewrite Hd in Hspec. by destruct (ss !! k).
    + intros k Hs. specialize (Hspec k). rewrite Hs in Hspec. by destruct (ds !! k).
    + intros k dv sv Hd Hs. specialize (Hspec k). rewrite Hd, Hs in Hspec. destruct Hspec as (x & Hx & Hk).
      exists x. split; [done|]. specialize (Hrec k sv Hs (join_path path k) dv). by rewrite Hx in Hrec.
  - destruct Hspec as (k & dv & sv & Hd & Hs & Hm). specialize (Hrec k sv Hs (join_path path k) dv).
    rewrite Hm in Hrec. destruct Hrec as (HS & p & -> & Hp). split; [done|]. exists p. split; [done|].
    by eapply mismatch_member.
Qed.

Lemma strategic_loop_described opt path key idx a b :
  (∀ m, VMap m ∈ b → ∀ path ds, described opt path (VMap ds) (VMap m) (VMap <$> deepAt opt path ds m)) →
  idx_last key idx a →
  match strategic_loop (deepAt opt (path +:+ "[]")) (Strict opt) path key idx a b with
  | Ok r => aligned opt path key a b r
  | Err e => Strict opt = true ∧ ∃ p b1 m b2 a1 ex a2 k, e = ErrTypeMismatch p ∧ b = b1 ++ VMap m :: b2
      ∧ aligned opt path key a b1 (a1 ++ VMap ex :: a2)
      ∧ entry_key key (VMap m) = Some k ∧ entry_key key (VMap ex) = Some k ∧ no_entry key k a2
      ∧ mismatch opt (path +:+ "[]") (VMap ex) (VMap m) p
  end.
Proof.
  revert idx a. induction b as [|e b IH]; intros idx a Hrec Hi; [apply aligned_end|].
  assert (∀ m, VMap m ∈ b → ∀ path ds, described opt path (VMap ds) (VMap m) (VMap <$> deepAt opt path ds m)) as Hb.
  { intros m Hm. apply Hrec. by apply list_elem_of_further. }
  rewrite strategic_loop_cons by by apply idx_last_sound.
  assert (∀ idx', (∀ k, entry_key key e = Some k → no_entry key k a) → idx_last key idx' (a ++ [e]) →
    match strategic_loop (deepAt opt (path +:+ "[]")) (Strict opt) path key idx' (a ++ [e]) b with
    | Ok r => aligned opt path key a (e :: b) r
    | Err e' => Strict opt = true ∧ ∃ p b1 m b2 a1 ex a2 k, e' = ErrTypeMismatch p ∧ e :: b = b1 ++ VMap m :: b2
        ∧ aligned opt path key a b1 (a1 ++ VMap ex :: a2)
        ∧ entry_key key (VMap m) = Some k ∧ entry_key key (VMap ex) = Some k ∧ no_entry key k a2
        ∧ mismatch opt (path +:+ "[]") (VMap ex) (VMap m) p
    end) as Hnew.
  { intros idx' Hfresh Hi'. specialize (IH idx' (a ++ [e]) Hb Hi'). destruct (strategic_loop _ _ _ _ _ _ _); [by apply aligned_new|].
    destruct IH as (HS & p & b1 & m & b2 & a1 & ex & a2 & k & -> & -> & Hal & Hrest). split; [done|].
    destruct Hrest as (? & ? & ? & ?). exists p, (e :: b1), m, b2, a1, ex, a2, k. split_and!; try done. by apply aligned_new. }
  pose proof (idx_last_snoc key idx a e Hi) as Hsnoc.
  destruct (entry_key key e) as [k|] eqn:He; [|by apply Hnew].
  pose proof (Hi k) as Hk. destruct (idx !! k) as [i|] eqn:Hki; [|apply Hnew; [by intros ? [= <-]|done]].
  destruct Hk as (e' & Hi' & He' & Hno).
  pose proof He as (m & -> & Hkm & _)%entry_key_map. pose proof He' as (ex & -> & Hkex & _)%entry_key_map.
  rewrite Hi'. pose proof (take_drop_middle a i (VMap ex) Hi') as Ha.
  specialize (Hrec m ltac:(by apply list_elem_of_here) (path +:+ "[]") ex).
  destruct (deepAt opt (path +:+ "[]") ex m) as [d|err] eqn:Hd; cbn [mbind result_bind fmap result_fmap described] in *.
  - assert (entry_key key (VMap d) = Some k) as Hkd.
    { eapply entry_key_of; [exact (deepAt_keeps_key _ _ _ _ _ _ _ Hkex Hkm Hd)|by eapply entry_key_nonempty]. }
    rewrite insert_take_drop by by eapply lookup_lt_Some.
    assert (idx_last key idx (take i a ++ VMap d :: drop (S i) a)) as Hi2.
    { apply (idx_last_replace key idx (take i a) (VMap ex)); [congruence|by rewrite Ha]. }
    specialize (IH idx _ Hb Hi2). destruct (strategic_loop _ _ _ _ _ _ _) as [r|e'].
    + rewrite <-Ha. by eapply aligned_known.
    + destruct IH as (HS & p & b1 & m' & b2 & a1 & ex' & a2 & k' & -> & -> & Hal & Hrest). split; [done|].
      destruct Hrest as (? & ? & ? & ?). exists p, (VMap m :: b1), m', b2, a1, ex', a2, k'. split_and!; try done.
      rewrite <-Ha. by eapply aligned_known.
  - destruct Hrec as (HS & p & -> & Hp). split; [done|].
    exists p, [], m, b, (take i a), ex, (drop (S i) a), k. split_and!; try done. rewrite Ha. apply aligned_end.
Qed.

Lemma mergeValue_merged opt path dv sv : described opt path dv sv (mergeValue opt path dv sv).
Proof.
  revert path dv. induction sv as [sv IH] using value_lt_ind. intros path dv.
  assert (∀ m, value_size (VMap m) ≤ value_size sv → ∀ path ds,
    described opt path (VMap ds) (VMap m) (VMap <$> deepAt opt path ds m)) as Hdeep.
  { intros m Hsz pre ds. apply deepAt_described. intros k sv' Hk pre' dv'. apply IH. apply value_size_map in Hk. lia. }
  assert (∀ v, is_Some (as_map v) → kind_of v = KMapping) as Hmap by (by intros []; intros [? ?]).
  assert (∀ v, is_Some (as_slice v) → kind_of v = KList) as Hlist by (by intros []; intros [? ?]).
  assert (kind_of dv ≠ kind_of sv → described opt path dv sv (if Strict opt then Err (ErrTypeMismatch path) else Ok sv)) as Hdiff.
  { intros Hne. destruct (Strict opt) eqn:HS; cbn [described].
    - split; [done|]. exists path. split; [done|]. apply mismatch_here. by intros [? _].
    - apply merged_other; [done|congruence]. }
  destruct (merge_cases dv sv) as [ds ss|ds|sv Hv|dv sv Hd Hs|dv ss Hv|dv Hv|dv sv Hd Hs|dv sv Hd Hs].
  - rewrite mergeValue_maps. by apply Hdeep.
  - apply merged_no_source.
  - rewrite mergeValue_nil_map by done. apply merged_into_nil. by apply Hmap.
  - rewrite mergeValue_map_mismatch by done. apply Hdiff. rewrite Hmap by done. by destruct sv.
  - pose proof Hv as [l Hl]. rewrite mergeValue_slices, Hl by done. cbn [default].
    destruct (merge_key opt path) as [key|] eqn:Hkey.
    + pose proof (strategic_loop_described opt path key (key_index key 0 l ∅) l ss) as Hloop.
      specialize (Hloop ltac:(intros m Hm; apply Hdeep; apply value_size_slice in Hm; lia) (key_index_last key l)).
      unfold strategicMergeList. destruct (strategic_loop _ _ _ _ _ _ _) as [r|e]; cbn [fmap result_fmap described].
      * by eapply merged_aligned.
      * destruct Hloop as (HS & p & b1 & m & b2 & a1 & ex & a2 & k & -> & -> & Hrest). split; [done|].
        exists p. split; [done|]. destruct Hrest as (? & ? & ? & ? & ?). by eapply mismatch_entry.
    + destruct (AppendSlices opt) eqn:HA; [by apply merged_appended|]. apply merged_replaced; [by apply Hlist|done..].
  - pose proof Hv as [l Hl]. rewrite mergeValue_slice_nil by done.
    destruct (merge_key opt path) as [key|] eqn:Hkey; [|destruct (AppendSlices opt) eqn:HA]; cbn [described].
    + rewrite <-(slice_of_self dv l Hl) at 2. eapply merged_aligned; [done..|apply aligned_end].
    + rewrite <-(slice_of_self dv l Hl) at 2. rewrite <-(app_nil_r l). by eapply merged_appended.
    + apply merged_replaced; [by apply Hlist|done..].
  - rewrite mergeValue_slice_mismatch by done. apply Hdiff. rewrite Hlist by done. by destruct sv.
  - rewrite mergeValue_scalar by done. destruct (Strict opt) eqn:HS; cbn [andb described].
    + destruct (sameKind dv sv) eqn:Hk; cbn [negb described].
      * assert (kind_of dv ≠ KOther) by by destruct dv. apply sameKind_kind in Hk; [|done..].
        apply merged_other; [by destruct dv|done].
      * split; [done|]. exists path. split; [done|]. apply mismatch_here. intros [Heq Ho]. by destruct dv, sv.
    + apply merged_other; [by destruct dv|congruence].
Qed.

(** A merge fails only in strict mode, and only on a type conflict. *)
Lemma mergeValue_Err opt path dv sv e :
  mergeValue opt path dv sv = Err e → Strict opt = true ∧ ∃ p, e = ErrTypeMismatch p.
Proof.
  revert path dv e. induction sv as [sv IH] using value_lt_ind. intros path dv e He.
  assert (∀ pre d m, value_size (VMap m) ≤ value_size sv → deepAt opt pre d m = Err e →
    Strict opt = true ∧ ∃ p, e = ErrTypeMismatch p) as Hdeep.
  { intros pre d m Hsz (k & dv' & sv' & Hd & Hs & Hm)%deepAt_Err.
    eapply IH; [|done]. apply value_size_map in Hs. lia. }
  destruct (merge_cases dv sv) as [ds ss|ds|sv ?|dv sv ? ?|dv ss ?|dv ?|dv sv ? ?|dv sv ? ?].
  - rewrite mergeValue_maps in He. apply fmap_Err in He. by eapply Hdeep.
  - done.
  - by rewrite mergeValue_nil_map in He.
  - rewrite mergeValue_map_mismatch in He by done. destruct (Strict opt); naive_solver.
  - rewrite mergeValue_slices in He by done.
    destruct (merge_key opt path) as [key|]; [|done]. apply fmap_Err in He.
    eapply strategic_loop_Err in He as (ex & m & Hm & Hd).
    + eapply Hdeep; [|done]. apply value_size_slice in Hm. lia.
    + intros ????. apply deepAt_keeps_key.
    + apply key_index_sound.
  - rewrite mergeValue_slice_nil in He by done. by destruct (merge_key opt path).
  - rewrite mergeValue_slice_mismatch in He by done. destruct (Strict opt); naive_solver.
  - rewrite mergeValue_scalar in He by done. destruct (Strict opt); simpl in He; [|done].
    destruct (sameKind dv sv); naive_solver.
Qed.

(** ** Facts about whole merges *)

Lemma Deep_Ok opt d s r :
  Deep (Some d) s opt = Ok r ↔ ∃ r', r = Some r' ∧ merged_map opt "" d (default ∅ s) r'.
Proof.
  unfold Deep. rewrite fmap_Ok. split.
  - intros (r' & Hr%deepAt_Ok & ->). by exists r'.
  - intros (r' & -> & Hr%deepAt_Ok). by exists r'.
Qed.

Lemma Deep_value opt d s r :
  Deep (Some d) (Some s) opt = Ok (Some r) ↔ mergeValue opt "" (VMap d) (VMap s) = Ok (VMap r).
Proof.
  rewrite mergeValue_maps. unfold Deep. rewrite !fmap_Ok. simpl.
  split; intros (r' & Hr & [= ->]); by exists r'.
Qed.

(** Plain options: slices replace, in every mode. *)
Definition plain (opt : Options) : Prop := AppendSlices opt = false ∧ MergeKeys opt = ∅.

Lemma plain_merge_key opt path : plain opt → merge_key opt path = None.
Proof. intros [_ HM]. unfold merge_key. by rewrite HM, lookup_empty. Qed.

(** A successful plain merge of two values that are not both maps is the
    source; a nil source map merged into a map keeps the map. *)
Lemma mergeValue_plain opt path dv sv x :
  plain opt → mergeValue opt path dv sv = Ok x →
  (∃ ds ss r, dv = VMap ds ∧ sv = VMap ss ∧ x = VMap r ∧ merged_map opt path ds ss r)
  ∨ (sv = VNilMap ∧ x = dv ∧ ∃ ds, dv = VMap ds) ∨ (x = sv ∧ ∀ ds, dv = VMap ds → as_map sv = None).
Proof.
  intros Hp Hm. pose proof Hp as [HA _].
  destruct (merge_cases dv sv) as [ds ss|ds|sv ?|dv sv ? ?|dv ss ?|dv ?|dv sv Hsl ?|dv sv ? ?].
  - rewrite mergeValue_maps in Hm. apply fmap_Ok in Hm as (r & Hr%deepAt_Ok & ->). left.
    by exists ds, ss, r.
  - simpl in Hm. inv_result. right; left. eauto.
  - rewrite mergeValue_nil_map in Hm by done. inv_result. right; right. done.
  - rewrite mergeValue_map_mismatch in Hm by done. right; right. destruct (Strict opt); by inv_result.
  - rewrite mergeValue_slices, plain_merge_key, HA in Hm by done. inv_result. right; right. done.
  - rewrite mergeValue_slice_nil, plain_merge_key, HA in Hm by done. inv_result. right; right. done.
  - rewrite mergeValue_slice_mismatch in Hm by done. right; right.
    destruct (Strict opt); inv_result. split; [done|]. intros ? ->. by destruct Hsl.
  - rewrite mergeValue_scalar in Hm by done. right; right.
    destruct (Strict opt && _); inv_result. split; [done|]. by intros ? ->.
Qed.

(** The source says nothing at [p]: it has no value there, and no value other
    than a map on the way. *)
Fixpoint untouched (s : value) (p : list string) : Prop :=
  match p with
  | [] => False
  | k :: rest =>
      match as_map s with
      | None => False
      | Some m => match gomap_lookup m k with None => True | Some v => untouched v rest end
      end
  end.

Lemma untouched_get s p : untouched s p → get_at s p = None.
Proof.
  revert s. induction p as [|k p IH]; intros s; simpl; [done|].
  destruct (as_map s) as [m|]; [|done]. destruct (gomap_lookup m k); auto.
Qed.

Lemma untouched_map v p : untouched v p → is_Some (as_map v).
Proof. destruct p; simpl; [done|]. by destruct (as_map v). Qed.

Lemma merge_get_source opt p path dv sv x v :
  plain opt → mergeValue opt path dv sv = Ok x →
  get_at sv p = Some v → as_map v = None → get_at x p = Some v.
Proof.
  intros Hp. revert path dv sv x. induction p as [|k p IH]; intros path dv sv x Hm Hg Hv.
  - apply mergeValue_plain in Hm as [(ds & ss & r & -> & -> & _)|[(-> & _)|[-> _]]]; [| |done|done];
      simpl in Hg; by simplify_eq.
  - apply mergeValue_plain in Hm as [(ds & ss & r & -> & -> & -> & Hr)|[(-> & _)|[-> _]]]; [|done..].
    simpl in Hg |- *. specialize (Hr k). destruct (ss !! k) as [sv|] eqn:Hs; [|done].
    destruct (ds !! k) as [dv|]; simpl in Hr.
    + destruct Hr as (y & Hy & ->). by eapply IH.
    + by rewrite Hr.
Qed.

Lemma merge_get_base opt p path dv sv x :
  plain opt → mergeValue opt path dv sv = Ok x → untouched sv p → get_at x p = get_at dv p.
Proof.
  intros Hp. revert path dv sv x. induction p as [|k p IH]; intros path dv sv x Hm Hu; [done|].
  apply mergeValue_plain in Hm as [(ds & ss & r & -> & -> & -> & Hr)|[(-> & -> & _)|[-> Hd]]]; [|done| |done].
  - simpl in Hu |- *. specialize (Hr k). destruct (ss !! k) as [sv|] eqn:Hs, (ds !! k) as [dv|]; simpl in Hr.
    + destruct Hr as (y & Hy & ->). by eapply IH.
    + rewrite Hr. by apply untouched_get.
    + by rewrite Hr.
    + by rewrite Hr.
  - rewrite (untouched_get _ _ Hu). symmetry. destruct dv; try done.
    specialize (Hd m eq_refl). apply untouched_map in Hu. destruct Hu. congruence.
Qed.

(** Merging a value into itself, or merging the same source again. *)
Lemma merge_self opt path v :
  plain opt → Strict opt = false → mergeValue opt path v v = Ok v.
Proof.
  intros Hp HS. revert path. induction v as [v IH] using value_lt_ind. intros path.
  destruct v; simpl; rewrite ?HS, ?plain_merge_key by done; try done; try (by destruct Hp as [-> _]).
  change (VMap <$> deepAt opt path m m = Ok (VMap m)).
  enough (deepAt opt path m m = Ok m) as -> by done. apply deepAt_Ok. intros k.
  destruct (m !! k) as [v|] eqn:Hk; simpl; [|done]. exists v. split; [|done].
  apply IH. by eapply value_size_map.
Qed.

Lemma merge_again opt path dv sv x :
  plain opt → Strict opt = false → mergeValue opt path dv sv = Ok x → mergeValue opt path x sv = Ok x.
Proof.
  intros Hp HS. revert path dv x. induction sv as [sv IH] using value_lt_ind. intros path dv x Hm.
  apply mergeValue_plain in Hm as [(ds & ss & r & -> & -> & -> & Hr)|[(-> & -> & ds & ->)|[-> Hd]]]; [|done|by apply merge_self|done].
  rewrite mergeValue_maps. enough (deepAt opt path r ss = Ok r) as -> by done.
  apply deepAt_Ok. intros k. specialize (Hr k). destruct (ss !! k) as [sv|] eqn:Hs.
  - destruct (ds !! k) as [dv|]; simpl in Hr.
    + destruct Hr as (y & Hy & ->). simpl. exists y. split; [|done].
      eapply IH; [by apply value_size_map in Hs|done].
    + rewrite Hr. simpl. exists sv. split; [|done]. by apply merge_self.
  - destruct (r !! k) as [v|]; done.
Qed.

Lemma slice_of_kind a l : kind_of (slice_of a l) = KList.
Proof. by destruct a, l. Qed.

Lemma merge_strict_kind opt path dv sv x :
  Strict opt = true → mergeValue opt path dv sv = Ok x → kind_of x = kind_of dv.
Proof.
  intros HS Hm. assert (∀ v, is_Some (as_slice v) → kind_of v = KList) as Hsl by (by intros []; intros [? ?]).
  destruct (merge_cases dv sv) as [ds ss|ds|sv Hv|dv sv ? ?|dv ss Hv|dv Hv|dv sv ? ?|dv sv ? ?].
  - rewrite mergeValue_maps in Hm. by inv_result.
  - simpl in Hm. by inv_result.
  - rewrite mergeValue_nil_map in Hm by done. inv_result. by destruct x, Hv.
  - rewrite mergeValue_map_mismatch, HS in Hm by done. done.
  - rewrite mergeValue_slices in Hm by done. rewrite (Hsl dv) by done.
    destruct (merge_key opt path); inv_result; [by rewrite slice_of_kind|].
    destruct (AppendSlices opt); [by rewrite slice_of_kind|done].
  - rewrite mergeValue_slice_nil in Hm by done. rewrite (Hsl dv) by done.
    destruct (merge_key opt path); inv_result; [by rewrite Hsl|].
    destruct (AppendSlices opt); [by rewrite Hsl|done].
  - rewrite mergeValue_slice_mismatch, HS in Hm by done. done.
  - rewrite mergeValue_scalar, HS in Hm by done. destruct (sameKind dv sv) eqn:Hk; simpl in Hm; inv_result.
    symmetry. by apply sameKind_kind.
Qed.

Lemma merge_strict_paths opt p path dv sv x v :
  Strict opt = true → mergeValue opt path dv sv = Ok x →
  get_at dv p = Some v → ∃ w, get_at x p = Some w ∧ kind_of w = kind_of v.
Proof.
  intros HS. revert path dv sv x. induction p as [|k p IH]; intros path dv sv x Hm Hg.
  - simpl in Hg. simplify_eq. exists x. split; [done|]. by eapply merge_strict_kind.
  - destruct dv; try done. pose proof (merge_strict_kind _ _ _ _ _ HS Hm) as Hk.
    simpl in Hg. destruct (m !! k) as [dv|] eqn:Hd; [|done].
    destruct sv; simpl in Hm; rewrite ?HS in Hm; try done.
    + change (VMap <$> deepAt opt path m m0 = Ok x) in Hm.
      apply fmap_Ok in Hm as (r & Hr%deepAt_Ok & ->). specialize (Hr k).
      rewrite Hd in Hr. simpl. destruct (m0 !! k) as [sv|]; simpl in Hr.
      * destruct Hr as (y & Hy & ->). by eapply IH.
      * rewrite Hr. eauto.
    + inv_result. simpl. rewrite Hd. eauto.
Qed.

(** ** Correctness of the merge *)

(** C16: what [Deep] computes. A merge into a nil destination succeeds only when
    the source has no entry, and leaves it nil. Into any other destination it
    returns exactly the tree that [merged] describes: maps merge entry by entry,
    slices are replaced, appended or, where a merge key is registered for their
    path, aligned by that key, every other value of the source replaces that of
    the destination. It fails only in strict mode, and then at a path where
    values of kinds that do not agree, or of no JSON kind, meet; it never
    panics. *)
Theorem deep_merge_exact (opt : Options) (dst src : gomap) :
  match Deep dst src opt with
  | Ok None => dst = None ∧ default ∅ src = ∅
  | Ok (Some r) => ∃ d, dst = Some d ∧ merged opt "" (VMap d) (VMap (default ∅ src)) (VMap r)
  | Err ErrNilDestination => dst = None ∧ default ∅ src ≠ ∅
  | Err (ErrTypeMismatch p) => Strict opt = true ∧ ∃ d, dst = Some d ∧ mismatch opt "" (VMap d) (VMap (default ∅ src)) p
  | Err (PanicNilMap | PanicIndex) => False
  end.
Proof.
  unfold Deep. destruct dst as [d|]; [|by case_bool_decide].
  pose proof (mergeValue_merged opt "" (VMap d) (VMap (default ∅ src))) as Hm. rewrite mergeValue_maps in Hm.
  destruct (deepAt opt "" d (default ∅ src)) as [r|e]; cbn [fmap result_fmap] in *; [by exists d|].
  destruct Hm as (HS & p & -> & Hp). split; [done|]. by exists d.
Qed.

(** The outcome of a merge does not depend on the order in which Go visits
    the entries of its maps. Every execution of [deepAt] over the entries of
    [s], taken in any order and with any order chosen again at every nested
    map, ends with the same merged map, or fails where all of them fail. *)
Theorem merge_order_independent (opt : Options) (pre : string) (d s : gmap string value)
    (l : list (string * value)) (r : result merge_error (gmap string value))
    (Hl : l ≡ₚ map_to_list s) (Hrun : runs_deep opt pre d l r) :
  match r, deepAt opt pre d s with
  | Ok a, Ok b => a = b
  | Err _, Err _ => True
  | _, _ => False
  end.
Proof.
  assert (NoDup l.*1) as Hnd by (rewrite Hl; apply NoDup_fst_map_to_list).
  assert (list_to_map l = s) as Hs by (rewrite <-(list_to_map_to_list s); by apply list_to_map_proper).
  destruct (runs_agree opt) as (_ & Hdeep & _). rewrite <-Hs. by apply Hdeep.
Qed.

Definition opt_plain : Options := {| AppendSlices := false; Strict := false; MergeKeys := ∅ |}.
Definition opt_strict : Options := {| AppendSlices := false; Strict := true; MergeKeys := ∅ |}.

Lemma merge_order_independent_witness :
  match Ok (<["b" := VNil]> (<["a" := VBool true]> ∅)) : result merge_error (gmap string value),
        deepAt opt_plain "" ∅ {["a" := VBool true; "b" := VNil]} with
  | Ok a, Ok b => a = b
  | Err _, Err _ => True
  | _, _ => False
  end.
Proof.
  apply (merge_order_independent opt_plain "" ∅ {["a" := VBool true; "b" := VNil]}
           [("a", VBool true); ("b", VNil)]).
  - apply NoDup_Permutation; [apply (bool_decide_unpack _); vm_compute; done|apply NoDup_map_to_list|].
    intros [k v]. rewrite elem_of_map_to_list, !list_elem_of_In. simpl.
    rewrite lookup_insert_Some, lookup_singleton_Some. naive_solver.
  - apply runs_new; [by vm_compute|]. apply runs_new; [by vm_compute|]. apply runs_done.
Defined.

(** [Deep] never panics and fails for two reasons only: a non-empty source
    and a nil destination, or a type conflict in strict mode. In particular the
    merge into a non-nil destination always succeeds when [Strict] is off. *)
Theorem deep_errors (opt : Options) (d s : gomap) :
  match Deep d s opt with
  | Ok r => (r = None ↔ d = None)
  | Err ErrNilDestination => d = None ∧ default ∅ s ≠ ∅
  | Err (ErrTypeMismatch _) => Strict opt = true ∧ is_Some d
  | Err (PanicNilMap | PanicIndex) => False
  end.
Proof.
  destruct d as [d|]; simpl.
  - destruct (deepAt opt "" d (default ∅ s)) as [r|e] eqn:Hr; simpl; [done|].
    apply deepAt_Err in Hr as (k & dv & sv & _ & _ & Hm).
    apply mergeValue_Err in Hm as [HS [p ->]]. done.
  - case_bool_decide; done.
Qed.

(** The overlay wins and the base shows through. In a merge that replaces
    slices, every value of the source other than a map can be read at its path
    in the result, and every path on which the source has nothing to say reads
    as in the destination. *)
Theorem deep_overlay_wins (opt : Options) (d s r : gmap string value) (p : list string)
    (Happend : AppendSlices opt = false) (Hkeys : MergeKeys opt = ∅)
    (Hr : Deep (Some d) (Some s) opt = Ok (Some r)) :
  (∀ v, Get (Some s) p = Some v → as_map v = None → Get (Some r) p = Some v)
  ∧ (untouched (VMap s) p → Get (Some r) p = Get (Some d) p).
Proof.
  apply Deep_value in Hr as Hm.
  destruct p as [|k p]; [done|]. split.
  - intros v Hv Hleaf. exact (merge_get_source opt (k :: p) "" _ _ _ v (conj Happend Hkeys) Hm Hv Hleaf).
  - exact (merge_get_base opt (k :: p) "" _ _ _ (conj Happend Hkeys) Hm).
Qed.

Definition ex_base : gmap string value :=
  {["server" := VMap {["port" := VInt KInt 80; "host" := VString "h"]}; "debug" := VBool false]}.
Definition ex_over : gmap string value := {["server" := VMap {["port" := VInt KInt 8080]}]}.
Definition ex_merged : gmap string value :=
  {["server" := VMap {["port" := VInt KInt 8080; "host" := VString "h"]}; "debug" := VBool false]}.

Lemma deep_overlay_wins_witness :
  Get (Some ex_merged) ["server"; "port"] = Some (VInt KInt 8080)
  ∧ Get (Some ex_merged) ["server"; "host"] = Get (Some ex_base) ["server"; "host"].
Proof.
  split.
  - apply (deep_overlay_wins opt_plain ex_base ex_over ex_merged ["server"; "port"]); vm_compute; reflexivity.
  - apply (deep_overlay_wins opt_plain ex_base ex_over ex_merged ["server"; "host"]); vm_compute; reflexivity.
Defined.

(** Re-applying a layer changes nothing: in a lenient merge that replaces
    slices, merging the same source into the result gives the result again. *)
Theorem deep_idempotent (opt : Options) (d s r : gmap string value)
    (Happend : AppendSlices opt = false) (Hkeys : MergeKeys opt = ∅) (Hstrict : Strict opt = false)
    (Hr : Deep (Some d) (Some s) opt = Ok (Some r)) :
  Deep (Some r) (Some s) opt = Ok (Some r).
Proof.
  apply Deep_value in Hr as Hm. apply Deep_value.
  by apply merge_again in Hm.
Qed.

Lemma deep_idempotent_witness :
  Deep (Some ex_merged) (Some ex_over) opt_plain = Ok (Some ex_merged).
Proof. apply (deep_idempotent opt_plain ex_base); [done..|]; vm_compute; reflexivity. Defined.

(** C17: a strict merge preserves the schema of the destination: every path
    that resolved before it resolves after it, to a value of the same kind
    (null, boolean, string, number, mapping, list or other), whatever the
    slice options are. *)
Theorem strict_merge_preserves_kinds (opt : Options) (d s r : gmap string value)
    (p : list string) (v : value)
    (Hstrict : Strict opt = true) (Hr : Deep (Some d) (Some s) opt = Ok (Some r))
    (Hp : Get (Some d) p = Some v) :
  ∃ w, Get (Some r) p = Some w ∧ kind_of w = kind_of v.
Proof.
  apply Deep_value in Hr as Hm.
  destruct p as [|k p]; [done|]. by apply (merge_strict_paths opt (k :: p) "" (VMap d) (VMap s)).
Qed.

Lemma strict_merge_preserves_kinds_witness :
  ∃ w, Get (Some ex_merged) ["server"; "port"] = Some w ∧ kind_of w = kind_of (VInt KInt 80).
Proof.
  apply (strict_merge_preserves_kinds opt_strict ex_base ex_over); vm_compute; reflexivity.
Defined.

(** Strict mode also rejects two values of the same type when the type is
    not one of the JSON ones: a layer that sets a date over a date fails. *)
Theorem strict_rejects_same_opaque_type (opt : Options) (k ty : string) (i j : N) :
  Strict opt = true →
  Deep (Some {[k := VOpaque ty i]}) (Some {[k := VOpaque ty j]}) opt = Err (ErrTypeMismatch k).
Proof.
  intros HS. unfold Deep, deepAt. simpl. rewrite map_fold_singleton. simpl.
  rewrite lookup_singleton_eq. simpl. by rewrite HS.
Qed.

Lemma strict_rejects_same_opaque_type_witness :
  Deep (Some {["at" := VOpaque "time.Time" 1]}) (Some {["at" := VOpaque "time.Time" 2]}) opt_strict
    = Err (ErrTypeMismatch "at").
Proof. apply (strict_rejects_same_opaque_type opt_strict "at" "time.Time" 1 2). done. Defined.

(** Strategic merge is a merge of keyed collections. When no two entries
    of the destination list share an identity, a merge that succeeds leaves no
    two entries with the same one, keeps every identified entry at its
    position, and holds an entry for every identity of the source. *)
Theorem strategic_merge_identity (opt : Options) (path key : string) (a b r : list value)
    (Hu : unique_keys key a)
    (Hr : strategicMergeList (deepAt opt (path +:+ "[]")) (Strict opt) path a b key = Ok r) :
  unique_keys key r
  ∧ (∀ i e k, a !! i = Some e → entry_key key e = Some k →
       ∃ e', r !! i = Some e' ∧ entry_key key e' = Some k)
  ∧ (∀ e k, e ∈ b → entry_key key e = Some k → ∃ e', e' ∈ r ∧ entry_key key e' = Some k).
Proof.
  eapply strategic_loop_keys; [|apply key_index_sound|by apply key_index_complete|exact Hr].
  intros ex m d k. apply deepAt_keeps_key.
Qed.

Definition ex_entry (name : string) (img : string) : value :=
  VMap {["name" := VString name; "image" := VString img]}.

Lemma strategic_merge_identity_witness :
  unique_keys "name" [ex_entry "a" "v2"; ex_entry "b" "v1"].
Proof.
  apply (strategic_merge_identity opt_plain "c" "name" [ex_entry "a" "v1"]
           [ex_entry "a" "v2"; ex_entry "b" "v1"]).
  - intros [|i] [|j] e e' k; simpl; try done; by rewrite lookup_nil.
  - by vm_compute.
Defined.
