(* ===== verification/Clone.v ===== *)
(** * Cloning (confmap/clone.go)

    [CloneValue] on values, and on a store of Go objects where sharing is
    visible: maps and slices are objects behind references, and a clone is the
    same tree made of new objects only. *)
From S2P Require Import Prelude GoStrings Value.

(** ** On values *)

Fixpoint CloneValue (v : value) : value :=
  match v with
  | VMap m => VMap (map_fold (λ k v out, <[k := CloneValue v]> out) ∅ m)
  | VSlice l => VSlice (map CloneValue l)
  | _ => v
  end.

Definition DeepClone (m : gomap) : gomap :=
  match m with
  | None => None
  | Some m => Some (map_fold (λ k v out, <[k := CloneValue v]> out) ∅ m)
  end.

Lemma copy_entries (f : value → value) (m : gmap string value) :
  map_Forall (λ _ v, f v = v) m → map_fold (λ k v out, <[k := f v]> out) ∅ m = m.
Proof.
  apply (map_fold_weak_ind (λ out m, map_Forall (λ _ v, f v = v) m → out = m)); [done|].
  intros k v m' out Hk IH [Hv Hm]%map_Forall_insert; [|done]. by rewrite Hv, IH.
Qed.

Lemma CloneValue_id v : CloneValue v = v.
Proof.
  induction v as [m IH|l IH|v Hm Hs] using value_tree_ind.
  - simpl. f_equal. by apply copy_entries.
  - simpl. f_equal. induction IH as [|v l Hv _ IHl]; simpl; congruence.
  - destruct v; try done; [by destruct Hm|by destruct Hs].
Qed.

Lemma DeepClone_id m : DeepClone m = m.
Proof. destruct m as [m|]; [|done]. cbn. f_equal. apply copy_entries. intros k v _. apply CloneValue_id. Qed.

(** ** On a store *)

Definition loc := positive.

(** A Go value: a scalar, or a reference to a map or slice (or a nil one). *)
Inductive ref :=
| RScalar (v : value)
| RMap (l : option loc)
| RSlice (l : option loc).

Inductive obj :=
| OMap (m : gmap string ref)
| OSlice (l : list ref).

Notation heap := (gmap loc obj).

Definition alloc (h : heap) (o : obj) : heap * loc :=
  let l := fresh (dom h) in (<[l := o]> h, l).

(** [out[k] = v] and [out[i] = v]. *)
Definition write_key (h : heap) (l : loc) (k : string) (r : ref) : heap :=
  match h !! l with Some (OMap m) => <[l := OMap (<[k := r]> m)]> h | _ => h end.
Definition write_index (h : heap) (l : loc) (i : nat) (r : ref) : heap :=
  match h !! l with Some (OSlice rs) => <[l := OSlice (<[i := r]> rs)]> h | _ => h end.

Section loops.
Variable clone : heap → ref → option (heap * ref).

Fixpoint clone_entries (h : heap) (out : loc) (es : list (string * ref)) : option heap :=
  match es with
  | [] => Some h
  | (k, r) :: es => '(h, r') ← clone h r; clone_entries (write_key h out k r') out es
  end.

Fixpoint clone_items (h : heap) (out : loc) (i : nat) (rs : list ref) : option heap :=
  match rs with
  | [] => Some h
  | r :: rs => '(h, r') ← clone h r; clone_items (write_index h out i r') out (S i) rs
  end.
End loops.

(** [CloneValue] (and [DeepClone] on a map) on the store: the new object is
    made first, then filled entry by entry. The fuel bounds the nesting. *)
Fixpoint clone_ref (fuel : nat) (h : heap) (r : ref) : option (heap * ref) :=
  match r with
  | RScalar _ | RMap None | RSlice None => Some (h, r)
  | RMap (Some l) =>
      match fuel, h !! l with
      | S fuel, Some (OMap m) =>
          let '(h, out) := alloc h (OMap ∅) in
          h ← clone_entries (clone_ref fuel) h out (map_to_list m);
          Some (h, RMap (Some out))
      | _, _ => None
      end
  | RSlice (Some l) =>
      match fuel, h !! l with
      | S fuel, Some (OSlice rs) =>
          let '(h, out) := alloc h (OSlice (replicate (length rs) (RScalar VNil))) in
          h ← clone_items (clone_ref fuel) h out 0 rs;
          Some (h, RSlice (Some out))
      | _, _ => None
      end
  end.

(** ** The tree behind a reference *)

Definition is_scalar (v : value) : bool :=
  match v with VMap _ | VNilMap | VSlice _ | VNilSlice => false | _ => true end.

(** [r] is the tree [v] in the store [h], every object of it satisfying [P]. *)
Inductive repr (P : loc → Prop) (h : heap) : ref → value → Prop :=
| repr_scalar v : is_scalar v = true → repr P h (RScalar v) v
| repr_nil_map : repr P h (RMap None) VNilMap
| repr_nil_slice : repr P h (RSlice None) VNilSlice
| repr_map l m vm :
    P l → h !! l = Some (OMap m) → dom m = dom vm →
    (∀ k r v, m !! k = Some r → vm !! k = Some v → repr P h r v) →
    repr P h (RMap (Some l)) (VMap vm)
| repr_slice l rs vs :
    P l → h !! l = Some (OSlice rs) → length rs = length vs →
    (∀ i r v, rs !! i = Some r → vs !! i = Some v → repr P h r v) →
    repr P h (RSlice (Some l)) (VSlice vs).

(** A tree stands in every store that agrees on its objects. *)
Lemma repr_mono (P Q : loc → Prop) h h' r v :
  (∀ l o, P l → h !! l = Some o → Q l ∧ h' !! l = Some o) →
  repr P h r v → repr Q h' r v.
Proof.
  intros Hagree. induction 1 as [v Hv| | |l m vm Hl Hm Hd _ IH|l rs vs Hl Hm Hd _ IH].
  - by constructor.
  - constructor.
  - constructor.
  - destruct (Hagree _ _ Hl Hm). by econstructor.
  - destruct (Hagree _ _ Hl Hm). by econstructor.
Qed.

Lemma repr_subseteq (P : loc → Prop) (h h' : heap) r v : h ⊆ h' → repr P h r v → repr P h' r v.
Proof. intros Hh. apply repr_mono. intros l o Hl Ho. split; [done|]. by eapply lookup_weaken. Qed.

(** The objects of a tree exist in its store. *)
Lemma repr_in_dom (P : loc → Prop) (h : heap) r v : repr P h r v → repr (λ l, l ∈ dom h) h r v.
Proof. apply repr_mono. intros l o _ Ho. split; [|done]. by eapply elem_of_dom_2. Qed.

(** What one call of the clone establishes. *)
Definition cloned (h : heap) (v : value) (res : option (heap * ref)) : Prop :=
  ∃ h' r', res = Some (h', r') ∧ h ⊆ h' ∧ repr (λ l, l ∉ dom h) h' r' v.

Section loop_specs.
Context (clone : heap → ref → option (heap * ref)) (h0 : heap) (out : loc).
Hypothesis Hout : out ∉ dom h0.

(** The objects made since [h0], the one being filled apart. *)
Local Notation fresh_but := (λ l, l ∉ dom h0 ∧ l ≠ out).

Lemma fill_step (h h' : heap) o o' r' v :
  h0 ⊆ h → h !! out = Some o → h ⊆ h' → repr (λ l, l ∉ dom h) h' r' v →
  h' !! out = Some o
  ∧ h0 ⊆ <[out := o']> h'
  ∧ repr fresh_but (<[out := o']> h') r' v
  ∧ (∀ r w, repr fresh_but h r w → repr fresh_but (<[out := o']> h') r w).
Proof using Hout.
  intros H0 Ho Hh Hr. split_and!.
  - by eapply lookup_weaken.
  - apply map_subseteq_spec. intros l x Hl. rewrite lookup_insert_ne.
    + eapply lookup_weaken; [by eapply lookup_weaken|done].
    + intros ->. apply Hout. by eapply elem_of_dom_2.
  - eapply repr_mono; [|exact Hr]. intros l x Hl Hx.
    assert (l ≠ out) as Hne by (intros ->; apply Hl; by eapply elem_of_dom_2).
    rewrite lookup_insert_ne by done. split_and!; [|done..].
    intros Hin. apply Hl. by apply (subseteq_dom _ _ H0).
  - intros r w. apply repr_mono. intros l x [Hl Hne] Hx.
    rewrite lookup_insert_ne by done. split; [done|]. by eapply lookup_weaken.
Qed.

Lemma clone_entries_spec (es : list (string * ref)) (h : heap) (m : gmap string ref)
    (done_ : gset string) (vm : gmap string value) :
  (∀ k r v h, (k, r) ∈ es → vm !! k = Some v → h0 ⊆ h → cloned h v (clone h r)) →
  (∀ k r, (k, r) ∈ es → is_Some (vm !! k)) →
  h0 ⊆ h → h !! out = Some (OMap m) → dom m = done_ →
  (∀ k r v, m !! k = Some r → vm !! k = Some v → repr fresh_but h r v) →
  ∃ h' m', clone_entries clone h out es = Some h' ∧ h0 ⊆ h' ∧ h' !! out = Some (OMap m')
    ∧ dom m' = done_ ∪ list_to_set es.*1
    ∧ (∀ k r v, m' !! k = Some r → vm !! k = Some v → repr fresh_but h' r v).
Proof using Hout.
  revert h m done_. induction es as [|[k r] es IH]; intros h m done_ Hclone Hvm H0 Ho Hd Hm.
  { exists h, m. simpl. by rewrite union_empty_r_L. }
  destruct (Hvm k r) as [v Hv]; [constructor|].
  destruct (Hclone k r v h) as (h1 & r1 & Hc & Hh & Hr); [constructor|done..|].
  destruct (fill_step h h1 _ (OMap (<[k := r1]> m)) r1 v H0 Ho Hh Hr) as (Ho1 & H01 & Hr1 & Hold).
  simpl. rewrite Hc. simpl. unfold write_key at 1. rewrite Ho1.
  destruct (IH (<[out := OMap (<[k := r1]> m)]> h1) (<[k := r1]> m) ({[k]} ∪ done_))
    as (h' & m' & He & H0' & Ho' & Hd' & Hm').
  - intros k' r' v' h2 Hin. apply (Hclone k'). by constructor.
  - intros k' r' Hin. apply (Hvm k' r'). by constructor.
  - done.
  - apply lookup_insert_eq.
  - rewrite dom_insert_L. congruence.
  - intros k' r' v' Hk' Hv'. destruct (decide (k = k')) as [<-|Hne].
    + rewrite lookup_insert_eq in Hk'. by simplify_eq.
    + rewrite lookup_insert_ne in Hk' by done. by eapply Hold, Hm.
  - exists h', m'. split_and!; [done..| |done]. rewrite Hd'. simpl. set_solver.
Qed.

Lemma clone_items_spec (rs1 rs : list ref) (h : heap) (ms : list ref) (vs : list value) :
  (∀ i r v h, rs !! i = Some r → vs !! (length rs1 + i) = Some v → h0 ⊆ h → cloned h v (clone h r)) →
  length (rs1 ++ rs) = length vs →
  h0 ⊆ h → h !! out = Some (OSlice ms) → length ms = length vs →
  (∀ i r v, i < length rs1 → ms !! i = Some r → vs !! i = Some v → repr fresh_but h r v) →
  ∃ h' ms', clone_items clone h out (length rs1) rs = Some h' ∧ h0 ⊆ h'
    ∧ h' !! out = Some (OSlice ms') ∧ length ms' = length vs
    ∧ (∀ i r v, ms' !! i = Some r → vs !! i = Some v → repr fresh_but h' r v).
Proof using Hout.
  revert rs1 h ms. induction rs as [|r rs IH]; intros rs1 h ms Hclone Hlen H0 Ho Hms Hm.
  { exists h, ms. split_and!; [done..|]. intros i r v Hi. apply (Hm i r v); [|done].
    apply lookup_lt_Some in Hi. rewrite length_app in Hlen. simpl in Hlen. lia. }
  assert (length rs1 < length vs) as Hlt by (rewrite length_app in Hlen; simpl in Hlen; lia).
  apply lookup_lt_is_Some in Hlt as Hv. destruct Hv as [v Hv].
  destruct (Hclone 0 r v h) as (h1 & r1 & Hc & Hh & Hr); [done|by rewrite Nat.add_0_r|done|].
  destruct (fill_step h h1 _ (OSlice (<[length rs1 := r1]> ms)) r1 v H0 Ho Hh Hr) as (Ho1 & H01 & Hr1 & Hold).
  simpl. rewrite Hc. simpl. unfold write_index at 1. rewrite Ho1.
  replace (S (length rs1)) with (length (rs1 ++ [r])) by (rewrite length_app; simpl; lia).
  apply (IH (rs1 ++ [r]) _ (<[length rs1 := r1]> ms)).
  - intros i r' v' h2 Hi Hv'. apply (Hclone (S i)); [done|].
    rewrite length_app in Hv'. simpl in Hv'. by replace (length rs1 + S i) with (length rs1 + 1 + i) by lia.
  - by rewrite <-app_assoc.
  - done.
  - apply lookup_insert_eq.
  - by rewrite length_insert.
  - intros i r' v' Hi Hr' Hv'. rewrite length_app in Hi. simpl in Hi.
    destruct (decide (i = length rs1)) as [->|Hne].
    + rewrite list_lookup_insert_eq in Hr' by lia. by simplify_eq.
    + rewrite list_lookup_insert_ne in Hr' by done. apply Hold, (Hm i); [lia|done..].
Qed.
End loop_specs.

Lemma alloc_subseteq (h : heap) l o : l ∉ dom h → h ⊆ <[l := o]> h.
Proof. intros Hl. apply insert_subseteq. by apply not_elem_of_dom. Qed.

Lemma clone_ref_spec v P h r fuel :
  repr P h r v → value_size v ≤ fuel → cloned h v (clone_ref fuel h r).
Proof.
  revert P h r fuel. induction v as [v IH] using value_lt_ind. intros P h r fuel Hr Hf.
  assert (∀ x h1 k r', h ⊆ h1 → repr P h r' x → value_size x < value_size v → fuel = S k →
    cloned h1 x (clone_ref k h1 r')) as Hrec.
  { intros x h1 k r' Hh Hx Hsz ->. eapply IH; [done|by eapply repr_subseteq|lia]. }
  inversion Hr as [v' Hv| | |l m vm Hl Hm Hd Hc|l rs vs Hl Hm Hd Hc]; subst.
  - exists h, (RScalar v). split_and!; [by destruct fuel|done|by apply repr_scalar].
  - exists h, (RMap None). split_and!; [by destruct fuel|done|apply repr_nil_map].
  - exists h, (RSlice None). split_and!; [by destruct fuel|done|apply repr_nil_slice].
  - destruct fuel as [|fuel]; [simpl in Hf; lia|]. simpl. rewrite Hm.
    pose proof (is_fresh (dom h)) as Hn. revert Hn. generalize (fresh (dom h)) as out. intros out Hn.
    destruct (clone_entries_spec (clone_ref fuel) h out Hn (map_to_list m) (<[out := OMap ∅]> h) ∅ ∅ vm)
      as (h' & m' & He & H0 & Ho & Hd' & Hm').
    + intros k x w h2 Hk%elem_of_map_to_list Hw Hh. eapply Hrec; [done|by eapply Hc| |done].
      by eapply value_size_map.
    + intros k x Hk%elem_of_map_to_list. apply elem_of_dom. rewrite <-Hd. by eapply elem_of_dom_2.
    + by apply alloc_subseteq.
    + apply lookup_insert_eq.
    + apply dom_empty_L.
    + done.
    + rewrite He. exists h', (RMap (Some out)). split_and!; [done..|].
      apply repr_map with m'; [done|done| |].
      * pose proof (dom_alt m) as Hdm. rewrite Hd', <-Hd. set_solver.
      * intros k x w Hx Hw. eapply repr_mono; [|by eapply Hm']. naive_solver.
  - destruct fuel as [|fuel]; [simpl in Hf; lia|]. simpl. rewrite Hm.
    pose proof (is_fresh (dom h)) as Hn. revert Hn. generalize (fresh (dom h)) as out. intros out Hn.
    destruct (clone_items_spec (clone_ref fuel) h out Hn [] rs
                (<[out := OSlice (replicate (length rs) (RScalar VNil))]> h)
                (replicate (length rs) (RScalar VNil)) vs)
      as (h' & ms' & He & H0 & Ho & Hlen & Hm').
    + intros i x w h2 Hi Hw Hh. eapply Hrec; [done|by eapply Hc| |done].
      apply value_size_slice. by eapply list_elem_of_lookup_2.
    + done.
    + by apply alloc_subseteq.
    + apply lookup_insert_eq.
    + by rewrite length_replicate.
    + simpl. lia.
    + simpl in He. rewrite He. exists h', (RSlice (Some out)). split_and!; [done..|].
      apply repr_slice with ms'; [done..|].
      intros i x w Hx Hw. eapply repr_mono; [|by eapply Hm']. naive_solver.
Qed.

(** ** Correctness of the clone *)

(** C18: [CloneValue] returns an independent copy. On a value that represents
    the tree [v], with fuel for its nesting, the clone terminates and returns a
    reference that represents [v] too; no object that existed is written; and
    neither copy is seen through the other: the original still stands in every
    store where only new objects changed, the clone in every store where only
    old objects did. *)
Theorem clone_independent (h : heap) (r : ref) (v : value) (fuel : nat)
    (Hr : repr (λ _, True) h r v) (Hfuel : value_size v ≤ fuel) :
  ∃ h' r', clone_ref fuel h r = Some (h', r')
    ∧ h ⊆ h'
    ∧ repr (λ _, True) h' r' v
    ∧ (∀ h2, (∀ l, l ∈ dom h → h2 !! l = h' !! l) → repr (λ _, True) h2 r v)
    ∧ (∀ h2, (∀ l, l ∉ dom h → h2 !! l = h' !! l) → repr (λ _, True) h2 r' v).
Proof.
  destruct (clone_ref_spec v _ h r fuel Hr Hfuel) as (h' & r' & Hc & Hh & Hr').
  exists h', r'. split_and!; [done..|by eapply repr_mono; [|exact Hr']| |].
  - intros h2 H2. apply repr_in_dom in Hr. eapply repr_mono; [|exact Hr].
    intros l o Hl Ho. split; [done|]. rewrite H2 by done. by eapply lookup_weaken.
  - intros h2 H2. eapply repr_mono; [|exact Hr']. intros l o Hl Ho. split; [done|]. by rewrite H2.
Qed.

(** A map with two entries that share one slice. *)
Definition ex_heap : heap :=
  {[1%positive := OMap {["a" := RSlice (Some 2%positive); "b" := RSlice (Some 2%positive)]};
    2%positive := OSlice [RScalar (VBool true)]]}.
Definition ex_tree : value :=
  VMap {["a" := VSlice [VBool true]; "b" := VSlice [VBool true]]}.

Lemma ex_heap_slice : repr (λ _, True) ex_heap (RSlice (Some 2%positive)) (VSlice [VBool true]).
Proof.
  apply repr_slice with [RScalar (VBool true)]; [done|reflexivity|done|].
  intros [|i] r v Hr Hv; simpl in *; simplify_eq; by constructor.
Qed.

Lemma clone_independent_witness :
  ∃ h' r', clone_ref 5 ex_heap (RMap (Some 1%positive)) = Some (h', r') ∧ repr (λ _, True) h' r' ex_tree.
Proof.
  destruct (clone_independent ex_heap (RMap (Some 1%positive)) ex_tree 5) as (h' & r' & Hc & _ & Hr & _).
  - apply repr_map with {["a" := RSlice (Some 2%positive); "b" := RSlice (Some 2%positive)]};
      [done|reflexivity|by vm_compute|].
    intros k r v Hk Hv.
    assert (r = RSlice (Some 2%positive)) as ->.
    { apply lookup_insert_Some in Hk as [[_ <-]|[_ Hk]]; [done|]. by apply lookup_singleton_Some in Hk as [_ <-]. }
    assert (v = VSlice [VBool true]) as ->; [|apply ex_heap_slice].
    apply lookup_insert_Some in Hv as [[_ <-]|[_ Hv]]; [done|]. by apply lookup_singleton_Some in Hv as [_ <-].
  - vm_compute. lia.
  - by exists h', r'.
Defined.
