(* ===== verification/Patch.v ===== *)
(** * JSON Patch (confmap/patch.go)

    RFC 6902 operations on a [map[string]any] tree.  [encoding/json] decodes
    the patch text (class [GoJson]); a [json.RawMessage] member of an operation
    is the JSON value it holds, numbers being [json.Number] literals. *)
From S2P Require Import Prelude GoStrings Value Path Merge Clone.
From stdpp Require Import pretty.
From Stdlib Require Import Ascii SpecFloat.
Open Scope nat_scope.

(** [json.Unmarshal] of a patch into [[]patchOp]: [None] for a decoding error,
    [Some None] for the JSON text [null]; and into the structures of
    [PatchPaths], each with its "path" member. *)
Class GoJson := {
  json_decode_ops : string → option (option (list (gmap string value)));
  json_decode_paths : string → option (list string);
}.

(** One operation: its members by name. *)
Notation patchOp := (gmap string value).

Inductive patch_error :=
| ErrNotString (key : string)
| ErrMissing (key : string)
| ErrInvalidPointer (s : string)
| ErrInvalidEscape (s : string)
| ErrDecodePatch
| ErrPatchNotArray
| ErrMissingValue
| ErrMoveIntoChild
| ErrUnknownOp (name : string)
| ErrRemoveRoot
| ErrTestFailed
| ErrArrayIndex (tok : string)
| ErrIndexRange (i : nat)
| ErrSegmentNotFound (tok : string)
| ErrCannotIndex (tok : string)
| ErrIndexNull (tok : string)
| ErrCannotAdd (tok : string)
| ErrCannotRemove (tok : string)
| ErrRootNotObject
| ErrPatchOp (i : nat) (name : string) (e : patch_error).

Notation pres := (result patch_error).

(** ** Members and pointers *)

(** [patchOp.str]: [None] for an absent member. *)
Definition patchOp_str (op : patchOp) (key : string) : pres (option string) :=
  match op !! key with
  | None => Ok None
  | Some (VString s) => Ok (Some s)
  | Some _ => Err (ErrNotString key)
  end.

(** The loop over the bytes of one token: every [~] starts [~0] or [~1]. *)
Fixpoint escapes_ok (t : string) : bool :=
  match t with
  | "" => true
  | String c t' =>
      if Ascii.eqb c "~" then
        match t' with
        | "" => false
        | String d t'' => (Ascii.eqb d "0" || Ascii.eqb d "1") && escapes_ok t''
        end
      else escapes_ok t'
  end.

Definition unescape (t : string) : string := ReplaceAll (ReplaceAll t "~1" "/") "~0" "~".

(** The pointer text itself: the last part of [patchOp.pointer]. *)
Definition parse_pointer (s : string) : pres (list string) :=
  match s with
  | "" => Ok []
  | String c rest =>
      if negb (Ascii.eqb c "/") then Err (ErrInvalidPointer s)
      else
        let toks := strings_Split rest "/" in
        if forallb escapes_ok toks then Ok (unescape <$> toks) else Err (ErrInvalidEscape s)
  end.

Definition patchOp_pointer (op : patchOp) (key : string) : pres (list string) :=
  o ← patchOp_str op key;
  match o with
  | None => Err (ErrMissing key)
  | Some s => parse_pointer s
  end.

(** ** Navigation *)

Definition isAllDigits (s : string) : bool :=
  negb (String.eqb s "") && str_forallb is_digit s.

Definition leading_zero (tok : string) : bool :=
  match tok with
  | String c (String _ _) => Ascii.eqb c "0"
  | _ => false
  end.

Definition arrayIndex (tok : string) (n : nat) (forAdd : bool) : pres nat :=
  if String.eqb tok "-" && forAdd then Ok n
  else match Atoi tok with
       | None => Err (ErrArrayIndex tok)
       | Some i =>
           if negb (isAllDigits tok) || leading_zero tok then Err (ErrArrayIndex tok)
           else
             let i := Z.to_nat i in
             if (n <? i) || ((i =? n) && negb forAdd) then Err (ErrIndexRange i) else Ok i
       end.

Fixpoint getAt (node : value) (path : list string) : pres value :=
  match path with
  | [] => Ok node
  | tok :: path =>
      match node with
      | VMap c =>
          match c !! tok with
          | Some v => getAt v path
          | None => Err (ErrSegmentNotFound tok)
          end
      | VNilMap => Err (ErrSegmentNotFound tok)
      | VSlice _ | VNilSlice =>
          let c := default [] (as_slice node) in
          i ← arrayIndex tok (length c) false;
          getAt (default VNil (c !! i)) path
      | _ => Err (ErrCannotIndex tok)
      end
  end.

(** [patchNull]: typed nil maps and slices stand for null. *)
Definition patchNull (v : value) : bool :=
  match v with VNil | VNilMap | VNilSlice => true | _ => false end.

Notation leafEdit := (value → string → pres value).

Fixpoint editAt (node : value) (path : list string) (edit : leafEdit) : pres value :=
  match path with
  | [] => edit VNil ""
  | tok :: rest =>
      if patchNull node then Err (ErrIndexNull tok)
      else match rest with
           | [] => edit node tok
           | _ :: _ =>
               child ← getAt node [tok];
               updated ← editAt child rest edit;
               match node with
               | VMap c => Ok (VMap (<[tok := updated]> c))
               | VSlice c =>
                   let i := match arrayIndex tok (length c) false with Ok i => i | Err _ => 0 end in
                   Ok (VSlice (<[i := updated]> c))
               | _ => Ok node
               end
           end
  end.

(** [slices.Insert] and [slices.Delete] of one element. *)
Definition slices_Insert {A} (l : list A) (i : nat) (v : A) : list A :=
  take i l ++ v :: drop i l.
Definition slices_Delete {A} (l : list A) (i : nat) : list A := take i l ++ drop (S i) l.

Definition addTo (v : value) : leafEdit := λ container tok,
  match container with
  | VNil => Ok v
  | VMap c => Ok (VMap (<[tok := v]> c))
  | VSlice c => i ← arrayIndex tok (length c) true; Ok (VSlice (slices_Insert c i v))
  | _ => Err (ErrCannotAdd tok)
  end.

Definition removeFrom : leafEdit := λ container tok,
  match container with
  | VNil => Ok VNil
  | VMap c =>
      match c !! tok with
      | None => Err (ErrSegmentNotFound tok)
      | Some _ => Ok (VMap (delete tok c))
      end
  | VSlice c => i ← arrayIndex tok (length c) false; Ok (VSlice (slices_Delete c i))
  | _ => Err (ErrCannotRemove tok)
  end.

(** [slices.Equal(prefix, path[:len(prefix)])] *)
Definition isPrefix (prefix path : list string) : bool :=
  (length prefix <=? length path) && bool_decide (prefix = take (length prefix) path).

(** ** Numbers and equality *)

(** The digits at the front of a string, and what follows. *)
Fixpoint skip_digits (s : string) : string :=
  match s with
  | String c s' => if is_digit c then skip_digits s' else s
  | "" => ""
  end.

(** [encoding/json]'s [isValidNumber], which guards [json.Marshal] of a
    [json.Number]. *)
Definition valid_exp (s : string) : bool :=
  match s with
  | "" => true
  | String e (String c s') =>
      if Ascii.eqb e "e" || Ascii.eqb e "E" then
        if Ascii.eqb c "+" || Ascii.eqb c "-" then
          negb (String.eqb s' "") && String.eqb (skip_digits s') ""
        else String.eqb (skip_digits (String c s')) ""
      else false
  | _ => false
  end.

Definition valid_frac (s : string) : bool :=
  match s with
  | String p (String c s') =>
      if Ascii.eqb p "." && is_digit c then valid_exp (skip_digits s') else valid_exp s
  | _ => valid_exp s
  end.

Definition isValidNumber (s : string) : bool :=
  match TrimPrefix s "-" with
  | "" => false
  | String c s' =>
      if Ascii.eqb c "0" then valid_frac s'
      else if is_digit c then valid_frac (skip_digits s') else false
  end.

Section numbers.
Context `{GoStd}.

(** [json.Marshal] of a value that [isNumber] accepts. *)
Definition marshal_number (v : value) : option string :=
  match v with
  | VInt _ n => Some (pretty n)
  | VFloat k f => go_marshal_float (bool_decide (k = KFloat32)) f
  | VNumber lit =>
      let lit := if String.eqb lit "" then "0" else lit in
      if isValidNumber lit then Some lit else None
  | _ => None
  end.

(** The text before the first [e] or [E] and the text after it. *)
Fixpoint cut_exp (s : string) : string * option string :=
  match s with
  | "" => ("", None)
  | String c s' =>
      if Ascii.eqb c "e" || Ascii.eqb c "E" then ("", Some s')
      else let '(a, b) := cut_exp s' in (String c a, b)
  end.

(** [big.Int.SetString(s, 10)] on an exponent, which [json] has validated. *)
Definition exp_of (s : string) : Z :=
  match s with
  | String "-" s' => (- default 0%Z (digits_val 0 s'))%Z
  | String "+" s' => default 0%Z (digits_val 0 s')
  | _ => default 0%Z (digits_val 0 s)
  end.

(** The normal form of the text of a number: [toNumber] after [json.Marshal]. *)
Definition normalize_number (s : string) : string :=
  let '(s, e) := cut_exp s in
  let exp := match e with Some e => exp_of e | None => 0%Z end in
  let negative := HasPrefix s "-" in
  let s := TrimPrefix s "-" in
  let '(s, exp) := match strings_Cut s "." with
                   | Some (a, b) => (a +:+ b, (exp - Z.of_nat (String.length b))%Z)
                   | None => (s, exp)
                   end in
  let s := TrimLeft s "0" in
  if String.eqb s "" then "0"
  else
    let coefficient := TrimRight s "0" in
    let exp := (exp + (Z.of_nat (String.length s) - Z.of_nat (String.length coefficient)))%Z in
    (if negative then "-" +:+ coefficient else coefficient) +:+ "e" +:+ pretty exp.

Definition toNumber (v : value) : option string :=
  if isNumber v then normalize_number <$> marshal_number v else None.

(** [reflect.DeepEqual] on the leaves that reach it. *)
Definition leaf_DeepEqual (a b : value) : bool :=
  match a, b with
  | VFloat k x, VFloat j y => bool_decide (k = j) && SFeqb x y
  | _, _ => value_eqb a b
  end.

Fixpoint patchEqual (a b : value) {struct a} : bool :=
  if patchNull a || patchNull b then patchNull a && patchNull b
  else match toNumber a, toNumber b with
       | Some x, Some y => String.eqb x y
       | Some _, None | None, Some _ => false
       | None, None =>
           match a with
           | VMap av =>
               match b with
               | VMap bv =>
                   (size av =? size bv)
                   && map_fold (λ k v acc, acc && match bv !! k with Some w => patchEqual v w | None => false end)
                        true av
               | _ => false
               end
           | VSlice av =>
               match b with
               | VSlice bv =>
                   (fix go x y := match x, y with
                    | [], [] => true
                    | v :: x, w :: y => patchEqual v w && go x y
                    | _, _ => false
                    end) av bv
               | _ => false
               end
           | _ => leaf_DeepEqual a b
           end
       end.

(** ** Operations *)

(** The value operand of [add], [replace] and [test]. *)
Definition op_value (op : patchOp) : pres value :=
  match op !! "value" with Some v => Ok v | None => Err ErrMissingValue end.

Definition apply_add (root : value) (path : list string) (op : patchOp) : pres value :=
  v ← op_value op; editAt root path (addTo v).

Definition apply_replace (root : value) (path : list string) (op : patchOp) : pres value :=
  v ← op_value op;
  root' ← editAt root path removeFrom;
  editAt root' path (addTo v).

Definition apply_test (root : value) (path : list string) (op : patchOp) : pres value :=
  v ← op_value op;
  cur ← getAt root path;
  if patchEqual cur v then Ok root else Err ErrTestFailed.

Definition apply_remove (root : value) (path : list string) : pres value :=
  match path with
  | [] => Err ErrRemoveRoot
  | _ => editAt root path removeFrom
  end.

Definition apply_copy (root : value) (path : list string) (op : patchOp) : pres value :=
  from ← patchOp_pointer op "from";
  v ← getAt root from;
  editAt root path (addTo (CloneValue v)).

Definition apply_move (root : value) (path : list string) (op : patchOp) : pres value :=
  from ← patchOp_pointer op "from";
  v ← getAt root from;
  if (length from =? length path) && isPrefix from path then Ok root
  else if isPrefix from path then Err ErrMoveIntoChild
  else
    root' ← editAt root from removeFrom;
    editAt root' path (addTo v).

Definition applyOp (root : value) (op : patchOp) : pres value :=
  o ← patchOp_str op "op";
  let name := default "" o in
  path ← patchOp_pointer op "path";
  if String.eqb name "add" then apply_add root path op
  else if String.eqb name "replace" then apply_replace root path op
  else if String.eqb name "test" then apply_test root path op
  else if String.eqb name "move" then apply_move root path op
  else if String.eqb name "copy" then apply_copy root path op
  else if String.eqb name "remove" then apply_remove root path
  else Err (ErrUnknownOp name).

(** The loop of [ApplyPatch], from operation number [i]. *)
Fixpoint apply_ops (i : nat) (root : value) (ops : list patchOp) : pres value :=
  match ops with
  | [] => Ok root
  | op :: ops =>
      match applyOp root op with
      | Ok root' => apply_ops (S i) root' ops
      | Err e =>
          let name := match patchOp_str op "op" with Ok (Some s) => s | _ => "" end in
          Err (ErrPatchOp i name e)
      end
  end.

(** [ApplyPatch] once the text is decoded. *)
Definition apply_decoded (doc : gomap) (ops : list patchOp) : pres gomap :=
  root ← apply_ops 0 (VMapOpt (DeepClone doc)) ops;
  match as_map root with
  | Some out => Ok out
  | None => Err ErrRootNotObject
  end.

Context `{GoJson}.

Definition ApplyPatch (doc : gomap) (patchJSON : string) : pres gomap :=
  if String.eqb patchJSON "" then Ok doc
  else match json_decode_ops patchJSON with
       | None => Err ErrDecodePatch
       | Some None => Err ErrPatchNotArray
       | Some (Some ops) => apply_decoded doc ops
       end.

(** ** Attribution paths *)

(** The segments up to the first array index. *)
Fixpoint until_index (segs : list string) : list string :=
  match segs with
  | [] => []
  | s :: segs =>
      let s := unescape s in
      if isAllDigits s then [] else s :: until_index segs
  end.

Definition pointerToDotted (ptr : string) : string :=
  if String.eqb ptr "" || String.eqb ptr "/" then ""
  else strings_Join (until_index (strings_Split (TrimPrefix ptr "/") "/")) ".".

Definition PatchPaths (patchJSON : string) : pres (list string) :=
  if String.eqb patchJSON "" then Ok []
  else match json_decode_paths patchJSON with
       | None => Err ErrDecodePatch
       | Some paths => Ok (pointerToDotted <$> paths)
       end.
End numbers.

(** ** Pointers *)

(** The escaped form of a token, and the pointer of a list of tokens. *)
Fixpoint escape (t : string) : string :=
  match t with
  | "" => ""
  | String c t =>
      if Ascii.eqb c "~" then String "~" (String "0" (escape t))
      else if Ascii.eqb c "/" then String "~" (String "1" (escape t))
      else String c (escape t)
  end.

Fixpoint print_pointer (toks : list string) : string :=
  match toks with
  | [] => ""
  | t :: toks => String "/" (escape t +:+ print_pointer toks)
  end.

(** Only the tilde is escaped: what the first [ReplaceAll] leaves. *)
Fixpoint escape_tilde (t : string) : string :=
  match t with
  | "" => ""
  | String c t => if Ascii.eqb c "~" then String "~" (String "0" (escape_tilde t)) else String c (escape_tilde t)
  end.

Lemma prefix_empty s : String.prefix "" s = true.
Proof. by destruct s. Qed.

Lemma replace_escape t : ReplaceAll (escape t) "~1" "/" = escape_tilde t.
Proof.
  induction t as [|c t IH]; [done|]. unfold ReplaceAll in *. cbn [escape escape_tilde].
  destruct (Ascii.eqb_spec c "~") as [->|H1]; [cbn; by rewrite ?prefix_empty, IH|].
  destruct (Ascii.eqb_spec c "/") as [->|H2]; [cbn; by rewrite ?prefix_empty, IH|].
  cbn [replace_go]. cbn [String.prefix]. destruct (ascii_dec "~" c) as [<-|]; [done|]. by rewrite IH.
Qed.

Lemma replace_tilde t : ReplaceAll (escape_tilde t) "~0" "~" = t.
Proof.
  induction t as [|c t IH]; [done|]. unfold ReplaceAll in *. cbn [escape_tilde].
  destruct (Ascii.eqb_spec c "~") as [->|H1]; [cbn; by rewrite ?prefix_empty, IH|].
  cbn [replace_go]. cbn [String.prefix]. destruct (ascii_dec "~" c) as [<-|]; [done|]. by rewrite IH.
Qed.

Lemma unescape_escape t : unescape (escape t) = t.
Proof. unfold unescape. by rewrite replace_escape, replace_tilde. Qed.

Lemma escape_ok t : escapes_ok (escape t) = true.
Proof.
  induction t as [|c t IH]; [done|]. cbn [escape].
  destruct (Ascii.eqb_spec c "~") as [->|H1]; [done|].
  destruct (Ascii.eqb_spec c "/") as [->|H2]; [done|].
  cbn [escapes_ok]. by rewrite (proj2 (Ascii.eqb_neq c "~") H1).
Qed.

Lemma escape_no_slash t : no_byte "/" (escape t) = true.
Proof.
  induction t as [|c t IH]; [done|]. cbn [escape].
  destruct (Ascii.eqb_spec c "~") as [->|H1]; [done|].
  destruct (Ascii.eqb_spec c "/") as [->|H2]; [done|].
  unfold no_byte in *. cbn [str_forallb]. by rewrite (proj2 (Ascii.eqb_neq c "/") H2).
Qed.

Lemma split_pointer t toks :
  strings_Split (escape t +:+ print_pointer toks) "/" = escape <$> (t :: toks).
Proof.
  revert t. induction toks as [|u toks IH]; intros t; cbn [print_pointer].
  - rewrite app_str_nil_r. apply Split_no_byte, escape_no_slash.
  - rewrite Split_app by apply escape_no_slash. by rewrite IH.
Qed.

(** ** Array indices *)

(** The index a token names, bounds apart. *)
Definition tok_index (tok : string) : option nat :=
  if isAllDigits tok && negb (leading_zero tok) then Z.to_nat <$> Atoi tok else None.

Lemma arrayIndex_Ok tok n forAdd i :
  arrayIndex tok n forAdd = Ok i ↔
    (tok = "-" ∧ forAdd = true ∧ i = n) ∨
    (tok_index tok = Some i ∧ (i < n ∨ (i = n ∧ forAdd = true))).
Proof.
  unfold arrayIndex, tok_index. destruct (String.eqb_spec tok "-") as [->|Hne]; simpl.
  - destruct forAdd; simpl; naive_solver.
  - destruct (isAllDigits tok) eqn:Hd, (leading_zero tok) eqn:Hz; simpl;
      destruct (Atoi tok) as [z|]; simpl; try naive_solver.
    destruct (Nat.ltb_spec n (Z.to_nat z)); simpl; [split; [done|]; naive_solver lia|].
    destruct (Nat.eqb_spec (Z.to_nat z) n); destruct forAdd; simpl; naive_solver lia.
Qed.

(** ** Reading what was written *)

Lemma length_slices_Insert {A} (c : list A) i v : i ≤ length c → length (slices_Insert c i v) = S (length c).
Proof. intros. unfold slices_Insert. rewrite length_app, length_take. simpl. rewrite length_drop. lia. Qed.

Lemma lookup_slices_Insert {A} (c : list A) i v : i ≤ length c → slices_Insert c i v !! i = Some v.
Proof.
  intros Hi. unfold slices_Insert. rewrite lookup_app_r by (rewrite length_take; lia).
  rewrite length_take, Nat.min_l, Nat.sub_diag by done. done.
Qed.

Lemma slices_Delete_Insert {A} (c : list A) i v : i ≤ length c → slices_Delete (slices_Insert c i v) i = c.
Proof.
  intros Hi. unfold slices_Delete, slices_Insert.
  rewrite take_app_length' by (rewrite length_take; lia).
  rewrite drop_app_ge by (rewrite length_take; lia).
  rewrite length_take, Nat.min_l by done. replace (S i - i) with 1 by lia. simpl.
  by rewrite drop_0, take_drop.
Qed.

Lemma editAt_cons node tok rest edit :
  rest ≠ [] →
  editAt node (tok :: rest) edit =
    if patchNull node then Err (ErrIndexNull tok)
    else
      child ← getAt node [tok];
      updated ← editAt child rest edit;
      match node with
      | VMap c => Ok (VMap (<[tok := updated]> c))
      | VSlice c =>
          let i := match arrayIndex tok (length c) false with Ok i => i | Err _ => 0 end in
          Ok (VSlice (<[i := updated]> c))
      | _ => Ok node
      end.
Proof. by destruct rest. Qed.

(** One level of an edit that is not the last. *)
Lemma editAt_step node tok rest edit r :
  rest ≠ [] → editAt node (tok :: rest) edit = Ok r →
  ∃ child updated, editAt child rest edit = Ok updated ∧
    ((∃ c, node = VMap c ∧ c !! tok = Some child ∧ r = VMap (<[tok := updated]> c)) ∨
     (∃ c i, node = VSlice c ∧ tok_index tok = Some i ∧ c !! i = Some child ∧ i < length c
       ∧ r = VSlice (<[i := updated]> c))).
Proof.
  intros Hrest He. simpl in He. destruct (patchNull node) eqn:Hn; [done|].
  destruct rest as [|t rest]; [done|].
  apply bind_Ok in He as (child & Hc & He). apply bind_Ok in He as (updated & Hu & He).
  exists child, updated. split; [done|].
  destruct node; try done; simpl in Hc.
  - destruct (m !! tok) as [v|] eqn:Hm; inv_result. left. eauto.
  - destruct (arrayIndex tok (length l) false) as [i|] eqn:Hi; [|done].
    simpl in Hc. simplify_eq. apply arrayIndex_Ok in Hi as [(_ & [=] & _)|(Ht & [Hlt|[_ [=]]])].
    right. exists l, i. apply lookup_lt_is_Some in Hlt as Hv. destruct Hv as [v Hv]. rewrite Hv. done.
Qed.

Lemma getAt_map c tok rest v : c !! tok = Some v → getAt (VMap c) (tok :: rest) = getAt v rest.
Proof. intros Hv. simpl. by rewrite Hv. Qed.

Lemma getAt_slice c tok rest i v :
  tok_index tok = Some i → c !! i = Some v → getAt (VSlice c) (tok :: rest) = getAt v rest.
Proof.
  intros Ht Hv. simpl. rewrite (proj2 (arrayIndex_Ok tok (length c) false i)).
  - simpl. by rewrite Hv.
  - right. split; [done|]. left. by eapply lookup_lt_Some.
Qed.

Lemma add_get path node v r :
  last path ≠ Some "-" → editAt node path (addTo v) = Ok r → getAt r path = Ok v.
Proof.
  revert node r. induction path as [|tok rest IH]; intros node r Hl He.
  { simpl in He. by inv_result. }
  destruct (decide (rest = [])) as [->|Hrest].
  - simpl in He. destruct (patchNull node) eqn:Hn; [done|]. destruct node; try done; simpl in He.
    + inv_result. simpl. by rewrite lookup_insert_eq.
    + apply bind_Ok in He as (i & Hi & [= <-]).
      apply arrayIndex_Ok in Hi as [(-> & _)|(Ht & Hi)]; [done|].
      rewrite (getAt_slice _ _ [] i v); [done..|]. apply lookup_slices_Insert. lia.
  - apply editAt_step in He as (child & updated & Hu & Hcase); [|done].
    assert (getAt updated rest = Ok v) as Hg.
    { eapply IH; [|done]. by destruct rest. }
    destruct Hcase as [(c & -> & _ & ->)|(c & i & -> & Ht & _ & Hlt & ->)].
    + erewrite getAt_map; [done|]. apply lookup_insert_eq.
    + erewrite getAt_slice; [done|done|]. by apply list_lookup_insert_eq.
Qed.

(** The parent of [path] is not an object that has its last token. *)
Definition new_target (root : value) (path : list string) : Prop :=
  ∀ c tok, getAt root (removelast path) = Ok (VMap c) → last path = Some tok → c !! tok = None.

Lemma add_remove path node v r :
  path ≠ [] → last path ≠ Some "-" → new_target node path →
  editAt node path (addTo v) = Ok r → editAt r path removeFrom = Ok node.
Proof.
  revert node r. induction path as [|tok rest IH]; intros node r Hne Hl Hnew He; [done|].
  destruct (decide (rest = [])) as [->|Hrest].
  - simpl in He. destruct (patchNull node) eqn:Hn; [done|]. destruct node; try done; simpl in He.
    + inv_result. simpl. rewrite lookup_insert_eq, delete_insert_id; [done|]. by apply (Hnew m tok).
    + apply bind_Ok in He as (i & Hi & [= <-]).
      apply arrayIndex_Ok in Hi as [(-> & _)|(Ht & Hi)]; [done|]. simpl.
      rewrite (proj2 (arrayIndex_Ok tok _ false i)).
      * simpl. rewrite slices_Delete_Insert; [done|lia].
      * right. split; [done|]. rewrite length_slices_Insert by lia. lia.
  - destruct rest as [|t rest]; [done|].
    apply editAt_step in He as (child & updated & Hu & Hcase); [|done].
    assert (editAt updated (t :: rest) removeFrom = Ok child) as Hg.
    { eapply IH; [done|done| |done]. intros c k Hc Hk. apply (Hnew c k); [|done].
      change (removelast (tok :: t :: rest)) with (tok :: removelast (t :: rest)).
      destruct Hcase as [(c' & -> & Hc' & _)|(c' & i & -> & Ht & Hc' & _)];
        [by erewrite getAt_map|by erewrite getAt_slice]. }
    destruct Hcase as [(c & -> & Hc & ->)|(c & i & -> & Ht & Hc & Hlt & ->)].
    + rewrite editAt_cons by done. cbn [patchNull]. erewrite getAt_map by apply lookup_insert_eq.
      cbn [getAt]. rewrite bind_of_Ok, Hg, bind_of_Ok. cbv zeta. by rewrite insert_insert_eq, insert_id.
    + rewrite editAt_cons by done. cbn [patchNull].
      erewrite getAt_slice by (done || by apply list_lookup_insert_eq).
      cbn [getAt]. rewrite bind_of_Ok, Hg, bind_of_Ok. cbv zeta.
      rewrite (proj2 (arrayIndex_Ok tok _ false i)) by (right; rewrite length_insert; auto).
      by rewrite list_insert_insert_eq, list_insert_id.
Qed.

(** ** What an edit is *)

(** [leaf node tok node'] holds of the parent of [path], before and after; the
    containers above it hold the new one in the place of the old. *)
Inductive at_place (leaf : value → string → value → Prop) : value → list string → value → Prop :=
| place_leaf node tok node' : leaf node tok node' → at_place leaf node [tok] node'
| place_member c tok rest child child' :
    c !! tok = Some child → at_place leaf child rest child' →
    at_place leaf (VMap c) (tok :: rest) (VMap (<[tok := child']> c))
| place_element l1 l2 tok rest child child' :
    tok_index tok = Some (length l1) → at_place leaf child rest child' →
    at_place leaf (VSlice (l1 ++ child :: l2)) (tok :: rest) (VSlice (l1 ++ child' :: l2)).

Inductive removed_leaf (v : value) : value → string → value → Prop :=
| removed_member c tok : c !! tok = Some v → removed_leaf v (VMap c) tok (VMap (delete tok c))
| removed_element l1 l2 tok :
    tok_index tok = Some (length l1) → removed_leaf v (VSlice (l1 ++ v :: l2)) tok (VSlice (l1 ++ l2)).

Inductive added_leaf (v : value) : value → string → value → Prop :=
| added_member c tok : added_leaf v (VMap c) tok (VMap (<[tok := v]> c))
| added_element l1 l2 tok :
    tok_index tok = Some (length l1) → added_leaf v (VSlice (l1 ++ l2)) tok (VSlice (l1 ++ v :: l2))
| added_last l : added_leaf v (VSlice l) "-" (VSlice (l ++ [v])).

Inductive replaced_leaf (v : value) : value → string → value → Prop :=
| replaced_member c tok : is_Some (c !! tok) → replaced_leaf v (VMap c) tok (VMap (<[tok := v]> c))
| replaced_element l1 old l2 tok :
    tok_index tok = Some (length l1) → replaced_leaf v (VSlice (l1 ++ old :: l2)) tok (VSlice (l1 ++ v :: l2)).

(** At the root, the whole document is what is added. *)
Definition added (v root : value) (path : list string) (root' : value) : Prop :=
  match path with [] => root' = v | _ => at_place (added_leaf v) root path root' end.
Definition replaced (v root : value) (path : list string) (root' : value) : Prop :=
  match path with [] => root' = v | _ => at_place (replaced_leaf v) root path root' end.

(** [v] is read at [path], unless this is the place behind a slice. *)
Definition readable (v : value) (path : list string) (root : value) : Prop :=
  last path ≠ Some "-" → getAt root path = Ok v.

Lemma insert_at {A} (l1 l2 : list A) x y : <[length l1 := y]> (l1 ++ x :: l2) = l1 ++ y :: l2.
Proof. by rewrite insert_app_r_alt, Nat.sub_diag by lia. Qed.

Lemma split_at {A} (l : list A) i x : l !! i = Some x → ∃ l1 l2, l = l1 ++ x :: l2 ∧ length l1 = i.
Proof.
  intros Hi. exists (take i l), (drop (S i) l). rewrite take_drop_middle by done. split; [done|].
  rewrite length_take. apply lookup_lt_Some in Hi. lia.
Qed.

(** Edits that agree with a leaf relation agree with it at every place. *)
Lemma editAt_place (leaf : value → string → value → Prop) edit path node r :
  path ≠ [] → (∀ c tok c', patchNull c = false → edit c tok = Ok c' → leaf c tok c') →
  editAt node path edit = Ok r → at_place leaf node path r.
Proof.
  intros Hne Hleaf. revert node r Hne. induction path as [|tok rest IH]; intros node r Hne He; [done|].
  destruct (decide (rest = [])) as [->|Hrest].
  - simpl in He. destruct (patchNull node) eqn:Hn; [done|]. apply place_leaf. by apply Hleaf.
  - apply editAt_step in He as (child & updated & Hu%IH & Hcase); [|done..].
    destruct Hcase as [(c & -> & Hc & ->)|(l & i & -> & Ht & Hi & Hlt & ->)]; [by eapply place_member|].
    apply split_at in Hi as (l1 & l2 & -> & <-). rewrite insert_at. by apply place_element.
Qed.

Lemma add_added v root path r : editAt root path (addTo v) = Ok r → added v root path r.
Proof.
  intros He. unfold added. destruct path as [|tok path]; [by injection He as <-|].
  eapply editAt_place; [done| |exact He]. clear. intros c tok c' Hn He.
  destruct c; try done; simpl in He; [injection He as <-; apply added_member|].
  apply bind_Ok in He as (i & Hi & [= <-]). apply arrayIndex_Ok in Hi as [(-> & _ & ->)|(Ht & Hi)]; unfold slices_Insert.
  - rewrite take_ge, drop_ge by done. apply added_last.
  - rewrite <-(take_drop i l) at 1. apply added_element. rewrite length_take, Nat.min_l; [done|lia].
Qed.

(** What a removal takes away could be read before. *)
Lemma removed_readable root path r :
  path ≠ [] → editAt root path removeFrom = Ok r → ∃ v, getAt root path = Ok v.
Proof.
  revert root r. induction path as [|tok rest IH]; intros root r Hne He; [done|].
  destruct (decide (rest = [])) as [->|Hrest].
  - simpl in He. destruct (patchNull root) eqn:Hn; [done|]. destruct root; try done; simpl in He.
    + destruct (m !! tok) as [v|] eqn:Hv; [|done]. exists v. by erewrite getAt_map.
    + apply bind_Ok in He as (i & Hi & _). apply arrayIndex_Ok in Hi as [(_ & [=] & _)|(Ht & [Hlt|[_ [=]]])].
      apply lookup_lt_is_Some in Hlt as [v Hv]. exists v. by erewrite getAt_slice.
  - apply editAt_step in He as (child & updated & Hu & Hcase); [|done].
    destruct (IH _ _ Hrest Hu) as (v & Hv). exists v.
    destruct Hcase as [(c & -> & Hc & _)|(l & i & -> & Ht & Hi & _ & _)]; [by erewrite getAt_map|by erewrite getAt_slice].
Qed.

Lemma remove_removed v root path r :
  path ≠ [] → getAt root path = Ok v → editAt root path removeFrom = Ok r → at_place (removed_leaf v) root path r.
Proof.
  revert root r. induction path as [|tok rest IH]; intros root r Hne Hv He; [done|].
  destruct (decide (rest = [])) as [->|Hrest].
  - simpl in He. destruct (patchNull root) eqn:Hn; [done|]. apply place_leaf. destruct root; try done; simpl in He.
    + destruct (m !! tok) as [v'|] eqn:Hm; [|done]. erewrite getAt_map in Hv by done. injection Hv as ->.
      injection He as <-. by apply removed_member.
    + apply bind_Ok in He as (i & Hi & [= <-]). apply arrayIndex_Ok in Hi as [(_ & [=] & _)|(Ht & [Hlt|[_ [=]]])].
      apply lookup_lt_is_Some in Hlt as [v' Hi]. erewrite getAt_slice in Hv by done. injection Hv as ->.
      apply split_at in Hi as (l1 & l2 & -> & <-). unfold slices_Delete.
      rewrite take_app_length, drop_app_ge by lia. replace (S (length l1) - length l1) with 1 by lia.
      simpl. rewrite drop_0. by apply removed_element.
  - apply editAt_step in He as (child & updated & Hu & Hcase); [|done].
    destruct Hcase as [(c & -> & Hc & ->)|(l & i & -> & Ht & Hi & _ & ->)].
    + erewrite getAt_map in Hv by done. eapply place_member; [done|by apply IH].
    + erewrite getAt_slice in Hv by done. apply split_at in Hi as (l1 & l2 & -> & <-).
      rewrite insert_at. apply place_element; [done|by apply IH].
Qed.

Lemma same_split {A} (l1 l2 k1 k2 : list A) x y : length l1 = length k1 → l1 ++ x :: l2 = k1 ++ y :: k2 → l1 = k1 ∧ x = y ∧ l2 = k2.
Proof. intros Hlen Heq. apply app_inj_1 in Heq as [-> [= -> ->]]; done. Qed.

(** A removal and an addition at one place are a replacement. *)
Lemma removed_added_replaced old v node path mid r :
  at_place (removed_leaf old) node path mid → at_place (added_leaf v) mid path r → at_place (replaced_leaf v) node path r.
Proof.
  intros Hrem. revert r. induction Hrem as [node tok mid Hleaf|c tok rest child child' Hc Hsub IH|l1 l2 tok rest child child' Ht Hsub IH]; intros r Hadd.
  - inversion Hadd as [? ? ? Hl| |]; subst; [|by match goal with Hx : at_place _ _ [] _ |- _ => inversion Hx end..].
    apply place_leaf. destruct Hleaf as [c tok Hc|l1 l2 tok Ht]; inversion Hl as [|k1 k2 ? Ht'|]; subst.
    + rewrite insert_delete_eq. by apply replaced_member.
    + assert (length k1 = length l1) as Hlen by congruence. match goal with Hx : k1 ++ k2 = _ |- _ => apply app_inj_1 in Hx as [-> ->]; [|done] end.
      by apply replaced_element.
    + done.
  - inversion Hadd; subst; [by inversion Hsub|].
    match goal with Hx : _ !! tok = Some _ |- _ => rewrite lookup_insert_eq in Hx; injection Hx as <- end.
    rewrite insert_insert_eq. eapply place_member; [done|by apply IH].
  - inversion Hadd as [| |k1 k2 ? ? x x' Ht']; subst; [by inversion Hsub|].
    match goal with Hx : k1 ++ x :: k2 = _ |- _ => apply same_split in Hx as (-> & -> & ->); [|congruence] end. apply place_element; [done|by apply IH].
Qed.

Lemma remove_add_replaced v root path mid r :
  editAt root path removeFrom = Ok mid → editAt mid path (addTo v) = Ok r → replaced v root path r.
Proof.
  intros Hrem Hadd. apply add_added in Hadd. unfold replaced, added in *. destruct path as [|tok path]; [done|].
  destruct (removed_readable root (tok :: path) mid ltac:(done) Hrem) as (old & Hold).
  eapply removed_added_replaced; [by apply remove_removed|done].
Qed.

(** ** Operations *)

Definition doc_of (doc : gomap) : value := VMapOpt doc.

(** The first operations of a patch, all of which succeed. *)
Fixpoint run_ops `{GoStd} (root : value) (ops : list patchOp) : option value :=
  match ops with
  | [] => Some root
  | op :: ops => match applyOp root op with Ok root' => run_ops root' ops | Err _ => None end
  end.

Lemma apply_ops_Ok `{GoStd} i root ops r : apply_ops i root ops = Ok r ↔ run_ops root ops = Some r.
Proof.
  revert i root. induction ops as [|op ops IH]; intros i root; simpl.
  - split; [by intros [= ->]|by intros [= ->]].
  - destruct (applyOp root op); [apply IH|]. by destruct (patchOp_str op "op") as [[]|].
Qed.

Lemma apply_ops_Err `{GoStd} i root ops e :
  apply_ops i root ops = Err e ↔
  ∃ j op root' name e', ops !! j = Some op ∧ run_ops root (take j ops) = Some root'
    ∧ applyOp root' op = Err e' ∧ e = ErrPatchOp (i + j) name e'
    ∧ name = match patchOp_str op "op" with Ok (Some s) => s | _ => "" end.
Proof.
  revert i root. induction ops as [|op ops IH]; intros i root; simpl.
  { split; [done|]. by intros (j & ? & ? & ? & ? & ? & ?). }
  destruct (applyOp root op) as [root'|e'] eqn:Hop.
  - rewrite IH. split.
    + intros (j & op' & r & name & e' & H1 & H2 & H3 & -> & Hn).
      exists (S j), op', r, name, e'. simpl. rewrite Hop. by rewrite Nat.add_succ_r.
    + intros (j & op' & r & name & e' & H1 & H2 & H3 & -> & Hn). destruct j as [|j]; simpl in *.
      { exfalso. congruence. }
      rewrite Hop in H2. exists j, op', r, name, e'. by rewrite Nat.add_succ_r.
  - split.
    + intros [= <-]. eexists 0, op, root, _, e'. rewrite Nat.add_0_r. by split_and!.
    + intros (j & op' & r & name & e'' & H1 & H2 & H3 & -> & ->). destruct j as [|j]; simpl in *.
      * simplify_eq. rewrite Nat.add_0_r. congruence.
      * by rewrite Hop in H2.
Qed.

(** ** Correctness of patches *)

(** JSON pointers: the pointer printed for any list of tokens (each with
    its tildes and slashes escaped) parses back to exactly those tokens. *)
Theorem pointer_roundtrip (toks : list string) : parse_pointer (print_pointer toks) = Ok toks.
Proof.
  destruct toks as [|t toks]; [done|]. cbn [print_pointer parse_pointer]. rewrite split_pointer.
  assert (forallb escapes_ok (escape <$> t :: toks) = true) as Hok.
  { apply forallb_forall. intros x Hx. apply list_elem_of_In, list_elem_of_fmap in Hx as (y & -> & _).
    apply escape_ok. }
  change (Ascii.eqb "/" "/") with true. cbn [negb]. rewrite Hok. f_equal.
  rewrite <-list_fmap_compose. rewrite <-(list_fmap_id (t :: toks)) at 2.
  apply list_fmap_ext. intros i x _. apply unescape_escape.
Qed.

(** Adding and then removing at the same location gives the document back
    (in objects and in arrays, where the elements behind move and return),
    when the addition did not overwrite a member; and a value added can be read
    at its pointer. *)
Theorem patch_add_then_remove (root root' v : value) (path : list string)
    (Hpath : path ≠ []) (Hend : last path ≠ Some "-") (Hnew : new_target root path)
    (Hadd : editAt root path (addTo v) = Ok root') :
  editAt root' path removeFrom = Ok root ∧ getAt root' path = Ok v.
Proof. split; [by eapply add_remove|by eapply add_get]. Qed.

Definition ex_root : gmap string value :=
  {["spec" := VMap {["items" := VSlice [VString "x"; VString "y"]]}]}.
Definition ex_doc : value := VMap ex_root.

Lemma patch_add_then_remove_witness :
  editAt (VMap {["spec" := VMap {["items" := VSlice [VString "x"; VBool true; VString "y"]]}]})
    ["spec"; "items"; "1"] removeFrom = Ok ex_doc.
Proof.
  apply (patch_add_then_remove ex_doc _ (VBool true)).
  - done.
  - done.
  - intros c tok Hc _. vm_compute in Hc. discriminate Hc.
  - vm_compute. reflexivity.
Defined.

(** C19: what a successful operation did, told without the code's edits: the
    tree before and the tree after differ at one place. [test] leaves the
    document alone; [remove] takes the member, or the element, away and nothing
    else; [add] makes the operand the member, or inserts it before the element
    named, or at the end; [replace] puts the operand in the place of the value
    there was; [copy] adds the value read at "from"; [move] first removes it from
    there, unless the two places are the same. Every location but the root has to
    exist in its parent where it is read, removed or replaced. The value is then
    read back at its place. *)
Theorem patch_operation_effect `{GoStd} (root root' : value) (op : patchOp) (name : string) (path : list string)
    (Hname : patchOp_str op "op" = Ok (Some name)) (Hpath : patchOp_pointer op "path" = Ok path)
    (Hop : applyOp root op = Ok root') :
  match name with
  | "test" => root' = root ∧ ∃ v cur, op !! "value" = Some v ∧ getAt root path = Ok cur ∧ patchEqual cur v = true
  | "add" => ∃ v, op !! "value" = Some v ∧ added v root path root' ∧ readable v path root'
  | "replace" => ∃ v, op !! "value" = Some v ∧ replaced v root path root' ∧ readable v path root'
  | "remove" => ∃ v, at_place (removed_leaf v) root path root'
  | "copy" => ∃ from v, patchOp_pointer op "from" = Ok from ∧ getAt root from = Ok v
      ∧ added v root path root' ∧ readable v path root'
  | "move" => ∃ from v, patchOp_pointer op "from" = Ok from ∧ getAt root from = Ok v
      ∧ ((from = path ∧ root' = root)
         ∨ (isPrefix from path = false
            ∧ ∃ mid, at_place (removed_leaf v) root from mid ∧ added v mid path root' ∧ readable v path root'))
  | _ => False
  end.
Proof.
  unfold applyOp in Hop. rewrite Hname, bind_of_Ok, Hpath, bind_of_Ok in Hop.
  change (default "" (Some name)) with name in Hop. cbv zeta in Hop.
  destruct (String.eqb_spec name "add") as [->|Hadd].
  { unfold apply_add, op_value in Hop. destruct (op !! "value") as [v|] eqn:Hv; [|done]. exists v.
    split_and!; [done|by apply add_added|by intros Hend; eapply add_get]. }
  destruct (String.eqb_spec name "replace") as [->|Hrep].
  { unfold apply_replace, op_value in Hop. destruct (op !! "value") as [v|] eqn:Hv; [|done].
    rewrite bind_of_Ok in Hop. apply bind_Ok in Hop as (mid & Hmid & Hop). exists v.
    split_and!; [done|by eapply remove_add_replaced|by intros Hend; eapply add_get]. }
  destruct (String.eqb_spec name "test") as [->|Htest].
  { unfold apply_test, op_value in Hop. destruct (op !! "value") as [v|] eqn:Hv; [|done].
    rewrite bind_of_Ok in Hop. apply bind_Ok in Hop as (cur & Hcur & Hop).
    destruct (patchEqual cur v) eqn:He; inv_result. split; [done|]. exists v, cur. by split_and!. }
  destruct (String.eqb_spec name "move") as [->|Hmove].
  { unfold apply_move in Hop. apply bind_Ok in Hop as (from & Hfrom & Hop).
    apply bind_Ok in Hop as (v & Hv & Hop). exists from, v. split_and!; [done..|].
    destruct ((length from =? length path) && isPrefix from path) eqn:Hsame.
    - left. inv_result. split; [|done]. unfold isPrefix in Hsame.
      apply andb_prop in Hsame as [Hlen%Nat.eqb_eq [_ Hp%bool_decide_eq_true]%andb_prop].
      by rewrite Hlen, firstn_all in Hp.
    - destruct (isPrefix from path) eqn:Hpre; [done|]. right. split; [done|].
      apply bind_Ok in Hop as (mid & Hmid & Hop). exists mid.
      split_and!; [|by apply add_added|by intros Hend; eapply add_get].
      apply remove_removed; [by intros ->|done..]. }
  destruct (String.eqb_spec name "copy") as [->|Hcopy].
  { unfold apply_copy in Hop. apply bind_Ok in Hop as (from & Hfrom & Hop).
    apply bind_Ok in Hop as (v & Hv & Hop). exists from, v. rewrite CloneValue_id in Hop.
    split_and!; [done..|by apply add_added|by intros Hend; eapply add_get]. }
  destruct (String.eqb_spec name "remove") as [->|Hremove]; [|done].
  unfold apply_remove in Hop. destruct path as [|tok path]; [done|].
  destruct (removed_readable root (tok :: path) root' ltac:(done) Hop) as (v & Hv). exists v. by apply remove_removed.
Qed.

Definition ex_ops : list patchOp :=
  [{["op" := VString "replace"; "path" := VString "/spec/items/0"; "value" := VString "z"]};
   {["op" := VString "remove"; "path" := VString "/spec/none"]}].

Definition example_json : GoJson := {|
  json_decode_ops s := if String.eqb s "[]" then Some (Some []) else Some (Some ex_ops);
  json_decode_paths s := Some ["/spec/items/0"];
|}.

Lemma patch_operation_effect_witness :
  ∃ v, (list_lookup 0 ex_ops ≫= (.!! "value")) = Some v
    ∧ replaced v ex_doc ["spec"; "items"; "0"] (VMap {["spec" := VMap {["items" := VSlice [VString "z"; VString "y"]]}]})
    ∧ readable v ["spec"; "items"; "0"] (VMap {["spec" := VMap {["items" := VSlice [VString "z"; VString "y"]]}]}).
Proof.
  apply (@patch_operation_effect example_std ex_doc
           (VMap {["spec" := VMap {["items" := VSlice [VString "z"; VString "y"]]}]})
           (default ∅ (list_lookup 0 ex_ops)) "replace" ["spec"; "items"; "0"]); vm_compute; reflexivity.
Defined.

(** The result of a patch: the document after all operations, or the position and
    name of the first operation that fails on the document left by those before
    it, or something other than an object at the root.  [PatchStore.v] has the
    same on a store, where a document can be seen to change. *)
Lemma ApplyPatch_outcome `{GoStd} `{GoJson} (doc : gomap) (text : string) (ops : list patchOp)
    (Htext : text ≠ "") (Hops : json_decode_ops text = Some (Some ops)) :
  match ApplyPatch doc text with
  | Ok out => run_ops (VMapOpt doc) ops = Some (VMapOpt out)
  | Err (ErrPatchOp j name e) =>
      ∃ op root, ops !! j = Some op ∧ run_ops (VMapOpt doc) (take j ops) = Some root
        ∧ applyOp root op = Err e
        ∧ name = match patchOp_str op "op" with Ok (Some s) => s | _ => "" end
  | Err ErrRootNotObject => ∃ root, run_ops (VMapOpt doc) ops = Some root ∧ as_map root = None
  | Err _ => False
  end.
Proof.
  unfold ApplyPatch. destruct (String.eqb_spec text ""); [done|]. rewrite Hops. unfold apply_decoded.
  assert (VMapOpt (DeepClone doc) = VMapOpt doc) as ->.
  { destruct doc as [m|]; [|done]. exact (CloneValue_id (VMap m)). }
  destruct (apply_ops 0 (VMapOpt doc) ops) as [root|e] eqn:Hr; cbn [mbind result_bind].
  - apply apply_ops_Ok in Hr. destruct (as_map root) as [out|] eqn:Hm; [|by exists root].
    rewrite Hr. by destruct root; simpl in Hm; simplify_eq.
  - apply apply_ops_Err in Hr as (j & op & root & name & e' & H1 & H2 & H3 & -> & Hn).
    exists op, root. done.
Qed.
