(* ===== verification/PatchNumber.v ===== *)
(** * Equality of JSON numbers (confmap/patch.go, [toNumber])

    [normalize_number] brings the text of a JSON number to a coefficient without
    outer zeros and a decimal exponent.  Two texts get the same normal form
    exactly when they denote the same rational number. *)
From S2P Require Import Prelude GoStrings Value Merge Patch.
From stdpp Require Import pretty.
From Stdlib Require Import Ascii.
Open Scope Z_scope.

(** ** Number literals *)

Record literal := {
  lit_neg : bool;
  lit_int : string;
  lit_frac : string;
  (** the letter, the sign ([""], ["+"] or ["-"]) and the digits *)
  lit_exp : option (ascii * string * string);
}.

Definition all_digits (s : string) : bool := str_forallb is_digit s.

Definition lit_wf (l : literal) : bool :=
  negb (String.eqb (lit_int l) "") && all_digits (lit_int l) && negb (leading_zero (lit_int l))
  && all_digits (lit_frac l)
  && match lit_exp l with
     | None => true
     | Some (e, sg, ds) =>
         (Ascii.eqb e "e" || Ascii.eqb e "E")
         && (String.eqb sg "" || String.eqb sg "+" || String.eqb sg "-")
         && negb (String.eqb ds "") && all_digits ds
     end.

Definition frac_text (f : string) : string := if String.eqb f "" then "" else String "." f.
Definition exp_text (e : option (ascii * string * string)) : string :=
  match e with None => "" | Some (e, sg, ds) => String e (sg +:+ ds) end.

Definition lit_text (l : literal) : string :=
  (if lit_neg l then "-" else "") +:+ lit_int l +:+ frac_text (lit_frac l) +:+ exp_text (lit_exp l).

(** The number of a string of digits. *)
Definition dval (s : string) : Z := default 0 (digits_val 0 s).

(** The number denoted: [mantissa * 10 ^ exponent]. *)
Definition mantissa (l : literal) : Z :=
  (if lit_neg l then -1 else 1) * dval (lit_int l +:+ lit_frac l).
Definition exponent (l : literal) : Z :=
  match lit_exp l with
  | None => 0
  | Some (_, sg, ds) => if String.eqb sg "-" then - dval ds else dval ds
  end - Z.of_nat (String.length (lit_frac l)).

(** [m1 * 10 ^ e1 = m2 * 10 ^ e2], scaled to integers. *)
Definition same_number (m1 e1 m2 e2 : Z) : Prop :=
  m1 * 10 ^ (e1 - Z.min e1 e2) = m2 * 10 ^ (e2 - Z.min e1 e2).

(** ** Digits *)

Definition digit_of (c : ascii) : Z := Z.of_nat (nat_of_ascii c) - 48.

Lemma digits_val_acc s acc :
  all_digits s = true →
  digits_val acc s = Some (acc * 10 ^ Z.of_nat (String.length s) + dval s).
Proof.
  revert acc. induction s as [|c s IH]; intros acc Hs; simpl.
  - f_equal. unfold dval. simpl. lia.
  - unfold dval. simpl. unfold all_digits in *. simpl in Hs.
    apply andb_prop in Hs as [Hc Hs]. rewrite Hc. rewrite !(IH _ Hs). cbn [default String.length].
    f_equal. rewrite Nat2Z.inj_succ, Z.pow_succ_r by lia. unfold id. ring.
Qed.

Lemma dval_cons c s :
  all_digits (String c s) = true →
  dval (String c s) = digit_of c * 10 ^ Z.of_nat (String.length s) + dval s.
Proof.
  intros Hs. unfold all_digits in Hs. simpl in Hs. apply andb_prop in Hs as [Hc Hs].
  unfold dval at 1. simpl. rewrite Hc. rewrite digits_val_acc by done. simpl. unfold digit_of. lia.
Qed.

Lemma is_digit_bounds c : is_digit c = true → 0 <= digit_of c <= 9.
Proof.
  unfold is_digit, digit_of. intros [H1%Nat.leb_le H2%Nat.leb_le]%andb_prop. lia.
Qed.

Lemma digit_of_inj c d : digit_of c = digit_of d → c = d.
Proof.
  unfold digit_of. intros H. rewrite <-(ascii_nat_embedding c), <-(ascii_nat_embedding d). f_equal. lia.
Qed.

Lemma digit_zero c : is_digit c = true → digit_of c = 0 → c = "0"%char.
Proof. intros _ H. by apply digit_of_inj. Qed.

Lemma all_digits_app a b : all_digits (a +:+ b) = all_digits a && all_digits b.
Proof. unfold all_digits. induction a; simpl; [done|]. by rewrite IHa, andb_assoc. Qed.

Lemma dval_bounds s : all_digits s = true → 0 <= dval s < 10 ^ Z.of_nat (String.length s).
Proof.
  induction s as [|c s IH]; intros Hs; [done|]. rewrite dval_cons by done.
  unfold all_digits in Hs. simpl in Hs. apply andb_prop in Hs as [Hc%is_digit_bounds Hs].
  specialize (IH Hs). cbn [String.length]. rewrite Nat2Z.inj_succ, Z.pow_succ_r by lia. nia.
Qed.

Lemma dval_app a b :
  all_digits a = true → all_digits b = true →
  dval (a +:+ b) = dval a * 10 ^ Z.of_nat (String.length b) + dval b.
Proof.
  intros Ha Hb. induction a as [|c a IH].
  - simpl. unfold dval at 2. simpl. lia.
  - assert (all_digits (String c a +:+ b) = true) as Hab by (by rewrite all_digits_app, Ha, Hb).
    pose proof Ha as Ha'. unfold all_digits in Ha'. simpl in Ha'. apply andb_prop in Ha' as [_ Ha'].
    change (String c a +:+ b) with (String c (a +:+ b)) in *.
    rewrite !dval_cons by done. rewrite IH by done.
    rewrite length_app_str, Nat2Z.inj_add, Z.pow_add_r by lia. ring.
Qed.

Lemma dval_eq_length s t :
  all_digits s = true → all_digits t = true → String.length s = String.length t → dval s = dval t → s = t.
Proof.
  revert t. induction s as [|c s IH]; intros [|d t] Hs Ht Hlen Hv; try done.
  rewrite !dval_cons in Hv by done. unfold all_digits in Hs, Ht. simpl in Hs, Ht, Hlen.
  apply andb_prop in Hs as [Hc%is_digit_bounds Hs], Ht as [Hd%is_digit_bounds Ht].
  injection Hlen as Hlen. rewrite Hlen in Hv.
  pose proof (dval_bounds s Hs) as Bs. pose proof (dval_bounds t Ht) as Bt. rewrite Hlen in Bs.
  assert (digit_of c = digit_of d) as Hcd by nia.
  f_equal; [by apply digit_of_inj|]. apply IH; [done..|]. nia.
Qed.

(** A first digit other than zero fixes the length. *)
Definition starts_nonzero (s : string) : Prop :=
  match s with String c _ => digit_of c ≠ 0 | "" => False end.

Lemma dval_lower s : all_digits s = true → starts_nonzero s → 10 ^ Z.of_nat (pred (String.length s)) <= dval s.
Proof.
  destruct s as [|c s]; [done|]. intros Hs Hc. rewrite dval_cons by done. simpl in *.
  unfold all_digits in Hs. simpl in Hs. apply andb_prop in Hs as [Hc'%is_digit_bounds Hs].
  pose proof (dval_bounds s Hs). nia.
Qed.

Lemma dval_inj s t :
  all_digits s = true → all_digits t = true → starts_nonzero s → starts_nonzero t → dval s = dval t → s = t.
Proof.
  intros Hs Ht Hs0 Ht0 Hv. apply dval_eq_length; [done..| |done].
  pose proof (dval_bounds s Hs) as [_ B1]. pose proof (dval_bounds t Ht) as [_ B2].
  pose proof (dval_lower s Hs Hs0) as L1. pose proof (dval_lower t Ht Ht0) as L2.
  assert (Z.of_nat (pred (String.length s)) < Z.of_nat (String.length t)) by (apply (Z.pow_lt_mono_r_iff 10); lia).
  assert (Z.of_nat (pred (String.length t)) < Z.of_nat (String.length s)) by (apply (Z.pow_lt_mono_r_iff 10); lia).
  destruct s, t; simpl in *; try done; lia.
Qed.

(** ** Outer zeros *)

Fixpoint strip0 (s : string) : string :=
  match s with
  | String c s' => if Ascii.eqb c "0" then strip0 s' else s
  | "" => ""
  end.

Fixpoint zeros (n : nat) : string := match n with O => "" | S n => String "0" (zeros n) end.

Lemma trim_left_zero s : trim_left_go ["0"] 0 s = strip0 s.
Proof.
  induction s as [|c s IH]; [done|]. cbn [trim_left_go token_at strip0 String.prefix].
  destruct (ascii_dec "0" c) as [<-|Hne].
  - destruct (String.prefix "" s) eqn:E; [|by destruct s]. exact IH.
  - destruct (Ascii.eqb_spec c "0") as [->|]; done.
Qed.

Lemma TrimLeft_zero s : TrimLeft s "0" = strip0 s.
Proof. apply trim_left_zero. Qed.

Lemma TrimRight_zero s : TrimRight s "0" = str_rev (strip0 (str_rev s)).
Proof. unfold TrimRight, trim_right. f_equal. apply trim_left_zero. Qed.

Lemma strip0_spec s :
  ∃ n, s = zeros n +:+ strip0 s ∧ (∀ c t, strip0 s = String c t → c ≠ "0"%char).
Proof.
  induction s as [|c s IH]; [by exists O|]. simpl.
  destruct (Ascii.eqb_spec c "0") as [->|Hc].
  - destruct IH as (n & Hn & Hne). exists (S n). simpl. split; [by rewrite <-Hn|done].
  - exists O. simpl. split; [done|]. by intros ? ? [= <- <-].
Qed.

Lemma zeros_snoc n : zeros n +:+ "0" = String "0" (zeros n).
Proof. induction n; simpl; [done|]. by rewrite IHn. Qed.

Lemma str_rev_zeros n : str_rev (zeros n) = zeros n.
Proof. induction n; [done|]. cbn [zeros]. by rewrite str_rev_cons, IHn, zeros_snoc. Qed.

Lemma TrimRight_zero_spec s :
  ∃ n, s = TrimRight s "0" +:+ zeros n ∧ (∀ c t, TrimRight s "0" = t +:+ String c "" → c ≠ "0"%char).
Proof.
  rewrite TrimRight_zero. destruct (strip0_spec (str_rev s)) as (n & Hn & Hne). exists n. split.
  - rewrite <-(str_rev_involutive s) at 1. rewrite Hn at 1. by rewrite str_rev_append, str_rev_zeros.
  - intros c t Ht. apply (Hne c (str_rev t)).
    rewrite <-(str_rev_involutive (strip0 (str_rev s))), Ht. by rewrite str_rev_append.
Qed.

Lemma length_zeros n : String.length (zeros n) = n.
Proof. induction n; simpl; congruence. Qed.

Lemma zeros_digits n : all_digits (zeros n) = true.
Proof. unfold all_digits. by induction n. Qed.

Lemma dval_zeros n : dval (zeros n) = 0.
Proof.
  induction n; [done|]. cbn [zeros]. rewrite dval_cons by apply (zeros_digits (S n)). rewrite IHn.
  change (digit_of "0") with 0. lia.
Qed.

(** ** The normal form of a literal *)

Definition sign_text (neg : bool) (s : string) : string := if neg then "-" +:+ s else s.

(** The last part of [toNumber], after the text has been taken apart. *)
Definition render (neg : bool) (ds : string) (e : Z) : string :=
  let s := TrimLeft ds "0" in
  if String.eqb s "" then "0"
  else
    let c := TrimRight s "0" in
    sign_text neg c +:+ "e" +:+ pretty (e + (Z.of_nat (String.length s) - Z.of_nat (String.length c))).

Definition plain_byte (c : ascii) : bool :=
  negb (Ascii.eqb c "e") && negb (Ascii.eqb c "E").

Lemma cut_exp_app a e b :
  str_forallb plain_byte a = true → plain_byte e = false →
  cut_exp (a +:+ String e b) = (a, Some b).
Proof.
  intros Ha He. unfold plain_byte in *. induction a as [|c a IH]; simpl.
  - by destruct (Ascii.eqb e "e"), (Ascii.eqb e "E").
  - simpl in Ha. apply andb_prop in Ha as [Hc Ha]. rewrite IH by done.
    by destruct (Ascii.eqb c "e"), (Ascii.eqb c "E").
Qed.

Lemma cut_exp_none a : str_forallb plain_byte a = true → cut_exp a = (a, None).
Proof.
  unfold plain_byte. induction a as [|c a IH]; simpl; [done|].
  intros [Hc Ha]%andb_prop. rewrite IH by done.
  by destruct (Ascii.eqb c "e"), (Ascii.eqb c "E").
Qed.

Lemma digit_not c d : is_digit d = false → is_digit c = true → Ascii.eqb c d = false.
Proof. intros Hd Hc. apply Ascii.eqb_neq. intros ->. congruence. Qed.

Lemma digits_no_byte d s : is_digit d = false → all_digits s = true → no_byte d s = true.
Proof.
  intros Hd. apply str_forallb_impl. intros c Hc. by rewrite (digit_not c d).
Qed.

Lemma digits_plain s : all_digits s = true → str_forallb plain_byte s = true.
Proof.
  apply str_forallb_impl. intros c Hc. unfold plain_byte. by rewrite !digit_not.
Qed.

(** The text before the exponent: digits, perhaps with a point. *)
Lemma frac_part (i f : string) :
  all_digits i = true → all_digits f = true → ∀ e,
  match strings_Cut (i +:+ frac_text f) "." with
  | Some (a, b) => (a +:+ b, e - Z.of_nat (String.length b))
  | None => (i +:+ frac_text f, e)
  end = (i +:+ f, e - Z.of_nat (String.length f)).
Proof.
  intros Hi Hf e. unfold frac_text. destruct (String.eqb_spec f "") as [->|Hne].
  - rewrite app_str_nil_r, Cut_none by (by apply digits_no_byte). f_equal. simpl. lia.
  - rewrite Cut_app by (by apply digits_no_byte). done.
Qed.

Lemma HasPrefix_minus i s : all_digits i = true → i ≠ "" → HasPrefix (i +:+ s) "-" = false.
Proof.
  unfold HasPrefix, all_digits. destruct i as [|c i]; [done|]. cbn [str_forallb String.append String.prefix].
  intros [Hc _]%andb_prop _. destruct (ascii_dec "-" c) as [Heq|]; [|done].
  rewrite <-Heq in Hc. by vm_compute in Hc.
Qed.

Lemma lit_text_normal l :
  lit_wf l = true →
  normalize_number (lit_text l) = render (lit_neg l) (lit_int l +:+ lit_frac l) (exponent l).
Proof.
  destruct l as [neg i f e]. unfold lit_wf, lit_text, exponent. cbn [lit_neg lit_int lit_frac lit_exp].
  intros [[[[Hi0 Hi]%andb_prop _]%andb_prop Hf]%andb_prop He]%andb_prop.
  apply negb_true_iff, String.eqb_neq in Hi0.
  set (body := (if neg then "-" else "") +:+ i +:+ frac_text f).
  assert (str_forallb plain_byte body = true) as Hbody.
  { unfold body. rewrite !str_forallb_app, (digits_plain i Hi). unfold frac_text.
    pose proof (digits_plain f Hf) as Hpf. destruct neg, (String.eqb f ""); done. }
  assert (cut_exp (body +:+ exp_text e) =
    (body, match e with Some (_, sg, ds) => Some (sg +:+ ds) | None => None end)) as Hcut.
  { destruct e as [[[e sg] ds]|]; simpl.
    - apply cut_exp_app; [done|]. apply andb_prop in He as [[[He _]%andb_prop _]%andb_prop _].
      unfold plain_byte. destruct (Ascii.eqb e "e"), (Ascii.eqb e "E"); done.
    - rewrite app_str_nil_r. by apply cut_exp_none. }
  assert (HasPrefix body "-" = neg) as Hp.
  { unfold body. destruct neg; [exact (GoStrings.prefix_app "-" _)|exact (HasPrefix_minus i _ Hi Hi0)]. }
  assert (TrimPrefix body "-" = i +:+ frac_text f) as Ht.
  { unfold TrimPrefix. rewrite Hp. unfold body. by destruct neg. }
  assert (∀ x, (if neg then "-" else "") +:+ i +:+ frac_text f +:+ x = body +:+ x) as ->.
  { intros x. unfold body. by rewrite !app_str_assoc. }
  unfold normalize_number. rewrite Hcut. cbv zeta. rewrite Hp, Ht, frac_part by done.
  unfold render, sign_text. cbv zeta. destruct (String.eqb _ ""); [done|]. do 3 f_equal.
  destruct e as [[[e sg] ds]|]; [|done].
  apply andb_prop in He as [[[_ Hsg]%andb_prop Hds0]%andb_prop Hds].
  f_equal. unfold dval.
  apply orb_prop in Hsg as [[->%String.eqb_eq| ->%String.eqb_eq]%orb_prop| ->%String.eqb_eq]; try done.
  simpl. destruct ds as [|c ds]; [done|]. unfold all_digits in Hds. simpl in Hds.
  apply andb_prop in Hds as [Hc _]. unfold exp_of.
  destruct c as [[] [] [] [] [] [] [] []]; done.
Qed.

Lemma strip0_digits s : all_digits s = true → all_digits (strip0 s) = true.
Proof.
  intros Hs. destruct (strip0_spec s) as (n & Hn & _). rewrite Hn, all_digits_app in Hs.
  by apply andb_prop in Hs as [_ Hs].
Qed.

Lemma strip0_dval s : all_digits s = true → dval (strip0 s) = dval s.
Proof.
  intros Hs. pose proof (strip0_digits s Hs) as Hd. destruct (strip0_spec s) as (n & Hn & _).
  rewrite Hn at 2. rewrite dval_app, dval_zeros by (done || apply zeros_digits). lia.
Qed.

(** The shape of a normal form that is not zero. *)
Definition normal_coef (c : string) : Prop :=
  all_digits c = true ∧ starts_nonzero c ∧ dval c mod 10 ≠ 0.

Lemma render_cases neg ds e :
  all_digits ds = true →
  (dval ds = 0 ∧ render neg ds e = "0")
  ∨ ∃ c k, 0 <= k ∧ normal_coef c ∧ dval ds = dval c * 10 ^ k
      ∧ render neg ds e = sign_text neg c +:+ "e" +:+ pretty (e + k).
Proof.
  intros Hds. unfold render. rewrite TrimLeft_zero. cbv zeta.
  pose proof (strip0_digits ds Hds) as Hs. rewrite <-(strip0_dval ds Hds).
  destruct (strip0_spec ds) as (_ & _ & Hfirst). destruct (strip0 ds) as [|a s]; [by left|]. right.
  set (x := String a s) in *. change (String.eqb x "") with false. cbv iota.
  destruct (TrimRight_zero_spec x) as (n & Hn & Hlast). set (c := TrimRight x "0") in *.
  assert (all_digits c = true) as Hc by (rewrite Hn, all_digits_app in Hs; by apply andb_prop in Hs as [? _]).
  assert (digit_of a ≠ 0) as Ha.
  { intros H0. apply (Hfirst a s); [done|]. apply digit_zero; [|done].
    unfold all_digits, x in Hs. simpl in Hs. by apply andb_prop in Hs as [? _]. }
  assert (starts_nonzero c) as Hc0.
  { destruct c as [|b c']; [|by injection Hn as -> _].
    destruct n; [done|]. injection Hn as -> _. by destruct Ha. }
  exists c, (Z.of_nat n). split; [lia|]. split; [split; [exact Hc|split; [exact Hc0|]]|split].
  - destruct (str_snoc_cases c) as [Hnil|(t & b & Htb)]; [by rewrite Hnil in Hc0|].
    pose proof Hc as Hcb. rewrite Htb, all_digits_app in Hcb. apply andb_prop in Hcb as [Ht Hb].
    rewrite Htb, dval_app by done. unfold all_digits in Hb. simpl in Hb. rewrite andb_true_r in Hb.
    assert (digit_of b ≠ 0) by (intros H0; apply (Hlast b t Htb), digit_zero; done).
    rewrite dval_cons by (unfold all_digits; simpl; by rewrite Hb).
    cbn [String.length]. change (dval "") with 0. apply is_digit_bounds in Hb.
    rewrite Z.pow_0_r. change (10 ^ Z.of_nat 1) with 10. rewrite Z.mul_1_r, Z.add_0_r.
    rewrite Z.add_comm, Z.mod_add by lia. rewrite Z.mod_small; lia.
  - rewrite Hn at 1. rewrite dval_app by (done || apply zeros_digits).
    rewrite dval_zeros, length_zeros. lia.
  - do 3 f_equal. rewrite Hn at 1. rewrite length_app_str, length_zeros. lia.
Qed.

(** Normal forms are read back unambiguously. *)
Lemma sign_coef_inj n1 c1 n2 c2 :
  normal_coef c1 → normal_coef c2 → sign_text n1 c1 = sign_text n2 c2 → n1 = n2 ∧ c1 = c2.
Proof.
  intros (H1 & S1 & _) (H2 & S2 & _).
  assert (∀ c s, all_digits c = true → starts_nonzero c → c = "-" +:+ s → False) as Habs.
  { intros [|a c] s Hc _ Heq; [done|]. unfold all_digits in Hc. simpl in Hc, Heq.
    injection Heq as -> _. done. }
  destruct n1, n2; simpl; intros Heq; [by injection Heq as ->| | |done].
  - exfalso. by apply (Habs c2 c1 H2 S2).
  - exfalso. by apply (Habs c1 c2 H1 S1).
Qed.

Lemma split_at_e a b x y :
  str_forallb plain_byte a = true → str_forallb plain_byte b = true →
  a +:+ "e" +:+ x = b +:+ "e" +:+ y → a = b ∧ x = y.
Proof.
  intros Ha Hb Heq. pose proof (cut_exp_app a "e" x Ha eq_refl) as H1.
  change (String "e" x) with ("e" +:+ x) in H1. rewrite Heq in H1.
  pose proof (cut_exp_app b "e" y Hb eq_refl) as H2. change (String "e" y) with ("e" +:+ y) in H2.
  rewrite H1 in H2. by simplify_eq.
Qed.

Lemma sign_plain n c : all_digits c = true → str_forallb plain_byte (sign_text n c) = true.
Proof. intros Hc. destruct n; simpl; by apply digits_plain. Qed.

Definition signed (neg : bool) (z : Z) : Z := (if neg then -1 else 1) * z.

(** A positive coefficient that 10 does not divide is determined, with its
    exponent, by the number. *)
Lemma scaled_unique m1 e1 m2 e2 :
  m1 mod 10 ≠ 0 → m2 mod 10 ≠ 0 → same_number m1 e1 m2 e2 → m1 = m2 ∧ e1 = e2.
Proof.
  unfold same_number. intros H1 H2 Heq.
  destruct (Z.lt_trichotomy e1 e2) as [Hlt|[->|Hlt]].
  - rewrite Z.min_l in Heq by lia. rewrite Z.sub_diag, Z.mul_1_r in Heq. exfalso. apply H1.
    rewrite Heq. replace (e2 - e1) with (Z.succ (e2 - e1 - 1)) by lia. rewrite Z.pow_succ_r by lia.
    replace (m2 * (10 * 10 ^ (e2 - e1 - 1))) with (m2 * 10 ^ (e2 - e1 - 1) * 10) by ring.
    by apply Z.mod_mul.
  - rewrite Z.min_id, Z.sub_diag, !Z.mul_1_r in Heq. done.
  - rewrite Z.min_r in Heq by lia. rewrite Z.sub_diag, Z.mul_1_r in Heq. exfalso. apply H2.
    rewrite <-Heq. replace (e1 - e2) with (Z.succ (e1 - e2 - 1)) by lia. rewrite Z.pow_succ_r by lia.
    replace (m1 * (10 * 10 ^ (e1 - e2 - 1))) with (m1 * 10 ^ (e1 - e2 - 1) * 10) by ring.
    by apply Z.mod_mul.
Qed.

Lemma same_number_scale m1 e1 k1 m2 e2 k2 :
  0 <= k1 → 0 <= k2 →
  same_number (m1 * 10 ^ k1) e1 (m2 * 10 ^ k2) e2 ↔ same_number m1 (e1 + k1) m2 (e2 + k2).
Proof.
  intros H1 H2. unfold same_number.
  set (a := Z.min e1 e2). set (b := Z.min (e1 + k1) (e2 + k2)).
  assert (∀ m e k, a <= e → b <= e + k → 0 <= k →
    m * 10 ^ k * 10 ^ (e - a) = m * 10 ^ (e + k - b) * 10 ^ (b - a)) as Hsc.
  { intros m e k Ha Hb Hk. rewrite <-!Z.mul_assoc, <-!Z.pow_add_r by lia. f_equal. f_equal. lia. }
  rewrite (Hsc m1 e1 k1), (Hsc m2 e2 k2) by (unfold a, b; lia). split; [|congruence]. intros Heq. apply Z.mul_reg_r in Heq; [done|].
  apply Z.pow_nonzero; unfold a, b; lia.
Qed.

Lemma same_number_zero e1 m2 e2 : same_number 0 e1 m2 e2 ↔ m2 = 0.
Proof.
  unfold same_number. pose proof (Z.pow_pos_nonneg 10 (e2 - Z.min e1 e2)). split; [nia|]. intros ->. lia.
Qed.

Lemma same_number_sym m1 e1 m2 e2 : same_number m1 e1 m2 e2 ↔ same_number m2 e2 m1 e1.
Proof. unfold same_number. rewrite (Z.min_comm e2). split; congruence. Qed.

Lemma signed_mod n c : dval c mod 10 ≠ 0 → signed n (dval c) mod 10 ≠ 0.
Proof.
  unfold signed. destruct n; [|by rewrite Z.mul_1_l].
  intros H H0. apply H. apply Z.mod_divide in H0; [|lia]. apply Z.mod_divide; [lia|].
  destruct H0 as [q Hq]. exists (- q). lia.
Qed.

Lemma signed_zero n z : signed n z = 0 ↔ z = 0.
Proof. unfold signed. destruct n; lia. Qed.

Lemma coef_pos c : normal_coef c → 0 < dval c.
Proof. intros (Hd & Hs & _). pose proof (dval_lower c Hd Hs). pose proof (Z.pow_pos_nonneg 10 (Z.of_nat (pred (String.length c)))). lia. Qed.

Lemma sign_text_not_zero n c x : normal_coef c → sign_text n c +:+ "e" +:+ x ≠ "0".
Proof.
  intros (_ & Hs & _) Heq. destruct n; [done|]. destruct c as [|a [|b c]]; done.
Qed.

Lemma render_eq n1 d1 e1 n2 d2 e2 :
  all_digits d1 = true → all_digits d2 = true →
  render n1 d1 e1 = render n2 d2 e2 ↔ same_number (signed n1 (dval d1)) e1 (signed n2 (dval d2)) e2.
Proof.
  intros H1 H2.
  destruct (render_cases n1 d1 e1 H1) as [[Z1 ->]|(c1 & k1 & K1 & C1 & V1 & ->)],
    (render_cases n2 d2 e2 H2) as [[Z2 ->]|(c2 & k2 & K2 & C2 & V2 & ->)].
  - rewrite Z1, (proj2 (signed_zero n1 0) eq_refl), same_number_zero, signed_zero. done.
  - rewrite Z1, (proj2 (signed_zero n1 0) eq_refl), same_number_zero, signed_zero, V2.
    pose proof (coef_pos c2 C2). pose proof (Z.pow_pos_nonneg 10 k2).
    split; [intros Heq; symmetry in Heq; by apply sign_text_not_zero in Heq|nia].
  - rewrite same_number_sym, Z2, (proj2 (signed_zero n2 0) eq_refl), same_number_zero, signed_zero, V1.
    pose proof (coef_pos c1 C1). pose proof (Z.pow_pos_nonneg 10 k1).
    split; [intros Heq; by apply sign_text_not_zero in Heq|nia].
  - assert (∀ n c k, signed n (dval c * 10 ^ k) = signed n (dval c) * 10 ^ k) as Hs by (intros; unfold signed; ring).
    rewrite V1, V2, !Hs, same_number_scale by done. split.
    + intros Heq. apply split_at_e in Heq as [Hc He]; [|by apply sign_plain, C1|by apply sign_plain, C2].
      apply sign_coef_inj in Hc as [-> ->]; [|done..]. apply (inj pretty) in He. by rewrite He.
    + intros Heq. apply scaled_unique in Heq as [Hc He];
        [|by apply signed_mod, C1|by apply signed_mod, C2].
      pose proof (coef_pos c1 C1). pose proof (coef_pos c2 C2).
      assert (n1 = n2) as -> by (destruct n1, n2; unfold signed in Hc; (done || lia)).
      assert (c1 = c2) as ->; [|by rewrite He].
      destruct C1 as (A1 & B1 & _), C2 as (A2 & B2 & _). apply dval_inj; [done..|].
      unfold signed in Hc. destruct n2; lia.
Qed.

(** ** Literals are what [encoding/json] accepts *)

Definition no_digit_first (s : string) : Prop :=
  match s with String c _ => is_digit c = false | "" => True end.

Lemma skip_digits_app d s : all_digits d = true → no_digit_first s → skip_digits (d +:+ s) = s.
Proof.
  unfold all_digits. induction d as [|c d IH]; intros Hd Hs; simpl.
  - destruct s as [|c s]; [done|]. simpl in *. by rewrite Hs.
  - simpl in Hd. apply andb_prop in Hd as [Hc Hd]. rewrite Hc. by apply IH.
Qed.

Lemma exp_text_valid e sg ds :
  (Ascii.eqb e "e" || Ascii.eqb e "E") = true →
  (String.eqb sg "" || String.eqb sg "+" || String.eqb sg "-") = true →
  ds ≠ "" → all_digits ds = true → valid_exp (String e (sg +:+ ds)) = true.
Proof.
  intros He Hsg Hne Hds.
  assert (skip_digits ds = "") as Hsk by (rewrite <-(app_str_nil_r ds); by apply skip_digits_app).
  apply String.eqb_neq in Hne as Hne'.
  apply orb_prop in Hsg as [[->%String.eqb_eq| ->%String.eqb_eq]%orb_prop| ->%String.eqb_eq];
    cbn [String.append]; cbn [valid_exp].
  - destruct ds as [|c ds]; [done|]. rewrite He.
    pose proof Hds as Hc. unfold all_digits in Hc. simpl in Hc. apply andb_prop in Hc as [Hc _].
    rewrite !digit_not by done. cbn [orb]. by rewrite Hsk.
  - rewrite He, Hne', Hsk. done.
  - rewrite He, Hne', Hsk. done.
Qed.

Lemma frac_exp_valid f e :
  all_digits f = true → valid_exp (exp_text e) = true → no_digit_first (exp_text e) →
  match exp_text e with String c (String _ _) => Ascii.eqb c "." = false | _ => True end →
  valid_frac (frac_text f +:+ exp_text e) = true.
Proof.
  intros Hf He Hd Hdot. unfold frac_text. destruct (String.eqb_spec f "") as [->|Hne].
  - simpl. destruct (exp_text e) as [|c [|c' s]]; [done..|]. simpl in *. rewrite Hdot. done.
  - destruct f as [|c f]; [done|]. unfold all_digits in Hf. simpl in Hf.
    apply andb_prop in Hf as [Hc Hf]. simpl. rewrite Hc. by rewrite skip_digits_app.
Qed.

Lemma lit_text_valid l : lit_wf l = true → isValidNumber (lit_text l) = true.
Proof.
  destruct l as [neg i f e]. unfold lit_wf, lit_text. cbn [lit_neg lit_int lit_frac lit_exp].
  intros [[[[Hi0 Hi]%andb_prop Hz]%andb_prop Hf]%andb_prop He]%andb_prop.
  apply negb_true_iff, String.eqb_neq in Hi0.
  set (tail := frac_text f +:+ exp_text e).
  assert (valid_frac tail = true ∧ no_digit_first tail) as [Ht Hnd].
  { assert (no_digit_first (exp_text e)) as Hnd.
    { destruct e as [[[e sg] ds]|]; [|done]. simpl.
      apply andb_prop in He as [[[He _]%andb_prop _]%andb_prop _].
      apply orb_prop in He as [->%Ascii.eqb_eq| ->%Ascii.eqb_eq]; done. }
    split.
    - apply frac_exp_valid; [done| |done|].
      + destruct e as [[[e sg] ds]|]; [|done].
        apply andb_prop in He as [[[He Hsg]%andb_prop Hds0]%andb_prop Hds].
        apply negb_true_iff, String.eqb_neq in Hds0. by apply exp_text_valid.
      + destruct e as [[[e sg] ds]|]; [|done]. simpl.
        apply andb_prop in He as [[[He _]%andb_prop _]%andb_prop _].
        destruct (sg +:+ ds); [done|].
        apply orb_prop in He as [->%Ascii.eqb_eq| ->%Ascii.eqb_eq]; done.
    - unfold tail, frac_text. by destruct (String.eqb f ""). }
  unfold isValidNumber.
  assert (TrimPrefix ((if neg then "-" else "") +:+ i +:+ tail) "-" = i +:+ tail) as ->.
  { unfold TrimPrefix. destruct neg.
    - rewrite (GoStrings.prefix_app "-" (i +:+ tail) : HasPrefix _ _ = true). done.
    - change ("" +:+ i +:+ tail) with (i +:+ tail). by rewrite HasPrefix_minus. }
  destruct i as [|c i]; [done|]. pose proof Hi as Hc. unfold all_digits in Hc. simpl in Hc.
  apply andb_prop in Hc as [Hc Hi']. cbn [String.append]. destruct (Ascii.eqb_spec c "0") as [->|Hc0].
  - destruct i; [done|]. done.
  - rewrite Hc. by rewrite skip_digits_app.
Qed.

Lemma lit_text_ne l : lit_wf l = true → lit_text l ≠ "".
Proof. intros Hl Heq. apply lit_text_valid in Hl. by rewrite Heq in Hl. Qed.

(** [test] compares numbers by value. Two JSON number literals, whatever
    their notation (sign, fraction, exponent, redundant zeros) and size, are
    equal for a patch exactly when they denote the same number. *)
Theorem patch_number_equality `{GoStd} (l1 l2 : literal)
    (H1 : lit_wf l1 = true) (H2 : lit_wf l2 = true) :
  patchEqual (VNumber (lit_text l1)) (VNumber (lit_text l2)) = true ↔
  same_number (mantissa l1) (exponent l1) (mantissa l2) (exponent l2).
Proof.
  assert (∀ l, lit_wf l = true → toNumber (VNumber (lit_text l)) = Some (normalize_number (lit_text l))) as Hn.
  { intros l Hl. unfold toNumber, marshal_number. cbn [isNumber].
    rewrite (proj2 (String.eqb_neq (lit_text l) "")) by (by apply lit_text_ne).
    cbv zeta. by rewrite lit_text_valid. }
  cbn [patchEqual patchNull orb]. rewrite !Hn, !lit_text_normal by done.
  rewrite String.eqb_eq. unfold mantissa.
  assert (∀ l, lit_wf l = true → all_digits (lit_int l +:+ lit_frac l) = true) as Hd.
  { intros l [[[[_ Hi]%andb_prop _]%andb_prop Hf]%andb_prop _]%andb_prop. by rewrite all_digits_app, Hi, Hf. }
  by apply render_eq; apply Hd.
Qed.

Definition lit_hundred : literal := {| lit_neg := false; lit_int := "100"; lit_frac := ""; lit_exp := None |}.
Definition lit_1e2 : literal :=
  {| lit_neg := false; lit_int := "1"; lit_frac := "0"; lit_exp := Some ("e"%char, "+", "2") |}.

Lemma patch_number_equality_witness :
  @patchEqual example_std (VNumber (lit_text lit_hundred)) (VNumber (lit_text lit_1e2)) = true.
Proof. apply (@patch_number_equality example_std lit_hundred lit_1e2); by vm_compute. Defined.
