(* ===== verification/PatchStore.v ===== *)
(** * Patches on a store (confmap/patch.go)

    [ApplyPatch] edits maps in place and rebuilds the slice it inserts into or
    deletes from, on a deep copy of the document.  Here it runs on the store of
    [Clone.v], where a write to an object is seen through every reference to it;
    the trees of [Patch.v] are what its references stand for. *)
From S2P Require Import Prelude GoStrings Value Path Merge Clone Patch.
Open Scope nat_scope.

(** ** Objects *)

Definition map_at (h : heap) (l : loc) : gmap string ref := match h !! l with Some (OMap m) => m | _ => ∅ end.
Definition items_at (h : heap) (l : loc) : list ref := match h !! l with Some (OSlice rs) => rs | _ => [] end.

(** [delete(c, tok)] *)
Definition delete_key (h : heap) (l : loc) (k : string) : heap :=
  match h !! l with Some (OMap m) => <[l := OMap (delete k m)]> h | _ => h end.

Definition alloc_ref (h : heap) (o : obj) : heap * ref :=
  let '(h, l) := alloc h o in (h, match o with OMap _ => RMap (Some l) | OSlice _ => RSlice (Some l) end).

(** What the JSON decoder makes of the value operand: new objects. *)
Fixpoint store_build (h : heap) (v : value) {struct v} : heap * ref :=
  match v with
  | VMap m =>
      let '(h, rs) := map_fold (λ k v acc, let '(h, r) := store_build acc.1 v in (h, <[k := r]> acc.2)) (h, ∅) m in
      alloc_ref h (OMap rs)
  | VSlice l =>
      let '(h, rs) := (fix items (h : heap) (l : list value) : heap * list ref :=
        match l with
        | [] => (h, [])
        | v :: l => let '(h, r) := store_build h v in let '(h, rs) := items h l in (h, r :: rs)
        end) h l in
      alloc_ref h (OSlice rs)
  | VNilMap => (h, RMap None)
  | VNilSlice => (h, RSlice None)
  | _ => (h, RScalar v)
  end.

(** The tree behind a reference, that a comparison goes through. *)
Fixpoint tree_at (fuel : nat) (h : heap) (r : ref) : value :=
  match r, fuel with
  | RScalar v, _ => v
  | RMap None, _ => VNilMap
  | RSlice None, _ => VNilSlice
  | RMap (Some l), S fuel => VMap (tree_at fuel h <$> map_at h l)
  | RSlice (Some l), S fuel => VSlice (tree_at fuel h <$> items_at h l)
  | _, 0 => VNil
  end.

(** ** Navigation and edits

    Each gives the store after it, also when it fails. *)

Fixpoint store_getAt (h : heap) (node : ref) (path : list string) : pres ref :=
  match path with
  | [] => Ok node
  | tok :: path =>
      match node with
      | RMap (Some l) =>
          match map_at h l !! tok with
          | Some r => store_getAt h r path
          | None => Err (ErrSegmentNotFound tok)
          end
      | RMap None => Err (ErrSegmentNotFound tok)
      | RSlice l =>
          let c := match l with Some l => items_at h l | None => [] end in
          i ← arrayIndex tok (length c) false;
          store_getAt h (default (RScalar VNil) (c !! i)) path
      | RScalar _ => Err (ErrCannotIndex tok)
      end
  end.

Definition store_patchNull (r : ref) : bool :=
  match r with RScalar VNil | RMap None | RSlice None => true | _ => false end.

Notation store_edit := (heap → ref → string → heap * pres ref).

Fixpoint store_editAt (h : heap) (node : ref) (path : list string) (edit : store_edit) : heap * pres ref :=
  match path with
  | [] => edit h (RScalar VNil) ""
  | tok :: rest =>
      if store_patchNull node then (h, Err (ErrIndexNull tok))
      else match rest with
           | [] => edit h node tok
           | _ :: _ =>
               match store_getAt h node [tok] with
               | Err e => (h, Err e)
               | Ok child =>
                   match store_editAt h child rest edit with
                   | (h, Err e) => (h, Err e)
                   | (h, Ok updated) =>
                       match node with
                       | RMap (Some l) => (write_key h l tok updated, Ok node)
                       | RSlice (Some l) =>
                           let i := match arrayIndex tok (length (items_at h l)) false with Ok i => i | Err _ => 0 end in
                           (write_index h l i updated, Ok node)
                       | _ => (h, Ok node)
                       end
                   end
               end
           end
  end.

Definition store_addTo (v : ref) : store_edit := λ h container tok,
  match container with
  | RScalar VNil => (h, Ok v)
  | RMap (Some l) => (write_key h l tok v, Ok container)
  | RSlice (Some l) =>
      match arrayIndex tok (length (items_at h l)) true with
      | Err e => (h, Err e)
      | Ok i => let '(h, r) := alloc_ref h (OSlice (slices_Insert (items_at h l) i v)) in (h, Ok r)
      end
  | _ => (h, Err (ErrCannotAdd tok))
  end.

Definition store_removeFrom : store_edit := λ h container tok,
  match container with
  | RScalar VNil => (h, Ok (RScalar VNil))
  | RMap (Some l) =>
      match map_at h l !! tok with
      | None => (h, Err (ErrSegmentNotFound tok))
      | Some _ => (delete_key h l tok, Ok container)
      end
  | RSlice (Some l) =>
      match arrayIndex tok (length (items_at h l)) false with
      | Err e => (h, Err e)
      | Ok i => let '(h, r) := alloc_ref h (OSlice (slices_Delete (items_at h l) i)) in (h, Ok r)
      end
  | _ => (h, Err (ErrCannotRemove tok))
  end.

(** ** Operations *)

Section operations.
Context `{GoStd}.

(** The steps of an operation on the store. *)
Definition store_then (r : heap * pres ref) (k : heap → ref → heap * pres ref) : heap * pres ref :=
  match r with (h, Ok x) => k h x | (h, Err e) => (h, Err e) end.

Definition with_operand (h : heap) (op : patchOp) (k : heap → ref → value → heap * pres ref) : heap * pres ref :=
  match op_value op with Err e => (h, Err e) | Ok v => let '(h, r) := store_build h v in k h r v end.

(** [applyOp]; the fuel bounds the nesting of what is copied or compared, [None]
    is too little of it. *)
Definition store_applyOp (fuel : nat) (h : heap) (root : ref) (op : patchOp) : option (heap * pres ref) :=
  match patchOp_str op "op", patchOp_pointer op "path" with
  | Err e, _ => Some (h, Err e)
  | _, Err e => Some (h, Err e)
  | Ok o, Ok path =>
      let name := default "" o in
      if String.eqb name "add" then Some (with_operand h op (λ h r _, store_editAt h root path (store_addTo r)))
      else if String.eqb name "replace" then
        Some (with_operand h op (λ h r _,
          store_then (store_editAt h root path store_removeFrom) (λ h root, store_editAt h root path (store_addTo r))))
      else if String.eqb name "test" then
        Some (with_operand h op (λ h _ v,
          match store_getAt h root path with
          | Err e => (h, Err e)
          | Ok cur => (h, if patchEqual (tree_at fuel h cur) v then Ok root else Err ErrTestFailed)
          end))
      else if String.eqb name "move" || String.eqb name "copy" then
        match patchOp_pointer op "from" with
        | Err e => Some (h, Err e)
        | Ok from =>
            match store_getAt h root from with
            | Err e => Some (h, Err e)
            | Ok v =>
                if String.eqb name "copy" then
                  '(h, v) ← clone_ref fuel h v; Some (store_editAt h root path (store_addTo v))
                else if (length from =? length path) && isPrefix from path then Some (h, Ok root)
                else if isPrefix from path then Some (h, Err ErrMoveIntoChild)
                else Some (store_then (store_editAt h root from store_removeFrom) (λ h root, store_editAt h root path (store_addTo v)))
            end
        end
      else if String.eqb name "remove" then
        Some match path with [] => (h, Err ErrRemoveRoot) | _ => store_editAt h root path store_removeFrom end
      else Some (h, Err (ErrUnknownOp name))
  end.

Fixpoint store_apply_ops (fuel : nat) (h : heap) (i : nat) (root : ref) (ops : list patchOp) : option (heap * pres ref) :=
  match ops with
  | [] => Some (h, Ok root)
  | op :: ops =>
      '(h, r) ← store_applyOp fuel h root op;
      match r with
      | Ok root => store_apply_ops fuel h (S i) root ops
      | Err e =>
          let name := match patchOp_str op "op" with Ok (Some s) => s | _ => "" end in
          Some (h, Err (ErrPatchOp i name e))
      end
  end.

(** [ApplyPatch] *)
Definition store_ApplyPatch `{GoJson} (fuel : nat) (h : heap) (doc : ref) (patchJSON : string) : option (heap * pres ref) :=
  if String.eqb patchJSON "" then Some (h, Ok doc)
  else match json_decode_ops patchJSON with
       | None => Some (h, Err ErrDecodePatch)
       | Some None => Some (h, Err ErrPatchNotArray)
       | Some (Some ops) =>
           '(h, root) ← clone_ref fuel h doc;
           '(h, r) ← store_apply_ops fuel h 0 root ops;
           Some (h, match r with
                    | Ok (RMap l) => Ok (RMap l)
                    | Ok _ => Err ErrRootNotObject
                    | Err e => Err e
                    end)
       end.
End operations.

(** ** Trees without sharing *)

(** [r] is the tree [v], with its objects in [F] and none of them twice. *)
Inductive sep (h : heap) : gset loc → ref → value → Prop :=
| sep_scalar F v : is_scalar v = true → sep h F (RScalar v) v
| sep_nil_map F : sep h F (RMap None) VNilMap
| sep_nil_slice F : sep h F (RSlice None) VNilSlice
| sep_map F l m vm (Fs : string → gset loc) :
    l ∈ F → h !! l = Some (OMap m) → dom m = dom vm →
    (∀ k, Fs k ⊆ F ∖ {[l]}) → (∀ k k', k ≠ k' → Fs k ## Fs k') →
    (∀ k r v, m !! k = Some r → vm !! k = Some v → sep h (Fs k) r v) →
    sep h F (RMap (Some l)) (VMap vm)
| sep_slice F l rs vs (Fs : nat → gset loc) :
    l ∈ F → h !! l = Some (OSlice rs) → length rs = length vs →
    (∀ i, Fs i ⊆ F ∖ {[l]}) → (∀ i j, i ≠ j → Fs i ## Fs j) →
    (∀ i r v, rs !! i = Some r → vs !! i = Some v → sep h (Fs i) r v) →
    sep h F (RSlice (Some l)) (VSlice vs).

Lemma sep_frame (h h' : heap) (F F' : gset loc) r v :
  F ⊆ F' → (∀ l, l ∈ F → h' !! l = h !! l) → sep h F r v → sep h' F' r v.
Proof.
  intros HF Hh Hs. revert F' HF Hh. induction Hs as [| | |F l m vm Fs Hl Hm Hd Hsub Hdis _ IH|F l rs vs Fs Hl Hm Hd Hsub Hdis _ IH]; intros F' HF Hh.
  - by apply sep_scalar.
  - apply sep_nil_map.
  - apply sep_nil_slice.
  - apply sep_map with m Fs; [set_solver|by rewrite Hh|done|set_solver|done|].
    intros k r v Hr Hv. apply (IH k r v Hr Hv); [done|]. intros x Hx. apply Hh. set_solver.
  - apply sep_slice with rs Fs; [set_solver|by rewrite Hh|done|set_solver|done|].
    intros k r v Hr Hv. apply (IH k r v Hr Hv); [done|]. intros x Hx. apply Hh. set_solver.
Qed.

Lemma sep_weaken h (F F' : gset loc) r v : F ⊆ F' → sep h F r v → sep h F' r v.
Proof. intros HF. by apply sep_frame. Qed.

Lemma sep_repr h (F : gset loc) r v : sep h F r v → repr (λ l, l ∈ F) h r v.
Proof.
  induction 1 as [| | |F l m vm Fs Hl Hm Hd Hsub Hdis _ IH|F l rs vs Fs Hl Hm Hd Hsub Hdis _ IH].
  - by apply repr_scalar.
  - apply repr_nil_map.
  - apply repr_nil_slice.
  - apply repr_map with m; [done..|]. intros k r v Hr Hv. eapply repr_mono; [|by eapply IH]. intros x o Hx Ho. split; [set_solver|done].
  - apply repr_slice with rs; [done..|]. intros k r v Hr Hv. eapply repr_mono; [|by eapply IH]. intros x o Hx Ho. split; [set_solver|done].
Qed.

(** Only objects in [F] are written; the others are new. *)
Definition touches (h : heap) (F : gset loc) (h' : heap) : Prop :=
  dom h ⊆ dom h' ∧ ∀ l, l ∈ dom h → l ∉ F → h' !! l = h !! l.

Definition made (h h' : heap) : gset loc := dom h' ∖ dom h.

Lemma touches_refl h F : touches h F h.
Proof. by split. Qed.

Lemma touches_weaken h (F F' : gset loc) h' : F ⊆ F' → touches h F h' → touches h F' h'.
Proof. intros HF [Hd Hh]. split; [done|]. intros l Hl Hn. apply Hh; set_solver. Qed.

Lemma touches_trans h F h1 h2 : touches h F h1 → touches h1 (F ∪ made h h1) h2 → touches h F h2.
Proof.
  intros [Hd1 Hh1] [Hd2 Hh2]. split; [set_solver|]. intros l Hl Hn. rewrite Hh2; [by apply Hh1|set_solver|]. unfold made. set_solver.
Qed.

Lemma touches_new h F h' : h ⊆ h' → touches h F h'.
Proof.
  intros Hh. split; [by apply subseteq_dom|]. intros l [o Ho]%elem_of_dom _. rewrite Ho. by eapply lookup_weaken.
Qed.

Lemma touches_subseteq h h' : touches h ∅ h' → h ⊆ h'.
Proof. intros [_ Hh]. apply map_subseteq_spec. intros l o Ho. rewrite Hh; [done|by eapply elem_of_dom_2|set_solver]. Qed.

(** A tree apart from what is written stands. *)
Lemma sep_touches h (F G : gset loc) h' r v : touches h F h' → G ⊆ dom h → G ## F → sep h G r v → sep h' G r v.
Proof. intros [_ Hh] HG Hd. apply sep_frame; [done|]. intros l Hl. apply Hh; set_solver. Qed.

Lemma alloc_ref_spec h o : ∃ l, l ∉ dom h ∧ alloc_ref h o = (<[l := o]> h, match o with OMap _ => RMap (Some l) | OSlice _ => RSlice (Some l) end).
Proof. exists (fresh (dom h)). split; [apply is_fresh|done]. Qed.

Lemma made_alloc h (l : loc) (o : obj) : l ∉ dom h → made h (<[l := o]> h) = {[l]}.
Proof. intros Hl. unfold made. rewrite dom_insert_L. set_solver. Qed.

(** ** Building and copying *)

Lemma sep_build_map (h : heap) (F : gset loc) (rs : gmap string ref) (m : gmap string value) (Fs : string → gset loc) :
  dom rs = dom m → (∀ k, Fs k ⊆ F) → F ⊆ dom h → (∀ k k', k ≠ k' → Fs k ## Fs k') → (∀ k r v, rs !! k = Some r → m !! k = Some v → sep h (Fs k) r v) →
  let '(h', r) := alloc_ref h (OMap rs) in h ⊆ h' ∧ sep h' (F ∪ made h h') r (VMap m).
Proof.
  intros Hd Hsub HF Hdis Hrs. destruct (alloc_ref_spec h (OMap rs)) as (l & Hl & ->). rewrite (made_alloc h l) by done. split; [by apply alloc_subseteq|].
  apply sep_map with rs Fs; [set_solver|by rewrite lookup_insert_eq|done|set_solver|done|].
  intros k r v Hr Hv. eapply sep_frame; [done| |by eapply Hrs]. intros x Hx. rewrite lookup_insert_ne; [done|]. set_solver.
Qed.

Lemma sep_build_slice (h : heap) (F : gset loc) (rs : list ref) (l : list value) (Fs : nat → gset loc) :
  length rs = length l → (∀ k, Fs k ⊆ F) → F ⊆ dom h → (∀ k k', k ≠ k' → Fs k ## Fs k') → (∀ k r v, rs !! k = Some r → l !! k = Some v → sep h (Fs k) r v) →
  let '(h', r) := alloc_ref h (OSlice rs) in h ⊆ h' ∧ sep h' (F ∪ made h h') r (VSlice l).
Proof.
  intros Hd Hsub HF Hdis Hrs. destruct (alloc_ref_spec h (OSlice rs)) as (x & Hx & ->). rewrite (made_alloc h x) by done. split; [by apply alloc_subseteq|].
  apply sep_slice with rs Fs; [set_solver|by rewrite lookup_insert_eq|done|set_solver|done|].
  intros k r v Hr Hv. eapply sep_frame; [done| |by eapply Hrs]. intros y Hy. rewrite lookup_insert_ne; [done|]. set_solver.
Qed.

(** Children made one after another share nothing. *)
Definition grown {K} (h h1 : heap) (Fs : K → gset loc) : Prop :=
  h ⊆ h1 ∧ (∀ k, Fs k ⊆ made h h1) ∧ (∀ k k', k ≠ k' → Fs k ## Fs k').

Lemma grown_start {K} h : grown h h (λ _ : K, ∅).
Proof. split_and!; set_solver. Qed.

Lemma grown_step {K} `{EqDecision K} h h1 h2 (Fs : K → gset loc) k :
  grown h h1 Fs → Fs k = ∅ → h1 ⊆ h2 → grown h h2 (λ x, if decide (x = k) then made h1 h2 else Fs x).
Proof.
  intros (Hh & Hsub & Hdis) Hk Hh2. pose proof (subseteq_dom _ _ Hh) as Hd1. pose proof (subseteq_dom _ _ Hh2) as Hd2. unfold grown, made in *. split; [by etrans|split].
  - intros x. specialize (Hsub x). clear Hdis Hk. destruct (decide (x = k)); set_solver.
  - intros x y Hxy. pose proof (Hsub x) as Hx. pose proof (Hsub y) as Hy. specialize (Hdis x y Hxy). clear Hsub Hk.
    destruct (decide (x = k)), (decide (y = k)); first [congruence|set_solver].
Qed.

Lemma grown_old {K} h h1 h2 (Fs : K → gset loc) k r v : grown h h1 Fs → h1 ⊆ h2 → sep h1 (Fs k) r v → sep h2 (Fs k) r v.
Proof.
  intros (Hh & Hsub & _) Hh2. apply sep_frame; [done|]. intros l Hl. specialize (Hsub k l Hl). unfold made in Hsub.
  assert (l ∈ dom h1) as [o Ho]%elem_of_dom by set_solver. rewrite Ho. by eapply lookup_weaken.
Qed.

Lemma store_build_spec v : ∀ h, let '(h', r) := store_build h v in h ⊆ h' ∧ sep h' (made h h') r v.
Proof.
  induction v as [m IH|l IH|v Hm Hs] using value_tree_ind; intros h.
  - cbn [store_build]. set (f := λ (k : string) (v : value) (acc : heap * gmap string ref), let '(h, r) := store_build acc.1 v in (h, <[k := r]> acc.2)).
    assert (∃ Fs : string → gset loc, let '(h1, rs) := map_fold f (h, ∅) m in grown h h1 Fs ∧ dom rs = dom m ∧ (∀ k, m !! k = None → Fs k = ∅)
      ∧ (∀ k r v, rs !! k = Some r → m !! k = Some v → sep h1 (Fs k) r v)) as (Fs & HA).
    { revert IH. apply (map_fold_weak_ind (λ acc m, (∀ k v, m !! k = Some v → ∀ h, let '(h', r) := store_build h v in h ⊆ h' ∧ sep h' (made h h') r v) →
        ∃ Fs : string → gset loc, let '(h1, rs) := acc in grown h h1 Fs ∧ dom rs = dom m ∧ (∀ k, m !! k = None → Fs k = ∅)
          ∧ (∀ k r v, rs !! k = Some r → m !! k = Some v → sep h1 (Fs k) r v))).
      - intros _. exists (λ _, ∅). split_and!; [apply grown_start|by rewrite !dom_empty_L|done|by intros k r v ?%lookup_empty_Some].
      - intros k v m' [h1 rs] Hk IHm Hall. destruct IHm as (Fs & Hg & Hd & Hnone & Hrs).
        { intros k' v' Hv'. apply (Hall k'). rewrite lookup_insert_ne; [done|]. intros ->. congruence. }
        specialize (Hall k v (lookup_insert_eq _ _ _) h1). unfold f. cbn [fst snd]. destruct (store_build h1 v) as [h2 r]. destruct Hall as [Hh2 Hr].
        exists (λ x, if decide (x = k) then made h1 h2 else Fs x). split_and!.
        + apply grown_step; [done|by apply Hnone|done].
        + rewrite !dom_insert_L. congruence.
        + intros x [Hx Hne]%lookup_insert_None. rewrite decide_False by done. by apply Hnone.
        + intros x r' v' Hr' Hv'. destruct (decide (x = k)) as [->|Hne].
          * rewrite lookup_insert_eq in Hr'. rewrite lookup_insert_eq in Hv'. by simplify_eq.
          * rewrite lookup_insert_ne in Hr' by done. rewrite lookup_insert_ne in Hv' by done. eapply grown_old; [done..|by eapply Hrs]. }
    destruct (map_fold f (h, ∅) m) as [h1 rs]. destruct HA as ((Hh & Hsub & Hdis) & Hd & _ & Hrs).
    pose proof (sep_build_map h1 (made h h1) rs m Fs Hd Hsub ltac:(unfold made; set_solver) Hdis Hrs) as Hb.
    destruct (alloc_ref h1 (OMap rs)) as [h' r]. destruct Hb as [Hh' Hr]. split; [by etrans|].
    eapply sep_weaken; [|exact Hr]. pose proof (subseteq_dom _ _ Hh). pose proof (subseteq_dom _ _ Hh'). unfold made. set_solver.
  - cbn [store_build]. set (items := fix items (h : heap) (l : list value) : heap * list ref := match l with [] => (h, []) | v :: l => _ end).
    assert (∃ Fs : nat → gset loc, let '(h1, rs) := items h l in grown h h1 Fs ∧ length rs = length l
      ∧ (∀ k r v, rs !! k = Some r → l !! k = Some v → sep h1 (Fs k) r v)) as (Fs & HA).
    { revert h. induction IH as [|v l Hv _ IHl]; intros h; cbn [items].
      - exists (λ _, ∅). split_and!; [apply grown_start|done|done].
      - specialize (Hv h). destruct (store_build h v) as [h1 r]. destruct Hv as [Hh1 Hr]. destruct (IHl h1) as (Fs & HA). destruct (items h1 l) as [h2 rs].
        destruct HA as ((Hh2 & Hsub & Hdis) & Hlen & Hrs). pose proof (subseteq_dom _ _ Hh1). pose proof (subseteq_dom _ _ Hh2).
        exists (λ i, match i with 0 => made h h1 | S i => Fs i end). split_and!.
        + split_and!; [by etrans| |].
          * intros [|k]; [unfold made; set_solver|]. specialize (Hsub k). unfold made in *. set_solver.
          * intros [|k] [|k'] Hne; [done|specialize (Hsub k')|specialize (Hsub k)|apply Hdis; congruence]; unfold made in *; set_solver.
        + cbn. by rewrite Hlen.
        + intros [|k] r' v' Hr' Hv'; cbn in Hr', Hv'; [|by eapply Hrs]. simplify_eq. eapply sep_frame; [done| |exact Hr].
          intros x Hx. unfold made in Hx. assert (x ∈ dom h1) as [o Ho]%elem_of_dom by set_solver. rewrite Ho. by eapply lookup_weaken. }
    destruct (items h l) as [h1 rs]. destruct HA as ((Hh & Hsub & Hdis) & Hd & Hrs).
    pose proof (sep_build_slice h1 (made h h1) rs l Fs Hd Hsub ltac:(unfold made; set_solver) Hdis Hrs) as Hb.
    destruct (alloc_ref h1 (OSlice rs)) as [h' r]. destruct Hb as [Hh' Hr]. split; [by etrans|].
    eapply sep_weaken; [|exact Hr]. pose proof (subseteq_dom _ _ Hh). pose proof (subseteq_dom _ _ Hh'). unfold made. set_solver.
  - destruct v; try (destruct Hm; done); try (destruct Hs; done); (split; [done|by constructor]).
Qed.

Definition copied (h : heap) (v : value) (res : option (heap * ref)) : Prop :=
  ∃ h' r', res = Some (h', r') ∧ h ⊆ h' ∧ sep h' (made h h') r' v.

(** A new object that is being filling with children of its own. *)
Record filling {K} (h0 : heap) (out : loc) (h : heap) (Fs : K → gset loc) : Prop := {
  fi_old : h0 ⊆ h;
  fi_out : out ∈ dom h ∧ out ∉ dom h0;
  fi_sub : ∀ k, Fs k ⊆ made h0 h ∖ {[out]};
  fi_dis : ∀ k k', k ≠ k' → Fs k ## Fs k';
}.

Lemma filled_start {K} h0 out o : out ∉ dom h0 → filling h0 out (<[out := o]> h0) (λ _ : K, ∅).
Proof. intros Ho. split; [by apply alloc_subseteq|set_solver..]. Qed.

Lemma filled_step {K} `{EqDecision K} h0 out h h1 (Fs : K → gset loc) k o :
  filling h0 out h Fs → Fs k = ∅ → h ⊆ h1 → filling h0 out (<[out := o]> h1) (λ x, if decide (x = k) then made h h1 else Fs x).
Proof.
  intros [Hold [Hin Hout] Hsub Hdis] Hk Hh1. pose proof (subseteq_dom _ _ Hold) as Hd1. pose proof (subseteq_dom _ _ Hh1) as Hd2.
  assert (dom (<[out := o]> h1) = dom h1) as Hd by (rewrite dom_insert_L; set_solver). split.
  - apply map_subseteq_spec. intros l x Hl. rewrite lookup_insert_ne; [|intros ->; apply Hout; by eapply elem_of_dom_2].
    eapply lookup_weaken; [by eapply lookup_weaken|done].
  - rewrite Hd. set_solver.
  - intros x. unfold made in *. rewrite Hd. specialize (Hsub x). clear Hdis Hk. destruct (decide (x = k)); set_solver.
  - intros x y Hxy. unfold made in *. pose proof (Hsub x) as Hx. pose proof (Hsub y) as Hy. specialize (Hdis x y Hxy). clear Hsub Hk.
    destruct (decide (x = k)), (decide (y = k)); first [congruence|set_solver].
Qed.

Lemma filled_old {K} h0 out h h1 (Fs : K → gset loc) k o r v :
  filling h0 out h Fs → h ⊆ h1 → sep h (Fs k) r v → sep (<[out := o]> h1) (Fs k) r v.
Proof.
  intros [_ _ Hsub _] Hh1. apply sep_frame; [done|]. intros l Hl. specialize (Hsub k l Hl). unfold made in Hsub.
  rewrite lookup_insert_ne by set_solver. assert (l ∈ dom h) as [x Hx]%elem_of_dom by set_solver. rewrite Hx. by eapply lookup_weaken.
Qed.

Lemma filled_new {K} h0 out h h1 (Fs : K → gset loc) o r v :
  filling h0 out h Fs → h ⊆ h1 → sep h1 (made h h1) r v → sep (<[out := o]> h1) (made h h1) r v.
Proof.
  intros [_ [Hin _] _ _] Hh1. apply sep_frame; [done|]. intros l Hl. unfold made in Hl. rewrite lookup_insert_ne; [done|set_solver].
Qed.

Section copies.
Context (clone : heap → ref → option (heap * ref)) (h0 : heap) (out : loc).

Lemma clone_entries_sep (es : list (string * ref)) (h : heap) (m : gmap string ref) (vm : gmap string value) (Fs : string → gset loc) :
  (∀ k r v h, (k, r) ∈ es → vm !! k = Some v → h0 ⊆ h → copied h v (clone h r)) →
  (∀ k r, (k, r) ∈ es → is_Some (vm !! k)) → NoDup es.*1 → (∀ k, k ∈ es.*1 → Fs k = ∅) →
  filling h0 out h Fs → h !! out = Some (OMap m) →
  (∀ k r v, m !! k = Some r → vm !! k = Some v → sep h (Fs k) r v) →
  ∃ h' m' Fs', clone_entries clone h out es = Some h' ∧ filling h0 out h' Fs' ∧ h' !! out = Some (OMap m')
    ∧ dom m' = dom m ∪ list_to_set es.*1 ∧ (∀ k r v, m' !! k = Some r → vm !! k = Some v → sep h' (Fs' k) r v).
Proof.
  revert h m Fs. induction es as [|[k r] es IH]; intros h m Fs Hclone Hvm Hnd Hes Hf Ho Hm.
  { exists h, m, Fs. split_and!; [done..| |done]. simpl. by rewrite union_empty_r_L. }
  destruct (Hvm k r) as [v Hv]; [constructor|]. apply NoDup_cons in Hnd as [Hk Hnd].
  destruct (Hclone k r v h) as (h1 & r1 & Hc & Hh & Hr); [constructor|done|by eapply fi_old|].
  assert (h1 !! out = Some (OMap m)) as Ho1 by (by eapply lookup_weaken).
  simpl. rewrite Hc. simpl. unfold write_key at 1. rewrite Ho1.
  destruct (IH (<[out := OMap (<[k := r1]> m)]> h1) (<[k := r1]> m) (λ x, if decide (x = k) then made h h1 else Fs x))
    as (h' & m' & Fs' & He & Hf' & Ho' & Hd' & Hm').
  - intros k' r' v' h2 Hin. apply (Hclone k'). by constructor.
  - intros k' r' Hin. apply (Hvm k' r'). by constructor.
  - done.
  - intros x Hx. rewrite decide_False by (by intros ->). apply Hes. by right.
  - apply filled_step; [done| |done]. apply Hes. by left.
  - apply lookup_insert_eq.
  - intros x r' v' Hr' Hv'. destruct (decide (x = k)) as [->|Hne].
    + rewrite lookup_insert_eq in Hr'. simplify_eq. by eapply filled_new.
    + rewrite lookup_insert_ne in Hr' by done. eapply filled_old; [done..|by eapply Hm].
  - exists h', m', Fs'. split_and!; [done..| |done]. rewrite Hd', dom_insert_L. set_solver.
Qed.

Lemma clone_items_sep (rs1 rs : list ref) (h : heap) (ms : list ref) (vs : list value) (Fs : nat → gset loc) :
  (∀ i r v h, rs !! i = Some r → vs !! (length rs1 + i) = Some v → h0 ⊆ h → copied h v (clone h r)) →
  length (rs1 ++ rs) = length vs → (∀ i, length rs1 ≤ i → Fs i = ∅) →
  filling h0 out h Fs → h !! out = Some (OSlice ms) → length ms = length vs →
  (∀ i r v, i < length rs1 → ms !! i = Some r → vs !! i = Some v → sep h (Fs i) r v) →
  ∃ h' ms' Fs', clone_items clone h out (length rs1) rs = Some h' ∧ filling h0 out h' Fs'
    ∧ h' !! out = Some (OSlice ms') ∧ length ms' = length vs
    ∧ (∀ i r v, ms' !! i = Some r → vs !! i = Some v → sep h' (Fs' i) r v).
Proof.
  revert rs1 h ms Fs. induction rs as [|r rs IH]; intros rs1 h ms Fs Hclone Hlen Hemp Hf Ho Hms Hm.
  { exists h, ms, Fs. split_and!; [done..|]. intros i r v Hi. apply (Hm i r v); [|done].
    apply lookup_lt_Some in Hi. rewrite length_app in Hlen. simpl in Hlen. lia. }
  assert (length rs1 < length vs) as Hlt by (rewrite length_app in Hlen; simpl in Hlen; lia).
  apply lookup_lt_is_Some in Hlt as Hv. destruct Hv as [v Hv].
  destruct (Hclone 0 r v h) as (h1 & r1 & Hc & Hh & Hr); [done|by rewrite Nat.add_0_r|by eapply fi_old|].
  assert (h1 !! out = Some (OSlice ms)) as Ho1 by (by eapply lookup_weaken).
  simpl. rewrite Hc. simpl. unfold write_index at 1. rewrite Ho1.
  replace (S (length rs1)) with (length (rs1 ++ [r])) by (rewrite length_app; simpl; lia).
  apply (IH (rs1 ++ [r]) _ (<[length rs1 := r1]> ms) (λ x, if decide (x = length rs1) then made h h1 else Fs x)).
  - intros i r' v' h2 Hi Hv'. apply (Hclone (S i)); [done|].
    rewrite length_app in Hv'. simpl in Hv'. by replace (length rs1 + S i) with (length rs1 + 1 + i) by lia.
  - by rewrite <-app_assoc.
  - intros i Hi. rewrite length_app in Hi. simpl in Hi. rewrite decide_False by lia. apply Hemp. lia.
  - apply filled_step; [done| |done]. by apply Hemp.
  - apply lookup_insert_eq.
  - by rewrite length_insert.
  - intros i r' v' Hi Hr' Hv'. rewrite length_app in Hi. simpl in Hi. destruct (decide (i = length rs1)) as [->|Hne].
    + rewrite list_lookup_insert_eq in Hr' by lia. simplify_eq. by eapply filled_new.
    + rewrite list_lookup_insert_ne in Hr' by done. eapply filled_old; [done..|]. apply (Hm i); [lia|done..].
Qed.
End copies.

(** A clone shares nothing, with what it was made of or within itself. *)
Lemma clone_sep v P h r fuel : repr P h r v → value_size v ≤ fuel → copied h v (clone_ref fuel h r).
Proof.
  revert P h r fuel. induction v as [v IH] using value_lt_ind. intros P h r fuel Hr Hf.
  assert (∀ x h1 k r', h ⊆ h1 → repr P h r' x → value_size x < value_size v → fuel = S k → copied h1 x (clone_ref k h1 r')) as Hrec.
  { intros x h1 k r' Hh Hx Hsz ->. eapply IH; [done|by eapply repr_subseteq|lia]. }
  inversion Hr as [v' Hv| | |l m vm Hl Hm Hd Hc|l rs vs Hl Hm Hd Hc]; subst.
  - exists h, (RScalar v). split_and!; [by destruct fuel|done|by apply sep_scalar].
  - exists h, (RMap None). split_and!; [by destruct fuel|done|apply sep_nil_map].
  - exists h, (RSlice None). split_and!; [by destruct fuel|done|apply sep_nil_slice].
  - destruct fuel as [|fuel]; [simpl in Hf; lia|]. simpl. rewrite Hm. pose proof (is_fresh (dom h)) as Hn. revert Hn. generalize (fresh (dom h)) as out. intros out Hn.
    destruct (clone_entries_sep (clone_ref fuel) h out (map_to_list m) (<[out := OMap ∅]> h) ∅ vm (λ _, ∅)) as (h' & m' & Fs & He & Hfi & Ho & Hd' & Hm').
    + intros k x w h2 Hk%elem_of_map_to_list Hw Hh. eapply Hrec; [done|by eapply Hc| |done]. by eapply value_size_map.
    + intros k x Hk%elem_of_map_to_list. apply elem_of_dom. rewrite <-Hd. by eapply elem_of_dom_2.
    + apply NoDup_fst_map_to_list.
    + done.
    + by apply filled_start.
    + apply lookup_insert_eq.
    + done.
    + rewrite He. destruct Hfi as [Hold [Hin Hout] Hsub Hdis]. exists h', (RMap (Some out)). split_and!; [done..|].
      apply sep_map with m' Fs; [unfold made; set_solver|done| |done..]. pose proof (dom_alt m) as Hdm. rewrite Hd', <-Hd. set_solver.
  - destruct fuel as [|fuel]; [simpl in Hf; lia|]. simpl. rewrite Hm. pose proof (is_fresh (dom h)) as Hn. revert Hn. generalize (fresh (dom h)) as out. intros out Hn.
    destruct (clone_items_sep (clone_ref fuel) h out [] rs (<[out := OSlice (replicate (length rs) (RScalar VNil))]> h)
      (replicate (length rs) (RScalar VNil)) vs (λ _, ∅)) as (h' & ms' & Fs & He & Hfi & Ho & Hlen & Hm').
    + intros i x w h2 Hi Hw Hh. eapply Hrec; [done|by eapply Hc| |done]. apply value_size_slice. by eapply list_elem_of_lookup_2.
    + done.
    + done.
    + by apply filled_start.
    + apply lookup_insert_eq.
    + by rewrite length_replicate.
    + simpl. lia.
    + simpl in He. rewrite He. destruct Hfi as [Hold [Hin Hout] Hsub Hdis]. exists h', (RSlice (Some out)). split_and!; [done..|].
      apply sep_slice with ms' Fs; [unfold made; set_solver|done..].
Qed.

(** A comparison with enough fuel goes through the tree. *)
Lemma tree_at_repr P h r v : repr P h r v → ∀ fuel, value_size v ≤ fuel → tree_at fuel h r = v.
Proof.
  induction 1 as [v Hv| | |l m vm Hl Hm Hd _ IH|l rs vs Hl Hm Hd _ IH]; intros [|fuel] Hf; try done; try (simpl in Hf; lia).
  - simpl. unfold map_at. rewrite Hm. f_equal. apply map_eq. intros k. rewrite lookup_fmap.
    destruct (m !! k) as [r|] eqn:Hr.
    + assert (k ∈ dom vm) as [v Hv]%elem_of_dom by (rewrite <-Hd; by eapply elem_of_dom_2). rewrite Hv. simpl. f_equal.
      apply (IH k r v Hr Hv). pose proof (value_size_map vm k v Hv). lia.
    + symmetry. apply not_elem_of_dom in Hr. apply not_elem_of_dom. by rewrite <-Hd.
  - simpl. unfold items_at. rewrite Hm. f_equal. apply list_eq. intros i. rewrite list_lookup_fmap.
    destruct (rs !! i) as [r|] eqn:Hr.
    + assert (i < length vs) as [v Hv]%lookup_lt_is_Some by (rewrite <-Hd; by eapply lookup_lt_Some). rewrite Hv. simpl. f_equal.
      apply (IH i r v Hr Hv). pose proof (value_size_slice vs v (list_elem_of_lookup_2 _ _ _ Hv)). lia.
    + symmetry. apply lookup_ge_None. apply lookup_ge_None in Hr. lia.
Qed.

(** ** Navigation *)

(** One step: the same error, or a child with its own objects. *)
Inductive child_at (h : heap) (F : gset loc) : ref → value → string → ref → value → Prop :=
| child_map l m vm Fs tok r w :
    h !! l = Some (OMap m) → l ∈ F → dom m = dom vm → (∀ k, Fs k ⊆ F ∖ {[l]}) → (∀ k k', k ≠ k' → Fs k ## Fs k') →
    (∀ k r v, m !! k = Some r → vm !! k = Some v → sep h (Fs k) r v) → m !! tok = Some r → vm !! tok = Some w →
    child_at h F (RMap (Some l)) (VMap vm) tok r w
| child_slice l rs vs Fs tok i r w :
    h !! l = Some (OSlice rs) → l ∈ F → length rs = length vs → (∀ k, Fs k ⊆ F ∖ {[l]}) → (∀ k k' : nat, k ≠ k' → Fs k ## Fs k') →
    (∀ k r v, rs !! k = Some r → vs !! k = Some v → sep h (Fs k) r v) → arrayIndex tok (length rs) false = Ok i → rs !! i = Some r → vs !! i = Some w →
    child_at h F (RSlice (Some l)) (VSlice vs) tok r w.

Lemma child_getAt h F node v tok r w path : child_at h F node v tok r w →
  getAt v (tok :: path) = getAt w path ∧ store_getAt h node (tok :: path) = store_getAt h r path.
Proof.
  intros [l m vm Fs tok' r' w' Hh _ _ _ _ _ Hr Hw|l rs vs Fs tok' i r' w' Hh _ Hlen _ _ _ Hi Hr Hw]; cbn.
  - unfold map_at. by rewrite Hh, Hr, Hw.
  - unfold items_at. by rewrite Hh, <-Hlen, Hi; cbn; rewrite Hr, Hw.
Qed.

Lemma child_sep h F node v tok r w : child_at h F node v tok r w → ∃ F', F' ⊆ F ∧ sep h F' r w.
Proof.
  intros [l m vm Fs tok' r' w' Hh Hl _ Hsub _ Hc Hr Hw|l rs vs Fs tok' i r' w' Hh Hl Hlen Hsub _ Hc Hi Hr Hw]; eexists; (split; [|by eapply Hc]).
  - specialize (Hsub tok'). set_solver.
  - specialize (Hsub i). set_solver.
Qed.

Lemma step_sep h F node v tok : sep h F node v →
  (∃ e, ∀ path, getAt v (tok :: path) = Err e ∧ store_getAt h node (tok :: path) = Err e) ∨ ∃ r w, child_at h F node v tok r w.
Proof.
  intros Hs. destruct Hs as [F v Hv| | |F l m vm Fs Hl Hm Hd Hsub Hdis Hc|F l rs vs Fs Hl Hm Hd Hsub Hdis Hc].
  - left. exists (ErrCannotIndex tok). intros path. by destruct v.
  - left. by eexists.
  - left. cbn. destruct (arrayIndex tok 0 false) as [i|e] eqn:Hi; [|by exists e]. exfalso. apply arrayIndex_Ok in Hi as [(_ & [=] & _)|(_ & [?|[_ [=]]])]. lia.
  - destruct (vm !! tok) as [w|] eqn:Hw.
    + assert (tok ∈ dom m) as [r Hr]%elem_of_dom by (rewrite Hd; by eapply elem_of_dom_2). right. exists r, w. by eapply child_map.
    + left. exists (ErrSegmentNotFound tok). intros path. cbn. unfold map_at. rewrite Hm, Hw. apply not_elem_of_dom in Hw. rewrite <-Hd in Hw. apply not_elem_of_dom in Hw. by rewrite Hw.
  - destruct (arrayIndex tok (length rs) false) as [i|e] eqn:Hi.
    + assert (i < length rs) as Hlt by (apply arrayIndex_Ok in Hi as [(_ & [=] & _)|(_ & [?|[_ [=]]])]; lia).
      apply lookup_lt_is_Some in Hlt as Hr. destruct Hr as [r Hr]. rewrite Hd in Hlt. apply lookup_lt_is_Some in Hlt as [w Hw]. right. exists r, w. by eapply child_slice.
    + left. exists e. intros path. cbn. unfold items_at. by rewrite Hm, <-Hd, Hi.
Qed.

Lemma getAt_sep h F node v path : sep h F node v →
  match getAt v path with
  | Ok w => ∃ r F', store_getAt h node path = Ok r ∧ F' ⊆ F ∧ sep h F' r w
  | Err e => store_getAt h node path = Err e
  end.
Proof.
  revert F node v. induction path as [|tok path IH]; intros F node v Hs; [by exists node, F|].
  destruct (step_sep h F node v tok Hs) as [(e & He)|(r & w & Hc)].
  - by destruct (He path) as [-> ->].
  - destruct (child_getAt _ _ _ _ _ _ _ path Hc) as [-> ->]. destruct (child_sep _ _ _ _ _ _ _ Hc) as (F' & Hsub & Hw). specialize (IH F' r w Hw).
    destruct (getAt w path); [|done]. destruct IH as (r' & F'' & Hr & Hsub' & Hs'). exists r', F''. split_and!; [done|set_solver|done].
Qed.

Lemma patchNull_sep h F node v : sep h F node v → store_patchNull node = patchNull v.
Proof. intros [F' v' Hv| | | |]; try done. by destruct v'. Qed.

(** ** Edits *)

(** With [keep], what was at the place is a tree of its own afterwards, on the
    objects [W] that the edited tree has no more. *)
Definition detached (keep : bool) (h h' : heap) (W : gset loc) (node : ref) (v : value) (path : list string) : Prop :=
  if keep then ∃ r w, store_getAt h node path = Ok r ∧ getAt v path = Ok w ∧ sep h' W r w else W = ∅.

(** An edit of the tree [v], that may put the objects of [G] in it, does on the
    store what it does on values, and writes to no other object than those of
    the tree. *)
Definition edited (keep : bool) (G : gset loc) (h : heap) (F : gset loc) (node : ref) (v : value) (path : list string)
    (out : heap * pres ref) (r : pres value) : Prop :=
  touches h F out.1
  ∧ match r with
    | Err e => out.2 = Err e
    | Ok v' => ∃ node' W, out.2 = Ok node' ∧ W ⊆ F ∧ sep out.1 ((F ∪ G ∪ made h out.1) ∖ W) node' v' ∧ detached keep h out.1 W node v path
    end.

Definition leaf_ok (keep : bool) (G : gset loc) (h : heap) (edit : store_edit) (pure : leafEdit) : Prop :=
  ∀ F node v tok, F ⊆ dom h → F ## G → sep h F node v → patchNull v = false →
    edited keep G h F node v [tok] (edit h node tok) (pure v tok).

(** The objects of the children when one of them has been edited. *)
Lemma edited_children {K} `{EqDecision K} (Fs : K → gset loc) (k0 : K) (F G N W D : gset loc) (l : loc) :
  l ∈ F → (∀ k, Fs k ⊆ F ∖ {[l]}) → (∀ k k', k ≠ k' → Fs k ## Fs k') → F ⊆ D → F ## G → N ## D → W ⊆ Fs k0 →
  l ∈ (F ∪ G ∪ N) ∖ W
  ∧ (∀ k, (if decide (k = k0) then (Fs k0 ∪ G ∪ N) ∖ W else Fs k) ⊆ (F ∪ G ∪ N) ∖ W ∖ {[l]})
  ∧ (∀ k k', k ≠ k' → (if decide (k = k0) then (Fs k0 ∪ G ∪ N) ∖ W else Fs k) ## (if decide (k' = k0) then (Fs k0 ∪ G ∪ N) ∖ W else Fs k')).
Proof.
  intros Hl Hsub Hdis HD HG HN HW. pose proof (Hsub k0) as H0. assert (∀ k, k ≠ k0 → Fs k ## G ∧ Fs k ## N ∧ Fs k ## W ∧ Fs k ⊆ F ∖ {[l]}) as Hk.
  { intros k Hne. specialize (Hdis k k0 Hne). specialize (Hsub k). clear H0. set_solver. }
  split; [|split].
  - clear Hk Hsub Hdis. set_solver.
  - intros k. destruct (decide (k = k0)) as [->|Hne]; [clear Hk Hsub Hdis; set_solver|]. specialize (Hk k Hne). clear Hsub Hdis H0. set_solver.
  - intros k k' Hne. destruct (decide (k = k0)) as [->|Hne1], (decide (k' = k0)) as [->|Hne2]; [done| | |by apply Hdis].
    + specialize (Hk k' Hne2). specialize (Hdis k' k0 Hne2). clear Hsub. set_solver.
    + specialize (Hk k Hne1). specialize (Hdis k k0 Hne1). clear Hsub. set_solver.
Qed.

(** A child has been edited and its parent, the object [l], written: what each
    tree is then made of. *)
Lemma after_write (h h1 : heap) (F F1 G W : gset loc) (l : loc) (o : obj) :
  touches h F1 h1 → F1 ⊆ F ∖ {[l]} → F ⊆ dom h → l ∈ F → l ∉ G →
  touches h F (<[l := o]> h1) ∧ made h (<[l := o]> h1) = made h h1
  ∧ (∀ X r v, X ⊆ F ∖ {[l]} → X ## F1 → sep h X r v → sep (<[l := o]> h1) X r v)
  ∧ (∀ X r v, X ⊆ F1 ∪ G ∪ made h h1 → sep h1 X r v → sep (<[l := o]> h1) X r v).
Proof.
  intros [Hd Hh] HF1 HF Hl HG. assert (dom (<[l := o]> h1) = dom h1) as Hdom by (rewrite dom_insert_L; set_solver).
  split; [|split; [|split]].
  - split; [by rewrite Hdom|]. intros x Hx HxF. rewrite lookup_insert_ne by (by intros ->). apply Hh; [done|set_solver].
  - unfold made. by rewrite Hdom.
  - intros X r v HX HXF. apply sep_frame; [done|]. intros x Hx. rewrite lookup_insert_ne by set_solver. apply Hh; set_solver.
  - intros X r v HX. apply sep_frame; [done|]. intros x Hx. rewrite lookup_insert_ne; [done|]. unfold made in HX. set_solver.
Qed.

Lemma edited_Err keep G h F node v path e : edited keep G h F node v path (h, Err e) (Err e).
Proof. split; [apply touches_refl|done]. Qed.

Lemma edited_child keep G h F F1 node v tok r w rest h1 h2 node' v' W :
  child_at h F node v tok r w → touches h F h2 → made h h2 = made h h1 → W ⊆ F1 → F1 ⊆ F →
  detached keep h h1 W r w rest → (∀ r v, sep h1 W r v → sep h2 W r v) →
  sep h2 ((F ∪ G ∪ made h h1) ∖ W) node' v' →
  edited keep G h F node v (tok :: rest) (h2, Ok node') (Ok v').
Proof.
  intros Hc Ht Hm HW HF1 Hleft Hfr Hs. split; [done|]. exists node', W. cbn [fst snd]. rewrite Hm. split_and!; [done|set_solver|done|].
  unfold detached in *. destruct keep; [|done]. destruct Hleft as (x & y & Hx & Hy & Hxy). exists x, y.
  destruct (child_getAt _ _ _ _ _ _ _ rest Hc) as [-> ->]. split_and!; [done..|by apply Hfr].
Qed.

Lemma editAt_ok keep G h edit pure path F node v :
  leaf_ok keep G h edit pure → path ≠ [] → F ⊆ dom h → G ⊆ dom h → F ## G → sep h F node v →
  edited keep G h F node v path (store_editAt h node path edit) (editAt v path pure).
Proof.
  intros Hleaf Hne HF HG Hdis Hs. revert F node v HF Hdis Hs Hne. induction path as [|tok rest IH]; intros F node v HF Hdis Hs Hne; [done|].
  cbn [store_editAt editAt]. rewrite (patchNull_sep _ _ _ _ Hs). destruct (patchNull v) eqn:Hnull; [apply edited_Err|].
  destruct rest as [|tok2 rest]; [by apply Hleaf|]. set (tail := tok2 :: rest) in *. assert (tail ≠ []) as Htail by done. clearbody tail.
  destruct (step_sep h F node v tok Hs) as [(e & He)|(r & w & Hc)].
  { destruct (He []) as [-> ->]. apply edited_Err. }
  destruct (child_getAt _ _ _ _ _ _ _ [] Hc) as [-> ->]. cbn [getAt store_getAt mbind result_bind].
  inversion Hc as [l m vm Fs tok' r1 w1 Hh Hl Hd Hsub Hsep Hch Hr Hw|l rs vs Fs tok' i r1 w1 Hh Hl Hlen Hsub Hsep Hch Hi Hr Hw]; subst.
  - assert (Fs tok ⊆ F ∖ {[l]}) as HF1 by apply Hsub. assert (Fs tok ⊆ F) as HF1' by set_solver.
    specialize (IH (Fs tok) r w ltac:(set_solver) ltac:(set_solver) ltac:(by eapply Hch) Htail).
    destruct (store_editAt h r tail edit) as [h1 res]. destruct IH as [Ht IH]. cbn [fst snd] in *.
    destruct (editAt w tail pure) as [w'|e]; [|subst res; split; [by eapply touches_weaken|done]].
    destruct IH as (r' & W & -> & HW & Hs' & Hleft). unfold write_key.
    assert (h1 !! l = Some (OMap m)) as -> by (rewrite <-Hh; apply Ht; set_solver).
    destruct (after_write h h1 F (Fs tok) G W l (OMap (<[tok := r']> m)) Ht HF1 HF Hl ltac:(set_solver)) as (Ht2 & Hm2 & Hold & Hnew).
    eapply (edited_child keep G h F (Fs tok) _ _ tok r w tail h1); try done; [intros; apply Hnew; [set_solver|done]|].
    destruct (edited_children Fs tok F G (made h h1) W (dom h) l) as (S1 & S2 & S3); try done; [unfold made; set_solver|].
    eapply sep_map; [exact S1|apply lookup_insert_eq|rewrite !dom_insert_L; congruence|exact S2|exact S3|]. intros k x y Hx Hy. cbv beta.
    destruct (decide (k = tok)) as [->|Hk].
    + rewrite lookup_insert_eq in Hx. rewrite lookup_insert_eq in Hy. simplify_eq. apply Hnew; [set_solver|done].
    + rewrite lookup_insert_ne in Hx by done. rewrite lookup_insert_ne in Hy by done. apply Hold; [apply Hsub|by apply Hsep|by eapply Hch].
  - assert (Fs i ⊆ F ∖ {[l]}) as HF1 by apply Hsub. assert (Fs i ⊆ F) as HF1' by set_solver.
    specialize (IH (Fs i) r w ltac:(set_solver) ltac:(set_solver) ltac:(by eapply Hch) Htail).
    destruct (store_editAt h r tail edit) as [h1 res]. destruct IH as [Ht IH]. cbn [fst snd] in *.
    destruct (editAt w tail pure) as [w'|e]; [|subst res; split; [by eapply touches_weaken|done]].
    destruct IH as (r' & W & -> & HW & Hs' & Hleft). unfold write_index, items_at.
    assert (h1 !! l = Some (OSlice rs)) as -> by (rewrite <-Hh; apply Ht; set_solver). rewrite <-Hlen, Hi. cbn [mbind result_bind].
    destruct (after_write h h1 F (Fs i) G W l (OSlice (<[i := r']> rs)) Ht HF1 HF Hl ltac:(set_solver)) as (Ht2 & Hm2 & Hold & Hnew).
    eapply (edited_child keep G h F (Fs i) _ _ tok r w tail h1); try done; [intros; apply Hnew; [set_solver|done]|].
    destruct (edited_children Fs i F G (made h h1) W (dom h) l) as (S1 & S2 & S3); try done; [unfold made; set_solver|].
    eapply sep_slice; [exact S1|apply lookup_insert_eq|by rewrite !length_insert|exact S2|exact S3|]. intros k x y Hx Hy. cbv beta.
    destruct (decide (k = i)) as [->|Hk].
    + rewrite list_lookup_insert_eq in Hx by (by eapply lookup_lt_Some). rewrite list_lookup_insert_eq in Hy by (by eapply lookup_lt_Some). simplify_eq. apply Hnew; [set_solver|done].
    + rewrite list_lookup_insert_ne in Hx by done. rewrite list_lookup_insert_ne in Hy by done. apply Hold; [apply Hsub|by apply Hsep|by eapply Hch].
Qed.

(** ** The two leaf edits *)

Lemma lookup_Insert {A} (c : list A) i x j : i ≤ length c →
  slices_Insert c i x !! j = if decide (j < i) then c !! j else if decide (j = i) then Some x else c !! (j - 1).
Proof.
  intros Hi. unfold slices_Insert. destruct (decide (j < i)) as [Hlt|Hge].
  - rewrite lookup_app_l by (rewrite length_take; lia). by rewrite lookup_take_lt.
  - rewrite lookup_app_r by (rewrite length_take; lia). rewrite length_take, Nat.min_l by lia. destruct (decide (j = i)) as [->|Hne].
    + by rewrite Nat.sub_diag.
    + replace (j - i) with (S (j - i - 1)) by lia.
      change ((x :: drop i c) !! S (j - i - 1)) with (drop i c !! (j - i - 1)). rewrite lookup_drop. f_equal. lia.
Qed.

Lemma lookup_Delete {A} (c : list A) i j : i < length c → slices_Delete c i !! j = if decide (j < i) then c !! j else c !! S j.
Proof.
  intros Hi. unfold slices_Delete. destruct (decide (j < i)) as [Hlt|Hge].
  - rewrite lookup_app_l by (rewrite length_take; lia). by rewrite lookup_take_lt.
  - rewrite lookup_app_r by (rewrite length_take; lia). rewrite length_take, Nat.min_l by lia. rewrite lookup_drop. f_equal. lia.
Qed.

Lemma length_Delete {A} (c : list A) i : i < length c → length (slices_Delete c i) = length c - 1.
Proof. intros Hi. unfold slices_Delete. rewrite length_app, length_take, length_drop. lia. Qed.

Lemma disjoint_none (X : gset loc) : X ## ∅.
Proof. intros x _ Hx. by apply not_elem_of_empty in Hx. Qed.

Lemma made_disjoint h h' : made h h' ## dom h.
Proof. unfold made. set_solver. Qed.

Lemma after_write_here (h : heap) (F G : gset loc) (l : loc) (o : obj) :
  F ⊆ dom h → l ∈ F → l ∉ G →
  touches h F (<[l := o]> h) ∧ made h (<[l := o]> h) = made h h
  ∧ (∀ X r v, X ⊆ F ∖ {[l]} → sep h X r v → sep (<[l := o]> h) X r v)
  ∧ (∀ X r v, X ⊆ G → sep h X r v → sep (<[l := o]> h) X r v).
Proof.
  intros HF Hl HG. destruct (after_write h h F ∅ G ∅ l o (touches_refl h _) (empty_subseteq _) HF Hl HG) as (Ht & Hm & Hold & Hnew).
  split; [exact Ht|split; [exact Hm|split]].
  - intros X r v HX. apply Hold; [done|apply disjoint_none].
  - intros X r v HX. apply Hnew. etrans; [exact HX|]. apply union_subseteq_l', union_subseteq_r.
Qed.

Lemma touches_alloc h F o h' r : alloc_ref h o = (h', r) → touches h F h'.
Proof. intros Ha. destruct (alloc_ref_spec h o) as (l & Hl & Heq). rewrite Heq in Ha. injection Ha as <- _. by apply touches_new, alloc_subseteq. Qed.

Lemma add_leaf_ok (G : gset loc) h r w : G ⊆ dom h → sep h G r w → leaf_ok false G h (store_addTo r) (addTo w).
Proof.
  intros HG Hw F node v tok HF HFG Hs Hnull.
  destruct Hs as [F v Hv| | |F l m vm Fs Hl Hm Hd Hsub Hdis Hc|F l rs vs Fs Hl Hm Hd Hsub Hdis Hc]; try done.
  - destruct v; try done; apply edited_Err.
  - cbn [store_addTo addTo]. unfold write_key. rewrite Hm.
    destruct (after_write_here h F G l (OMap (<[tok := r]> m)) HF Hl ltac:(set_solver)) as (Ht & Hmade & Hold & Hnew).
    split; [done|]. exists (RMap (Some l)), ∅. cbn [fst snd]. rewrite Hmade. split_and!; [done|set_solver| |done].
    destruct (edited_children Fs tok F G (made h h) ∅ (dom h) l Hl Hsub Hdis HF HFG (made_disjoint h h) (empty_subseteq _)) as (S1 & S2 & S3).
    eapply sep_map; [exact S1|apply lookup_insert_eq|rewrite !dom_insert_L; congruence|exact S2|exact S3|]. intros k x y Hx Hy. cbv beta.
    destruct (decide (k = tok)) as [->|Hk].
    + rewrite lookup_insert_eq in Hx. rewrite lookup_insert_eq in Hy. simplify_eq. eapply sep_weaken; [|by apply (Hnew G)]. set_solver.
    + rewrite lookup_insert_ne in Hx by done. rewrite lookup_insert_ne in Hy by done. apply Hold; [apply Hsub|by eapply Hc].
  - cbn [store_addTo addTo]. unfold items_at. rewrite Hm, <-Hd. destruct (arrayIndex tok (length rs) true) as [i|e] eqn:Hi; [|apply edited_Err].
    assert (i ≤ length rs) as Hle by (apply arrayIndex_Ok in Hi as [(_ & _ & ->)|(_ & [?|[-> _]])]; lia). cbn [mbind result_bind].
    set (Fs' := λ j, if decide (j < i) then Fs j else if decide (j = i) then G else Fs (j - 1)).
    pose proof (sep_build_slice h (F ∪ G) (slices_Insert rs i r) (slices_Insert vs i w) Fs') as Hb.
    destruct (alloc_ref h (OSlice (slices_Insert rs i r))) as [h' x] eqn:Ha. destruct Hb as [_ Hx].
    + rewrite !length_slices_Insert; lia.
    + intros j. unfold Fs'. pose proof (Hsub j). pose proof (Hsub (j - 1)). repeat case_decide; set_solver.
    + set_solver.
    + intros j j' Hne. unfold Fs'. assert (∀ j, Fs j ## G) as HsG by (intros y; specialize (Hsub y); set_solver).
      repeat case_decide; try (symmetry; apply HsG); try apply HsG; try (apply Hdis; lia); lia.
    + intros j y z. unfold Fs'. rewrite !lookup_Insert by lia. repeat case_decide; [apply Hc|by intros [= <-] [= <-]|apply Hc].
    + split; [by eapply touches_alloc|]. exists x, ∅. cbn [fst snd]. split_and!; [done|set_solver| |done]. by rewrite difference_empty_L.
Qed.

Lemma remove_leaf_ok keep h : leaf_ok keep ∅ h store_removeFrom removeFrom.
Proof.
  intros F node v tok HF _ Hs Hnull.
  destruct (step_sep h F node v tok Hs) as [(e & He)|(r & w & Hch)].
  { destruct (He []) as [Hv Hn]. destruct Hs as [F v Hv'| | |F l m vm Fs Hl Hm Hd Hsub Hdis Hc|F l rs vs Fs Hl Hm Hd Hsub Hdis Hc]; try done.
    - destruct v; try done; apply edited_Err.
    - cbn in Hv, Hn. cbn [store_removeFrom removeFrom]. destruct (vm !! tok); [done|]. destruct (map_at h l !! tok); [done|]. apply edited_Err.
    - cbn in Hv, Hn. cbn [store_removeFrom removeFrom]. destruct (arrayIndex tok (length vs) false); [done|].
      destruct (arrayIndex tok (length (items_at h l)) false); [done|]. cbn in Hv, Hn. injection Hv as ->. injection Hn as ->. apply edited_Err. }
  pose proof (child_getAt _ _ _ _ _ _ _ [] Hch) as [Hgv Hgn].
  inversion Hch as [l m vm Fs tok' r1 w1 Hh Hl Hd Hsub Hsep Hc Hr Hw|l rs vs Fs tok' i r1 w1 Hh Hl Hlen Hsub Hsep Hc Hi Hr Hw]; subst.
  - cbn [store_removeFrom removeFrom]. unfold map_at, delete_key. rewrite Hh, Hr, Hw. set (W := if keep then Fs tok else ∅).
    assert (W ⊆ Fs tok) as HW by (unfold W; destruct keep; set_solver). pose proof (Hsub tok) as H0.
    destruct (after_write_here h F ∅ l (OMap (delete tok m)) HF Hl (not_elem_of_empty _)) as (Ht & Hmade & Hold & _).
    split; [done|]. exists (RMap (Some l)), W. cbn [fst snd]. rewrite Hmade. split_and!; [done|clear -HW H0; set_solver| |].
    + apply sep_map with (delete tok m) (λ k, if decide (k = tok) then ∅ else Fs k).
      * clear -HW H0 Hl. set_solver.
      * apply lookup_insert_eq.
      * rewrite !dom_delete_L. congruence.
      * intros k. destruct (decide (k = tok)) as [->|Hk]; [set_solver|]. specialize (Hsub k). specialize (Hsep k tok Hk). clear -Hsub Hsep HW. set_solver.
      * intros k k' Hne. destruct (decide (k = tok)), (decide (k' = tok)); [set_solver..|by apply Hsep].
      * intros k x y Hx%lookup_delete_Some Hy%lookup_delete_Some. rewrite decide_False by (intros ->; tauto). apply Hold; [apply Hsub|].
        by apply (Hc k); [apply Hx|apply Hy].
    + unfold detached, W. destruct keep; [|done]. exists r, w. split_and!; [done..|]. apply Hold; [apply Hsub|by eapply Hc].
  - cbn [store_removeFrom removeFrom]. unfold items_at. rewrite Hh, <-Hlen, Hi. cbn [mbind result_bind].
    apply lookup_lt_Some in Hr as Hlt. set (W := if keep then Fs i else ∅). assert (W ⊆ Fs i) as HW by (unfold W; destruct keep; set_solver). pose proof (Hsub i) as H0.
    set (Fs' := λ j, if decide (j < i) then Fs j else Fs (S j)).
    pose proof (sep_build_slice h (F ∖ W) (slices_Delete rs i) (slices_Delete vs i) Fs') as Hb.
    destruct (alloc_ref h (OSlice (slices_Delete rs i))) as [h' x] eqn:Ha. destruct Hb as [Hhh Hx].
    + rewrite !length_Delete; lia.
    + assert (∀ j, j ≠ i → Fs j ⊆ F ∖ W) as Hj by (intros j Hj; specialize (Hsub j); specialize (Hsep j i Hj); clear -Hsub Hsep HW; set_solver).
      intros j. unfold Fs'. case_decide; apply Hj; lia.
    + set_solver.
    + intros j j' Hne. unfold Fs'. repeat case_decide; apply Hsep; lia.
    + intros j y z. unfold Fs'. rewrite !lookup_Delete by lia. case_decide; apply Hc.
    + split; [by eapply touches_alloc|]. exists x, W. cbn [fst snd]. split_and!; [done|clear -HW H0; set_solver| |].
      * eapply sep_weaken; [|exact Hx]. assert (made h h' ## W) as HmW by (unfold made; clear -HW H0 HF; set_solver). clear -HmW. set_solver.
      * unfold detached, W. destruct keep; [|done]. exists r, w. split_and!; [done..|]. eapply sep_touches; [eapply (touches_new h ∅), Hhh| |set_solver|by eapply Hc].
        clear -H0 HF. set_solver.
Qed.

(** ** Operations *)

(** A step on the store does what it does on values: it writes to objects of the
    tree and new ones only. *)
Definition stored (h : heap) (F : gset loc) (out : heap * pres ref) (r : pres value) : Prop :=
  touches h F out.1
  ∧ match r with
    | Err e => out.2 = Err e
    | Ok v => ∃ root, out.2 = Ok root ∧ sep out.1 (F ∪ made h out.1) root v
    end.

Lemma stored_Err h F h' e : touches h F h' → stored h F (h', Err e) (Err e).
Proof. by split. Qed.

Lemma stored_Ok h F h' root v : touches h F h' → sep h' F root v → stored h F (h', Ok root) (Ok v).
Proof. intros Ht Hs. split; [done|]. exists root. split; [done|]. eapply sep_weaken; [|exact Hs]. apply union_subseteq_l. Qed.

Lemma dom_touches h F h' : touches h F h' → dom h ⊆ dom h'.
Proof. by intros []. Qed.

(** The objects made before a step and those made by it. *)
Lemma made_mono h h1 h2 : dom h ⊆ dom h1 → dom h1 ⊆ dom h2 → made h h1 ⊆ made h h2 ∧ made h1 h2 ⊆ made h h2 ∧ made h h1 ⊆ dom h1.
Proof. unfold made. set_solver. Qed.

(** Adding the tree [w] of the objects [G] to one of others. *)
Lemma store_add_ok h h1 F0 F G root v path r w :
  touches h F0 h1 → F ⊆ dom h1 → G ⊆ dom h1 → F ⊆ F0 ∪ made h h1 → G ⊆ F0 ∪ made h h1 → F ## G → sep h1 F root v → sep h1 G r w →
  stored h F0 (store_editAt h1 root path (store_addTo r)) (editAt v path (addTo w)).
Proof.
  intros Ht HF HG HF0 HG0 Hdis Hs Hw. destruct path as [|tok path].
  { cbn. split; [done|]. exists r. split; [done|]. by eapply sep_weaken. }
  destruct (editAt_ok false G h1 _ _ (tok :: path) F root v (add_leaf_ok G h1 r w HG Hw) ltac:(done) HF HG Hdis Hs) as [Ht2 Hr].
  destruct (store_editAt h1 root (tok :: path) (store_addTo r)) as [h2 res]. cbn [fst snd] in *.
  assert (touches h F0 h2) as Htt by (eapply touches_trans; [exact Ht|]; eapply touches_weaken; [exact HF0|exact Ht2]).
  split; [done|]. destruct (editAt v (tok :: path) (addTo w)) as [v'|e]; [|done]. destruct Hr as (root' & W & -> & _ & Hs' & _).
  exists root'. split; [done|]. eapply sep_weaken; [|exact Hs']. cbn [fst].
  destruct (made_mono h h1 h2 (dom_touches _ _ _ Ht) (dom_touches _ _ _ Ht2)) as (M1 & M2 & _). clear -HF0 HG0 M1 M2. set_solver.
Qed.

Lemma store_remove_ok h F root v path : F ⊆ dom h → sep h F root v → stored h F (store_editAt h root path store_removeFrom) (editAt v path removeFrom).
Proof.
  intros HF Hs. destruct path as [|tok path]; [split; [apply touches_refl|]; cbn; exists (RScalar VNil); split; [done|by apply sep_scalar]|].
  destruct (editAt_ok false ∅ h _ _ (tok :: path) F root v (remove_leaf_ok false h) ltac:(done) HF (empty_subseteq _) (disjoint_none _) Hs) as [Ht Hr].
  split; [done|]. destruct (editAt v (tok :: path) removeFrom) as [v'|e]; [|done]. destruct Hr as (root' & W & -> & _ & Hs' & _).
  exists root'. split; [done|]. eapply sep_weaken; [|exact Hs']. clear. set_solver.
Qed.

(** Removal keeps what was removed. *)
Lemma store_take_ok h F root v path : path ≠ [] → F ⊆ dom h → sep h F root v →
  let out := store_editAt h root path store_removeFrom in
  touches h F out.1
  ∧ match editAt v path removeFrom with
    | Err e => out.2 = Err e
    | Ok v' => ∃ root' W r w, out.2 = Ok root' ∧ W ⊆ F ∧ sep out.1 ((F ∪ made h out.1) ∖ W) root' v'
        ∧ store_getAt h root path = Ok r ∧ getAt v path = Ok w ∧ sep out.1 W r w
    end.
Proof.
  intros Hne HF Hs. destruct (editAt_ok true ∅ h _ _ path F root v (remove_leaf_ok true h) Hne HF (empty_subseteq _) (disjoint_none _) Hs) as [Ht Hr].
  split; [done|]. destruct (editAt v path removeFrom) as [v'|e]; [|done]. destruct Hr as (root' & W & Hroot & HW & Hs' & (r & w & Hgr & Hgw & Hw)).
  exists root', W, r, w. split_and!; [done..| |done|done|done]. eapply sep_weaken; [|exact Hs']. clear. set_solver.
Qed.

Lemma getAt_size v path w : getAt v path = Ok w → value_size w ≤ value_size v.
Proof.
  revert v. induction path as [|tok path IH]; intros v; [by intros [= ->]|]. cbn [getAt].
  assert (∀ l, as_slice v = Some l → (i ← arrayIndex tok (length l) false; getAt (default VNil (l !! i)) path) = Ok w → ∃ x, x ∈ l ∧ getAt x path = Ok w) as Hsl.
  { intros l _ (i & Hi & Hw)%bind_Ok. apply arrayIndex_Ok in Hi as [(_ & [=] & _)|(_ & [Hlt|[_ [=]]])]. apply lookup_lt_is_Some in Hlt as [x Hx].
    rewrite Hx in Hw. exists x. split; [by eapply list_elem_of_lookup_2|done]. }
  destruct v as [| | | | | |m| |l| |]; try done.
  - destruct (m !! tok) as [x|] eqn:Hx; [|done]. intros Hw%IH. pose proof (value_size_map m tok x Hx). lia.
  - intros Hw. destruct (Hsl l eq_refl Hw) as (x & Hin & Hxw%IH). pose proof (value_size_slice l x Hin). lia.
  - intros Hw. destruct (Hsl [] eq_refl Hw) as (x & Hin & _). by apply not_elem_of_nil in Hin.
Qed.

Lemma sep_grow h h1 (F : gset loc) r v : h ⊆ h1 → F ⊆ dom h → sep h F r v → sep h1 F r v.
Proof. intros Hh HF. apply sep_frame; [done|]. intros l [o Ho]%HF%elem_of_dom. rewrite Ho. by eapply lookup_weaken. Qed.

(** A tree in a grown store, and a new one beside it. *)
Lemma beside h h1 (F : gset loc) root v :
  h ⊆ h1 → F ⊆ dom h → sep h F root v →
  touches h F h1 ∧ F ⊆ dom h1 ∧ made h h1 ⊆ dom h1 ∧ F ⊆ F ∪ made h h1 ∧ made h h1 ⊆ F ∪ made h h1 ∧ F ## made h h1 ∧ sep h1 F root v.
Proof.
  intros Hh HF Hs. pose proof (subseteq_dom _ _ Hh) as Hd. split; [by apply touches_new|].
  split; [by etrans|]. unfold made. split; [clear; set_solver|]. split; [apply union_subseteq_l|]. split; [apply union_subseteq_r|].
  split; [clear -HF; set_solver|by eapply sep_grow].
Qed.

Section refinement.
Context `{GoStd}.

Lemma store_replace_ok h F root v path op :
  F ⊆ dom h → sep h F root v →
  stored h F (with_operand h op (λ h r _, store_then (store_editAt h root path store_removeFrom) (λ h root, store_editAt h root path (store_addTo r))))
    (apply_replace v path op).
Proof.
  intros HF Hs. unfold with_operand, apply_replace. destruct (op_value op) as [x|e]; [|apply stored_Err, touches_refl]. cbn [mbind result_bind].
  pose proof (store_build_spec x h) as Hb. destruct (store_build h x) as [h1 r]. destruct Hb as [Hh Hr].
  destruct (beside h h1 F root v Hh HF Hs) as (Ht & HF1 & HG1 & _ & _ & Hdis & Hs1).
  destruct (store_remove_ok h1 F root v path HF1 Hs1) as [Ht2 Hrem]. destruct (store_editAt h1 root path store_removeFrom) as [h2 res]. cbn [fst snd] in *.
  assert (touches h F h2) as Htt by (eapply touches_trans; [exact Ht|]; eapply touches_weaken; [|exact Ht2]; apply union_subseteq_l).
  destruct (editAt v path removeFrom) as [v2|e]; [|subst res; by apply stored_Err]. destruct Hrem as (root2 & -> & Hs2). cbn [store_then mbind result_bind].
  pose proof (dom_touches _ _ _ Ht2) as Hd2. destruct (made_mono h h1 h2 (dom_touches _ _ _ Ht) Hd2) as (M1 & M2 & _).
  apply (store_add_ok h h2 F (F ∪ made h1 h2) (made h h1)); try done.
  - clear -HF1 Hd2. unfold made. set_solver.
  - clear -HG1 Hd2. set_solver.
  - clear -M2. set_solver.
  - clear -M1. set_solver.
  - clear -Hdis HG1. unfold made in *. set_solver.
  - eapply sep_touches; [exact Ht2|done|by symmetry|done].
Qed.

Lemma store_move_ok h F root v path from r w :
  F ⊆ dom h → sep h F root v → from ≠ [] → store_getAt h root from = Ok r → getAt v from = Ok w →
  stored h F (store_then (store_editAt h root from store_removeFrom) (λ h root, store_editAt h root path (store_addTo r)))
    (root' ← editAt v from removeFrom; editAt root' path (addTo w)).
Proof.
  intros HF Hs Hne Hr Hw. destruct (store_take_ok h F root v from Hne HF Hs) as [Ht Hrem].
  destruct (store_editAt h root from store_removeFrom) as [h2 res]. cbn [fst snd] in *.
  destruct (editAt v from removeFrom) as [v2|e]; [|subst res; by apply stored_Err].
  destruct Hrem as (root2 & W & r' & w' & -> & HW & Hs2 & Hr' & Hw' & HsW). rewrite Hr in Hr'. rewrite Hw in Hw'. injection Hr' as <-. injection Hw' as <-.
  cbn [store_then mbind result_bind]. pose proof (dom_touches _ _ _ Ht) as Hd. apply (store_add_ok h h2 F ((F ∪ made h h2) ∖ W) W); try done.
  - clear -HF Hd. unfold made. set_solver.
  - clear -HF HW Hd. set_solver.
  - clear. set_solver.
  - clear -HW. set_solver.
  - clear. set_solver.
Qed.

Lemma isPrefix_nil path : isPrefix [] path = true.
Proof. done. Qed.

Lemma store_applyOp_ok h F root v op fuel :
  F ⊆ dom h → sep h F root v → value_size v ≤ fuel → ∃ out, store_applyOp fuel h root op = Some out ∧ stored h F out (applyOp v op).
Proof.
  intros HF Hs Hfuel. unfold store_applyOp, applyOp.
  destruct (patchOp_str op "op") as [o|e]; cbn [mbind result_bind]; [|eexists; split; [done|]; apply stored_Err, touches_refl].
  destruct (patchOp_pointer op "path") as [path|e]; cbn [mbind result_bind]; [|eexists; split; [done|]; apply stored_Err, touches_refl].
  set (name := default "" o). clearbody name.
  destruct (String.eqb_spec name "add") as [->|_].
  { eexists. split; [done|]. unfold with_operand, apply_add. destruct (op_value op) as [x|e]; [|apply stored_Err, touches_refl]. cbn [mbind result_bind].
    pose proof (store_build_spec x h) as Hb. destruct (store_build h x) as [h1 r]. destruct Hb as [Hh Hr].
    destruct (beside h h1 F root v Hh HF Hs) as (Ht & HF1 & HG1 & HFF & HGG & Hdis & Hs1). by apply (store_add_ok h h1 F F (made h h1)). }
  destruct (String.eqb_spec name "replace") as [->|_]; [eexists; split; [done|]; by apply store_replace_ok|].
  destruct (String.eqb_spec name "test") as [->|_].
  { eexists. split; [done|]. unfold with_operand, apply_test. destruct (op_value op) as [x|e]; [|apply stored_Err, touches_refl]. cbn [mbind result_bind].
    pose proof (store_build_spec x h) as Hb. destruct (store_build h x) as [h1 operand]. destruct Hb as [Hh _].
    destruct (beside h h1 F root v Hh HF Hs) as (Ht & _ & _ & _ & _ & _ & Hs1). pose proof (getAt_sep h1 F root v path Hs1) as Hg.
    destruct (getAt v path) as [cur|e] eqn:Hcur; [|rewrite Hg; by apply stored_Err]. destruct Hg as (r & F' & -> & _ & Hr). cbn [mbind result_bind].
    rewrite (tree_at_repr _ _ _ _ (sep_repr _ _ _ _ Hr)) by (apply getAt_size in Hcur; lia).
    destruct (patchEqual cur x); [by apply stored_Ok|by apply stored_Err]. }
  destruct (String.eqb_spec name "move") as [->|_].
  { change (String.eqb "move" "move" || String.eqb "move" "copy") with true. cbv iota. unfold apply_move.
    destruct (patchOp_pointer op "from") as [from|e]; cbn [mbind result_bind]; [|eexists; split; [done|]; apply stored_Err, touches_refl].
    pose proof (getAt_sep h F root v from Hs) as Hg. destruct (getAt v from) as [w|e] eqn:Hw; cbn [mbind result_bind]; [|rewrite Hg; eexists; split; [done|]; apply stored_Err, touches_refl].
    destruct Hg as (r & F' & Hr & _). rewrite Hr. change (String.eqb "move" "copy") with false. cbv iota.
    destruct ((length from =? length path) && isPrefix from path); [eexists; split; [done|]; apply stored_Ok; [apply touches_refl|done]|].
    destruct (isPrefix from path) eqn:Hpre; [eexists; split; [done|]; apply stored_Err, touches_refl|].
    eexists. split; [done|]. apply store_move_ok; try done. intros ->. by rewrite isPrefix_nil in Hpre. }
  destruct (String.eqb_spec name "copy") as [->|_].
  { change (false || String.eqb "copy" "copy") with true. cbv iota. unfold apply_copy.
    destruct (patchOp_pointer op "from") as [from|e]; cbn [mbind result_bind]; [|eexists; split; [done|]; apply stored_Err, touches_refl].
    pose proof (getAt_sep h F root v from Hs) as Hg. destruct (getAt v from) as [w|e] eqn:Hw; cbn [mbind result_bind]; [|rewrite Hg; eexists; split; [done|]; apply stored_Err, touches_refl].
    destruct Hg as (r & F' & Hr & _ & HsF'). rewrite Hr. change (String.eqb "copy" "copy") with true. cbv iota.
    destruct (clone_sep w _ h r fuel (sep_repr _ _ _ _ HsF') ltac:(apply getAt_size in Hw; lia)) as (h1 & r1 & -> & Hh & Hr1). cbn.
    eexists. split; [done|]. rewrite CloneValue_id. destruct (beside h h1 F root v Hh HF Hs) as (Ht & HF1 & HG1 & HFF & HGG & Hdis & Hs1).
    by apply (store_add_ok h h1 F F (made h h1)). }
  cbv iota. cbn [orb]. destruct (String.eqb_spec name "remove") as [->|_]; [|eexists; split; [done|]; apply stored_Err, touches_refl].
  eexists. split; [done|]. destruct path as [|tok path]; [apply stored_Err, touches_refl|by apply store_remove_ok].
Qed.

Lemma store_apply_ops_ok ops v : ∃ n, ∀ h F root i fuel, F ⊆ dom h → sep h F root v → n ≤ fuel →
  ∃ out, store_apply_ops fuel h i root ops = Some out ∧ stored h F out (apply_ops i v ops).
Proof.
  revert v. induction ops as [|op ops IH]; intros v.
  { exists 0. intros h F root i fuel HF Hs _. eexists. split; [done|]. apply stored_Ok; [apply touches_refl|done]. }
  assert (∃ n, ∀ v1, applyOp v op = Ok v1 → ∀ h F root i fuel, F ⊆ dom h → sep h F root v1 → n ≤ fuel →
    ∃ out, store_apply_ops fuel h i root ops = Some out ∧ stored h F out (apply_ops i v1 ops)) as [n Hn].
  { destruct (applyOp v op) as [v1|e]; [|by exists 0]. destruct (IH v1) as [n Hn]. exists n. by intros _ [= <-]. }
  exists (value_size v + n). intros h F root i fuel HF Hs Hfuel. cbn [store_apply_ops apply_ops].
  destruct (store_applyOp_ok h F root v op fuel HF Hs ltac:(lia)) as ([h1 r] & -> & Ht & Hr). cbn [mbind option_bind fst snd] in *.
  destruct (applyOp v op) as [v1|e].
  - destruct Hr as (root1 & -> & Hs1). pose proof (dom_touches _ _ _ Ht) as Hd.
    destruct (Hn v1 eq_refl h1 (F ∪ made h h1) root1 (S i) fuel) as ([h2 r2] & -> & Ht2 & Hr2); [clear -HF Hd; unfold made; set_solver|done|lia|].
    eexists. split; [done|]. cbn [fst snd] in *. split; [by eapply touches_trans|]. destruct (apply_ops (S i) v1 ops) as [v2|e]; [|done].
    destruct Hr2 as (root2 & -> & Hs2). exists root2. split; [done|]. eapply sep_weaken; [|exact Hs2]. cbn [fst].
    destruct (made_mono h h1 h2 Hd (dom_touches _ _ _ Ht2)) as (M1 & M2 & _). clear -M1 M2. set_solver.
  - subst r. eexists. split; [done|]. by apply stored_Err.
Qed.
End refinement.

(** ** Properties *)

(** C20: a patch is applied as a whole or not at all, to a copy.  The document may
    share objects within itself and with the rest of the program.  With fuel for
    the nesting of what is copied, [ApplyPatch] terminates, no object that existed
    is written, whether it succeeds or fails, even when operations had already
    been applied; and it gives what the operations on values give.
    - On success that is the document after all operations, made of new objects
      only, so that neither document is seen through the other (with the empty
      text, the document itself).
    - On failure the error carries the position and the name of the first
      operation that fails on the document left by those before it; or the
      operations leave something other than an object at the root; or the text is
      no list of operations. *)
Theorem patch_atomic `{GoStd} `{GoJson} (h : heap) (doc : ref) (d : gomap) (text : string)
    (Hdoc : repr (λ _, True) h doc (VMapOpt d)) :
  ∃ n, ∀ fuel, n ≤ fuel → ∃ h' r, store_ApplyPatch fuel h doc text = Some (h', r)
    ∧ h ⊆ h'
    ∧ match ApplyPatch d text with
      | Ok out => ∃ root, r = Ok root ∧ repr (λ _, True) h' root (VMapOpt out)
          ∧ (text = "" ∧ root = doc
             ∨ repr (λ l, l ∉ dom h) h' root (VMapOpt out)
               ∧ ∃ ops, json_decode_ops text = Some (Some ops) ∧ run_ops (VMapOpt d) ops = Some (VMapOpt out))
      | Err e => r = Err e
          ∧ match e with
            | ErrPatchOp j name e => ∃ ops op root, json_decode_ops text = Some (Some ops) ∧ ops !! j = Some op
                ∧ run_ops (VMapOpt d) (take j ops) = Some root ∧ applyOp root op = Err e
                ∧ name = match patchOp_str op "op" with Ok (Some s) => s | _ => "" end
            | ErrRootNotObject => ∃ ops root, json_decode_ops text = Some (Some ops) ∧ run_ops (VMapOpt d) ops = Some root ∧ as_map root = None
            | ErrPatchNotArray => json_decode_ops text = Some None
            | ErrDecodePatch => json_decode_ops text = None
            | _ => False
            end
      end.
Proof.
  pose proof (ApplyPatch_outcome d text) as Hout. unfold store_ApplyPatch, ApplyPatch in *. destruct (String.eqb_spec text "") as [He|He].
  { exists 0. intros fuel _. exists h, (Ok doc). split_and!; [done..|]. exists doc. split_and!; [done..|by left]. }
  destruct (json_decode_ops text) as [[ops|]|].
  2,3: exists 0; intros fuel _; eexists _, _; split_and!; done.
  specialize (Hout ops He eq_refl).
  destruct (store_apply_ops_ok ops (VMapOpt d)) as [n Hn]. exists (value_size (VMapOpt d) + n). intros fuel Hfuel.
  destruct (clone_sep _ _ h doc fuel Hdoc ltac:(lia)) as (h1 & root1 & -> & Hh & Hs). cbn [mbind option_bind].
  destruct (Hn h1 (made h h1) root1 0 fuel) as ([h2 r] & -> & Ht & Hr); [unfold made; clear; set_solver|done|lia|]. cbn [mbind option_bind fst snd] in *.
  eexists _, _. split; [done|]. assert (h ⊆ h2) as Hh2.
  { apply touches_subseteq. eapply touches_trans; [by apply touches_new|]. eapply touches_weaken; [|exact Ht]. apply union_subseteq_r. }
  split; [done|]. unfold apply_decoded in *. rewrite DeepClone_id in *. destruct (apply_ops 0 (VMapOpt d) ops) as [v|e]; cbn [mbind result_bind] in *.
  2:{ subst r. split; [done|]. destruct e; try done.
    - destruct Hout as (root & Hx). by exists ops, root.
    - destruct Hout as (op & root & Hx). by exists ops, op, root. }
  destruct Hr as (root & -> & Hs2). apply sep_repr in Hs2.
  assert (∀ out, as_map v = Some out → repr (λ l, l ∉ dom h) h2 root (VMapOpt out) ∧ ∃ l, root = RMap l) as Hmap.
  { intros out Hm. assert (v = VMapOpt out) as -> by (destruct v; try done; by injection Hm as <-). split.
    - eapply repr_mono; [|exact Hs2]. intros l o Hl Ho. split; [|done]. pose proof (dom_touches _ _ _ Ht). pose proof (subseteq_dom _ _ Hh).
      unfold made in Hl. clear Hs Hs2 Hh Hh2. set_solver.
    - destruct out; inversion Hs2; subst; eauto; done. }
  destruct (as_map v) as [out|] eqn:Hm.
  - destruct (Hmap out eq_refl) as [Hrep [l ->]]. exists (RMap l). split; [done|]. split; [by eapply repr_mono; [|exact Hrep]|]. right. split; [done|]. by exists ops.
  - split; [|destruct Hout as (x & Hx); by exists ops, x]. destruct root as [x|l|l]; [done| |done]. inversion Hs2; subst; done.
Qed.

(** The document of [ex_heap], whose two members are one slice. *)
Lemma ex_heap_repr : repr (λ _, True) ex_heap (RMap (Some 1%positive)) ex_tree.
Proof.
  apply repr_map with {["a" := RSlice (Some 2%positive); "b" := RSlice (Some 2%positive)]}; [done|reflexivity|by vm_compute|].
  intros k r v Hk Hv. apply lookup_insert_Some in Hk as [[<- <-]|[_ [<- <-]%lookup_singleton_Some]]; vm_compute in Hv; simplify_eq; apply ex_heap_slice.
Qed.

Definition patch_text (ops : list patchOp) : GoJson := {| json_decode_ops _ := Some (Some ops); json_decode_paths _ := None |}.

Definition set_first : patchOp := {["op" := VString "replace"; "path" := VString "/a/0"; "value" := VString "z"]}.
Definition remove_none : patchOp := {["op" := VString "remove"; "path" := VString "/none"]}.

(** The second operation fails after the first one was applied. *)
Lemma patch_atomic_witness :
  ∃ n, ∀ fuel, n ≤ fuel → ∃ h' e, @store_ApplyPatch example_std (patch_text [set_first; remove_none]) fuel ex_heap (RMap (Some 1%positive)) "p" = Some (h', Err e)
    ∧ ex_heap ⊆ h' ∧ e = ErrPatchOp 1 "remove" (ErrSegmentNotFound "none").
Proof.
  destruct (@patch_atomic example_std (patch_text [set_first; remove_none]) ex_heap (RMap (Some 1%positive))
    (Some {["a" := VSlice [VBool true]; "b" := VSlice [VBool true]]}) "p" ex_heap_repr) as [n Hn].
  exists n. intros fuel Hfuel. destruct (Hn fuel Hfuel) as (h' & r & Hr & Hh & Hout). exists h', (ErrPatchOp 1 "remove" (ErrSegmentNotFound "none")).
  assert (@ApplyPatch example_std (patch_text [set_first; remove_none]) (Some {["a" := VSlice [VBool true]; "b" := VSlice [VBool true]]}) "p"
    = Err (ErrPatchOp 1 "remove" (ErrSegmentNotFound "none"))) as Hp by (vm_compute; reflexivity).
  rewrite Hp in Hout. destruct Hout as [He _]. rewrite He in Hr. split_and!; [exact Hr|exact Hh|reflexivity].
Defined.

(** The shared slice is edited in the copy of one member only, and copied values
    are edited apart. *)
Example copies_are_apart :
  let copy : patchOp := {["op" := VString "copy"; "from" := VString "/a"; "path" := VString "/c"]} in
  (λ out : heap * pres ref, (tree_at 9 out.1 (RMap (Some 1%positive)), tree_at 9 out.1 <$> out.2)) <$>
    @store_ApplyPatch example_std (patch_text [copy; set_first]) 9 ex_heap (RMap (Some 1%positive)) "p"
  = Some (ex_tree, Ok (VMap {["a" := VSlice [VString "z"]; "b" := VSlice [VBool true]; "c" := VSlice [VBool true]]})).
Proof. vm_compute. reflexivity. Qed.
