(* ===== verification/ProfileExpr.v ===== *)
(** * Profile expressions (internal/scan/profile_expr.go)

    A recursive-descent parser for [&], [|], [!] and parentheses over profile
    names.  The parser's state is the text left ([p.src[p.pos:]]); the fuel of
    the mutual recursion is proved sufficient for every input. *)
From S2P Require Import Prelude GoStrings.
From Stdlib Require Import Ascii.
Open Scope nat_scope.

Notation ProfileSet := (gset string).

(** [NewProfileSet]. *)
Definition NewProfileSet (active : list string) : ProfileSet :=
  foldl (λ s a, let a := TrimSpace a in if String.eqb a "" then s else {[a]} ∪ s) ∅ active.

Definition Has (s : ProfileSet) (name : string) : bool := bool_decide (name ∈ s).

Notation evalFn := (ProfileSet → bool).

(** The position of an error is given by the text left there. *)
Inductive expr_error :=
| ErrUnexpectedEnd
| ErrMissingParen (rest : string)
| ErrExpectedIdent (rest : string)
| ErrTrailing (rest : string)
| OutOfFuel.

#[export] Instance expr_error_eq_dec : EqDecision expr_error.
Proof. solve_decision. Defined.

Notation parsed := (result expr_error (evalFn * string)).

(** [unicode.IsSpace(rune(c))] for a byte. *)
Definition isSpaceByte (c : ascii) : bool :=
  let n := nat_of_ascii c in
  ((9 <=? n) && (n <=? 13)) || (n =? 32) || (n =? 133) || (n =? 160).

(** [peek]: the text after the spaces, and its first byte (0 at the end). *)
Fixpoint skip_spaces (s : string) : string :=
  match s with
  | String c s' => if isSpaceByte c then skip_spaces s' else s
  | "" => ""
  end.

Definition peek (s : string) : ascii := match s with String c _ => c | "" => "000"%char end.
Definition advance (s : string) : string := match s with String _ s' => s' | "" => "" end.

Definition isIdentChar (c : ascii) : bool :=
  Ascii.eqb c "_" || Ascii.eqb c "-" || Ascii.eqb c "." || is_lower c || is_upper c || is_digit c.

(** The identifier at the front, and the text after it. *)
Fixpoint span_ident (s : string) : string * string :=
  match s with
  | String c s' =>
      if isIdentChar c then let '(a, b) := span_ident s' in (String c a, b) else ("", s)
  | "" => ("", "")
  end.

Definition parseIdent (s : string) : result expr_error (string * string) :=
  let '(id, rest) := span_ident s in
  if String.eqb id "" then Err (ErrExpectedIdent s) else Ok (id, rest).

Fixpoint parseOr (fuel : nat) (s : string) : parsed :=
  match fuel with
  | O => Err OutOfFuel
  | S fuel => '(lhs, s) ← parseAnd fuel s; or_loop fuel lhs s
  end
with or_loop (fuel : nat) (lhs : evalFn) (s : string) : parsed :=
  match fuel with
  | O => Err OutOfFuel
  | S fuel =>
      let s := skip_spaces s in
      if Ascii.eqb (peek s) "|" then
        '(rhs, s) ← parseAnd fuel (advance s);
        or_loop fuel (λ x, lhs x || rhs x) s
      else Ok (lhs, s)
  end
with parseAnd (fuel : nat) (s : string) : parsed :=
  match fuel with
  | O => Err OutOfFuel
  | S fuel => '(lhs, s) ← parseNot fuel s; and_loop fuel lhs s
  end
with and_loop (fuel : nat) (lhs : evalFn) (s : string) : parsed :=
  match fuel with
  | O => Err OutOfFuel
  | S fuel =>
      let s := skip_spaces s in
      if Ascii.eqb (peek s) "&" then
        '(rhs, s) ← parseNot fuel (advance s);
        and_loop fuel (λ x, lhs x && rhs x) s
      else Ok (lhs, s)
  end
with parseNot (fuel : nat) (s : string) : parsed :=
  match fuel with
  | O => Err OutOfFuel
  | S fuel =>
      let s := skip_spaces s in
      if Ascii.eqb (peek s) "!" then
        '(inner, s) ← parseNot fuel (advance s);
        Ok (λ x, negb (inner x), s)
      else parseAtom fuel s
  end
with parseAtom (fuel : nat) (s : string) : parsed :=
  match fuel with
  | O => Err OutOfFuel
  | S fuel =>
      let s := skip_spaces s in
      let c := peek s in
      if Ascii.eqb c "000" then Err ErrUnexpectedEnd
      else if Ascii.eqb c "(" then
        '(inner, s) ← parseOr fuel (advance s);
        let s := skip_spaces s in
        if Ascii.eqb (peek s) ")" then Ok (inner, advance s) else Err (ErrMissingParen s)
      else
        '(id, s) ← parseIdent s;
        Ok (λ x, Has x id, s)
  end.

Definition expr_fuel (s : string) : nat := 6 * String.length s + 5.

Definition Compile (expr : string) : result expr_error evalFn :=
  let expr := TrimSpace expr in
  if String.eqb expr "" then Ok (λ _, true)
  else
    '(v, rest) ← parseOr (expr_fuel expr) expr;
    if String.eqb rest "" then Ok v else Err (ErrTrailing rest).

Definition Eval (expr : string) (active : ProfileSet) : result expr_error bool :=
  fn ← Compile expr; Ok (fn active).

(** ** Termination *)

Lemma skip_spaces_length s : String.length (skip_spaces s) ≤ String.length s.
Proof. induction s as [|c s IH]; simpl; [lia|]. destruct (isSpaceByte c); simpl; lia. Qed.

Lemma peek_advance s c : peek s = c → c ≠ "000"%char → String.length (advance s) < String.length s.
Proof. destruct s; simpl; [by intros <-|]. lia. Qed.

Lemma span_ident_length s : String.length (span_ident s).1 + String.length (span_ident s).2 = String.length s.
Proof.
  induction s as [|c s IH]; simpl; [done|]. destruct (isIdentChar c); [|done].
  destruct (span_ident s); simpl in *. lia.
Qed.

(** A parse that stops: not for want of fuel, and having read forward. *)
Definition good (n : nat) (r : parsed) : Prop :=
  match r with
  | Ok (_, s) => String.length s ≤ n
  | Err e => e ≠ OutOfFuel
  end.

Lemma good_bind n m (r : parsed) k :
  good m r → (∀ v s, String.length s ≤ m → good n (k (v, s))) → good n (r ≫= k).
Proof. destruct r as [[v s]|e]; simpl; auto. Qed.

Lemma good_le n m r : n ≤ m → good n r → good m r.
Proof. destruct r as [[v s]|e]; simpl; [lia|done]. Qed.

Ltac peeked H :=
  apply Ascii.eqb_eq in H; apply peek_advance in H; [|done].

Lemma parse_good fuel :
  (∀ s, 6 * String.length s + 5 ≤ fuel → good (String.length s) (parseOr fuel s))
  ∧ (∀ l s, 6 * String.length s + 4 ≤ fuel → good (String.length s) (or_loop fuel l s))
  ∧ (∀ s, 6 * String.length s + 4 ≤ fuel → good (String.length s) (parseAnd fuel s))
  ∧ (∀ l s, 6 * String.length s + 3 ≤ fuel → good (String.length s) (and_loop fuel l s))
  ∧ (∀ s, 6 * String.length s + 2 ≤ fuel → good (String.length s) (parseNot fuel s))
  ∧ (∀ s, 6 * String.length s + 1 ≤ fuel → good (String.length s) (parseAtom fuel s)).
Proof.
  induction fuel as [|fuel (IHor & IHol & IHand & IHal & IHnot & IHatom)]; [split_and!; intros; lia|].
  assert (∀ s, String.length (skip_spaces s) ≤ String.length s) as Hsk by apply skip_spaces_length.
  split_and!; intros; simpl.
  - eapply good_bind; [apply IHand; lia|]. intros v s' Hs. eapply good_le; [exact Hs|]. apply IHol. lia.
  - specialize (Hsk s). destruct (Ascii.eqb (peek (skip_spaces s)) "|") eqn:Hp; [|done]. peeked Hp.
    eapply good_bind; [apply IHand; lia|]. intros v s' Hs. simpl. eapply good_le; [|apply IHol]; lia.
  - eapply good_bind; [apply IHnot; lia|]. intros v s' Hs. eapply good_le; [exact Hs|]. apply IHal. lia.
  - specialize (Hsk s). destruct (Ascii.eqb (peek (skip_spaces s)) "&") eqn:Hp; [|done]. peeked Hp.
    eapply good_bind; [apply IHnot; lia|]. intros v s' Hs. simpl. eapply good_le; [|apply IHal]; lia.
  - specialize (Hsk s). destruct (Ascii.eqb (peek (skip_spaces s)) "!") eqn:Hp.
    + peeked Hp. eapply good_bind; [apply IHnot; lia|]. intros v s' Hs. simpl. lia.
    + eapply good_le; [exact Hsk|]. apply IHatom. lia.
  - specialize (Hsk s). destruct (Ascii.eqb (peek (skip_spaces s)) "000"); [done|].
    destruct (Ascii.eqb (peek (skip_spaces s)) "(") eqn:Hp.
    + peeked Hp. eapply good_bind; [apply IHor; lia|]. intros v s' Hs. cbn beta iota.
      destruct (Ascii.eqb (peek (skip_spaces s')) ")") eqn:Hq; [|done]. peeked Hq.
      pose proof (skip_spaces_length s'). simpl. lia.
    + unfold parseIdent. pose proof (span_ident_length (skip_spaces s)) as Hl.
      destruct (span_ident (skip_spaces s)) as [id rest]. simpl in Hl.
      destruct (String.eqb id ""); simpl; [done|]. lia.
Qed.

(** ** Fuel does not change a result *)

Definition extends (r r' : parsed) : Prop := r = Err OutOfFuel ∨ r = r'.

Lemma extends_bind r r' (k k' : evalFn * string → parsed) :
  extends r r' → (∀ x, extends (k x) (k' x)) → extends (r ≫= k) (r' ≫= k').
Proof.
  intros [->| <-] Hk; [by left|]. destruct r as [x|e]; simpl; [apply Hk|by right].
Qed.

Lemma parse_extends fuel fuel' :
  fuel ≤ fuel' →
  (∀ s, extends (parseOr fuel s) (parseOr fuel' s))
  ∧ (∀ l s, extends (or_loop fuel l s) (or_loop fuel' l s))
  ∧ (∀ s, extends (parseAnd fuel s) (parseAnd fuel' s))
  ∧ (∀ l s, extends (and_loop fuel l s) (and_loop fuel' l s))
  ∧ (∀ s, extends (parseNot fuel s) (parseNot fuel' s))
  ∧ (∀ s, extends (parseAtom fuel s) (parseAtom fuel' s)).
Proof.
  revert fuel'. induction fuel as [|fuel IH]; intros fuel' Hf; [split_and!; intros; by left|].
  destruct fuel' as [|fuel']; [lia|].
  destruct (IH fuel' ltac:(lia)) as (IHor & IHol & IHand & IHal & IHnot & IHatom).
  split_and!; intros; simpl.
  - apply extends_bind; [apply IHand|]. intros [v s']. apply IHol.
  - destruct (Ascii.eqb _ _); [|by right]. apply extends_bind; [apply IHand|]. intros [v s']. apply IHol.
  - apply extends_bind; [apply IHnot|]. intros [v s']. apply IHal.
  - destruct (Ascii.eqb _ _); [|by right]. apply extends_bind; [apply IHnot|]. intros [v s']. apply IHal.
  - destruct (Ascii.eqb _ _); [|apply IHatom]. apply extends_bind; [apply IHnot|]. intros [v s']. by right.
  - destruct (Ascii.eqb _ _); [by right|]. destruct (Ascii.eqb _ _); [|by right].
    apply extends_bind; [apply IHor|]. intros [v s']. by right.
Qed.

(** ** The grammar: what the text of an expression means *)

Inductive expr :=
| EAtom (id : string)
| ENot (e : expr)
| EAnd (a b : expr)
| EOr (a b : expr).

Fixpoint den (e : expr) : evalFn :=
  match e with
  | EAtom id => λ x, Has x id
  | ENot e => λ x, negb (den e x)
  | EAnd a b => λ x, den a x && den b x
  | EOr a b => λ x, den a x || den b x
  end.

Definition paren (b : bool) (s : string) : string := if b then "(" +:+ s +:+ ")" else s.

(** Printing with the parentheses that precedence requires: [!] binds tighter
    than [&], [&] tighter than [|], and both operators associate to the left.
    The level is 0 in a disjunct, 1 in a conjunct and 2 under a negation. *)
Fixpoint print (p : nat) (e : expr) : string :=
  match e with
  | EAtom id => id
  | ENot e => "!" +:+ print 2 e
  | EAnd a b => paren (1 <? p) (print 1 a +:+ " & " +:+ print 2 b)
  | EOr a b => paren (0 <? p) (print 0 a +:+ " | " +:+ print 1 b)
  end.

Definition ident (id : string) : bool := negb (String.eqb id "") && str_forallb isIdentChar id.

Fixpoint expr_wf (e : expr) : bool :=
  match e with
  | EAtom id => ident id
  | ENot e => expr_wf e
  | EAnd a b | EOr a b => expr_wf a && expr_wf b
  end.

(** The text after an operand does not go on with an identifier. *)
Definition boundary (s : string) : Prop :=
  match s with String c _ => isIdentChar c = false | "" => True end.

(** ** The parser reads what is printed *)

Lemma ident_char_facts c :
  isIdentChar c = true →
  isSpaceByte c = false ∧ Ascii.eqb c "!" = false ∧ Ascii.eqb c "000" = false ∧ Ascii.eqb c "(" = false.
Proof. destruct c as [[] [] [] [] [] [] [] []]; done. Qed.

Lemma skip_spaces_idem s : skip_spaces (skip_spaces s) = skip_spaces s.
Proof. induction s as [|c s IH]; simpl; [done|]. destruct (isSpaceByte c) eqn:Hc; simpl; [done|]. by rewrite Hc. Qed.

Lemma span_ident_app id rest :
  str_forallb isIdentChar id = true → boundary rest → span_ident (id +:+ rest) = (id, rest).
Proof.
  intros Hid Hb. induction id as [|c id IH]; simpl in *.
  - destruct rest as [|c rest]; [done|]. simpl in *. by rewrite Hb.
  - apply andb_prop in Hid as [Hc Hid]. by rewrite Hc, IH.
Qed.

Section reads.

(** Enough fuel gives the result. *)
Definition ev (p : nat → string → parsed) (s : string) (r : evalFn * string) : Prop :=
  ∃ n, ∀ m, n ≤ m → p m s = Ok r.

Lemma ev_not_space s r : ev parseNot s r → ev parseNot (String " " s) r.
Proof. intros [n Hn]. exists (S n). intros [|m] Hm; [lia|]. rewrite <-(Hn (S m)) by lia. done. Qed.

Lemma ev_and_space s r : ev parseAnd s r → ev parseAnd (String " " s) r.
Proof.
  intros [n Hn]. exists (S (S n)). intros [|[|m]] Hm; [lia..|]. rewrite <-(Hn (S (S m))) by lia. done.
Qed.

Lemma ev_and s v s' r :
  ev parseNot s (v, s') → ev (λ n, and_loop n v) s' r → ev parseAnd s r.
Proof.
  intros [n1 H1] [n2 H2]. exists (S (max n1 n2)). intros [|m] Hm; [lia|]. simpl.
  rewrite H1 by lia. simpl. apply H2. lia.
Qed.

Lemma ev_or s v s' r :
  ev parseAnd s (v, s') → ev (λ n, or_loop n v) s' r → ev parseOr s r.
Proof.
  intros [n1 H1] [n2 H2]. exists (S (max n1 n2)). intros [|m] Hm; [lia|]. simpl.
  rewrite H1 by lia. simpl. apply H2. lia.
Qed.

Lemma ev_and_stop v s : peek (skip_spaces s) ≠ "&"%char → ev (λ n, and_loop n v) s (v, skip_spaces s).
Proof.
  intros Hp. exists 1. intros [|m] Hm; [lia|]. simpl. by rewrite (proj2 (Ascii.eqb_neq _ _) Hp).
Qed.

Lemma ev_or_skip v s r : ev (λ n, or_loop n v) s r → ev (λ n, or_loop n v) (skip_spaces s) r.
Proof.
  intros [n Hn]. exists (S n). intros [|m] Hm; [lia|]. rewrite <-(Hn (S m)) by lia. simpl.
  by rewrite skip_spaces_idem.
Qed.

Lemma ev_and_more v s w s' r :
  ev parseNot s (w, s') → ev (λ n, and_loop n (λ x, v x && w x)) s' r →
  ev (λ n, and_loop n v) (" &" +:+ s) r.
Proof.
  intros [n1 H1] [n2 H2]. exists (S (max n1 n2)). intros [|m] Hm; [lia|]. simpl.
  rewrite H1 by lia. simpl. apply H2. lia.
Qed.

Lemma ev_or_more v s w s' r :
  ev parseAnd s (w, s') → ev (λ n, or_loop n (λ x, v x || w x)) s' r →
  ev (λ n, or_loop n v) (" |" +:+ s) r.
Proof.
  intros [n1 H1] [n2 H2]. exists (S (max n1 n2)). intros [|m] Hm; [lia|]. simpl.
  rewrite H1 by lia. simpl. apply H2. lia.
Qed.

(** The three readings of a printed expression, by level. *)
Definition reads2 (e : expr) : Prop :=
  ∀ rest, boundary rest → ev parseNot (print 2 e +:+ rest) (den e, rest).
Definition reads1 (e : expr) : Prop :=
  ∀ rest r, boundary rest → ev (λ n, and_loop n (den e)) rest r → ev parseAnd (print 1 e +:+ rest) r.
Definition reads0 (e : expr) : Prop :=
  ∀ rest r, boundary rest → peek (skip_spaces rest) ≠ "&"%char →
    ev (λ n, or_loop n (den e)) rest r → ev parseOr (print 0 e +:+ rest) r.

Lemma reads2_1 e : print 1 e = print 2 e → reads2 e → reads1 e.
Proof. intros Heq H2 rest r Hb Hr. rewrite Heq. eapply ev_and; [by apply H2|done]. Qed.

Lemma reads1_0 e : print 0 e = print 1 e → reads1 e → reads0 e.
Proof.
  intros Heq H1 rest r Hb Hp Hr. rewrite Heq. eapply ev_or; [|by apply ev_or_skip].
  apply H1; [done|]. by apply ev_and_stop.
Qed.

Lemma reads0_2 e : print 2 e = "(" +:+ print 0 e +:+ ")" → reads0 e → reads2 e.
Proof.
  intros Heq H0 rest Hb. rewrite Heq.
  destruct (H0 (")" +:+ rest) (den e, ")" +:+ rest)) as [n Hn]; [done|done| |].
  { exists 1. intros [|m] Hm; [lia|]. done. }
  exists (S (S n)). intros [|[|m]] Hm; [lia..|].
  rewrite !app_str_assoc. simpl. rewrite Hn by lia. done.
Qed.

Lemma reads_atom id : ident id = true → reads2 (EAtom id).
Proof.
  intros Hid rest Hb. exists 2. intros [|[|m]] Hm; [lia..|].
  unfold ident in Hid. apply andb_prop in Hid as [Hne Hall].
  destruct id as [|c id]; [done|]. pose proof Hall as Hc. simpl in Hc. apply andb_prop in Hc as [Hc _].
  apply ident_char_facts in Hc as (H1 & H2 & H3 & H4).
  pose proof (span_ident_app (String c id) rest Hall Hb) as Hspan.
  simpl print. cbn [String.append] in Hspan |- *.
  cbn [parseNot]. cbn [skip_spaces]. rewrite H1. cbn [peek]. rewrite H2.
  cbn [parseAtom]. cbn [skip_spaces]. rewrite H1. cbn [peek]. rewrite H3, H4.
  unfold parseIdent. rewrite Hspan. done.
Qed.

Lemma reads_not e : reads2 e → reads2 (ENot e).
Proof.
  intros H2 rest Hb. destruct (H2 rest Hb) as [n Hn]. exists (S n). intros [|m] Hm; [lia|].
  simpl. rewrite Hn by lia. done.
Qed.

Lemma reads_and a b : reads1 a → reads2 b → reads1 (EAnd a b).
Proof.
  intros Ha Hb rest r Hr Hev. simpl print. unfold paren. cbn [Nat.ltb Nat.leb]. rewrite !app_str_assoc.
  apply Ha; [done|]. change (" & " +:+ ?x) with (" &" +:+ String " " x).
  eapply ev_and_more; [by apply ev_not_space, Hb|exact Hev].
Qed.

Lemma reads_or a b : reads0 a → reads1 b → reads0 (EOr a b).
Proof.
  intros Ha Hb rest r Hr Hp Hev. simpl print. unfold paren. cbn [Nat.ltb Nat.leb]. rewrite !app_str_assoc.
  apply Ha; [done|done|]. change (" | " +:+ ?x) with (" |" +:+ String " " x).
  eapply ev_or_more; [|by apply ev_or_skip].
  apply ev_and_space, Hb; [done|]. by apply ev_and_stop.
Qed.

Lemma reads_all e : expr_wf e = true → reads2 e ∧ reads1 e ∧ reads0 e.
Proof.
  induction e as [id|e IH|a IHa b IHb|a IHa b IHb]; simpl expr_wf.
  - intros Hid%reads_atom. assert (reads1 (EAtom id)) by by apply reads2_1.
    split_and!; [done..|]. by apply reads1_0.
  - intros (H2 & _)%IH. apply reads_not in H2. assert (reads1 (ENot e)) by by apply reads2_1.
    split_and!; [done..|]. by apply reads1_0.
  - intros [(_ & Ha & _)%IHa (Hb & _)%IHb]%andb_prop.
    assert (reads1 (EAnd a b)) as H1 by by apply reads_and.
    assert (reads0 (EAnd a b)) as H0 by by apply reads1_0.
    split_and!; [by apply reads0_2|done..].
  - intros [(_ & _ & Ha)%IHa (_ & Hb & _)%IHb]%andb_prop.
    assert (reads0 (EOr a b)) as H0 by by apply reads_or.
    assert (reads2 (EOr a b)) as H2 by by apply reads0_2.
    split_and!; [done|by apply reads2_1|done].
Qed.

End reads.

(** ** Correctness of profile expressions *)

(** The first and the last byte of a printed expression are visible. *)
Definition solid (s : string) : Prop :=
  ∃ c s' d t, s = String c s' ∧ s = t +:+ String d "" ∧ visible c = true ∧ visible d = true.

Lemma ident_visible c : isIdentChar c = true → visible c = true.
Proof. by destruct c as [[] [] [] [] [] [] [] []]. Qed.

Lemma solid_wrap a b m : solid a → solid b → solid (a +:+ m +:+ b).
Proof.
  intros (c & a' & ? & ? & -> & _ & Hc & _) (? & ? & d & t & _ & -> & _ & Hd).
  exists c, (a' +:+ m +:+ t +:+ String d ""), d, (String c a' +:+ m +:+ t).
  split_and!; [done| |done..]. by rewrite !app_str_assoc.
Qed.

Lemma solid_paren s : solid ("(" +:+ s +:+ ")").
Proof. by exists "("%char, (s +:+ ")"), ")"%char, ("(" +:+ s). Qed.

Lemma solid_ident id : ident id = true → solid id.
Proof.
  unfold ident. intros [Hne Hall]%andb_prop. destruct (str_snoc_cases id) as [->|(t & d & Ht)]; [done|].
  destruct id as [|c id]; [done|]. exists c, id, d, t. split_and!; [done..| |].
  - simpl in Hall. apply andb_prop in Hall as [Hc _]. by apply ident_visible.
  - rewrite Ht, str_forallb_app in Hall. apply andb_prop in Hall as [_ Hd]. simpl in Hd.
    rewrite andb_true_r in Hd. by apply ident_visible.
Qed.

Lemma print_solid e p : expr_wf e = true → solid (print p e).
Proof.
  revert p. induction e as [id|e IH|a IHa b IHb|a IHa b IHb]; intros p; simpl.
  - apply solid_ident.
  - intros (c & s & d & t & Hs & Ht & Hc & Hd)%(IH 2).
    exists "!"%char, (print 2 e), d, ("!" +:+ t). split_and!; [done| |done..]. by rewrite Ht.
  - intros [Ha Hb]%andb_prop. assert (solid (print 1 a +:+ " & " +:+ print 2 b)) by auto using solid_wrap.
    unfold paren. destruct (1 <? p); [apply solid_paren|done].
  - intros [Ha Hb]%andb_prop. assert (solid (print 0 a +:+ " | " +:+ print 1 b)) by auto using solid_wrap.
    unfold paren. destruct (0 <? p); [apply solid_paren|done].
Qed.

(** C21: [Compile] terminates: on every text it returns an evaluator or a
    syntax error, the recursion never exceeding its bound. *)
Theorem compile_terminates (text : string) : Compile text ≠ Err OutOfFuel.
Proof.
  unfold Compile. destruct (String.eqb (TrimSpace text) ""); [done|].
  set (s := TrimSpace text). pose proof (proj1 (parse_good (expr_fuel s)) s) as Hg.
  specialize (Hg ltac:(unfold expr_fuel; lia)).
  destruct (parseOr (expr_fuel s) s) as [[v rest]|e]; simpl in *.
  - by destruct (String.eqb rest "").
  - congruence.
Qed.

(** C22: the parser implements the documented grammar. The text printed for an
    expression, with only the parentheses that the precedence of [!] over [&]
    over [|] and left association require, compiles to an evaluator that
    decides exactly that expression on every set of active profiles. *)
Theorem compile_meaning (e : expr) (active : ProfileSet) (Hwf : expr_wf e = true) :
  Eval (print 0 e) active = Ok (den e active).
Proof.
  assert (TrimSpace (print 0 e) = print 0 e ∧ print 0 e ≠ "") as [Ht Hne].
  { destruct (print_solid e 0 Hwf) as (c & s & d & t & Hs & Hs' & Hc & Hd). split; [|by rewrite Hs].
    rewrite Hs. apply (TrimSpace_visible c s d t); [done..|congruence]. }
  destruct (reads_all e Hwf) as (_ & _ & H0).
  destruct (H0 "" (den e, "")) as [n Hn]; [done|done|by exists 1; intros [|m]; [lia|]|].
  rewrite app_str_nil_r in Hn. specialize (Hn (max n (expr_fuel (print 0 e))) ltac:(lia)).
  unfold Eval, Compile. rewrite Ht. rewrite (proj2 (String.eqb_neq _ _) Hne).
  pose proof (proj1 (parse_good (expr_fuel (print 0 e))) (print 0 e) ltac:(unfold expr_fuel; lia)) as Hg.
  destruct (proj1 (parse_extends (expr_fuel (print 0 e)) (max n (expr_fuel (print 0 e))) ltac:(lia)) (print 0 e))
    as [Hoof|Heq].
  - rewrite Hoof in Hg. by destruct Hg.
  - rewrite Heq, Hn. done.
Qed.

Lemma compile_meaning_witness :
  Eval "prod & !(eu | us) | dev" {["prod"; "eu"]} = Ok false.
Proof.
  etransitivity.
  - apply (compile_meaning
      (EOr (EAnd (EAtom "prod") (ENot (EOr (EAtom "eu") (EAtom "us")))) (EAtom "dev")) {["prod"; "eu"]}).
    reflexivity.
  - vm_compute. reflexivity.
Defined.
