(* ===== verification/CodecRegistry.v ===== *)
(** * Codec registry (codec/registry.go) and bounded reads (contracts/body.go)

    The process-wide table of decoders, the table of file extensions, and the
    counter that tells caches a codec was registered. *)
From S2P Require Import Prelude GoStrings.
From Stdlib Require Import Ascii.

(** [D] is the type of decoders ([contracts.Decoder]). *)
Record registry (D : Type) := {
  codecs : gmap string D;
  extMap : gmap string string;
  generation : N;
}.
Arguments codecs {D} _.
Arguments extMap {D} _.
Arguments generation {D} _.

Section registry_ops.
Context `{GoStd} {D : Type}.

Definition ext_key (ext : string) : string := TrimPrefix (ToLower ext) ".".

Definition Register (r : registry D) (name : string) (c : D) : registry D :=
  {| codecs := <[ToLower name := c]> (codecs r); extMap := extMap r; generation := (generation r + 1)%N |}.

Definition RegisterExt (r : registry D) (ext codec : string) : registry D :=
  {| codecs := codecs r; extMap := <[ext_key ext := ToLower codec]> (extMap r); generation := generation r |}.

Definition Lookup (r : registry D) (name : string) : option D := codecs r !! ToLower name.

Definition LookupExt (r : registry D) (ext : string) : string := default "" (extMap r !! ext_key ext).

Definition ByContentType (r : registry D) (ct : string) : option D :=
  let ct := ToLower (TrimSpace ct) in
  let ct := match strings_Cut ct ";" with Some (a, _) => TrimSpace a | None => ct end in
  let ct := match cut_last "/" ct with Some (_, b) => TrimPrefix b "x-" | None => ct end in
  let name := LookupExt r ct in
  if String.eqb name "" then None else Lookup r name.

(** The table after [init]. *)
Definition init_registry (yaml json toml ini : D) : registry D :=
  let r := {| codecs := ∅; extMap := ∅; generation := 0 |} in
  let r := Register r "yaml" yaml in
  let r := Register r "yml" yaml in
  let r := Register r "json" json in
  let r := Register r "toml" toml in
  let r := Register r "ini" ini in
  let r := RegisterExt r "yaml" "yaml" in
  let r := RegisterExt r "yml" "yaml" in
  let r := RegisterExt r "json" "json" in
  let r := RegisterExt r "toml" "toml" in
  RegisterExt r "ini" "ini".

End registry_ops.

(** ** Bounded reads *)

Open Scope Z_scope.

(** A reader: the bytes it holds, and how it ends ([None] for a clean end). *)
Record reader (E : Type) := { r_data : string; r_fail : option E }.
Arguments r_data {E} _.
Arguments r_fail {E} _.

Inductive read_error (E : Type) := ErrTooLarge (limit : Z) | ErrRead (e : E).
Arguments ErrTooLarge {E} limit.
Arguments ErrRead {E} e.

Definition DefaultMaxBodyBytes : Z := Z.shiftl 4 20.
Definition MaxInt64 : Z := 2 ^ 63 - 1.

Definition len64 (s : string) : Z := Z.of_nat (String.length s).

(** [io.ReadAll(io.LimitReader(r, limit))] *)
Definition read_limited {E} (r : reader E) (limit : Z) : result E string :=
  if limit <=? len64 (r_data r) then Ok (str_take (Z.to_nat limit) (r_data r))
  else match r_fail r with Some e => Err e | None => Ok (r_data r) end.

Definition ReadAllMax {E} (r : reader E) (max : Z) : result (read_error E) string :=
  let max := if max <=? 0 then DefaultMaxBodyBytes else max in
  let limit := if max <? MaxInt64 then max + 1 else max in
  b ← map_err ErrRead (read_limited r limit);
  if max <? len64 b then Err (ErrTooLarge max) else Ok b.

(** ** Facts *)

(** Whole content within the limit, an error otherwise. *)
Definition bounded_content {E} (max : Z) (r : reader E) : result (read_error E) string :=
  if max <? len64 (r_data r) then Err (ErrTooLarge max)
  else match r_fail r with Some e => Err (ErrRead e) | None => Ok (r_data r) end.

Lemma ReadAllMax_spec {E} (r : reader E) max :
  0 < max < MaxInt64 → ReadAllMax r max = bounded_content max r.
Proof.
  intros Hm. unfold ReadAllMax, bounded_content, read_limited, len64.
  rewrite (proj2 (Z.leb_gt max 0)), (proj2 (Z.ltb_lt max MaxInt64)) by lia.
  destruct (Z.leb_spec (max + 1) (Z.of_nat (String.length (r_data r)))).
  - rewrite (proj2 (Z.ltb_lt max _)) by lia. cbn [map_err mbind result_bind].
    rewrite length_str_take, (proj2 (Z.ltb_lt max _)) by lia. done.
  - rewrite (proj2 (Z.ltb_ge max _)) by lia. destruct (r_fail r); [done|].
    cbn [map_err mbind result_bind]. by rewrite (proj2 (Z.ltb_ge max _)) by lia.
Qed.
