(* ===== verification/Scan.v ===== *)
(** * Layer discovery (internal/scan: scan.go, axis.go, meta.go)

    [Scan] walks the base directory, the matching profile overlays and the extra
    axes, and yields prioritised layers.  The file system is a record of its
    three operations; [OnDir] callbacks and yielded layers form one trace. *)
From S2P Require Import Prelude GoStrings CodecRegistry ProfileExpr.
From Stdlib Require Import Ascii.
Open Scope Z_scope.

(** ** The file system *)

Inductive fs_error := ErrNotExist | FsError (what : string).

Record DirEntry := { de_name : string; de_isDir : bool }.
Record FileInfo := { fi_regular : bool; fi_size : Z }.

Record FileSystem := {
  fs_ReadDir : string → result fs_error (list DirEntry);
  fs_Stat : string → result fs_error FileInfo;
  fs_Open : string → result fs_error (reader fs_error);
}.

(** ** Data *)

Inductive Kind := KindUnknown | KindMerge | KindPatch.

Record Layer := {
  l_Path : string;
  l_Kind : Kind;
  l_Profile : string;
  l_Priority : Z;
  l_Codec : string;
  l_Bytes : string;
}.

Record AxisOverlay := { ao_Dir : string; ao_Profile : string; ao_Priority : Z }.

Record Options := {
  BaseDir : string;
  OverlayDir : string;
  Profiles : list string;
  GlobalMatch : string;
  PatchSuffixes : list string;
  Strict : bool;
  opt_FS : option FileSystem;
  AxisOverlays : list AxisOverlay;
}.

Inductive scan_error :=
| ErrReadDir (dir : string) (e : fs_error)
| ErrStat (p : string) (e : fs_error)
| ErrNotRegular (p : string)
| ErrReadFile (p : string) (e : read_error fs_error)
| ErrUnknownExtension (name : string)
| ErrTooManyLayers (dir : string) (n : nat)
| ErrTooManyOverlays
| ErrPriorityBand (dir : string)
| ErrGlobalMatch (e : expr_error)
| ErrParseMeta (p : string)
| ErrMatch (p : string) (e : expr_error).

(** [errors.Is(err, fs.ErrNotExist)] on an error of [readRegularFile]. *)
Definition is_not_exist (e : scan_error) : bool :=
  match e with
  | ErrStat _ ErrNotExist | ErrReadFile _ (ErrRead ErrNotExist) => true
  | _ => false
  end.

Definition overlayStride : Z := 100.
Definition BandFileBase : Z := 1000.
Definition BandFileOverlay : Z := 2000.
Definition BandAxis : Z := 3000.
Definition bandFileEnd : Z := 7000.
Definition MaxAxes : Z := (bandFileEnd - BandAxis) / overlayStride.
Definition baseBandWidth : Z := BandFileOverlay - BandFileBase.
Definition MaxFileBytes : Z := DefaultMaxBodyBytes.

(** [Options.defaults]. *)
Definition opt_defaults (o : Options) : Options :=
  {| BaseDir := if String.eqb (BaseDir o) "" then "base" else BaseDir o;
     OverlayDir := if String.eqb (OverlayDir o) "" then "overlays" else OverlayDir o;
     Profiles := Profiles o;
     GlobalMatch := GlobalMatch o;
     PatchSuffixes := match PatchSuffixes o with [] => [".patch.yaml"; ".patch.json"] | l => l end;
     Strict := Strict o;
     opt_FS := opt_FS o;
     AxisOverlays := AxisOverlays o |}.

(** ** Files *)

(** The read of up to [k] bytes that the loop of [readBounded] performs: the
    bytes, the rest of the file, and whether its end was met. *)
Definition read_full {E} (f : reader E) (k : nat) : string * reader E * bool :=
  if (k <=? String.length (r_data f))%nat
  then (str_take k (r_data f), {| r_data := str_drop k (r_data f); r_fail := r_fail f |}, false)
  else (r_data f, {| r_data := ""; r_fail := r_fail f |}, true).

Definition readBounded {E} (f : reader E) (size : Z) : result (read_error E) string :=
  if (size <? 0) || (MaxFileBytes <? size) then ReadAllMax f MaxFileBytes
  else
    let '(data, rest, ended) := read_full f (Z.to_nat (size + 1)) in
    data' ←
      (if ended then match r_fail f with Some e => Err (ErrRead e) | None => Ok data end
       else
         tail ← map_err ErrRead (read_limited rest (MaxFileBytes - len64 data + 1));
         if MaxFileBytes <? len64 tail then Err (ErrTooLarge MaxFileBytes) else Ok (data +:+ tail));
    if MaxFileBytes <? len64 data' then Err (ErrTooLarge MaxFileBytes) else Ok data'.

Section scanning.
Context `{GoStd}.
(** The operating system's files, for a nil [FS]; [codec.LookupExt]; and the
    "match" member [yaml.Unmarshal] finds in an overlay's metadata. *)
Context (os : FileSystem) (lookup_ext : string → string) (yaml_match : string → option string).

Definition pick (fsys : option FileSystem) : FileSystem := default os fsys.
Definition readDir (fsys : option FileSystem) (dir : string) : result fs_error (list DirEntry) :=
  fs_ReadDir (pick fsys) dir.
Definition statFile (fsys : option FileSystem) (p : string) : result fs_error FileInfo :=
  fs_Stat (pick fsys) p.
Definition openFile (fsys : option FileSystem) (p : string) : result fs_error (reader fs_error) :=
  fs_Open (pick fsys) p.

(** [readRegularFile]: [Ok None] for an entry to skip. *)
Definition readRegularFile (fsys : option FileSystem) (p : string) (strict : bool) :
    result scan_error (option string) :=
  match statFile fsys p with
  | Err e => Err (ErrStat p e)
  | Ok info =>
      if negb (fi_regular info) then if strict then Err (ErrNotRegular p) else Ok None
      else match openFile fsys p with
           | Err e => Err (ErrReadFile p (ErrRead e))
           | Ok f =>
               match readBounded f (fi_size info) with
               | Err e => Err (ErrReadFile p e)
               | Ok data => Ok (Some data)
               end
           end
  end.

(** [classify]. *)
Fixpoint match_suffix (lname : string) (suffixes : list string) : option string :=
  match suffixes with
  | [] => None
  | sfx :: rest => if HasSuffix lname sfx then Some sfx else match_suffix lname rest
  end.

Definition classify (name : string) (patchSuffixes : list string) : option (Kind * string) :=
  let lname := ToLower name in
  match match_suffix lname patchSuffixes with
  | Some sfx => Some (KindPatch, lookup_ext (TrimPrefix sfx ".patch"))
  | None =>
      let c := lookup_ext (filepath_Ext lname) in
      if String.eqb c "" then None else Some (KindMerge, c)
  end.

(** ** One directory *)

Definition entry_leb (a b : DirEntry) : bool := str_leb (de_name a) (de_name b).
Definition sort_entries (l : list DirEntry) : list DirEntry := sort_stable entry_leb l.

Definition hidden (name : string) : bool := HasPrefix name "_" || HasPrefix name ".".

(** The loop of [collectDir], [out] being the layers so far. *)
Fixpoint collect_entries (fsys : option FileSystem) (dir profile : string) (base : Z)
    (suffixes : list string) (strict : bool) (out : list Layer) (entries : list DirEntry) :
    result scan_error (list Layer) :=
  match entries with
  | [] => Ok out
  | e :: entries =>
      let continue_ out := collect_entries fsys dir profile base suffixes strict out entries in
      if de_isDir e || hidden (de_name e) then continue_ out
      else
        let full := path_Join [dir; de_name e] in
        match classify (de_name e) suffixes with
        | None => if strict then Err (ErrUnknownExtension (de_name e)) else continue_ out
        | Some (kind, codec) =>
            match readRegularFile fsys full strict with
            | Err err => Err err
            | Ok None => continue_ out
            | Ok (Some data) =>
                continue_ (out ++
                  [{| l_Path := full; l_Kind := kind; l_Profile := profile;
                      l_Priority := base + Z.of_nat (length out); l_Codec := codec; l_Bytes := data |}])
            end
        end
  end.

(** [collectDir]; its [OnDir] call is [scan_dir]. *)
Definition scan_dir (root sub : string) : string := path_Join [root; sub].

Definition collectDir (fsys : option FileSystem) (root sub profile : string) (base : Z) (opt : Options) :
    result scan_error (list Layer) :=
  let dir := scan_dir root sub in
  match readDir fsys dir with
  | Err e =>
      if match e with ErrNotExist => true | _ => false end && (negb (String.eqb profile "") || negb (Strict opt))
      then Ok []
      else Err (ErrReadDir dir e)
  | Ok entries =>
      collect_entries fsys dir profile base (PatchSuffixes opt) (Strict opt) [] (sort_entries entries)
  end.

(** ** Overlays *)

Definition overlayMatches (fsys : option FileSystem) (root sub name : string) (active : ProfileSet) :
    result scan_error bool :=
  let metaPath := path_Join [root; sub; "_meta.yaml"] in
  match readRegularFile fsys metaPath true with
  | Err e => if is_not_exist e then Ok (Has active name) else Err e
  | Ok data =>
      match yaml_match (default "" data) with
      | None => Err (ErrParseMeta metaPath)
      | Some m =>
          if String.eqb (TrimSpace m) "" then Ok (Has active name)
          else map_err (ErrMatch metaPath) (Eval m active)
      end
  end.

(** The global filter for one overlay: an empty expression keeps it. *)
Definition globalMatches (globalExpr : string) (opt : Options) (name : string) : result scan_error bool :=
  if String.eqb globalExpr "" then Ok true
  else map_err ErrGlobalMatch (Eval globalExpr ({[name]} ∪ NewProfileSet (Profiles opt))).

(** The loop of [collectProfileOverlays]: the directories announced so far, the
    layers so far and the next free priority window. *)
Fixpoint overlays_loop (fsys : option FileSystem) (root globalExpr : string) (opt : Options)
    (active : ProfileSet) (dirs : list string) (out : list Layer) (priorityBase : Z)
    (entries : list DirEntry) : list string * result scan_error (list Layer) :=
  match entries with
  | [] => (dirs, Ok out)
  | e :: entries =>
      let next := overlays_loop fsys root globalExpr opt active in
      if negb (de_isDir e) || hidden (de_name e) then next dirs out priorityBase entries
      else
        let sub := path_Join [OverlayDir opt; de_name e] in
        match overlayMatches fsys root sub (de_name e) active with
        | Err err => (dirs, Err err)
        | Ok false => next dirs out priorityBase entries
        | Ok true =>
            match globalMatches globalExpr opt (de_name e) with
            | Err err => (dirs, Err err)
            | Ok false => next dirs out priorityBase entries
            | Ok true =>
                if BandAxis <=? priorityBase then (dirs, Err ErrTooManyOverlays)
                else
                  let dirs := dirs ++ [scan_dir root sub] in
                  match collectDir fsys root sub (de_name e) priorityBase opt with
                  | Err err => (dirs, Err err)
                  | Ok layers =>
                      if overlayStride <? Z.of_nat (length layers)
                      then (dirs, Err (ErrTooManyLayers sub (length layers)))
                      else next dirs (out ++ layers) (priorityBase + overlayStride) entries
                  end
            end
        end
  end.

Definition collectProfileOverlays (fsys : option FileSystem) (root : string) (opt : Options) :
    list string * result scan_error (list Layer) :=
  let dir := scan_dir root (OverlayDir opt) in
  match readDir fsys dir with
  | Err ErrNotExist => ([dir], Ok [])
  | Err e => ([dir], Err (ErrReadDir dir e))
  | Ok entries =>
      let active := NewProfileSet (Profiles opt) in
      if String.eqb (TrimSpace (GlobalMatch opt)) ""
      then overlays_loop fsys root "" opt active [dir] [] BandFileOverlay (sort_entries entries)
      else match Eval (GlobalMatch opt) active with
           | Err e => ([dir], Err (ErrGlobalMatch e))
           | Ok _ =>
               overlays_loop fsys root (GlobalMatch opt) opt active [dir] [] BandFileOverlay (sort_entries entries)
           end
  end.

(** ** The scan *)

(** The calls of [OnDir] and of [yield], in order. *)
Inductive scan_event := OnDir (dir : string) | Yield (l : Layer).

(** The events of a scan nobody stops, and the error it yields last. *)
Notation scan_run := (list scan_event * option scan_error)%type.

Definition yield_all (layers : list Layer) : list scan_event := Yield <$> layers.

Definition axis_leb (a b : AxisOverlay) : bool := ao_Priority a <=? ao_Priority b.

Fixpoint scan_axes (root : string) (opt : Options) (extras : list AxisOverlay) : scan_run :=
  match extras with
  | [] => ([], None)
  | extra :: extras =>
      if (ao_Priority extra <? BandAxis) || (bandFileEnd - overlayStride <? ao_Priority extra)
      then ([], Some (ErrPriorityBand (ao_Dir extra)))
      else
        let ev := OnDir (scan_dir root (ao_Dir extra)) in
        match collectDir (opt_FS opt) root (ao_Dir extra) (ao_Profile extra) (ao_Priority extra) opt with
        | Err err => ([ev], Some err)
        | Ok layers =>
            if overlayStride <? Z.of_nat (length layers)
            then ([ev], Some (ErrTooManyLayers (ao_Dir extra) (length layers)))
            else
              let '(evs, err) := scan_axes root opt extras in
              (ev :: yield_all layers ++ evs, err)
        end
  end.

Definition scan_overlays (root : string) (opt : Options) : scan_run :=
  match Profiles opt with
  | [] => ([], None)
  | _ =>
      let '(dirs, r) := collectProfileOverlays (opt_FS opt) root opt in
      match r with
      | Err err => (OnDir <$> dirs, Some err)
      | Ok layers => ((OnDir <$> dirs) ++ yield_all layers, None)
      end
  end.

(** One stage after another, the second only when the first met no error. *)
Definition then_run (a : scan_run) (b : scan_run) : scan_run :=
  match a.2 with Some err => a | None => (a.1 ++ b.1, b.2) end.

Definition scan_base (root : string) (opt : Options) : scan_run :=
  let ev := OnDir (scan_dir root (BaseDir opt)) in
  match collectDir (opt_FS opt) root (BaseDir opt) "" BandFileBase opt with
  | Err err => ([ev], Some err)
  | Ok layers =>
      if baseBandWidth <? Z.of_nat (length layers)
      then ([ev], Some (ErrTooManyLayers (BaseDir opt) (length layers)))
      else (ev :: yield_all layers, None)
  end.

Definition Scan (root : string) (opt : Options) : scan_run :=
  let opt := opt_defaults opt in
  then_run (scan_base root opt)
    (then_run (scan_overlays root opt) (scan_axes root opt (sort_stable axis_leb (AxisOverlays opt)))).

Definition yielded (evs : list scan_event) : list Layer :=
  omap (λ ev, match ev with Yield l => Some l | OnDir _ => None end) evs.

End scanning.

(** ** Axes *)

Record AxisSpec := { as_Dir : string; as_Env : string; as_Priority : Z; as_FromHostname : bool }.

Inductive axis_cause := HostnameError (e : string) | UnsafeAxisValue (val : string).
Record AxisError := { ax_Axis : string; ax_Err : axis_cause }.

(** The value of one axis: [Ok None] when it is off. *)
Definition axis_value (env : string → option string) (host : result string string) (ax : AxisSpec) :
    result axis_cause (option string) :=
  let from_host :=
    if as_FromHostname ax then
      match host with
      | Err e => Err (HostnameError e)
      | Ok h => Ok (if String.eqb h "" then None else Some h)
      end
    else Ok None in
  if String.eqb (as_Env ax) "" then from_host
  else match env (as_Env ax) with
       | Some v => if String.eqb v "" then Ok None else Ok (Some v)
       | None => from_host
       end.

Definition unsafe_segment (val : string) : bool :=
  String.eqb val "." || String.eqb val ".." || ContainsAny val "/\" || negb (fs_ValidPath val).

Fixpoint axes_loop (env : string → option string) (host : result string string)
    (rank : Z) (specs : list AxisSpec) : list AxisOverlay * list AxisError :=
  match specs with
  | [] => ([], [])
  | ax :: specs =>
      let '(out, errs) := axes_loop env host (rank + 1) specs in
      match axis_value env host ax with
      | Err e => (out, {| ax_Axis := as_Dir ax; ax_Err := e |} :: errs)
      | Ok None => (out, errs)
      | Ok (Some val) =>
          if unsafe_segment val then (out, {| ax_Axis := as_Dir ax; ax_Err := UnsafeAxisValue val |} :: errs)
          else ({| ao_Dir := path_Join [as_Dir ax; val]; ao_Profile := as_Dir ax +:+ ":" +:+ val;
                   ao_Priority := BandAxis + rank * overlayStride |} :: out, errs)
      end
  end.

Definition spec_leb (a b : AxisSpec) : bool := as_Priority a <=? as_Priority b.

Definition ResolveAxes (specs : list AxisSpec) (env : string → option string) (host : result string string) :
    list AxisOverlay * list AxisError :=
  axes_loop env host 0 (sort_stable spec_leb specs).

(** ** Root metadata *)

Record MetaSpec := {
  ms_BaseDir : string;
  ms_OverlayDir : string;
  ms_ProfileEnv : string;
  ms_DefaultProfile : string;
  ms_PatchSuffixes : list string;
  ms_Strict : bool;
  ms_AppendSlices : bool;
  ms_MergeKeys : gmap string string;
}.

(** [MetaFile.ApplyTo]; [None] is a nil receiver. *)
Definition ApplyTo (m : option MetaSpec) (opt : Options) : Options :=
  match m with
  | None => opt
  | Some m =>
      {| BaseDir := if String.eqb (ms_BaseDir m) "" then BaseDir opt else ms_BaseDir m;
         OverlayDir := if String.eqb (ms_OverlayDir m) "" then OverlayDir opt else ms_OverlayDir m;
         Profiles := Profiles opt;
         GlobalMatch := GlobalMatch opt;
         PatchSuffixes := match ms_PatchSuffixes m with [] => PatchSuffixes opt | l => l end;
         Strict := if ms_Strict m then true else Strict opt;
         opt_FS := opt_FS opt;
         AxisOverlays := AxisOverlays opt |}
  end.

(** [LoadMeta]: [None] for an absent file. *)
Definition LoadMeta (os : FileSystem) (fsys : option FileSystem) (root : string) :
    result scan_error (option string) :=
  match readRegularFile os fsys (path_Join [root; "_meta.yaml"]) true with
  | Err e => if is_not_exist e then Ok None else Err e
  | Ok data => Ok (Some (default "" data))
  end.

(** ** Reading a file *)

Lemma readBounded_spec {E} (f : reader E) size : readBounded f size = bounded_content MaxFileBytes f.
Proof.
  unfold readBounded. assert (0 < MaxFileBytes < MaxInt64) as Hmax by (vm_compute; done).
  destruct (Z.ltb_spec size 0); simpl; [by apply ReadAllMax_spec|].
  destruct (Z.ltb_spec MaxFileBytes size); [by apply ReadAllMax_spec|].
  unfold read_full, bounded_content, len64. destruct f as [data fail]. cbn [r_data r_fail].
  destruct (Nat.leb_spec (Z.to_nat (size + 1)) (String.length data)) as [Hle|Hlt].
  - assert (String.length (str_take (Z.to_nat (size + 1)) data) = Z.to_nat (size + 1)) as Hlen
      by (rewrite length_str_take; lia).
    assert (len64 (str_drop (Z.to_nat (size + 1)) data) = len64 data - (size + 1)) as Hrest
      by (unfold len64; rewrite str_drop_length; lia).
    unfold read_limited. cbn [r_data r_fail]. rewrite Hrest, Hlen. unfold len64.
    replace (MaxFileBytes - Z.of_nat (Z.to_nat (size + 1)) + 1) with (MaxFileBytes - size) by lia.
    destruct (Z.leb_spec (MaxFileBytes - size) (Z.of_nat (String.length data) - (size + 1))).
    + rewrite (proj2 (Z.ltb_lt MaxFileBytes (Z.of_nat (String.length data)))) by lia.
      cbn [map_err mbind result_bind]. rewrite length_str_take.
      rewrite (proj2 (Z.ltb_ge MaxFileBytes _)) by lia. cbn [mbind result_bind].
      rewrite length_app_str, Hlen, length_str_take, str_drop_length.
      by rewrite (proj2 (Z.ltb_lt MaxFileBytes _)) by lia.
    + rewrite (proj2 (Z.ltb_ge MaxFileBytes (Z.of_nat (String.length data)))) by lia.
      destruct fail; [done|]. cbn [map_err mbind result_bind].
      rewrite str_drop_length, (proj2 (Z.ltb_ge MaxFileBytes _)) by lia. cbn [mbind result_bind].
      rewrite str_take_drop, (proj2 (Z.ltb_ge MaxFileBytes _)) by lia. done.
  - rewrite (proj2 (Z.ltb_ge MaxFileBytes (Z.of_nat (String.length data)))) by lia.
    destruct fail; [done|]. cbn [mbind result_bind].
    by rewrite (proj2 (Z.ltb_ge MaxFileBytes (Z.of_nat (String.length data)))) by lia.
Qed.

(** ** Windows of priorities *)

(** Strictly increasing priorities within [lo, hi). *)
Definition window (lo hi : Z) (ps : list Z) : Prop :=
  StronglySorted Z.lt ps ∧ Forall (λ p, lo <= p < hi) ps.

Lemma window_nil lo hi : window lo hi [].
Proof. split; constructor. Qed.

Lemma window_app lo mid mid' hi a b :
  window lo mid a → window mid' hi b → lo <= mid → mid <= mid' → mid' <= hi → window lo hi (a ++ b).
Proof.
  intros [Sa Fa] [Sb Fb] H1 H2 H3. split.
  - clear H1 H3. induction Sa as [|x a Sa IH Hx]; [done|]. simpl. apply Forall_cons_1 in Fa as [Hxw Fa].
    constructor; [by apply IH|]. apply Forall_app. split; [done|].
    eapply Forall_impl; [exact Fb|]. simpl. intros. lia.
  - apply Forall_app. split; (eapply Forall_impl; [done|]; simpl; intros; lia).
Qed.

Lemma window_weaken lo hi lo' hi' a : window lo hi a → lo' <= lo → hi <= hi' → window lo' hi' a.
Proof. intros [S F] H1 H2. split; [done|]. eapply Forall_impl; [exact F|]. simpl. intros. lia. Qed.

Lemma window_snoc lo hi a p : window lo p a → lo <= p → p < hi → window lo hi (a ++ [p]).
Proof.
  intros Ha Hl Hh. apply (window_app lo p p); [done| |lia..]. split; repeat constructor; lia.
Qed.

Section facts.
Context `{GoStd} (os : FileSystem) (lookup_ext : string → string) (yaml_match : string → option string).

Local Notation collect := (collect_entries os lookup_ext).
Local Notation collectDir := (collectDir os lookup_ext).

Lemma collect_entries_window fsys dir profile base suffixes strict entries out r :
  window base (base + Z.of_nat (length out)) (l_Priority <$> out) →
  collect fsys dir profile base suffixes strict out entries = Ok r →
  window base (base + Z.of_nat (length r)) (l_Priority <$> r).
Proof.
  revert out. induction entries as [|e entries IH]; intros out Hw Hr; simpl in Hr.
  { by inv_result. }
  destruct (de_isDir e || hidden (de_name e)); [by eapply IH|].
  destruct (classify lookup_ext (de_name e) suffixes) as [[kind codec]|].
  2:{ destruct strict; [done|]. by eapply IH. }
  destruct (readRegularFile os fsys _ strict) as [[data|]|]; [|by eapply IH|done].
  eapply IH; [|exact Hr]. rewrite fmap_app, length_app. simpl.
  apply window_snoc; [done|lia|lia].
Qed.

Lemma collectDir_window fsys root sub profile base opt r :
  collectDir fsys root sub profile base opt = Ok r →
  window base (base + Z.of_nat (length r)) (l_Priority <$> r).
Proof.
  unfold Scan.collectDir. destruct (readDir os fsys _) as [entries|e].
  - apply collect_entries_window. apply window_nil.
  - destruct (_ && _); [|done]. intros [= <-]. apply window_nil.
Qed.

Lemma overlays_window fsys root g opt active entries dirs out k dirs' r :
  0 <= k <= 10 → window BandFileOverlay (BandFileOverlay + k * overlayStride) (l_Priority <$> out) →
  overlays_loop os lookup_ext yaml_match fsys root g opt active dirs out
    (BandFileOverlay + k * overlayStride) entries = (dirs', Ok r) →
  window BandFileOverlay BandAxis (l_Priority <$> r).
Proof.
  revert dirs out k. induction entries as [|e entries IH]; intros dirs out k Hk Hw Hr; simpl in Hr.
  { simplify_eq. eapply window_weaken; [done|lia|]. unfold BandFileOverlay, BandAxis, overlayStride. lia. }
  destruct (negb (de_isDir e) || hidden (de_name e)); [by eapply IH|].
  destruct (overlayMatches _ _ _ _ _ _ _) as [[]|]; [|by eapply IH|done].
  destruct (globalMatches _ _ _) as [[]|]; [|by eapply IH|done].
  destruct (Z.leb_spec BandAxis (BandFileOverlay + k * overlayStride)); [done|].
  destruct (Scan.collectDir _ _ _ _ _ _ _ _) as [layers|] eqn:Hc; [|done].
  apply collectDir_window in Hc.
  destruct (Z.ltb_spec overlayStride (Z.of_nat (length layers))); [done|].
  unfold BandFileOverlay, BandAxis, overlayStride in *.
  eapply (IH _ _ (k + 1)); [lia| |by replace (2000 + (k + 1) * 100) with (2000 + k * 100 + 100) by lia].
  rewrite fmap_app. apply (window_app _ (2000 + k * 100) (2000 + k * 100)); [exact Hw| |lia..].
  eapply window_weaken; [exact Hc|lia..].
Qed.

(** Axis directories whose windows do not meet. *)
Definition spaced (l : list AxisOverlay) : Prop :=
  StronglySorted (λ a b, ao_Priority a + overlayStride <= ao_Priority b) l.

Lemma yielded_app a b : yielded (a ++ b) = yielded a ++ yielded b.
Proof. apply omap_app. Qed.

Lemma yielded_all ls : yielded (yield_all ls) = ls.
Proof. unfold yielded, yield_all. induction ls; csimpl; congruence. Qed.

Lemma yielded_dirs dirs : yielded (OnDir <$> dirs) = [].
Proof. unfold yielded. induction dirs; csimpl; done. Qed.

Lemma axes_window root opt extras lo :
  spaced extras → Forall (λ a, lo <= ao_Priority a) extras → lo <= bandFileEnd →
  window lo bandFileEnd (l_Priority <$> yielded (scan_axes os lookup_ext root opt extras).1).
Proof.
  revert lo. induction extras as [|a extras IH]; intros lo Hs Hlo Hend; simpl; [apply window_nil|].
  apply StronglySorted_inv in Hs as [Hs Ha]. apply Forall_cons_1 in Hlo as [Hl _].
  destruct (Z.ltb_spec (ao_Priority a) BandAxis); simpl; [apply window_nil|].
  destruct (Z.ltb_spec (bandFileEnd - overlayStride) (ao_Priority a)); [apply window_nil|].
  destruct (Scan.collectDir _ _ _ _ _ _ _ _) as [layers|] eqn:Hc; [|apply window_nil].
  apply collectDir_window in Hc.
  destruct (Z.ltb_spec overlayStride (Z.of_nat (length layers))); [apply window_nil|].
  specialize (IH (ao_Priority a + overlayStride) Hs Ha ltac:(lia)).
  destruct (scan_axes os lookup_ext root opt extras) as [evs err]. simpl in IH |- *.
  rewrite yielded_app, yielded_all, fmap_app.
  apply (window_app _ (ao_Priority a + overlayStride) (ao_Priority a + overlayStride));
    [eapply window_weaken; [exact Hc|lia..]|exact IH|unfold overlayStride in *; lia..].
Qed.

Lemma then_run_yielded (a b : list scan_event * option scan_error) :
  yielded (then_run a b).1 = yielded a.1 ++ match a.2 with Some _ => [] | None => yielded b.1 end.
Proof.
  unfold then_run. destruct a as [ea [err|]]; simpl; [by rewrite app_nil_r|]. by rewrite yielded_app.
Qed.

Lemma base_window root opt :
  window BandFileBase BandFileOverlay (l_Priority <$> yielded (scan_base os lookup_ext root opt).1).
Proof.
  unfold scan_base. destruct (Scan.collectDir _ _ _ _ _ _ _ _) as [layers|] eqn:Hc; [|apply window_nil].
  apply collectDir_window in Hc.
  destruct (Z.ltb_spec baseBandWidth (Z.of_nat (length layers))); [apply window_nil|]. simpl.
  rewrite yielded_all. eapply window_weaken; [exact Hc|lia|].
  unfold baseBandWidth, BandFileOverlay, BandFileBase in *. lia.
Qed.

Lemma overlay_window root opt :
  window BandFileOverlay BandAxis (l_Priority <$> yielded (scan_overlays os lookup_ext yaml_match root opt).1).
Proof.
  unfold scan_overlays. destruct (Profiles opt) as [|p ps]; [apply window_nil|].
  destruct (collectProfileOverlays _ _ _ _ _ _) as [dirs [layers|err]] eqn:Hc; simpl;
    rewrite ?yielded_app, yielded_dirs; [|apply window_nil].
  simpl. rewrite yielded_all. unfold collectProfileOverlays in Hc.
  destruct (readDir os _ _) as [entries|[|]]; [|by simplify_eq; apply window_nil|done].
  change BandFileOverlay with (BandFileOverlay + 0 * overlayStride) in Hc at 1 2.
  destruct (String.eqb _ "").
  - eapply (overlays_window _ _ _ _ _ _ _ [] 0) in Hc; [done|lia|apply window_nil].
  - destruct (Eval _ _); [|done].
    eapply (overlays_window _ _ _ _ _ _ _ [] 0) in Hc; [done|lia|apply window_nil].
Qed.

Lemma Scan_window root opt :
  spaced (AxisOverlays opt) → 
  window BandFileBase bandFileEnd (l_Priority <$> yielded (Scan os lookup_ext yaml_match root opt).1).
Proof.
  intros Hs. unfold Scan. rewrite !then_run_yielded.
  assert (sort_stable axis_leb (AxisOverlays (opt_defaults opt)) = AxisOverlays opt) as ->.
  { apply sort_stable_id. clear -Hs. unfold opt_defaults. simpl.
    induction Hs as [|a l Hl IH Ha]; constructor; [done|].
    eapply Forall_impl; [exact Ha|]. unfold axis_leb, overlayStride. simpl. intros b Hb.
    apply Z.leb_le. lia. }
  pose proof (base_window root (opt_defaults opt)) as Hb.
  pose proof (overlay_window root (opt_defaults opt)) as Ho.
  destruct (scan_base _ _ _ _) as [eb [err|]]; simpl in Hb |- *.
  { rewrite app_nil_r. by eapply window_weaken. }
  destruct (scan_overlays _ _ _ _ _) as [eo [err|]]; simpl in Ho |- *.
  { rewrite app_nil_r, fmap_app. eapply window_app; [exact Hb|by eapply window_weaken|done..]. }
  rewrite !fmap_app. eapply window_app; [exact Hb| |done..].
  eapply window_app; [exact Ho| |done..].
  destruct (AxisOverlays opt) as [|a l] eqn:Hax; [apply window_nil|].
  destruct (Z.ltb_spec (ao_Priority a) BandAxis) as [Hlt|Hge].
  { simpl. rewrite (proj2 (Z.ltb_lt _ _) Hlt). simpl. apply window_nil. }
  apply axes_window; [done| |done]. apply StronglySorted_inv in Hs as [_ Ha].
  constructor; [done|]. eapply Forall_impl; [exact Ha|]. unfold overlayStride. simpl. intros. lia.
Qed.

End facts.

(** ** Axis overlays *)

Lemma axes_loop_bounds env host specs rank :
  Forall (λ a, BandAxis + rank * overlayStride <= ao_Priority a) (axes_loop env host rank specs).1
  ∧ spaced (axes_loop env host rank specs).1.
Proof.
  revert rank. induction specs as [|ax specs IH]; intros rank; simpl; [split; constructor|].
  specialize (IH (rank + 1)). destruct (axes_loop env host (rank + 1) specs) as [out errs].
  destruct IH as [Hb Hs]. simpl in Hb, Hs.
  assert (Forall (λ a, BandAxis + rank * overlayStride <= ao_Priority a) out) as Hb'.
  { eapply Forall_impl; [exact Hb|]. unfold overlayStride. simpl. intros. lia. }
  destruct (axis_value env host ax) as [[val|]|]; [|done..].
  destruct (unsafe_segment val); [done|]. split.
  - constructor; [done|exact Hb'].
  - constructor; [exact Hs|]. eapply Forall_impl; [exact Hb|]. unfold overlayStride. simpl. intros. lia.
Qed.

Lemma ResolveAxes_spaced specs env host : spaced (ResolveAxes specs env host).1.
Proof. apply axes_loop_bounds. Qed.

(** ** Sorting listings *)

Lemma sort_entries_perm a b :
  a ≡ₚ b → NoDup (de_name <$> a) → sort_entries a = sort_entries b.
Proof.
  intros Hab Hnd. unfold sort_entries.
  assert (∀ x y z, entry_leb x y = true → entry_leb y z = true → entry_leb x z = true) as Htrans
    by (intros x y z; apply str_leb_trans).
  assert (∀ x y, entry_leb x y = true ∨ entry_leb y x = true) as Htot by (intros x y; apply str_leb_total).
  apply (StronglySorted_unique_strong (λ x y, entry_leb x y = true)).
  - intros x y Hx Hy H1 H2. rewrite sort_stable_perm in Hx, Hy. rewrite <-Hab in Hy.
    pose proof (str_leb_antisym _ _ H1 H2) as Hname.
    apply list_elem_of_lookup_1 in Hx as [i Hi], Hy as [j Hj].
    assert (i = j) as ->; [|congruence].
    eapply (NoDup_lookup _ i j (de_name x)); [exact Hnd| |]; rewrite list_lookup_fmap;
      [by rewrite Hi|by rewrite Hj, Hname].
  - by apply sort_stable_sorted.
  - by apply sort_stable_sorted.
  - by rewrite !sort_stable_perm.
Qed.

(** Two file systems that differ in the order of their listings only. *)
Definition same_files (fs1 fs2 : FileSystem) : Prop :=
  fs_Stat fs1 = fs_Stat fs2 ∧ fs_Open fs1 = fs_Open fs2
  ∧ ∀ dir, match fs_ReadDir fs1 dir, fs_ReadDir fs2 dir with
           | Ok a, Ok b => a ≡ₚ b ∧ NoDup (de_name <$> a)
           | Err e1, Err e2 => e1 = e2
           | _, _ => False
           end.

Section listing_order.
Context `{GoStd} (lookup_ext : string → string) (yaml_match : string → option string).
Context (fs1 fs2 : FileSystem) (Hfs : same_files fs1 fs2).

Lemma readRegularFile_files p strict :
  readRegularFile fs1 None p strict = readRegularFile fs2 None p strict.
Proof using Hfs.
  destruct Hfs as (Hst & Hop & _). unfold readRegularFile, statFile, openFile, pick. simpl.
  by rewrite Hst, Hop.
Qed.

Lemma collect_entries_files dir profile base suffixes strict out entries :
  collect_entries fs1 lookup_ext None dir profile base suffixes strict out entries =
  collect_entries fs2 lookup_ext None dir profile base suffixes strict out entries.
Proof using Hfs.
  revert out. induction entries as [|e entries IH]; intros out; simpl; [done|].
  destruct (de_isDir e || hidden (de_name e)); [done|].
  destruct (classify _ _ _) as [[kind codec]|]; [|by rewrite IH].
  rewrite readRegularFile_files. destruct (readRegularFile fs2 None _ _) as [[data|]|]; auto.
Qed.

Lemma collectDir_files root sub profile base opt :
  collectDir fs1 lookup_ext None root sub profile base opt =
  collectDir fs2 lookup_ext None root sub profile base opt.
Proof using Hfs.
  unfold collectDir, readDir, pick. simpl. destruct Hfs as (_ & _ & Hrd).
  specialize (Hrd (scan_dir root sub)).
  destruct (fs_ReadDir fs1 _) as [a|e1], (fs_ReadDir fs2 _) as [b|e2]; try done.
  - destruct Hrd as [Hp Hn]. rewrite (sort_entries_perm a b) by done. apply collect_entries_files.
  - by subst.
Qed.

Lemma overlays_loop_files root g opt active dirs out pb entries :
  overlays_loop fs1 lookup_ext yaml_match None root g opt active dirs out pb entries =
  overlays_loop fs2 lookup_ext yaml_match None root g opt active dirs out pb entries.
Proof using Hfs.
  revert dirs out pb. induction entries as [|e entries IH]; intros dirs out pb; simpl; [done|].
  destruct (negb (de_isDir e) || hidden (de_name e)); [done|].
  unfold overlayMatches. rewrite readRegularFile_files.
  match goal with |- match ?m with _ => _ end = _ => destruct m as [[]|] end; [|done..].
  destruct (globalMatches g opt (de_name e)) as [[]|]; [|done..].
  rewrite collectDir_files. destruct (BandAxis <=? pb); [done|].
  destruct (collectDir fs2 _ _ _ _ _ _ _); [|done]. destruct (_ <? _); [done|]. apply IH.
Qed.

Lemma scan_axes_files root opt extras :
  opt_FS opt = None →
  scan_axes fs1 lookup_ext root opt extras = scan_axes fs2 lookup_ext root opt extras.
Proof using Hfs.
  intros Hopt. induction extras as [|a extras IH]; simpl; [done|].
  rewrite Hopt, collectDir_files, IH. done.
Qed.

Lemma Scan_files root opt :
  opt_FS opt = None →
  Scan fs1 lookup_ext yaml_match root opt = Scan fs2 lookup_ext yaml_match root opt.
Proof using Hfs.
  intros Hopt. unfold Scan. rewrite (scan_axes_files root (opt_defaults opt)) by done.
  assert (scan_base fs1 lookup_ext root (opt_defaults opt) = scan_base fs2 lookup_ext root (opt_defaults opt)) as ->.
  { unfold scan_base. change (opt_FS (opt_defaults opt)) with (opt_FS opt). by rewrite Hopt, collectDir_files. }
  do 2 f_equal. unfold scan_overlays. change (opt_FS (opt_defaults opt)) with (opt_FS opt). rewrite Hopt.
  destruct (Profiles (opt_defaults opt)); [done|].
  assert (collectProfileOverlays fs1 lookup_ext yaml_match None root (opt_defaults opt) =
          collectProfileOverlays fs2 lookup_ext yaml_match None root (opt_defaults opt)) as ->; [|done].
  unfold collectProfileOverlays, readDir, pick. cbn [default].
  pose proof Hfs as (_ & _ & Hrd). specialize (Hrd (scan_dir root (OverlayDir (opt_defaults opt)))).
  destruct (fs_ReadDir fs1 _) as [a|e1], (fs_ReadDir fs2 _) as [b|e2]; try done; [|by subst].
  destruct Hrd as [Hp Hn]. rewrite (sort_entries_perm a b) by done.
  destruct (String.eqb _ ""); [apply overlays_loop_files|].
  destruct (Eval _ _); [apply overlays_loop_files|done].
Qed.

End listing_order.

(** ** Which overlays contribute *)

Section selection.
Context `{GoStd} (os : FileSystem) (yaml_match : string → option string).
Context (fsys : option FileSystem) (root : string) (opt : Options).

Definition overlay_dir (e : DirEntry) : string := path_Join [OverlayDir opt; de_name e].

(** A visible directory that its own match (or its name) and the global filter
    accept. *)
Definition selected (g : string) (active : ProfileSet) (e : DirEntry) : Prop :=
  de_isDir e = true ∧ hidden (de_name e) = false
  ∧ overlayMatches os yaml_match fsys root (overlay_dir e) (de_name e) active = Ok true
  ∧ globalMatches g opt (de_name e) = Ok true.

#[local] Instance selected_dec g active e : Decision (selected g active e).
Proof.
  refine (cast_if (decide (
    de_isDir e && negb (hidden (de_name e))
    && match overlayMatches os yaml_match fsys root (overlay_dir e) (de_name e) active with Ok b => b | Err _ => false end
    && match globalMatches g opt (de_name e) with Ok b => b | Err _ => false end = true)));
  unfold selected; destruct (de_isDir e), (hidden (de_name e)),
    (overlayMatches os yaml_match fsys root (overlay_dir e) (de_name e) active) as [[]|],
    (globalMatches g opt (de_name e)) as [[]|]; simpl in *; intuition congruence.
Defined.

Context (lookup_ext : string → string).

(** [groups] are the layers of the directories [es], each in its own window. *)
Definition grouped (k : Z) (es : list DirEntry) (groups : list (list Layer)) : Prop :=
  length groups = length es ∧
  ∀ i e ls, es !! i = Some e → groups !! i = Some ls →
    collectDir os lookup_ext fsys root (overlay_dir e) (de_name e)
      (BandFileOverlay + (k + Z.of_nat i) * overlayStride) opt = Ok ls.

Lemma grouped_cons k e es ls groups :
  collectDir os lookup_ext fsys root (overlay_dir e) (de_name e) (BandFileOverlay + k * overlayStride) opt = Ok ls →
  grouped (k + 1) es groups → grouped k (e :: es) (ls :: groups).
Proof.
  intros Hc [Hlen Hg]. split; [simpl; congruence|].
  intros [|i] e' ls' He Hls; simpl in *; simplify_eq.
  - by replace (k + Z.of_nat 0) with k by lia.
  - replace (k + Z.of_nat (S i)) with (k + 1 + Z.of_nat i) by lia. by apply Hg.
Qed.

Lemma overlays_loop_selected g active entries dirs out k dirs' r :
  overlays_loop os lookup_ext yaml_match fsys root g opt active dirs out
    (BandFileOverlay + k * overlayStride) entries = (dirs', Ok r) →
  dirs' = dirs ++ ((λ e, scan_dir root (overlay_dir e)) <$> filter (selected g active) entries)
  ∧ ∃ groups, grouped k (filter (selected g active) entries) groups ∧ r = out ++ concat groups.
Proof.
  revert dirs out k. induction entries as [|e entries IH]; intros dirs out k Hr; simpl in Hr.
  { simplify_eq. rewrite app_nil_r. split; [done|]. exists []. by rewrite app_nil_r. }
  rewrite filter_cons.
  destruct (decide (selected g active e)) as [Hsel|Hsel].
  - destruct Hsel as (Hd & Hh & Ho & Hg). rewrite Hd, Hh in Hr. simpl in Hr.
    unfold overlay_dir in Ho. rewrite Ho, Hg in Hr.
    destruct (BandAxis <=? _); [done|].
    destruct (collectDir _ _ _ _ _ _ _ _) as [ls|] eqn:Hc; [|done]. destruct (_ <? _); [done|].
    replace (BandFileOverlay + k * overlayStride + overlayStride)
      with (BandFileOverlay + (k + 1) * overlayStride) in Hr by lia.
    apply IH in Hr as (-> & groups & Hgr & ->). split.
    + by rewrite fmap_cons, <-app_assoc.
    + exists (ls :: groups). split; [by apply grouped_cons|]. simpl. by rewrite app_assoc.
  - destruct (negb (de_isDir e) || hidden (de_name e)) eqn:Hv; [by apply IH|].
    apply orb_false_iff in Hv as [Hd%negb_false_iff Hh]. unfold selected, overlay_dir in Hsel.
    destruct (overlayMatches _ _ _ _ _ _ _) as [[]|]; [|by apply IH|done].
    destruct (globalMatches _ _ _) as [[]|]; [|by apply IH|done]. by destruct Hsel.
Qed.

End selection.

#[export] Existing Instance selected_dec.

(** ** Correctness of the scan *)

(** A bounded read returns the whole file or fails. Whatever size the file
    system announced, the result is the full content when it is at most
    [MaxFileBytes] long and the read meets no error, [ErrTooLarge] when it is
    longer, and the error otherwise; no prefix is ever returned. *)
Theorem readBounded_all_or_nothing {E} (f : reader E) (size : Z) :
  readBounded f size =
    if MaxFileBytes <? Z.of_nat (String.length (r_data f)) then Err (ErrTooLarge MaxFileBytes)
    else match r_fail f with Some e => Err (ErrRead e) | None => Ok (r_data f) end.
Proof. apply readBounded_spec. Qed.

(** Precedence of file layers. With the axes that [ResolveAxes] returns, the
    layers of a scan come with strictly increasing priorities between
    [BandFileBase] and the end of the file band: no two layers tie, base files
    come below 2000, overlays within [2000, 3000), axes from 3000 on, and none
    reaches the generators' band. *)
Theorem scan_priorities `{GoStd} (os : FileSystem) (lookup_ext : string → string)
    (yaml_match : string → option string) (root : string) (opt : Options)
    (specs : list AxisSpec) (env : string → option string) (host : result string string)
    (Haxes : AxisOverlays opt = (ResolveAxes specs env host).1) :
  StronglySorted Z.lt (l_Priority <$> yielded (Scan os lookup_ext yaml_match root opt).1)
  ∧ Forall (λ p, 1000 <= p < 7000) (l_Priority <$> yielded (Scan os lookup_ext yaml_match root opt).1).
Proof. apply Scan_window. rewrite Haxes. apply ResolveAxes_spaced. Qed.

(** Discovery does not depend on the order in which the file system lists
    its directories: with the same files and listings that are permutations of
    each other, two scans call back, yield and fail alike. *)
Theorem scan_listing_order `{GoStd} (lookup_ext : string → string) (yaml_match : string → option string)
    (fs1 fs2 : FileSystem) (root : string) (opt : Options)
    (Hfs : same_files fs1 fs2) (Hopt : opt_FS opt = None) :
  Scan fs1 lookup_ext yaml_match root opt = Scan fs2 lookup_ext yaml_match root opt.
Proof. by apply Scan_files. Qed.

(** Selection of overlays. When the overlays are collected, the directories
    announced are the overlay root and then exactly the visible directories
    that their match expression (or their name) and the global filter accept,
    in the order of their names; the layers are those of these directories in
    that order, the i-th with the i-th priority window. *)
Theorem overlay_selection `{GoStd} (os : FileSystem) (lookup_ext : string → string)
    (yaml_match : string → option string) (fsys : option FileSystem) (root : string) (opt : Options)
    (entries : list DirEntry) (dirs : list string) (layers : list Layer)
    (Hread : readDir os fsys (scan_dir root (OverlayDir opt)) = Ok entries)
    (Hrun : collectProfileOverlays os lookup_ext yaml_match fsys root opt = (dirs, Ok layers)) :
  let g := if String.eqb (TrimSpace (GlobalMatch opt)) "" then "" else GlobalMatch opt in
  let chosen := filter (selected os yaml_match fsys root opt g (NewProfileSet (Profiles opt)))
                  (sort_entries entries) in
  dirs = scan_dir root (OverlayDir opt) :: ((λ e, scan_dir root (overlay_dir opt e)) <$> chosen)
  ∧ ∃ groups, layers = concat groups ∧ length groups = length chosen
    ∧ ∀ i e ls, chosen !! i = Some e → groups !! i = Some ls →
        collectDir os lookup_ext fsys root (overlay_dir opt e) (de_name e) (2000 + Z.of_nat i * 100) opt = Ok ls.
Proof.
  cbv zeta. unfold collectProfileOverlays in Hrun. rewrite Hread in Hrun.
  change BandFileOverlay with (BandFileOverlay + 0 * overlayStride) in Hrun at 1 2.
  destruct (String.eqb (TrimSpace (GlobalMatch opt)) "").
  2:{ destruct (Eval (GlobalMatch opt) _); [|done].
      apply overlays_loop_selected in Hrun as (-> & groups & [Hlen Hg] & ->).
      split; [done|]. exists groups. split_and!; [done..|]. exact Hg. }
  apply overlays_loop_selected in Hrun as (-> & groups & [Hlen Hg] & ->).
  split; [done|]. exists groups. split_and!; [done..|]. exact Hg.
Qed.

(** ** Examples *)

Definition ex_file (name : string) : DirEntry := {| de_name := name; de_isDir := false |}.
Definition ex_folder (name : string) : DirEntry := {| de_name := name; de_isDir := true |}.

Definition ex_listing (base : list DirEntry) (dir : string) : result fs_error (list DirEntry) :=
  if String.eqb dir "etc/base" then Ok base
  else if String.eqb dir "etc/overlays" then Ok [ex_folder "prod"; ex_folder "dev"; ex_folder ".git"]
  else if String.eqb dir "etc/overlays/prod" then Ok [ex_file "10-c.yaml"]
  else Err ErrNotExist.

Definition ex_fs (base : list DirEntry) : FileSystem := {|
  fs_ReadDir := ex_listing base;
  fs_Stat p := if HasSuffix p "_meta.yaml" then Err ErrNotExist
               else Ok {| fi_regular := true; fi_size := 2 |};
  fs_Open p := Ok {| r_data := "{}"; r_fail := None |};
|}.

Definition ex_ext (ext : string) : string := if String.eqb ext ".yaml" then "yaml" else "".

Definition ex_opt : Options := {|
  BaseDir := ""; OverlayDir := "overlays"; Profiles := ["prod"]; GlobalMatch := "";
  PatchSuffixes := []; Strict := false; opt_FS := None;
  AxisOverlays := (ResolveAxes [{| as_Dir := "hosts"; as_Env := ""; as_Priority := 1; as_FromHostname := true |}]
                     (λ _, None) (Ok "h1")).1;
|}.

Definition ex_ab : list DirEntry := [ex_file "a.yaml"; ex_file "b.yaml"].
Definition ex_ba : list DirEntry := [ex_file "b.yaml"; ex_file "a.yaml"].

Lemma scan_priorities_witness :
  StronglySorted Z.lt (l_Priority <$> yielded (@Scan example_std (ex_fs ex_ba) ex_ext (λ _, None) "etc" ex_opt).1).
Proof.
  apply (@scan_priorities example_std (ex_fs ex_ba) ex_ext (λ _, None) "etc" ex_opt
    [{| as_Dir := "hosts"; as_Env := ""; as_Priority := 1; as_FromHostname := true |}] (λ _, None) (Ok "h1")).
  reflexivity.
Defined.

Lemma scan_listing_order_witness :
  @Scan example_std (ex_fs ex_ab) ex_ext (λ _, None) "etc" ex_opt =
  @Scan example_std (ex_fs ex_ba) ex_ext (λ _, None) "etc" ex_opt.
Proof.
  apply (@scan_listing_order example_std ex_ext (λ _, None) (ex_fs ex_ab) (ex_fs ex_ba) "etc" ex_opt); [|reflexivity].
  split; [reflexivity|]. split; [reflexivity|]. intros dir. simpl. unfold ex_listing.
  destruct (String.eqb dir "etc/base").
  - split; [apply Permutation_swap|]. apply (bool_decide_unpack _). vm_compute. done.
  - destruct (String.eqb dir "etc/overlays").
    + split; [done|]. apply (bool_decide_unpack _). vm_compute. done.
    + destruct (String.eqb dir "etc/overlays/prod"); [|done].
      split; [done|]. apply (bool_decide_unpack _). vm_compute. done.
Defined.

Definition ex_c_layer : Layer := {|
  l_Path := "etc/overlays/prod/10-c.yaml"; l_Kind := KindMerge; l_Profile := "prod";
  l_Priority := 2000; l_Codec := "yaml"; l_Bytes := "{}" |}.

Lemma overlay_selection_witness :
  ∃ groups, [ex_c_layer] = concat groups ∧ length groups = 1%nat.
Proof.
  destruct (@overlay_selection example_std (ex_fs ex_ab) ex_ext (λ _, None) None "etc"
    {| BaseDir := "base"; OverlayDir := "overlays"; Profiles := ["prod"]; GlobalMatch := "";
       PatchSuffixes := [".patch.yaml"]; Strict := false; opt_FS := None; AxisOverlays := [] |}
    [ex_folder "prod"; ex_folder "dev"; ex_folder ".git"]
    ["etc/overlays"; "etc/overlays/prod"] [ex_c_layer]) as (_ & groups & Hg & Hlen & _).
  - vm_compute. reflexivity.
  - vm_compute. reflexivity.
  - exists groups. split; [exact Hg|]. rewrite Hlen. vm_compute. reflexivity.
Defined.
