(* ===== verification/Secret.v ===== *)
(** * Secrets (internal/secret)

    The walk that resolves secret references in the merged tree, and the path
    patterns that select what a redacted view masks. *)
From S2P Require Import Prelude GoStrings Value Merge.
From Stdlib Require Import Ascii.
Open Scope nat_scope.

(** [HasTag]: the bare word [secret] in a comma-separated tag. *)
Definition HasTag (tag : string) : bool :=
  if String.eqb tag "" then false
  else existsb (λ p, String.eqb (TrimSpace p) "secret") (strings_Split tag ",").

Definition DefaultRedactor (_ : string) (_ : value) : value := VString "***REDACTED***".

(** ** The walk over string leaves (resolve.go) *)

Definition maxTreeDepth : nat := 256.

Section walk.
Context {St : Type} (fn : string → string → St → St * option string).

(** One child: a string goes to the callback, which may replace it. *)
Definition walk_child (rec : value → string → St → St * value) (full : string) (v : value) (st : St) : St * value :=
  match v with
  | VString s =>
      match fn full s st with
      | (st, Some newV) => (st, VString newV)
      | (st, None) => (st, v)
      end
  | _ => rec v full st
  end.

Fixpoint walkLeavesDepth (depth : nat) (node : value) (prefix : string) (st : St) : St * value :=
  if maxTreeDepth <? depth then (st, node)
  else match node with
       | VMap m =>
           let '(st, m) := map_rebuild_st (λ k v st,
             walk_child (walkLeavesDepth (S depth)) (join_path prefix k) v st) m st in
           (st, VMap m)
       | VSlice l =>
           let '(st, l) := list_rebuild_st (λ i v st,
             walk_child (walkLeavesDepth (S depth)) (join_path prefix (itoa i)) v st) 0 l st in
           (st, VSlice l)
       | _ => (st, node)
       end.

Definition WalkLeaves (node : value) (prefix : string) (st : St) : St * value := walkLeavesDepth 0 node prefix st.
End walk.

(** ** Path patterns (patterns.go) *)

Fixpoint suffixes {A} (l : list A) : list (list A) :=
  l :: match l with [] => [] | _ :: l => suffixes l end.

Fixpoint matchSegments (pat path : list string) : bool :=
  match pat with
  | [] => match path with [] => true | _ => false end
  | p :: pat =>
      if String.eqb p "**" then existsb (matchSegments pat) (suffixes path)
      else match path with
           | [] => false
           | s :: path => if negb (String.eqb p "*") && negb (String.eqb p s) then false else matchSegments pat path
           end
  end.

Record patternPlan := { pp_tree : list (list string); pp_provenance : list (list string) }.

Fixpoint conservative (segments : list string) : list string :=
  match segments with
  | [] => []
  | s :: segments => s :: (if String.eqb s "*" then "**" :: conservative segments else conservative segments)
  end.

Definition compilePatterns (patterns : list string) : patternPlan :=
  {| pp_tree := (λ p, strings_Split p ".") <$> patterns;
     pp_provenance := (λ p, conservative (strings_Split p ".")) <$> patterns |}.

Section redact.
Context {St : Type} (redact : string → value → St → St * value) (patterns : list (list string)).

Definition pattern_hit (p : list string) : bool := existsb (λ pat, matchSegments pat p) patterns.

Fixpoint redact_node (path : list string) (node : value) (st : St) : St * value :=
  match node with
  | VMap m =>
      let '(st, m) := map_rebuild_st (λ k v st,
        let p := path ++ [k] in
        if pattern_hit p then redact (strings_Join p ".") v st else redact_node p v st) m st in
      (st, VMap m)
  | VSlice l =>
      let '(st, l) := list_rebuild_st (λ i v st,
        let p := path ++ [itoa i] in
        if pattern_hit p then redact (strings_Join p ".") v st else redact_node p v st) 0 l st in
      (st, VSlice l)
  | _ => (st, node)
  end.

Definition redactPatterns (node : value) (path : list string) (st : St) : St * value :=
  match patterns with [] => (st, node) | _ => redact_node path node st end.
End redact.

(** [matchesValue]: whether a pattern covers a prefix of [path] or something inside the value. *)
Definition matchesValue (p : patternPlan) (v : value) (path : string) : bool :=
  match pp_provenance p with
  | [] => false
  | pats =>
      let segments := strings_Split path "." in
      if existsb (λ pat, existsb (λ n, matchSegments pat (take n segments)) (seq 1 (length segments))) pats then true
      else (redactPatterns (λ _ v _, (true, v)) pats v segments false).1
  end.

(** ** Patterns as globs *)

(** [*] stands for one segment and [**] for any number of them. *)
Inductive glob : list string → list string → Prop :=
| glob_nil : glob [] []
| glob_deep pat p1 p2 : glob pat p2 → glob ("**" :: pat) (p1 ++ p2)
| glob_any pat s path : glob pat path → glob ("*" :: pat) (s :: path)
| glob_lit p pat path : p ≠ "**" → glob pat path → glob (p :: pat) (p :: path).

Lemma elem_of_suffixes {A} (l s : list A) : s ∈ suffixes l ↔ ∃ p, l = p ++ s.
Proof.
  revert s. induction l as [|a l IH]; intros s; simpl.
  - rewrite list_elem_of_singleton. split; [intros ->; by exists []|].
    intros [p Hp]. symmetry in Hp. by apply app_eq_nil in Hp as [_ ->].
  - rewrite elem_of_cons, IH. split.
    + intros [->|[p ->]]; [by exists []|by exists (a :: p)].
    + intros [[|b p] Hp]; simpl in Hp; [by left|]. injection Hp as _ ->. right. by exists p.
Qed.

Lemma matchSegments_deep pat path :
  matchSegments ("**" :: pat) path = true ↔ ∃ p1 p2, path = p1 ++ p2 ∧ matchSegments pat p2 = true.
Proof.
  cbn [matchSegments]. rewrite String.eqb_refl. rewrite existsb_exists. split.
  - intros (s & Hs & Hm). apply list_elem_of_In, elem_of_suffixes in Hs as [p ->]. by exists p, s.
  - intros (p1 & p2 & -> & Hm). exists p2. split; [|done]. apply list_elem_of_In, elem_of_suffixes. by exists p1.
Qed.

Lemma matchSegments_glob pat path : matchSegments pat path = true ↔ glob pat path.
Proof.
  split.
  - revert path. induction pat as [|p pat IH]; intros path; [destruct path; [constructor|done]|].
    destruct (String.eqb_spec p "**") as [->|Hp].
    + intros (p1 & p2 & -> & Hm)%matchSegments_deep. constructor. by apply IH.
    + cbn [matchSegments]. rewrite (proj2 (String.eqb_neq _ _) Hp).
      destruct path as [|s path]; [done|].
      destruct (String.eqb_spec p "*") as [->|Hstar]; simpl; [intros Hm; constructor; by apply IH|].
      destruct (String.eqb_spec p s) as [->|Hs]; simpl; [|done]. intros Hm. constructor; [done|by apply IH].
  - induction 1 as [|pat p1 p2 _ IH|pat s path _ IH|p pat path Hp _ IH]; [done| | |].
    + apply matchSegments_deep. by exists p1, p2.
    + done.
    + cbn [matchSegments]. rewrite (proj2 (String.eqb_neq _ _) Hp), String.eqb_refl, andb_false_r. done.
Qed.

(** ** Patterns on flattened paths *)

Definition flat (keys : list string) : list string := concat ((λ k, strings_Split k ".") <$> keys).

Lemma Split_cat d a b :
  strings_Split (a +:+ String d b) (String d "") = strings_Split a (String d "") ++ strings_Split b (String d "").
Proof.
  induction a as [|c a IH].
  - simpl String.append. rewrite Split_eq. simpl. destruct (ascii_dec d d); [|done]. by destruct b.
  - simpl String.append. rewrite (Split_eq _ (String c (a +:+ String d b))), (Split_eq _ (String c a)). simpl.
    destruct (ascii_dec d c) as [->|].
    + assert (∀ x, String.prefix "" x = true) as Hnil by (by intros []). rewrite !Hnil. simpl. by rewrite IH.
    + rewrite IH. destruct (strings_Split a _) eqn:Ha; [by apply Split_ne in Ha|]. done.
Qed.

Lemma Split_Join_flat keys : keys ≠ [] → strings_Split (strings_Join keys ".") "." = flat keys.
Proof.
  unfold flat. induction keys as [|k keys IH]; [done|]. intros _. destruct keys as [|k' keys].
  - simpl. by rewrite app_nil_r.
  - rewrite Join_cons by done. change ("." +:+ ?x) with (String "." x).
    rewrite Split_cat, IH by done. done.
Qed.

Lemma flat_app a b : flat (a ++ b) = flat a ++ flat b.
Proof. unfold flat. by rewrite fmap_app, concat_app. Qed.

Lemma Split_parts_no_byte d s : Forall (λ p, no_byte d p = true) (strings_Split s (String d "")).
Proof.
  induction s as [|c s IH]; [by constructor|]. rewrite Split_eq. simpl.
  destruct (ascii_dec d c) as [->|Hne].
  - assert (String.prefix "" s = true) as -> by (by destruct s). by constructor.
  - destruct (strings_Split s (String d "")) as [|h t] eqn:Hs; [by apply Split_ne in Hs|].
    inversion IH as [|? ? Hh Ht]; subst. constructor; [|done]. unfold no_byte in *. simpl.
    rewrite Hh. destruct (Ascii.eqb_spec c d); [congruence|done].
Qed.

(** A pattern that matches real keys matches their flattened path. *)
Lemma conservative_glob pat keys :
  Forall (λ p, no_byte "." p = true) pat → glob pat keys → glob (conservative pat) (flat keys).
Proof.
  intros Hpat Hg. induction Hg as [|pat p1 p2 _ IH|pat s path _ IH|p pat path Hp _ IH].
  - constructor.
  - apply Forall_cons_1 in Hpat as [_ Hpat]. rewrite flat_app. simpl. constructor. by apply IH.
  - apply Forall_cons_1 in Hpat as [_ Hpat]. simpl. unfold flat. simpl. fold (flat path).
    destruct (strings_Split s ".") as [|h t] eqn:Hs; [by apply Split_ne in Hs|].
    simpl. apply glob_any. apply (glob_deep _ t (flat path)). by apply IH.
  - apply Forall_cons_1 in Hpat as [Hd Hpat]. unfold flat. simpl. fold (flat path).
    rewrite Split_no_byte by done. simpl. apply glob_lit; [done|].
    destruct (String.eqb_spec p "*") as [->|]; [|by apply IH].
    apply (glob_deep _ [] (flat path)). by apply IH.
Qed.

Lemma Split_length_pos s sep : 0 < length (strings_Split s sep).
Proof. pose proof (Split_ne s sep). destruct (strings_Split s sep); simpl; [done|lia]. Qed.

Lemma flat_length_pos keys : keys ≠ [] → 0 < length (flat keys).
Proof.
  destruct keys as [|k keys]; [done|]. intros _. unfold flat. simpl. rewrite length_app.
  pose proof (Split_length_pos k "."). lia.
Qed.

(** What a pattern hides in the tree it hides in provenance. If a pattern of
    [WithSecretPaths] matches the keys that lead to a node, dots inside the keys
    included, then the flattened path of that node, and of everything below it,
    is covered by the patterns used for [Explain], whatever the value found
    there: no key with a dot can expose a secret through provenance. *)
Theorem provenance_covers_tree (patterns keys rest : list string) (v : value)
    (Hkeys : keys ≠ []) (Hhit : pattern_hit (pp_tree (compilePatterns patterns)) keys = true) :
  matchesValue (compilePatterns patterns) v (strings_Join (keys ++ rest) ".") = true.
Proof.
  unfold pattern_hit, compilePatterns in *. cbn [pp_tree] in Hhit.
  apply existsb_exists in Hhit as (pat & Hin & Hm).
  apply list_elem_of_In, list_elem_of_fmap in Hin as (p & -> & Hp).
  unfold matchesValue. cbn [pp_provenance].
  destruct ((λ p, conservative (strings_Split p ".")) <$> patterns) as [|q qs] eqn:Hq.
  { destruct patterns; [by apply elem_of_nil in Hp|done]. }
  rewrite <-Hq. clear q qs Hq. rewrite Split_Join_flat by (by destruct keys). rewrite flat_app.
  match goal with |- (if ?b then _ else _) = true => assert (b = true) as ->; [|done] end.
  apply existsb_exists. exists (conservative (strings_Split p ".")). split.
  { apply list_elem_of_In, list_elem_of_fmap. by exists p. }
  apply existsb_exists. exists (length (flat keys)). split.
  - apply in_seq. rewrite length_app. pose proof (flat_length_pos keys Hkeys). lia.
  - rewrite take_app_length. apply matchSegments_glob, conservative_glob; [apply Split_parts_no_byte|].
    by apply matchSegments_glob.
Qed.

Lemma provenance_covers_tree_witness :
  matchesValue (compilePatterns ["db.*.token"]) (VString "s3cret") (strings_Join (["db"; "eu.west"; "token"] ++ []) ".") = true.
Proof. apply provenance_covers_tree; [discriminate|reflexivity]. Defined.

(** ** What redaction masks *)

(** The child of a node under a path segment, an index in decimal for a slice. *)
Definition child (v : value) (seg : string) : option value :=
  match v with VMap m => m !! seg | VSlice l => nth_named 0 l seg | _ => None end.

Fixpoint at_path (v : value) (p : list string) : option value :=
  match p with [] => Some v | s :: p => child v s ≫= λ x, at_path x p end.

Lemma at_path_app v p q : at_path v (p ++ q) = at_path v p ≫= λ x, at_path x q.
Proof.
  revert v. induction p as [|s p IH]; intros v; simpl; [done|]. destruct (child v s); simpl; [apply IH|done].
Qed.

(** A redactor that keeps no state. *)
Definition stateless (r : string → value → value) : string → value → () → () * value := λ p v st, (st, r p v).

Definition mask (r : string → value → value) (pats : list (list string)) (path : list string) (v : value) : value :=
  (redactPatterns (stateless r) pats v path tt).2.

Lemma map_rebuild_st_unit {A B} (f : string → A → () → () * B) m st k :
  (map_rebuild_st f m st).2 !! k = (λ v, (f k v tt).2) <$> m !! k.
Proof.
  revert k. apply (map_rebuild_st_ind (λ _ done acc, ∀ k, acc !! k = (λ v, (f k v tt).2) <$> done !! k)).
  - intros k. by rewrite !lookup_empty.
  - intros k v m' acc [] _ _ _ IH j. destruct (decide (k = j)) as [->|Hne].
    + by rewrite !lookup_insert_eq.
    + by rewrite !lookup_insert_ne.
Qed.

Lemma list_rebuild_st_unit (f : nat → value → () → () * value) i l st seg :
  nth_named i (list_rebuild_st f i l st).2 seg =
  (fix go i l := match l with
                 | [] => None
                 | x :: l => if String.eqb (itoa i) seg then Some (f i x tt).2 else go (S i) l
                 end) i l.
Proof.
  revert i st. induction l as [|x l IH]; intros i []; [done|]. cbn [list_rebuild_st].
  destruct (f i x tt) as [st b]. specialize (IH (S i) st). destruct (list_rebuild_st f (S i) l st) as [st' bs].
  cbn [snd nth_named] in *. by rewrite IH.
Qed.

Section masking.
Context (r : string → value → value) (pats : list (list string)).

Notation node path v := (redact_node (stateless r) pats path v tt).2.

Lemma redact_child path v seg :
  child (node path v) seg =
  (λ x, if pattern_hit pats (path ++ [seg]) then r (strings_Join (path ++ [seg]) ".") x
        else node (path ++ [seg]) x) <$> child v seg.
Proof.
  destruct v as [| | | | | |m| |l| |]; try done; cbn [redact_node].
  - pose proof (map_rebuild_st_unit (λ k v st,
        let p := path ++ [k] in
        if pattern_hit pats p then stateless r (strings_Join p ".") v st
        else redact_node (stateless r) pats p v st) m tt seg) as Hk.
    destruct (map_rebuild_st _ m tt) as [st m']. cbn [snd child] in *. rewrite Hk. destruct (m !! seg); [|done].
    simpl. by destruct (pattern_hit _ _).
  - pose proof (list_rebuild_st_unit (λ i v st,
        let p := path ++ [itoa i] in
        if pattern_hit pats p then stateless r (strings_Join p ".") v st
        else redact_node (stateless r) pats p v st) 0 l tt seg) as Hk.
    destruct (list_rebuild_st _ 0 l tt) as [st l']. cbn [snd child] in *. rewrite Hk. clear Hk.
    generalize 0. induction l as [|x l IH]; intros i; [done|]. simpl.
    destruct (String.eqb_spec (itoa i) seg) as [->|]; [|by apply IH].
    simpl. by destruct (pattern_hit _ _).
Qed.

Lemma redact_path path v p :
  (∀ q, q ≠ [] → q `prefix_of` p → pattern_hit pats (path ++ q) = false) →
  at_path (node path v) p = (λ x, node (path ++ p) x) <$> at_path v p.
Proof.
  revert path v. induction p as [|s p IH]; intros path v Hno; [simpl; by rewrite app_nil_r|].
  cbn [at_path]. rewrite redact_child. destruct (child v s) as [x|]; [|done]. cbn [fmap option_fmap option_map mbind option_bind].
  rewrite (Hno [s]) by (done || by exists p). rewrite IH.
  - by rewrite <-app_assoc.
  - intros q Hq [t ->]. rewrite <-app_assoc. simpl. apply Hno; [done|]. by exists t.
Qed.
End masking.

(** Redaction masks exactly what the patterns select. In the masked tree the
    topmost nodes whose path matches a pattern hold what the redactor makes of
    them, with their dotted path; every other node keeps its place, and changes
    only below, where its own descendants match. *)
Theorem redaction_exact (r : string → value → value) (pats : list (list string)) (v : value) (p : list string) :
  let clear p := ∀ q, q ≠ [] → q `prefix_of` p → pattern_hit pats q = false in
  (clear p → at_path (mask r pats [] v) p = mask r pats p <$> at_path v p)
  ∧ (∀ seg, clear p → pattern_hit pats (p ++ [seg]) = true →
       at_path (mask r pats [] v) (p ++ [seg]) = r (strings_Join (p ++ [seg]) ".") <$> at_path v (p ++ [seg])).
Proof.
  intros clear. destruct (decide (pats = [])) as [->|Hne].
  { split; [|done]. intros _. unfold mask. simpl. by destruct (at_path v p). }
  assert (∀ path x, mask r pats path x = (redact_node (stateless r) pats path x tt).2) as Hm.
  { intros path x. unfold mask, redactPatterns. by destruct pats. }
  split.
  - intros Hc. rewrite Hm, (redact_path r pats []) by done. apply option_fmap_ext. intros x. by rewrite Hm.
  - intros seg Hc Hhit. rewrite !at_path_app, Hm, (redact_path r pats []) by done.
    destruct (at_path v p) as [x|]; [|done]. cbn [fmap option_fmap option_map mbind option_bind at_path app].
    rewrite redact_child, Hhit. by destruct (child x seg).
Qed.

(** ** What the walk does *)

(** The tree with every string leaf of the walk rewritten. *)
Fixpoint rewrite_leaves (f : string → string) (depth : nat) (v : value) : value :=
  if maxTreeDepth <? depth then v
  else match v with
       | VMap m => VMap (map_rebuild (λ _ x, match x with VString s => VString (f s) | _ => rewrite_leaves f (S depth) x end) m)
       | VSlice l => VSlice ((λ x, match x with VString s => VString (f s) | _ => rewrite_leaves f (S depth) x end) <$> l)
       | _ => v
       end.

Definition rewrite_child (f : string → string) (depth : nat) (x : value) : value :=
  match x with VString s => VString (f s) | _ => rewrite_leaves f depth x end.

(** The strings that a walk reaches from a child at some depth. *)
Definition reached (depth : nat) (x : value) (p : list string) (s : string) : Prop :=
  depth + length p ≤ S maxTreeDepth ∧ at_path x p = Some (VString s).

Section walk_spec.
Context {St E : Type} (fn : string → string → St → St * option string).
(** The error recorded so far, the error of a leaf, and its replacement. *)
Context (err : St → option E) (fail : string → string → option E) (f : string → string).

Hypothesis fn_stuck : ∀ path s st e, err st = Some e → fn path s st = (st, None).
Hypothesis fn_ok : ∀ path s st, err st = None → fail path s = None →
  err (fn path s st).1 = None ∧ default s (fn path s st).2 = f s.
Hypothesis fn_fail : ∀ path s st e, err st = None → fail path s = Some e → err (fn path s st).1 = Some e.

Notation full_path := (foldl join_path).

Definition clean (full : string) (depth : nat) (x : value) : Prop :=
  ∀ p s, reached depth x p s → fail (full_path full p) s = None.
Definition failing (full : string) (depth : nat) (x : value) (e : E) : Prop :=
  ∃ p s, reached depth x p s ∧ fail (full_path full p) s = Some e.

(** What the walk of a child makes of the state and of the child. *)
Definition child_outcome (full : string) (depth : nat) (x : value) (r : St * value) : Prop :=
  (err r.1 = None ∧ r.2 = rewrite_child f depth x ∧ clean full depth x)
  ∨ (∃ e, err r.1 = Some e ∧ failing full depth x e).

Notation walk depth := (walk_child fn (walkLeavesDepth fn depth)).

Lemma rebuild_stuck {A B} (g : string → A → St → St * B) m st e :
  (∀ k v st, m !! k = Some v → err st = Some e → err (g k v st).1 = Some e) →
  err st = Some e → err (map_rebuild_st g m st).1 = Some e.
Proof. intros Hg He. apply (map_rebuild_st_ind (λ st _ _, err st = Some e)); [done|]. eauto. Qed.

Lemma list_stuck {A B} (g : nat → A → St → St * B) i l st e :
  (∀ i v st, v ∈ l → err st = Some e → err (g i v st).1 = Some e) →
  err st = Some e → err (list_rebuild_st g i l st).1 = Some e.
Proof.
  revert i st. induction l as [|x l IH]; intros i st Hg He; [done|]. cbn [list_rebuild_st].
  pose proof (Hg i x st ltac:(left) He) as Hx. destruct (g i x st) as [st' b].
  specialize (IH (S i) st' (λ i v st Hv, Hg i v st ltac:(by right)) Hx).
  by destruct (list_rebuild_st g (S i) l st').
Qed.

Lemma walk_stuck x depth full st e : err st = Some e → err (walk depth full x st).1 = Some e.
Proof using fn_stuck.
  revert depth full st. induction x as [m IH|l IH|v Hm Hs] using value_tree_ind; intros depth full st He.
  - cbn [walk_child walkLeavesDepth]. destruct (maxTreeDepth <? depth); [done|].
    pose proof (rebuild_stuck (λ k v st, walk (S depth) (join_path full k) v st) m st e) as Hst.
    destruct (map_rebuild_st _ m st). apply Hst; [|done]. intros k v st' Hk He'. by apply (IH k v Hk).
  - cbn [walk_child walkLeavesDepth]. destruct (maxTreeDepth <? depth); [done|].
    pose proof (list_stuck (λ i v st, walk (S depth) (join_path full (itoa i)) v st) 0 l st e) as Hst.
    destruct (list_rebuild_st _ 0 l st). apply Hst; [|done]. intros k v st' Hk He'. rewrite Forall_forall in IH. by apply IH.
  - destruct v; try (exfalso; destruct Hm; discriminate); try (exfalso; destruct Hs; discriminate);
      cbn [walk_child walkLeavesDepth]; try (by destruct (maxTreeDepth <? depth)).
    by rewrite (fn_stuck _ _ _ _ He).
Qed.

Lemma nth_named_lookup {A} (l : list A) i j x :
  l !! j = Some x → nth_named i l (itoa (i + j)) = Some x.
Proof.
  revert i j. induction l as [|y l IH]; intros i [|j] Hj; simplify_eq/=.
  - by rewrite Nat.add_0_r, String.eqb_refl.
  - destruct (String.eqb_spec (itoa i) (itoa (i + S j))) as [Heq|].
    + apply (inj itoa) in Heq. lia.
    + replace (i + S j) with (S i + j) by lia. by apply IH.
Qed.

Lemma nth_named_inv {A} (l : list A) i seg x :
  nth_named i l seg = Some x → ∃ j, seg = itoa (i + j) ∧ l !! j = Some x.
Proof.
  revert i. induction l as [|y l IH]; intros i; simpl; [done|].
  destruct (String.eqb_spec (itoa i) seg) as [<-|]; intros Hx.
  - exists 0. rewrite Nat.add_0_r. split; [done|exact Hx].
  - destruct (IH (S i) Hx) as (j & -> & Hj). exists (S j). split; [f_equal; lia|exact Hj].
Qed.

Lemma failing_child full depth v seg x e :
  child v seg = Some x → failing (join_path full seg) (S depth) x e → failing full depth v e.
Proof.
  intros Hc (p & s & [Hlen Hp] & He). exists (seg :: p), s. split; [|done].
  split; [simpl; lia|]. simpl. by rewrite Hc.
Qed.

(** A container is clean when its children are. *)
Lemma clean_children full depth v :
  as_string v = None → (∀ seg x, child v seg = Some x → clean (join_path full seg) (S depth) x) → clean full depth v.
Proof.
  intros Hv Hc [|seg p] s [Hlen Hp].
  - simpl in Hp. by injection Hp as ->.
  - simpl in Hp. destruct (child v seg) as [x|] eqn:Hx; [|done]. simpl.
    apply (Hc seg x Hx p s). split; [simpl in Hlen; lia|done].
Qed.

(** Walking a child at any depth has the expected outcome. *)
Definition walks (x : value) : Prop := ∀ depth full st,
  depth ≤ S maxTreeDepth → err st = None → child_outcome full depth x (walk depth full x st).

Lemma walk_map m depth full st :
  map_Forall (λ _, walks) m → depth ≤ maxTreeDepth → err st = None →
  let '(st', m') := map_rebuild_st (λ k v st, walk (S depth) (join_path full k) v st) m st in
  (err st' = None ∧ m' = map_rebuild (λ _, rewrite_child f (S depth)) m ∧ clean full depth (VMap m))
  ∨ (∃ e, err st' = Some e ∧ failing full depth (VMap m) e).
Proof using fn_stuck fn_ok fn_fail.
  intros IH Hd He.
  pose proof (map_rebuild_st_ind (λ st done acc,
      (err st = None ∧ acc = map_rebuild (λ _, rewrite_child f (S depth)) done
       ∧ ∀ k x, done !! k = Some x → clean (join_path full k) (S depth) x)
      ∨ (∃ e, err st = Some e ∧ failing full depth (VMap m) e))
    (λ k v st, walk (S depth) (join_path full k) v st) m st) as Hind.
  destruct (map_rebuild_st _ m st) as [st' m']. cbn [fst snd] in *.
  destruct Hind as [(He' & -> & Hc)|(e & He' & Hf)].
  - left. split_and!; [done..|]. intros k x. by rewrite lookup_empty.
  - intros k v m1 acc st1 Hk Hnone _ [(He1 & -> & Hc)|(e & He1 & Hf)].
    + destruct (IH k v Hk (S depth) (join_path full k) st1 ltac:(lia) He1) as [(He2 & Hv & Hcv)|(e & He2 & Hf)].
      * left. split_and!; [done| |].
        -- rewrite Hv. apply map_eq. intros j. rewrite lookup_map_rebuild.
           destruct (decide (k = j)) as [->|]; [by rewrite !lookup_insert_eq|].
           by rewrite !lookup_insert_ne, lookup_map_rebuild by done.
        -- intros j x. destruct (decide (k = j)) as [->|].
           ++ rewrite lookup_insert_eq. by intros [= <-].
           ++ rewrite lookup_insert_ne by done. apply Hc.
      * right. exists e. split; [done|]. by eapply failing_child.
    + right. exists e. split; [|done]. by apply walk_stuck.
  - left. split_and!; [done..|]. apply clean_children; [done|]. intros k x Hk. by apply Hc.
  - right. by exists e.
Qed.

Lemma walk_items l depth full i st :
  Forall walks l → depth ≤ maxTreeDepth → err st = None →
  let '(st', l') := list_rebuild_st (λ i v st, walk (S depth) (join_path full (itoa i)) v st) i l st in
  (err st' = None ∧ l' = rewrite_child f (S depth) <$> l
   ∧ ∀ j x, l !! j = Some x → clean (join_path full (itoa (i + j))) (S depth) x)
  ∨ (∃ e j x, err st' = Some e ∧ l !! j = Some x ∧ failing (join_path full (itoa (i + j))) (S depth) x e).
Proof using fn_stuck fn_ok fn_fail.
  intros Hl Hd. revert i st. induction Hl as [|x l Hx _ IH]; intros i st He; [by left|].
  cbn [list_rebuild_st]. specialize (Hx (S depth) (join_path full (itoa i)) st ltac:(lia) He).
  destruct (walk (S depth) (join_path full (itoa i)) x st) as [st1 x'] eqn:Hw. cbn [fst snd] in *.
  destruct Hx as [(He1 & Hx' & Hc)|(e & He1 & Hf)]; cbn [fst snd] in *.
  - specialize (IH (S i) st1 He1). destruct (list_rebuild_st _ (S i) l st1) as [st2 l'].
    destruct IH as [(He2 & -> & Hcl)|(e & j & y & He2 & Hj & Hf)].
    + left. split_and!; [done|by rewrite Hx'|]. intros [|j] y Hy; simplify_eq/=; [by rewrite Nat.add_0_r|].
      replace (i + S j) with (S i + j) by lia. by apply Hcl.
    + right. exists e, (S j), y. split_and!; [done..|]. by replace (i + S j) with (S i + j) by lia.
  - pose proof (list_stuck (λ i v st, walk (S depth) (join_path full (itoa i)) v st) (S i) l st1 e) as Hst.
    destruct (list_rebuild_st _ (S i) l st1) as [st2 l'].
    right. exists e, 0, x. rewrite Nat.add_0_r. split_and!; [|done..].
    apply Hst; [|done]. intros j v st' _ He'. by apply walk_stuck.
Qed.

Lemma walk_child_spec x : walks x.
Proof using fn_stuck fn_ok fn_fail.
  induction x as [m IH|l IH|v Hm Hs] using value_tree_ind; intros depth full st Hd He.
  1-2: unfold child_outcome; cbn [walk_child rewrite_child];
    destruct (maxTreeDepth <? depth) eqn:Hdepth; cbn [walkLeavesDepth rewrite_leaves]; rewrite Hdepth;
    [apply Nat.ltb_lt in Hdepth; left; split_and!; [done..|]; apply clean_children; [done|];
     intros seg x _ p s [Hlen _]; simpl in *; lia|apply Nat.ltb_ge in Hdepth].
  - pose proof (walk_map m depth full st IH Hdepth He) as Hw.
    destruct (map_rebuild_st _ m st) as [st' m']. destruct Hw as [(He' & -> & Hc)|Hf]; [left|by right].
    by split_and!.
  - pose proof (walk_items l depth full 0 st IH Hdepth He) as Hw.
    destruct (list_rebuild_st _ 0 l st) as [st' l']. destruct Hw as [(He' & -> & Hc)|(e & j & x & He' & Hj & Hf)].
    + left. split_and!; [done..|]. apply clean_children; [done|]. intros seg x Hx.
      cbn [child] in Hx. apply nth_named_inv in Hx as (j & -> & Hj). by apply Hc.
    + right. exists e. split; [done|]. eapply failing_child; [|exact Hf]. by apply (nth_named_lookup l 0).
  - unfold child_outcome.
    destruct (as_string v) as [s|] eqn:Hv.
    + destruct v; try done. injection Hv as ->. cbn [walk_child rewrite_child].
      destruct (fail full s) as [e|] eqn:Hfail.
      * right. exists e. pose proof (fn_fail full s st e He Hfail) as Hff.
        destruct (fn full s st) as [st' [r|]]; (split; [exact Hff|]); exists [], s; (split; [|done]); split; simpl; (done || lia).
      * left. destruct (fn_ok full s st He Hfail) as [Hok Hr].
        assert (clean full depth (VString s)) as Hc.
        { intros [|seg p] s' [_ Hp]; simpl in Hp; [injection Hp as <-; exact Hfail|done]. }
        destruct (fn full s st) as [st' [r|]]; cbn [fst snd default] in Hok, Hr |- *;
          (split_and!; [exact Hok|by rewrite <-Hr|exact Hc]).
    + left. assert (walk depth full v st = (st, v) ∧ rewrite_child f depth v = v) as [-> ->].
      { destruct v; try (exfalso; destruct Hm; discriminate); try (exfalso; destruct Hs; discriminate);
          try discriminate; cbn [walk_child walkLeavesDepth rewrite_child rewrite_leaves];
          by destruct (maxTreeDepth <? depth). }
      split_and!; [done..|]. apply clean_children; [done|]. intros seg x Hx.
      destruct v; try discriminate; [destruct Hm; discriminate|destruct Hs; discriminate].
Qed.
End walk_spec.

(** ** Reading the rewritten tree *)

Lemma rewrite_child_child f depth v seg :
  depth ≤ maxTreeDepth → child (rewrite_child f depth v) seg = rewrite_child f (S depth) <$> child v seg.
Proof.
  intros Hd. apply Nat.ltb_ge in Hd.
  destruct v as [| | | | | |m| |l| |]; try done; cbn [rewrite_child rewrite_leaves]; rewrite Hd; try done; cbn [child].
  - rewrite lookup_map_rebuild. by destruct (m !! seg).
  - generalize 0. induction l as [|x l IH]; intros i; [done|]. cbn [fmap list_fmap nth_named].
    destruct (String.eqb (itoa i) seg); [done|]. apply IH.
Qed.

Lemma at_path_rewrite f depth v p :
  depth + length p ≤ S maxTreeDepth →
  at_path (rewrite_child f depth v) p = rewrite_child f (depth + length p) <$> at_path v p.
Proof.
  revert depth v. induction p as [|seg p IH]; intros depth v Hd; [simpl; by rewrite Nat.add_0_r|].
  cbn [at_path]. rewrite rewrite_child_child by (simpl in Hd; lia).
  destruct (child v seg) as [x|]; [|done]. cbn [fmap option_fmap option_map mbind option_bind].
  rewrite IH by (simpl in Hd; lia). simpl. by rewrite Nat.add_succ_r.
Qed.

(** A value that is neither a string nor a container is not rewritten. *)
Lemma rewrite_child_other f depth v :
  as_string v = None → as_map v = None → as_slice v = None → rewrite_child f depth v = v.
Proof. intros Hs Hm Hl. destruct v; try done; cbn [rewrite_child rewrite_leaves]; by destruct (maxTreeDepth <? depth). Qed.
