(* ===== verification/Provenance.v ===== *)
(** * Field provenance (internal/provenance/index.go)

    The index of layers that wrote each dotted path: recording of merged trees,
    the chain an [Explain] returns, and its exactness for trees whose keys
    contain no dot. *)
From S2P Require Import Prelude GoStrings Value Path Merge Clone.
From Stdlib Require Import Ascii.
Open Scope nat_scope.

Inductive LayerKind :=
| LayerUnknown | LayerMerge | LayerPatch | LayerProvider | LayerSecret | LayerGenerator | LayerOverride.

#[export] Instance LayerKind_eq_dec : EqDecision LayerKind.
Proof. solve_decision. Defined.

Record SourceRef := {
  sr_Path : string;
  sr_Kind : LayerKind;
  sr_Profile : string;
  sr_Priority : Z;
  sr_Codec : string;
  sr_Revision : string;
  sr_Stale : bool;
}.

Definition LayerKind_String (k : LayerKind) : string :=
  match k with
  | LayerMerge => "merge" | LayerPatch => "patch" | LayerProvider => "provider"
  | LayerSecret => "secret" | LayerGenerator => "generator" | LayerOverride => "override"
  | LayerUnknown => "unknown"
  end.

Record Origin := { o_Path : string; o_Source : SourceRef; o_Value : value }.

Inductive Level := Off | TopLevel | Full.

#[export] Instance Level_eq_dec : EqDecision Level.
Proof. solve_decision. Defined.

Definition maxTreeDepth : nat := 256.

Notation entries := (gmap string (list Origin)).

Record Index := { ix_entries : entries; ix_level : Level }.

(** [NewIndex]; a nil index is [None]. *)
Definition NewIndex (level : Level) : option Index :=
  match level with Off => None | _ => Some {| ix_entries := ∅; ix_level := level |} end.

(** ** Recording *)

Definition record_value (level : Level) (path : string) (src : SourceRef) (v : value) (es : entries) : entries :=
  if bool_decide (level = TopLevel) && strings_Contains path "." then es
  else <[path := default [] (es !! path) ++ [{| o_Path := path; o_Source := src; o_Value := v |}]]> es.

Definition RecordValue (o : option Index) (path : string) (src : SourceRef) (v : value) : option Index :=
  match o with
  | None => None
  | Some ix => Some {| ix_entries := record_value (ix_level ix) path src v (ix_entries ix); ix_level := ix_level ix |}
  end.

Definition Record_ (o : option Index) (path : string) (src : SourceRef) : option Index :=
  RecordValue o path src VNil.

(** One entry of the loop of [recordTreeDepth], at depth [depth]. *)
Fixpoint record_entry (level : Level) (full : string) (src : SourceRef) (depth : nat) (v : value) (es : entries) :
    entries :=
  match v with
  | VMap nested =>
      match level with
      | Full =>
          if maxTreeDepth <? S depth then es
          else map_fold (λ k v es, record_entry level (join_path full k) src (S depth) v es) es nested
      | _ => record_value level full src VNil es
      end
  | VNilMap => match level with Full => es | _ => record_value level full src VNil es end
  | VSlice _ | VNilSlice =>
      match level with
      | Full => record_value level full src (CloneValue v) es
      | _ => record_value level full src VNil es
      end
  | _ =>
      match level with
      | Full => record_value level full src v es
      | _ => record_value level full src VNil es
      end
  end.

Definition recordTreeDepth (level : Level) (prefix : string) (m : gomap) (src : SourceRef) (depth : nat)
    (es : entries) : entries :=
  if maxTreeDepth <? depth then es
  else map_fold (λ k v es, record_entry level (join_path prefix k) src depth v es) es (default ∅ m).

Definition RecordTree (o : option Index) (prefix : string) (m : gomap) (src : SourceRef) : option Index :=
  match o with
  | None => None
  | Some ix => Some {| ix_entries := recordTreeDepth (ix_level ix) prefix m src 0 (ix_entries ix);
                       ix_level := ix_level ix |}
  end.

Definition cloneOrigin (o : Origin) : Origin :=
  {| o_Path := o_Path o; o_Source := o_Source o; o_Value := CloneValue (o_Value o) |}.

(** [Explain]; the nil chain is the empty one. *)
Definition Explain (o : option Index) (path : string) : list Origin :=
  match o with
  | None => []
  | Some ix => cloneOrigin <$> default [] (ix_entries ix !! path)
  end.

(** ** Dotted paths of segments without dots *)

Definition segment (s : string) : Prop := s ≠ "" ∧ no_byte "." s = true.
Definition dotted (segs : list string) : string := strings_Join segs ".".

Lemma dotted_inj a b :
  Forall segment a → Forall segment b → a ≠ [] → b ≠ [] → dotted a = dotted b → a = b.
Proof.
  intros Ha Hb Hna Hnb Heq.
  rewrite <-(Split_Join "." a), <-(Split_Join "." b); [by f_equal|done|..|done|];
    (eapply Forall_impl; [done|]; by intros ? [? ?]).
Qed.

Lemma join_cons_ne p ps sep : p ≠ "" → strings_Join (p :: ps) sep ≠ "".
Proof. intros Hp. destruct p; [done|]. by destruct ps. Qed.

Lemma Join_snoc segs k sep :
  segs ≠ [] → strings_Join (segs ++ [k]) sep = strings_Join segs sep +:+ sep +:+ k.
Proof.
  induction segs as [|s segs IH]; intros Hne; [done|].
  destruct segs as [|s' segs]; [done|].
  change ((s :: s' :: segs) ++ [k]) with (s :: ((s' :: segs) ++ [k])).
  rewrite Join_cons by (by destruct segs). rewrite IH by done.
  rewrite (Join_cons s (s' :: segs)) by done. by rewrite !app_str_assoc.
Qed.

Lemma join_path_dotted segs k :
  Forall segment segs → join_path (dotted segs) k = dotted (segs ++ [k]).
Proof.
  intros Hs. unfold join_path, dotted. destruct segs as [|s segs]; [done|].
  apply Forall_cons_1 in Hs as [[Hs _] _].
  rewrite (proj2 (String.eqb_neq _ _) (join_cons_ne s segs "." Hs)). by rewrite Join_snoc.
Qed.

(** ** What one tree contributes *)

Definition is_leaf (v : value) : bool := match v with VMap _ | VNilMap => false | _ => true end.

(** The leaf at a path below a value met at depth [d]. *)
Fixpoint leaf_at (d : nat) (v : value) (q : list string) : option value :=
  match q with
  | [] => if is_leaf v then Some v else None
  | k :: q =>
      match v with
      | VMap m => if maxTreeDepth <? S d then None else m !! k ≫= λ x, leaf_at (S d) x q
      | _ => None
      end
  end.

(** No key of the tree has a dot or is empty. *)
Fixpoint dotfree (v : value) : Prop :=
  match v with
  | VMap m => map_fold (λ k x P, P ∧ segment k ∧ dotfree x) True m
  | _ => True
  end.

Lemma dotfree_map m : dotfree (VMap m) ↔ map_Forall (λ k x, segment k ∧ dotfree x) m.
Proof.
  simpl. apply (map_fold_weak_ind (λ P m, P ↔ map_Forall (λ k x, segment k ∧ dotfree x) m)).
  - split; [|done]. intros _. apply map_Forall_empty.
  - intros k x m' P Hk IH. rewrite map_Forall_insert by done. tauto.
Qed.

Definition chain (es : entries) (path : string) : list Origin := default [] (es !! path).

Definition contribution (path : string) (src : SourceRef) (o : option value) : list Origin :=
  match o with Some v => [{| o_Path := path; o_Source := src; o_Value := v |}] | None => [] end.

Lemma record_value_full path src v es p :
  chain (record_value Full path src v es) p = chain es p ++ (if decide (path = p) then contribution path src (Some v) else []).
Proof.
  unfold record_value, chain. rewrite bool_decide_false by done. simpl.
  destruct (decide (path = p)) as [<-|Hne].
  - by rewrite lookup_insert_eq.
  - rewrite lookup_insert_ne by done. by rewrite app_nil_r.
Qed.

(** What [record_entry] does at the path [segs] of the index. *)
Definition records (segs : list string) (src : SourceRef) (d : nat) (v : value) (es es' : entries) : Prop :=
  (∀ q, Forall segment q →
     chain es' (dotted (segs ++ q)) = chain es (dotted (segs ++ q))
       ++ contribution (dotted (segs ++ q)) src (leaf_at d v q))
  ∧ (∀ path, (∀ q, Forall segment q → path ≠ dotted (segs ++ q)) → chain es' path = chain es path).

Lemma records_leaf segs src d v es :
  Forall segment segs → segs ≠ [] → is_leaf v = true →
  records segs src d v es (record_value Full (dotted segs) src v es).
Proof.
  intros Hs Hne Hv. split.
  - intros q Hq. rewrite record_value_full. f_equal. destruct q as [|k q].
    + rewrite app_nil_r. rewrite decide_True by done. simpl. by rewrite Hv.
    + rewrite decide_False.
      * simpl. by destruct v.
      * intros Heq. apply dotted_inj in Heq; [|done|by apply Forall_app|done|by destruct segs].
        apply (f_equal length) in Heq. rewrite length_app in Heq. simpl in Heq. lia.
  - intros path Hp. rewrite record_value_full, decide_False; [by rewrite app_nil_r|].
    intros <-. apply (Hp []); [constructor|]. by rewrite app_nil_r.
Qed.

Lemma records_nothing segs src d v es :
  (∀ q, leaf_at d v q = None) → records segs src d v es es.
Proof. intros Hv. split; [|done]. intros q _. rewrite Hv. simpl. by rewrite app_nil_r. Qed.

(** The entries of a map, one after the other. *)
Lemma records_map segs src d m es :
  Forall segment segs → (segs ≠ [] ∨ d = 0) → map_Forall (λ k x, segment k ∧ dotfree x) m →
  (∀ k x es, m !! k = Some x → segment k → dotfree x →
     records (segs ++ [k]) src d x es (record_entry Full (dotted (segs ++ [k])) src d x es)) →
  let es' := map_fold (λ k x es, record_entry Full (join_path (dotted segs) k) src d x es) es m in
  (∀ k q, Forall segment (k :: q) →
     chain es' (dotted (segs ++ k :: q)) = chain es (dotted (segs ++ k :: q))
       ++ contribution (dotted (segs ++ k :: q)) src (m !! k ≫= λ x, leaf_at d x q))
  ∧ (∀ path, (∀ k q, Forall segment (k :: q) → path ≠ dotted (segs ++ k :: q)) → chain es' path = chain es path).
Proof.
  intros Hs _ Hm Hrec. cbv zeta. revert Hm Hrec.
  apply (map_fold_weak_ind (λ es' m,
    map_Forall (λ k x, segment k ∧ dotfree x) m →
    (∀ k x es, m !! k = Some x → segment k → dotfree x →
       records (segs ++ [k]) src d x es (record_entry Full (dotted (segs ++ [k])) src d x es)) →
    (∀ k q, Forall segment (k :: q) →
       chain es' (dotted (segs ++ k :: q)) = chain es (dotted (segs ++ k :: q))
         ++ contribution (dotted (segs ++ k :: q)) src (m !! k ≫= λ x, leaf_at d x q))
    ∧ (∀ path, (∀ k q, Forall segment (k :: q) → path ≠ dotted (segs ++ k :: q)) →
         chain es' path = chain es path))).
  - intros _ _. split; [|done]. intros k q _. rewrite lookup_empty. simpl. by rewrite app_nil_r.
  - intros k x m' es' Hk IH [[Hsk Hx] Hm']%map_Forall_insert Hrec; [|done].
    destruct IH as [IH1 IH2]; [done| |].
    { intros k' x' es'' Hk'. apply (Hrec k' x' es''). by rewrite lookup_insert_ne by congruence. }
    rewrite join_path_dotted by done.
    destruct (Hrec k x es') as [Hr1 Hr2]; [by rewrite lookup_insert_eq|done..|].
    split.
    + intros k' q Hq. destruct (decide (k = k')) as [<-|Hne].
      * replace (segs ++ k :: q) with ((segs ++ [k]) ++ q) by (by rewrite <-app_assoc).
        rewrite Hr1 by (by apply Forall_cons_1 in Hq as [_ ?]).
        replace ((segs ++ [k]) ++ q) with (segs ++ k :: q) by (by rewrite <-app_assoc).
        rewrite IH1 by done. rewrite Hk, lookup_insert_eq. simpl. by rewrite app_nil_r.
      * rewrite Hr2; [by rewrite IH1, lookup_insert_ne|]. intros q' Hq' Heq.
        rewrite <-app_assoc in Heq. apply dotted_inj in Heq; [| | |by destruct segs|by destruct segs].
        -- apply app_inv_head in Heq. by injection Heq.
        -- by apply Forall_app.
        -- apply Forall_app. split; [done|]. by constructor.
    + intros path Hp. rewrite Hr2; [by apply IH2|]. intros q Hq ->.
      apply (Hp k q); [by constructor|]. by rewrite <-app_assoc.
Qed.

Lemma record_entry_spec v segs src d es :
  Forall segment segs → segs ≠ [] → dotfree v →
  records segs src d v es (record_entry Full (dotted segs) src d v es).
Proof.
  revert segs d es. induction v as [v IH] using value_lt_ind. intros segs d es Hs Hne Hv.
  destruct v; simpl record_entry; rewrite ?CloneValue_id;
    try (by apply records_leaf).
  - destruct (maxTreeDepth <? S d) eqn:Hd.
    { apply records_nothing. intros [|k q]; simpl; [done|]. by rewrite Hd. }
    rewrite dotfree_map in Hv.
    destruct (records_map segs src (S d) m es) as [H1 H2]; [done|by left|done| |].
    { intros k x es' Hk Hsk Hx. apply IH; [by eapply value_size_map|by apply Forall_app; auto|by destruct segs|done]. }
    split.
    + intros [|k q] Hq.
      * rewrite app_nil_r. simpl. rewrite app_nil_r. apply H2. intros k q Hq' Heq.
        apply dotted_inj in Heq; [|done|by apply Forall_app|done|by destruct segs].
        apply (f_equal length) in Heq. rewrite length_app in Heq. simpl in Heq. lia.
      * rewrite H1 by done. simpl. by rewrite Hd.
    + intros path Hp. apply H2. intros k q Hq. by apply Hp.
  - apply records_nothing. by intros [|k q].
  - change (VSlice (map CloneValue l)) with (CloneValue (VSlice l)). rewrite CloneValue_id. by apply records_leaf.
Qed.

(** ** Whole trees *)

Definition leaf_value (v : option value) : option value :=
  v ≫= λ v, if is_leaf v then Some v else None.

Lemma leaf_at_get d v q : d + length q ≤ maxTreeDepth → leaf_at d v q = leaf_value (get_at v q).
Proof.
  revert d v. induction q as [|k q IH]; intros d v Hd; [done|].
  simpl in Hd. destruct v; try done. cbn [leaf_at get_at as_map gomap_lookup].
  rewrite (proj2 (Nat.ltb_ge _ _)) by lia. simpl. destruct (m !! k) as [x|]; [|done].
  apply IH. lia.
Qed.

Lemma record_tree_chain m src es k q :
  dotfree (VMap m) → Forall segment (k :: q) → length q ≤ maxTreeDepth →
  chain (recordTreeDepth Full "" (Some m) src 0 es) (dotted (k :: q)) =
  chain es (dotted (k :: q)) ++ contribution (dotted (k :: q)) src (leaf_value (get_at (VMap m) (k :: q))).
Proof.
  intros Hm Hq Hlen. rewrite dotfree_map in Hm. unfold recordTreeDepth. simpl default.
  destruct (records_map [] src 0 m es) as [H1 _]; [constructor|by right|done| |].
  - intros k' x es' Hk' Hs Hx. apply record_entry_spec; [by constructor|done|done].
  - simpl in H1. change (dotted []) with "" in H1. rewrite H1 by done. f_equal. f_equal.
    rewrite get_at_map. destruct (m !! k) as [x|]; simpl; [|done]. by apply leaf_at_get.
Qed.

(** [Explain] names exactly the layers that wrote a field. When the trees of
    some layers, whose keys contain no dot, are recorded one after the other at
    the full level, the chain of a path consists of the layers that have a leaf
    at that path, oldest first, each with the leaf it contributed; the layer
    that wrote last comes last. *)
Theorem explain_lists_writers (layers : list (gmap string value * SourceRef)) (p : list string)
    (Hkeys : Forall (λ l, dotfree (VMap l.1)) layers) (Hp : Forall segment p)
    (Hlen : 0 < length p ≤ 257) :
  Explain (foldl (λ ix l, RecordTree ix "" (Some l.1) l.2) (NewIndex Full) layers) (dotted p) =
  concat ((λ l, match Get (Some l.1) p with
                | Some v => if is_leaf v then [{| o_Path := dotted p; o_Source := l.2; o_Value := v |}] else []
                | None => []
                end) <$> layers).
Proof.
  destruct p as [|k q]; [simpl in Hlen; lia|]. simpl in Hlen.
  assert (∀ ix, ix_level ix = Full →
    Explain (foldl (λ ix l, RecordTree ix "" (Some l.1) l.2) (Some ix) layers) (dotted (k :: q)) =
    Explain (Some ix) (dotted (k :: q)) ++
    concat ((λ l, contribution (dotted (k :: q)) l.2 (leaf_value (get_at (VMap l.1) (k :: q)))) <$> layers)) as Hall.
  { induction Hkeys as [|[m src] layers Hm _ IH]; intros ix Hix; [by rewrite app_nil_r|].
    cbn [foldl RecordTree]. rewrite IH by done. simpl concat. rewrite app_assoc. f_equal.
    unfold Explain. cbn [ix_entries]. rewrite Hix.
    change (default [] (?e !! ?x)) with (chain e x).
    cbn [fst snd] in *. rewrite record_tree_chain by (done || unfold maxTreeDepth; lia).
    rewrite fmap_app. f_equal. rewrite get_at_map.
    destruct (leaf_value _); [|done]. cbn [contribution fmap list_fmap]. unfold cloneOrigin. simpl.
    by rewrite CloneValue_id. }
  unfold NewIndex. rewrite Hall by done.
  assert (Explain (Some {| ix_entries := ∅; ix_level := Full |}) (dotted (k :: q)) = []) as ->
    by (unfold Explain; simpl; by rewrite lookup_empty).
  rewrite app_nil_l. f_equal.
  apply list_fmap_ext. intros i [m src] _. unfold leaf_value, contribution. simpl.
  destruct (m !! k) as [x|]; [|done]. destruct (get_at x q) as [v|]; [|done]. simpl. by destruct (is_leaf v).
Qed.

Definition ex_src (p : string) : SourceRef :=
  {| sr_Path := p; sr_Kind := LayerMerge; sr_Profile := ""; sr_Priority := 1000; sr_Codec := "yaml";
     sr_Revision := ""; sr_Stale := false |}.

Lemma explain_lists_writers_witness :
  Explain (foldl (λ ix l, RecordTree ix "" (Some l.1) l.2) (NewIndex Full)
             [({["a" := VMap {["b" := VBool false]}]}, ex_src "base");
              ({["c" := VNil]}, ex_src "mid");
              ({["a" := VMap {["b" := VBool true]}]}, ex_src "top")]) "a.b"
  = [{| o_Path := "a.b"; o_Source := ex_src "base"; o_Value := VBool false |};
     {| o_Path := "a.b"; o_Source := ex_src "top"; o_Value := VBool true |}].
Proof.
  etransitivity; [apply (explain_lists_writers
           [({["a" := VMap {["b" := VBool false]}]}, ex_src "base");
            ({["c" := VNil]}, ex_src "mid");
            ({["a" := VMap {["b" := VBool true]}]}, ex_src "top")] ["a"; "b"])|].
  - repeat constructor; discriminate.
  - repeat constructor; done.
  - simpl. lia.
  - vm_compute. reflexivity.
Defined.
