(* ===== verification/LayerCache.v ===== *)
(** * Decoded-layer cache (layer_cache.go)

    A FIFO cache of decoded file layers and the one-entry cache of merge keys:
    their bounds, and that a cached result is the one decoding would give. *)
From S2P Require Import Prelude GoStrings Value Clone Scan.
Open Scope nat_scope.

Definition maxCachedLayers : nat := 512.

(** [layerCacheKey]: path and codec. *)
Definition layerCacheKey : Type := string * string.

Record decodedLayer := { dl_sum : string; dl_generation : N; dl_tree : gomap }.

Record layerCache := {
  lc_entries : gmap layerCacheKey decodedLayer;
  lc_keys : list layerCacheKey;
  lc_next : nat;
}.

Definition empty_cache : layerCache := {| lc_entries := ∅; lc_keys := []; lc_next := 0 |}.

Definition cloneTree (l : decodedLayer) : gomap := DeepClone (dl_tree l).

Section cache.
Context {E : Type}.

(** The slot a new key takes: the oldest one once the cache is full. *)
Definition claim_slot (c : layerCache) (key : layerCacheKey) : layerCache :=
  match lc_entries c !! key with
  | Some _ => c
  | None =>
      if length (lc_keys c) =? maxCachedLayers then
        {| lc_entries := match lc_keys c !! lc_next c with
                         | Some old => delete old (lc_entries c)
                         | None => lc_entries c
                         end;
           lc_keys := <[lc_next c := key]> (lc_keys c);
           lc_next := (lc_next c + 1) mod maxCachedLayers |}
      else {| lc_entries := lc_entries c; lc_keys := lc_keys c ++ [key]; lc_next := lc_next c |}
  end.

Definition getOrDecode (c : layerCache) (layer : Layer) (sum : string) (dec : string → result E gomap)
    (generation : N) : layerCache * result E decodedLayer :=
  let key := (l_Path layer, l_Codec layer) in
  let miss :=
    match dec (l_Bytes layer) with
    | Err e => (c, Err e)
    | Ok raw =>
        let c := claim_slot c key in
        let entry := {| dl_sum := sum; dl_generation := generation; dl_tree := raw |} in
        ({| lc_entries := <[key := entry]> (lc_entries c); lc_keys := lc_keys c; lc_next := lc_next c |},
         Ok entry)
    end in
  match lc_entries c !! key with
  | Some cached =>
      if String.eqb (dl_sum cached) sum && N.eqb (dl_generation cached) generation then (c, Ok cached) else miss
  | None => miss
  end.

(** ** Bounds *)

Record cache_wf (c : layerCache) : Prop := {
  wf_dom : dom (lc_entries c) = list_to_set (lc_keys c);
  wf_nodup : NoDup (lc_keys c);
  wf_len : length (lc_keys c) ≤ maxCachedLayers;
  wf_next : lc_next c < maxCachedLayers;
}.

Lemma empty_cache_wf : cache_wf empty_cache.
Proof. split; simpl; [set_solver|constructor|lia|unfold maxCachedLayers; lia]. Qed.

Lemma NoDup_insert (l : list layerCacheKey) i k : NoDup l → k ∉ l → NoDup (<[i := k]> l).
Proof.
  intros Hl Hk. apply NoDup_alt. intros a b x Ha Hb.
  apply list_lookup_insert_Some in Ha as [(-> & -> & _)|[Hne Ha]];
    apply list_lookup_insert_Some in Hb as [(-> & Heq & _)|[Hne' Hb]]; try done.
  - exfalso. apply Hk. by eapply list_elem_of_lookup_2.
  - subst. exfalso. apply Hk. by eapply list_elem_of_lookup_2.
  - by eapply NoDup_lookup.
Qed.

Lemma elem_of_insert_keys (l : list layerCacheKey) i k old :
  NoDup l → l !! i = Some old → ∀ x, x ∈ <[i := k]> l ↔ x = k ∨ (x ∈ l ∧ x ≠ old).
Proof.
  intros Hl Hi x. rewrite !list_elem_of_lookup. split.
  - intros [j Hj]. apply list_lookup_insert_Some in Hj as [(-> & -> & _)|[Hne Hj]]; [by left|right].
    split; [by exists j|]. intros ->. apply Hne. by eapply NoDup_lookup.
  - intros [->|[[j Hj] Hne]].
    + exists i. apply list_lookup_insert_eq. by eapply lookup_lt_Some.
    + exists j. rewrite list_lookup_insert_ne; [done|]. intros ->. congruence.
Qed.

Lemma claim_slot_wf c key :
  cache_wf c →
  let c' := claim_slot c key in
  {[key]} ∪ dom (lc_entries c') = list_to_set (lc_keys c') ∧ NoDup (lc_keys c')
  ∧ length (lc_keys c') ≤ maxCachedLayers ∧ lc_next c' < maxCachedLayers
  ∧ lc_entries c' ⊆ lc_entries c.
Proof.
  intros [Hd Hn Hl Hx]. unfold claim_slot. destruct (lc_entries c !! key) as [e|] eqn:Hk.
  { cbv zeta. split_and!; [|done..]. rewrite Hd. apply elem_of_dom_2 in Hk. rewrite Hd in Hk. set_solver. }
  assert (key ∉ lc_keys c) as Hnew.
  { intros Hin. apply not_elem_of_dom in Hk. apply Hk. rewrite Hd. set_solver. }
  destruct (Nat.eqb_spec (length (lc_keys c)) maxCachedLayers) as [Hfull|Hroom]; cbn [lc_keys lc_next lc_entries].
  - destruct (lookup_lt_is_Some_2 (lc_keys c) (lc_next c)) as [old Hold]; [by rewrite Hfull|]. rewrite Hold.
    split_and!.
    + rewrite dom_delete_L, Hd. apply set_eq. intros x.
      rewrite elem_of_union, elem_of_singleton, elem_of_difference, elem_of_singleton, !elem_of_list_to_set.
      by rewrite (elem_of_insert_keys _ _ _ old).
    + by apply NoDup_insert.
    + rewrite length_insert. lia.
    + apply Nat.mod_upper_bound. unfold maxCachedLayers. lia.
    + apply delete_subseteq.
  - split_and!; [rewrite Hd, list_to_set_app_L; set_solver| |rewrite length_app; simpl; lia|done|done].
    apply NoDup_app. split_and!; [done| |apply NoDup_singleton]. set_solver.
Qed.

Lemma getOrDecode_wf c layer sum dec generation :
  cache_wf c → cache_wf (getOrDecode c layer sum dec generation).1.
Proof.
  intros Hwf. unfold getOrDecode.
  assert (cache_wf (match dec (l_Bytes layer) with
    | Err e => (c, Err e)
    | Ok raw =>
        let c := claim_slot c (l_Path layer, l_Codec layer) in
        let entry := {| dl_sum := sum; dl_generation := generation; dl_tree := raw |} in
        ({| lc_entries := <[(l_Path layer, l_Codec layer) := entry]> (lc_entries c); lc_keys := lc_keys c;
            lc_next := lc_next c |}, Ok entry)
    end : layerCache * result E decodedLayer).1) as Hmiss.
  { destruct (dec (l_Bytes layer)); [|done].
    destruct (claim_slot_wf c (l_Path layer, l_Codec layer) Hwf) as (H1 & H2 & H3 & H4 & _).
    split; simpl; [|done..]. by rewrite dom_insert_L. }
  destruct (lc_entries c !! _); [|exact Hmiss]. destruct (_ && _); [done|exact Hmiss].
Qed.

(** ** Transparency *)

(** The decoder registered for a codec at a generation of the registry, and the
    digest of a file. *)
Context (decode : string → N → string → result E gomap) (sha : string → string).

(** One lookup: the layer and the generation of the registry. *)
Notation request := (Layer * N)%type.

Definition run_request (c : layerCache) (r : request) : layerCache * result E decodedLayer :=
  getOrDecode c r.1 (sha (l_Bytes r.1)) (decode (l_Codec r.1) r.2) r.2.

Fixpoint run_requests (c : layerCache) (rs : list request) : list (result E decodedLayer) :=
  match rs with
  | [] => []
  | r :: rs => let '(c, res) := run_request c r in res :: run_requests c rs
  end.

(** Every entry was decoded from bytes among [seen]. *)
Definition sound (seen : list string) (c : layerCache) : Prop :=
  ∀ p k e, lc_entries c !! (p, k) = Some e →
    ∃ b, b ∈ seen ∧ dl_sum e = sha b ∧ decode k (dl_generation e) b = Ok (dl_tree e).

Lemma run_request_sound seen c r :
  (∀ b, b ∈ seen → sha b = sha (l_Bytes r.1) → b = l_Bytes r.1) →
  sound seen c →
  sound (l_Bytes r.1 :: seen) (run_request c r).1
  ∧ (run_request c r).2 =
      match decode (l_Codec r.1) r.2 (l_Bytes r.1) with
      | Ok t => Ok {| dl_sum := sha (l_Bytes r.1); dl_generation := r.2; dl_tree := t |}
      | Err e => Err e
      end.
Proof.
  destruct r as [layer gen]. cbn [fst snd]. intros Hinj Hs.
  assert (sound (l_Bytes layer :: seen) c) as Hs'.
  { intros p k e He. destruct (Hs p k e He) as (b & Hb & ?). exists b. split; [by constructor|done]. }
  unfold run_request, getOrDecode. cbn [fst snd].
  assert (∀ d, d = decode (l_Codec layer) gen (l_Bytes layer) → sound (l_Bytes layer :: seen)
    (match d with
     | Err e => (c, Err e)
     | Ok raw =>
        ({| lc_entries := <[(l_Path layer, l_Codec layer) :=
              {| dl_sum := sha (l_Bytes layer); dl_generation := gen; dl_tree := raw |}]>
              (lc_entries (claim_slot c (l_Path layer, l_Codec layer)));
            lc_keys := lc_keys (claim_slot c (l_Path layer, l_Codec layer));
            lc_next := lc_next (claim_slot c (l_Path layer, l_Codec layer)) |}, 
         Ok {| dl_sum := sha (l_Bytes layer); dl_generation := gen; dl_tree := raw |})
     end : layerCache * result E decodedLayer).1) as Hmiss.
  { intros [raw|e] Hd; [|done]. intros p k e He. simpl in He.
    destruct (decide ((l_Path layer, l_Codec layer) = (p, k))) as [Heq|Hne].
    - rewrite Heq, lookup_insert_eq in He. simplify_eq. exists (l_Bytes layer). simpl.
      split; [constructor|]. by split.
    - rewrite lookup_insert_ne in He by done. apply (Hs' p k e).
      unfold claim_slot in He. destruct (lc_entries c !! _); [done|]. destruct (_ =? _); [|done].
      simpl in He. destruct (lc_keys c !! lc_next c); [|done].
      by apply lookup_delete_Some in He as [_ He]. }
  destruct (lc_entries c !! (l_Path layer, l_Codec layer)) as [cached|] eqn:Hc.
  - destruct (String.eqb_spec (dl_sum cached) (sha (l_Bytes layer))) as [Hsum|]; simpl.
    2:{ split; [by apply Hmiss|]. by destruct (decode _ _ _). }
    destruct (N.eqb_spec (dl_generation cached) gen) as [Hgen|]; simpl.
    2:{ split; [by apply Hmiss|]. by destruct (decode _ _ _). }
    split; [done|]. destruct (Hs _ _ _ Hc) as (b & Hb & Hsb & Hd).
    assert (b = l_Bytes layer) as -> by (apply Hinj; congruence).
    rewrite <-Hgen, Hd, <-Hsum. by destruct cached.
  - split; [by apply Hmiss|]. by destruct (decode _ _ _).
Qed.

End cache.

(** The cache is transparent. Over any sequence of lookups that starts with
    an empty cache, with whatever layers, contents and registry generations,
    every lookup returns what decoding that layer's bytes with the decoder of
    its generation returns, errors included, provided the digest does not
    confuse two of the contents met. *)
Theorem layer_cache_transparent {E} (decode : string → N → string → result E gomap) (sha : string → string)
    (rs : list (Layer * N))
    (Hsha : ∀ r1 r2, r1 ∈ rs → r2 ∈ rs → sha (l_Bytes r1.1) = sha (l_Bytes r2.1) → l_Bytes r1.1 = l_Bytes r2.1) :
  run_requests decode sha empty_cache rs =
  (λ r, match decode (l_Codec r.1) r.2 (l_Bytes r.1) with
        | Ok t => Ok {| dl_sum := sha (l_Bytes r.1); dl_generation := r.2; dl_tree := t |}
        | Err e => Err e
        end) <$> rs.
Proof.
  assert (∀ seen c, sound decode sha seen c →
    (∀ b r, b ∈ seen → r ∈ rs → sha b = sha (l_Bytes r.1) → b = l_Bytes r.1) →
    run_requests decode sha c rs = (λ r, match decode (l_Codec r.1) r.2 (l_Bytes r.1) with
        | Ok t => Ok {| dl_sum := sha (l_Bytes r.1); dl_generation := r.2; dl_tree := t |}
        | Err e => Err e
        end) <$> rs) as Hall.
  { induction rs as [|r rs IH]; intros seen c Hs Hseen; [done|].
    destruct (run_request_sound decode sha seen c r) as [Hs' Hres];
      [intros b Hb; apply (Hseen b r); [done|constructor]|done|].
    cbn [run_requests]. destruct (run_request decode sha c r) as [c' res]. simpl in Hs', Hres. subst res.
    rewrite fmap_cons. f_equal. apply (IH (λ r1 r2 H1 H2, Hsha r1 r2 (list_elem_of_further _ _ _ H1) (list_elem_of_further _ _ _ H2))
      (l_Bytes r.1 :: seen)); [done|].
    intros b r' [->|Hb]%elem_of_cons Hr' Heq; [apply Hsha; [constructor|by constructor|done]|].
    apply Hseen; [done|by constructor|done]. }
  apply (Hall []); [done|]. intros b r Hb. by apply not_elem_of_nil in Hb.
Qed.

Definition ex_layer (path bytes : string) : Layer := {|
  l_Path := path; l_Kind := KindMerge; l_Profile := ""; l_Priority := 1000; l_Codec := "yaml"; l_Bytes := bytes |}.

(** A decoder for the example: the text under the key "text". *)
Definition ex_decode (codec : string) (generation : N) (bytes : string) : result unit gomap :=
  if String.eqb bytes "!" then Err () else Ok (Some {["text" := VString bytes]}).

Lemma layer_cache_transparent_witness :
  run_requests ex_decode (λ b, b) empty_cache
    [(ex_layer "a" "1", 5%N); (ex_layer "a" "1", 5%N); (ex_layer "a" "!", 5%N); (ex_layer "a" "2", 6%N)] =
  [Ok {| dl_sum := "1"; dl_generation := 5; dl_tree := Some {["text" := VString "1"]} |};
   Ok {| dl_sum := "1"; dl_generation := 5; dl_tree := Some {["text" := VString "1"]} |};
   Err ();
   Ok {| dl_sum := "2"; dl_generation := 6; dl_tree := Some {["text" := VString "2"]} |}].
Proof.
  apply (layer_cache_transparent ex_decode (λ b, b)
    [(ex_layer "a" "1", 5%N); (ex_layer "a" "1", 5%N); (ex_layer "a" "!", 5%N); (ex_layer "a" "2", 6%N)]).
  done.
Defined.

(** The cache is bounded. After any sequence of lookups from an empty cache
    it holds at most [maxCachedLayers] entries, exactly the keys of its queue,
    each once. *)
Theorem layer_cache_bounded {E} (calls : list (Layer * string * (string → result E gomap) * N)) :
  let c := foldl (λ c r, let '(layer, sum, dec, g) := r in (getOrDecode c layer sum dec g).1) empty_cache calls in
  size (lc_entries c) ≤ 512 ∧ dom (lc_entries c) = list_to_set (lc_keys c) ∧ NoDup (lc_keys c).
Proof.
  cbv zeta.
  assert (∀ c, cache_wf c →
    cache_wf (foldl (λ c r, let '(layer, sum, dec, g) := r in (getOrDecode c layer sum dec g).1) c calls)) as Hall.
  { induction calls as [|[[[layer sum] dec] g] calls IH]; intros c Hc; [done|]. simpl.
    apply IH. by apply getOrDecode_wf. }
  destruct (Hall _ empty_cache_wf) as [Hd Hn Hl _]. split_and!; [|done..].
  rewrite <-(size_dom (D := gset layerCacheKey)), Hd, size_list_to_set by done. exact Hl.
Qed.

(** ** The cache of merge keys *)

Record metaKeysCache := { mk_sum : string; mk_keys : gmap string string; mk_set : bool }.

Definition getOrBuild `{GoStd} (c : metaKeysCache) (metaBytes : string) (build : unit → gmap string string) :
    metaKeysCache * gmap string string :=
  let sum := go_sha256 metaBytes in
  let c := if negb (mk_set c) || negb (String.eqb (mk_sum c) sum)
           then {| mk_sum := sum; mk_keys := build (); mk_set := true |} else c in
  (c, mk_keys c).

(** The table kept was built from some content with the recorded digest. *)
Definition meta_sound `{GoStd} (build : string → gmap string string) (c : metaKeysCache) : Prop :=
  mk_set c = true → ∃ b, mk_sum c = go_sha256 b ∧ mk_keys c = build b.

Lemma getOrBuild_spec `{GoStd} (build : string → gmap string string) c b :
  meta_sound build c →
  (∀ b', mk_set c = true → mk_sum c = go_sha256 b' → go_sha256 b' = go_sha256 b → build b' = build b) →
  (getOrBuild c b (λ _, build b)).2 = build b ∧ meta_sound build (getOrBuild c b (λ _, build b)).1.
Proof.
  intros Hs Hinj. unfold getOrBuild. cbv zeta.
  destruct (mk_set c) eqn:Hset; cbn [negb orb fst snd].
  2:{ split; [done|]. intros _. by exists b. }
  destruct (String.eqb_spec (mk_sum c) (go_sha256 b)) as [Heq|Hne]; cbn [negb fst snd].
  - split; [|exact Hs]. destruct (Hs Hset) as (b' & Hb' & ->). apply (Hinj b'); [done..|congruence].
  - split; [done|]. intros _. by exists b.
Qed.
