(* ===== verification/History.v ===== *)
(** * Snapshot history (history.go)

    The ring buffer of retained snapshots refines a bounded queue. *)
From S2P Require Import Prelude.
Open Scope nat_scope.

(** [ring]: an array of [cap] cells, the live ones from [head], wrapping. *)
Record ring (E : Type) := {
  r_cap : nat;
  r_items : list (option E);
  r_head : nat;
  r_size : nat;
}.
Arguments r_cap {E} _.
Arguments r_items {E} _.
Arguments r_head {E} _.
Arguments r_size {E} _.

Section ring_ops.
Context {E : Type}.

(** A nil ring is [None]. *)
Definition newRing (cap : Z) : option (ring E) :=
  if (cap <=? 0)%Z then None
  else Some {| r_cap := Z.to_nat cap; r_items := replicate (Z.to_nat cap) None; r_head := 0; r_size := 0 |}.

Definition Push (r : option (ring E)) (item : E) : option (ring E) :=
  match r with
  | None => None
  | Some r =>
      let tail := (r_head r + r_size r) mod r_cap r in
      let items := <[tail := Some item]> (r_items r) in
      Some (if r_size r <? r_cap r
            then {| r_cap := r_cap r; r_items := items; r_head := r_head r; r_size := S (r_size r) |}
            else {| r_cap := r_cap r; r_items := items; r_head := (r_head r + 1) mod r_cap r; r_size := r_size r |})
  end.

(** The cell number [i] of the live ones. *)
Definition cell (r : ring E) (i : nat) : option E :=
  default None (r_items r !! ((r_head r + i) mod r_cap r)).

Definition Snapshot (r : option (ring E)) : list (option E) :=
  match r with None => [] | Some r => cell r <$> seq 0 (r_size r) end.

Fixpoint find_from (pred : E → bool) (cells : list (option E)) : option E :=
  match cells with
  | [] => None
  | Some s :: cells => if pred s then Some s else find_from pred cells
  | None :: cells => find_from pred cells
  end.

Definition Find (r : option (ring E)) (pred : option (E → bool)) : option E :=
  match r, pred with
  | Some r, Some pred => find_from pred (cell r <$> seq 0 (r_size r))
  | _, _ => None
  end.

(** ** The queue it implements *)

(** At most [cap] items, oldest first: a push drops the oldest when full. *)
Definition queue_push (cap : nat) (q : list E) (item : E) : list E :=
  if length q <? cap then q ++ [item] else tail q ++ [item].

Record ring_ok (r : ring E) : Prop := {
  ok_cap : 0 < r_cap r;
  ok_items : length (r_items r) = r_cap r;
  ok_head : r_head r < r_cap r;
  ok_size : r_size r ≤ r_cap r;
}.

(** The live cells hold the queue. *)
Definition represents (r : ring E) (q : list E) : Prop :=
  ring_ok r ∧ cell r <$> seq 0 (r_size r) = Some <$> q.

Lemma represents_length r q : represents r q → length q = r_size r.
Proof.
  intros [_ Heq]. apply (f_equal length) in Heq. rewrite !length_fmap, length_seq in Heq. done.
Qed.

Lemma represents_cells r q :
  ring_ok r → length q = r_size r → (∀ i, i < r_size r → cell r i = q !! i) → represents r q.
Proof.
  intros Hok Hlen Hcell. split; [done|]. apply list_eq. intros i. rewrite !list_lookup_fmap.
  destruct (decide (i < r_size r)) as [Hi|Hi].
  - rewrite lookup_seq_lt by done. simpl. rewrite Hcell by done.
    destruct (q !! i) eqn:Hq; [done|]. apply lookup_ge_None in Hq. lia.
  - rewrite (lookup_ge_None_2 (seq 0 _)) by (rewrite length_seq; lia).
    rewrite (lookup_ge_None_2 q) by lia. done.
Qed.

Lemma cells_represent r q i : represents r q → i < r_size r → cell r i = q !! i.
Proof.
  intros [_ Heq] Hi. apply (f_equal (.!! i)) in Heq. rewrite !list_lookup_fmap, lookup_seq_lt in Heq by done.
  simpl in Heq. destruct (q !! i); simpl in *; congruence.
Qed.

(** The cells of a ring, apart from the one after the last, survive a push. *)
Lemma mod_wrap a cap : 0 < cap → a < 2 * cap → a mod cap = if a <? cap then a else a - cap.
Proof.
  intros Hc Ha. destruct (Nat.ltb_spec a cap); [by apply Nat.mod_small|].
  rewrite <-(Nat.mod_small (a - cap) cap) by lia.
  rewrite <-(Nat.Div0.mod_add (a - cap) 1 cap). f_equal. lia.
Qed.

Lemma Push_represents r q item :
  represents r q → ∃ r', Push (Some r) item = Some r' ∧ r_cap r' = r_cap r ∧ represents r' (queue_push (r_cap r) q item).
Proof.
  intros Hr. pose proof (represents_length r q Hr) as Hlen. pose proof Hr as [[Hc Hi Hh Hs] _].
  unfold Push, queue_push. eexists. split; [done|]. rewrite Hlen.
  destruct (Nat.ltb_spec (r_size r) (r_cap r)) as [Hlt|Hge]; simpl.
  - split; [done|]. apply represents_cells; simpl.
    + split; simpl; rewrite ?length_insert; lia.
    + rewrite length_app. simpl. lia.
    + intros i Hi'. unfold cell. simpl. rewrite !mod_wrap by lia.
      destruct (decide (i = r_size r)) as [->|Hne].
      * rewrite list_lookup_insert_eq by (rewrite Hi; destruct (Nat.ltb_spec (r_head r + r_size r) (r_cap r)); lia).
        simpl. by rewrite <-Hlen, lookup_app_r, Nat.sub_diag by lia.
      * rewrite list_lookup_insert_ne
          by (destruct (Nat.ltb_spec (r_head r + r_size r) (r_cap r)), (Nat.ltb_spec (r_head r + i) (r_cap r)); lia).
        rewrite lookup_app_l by lia. rewrite <-(cells_represent r q i Hr) by lia.
        unfold cell. by rewrite mod_wrap by lia.
  - assert (r_size r = r_cap r) as Hfull by lia. split; [done|].
    rewrite (mod_wrap (r_head r + 1)) by lia. apply represents_cells; simpl.
    + split; simpl; rewrite ?length_insert; try lia. destruct (Nat.ltb_spec (r_head r + 1) (r_cap r)); lia.
    + rewrite length_app. destruct q; simpl in *; lia.
    + intros i Hi'. destruct q as [|x q]; [simpl in *; lia|]. simpl in Hlen. unfold cell. simpl.
      assert ((r_head r + r_size r) mod r_cap r = r_head r) as ->.
      { rewrite mod_wrap by lia. destruct (Nat.ltb_spec (r_head r + r_size r) (r_cap r)); lia. }
      assert (((if r_head r + 1 <? r_cap r then r_head r + 1 else r_head r + 1 - r_cap r) + i) mod r_cap r
              = (r_head r + S i) mod r_cap r) as ->.
      { destruct (Nat.ltb_spec (r_head r + 1) (r_cap r)); [f_equal; lia|].
        rewrite <-(Nat.Div0.mod_add (r_head r + 1 - r_cap r + i) 1 (r_cap r)). f_equal. lia. }
      destruct (decide (i = length q)) as [->|Hne].
      * replace (r_head r + S (length q)) with (r_head r + r_cap r) by lia.
        rewrite mod_wrap, (proj2 (Nat.ltb_ge _ _)) by lia. replace (r_head r + r_cap r - r_cap r) with (r_head r) by lia.
        rewrite list_lookup_insert_eq by lia. by rewrite lookup_app_r, Nat.sub_diag by lia.
      * rewrite mod_wrap by lia.
        rewrite list_lookup_insert_ne by (destruct (Nat.ltb_spec (r_head r + S i) (r_cap r)); lia).
        rewrite lookup_app_l by lia. change (q !! i) with ((x :: q) !! S i).
        rewrite <-(cells_represent r (x :: q) (S i) Hr) by lia. unfold cell. by rewrite mod_wrap by lia.
Qed.

Lemma newRing_represents cap r : newRing cap = Some r → r_cap r = Z.to_nat cap ∧ represents r [].
Proof.
  unfold newRing. destruct (Z.leb_spec cap 0); [done|]. intros [= <-]. split; [done|].
  apply represents_cells; simpl; [|done|lia]. split; simpl; rewrite ?length_replicate; lia.
Qed.

Lemma Find_represents r q pred : represents r q → Find (Some r) (Some pred) = List.find pred q.
Proof.
  intros [_ Heq]. unfold Find. rewrite Heq. clear Heq. induction q as [|x q IH]; simpl; [done|].
  destruct (pred x); [done|exact IH].
Qed.

End ring_ops.

(** The last [n] elements of a list. *)
Definition last_n {E} (n : nat) (l : list E) : list E := drop (length l - n) l.

Lemma tail_drop {E} n (l : list E) : tail (drop n l) = drop (S n) l.
Proof. revert n. induction l as [|x l IH]; intros [|n]; simpl; [done..|by destruct l|apply IH]. Qed.

Lemma queue_push_last_n {E} cap (l : list E) x :
  0 < cap → queue_push cap (last_n cap l) x = last_n cap (l ++ [x]).
Proof.
  intros Hc. unfold queue_push, last_n. rewrite length_drop, length_app. simpl.
  destruct (Nat.ltb_spec (length l - (length l - cap)) cap).
  - replace (length l - cap) with 0 by lia. replace (length l + 1 - cap) with 0 by lia. by rewrite !drop_0.
  - replace (length l + 1 - cap) with (S (length l - cap)) by lia.
    rewrite drop_app_le by lia. f_equal. apply tail_drop.
Qed.

(** The ring is a bounded queue. After any pushes into a new ring, the
    snapshot lists the last [cap] items pushed, oldest first, none missing and
    none repeated; [Find] is the first of these that satisfies the predicate; a
    ring of no capacity retains nothing. *)
Theorem ring_refines_queue {E} (cap : Z) (pushed : list E) (pred : E → bool) :
  let r := foldl Push (newRing cap) pushed in
  Snapshot r = Some <$> last_n (Z.to_nat cap) pushed
  ∧ Find r (Some pred) = List.find pred (last_n (Z.to_nat cap) pushed).
Proof.
  cbv zeta. destruct (newRing cap) as [r0|] eqn:Hnew.
  - destruct (newRing_represents cap r0 Hnew) as [Hcap Hr0].
    assert (∃ r, foldl Push (Some r0) pushed = Some r ∧ r_cap r = Z.to_nat cap
      ∧ represents r (last_n (Z.to_nat cap) pushed)) as (r & -> & _ & Hr).
    { induction pushed as [|x pushed IH] using rev_ind.
      - exists r0. split_and!; [done..|]. unfold last_n. by rewrite drop_nil.
      - destruct IH as (r & Hf & Hc & Hr). rewrite foldl_app, Hf. simpl.
        destruct (Push_represents r _ x Hr) as (r' & Hp & Hc' & Hr'). exists r'.
        split_and!; [done|congruence|]. rewrite Hc in Hr'. rewrite <-queue_push_last_n; [done|].
        destruct Hr as [[] _]. lia. }
    split; [by destruct Hr|by apply Find_represents].
  - assert (foldl Push (@None (ring E)) pushed = None) as -> by (by induction pushed).
    unfold newRing in Hnew. destruct (Z.leb_spec cap 0); [|done].
    unfold last_n. rewrite drop_ge by lia. done.
Qed.
