(* ===== verification/Options.v ===== *)
(** * Options, errors and policies
    (options_resolve.go, internal/fcerr, policy/policy.go, contracts)

    The resolved options of a manager, the user code they carry as functions,
    and the error sentinels every stage reports. *)
From S2P Require Import Prelude GoStrings Value ProfileExpr Scan Provenance.
From Stdlib Require Import Ascii.

(** ** Errors *)

Inductive ctx_error := Canceled | DeadlineExceeded.

Inductive Severity := SeverityWarning | SeverityError.

#[export] Instance Severity_eq_dec : EqDecision Severity.
Proof. solve_decision. Defined.

Record Violation := { v_Path : string; v_Message : string; v_Severity : Severity; v_Rule : string }.

(** An error of the pipeline, by the sentinel it wraps; [detail] is its text.
    [PolicyError] satisfies [ErrInvalid] too; a context error is passed on, and so
    is [ErrTooLarge], of a file here. *)
Inductive fc_error :=
| ErrNoSources
| ErrDecode (detail : string)
| ErrFileTooLarge (detail : string)
| ErrMerge (detail : string)
| ErrTransform (detail : string)
| ErrProvider (detail : string)
| ErrInvalid (details : list string)
| PolicyError (vs : list Violation)
| ErrClosed
| ErrFastConf (detail : string)
| ErrHash (detail : string)
| ErrUnknownGeneration
| ErrHistoryDisabled
| CtxErr (e : ctx_error)
| ErrUser (detail : string).

Notation fres := (result fc_error).

(** [errors.Is(err, ErrFastConf)] *)
Definition is_fastconf (e : fc_error) : bool :=
  match e with CtxErr _ | ErrHash _ | ErrUser _ => false | _ => true end.

(** [errors.Is(err, ErrInvalid)] *)
Definition is_invalid (e : fc_error) : bool :=
  match e with ErrInvalid _ | PolicyError _ => true | _ => false end.

(** ** User code *)

(** [contracts.Generator]: one call of [Generate]. *)
Record GenSource := { gs_Name : string; gs_Codec : string; gs_Data : string; gs_Priority : Z }.
Record Generator := { g_Name : string; g_Generate : result string (list GenSource) }.

(** [contracts.Provider] and its metadata: one call of [Load]. *)
Inductive provider_error := ProviderCtx (e : ctx_error) | ProviderErr (detail : string).
Record ProviderSnapshot := { ps_Map : gomap; ps_Revision : string; ps_Stale : bool }.
Record providerEntry := {
  pe_Name : string;
  pe_Priority : Z;
  pe_Load : result provider_error ProviderSnapshot;
}.

(** [secret.Resolver]: [Recognize] and [Resolve]. *)
Record SecretRef := { ref_Scheme : string; ref_Body : string }.
Record SecretResolver := {
  Recognize : string → option SecretRef;
  Resolve : SecretRef → result string string;
}.

Inductive UnknownFields := UnknownIgnore | UnknownWarn | UnknownError.

#[export] Instance UnknownFields_eq_dec : EqDecision UnknownFields.
Proof. solve_decision. Defined.

(** ** Options of a manager of values of type [T] *)

Record policy (T : Type) := {
  p_Name : string;
  p_Evaluate : T → string → string → result string (list Violation);
}.
Arguments p_Name {T} _.
Arguments p_Evaluate {T} _.

Record options (T : Type) := {
  o_Dir : string;
  o_FS : option FileSystem;
  o_SkipDiscovery : bool;
  o_ProfileNames : list string;
  o_ProfileMatch : string;
  o_ProfileEnv : string;
  o_ProfileDefault : string;
  o_Strict : bool;
  o_Providers : list providerEntry;
  o_Axes : list AxisSpec;
  o_Validators : list (T → result string unit);
  o_Transforms : list (gomap → result string gomap);
  o_Provenance : Level;
  o_HistoryCap : Z;
  o_YAMLBridge : bool;
  o_UnknownFields : UnknownFields;
  o_Policies : list (policy T);
  o_SecretResolver : option SecretResolver;
  o_Generators : list Generator;
  o_TypedHooks : nat;
  o_MergeKeys : gmap string string;
  o_Observers : nat;
  o_Tenant : string;
}.
Arguments o_Dir {T} _.
Arguments o_FS {T} _.
Arguments o_SkipDiscovery {T} _.
Arguments o_ProfileNames {T} _.
Arguments o_ProfileMatch {T} _.
Arguments o_ProfileEnv {T} _.
Arguments o_ProfileDefault {T} _.
Arguments o_Strict {T} _.
Arguments o_Providers {T} _.
Arguments o_Axes {T} _.
Arguments o_Validators {T} _.
Arguments o_Transforms {T} _.
Arguments o_Provenance {T} _.
Arguments o_HistoryCap {T} _.
Arguments o_YAMLBridge {T} _.
Arguments o_UnknownFields {T} _.
Arguments o_Policies {T} _.
Arguments o_SecretResolver {T} _.
Arguments o_Generators {T} _.
Arguments o_TypedHooks {T} _.
Arguments o_MergeKeys {T} _.
Arguments o_Observers {T} _.
Arguments o_Tenant {T} _.

Definition DefaultProfileEnv : string := "APP_PROFILE".

(** [trimProfiles]. *)
Definition trimProfiles (dst vals : list string) : list string :=
  foldl (λ dst x, let x := TrimSpace x in if String.eqb x "" then dst else dst ++ [x]) dst vals.

(** [activeProfiles]; [getenv] gives the empty string for an unset variable. *)
Definition activeProfiles {T} (o : options T) (getenv : string → string) (metaProfileEnv metaDefault : string) :
    list string :=
  match o_ProfileNames o with
  | _ :: _ => o_ProfileNames o
  | [] =>
      let env := o_ProfileEnv o in
      let env := if String.eqb env "" then metaProfileEnv else env in
      let env := if String.eqb env "" then DefaultProfileEnv else env in
      match trimProfiles [] (strings_Split (getenv env) ",") with
      | _ :: _ as v => v
      | [] =>
          if negb (String.eqb (o_ProfileDefault o) "") then [o_ProfileDefault o]
          else if negb (String.eqb metaDefault "") then [metaDefault]
          else []
      end
  end.

(** [addMergeKeys]: later entries replace earlier ones. *)
Definition addMergeKeys (old keys : gmap string string) : gmap string string := keys ∪ old.

(** The checks of [resolveOptions] once the option functions have run. *)
Definition check_options {T} (o : options T) (optionErrs : list fc_error) : fres unit :=
  match optionErrs with
  | e :: _ => Err e
  | [] =>
      if String.eqb (o_ProfileMatch o) "" then Ok ()
      else match Compile (o_ProfileMatch o) with
           | Err _ => Err (ErrFastConf (o_ProfileMatch o))
           | Ok _ => Ok ()
           end
  end.
