(* ===== verification/Subscribe.v ===== *)
(** * Subscriptions (subscribe.go)

    What a subscriber compares and when it fires, the registry of subscribers,
    and their notification in registration order with panics contained. *)
From S2P Require Import Prelude GoStrings.
Open Scope nat_scope.

(** What one call of a subscriber did; a panic is recovered by its caller. *)
Inductive sub_result := Silent | Fired | Panicked (msg : string).

(** A registered callback, on the values of the previous and of the next state. *)
Definition subscriber (T : Type) := option T → option T → sub_result.

(** User functions return, or panic with a message. *)
Notation may_panic := (result string).

(** The closure that [Subscribe] registers. *)
Section wrapper.
Context {T S : Type}.
Context (extract : T → may_panic (option S)) (deep_equal : S → S → bool) (equal : option (S → S → may_panic bool)).
Context (fn : option S → option S → may_panic ()).

Definition extract_from (v : option T) : may_panic (option S) := match v with Some v => extract v | None => Ok None end.

(** Whether the two extracted values call for no callback. *)
Definition suppressed (oldV newV : option S) : may_panic bool :=
  match oldV, newV with
  | None, None => Ok true
  | Some a, Some b => match equal with Some eq => eq a b | None => Ok (deep_equal a b) end
  | _, _ => Ok false
  end.

Definition wrapper : subscriber T := λ prev next,
  let r := oldV ← extract_from prev;
           newV ← extract_from next;
           same ← suppressed oldV newV;
           if same : bool then Ok false else fn oldV newV ≫= λ _, Ok true in
  match r with Err msg => Panicked msg | Ok true => Fired | Ok false => Silent end.
End wrapper.

(** A list of numbered items sorted by number is determined by its elements. *)
Lemma sorted_fst {A} (l : list (N * A)) : StronglySorted N.lt l.*1 → StronglySorted (λ a b, (a.1 < b.1)%N) l.
Proof.
  induction l as [|a l IH]; [by constructor|]. simpl. intros [Hl Ha]%StronglySorted_inv.
  constructor; [by apply IH|]. exact (proj1 (Forall_fmap _ _ _) Ha).
Qed.

Lemma StronglySorted_fst_eq {A} (l1 l2 : list (N * A)) :
  StronglySorted N.lt l1.*1 → StronglySorted N.lt l2.*1 → l1 ≡ₚ l2 → l1 = l2.
Proof.
  intros H1%sorted_fst H2%sorted_fst. apply (StronglySorted_unique_strong (λ a b, (a.1 < b.1)%N)); [|done..].
  intros x y _ _ Hxy Hyx. lia.
Qed.

(** ** The registry *)

Record subscriptions (T : Type) := { sb_subs : gmap N (subscriber T); sb_seq : N }.
Arguments Build_subscriptions {T} _ _.
Arguments sb_subs {T} _.
Arguments sb_seq {T} _.

Section registry.
Context {T : Type}.

Definition no_subscriptions : subscriptions T := Build_subscriptions ∅ 0.

(** [Subscribe]: the id is what the cancel function removes. *)
Definition Subscribe (r : subscriptions T) (w : subscriber T) : subscriptions T * N :=
  let id := (sb_seq r + 1)%N in
  (Build_subscriptions (<[id := w]> (sb_subs r)) id, id).

Definition cancel (r : subscriptions T) (id : N) : subscriptions T :=
  Build_subscriptions (delete id (sb_subs r)) (sb_seq r).

Definition id_leb (a b : N * subscriber T) : bool := (a.1 <=? b.1)%N.

(** The subscribers in the order in which they are called. *)
Definition ordered (r : subscriptions T) : list (N * subscriber T) := sort_stable id_leb (map_to_list (sb_subs r)).

(** [notifySubscribers]: every call, with its outcome. *)
Definition notifySubscribers (r : subscriptions T) (prev next : option T) : list (N * sub_result) :=
  match next with
  | None => []
  | Some _ => (λ s, (s.1, s.2 prev next)) <$> ordered r
  end.

(** What the recovered panics publish on the error channel. *)
Definition panic_errors (calls : list (N * sub_result)) : list string :=
  omap (λ c, match c.2 with Panicked msg => Some ("subscriber panic: " +:+ msg) | _ => None end) calls.

(** Registered ids were issued by the counter. *)
Definition ids_issued (r : subscriptions T) : Prop := ∀ id, is_Some (sb_subs r !! id) → (id <= sb_seq r)%N.

Lemma Subscribe_fresh r : ids_issued r → sb_subs r !! (sb_seq r + 1)%N = None.
Proof.
  intros Hr. destruct (sb_subs r !! (sb_seq r + 1)%N) eqn:Hs; [|done].
  specialize (Hr (sb_seq r + 1)%N ltac:(by rewrite Hs)). lia.
Qed.

Lemma Subscribe_issued r w : ids_issued r → ids_issued (Subscribe r w).1.
Proof.
  intros Hr id. simpl. intros [w' Hw]. apply lookup_insert_Some in Hw as [[<- _]|[_ Hw]]; [lia|].
  specialize (Hr id ltac:(by rewrite Hw)). lia.
Qed.

Lemma cancel_issued r id : ids_issued r → ids_issued (cancel r id).
Proof. intros Hr id'. simpl. intros [w [_ Hw]%lookup_delete_Some]. apply Hr. by rewrite Hw. Qed.

Lemma ordered_perm r : ordered r ≡ₚ map_to_list (sb_subs r).
Proof. apply sort_stable_perm. Qed.

Lemma id_leb_total a b : id_leb a b = true ∨ id_leb b a = true.
Proof. unfold id_leb. destruct (N.leb_spec a.1 b.1); [by left|right]. apply N.leb_le. lia. Qed.

Lemma id_leb_trans a b c : id_leb a b = true → id_leb b c = true → id_leb a c = true.
Proof. unfold id_leb. rewrite !N.leb_le. lia. Qed.

Lemma ordered_sorted r : StronglySorted N.lt (ordered r).*1.
Proof.
  pose proof (sort_stable_sorted id_leb id_leb_total id_leb_trans (map_to_list (sb_subs r))) as Hs.
  assert (NoDup (ordered r).*1) as Hnd by (rewrite ordered_perm; apply NoDup_fst_map_to_list).
  unfold ordered in *. induction Hs as [|a l _ IH Ha]; [constructor|].
  apply NoDup_cons in Hnd as [Hna Hnd]. constructor; [by apply IH|].
  apply Forall_fmap, Forall_forall. intros b Hb. rewrite Forall_forall in Ha. specialize (Ha b Hb).
  unfold id_leb in Ha. apply N.leb_le in Ha. simpl.
  destruct (decide (a.1 = b.1)) as [Heq|]; [|lia].
  destruct Hna. rewrite Heq. apply list_elem_of_fmap. by exists b.
Qed.
End registry.

(** When a subscriber fires. If the user functions do not panic, the callback
    runs exactly when the two extracted values are not both absent and, if both
    are present, the comparator (deep equality by default) tells them apart; it
    receives the two extracted values. *)
Theorem subscription_fires {T S} (extract : T → option S) (deep_equal : S → S → bool) (equal : option (S → S → bool))
    (fn : option S → option S → result string ()) (prev next : option T) :
  let oldV := prev ≫= extract in
  let newV := next ≫= extract in
  let same := default deep_equal equal in
  wrapper (λ v, Ok (extract v)) deep_equal ((λ eq a b, Ok (eq a b)) <$> equal) fn prev next =
  if match oldV, newV with None, None => true | Some a, Some b => same a b | _, _ => false end then Silent
  else match fn oldV newV with Ok _ => Fired | Err msg => Panicked msg end.
Proof.
  intros oldV newV same. unfold wrapper.
  assert (∀ v, extract_from (λ v, Ok (extract v)) v = Ok (v ≫= extract)) as Hex by (by intros []).
  rewrite !Hex. fold oldV newV. cbn [mbind result_bind]. unfold suppressed.
  destruct oldV as [a|], newV as [b|]; try done; try (by destruct (fn _ _)).
  unfold same. destruct equal as [eq|]; simpl;
    [destruct (eq a b)|destruct (deep_equal a b)]; simpl; try done; by destruct (fn _ _).
Qed.

(** Every subscriber is notified once, in the order of registration. After a
    publication each registered subscriber has been called exactly once with the
    two states, in increasing order of registration, and none other; a
    subscriber that panics changes neither the calls of the others nor their
    outcomes; it is only reported. *)
Theorem subscribers_notified {T} (r : subscriptions T) (prev : option T) (next : T) :
  let calls := notifySubscribers r prev (Some next) in
  StronglySorted N.lt calls.*1
  ∧ (∀ id res, (id, res) ∈ calls ↔ ∃ w, sb_subs r !! id = Some w ∧ res = w prev (Some next))
  ∧ (∀ id w msg, sb_subs r !! id = Some w → w prev (Some next) = Panicked msg →
       "subscriber panic: " +:+ msg ∈ panic_errors calls).
Proof.
  intros calls.
  assert (∀ id res, (id, res) ∈ calls ↔ ∃ w, sb_subs r !! id = Some w ∧ res = w prev (Some next)) as Hin.
  { intros id res. unfold calls. simpl. rewrite list_elem_of_fmap. split.
    - intros ([id' w] & [= -> ->] & Hw). rewrite ordered_perm in Hw. apply elem_of_map_to_list in Hw. by exists w.
    - intros (w & Hw & ->). exists (id, w). split; [done|]. rewrite ordered_perm. by apply elem_of_map_to_list. }
  split_and!; [|done|].
  - unfold calls. simpl. rewrite <-list_fmap_compose. apply (ordered_sorted r).
  - intros id w msg Hw Hp. apply list_elem_of_omap. exists (id, Panicked msg). split; [|done].
    apply Hin. exists w. by rewrite Hp.
Qed.

(** Subscribing and cancelling. A new subscription gets an id that no
    registered subscription has, even after cancellations; it is called after
    all the earlier ones; and cancelling it restores the registry it was added
    to, so that no callback of it runs any more. *)
Theorem subscribe_cancel {T} (r : subscriptions T) (w : subscriber T) (Hr : ids_issued r) :
  let '(r', id) := Subscribe r w in
  sb_subs r !! id = None ∧ ids_issued r'
  ∧ (∀ prev next, notifySubscribers r' prev (Some next) = notifySubscribers r prev (Some next) ++ [(id, w prev (Some next))])
  ∧ (∀ prev next, notifySubscribers (cancel r' id) prev next = notifySubscribers r prev next).
Proof.
  pose proof (Subscribe_fresh r Hr) as Hfresh. pose proof (Subscribe_issued r w Hr) as Hiss.
  cbn [Subscribe] in *. cbn [fst] in Hiss. split_and!; [done|done| |].
  - intros prev next. cbn [notifySubscribers]. 
    assert (ordered (Build_subscriptions (<[(sb_seq r + 1)%N:=w]> (sb_subs r)) (sb_seq r + 1)) = ordered r ++ [((sb_seq r + 1)%N, w)]) as ->.
    { apply StronglySorted_fst_eq.
      - apply ordered_sorted.
      - rewrite fmap_app. apply StronglySorted_app_2; [|apply ordered_sorted|by repeat constructor].
        intros a b Ha Hb. apply list_elem_of_singleton in Hb as ->.
        apply list_elem_of_fmap in Ha as ([id w'] & -> & Hw). rewrite ordered_perm in Hw.
        apply elem_of_map_to_list in Hw. specialize (Hr id ltac:(by rewrite Hw)). simpl. lia.
      - rewrite !ordered_perm. simpl. rewrite map_to_list_insert by done. by rewrite Permutation_app_comm. }
    by rewrite fmap_app.
  - intros prev [next|]; [|done]. unfold notifySubscribers, ordered, cancel. simpl. by rewrite delete_insert_id.
Qed.

Lemma subscribe_cancel_witness :
  notifySubscribers (cancel (Subscribe (no_subscriptions (T := nat)) (λ _ _, Fired)).1 1) None (Some 5) = [].
Proof.
  assert (ids_issued (no_subscriptions (T := nat))) as Hr.
  { intros id [w Hw]. simpl in Hw. by rewrite lookup_empty in Hw. }
  destruct (subscribe_cancel (no_subscriptions (T := nat)) (λ _ _, Fired) Hr) as (_ & _ & _ & Hc).
  etransitivity; [apply (Hc None (Some 5))|]. vm_compute. reflexivity.
Defined.
