(* ===== verification/Assemble.v ===== *)
(** * Assembly of layers (assemble.go, input_fingerprint.go)

    [assemble] collects file, generator and provider layers, orders them by
    class, priority and declaration, and stamps the inputs with a fingerprint. *)
From S2P Require Import Prelude GoStrings Value Clone CodecRegistry Scan Provenance LayerCache Options.
From Stdlib Require Import Ascii.
Open Scope nat_scope.

Inductive layerClass := classFile | classGenerator | classProvider | classOverride.

Definition class_rank (c : layerClass) : Z :=
  match c with classFile => 0 | classGenerator => 1 | classProvider => 2 | classOverride => 3 end.

Definition rankOffsetGenerator : Z := 7000.
Definition rankOffsetProvider : Z := 8000.
Definition rankOffsetOverride : Z := 9000.
Definition rankSecretResolved : Z := rankOffsetOverride + 500.

(** A SHA-256 sum is a string of 32 bytes; the zero sum marks its absence. *)
Fixpoint zero_bytes (n : nat) : string := match n with O => "" | S n => String "000" (zero_bytes n) end.
Definition zero32 : string := zero_bytes 32.

(** [stagedLayer]; a nil patch is [None]. *)
Record stagedLayer := {
  sl_src : SourceRef;
  sl_class : layerClass;
  sl_classPriority : Z;
  sl_data : gomap;
  sl_cached : option decodedLayer;
  sl_patch : option string;
  sl_fileSum : string;
}.

(** [compareLayers a b <= 0]. *)
Definition layer_leb (a b : stagedLayer) : bool :=
  match Z.compare (class_rank (sl_class a)) (class_rank (sl_class b)) with
  | Lt => true
  | Gt => false
  | Eq => (sl_classPriority a <=? sl_classPriority b)%Z
  end.

Record rootMetaSettings := { rm_metaSum : string; rm_appendSlices : bool; rm_mergeKeys : gmap string string }.

Record assemblyResult := {
  ar_staged : list stagedLayer;
  ar_strict : bool;
  ar_appendSlices : bool;
  ar_mergeKeys : gmap string string;
  ar_fingerprint : string;
}.

(** The caches the writer owns. *)
Record caches := { ca_layers : layerCache; ca_meta : metaKeysCache }.

Definition mapLayerKind (k : Kind) : LayerKind :=
  match k with KindMerge => LayerMerge | KindPatch => LayerPatch | KindUnknown => LayerUnknown end.

(** ** What assembly asks of the codecs

    [codec.For] and [codec.DecodeAny] followed by [confmap.PatchBytesFromAny],
    the extension table, the registry's generation counter, and the metadata
    that YAML decoding finds in [_meta.yaml] files. *)
Class Codecs := {
  codec_For : string → option (string → result string gomap);
  codec_DecodeAny : string → string → result string value;
  codec_PatchBytes : value → result string (option string);
  codec_LookupExt : string → string;
  codec_Generation : N;
  yaml_match : string → option string;
  yaml_meta : string → option MetaSpec;
}.

(** What the process sees of its host. *)
Record world := {
  w_os : FileSystem;
  w_lookupEnv : string → option string;
  w_hostname : result string string;
  (** the generation of the codec registry when assembly ends *)
  w_generation : N;
}.

Definition getenv (w : world) (k : string) : string := default "" (w_lookupEnv w k).

(** ** Fingerprint of the inputs *)

Fixpoint le_bytes (n : nat) (z : Z) : string :=
  match n with
  | O => ""
  | S n => String (ascii_of_N (Z.to_N (z mod 256))) (le_bytes n (z / 256))
  end.
Definition le64 (z : Z) : string := le_bytes 8 z.
Definition nul : string := String "000" "".

Definition layer_record (l : stagedLayer) : string :=
  sr_Path (sl_src l) +:+ nul +:+ le64 (sr_Priority (sl_src l))
  +:+ sr_Profile (sl_src l) +:+ nul +:+ sr_Codec (sl_src l) +:+ nul +:+ sl_fileSum l.

Fixpoint layer_records (ls : list stagedLayer) : string :=
  match ls with [] => "" | l :: ls => layer_record l +:+ layer_records ls end.

Section assemble.
Context `{GoStd} `{Codecs} {T : Type}.
(** Whether [*T] implements [Defaulter] or has custom encodings. *)
Context (computed_value : bool).

Definition inputFingerprint (o : options T) (staged : list stagedLayer) (metaSum : string) (generation now : N) : string :=
  if negb (N.eqb generation now) then zero32
  else if bool_decide (o_Transforms o ≠ []) || bool_decide (is_Some (o_SecretResolver o))
          || (0 <? o_TypedHooks o) || bool_decide (o_Validators o ≠ []) || bool_decide (o_Policies o ≠ [])
          || (0 <? o_Observers o) then zero32
  else if computed_value then zero32
  else if existsb (λ l, String.eqb (sl_fileSum l) zero32) staged then zero32
  else go_sha256 (metaSum +:+ le64 (Z.of_N generation) +:+ layer_records staged).

(** ** Discovery settings *)

(** [discoveryError]: of the errors a scan returns only that of a file that is
    too large is already an error of the library, which stays what it is. *)
Definition discovery_error (e : scan_error) : fc_error :=
  match e with
  | ErrReadFile p (CodecRegistry.ErrTooLarge _) => ErrFileTooLarge p
  | _ => ErrDecode "discovery"
  end.

Definition resolveDiscovery (w : world) (o : options T) (hostnameOverride : string) (meta_cache : metaKeysCache) :
    metaKeysCache * fres (Scan.Options * rootMetaSettings) :=
  let scanOpt := {| BaseDir := ""; OverlayDir := ""; Profiles := []; GlobalMatch := ""; PatchSuffixes := [];
                    Scan.Strict := o_Strict o; opt_FS := o_FS o; AxisOverlays := [] |} in
  match LoadMeta (w_os w) (o_FS o) (o_Dir o) with
  | Err e => (meta_cache, Err (discovery_error e))
  | Ok metaFile =>
      let metaBytes := default "" metaFile in
      match (if String.eqb metaBytes "" then Some None else Some <$> yaml_meta metaBytes) with
      | None => (meta_cache, Err (ErrDecode "_meta.yaml"))
      | Some meta =>
          let scanOpt := ApplyTo meta scanOpt in
          let build := λ _ : unit, addMergeKeys (default ∅ (ms_MergeKeys <$> meta)) (o_MergeKeys o) in
          let '(meta_cache, keys) := getOrBuild meta_cache metaBytes build in
          let metaOut := {| rm_metaSum := go_sha256 metaBytes;
                            rm_appendSlices := default false (ms_AppendSlices <$> meta);
                            rm_mergeKeys := keys |} in
          let names := activeProfiles o (getenv w) (default "" (ms_ProfileEnv <$> meta))
                         (default "" (ms_DefaultProfile <$> meta)) in
          let host := if String.eqb hostnameOverride "" then w_hostname w else Ok hostnameOverride in
          let '(extras, _) := ResolveAxes (o_Axes o) (w_lookupEnv w) host in
          let scanOpt :=
            {| BaseDir := BaseDir scanOpt; OverlayDir := OverlayDir scanOpt;
               Profiles := names; GlobalMatch := match names with [] => "" | _ => o_ProfileMatch o end;
               PatchSuffixes := PatchSuffixes scanOpt; Scan.Strict := Scan.Strict scanOpt;
               opt_FS := opt_FS scanOpt; AxisOverlays := AxisOverlays scanOpt ++ extras |} in
          (meta_cache, Ok (scanOpt, metaOut))
      end
  end.

(** ** File layers *)

Definition file_src (l : Layer) : SourceRef :=
  {| sr_Path := l_Path l; sr_Kind := mapLayerKind (l_Kind l); sr_Profile := l_Profile l;
     sr_Priority := l_Priority l; sr_Codec := l_Codec l; sr_Revision := ""; sr_Stale := false |}.

(** One iteration of [assembleFileLayers]. *)
Definition file_layer (c : layerCache) (l : Layer) : layerCache * fres stagedLayer :=
  let src := file_src l in
  let sum := go_sha256 (l_Bytes l) in
  match l_Kind l with
  | KindPatch =>
      (c, match codec_DecodeAny (l_Codec l) (l_Bytes l) with
          | Err e => Err (ErrDecode (l_Path l))
          | Ok raw =>
              match codec_PatchBytes raw with
              | Err e => Err (ErrMerge (l_Path l))
              | Ok patch =>
                  Ok {| sl_src := src; sl_class := classFile; sl_classPriority := sr_Priority src;
                        sl_data := None; sl_cached := None; sl_patch := patch; sl_fileSum := sum |}
              end
          end)
  | _ =>
      match codec_For (l_Codec l) with
      | None => (c, Err (ErrDecode (l_Codec l)))
      | Some dec =>
          let '(c, raw) := getOrDecode c l sum dec codec_Generation in
          (c, match raw with
              | Err e => Err (ErrDecode (l_Path l))
              | Ok raw =>
                  Ok {| sl_src := src; sl_class := classFile; sl_classPriority := sr_Priority src;
                        sl_data := None; sl_cached := Some raw; sl_patch := None; sl_fileSum := sum |}
              end)
      end
  end.

(** The loop over [Scan]: the directories announced so far, the layers so far,
    and the first error, of the scan or of a layer, which stops it. *)
Fixpoint file_layers_loop (c : layerCache) (dirs : list string) (staged : list stagedLayer)
    (evs : list scan_event) (scan_err : option scan_error) : layerCache * list string * fres (list stagedLayer) :=
  match evs with
  | [] => (c, dirs, match scan_err with Some e => Err (discovery_error e) | None => Ok staged end)
  | OnDir d :: evs => file_layers_loop c (dirs ++ [d]) staged evs scan_err
  | Yield l :: evs =>
      match file_layer c l with
      | (c, Err e) => (c, dirs, Err e)
      | (c, Ok s) => file_layers_loop c dirs (staged ++ [s]) evs scan_err
      end
  end.

Definition assembleFileLayers (w : world) (o : options T) (c : layerCache) (scanOpt : Scan.Options) :
    layerCache * list string * fres (list stagedLayer) :=
  let '(evs, err) := Scan (w_os w) codec_LookupExt yaml_match (o_Dir o) scanOpt in
  file_layers_loop c [] [] evs err.

(** ** Generator and provider layers *)

Definition generator_layer (g : Generator) (gs : GenSource) : fres stagedLayer :=
  match codec_For (gs_Codec gs) with
  | None => Err (ErrDecode (g_Name g))
  | Some dec =>
      match dec (gs_Data gs) with
      | Err _ => Err (ErrDecode (g_Name g))
      | Ok raw =>
          Ok {| sl_src := {| sr_Path := "gen://" +:+ g_Name g +:+ "/" +:+ gs_Name gs; sr_Kind := LayerGenerator;
                             sr_Profile := ""; sr_Priority := (rankOffsetGenerator + gs_Priority gs)%Z;
                             sr_Codec := gs_Codec gs; sr_Revision := ""; sr_Stale := false |};
                sl_class := classGenerator; sl_classPriority := gs_Priority gs;
                sl_data := raw; sl_cached := None; sl_patch := None; sl_fileSum := zero32 |}
      end
  end.

Fixpoint assembleGeneratorLayers (gens : list Generator) : fres (list stagedLayer) :=
  match gens with
  | [] => Ok []
  | g :: gens =>
      match g_Generate g with
      | Err e => Err (ErrProvider (g_Name g))
      | Ok srcs =>
          layers ← mapR (generator_layer g) srcs;
          rest ← assembleGeneratorLayers gens;
          Ok (layers ++ rest)
      end
  end.

Definition provider_layer (e : providerEntry) (snap : ProviderSnapshot) (m : gmap string value) : stagedLayer :=
  {| sl_src := {| sr_Path := "provider://" +:+ pe_Name e; sr_Kind := LayerProvider; sr_Profile := "";
                  sr_Priority := (rankOffsetProvider + pe_Priority e)%Z; sr_Codec := "";
                  sr_Revision := ps_Revision snap; sr_Stale := ps_Stale snap |};
     sl_class := classProvider; sl_classPriority := pe_Priority e;
     sl_data := DeepClone (Some m); sl_cached := None; sl_patch := None; sl_fileSum := zero32 |}.

Fixpoint assembleProviderLayers (ps : list providerEntry) : fres (list stagedLayer) :=
  match ps with
  | [] => Ok []
  | e :: ps =>
      match pe_Load e with
      | Err (ProviderCtx c) => Err (CtxErr c)
      | Err (ProviderErr _) => Err (ErrProvider (pe_Name e))
      | Ok snap =>
          match ps_Map snap with
          | None => assembleProviderLayers ps
          | Some m =>
              rest ← assembleProviderLayers ps;
              Ok (provider_layer e snap m :: rest)
          end
      end
  end.

(** ** Assembly *)

Definition sort_layers (l : list stagedLayer) : list stagedLayer := sort_stable layer_leb l.

Definition empty_meta : rootMetaSettings := {| rm_metaSum := zero32; rm_appendSlices := false; rm_mergeKeys := ∅ |}.

(** The layers of all classes put together, in the order of precedence. *)
Definition finish_assembly (o : options T) (generation now : N) (strict : bool) (meta : rootMetaSettings)
    (files : list stagedLayer) (extra : list stagedLayer) : fres assemblyResult :=
  gens ← assembleGeneratorLayers (o_Generators o);
  provs ← assembleProviderLayers (o_Providers o);
  let staged := files ++ gens ++ provs ++ extra in
  match staged with
  | [] => Err ErrNoSources
  | _ =>
      let staged := sort_layers staged in
      Ok {| ar_staged := staged; ar_strict := strict; ar_appendSlices := rm_appendSlices meta;
            ar_mergeKeys := rm_mergeKeys meta;
            ar_fingerprint := inputFingerprint o staged (rm_metaSum meta) generation now |}
  end.

(** [assemble]: the caches, the directories scanned and the outcome. *)
Definition assemble (w : world) (o : options T) (ctx : option ctx_error) (hostnameOverride : string)
    (ca : caches) (extra : list stagedLayer) : caches * list string * fres assemblyResult :=
  match ctx with
  | Some e => (ca, [], Err (CtxErr e))
  | None =>
      let generation := codec_Generation in
      if o_SkipDiscovery o then (ca, [], finish_assembly o generation (w_generation w) (o_Strict o) empty_meta [] extra)
      else
        let '(mc, r) := resolveDiscovery w o hostnameOverride (ca_meta ca) in
        let ca := {| ca_layers := ca_layers ca; ca_meta := mc |} in
        match r with
        | Err e => (ca, [], Err e)
        | Ok (scanOpt, meta) =>
            let '(lc, dirs, files) := assembleFileLayers w o (ca_layers ca) scanOpt in
            let ca := {| ca_layers := lc; ca_meta := ca_meta ca |} in
            match files with
            | Err e => (ca, dirs, Err e)
            | Ok files => (ca, dirs, finish_assembly o generation (w_generation w) (Scan.Strict scanOpt) meta files extra)
            end
        end
  end.

End assemble.

(** ** Lemmas *)

Lemma layer_leb_refl a : layer_leb a a = true.
Proof. unfold layer_leb. rewrite Z.compare_refl. apply Z.leb_refl. Qed.

Lemma layer_leb_total a b : layer_leb a b = true ∨ layer_leb b a = true.
Proof.
  unfold layer_leb. rewrite (Z.compare_antisym (class_rank (sl_class a))).
  destruct (Z.compare (class_rank (sl_class a)) _); simpl; [|by left|by right].
  destruct (Z.leb_spec (sl_classPriority a) (sl_classPriority b)); [by left|right]. apply Z.leb_le. lia.
Qed.

Lemma layer_leb_trans a b c : layer_leb a b = true → layer_leb b c = true → layer_leb a c = true.
Proof.
  unfold layer_leb. intros H1 H2.
  destruct (Z.compare_spec (class_rank (sl_class a)) (class_rank (sl_class b))),
    (Z.compare_spec (class_rank (sl_class b)) (class_rank (sl_class c))),
    (Z.compare_spec (class_rank (sl_class a)) (class_rank (sl_class c))); try done; try lia.
Qed.

(** ** Order *)

(** Layers of one class and one priority. *)
Definition same_place (a b : stagedLayer) : Prop :=
  sl_class a = sl_class b ∧ sl_classPriority a = sl_classPriority b.

#[export] Instance layerClass_eq_dec : EqDecision layerClass.
Proof. solve_decision. Defined.

#[export] Instance same_place_dec a b : Decision (same_place a b).
Proof. unfold same_place. apply _. Defined.

Lemma class_rank_inj a b : class_rank a = class_rank b → a = b.
Proof. by destruct a, b. Qed.

Lemma equivb_same_place a b : equivb layer_leb a b = true ↔ same_place a b.
Proof.
  unfold equivb, layer_leb, same_place. rewrite andb_true_iff.
  rewrite (Z.compare_antisym (class_rank (sl_class a))).
  destruct (Z.compare_spec (class_rank (sl_class a)) (class_rank (sl_class b))) as [Heq|Hlt|Hgt]; simpl.
  - apply class_rank_inj in Heq. rewrite !Z.leb_le. split; [intros [? ?]; split; [done|lia]|intros [_ ->]; lia].
  - split; [by intros [_ ?]|]. intros [Heq _]. rewrite Heq in Hlt. lia.
  - split; [by intros [? _]|]. intros [Heq _]. rewrite Heq in Hgt. lia.
Qed.

Lemma sort_layers_filter k l : filter (same_place k) (sort_layers l) = filter (same_place k) l.
Proof.
  rewrite <-!(list_filter_iff (λ y, equivb layer_leb k y = true) (same_place k) _ (equivb_same_place k)).
  apply sort_stable_filter. apply layer_leb_trans.
Qed.

Lemma finish_assembly_Ok `{GoStd} `{Codecs} {T} computed (o : options T) g now strict meta files extra r :
  finish_assembly computed o g now strict meta files extra = Ok r →
  ∃ gens provs, assembleGeneratorLayers (o_Generators o) = Ok gens
    ∧ assembleProviderLayers (o_Providers o) = Ok provs
    ∧ ar_staged r = sort_layers (files ++ gens ++ provs ++ extra)
    ∧ ar_staged r ≠ [].
Proof.
  unfold finish_assembly. intros (gens & Hg & (provs & Hp & Hr)%bind_Ok)%bind_Ok.
  exists gens, provs. split_and!; [done..| |].
  - by destruct (files ++ gens ++ provs ++ extra) eqn:Hl; inv_result.
  - destruct (files ++ gens ++ provs ++ extra) as [|s l] eqn:Hl; inv_result. simpl.
    intros Hnil. pose proof (sort_stable_perm layer_leb (s :: l)) as Hperm.
    change (sort_stable layer_leb (s :: l)) with (insert_stable layer_leb s (sort_stable layer_leb l)) in Hperm.
    unfold sort_layers in Hnil. simpl in Hnil. rewrite Hnil in Hperm. by apply Permutation_nil_cons in Hperm.
Qed.

(** ** The fingerprint identifies the inputs *)

(** What the fingerprint records of a layer. *)
Definition layer_id (l : stagedLayer) : string * Z * string * string * string :=
  (sr_Path (sl_src l), sr_Priority (sl_src l), sr_Profile (sl_src l), sr_Codec (sl_src l), sl_fileSum l).

(** File names, profiles and codecs hold no NUL byte, and sums are 32 bytes. *)
Definition layer_ok (l : stagedLayer) : Prop :=
  no_byte "000" (sr_Path (sl_src l)) = true ∧ no_byte "000" (sr_Profile (sl_src l)) = true
  ∧ no_byte "000" (sr_Codec (sl_src l)) = true ∧ String.length (sl_fileSum l) = 32
  ∧ (0 <= sr_Priority (sl_src l) < 2 ^ 63)%Z.

Lemma le_bytes_length n z : String.length (le_bytes n z) = n.
Proof. revert z. induction n; intros z; simpl; [done|]. by rewrite IHn. Qed.

Lemma le_bytes_inj n a b :
  (0 <= a < 256 ^ Z.of_nat n)%Z → (0 <= b < 256 ^ Z.of_nat n)%Z → le_bytes n a = le_bytes n b → a = b.
Proof.
  revert a b. induction n as [|n IH]; intros a b Ha Hb Heq; [simpl in *; lia|].
  cbn [le_bytes] in Heq. injection Heq as Hbyte Hrest.
  rewrite Nat2Z.inj_succ, Z.pow_succ_r in Ha, Hb by lia.
  apply (f_equal N_of_ascii) in Hbyte.
  pose proof (Z.mod_pos_bound a 256 ltac:(lia)). pose proof (Z.mod_pos_bound b 256 ltac:(lia)).
  rewrite !N_ascii_embedding in Hbyte by lia.
  assert (a mod 256 = b mod 256)%Z as Hmod by lia.
  assert (a / 256 = b / 256)%Z as Hdiv.
  { apply IH; [| |exact Hrest]; split; try (apply Z.div_pos; lia); apply Z.div_lt_upper_bound; lia. }
  rewrite (Z.div_mod a 256), (Z.div_mod b 256) by lia. congruence.
Qed.

Lemma le64_inj a b : (0 <= a < 2 ^ 64)%Z → (0 <= b < 2 ^ 64)%Z → le64 a = le64 b → a = b.
Proof. exact (le_bytes_inj 8 a b). Qed.

Lemma layer_record_inj a b x y :
  layer_ok a → layer_ok b → layer_record a +:+ x = layer_record b +:+ y → layer_id a = layer_id b ∧ x = y.
Proof.
  intros (Ha1 & Ha2 & Ha3 & Ha4 & Ha5) (Hb1 & Hb2 & Hb3 & Hb4 & Hb5). unfold layer_record, layer_id, nul.
  rewrite !app_str_assoc. cbn [String.append].
  intros [Hp H1]%app_byte_inj; [|done..].
  apply app_length_inj in H1 as [Hpr H1]; [|by unfold le64; rewrite !le_bytes_length].
  apply app_byte_inj in H1 as [Hprof H1]; [|done..].
  apply app_byte_inj in H1 as [Hcodec H1]; [|done..].
  apply app_length_inj in H1 as [Hsum ->]; [|congruence].
  apply le64_inj in Hpr; [|lia..]. by rewrite Hp, Hpr, Hprof, Hcodec, Hsum.
Qed.

Lemma layer_records_inj l1 l2 :
  Forall layer_ok l1 → Forall layer_ok l2 → layer_records l1 = layer_records l2 → layer_id <$> l1 = layer_id <$> l2.
Proof.
  intros H1. revert l2. induction H1 as [|a l1 Ha _ IH]; intros l2 H2 Heq.
  - destruct H2 as [|b l2 Hb _]; [done|]. exfalso. apply (f_equal String.length) in Heq. simpl in Heq.
    unfold layer_record, nul in Heq. rewrite !length_app_str in Heq. simpl in Heq. lia.
  - destruct H2 as [|b l2 Hb H2].
    + exfalso. apply (f_equal String.length) in Heq. simpl in Heq.
      unfold layer_record, nul in Heq. rewrite !length_app_str in Heq. simpl in Heq. lia.
    + apply layer_record_inj in Heq as [Hid Heq]; [|done..]. rewrite !fmap_cons, Hid. f_equal. by apply IH.
Qed.

(** ** What is declared *)

(** What identifies a layer: its class, its priority within the class, its path
    and the digest of the file it was read from. *)
Definition layer_mark (s : stagedLayer) : layerClass * Z * string * string :=
  (sl_class s, sl_classPriority s, sr_Path (sl_src s), sl_fileSum s).

(** A file of the scan, a source of a generator, the answer of a provider. *)
Definition file_mark `{GoStd} (l : Layer) : layerClass * Z * string * string :=
  (classFile, l_Priority l, l_Path l, go_sha256 (l_Bytes l)).

Definition source_mark (g : Generator) (gs : GenSource) : layerClass * Z * string * string :=
  (classGenerator, gs_Priority gs, "gen://" +:+ g_Name g +:+ "/" +:+ gs_Name gs, zero32).

Definition generator_marks (g : Generator) : list (layerClass * Z * string * string) :=
  match g_Generate g with Ok srcs => source_mark g <$> srcs | Err _ => [] end.

Definition provider_marks (e : providerEntry) : list (layerClass * Z * string * string) :=
  match pe_Load e with
  | Ok snap => if ps_Map snap then [(classProvider, pe_Priority e, "provider://" +:+ pe_Name e, zero32)] else []
  | Err _ => []
  end.

Lemma file_layer_mark `{GoStd} `{Codecs} c l c' s : file_layer c l = (c', Ok s) → layer_mark s = file_mark l.
Proof.
  unfold file_layer. destruct (l_Kind l).
  1, 2: destruct (codec_For _); [|by intros [=]]; destruct (getOrDecode _ _ _ _ _) as [c1 [raw|]]; [|by intros [=]];
    intros [= <- <-]; done.
  destruct (codec_DecodeAny _ _) as [raw|]; [|by intros [=]].
  destruct (codec_PatchBytes raw); [|by intros [=]]. by intros [= <- <-].
Qed.

Lemma file_layers_marks `{GoStd} `{Codecs} c dirs staged evs err c' dirs' files :
  file_layers_loop c dirs staged evs err = (c', dirs', Ok files) →
  err = None ∧ layer_mark <$> files = (layer_mark <$> staged) ++ (file_mark <$> yielded evs).
Proof.
  revert c dirs staged. induction evs as [|[d|l] evs IH]; intros c dirs staged; cbn [file_layers_loop].
  - destruct err; [by intros [=]|]. intros [= _ _ <-]. split; [done|]. by rewrite app_nil_r.
  - apply IH.
  - destruct (file_layer c l) as [c1 [s|e]] eqn:Hl; [|by intros [=]].
    intros [-> ->]%IH. split; [done|]. apply file_layer_mark in Hl.
    rewrite fmap_app, <-app_assoc. cbn. by rewrite Hl.
Qed.

Lemma generator_layers_marks `{Codecs} gens layers :
  assembleGeneratorLayers gens = Ok layers → layer_mark <$> layers = gens ≫= generator_marks.
Proof.
  revert layers. induction gens as [|g gens IH]; intros layers; cbn [assembleGeneratorLayers].
  { by intros [= <-]. }
  rewrite bind_cons. unfold generator_marks at 1. destruct (g_Generate g) as [srcs|]; [|done].
  intros (ls & Hls & (rest & Hrest & [= <-])%bind_Ok)%bind_Ok.
  rewrite fmap_app, (IH _ Hrest). f_equal. apply mapR_Ok in Hls.
  induction Hls as [|gs s srcs' ls' Hs _ IHs]; [done|]. rewrite !fmap_cons, IHs. f_equal.
  unfold generator_layer in Hs. destruct (codec_For _) as [dec|]; [|done]. destruct (dec _); [|done]. by injection Hs as <-.
Qed.

Lemma provider_layers_marks ps layers :
  assembleProviderLayers ps = Ok layers → layer_mark <$> layers = ps ≫= provider_marks.
Proof.
  revert layers. induction ps as [|e ps IH]; intros layers; cbn [assembleProviderLayers]; [by intros [= <-]|].
  rewrite bind_cons. unfold provider_marks at 1. destruct (pe_Load e) as [snap|[]]; [|done..].
  destruct (ps_Map snap) as [m|]; [|by apply IH].
  intros (rest & Hrest & [= <-])%bind_Ok. by rewrite fmap_cons, (IH _ Hrest).
Qed.

(** ** Correctness of assembly *)

Lemma sort_layers_order l i j a b :
  i < j → sort_layers l !! i = Some a → sort_layers l !! j = Some b →
  (class_rank (sl_class a) < class_rank (sl_class b))%Z
  ∨ (sl_class a = sl_class b ∧ (sl_classPriority a <= sl_classPriority b)%Z).
Proof.
  intros Hij Ha Hb. pose proof (sort_stable_sorted layer_leb layer_leb_total layer_leb_trans l) as Hs.
  assert (layer_leb a b = true) as Hab.
  { unfold sort_layers in *. rewrite <-(take_drop j (sort_stable _ _)) in Hs.
    apply (StronglySorted_app_1_elem_of (λ a b, layer_leb a b = true) _ _ _ _ Hs).
    - apply list_elem_of_lookup. exists i. by rewrite lookup_take_lt.
    - apply list_elem_of_lookup. exists 0. by rewrite lookup_drop, Nat.add_0_r. }
  unfold layer_leb in Hab.
  destruct (Z.compare_spec (class_rank (sl_class a)) (class_rank (sl_class b))) as [Heq|Hlt|]; [|by left|done].
  right. split; [by apply class_rank_inj|]. by apply Z.leb_le.
Qed.

(** The layers of a successful assembly, sorted: the files of the scan, the
    generators, the providers and the overrides. *)
Lemma assemble_layers `{GoStd} `{Codecs} {T} computed w (o : options T) ctx host ca extra ca' dirs r :
  assemble computed w o ctx host ca extra = (ca', dirs, Ok r) →
  ∃ files gens provs,
    (if o_SkipDiscovery o then files = []
     else ∃ scanOpt meta evs, (resolveDiscovery w o host (ca_meta ca)).2 = Ok (scanOpt, meta)
       ∧ Scan (w_os w) codec_LookupExt yaml_match (o_Dir o) scanOpt = (evs, None)
       ∧ layer_mark <$> files = file_mark <$> yielded evs)
    ∧ assembleGeneratorLayers (o_Generators o) = Ok gens ∧ assembleProviderLayers (o_Providers o) = Ok provs
    ∧ ar_staged r = sort_layers (files ++ gens ++ provs ++ extra).
Proof.
  unfold assemble. destruct ctx; [by intros [=]|]. destruct (o_SkipDiscovery o).
  { intros [= _ _ (gens & provs & Hg & Hp & -> & _)%finish_assembly_Ok]. by exists [], gens, provs. }
  destruct (resolveDiscovery w o host (ca_meta ca)) as [mc [[scanOpt meta]|e]]; [|by intros [=]].
  unfold assembleFileLayers. destruct (Scan _ _ _ _ _) as [evs err] eqn:Hscan.
  destruct (file_layers_loop _ _ _ _ _) as [[lc ds] [files|e]] eqn:Hloop; [|by intros [=]].
  intros [= _ _ (gens & provs & Hg & Hp & -> & _)%finish_assembly_Ok].
  apply file_layers_marks in Hloop as [-> Hmarks].
  exists files, gens, provs. split_and!; [|done..]. by exists scanOpt, meta, evs.
Qed.

(** C12: precedence. The layers of a successful assembly are those of the files
    the scan of the directory yields, unless discovery is skipped, of the sources
    of the generators, of the providers that answer with a tree, and the
    overrides: each once, none lost and none repeated. A layer of a lower class
    (files, then generators, then providers, then overrides) always comes before
    one of a higher class whatever their priorities, within a class a lower
    priority comes first, and layers of one class and priority keep the order in
    which they were declared. *)
Theorem assembly_precedence `{GoStd} `{Codecs} {T} (computed : bool) (w : world) (o : options T)
    (ctx : option ctx_error) (host : string) (ca : caches) (extra : list stagedLayer)
    (ca' : caches) (dirs : list string) (r : assemblyResult)
    (Hrun : assemble computed w o ctx host ca extra = (ca', dirs, Ok r)) :
  ∃ files gens provs,
    let declared := files ++ gens ++ provs ++ extra in
    (if o_SkipDiscovery o then files = []
     else ∃ scanOpt meta evs, (resolveDiscovery w o host (ca_meta ca)).2 = Ok (scanOpt, meta)
       ∧ Scan (w_os w) codec_LookupExt yaml_match (o_Dir o) scanOpt = (evs, None)
       ∧ layer_mark <$> files = file_mark <$> yielded evs)
    ∧ layer_mark <$> gens = o_Generators o ≫= generator_marks
    ∧ layer_mark <$> provs = o_Providers o ≫= provider_marks
    ∧ assembleGeneratorLayers (o_Generators o) = Ok gens ∧ assembleProviderLayers (o_Providers o) = Ok provs
    ∧ ar_staged r ≡ₚ declared
    ∧ (∀ i j a b, i < j → ar_staged r !! i = Some a → ar_staged r !! j = Some b →
         (class_rank (sl_class a) < class_rank (sl_class b))%Z
         ∨ (sl_class a = sl_class b ∧ (sl_classPriority a <= sl_classPriority b)%Z))
    ∧ (∀ k, filter (same_place k) (ar_staged r) = filter (same_place k) declared).
Proof.
  destruct (assemble_layers _ _ _ _ _ _ _ _ _ _ Hrun) as (files & gens & provs & Hfiles & Hg & Hp & ->).
  exists files, gens, provs. cbv zeta.
  split_and!; [done|by apply generator_layers_marks|by apply provider_layers_marks|done|done|apply sort_stable_perm| |].
  - intros i j a b Hij Ha Hb. by apply (sort_layers_order (files ++ gens ++ provs ++ extra) i j).
  - intros k. apply sort_layers_filter.
Qed.

(** C13: equal fingerprints mean equal inputs. When two assemblies have the same
    non-zero fingerprint, every layer of both is a file, and they agree on the
    metadata, on the generation of the codecs, and, layer by layer, on the path,
    the priority, the profile, the codec and the content digest: the encoding
    that is hashed is unambiguous, so only a collision of SHA-256 itself could
    make them differ. *)
Theorem fingerprint_identifies_inputs `{GoStd} {T} (computed : bool) (o : options T)
    (s1 s2 : list stagedLayer) (m1 m2 : string) (g1 g2 now1 now2 : N)
    (Hlayers : Forall layer_ok s1 ∧ Forall layer_ok s2)
    (Hmeta : String.length m1 = 32 ∧ String.length m2 = 32)
    (Hgen : (g1 < 2 ^ 64)%N ∧ (g2 < 2 ^ 64)%N)
    (Hsha : ∀ x y, x = m1 +:+ le64 (Z.of_N g1) +:+ layer_records s1 →
                   y = m2 +:+ le64 (Z.of_N g2) +:+ layer_records s2 → go_sha256 x = go_sha256 y → x = y)
    (Heq : inputFingerprint computed o s1 m1 g1 now1 = inputFingerprint computed o s2 m2 g2 now2)
    (Hnz : inputFingerprint computed o s1 m1 g1 now1 ≠ zero32) :
  m1 = m2 ∧ g1 = g2 ∧ layer_id <$> s1 = layer_id <$> s2
  ∧ Forall (λ l, sl_fileSum l ≠ zero32) s1 ∧ Forall (λ l, sl_fileSum l ≠ zero32) s2.
Proof.
  assert (∀ s m g now, inputFingerprint computed o s m g now ≠ zero32 →
    inputFingerprint computed o s m g now = go_sha256 (m +:+ le64 (Z.of_N g) +:+ layer_records s)
    ∧ Forall (λ l, sl_fileSum l ≠ zero32) s) as Hcase.
  { intros s m g now. unfold inputFingerprint. destruct (negb _); [done|]. destruct (_ || _); [done|].
    destruct computed; [done|]. destruct (existsb _ s) eqn:Hex; [done|]. intros _. split; [done|].
    apply Forall_forall. intros l Hl Hz. apply not_true_iff_false in Hex. apply Hex.
    apply existsb_exists. exists l. rewrite <-list_elem_of_In, Hz. split; [done|]. apply String.eqb_refl. }
  destruct (Hcase s1 m1 g1 now1 Hnz) as [E1 F1]. rewrite Heq in Hnz.
  destruct (Hcase s2 m2 g2 now2 Hnz) as [E2 F2]. rewrite E1, E2 in Heq.
  apply (Hsha _ _ eq_refl eq_refl) in Heq. destruct Hmeta as [Hm1 Hm2], Hlayers as [L1 L2], Hgen as [G1 G2].
  apply app_length_inj in Heq as [-> Heq]; [|congruence].
  apply app_length_inj in Heq as [Hg Heq]; [|by unfold le64; rewrite !le_bytes_length].
  apply le64_inj in Hg; [|lia..]. split_and!; [done|lia|by apply layer_records_inj|done..].
Qed.

(** ** Examples *)

Definition example_codecs : Codecs := {|
  codec_For c := if String.eqb c "yaml" then Some (λ s, Ok (Some {[ "text" := VString s ]})) else None;
  codec_DecodeAny _ s := Ok (VString s);
  codec_PatchBytes _ := Ok (Some "[]");
  codec_LookupExt _ := "yaml";
  codec_Generation := 7;
  yaml_match _ := None;
  yaml_meta _ := None;
|}.

Definition example_caches : caches := {| ca_layers := empty_cache; ca_meta := {| mk_sum := ""; mk_keys := ∅; mk_set := false |} |}.

Definition example_options {T} : options T := {|
  o_Dir := "etc"; o_FS := None; o_SkipDiscovery := true; o_ProfileNames := []; o_ProfileMatch := "";
  o_ProfileEnv := ""; o_ProfileDefault := ""; o_Strict := false;
  o_Providers := [{| pe_Name := "env"; pe_Priority := 10;
                     pe_Load := Ok {| ps_Map := Some {[ "k" := VString "p" ]}; ps_Revision := "r1"; ps_Stale := false |} |};
                  {| pe_Name := "kv"; pe_Priority := 5;
                     pe_Load := Ok {| ps_Map := Some {[ "k" := VString "q" ]}; ps_Revision := "r2"; ps_Stale := false |} |}];
  o_Axes := []; o_Validators := []; o_Transforms := []; o_Provenance := Full; o_HistoryCap := 0;
  o_YAMLBridge := false; o_UnknownFields := UnknownIgnore; o_Policies := []; o_SecretResolver := None;
  o_Generators := [{| g_Name := "gen"; g_Generate :=
                        Ok [{| gs_Name := "s"; gs_Codec := "yaml"; gs_Data := "x"; gs_Priority := 99 |}] |}];
  o_TypedHooks := 0; o_MergeKeys := ∅; o_Observers := 0; o_Tenant := "";
|}.

Definition example_world : world := {|
  w_os := {| fs_ReadDir _ := Err ErrNotExist; fs_Stat _ := Err ErrNotExist; fs_Open _ := Err ErrNotExist |};
  w_lookupEnv _ := None; w_hostname := Ok "h1"; w_generation := 7;
|}.

Lemma assembly_precedence_witness :
  ∃ r, (@assemble example_std example_codecs unit false example_world example_options None "" example_caches []).2 = Ok r
  ∧ (sr_Path ∘ sl_src <$> ar_staged r) = ["gen://gen/s"; "provider://kv"; "provider://env"]
  ∧ ∃ files gens provs, ar_staged r ≡ₚ files ++ gens ++ provs ++ [].
Proof.
  destruct (@assemble example_std example_codecs unit false example_world example_options None "" example_caches [])
    as [[ca' dirs] [r|e]] eqn:Hrun; [|vm_compute in Hrun; discriminate].
  exists r. split; [reflexivity|]. split.
  - vm_compute in Hrun. injection Hrun as _ _ <-. reflexivity.
  - destruct (@assembly_precedence example_std example_codecs unit false example_world example_options None ""
      example_caches [] ca' dirs r Hrun) as (files & gens & provs & _ & _ & _ & _ & _ & Hp & _).
    exists files, gens, provs. exact Hp.
Defined.

Definition example_file : stagedLayer := {|
  sl_src := {| sr_Path := "etc/base/a.yaml"; sr_Kind := LayerMerge; sr_Profile := ""; sr_Priority := 3;
               sr_Codec := "yaml"; sr_Revision := ""; sr_Stale := false |};
  sl_class := classFile; sl_classPriority := 3; sl_data := None; sl_cached := None; sl_patch := None;
  sl_fileSum := "0123456789abcdef0123456789abcdef";
|}.

Definition example_plain : options unit := {|
  o_Dir := "etc"; o_FS := None; o_SkipDiscovery := false; o_ProfileNames := []; o_ProfileMatch := "";
  o_ProfileEnv := ""; o_ProfileDefault := ""; o_Strict := false; o_Providers := [];
  o_Axes := []; o_Validators := []; o_Transforms := []; o_Provenance := Off; o_HistoryCap := 0;
  o_YAMLBridge := false; o_UnknownFields := UnknownIgnore; o_Policies := []; o_SecretResolver := None;
  o_Generators := []; o_TypedHooks := 0; o_MergeKeys := ∅; o_Observers := 0; o_Tenant := "";
|}.

Lemma fingerprint_identifies_inputs_witness :
  layer_id <$> [example_file] = layer_id <$> [example_file].
Proof.
  assert (Forall layer_ok [example_file]) as Hok.
  { apply Forall_cons_2; [|apply Forall_nil_2]. repeat split; vm_compute; congruence. }
  refine (proj1 (proj2 (proj2 (@fingerprint_identifies_inputs example_std unit false example_plain [example_file] [example_file]
    "fedcba9876543210fedcba9876543210" "fedcba9876543210fedcba9876543210" 7 7 7 7 _ _ _ _ _ _)))).
  - split; exact Hok.
  - split; reflexivity.
  - split; reflexivity.
  - intros x y _ _ Hxy. exact Hxy.
  - reflexivity.
  - vm_compute. discriminate.
Defined.
