(* ===== verification/Pipeline.v ===== *)
(** * The pipeline (stages.go, pipeline.go, decode.go)

    The eight stages that turn staged layers into a typed value, shared by
    reloads and previews, and the two ways their findings are reported. *)
From S2P Require Import Prelude GoStrings Value Path Merge Clone Patch Scan Secret Provenance LayerCache Options Assemble.
From Stdlib Require Import Ascii.
Open Scope nat_scope.

(** ** The configuration type

    What the stages ask of [T]: the bridge encoding of the merged tree, its
    decoding, strict or not, the hooks, defaults and field rules derived from
    the type, and the canonical encoding that is hashed. *)
Record decode_error := { de_msg : string; de_yaml : option (list string) }.

Class Target (T : Type) := {
  t_encode : bool → gomap → result string string;
  t_decode : bool → bool → string → result decode_error T;
  t_hooks : option (gomap → result string gomap);
  t_assign : gomap → T → T;
  t_struct_defaults : T → result string T;
  t_Defaults : option (T → T);
  t_field_meta : T → list string;
  t_marshal : bool → T → result string string;
}.

Record ValidatorReport := { vr_Name : string; vr_Err : option fc_error }.

Record pipelineState (T : Type) := {
  pl_reason : string;
  pl_staged : list stagedLayer;
  pl_sources : list SourceRef;
  pl_merged : gomap;
  pl_origins : option Index;
  pl_target : option T;
  pl_strict : bool;
  pl_appendSlices : bool;
  pl_mergeKeys : gmap string string;
  pl_dryRun : bool;
  pl_reports : list ValidatorReport;
  pl_policyViolations : list Violation;
}.
Arguments Build_pipelineState {T} _ _ _ _ _ _ _ _ _ _ _ _.
Arguments pl_reason {T} _.
Arguments pl_staged {T} _.
Arguments pl_sources {T} _.
Arguments pl_merged {T} _.
Arguments pl_origins {T} _.
Arguments pl_target {T} _.
Arguments pl_strict {T} _.
Arguments pl_appendSlices {T} _.
Arguments pl_mergeKeys {T} _.
Arguments pl_dryRun {T} _.
Arguments pl_reports {T} _.
Arguments pl_policyViolations {T} _.

Section setters.
Context {T : Type} (p : pipelineState T).

Definition set_tree (merged : gomap) (origins : option Index) (sources : list SourceRef) : pipelineState T :=
  Build_pipelineState (pl_reason p) (pl_staged p) sources merged origins (pl_target p) (pl_strict p)
    (pl_appendSlices p) (pl_mergeKeys p) (pl_dryRun p) (pl_reports p) (pl_policyViolations p).

Definition set_merged (merged : gomap) : pipelineState T := set_tree merged (pl_origins p) (pl_sources p).

Definition set_target (v : T) : pipelineState T :=
  Build_pipelineState (pl_reason p) (pl_staged p) (pl_sources p) (pl_merged p) (pl_origins p) (Some v) (pl_strict p)
    (pl_appendSlices p) (pl_mergeKeys p) (pl_dryRun p) (pl_reports p) (pl_policyViolations p).

Definition add_report (r : ValidatorReport) : pipelineState T :=
  Build_pipelineState (pl_reason p) (pl_staged p) (pl_sources p) (pl_merged p) (pl_origins p) (pl_target p) (pl_strict p)
    (pl_appendSlices p) (pl_mergeKeys p) (pl_dryRun p) (pl_reports p ++ [r]) (pl_policyViolations p).

Definition add_violations (vs : list Violation) : pipelineState T :=
  Build_pipelineState (pl_reason p) (pl_staged p) (pl_sources p) (pl_merged p) (pl_origins p) (pl_target p) (pl_strict p)
    (pl_appendSlices p) (pl_mergeKeys p) (pl_dryRun p) (pl_reports p) (pl_policyViolations p ++ vs).
End setters.

(** [finding]: a preview records the outcome, a reload returns the error. *)
Definition finding {T} (p : pipelineState T) (name : string) (err : option fc_error) : pipelineState T * option fc_error :=
  if pl_dryRun p then (add_report p {| vr_Name := name; vr_Err := err |}, None) else (p, err).

(** ** Merge *)

(** One iteration of [runMerge] on the tree and its origins. *)
Definition merge_layer `{GoStd} `{GoJson} (mergeOpt : Merge.Options) (acc : gomap * option Index) (l : stagedLayer) :
    fres (gomap * option Index) :=
  let '(merged, origins) := acc in
  match sl_patch l with
  | Some patch =>
      match ApplyPatch merged patch with
      | Err _ => Err (ErrMerge (sr_Path (sl_src l)))
      | Ok next =>
          Ok (next, match origins, PatchPaths patch with
                    | Some _, Ok paths =>
                        foldl (λ o p, if String.eqb p "" then o else Record_ o p (sl_src l)) origins paths
                    | _, _ => origins
                    end)
      end
  | None =>
      let data := match sl_cached l with Some c => cloneTree c | None => sl_data l end in
      match Deep merged data mergeOpt with
      | Err _ => Err (ErrMerge (sr_Path (sl_src l)))
      | Ok merged => Ok (merged, RecordTree origins "" data (sl_src l))
      end
  end.

Section stages.
Context `{GoStd} `{GoJson} {T : Type} `{Target T} (o : options T).

Definition runMerge (p : pipelineState T) : fres (pipelineState T) :=
  let mergeOpt := {| Merge.AppendSlices := pl_appendSlices p; Merge.Strict := pl_strict p; MergeKeys := pl_mergeKeys p |} in
  '(merged, origins) ← foldM (merge_layer mergeOpt) (Some ∅, NewIndex (o_Provenance o)) (pl_staged p);
  Ok (set_tree p merged origins (sl_src <$> pl_staged p)).

(** ** Transforms and hooks *)

Definition runTransform (p : pipelineState T) : fres (pipelineState T) :=
  set_merged p <$> foldM (λ m fn, map_err ErrTransform (fn m)) (pl_merged p) (o_Transforms o).

(** The callback of [runSecretResolve]: the first error, and the origins. *)
Definition secret_leaf (r : SecretResolver) (path v : string) (st : option fc_error * option Index) :
    (option fc_error * option Index) * option string :=
  let '(firstErr, origins) := st in
  match firstErr with
  | Some _ => (st, None)
  | None =>
      match Recognize r v with
      | None => (st, None)
      | Some ref =>
          match Resolve r ref with
          | Err e => ((Some (ErrTransform ("secret " +:+ ref_Scheme ref +:+ "@" +:+ path)), origins), None)
          | Ok plain =>
              ((None, Record_ origins path
                  {| sr_Path := "secret://" +:+ ref_Scheme ref; sr_Kind := LayerSecret; sr_Profile := "";
                     sr_Priority := rankSecretResolved; sr_Codec := ""; sr_Revision := ""; sr_Stale := false |}),
               Some plain)
          end
      end
  end.

Definition runSecretResolve (p : pipelineState T) : fres (pipelineState T) :=
  match o_SecretResolver o with
  | None => Ok p
  | Some r =>
      let '((firstErr, origins), tree) := WalkLeaves (secret_leaf r) (VMapOpt (pl_merged p)) "" (None, pl_origins p) in
      match firstErr with
      | Some e => Err e
      | None => Ok (set_tree p (default None (as_map tree)) origins (pl_sources p))
      end
  end.

Definition runTypedHooks (p : pipelineState T) : fres (pipelineState T) :=
  match t_hooks with
  | None => Ok p
  | Some hook => set_merged p <$> map_err (λ e, ErrTransform ("typed-hook: " +:+ e)) (hook (pl_merged p))
  end.

(** ** Decoding *)

(** [isUnknownField] on the error of a strict decode. *)
Definition isUnknownField (e : decode_error) : bool :=
  HasPrefix (de_msg e) "json: unknown field "
  || match de_yaml e with
     | Some msgs => existsb (λ m, strings_Contains m "not found in type") msgs
     | None => false
     end.

(** The decoding of the bridge bytes, with the loose retry of [UnknownWarn]. *)
Definition decode_input (input : string) : result decode_error T :=
  let mode := o_UnknownFields o in
  match t_decode (o_YAMLBridge o) (negb (bool_decide (mode = UnknownIgnore))) input with
  | Err e => if bool_decide (mode = UnknownWarn) && isUnknownField e then t_decode (o_YAMLBridge o) false input else Err e
  | Ok target => Ok target
  end.

Definition runDecode (p : pipelineState T) : fres (pipelineState T) :=
  match t_encode (o_YAMLBridge o) (pl_merged p) with
  | Err e => Err (ErrDecode e)
  | Ok input =>
      match decode_input input with
      | Err e => Err (ErrDecode (de_msg e))
      | Ok target =>
          let target := match t_hooks with Some _ => t_assign (pl_merged p) target | None => target end in
          match t_struct_defaults target with
          | Err e => Err (ErrDecode e)
          | Ok target => Ok (set_target p (match t_Defaults with Some d => d target | None => target end))
          end
      end
  end.

(** ** Checks of the decoded value *)

Definition field_meta_step (acc : pipelineState T * list string) (msg : string) : pipelineState T * list string :=
  let '(p, err) := finding acc.1 "fastconf:field-meta" (Some (ErrInvalid [msg])) in
  (p, match err with Some _ => acc.2 ++ [msg] | None => acc.2 end).

Definition runFieldMetaCheck (p : pipelineState T) : fres (pipelineState T) :=
  match pl_target p with
  | None => Ok p
  | Some v =>
      match t_field_meta v with
      | [] => Ok p
      | violations =>
          let '(p, errs) := foldl field_meta_step (p, []) violations in
          match errs with [] => Ok p | _ => Err (ErrInvalid errs) end
      end
  end.

Definition user_error (r : result string ()) : option fc_error :=
  match r with Ok _ => None | Err e => Some (ErrUser e) end.

Fixpoint validate_loop (i : nat) (validators : list (T → result string ())) (v : T) (p : pipelineState T) :
    fres (pipelineState T) :=
  match validators with
  | [] => Ok p
  | validate :: validators =>
      let name := if pl_dryRun p then "validator[" +:+ itoa i +:+ "]" else "" in
      match finding p name (user_error (validate v)) with
      | (_, Some (ErrUser e)) => Err (ErrInvalid [e])
      | (_, Some _) => Err (ErrInvalid [])
      | (p, None) => validate_loop (S i) validators v p
      end
  end.

Definition runValidate (p : pipelineState T) : fres (pipelineState T) :=
  match pl_target p with
  | None => Ok p
  | Some v => validate_loop 0 (o_Validators o) v p
  end.

(** The findings of one policy: errors, then warnings. *)
Definition policy_findings (cfg : T) (reason : string) (p : policy T) : list Violation * list Violation :=
  match p_Evaluate p cfg reason (o_Tenant o) with
  | Err e =>
      ([{| v_Path := ""; v_Message := "evaluation error: " +:+ e; v_Severity := SeverityError; v_Rule := p_Name p |}], [])
  | Ok vs =>
      let vs := (λ v, if String.eqb (v_Rule v) ""
                      then {| v_Path := v_Path v; v_Message := v_Message v; v_Severity := v_Severity v; v_Rule := p_Name p |}
                      else v) <$> vs in
      (filter (λ v, v_Severity v = SeverityError) vs, filter (λ v, v_Severity v ≠ SeverityError) vs)
  end.

(** [evaluatePolicies]: the error violations and the warnings. *)
Definition evaluatePolicies (cfg : T) (reason : string) : list Violation * list Violation :=
  foldl (λ acc p, let '(e, w) := policy_findings cfg reason p in (acc.1 ++ e, acc.2 ++ w)) ([], []) (o_Policies o).

Definition runPolicy (p : pipelineState T) : fres (pipelineState T) :=
  match o_Policies o, pl_target p with
  | [], _ | _, None => Ok p
  | _, Some v =>
      let '(errs, warns) := evaluatePolicies v (pl_reason p) in
      if pl_dryRun p then Ok (add_violations p (warns ++ errs))
      else match errs with [] => Ok p | _ => Err (PolicyError errs) end
  end.

(** ** Running the stages *)

Definition defaultStages : list (string * (pipelineState T → fres (pipelineState T))) :=
  [("merge", runMerge); ("transform", runTransform); ("secret", runSecretResolve); ("typed-hooks", runTypedHooks);
   ("decode", runDecode); ("field-meta", runFieldMetaCheck); ("validate", runValidate); ("policy", runPolicy)].
End stages.

(** ** Events *)

(** What observers receive from the writer; durations and diffs left out. *)
Inductive event :=
| ReloadStarted (reason : string)
| ReloadFinished (reason : string) (err : option fc_error)
| StageFinished (stage : string) (err : option fc_error)
| Committed (prev next : N) (reason : string) (layers : nat).

Definition error_of {A} (r : fres A) : option fc_error := match r with Ok _ => None | Err e => Some e end.

Section run.
Context `{GoStd} `{GoJson} {T : Type} `{Target T} (o : options T).

Definition hasObservers : bool := 0 <? o_Observers o.
Definition emit (e : event) : list event := if hasObservers then [e] else [].

(** The moments at which the writer polls the context of a request. *)
Inductive poll := AtAssemble | AtCommit | AtStage (i : nat) | AtStagesEnd | AtPublish.

Definition context := poll → option ctx_error.

Fixpoint run_stages (ctx : context) (i : nat) (stages : list (string * (pipelineState T → fres (pipelineState T))))
    (p : pipelineState T) : list event * fres (pipelineState T) :=
  match stages with
  | [] => ([], match ctx AtStagesEnd with Some e => Err (CtxErr e) | None => Ok p end)
  | (name, run) :: stages =>
      match ctx (AtStage i) with
      | Some e => ([], Err (CtxErr e))
      | None =>
          let r := run p in
          let evs := emit (StageFinished name (error_of r)) in
          match r with
          | Err e => (evs, Err e)
          | Ok p => let '(evs', r) := run_stages ctx (S i) stages p in (evs ++ evs', r)
          end
      end
  end.

Definition runStages (ctx : context) (p : pipelineState T) : list event * fres (pipelineState T) :=
  run_stages ctx 0 (defaultStages o) p.

(** [canonicalHash]. *)
Definition canonicalHash (v : T) : result string string := go_sha256 <$> t_marshal (o_YAMLBridge o) v.

Definition new_pipeline (a : assemblyResult) (reason : string) (dryRun : bool) : pipelineState T :=
  Build_pipelineState reason (ar_staged a) [] None None None (ar_strict a) (ar_appendSlices a) (ar_mergeKeys a) dryRun [] [].

Definition runPipeline (ctx : context) (a : assemblyResult) (reason : string) (dryRun : bool) :
    list event * fres (pipelineState T * string) :=
  let '(evs, r) := runStages ctx (new_pipeline a reason dryRun) in
  (evs, match r with
        | Err e => Err e
        | Ok p =>
            match pl_target p with
            | None => Err (ErrHash "nil target")
            | Some v =>
                match canonicalHash v with
                | Err e => Err (ErrHash e)
                | Ok hash => Ok (p, hash)
                end
            end
        end).
End run.

(** ** Errors of the stages *)

(** The sentinel each stage wraps its errors with. *)
Inductive stage_error : string → fc_error → Prop :=
| se_merge d : stage_error "merge" (ErrMerge d)
| se_transform d : stage_error "transform" (ErrTransform d)
| se_secret d : stage_error "secret" (ErrTransform d)
| se_hooks d : stage_error "typed-hooks" (ErrTransform d)
| se_decode d : stage_error "decode" (ErrDecode d)
| se_field_meta ds : stage_error "field-meta" (ErrInvalid ds)
| se_validate ds : stage_error "validate" (ErrInvalid ds)
| se_policy vs : vs ≠ [] → Forall (λ v, v_Severity v = SeverityError) vs → stage_error "policy" (PolicyError vs).

Lemma foldM_Err {E A B} (f : A → B → result E A) l a e :
  foldM f a l = Err e → ∃ a' b, b ∈ l ∧ f a' b = Err e.
Proof.
  revert a. induction l as [|b l IH]; intros a; simpl; [done|].
  destruct (f a b) as [a'|e'] eqn:Hb; simpl.
  - intros (a'' & b' & Hin & Hf)%IH. exists a'', b'. split; [by right|done].
  - intros [= ->]. exists a, b. split; [by left|done].
Qed.

Section errors.
Context `{GoStd} `{GoJson} {T : Type} `{Target T} (o : options T).

Lemma merge_layer_Err opt acc l e : merge_layer opt acc l = Err e → ∃ d, e = ErrMerge d.
Proof.
  unfold merge_layer. destruct acc as [m ix]. destruct (sl_patch l).
  - destruct (ApplyPatch m s); [done|]. intros [= <-]. by eexists.
  - cbv zeta. destruct (Deep _ _ _); [done|]. intros [= <-]. by eexists.
Qed.

Lemma runMerge_Err p e : runMerge o p = Err e → stage_error "merge" e.
Proof.
  unfold runMerge. intros [(a & l & _ & Hl)%foldM_Err|([m ix] & _ & ?)]%bind_Err; [|done].
  apply merge_layer_Err in Hl as [d ->]. constructor.
Qed.

Lemma runTransform_Err p e : runTransform o p = Err e → stage_error "transform" e.
Proof.
  unfold runTransform. intros (a & fn & _ & Hf)%fmap_Err%foldM_Err.
  destruct (fn a); [done|]. injection Hf as <-. constructor.
Qed.

(** The error kept by the walk is one of the callback. *)
Definition secret_fail (r : SecretResolver) (path s : string) : option fc_error :=
  match Recognize r s with
  | Some ref => match Resolve r ref with
                | Err _ => Some (ErrTransform ("secret " +:+ ref_Scheme ref +:+ "@" +:+ path))
                | Ok _ => None
                end
  | None => None
  end.

Definition secret_plain (r : SecretResolver) (s : string) : string :=
  match Recognize r s with
  | Some ref => match Resolve r ref with Ok plain => plain | Err _ => s end
  | None => s
  end.

Lemma secret_walk r v origins :
  as_string v = None →
  child_outcome fst (secret_fail r) (secret_plain r) "" 0 v (WalkLeaves (secret_leaf r) v "" (None, origins)).
Proof.
  intros Hv.
  pose proof (walk_child_spec (secret_leaf r) fst (secret_fail r) (secret_plain r)) as Hw.
  unfold walks in Hw. specialize (λ h1 h2 h3, Hw h1 h2 h3 v 0 "" (None, origins) ltac:(lia) eq_refl).
  assert (walk_child (secret_leaf r) (walkLeavesDepth (secret_leaf r) 0) "" v (None, origins)
          = WalkLeaves (secret_leaf r) v "" (None, origins)) as Heq by (by destruct v).
  rewrite Heq in Hw. apply Hw.
  - intros path s [err o'] e He. simpl in He. subst err. done.
  - intros path s [err o'] He Hf. simpl in He. subst err. unfold secret_leaf, secret_fail, secret_plain in *.
    destruct (Recognize r s) as [ref|]; [|done]. by destruct (Resolve r ref).
  - intros path s [err o'] e He Hf. simpl in He. subst err. unfold secret_leaf, secret_fail in *.
    destruct (Recognize r s) as [ref|]; [|done]. destruct (Resolve r ref); [done|]. by injection Hf as <-.
Qed.

Lemma runSecretResolve_Err p e : runSecretResolve o p = Err e → stage_error "secret" e.
Proof.
  unfold runSecretResolve. destruct (o_SecretResolver o) as [r|]; [|done].
  pose proof (secret_walk r (VMapOpt (pl_merged p)) (pl_origins p) ltac:(by destruct (pl_merged p))) as Hw.
  destruct (WalkLeaves _ _ _ _) as [[err o'] tree]. destruct err as [e'|]; [|done]. intros [= <-].
  destruct Hw as [(? & _)|(e0 & He0 & path & s & _ & Hf)]; [done|]. simpl in He0. injection He0 as <-.
  unfold secret_fail in Hf. destruct (Recognize r s) as [ref|]; [|done]. destruct (Resolve r ref); [done|].
  injection Hf as <-. constructor.
Qed.

Lemma runTypedHooks_Err (p : pipelineState T) e : runTypedHooks p = Err e → stage_error "typed-hooks" e.
Proof.
  unfold runTypedHooks. destruct t_hooks as [hook|]; [|done]. intros Hf%fmap_Err.
  destruct (hook _); [done|]. injection Hf as <-. constructor.
Qed.

Lemma runDecode_Err p e : runDecode o p = Err e → stage_error "decode" e.
Proof.
  unfold runDecode. destruct (t_encode _ _) as [input|]; [|intros [= <-]; constructor].
  destruct (decode_input o input); [|intros [= <-]; constructor].
  destruct (t_struct_defaults _); [done|]. intros [= <-]. constructor.
Qed.

Lemma runFieldMetaCheck_Err (p : pipelineState T) e : runFieldMetaCheck p = Err e → stage_error "field-meta" e.
Proof.
  unfold runFieldMetaCheck. destruct (pl_target p) as [v|]; [|done].
  destruct (t_field_meta v) as [|m ms]; [done|]. destruct (foldl _ _ _) as [p' [|s errs]]; [done|].
  intros [= <-]. constructor.
Qed.

Lemma validate_loop_Err i vs (v : T) p e : validate_loop i vs v p = Err e → stage_error "validate" e.
Proof.
  revert i p. induction vs as [|f vs IH]; intros i p; cbn [validate_loop]; [done|].
  unfold finding. destruct (pl_dryRun p); [apply IH|].
  destruct (f v); simpl; [apply IH|]. intros [= <-]. constructor.
Qed.

Lemma policy_findings_severity v reason p e w :
  policy_findings o v reason p = (e, w) →
  Forall (λ v, v_Severity v = SeverityError) e ∧ Forall (λ v, v_Severity v ≠ SeverityError) w.
Proof.
  unfold policy_findings. destruct (p_Evaluate p v reason (o_Tenant o)); intros [= <- <-].
  - split; apply Forall_forall; intros x [Hx _]%list_elem_of_filter; exact Hx.
  - split; [|constructor]. by repeat constructor.
Qed.

Lemma evaluatePolicies_severity v reason :
  Forall (λ v, v_Severity v = SeverityError) (evaluatePolicies o v reason).1
  ∧ Forall (λ v, v_Severity v ≠ SeverityError) (evaluatePolicies o v reason).2.
Proof.
  unfold evaluatePolicies.
  assert (∀ acc : list Violation * list Violation,
    Forall (λ v, v_Severity v = SeverityError) acc.1 ∧ Forall (λ v, v_Severity v ≠ SeverityError) acc.2 →
    let r := foldl (λ acc p, let '(e, w) := policy_findings o v reason p in (acc.1 ++ e, acc.2 ++ w)) acc (o_Policies o) in
    Forall (λ v, v_Severity v = SeverityError) r.1 ∧ Forall (λ v, v_Severity v ≠ SeverityError) r.2) as Hall.
  { induction (o_Policies o) as [|p ps IH]; intros acc [Hl Hr]; [done|]. apply IH.
    destruct (policy_findings o v reason p) as [e w] eqn:Hp. apply policy_findings_severity in Hp as [He Hw].
    split; by apply Forall_app_2. }
  apply Hall. split; constructor.
Qed.

Lemma runPolicy_Err p e : runPolicy o p = Err e → stage_error "policy" e.
Proof.
  unfold runPolicy. destruct (o_Policies o); [done|]. destruct (pl_target p) as [v|]; [|done].
  destruct (evaluatePolicies_severity v (pl_reason p)) as [He _].
  destruct (evaluatePolicies _ _ _) as [errs warns]. destruct (pl_dryRun p); [done|].
  destruct errs; [done|]. intros [= <-]. by constructor.
Qed.

Lemma stage_run_Err i name run p e :
  defaultStages o !! i = Some (name, run) → run p = Err e → stage_error name e.
Proof.
  intros Hi Hrun. destruct i as [|[|[|[|[|[|[|[|i]]]]]]]]; [injection Hi as <- <-..|done].
  - by eapply runMerge_Err.
  - by eapply runTransform_Err.
  - by eapply runSecretResolve_Err.
  - by eapply runTypedHooks_Err.
  - by eapply runDecode_Err.
  - by eapply runFieldMetaCheck_Err.
  - unfold runValidate in Hrun. destruct (pl_target p); [|done]. by eapply validate_loop_Err.
  - by eapply runPolicy_Err.
Qed.
End errors.

(** ** Outcome of the stages *)

Section outcome.
Context `{GoStd} `{GoJson} {T : Type} `{Target T} (o : options T).

Notation stage := (string * (pipelineState T → fres (pipelineState T)))%type.

(** The events of stages that succeed. *)
Definition completed (stages : list stage) : list event :=
  concat ((λ s, emit o (StageFinished s.1 None)) <$> stages).

Definition run_all (stages : list stage) (p : pipelineState T) : fres (pipelineState T) :=
  foldM (λ p (s : stage), s.2 p) p stages.

(** The poll before the stage number [i] of [n]. *)
Definition poll_before (n i : nat) : poll := if i <? n then AtStage i else AtStagesEnd.

Lemma run_stages_outcome ctx k (stages : list stage) p :
  let '(evs, r) := run_stages o ctx k stages p in
  match r with
  | Ok p' => run_all stages p = Ok p' ∧ evs = completed stages
             ∧ ∀ i, k ≤ i ≤ k + length stages → ctx (poll_before (k + length stages) i) = None
  | Err e => ∃ i q, i ≤ length stages ∧ run_all (take i stages) p = Ok q
      ∧ ((∃ c, e = CtxErr c ∧ evs = completed (take i stages) ∧ ctx (poll_before (k + length stages) (k + i)) = Some c)
         ∨ (∃ name run, stages !! i = Some (name, run) ∧ run q = Err e
              ∧ evs = completed (take i stages) ++ emit o (StageFinished name (Some e))))
  end.
Proof.
  revert k p. induction stages as [|[name run] stages IH]; intros k p; cbn [run_stages].
  - unfold poll_before. simpl. rewrite Nat.add_0_r. destruct (ctx AtStagesEnd) as [c|] eqn:Hc.
    + exists 0, p. split_and!; [done..|]. left. exists c. rewrite Nat.add_0_r, Nat.ltb_irrefl. done.
    + split_and!; [done..|]. intros i Hi. destruct (Nat.ltb_spec i k); [lia|done].
  - assert (poll_before (k + length ((name, run) :: stages)) k = AtStage k) as Hpoll.
    { unfold poll_before. simpl. destruct (Nat.ltb_spec k (k + S (length stages))); [done|lia]. }
    destruct (ctx (AtStage k)) as [c|] eqn:Hc.
    { exists 0, p. split_and!; [simpl; lia|done|]. left. exists c. rewrite Nat.add_0_r, Hpoll. done. }
    destruct (run p) as [p1|e] eqn:Hrun.
    2:{ exists 0, p. split_and!; [simpl; lia|done|]. right. exists name, run. done. }
    specialize (IH (S k) p1). destruct (run_stages o ctx (S k) stages p1) as [evs r]. destruct r as [p'|e].
    + destruct IH as (Hall & -> & Hpolls). unfold run_all in *. cbn [foldM snd]. rewrite Hrun. split_and!; [done..|].
      intros i Hi. simpl length in Hi. destruct (decide (i = k)) as [->|]; [by rewrite Hpoll|].
      replace (k + length ((name, run) :: stages)) with (S k + length stages) by (simpl; lia). apply Hpolls. lia.
    + destruct IH as (i & q & Hi & Hq & Hcase). exists (S i), q. unfold run_all in *. cbn [take foldM snd]. rewrite Hrun.
      replace (k + length ((name, run) :: stages)) with (S k + length stages) by (simpl; lia).
      replace (k + S i) with (S k + i) by lia.
      split_and!; [simpl; lia|done|]. destruct Hcase as [(c & -> & -> & Hc')|(n & f & Hn & Hf & ->)].
      * left. by exists c.
      * right. exists n, f. split_and!; [done..|]. unfold completed. cbn [fmap list_fmap concat fst error_of]. by rewrite app_assoc.
Qed.
End outcome.

(** C9: the outcome of the stages. When the stages succeed, the result is that
    of the eight of them in order, each reported to the observers once, and the
    context was never done. When they fail, either the context was done before
    the stage that did not run, or one stage failed on the result of the
    previous ones; its error carries the sentinel of that stage ([ErrMerge],
    [ErrTransform], [ErrDecode], [ErrInvalid] or a [PolicyError] of violations
    of error severity only), it is reported last, and no later stage runs. *)
Theorem stages_outcome `{GoStd} `{GoJson} {T} `{Target T} (o : options T) (ctx : context) (p : pipelineState T) :
  let stages := defaultStages o in
  let '(evs, r) := runStages o ctx p in
  match r with
  | Ok p' => run_all stages p = Ok p' ∧ evs = completed o stages
             ∧ (∀ i, i < 8 → ctx (AtStage i) = None) ∧ ctx AtStagesEnd = None
  | Err e => ∃ i q, i ≤ 8 ∧ run_all (take i stages) p = Ok q
      ∧ ((∃ c, e = CtxErr c ∧ evs = completed o (take i stages)
            ∧ ctx (if i <? 8 then AtStage i else AtStagesEnd) = Some c)
         ∨ (∃ name run, stages !! i = Some (name, run) ∧ run q = Err e ∧ stage_error name e
              ∧ evs = completed o (take i stages) ++ emit o (StageFinished name (Some e))))
  end.
Proof.
  intros stages. unfold runStages. fold stages. pose proof (run_stages_outcome o ctx 0 stages p) as Ho.
  destruct (run_stages o ctx 0 stages p) as [evs r].
  change (0 + length stages) with 8 in Ho. change (length stages) with 8 in Ho.
  destruct r as [p'|e].
  - destruct Ho as (Hr & -> & Hpolls). split_and!; [done..| |].
    + intros i Hi. specialize (Hpolls i ltac:(lia)). unfold poll_before in Hpolls.
      by rewrite (proj2 (Nat.ltb_lt i 8) Hi) in Hpolls.
    + apply (Hpolls 8). lia.
  - destruct Ho as (i & q & Hi & Hq & Hcase). exists i, q. split_and!; [done..|].
    destruct Hcase as [Hc|(name & run & Hn & Hrun & ->)]; [by left|right].
    exists name, run. split_and!; [done..| |done]. by apply (stage_run_Err o i name run q).
Qed.

(** ** Previews *)

(** Everything a stage reads or writes apart from the findings. *)
Definition core {T} (p : pipelineState T) :=
  (pl_reason p, pl_staged p, pl_sources p, pl_merged p, pl_origins p, pl_target p, pl_strict p, pl_appendSlices p, pl_mergeKeys p).

(** No validator or field rule failed, and no policy found an error. *)
Definition no_findings {T} (p : pipelineState T) : Prop :=
  Forall (λ r, vr_Err r = None) (pl_reports p) ∧ Forall (λ v, v_Severity v ≠ SeverityError) (pl_policyViolations p).

Section preview.
Context `{GoStd} `{GoJson} {T : Type} `{Target T} (o : options T).

(** A reload and a preview at the same point. *)
Definition paired (p q : pipelineState T) : Prop := core p = core q ∧ pl_dryRun p = false ∧ pl_dryRun q = true.

Definition mirrors (run : pipelineState T → fres (pipelineState T)) : Prop := ∀ p q, paired p q →
  match run q, run p with
  | Err e, r => r = Err e
  | Ok q', Ok p' => paired p' q' ∧ (no_findings q' ↔ no_findings q)
  | Ok q', Err e => is_invalid e = true ∧ ¬ no_findings q' ∧ pl_dryRun q' = true
  end.

Lemma paired_inv p q : paired p q → ∃ a b c d e f g h i r1 v1 r2 v2,
  p = Build_pipelineState a b c d e f g h i false r1 v1 ∧ q = Build_pipelineState a b c d e f g h i true r2 v2.
Proof.
  destruct p, q. intros (Hc & Hp & Hq). unfold core in Hc. simpl in *. simplify_eq.
  by eexists _, _, _, _, _, _, _, _, _, _, _, _, _.
Qed.

Ltac open_pair := intros p q (?&?&?&?&?&?&?&?&?&?&?&?&?&->&->)%paired_inv.

(** Nothing was found since. *)
Ltac pair_done := split; [repeat split|reflexivity].

Lemma merge_mirrors : mirrors (runMerge o).
Proof. open_pair. unfold runMerge. simpl. destruct (foldM _ _ _) as [[m ix]|]; simpl; [|done]. pair_done. Qed.

Lemma transform_mirrors : mirrors (runTransform o).
Proof. open_pair. unfold runTransform. simpl. destruct (foldM _ _ _) as [m|]; simpl; [|done]. pair_done. Qed.

Lemma secret_mirrors : mirrors (runSecretResolve o).
Proof.
  open_pair. unfold runSecretResolve. simpl. destruct (o_SecretResolver o); [|pair_done].
  destruct (WalkLeaves _ _ _ _) as [[[e|] ix] tree]; [done|]. pair_done.
Qed.

Lemma hooks_mirrors : mirrors runTypedHooks.
Proof.
  open_pair. unfold runTypedHooks. simpl. destruct t_hooks as [hook|]; [|pair_done].
  destruct (hook _); simpl; [|done]. pair_done.
Qed.

Lemma decode_mirrors : mirrors (runDecode o).
Proof.
  open_pair. unfold runDecode. simpl. destruct (t_encode _ _); [|done].
  destruct (decode_input o _); [|done].
  destruct (t_struct_defaults _); [|done]. pair_done.
Qed.

Lemma no_findings_report (p : pipelineState T) r :
  no_findings (add_report p r) ↔ no_findings p ∧ vr_Err r = None.
Proof. unfold no_findings. simpl. rewrite Forall_app, Forall_singleton. tauto. Qed.

Lemma no_findings_violations (p : pipelineState T) vs :
  no_findings (add_violations p vs) ↔ no_findings p ∧ Forall (λ v, v_Severity v ≠ SeverityError) vs.
Proof. unfold no_findings. simpl. rewrite Forall_app. tauto. Qed.

Lemma core_report (p : pipelineState T) r : core (add_report p r) = core p.
Proof. done. Qed.

(** The field rules: a reload collects the messages, a preview the reports. *)
Lemma field_meta_reload (p : pipelineState T) ms errs :
  pl_dryRun p = false → foldl field_meta_step (p, errs) ms = (p, errs ++ ms).
Proof.
  intros Hd. revert errs. induction ms as [|m ms IH]; intros errs; [by rewrite app_nil_r|].
  cbn [foldl]. unfold field_meta_step at 2, finding. cbn [fst snd]. rewrite Hd, IH, <-app_assoc. done.
Qed.

Lemma field_meta_preview (q : pipelineState T) ms :
  pl_dryRun q = true → ∃ q', foldl field_meta_step (q, []) ms = (q', []) ∧ core q' = core q ∧ pl_dryRun q' = true
    ∧ (no_findings q' ↔ no_findings q ∧ ms = []).
Proof.
  revert q. induction ms as [|m ms IH]; intros q Hd; [exists q; split_and!; [done..|tauto]|].
  cbn [foldl]. unfold field_meta_step at 2, finding. cbn [fst snd]. rewrite Hd.
  destruct (IH (add_report q {| vr_Name := "fastconf:field-meta"; vr_Err := Some (ErrInvalid [m]) |}) Hd)
    as (q' & -> & Hc & Hd' & Hf).
  exists q'. split_and!; [done..|]. rewrite Hf, no_findings_report. simpl. split; [by intros [[_ ?] _]|by intros [_ ?]].
Qed.

Lemma field_meta_mirrors : mirrors runFieldMetaCheck.
Proof.
  intros p q Hpq. pose proof Hpq as (Hc & Hp & Hq). unfold runFieldMetaCheck.
  assert (pl_target p = pl_target q) as -> by (unfold core in Hc; congruence).
  destruct (pl_target q) as [v|]; [|split; [done|reflexivity]]. destruct (t_field_meta v) as [|m ms]; [split; [done|reflexivity]|].
  rewrite (field_meta_reload p) by done. simpl app.
  destruct (field_meta_preview q (m :: ms) Hq) as (q' & -> & Hc' & Hd' & Hf). cbn iota.
  split_and!; [done| |done]. rewrite Hf. by intros [_ ?].
Qed.

Lemma validate_mirrors : mirrors (runValidate o).
Proof.
  intros p q Hpq. pose proof Hpq as (Hc & Hp & Hq). unfold runValidate.
  assert (pl_target p = pl_target q) as -> by (unfold core in Hc; congruence).
  destruct (pl_target q) as [v|]; [|split; [done|reflexivity]]. generalize 0.
  assert (∀ fs n q, pl_dryRun q = true → ∃ q', validate_loop n fs v q = Ok q' ∧ core q' = core q ∧ pl_dryRun q' = true
    ∧ (no_findings q' ↔ no_findings q ∧ Forall (λ f, is_Ok (f v) = true) fs)) as Hdry.
  { clear p q Hpq Hc Hp Hq. induction fs as [|f fs IH]; intros n q Hq.
    - exists q. split_and!; [done..|]. rewrite Forall_nil. tauto.
    - cbn [validate_loop]. unfold finding. rewrite Hq. cbn iota beta.
      set (rep := {| vr_Name := _; vr_Err := _ |}).
      destruct (IH (S n) (add_report q rep) Hq) as (q' & -> & Hc' & Hd' & Hf). exists q'. split_and!; [done..|].
      rewrite Hf, no_findings_report, Forall_cons. unfold rep. cbn [vr_Err]. destruct (f v); simpl; naive_solver. }
  assert (∀ fs n, match validate_loop n fs v p with
                  | Ok p' => p' = p ∧ Forall (λ f, is_Ok (f v) = true) fs
                  | Err e => is_invalid e = true ∧ ¬ Forall (λ f, is_Ok (f v) = true) fs
                  end) as Hreal.
  { induction fs as [|f fs IH]; intros n; cbn [validate_loop]; [by split|].
    unfold finding. rewrite Hp. specialize (IH (S n)). destruct (f v) eqn:Hf; cbn [user_error].
    - destruct (validate_loop _ _ _ _); rewrite Forall_cons, Hf; simpl; naive_solver.
    - split; [done|]. rewrite Forall_cons, Hf. simpl. naive_solver. }
  intros n. destruct (Hdry (o_Validators o) n q Hq) as (q' & -> & Hc' & Hd' & Hf). specialize (Hreal (o_Validators o) n).
  destruct (validate_loop _ _ _ p) as [p'|e].
  - destruct Hreal as [-> Hall]. split; [|tauto]. unfold paired. by rewrite Hc'.
  - split_and!; tauto.
Qed.

Lemma policy_mirrors : mirrors (runPolicy o).
Proof.
  intros p q Hpq. pose proof Hpq as (Hc & Hp & Hq). unfold runPolicy.
  assert (pl_target p = pl_target q ∧ pl_reason p = pl_reason q) as [-> ->] by (unfold core in Hc; split; congruence).
  destruct (o_Policies o); [split; [done|reflexivity]|]. destruct (pl_target q) as [v|]; [|split; [done|reflexivity]].
  destruct (evaluatePolicies_severity o v (pl_reason q)) as [He Hw].
  destruct (evaluatePolicies _ _ _) as [errs warns]. cbn [fst snd] in *. rewrite Hp, Hq.
  destruct errs as [|e errs].
  - split; [done|]. rewrite no_findings_violations, app_nil_r. tauto.
  - split_and!; [done| |done]. rewrite no_findings_violations, Forall_app, Forall_cons.
    apply Forall_cons_1 in He as [He _]. tauto.
Qed.

(** The findings of a preview accumulate. *)
Lemma mirrors_grows run q q' :
  mirrors run → pl_dryRun q = true → run q = Ok q' → pl_dryRun q' = true ∧ (no_findings q' → no_findings q).
Proof.
  intros Hm Hd Hrun. destruct q as [a b c d e f g h i dry r v]. simpl in Hd. subst dry.
  specialize (Hm (Build_pipelineState a b c d e f g h i false r v) (Build_pipelineState a b c d e f g h i true r v)).
  rewrite Hrun in Hm. specialize (Hm ltac:(by repeat split)).
  destruct (run (Build_pipelineState a b c d e f g h i false r v)) as [p'|err].
  - destruct Hm as [(_ & _ & Hd) Hf]. tauto.
  - tauto.
Qed.

Lemma default_mirrors : Forall (λ s, mirrors (snd s)) (defaultStages o).
Proof.
  unfold defaultStages. repeat apply Forall_cons_2; [..|by constructor]; cbn [snd].
  - apply merge_mirrors.
  - apply transform_mirrors.
  - apply secret_mirrors.
  - apply hooks_mirrors.
  - apply decode_mirrors.
  - apply field_meta_mirrors.
  - apply validate_mirrors.
  - apply policy_mirrors.
Qed.

Lemma run_all_mirror (stages : list (string * (pipelineState T → fres (pipelineState T)))) p q : Forall (λ s, mirrors (snd s)) stages → paired p q →
  match run_all stages q, run_all stages p with
  | Err _, r => is_Ok r = false
  | Ok q', Ok p' => paired p' q' ∧ (no_findings q' ↔ no_findings q)
  | Ok q', Err e => is_invalid e = true ∧ ¬ no_findings q'
  end.
Proof.
  intros Hall. revert p q. unfold run_all. induction Hall as [|[name run] stages Hm Hall IH]; intros p q Hpq.
  { simpl. split; [done|reflexivity]. }
  cbn [foldM snd]. specialize (Hm p q Hpq). cbn [snd] in Hm.
  destruct (run q) as [q1|e1] eqn:Hq; [|by rewrite Hm].
  destruct (run p) as [p1|e1]; cbn [mbind result_bind].
  - destruct Hm as [Hp1 Hf]. specialize (IH p1 q1 Hp1). destruct (foldM _ q1 stages) as [q'|]; [|done].
    destruct (foldM _ p1 stages); [|done]. destruct IH as [? ->]. done.
  - destruct Hm as (Hinv & Hnf & Hd). clear IH Hq. revert q1 Hnf Hd.
    induction Hall as [|[name' run'] stages Hm' Hall IH]; intros q1 Hnf Hd; [done|]. cbn [foldM snd].
    destruct (run' q1) as [q2|] eqn:Hq2; [|done]. simpl.
    destruct (mirrors_grows run' q1 q2 Hm' Hd Hq2) as [Hd2 Hg]. apply IH; tauto.
Qed.

Lemma stages_mirror p q : paired p q →
  match run_all (defaultStages o) q, run_all (defaultStages o) p with
  | Err _, r => is_Ok r = false
  | Ok q', Ok p' => paired p' q' ∧ (no_findings q' ↔ no_findings q)
  | Ok q', Err e => is_invalid e = true ∧ ¬ no_findings q'
  end.
Proof. apply run_all_mirror, default_mirrors. Qed.
End preview.

Lemma runStages_free `{GoStd} `{GoJson} {T} `{Target T} (o : options T) (p : pipelineState T) :
  (runStages o (λ _, None) p).2 = run_all (defaultStages o) p.
Proof.
  unfold runStages, run_all. generalize 0. generalize (defaultStages o). intros stages. revert p.
  induction stages as [|[name run] stages IH]; intros p n; [done|]. cbn [run_stages foldM snd].
  destruct (run p) as [p'|]; [|done]. cbn [mbind result_bind]. rewrite <-(IH p' (S n)).
  by destruct (run_stages o (λ _, None) (S n) stages p').
Qed.

(** C10: a preview predicts the reload. When the context of neither is done, for
    the same layers and the same reason: if the dry run fails, so does the
    reload; if it succeeds without a failed validator, field rule or policy
    error among its findings, the reload succeeds with the same tree, sources,
    origins, value and hash; and if something was found, the reload is refused
    as invalid. *)
Theorem preview_predicts_reload `{GoStd} `{GoJson} {T} `{Target T} (o : options T) (a : assemblyResult) (reason : string) :
  let outcome dryRun := (runPipeline o (λ _, None) a reason dryRun).2 in
  match outcome true with
  | Err _ => is_Ok (outcome false) = false
  | Ok (q, hash) =>
      (no_findings q → ∃ p, outcome false = Ok (p, hash) ∧ core p = core q)
      ∧ (¬ no_findings q → ∃ e, outcome false = Err e ∧ is_invalid e = true)
  end.
Proof.
  cbv zeta. unfold runPipeline.
  pose proof (stages_mirror o (new_pipeline a reason false) (new_pipeline a reason true)) as Hm.
  specialize (Hm ltac:(by repeat split)).
  rewrite <-!runStages_free in Hm.
  destruct (runStages o (λ _, None) (new_pipeline a reason true)) as [evq [q|eq]];
    destruct (runStages o (λ _, None) (new_pipeline a reason false)) as [evp [p|ep]]; cbn [snd] in *; try done.
  - destruct Hm as [[Hc _] Hf]. assert (pl_target p = pl_target q) as -> by (unfold core in Hc; congruence).
    destruct (pl_target q) as [v|]; [|done]. destruct (canonicalHash o v); [|done].
    split; [by exists p|]. intros Hno. destruct Hno. rewrite Hf. split; constructor.
  - destruct Hm as [Hinv Hno]. destruct (pl_target q) as [v|]; [|done]. destruct (canonicalHash o v); [|done].
    split; [done|]. intros _. by exists ep.
Qed.

(** ** Secrets *)

(** C14: secret resolution. The stage succeeds exactly by resolving every string
    of the tree that the resolver recognises, to a depth of 257 keys and
    whatever the order of the map iteration: then each such string reads as its
    plaintext, every other string and every other scalar as before. It fails
    only when one of the recognised references does not resolve, with a
    transform error that names its scheme and its path. *)
Theorem secret_resolution `{GoStd} `{GoJson} {T} `{Target T} (o : options T) (p : pipelineState T)
    (r : SecretResolver) (Hr : o_SecretResolver o = Some r) :
  let tree := VMapOpt (pl_merged p) in
  match runSecretResolve o p with
  | Ok p' =>
      let tree' := VMapOpt (pl_merged p') in
      (∀ keys s, reached 0 tree keys s →
         (∀ ref, Recognize r s = Some ref → is_Ok (Resolve r ref) = true)
         ∧ at_path tree' keys = Some (VString (secret_plain r s)))
      ∧ (∀ keys v, length keys ≤ S maxTreeDepth → at_path tree keys = Some v →
           as_string v = None → as_map v = None → as_slice v = None → at_path tree' keys = Some v)
  | Err e => ∃ keys s ref d, reached 0 tree keys s ∧ Recognize r s = Some ref ∧ Resolve r ref = Err d
      ∧ e = ErrTransform ("secret " +:+ ref_Scheme ref +:+ "@" +:+ foldl join_path "" keys)
  end.
Proof.
  intros tree. unfold runSecretResolve. rewrite Hr.
  pose proof (secret_walk r tree (pl_origins p) ltac:(unfold tree; by destruct (pl_merged p))) as Hw.
  fold tree. destruct (WalkLeaves _ tree _ _) as [[err ix] tree2]. destruct Hw as [(He & Ht & Hc)|(e & He & Hf)]; simpl in He; subst err.
  - cbn [snd] in Ht. cbv zeta. cbn [set_tree pl_merged].
    assert (VMapOpt (default None (as_map tree2)) = rewrite_child (secret_plain r) 0 tree) as ->.
    { rewrite Ht. unfold tree. destruct (pl_merged p); [|done]. done. }
    split.
    + intros keys s Hreach. specialize (Hc keys s Hreach). destruct Hreach as [Hlen Hs]. split.
      * intros ref Href. unfold secret_fail in Hc. rewrite Href in Hc. by destruct (Resolve r ref).
      * rewrite at_path_rewrite by exact Hlen. by rewrite Hs.
    + intros keys v Hlen Hv Hnstr Hnmap Hnsl. rewrite at_path_rewrite by exact Hlen. rewrite Hv. simpl.
      f_equal. by apply rewrite_child_other.
  - destruct Hf as (keys & s & Hreach & Hf). exists keys, s. unfold secret_fail in Hf.
    destruct (Recognize r s) as [ref|] eqn:Href; [|done]. destruct (Resolve r ref) as [|d] eqn:Hres; [done|].
    exists ref, d. split_and!; [done..|]. by injection Hf as <-.
Qed.

(** ** Merging *)

(** The tree a layer contributes. *)
Definition layer_data (l : stagedLayer) : gomap :=
  match sl_cached l with Some c => cloneTree c | None => sl_data l end.

Lemma Deep_some opt d s r : Deep (Some d) s opt = Ok r → ∃ r', r = Some r' ∧ Deep (Some d) (Some (default ∅ s)) opt = Ok (Some r').
Proof. intros Hr. pose proof Hr as (r' & -> & _)%Deep_Ok. by exists r'. Qed.

Lemma merge_layer_writes `{GoStd} `{GoJson} opt m ix l acc d p v :
  plain opt → sl_patch l = None → layer_data l = Some d →
  get_at (VMap d) p = Some v → as_map v = None → merge_layer opt (Some m, ix) l = Ok acc →
  ∃ m', acc.1 = Some m' ∧ get_at (VMap m') p = Some v.
Proof.
  intros Hp Hpatch Hd Hg Hv. unfold merge_layer. rewrite Hpatch. cbv zeta. fold (layer_data l). rewrite Hd.
  destruct (Deep _ _ _) as [r|] eqn:Hr; [|done]. intros [= <-]. apply Deep_some in Hr as (r' & -> & Hr).
  apply Deep_value in Hr. exists r'. split; [done|]. by eapply merge_get_source.
Qed.

Lemma merge_layer_keeps `{GoStd} `{GoJson} opt m ix l acc p v :
  plain opt → sl_patch l = None → untouched (VMap (default ∅ (layer_data l))) p →
  get_at (VMap m) p = Some v → merge_layer opt (Some m, ix) l = Ok acc →
  ∃ m', acc.1 = Some m' ∧ get_at (VMap m') p = Some v.
Proof.
  intros Hp Hpatch Hu Hg. unfold merge_layer. rewrite Hpatch. cbv zeta. fold (layer_data l).
  destruct (Deep _ _ _) as [r|] eqn:Hr; [|done]. intros [= <-]. apply Deep_some in Hr as (r' & -> & Hr).
  apply Deep_value in Hr. exists r'. split; [done|]. by rewrite (merge_get_base _ _ _ _ _ _ Hp Hr Hu).
Qed.

(** The writer of a path stays visible when no later layer touches it. *)
Lemma merge_layers_keep `{GoStd} `{GoJson} opt post acc acc' p v :
  plain opt → Forall (λ l, sl_patch l = None ∧ untouched (VMap (default ∅ (layer_data l))) p) post →
  (∃ m, acc.1 = Some m ∧ get_at (VMap m) p = Some v) → foldM (merge_layer opt) acc post = Ok acc' →
  ∃ m', acc'.1 = Some m' ∧ get_at (VMap m') p = Some v.
Proof.
  intros Hp Hpost Hacc. apply (foldM_inv (λ a, ∃ m, a.1 = Some m ∧ get_at (VMap m) p = Some v)); [|done].
  intros [a ix] l b Hl (m & Ha & Hm). simpl in Ha. subst a.
  rewrite Forall_forall in Hpost. destruct (Hpost l Hl) as [Hpatch Hu].
  intros Hb. by eapply merge_layer_keeps.
Qed.

(** C11: the last writer wins. With slices replaced rather than merged, when a
    layer gives a path a value that is not a map and none of the layers of
    higher precedence is a patch or says anything at that path or on the way to
    it, the merged tree has exactly that value there, whatever the layers of
    lower precedence, patches included, contain. *)
Theorem last_writer_wins `{GoStd} `{GoJson} {T} `{Target T} (o : options T) (p p' : pipelineState T)
    (pre post : list stagedLayer) (l : stagedLayer) (d : gmap string value) (path : list string) (v : value)
    (Hstaged : pl_staged p = pre ++ l :: post)
    (Happend : pl_appendSlices p = false) (Hkeys : pl_mergeKeys p = ∅)
    (Hpatch : sl_patch l = None) (Hdata : layer_data l = Some d) (Hpath : path ≠ [])
    (Hv : get_at (VMap d) path = Some v) (Hleaf : as_map v = None)
    (Hpost : Forall (λ l, sl_patch l = None ∧ untouched (VMap (default ∅ (layer_data l))) path) post)
    (Hrun : runMerge o p = Ok p') :
  Get (pl_merged p') path = Some v ∧ pl_sources p' = sl_src <$> pl_staged p.
Proof.
  unfold runMerge in Hrun. rewrite Hstaged, foldM_app in Hrun. cbn [foldM] in Hrun.
  apply bind_Ok in Hrun as ([m ix] & Hfold & Hp'). injection Hp' as <-. cbn [set_tree pl_merged pl_sources].
  apply bind_Ok in Hfold as ([m0 ix0] & _ & (acc & Hl & Hpost')%bind_Ok).
  split; [|by rewrite Hstaged].
  set (opt := {| Merge.AppendSlices := _; Merge.Strict := _; MergeKeys := _ |}) in *.
  assert (plain opt) as Hplain by (by split).
  assert (∃ m', acc.1 = Some m' ∧ get_at (VMap m') path = Some v) as Hacc.
  { destruct m0 as [m0|]; [by eapply merge_layer_writes|].
    exfalso. unfold merge_layer in Hl. rewrite Hpatch in Hl. cbv zeta in Hl. fold (layer_data l) in Hl. rewrite Hdata in Hl.
    unfold Deep in Hl. case_bool_decide as He; [|done]. simpl in He. rewrite He in Hv.
    destruct path as [|k path]; [done|]. simpl in Hv. by rewrite lookup_empty in Hv. }
  destruct (merge_layers_keep opt post acc (m, ix) path v Hplain Hpost Hacc Hpost') as (m' & Hm & Hg).
  simpl in Hm. subst m. destruct path; [done|]. exact Hg.
Qed.

(** ** Examples *)

Definition example_target : Target string := {|
  t_encode _ m := match m ≫= (.!! "host") with Some (VString s) => Ok s | _ => Err "no host" end;
  t_decode _ _ s := Ok s;
  t_hooks := None;
  t_assign _ v := v;
  t_struct_defaults v := Ok (if String.eqb v "" then "localhost" else v);
  t_Defaults := None;
  t_field_meta v := if String.eqb v "bad" then ["host: bad"] else [];
  t_marshal _ v := Ok v;
|}.

Definition example_resolver : SecretResolver := {|
  Recognize s := if HasPrefix s "vault:" then Some {| ref_Scheme := "vault"; ref_Body := s |} else None;
  Resolve ref := if String.eqb (ref_Body ref) "vault:gone" then Err "gone" else Ok "plain";
|}.

Definition with_resolver (r : SecretResolver) : options string := {|
  o_Dir := "etc"; o_FS := None; o_SkipDiscovery := true; o_ProfileNames := []; o_ProfileMatch := "";
  o_ProfileEnv := ""; o_ProfileDefault := ""; o_Strict := false; o_Providers := []; o_Axes := [];
  o_Validators := []; o_Transforms := []; o_Provenance := Full; o_HistoryCap := 2;
  o_YAMLBridge := false; o_UnknownFields := UnknownIgnore; o_Policies := []; o_SecretResolver := Some r;
  o_Generators := []; o_TypedHooks := 0; o_MergeKeys := ∅; o_Observers := 1; o_Tenant := "";
|}.

Definition example_layer (path : string) (m : gmap string value) : stagedLayer := {|
  sl_src := {| sr_Path := path; sr_Kind := LayerMerge; sr_Profile := ""; sr_Priority := 3;
               sr_Codec := "yaml"; sr_Revision := ""; sr_Stale := false |};
  sl_class := classFile; sl_classPriority := 3; sl_data := Some m; sl_cached := None; sl_patch := None;
  sl_fileSum := zero32;
|}.

Definition example_state (staged : list stagedLayer) (m : gmap string value) : pipelineState string :=
  Build_pipelineState "manual" staged [] (Some m) None None false false ∅ false [] [].

Lemma secret_resolution_witness :
  ∃ p' : pipelineState string,
    @runSecretResolve string (with_resolver example_resolver)
      (example_state [] {[ "db" := VMap {[ "token" := VString "vault:a" ]} ]}) = Ok p'
    ∧ at_path (VMapOpt (pl_merged p')) ["db"; "token"] = Some (VString "plain").
Proof.
  pose proof (@secret_resolution example_std example_json string example_target (with_resolver example_resolver)
    (example_state [] {[ "db" := VMap {[ "token" := VString "vault:a" ]} ]}) example_resolver eq_refl) as Hs.
  cbv zeta in Hs. destruct (runSecretResolve _ _) as [p'|e] eqn:Hrun; [|vm_compute in Hrun; discriminate].
  exists p'. split; [reflexivity|]. destruct Hs as [Hs _].
  destruct (Hs ["db"; "token"] "vault:a") as [_ Hat].
  - split; [apply Nat.leb_le; vm_compute; reflexivity|vm_compute; reflexivity].
  - rewrite Hat. vm_compute. reflexivity.
Defined.

Lemma last_writer_wins_witness :
  ∃ p' : pipelineState string,
    @runMerge example_std example_json string (with_resolver example_resolver)
      (example_state [example_layer "base" {[ "a" := VMap {[ "b" := VBool false; "c" := VNil ]} ]};
                      example_layer "mid" {[ "a" := VMap {[ "b" := VBool true ]} ]};
                      example_layer "top" {[ "a" := VMap {[ "c" := VString "x" ]} ]}] ∅) = Ok p'
    ∧ Get (pl_merged p') ["a"; "b"] = Some (VBool true).
Proof.
  set (st := example_state _ _).
  destruct (@runMerge example_std example_json string (with_resolver example_resolver) st) as [p'|e] eqn:Hrun;
    [|vm_compute in Hrun; discriminate].
  exists p'. split; [reflexivity|].
  apply (@last_writer_wins example_std example_json string example_target (with_resolver example_resolver) st p'
    [example_layer "base" {[ "a" := VMap {[ "b" := VBool false; "c" := VNil ]} ]}]
    [example_layer "top" {[ "a" := VMap {[ "c" := VString "x" ]} ]}]
    (example_layer "mid" {[ "a" := VMap {[ "b" := VBool true ]} ]})
    {[ "a" := VMap {[ "b" := VBool true ]} ]} ["a"; "b"] (VBool true));
    try reflexivity; [discriminate| |exact Hrun].
  apply Forall_cons_2; [|apply Forall_nil_2]. split; [reflexivity|]. vm_compute. exact I.
Defined.
