(* ===== verification/Manager.v ===== *)
(** * The manager (commit.go, reload.go, plan.go, history.go, state.go)

    The state the single writer owns, and its operations: a reload and its
    commit, a preview, a rollback, and the queue of reload errors. *)
From S2P Require Import Prelude GoStrings Value Clone Patch Scan Provenance LayerCache History Options Subscribe Assemble Pipeline.
From Stdlib Require Import Ascii.
Open Scope nat_scope.

(** ** Snapshots *)

(** [ReloadCause], without its time; a nil map is [None]. *)
Record ReloadCause := {
  rc_Reason : string;
  rc_Revisions : option (gmap string string);
  rc_Tenant : string;
  rc_Key : string;
}.

(** [State]; [st_addr] is the identity of the object a pointer denotes. *)
Record State (T : Type) := {
  st_addr : N;
  st_value : T;
  st_hash : string;
  st_sources : list SourceRef;
  st_generation : N;
  st_cause : ReloadCause;
  st_origins : option Index;
}.
Arguments Build_State {T} _ _ _ _ _ _ _.
Arguments st_addr {T} _.
Arguments st_value {T} _.
Arguments st_hash {T} _.
Arguments st_sources {T} _.
Arguments st_generation {T} _.
Arguments st_cause {T} _.
Arguments st_origins {T} _.

(** [restampState]: the same payload under a new generation and cause. *)
Definition restampState {T} (addr : N) (s : State T) (generation : N) (cause : ReloadCause) : State T :=
  Build_State addr (st_value s) (st_hash s) (st_sources s) generation cause (st_origins s).

Definition providerPathPrefix : string := "provider://".

(** [collectProviderRevisions]. *)
Definition collect_revision (out : option (gmap string string)) (s : SourceRef) : option (gmap string string) :=
  if negb (bool_decide (sr_Kind s = LayerProvider)) || String.eqb (sr_Revision s) "" then out
  else
    let name := sr_Path s in
    let name := if (String.length providerPathPrefix <? String.length name) && HasPrefix name providerPathPrefix
                then str_drop (String.length providerPathPrefix) name else name in
    Some (<[name := sr_Revision s]> (default ∅ out)).

Definition collectProviderRevisions (sources : list SourceRef) : option (gmap string string) :=
  foldl collect_revision None sources.

(** ** The state of the writer *)

Record manager (T : Type) := {
  mg_state : option (State T);
  mg_gen : N;
  mg_publishedFingerprint : string;
  mg_history : option (ring (State T));
  mg_caches : caches;
  mg_scannedDirs : list string;
  mg_subscribers : subscriptions T;
  mg_errors : list (string * fc_error);
  mg_alloc : N;
}.
Arguments Build_manager {T} _ _ _ _ _ _ _ _ _.
Arguments mg_state {T} _.
Arguments mg_gen {T} _.
Arguments mg_publishedFingerprint {T} _.
Arguments mg_history {T} _.
Arguments mg_caches {T} _.
Arguments mg_scannedDirs {T} _.
Arguments mg_subscribers {T} _.
Arguments mg_errors {T} _.
Arguments mg_alloc {T} _.

(** What happens outside the writer while it runs: events received by the
    observers and calls of the subscribers. *)
Inductive effect := Observed (e : event) | Called (id : N) (r : sub_result).

(** [gen.Add(1)] on a 64-bit counter. *)
Definition next_gen (g : N) : N := ((g + 1) mod 2 ^ 64)%N.

(** ** The queue of reload errors (reload_queue.go) *)

Definition errorsChanCap : nat := 16.

(** [publishReloadError]: send if there is room, else drop the oldest and retry. *)
Fixpoint publish_loop {A} (fuel : nat) (q : list A) (e : A) : option (list A) :=
  match fuel with
  | O => None
  | S fuel => if length q <? errorsChanCap then Some (q ++ [e]) else publish_loop fuel (tail q) e
  end.

Definition publishReloadError (q : list (string * fc_error)) (reason : string) (err : fc_error) : list (string * fc_error) :=
  default q (publish_loop (S (length q)) q (reason, err)).

Section manager.
Context `{GoStd} `{GoJson} `{Codecs} {T : Type} `{Target T}.
(** Whether the type has custom encodings or computed defaults, and the options. *)
Context (customEncoding : bool) (o : options T).

Definition observed (evs : list event) : list effect := Observed <$> evs.

(** [newManager], once the options are resolved. *)
Definition newManager : manager T :=
  Build_manager None 0 zero32 (newRing (o_HistoryCap o))
    {| ca_layers := empty_cache; ca_meta := {| mk_sum := ""; mk_keys := ∅; mk_set := false |} |}
    [] no_subscriptions [] 0.

Definition set_inputs (m : manager T) (ca : caches) (dirs : list string) : manager T :=
  Build_manager (mg_state m) (mg_gen m) (mg_publishedFingerprint m) (mg_history m) ca dirs (mg_subscribers m)
    (mg_errors m) (mg_alloc m).

Definition set_fingerprint (m : manager T) (fp : string) : manager T :=
  Build_manager (mg_state m) (mg_gen m) fp (mg_history m) (mg_caches m) (mg_scannedDirs m) (mg_subscribers m)
    (mg_errors m) (mg_alloc m).

Definition set_errors (m : manager T) (q : list (string * fc_error)) : manager T :=
  Build_manager (mg_state m) (mg_gen m) (mg_publishedFingerprint m) (mg_history m) (mg_caches m) (mg_scannedDirs m)
    (mg_subscribers m) q (mg_alloc m).

(** ** Publication *)

Definition panics_published (q : list (string * fc_error)) (calls : list (N * sub_result)) : list (string * fc_error) :=
  foldl (λ q e, publishReloadError q "subscriber-panic" (ErrUser e)) q (panic_errors calls).

(** [publishSnapshot]: store, retain the previous state, emit, notify. *)
Definition publishSnapshot (m : manager T) (prev : option (State T)) (next : State T) : manager T * list effect :=
  let history := match prev with Some prev => Push (mg_history m) prev | None => mg_history m end in
  let calls := notifySubscribers (mg_subscribers m) (st_value <$> prev) (Some (st_value next)) in
  (Build_manager (Some next) (mg_gen m) (mg_publishedFingerprint m) history (mg_caches m) (mg_scannedDirs m)
     (mg_subscribers m) (panics_published (mg_errors m) calls) (mg_alloc m),
   observed (emit o (Committed (default 0%N (st_generation <$> prev)) (st_generation next)
                       (rc_Reason (st_cause next)) (length (st_sources next))))
   ++ ((λ c, Called c.1 c.2) <$> calls)).

(** The counters after the creation of a published state. *)
Definition bump (m : manager T) : manager T :=
  Build_manager (mg_state m) (next_gen (mg_gen m)) (mg_publishedFingerprint m) (mg_history m) (mg_caches m)
    (mg_scannedDirs m) (mg_subscribers m) (mg_errors m) (mg_alloc m + 1)%N.

(** [newState] of a completed pipeline. *)
Definition newState (m : manager T) (p : pipelineState T) (v : T) (hash : string) (generation : N) (cause : ReloadCause) : State T :=
  Build_State (mg_alloc m) v hash (pl_sources p) generation cause (pl_origins p).

Definition newCommittedState (m : manager T) (p : pipelineState T) (v : T) (hash reason key : string) : manager T * State T :=
  let cause := {| rc_Reason := reason; rc_Revisions := collectProviderRevisions (pl_sources p);
                  rc_Tenant := o_Tenant o; rc_Key := key |} in
  (bump m, newState m p v hash (next_gen (mg_gen m)) cause).

(** [commit]. *)
Definition commit (m : manager T) (ctx : context) (a : assemblyResult) (reason key : string) :
    manager T * list effect * fres unit :=
  match ctx AtCommit with
  | Some e => (m, [], Err (CtxErr e))
  | None =>
      if negb (String.eqb (ar_fingerprint a) zero32) && String.eqb (ar_fingerprint a) (mg_publishedFingerprint m)
      then (m, [], Ok ())
      else
        let '(evs, r) := runPipeline o ctx a reason false in
        match r with
        | Err e => (m, observed evs, Err e)
        | Ok (p, hash) =>
            match ctx AtPublish, pl_target p with
            | Some e, _ => (m, observed evs, Err (CtxErr e))
            | None, None => (m, observed evs, Err (ErrHash "nil target"))
            | None, Some v =>
                let prev := mg_state m in
                let m := set_fingerprint m (ar_fingerprint a) in
                if match prev with Some prev => String.eqb (st_hash prev) hash | None => false end
                then (m, observed evs, Ok ())
                else
                  let '(m, next) := newCommittedState m p v hash reason key in
                  let '(m, effs) := publishSnapshot m prev next in
                  (m, observed evs ++ effs, Ok ())
            end
        end
  end.

(** ** Reload *)

Definition reload (w : world) (m : manager T) (ctx : context) (reason key : string) (extra : list stagedLayer) :
    manager T * list effect * fres unit :=
  let '(ca, dirs, r) := assemble customEncoding w o (ctx AtAssemble) "" (mg_caches m) extra in
  let started := emit o (ReloadStarted reason) ++ emit o (StageFinished "assemble" (error_of r)) in
  let m := set_inputs m ca dirs in
  match r with
  | Err e => (m, observed (started ++ emit o (ReloadFinished reason (Some e))), Err e)
  | Ok a =>
      let '(m, effs, r) := commit m ctx a reason key in
      (m, observed started ++ effs
          ++ observed (emit o (StageFinished "commit" (error_of r)) ++ emit o (ReloadFinished reason (error_of r))), r)
  end.

(** ** Preview *)

Record PlanResult := {
  pr_Proposed : State T;
  pr_Validators : list ValidatorReport;
  pr_Policies : list Violation;
}.

(** [runPlan]; the difference to the current state is left out. *)
Definition runPlan (w : world) (m : manager T) (ctx : context) (hostname : string) :
    manager T * list effect * fres PlanResult :=
  let '(ca, dirs, r) := assemble customEncoding w o (ctx AtAssemble) hostname (mg_caches m) [] in
  let m := set_inputs m ca (mg_scannedDirs m) in
  match r with
  | Err e => (m, [], Err e)
  | Ok a =>
      let '(evs, r) := runPipeline o ctx a "plan" true in
      match r with
      | Err e => (m, observed evs, Err e)
      | Ok (p, hash) =>
          match pl_target p with
          | None => (m, observed evs, Err (ErrHash "nil target"))
          | Some v =>
              let cause := {| rc_Reason := "plan"; rc_Revisions := None; rc_Tenant := o_Tenant o; rc_Key := "" |} in
              let proposed := newState m p v hash (mg_gen m) cause in
              (Build_manager (mg_state m) (mg_gen m) (mg_publishedFingerprint m) (mg_history m) (mg_caches m)
                 (mg_scannedDirs m) (mg_subscribers m) (mg_errors m) (mg_alloc m + 1)%N,
               observed evs,
               Ok {| pr_Proposed := proposed; pr_Validators := pl_reports p; pr_Policies := pl_policyViolations p |})
          end
      end
  end.

(** ** Rollback *)

(** [applyRollback], on the writer. *)
Definition applyRollback (m : manager T) (target : State T) : manager T * list effect :=
  let cause := {| rc_Reason := "rollback"; rc_Revisions := None; rc_Tenant := o_Tenant o; rc_Key := "" |} in
  let prev := mg_state m in
  let next := restampState (mg_alloc m) target (next_gen (mg_gen m)) cause in
  publishSnapshot (set_fingerprint (bump m) zero32) prev next.

(** The checks of [Rollback] before it submits; a nil history is refused. *)
Definition rollback_check (m : manager T) (target : option (State T)) : fres (State T) :=
  match mg_history m with
  | None => Err ErrHistoryDisabled
  | Some _ =>
      match target with
      | None => Err ErrUnknownGeneration
      | Some target =>
          match Find (mg_history m) (Some (λ s, N.eqb (st_generation s) (st_generation target))) with
          | Some found => if N.eqb (st_addr found) (st_addr target) then Ok target else Err ErrUnknownGeneration
          | None => Err ErrUnknownGeneration
          end
      end
  end.

(** ** Requests *)

(** A request of the writer: what [reloadRequest] asks it to run. *)
Inductive request :=
| ReqReload (reason key : string) (extra : list stagedLayer)
| ReqPlan (hostname : string)
| ReqRollback (target : State T)
| ReqOptionError (reason : string) (e : fc_error).

Definition request_reason (r : request) : string :=
  match r with
  | ReqReload reason _ _ => reason | ReqPlan _ => "plan" | ReqRollback _ => "rollback" | ReqOptionError reason _ => reason
  end.

Definition run_request (w : world) (m : manager T) (ctx : context) (r : request) : manager T * list effect * fres unit :=
  match r with
  | ReqReload reason key extra => reload w m ctx reason key extra
  | ReqPlan hostname => let '(m, effs, r) := runPlan w m ctx hostname in (m, effs, (λ _, ()) <$> r)
  | ReqRollback target => let '(m, effs) := applyRollback m target in (m, effs, Ok ())
  | ReqOptionError _ e => (m, [], Err e)
  end.

(** [runReloadRequest]: a request whose context is done is not run; a failure
    is published on the error channel. *)
Definition runReloadRequest (w : world) (m : manager T) (done : option ctx_error) (ctx : context) (r : request) :
    manager T * list effect * fres unit :=
  let '(m, effs, res) := match done with
                         | Some e => (m, [], Err (CtxErr e))
                         | None => run_request w m ctx r
                         end in
  match res with
  | Ok _ => (m, effs, res)
  | Err e => (set_errors m (publishReloadError (mg_errors m) (request_reason r) e), effs, res)
  end.
End manager.

(** ** What a request publishes *)

(** The effects of a publication: [Committed] events and subscriber calls. *)
Definition is_publication (e : effect) : bool :=
  match e with Observed (Committed _ _ _ _) | Called _ _ => true | _ => false end.
Definition publications (effs : list effect) : list effect := filter (λ e, is_publication e = true) effs.

(** Apart from the caches, the directories and the errors, nothing changed. *)
Definition same_published {T} (m m' : manager T) : Prop :=
  mg_state m' = mg_state m ∧ mg_gen m' = mg_gen m ∧ mg_history m' = mg_history m ∧ mg_subscribers m' = mg_subscribers m.

Lemma same_published_refl {T} (m : manager T) : same_published m m.
Proof. by repeat split. Qed.

Section spec.
Context `{GoStd} `{GoJson} `{Codecs} {T : Type} `{Target T}.
Context (customEncoding : bool) (o : options T).

Lemma publications_app a b : publications (a ++ b) = publications a ++ publications b.
Proof. apply filter_app. Qed.

Lemma publications_emit e : is_publication (Observed e) = false → publications (observed (emit o e)) = [].
Proof. intros He. unfold emit, observed. destruct (hasObservers o); [|done]. by destruct e. Qed.

Lemma publications_calls calls :
  publications ((λ c : N * sub_result, Called c.1 c.2) <$> calls) = (λ c, Called c.1 c.2) <$> calls.
Proof.
  induction calls as [|c calls IH]; [done|]. unfold publications in *. rewrite fmap_cons, filter_cons_True by done.
  by rewrite IH.
Qed.

Lemma observed_app a b : observed (a ++ b) = observed a ++ observed b.
Proof. apply fmap_app. Qed.

(** Stages only report themselves. *)
Lemma run_stages_silent ctx i stages (p : pipelineState T) evs r :
  run_stages o ctx i stages p = (evs, r) → publications (observed evs) = [].
Proof.
  revert i p evs r. induction stages as [|[name run] stages IH]; intros i p evs r; cbn [run_stages].
  - by intros [= <- _].
  - destruct (ctx (AtStage i)); [by intros [= <- _]|].
    destruct (run p) as [p'|e]; [|by intros [= <- _]; apply publications_emit].
    destruct (run_stages o ctx (S i) stages p') as [evs' r'] eqn:Hrun. intros [= <- _].
    rewrite observed_app, publications_app, publications_emit by done. by eapply IH.
Qed.

Lemma runPipeline_silent ctx a reason dry evs r :
  runPipeline o ctx a reason dry = (evs, r) → publications (observed evs) = [].
Proof.
  unfold runPipeline. destruct (runStages o ctx _) as [evs' r'] eqn:Hrun. intros [= <- _].
  by eapply run_stages_silent.
Qed.

(** Why a commit has nothing to publish: the inputs are those the published
    state was made from, or the pipeline arrives at its hash. *)
Definition unchanged (m : manager T) (ctx : context) (a : assemblyResult) (reason : string) : Prop :=
  (ar_fingerprint a ≠ zero32 ∧ ar_fingerprint a = mg_publishedFingerprint m)
  ∨ (∃ evs p prev, runPipeline o ctx a reason false = (evs, Ok (p, st_hash prev)) ∧ mg_state m = Some prev).

(** The three outcomes of a commit. *)
Lemma commit_cases m ctx a reason key m' effs r :
  commit o m ctx a reason key = (m', effs, r) →
  (∃ e, r = Err e ∧ m' = m ∧ publications effs = [])
  ∨ (r = Ok () ∧ (m' = m ∨ m' = set_fingerprint m (ar_fingerprint a)) ∧ publications effs = [] ∧ unchanged m ctx a reason)
  ∨ (r = Ok () ∧ ∃ evs p hash v, (ar_fingerprint a = zero32 ∨ ar_fingerprint a ≠ mg_publishedFingerprint m)
       ∧ runPipeline o ctx a reason false = (evs, Ok (p, hash)) ∧ pl_target p = Some v
       ∧ (∀ prev, mg_state m = Some prev → st_hash prev ≠ hash)
       ∧ let '(m1, next) := newCommittedState o (set_fingerprint m (ar_fingerprint a)) p v hash reason key in
         let '(m2, pubs) := publishSnapshot o m1 (mg_state m) next in
         m' = m2 ∧ publications effs = pubs).
Proof.
  unfold commit. destruct (ctx AtCommit) as [c|]; [intros [= <- <- <-]; left; by exists (CtxErr c)|].
  destruct (negb _ && _) eqn:Hfp.
  { intros [= <- <- <-]. right; left. apply andb_prop in Hfp as [Hz Heq].
    apply negb_true_iff, String.eqb_neq in Hz. apply String.eqb_eq in Heq. split_and!; [done|by left|done|by left]. }
  destruct (runPipeline o ctx a reason false) as [evs [[p hash]|e]] eqn:Hrun.
  2:{ intros [= <- <- <-]. left. exists e. split_and!; [done..|]. by eapply runPipeline_silent. }
  apply runPipeline_silent in Hrun as Hsil.
  destruct (ctx AtPublish) as [c|]; [intros [= <- <- <-]; left; by exists (CtxErr c)|].
  destruct (pl_target p) as [v|] eqn:Hv; [|intros [= <- <- <-]; left; by eexists].
  destruct (match mg_state m with Some prev => _ | None => _ end) eqn:Hsame.
  { intros [= <- <- <-]. right; left. split_and!; [done|by right|done|right].
    destruct (mg_state m) as [prev|] eqn:Hprev; [|done]. apply String.eqb_eq in Hsame as <-. by exists evs, p, prev. }
  cbn [newCommittedState]. destruct (publishSnapshot o _ _ _) as [m2 pubs] eqn:Hpub.
  intros [= <- <- <-]. right; right. split; [done|]. exists evs, p, hash, v. split_and!; [|done..| |].
  - apply andb_false_iff in Hfp as [Hz|Hz]; [left; by apply negb_false_iff, String.eqb_eq in Hz|right; by apply String.eqb_neq].
  - intros prev Hprev. rewrite Hprev in Hsame. by apply String.eqb_neq.
  - cbv zeta in *. rewrite Hpub. split; [done|]. rewrite publications_app, Hsil. simpl.
    unfold publishSnapshot in Hpub. injection Hpub as _ <-. rewrite publications_app. f_equal.
    + unfold emit. by destruct (hasObservers o).
    + apply publications_calls.
Qed.
End spec.

(** ** Steps of the manager *)

Section advance.
Context `{GoStd} `{GoJson} `{Codecs} {T : Type} `{Target T}.
Context (customEncoding : bool) (o : options T).

(** The publication of [next] over [prev]: the event, and the calls. *)
Definition publication_of (subs : subscriptions T) (prev : option (State T)) (next : State T) : list effect :=
  observed (emit o (Committed (default 0%N (st_generation <$> prev)) (st_generation next)
                      (rc_Reason (st_cause next)) (length (st_sources next))))
  ++ ((λ c, Called c.1 c.2) <$> notifySubscribers subs (st_value <$> prev) (Some (st_value next))).

Definition pushed (m : manager T) : option (ring (State T)) :=
  match mg_state m with Some prev => Push (mg_history m) prev | None => mg_history m end.

(** A step publishes nothing, or one new state. *)
Inductive advance (m m' : manager T) : list effect → Prop :=
| adv_none : same_published m m' → advance m m' []
| adv_publish next :
    mg_state m' = Some next → mg_gen m' = next_gen (mg_gen m) → st_generation next = mg_gen m' →
    mg_history m' = pushed m → mg_subscribers m' = mg_subscribers m →
    (mg_alloc m <= st_addr next < mg_alloc m')%N →
    advance m m' (publication_of (mg_subscribers m) (mg_state m) next).

Lemma publish_advance m m1 next :
  same_published m m1 → st_generation next = next_gen (mg_gen m) → st_addr next = mg_alloc m →
  mg_alloc m1 = mg_alloc m →
  let '(m', effs) := publishSnapshot o (bump m1) (mg_state m) next in
  mg_state m' = Some next ∧ advance m m' effs ∧ effs = publication_of (mg_subscribers m) (mg_state m) next
  ∧ mg_publishedFingerprint m' = mg_publishedFingerprint m1 ∧ (mg_alloc m' = mg_alloc m + 1)%N.
Proof.
  intros (Hs & Hg & Hh & Hsub) Hgen Haddr Halloc. unfold publishSnapshot. cbn [bump mg_subscribers mg_history].
  rewrite Hsub, Hh. split_and!; [done| |done|done|simpl; by rewrite Halloc].
  apply adv_publish; cbn [bump mg_state mg_gen mg_history mg_subscribers mg_alloc]; try done.
  - by rewrite Hg.
  - by rewrite Hgen, Hg.
  - rewrite Haddr, Halloc. lia.
Qed.

(** The fields a preview or a failed request may change are not published. *)
Lemma same_inputs (m : manager T) ca dirs : same_published m (set_inputs m ca dirs).
Proof. by repeat split. Qed.

Lemma advance_from m m0 m' effs :
  same_published m m0 → mg_alloc m0 = mg_alloc m → advance m0 m' effs → advance m m' effs.
Proof.
  intros (Hs & Hg & Hh & Hsub) Ha [Hsame|next Hn Hgen Hng Hhist Hsubs Haddr].
  - apply adv_none. destruct Hsame as (? & ? & ? & ?). repeat split; congruence.
  - rewrite Hs, Hsub. apply adv_publish; try done; [by rewrite Hgen, Hg|by rewrite Hhist; unfold pushed; rewrite Hs, Hh|by rewrite Hsubs|by rewrite <-Ha].
Qed.

Lemma commit_advance m ctx a reason key m' effs r :
  commit o m ctx a reason key = (m', effs, r) →
  advance m m' (publications effs) ∧ (mg_alloc m <= mg_alloc m')%N
  ∧ (is_Ok r = false → m' = m ∧ publications effs = []).
Proof.
  intros [(e & -> & -> & ->)|[(-> & Hm & -> & _)|(-> & evs & p & hash & v & _ & _ & _ & _ & Hpub)]]%commit_cases.
  - split_and!; [by apply adv_none, same_published_refl|lia|done].
  - assert (mg_alloc m' = mg_alloc m ∧ same_published m m') as [Ha Hs] by (destruct Hm as [->| ->]; by repeat split).
    split_and!; [by apply adv_none|lia|done].
  - cbn [newCommittedState] in Hpub.
    set (m1 := set_fingerprint m (ar_fingerprint a)) in *.
    set (next := newState m1 p v hash _ _) in *.
    pose proof (publish_advance m m1 next ltac:(by repeat split) eq_refl eq_refl eq_refl) as Hadv.
    destruct (publishSnapshot o (bump m1) (mg_state m) next) as [m2 pubs].
    destruct Hpub as [-> ->]. destruct Hadv as (_ & Hadv & _ & _ & Ha). split_and!; [done|lia|done].
Qed.

Lemma reload_advance w m ctx reason key extra m' effs r :
  reload customEncoding o w m ctx reason key extra = (m', effs, r) →
  advance m m' (publications effs) ∧ (mg_alloc m <= mg_alloc m')%N
  ∧ (is_Ok r = false → same_published m m' ∧ mg_publishedFingerprint m' = mg_publishedFingerprint m
       ∧ mg_errors m' = mg_errors m ∧ publications effs = []).
Proof.
  unfold reload. destruct (assemble _ _ _ _ _ _ _) as [[ca dirs] [a|e]]; cbn [error_of].
  - destruct (commit o _ ctx a reason key) as [[m1 effs1] r1] eqn:Hc. intros [= <- <- <-].
    apply commit_advance in Hc as (Hadv & Ha & Herr).
    assert (publications (observed (emit o (ReloadStarted reason) ++ emit o (StageFinished "assemble" None)) ++ effs1 ++
        observed (emit o (StageFinished "commit" (error_of r1)) ++ emit o (ReloadFinished reason (error_of r1))))
      = publications effs1) as ->.
    { rewrite !publications_app, !observed_app, !publications_app, !publications_emit by done. simpl. by rewrite app_nil_r. }
    split_and!; [by eapply advance_from; [apply same_inputs|done|]|done|].
    intros Hr. destruct (Herr Hr) as [-> Hpub]. by split_and!.
  - intros [= <- <- <-].
    assert (publications (observed ((emit o (ReloadStarted reason) ++ emit o (StageFinished "assemble" (Some e))) ++
        emit o (ReloadFinished reason (Some e)))) = []) as ->.
    { by rewrite !observed_app, !publications_app, !publications_emit. }
    split_and!; [by apply adv_none|simpl; lia|]. intros _. by split_and!.
Qed.

Lemma runPlan_advance w m ctx hostname m' effs r :
  runPlan customEncoding o w m ctx hostname = (m', effs, r) →
  publications effs = [] ∧ same_published m m' ∧ (mg_alloc m <= mg_alloc m')%N
  ∧ mg_publishedFingerprint m' = mg_publishedFingerprint m ∧ mg_errors m' = mg_errors m
  ∧ mg_scannedDirs m' = mg_scannedDirs m.
Proof.
  unfold runPlan. destruct (assemble _ _ _ _ _ _ _) as [[ca dirs] [a|e]].
  2:{ intros [= <- <- <-]. split_and!; simpl; (done || lia). }
  destruct (runPipeline o ctx a "plan" true) as [evs [[p hash]|e]] eqn:Hrun; apply runPipeline_silent in Hrun.
  2:{ intros [= <- <- <-]. split_and!; simpl; (done || lia). }
  destruct (pl_target p); intros [= <- <- <-]; split_and!; simpl; try done; try lia; by repeat split.
Qed.

Lemma applyRollback_advance m target m' effs :
  applyRollback o m target = (m', effs) →
  advance m m' effs ∧ (mg_alloc m <= mg_alloc m')%N ∧ publications effs = effs
  ∧ mg_publishedFingerprint m' = zero32
  ∧ ∃ next, mg_state m' = Some next ∧ st_value next = st_value target ∧ st_hash next = st_hash target
      ∧ st_sources next = st_sources target ∧ st_origins next = st_origins target
      ∧ st_generation next = next_gen (mg_gen m) ∧ mg_gen m' = next_gen (mg_gen m).
Proof.
  unfold applyRollback. set (cause := {| rc_Reason := _; rc_Revisions := _; rc_Tenant := _; rc_Key := _ |}).
  set (next := restampState _ _ _ _). change (set_fingerprint (bump m) zero32) with (bump (set_fingerprint m zero32)).
  pose proof (publish_advance m (set_fingerprint m zero32) next ltac:(by repeat split) eq_refl eq_refl eq_refl) as Hadv.
  destruct (publishSnapshot o _ _ next) as [m2 pubs] eqn:Hpub. intros [= <- <-].
  destruct Hadv as (Hstate & Hadv & Heff & Hfp & Ha).
  split_and!; [done|lia| |done|].
  - rewrite Heff. unfold publication_of. rewrite publications_app, publications_calls. f_equal.
    unfold emit. by destruct (hasObservers o).
  - exists next. split_and!; [done..|]. unfold publishSnapshot in Hpub. by injection Hpub as <- _.
Qed.

(** Every request advances the manager by at most one publication; one that
    fails publishes nothing. *)
Lemma run_request_advance w m ctx r m' effs res :
  run_request customEncoding o w m ctx r = (m', effs, res) →
  advance m m' (publications effs) ∧ (mg_alloc m <= mg_alloc m')%N
  ∧ (is_Ok res = false → same_published m m' ∧ mg_publishedFingerprint m' = mg_publishedFingerprint m
       ∧ mg_errors m' = mg_errors m ∧ publications effs = []).
Proof.
  destruct r as [reason key extra|hostname|target|reason e]; cbn [run_request].
  - apply reload_advance.
  - destruct (runPlan _ _ _ _ _ _) as [[m1 effs1] r1] eqn:Hp. intros [= <- <- <-].
    apply runPlan_advance in Hp as (-> & Hs & Ha & Hfp & He & _). split_and!; [by apply adv_none|done|done].
  - destruct (applyRollback o m target) as [m1 effs1] eqn:Hp. intros [= <- <- <-].
    apply applyRollback_advance in Hp as (Hadv & Ha & -> & _). split_and!; [done|done|]. done.
  - intros [= <- <- <-]. split_and!; [apply adv_none, same_published_refl|lia|]. intros _. by split_and!.
Qed.
End advance.

(** ** The error queue *)

Lemma publish_loop_spec {A} fuel (q : list A) e :
  length q < fuel → publish_loop fuel q e = Some (drop (length q - pred errorsChanCap) q ++ [e]).
Proof.
  revert q. induction fuel as [|fuel IH]; intros q Hf; [lia|]. cbn [publish_loop].
  destruct (Nat.ltb_spec (length q) errorsChanCap) as [Hlt|Hge].
  - replace (length q - pred errorsChanCap) with 0 by (unfold errorsChanCap in *; simpl in *; lia). by rewrite drop_0.
  - destruct q as [|x q]; [unfold errorsChanCap in Hge; simpl in Hge; lia|]. cbn [tail]. rewrite IH by (simpl in Hf; lia).
    do 2 f_equal. replace (length (x :: q) - pred errorsChanCap) with (S (length q - pred errorsChanCap));
      [done|unfold errorsChanCap in *; simpl in *; lia].
Qed.

Lemma publishReloadError_eq q reason err :
  publishReloadError q reason err = drop (length q - pred errorsChanCap) q ++ [(reason, err)].
Proof. unfold publishReloadError. by rewrite publish_loop_spec by lia. Qed.

Lemma publishReloadError_bound q reason err : length (publishReloadError q reason err) ≤ errorsChanCap.
Proof. rewrite publishReloadError_eq, length_app, length_drop. unfold errorsChanCap. simpl. lia. Qed.

Lemma publishReloadError_last_n l reason err :
  publishReloadError (last_n errorsChanCap l) reason err = last_n errorsChanCap (l ++ [(reason, err)]).
Proof.
  rewrite publishReloadError_eq. unfold last_n. rewrite length_drop, length_app, drop_drop. simpl length.
  rewrite drop_app_le by (unfold errorsChanCap; lia). do 2 f_equal. unfold errorsChanCap. simpl. lia.
Qed.

(** The error channel holds the latest errors. Publishing never blocks: the
    loop that makes room ends after at most one eviction per queued error, for a
    queue of any length. A queue that nobody reads holds exactly the last
    sixteen errors published, in order; one that is read loses only its oldest
    entries, and always ends with the error just published. *)
Theorem errors_channel (q errs : list (string * fc_error)) (e : string * fc_error) :
  (∃ q', publish_loop (S (length q)) q e = Some q'
     ∧ ∃ dropped, q ++ [e] = dropped ++ q' ∧ length q' ≤ errorsChanCap ∧ last q' = Some e
         ∧ (length q < errorsChanCap → dropped = []))
  ∧ foldl (λ q e, publishReloadError q e.1 e.2) [] errs = last_n errorsChanCap errs.
Proof.
  split.
  - eexists. split; [apply publish_loop_spec; lia|]. exists (take (length q - pred errorsChanCap) q). split_and!.
    + by rewrite app_assoc, take_drop.
    + rewrite length_app, length_drop. unfold errorsChanCap. simpl. lia.
    + by rewrite last_snoc.
    + intros Hlt. replace (length q - pred errorsChanCap) with 0 by (unfold errorsChanCap in *; simpl in *; lia). done.
  - induction errs as [|[reason err] errs IH] using rev_ind; [done|].
    rewrite foldl_app. simpl foldl. rewrite IH. apply publishReloadError_last_n.
Qed.

(** ** The log of published states *)

Section log.
Context `{GoStd} `{GoJson} `{Codecs} {T : Type} `{Target T}.
Context (customEncoding : bool) (o : options T).

Definition butlast {A} (l : list A) : list A := take (length l - 1) l.

Lemma butlast_snoc {A} (l : list A) x : butlast (l ++ [x]) = l.
Proof. unfold butlast. rewrite length_app. simpl. replace (length l + 1 - 1) with (length l) by lia. apply take_app_length. Qed.

(** The manager as a client sees it: the states it has published, in order,
    numbered from one. The last one is current, and the history ring holds the
    last of the others. *)
Record logged (m : manager T) (log : list (State T)) : Prop := {
  lg_state : mg_state m = last log;
  lg_gen : mg_gen m = N.of_nat (length log);
  lg_numbers : st_generation <$> log = N.of_nat <$> seq 1 (length log);
  lg_addr : NoDup (st_addr <$> log) ∧ Forall (λ s, (st_addr s < mg_alloc m)%N) log;
  lg_history : match mg_history m with
               | None => (o_HistoryCap o <= 0)%Z
               | Some r => r_cap r = Z.to_nat (o_HistoryCap o) ∧ represents r (last_n (r_cap r) (butlast log))
               end;
}.

Lemma newManager_logged : logged (newManager o) [].
Proof.
  split; simpl; try done; [split; constructor|].
  destruct (newRing (o_HistoryCap o)) as [r|] eqn:Hr.
  - destruct (newRing_represents _ r Hr) as [Hc Hrep]. split; [done|exact Hrep].
  - unfold newRing in Hr. by destruct (Z.leb_spec (o_HistoryCap o) 0).
Qed.

Lemma logged_pushed m log : logged m log →
  match pushed m with
  | None => (o_HistoryCap o <= 0)%Z
  | Some r => r_cap r = Z.to_nat (o_HistoryCap o) ∧ represents r (last_n (r_cap r) log)
  end.
Proof.
  intros [Hs _ _ _ Hh]. unfold pushed. rewrite Hs.
  destruct log as [|s0 log _] using rev_ind; [by destruct (mg_history m)|]. clear Hs.
  rewrite last_snoc, butlast_snoc in *. destruct (mg_history m) as [r|]; [|done]. destruct Hh as [Hc Hr].
  destruct (Push_represents r _ s0 Hr) as (r' & -> & Hc' & Hr'). split; [congruence|].
  rewrite Hc'. rewrite queue_push_last_n in Hr'; [done|]. destruct Hr as [[] _]. lia.
Qed.

(** A step keeps the log or appends one state to it. *)
Lemma advance_logged m m' effs log :
  logged m log → (N.of_nat (length log) + 1 < 2 ^ 64)%N → (mg_alloc m <= mg_alloc m')%N → advance o m m' effs →
  (logged m' log ∧ effs = [] ∧ mg_state m' = mg_state m)
  ∨ ∃ next, logged m' (log ++ [next]) ∧ effs = publication_of o (mg_subscribers m) (last log) next.
Proof.
  intros Hlog Hlt Ha Hadv. pose proof (logged_pushed m log Hlog) as Hpush. pose proof Hlog as [Hs Hg Hn [Hnd Hlow] Hh].
  destruct Hadv as [(Hs' & Hg' & Hh' & Hsub)|next Hs' Hg' Hgn Hh' Hsub Haddr].
  - left. split_and!; [|done|done]. split; try congruence; [|by rewrite Hh']. split; [done|].
    eapply Forall_impl; [exact Hlow|]. intros s Hlt'. simpl in *. lia.
  - right. exists next. rewrite Hs. split; [|done].
    assert (next_gen (mg_gen m) = N.of_nat (S (length log))) as Hnext.
    { unfold next_gen. rewrite Hg, N.mod_small by lia. lia. }
    split.
    + by rewrite last_snoc.
    + rewrite Hg', Hnext, length_app. simpl. f_equal. lia.
    + rewrite fmap_app, Hn, length_app, seq_app, fmap_app. simpl. by rewrite Hgn, Hg', Hnext.
    + rewrite fmap_app, Forall_app, Forall_singleton. split_and!; [|eapply Forall_impl; [exact Hlow|]; simpl; lia|lia].
      apply NoDup_app. split_and!; [done| |apply NoDup_singleton].
      intros a Ha1%list_elem_of_fmap Ha2%list_elem_of_singleton. destruct Ha1 as (s & -> & Hin).
      rewrite Forall_forall in Hlow. specialize (Hlow s Hin). simpl in *. lia.
    + rewrite Hh', butlast_snoc. done.
Qed.
End log.

(** ** Histories of a manager *)

(** What its users do to a manager: the writer serves a request, or somebody
    subscribes or cancels a subscription. *)
Inductive action (T : Type) :=
| Serve (w : world) (done : option ctx_error) (ctx : context) (r : @request T)
| DoSubscribe (s : subscriber T)
| DoCancel (id : N).
Arguments Serve {T} _ _ _ _.
Arguments DoSubscribe {T} _.
Arguments DoCancel {T} _.

Definition set_subscribers {T} (m : manager T) (subs : subscriptions T) : manager T :=
  Build_manager (mg_state m) (mg_gen m) (mg_publishedFingerprint m) (mg_history m) (mg_caches m) (mg_scannedDirs m)
    subs (mg_errors m) (mg_alloc m).

(** The generations named by the [Committed] events. *)
Definition commits (effs : list effect) : list (N * N) :=
  omap (λ e, match e with Observed (Committed prev next _ _) => Some (prev, next) | _ => None end) effs.

Section histories.
Context `{GoStd} `{GoJson} `{Codecs} {T : Type} `{Target T}.
Context (customEncoding : bool) (o : options T).

Definition perform (m : manager T) (a : action T) : manager T * list effect :=
  match a with
  | Serve w done ctx r => let '(m, effs, _) := runReloadRequest customEncoding o w m done ctx r in (m, effs)
  | DoSubscribe s => (set_subscribers m (Subscribe (mg_subscribers m) s).1, [])
  | DoCancel id => (set_subscribers m (cancel (mg_subscribers m) id), [])
  end.

Fixpoint perform_all (m : manager T) (actions : list (action T)) : manager T * list effect :=
  match actions with
  | [] => (m, [])
  | a :: actions =>
      let '(m, effs) := perform m a in
      let '(m, effs') := perform_all m actions in
      (m, effs ++ effs')
  end.

Lemma commits_app a b : commits (a ++ b) = commits a ++ commits b.
Proof. apply omap_app. Qed.

Lemma commits_publications effs : commits effs = commits (publications effs).
Proof.
  induction effs as [|e effs IH]; [done|]. unfold publications. rewrite filter_cons. fold (publications effs).
  destruct e as [[]|]; simpl; by rewrite ?IH.
Qed.

Lemma commits_publication_of subs prev next :
  commits (publication_of o subs prev next) =
  if hasObservers o then [(default 0%N (st_generation <$> prev), st_generation next)] else [].
Proof.
  assert (∀ calls : list (N * sub_result), commits ((λ c, Called c.1 c.2) <$> calls) = []) as Hcalls
    by (intros calls; by induction calls).
  unfold publication_of. rewrite commits_app, Hcalls, app_nil_r. unfold emit. by destruct (hasObservers o).
Qed.

Lemma set_errors_advance (m m' : manager T) q effs : advance o m m' effs → advance o m (set_errors m' q) effs.
Proof.
  intros [Hs|next ? ? ? ? ? ?]; [apply adv_none; exact Hs|]. by apply adv_publish.
Qed.

Lemma perform_advance m a m' effs :
  perform m a = (m', effs) →
  (advance o m m' (publications effs) ∨
   (effs = [] ∧ mg_state m' = mg_state m ∧ mg_gen m' = mg_gen m ∧ mg_history m' = mg_history m))
  ∧ (mg_alloc m <= mg_alloc m')%N.
Proof.
  destruct a as [w done ctx r|s|id]; cbn [perform].
  2-3: intros [= <- <-]; split; [by right|simpl; lia].
  unfold runReloadRequest.
  assert (∀ m1 effs1 res, match done with Some e => (m, [], Err (CtxErr e)) | None => run_request customEncoding o w m ctx r end
            = (m1, effs1, res) → advance o m m1 (publications effs1) ∧ (mg_alloc m <= mg_alloc m1)%N) as Hrun.
  { intros m1 effs1 res. destruct done; [intros [= <- <- <-]; split; [by apply adv_none, same_published_refl|lia]|].
    intros Hr. by apply run_request_advance in Hr as (? & ? & _). }
  destruct (match done with Some _ => _ | None => _ end) as [[m1 effs1] res]. destruct (Hrun m1 effs1 res eq_refl) as [Hadv Ha].
  destruct res; intros [= <- <-]; (split; [left|done]); [done|by apply set_errors_advance].
Qed.

Lemma same_logged m m' log :
  logged o m log → mg_state m' = mg_state m → mg_gen m' = mg_gen m → mg_history m' = mg_history m →
  (mg_alloc m <= mg_alloc m')%N → logged o m' log.
Proof.
  intros [Hs Hg Hn [Hnd Hlow] Hh] Hs' Hg' Hh' Ha. split; [congruence|congruence|done| |by rewrite Hh'].
  split; [done|]. eapply Forall_impl; [exact Hlow|]. simpl. lia.
Qed.

(** The generations of the commits that extend a log of [n] states to [k]. *)
Definition numbered (n k : nat) : list (N * N) := (λ i, (N.of_nat i, N.of_nat (S i))) <$> seq n (k - n).

Lemma perform_all_logged m actions log :
  logged o m log → (N.of_nat (length log) + N.of_nat (length actions) < 2 ^ 64)%N →
  let '(m', effs) := perform_all m actions in
  ∃ more, logged o m' (log ++ more) ∧ length more ≤ length actions
    ∧ (hasObservers o = true → commits effs = numbered (length log) (length log + length more)).
Proof.
  revert m log. induction actions as [|a actions IH]; intros m log Hlog Hlt; cbn [perform_all].
  { exists []. rewrite app_nil_r. split_and!; [done|done|]. intros _. unfold numbered. simpl.
    by rewrite Nat.add_0_r, Nat.sub_diag. }
  destruct (perform m a) as [m1 effs1] eqn:Ha. simpl length in Hlt. apply perform_advance in Ha as [Hcase Halloc].
  assert ((logged o m1 log ∧ commits effs1 = []) ∨ ∃ next, logged o m1 (log ++ [next])
    ∧ (hasObservers o = true → commits effs1 = [(N.of_nat (length log), N.of_nat (S (length log)))])) as [[Hlog1 Hc]|(next & Hlog1 & Hc)].
  { destruct Hcase as [Hadv|(-> & Hs & Hg & Hh)]; [|left; split; [by eapply same_logged|done]].
    destruct (advance_logged o m m1 _ log Hlog ltac:(lia) Halloc Hadv) as [(Hl & He & _)|(next & Hl & He)].
    - left. split; [done|]. by rewrite commits_publications, He.
    - right. exists next. split; [done|]. intros Hobs. rewrite commits_publications, He, commits_publication_of, Hobs.
      do 2 f_equal.
      + destruct log as [|s log0 _] using rev_ind; [done|]. rewrite last_snoc. simpl.
        pose proof (lg_numbers o m _ Hlog) as Hn. rewrite length_app, seq_app, !fmap_app in Hn. simpl in Hn.
        apply app_inj_2 in Hn as [_ [= ->]]; [|done]. rewrite length_app. simpl. f_equal. lia.
      + pose proof (lg_numbers o m1 _ Hl) as Hn. rewrite length_app, seq_app, !fmap_app in Hn. simpl in Hn.
        by apply app_inj_2 in Hn as [_ [= ->]]. }
  - specialize (IH m1 log Hlog1 ltac:(lia)). destruct (perform_all m1 actions) as [m' effs'].
    destruct IH as (more & Hl & Hlen & Hcs). exists more. split_and!; [done|simpl; lia|].
    intros Hobs. rewrite commits_app, Hc. by apply Hcs.
  - specialize (IH m1 (log ++ [next]) Hlog1 ltac:(rewrite length_app; simpl; lia)).
    destruct (perform_all m1 actions) as [m' effs']. destruct IH as (more & Hl & Hlen & Hcs).
    exists (next :: more). split_and!; [by rewrite <-app_assoc in Hl|simpl; lia|].
    intros Hobs. rewrite commits_app, Hc, Hcs by done. rewrite length_app. unfold numbered. simpl.
    replace (length log + S (length more) - length log) with (S (length more)) by lia.
    replace (length log + 1 + length more - (length log + 1)) with (length more) by lia.
    replace (length log + 1) with (S (length log)) by lia. done.
Qed.
End histories.

(** ** Construction (manager.go) *)

Section construction.
Context `{GoStd} `{GoJson} `{Codecs} {T : Type} `{Target T}.
Context (customEncoding : bool) (o : options T).

(** [New], before it starts the workers; a failed load gives no manager. *)
Definition New (w : world) (ctx : context) (optionErrs : list fc_error) : fres (manager T * list effect) :=
  check_options o optionErrs ≫= λ _,
  match reload customEncoding o w (newManager o) ctx "initial" "" [] with
  | (m, effs, Ok _) => Ok (m, effs)
  | (_, _, Err e) => Err e
  end.

(** [Load]. *)
Definition Load (w : world) (ctx : context) (optionErrs : list fc_error) : fres (option (State T)) :=
  check_options o optionErrs ≫= λ _,
  match reload customEncoding o w (newManager o) ctx "load" "" [] with
  | (m, _, Ok _) => Ok (mg_state m)
  | (_, _, Err e) => Err e
  end.

(** A manager that has published nothing knows no fingerprint either, so its
    next successful reload publishes. *)
Lemma first_reload_publishes w m ctx reason key extra m' effs :
  mg_state m = None → mg_publishedFingerprint m = zero32 →
  reload customEncoding o w m ctx reason key extra = (m', effs, Ok ()) →
  ∃ next, mg_state m' = Some next ∧ st_generation next = next_gen (mg_gen m).
Proof.
  intros Hs Hfp. unfold reload. destruct (assemble _ _ _ _ _ _ _) as [[ca dirs] [a|e]]; [|done].
  destruct (commit o _ ctx a reason key) as [[m1 effs1] r1] eqn:Hc. intros [= -> _ ->].
  unfold commit in Hc. destruct (ctx AtCommit); [done|].
  destruct (negb _ && _) eqn:Hskip.
  { apply andb_prop in Hskip as [Hz Heq]. apply negb_true_iff, String.eqb_neq in Hz. apply String.eqb_eq in Heq.
    cbn [set_inputs mg_publishedFingerprint] in Heq. congruence. }
  destruct (runPipeline o ctx a reason false) as [evs [[p hash]|e]]; [|done].
  destruct (ctx AtPublish); [done|]. destruct (pl_target p) as [v|]; [|done].
  cbn [set_inputs mg_state] in Hc. rewrite Hs in Hc.
  cbn [newCommittedState] in Hc. destruct (publishSnapshot o _ _ _) as [m2 pubs] eqn:Hpub.
  injection Hc as -> _. unfold publishSnapshot in Hpub. injection Hpub as <- _.
  eexists. split; [reflexivity|]. done.
Qed.
End construction.

(** ** Correctness of the manager *)

(** C1: the manager refines a log of published states. Whatever requests are
    served, with whatever sources, contexts and results, and whoever subscribes
    in between, there is a log of states numbered one, two, three, ... such that
    the last one is the current state, the generation counter is its number, the
    history ring holds exactly the last of its predecessors up to its capacity,
    no two of them are the same object, and the audit events announce exactly
    these states in order, each with the generation of its predecessor. *)
Theorem manager_refines_log `{GoStd} `{GoJson} `{Codecs} {T} `{Target T} (customEncoding : bool) (o : options T)
    (actions : list (action T)) (Hlen : (N.of_nat (length actions) < 2 ^ 64)%N) :
  let '(m, effs) := perform_all customEncoding o (newManager o) actions in
  ∃ log, logged o m log ∧ length log ≤ length actions
    ∧ (hasObservers o = true → commits effs = numbered 0 (length log)).
Proof.
  pose proof (perform_all_logged customEncoding o (newManager o) actions [] (newManager_logged o) Hlen) as Hall.
  destruct (perform_all _ _ _ _) as [m effs]. destruct Hall as (log & Hlog & Hlen' & Hc). by exists log.
Qed.

(** C2: a failed request leaves the published configuration alone. Whatever stage
    of a reload, of a preview or of an option fails, or if the context is done
    before it starts, the current state, the generation, the history and the
    fingerprint are what they were, nothing is announced to observers of commits
    or to subscribers, and the error is published on the error channel under the
    reason of the request, which returns that same error. A preview leaves them
    alone even when it succeeds. *)
Theorem failed_request_preserves_state `{GoStd} `{GoJson} `{Codecs} {T} `{Target T} (customEncoding : bool)
    (o : options T) (w : world) (m : manager T) (done : option ctx_error) (ctx : context) (r : request) :
  let '(m', effs, res) := runReloadRequest customEncoding o w m done ctx r in
  match res with
  | Err e => same_published m m' ∧ mg_publishedFingerprint m' = mg_publishedFingerprint m ∧ publications effs = []
             ∧ last (mg_errors m') = Some (request_reason r, e) ∧ mg_errors m' = publishReloadError (mg_errors m) (request_reason r) e
  | Ok _ => done = None ∧
      match r with
      | ReqPlan _ => same_published m m' ∧ mg_publishedFingerprint m' = mg_publishedFingerprint m ∧ publications effs = []
                     ∧ mg_errors m' = mg_errors m
      | _ => True
      end
  end.
Proof.
  unfold runReloadRequest. destruct done as [c|].
  { split_and!; [by repeat split|done|done| |done]. cbn [set_errors mg_errors]. by rewrite publishReloadError_eq, last_snoc. }
  destruct (run_request customEncoding o w m ctx r) as [[m1 effs1] res] eqn:Hr.
  apply run_request_advance in Hr as Hadv. destruct Hadv as (_ & _ & Hfail). destruct res as [[]|e].
  - split; [done|]. destruct r; try done. cbn [run_request] in Hr.
    destruct (runPlan _ _ _ _ _ _) as [[m2 effs2] r2] eqn:Hp. injection Hr as <- <- _.
    apply runPlan_advance in Hp as (? & ? & _ & ? & ? & _). done.
  - destruct (Hfail eq_refl) as (Hs & Hfp & He & Hpub). split_and!; [exact Hs|done|done| |by rewrite He].
    cbn [set_errors mg_errors]. by rewrite publishReloadError_eq, last_snoc.
Qed.

(** C3: what a successful reload publishes. Its outcome is decided by the layers
    assembled. When these are unchanged, that is when their fingerprint is that
    of the inputs last committed or when the pipeline arrives at the hash of the
    published state, the reload leaves this state alone and announces nothing.
    When they are not, it publishes exactly the outcome of the pipeline: a state
    of the next generation whose value and hash are those of the pipeline, whose
    hash differs from that of the state it replaces, which joins the history;
    the reload is announced once to the observers of commits, then each
    subscriber is called once with the two values. The first reload of a manager
    always publishes. *)
Theorem reload_publishes `{GoStd} `{GoJson} `{Codecs} {T} `{Target T} (customEncoding : bool) (o : options T)
    (w : world) (m m' : manager T) (ctx : context) (reason key : string) (extra : list stagedLayer) (effs : list effect)
    (Hrun : reload customEncoding o w m ctx reason key extra = (m', effs, Ok ())) :
  ∃ ca dirs a, assemble customEncoding w o (ctx AtAssemble) "" (mg_caches m) extra = (ca, dirs, Ok a)
  ∧ ((same_published m m' ∧ mg_errors m' = mg_errors m ∧ publications effs = []
      ∧ (mg_state m = None → mg_publishedFingerprint m ≠ zero32)
      ∧ ((ar_fingerprint a ≠ zero32 ∧ ar_fingerprint a = mg_publishedFingerprint m)
         ∨ ∃ evs p prev, runPipeline o ctx a reason false = (evs, Ok (p, st_hash prev)) ∧ mg_state m = Some prev))
  ∨ ∃ evs p hash v next,
      (ar_fingerprint a = zero32 ∨ ar_fingerprint a ≠ mg_publishedFingerprint m)
      ∧ runPipeline o ctx a reason false = (evs, Ok (p, hash)) ∧ pl_target p = Some v
      ∧ mg_state m' = Some next ∧ st_value next = v ∧ st_hash next = hash ∧ st_sources next = pl_sources p
      ∧ st_generation next = next_gen (mg_gen m) ∧ mg_gen m' = next_gen (mg_gen m)
      ∧ rc_Reason (st_cause next) = reason ∧ rc_Key (st_cause next) = key
      ∧ (∀ prev, mg_state m = Some prev → st_hash prev ≠ hash)
      ∧ mg_history m' = pushed m ∧ mg_publishedFingerprint m' = ar_fingerprint a
      ∧ publications effs = publication_of o (mg_subscribers m) (mg_state m) next).
Proof.
  pose proof Hrun as Hrun'. unfold reload in Hrun.
  destruct (assemble _ _ _ _ _ _ _) as [[ca dirs] [a|e]] eqn:Hasm; [|done].
  destruct (commit o _ ctx a reason key) as [[m1 effs1] r1] eqn:Hc. injection Hrun as -> <- ->.
  rewrite !publications_app, !observed_app, !publications_app, !publications_emit by done. simpl app. rewrite app_nil_r.
  exists ca, dirs, a. split; [done|].
  apply commit_cases in Hc as [(e & [=] & _)|[(_ & Hm & Hpub & Hsame)|(_ & evs & p & hash & v & Hfresh & Hp & Hv & Hne & Hpub)]].
  - left. split_and!; [by destruct Hm as [->| ->]; repeat split|by destruct Hm as [->| ->]|done| |exact Hsame].
    intros Hnone Hfp. destruct (first_reload_publishes _ _ _ _ _ _ _ _ _ _ Hnone Hfp Hrun') as (next & Hn & _).
    assert (mg_state m' = mg_state m) as Hs by (by destruct Hm as [->| ->]). congruence.
  - right. cbn [newCommittedState] in Hpub.
    set (mi := set_inputs m ca dirs) in *. set (m2 := set_fingerprint mi (ar_fingerprint a)) in *.
    set (next := newState m2 p v hash _ _) in *.
    pose proof (publish_advance o mi m2 next ltac:(by repeat split) eq_refl eq_refl eq_refl) as Hadv.
    destruct (publishSnapshot o (bump m2) (mg_state mi) next) as [m3 pubs] eqn:Hpubs. destruct Hpub as [-> ->].
    destruct Hadv as (Hstate & _ & Heff & Hfp & _). unfold publishSnapshot in Hpubs. injection Hpubs as <- _.
    exists evs, p, hash, v, next. split_and!; try done.
Qed.

(** The snapshots [History.List] returns. *)
Definition retained {T} (m : manager T) (log : list (State T)) : list (State T) :=
  match mg_history m with None => [] | Some r => last_n (r_cap r) (butlast log) end.

Lemma find_generation {T} (l : list (State T)) t :
  match List.find (λ s, N.eqb (st_generation s) (st_generation t)) l with
  | Some s => s ∈ l ∧ st_generation s = st_generation t
  | None => t ∉ l
  end.
Proof.
  destruct (List.find _ l) as [s|] eqn:Hf.
  - apply List.find_some in Hf as [Hin Hg]. apply list_elem_of_In in Hin. split; [done|]. by apply N.eqb_eq.
  - intros Hin. apply list_elem_of_In in Hin. pose proof (List.find_none _ _ Hf _ Hin) as Hno. cbv beta in Hno.
    by rewrite N.eqb_refl in Hno.
Qed.

Lemma retained_in_log {T} (m : manager T) log s : s ∈ retained m log → s ∈ log.
Proof.
  unfold retained. destruct (mg_history m); [|by intros ?%elem_of_nil]. intros Hs.
  apply (subseteq_drop _ _ s), (subseteq_take _ _ s) in Hs. exact Hs.
Qed.

Lemma same_generation `{GoStd} `{GoJson} `{Codecs} {T} `{Target T} (o : options T) m log s t :
  logged o m log → s ∈ log → t ∈ log → st_generation s = st_generation t → s = t.
Proof.
  intros [_ _ Hn _ _] [i Hi]%list_elem_of_lookup [j Hj]%list_elem_of_lookup Heq.
  assert (NoDup (st_generation <$> log)) as Hnd.
  { rewrite Hn. apply NoDup_fmap_2; [intros ?? ?; lia|apply NoDup_ListNoDup, seq_NoDup]. }
  assert (i = j) as ->; [|congruence].
  eapply (NoDup_lookup _ i j (st_generation s)); [exact Hnd| |]; rewrite list_lookup_fmap; [by rewrite Hi|by rewrite Hj, Heq].
Qed.

(** C15: rollback. [Rollback] accepts a state exactly when it is one of the
    retained ones: an evicted state, the current one, a preview, even one whose
    generation is retained, or a nil target is an unknown generation, and
    without history every target is refused. A rollback publishes a state with
    the value, the hash, the sources and the origins of its target under the
    next generation, moves the current state to the history, and forgets the
    fingerprint, so that the next reload runs the pipeline even if its inputs
    have not changed. *)
Theorem rollback_correct `{GoStd} `{GoJson} `{Codecs} {T} `{Target T} (o : options T) (m : manager T)
    (log : list (State T)) (target : State T) (Hlog : logged o m log) :
  (match rollback_check m (Some target) with
   | Ok t => t = target ∧ ∃ s, s ∈ retained m log ∧ st_addr s = st_addr target ∧ (target ∈ log → s = target)
   | Err e => target ∉ retained m log
              ∧ e = match mg_history m with None => ErrHistoryDisabled | Some _ => ErrUnknownGeneration end
   end)
  ∧ rollback_check m None = Err match mg_history m with None => ErrHistoryDisabled | Some _ => ErrUnknownGeneration end
  ∧ (let '(m', effs) := applyRollback o m target in
     ∃ next, mg_state m' = Some next ∧ st_value next = st_value target ∧ st_hash next = st_hash target
       ∧ st_sources next = st_sources target ∧ st_origins next = st_origins target
       ∧ st_generation next = next_gen (mg_gen m) ∧ mg_publishedFingerprint m' = zero32 ∧ advance o m m' effs).
Proof.
  split; [|split; [unfold rollback_check; by destruct (mg_history m)|]].
  - unfold rollback_check. pose proof (retained_in_log m log) as Hsub. unfold retained in *.
    destruct (mg_history m) as [r|] eqn:Hhist; [|split; [by intros ?%elem_of_nil|done]].
    pose proof (lg_history o m log Hlog) as Hh. rewrite Hhist in Hh. destruct Hh as [Hc Hr].
    rewrite (Find_represents r _ _ Hr).
    pose proof (find_generation (last_n (r_cap r) (butlast log)) target) as Hf.
    destruct (List.find _ _) as [s|]; [|done]. destruct Hf as [Hs Hg].
    destruct (N.eqb_spec (st_addr s) (st_addr target)) as [Ha|Hne].
    + split; [done|]. exists s. split_and!; [done..|]. intros Hin. by apply (same_generation o m log s target Hlog (Hsub s Hs) Hin).
    + split; [|done]. intros Hin. destruct Hne. f_equal.
      by apply (same_generation o m log s target Hlog (Hsub s Hs) (Hsub target Hin)).
  - destruct (applyRollback o m target) as [m' effs] eqn:Hp.
    apply applyRollback_advance in Hp as (Hadv & _ & _ & Hfp & next & Hn & Hv & Hh & Hs & Ho & Hg & _).
    exists next. by split_and!.
Qed.

(** A successful [Load] or [New] has a snapshot. When the options are valid
    and the first reload succeeds, there is a current state, of generation one;
    an error of either is one of the options or of the reload, and a failed
    construction gives no manager. *)
Theorem construction_has_snapshot `{GoStd} `{GoJson} `{Codecs} {T} `{Target T} (customEncoding : bool) (o : options T)
    (w : world) (ctx : context) (errs : list fc_error) :
  match Load customEncoding o w ctx errs with
  | Ok s => ∃ s', s = Some s' ∧ st_generation s' = 1%N
  | Err e => errs ≠ [] ∨ check_options o [] = Err e ∨ (reload customEncoding o w (newManager o) ctx "load" "" []).2 = Err e
  end
  ∧ match New customEncoding o w ctx errs with
    | Ok (m, _) => ∃ s', mg_state m = Some s' ∧ st_generation s' = 1%N
    | Err e => errs ≠ [] ∨ check_options o [] = Err e ∨ (reload customEncoding o w (newManager o) ctx "initial" "" []).2 = Err e
    end.
Proof.
  unfold Load, New.
  assert (∀ e, check_options o errs = Err e → errs ≠ [] ∨ check_options o [] = Err e) as Herr.
  { intros e. destruct errs; [by right|by left]. }
  destruct (check_options o errs) as [[]|e]; cbn [mbind result_bind].
  2:{ destruct (Herr e eq_refl); split; auto. }
  split.
  - destruct (reload _ _ _ _ _ "load" _ _) as [[m effs] [[]|e]] eqn:Hr; [|right; by right].
    apply first_reload_publishes in Hr as (s & Hs & Hg); [|done..]. by exists s.
  - destruct (reload _ _ _ _ _ "initial" _ _) as [[m effs] [[]|e]] eqn:Hr; [|right; by right].
    apply first_reload_publishes in Hr as (s & Hs & Hg); [|done..]. by exists s.
Qed.

(** ** Examples *)

Definition example_over (host : string) : stagedLayer := example_layer "override://once" {[ "host" := VString host ]}.
Definition never : context := λ _, None.

Definition example_actions : list (action string) :=
  [Serve example_world None never (ReqReload "a" "" [example_over "one"]);
   DoSubscribe (λ _ _, Fired);
   Serve example_world None never (ReqReload "b" "" [example_over "two"]);
   Serve example_world None never (ReqReload "c" "" [example_over "two"]);
   Serve example_world None never (ReqReload "d" "" [example_over "bad"]);
   Serve example_world None never (ReqReload "e" "" [example_over "three"])].

Lemma manager_refines_log_witness :
  let '(m, effs) := @perform_all example_std example_json example_codecs string example_target true
                      (with_resolver example_resolver) (newManager (with_resolver example_resolver)) example_actions in
  commits effs = [(0, 1); (1, 2); (2, 3)]%N.
Proof.
  pose proof (@manager_refines_log example_std example_json example_codecs string example_target true
    (with_resolver example_resolver) example_actions ltac:(reflexivity)) as Hm.
  destruct (perform_all _ _ _ _) as [m effs] eqn:Hrun.
  destruct Hm as (log & Hlog & _ & Hc). rewrite (Hc eq_refl).
  assert (mg_gen m = 3%N) as Hg by (vm_compute in Hrun; injection Hrun as <- _; reflexivity).
  pose proof (lg_gen _ m log Hlog) as Hl. rewrite Hg in Hl.
  assert (length log = 3) as -> by lia. reflexivity.
Defined.

Lemma reload_publishes_witness :
  ∃ m' effs next, @reload example_std example_json example_codecs string example_target true
    (with_resolver example_resolver) example_world (newManager (with_resolver example_resolver)) never "initial" ""
    [example_over "one"] = (m', effs, Ok ()) ∧ mg_state m' = Some next ∧ st_value next = "one".
Proof.
  destruct (@reload example_std example_json example_codecs string example_target true
    (with_resolver example_resolver) example_world (newManager (with_resolver example_resolver)) never "initial" ""
    [example_over "one"]) as [[m' effs] [[]|e]] eqn:Hrun; [|vm_compute in Hrun; discriminate].
  destruct (@reload_publishes example_std example_json example_codecs string example_target true
    (with_resolver example_resolver) example_world (newManager (with_resolver example_resolver)) m' never "initial" ""
    [example_over "one"] effs Hrun) as (ca & dirs & a & _ & [(_ & _ & _ & Hn & _)|(evs & p & hash & v & next & _ & _ & _ & Hs & _)]).
  - destruct (Hn eq_refl). reflexivity.
  - exists m', effs, next. split; [reflexivity|]. split; [exact Hs|].
    vm_compute in Hrun. injection Hrun as <- _. injection Hs as <-. reflexivity.
Defined.

Lemma rollback_correct_witness :
  let m := newManager (with_resolver example_resolver) in
  let s := Build_State 7%N "v" "h" [] 7%N {| rc_Reason := ""; rc_Revisions := None; rc_Tenant := ""; rc_Key := "" |} None in
  rollback_check m (Some s) = Err ErrUnknownGeneration
  ∧ mg_publishedFingerprint (applyRollback (with_resolver example_resolver) m s).1 = zero32.
Proof.
  cbv zeta. set (s := Build_State _ _ _ _ _ _ _).
  destruct (@rollback_correct example_std example_json example_codecs string example_target
    (with_resolver example_resolver) (newManager (with_resolver example_resolver)) [] s
    (newManager_logged (with_resolver example_resolver)))
    as (Hc & _ & Hr).
  split.
  - destruct (rollback_check _ _) as [t|e]; [destruct Hc as (_ & s' & Hs' & _); inversion Hs'|].
    destruct Hc as [_ ->]. reflexivity.
  - destruct (applyRollback _ _ _) as [m' effs]. destruct Hr as (next & _ & _ & _ & _ & _ & _ & Hfp & _). exact Hfp.
Defined.
