(* ===== verification/ReloadQueue.v ===== *)
(** * The reload queue (reload_queue.go, provider_watch.go, file_watch.go)

    The callers, the provider watchers and the single writer around the bounded
    channel [reloadCh] and the resync token [overflowResyncCh], as a step
    relation: one step per channel operation or per test of an atomic flag. *)
From S2P Require Import Prelude.
Open Scope nat_scope.

Definition reloadChanCap : nat := 16.

(** A queued request; without a waiter its [doneCh] is nil. *)
Record req := { rq_id : N; rq_waits : bool }.

Section queue.
(** The error, or its absence, that running a request produces. *)
Context {Res : Type}.

(** What [submitAndWait] returns: the result, [ErrClosed], or [ctx.Err()]. *)
Inductive outcome := Result (r : Res) | Closed | Cancelled.

(** Where a caller of [submitAndWait] is: at the send, at the wait, or back. *)
Inductive caller := Submitting | Waiting | Returned (o : outcome).

(** Where the writer is in [reloadLoop]; [Serving None] is a resync. *)
Inductive pc := Top | TryRecv | Select | Serving (r : option req) | Tail | Resync | Draining | Exited.

Record qstate := {
  q_ch : list req;              (* reloadCh *)
  q_token : bool;               (* overflowResyncCh *)
  q_paused : bool;              (* eventsPaused *)
  q_closed : bool;              (* lifetime is done *)
  q_writer : pc;
  q_callers : gmap N caller;
  q_done : gmap N outcome;      (* the buffered doneCh of each request *)
  q_dropping : nat;             (* watchers between the full queue and the token *)
  (* History: requests accepted by and taken from the channel, and whether an
     event was dropped that no refresh has caught up with, and why not. *)
  q_accepted : list N;
  q_taken : list N;
  q_behind : bool;
  q_excused : bool;
}.

Definition init : qstate :=
  {| q_ch := []; q_token := false; q_paused := false; q_closed := false; q_writer := Top; q_callers := ∅; q_done := ∅;
     q_dropping := 0; q_accepted := []; q_taken := []; q_behind := false; q_excused := false |}.

(** ** Updates *)

Definition set_caller (s : qstate) (id : N) (c : caller) : qstate :=
  {| q_ch := q_ch s; q_token := q_token s; q_paused := q_paused s; q_closed := q_closed s; q_writer := q_writer s;
     q_callers := <[id := c]> (q_callers s); q_done := q_done s; q_dropping := q_dropping s;
     q_accepted := q_accepted s; q_taken := q_taken s; q_behind := q_behind s; q_excused := q_excused s |}.

Definition enqueue (s : qstate) (r : req) : qstate :=
  {| q_ch := q_ch s ++ [r]; q_token := q_token s; q_paused := q_paused s; q_closed := q_closed s; q_writer := q_writer s;
     q_callers := q_callers s; q_done := q_done s; q_dropping := q_dropping s;
     q_accepted := q_accepted s ++ [rq_id r]; q_taken := q_taken s; q_behind := q_behind s; q_excused := q_excused s |}.

Definition set_flags (s : qstate) (token paused closed : bool) (dropping : nat) (behind excused : bool) : qstate :=
  {| q_ch := q_ch s; q_token := token; q_paused := paused; q_closed := closed; q_writer := q_writer s;
     q_callers := q_callers s; q_done := q_done s; q_dropping := dropping;
     q_accepted := q_accepted s; q_taken := q_taken s; q_behind := behind; q_excused := excused |}.

Definition goto (s : qstate) (p : pc) : qstate :=
  {| q_ch := q_ch s; q_token := q_token s; q_paused := q_paused s; q_closed := q_closed s; q_writer := p;
     q_callers := q_callers s; q_done := q_done s; q_dropping := q_dropping s;
     q_accepted := q_accepted s; q_taken := q_taken s; q_behind := q_behind s; q_excused := q_excused s |}.

(** Receive the head of the channel. *)
Definition take_req (s : qstate) (r : req) (ch : list req) : qstate :=
  {| q_ch := ch; q_token := q_token s; q_paused := q_paused s; q_closed := q_closed s; q_writer := q_writer s;
     q_callers := q_callers s; q_done := q_done s; q_dropping := q_dropping s;
     q_accepted := q_accepted s; q_taken := q_taken s ++ [rq_id r]; q_behind := q_behind s; q_excused := q_excused s |}.

(** [req.doneCh <- err], if there is a channel. *)
Definition answer (s : qstate) (r : req) (o : outcome) : qstate :=
  {| q_ch := q_ch s; q_token := q_token s; q_paused := q_paused s; q_closed := q_closed s; q_writer := q_writer s;
     q_callers := q_callers s; q_done := if rq_waits r then <[rq_id r := o]> (q_done s) else q_done s;
     q_dropping := q_dropping s; q_accepted := q_accepted s; q_taken := q_taken s;
     q_behind := q_behind s; q_excused := q_excused s |}.

(** The id of no request so far. *)
Definition fresh (s : qstate) (id : N) : Prop := q_callers s !! id = None ∧ id ∉ q_accepted s.

(** ** The callers, the watchers, and the users of [Pause] and [Close] *)

Inductive env_step (s : qstate) : qstate → Prop :=
(** [submitAndWait]: the first select, then the send, then the wait. *)
| e_submit_closed id : fresh s id → q_closed s = true → env_step s (set_caller s id (Returned Closed))
| e_submit id : fresh s id → q_closed s = false → env_step s (set_caller s id Submitting)
| e_send id : q_callers s !! id = Some Submitting → length (q_ch s) < reloadChanCap →
    env_step s (set_caller (enqueue s {| rq_id := id; rq_waits := true |}) id Waiting)
| e_send_closed id : q_callers s !! id = Some Submitting → q_closed s = true → env_step s (set_caller s id (Returned Closed))
| e_send_cancelled id : q_callers s !! id = Some Submitting → env_step s (set_caller s id (Returned Cancelled))
| e_result id o : q_callers s !! id = Some Waiting → q_done s !! id = Some o → env_step s (set_caller s id (Returned o))
| e_wait_closed id : q_callers s !! id = Some Waiting → q_closed s = true → env_step s (set_caller s id (Returned Closed))
| e_wait_cancelled id : q_callers s !! id = Some Waiting → env_step s (set_caller s id (Returned Cancelled))
(** [consumeProviderEvents]: a trigger is queued, or dropped for a token. *)
| e_provider_send id : fresh s id → length (q_ch s) < reloadChanCap →
    env_step s (enqueue s {| rq_id := id; rq_waits := false |})
| e_provider_full : length (q_ch s) = reloadChanCap →
    env_step s (set_flags s (q_token s) (q_paused s) (q_closed s) (S (q_dropping s)) true false)
| e_provider_token n : q_dropping s = S n →
    env_step s (set_flags s true (q_paused s) (q_closed s) n (q_behind s) (q_excused s))
(** [Pause] stores the flag, then discards the token; [Resume]; [Shutdown]. *)
| e_pause : env_step s (set_flags s (q_token s) true (q_closed s) (q_dropping s) (q_behind s) true)
| e_pause_drain : env_step s (set_flags s false (q_paused s) (q_closed s) (q_dropping s) (q_behind s) true)
| e_resume : env_step s (set_flags s (q_token s) false (q_closed s) (q_dropping s) (q_behind s) (q_excused s))
| e_close : env_step s (set_flags s (q_token s) (q_paused s) true (q_dropping s) (q_behind s) (q_excused s)).

(** ** The writer: [reloadLoop], [runOverflowResync] and [rejectPendingReloads] *)

Inductive writer_step (s : qstate) : qstate → Prop :=
| w_top_closed : q_writer s = Top → q_closed s = true → writer_step s (goto s Draining)
| w_top : q_writer s = Top → q_closed s = false → writer_step s (goto s TryRecv)
| w_try_recv r ch : q_writer s = TryRecv → q_ch s = r :: ch → writer_step s (goto (take_req s r ch) (Serving (Some r)))
| w_try_empty : q_writer s = TryRecv → q_ch s = [] → writer_step s (goto s Select)
| w_select_closed : q_writer s = Select → q_closed s = true → writer_step s (goto s Draining)
| w_select_recv r ch : q_writer s = Select → q_ch s = r :: ch → writer_step s (goto (take_req s r ch) (Serving (Some r)))
| w_select_token : q_writer s = Select → q_token s = true →
    writer_step s (goto (set_flags s false (q_paused s) (q_closed s) (q_dropping s) (q_behind s) (q_excused s)) Resync)
| w_tail_token : q_writer s = Tail → q_token s = true →
    writer_step s (goto (set_flags s false (q_paused s) (q_closed s) (q_dropping s) (q_behind s) (q_excused s)) Resync)
| w_tail_empty : q_writer s = Tail → q_token s = false → writer_step s (goto s Top)
| w_resync_skip : q_writer s = Resync → q_paused s || q_closed s = true →
    writer_step s (goto (set_flags s (q_token s) (q_paused s) (q_closed s) (q_dropping s) (q_behind s) (q_excused s || q_paused s)) Top)
| w_resync : q_writer s = Resync → q_paused s || q_closed s = false →
    writer_step s (goto (set_flags s (q_token s) (q_paused s) (q_closed s) (q_dropping s) false (q_excused s)) (Serving None))
| w_served r res : q_writer s = Serving (Some r) → writer_step s (goto (answer s r (Result res)) Tail)
| w_resynced : q_writer s = Serving None → writer_step s (goto s Top)
| w_drain r ch : q_writer s = Draining → q_ch s = r :: ch → writer_step s (answer (take_req s r ch) r Closed)
| w_drained : q_writer s = Draining → q_ch s = [] → writer_step s (goto s Exited).

(** An execution, with the number of its writer steps. *)
Inductive exec : qstate → nat → qstate → Prop :=
| exec_nil s : exec s 0 s
| exec_env s s1 s2 n : env_step s s1 → exec s1 n s2 → exec s n s2
| exec_writer s s1 s2 n : writer_step s s1 → exec s1 n s2 → exec s (S n) s2.

Definition reachable (s : qstate) : Prop := ∃ n, exec init n s.
End queue.
Arguments qstate : clear implicits.
Arguments outcome : clear implicits.

(** ** Invariant *)

Section invariant.
Context {Res : Type}.
Implicit Types s : qstate Res.

(** The request is in the channel, or with the writer, or answered. *)
Definition pending s (id : N) : Prop :=
  (∃ r, r ∈ q_ch s ∧ rq_id r = id ∧ rq_waits r = true)
  ∨ (∃ r, q_writer s = Serving (Some r) ∧ rq_id r = id ∧ rq_waits r = true).

Record queue_ok s : Prop := {
  ok_bound : length (q_ch s) ≤ reloadChanCap;
  ok_fifo : q_accepted s = q_taken s ++ (rq_id <$> q_ch s);
  ok_once : NoDup (q_accepted s);
  ok_submitting : ∀ id, q_callers s !! id = Some Submitting → id ∉ q_accepted s;
  ok_done : ∀ id o, q_done s !! id = Some o → id ∈ q_taken s;
  ok_serving : ∀ r, q_writer s = Serving (Some r) → rq_id r ∈ q_taken s ∧ q_done s !! rq_id r = None;
  ok_waiting : ∀ id, q_callers s !! id = Some Waiting → pending s id ∨ is_Some (q_done s !! id);
  ok_exited : q_writer s = Draining ∨ q_writer s = Exited → q_closed s = true;
  ok_returned : ∀ id r, q_callers s !! id = Some (Returned (Result r)) → q_done s !! id = Some (Result r);
  ok_behind : q_behind s = true →
    q_token s = true ∨ 0 < q_dropping s ∨ q_writer s = Resync ∨ q_excused s = true ∨ q_closed s = true;
}.

Lemma init_ok : queue_ok init.
Proof.
  split; simpl; [lia|done|constructor|..]; try (intros id x Hc; by rewrite lookup_empty in Hc);
    try (intros id Hc; by rewrite lookup_empty in Hc); [by intros r [=]|by intros [|]|done].
Qed.

(** Moving a caller that is not there yet, or away from the send or the wait. *)
Lemma set_caller_ok s id c :
  queue_ok s → (c = Submitting → id ∉ q_accepted s) → (c = Waiting → pending s id ∨ is_Some (q_done s !! id)) →
  (∀ r, c = Returned (Result r) → q_done s !! id = Some (Result r)) → queue_ok (set_caller s id c).
Proof.
  intros Hok Hsub Hwait Hret. destruct Hok. split; try done; cbn [set_caller q_callers].
  - intros id' [[-> ->]|[_ Hc]]%lookup_insert_Some; [by apply Hsub|by apply ok_submitting0].
  - intros id' [[-> ->]|[_ Hc]]%lookup_insert_Some; [by apply Hwait|by apply ok_waiting0].
  - intros id' r [[-> ->]|[_ Hc]]%lookup_insert_Some; [by apply Hret|by apply ok_returned0].
Qed.

Lemma enqueue_ok s r :
  queue_ok s → length (q_ch s) < reloadChanCap → rq_id r ∉ q_accepted s →
  (∀ id, q_callers s !! id = Some Submitting → id ≠ rq_id r) → queue_ok (enqueue s r).
Proof.
  intros Hok Hlen Hnew Hsub. destruct Hok. split; try done; cbn [enqueue q_ch q_accepted q_taken].
  - rewrite length_app. simpl. lia.
  - by rewrite ok_fifo0, fmap_app, app_assoc.
  - apply NoDup_app. split_and!; [done| |apply NoDup_singleton]. by intros x Hx ->%list_elem_of_singleton.
  - intros id Hc. rewrite not_elem_of_app, not_elem_of_cons. specialize (Hsub id Hc).
    split_and!; [by apply ok_submitting0|done|by apply not_elem_of_nil].
  - intros id Hc. destruct (ok_waiting0 id Hc) as [[(r' & Hr & Hid)|Hs]|Hd]; [left; left|left; by right|by right].
    exists r'. split; [apply elem_of_app; by left|done].
Qed.

Lemma set_flags_ok s token paused closed dropping behind excused :
  queue_ok s → (q_closed s = true → closed = true) →
  (behind = true → token = true ∨ 0 < dropping ∨ q_writer s = Resync ∨ excused = true ∨ closed = true) →
  queue_ok (set_flags s token paused closed dropping behind excused).
Proof.
  intros Hok Hcl Hb. destruct Hok. split; try done. cbn [set_flags q_writer q_closed]. auto.
Qed.

Lemma env_ok s s' : queue_ok s → env_step s s' → queue_ok s'.
Proof.
  intros Hok Hstep. pose proof Hok as Hok'. destruct Hok'.
  destruct Hstep as [id Hf Hc|id Hf Hc|id Hs Hlen|id Hs Hc|id Hs|id o Hw Hd|id Hw Hc|id Hw|id Hf Hlen|Hlen|n Hn| | | |].
  - by apply set_caller_ok.
  - apply set_caller_ok; [done| |done|done]. intros _. by destruct Hf.
  - set (r := {| rq_id := id; rq_waits := true |}).
    assert (pending (enqueue s r) id) as Hp.
    { left. exists r. split; [|done]. apply elem_of_app. right. by apply list_elem_of_singleton. }
    (* the caller leaves the send as its request is accepted *)
    assert (queue_ok (set_caller s id (Returned Cancelled))) as Haway by (by apply set_caller_ok).
    assert (queue_ok (enqueue (set_caller s id (Returned Cancelled)) r)) as Henq.
    { apply enqueue_ok; [done|done|by apply ok_submitting0|]. cbn [set_caller q_callers].
      intros id' [[_ [=]]|[Hne _]]%lookup_insert_Some. by intros ->. }
    assert (set_caller (enqueue s r) id Waiting = set_caller (enqueue (set_caller s id (Returned Cancelled)) r) id Waiting) as ->.
    { unfold set_caller, enqueue. simpl. by rewrite insert_insert_eq. }
    apply set_caller_ok; [done|done| |done]. intros _. by left.
  - by apply set_caller_ok.
  - by apply set_caller_ok.
  - apply set_caller_ok; [done|done|done|]. intros r [= ->]. done.
  - by apply set_caller_ok.
  - by apply set_caller_ok.
  - apply enqueue_ok; [done|done|by destruct Hf|]. simpl. intros id' Hid' ->. destruct Hf as [Hf _]. congruence.
  - apply set_flags_ok; [done|done|]. intros _. right; left; lia.
  - apply set_flags_ok; [done|done|]. by left.
  - apply set_flags_ok; [done|done|]. intros _. by right; right; right; left.
  - apply set_flags_ok; [done|done|]. intros _. by right; right; right; left.
  - apply set_flags_ok; [done|done|]. done.
  - apply set_flags_ok; [done|done|]. intros _. by right; right; right; right.
Qed.

(** A move of the writer that neither takes nor answers a request. *)
Lemma goto_ok s p :
  queue_ok s → (∀ r, q_writer s ≠ Serving (Some r)) → (∀ r, p ≠ Serving (Some r)) →
  (p = Draining ∨ p = Exited → q_closed s = true) →
  (q_writer s = Resync → q_behind s = true → q_token s = true ∨ 0 < q_dropping s ∨ p = Resync ∨ q_excused s = true ∨ q_closed s = true) →
  queue_ok (goto s p).
Proof.
  intros Hok Hw Hp Hex Hb. destruct Hok. split; try done; cbn [goto q_writer q_callers q_ch q_done q_token q_dropping q_excused q_closed q_behind].
  - intros r Hr. by destruct (Hp r).
  - intros id Hc. destruct (ok_waiting0 id Hc) as [[Hin|(r & Hr & _)]|Hd]; [left; by left|by destruct (Hw r)|by right].
  - intros Hbe. destruct (ok_behind0 Hbe) as [?|[?|[Hr|[?|?]]]]; [by left|by right; left| |by right; right; right; left|by right; right; right; right].
    by apply Hb.
Qed.

(** The same when the token or the history of dropped events changes too. *)
Lemma move_ok s token paused dropping behind excused p :
  queue_ok s → (∀ r, q_writer s ≠ Serving (Some r)) → (∀ r, p ≠ Serving (Some r)) → p ≠ Draining → p ≠ Exited →
  (behind = true → token = true ∨ 0 < dropping ∨ p = Resync ∨ excused = true ∨ q_closed s = true) →
  queue_ok (goto (set_flags s token paused (q_closed s) dropping behind excused) p).
Proof.
  intros Hok Hw Hp Hd Hex Hb. destruct Hok.
  split; try done; cbn [goto set_flags q_writer q_callers q_ch q_done q_closed].
  - intros r Hr. by destruct (Hp r).
  - intros id Hc. destruct (ok_waiting0 id Hc) as [[Hin|(r & Hr & _)]|Hdn]; [left; by left|by destruct (Hw r)|by right].
  - by intros [|].
Qed.

(** The head of the channel was never answered. *)
Lemma head_fresh s r ch :
  queue_ok s → q_ch s = r :: ch → rq_id r ∉ q_taken s ∧ q_done s !! rq_id r = None.
Proof.
  intros Hok Hch. destruct Hok. rewrite Hch in ok_fifo0. simpl in ok_fifo0. rewrite ok_fifo0 in ok_once0.
  apply NoDup_app in ok_once0 as (_ & Hdis & _).
  assert (rq_id r ∉ q_taken s) as Hnt. { intros Hin. apply (Hdis _ Hin). by left. }
  split; [done|]. destruct (q_done s !! rq_id r) eqn:Hd; [|done]. destruct Hnt. by eapply ok_done0.
Qed.

Lemma take_ok s r ch :
  queue_ok s → q_ch s = r :: ch → (∀ r', q_writer s ≠ Serving (Some r')) → q_writer s ≠ Resync →
  q_writer s ≠ Draining → q_writer s ≠ Exited → queue_ok (goto (take_req s r ch) (Serving (Some r))).
Proof.
  intros Hok Hch Hw Hres Hdr Hex. destruct (head_fresh s r ch Hok Hch) as [Hnt Hnd]. destruct Hok.
  split; try done; cbn [goto take_req q_writer q_callers q_ch q_done q_token q_dropping q_excused q_closed q_behind q_accepted q_taken].
  - rewrite Hch in ok_bound0. simpl in ok_bound0. lia.
  - rewrite ok_fifo0, Hch. simpl. by rewrite <-app_assoc.
  - intros id o Hd. apply elem_of_app. left. by eapply ok_done0.
  - intros r' [= <-]. split; [|done]. apply elem_of_app. right. by apply list_elem_of_singleton.
  - intros id Hc. destruct (ok_waiting0 id Hc) as [[(r' & Hin & Hid & Hwt)|(r' & Hr & _)]|Hd]; [|by destruct (Hw r')|by right].
    rewrite Hch in Hin. left. apply elem_of_cons in Hin as [->|Hin]; [right; by exists r|left; by exists r'].
  - by intros [|].
  - intros Hb. destruct (ok_behind0 Hb) as [?|[?|[Hr|[?|?]]]]; [by left|by right; left|done|by right; right; right; left|by right; right; right; right].
Qed.

Lemma served_ok s r o :
  queue_ok s → q_writer s = Serving (Some r) → queue_ok (goto (answer s r o) Tail).
Proof.
  intros Hok Hw. pose proof Hok as Hok'. destruct Hok'. destruct (ok_serving0 r Hw) as [Ht Hnd].
  assert (∀ id o', q_done s !! id = Some o' → q_done (answer s r o) !! id = Some o') as Hmono.
  { intros id o' Hd. cbn [answer q_done]. destruct (rq_waits r); [|done]. rewrite lookup_insert_ne; [done|congruence]. }
  split; try done.
  - intros id o' Hd. cbn [goto answer q_done q_taken] in *. destruct (rq_waits r); [|by eapply ok_done0].
    apply lookup_insert_Some in Hd as [[<- _]|[_ Hd]]; [done|by eapply ok_done0].
  - intros id Hc. destruct (ok_waiting0 id Hc) as [[Hin|(r' & Hr & <- & Hwt)]|[o' Hd]].
    + left. by left.
    + right. rewrite Hw in Hr. injection Hr as <-. cbn [goto answer q_done]. rewrite Hwt, lookup_insert_eq. by eexists.
    + right. exists o'. by apply Hmono.
  - by intros [|].
  - intros id res Hc. apply Hmono. by apply ok_returned0.
  - intros Hb. destruct (ok_behind0 Hb) as [?|[?|[Hr|[?|?]]]]; [by left|by right; left|congruence|by right; right; right; left|by right; right; right; right].
Qed.

Lemma drain_ok s r ch :
  queue_ok s → q_writer s = Draining → q_ch s = r :: ch → queue_ok (answer (take_req s r ch) r Closed).
Proof.
  intros Hok Hw Hch. destruct (head_fresh s r ch Hok Hch) as [Hnt Hnd]. destruct Hok.
  assert (∀ id o', q_done s !! id = Some o' → q_done (answer (take_req s r ch) r Closed) !! id = Some o') as Hmono.
  { intros id o' Hd. cbn [answer take_req q_done]. destruct (rq_waits r); [|done]. rewrite lookup_insert_ne; [done|congruence]. }
  split; try done; cbn [answer take_req q_ch q_accepted q_taken q_writer].
  - rewrite Hch in ok_bound0. simpl in ok_bound0. lia.
  - rewrite ok_fifo0, Hch. simpl. by rewrite <-app_assoc.
  - intros id o' Hd. cbn [answer take_req q_done] in Hd. apply elem_of_app. destruct (rq_waits r); [|left; by eapply ok_done0].
    apply lookup_insert_Some in Hd as [[<- _]|[_ Hd]]; [right; by apply list_elem_of_singleton|left; by eapply ok_done0].
  - intros r' Hr. congruence.
  - intros id Hc. destruct (ok_waiting0 id Hc) as [[(r' & Hin & Hid & Hwt)|(r' & Hr & _)]|[o' Hd]]; [|congruence|right; exists o'; by apply Hmono].
    rewrite Hch in Hin. apply elem_of_cons in Hin as [->|Hin].
    + right. cbn [answer take_req q_done]. rewrite Hwt, Hid, lookup_insert_eq. by eexists.
    + left. left. by exists r'.
  - intros id res Hc. apply Hmono. by apply ok_returned0.
Qed.

Lemma writer_ok s s' : queue_ok s → writer_step s s' → queue_ok s'.
Proof.
  intros Hok Hstep. pose proof Hok as Hok'. destruct Hok'.
  destruct Hstep as [Hw Hc|Hw Hc|r ch Hw Hch|Hw Hch|Hw Hc|r ch Hw Hch|Hw Ht|Hw Ht|Hw Ht|Hw Hp|Hw Hp|r res Hw|Hw|r ch Hw Hch|Hw Hch].
  1-2, 4-5, 9, 13, 15: apply goto_ok; try done; try congruence; try (by intros [[=]|[=]]); intros ?; try congruence; auto.
  1-2: apply take_ok; try done; congruence.
  1-4: apply move_ok; try done; try congruence; intros Hb.
  - by right; right; left.
  - by right; right; left.
  - apply orb_prop in Hp as [Hp|Hp]; rewrite Hp; [rewrite orb_true_r|]; auto.
  - by apply served_ok.
  - by apply drain_ok.
Qed.

Lemma exec_ok s n s' : exec s n s' → queue_ok s → queue_ok s'.
Proof. induction 1; [done|..]; intros Hok; [by eauto using env_ok|by eauto using writer_ok]. Qed.

Lemma reachable_ok s : reachable s → queue_ok s.
Proof. intros [n Hr]. eapply exec_ok; [exact Hr|apply init_ok]. Qed.
End invariant.

(** ** Progress *)

Section progress.
Context {Res : Type}.
Implicit Types s : qstate Res.

(** Writer steps until the next receive from a channel that is not empty. *)
Definition cost (p : pc) : nat :=
  match p with
  | Exited => 0 | TryRecv | Draining => 1 | Top => 2 | Serving None => 3 | Resync => 4 | Tail | Select => 5
  | Serving (Some _) => 6
  end.

(** The writer steps that a waiting request is away from its answer. *)
Inductive rank s (id : N) : nat → Prop :=
| rank_queued i r : q_ch s !! i = Some r → rq_id r = id → rq_waits r = true → rank s id (7 * i + cost (q_writer s) + 1)
| rank_serving r : q_writer s = Serving (Some r) → rq_id r = id → rq_waits r = true → rank s id 1.

Lemma rank_bound s id k : queue_ok s → rank s id k → 0 < k ≤ 7 * reloadChanCap.
Proof.
  intros Hok Hr. pose proof (ok_bound s Hok) as Hb. unfold reloadChanCap in *.
  destruct Hr as [i r Hi _ _|]; [|lia]. apply lookup_lt_Some in Hi.
  assert (cost (q_writer s) ≤ 6) by (by destruct (q_writer s) as [| | |[r'|]| | | |]; simpl; lia). lia.
Qed.

Lemma pending_rank s id : pending s id → ∃ k, rank s id k.
Proof.
  intros [(r & Hin & Hid & Hw)|(r & Hs & Hid & Hw)].
  - apply list_elem_of_lookup in Hin as [i Hi]. eexists. by eapply rank_queued.
  - exists 1. by eapply rank_serving.
Qed.

Lemma env_rank s s' id k : env_step s s' → rank s id k → rank s' id k.
Proof.
  intros Hstep Hr. assert (q_writer s' = q_writer s ∧ ∃ more, q_ch s' = q_ch s ++ more) as [Hw (more & Hch)].
  { destruct Hstep; (split; [done|]); simpl; try (by exists []; rewrite app_nil_r); by eexists. }
  destruct Hr as [i r Hi Hid Hwt|r Hs Hid Hwt].
  - rewrite <-Hw. eapply rank_queued; [|done..]. rewrite Hch. by apply lookup_app_l_Some.
  - eapply rank_serving; [|done..]. by rewrite Hw.
Qed.

(** The rank after the head of the channel is taken. *)
Lemma take_rank s s' r ch p id k :
  q_ch s = r :: ch → q_ch s' = ch → q_writer s' = p → cost p ≤ cost (q_writer s) + 5 → rq_id r ≠ id ∨ rq_waits r = false →
  (∀ r', q_writer s ≠ Serving (Some r')) → (NoDup (rq_id <$> q_ch s)) → rank s id k → ∃ k', rank s' id k' ∧ k' < k.
Proof.
  intros Hch Hch' Hp Hc Hne Hw Hnd [i r' Hi Hid Hwt|r' Hs _ _]; [|by destruct (Hw r')].
  rewrite Hch in Hi. destruct i as [|i]; simpl in Hi; [injection Hi as <-; destruct Hne; congruence|].
  eexists. split; [eapply (rank_queued _ _ i); [by rewrite Hch'|done..]|]. rewrite Hp. lia.
Qed.

Lemma queue_nodup s : queue_ok s → NoDup (rq_id <$> q_ch s).
Proof. intros Hok. pose proof (ok_once s Hok) as Hnd. rewrite (ok_fifo s Hok) in Hnd. by apply NoDup_app in Hnd as (_ & _ & ?). Qed.

Lemma move_rank s s' id k :
  q_ch s' = q_ch s → (∀ r, q_writer s ≠ Serving (Some r)) → cost (q_writer s') < cost (q_writer s) →
  rank s id k → ∃ k', rank s' id k' ∧ k' < k.
Proof.
  intros Hch Hw Hc [i r Hi Hid Hwt|r Hs _ _]; [|by destruct (Hw r)].
  eexists. split; [eapply (rank_queued _ _ i); [by rewrite Hch|done..]|]. lia.
Qed.

Lemma take_case s r ch id k (s' : qstate Res) :
  queue_ok s → q_ch s = r :: ch → (∀ r', q_writer s ≠ Serving (Some r')) → cost (q_writer s) ≥ 1 →
  s' = goto (take_req s r ch) (Serving (Some r)) → rank s id k → ∃ k', rank s' id k' ∧ k' < k.
Proof.
  intros Hok Hch Hw Hc -> Hr. destruct (decide (rq_id r = id ∧ rq_waits r = true)) as [[Hid Hwt]|Hne].
  - exists 1. split; [by eapply rank_serving|]. destruct Hr as [i r' _ _ _|r' Hs _ _]; [lia|by destruct (Hw r')].
  - eapply (take_rank s _ r ch (Serving (Some r))); [done|done|done| | |done|by apply queue_nodup|exact Hr].
    + simpl. lia.
    + destruct (decide (rq_id r = id)), (rq_waits r) eqn:?; naive_solver.
Qed.

Lemma writer_rank s s' id k :
  queue_ok s → writer_step s s' → rank s id k → is_Some (q_done s' !! id) ∨ ∃ k', rank s' id k' ∧ k' < k.
Proof.
  intros Hok Hstep Hr.
  destruct Hstep as [Hw Hc|Hw Hc|r ch Hw Hch|Hw Hch|Hw Hc|r ch Hw Hch|Hw Ht|Hw Ht|Hw Ht|Hw Hp|Hw Hp|r res Hw|Hw|r ch Hw Hch|Hw Hch].
  4, 15: exfalso; destruct Hr as [i r Hi _ _|r Hs _ _]; [by rewrite Hch in Hi|congruence].
  1-2, 4, 6-10, 12: right; apply (move_rank s); [done|congruence|rewrite Hw; simpl; lia|exact Hr].
  1-2: right; by eapply take_case; [..|done|exact Hr]; [|done|congruence|rewrite Hw; simpl; lia].
  - destruct Hr as [i r' Hi Hid Hwt|r' Hs <- Hwt].
    + right. eexists. split; [eapply (rank_queued _ _ i); [by destruct (rq_waits r)|done..]|]. rewrite Hw. simpl. lia.
    + left. rewrite Hw in Hs. injection Hs as <-. cbn [goto answer q_done]. rewrite Hwt, lookup_insert_eq. by eexists.
  - destruct (decide (rq_id r = id ∧ rq_waits r = true)) as [[<- Hwt]|Hne].
    + left. cbn [answer take_req q_done]. rewrite Hwt, lookup_insert_eq. by eexists.
    + right. eapply (take_rank s _ r ch Draining); [done|done|done|rewrite Hw; simpl; lia| |congruence|by apply queue_nodup|exact Hr].
      destruct (decide (rq_id r = id)), (rq_waits r) eqn:?; naive_solver.
Qed.

Lemma done_kept s n s' id o : queue_ok s → exec s n s' → q_done s !! id = Some o → q_done s' !! id = Some o.
Proof.
  intros Hok He. revert Hok. induction He as [s|s s1 s2 n Hst He IH|s s1 s2 n Hst He IH]; intros Hok Hd; [done|..].
  - apply IH; [by eapply env_ok|]. by destruct Hst.
  - apply IH; [by eapply writer_ok|].
    destruct Hst as [| |r ch Hw Hch| | |r ch Hw Hch| | | | | |r res Hw| |r ch Hw Hch|]; try exact Hd.
    + cbn [goto answer q_done]. destruct (rq_waits r); [|done]. destruct (ok_serving s Hok r Hw) as [_ Hn].
      rewrite lookup_insert_ne; [done|congruence].
    + cbn [answer take_req q_done]. destruct (rq_waits r); [|done]. destruct (head_fresh s r ch Hok Hch) as [_ Hn].
      rewrite lookup_insert_ne; [done|congruence].
Qed.

Lemma rank_exec s n s' id k :
  queue_ok s → exec s n s' → rank s id k → k ≤ n → is_Some (q_done s' !! id).
Proof.
  intros Hok He. revert k Hok. induction He as [s|s s1 s2 n Hst He IH|s s1 s2 n Hst He IH]; intros k Hok Hr Hk.
  - pose proof (rank_bound s id k Hok Hr). lia.
  - eapply IH; [by eapply env_ok|by eapply env_rank|done].
  - pose proof (writer_ok s s1 Hok Hst) as Hok1. destruct (writer_rank s s1 id k Hok Hst Hr) as [[o Hd]|(k' & Hr' & Hlt)].
    + exists o. by eapply done_kept.
    + eapply IH; [done|exact Hr'|lia].
Qed.

Lemma writer_progress s (res : Res) :
  queue_ok s → (∃ s', writer_step s s') ∨ q_writer s = Exited
  ∨ (q_writer s = Select ∧ q_ch s = [] ∧ q_token s = false ∧ q_closed s = false).
Proof.
  intros Hok. destruct (q_writer s) as [| | |[r|]| | | |] eqn:Hw.
  - left. destruct (q_closed s) eqn:Hc; eexists; [by apply w_top_closed|by apply w_top].
  - left. destruct (q_ch s) eqn:Hch; eexists; [by apply w_try_empty|by eapply w_try_recv].
  - destruct (q_ch s) as [|r ch] eqn:Hch; [|left; eexists; by eapply w_select_recv].
    destruct (q_closed s) eqn:Hc; [left; eexists; by apply w_select_closed|].
    destruct (q_token s) eqn:Ht; [left; eexists; by apply w_select_token|]. by right; right.
  - left. eexists. by apply (w_served s r res).
  - left. eexists. by apply w_resynced.
  - left. destruct (q_token s) eqn:Ht; eexists; [by apply w_tail_token|by apply w_tail_empty].
  - left. destruct (q_paused s || q_closed s) eqn:Hp; eexists; [by apply w_resync_skip|by apply w_resync].
  - left. destruct (q_ch s) eqn:Hch; eexists; [by apply w_drained|by eapply w_drain].
  - by right; left.
Qed.
End progress.

(** ** Correctness of the queue *)

(** C6: the queue is a bounded FIFO with one answer per request. In every
    reachable state at most sixteen requests wait, each request was accepted
    once, and requests have left the queue in the order in which they entered
    it; the channel on which the writer is about to answer is empty, so that the
    send never blocks, also while the queue is rejected on shutdown; and a caller
    that returned a result returned the one the writer gave for its own request,
    which no later step replaces. *)
Theorem queue_fifo {Res} (s : qstate Res) (Hs : reachable s) :
  length (q_ch s) ≤ reloadChanCap
  ∧ q_accepted s = q_taken s ++ (rq_id <$> q_ch s) ∧ NoDup (q_accepted s)
  ∧ (∀ r, q_writer s = Serving (Some r) → q_done s !! rq_id r = None)
  ∧ (∀ r ch, q_ch s = r :: ch → q_done s !! rq_id r = None)
  ∧ (∀ id res, q_callers s !! id = Some (Returned (Result res)) → q_done s !! id = Some (Result res))
  ∧ (∀ n s' id o, exec s n s' → q_done s !! id = Some o → q_done s' !! id = Some o).
Proof.
  pose proof (reachable_ok s Hs) as Hok. split_and!; [by apply ok_bound|by apply ok_fifo|by apply ok_once| | | |].
  - intros r Hw. by apply ok_serving.
  - intros r ch Hch. by eapply head_fresh.
  - by apply ok_returned.
  - intros n s' id o He. by eapply done_kept.
Qed.

(** C5: no caller is stranded. The writer can always move, unless it has exited
    after the shutdown or waits with nothing to do; and a caller that waits gets
    its answer within 112 steps of the writer, whatever the other callers, the
    providers, [Pause], [Resume] and [Close] do in between: neither new requests
    nor resyncs can overtake it. A caller still waiting when the writer has
    exited sees the shutdown and returns [ErrClosed]. *)
Theorem no_stranded_caller {Res} (s : qstate Res) (Hs : reachable s) (res : Res) :
  ((∃ s', writer_step s s') ∨ (q_writer s = Exited ∧ q_closed s = true)
   ∨ (q_writer s = Select ∧ q_ch s = [] ∧ q_token s = false ∧ q_closed s = false))
  ∧ (∀ id, q_callers s !! id = Some Waiting →
       (∀ n s', exec s n s' → 7 * reloadChanCap ≤ n → is_Some (q_done s' !! id))
       ∧ (q_writer s = Exited → env_step s (set_caller s id (Returned Closed)))).
Proof.
  pose proof (reachable_ok s Hs) as Hok. split.
  - destruct (writer_progress s res Hok) as [?|[He|?]]; [by left|right; left|by right; right].
    split; [done|]. apply (ok_exited s Hok). by right.
  - intros id Hw. split.
    + intros n s' He Hn. destruct (ok_waiting s Hok id Hw) as [Hp|[o Hd]]; [|exists o; by eapply done_kept].
      apply pending_rank in Hp as [k Hk]. pose proof (rank_bound s id k Hok Hk).
      eapply rank_exec; [done|done|exact Hk|lia].
    + intros Hx. apply e_wait_closed; [done|]. apply (ok_exited s Hok). by right.
Qed.

(** C7: a dropped provider event is not lost. When an event was dropped because
    the queue was full and no refresh has started since, a refresh is on its way:
    the token waits in its channel, or a watcher is about to put it there, or the
    writer has just taken it; the only exceptions are a [Pause] since the drop
    and a shutdown. *)
Theorem dropped_event_refreshed {Res} (s : qstate Res) (Hs : reachable s) (Hdrop : q_behind s = true) :
  q_token s = true ∨ 0 < q_dropping s ∨ q_writer s = Resync ∨ q_excused s = true ∨ q_closed s = true.
Proof. by apply (ok_behind s (reachable_ok s Hs)). Qed.

(** ** Examples *)

(** A caller submits and its request reaches the writer. *)
Definition example_sent : qstate nat :=
  set_caller (enqueue (set_caller init 1%N Submitting) {| rq_id := 1; rq_waits := true |}) 1%N Waiting.

Lemma example_sent_reachable : reachable example_sent.
Proof.
  exists 0. eapply exec_env; [apply (e_submit init 1%N); [split; [reflexivity|apply not_elem_of_nil]|reflexivity]|].
  eapply exec_env; [apply (e_send _ 1%N); [reflexivity|simpl; unfold reloadChanCap; lia]|]. apply exec_nil.
Qed.

Lemma queue_fifo_witness : q_accepted example_sent = [1%N] ∧ NoDup (q_accepted example_sent).
Proof.
  destruct (queue_fifo example_sent example_sent_reachable) as (_ & Hf & Hn & _). split; [|exact Hn].
  rewrite Hf. reflexivity.
Defined.

Lemma no_stranded_caller_witness : ∃ s', writer_step example_sent s'.
Proof.
  destruct (no_stranded_caller example_sent example_sent_reachable 0) as [[Hs|[[Hx _]|[Hx _]]] _];
    [exact Hs|discriminate Hx|discriminate Hx].
Defined.

(** Sixteen provider triggers fill the queue; the next one is dropped. *)
Definition filled (n : nat) : qstate nat :=
  {| q_ch := (λ i, {| rq_id := N.of_nat i; rq_waits := false |}) <$> seq 0 n; q_token := false; q_paused := false;
     q_closed := false; q_writer := Top; q_callers := ∅; q_done := ∅; q_dropping := 0;
     q_accepted := N.of_nat <$> seq 0 n; q_taken := []; q_behind := false; q_excused := false |}.

Definition example_behind : qstate nat := set_flags (filled 16) false false false 1 true false.

Lemma exec_snoc_env {Res} (s s1 s2 : qstate Res) n : exec s n s1 → env_step s1 s2 → exec s n s2.
Proof. induction 1; intros Hst; [by eapply exec_env, exec_nil|by eapply exec_env; auto|by eapply exec_writer; auto]. Qed.

Lemma filled_exec n : n ≤ reloadChanCap → exec init 0 (filled n).
Proof.
  induction n as [|n IH]; intros Hn; [apply exec_nil|]. eapply exec_snoc_env; [apply IH; lia|].
  assert (filled (S n) = enqueue (filled n) {| rq_id := N.of_nat n; rq_waits := false |}) as ->.
  { unfold filled, enqueue. rewrite seq_S, !fmap_app. reflexivity. }
  apply e_provider_send.
  - split; [reflexivity|]. simpl. rewrite list_elem_of_fmap. intros (i & Hi & Hin).
    apply list_elem_of_In, in_seq in Hin. lia.
  - simpl. rewrite length_fmap, length_seq. lia.
Qed.

Lemma example_behind_reachable : reachable example_behind.
Proof.
  exists 0. eapply exec_snoc_env; [by apply (filled_exec 16)|]. apply (e_provider_full (filled 16)). reflexivity.
Qed.

Lemma dropped_event_refreshed_witness : q_behind example_behind = true ∧ 0 < q_dropping example_behind.
Proof.
  split; [reflexivity|].
  destruct (dropped_event_refreshed example_behind example_behind_reachable eq_refl) as [Ht|[Hd|[Hw|[He|Hc]]]];
    [discriminate Ht|exact Hd|discriminate Hw|discriminate He|discriminate Hc].
Defined.
