(* ===== verification/Coalesce.v ===== *)
(** * Bursts of events (internal/coalesce/coalesce.go, profiles.go)

    The bursts of a Coalescer with their timers, as a step relation: a [Push],
    the expiry of a timer, the callback that an expired timer has started, and
    [Stop].  [Push] reads the clock three times (for [now], for [time.Until] and
    when it arms the timer); the readings of one call lie within [skew] of each
    other.  Times are nanoseconds. *)
From S2P Require Import Prelude GoStrings.
Open Scope Z_scope.

Definition DefaultQuiet : Z := 30000000.
Definition DefaultMaxLag : Z := 250000000.
Definition DefaultSwapHint : Z := 5000000.

Record Options := { Quiet : Z; MaxLag : Z; SwapHint : Z }.

Definition normalize (o : Options) : Options :=
  let quiet := if Quiet o <=? 0 then DefaultQuiet else Quiet o in
  let lag := if MaxLag o <=? 0 then DefaultMaxLag else MaxLag o in
  let hint := if SwapHint o <=? 0 then DefaultSwapHint else SwapHint o in
  {| Quiet := quiet; MaxLag := lag; SwapHint := if quiet <? hint then quiet else hint |}.

Inductive Profile := ProfileK8s | ProfileLocalDev.

Definition Apply (p : Profile) : Options :=
  match p with
  | ProfileLocalDev => {| Quiet := 80000000; MaxLag := 500000000; SwapHint := 20000000 |}
  | ProfileK8s => {| Quiet := DefaultQuiet; MaxLag := DefaultMaxLag; SwapHint := DefaultSwapHint |}
  end.

(** The loop of [joinUnique]: the strings not seen before. *)
Fixpoint unique_from (seen : gset string) (l : list string) : list string :=
  match l with
  | [] => []
  | s :: l => if decide (s ∈ seen) then unique_from seen l else s :: unique_from ({[s]} ∪ seen) l
  end.

Definition joinUnique (l : list string) : string :=
  if (length l <=? 1)%nat then strings_Join l "," else strings_Join (unique_from ∅ l) ",".

(** ** State *)

(** [b_id] is the identity of the burst; [b_timer] is when its timer expires,
    and [None] once it has. *)
Record burst := { b_id : N; b_timer : option Z; b_deadline : Z; b_reasons : list string; b_swapSeen : bool }.

Record coalescer := {
  c_opts : Options;
  c_bursts : gmap string burst;
  c_stopped : bool;
  c_next : N;
  c_clock : Z;
  c_flushing : list (string * N);       (* callbacks that timers have started *)
  (* History: the calls of [fn] before [joinUnique], and the accepted events. *)
  c_calls : list (string * list string);
  c_pushed : list (string * string);
}.

Definition New (o : Options) (now : Z) : coalescer :=
  {| c_opts := normalize o; c_bursts := ∅; c_stopped := false; c_next := 0; c_clock := now; c_flushing := [];
     c_calls := []; c_pushed := [] |}.

(** A timer armed with a duration: one that is not positive expires at once. *)
Definition expiry (clock window : Z) : Z := clock + Z.max 0 window.

(** ** [Push] *)

(** A burst leaves the map and its reasons are handed to [fn]. *)
Definition dispatch (c : coalescer) (key : string) (b : burst) (flushing : list (string * N)) : coalescer :=
  {| c_opts := c_opts c; c_bursts := delete key (c_bursts c); c_stopped := c_stopped c; c_next := c_next c;
     c_clock := c_clock c; c_flushing := flushing;
     c_calls := if (length (b_reasons b) =? 0)%nat then c_calls c else c_calls c ++ [(key, b_reasons b)];
     c_pushed := c_pushed c |}.

(** A burst past its deadline is dispatched and its timer stopped. *)
Definition evict (c : coalescer) (key : string) (now : Z) : coalescer * option burst :=
  match c_bursts c !! key with
  | Some b => if b_deadline b <=? now then (dispatch c key b (c_flushing c), None) else (c, Some b)
  | None => (c, None)
  end.

Definition new_burst (o : Options) (id : N) (reason : string) (swap : bool) (now armed : Z) : burst :=
  {| b_id := id; b_timer := Some (expiry armed (Z.min (if swap then SwapHint o else Quiet o) (MaxLag o)));
     b_deadline := now + MaxLag o; b_reasons := [reason]; b_swapSeen := swap |}.

Definition extend_burst (o : Options) (b : burst) (reason : string) (swap : bool) (until armed : Z) : burst :=
  {| b_id := b_id b;
     b_timer :=
       if swap then Some (expiry armed (Z.min (SwapHint o) (b_deadline b - until)))
       else if b_swapSeen b then b_timer b
       else let window := Z.min (Quiet o) (b_deadline b - until) in
            if 0 <? window then Some (expiry armed window) else b_timer b;
     b_deadline := b_deadline b; b_reasons := b_reasons b ++ [reason];
     b_swapSeen := swap || b_swapSeen b |}.

Definition Push (c : coalescer) (key reason : string) (swap : bool) (now until armed : Z) : coalescer :=
  if c_stopped c then c
  else
    let '(c, found) := evict c key now in
    let b := match found with
             | Some b => extend_burst (c_opts c) b reason swap until armed
             | None => new_burst (c_opts c) (c_next c) reason swap now armed
             end in
    {| c_opts := c_opts c; c_bursts := <[key := b]> (c_bursts c); c_stopped := false;
       c_next := match found with Some _ => c_next c | None => N.succ (c_next c) end;
       c_clock := armed; c_flushing := c_flushing c; c_calls := c_calls c; c_pushed := c_pushed c ++ [(key, reason)] |}.

(** ** The timer callback, and [Stop] *)

(** A timer that was armed again while its callback waited for the lock stays
    armed after the burst is gone: its callback still runs, at some time. *)
Definition flush (c : coalescer) (key : string) (self : N) : coalescer :=
  match c_bursts c !! key with
  | Some b =>
      if bool_decide (b_id b = self) && negb (c_stopped c) then
        dispatch c key b match b_timer b with Some _ => c_flushing c ++ [(key, self)] | None => c_flushing c end
      else c
  | None => c
  end.

Definition Stop (c : coalescer) : coalescer :=
  {| c_opts := c_opts c; c_bursts := ∅; c_stopped := true; c_next := c_next c; c_clock := c_clock c;
     c_flushing := c_flushing c; c_calls := c_calls c; c_pushed := c_pushed c |}.

(** The timer of a burst expires and starts its callback. *)
Definition expire (c : coalescer) (key : string) (b : burst) : coalescer :=
  {| c_opts := c_opts c;
     c_bursts := <[key := {| b_id := b_id b; b_timer := None; b_deadline := b_deadline b; b_reasons := b_reasons b;
                             b_swapSeen := b_swapSeen b |}]> (c_bursts c);
     c_stopped := c_stopped c; c_next := c_next c; c_clock := c_clock c; c_flushing := c_flushing c ++ [(key, b_id b)];
     c_calls := c_calls c; c_pushed := c_pushed c |}.

Definition at_time (c : coalescer) (now : Z) (flushing : list (string * N)) : coalescer :=
  {| c_opts := c_opts c; c_bursts := c_bursts c; c_stopped := c_stopped c; c_next := c_next c; c_clock := now;
     c_flushing := flushing; c_calls := c_calls c; c_pushed := c_pushed c |}.

Inductive step (skew : Z) (c : coalescer) : coalescer → Prop :=
| s_time now : c_clock c <= now → step skew c (at_time c now (c_flushing c))
| s_push key reason swap now until armed :
    c_clock c <= now → now <= until → until <= armed → armed <= now + skew →
    step skew c (Push c key reason swap now until armed)
| s_expire key b t : c_bursts c !! key = Some b → b_timer b = Some t → t <= c_clock c → step skew c (expire c key b)
| s_flush key id before after : c_flushing c = before ++ (key, id) :: after →
    step skew c (flush (at_time c (c_clock c) (before ++ after)) key id)
| s_stop : step skew c (Stop c).

Inductive steps (skew : Z) : coalescer → coalescer → Prop :=
| steps_nil c : steps skew c c
| steps_cons c c1 c2 : step skew c c1 → steps skew c1 c2 → steps skew c c2.

(** ** Well-formed coalescers *)

Definition pushed_to (c : coalescer) (key : string) : list string := (filter (λ p, p.1 = key) (c_pushed c)).*2.
Definition called_with (c : coalescer) (key : string) : list string := concat (filter (λ p, p.1 = key) (c_calls c)).*2.
Definition pending (c : coalescer) (key : string) : list string := from_option b_reasons [] (c_bursts c !! key).

Definition flush_due (skew : Z) (flushing : list (string * N)) (key : string) (b : burst) : Prop :=
  match b_timer b with Some t => t <= b_deadline b + skew | None => (key, b_id b) ∈ flushing end.

Record coalescer_ok (skew : Z) (c : coalescer) : Prop := {
  ok_opts : 0 < Quiet (c_opts c) ∧ 0 < MaxLag (c_opts c) ∧ 0 < SwapHint (c_opts c) ∧ SwapHint (c_opts c) <= Quiet (c_opts c);
  ok_bursts : map_Forall (λ key b, b_reasons b ≠ [] ∧ (b_id b < c_next c)%N
                          ∧ b_deadline b <= c_clock c + MaxLag (c_opts c)) (c_bursts c);
  ok_due : map_Forall (flush_due skew (c_flushing c)) (c_bursts c);
  ok_stopped : c_stopped c = true → c_bursts c = ∅;
  ok_calls : Forall (λ p, p.2 ≠ []) (c_calls c);
  ok_conserved : c_stopped c = false → ∀ key, pushed_to c key = called_with c key ++ pending c key;
}.

Lemma normalize_ok o : let o := normalize o in
  0 < Quiet o ∧ 0 < MaxLag o ∧ 0 < SwapHint o ∧ SwapHint o <= Quiet o.
Proof.
  unfold normalize, DefaultQuiet, DefaultMaxLag, DefaultSwapHint; simpl.
  repeat case_match; lia.
Qed.

Lemma New_ok skew o now : coalescer_ok skew (New o now).
Proof. split; simpl; [apply normalize_ok|apply map_Forall_empty|apply map_Forall_empty|done|by constructor|done]. Qed.

Lemma filter_snoc_eq {A} (l : list (string * A)) k (v : A) key :
  (filter (λ p, p.1 = key) (l ++ [(k, v)])).*2 = (filter (λ p, p.1 = key) l).*2 ++ if decide (k = key) then [v] else [].
Proof. rewrite filter_app, fmap_app. f_equal. rewrite filter_cons, filter_nil. simpl. by destruct (decide (k = key)). Qed.

(** A dispatched burst moves its reasons from the pending ones to the calls. *)
Lemma dispatch_ok skew c key b fl : coalescer_ok skew c → c_bursts c !! key = Some b →
  (∀ k i, k ≠ key → (k, i) ∈ c_flushing c → (k, i) ∈ fl) → coalescer_ok skew (dispatch c key b fl).
Proof.
  intros Hok Hb Hfl. pose proof (ok_bursts _ _ Hok key b Hb) as (Hne & _).
  assert ((length (b_reasons b) =? 0)%nat = false) as Hlen by (destruct (b_reasons b); [done|reflexivity]).
  unfold dispatch. rewrite Hlen. clear Hlen.
  split; simpl; [apply (ok_opts _ _ Hok)|by apply map_Forall_delete, (ok_bursts _ _ Hok)| | | |].
  - intros k b' [Hk Hb']%lookup_delete_Some. pose proof (ok_due _ _ Hok k b' Hb') as Hdue. revert Hdue.
    unfold flush_due. destruct (b_timer b'); [done|]. by apply Hfl.
  - intros Hs. rewrite (ok_stopped _ _ Hok Hs). apply delete_empty.
  - apply Forall_app. split; [apply (ok_calls _ _ Hok)|by repeat constructor].
  - intros Hs k. pose proof (ok_conserved _ _ Hok Hs k) as Hc. revert Hc.
    unfold pushed_to, called_with, pending; simpl. rewrite filter_snoc_eq, concat_app. destruct (decide (key = k)) as [<-|Hk].
    + rewrite lookup_delete_eq, Hb. simpl. by rewrite !app_nil_r.
    + rewrite lookup_delete_ne by done. simpl. by rewrite app_nil_r.
Qed.

(** A push adds its reason to the pending ones of its key. *)
Lemma put_ok skew c key reason b (old : option burst) next now : coalescer_ok skew c → c_stopped c = false →
  c_bursts c !! key = old → b_reasons b = from_option b_reasons [] old ++ [reason] → (b_id b < next)%N → (c_next c <= next)%N →
  c_clock c <= now → b_deadline b <= now + MaxLag (c_opts c) → flush_due skew (c_flushing c) key b →
  coalescer_ok skew {| c_opts := c_opts c; c_bursts := <[key := b]> (c_bursts c); c_stopped := false; c_next := next;
                       c_clock := now; c_flushing := c_flushing c; c_calls := c_calls c;
                       c_pushed := c_pushed c ++ [(key, reason)] |}.
Proof.
  intros Hok Hs Hold Hr Hid Hnext Hnow Hdl Hdue.
  split; simpl; [apply (ok_opts _ _ Hok)| | |done|apply (ok_calls _ _ Hok)|].
  - apply map_Forall_insert_2; [split; [rewrite Hr; by destruct (from_option _ _ _)|lia]|].
    intros k b' Hb'. pose proof (ok_bursts _ _ Hok k b' Hb') as (? & ? & ?). split; [done|lia].
  - apply map_Forall_insert_2; [done|apply (ok_due _ _ Hok)].
  - intros _ k. pose proof (ok_conserved _ _ Hok Hs k) as Hc. revert Hc.
    unfold pushed_to, called_with, pending; simpl. rewrite filter_snoc_eq. intros ->.
    destruct (decide (key = k)) as [<-|Hk].
    + rewrite lookup_insert_eq, Hold. simpl. by rewrite Hr, app_assoc.
    + by rewrite lookup_insert_ne, app_nil_r by done.
Qed.

Lemma evict_ok skew c key now : coalescer_ok skew c →
  let r := evict c key now in
  coalescer_ok skew r.1 ∧ c_bursts r.1 !! key = r.2 ∧ c_opts r.1 = c_opts c ∧ c_stopped r.1 = c_stopped c
  ∧ c_clock r.1 = c_clock c ∧ c_next r.1 = c_next c
  ∧ (∀ b, r.2 = Some b → c_bursts c !! key = Some b ∧ now < b_deadline b).
Proof.
  intros Hok. unfold evict. destruct (c_bursts c !! key) as [b|] eqn:Hb; simpl; [|by split_and!].
  destruct (Z.leb_spec (b_deadline b) now); simpl.
  - split_and!; try done; [by apply dispatch_ok|apply lookup_delete_eq].
  - split_and!; try done. intros ? [= <-]. done.
Qed.

Lemma Push_ok skew c key reason swap now until armed : coalescer_ok skew c →
  c_clock c <= now → now <= until → until <= armed → armed <= now + skew →
  coalescer_ok skew (Push c key reason swap now until armed).
Proof.
  intros Hok H1 H2 H3 H4. unfold Push. destruct (c_stopped c) eqn:Hs; [done|].
  pose proof (evict_ok skew c key now Hok) as He. destruct (evict c key now) as [c' found]. simpl in He.
  destruct He as (Hok' & Hf & Ho & Hs' & Hc & Hn & Hold). rewrite Hs in Hs'.
  pose proof (ok_opts _ _ Hok') as Hopts.
  apply (put_ok skew c' key reason _ found); try done; try lia.
  - by destruct found.
  - destruct found as [b|]; simpl; [|lia]. apply (ok_bursts _ _ Hok' key b Hf).
  - destruct found; lia.
  - destruct found as [b|]; simpl; [|lia]. pose proof (ok_bursts _ _ Hok' key b Hf) as (_ & _ & ?). lia.
  - destruct found as [b|]; unfold flush_due; simpl; unfold expiry.
    + destruct (Hold b eq_refl) as [_ Hnow]. pose proof (ok_due _ _ Hok' key b Hf) as Hdue. unfold flush_due in Hdue.
      destruct swap; simpl; [lia|]. destruct (b_swapSeen b); [done|]. destruct (_ <? _); simpl; [lia|done].
    + destruct swap; simpl; lia.
Qed.

Lemma time_ok skew c now : coalescer_ok skew c → c_clock c <= now → coalescer_ok skew (at_time c now (c_flushing c)).
Proof.
  intros Hok Hn. split; simpl; try apply Hok. intros k b Hb. pose proof (ok_bursts _ _ Hok k b Hb) as (? & ? & ?).
  split; [done|lia].
Qed.

Lemma expire_ok skew c key b t : coalescer_ok skew c → c_bursts c !! key = Some b → b_timer b = Some t →
  coalescer_ok skew (expire c key b).
Proof.
  intros Hok Hb Ht. pose proof (ok_bursts _ _ Hok key b Hb) as Hkey.
  split; simpl; [apply (ok_opts _ _ Hok)| | | |apply (ok_calls _ _ Hok)|].
  - apply map_Forall_insert_2; [done|apply (ok_bursts _ _ Hok)].
  - apply map_Forall_insert_2.
    + unfold flush_due; simpl. apply elem_of_app. right. by apply list_elem_of_singleton.
    + intros k b' Hb'. pose proof (ok_due _ _ Hok k b' Hb') as Hd. revert Hd. unfold flush_due.
      destruct (b_timer b'); [done|]. intros ?. apply elem_of_app. by left.
  - intros Hs. rewrite (ok_stopped _ _ Hok Hs) in Hb. by rewrite lookup_empty in Hb.
  - intros Hs k. pose proof (ok_conserved _ _ Hok Hs k) as Hc. revert Hc. unfold pushed_to, called_with, pending; simpl.
    destruct (decide (key = k)) as [<-|Hk]; [by rewrite lookup_insert_eq, Hb|by rewrite lookup_insert_ne by done].
Qed.

(** The callback of a timer dispatches its own burst, or does nothing. *)
Lemma flush_cases c key id fl : c_stopped c = false →
  let c' := flush (at_time c (c_clock c) fl) key id in
  c' = at_time c (c_clock c) fl ∧ (∀ b, c_bursts c !! key = Some b → b_id b ≠ id)
  ∨ ∃ b, c_bursts c !! key = Some b ∧ b_id b = id
         ∧ c' = dispatch c key b (match b_timer b with Some _ => fl ++ [(key, id)] | None => fl end).
Proof.
  intros Hs. unfold flush; simpl. rewrite Hs. destruct (c_bursts c !! key) as [b|] eqn:Hb; [|by left].
  destruct (decide (b_id b = id)) as [Hid|Hid].
  - right. exists b. rewrite bool_decide_true by done. by split_and!.
  - left. rewrite bool_decide_false by done. split; [done|]. by intros ? [= <-].
Qed.

Lemma flush_ok skew c key id before after : coalescer_ok skew c → c_flushing c = before ++ (key, id) :: after →
  coalescer_ok skew (flush (at_time c (c_clock c) (before ++ after)) key id).
Proof.
  intros Hok Hfl.
  assert (∀ k i, (k, i) ≠ (key, id) → (k, i) ∈ c_flushing c → (k, i) ∈ before ++ after) as Hkeep.
  { intros k i Hne. rewrite Hfl, !elem_of_app, elem_of_cons. naive_solver. }
  destruct (c_stopped c) eqn:Hs.
  - pose proof (ok_stopped _ _ Hok Hs) as He. unfold flush; simpl. rewrite He, lookup_empty.
    split; simpl; try apply Hok. rewrite He. apply map_Forall_empty.
  - destruct (flush_cases c key id (before ++ after) Hs) as [[-> Hother]|(b & Hb & Hid & ->)].
    + split; simpl; try apply Hok. intros k b Hb. pose proof (ok_due _ _ Hok k b Hb) as Hd. revert Hd. unfold flush_due.
      destruct (b_timer b); [done|]. apply Hkeep. intros [= -> Hi]. by apply (Hother b).
    + apply dispatch_ok; [done|done|]. intros k i Hk Hin. case_match; [apply elem_of_app; left|]; apply Hkeep; congruence.
Qed.

Lemma Stop_ok skew c : coalescer_ok skew c → coalescer_ok skew (Stop c).
Proof. intros Hok. split; simpl; try apply Hok; [apply map_Forall_empty|apply map_Forall_empty|done|done]. Qed.

Lemma step_ok skew c c' : coalescer_ok skew c → step skew c c' → coalescer_ok skew c'.
Proof.
  intros Hok [now Hn|key reason swap now until armed ? ? ? ?|key b t Hb Ht _|key id before after Hfl|].
  - by apply time_ok.
  - by apply Push_ok.
  - by eapply expire_ok.
  - by apply flush_ok.
  - by apply Stop_ok.
Qed.

Lemma steps_ok skew c c' : coalescer_ok skew c → steps skew c c' → coalescer_ok skew c'.
Proof. intros Hok Hs. induction Hs as [|c c1 c2 Hst _ IH]; [done|]. by apply IH, (step_ok skew c). Qed.

Lemma stopped_step skew c c' : c_stopped c = true → c_bursts c = ∅ → step skew c c' →
  c_stopped c' = true ∧ c_bursts c' = ∅ ∧ c_calls c' = c_calls c.
Proof.
  intros Hs He Hst. destruct Hst as [now Hn|key reason swap now until armed|key b t Hb|key id before after Hfl|]; simpl.
  - by split_and!.
  - unfold Push. rewrite Hs. by split_and!.
  - rewrite He, lookup_empty in Hb. done.
  - unfold flush; simpl. rewrite He, lookup_empty. by split_and!.
  - by split_and!.
Qed.

Lemma unique_from_spec seen l : NoDup (unique_from seen l) ∧ unique_from seen l `sublist_of` l
  ∧ ∀ s, s ∈ unique_from seen l ↔ s ∈ l ∧ s ∉ seen.
Proof.
  revert seen. induction l as [|s l IH]; intros seen; simpl.
  { split_and!; [constructor|constructor|]. intros s. set_solver. }
  destruct (decide (s ∈ seen)) as [Hs|Hs].
  - destruct (IH seen) as (? & ? & Hin). split_and!; [done|by constructor|]. intros t. rewrite Hin, elem_of_cons. naive_solver.
  - destruct (IH ({[s]} ∪ seen)) as (? & ? & Hin). split_and!; [|by constructor|].
    + constructor; [|done]. rewrite Hin. set_solver.
    + intros t. rewrite !elem_of_cons, Hin. destruct (decide (t = s)) as [->|]; set_solver.
Qed.

(** What [fn] receives: the reasons once each, in the order of their first occurrence. *)
Lemma joinUnique_spec l : ∃ u, joinUnique l = strings_Join u "," ∧ NoDup u ∧ u `sublist_of` l ∧ ∀ s, s ∈ u ↔ s ∈ l.
Proof.
  unfold joinUnique. destruct (Nat.leb_spec (length l) 1).
  - exists l. split_and!; [done| |done|done].
    destruct l as [|s [|]]; simpl in *; [constructor|apply NoDup_singleton|lia].
  - exists (unique_from ∅ l). destruct (unique_from_spec ∅ l) as (? & ? & Hin). split_and!; [done..|]. set_solver.
Qed.

(** What a step can do to a pending burst: keep it, possibly with more reasons
    and with the same deadline; dispatch it as it is; or drop it by [Stop]. *)
Lemma step_burst skew c c' key b : coalescer_ok skew c → c_bursts c !! key = Some b → step skew c c' →
  (∃ b', c_bursts c' !! key = Some b' ∧ b_id b' = b_id b ∧ b_deadline b' = b_deadline b
         ∧ b_reasons b `prefix_of` b_reasons b')
  ∨ c_calls c' = c_calls c ++ [(key, b_reasons b)] ∨ c_stopped c' = true.
Proof.
  intros Hok Hb Hst. pose proof (ok_bursts _ _ Hok key b Hb) as (Hne & _).
  assert (∀ fl, c_calls (dispatch c key b fl) = c_calls c ++ [(key, b_reasons b)]) as Hd.
  { intros fl. unfold dispatch; simpl. by destruct (b_reasons b). }
  assert (c_stopped c = false) as Hs.
  { destruct (c_stopped c) eqn:Hs; [|done]. rewrite (ok_stopped _ _ Hok Hs), lookup_empty in Hb. done. }
  destruct Hst as [now Hn|k reason swap now until armed|k b' t Hb' Ht|k id before after Hfl|]; simpl.
  - left. by exists b.
  - unfold Push. rewrite Hs. unfold evict. destruct (decide (k = key)) as [->|Hk].
    + rewrite Hb. destruct (_ <=? _); simpl.
      * right; left. by destruct (b_reasons b).
      * left. rewrite lookup_insert_eq. eexists. split; [done|]. simpl. split_and!; [done..|by apply prefix_app_r].
    + left. exists b. destruct (c_bursts c !! k) as [b'|]; [destruct (_ <=? _)|]; simpl;
        rewrite lookup_insert_ne, ?lookup_delete_ne by done; done.
  - left. destruct (decide (k = key)) as [->|Hk].
    + rewrite lookup_insert_eq. eexists; split; [done|]. simpl. simplify_eq. done.
    + exists b. by rewrite lookup_insert_ne.
  - destruct (flush_cases c k id (before ++ after) Hs) as [[-> _]|(b' & Hb' & Hid & ->)]; [left; by exists b|].
    destruct (decide (k = key)) as [->|Hk].
    + right; left. simplify_eq. apply Hd.
    + left. exists b. simpl. by rewrite lookup_delete_ne.
  - by right; right.
Qed.

(** The callback of a burst whose time has come can run, and dispatches it. *)
Lemma flush_runs skew c key b : coalescer_ok skew c → c_bursts c !! key = Some b → b_deadline b + skew <= c_clock c →
  ∃ c1 c2, (c1 = c ∨ step skew c c1) ∧ step skew c1 c2
    ∧ c_calls c2 = c_calls c ++ [(key, b_reasons b)] ∧ c_bursts c2 = delete key (c_bursts c).
Proof.
  intros Hok Hb Hclock. pose proof (ok_due _ _ Hok key b Hb) as Hdue. unfold flush_due in Hdue.
  pose proof (ok_bursts _ _ Hok key b Hb) as (Hne & _).
  assert (c_stopped c = false) as Hs.
  { destruct (c_stopped c) eqn:Hs; [|done]. rewrite (ok_stopped _ _ Hok Hs), lookup_empty in Hb. done. }
  destruct (b_timer b) as [t|] eqn:Ht.
  - exists (expire c key b). eexists. split; [right; eapply s_expire; [done|done|lia]|].
    split; [by apply (s_flush _ (expire c key b) key (b_id b) (c_flushing c) [])|].
    unfold flush; simpl. rewrite lookup_insert_eq; simpl. rewrite bool_decide_true, Hs by done; simpl.
    rewrite delete_insert_eq. split; [|done]. by destruct (b_reasons b).
  - apply list_elem_of_split in Hdue as (before & after & Hfl).
    exists c. eexists. split; [by left|]. split; [by apply (s_flush _ c key (b_id b) before after)|].
    unfold flush; simpl. rewrite Hb. rewrite bool_decide_true, Hs by done; simpl. split; [|done]. by destruct (b_reasons b).
Qed.

(** ** Correctness of the coalescer *)

(** C23: no event is lost, repeated or moved to another key. At any time the
    reasons pushed to a key are, in order, those that [fn] was called with for
    that key followed by those of the pending burst; no call is empty; a call
    names each of its reasons once, in the order of first occurrence; and after
    [Stop] nothing is pending and [fn] is never called again. *)
Theorem coalescer_conserves (o : Options) (start skew : Z) (c : coalescer) (Hsteps : steps skew (New o start) c) :
  (c_stopped c = false → ∀ key, pushed_to c key = called_with c key ++ pending c key)
  ∧ (∀ key reasons, (key, reasons) ∈ c_calls c → reasons ≠ [] ∧
       ∃ u, joinUnique reasons = strings_Join u "," ∧ NoDup u ∧ u `sublist_of` reasons ∧ ∀ r, r ∈ u ↔ r ∈ reasons)
  ∧ (c_stopped c = true → ∀ c', steps skew c c' → c_bursts c' = ∅ ∧ c_calls c' = c_calls c).
Proof.
  pose proof (steps_ok skew _ c (New_ok skew o start) Hsteps) as Hok. split_and!.
  - apply (ok_conserved _ _ Hok).
  - intros key reasons Hin. pose proof (ok_calls _ _ Hok) as Hcalls. rewrite Forall_forall in Hcalls.
    split; [by apply (Hcalls (key, reasons))|]. apply joinUnique_spec.
  - intros Hs c' Hs'. pose proof (ok_stopped _ _ Hok Hs) as He. clear Hok Hsteps.
    induction Hs' as [|c c1 c2 Hst _ IH]; [done|]. destruct (stopped_step skew c c1 Hs He Hst) as (H1 & H2 & H3).
    destruct (IH H1 H2) as [? ->]. by rewrite H3.
Qed.

(** An event waits at most [MaxLag]. The deadline of a pending burst is at
    most [MaxLag] ahead of the clock, and no step moves it, changes the burst's
    recorded reasons other than by adding to them, or removes the burst without
    calling [fn] on all of them, except for [Stop]; and once the deadline is past
    (by no more than the clock readings of one [Push] differ) the callback that
    dispatches the burst has started, or its timer expires now. *)
Theorem coalescer_bounded_lag (o : Options) (start skew : Z) (c : coalescer) (key : string) (b : burst)
    (Hsteps : steps skew (New o start) c) (Hb : c_bursts c !! key = Some b) :
  b_deadline b <= c_clock c + MaxLag (c_opts c)
  ∧ (∀ c', step skew c c' →
       (∃ b', c_bursts c' !! key = Some b' ∧ b_id b' = b_id b ∧ b_deadline b' = b_deadline b
              ∧ b_reasons b `prefix_of` b_reasons b')
       ∨ c_calls c' = c_calls c ++ [(key, b_reasons b)] ∨ c_stopped c' = true)
  ∧ (b_deadline b + skew <= c_clock c → ∃ c1 c2, (c1 = c ∨ step skew c c1) ∧ step skew c1 c2
       ∧ c_calls c2 = c_calls c ++ [(key, b_reasons b)] ∧ c_bursts c2 = delete key (c_bursts c)).
Proof.
  pose proof (steps_ok skew _ c (New_ok skew o start) Hsteps) as Hok. split_and!.
  - apply (ok_bursts _ _ Hok key b Hb).
  - intros c' Hst. by apply (step_burst skew c c' key b).
  - by apply flush_runs.
Qed.

(** ** Examples *)

(** Two events on one key, the second of them a swap. *)
Definition example_burst : coalescer :=
  Push (Push (New (Apply ProfileK8s) 0) "dir" "write" false 0 0 0) "dir" "swap" true 10 10 10.

Example example_burst_timer :
  b_timer <$> (c_bursts example_burst !! "dir") = Some (Some 5000010) ∧ joinUnique ["a"; "b"; "a"] = "a,b".
Proof. split; vm_compute; reflexivity. Qed.

Lemma example_burst_steps : steps 0 (New (Apply ProfileK8s) 0) example_burst.
Proof.
  eapply steps_cons; [apply (s_push 0 _ "dir" "write" false 0 0 0); simpl; lia|].
  eapply steps_cons; [apply (s_push 0 _ "dir" "swap" true 10 10 10); vm_compute; discriminate|]. apply steps_nil.
Qed.

Lemma coalescer_conserves_witness : pushed_to example_burst "dir" = ["write"; "swap"] ∧
  pushed_to example_burst "dir" = called_with example_burst "dir" ++ pending example_burst "dir".
Proof.
  destruct (coalescer_conserves (Apply ProfileK8s) 0 0 example_burst example_burst_steps) as (Hc & _ & _).
  split; [vm_compute; reflexivity|]. apply Hc. vm_compute. reflexivity.
Defined.

Lemma coalescer_bounded_lag_witness : ∃ b, c_bursts example_burst !! "dir" = Some b ∧ b_deadline b = 250000000 ∧
  b_deadline b <= c_clock example_burst + MaxLag (c_opts example_burst).
Proof.
  destruct (c_bursts example_burst !! "dir") as [b|] eqn:Hb; [|vm_compute in Hb; discriminate].
  destruct (coalescer_bounded_lag (Apply ProfileK8s) 0 0 example_burst "dir" b example_burst_steps Hb) as (Hd & _ & _).
  exists b. split; [reflexivity|]. split; [|exact Hd]. vm_compute in Hb. injection Hb as <-. reflexivity.
Defined.
