(* ===== verification/Migration.v ===== *)
(** * Schema migrations (transform/migration.go)

    A chain of migrations between schema versions, the version stored in a
    configuration tree, and the loop that upgrades a tree to the chain's target.
    A migration's function is an argument: it may change the tree also when it
    fails. *)
From S2P Require Import Prelude GoStrings Value.
From Stdlib Require Import SpecFloat.
Open Scope Z_scope.

Record Migration := {
  From : Z;
  To : Z;
  Apply : option (gmap string value → gmap string value * option string);
}.

Record Chain := { target : Z; byFrom : gmap Z Migration }.

Inductive chain_error := ErrNilApply (i : nat) | ErrNotIncreasing (from to : Z) | ErrDuplicate (from : Z).

(** ** [NewChain] *)

Definition from_leb (a b : Migration) : bool := From a <=? From b.

Fixpoint chain_loop (i : nat) (byFrom : gmap Z Migration) (l : list Migration) : result chain_error (gmap Z Migration) :=
  match l with
  | [] => Ok byFrom
  | m :: l =>
      match Apply m with
      | None => Err (ErrNilApply i)
      | Some _ =>
          if To m <=? From m then Err (ErrNotIncreasing (From m) (To m))
          else match byFrom !! From m with
               | Some _ => Err (ErrDuplicate (From m))
               | None => chain_loop (S i) (<[From m := m]> byFrom) l
               end
      end
  end.

Definition NewChain (target : Z) (migrations : list Migration) : result chain_error Chain :=
  byFrom ← chain_loop 0 ∅ (sort_stable from_leb migrations); Ok {| target := target; byFrom := byFrom |}.

(** ** The version of a tree *)

Definition MetaKey : string := "_meta".
Definition FieldKey : string := "schemaVersion".
Definition MaxInt64 : Z := 2 ^ 63 - 1.

(** [int64(v)] of a float without a fraction in the range of an int64. *)
Definition float_version (f : spec_float) : option Z :=
  let chk n := if (- 2 ^ 63 <=? n) && (n <? 2 ^ 63) then Some n else None in
  match f with
  | S754_zero _ => Some 0
  | S754_finite s m e =>
      let signed n := if s : bool then - n else n in
      if 0 <=? e then chk (signed (Z.pos m * 2 ^ e))
      else if Z.pos m mod 2 ^ (- e) =? 0 then chk (signed (Z.pos m / 2 ^ (- e))) else None
  | _ => None
  end.

Definition version_of (raw : value) : Z :=
  match raw with
  | VInt KInt n => n
  | VInt _ n => if MaxInt64 <? n then 0 else n
  | VFloat _ f => default 0 (float_version f)
  | VNumber lit => default 0 (ParseInt lit 64)
  | VString s => default 0 (ParseInt (TrimSpace s) 64)
  | _ => 0
  end.

Definition CurrentVersion (m : gmap string value) : Z :=
  match m !! MetaKey ≫= as_map with
  | Some (Some meta) => from_option version_of 0 (meta !! FieldKey)
  | _ => 0
  end.

(** [None] is the panic of a write to a nil map. *)
Definition SetVersion (m : gmap string value) (v : Z) : option (gmap string value) :=
  match m !! MetaKey ≫= as_map with
  | Some (Some meta) => Some (<[MetaKey := VMap (<[FieldKey := VInt KInt v]> meta)]> m)
  | Some None => None
  | None => Some (<[MetaKey := VMap {[FieldKey := VInt KInt v]}]> m)
  end.

(** ** [Run] *)

Inductive run_error :=
| ErrNilChain
| ErrNoMigration (v : Z)
| ErrApply (from to : Z) (e : string)
| PanicNilMap
| OutOfFuel.

Fixpoint run_loop (c : Chain) (fuel : nat) (m : gmap string value) (cur : Z) : gmap string value * Z * option run_error :=
  if cur <? target c then
    match fuel with
    | O => (m, cur, Some OutOfFuel)
    | S fuel =>
        match byFrom c !! cur with
        | None => (m, cur, Some (ErrNoMigration cur))
        | Some mig =>
            match Apply mig with
            | None => (m, cur, Some PanicNilMap)
            | Some f =>
                match f m with
                | (m, Some e) => (m, cur, Some (ErrApply (From mig) (To mig) e))
                | (m, None) => run_loop c fuel m (To mig)
                end
            end
        end
    end
  else match SetVersion m cur with
       | Some m => (m, cur, None)
       | None => (m, cur, Some PanicNilMap)
       end.

Definition Run (c : option Chain) (m : gmap string value) : gmap string value * Z * option run_error :=
  match c with
  | None => (m, 0, Some ErrNilChain)
  | Some c =>
      let cur := CurrentVersion m in
      if target c <=? cur then (m, cur, None) else run_loop c (Z.to_nat (target c - cur)) m cur
  end.

(** ** Lemmas *)

Definition chain_wf (c : Chain) : Prop :=
  map_Forall (λ from mig, From mig = from ∧ from < To mig ∧ is_Some (Apply mig)) (byFrom c).

Definition sound (mig : Migration) : Prop := is_Some (Apply mig) ∧ From mig < To mig.

Lemma chain_loop_Ok i acc l r :
  chain_loop i acc l = Ok r ↔
  Forall sound l ∧ NoDup (From <$> l) ∧ (∀ mig, mig ∈ l → acc !! From mig = None)
  ∧ r = list_to_map ((λ mig, (From mig, mig)) <$> l) ∪ acc.
Proof.
  revert i acc. induction l as [|m l IH]; intros i acc; simpl.
  { rewrite (left_id_L ∅ (∪)). split; [intros [= <-]|intros (_ & _ & _ & ->); done].
    split_and!; [by constructor|constructor| |done]. intros mig Hm. by apply not_elem_of_nil in Hm. }
  rewrite Forall_cons, NoDup_cons. unfold sound at 1. destruct (Apply m) as [f|]; [|split; [done|intros [[[[? ?] _] _] _]; done]].
  destruct (Z.leb_spec (To m) (From m)); [split; [done|intros [[[_ ?] _] _]; lia]|].
  destruct (acc !! From m) eqn:Hacc.
  { split; [done|]. intros (_ & _ & Hn & _). rewrite (Hn m) in Hacc by constructor. done. }
  rewrite IH. split.
  - intros (Hs & Hnd & Hn & ->). split_and!; [done..|done| |done| |].
    + rewrite list_elem_of_fmap. intros (mig & Hf & Hin). pose proof (Hn mig Hin) as He. rewrite <-Hf, lookup_insert_eq in He. done.
    + intros mig [->|Hin]%elem_of_cons; [done|]. pose proof (Hn mig Hin) as He. by apply lookup_insert_None in He as [? _].
    + rewrite <-insert_union_l. rewrite insert_union_r; [done|].
      apply not_elem_of_list_to_map_1. rewrite <-list_fmap_compose. rewrite list_elem_of_fmap. intros (mig & Hf & Hin). simpl in Hf.
      pose proof (Hn mig Hin) as He. rewrite <-Hf, lookup_insert_eq in He. done.
  - intros ([_ Hs] & [Hnin Hnd] & Hn & ->). split_and!; [done..| |].
    + intros mig Hin. rewrite lookup_insert_ne; [apply Hn; by constructor|].
      intros Hf. apply Hnin. rewrite Hf. by apply list_elem_of_fmap_2.
    + rewrite <-insert_union_l. rewrite insert_union_r; [done|].
      apply not_elem_of_list_to_map_1. rewrite <-list_fmap_compose. done.
Qed.

Lemma CurrentVersion_SetVersion m m' v : SetVersion m v = Some m' →
  CurrentVersion m' = v ∧ ∀ k, k ≠ MetaKey → m' !! k = m !! k.
Proof.
  unfold SetVersion, CurrentVersion. destruct (m !! MetaKey ≫= as_map) as [[meta|]|]; intros [= <-].
  - split; [|intros k Hk; by rewrite lookup_insert_ne]. rewrite lookup_insert_eq; simpl. by rewrite lookup_insert_eq.
  - split; [|intros k Hk; by rewrite lookup_insert_ne]. rewrite lookup_insert_eq; simpl. by rewrite lookup_singleton_eq.
Qed.

(** [m] at version [v] becomes [m'] at version [v'] by the migrations of the
    chain, each applied below the target. *)
Inductive upgrades (c : Chain) : gmap string value → Z → gmap string value → Z → Prop :=
| up_done m v : upgrades c m v m v
| up_step m v mig f m1 m' v' :
    v < target c → byFrom c !! v = Some mig → Apply mig = Some f → f m = (m1, None) →
    upgrades c m1 (To mig) m' v' → upgrades c m v m' v'.

Definition run_outcome (c : Chain) (m1 : gmap string value) (r : gmap string value * Z * option run_error) : Prop :=
  let '(m', v, e) := r in
  match e with
  | None => target c ≤ v ∧ SetVersion m1 v = Some m' ∧ CurrentVersion m' = v ∧ (∀ k, k ≠ MetaKey → m' !! k = m1 !! k)
  | Some (ErrNoMigration v') => v' = v ∧ v < target c ∧ byFrom c !! v = None ∧ m' = m1
  | Some (ErrApply from to e) => from = v ∧ v < target c ∧
      ∃ mig f, byFrom c !! v = Some mig ∧ to = To mig ∧ Apply mig = Some f ∧ f m1 = (m', Some e)
  | Some PanicNilMap => target c ≤ v ∧ m1 !! MetaKey = Some VNilMap
  | _ => False
  end.

Lemma run_loop_spec c fuel m cur : chain_wf c → target c - cur <= Z.of_nat fuel →
  ∃ m1, upgrades c m cur m1 (run_loop c fuel m cur).1.2 ∧ run_outcome c m1 (run_loop c fuel m cur).
Proof.
  intros Hwf. revert m cur. induction fuel as [|fuel IH]; intros m cur Hfuel; simpl;
    (destruct (Z.ltb_spec cur (target c)); [|exists m; destruct (SetVersion m cur) as [m'|] eqn:Hset; simpl]).
  1: lia.
  1, 4: split; [constructor|]; destruct (CurrentVersion_SetVersion _ _ _ Hset); by split_and!.
  1, 3: split; [constructor|]; split; [done|]; unfold SetVersion in Hset; destruct (m !! MetaKey) as [[]|]; done.
  destruct (byFrom c !! cur) as [mig|] eqn:Hmig; [|exists m; split; [constructor|by split_and!]].
  destruct (Hwf cur mig Hmig) as (Hfrom & Hto & [f Hf]). rewrite Hf. destruct (f m) as [m1 [e|]] eqn:Hfm.
  - exists m. split; [constructor|]. simpl. split_and!; [done..|]. by exists mig, f.
  - destruct (IH m1 (To mig)) as (m2 & Hup & Hout); [lia|]. exists m2. split; [by eapply up_step|done].
Qed.

Lemma NewChain_Ok t ms c : NewChain t ms = Ok c ↔
  Forall sound ms ∧ NoDup (From <$> ms) ∧
  c = {| target := t; byFrom := list_to_map ((λ mig, (From mig, mig)) <$> sort_stable from_leb ms) |}.
Proof.
  unfold NewChain. rewrite bind_Ok.
  assert (sort_stable from_leb ms ≡ₚ ms) as Hp by apply sort_stable_perm.
  assert (Forall sound (sort_stable from_leb ms) ↔ Forall sound ms) as Hs by (by rewrite Hp).
  assert (NoDup (From <$> sort_stable from_leb ms) ↔ NoDup (From <$> ms)) as Hn by (by rewrite Hp).
  split.
  - intros (r & Hr & [= <-]). apply chain_loop_Ok in Hr as (? & ? & _ & ->).
    split_and!; [by apply Hs|by apply Hn|]. by rewrite (right_id_L ∅ (∪)).
  - intros (? & ? & ->). eexists. rewrite chain_loop_Ok. split; [|done]. split_and!; [by apply Hs|by apply Hn|done|].
    by rewrite (right_id_L ∅ (∪)).
Qed.

Lemma byFrom_spec t ms c v mig : NewChain t ms = Ok c → byFrom c !! v = Some mig ↔ mig ∈ ms ∧ From mig = v.
Proof.
  intros (_ & Hn & ->)%NewChain_Ok; simpl.
  assert (sort_stable from_leb ms ≡ₚ ms) as Hp by apply sort_stable_perm.
  rewrite <-elem_of_list_to_map.
  - rewrite list_elem_of_fmap. split; [intros (mig' & [= -> ->] & Hin); by rewrite Hp in Hin|].
    intros [Hin <-]. exists mig. by rewrite Hp.
  - rewrite <-list_fmap_compose. by rewrite Hp.
Qed.

Lemma NewChain_wf t ms c : NewChain t ms = Ok c → chain_wf c.
Proof.
  intros Hc v mig Hm. apply (byFrom_spec _ _ _ _ _ Hc) in Hm as [Hin <-].
  apply NewChain_Ok in Hc as (Hs & _). rewrite Forall_forall in Hs. by destruct (Hs mig Hin).
Qed.

(** ** Correctness of migrations *)

(** [NewChain] accepts exactly the migrations that have a function, raise
    the version and start from different versions, in any order; the chain finds
    each of them, and no other, under the version it starts from. *)
Theorem new_chain_accepts (t : Z) (ms : list Migration) :
  (is_Ok (NewChain t ms) = true ↔ Forall sound ms ∧ NoDup (From <$> ms))
  ∧ ∀ c, NewChain t ms = Ok c → target c = t ∧ ∀ v mig, byFrom c !! v = Some mig ↔ mig ∈ ms ∧ From mig = v.
Proof.
  split.
  - rewrite is_Ok_true. split; [intros [c (? & ? & _)%NewChain_Ok]; done|].
    intros [? ?]. eexists. by apply NewChain_Ok.
  - intros c Hc. split; [by apply NewChain_Ok in Hc as (_ & _ & ->)|]. intros v mig. by apply (byFrom_spec t ms).
Qed.

(** A run upgrades a tree along the chain and always ends. A tree at or
    above the target is left alone; any other is taken from version to version by
    the migrations of the chain, each applied below the target; on success the
    version reached is returned, is at least the target, and is the one that the
    tree now carries, the rest of the tree being what the last migration left;
    on failure the error names the version without a migration, or the migration
    that failed, and nothing was applied after it; the loop's bound, the distance
    to the target, is never exhausted. *)
Theorem chain_upgrades (t : Z) (ms : list Migration) (c : Chain) (m : gmap string value) (Hc : NewChain t ms = Ok c) :
  (t <= CurrentVersion m → Run (Some c) m = (m, CurrentVersion m, None))
  ∧ (CurrentVersion m < t →
       ∃ m1, upgrades c m (CurrentVersion m) m1 (Run (Some c) m).1.2 ∧ run_outcome c m1 (Run (Some c) m)).
Proof.
  assert (target c = t) as Ht by (by apply NewChain_Ok in Hc as (_ & _ & ->)).
  unfold Run. rewrite Ht. split; intros Hv; (destruct (Z.leb_spec t (CurrentVersion m)); [|try lia]); [done|lia|].
  apply run_loop_spec; [by eapply NewChain_wf|lia].
Qed.

(** ** Examples *)

Definition rename (from to : string) : gmap string value → gmap string value * option string := λ m,
  (match m !! from with Some v => <[to := v]> (delete from m) | None => m end, None).

Definition example_migrations : list Migration :=
  [{| From := 1; To := 2; Apply := Some (rename "b" "c") |}; {| From := 0; To := 1; Apply := Some (rename "a" "b") |}].

Definition example_chain : Chain :=
  {| target := 2; byFrom := list_to_map ((λ mig, (From mig, mig)) <$> sort_stable from_leb example_migrations) |}.

Definition example_tree : gmap string value := {["a" := VString "x"]}.

Example example_run : Run (Some example_chain) example_tree
  = (<["c" := VString "x"]> {[MetaKey := VMap {[FieldKey := VInt KInt 2]}]}, 2, None).
Proof. vm_compute. reflexivity. Qed.

(** The target does not bound the version that a migration jumps to. *)
Example example_overshoot :
  (Run (Some {| target := 2; byFrom := {[0 := {| From := 0; To := 5; Apply := Some (λ m, (m, None)) |}]} |}) ∅).1.2 = 5.
Proof. vm_compute. reflexivity. Qed.

Example example_versions :
  version_of (VFloat KFloat64 (S754_finite false 3 0)) = 3 ∧ version_of (VFloat KFloat64 (S754_finite false 3 (-1))) = 0
  ∧ version_of (VString " 3 ") = 3 ∧ version_of (VNumber "99999999999999999999") = 0 ∧ version_of (VInt KUint64 (2 ^ 64 - 1)) = 0.
Proof. vm_compute. repeat split. Qed.

Lemma chain_upgrades_witness : NewChain 2 example_migrations = Ok example_chain ∧
  ∃ m1, upgrades example_chain example_tree 0 m1 2 ∧ run_outcome example_chain m1 (Run (Some example_chain) example_tree).
Proof.
  assert (NewChain 2 example_migrations = Ok example_chain) as Hc by (vm_compute; reflexivity).
  split; [exact Hc|]. destruct (chain_upgrades 2 example_migrations example_chain example_tree Hc) as [_ Hrun].
  destruct (Hrun ltac:(vm_compute; reflexivity)) as (m1 & Hup & Hout). exists m1. rewrite example_run in Hup |- *.
  rewrite example_run in Hout. split; [exact Hup|exact Hout].
Defined.
