(* ===== verification/Transform.v ===== *)
(** * Built-in transforms (transform/transform.go, transform/envsubst.go)

    Functions that change the merged tree before it is decoded: renaming and
    deleting paths, capturing raw JSON, and substituting [${VAR}] references. *)
From S2P Require Import Prelude GoStrings Value Path Secret.
From Stdlib Require Import Ascii.
Open Scope nat_scope.

(** ** Aliases and deletions *)

(** One entry of the mapping.  The entries are ranged over in any order. *)
Definition alias_step (root : gomap) (entry : string * string) : gomap :=
  let '(from, to) := entry in
  match GetDotted root from with
  | None => root
  | Some v =>
      let root := match GetDotted root to with Some _ => root | None => SetDotted root to v end in
      DeleteDotted root from
  end.

Definition Aliases (mapping : list (string * string)) (root : gomap) : gomap := foldl alias_step root mapping.

Definition DeletePaths (paths : list string) (root : gomap) : gomap := foldl DeleteDotted root paths.

(** ** Raw captures *)

Record RawCapture := { rc_paths : list string; rc_values : gmap string string }.

Definition CaptureRaw (paths : list string) : RawCapture := {| rc_paths := paths; rc_values := ∅ |}.

Section capture.
(** [json.Marshal]. *)
Context (marshal : value → result string string).

Definition capture_step (root : gomap) (acc : gmap string string) (p : string) : result (string * string) (gmap string string) :=
  match GetDotted root p with
  | None => Ok acc
  | Some v => match marshal v with Err e => Err (p, e) | Ok b => Ok (<[p := b]> acc) end
  end.

Definition RawCapture_Transform (r : RawCapture) (root : gomap) : RawCapture * option (string * string) :=
  match foldM (capture_step root) ∅ (rc_paths r) with
  | Err e => (r, Some e)
  | Ok values => ({| rc_paths := rc_paths r; rc_values := values |}, None)
  end.
End capture.

Definition RawCapture_Get (r : RawCapture) (path : string) : option string := rc_values r !! path.
Definition RawCapture_All (r : RawCapture) : gmap string string := rc_values r.

(** ** References to variables *)

Definition name_start (c : ascii) : bool := is_upper c || is_lower c || Ascii.eqb c "_".
Definition name_char (c : ascii) : bool := name_start c || is_digit c.

(** The longest prefix of bytes that satisfy [p], and the rest. *)
Fixpoint span (p : ascii → bool) (s : string) : string * string :=
  match s with
  | String c t => if p c then let '(a, b) := span p t in (String c a, b) else ("", s)
  | "" => ("", "")
  end.

Inductive ref_op := Bare | Default (body : string) | Required (body : string).

(** [envPattern] at the start of a string: the reference and what follows it.
    Each repetition of the pattern ends at a byte that it cannot match, so that
    the match takes no backtracking. *)
Definition ref_at (s : string) : option (string * ref_op * string) :=
  match s with
  | String "$" (String "{" (String c t)) =>
      if name_start c then
        let '(name, t) := span name_char t in
        let name := String c name in
        match t with
        | String "}" rest => Some (name, Bare, rest)
        | String ":" (String o t) =>
            let op := if Ascii.eqb o "-" then Some Default else if Ascii.eqb o "?" then Some Required else None in
            match op, span (λ c, negb (Ascii.eqb c "}")) t with
            | Some op, (body, String "}" rest) => Some (name, op body, rest)
            | _, _ => None
            end
        | _ => None
        end
      else None
  | _ => None
  end.

Section envsubst.
Context (lookup : string → string).

(** The variable and the message of an [errRequired]. *)
Notation required := (option (string * string)).

Definition ref_value (name : string) (op : ref_op) (firstErr : required) : required * string :=
  let v := lookup name in
  match op with
  | Required body =>
      (if String.eqb v "" then
         match firstErr with
         | None => Some (name, if String.eqb body "" then "variable is required" else body)
         | Some e => Some e
         end
       else firstErr, v)
  | Default body => (firstErr, if String.eqb v "" then body else v)
  | Bare => (firstErr, v)
  end.

(** [ReplaceAllStringFunc]; [skip] counts the bytes of a match left to pass. *)
Fixpoint replace_refs (skip : nat) (s : string) (firstErr : required) : required * string :=
  match s with
  | "" => (firstErr, "")
  | String c t =>
      match skip with
      | S skip => replace_refs skip t firstErr
      | O =>
          match ref_at s with
          | Some (name, op, rest) =>
              let '(firstErr, v) := ref_value name op firstErr in
              let '(firstErr, out) := replace_refs (String.length t - String.length rest) t firstErr in
              (firstErr, v +:+ out)
          | None => let '(firstErr, out) := replace_refs 0 t firstErr in (firstErr, String c out)
          end
      end
  end.

Fixpoint walkStrings {St} (fn : string → St → St * string) (node : value) (st : St) : St * value :=
  match node with
  | VMap m => let '(st, m) := map_rebuild_st (λ _ v st, walkStrings fn v st) m st in (st, VMap m)
  | VSlice l => let '(st, l) := list_rebuild_st (λ _ v st, walkStrings fn v st) 0 l st in (st, VSlice l)
  | VString s => let '(st, s) := fn s st in (st, VString s)
  | _ => (st, node)
  end.

Definition EnvSubstWith (root : value) : required * value := walkStrings (replace_refs 0) root None.
End envsubst.

Example ref_at_default : ref_at "${DSN:-a://b}!" = Some ("DSN", Default "a://b", "!").
Proof. reflexivity. Qed.

Example replace_nested : replace_refs (λ n, if String.eqb n "A" then "1" else "") 0 "$2b ${A}${B:-x${C}} ${9}" None
  = (None, "$2b 1x${C} ${9}").
Proof. vm_compute. reflexivity. Qed.

(** ** Lemmas: references in a string *)

Definition print_ref (name : string) (op : ref_op) : string :=
  "${" +:+ name +:+ match op with Bare => "" | Default b => ":-" +:+ b | Required b => ":?" +:+ b end +:+ "}".

Definition name_ok (name : string) : bool :=
  match name with String c t => name_start c && str_forallb name_char t | "" => false end.

Definition op_ok (op : ref_op) : bool := match op with Bare => true | Default b | Required b => no_byte "}" b end.

(** No reference starts in the string. *)
Fixpoint plain (s : string) : bool :=
  match s with "" => true | String c t => negb (HasPrefix s "${") && plain t end.

Lemma span_app p a b : str_forallb p a = true → head_not p b = true → span p (a +:+ b) = (a, b).
Proof.
  induction a as [|c a IH]; simpl; intros Ha Hb.
  - destruct b as [|c b]; [done|]. simpl in *. by apply negb_true_iff in Hb as ->.
  - apply andb_true_iff in Ha as [-> Ha]. by rewrite IH.
Qed.

Lemma ref_at_prefix s r : ref_at s = Some r → HasPrefix s "${" = true.
Proof.
  unfold ref_at, HasPrefix. intros Hr. repeat (case_match; try done).
Qed.

Lemma ref_at_print name op rest : name_ok name = true → op_ok op = true →
  ref_at (print_ref name op +:+ rest) = Some (name, op, rest).
Proof.
  intros Hn Ho. destruct name as [|c t]; [done|]. simpl in Hn. apply andb_true_iff in Hn as [Hc Ht].
  unfold print_ref. rewrite !app_str_assoc. simpl. rewrite Hc.
  rewrite span_app; [|done|by destruct op]. destruct op as [|b|b]; simpl; [done| |];
    rewrite span_app; done.
Qed.

Section replace_facts.
Context (lookup : string → string).
Notation replace := (replace_refs lookup).

Lemma replace_skip k s err : replace k s err = replace 0 (str_drop k s) err.
Proof. revert k. induction s as [|c s IH]; intros [|k]; try done. apply IH. Qed.

(** A recorded error is kept, and the text does not depend on it. *)
Lemma replace_state k s err : replace k s err =
  (match err with Some e => Some e | None => (replace k s None).1 end, (replace k s None).2).
Proof.
  revert k err. induction s as [|c s IH]; intros k err; [by destruct err|]. cbn [replace_refs].
  destruct k as [|k]; [|apply IH]. destruct (ref_at (String c s)) as [[[name op] rest]|].
  - set (k := _ - _). destruct (ref_value lookup name op err) as [e1 v] eqn:H1, (ref_value lookup name op None) as [e0 v0] eqn:H0.
    rewrite (IH k e1), (IH k e0). simpl. revert H1 H0. unfold ref_value.
    destruct op, err as [e|]; repeat case_match; intros; simplify_eq; done.
  - rewrite IH. simpl. by rewrite (surjective_pairing (replace 0 s None)).
Qed.

Lemma prefix_two a b t : HasPrefix (String a (String b t)) (String a (String b "")) = true.
Proof. apply (prefix_app (String a (String b "")) t). Qed.

Lemma replace_plain lit rest err : plain lit = true → HasPrefix rest "{" = false →
  replace 0 (lit +:+ rest) err = ((replace 0 rest err).1, lit +:+ (replace 0 rest err).2).
Proof.
  intros Hl Hr. induction lit as [|c t IH]; [apply surjective_pairing|].
  cbn [plain] in Hl. apply andb_true_iff in Hl as [Hp Hl]. rewrite negb_true_iff in Hp.
  change ((String c t) +:+ rest) with (String c (t +:+ rest)). cbn [replace_refs].
  assert (ref_at (String c (t +:+ rest)) = None) as ->; [|by rewrite IH].
  destruct (ref_at _) as [r|] eqn:Href; [|done]. apply ref_at_prefix in Href.
  apply prefix_inv in Href. set (z := str_drop _ _) in Href. clearbody z. rename Href into Hz. simpl in Hz. injection Hz as -> Hz. destruct t as [|d t].
  - destruct rest as [|d rest]; [done|]. simpl in Hz. injection Hz as -> _. unfold HasPrefix in Hr. simpl in Hr. by destruct rest.
  - injection Hz as -> _. by rewrite prefix_two in Hp.
Qed.

Lemma replace_ref name op rest err : name_ok name = true → op_ok op = true →
  replace 0 (print_ref name op +:+ rest) err =
    ((replace 0 rest (ref_value lookup name op err).1).1,
     (ref_value lookup name op err).2 +:+ (replace 0 rest (ref_value lookup name op err).1).2).
Proof.
  intros Hn Ho. pose proof (ref_at_print name op rest Hn Ho) as Href.
  remember (print_ref name op) as p eqn:Hp. destruct p as [|c t]; [by destruct name|].
  change ((String c t) +:+ rest) with (String c (t +:+ rest)) in *. cbn [replace_refs]. rewrite Href.
  rewrite length_app_str, Nat.add_sub. destruct (ref_value lookup name op err) as [e v].
  rewrite replace_skip, str_drop_app. simpl. by destruct (replace 0 rest e).
Qed.
End replace_facts.

(** A text with references: each literal piece with the reference after it,
    then the rest. *)
Notation template := (list (string * (string * ref_op))).

Definition template_ok (parts : template) (tail : string) : bool :=
  forallb (λ '(lit, (name, op)), plain lit && name_ok name && op_ok op) parts && plain tail.

Definition print_template (parts : template) (tail : string) : string :=
  foldr (λ '(lit, (name, op)) s, lit +:+ (print_ref name op +:+ s)) tail parts.

Section template_meaning.
Context (lookup : string → string).

Definition ref_text (name : string) (op : ref_op) : string :=
  match op with Default b => if String.eqb (lookup name) "" then b else lookup name | _ => lookup name end.

Definition ref_missing (name : string) (op : ref_op) : option (string * string) :=
  match op with
  | Required b => if String.eqb (lookup name) "" then Some (name, if String.eqb b "" then "variable is required" else b) else None
  | _ => None
  end.

Definition render (parts : template) (tail : string) : string :=
  foldr (λ '(lit, (name, op)) s, lit +:+ (ref_text name op +:+ s)) tail parts.

Definition first_missing (parts : template) : option (string * string) :=
  head (omap (λ '(_, (name, op)), ref_missing name op) parts).

Lemma replace_print parts tail err : template_ok parts tail = true →
  replace_refs lookup 0 (print_template parts tail) err
  = (match err with Some e => Some e | None => first_missing parts end, render parts tail).
Proof.
  unfold template_ok. rewrite andb_true_iff. intros [Hp Ht]. revert err.
  induction parts as [|[lit [name op]] parts IH]; intros err.
  - unfold print_template, render; cbn [foldr]. pose proof (replace_plain lookup tail "" err Ht eq_refl) as Hr. rewrite app_str_nil_r in Hr. rewrite Hr.
    simpl. rewrite app_str_nil_r. by destruct err.
  - cbn [forallb] in Hp. rewrite !andb_true_iff in Hp. destruct Hp as [[[Hl Hn] Ho] Hp].
    unfold print_template; cbn [foldr]. rewrite replace_plain; [|done|by destruct name].
    fold (print_template parts tail). rewrite replace_ref by done. rewrite !(IH Hp). simpl. f_equal.
    + unfold ref_value, first_missing, ref_missing. simpl.
      destruct op, err as [[]|]; simpl; try done; by destruct (String.eqb (lookup name) "").
    + f_equal. f_equal. unfold ref_value, ref_text. by destruct op.
Qed.
End template_meaning.

(** ** Lemmas: references in a tree *)

Inductive has_string (s : string) : value → Prop :=
| hs_leaf : has_string s (VString s)
| hs_map m k v : m !! k = Some v → has_string s v → has_string s (VMap m)
| hs_slice l v : v ∈ l → has_string s v → has_string s (VSlice l).

(** The tree with every string replaced. *)
Fixpoint map_strings (f : string → string) (v : value) : value :=
  match v with
  | VMap m => VMap (map_strings f <$> m)
  | VSlice l => VSlice (map_strings f <$> l)
  | VString s => VString (f s)
  | _ => v
  end.

Section walk_strings.
Context {E : Type} (fn : string → option E → option E * string) (miss : string → option E) (f : string → string).
Hypothesis fn_spec : ∀ s st, fn s st = (match st with Some e => Some e | None => miss s end, f s).

(** The first error among the strings visited so far. *)
Definition walked (st st' : option E) (P : string → Prop) : Prop :=
  match st with
  | Some e => st' = Some e
  | None => match st' with Some e => ∃ s, P s ∧ miss s = Some e | None => ∀ s, P s → miss s = None end
  end.

Lemma walked_trans st1 st2 st3 (P Q R : string → Prop) :
  walked st1 st2 P → walked st2 st3 Q → (∀ s, R s ↔ P s ∨ Q s) → walked st1 st3 R.
Proof.
  unfold walked. intros H1 H2 HR. destruct st1 as [e|]; [by simplify_eq|]. destruct st2 as [e|].
  - simplify_eq. destruct H1 as (s & ? & ?). exists s. split; [apply HR; by left|done].
  - destruct st3 as [e|].
    + destruct H2 as (s & ? & ?). exists s. split; [apply HR; by right|done].
    + intros s [?|?]%HR; auto.
Qed.

Lemma walkStrings_spec v st :
  (walkStrings fn v st).2 = map_strings f v ∧ walked st (walkStrings fn v st).1 (λ s, has_string s v).
Proof using fn_spec.
  revert st. induction v as [m IH|l IH|v Hm Hs] using value_tree_ind; intros st.
  - cbn [walkStrings map_strings].
    pose proof (map_rebuild_st_ind (λ st' done acc, acc = map_strings f <$> done
      ∧ walked st st' (λ s, has_string s (VMap done))) (λ _ v st, walkStrings fn v st) m st) as Hind.
    destruct (map_rebuild_st _ m st) as [st' m']. simpl in Hind |- *.
    destruct Hind as [-> Hw]; [| |done].
    + split; [by rewrite fmap_empty|]. destruct st; simpl; [done|]. intros s Hs. inversion Hs as [|? k v Hk|]. by rewrite lookup_empty in Hk.
    + intros k v done_ acc st1 Hk Hnone Hsub [-> Hw]. destruct (IH k v Hk st1) as [-> Hv]. split; [by rewrite fmap_insert|].
      eapply walked_trans; [exact Hw|exact Hv|]. intros s. split.
      * intros Hs. inversion Hs as [|? j w Hj Hw'|]; subst. apply lookup_insert_Some in Hj as [[-> ->]|[? Hj]]; [by right|left].
        by eapply hs_map.
      * intros [Hs|Hs]; [|eapply hs_map; [apply lookup_insert_eq|done]].
        inversion Hs as [|? j w Hj Hw'|]; subst. eapply hs_map; [|done]. rewrite lookup_insert_ne; [done|congruence].
  - cbn [walkStrings map_strings].
    assert (∀ l i st, Forall (λ v, ∀ st, (walkStrings fn v st).2 = map_strings f v
      ∧ walked st (walkStrings fn v st).1 (λ s, has_string s v)) l →
      let r := list_rebuild_st (λ _ v st, walkStrings fn v st) i l st in
      r.2 = map_strings f <$> l ∧ walked st r.1 (λ s, has_string s (VSlice l))) as Hl.
    { clear l IH st. induction l as [|v l IHl]; intros i st HF; simpl.
      { split; [done|]. destruct st; simpl; [done|]. intros s Hs. inversion Hs as [| |? v Hv]. by apply not_elem_of_nil in Hv. }
      apply Forall_cons in HF as [Hv HF]. destruct (Hv st) as [Hv2 Hvw].
      destruct (walkStrings fn v st) as [st1 v']. destruct (IHl (S i) st1 HF) as [Hr2 Hrw].
      destruct (list_rebuild_st _ (S i) l st1) as [st2 l']. simpl in *. subst. split; [done|].
      eapply walked_trans; [exact Hvw|exact Hrw|]. intros s. split.
      - intros Hs. inversion Hs as [| |? w Hw Hsw]; subst. apply elem_of_cons in Hw as [->|Hw]; [by left|right; by eapply hs_slice].
      - intros [Hs|Hs]; [eapply hs_slice; [constructor|done]|]. inversion Hs as [| |? w Hw Hsw]; subst.
        eapply hs_slice; [by constructor|done]. }
    destruct (Hl l 0 st IH) as [H2 Hw]. destruct (list_rebuild_st _ 0 l st) as [st' l']. simpl in *. by subst.
  - assert (∀ s, has_string s v ↔ v = VString s) as Hstr.
    { intros s. split; [|intros ->; constructor]. intros H. destruct H as [|m k w Hk|l w Hw]; [done| |].
      - by destruct Hm. - by destruct Hs. }
    destruct v as [| |s| | | | | | | |];
      try (destruct Hm; discriminate); try (destruct Hs; discriminate);
      cbn [walkStrings map_strings];
      try (split; [done|]; destruct st; simpl; [done|]; intros s0 Hs0%Hstr; done).
    rewrite fn_spec. split; [done|]. simpl. destruct st as [e|]; simpl; [done|].
    destruct (miss s) eqn:Hmiss; simpl; [exists s; split; [constructor|done]|]. intros s' [= ->]%Hstr. done.
Qed.
End walk_strings.

(** ** Lemmas: aliases *)

Lemma Get_nonempty m q : q ≠ [] → Get (Some m) q = get_at (VMap m) q.
Proof. by destruct q. Qed.

Lemma disjoint_paths_sym p q : disjoint_paths p q → disjoint_paths q p.
Proof. intros [? ?]. by split. Qed.

Lemma alias_step_spec m from to : disjoint_paths (Split from) (Split to) →
  ∃ m', alias_step (Some m) (from, to) = Some m'
  ∧ Get (Some m') (Split from) = None
  ∧ Get (Some m') (Split to) = match GetDotted (Some m) to with Some w => Some w | None => GetDotted (Some m) from end
  ∧ ∀ q, disjoint_paths (Split from) q → disjoint_paths (Split to) q → Get (Some m') q = Get (Some m) q.
Proof.
  intros Hd. pose proof (disjoint_paths_ne _ _ Hd) as [Hf Ht]. unfold alias_step, GetDotted.
  destruct (Get (Some m) (Split from)) as [v|] eqn:Hv.
  - set (m1 := match Get (Some m) (Split to) with Some _ => m | None => set_at m (Split to) v end).
    assert (match Get (Some m) (Split to) with Some _ => Some m | None => SetDotted (Some m) to v end = Some m1) as Hm1.
    { unfold m1. destruct (Get (Some m) (Split to)); [done|]. unfold SetDotted, Set_. by destruct (Split to). }
    rewrite Hm1. exists (delete_at m1 (Split from)). split; [unfold DeleteDotted, Delete; by destruct (Split from)|].
    split_and!.
    + rewrite Get_nonempty by done. by apply get_delete_at.
    + rewrite Get_nonempty by done. rewrite get_delete_at_frame by done. unfold m1.
      destruct (Get (Some m) (Split to)) as [w|] eqn:Hw; [by rewrite <-Get_nonempty|by apply get_set_at].
    + intros q Hfq Htq. pose proof (disjoint_paths_ne _ _ Hfq) as [_ Hq]. rewrite !Get_nonempty by done.
      rewrite get_delete_at_frame by done. unfold m1. destruct (Get (Some m) (Split to)); [done|]. by apply get_set_at_frame.
  - exists m. split_and!; [done|done| |done]. by destruct (Get (Some m) (Split to)).
Qed.

Definition alias_paths (mapping : list (string * string)) : list (list string) :=
  mapping ≫= λ '(from, to), [Split from; Split to].

(** No two of the paths overlap. *)
Fixpoint separate (l : list (list string)) : Prop :=
  match l with [] => True | p :: l => Forall (disjoint_paths p) l ∧ separate l end.

Lemma Aliases_frame mapping m q : separate (alias_paths mapping) → Forall (λ p, disjoint_paths p q) (alias_paths mapping) →
  Get (Aliases mapping (Some m)) q = Get (Some m) q.
Proof.
  revert m. induction mapping as [|[from to] mapping IH]; intros m Hs Hq; [done|]. unfold alias_paths in *; simpl in Hs, Hq.
  destruct Hs as ([Hft _]%Forall_cons & _ & Hs). apply Forall_cons in Hq as [Hq1 [Hq2 Hq]%Forall_cons].
  destruct (alias_step_spec m from to Hft) as (m' & Hm' & _ & _ & Hframe). change (Aliases ((from, to) :: mapping) (Some m)) with (Aliases mapping (alias_step (Some m) (from, to))).
  rewrite Hm', (IH m' Hs Hq). by apply Hframe.
Qed.

Lemma Aliases_entry mapping m from to : separate (alias_paths mapping) → (from, to) ∈ mapping →
  GetDotted (Aliases mapping (Some m)) from = None
  ∧ GetDotted (Aliases mapping (Some m)) to
    = match GetDotted (Some m) to with Some w => Some w | None => GetDotted (Some m) from end.
Proof.
  revert m. induction mapping as [|[f t] mapping IH]; intros m Hs Hin; [by apply not_elem_of_nil in Hin|].
  unfold alias_paths in *; simpl in Hs. destruct Hs as ([Hft Hf]%Forall_cons & Ht & Hs).
  destruct (alias_step_spec m f t Hft) as (m' & Hm' & Hgf & Hgt & Hframe).
  assert (Aliases ((f, t) :: mapping) (Some m) = Aliases mapping (Some m')) as Ha by (by rewrite <-Hm').
  rewrite Ha. apply elem_of_cons in Hin as [[= -> ->]|Hin].
  - unfold GetDotted in *. rewrite !Aliases_frame; [done|done| |done|].
    + eapply Forall_impl; [exact Ht|]. intros p. apply disjoint_paths_sym.
    + eapply Forall_impl; [exact Hf|]. intros p. apply disjoint_paths_sym.
  - destruct (IH m' Hs Hin) as [-> ->]. split; [done|].
    assert (∀ p, p ∈ [Split from; Split to] → Get (Some m') p = Get (Some m) p) as Hp.
    { intros p Hpin. assert (p ∈ alias_paths mapping) as Hp by (apply list_elem_of_bind; by exists (from, to)).
      rewrite Forall_forall in Hf. rewrite Forall_forall in Ht. apply Hframe; [by apply Hf|by apply Ht]. }
    unfold GetDotted. rewrite !Hp; [done|set_solver..].
Qed.

(** ** Correctness of the transforms *)

(** Aliases rename. For a mapping none of whose paths overlaps another, in
    whatever order Go ranges over it, afterwards no old path resolves, each new
    path has the value it had before or else the value of its old path, and every
    path apart from these reads as before. *)
Theorem aliases_rename (mapping : list (string * string)) (m : gmap string value) (Hs : separate (alias_paths mapping)) :
  (∀ from to, (from, to) ∈ mapping →
     GetDotted (Aliases mapping (Some m)) from = None
     ∧ GetDotted (Aliases mapping (Some m)) to
       = match GetDotted (Some m) to with Some w => Some w | None => GetDotted (Some m) from end)
  ∧ (∀ q, Forall (λ p, disjoint_paths p q) (alias_paths mapping) → Get (Aliases mapping (Some m)) q = Get (Some m) q).
Proof.
  split; [intros from to Hin; by apply Aliases_entry|]. intros q Hq. by apply Aliases_frame.
Qed.

(** An alias to a path below the old one loses the value: a string at [db]
    that is to move to [db.dsn] is gone from the tree. *)
Theorem alias_below_itself (k s : string) (m : gmap string value)
    (Hk : no_byte "." k = true) (Hne : k ≠ "") (Hm : m !! k = Some (VString s)) :
  Aliases [(k, k +:+ "." +:+ "dsn")] (Some m) = Some (delete k m).
Proof.
  assert (Split k = [k]) as Hsk by (unfold Split; rewrite (proj2 (String.eqb_neq k "") Hne); by apply Split_no_byte).
  assert (Split (k +:+ "." +:+ "dsn") = [k; "dsn"]) as Hskd.
  { unfold Split. destruct (String.eqb_spec (k +:+ "." +:+ "dsn") "") as [He|_]; [by destruct k|].
    change (k +:+ "." +:+ "dsn") with (k +:+ String "." "dsn"). rewrite Split_app by done. reflexivity. }
  unfold Aliases, alias_step; cbn [foldl]. unfold GetDotted, SetDotted, DeleteDotted. rewrite Hsk, Hskd. simpl.
  unfold gomap_lookup; simpl. rewrite Hm. simpl. by rewrite delete_insert_eq.
Qed.

(** Substitution replaces exactly the references. For a text made of literal
    pieces in which no reference starts (a bare dollar sign is literal) and of
    references, each reference becomes the value of its variable, or its default
    when that is empty, the literal pieces stay, and the error is the first
    required reference whose variable is empty. *)
Theorem envsubst_template (lookup : string → string) (parts : template) (tail : string)
    (Hok : template_ok parts tail = true) :
  replace_refs lookup 0 (print_template parts tail) None = (first_missing lookup parts, render lookup parts tail).
Proof. by apply (replace_print lookup parts tail None). Qed.

(** Substitution in a tree rewrites every string, wherever it is, and
    nothing else; it fails exactly when some string has a required reference
    whose variable is empty, with the error of one such string. *)
Theorem envsubst_tree (lookup : string → string) (root : value) :
  (EnvSubstWith lookup root).2 = map_strings (λ s, (replace_refs lookup 0 s None).2) root
  ∧ match (EnvSubstWith lookup root).1 with
    | None => ∀ s, has_string s root → (replace_refs lookup 0 s None).1 = None
    | Some e => ∃ s, has_string s root ∧ (replace_refs lookup 0 s None).1 = Some e
    end.
Proof.
  destruct (walkStrings_spec (replace_refs lookup 0) (λ s, (replace_refs lookup 0 s None).1)
    (λ s, (replace_refs lookup 0 s None).2) (replace_state lookup 0) root None) as [H1 H2].
  by split.
Qed.

(** A failed capture keeps the captured values; a successful one has exactly the
    paths that resolve, with the JSON text of their values. *)
Lemma capture_all_or_nothing (marshal : value → result string string) (r : RawCapture) (root : gomap) :
  match RawCapture_Transform marshal r root with
  | (r', Some (p, e)) => r' = r ∧ p ∈ rc_paths r ∧ ∃ v, GetDotted root p = Some v ∧ marshal v = Err e
  | (r', None) => ∀ p b, RawCapture_Get r' p = Some b ↔ p ∈ rc_paths r ∧ ∃ v, GetDotted root p = Some v ∧ marshal v = Ok b
  end.
Proof.
  unfold RawCapture_Transform, RawCapture_Get.
  assert (∀ l acc, match foldM (capture_step marshal root) acc l with
    | Err (p, e) => p ∈ l ∧ ∃ v, GetDotted root p = Some v ∧ marshal v = Err e
    | Ok values => ∀ p b, values !! p = Some b ↔
        (p ∈ l ∧ ∃ v, GetDotted root p = Some v ∧ marshal v = Ok b) ∨ (acc !! p = Some b ∧ (p ∉ l ∨ GetDotted root p = None))
    end) as Hall.
  { intros l. induction l as [|p l IH]; intros acc; cbn [foldM].
    { intros p b. split; [right; split; [done|left; apply not_elem_of_nil]|]. intros [[Hin%not_elem_of_nil _]|[? _]]; done. }
    destruct (capture_step marshal root acc p) as [acc1|[p1 e]] eqn:Hstep; unfold capture_step in Hstep; simpl.
    - specialize (IH acc1). destruct (foldM _ acc1 l) as [values|[p1 e]]; [|destruct IH as [? ?]; split; [by right|done]].
      intros q b. rewrite IH, elem_of_cons. destruct (GetDotted root p) as [v|] eqn:Hv; [destruct (marshal v) eqn:Hb|]; simplify_eq.
      + destruct (decide (q = p)) as [->|Hq]; [|rewrite lookup_insert_ne by done; intuition congruence].
        rewrite lookup_insert_eq, Hv.
        match goal with Hm : marshal v = Ok ?x |- _ => assert ((∃ w, Some v = Some w ∧ marshal w = Ok b) ↔ Some x = Some b) as -> end.
        { split; [intros (w & [= <-] & Hw); congruence|intros [= ->]; by exists v]. }
        destruct (decide (p ∈ l)); intuition congruence.
      + destruct (decide (q = p)) as [->|Hq]; [rewrite Hv|intuition congruence].
        assert ((∃ w, None = Some w ∧ marshal w = Ok b) ↔ False) as -> by (split; [intros (w & ? & _)|]; done). intuition congruence.
    - destruct (GetDotted root p) as [v|] eqn:Hv; [destruct (marshal v) eqn:Hb|]; simplify_eq. split; [left|eauto]. }
  specialize (Hall (rc_paths r) ∅). destruct (foldM _ ∅ _) as [values|[p e]]; [|by split].
  simpl. intros p b. rewrite Hall, lookup_empty. naive_solver.
Qed.

(** ** Examples *)

Lemma aliases_rename_witness :
  GetDotted (Aliases [("db.dsn", "database.dsn")] (Some {["db" := VMap {["dsn" := VString "x"]}]})) "database.dsn" = Some (VString "x").
Proof.
  destruct (aliases_rename [("db.dsn", "database.dsn")] {["db" := VMap {["dsn" := VString "x"]}]}) as [He _].
  - vm_compute. split; [|split; [constructor|exact I]].
    constructor; [|constructor]. split; intros [z Hz]; discriminate Hz.
  - destruct (He "db.dsn" "database.dsn") as [_ ->]; [left|]. vm_compute. reflexivity.
Defined.

Lemma alias_below_itself_witness : Aliases [("db", "db.dsn")] (Some {["db" := VString "x"]}) = Some (delete "db" {["db" := VString "x"]}).
Proof. apply (alias_below_itself "db" "x" {["db" := VString "x"]}); [reflexivity|discriminate|reflexivity]. Defined.

Lemma envsubst_template_witness :
  replace_refs (λ _, "") 0 (print_template [("port $", ("PORT", Default "80")); ("/", ("DSN", Required ""))] "!") None
  = (Some ("DSN", "variable is required"), "port $80/!").
Proof. rewrite (envsubst_template (λ _, "") [("port $", ("PORT", Default "80")); ("/", ("DSN", Required ""))] "!"); reflexivity. Defined.
