(* ===== verification/Diff.v ===== *)
(** * Differences between two trees (diff.go)

    The sorted list of added, removed and modified paths, with JSON equality on
    what is not a map on both sides.  [json.Marshal] is an argument. *)
From S2P Require Import Prelude GoStrings Value Path.
From Stdlib Require Import Sorted.
Open Scope nat_scope.

Inductive DiffChange := DiffAdded | DiffRemoved | DiffModified.

Definition DiffChange_String (c : DiffChange) : string :=
  match c with DiffAdded => "added" | DiffRemoved => "removed" | DiffModified => "modified" end.

Record DiffEntry := { de_Path : string; de_Change : DiffChange; de_Before : value; de_After : value }.
Record segmentedDiff := { sd_entry : DiffEntry; sd_segs : list string }.

Definition diff_entry (path : list string) (c : DiffChange) (before after : value) : segmentedDiff :=
  {| sd_entry := {| de_Path := strings_Join path "."; de_Change := c; de_Before := before; de_After := after |};
     sd_segs := path |}.

Section diff.
(** [json.Marshal], [None] for an error. *)
Context (marshal : value → option string).

Definition jsonEqual (a b : value) : bool :=
  let text := String.eqb (default "" (marshal a)) (default "" (marshal b)) in
  match a with
  | VNil | VBool _ | VNumber _ => if decide (a = b) then true else text
  | VString s =>
      match b with
      | VString t => if utf8_ValidString s && utf8_ValidString t then String.eqb s t else text
      | _ => text
      end
  | _ => text
  end.

(** The keys of both maps, each once, sorted. *)
Definition both_keys {A B} (a : gmap string A) (b : gmap string B) : list string :=
  sort_strings (elements (dom a ∪ dom b : gset string)).

(** The body of the loop of [appendDiffs], and the loop below a common map. *)
Fixpoint diff_value (va : value) (path : list string) (vb : value) : list segmentedDiff :=
  match va, vb with
  | VMap ma, VMap mb =>
      let sub := diff_value <$> ma in
      both_keys ma mb ≫= λ k,
        match sub !! k, ma !! k, mb !! k with
        | Some rec, Some _, Some vb => rec (path ++ [k]) vb
        | _, Some va, None => [diff_entry (path ++ [k]) DiffRemoved va VNil]
        | _, None, Some vb => [diff_entry (path ++ [k]) DiffAdded VNil vb]
        | _, _, _ => []
        end
  | _, _ => if jsonEqual va vb then [] else [diff_entry path DiffModified va vb]
  end.

Definition appendDiffs (prefix : list string) (a b : gmap string value) : list segmentedDiff :=
  diff_value (VMap a) prefix (VMap b).

Definition diffMaps (prefix : list string) (a b : gomap) : list segmentedDiff :=
  appendDiffs prefix (default ∅ a) (default ∅ b).

(** The entries of the unredacted trees [a] and [b], shown with the values of
    the redacted ones. *)
Definition diagnosticDiff (a b redactedA redactedB : gomap) : list DiffEntry :=
  (λ e, {| de_Path := de_Path (sd_entry e); de_Change := de_Change (sd_entry e);
           de_Before := default VNil (Get redactedA (sd_segs e));
           de_After := default VNil (Get redactedB (sd_segs e)) |}) <$> diffMaps [] a b.

(** [show] is [fmt]'s [%v]. *)
Definition FormatDiff (show : value → string) (entries : list DiffEntry) : list string :=
  (λ e, match de_Change e with
        | DiffAdded => "+ " +:+ de_Path e +:+ " = " +:+ show (de_After e)
        | DiffRemoved => "- " +:+ de_Path e +:+ " = " +:+ show (de_Before e)
        | DiffModified => "~ " +:+ de_Path e +:+ " : " +:+ show (de_Before e) +:+ " -> " +:+ show (de_After e)
        end) <$> entries.

(** ** Specification *)

Definition both_maps (x y : value) : Prop := (∃ m, x = VMap m) ∧ ∃ m, y = VMap m.

(** Every proper prefix of the path leads to a map in both trees. *)
Definition common (a b : value) (p : list string) : Prop :=
  ∀ q, q `prefix_of` p → q ≠ p → ∃ x y, get_at a q = Some x ∧ get_at b q = Some y ∧ both_maps x y.

(** What the diff says about two values at one path. *)
Definition change_of (x y : option value) (p : list string) (e : segmentedDiff) : Prop :=
  match x, y with
  | Some x, Some y => ¬ both_maps x y ∧ jsonEqual x y = false ∧ e = diff_entry p DiffModified x y
  | Some x, None => e = diff_entry p DiffRemoved x VNil
  | None, Some y => e = diff_entry p DiffAdded VNil y
  | None, None => False
  end.

Definition differs (a b : value) (pre p : list string) (e : segmentedDiff) : Prop :=
  common a b p ∧ change_of (get_at a p) (get_at b p) (pre ++ p) e.

(** Two values of one meaning, without the diff: equal, or of one JSON text. *)
Definition same_json (x y : value) : Prop := x = y ∨ default "" (marshal x) = default "" (marshal y).

(** Two trees with the same keys in every map, and values of one meaning. *)
Inductive same_tree : value → value → Prop :=
| same_maps ma mb :
    dom ma = (dom mb : gset string) → (∀ k x y, ma !! k = Some x → mb !! k = Some y → same_tree x y) →
    same_tree (VMap ma) (VMap mb)
| same_values x y : ¬ both_maps x y → same_json x y → same_tree x y.

(** ** Lemmas: the entries *)

Lemma both_keys_elem {A B} (a : gmap string A) (b : gmap string B) k :
  k ∈ both_keys a b ↔ is_Some (a !! k) ∨ is_Some (b !! k).
Proof.
  unfold both_keys, sort_strings. rewrite (sort_stable_perm str_leb). rewrite elem_of_elements, elem_of_union, !elem_of_dom. done.
Qed.

Lemma common_map_cons ma mb k rest :
  common (VMap ma) (VMap mb) (k :: rest) ↔
  rest = [] ∨ ∃ x y, ma !! k = Some x ∧ mb !! k = Some y ∧ common x y rest.
Proof.
  split.
  - intros Hc. destruct rest as [|k' rest]; [by left|right].
    destruct (Hc [k]) as (x & y & Hx & Hy & _); [by apply prefix_cons, prefix_nil|done|].
    rewrite get_at_map in Hx, Hy. destruct (ma !! k) as [x'|] eqn:Hma; [|done]. destruct (mb !! k) as [y'|] eqn:Hmb; [|done].
    simpl in Hx, Hy. exists x', y'. split_and!; [done..|]. intros q Hq Hne.
    destruct (Hc (k :: q)) as (x1 & y1 & Hx1 & Hy1 & ?); [by apply prefix_cons|congruence|].
    rewrite get_at_map, Hma in Hx1. rewrite get_at_map, Hmb in Hy1. eauto 6.
  - intros Hor q Hq Hne. destruct q as [|k' q]; [exists (VMap ma), (VMap mb); unfold both_maps; eauto 6|].
    pose proof (prefix_cons_inv_1 _ _ _ _ Hq) as ->. apply prefix_cons_inv_2 in Hq.
    destruct Hor as [->|(x & y & Hx & Hy & Hc)]; [apply prefix_nil_inv in Hq as ->; done|].
    destruct (Hc q Hq) as (x1 & y1 & ? & ? & ?); [congruence|]. exists x1, y1. by rewrite !get_at_map, Hx, Hy.
Qed.

Lemma differs_cons ma mb pre k rest e : differs (VMap ma) (VMap mb) pre (k :: rest) e ↔
  match ma !! k, mb !! k with
  | Some x, Some y => differs x y (pre ++ [k]) rest e
  | Some x, None => rest = [] ∧ e = diff_entry (pre ++ [k]) DiffRemoved x VNil
  | None, Some y => rest = [] ∧ e = diff_entry (pre ++ [k]) DiffAdded VNil y
  | None, None => False
  end.
Proof.
  unfold differs. rewrite common_map_cons, !get_at_map, <-app_assoc; simpl.
  destruct (ma !! k) as [x|] eqn:Hx, (mb !! k) as [y|] eqn:Hy.
  - split; [|naive_solver]. intros [Hor He]. split; [|done]. destruct Hor as [->|(x' & y' & ? & ? & ?)]; [|naive_solver].
    intros q Hq Hne. by apply prefix_nil_inv in Hq as ->.
  - split; [|intros [-> ->]; split; [by left|done]]. intros [[->|(x' & y' & ? & ? & ?)] He]; [done|naive_solver].
  - split; [|intros [-> ->]; split; [by left|done]]. intros [[->|(x' & y' & ? & ? & ?)] He]; [done|naive_solver].
  - split; [|done]. intros [[->|(x' & y' & ? & ? & ?)] He]; [done|naive_solver].
Qed.

Lemma differs_leaf va vb pre p e : ¬ both_maps va vb →
  differs va vb pre p e ↔ p = [] ∧ jsonEqual va vb = false ∧ e = diff_entry pre DiffModified va vb.
Proof.
  intros Hn. unfold differs. split.
  - intros [Hc He]. destruct (decide (p = [])) as [->|Hp].
    + rewrite app_nil_r in He. simpl in He. naive_solver.
    + destruct (Hc []) as (x & y & [= <-] & [= <-] & ?); [apply prefix_nil|done|done].
  - intros (-> & Hj & ->). rewrite app_nil_r. split; [|simpl; naive_solver]. intros q Hq Hne. by apply prefix_nil_inv in Hq as ->.
Qed.

Lemma diff_value_leaf va vb path : ¬ both_maps va vb →
  diff_value va path vb = if jsonEqual va vb then [] else [diff_entry path DiffModified va vb].
Proof. intros Hn. destruct va; try done. destruct vb; try done. exfalso. apply Hn. split; eauto. Qed.

Lemma both_maps_dec x y : both_maps x y ∨ ¬ both_maps x y.
Proof. destruct x; try (right; intros [[? ?] _]; discriminate). destruct y; try (right; intros [_ [? ?]]; discriminate). left. split; eauto. Qed.

Lemma diff_value_spec va vb path e : e ∈ diff_value va path vb ↔ ∃ p, differs va vb path p e.
Proof.
  revert vb path. induction va as [va IH] using value_lt_ind; intros vb path.
  destruct (both_maps_dec va vb) as [[[ma ->] [mb ->]]|Hn].
  - cbn [diff_value]. rewrite list_elem_of_bind. split.
    + intros (k & He & _). rewrite lookup_fmap in He. destruct (ma !! k) as [x|] eqn:Hx, (mb !! k) as [y|] eqn:Hy; simpl in He.
      * apply (IH x (value_size_map _ _ _ Hx)) in He as [p He]. exists (k :: p). apply differs_cons. by rewrite Hx, Hy.
      * apply list_elem_of_singleton in He as ->. exists [k]. apply differs_cons. by rewrite Hx, Hy.
      * apply list_elem_of_singleton in He as ->. exists [k]. apply differs_cons. by rewrite Hx, Hy.
      * by apply not_elem_of_nil in He.
    + intros [[|k p] He].
      { destruct He as [_ He]. simpl in He. destruct He as [Hn _]. exfalso. apply Hn. split; eauto. }
      apply differs_cons in He. exists k. rewrite both_keys_elem, lookup_fmap.
      destruct (ma !! k) as [x|] eqn:Hx, (mb !! k) as [y|] eqn:Hy; simpl.
      * split; [|by eauto]. apply (IH x (value_size_map _ _ _ Hx)). by exists p.
      * destruct He as [_ ->]. split; [left|by eauto].
      * destruct He as [_ ->]. split; [left|by eauto].
      * done.
  - rewrite diff_value_leaf by done. setoid_rewrite differs_leaf; [|done]. destruct (jsonEqual va vb).
    + split; [by intros ?%not_elem_of_nil|]. by intros (? & _ & ? & _).
    + rewrite list_elem_of_singleton. naive_solver.
Qed.

Lemma jsonEqual_same x y : jsonEqual x y = true → same_json x y.
Proof.
  unfold jsonEqual, same_json. destruct x; try (intros ?%String.eqb_eq; by right).
  1, 2, 4: case_decide; [by left|intros ?%String.eqb_eq; by right].
  destruct y; try (intros ?%String.eqb_eq; by right).
  destruct (_ && _); intros ?%String.eqb_eq; [left; congruence|by right].
Qed.

(** An empty diff of two trees. *)
Lemma diff_nothing va path vb : diff_value va path vb = [] → same_tree va vb.
Proof.
  revert path vb. induction va as [va IH] using value_lt_ind. intros path vb Hd.
  destruct (both_maps_dec va vb) as [[[ma ->] [mb ->]]|Hn].
  - assert (∀ k e, ¬ differs (VMap ma) (VMap mb) path k e) as Hno.
    { intros p e He. assert (e ∈ diff_value (VMap ma) path (VMap mb)) as Hin by (apply diff_value_spec; by exists p).
      rewrite Hd in Hin. by apply not_elem_of_nil in Hin. }
    apply same_maps.
    + apply set_eq. intros k. rewrite !elem_of_dom. specialize (Hno [k]).
      destruct (ma !! k) as [x|] eqn:Hx, (mb !! k) as [y|] eqn:Hy; [by split; eexists|exfalso..|by split; intros []].
      * eapply Hno, differs_cons. by rewrite Hx, Hy.
      * eapply Hno, differs_cons. by rewrite Hx, Hy.
    + intros k x y Hx Hy. apply (IH x (value_size_map _ _ _ Hx) (path ++ [k])).
      destruct (diff_value x (path ++ [k]) y) as [|e l] eqn:Hl; [done|exfalso].
      assert (e ∈ diff_value x (path ++ [k]) y) as Hin by (rewrite Hl; constructor).
      apply diff_value_spec in Hin as [p Hp]. apply (Hno (k :: p) e), differs_cons. by rewrite Hx, Hy.
  - rewrite diff_value_leaf in Hd by done. destruct (jsonEqual va vb) eqn:Hj; [|done].
    apply same_values; [done|by apply jsonEqual_same].
Qed.

(** ** Lemmas: the order of the entries *)

(** At the first segment where the paths part, the first path is smaller; in
    particular neither is a prefix of the other. *)
Definition path_lt (p q : list string) : Prop :=
  ∃ pre x y r1 r2, p = pre ++ x :: r1 ∧ q = pre ++ y :: r2 ∧ str_leb x y = true ∧ x ≠ y.

Lemma path_lt_disjoint p q : path_lt p q → disjoint_paths p q.
Proof.
  intros (pre & x & y & r1 & r2 & -> & -> & _ & Hxy). unfold disjoint_paths.
  split; intros Hp%prefix_app_inv; by apply prefix_cons_inv_1 in Hp.
Qed.

Lemma sorted_bind {A B} (R : A → A → Prop) (S : B → B → Prop) (f : A → list B) l :
  StronglySorted R l → (∀ a, a ∈ l → StronglySorted S (f a)) →
  (∀ a a' b b', R a a' → b ∈ f a → b' ∈ f a' → S b b') → StronglySorted S (l ≫= f).
Proof.
  intros Hl Hf HR. induction Hl as [|a l Hl IH Ha]; simpl; [constructor|].
  apply StronglySorted_app_2.
  - intros b b' Hb (a' & Hb' & Ha')%list_elem_of_bind. rewrite Forall_forall in Ha. by apply (HR a a'); [apply Ha| |].
  - by apply Hf; constructor.
  - apply IH. intros a' Ha'. apply Hf. by constructor.
Qed.

Lemma both_keys_sorted {A B} (a : gmap string A) (b : gmap string B) :
  StronglySorted (λ x y, str_leb x y = true ∧ x ≠ y) (both_keys a b).
Proof.
  unfold both_keys, sort_strings.
  assert (NoDup (sort_stable str_leb (elements (dom a ∪ dom b : gset string)))) as Hnd
    by (rewrite (sort_stable_perm str_leb); apply NoDup_elements).
  pose proof (sort_stable_sorted str_leb str_leb_total str_leb_trans (elements (dom a ∪ dom b : gset string))) as Hs.
  induction Hs as [|x l Hs IH Hx]; [constructor|]. apply NoDup_cons in Hnd as [Hnin Hnd].
  constructor; [by apply IH|]. rewrite Forall_forall in Hx |- *. intros y Hy. split; [by apply Hx|]. by intros ->.
Qed.

Lemma diff_value_segs va vb path e : e ∈ diff_value va path vb → ∃ p, sd_segs e = path ++ p.
Proof.
  intros (p & _ & He)%diff_value_spec. exists p. unfold change_of in He.
  destruct (get_at va p), (get_at vb p); [destruct He as (_ & _ & ->)|subst e|subst e|]; done.
Qed.

Notation entry_lt := (λ e1 e2, path_lt (sd_segs e1) (sd_segs e2)).

Lemma diff_value_sorted va vb path : StronglySorted entry_lt (diff_value va path vb).
Proof.
  revert vb path. induction va as [va IH] using value_lt_ind; intros vb path.
  destruct (both_maps_dec va vb) as [[[ma ->] [mb ->]]|Hn].
  - cbn [diff_value]. apply (sorted_bind _ _ _ _ (both_keys_sorted ma mb)).
    + intros k _. rewrite lookup_fmap. destruct (ma !! k) as [x|] eqn:Hx, (mb !! k) as [y|] eqn:Hy; simpl; repeat constructor.
      by apply IH, (value_size_map _ _ _ Hx).
    + assert (∀ k e, e ∈ match (diff_value <$> ma) !! k, ma !! k, mb !! k with
          | Some rec, Some _, Some vb => rec (path ++ [k]) vb
          | _, Some va, None => [diff_entry (path ++ [k]) DiffRemoved va VNil]
          | _, None, Some vb => [diff_entry (path ++ [k]) DiffAdded VNil vb]
          | _, _, _ => []
          end → ∃ p, sd_segs e = path ++ k :: p) as Hsegs.
      { intros k e. rewrite lookup_fmap. destruct (ma !! k) as [x|], (mb !! k) as [y|]; simpl; intros He.
        - apply diff_value_segs in He as [p ->]. exists p. by rewrite <-app_assoc.
        - apply list_elem_of_singleton in He as ->. by exists [].
        - apply list_elem_of_singleton in He as ->. by exists [].
        - by apply not_elem_of_nil in He. }
      intros k k' e e' [Hle Hne] [p Hp]%Hsegs [p' Hp']%Hsegs. exists path, k, k', p, p'. by split_and!.
  - rewrite diff_value_leaf by done. destruct (jsonEqual va vb); repeat constructor.
Qed.

(** ** Lemmas: the diff as an edit script *)

Definition apply_entry (m : gmap string value) (e : segmentedDiff) : gmap string value :=
  match de_Change (sd_entry e) with
  | DiffRemoved => delete_at m (sd_segs e)
  | _ => set_at m (sd_segs e) (de_After (sd_entry e))
  end.

Definition apply_diff (m : gmap string value) (l : list segmentedDiff) : gmap string value := foldl apply_entry m l.

(** What the entry leaves at its path. *)
Definition entry_result (e : segmentedDiff) : option value :=
  match de_Change (sd_entry e) with DiffRemoved => None | _ => Some (de_After (sd_entry e)) end.

Lemma get_at_app v p q : get_at v (p ++ q) = get_at v p ≫= λ x, get_at x q.
Proof.
  revert v. induction p as [|k p IH]; intros v; [done|]. simpl. destruct (as_map v); [|done].
  destruct (gomap_lookup o k); [apply IH|done].
Qed.

Lemma edit_parent m e q : q `prefix_of` sd_segs e → q ≠ sd_segs e → (∃ mq, get_at (VMap m) q = Some (VMap mq)) →
  ∃ mq, get_at (VMap (apply_entry m e)) q = Some (VMap mq).
Proof.
  unfold apply_entry. generalize (sd_segs e) as p. intros p. revert m q.
  induction p as [|k p IH]; intros m q Hq Hne Hm; [by apply prefix_nil_inv in Hq|].
  destruct q as [|k' q]; [by eexists|]. pose proof (prefix_cons_inv_1 _ _ _ _ Hq) as ->. apply prefix_cons_inv_2 in Hq.
  assert (p ≠ []) as Hp by (intros ->; by apply prefix_nil_inv in Hq as ->). assert (q ≠ p) as Hqp by congruence.
  destruct Hm as [mq Hm]. rewrite get_at_map in Hm. rewrite set_at_cons, delete_at_cons by done.
  destruct (m !! k) as [w|] eqn:Hw; [|done].
  assert (∃ m', w = VMap m' ∨ (q = [] ∧ w = VMap mq)) as [m' [->|[-> ->]]].
  { destruct w; try (by destruct q; simplify_eq); eauto. }
  - specialize (IH m' q Hq Hqp (ex_intro _ mq Hm)). destruct (de_Change (sd_entry e)); rewrite get_at_map, lookup_insert_eq; done.
  - specialize (IH mq [] Hq Hqp (ex_intro _ mq eq_refl)). destruct (de_Change (sd_entry e)); rewrite get_at_map, lookup_insert_eq; done.
Qed.

Lemma edit_frame m e q : disjoint_paths (sd_segs e) q → get_at (VMap (apply_entry m e)) q = get_at (VMap m) q.
Proof.
  intros Hd. unfold apply_entry. destruct (de_Change (sd_entry e)); [by apply get_set_at_frame|by apply get_delete_at_frame|by apply get_set_at_frame].
Qed.

Lemma apply_frame m l q : (∀ e, e ∈ l → disjoint_paths (sd_segs e) q) →
  get_at (VMap (apply_diff m l)) q = get_at (VMap m) q.
Proof.
  revert m. induction l as [|e l IH]; intros m Hd; [done|]. unfold apply_diff; cbn [foldl].
  fold (apply_diff (apply_entry m e) l). rewrite IH by (intros e' He'; apply Hd; by constructor).
  apply edit_frame, Hd. constructor.
Qed.

Lemma apply_hit m l e : StronglySorted entry_lt l → e ∈ l → sd_segs e ≠ [] →
  get_at (VMap (apply_diff m l)) (sd_segs e) = entry_result e.
Proof.
  intros Hl. revert m. induction Hl as [|e' l Hl IH He']; intros m Hin Hne; [by apply not_elem_of_nil in Hin|].
  unfold apply_diff; cbn [foldl]. fold (apply_diff (apply_entry m e') l).
  apply elem_of_cons in Hin as [<-|Hin]; [|by apply IH]. rewrite Forall_forall in He'. rewrite apply_frame.
  - unfold apply_entry, entry_result. destruct (de_Change (sd_entry e)); [by apply get_set_at|by apply get_delete_at|by apply get_set_at].
  - intros e1 He1. destruct (path_lt_disjoint _ _ (He' e1 He1)). by split.
Qed.

Lemma apply_parent m l q : (∀ e, e ∈ l → disjoint_paths (sd_segs e) q ∨ (q `prefix_of` sd_segs e ∧ q ≠ sd_segs e)) →
  (∃ mq, get_at (VMap m) q = Some (VMap mq)) → ∃ mq, get_at (VMap (apply_diff m l)) q = Some (VMap mq).
Proof.
  revert m. induction l as [|e l IH]; intros m Hl Hm; [done|]. unfold apply_diff; cbn [foldl].
  apply IH; [intros e' He'; apply Hl; by constructor|].
  destruct (Hl e) as [Hd|[Hp Hne]]; [constructor|by rewrite edit_frame|by apply edit_parent].
Qed.

Lemma jsonEqual_refl x : jsonEqual x x = true.
Proof.
  unfold jsonEqual. destruct x; rewrite ?decide_True by done; rewrite ?String.eqb_refl; try done. by destruct (_ && _).
Qed.

(** How a path lies with respect to the entries of a diff. *)
Lemma entries_cases (l : list segmentedDiff) q :
  (∃ d, d ∈ l ∧ sd_segs d `prefix_of` q)
  ∨ (∃ d, d ∈ l ∧ q `prefix_of` sd_segs d ∧ q ≠ sd_segs d) ∧
    (∀ e, e ∈ l → disjoint_paths (sd_segs e) q ∨ (q `prefix_of` sd_segs e ∧ q ≠ sd_segs e))
  ∨ (∀ d, d ∈ l → disjoint_paths (sd_segs d) q).
Proof.
  destruct (decide (Exists (λ d, sd_segs d `prefix_of` q) l)) as [He|He]; [left; by apply Exists_exists in He|right].
  assert (∀ e, e ∈ l → ¬ sd_segs e `prefix_of` q) as Hno by (intros e Hin Hp; apply He, Exists_exists; eauto).
  destruct (decide (Exists (λ d, q `prefix_of` sd_segs d) l)) as [Hq|Hq].
  - left. apply Exists_exists in Hq as (d & Hd & Hq). split.
    + exists d. split_and!; [done..|]. intros ->. by apply (Hno d Hd).
    + intros e Hin. destruct (decide (q `prefix_of` sd_segs e)) as [Hp|Hp].
      * right. split; [done|]. intros ->. by apply (Hno e Hin).
      * left. split; [by apply Hno|done].
  - right. intros d Hd. split; [by apply Hno|]. intros Hp. apply Hq, Exists_exists. eauto.
Qed.

Lemma entry_facts a b e : e ∈ diffMaps [] (Some a) (Some b) →
  sd_segs e ≠ [] ∧ common (VMap a) (VMap b) (sd_segs e) ∧ entry_result e = get_at (VMap b) (sd_segs e).
Proof.
  intros Hin. change (e ∈ diff_value (VMap a) [] (VMap b)) in Hin.
  apply diff_value_spec in Hin as (p & Hc & He). unfold change_of in He.
  assert (p ≠ []) as Hp.
  { intros ->. simpl in He. destruct He as [Hn _]. apply Hn. split; eauto. }
  destruct (get_at (VMap a) p) as [x|] eqn:Hx, (get_at (VMap b) p) as [y|] eqn:Hy; try done;
    [destruct He as (_ & _ & ->)|subst e|subst e]; by split_and!.
Qed.
End diff.

(** ** Correctness of the diff *)

(** The diff is exact. Its entries are, in strictly increasing order of their
    paths and so without repetition, exactly the paths below maps common to both
    trees at which one tree has a value and the other has none, or at which both
    have values that are not both maps and that JSON tells apart, each with the
    values found there. *)
Theorem diff_exact (marshal : value → option string) (a b : gmap string value) :
  (∀ e, e ∈ diffMaps marshal [] (Some a) (Some b) ↔ ∃ p, differs marshal (VMap a) (VMap b) [] p e)
  ∧ StronglySorted (λ e1 e2, path_lt (sd_segs e1) (sd_segs e2)) (diffMaps marshal [] (Some a) (Some b)).
Proof. split; [intros e; apply diff_value_spec|apply diff_value_sorted]. Qed.

(** Applying the diff leaves nothing to report. *)
Lemma apply_diff_settles (marshal : value → option string) (a b : gmap string value) :
  diffMaps marshal [] (Some (apply_diff a (diffMaps marshal [] (Some a) (Some b)))) (Some b) = [].
Proof.
  set (D := diffMaps marshal [] (Some a) (Some b)). set (a' := apply_diff a D).
  destruct (diffMaps marshal [] (Some a') (Some b)) as [|e l] eqn:Hdiff; [done|exfalso].
  assert (e ∈ diffMaps marshal [] (Some a') (Some b)) as Hin by (rewrite Hdiff; constructor).
  destruct (entry_facts _ _ _ _ Hin) as (Hp & Hc & _). change (e ∈ diff_value marshal (VMap a') [] (VMap b)) in Hin.
  apply diff_value_spec in Hin as (p & _ & He).
  assert (sd_segs e = p) as Hseg.
  { unfold change_of in He. destruct (get_at (VMap a') p), (get_at (VMap b) p); [destruct He as (_ & _ & ->)|subst e|subst e|]; done. }
  rewrite Hseg in Hp, Hc. assert (StronglySorted (λ e1 e2, path_lt (sd_segs e1) (sd_segs e2)) D) as HD by apply diff_value_sorted.
  destruct (entries_cases D p) as [(d & Hd & [r ->])|[[(d & Hd & Hq & Hne) Hall]|Hdis]].
  - destruct (entry_facts _ _ _ _ Hd) as (Hdne & _ & Hres).
    assert (get_at (VMap a') (sd_segs d ++ r) = get_at (VMap b) (sd_segs d ++ r)) as Heq.
    { rewrite !get_at_app. unfold a'. by rewrite (apply_hit a D d HD Hd Hdne), Hres. }
    rewrite Heq in He. unfold change_of in He. destruct (get_at (VMap b) _) as [y|]; [|done].
    destruct He as (_ & Hj & _). by rewrite jsonEqual_refl in Hj.
  - destruct (entry_facts _ _ _ _ Hd) as (_ & Hcom & _). destruct (Hcom p Hq Hne) as (x & y & Hx & Hy & [[mx ->] [my ->]]).
    destruct (apply_parent a D p Hall) as [m' Hm']; [by eexists|]. fold a' in Hm'.
    unfold change_of in He. rewrite Hm', Hy in He. destruct He as [Hn _]. apply Hn. split; eauto.
  - assert (e ∈ D) as HeD.
    { apply diff_value_spec. exists p. change (differs marshal (VMap a) (VMap b) [] p e).
      split; [|rewrite <-(apply_frame a D p Hdis); exact He].
      intros q Hq Hne. destruct (Hc q Hq Hne) as (x & y & Hx & Hy & Hm).
      destruct (entries_cases D q) as [(d & Hd & Hdq)|[[(d & Hd & Hqd & Hned) _]|Hdisq]].
      - exfalso. apply (proj1 (Hdis d Hd)). by transitivity q.
      - destruct (entry_facts _ _ _ _ Hd) as (_ & Hcom & _). by apply Hcom.
      - exists x, y. by rewrite <-(apply_frame a D q Hdisq). }
    destruct (Hdis e HeD) as [Hn _]. by rewrite Hseg in Hn.
Qed.

(** C25: the diff is a complete edit script. Writing the new value of every added
    and modified path and deleting every removed one turns the first tree into
    the second: the same keys in every map, and at every key of both the same
    value, or one with the same JSON text (values that have none count as equal,
    as in the code). Each entry shows the values the two trees have at its path,
    nil standing for none, its kind says which of them has one, and a modified
    entry never stands for equal values or for two maps. *)
Theorem diff_patches (marshal : value → option string) (a b : gmap string value) :
  same_tree marshal (VMap (apply_diff a (diffMaps marshal [] (Some a) (Some b)))) (VMap b)
  ∧ ∀ e, e ∈ diffMaps marshal [] (Some a) (Some b) →
      de_Path (sd_entry e) = strings_Join (sd_segs e) "."
      ∧ de_Before (sd_entry e) = default VNil (Get (Some a) (sd_segs e))
      ∧ de_After (sd_entry e) = default VNil (Get (Some b) (sd_segs e))
      ∧ match Get (Some a) (sd_segs e), Get (Some b) (sd_segs e) with
        | Some x, Some y => de_Change (sd_entry e) = DiffModified ∧ x ≠ y ∧ ¬ both_maps x y
        | Some _, None => de_Change (sd_entry e) = DiffRemoved
        | None, Some _ => de_Change (sd_entry e) = DiffAdded
        | None, None => False
        end.
Proof.
  split; [apply diff_nothing with [], apply_diff_settles|]. intros e He.
  destruct (entry_facts _ _ _ _ He) as (Hne & _ & _). change (e ∈ diff_value marshal (VMap a) [] (VMap b)) in He.
  apply diff_value_spec in He as (p & _ & He).
  assert (sd_segs e = p) as Hp.
  { unfold change_of in He. destruct (get_at (VMap a) p), (get_at (VMap b) p); [destruct He as (_ & _ & ->)|subst e|subst e|]; done. }
  assert (∀ m, Get (Some m) p = get_at (VMap m) p) as Hget by (intros m; rewrite <-Hp; by destruct (sd_segs e)).
  rewrite Hp, !Hget. unfold change_of in He.
  destruct (get_at (VMap a) p) as [x|], (get_at (VMap b) p) as [y|]; [|by subst e..|done].
  destruct He as (Hn & Hj & ->). split_and!; try done. intros ->. by rewrite jsonEqual_refl in Hj.
Qed.

Example diff_example :
  (λ e, (de_Path (sd_entry e), de_Change (sd_entry e))) <$>
    diffMaps (λ _, Some "") [] (Some {["a" := VMap {["x" := VNil; "y" := VBool true]}; "b" := VNil]})
                                (Some {["a" := VMap {["y" := VBool true; "z" := VNil]}; "c" := VNil]})
  = [("a.x", DiffRemoved); ("a.z", DiffAdded); ("b", DiffRemoved); ("c", DiffAdded)].
Proof. vm_compute. reflexivity. Qed.
