(* ===== verification/Env.v ===== *)
(** * Environment, .env and flag providers (providers/env, providers/dotenv, providers/cliflag)

    How names become paths, how the environment, .env files and explicitly set
    flags become trees, and the syntax of .env files.  The environment, the
    files and the flags are arguments. *)
From S2P Require Import Prelude GoStrings Value Path.
From Stdlib Require Import Ascii.
Open Scope nat_scope.

(** ** Keys (env.go) *)

(** The loop of [DotReplacer]; [prevDot] suppresses a separator. *)
Fixpoint dot_go (prevDot : bool) (s : string) : string :=
  match s with
  | "" => ""
  | String c s =>
      let c := if Ascii.eqb c "_" then "."%char else c in
      if Ascii.eqb c "." then (if prevDot then dot_go true s else String c (dot_go true s))
      else String (lower_byte c) (dot_go false s)
  end.

Definition DotReplacer (s : string) : string := TrimSuffix (dot_go true s) ".".

Section replacers.
Context `{GoStd}.

Definition DoubleUnderscoreReplacer (s : string) : string := strings_Join (ToLower <$> strings_Split s "__") ".".

(** [providerutil.MaybeCoerce] and [providerutil.GraftAt]. *)
Definition MaybeCoerce (s : string) (enabled : bool) : value :=
  if enabled then Coerce s {| co_TrimSpace := false; co_IgnoreCase := true |} else VString s.
End replacers.

Definition GraftAt (inner : gmap string value) (root : list string) : gmap string value :=
  match root with [] => inner | _ => default ∅ (Set_ (Some ∅) root (VMap inner)) end.

Record Provider := {
  ep_prefix : string;
  ep_coerce : bool;
  ep_replacer : string → string;
  ep_root : list string;
}.

Section env.
Context `{GoStd}.

(** The path of a variable that the provider selects. *)
Definition selected (p : Provider) (k : string) : option (list string) :=
  if negb (String.eqb (ep_prefix p) "") && negb (HasPrefix k (ep_prefix p)) then None
  else
    let k := TrimPrefix k (ep_prefix p) in
    if String.eqb k "" then None
    else
      let dotted := ep_replacer p k in
      if String.eqb dotted "" then None else Some (strings_Split dotted ".").

(** One iteration of the loops over variables: what is set where. *)
Definition variable (p : Provider) (k v : string) : option (list string * value) :=
  (λ path, (path, MaybeCoerce v (ep_coerce p))) <$> selected p k.

Definition set_variable (inner : gmap string value) (w : option (list string * value)) : gmap string value :=
  match w with Some (path, v) => default ∅ (Set_ (Some inner) path v) | None => inner end.

Definition env_entry (p : Provider) (kv : string) : option (list string * value) :=
  match strings_Cut kv "=" with Some (k, v) => variable p k v | None => None end.

Definition env_loadMap (p : Provider) (environ : list string) : gmap string value :=
  GraftAt (foldl (λ inner kv, set_variable inner (env_entry p kv)) ∅ environ) (ep_root p).
End env.

(** ** Flags (cliflag/flags.go) *)

Definition From (flags : list (string * string)) : gmap string value :=
  foldl (λ out '(name, v), if String.eqb name "" then out
                           else default ∅ (Set_ (Some out) (strings_Split name ".") (VString v))) ∅ flags.

(** ** The syntax of .env files (dotenv.go) *)

Inductive parse_error := ErrUnterminatedSingle | ErrUnterminatedDouble | ErrLine (n : nat) (e : parse_error) | ErrTooLong.

Definition quote : ascii := ascii_of_nat 34.
Definition newline : ascii := ascii_of_nat 10.
Definition tab : ascii := ascii_of_nat 9.
Definition carriage : ascii := ascii_of_nat 13.

(** The scan of a double-quoted body, by the bytes that a backslash escapes. *)
Fixpoint scan_quoted (esc : ascii → option ascii) (s : string) : result parse_error string :=
  match s with
  | "" => Err ErrUnterminatedDouble
  | String c s' =>
      if Ascii.eqb c quote then Ok ""
      else match s' with
           | String d s'' =>
               if Ascii.eqb c "\" then
                 match esc d with
                 | Some e => String e <$> scan_quoted esc s''
                 | None => (λ t, String c (String d t)) <$> scan_quoted esc s''
                 end
               else String c <$> scan_quoted esc s'
           | "" => String c <$> scan_quoted esc s'
           end
  end.

Definition dotenv_escape (d : ascii) : option ascii :=
  if Ascii.eqb d "n" then Some newline else if Ascii.eqb d "t" then Some tab
  else if Ascii.eqb d quote then Some quote else if Ascii.eqb d "\" then Some "\"%char else None.

Definition parseDoubleQuoted (s : string) : result parse_error string := scan_quoted dotenv_escape s.

Definition parseValue (s : string) : result parse_error string :=
  match s with
  | "" => Ok ""
  | String c s' =>
      if Ascii.eqb c "'" then match strings_Cut s' "'" with Some (v, _) => Ok v | None => Err ErrUnterminatedSingle end
      else if Ascii.eqb c quote then parseDoubleQuoted s'
      else Ok (TrimRight s (String " " (String tab "")))
  end.

(** One line: a pair, nothing, or an error. *)
Definition parse_line (text : string) : result parse_error (option (string * string)) :=
  let line := TrimSpace text in
  if String.eqb line "" || HasPrefix line "#" then Ok None
  else
    let line := TrimSpace (TrimPrefix line "export ") in
    match strings_Cut line "=" with
    | None => Ok None
    | Some (k, raw) =>
        let key := TrimSpace k in
        if String.eqb key "" then Ok None else v ← parseValue raw; Ok (Some (key, v))
    end.

(** The tokens of a [bufio.Scanner]: lines without their end, of less than
    65536 bytes; [None] is the error of a longer one. *)
Definition MaxScanTokenSize : Z := 65536.

Definition drop_last_empty (l : list string) : list string :=
  match reverse l with "" :: r => reverse r | _ => l end.

Definition scan_tokens (data : string) : list (option string) :=
  (λ line, if (Z.of_nat (String.length line) <? MaxScanTokenSize)%Z then Some (TrimSuffix line (String carriage "")) else None)
  <$> drop_last_empty (strings_Split data (String newline "")).

Fixpoint parse_lines (n : nat) (lines : list (option string)) : result parse_error (list (string * string)) :=
  match lines with
  | [] => Ok []
  | None :: _ => Err ErrTooLong
  | Some line :: lines =>
      match parse_line line with
      | Err e => Err (ErrLine (S n) e)
      | Ok kv => (λ out, match kv with Some kv => kv :: out | None => out end) <$> parse_lines (S n) lines
      end
  end.

Definition parseDotEnv (data : string) : result parse_error (list (string * string)) := parse_lines 0 (scan_tokens data).

(** ** The .env provider *)

Inductive file_error := NotExist | OtherError (e : string).
Inductive dotenv_error := ErrRead (path : string) (e : file_error) | ErrParse (path : string) (e : parse_error).

Section dotenv.
Context `{GoStd}.
(** [os.ReadFile], and the lookup in the process environment. *)
Context (ReadFile : string → result file_error string) (lookup : option (string → option string)).

Definition dotenv_pair (p : Provider) (kv : string * string) : option (list string * value) :=
  match lookup with
  | Some f => match f kv.1 with Some _ => None | None => variable p kv.1 kv.2 end
  | None => variable p kv.1 kv.2
  end.

Definition dotenv_file (p : Provider) (inner : gmap string value) (path : string) : result dotenv_error (gmap string value) :=
  match ReadFile path with
  | Err NotExist => Ok inner
  | Err e => Err (ErrRead path e)
  | Ok data =>
      match parseDotEnv data with
      | Err e => Err (ErrParse path e)
      | Ok pairs => Ok (foldl (λ inner kv, set_variable inner (dotenv_pair p kv)) inner pairs)
      end
  end.

Definition dotenv_loadMap (p : Provider) (paths : list string) : result dotenv_error (gmap string value) :=
  inner ← foldM (dotenv_file p) ∅ paths; Ok (GraftAt inner (ep_root p)).
End dotenv.

Example dot_replacer_example : DotReplacer "__DB__Max.Conns_" = "db.max.conns".
Proof. reflexivity. Qed.

Example parse_line_example : parse_line "  export KEY = 'a # b' # c" = Ok (Some ("KEY", " 'a # b' # c")) ∧ parse_line "K='a # b' c" = Ok (Some ("K", "a # b")).
Proof. split; vm_compute; reflexivity. Qed.

(** ** Lemmas: keys *)

Definition words (s : string) : list string := filter (λ w, w ≠ "") (strings_Split s ".").

(** What [DotReplacer] does to one byte. *)
Definition dot_byte (c : ascii) : ascii := if Ascii.eqb c "_" then "."%char else lower_byte c.

(** Pieces that are all non-empty, except possibly the last. *)
Definition tight (l : list string) : Prop := ∃ i x, l = i ++ [x] ∧ Forall (λ w, w ≠ "") i.

Lemma Split_at_sep d s : strings_Split (String d s) (String d "") = "" :: strings_Split s (String d "").
Proof. apply (Split_app d ""). done. Qed.

Lemma Split_at_byte d c s : c ≠ d → ∃ h t, strings_Split s (String d "") = h :: t ∧ strings_Split (String c s) (String d "") = String c h :: t.
Proof.
  intros Hc. rewrite (Split_eq _ (String c s)). simpl. destruct (ascii_dec d c); [by subst|].
  destruct (strings_Split s (String d "")) as [|h t] eqn:Hs; [by apply Split_ne in Hs|]. by exists h, t.
Qed.

Lemma Split_sep s : strings_Split (String "." s) "." = "" :: strings_Split s ".".
Proof. apply Split_at_sep. Qed.

Lemma Split_byte c s : c ≠ "."%char →
  ∃ h t, strings_Split s "." = h :: t ∧ strings_Split (String c s) "." = String c h :: t.
Proof. apply Split_at_byte. Qed.

(** The output has the words of the mapped input, and no empty piece inside. *)
Lemma dot_go_spec s :
  (tight (strings_Split (dot_go true s) ".") ∧ words (dot_go true s) = words (str_map dot_byte s))
  ∧ ∃ h t t', strings_Split (dot_go false s) "." = h :: t ∧ strings_Split (str_map dot_byte s) "." = h :: t'
       ∧ (t = [] ∨ tight t) ∧ filter (λ w, w ≠ "") t = filter (λ w, w ≠ "") t'.
Proof.
  induction s as [|c s [[Ht Hw] (h & t & t' & H1 & H2 & Htt & Hf)]]; cbn [dot_go str_map].
  { split; [split; [exists [], ""; split; [done|constructor]|done]|].
    exists "", [], []. split_and!; [done|done|by left|done]. }
  destruct (Ascii.eqb_spec (if Ascii.eqb c "_" then "."%char else c) ".") as [Hc|Hc].
  - assert (dot_byte c = "."%char) as ->.
    { unfold dot_byte. destruct (Ascii.eqb c "_"); [done|]. by subst c. }
    split.
    + split; [done|]. unfold words in *. rewrite Split_sep, filter_cons_False by naive_solver. done.
    + rewrite Hc, !Split_sep. exists "", (strings_Split (dot_go true s) "."), (strings_Split (str_map dot_byte s) ".").
      split_and!; [done|done|by right|exact Hw].
  - destruct (Ascii.eqb c "_") eqn:Hus; [done|].
    assert (dot_byte c = lower_byte c) as -> by (unfold dot_byte; by rewrite Hus).
    assert (lower_byte c ≠ "."%char) as Hl by (intros ?%lower_byte_dot; done).
    destruct (Split_byte (lower_byte c) (dot_go false s) Hl) as (h1 & t1 & Hs1 & Hs1').
    destruct (Split_byte (lower_byte c) (str_map dot_byte s) Hl) as (h2 & t2 & Hs2 & Hs2').
    rewrite H1 in Hs1. rewrite H2 in Hs2. simplify_eq. split.
    + unfold words. rewrite Hs1', Hs2', !filter_cons_True by done. split; [|by rewrite Hf].
      destruct Htt as [->|(i & x & -> & Hi)]; [by exists [], (String (lower_byte c) h1)|].
      exists (String (lower_byte c) h1 :: i), x. split; [done|]. by constructor.
    + exists (String (lower_byte c) h1), t1, t2. by split_and!.
Qed.

Lemma Join_app_last l x sep : l ≠ [] → strings_Join (l ++ [x]) sep = strings_Join l sep +:+ sep +:+ x.
Proof.
  induction l as [|w l IH]; [done|]. intros _. destruct l as [|w' l]; [done|].
  change ((w :: w' :: l) ++ [x]) with (w :: ((w' :: l) ++ [x])). rewrite !Join_cons by done. rewrite IH by done.
  by rewrite !app_str_assoc.
Qed.

Lemma TrimSuffix_app a c : TrimSuffix (a +:+ String c "") (String c "") = a.
Proof.
  unfold TrimSuffix, HasSuffix. rewrite str_rev_append. change (str_rev (String c "")) with (String c "").
  rewrite prefix_app. simpl. rewrite length_app_str. simpl. rewrite Nat.add_sub.
  induction a as [|d a IH]; [done|]. simpl. by rewrite IH.
Qed.

Lemma TrimSuffix_other a c d : c ≠ d → TrimSuffix (a +:+ String d "") (String c "") = a +:+ String d "".
Proof.
  intros Hcd. unfold TrimSuffix, HasSuffix. rewrite str_rev_append. change (str_rev (String c "")) with (String c "").
  change (str_rev (String d "") +:+ str_rev a) with (String d (str_rev a)).
  cbn [String.prefix]. by destruct (ascii_dec c d).
Qed.

Lemma Split_no_sep s w : w ∈ strings_Split s "." → no_byte "." w = true.
Proof.
  revert w. induction s as [|c s IH]; intros w; [by intros ->%list_elem_of_singleton|].
  destruct (decide (c = "."%char)) as [->|Hc].
  - rewrite Split_sep. intros [->|Hw]%elem_of_cons; [done|by apply IH].
  - destruct (Split_byte c s Hc) as (h & t & Hs & ->). rewrite Hs in IH. intros [->|Hw]%elem_of_cons.
    + unfold no_byte; simpl. rewrite (proj2 (Ascii.eqb_neq c ".")) by done. apply (IH h). constructor.
    + apply IH. by constructor.
Qed.

(** A tight string without its last separator is the join of its words. *)
Lemma tight_trim r : tight (strings_Split r ".") → TrimSuffix r "." = strings_Join (words r) ".".
Proof.
  intros (i & x & Hs & Hi). unfold words. rewrite Hs, filter_app.
  assert (filter (λ w, w ≠ "") i = i) as ->.
  { clear Hs. induction Hi; [done|]. rewrite filter_cons_True by done. by f_equal. }
  assert (r = strings_Join (i ++ [x]) ".") as -> by (rewrite <-Hs; by rewrite Join_Split).
  destruct (str_snoc_cases x) as [->|(y & c & Hx)].
  - rewrite filter_cons_False, filter_nil, app_nil_r by naive_solver. destruct (decide (i = [])) as [->|Hne]; [done|].
    rewrite Join_app_last by done. apply (TrimSuffix_app (strings_Join i ".") ".").
  - rewrite filter_cons_True, filter_nil by (subst x; by destruct y).
    assert (c ≠ "."%char) as Hc.
    { intros ->. assert (no_byte "." x = true) as Hn by (apply (Split_no_sep (strings_Join (i ++ [x]) ".")); rewrite Hs; set_solver).
      rewrite Hx in Hn. unfold no_byte in Hn. rewrite str_forallb_app in Hn. apply andb_true_iff in Hn as [_ Hn]. done. }
    destruct (decide (i = [])) as [->|Hne]; [subst x; by apply TrimSuffix_other|].
    rewrite Join_app_last by done. rewrite Hx. rewrite <-!app_str_assoc. by apply TrimSuffix_other.
Qed.

Lemma dot_byte_idem c : dot_byte (dot_byte c) = dot_byte c.
Proof. destruct c as [[] [] [] [] [] [] [] []]; vm_compute; reflexivity. Qed.

Lemma str_map_idem s : str_map dot_byte (str_map dot_byte s) = str_map dot_byte s.
Proof. induction s as [|c s IH]; [done|]. cbn [str_map]. by rewrite dot_byte_idem, IH. Qed.

Lemma str_map_app f a b : str_map f (a +:+ b) = str_map f a +:+ str_map f b.
Proof. induction a as [|c a IH]; [done|]. cbn [String.append str_map]. by rewrite IH. Qed.

(** The pieces of a mapped string are mapped already. *)
Lemma str_map_pieces s w : w ∈ strings_Split (str_map dot_byte s) "." → str_map dot_byte w = w.
Proof.
  revert w. induction s as [|c s IH]; intros w; [by intros ->%list_elem_of_singleton|]. cbn [str_map].
  destruct (decide (dot_byte c = "."%char)) as [->|Hc].
  - rewrite Split_sep. intros [->|Hw]%elem_of_cons; [done|by apply IH].
  - destruct (Split_byte (dot_byte c) (str_map dot_byte s) Hc) as (h & t & Hs & ->). rewrite Hs in IH.
    intros [->|Hw]%elem_of_cons; [|apply IH; by constructor]. cbn [str_map]. rewrite dot_byte_idem, (IH h); [done|constructor].
Qed.

Lemma str_map_Join ws : Forall (λ w, str_map dot_byte w = w) ws → str_map dot_byte (strings_Join ws ".") = strings_Join ws ".".
Proof.
  induction 1 as [|w ws Hw Hws IH]; [done|]. destruct ws as [|w' ws]; [done|].
  rewrite Join_cons by done. by rewrite !str_map_app, Hw, IH.
Qed.

(** ** Lemmas: variables *)

Lemma MaybeCoerce_leaf `{GoStd} s on m : MaybeCoerce s on ≠ VMap m.
Proof. unfold MaybeCoerce, Coerce. simpl. by repeat case_match. Qed.

(** What a list of writes leaves in the tree. *)
Notation write := (option (list string * value)).

Definition written (ws : list write) : gmap string value := foldl set_variable ∅ ws.

Definition write_ok (w : write) : Prop := match w with Some (q, v) => q ≠ [] ∧ ∀ m, v ≠ VMap m | None => True end.

Lemma set_variable_eq m q v : q ≠ [] → set_variable m (Some (q, v)) = set_at m q v.
Proof. by destruct q. Qed.

Lemma written_last before q v after : q ≠ [] →
  (∀ q' w, Some (q', w) ∈ after → disjoint_paths q' q) →
  get_at (VMap (written (before ++ Some (q, v) :: after))) q = Some v.
Proof.
  intros Hq Hd. unfold written. rewrite foldl_app; cbn [foldl]. rewrite set_variable_eq by done.
  generalize (foldl set_variable ∅ before) as m. intros m.
  assert (get_at (VMap (set_at m q v)) q = Some v) as Hget by (by apply get_set_at).
  revert Hget. generalize (set_at m q v) as m1. clear m. induction after as [|w after IH]; intros m1 Hget; [done|].
  cbn [foldl]. apply IH; [intros q' w' Hin; apply (Hd q' w'); by constructor|]. destruct w as [[q' w]|]; [|done].
  assert (disjoint_paths q' q) as Hdis by (apply (Hd q' w); constructor).
  destruct (disjoint_paths_ne _ _ Hdis) as [Hq' _]. by rewrite set_variable_eq, get_set_at_frame.
Qed.

Lemma set_at_leaf m q v p w : q ≠ [] → p ≠ [] → (∀ m, v ≠ VMap m) → (∀ m, w ≠ VMap m) →
  get_at (VMap (set_at m q v)) p = Some w → (p = q ∧ w = v) ∨ get_at (VMap m) p = Some w.
Proof.
  intros Hq Hp Hv Hw. revert m p Hp. induction q as [|k q IH]; intros m p Hp; [done|].
  destruct p as [|k' p]; [done|]. destruct (decide (k' = k)) as [->|Hk].
  - destruct (decide (q = [])) as [->|Hqn].
    + simpl set_at. rewrite get_at_map, lookup_insert_eq. destruct p as [|k2 p]; [intros [= ->]; by left|].
      rewrite get_at_non_map by done. done.
    + rewrite set_at_cons, get_at_map, lookup_insert_eq by done. destruct p as [|k2 p]; [intros [= <-]; by destruct (Hw _ eq_refl)|].
      intros Hg. fold (child_map m k) in Hg. destruct (IH Hqn (child_map m k) (k2 :: p)) as [[-> ->]|Hg']; [done|done|by left|right].
      by rewrite get_at_child.
  - intros Hg. right. destruct (decide (q = [])) as [->|Hqn]; [simpl set_at in Hg|rewrite set_at_cons in Hg by done];
      rewrite get_at_map, lookup_insert_ne in Hg by done; by rewrite get_at_map.
Qed.

Lemma written_leaf ws p w : Forall write_ok ws → p ≠ [] → (∀ m, w ≠ VMap m) →
  get_at (VMap (written ws)) p = Some w → Some (p, w) ∈ ws.
Proof.
  intros Hok Hp Hw. unfold written. induction ws as [|[[q v]|] ws IH] using rev_ind; [by rewrite get_at_empty| |].
  - rewrite foldl_app; cbn [foldl]. apply Forall_app in Hok as [Hok [[Hq Hv] _]%Forall_cons].
    rewrite set_variable_eq by done. intros [[-> ->]|Hg]%set_at_leaf; [|apply elem_of_app; left; by apply IH|done..].
    apply elem_of_app. right. by apply list_elem_of_singleton.
  - rewrite foldl_app; cbn [foldl]. apply Forall_app in Hok as [Hok _]. intros Hg. apply elem_of_app. left. by apply IH.
Qed.

Lemma get_at_graft inner root p : p ≠ [] → get_at (VMap (GraftAt inner root)) (root ++ p) = get_at (VMap inner) p.
Proof.
  intros Hp. destruct root as [|k root]; [done|]. unfold GraftAt.
  change (default ∅ (Set_ (Some ∅) (k :: root) (VMap inner))) with (set_at ∅ (k :: root) (VMap inner)).
  assert (∀ v q, get_at v ((k :: root) ++ q) = get_at v (k :: root) ≫= λ x, get_at x q) as Happ.
  { clear. generalize (k :: root) as l. intros l. induction l as [|x l IH]; intros v q; [done|].
    cbn [app get_at]. destruct (as_map v); [|done]. destruct (gomap_lookup o x); [apply IH|done]. }
  rewrite Happ, get_set_at by done. done.
Qed.

Lemma foldl_written {A} (f : A → write) (l : list A) :
  foldl (λ inner a, set_variable inner (f a)) ∅ l = written (f <$> l).
Proof. unfold written. generalize (∅ : gmap string value) as m. induction l as [|a l IH]; intros m; [done|]. apply IH. Qed.

Section env_facts.
Context `{GoStd}.

Lemma variable_ok p k v : write_ok (variable p k v).
Proof.
  unfold variable. destruct (selected p k) as [path|] eqn:Hs; [|done]. split; [|apply MaybeCoerce_leaf].
  revert Hs. unfold selected. repeat (case_match; [|]); intros; simplify_eq; try apply Split_ne.
Qed.

Lemma env_entry_ok p kv : write_ok (env_entry p kv).
Proof. unfold env_entry. destruct (strings_Cut kv "=") as [[k v]|]; [apply variable_ok|done]. Qed.
End env_facts.

(** ** Lemmas: printing a .env file *)

Definition escape_byte (c : ascii) : string :=
  if Ascii.eqb c newline then String "\" "n" else if Ascii.eqb c tab then String "\" "t"
  else if Ascii.eqb c quote then String "\" (String quote "") else if Ascii.eqb c "\" then "\\" else String c "".

Fixpoint escape_by (eb : ascii → string) (s : string) : string :=
  match s with "" => "" | String c s => eb c +:+ escape_by eb s end.

Definition escape : string → string := escape_by escape_byte.

Definition print_line (kv : string * string) : string := kv.1 +:+ String "=" (String quote (escape kv.2 +:+ String quote "")).
Definition print_env (l : list (string * string)) : string := foldr (λ kv s, print_line kv +:+ String newline s) "" l.

Definition key_byte (c : ascii) : bool := visible c && negb (Ascii.eqb c "=").

Definition key_ok (k : string) : bool :=
  match k with String c _ => negb (Ascii.eqb c "#") && str_forallb key_byte k | "" => false end.

Lemma scan_raw esc c s : c ≠ quote → c ≠ "\"%char → scan_quoted esc (String c s) = String c <$> scan_quoted esc s.
Proof.
  intros Hq Hb. cbn [scan_quoted]. rewrite (proj2 (Ascii.eqb_neq c quote) Hq), (proj2 (Ascii.eqb_neq c "\") Hb). by destruct s.
Qed.

Lemma scan_escaped esc d e s : esc d = Some e → scan_quoted esc (String "\" (String d s)) = String e <$> scan_quoted esc s.
Proof. intros He. cbn [scan_quoted]. change (Ascii.eqb "\" quote) with false. cbv iota. by rewrite He. Qed.

(** An escape that each byte survives makes any text survive. *)
Lemma scan_escape_by esc eb v rest : (∀ c s, scan_quoted esc (eb c +:+ s) = String c <$> scan_quoted esc s) →
  scan_quoted esc (escape_by eb v +:+ String quote rest) = Ok v.
Proof. intros Heb. induction v as [|c v IH]; [done|]. cbn [escape_by]. by rewrite app_str_assoc, Heb, IH. Qed.

Lemma scan_escape_byte esc c s :
  esc "n"%char = Some newline → esc "t"%char = Some tab → esc quote = Some quote → esc "\"%char = Some "\"%char →
  scan_quoted esc (escape_byte c +:+ s) = String c <$> scan_quoted esc s.
Proof.
  intros Hn Ht Hq Hb. unfold escape_byte. destruct (Ascii.eqb_spec c newline) as [->|?]; [by apply scan_escaped|].
  destruct (Ascii.eqb_spec c tab) as [->|?]; [by apply scan_escaped|].
  destruct (Ascii.eqb_spec c quote) as [->|?]; [by apply scan_escaped|].
  destruct (Ascii.eqb_spec c "\") as [->|?]; [by apply scan_escaped|by apply scan_raw].
Qed.

Lemma scan_escape v rest : parseDoubleQuoted (escape v +:+ String quote rest) = Ok v.
Proof. apply scan_escape_by. intros c s. by apply scan_escape_byte. Qed.

Lemma prefix_no_space w k z : no_byte "=" w = true → str_forallb key_byte k = true →
  HasPrefix (k +:+ String "=" z) (w +:+ " ") = false.
Proof.
  unfold HasPrefix. revert k. induction w as [|c w IH]; intros k Hw Hk.
  - destruct k as [|a k]; [done|]. change (String.prefix (String " " "") (String a (k +:+ String "=" z)) = false).
    cbn [String.prefix]. destruct (ascii_dec " " a) as [<-|]; [done|done].
  - unfold no_byte in Hw; simpl in Hw. apply andb_true_iff in Hw as [Hc Hw]. destruct k as [|a k].
    + change (String.prefix (String c (w +:+ " ")) (String "=" z) = false). cbn [String.prefix].
      destruct (ascii_dec c "=") as [->|]; done.
    + change (String.prefix (String c (w +:+ " ")) (String a (k +:+ String "=" z)) = false). cbn [String.prefix].
      destruct (ascii_dec c a); [|done]. apply IH; [done|]. simpl in Hk. by apply andb_true_iff in Hk as [_ ?].
Qed.

Lemma key_ok_spec k : key_ok k = true → str_forallb key_byte k = true ∧ no_byte "=" k = true ∧ no_byte newline k = true ∧
  ∃ c t, k = String c t ∧ visible c = true ∧ c ≠ "#"%char.
Proof.
  unfold key_ok. destruct k as [|c t]; [done|]. intros [Hc Hk]%andb_true_iff. split; [done|]. split_and!.
  - unfold no_byte. eapply str_forallb_impl; [|exact Hk]. intros d. unfold key_byte. by intros [_ ?]%andb_true_iff.
  - unfold no_byte. eapply str_forallb_impl; [|exact Hk]. intros d. unfold key_byte. intros [Hd _]%andb_true_iff.
    destruct (Ascii.eqb_spec d newline) as [->|]; done.
  - exists c, t. simpl in Hk. apply andb_true_iff in Hk as [Hk _]. unfold key_byte in Hk. apply andb_true_iff in Hk as [? _].
    split_and!; [done|done|]. intros ->. done.
Qed.

Lemma TrimSpace_key k : key_ok k = true → TrimSpace k = k.
Proof.
  intros Hk. destruct (key_ok_spec k Hk) as (Hall & _ & _ & c & t & -> & Hc & _).
  destruct (str_snoc_cases (String c t)) as [|(y & d & Hy)]; [done|]. apply (TrimSpace_visible c t d y); [done| |done].
  rewrite Hy, str_forallb_app in Hall. apply andb_true_iff in Hall as [_ Hd]. simpl in Hd. rewrite andb_true_r in Hd.
  unfold key_byte in Hd. by apply andb_true_iff in Hd as [? _].
Qed.

Lemma parse_print_line k v : key_ok k = true → parse_line (print_line (k, v)) = Ok (Some (k, v)).
Proof.
  intros Hk. destruct (key_ok_spec k Hk) as (Hall & Heq & _ & c & t & Hkc & Hc & Hh).
  assert (TrimSpace (print_line (k, v)) = print_line (k, v)) as Htrim.
  { unfold print_line; simpl. rewrite Hkc.
    eapply (TrimSpace_visible c _ quote (String c t +:+ String "=" (String quote (escape v)))); [done|done|].
    rewrite app_str_assoc. simpl. done. }
  unfold parse_line. rewrite Htrim.
  assert (String.eqb (print_line (k, v)) "" || HasPrefix (print_line (k, v)) "#" = false) as ->.
  { unfold print_line; simpl. rewrite Hkc. unfold HasPrefix. simpl String.append.
    apply orb_false_iff. split; [done|]. cbn [String.prefix]. destruct (ascii_dec "#" c); [congruence|done]. }
  assert (TrimPrefix (print_line (k, v)) "export " = print_line (k, v)) as ->.
  { unfold TrimPrefix. unfold print_line at 1; simpl fst. rewrite (prefix_no_space "export" k); done. }
  rewrite Htrim. unfold print_line at 1; simpl. rewrite Cut_app by done. rewrite TrimSpace_key by done.
  rewrite (proj2 (String.eqb_neq k "")) by (subst k; done).
  change (parseValue (String quote (escape v +:+ String quote ""))) with (parseDoubleQuoted (escape v +:+ String quote "")).
  by rewrite scan_escape.
Qed.

Lemma escape_no_newline v : no_byte newline (escape v) = true.
Proof.
  unfold no_byte. unfold escape. induction v as [|c v IH]; [done|]. cbn [escape_by]. rewrite str_forallb_app, IH, andb_true_r. unfold escape_byte.
  destruct (Ascii.eqb_spec c newline) as [->|Hn]; [done|]. destruct (Ascii.eqb_spec c tab); [done|].
  destruct (Ascii.eqb_spec c quote); [done|]. destruct (Ascii.eqb_spec c "\"); [done|].
  cbn [str_forallb]. by rewrite (proj2 (Ascii.eqb_neq c newline)) by done.
Qed.

Lemma print_line_no_newline k v : key_ok k = true → no_byte newline (print_line (k, v)) = true.
Proof.
  intros (_ & _ & Hn & _)%key_ok_spec. unfold print_line, no_byte in *; simpl fst; simpl snd.
  rewrite str_forallb_app, Hn. cbn [str_forallb andb]. rewrite str_forallb_app. fold (no_byte newline (escape v)).
  by rewrite escape_no_newline.
Qed.

Definition pair_ok (kv : string * string) : Prop :=
  key_ok kv.1 = true ∧ (Z.of_nat (String.length (print_line kv)) < MaxScanTokenSize)%Z.

Lemma scan_print l : Forall pair_ok l → scan_tokens (print_env l) = (λ kv, Some (print_line kv)) <$> l.
Proof.
  intros Hl. unfold scan_tokens.
  assert (strings_Split (print_env l) (String newline "") = (print_line <$> l) ++ [""]) as ->.
  { induction Hl as [|[k v] l [Hk _] Hl IH]; [done|]. cbn [print_env foldr]. fold (print_env l).
    rewrite Split_app by (by apply print_line_no_newline). by rewrite IH. }
  unfold drop_last_empty. rewrite reverse_app. simpl. rewrite reverse_involutive. rewrite <-list_fmap_compose.
  apply list_fmap_ext. intros i [k v] Hi. simpl. rewrite Forall_lookup in Hl. destruct (Hl i _ Hi) as [_ Hlen].
  rewrite (proj2 (Z.ltb_lt _ _) Hlen). f_equal. unfold print_line.
  change (String "=" (String quote (escape (k, v).2 +:+ String quote ""))) with ((String "=" (String quote (escape v))) +:+ String quote "").
  rewrite <-app_str_assoc. by apply TrimSuffix_other.
Qed.

Lemma parse_print l n : Forall pair_ok l → parse_lines n ((λ kv, Some (print_line kv)) <$> l) = Ok l.
Proof.
  intros Hl. revert n. induction Hl as [|[k v] l [Hk _] Hl IH]; intros n; [done|]. cbn [fmap list_fmap parse_lines].
  rewrite parse_print_line by done. by rewrite IH.
Qed.

(** ** Correctness of the providers *)

(** [DotReplacer] is the normal form of a name. Lower the letters, read
    underscores and dots as separators, drop the empty pieces and join the others
    with single dots; so that a result never starts or ends with a dot, holds no
    two in a row, and is its own normal form. *)
Theorem dot_replacer_normal (s : string) :
  DotReplacer s = strings_Join (words (str_map dot_byte s)) "."
  ∧ DotReplacer (DotReplacer s) = DotReplacer s.
Proof.
  assert (∀ s, DotReplacer s = strings_Join (words (str_map dot_byte s)) ".") as Hnf.
  { clear s. intros s. destruct (dot_go_spec s) as [[Ht <-] _]. by apply tight_trim. }
  split; [apply Hnf|]. rewrite (Hnf (DotReplacer s)), Hnf.
  set (ws := words (str_map dot_byte s)).
  assert (Forall (λ w, w ≠ "" ∧ no_byte "." w = true ∧ str_map dot_byte w = w) ws) as Hws.
  { unfold ws, words. apply Forall_forall. intros w [Hne Hin]%list_elem_of_filter. split_and!; [done|by eapply Split_no_sep|].
    apply str_map_pieces in Hin. done. }
  rewrite str_map_Join by (eapply Forall_impl; [exact Hws|]; naive_solver).
  unfold words at 1. destruct (decide (ws = [])) as [->|Hne]; [done|].
  rewrite Split_Join; [|done|eapply Forall_impl; [exact Hws|]; naive_solver]. f_equal.
  clear Hne. induction Hws as [|w l [Hw _] _ IH]; [done|]. rewrite filter_cons_True by done. by rewrite IH.
Qed.

(** In the environment the last variable wins. A selected variable's value is
    at its path, below the graft, unless a later selected one wrote an overlapping
    path; and every value there that is not a map was written by a variable. *)
Theorem env_last_wins `{GoStd} (p : Provider) (environ : list string) :
  (∀ before kv after path v, environ = before ++ kv :: after → env_entry p kv = Some (path, v) →
     (∀ kv' q w, kv' ∈ after → env_entry p kv' = Some (q, w) → disjoint_paths q path) →
     get_at (VMap (env_loadMap p environ)) (ep_root p ++ path) = Some v)
  ∧ (∀ path v, path ≠ [] → (∀ m, v ≠ VMap m) → get_at (VMap (env_loadMap p environ)) (ep_root p ++ path) = Some v →
       ∃ kv, kv ∈ environ ∧ env_entry p kv = Some (path, v)).
Proof.
  unfold env_loadMap. rewrite (foldl_written (env_entry p)).
  assert (Forall write_ok (env_entry p <$> environ)) as Hok.
  { apply Forall_fmap, Forall_forall. intros kv _. apply env_entry_ok. }
  split.
  - intros before kv after path v -> He Hd. pose proof (env_entry_ok p kv) as Hkv. rewrite He in Hkv. destruct Hkv as [Hne _].
    rewrite get_at_graft by done. rewrite fmap_app, fmap_cons, He. apply written_last; [done|].
    intros q w (kv' & Heq & Hin)%list_elem_of_fmap. by apply (Hd kv' q w).
  - intros path v Hne Hv. rewrite get_at_graft by done. intros Hg%written_leaf; [|done..].
    apply list_elem_of_fmap in Hg as (kv & ? & ?). by exists kv.
Qed.

(** A .env file round trips. Printing pairs whose keys are visible bytes other
    than [=] and do not start with [#], with arbitrary values escaped in double
    quotes, and parsing the text gives the pairs back; a provider that reads the
    file writes exactly those whose key the process environment does not have,
    also when it has it empty. *)
Theorem dotenv_roundtrip `{GoStd} (pairs : list (string * string)) (ReadFile : string → result file_error string)
    (lookup : string → option string) (p : Provider) (path : string)
    (Hok : Forall pair_ok pairs) (Hread : ReadFile path = Ok (print_env pairs)) :
  parseDotEnv (print_env pairs) = Ok pairs
  ∧ dotenv_loadMap ReadFile (Some lookup) p [path]
    = Ok (GraftAt (written ((λ kv, variable p kv.1 kv.2) <$> filter (λ kv, lookup kv.1 = None) pairs)) (ep_root p)).
Proof.
  assert (parseDotEnv (print_env pairs) = Ok pairs) as Hp by (unfold parseDotEnv; rewrite scan_print by done; by apply parse_print).
  split; [done|]. unfold dotenv_loadMap. cbn [foldM]. unfold dotenv_file. rewrite Hread, Hp.
  cbn [mbind result_bind]. do 2 f_equal. unfold written. generalize (∅ : gmap string value) as m. clear.
  induction pairs as [|[k v] pairs IH]; intros m; [done|]. cbn [foldl]. rewrite IH. unfold dotenv_pair; simpl fst; simpl snd.
  destruct (lookup k) eqn:Hk; [by rewrite filter_cons_False by (simpl; congruence)|by rewrite filter_cons_True by done].
Qed.

(** ** Examples *)

Definition example_provider : Provider := {| ep_prefix := "APP_"; ep_coerce := false; ep_replacer := DotReplacer; ep_root := ["svc"] |}.

Lemma dotenv_roundtrip_witness :
  parseDotEnv (print_env [("APP_MSG", "two
lines"); ("APP_PORT", "80")]) = Ok [("APP_MSG", "two
lines"); ("APP_PORT", "80")].
Proof.
  destruct (@dotenv_roundtrip example_std [("APP_MSG", "two
lines"); ("APP_PORT", "80")] (λ _, Ok (print_env [("APP_MSG", "two
lines"); ("APP_PORT", "80")])) (λ _, None) example_provider ".env") as [Hp _]; [|reflexivity|exact Hp].
  repeat constructor.
Defined.

Example example_environ : @env_loadMap example_std example_provider ["HOME=/"; "APP_DB__HOST=a"; "APP_db_host=b"]
  = {["svc" := VMap {["db" := VMap {["host" := VString "b"]}]}]}.
Proof. vm_compute. reflexivity. Qed.
