(* ===== verification/Labels.v ===== *)
(** * Labels (confmap/labels.go, providers/labels)

    Flat [key=value] labels expanded into a tree, and the routing labels on top:
    a gate, typed leaves and lists, and indexed siblings promoted to lists.  The
    order in which Go ranges over a map is the argument [range]. *)
From S2P Require Import Prelude GoStrings Value Path Env.
From Stdlib Require Import Ascii.
Open Scope nat_scope.

(** ** Expansion (labels.go) *)

Record LabelOptions := {
  lo_Prefix : string; lo_StripPrefix : bool; lo_Separator : string; lo_Separators : list string; lo_Coerce : bool;
}.

Notation LabelPair := (string * string)%type.

(** The accepted shapes; the entries of a map come in the order of the range. *)
Inductive label_input :=
| InPairs (l : list LabelPair)
| InStrings (l : list string)
| InAny (l : list value)
| InMapStr (l : list (string * string))
| InMapAny (l : list (string * value))
| InOther.

Definition NormalizeLabelInput (input : label_input) : list LabelPair :=
  match input with
  | InPairs l => l
  | InStrings l => omap (λ kv, strings_Cut kv "=") l
  | InAny l => omap (λ item, as_string item ≫= λ s, strings_Cut s "=") l
  | InMapStr l => l
  | InMapAny l => omap (λ kv, pair kv.1 <$> as_string kv.2) l
  | InOther => []
  end.

Definition resolveSeparators (opts : LabelOptions) : list string :=
  let seps := filter (λ s, s ≠ "") (lo_Separators opts) in
  if negb (bool_decide (seps = [])) then seps
  else if negb (String.eqb (lo_Separator opts) "") then [lo_Separator opts] else ["."].

Definition splitMulti (s : string) (seps : list string) : list string :=
  foldl (λ parts sep, parts ≫= λ p, filter (λ sub, sub ≠ "") (strings_Split p sep)) [s] seps.

(** The first separator that starts the key is dropped from it. *)
Fixpoint strip_separator (seps : list string) (k : string) : string :=
  match seps with
  | [] => k
  | s :: seps => if negb (String.eqb s "") && HasPrefix k s then TrimPrefix k s else strip_separator seps k
  end.

Section expand.
Context `{GoStd}.

Definition coerceLabelValue (s : string) : value := Coerce s {| co_TrimSpace := false; co_IgnoreCase := false |}.

(** One iteration: the path that a label sets and its value. *)
Definition label_write (opts : LabelOptions) (p : LabelPair) : write :=
  let seps := resolveSeparators opts in
  let skip := negb (String.eqb (lo_Prefix opts) "") && negb (HasPrefix p.1 (lo_Prefix opts)) in
  let k := if negb (String.eqb (lo_Prefix opts) "") && lo_StripPrefix opts
           then strip_separator seps (TrimPrefix p.1 (lo_Prefix opts)) else p.1 in
  if skip || String.eqb k "" then None
  else Some (splitMulti k seps, if lo_Coerce opts then coerceLabelValue p.2 else VString p.2).

Definition ExpandLabels (input : label_input) (opts : LabelOptions) : gmap string value :=
  foldl (λ out p, set_variable out (label_write opts p)) ∅ (NormalizeLabelInput input).
End expand.

(** ** Routing labels (routing.go) *)

Definition MaxRoutingIndex : Z := 1023.

Record Routing := {
  ro_EnableGate : string;
  ro_ListSeparator : string;
  ro_NoListSplit : bool;
  ro_KeepRawSuffixes : option (list string);
  ro_Raw : bool;
  ro_LowercaseKeys : bool;
}.

Record Options := {
  op_Prefix : string; op_StripPrefix : bool; op_Separators : list string; op_Coerce : bool; op_Routing : option Routing;
}.

(** [indexedRoutingKeyPattern]: the base, which the dot of the pattern keeps free
    of newlines, and the digits between the last brackets. *)
Definition indexed_key (key : string) : option (string * string) :=
  match cut_last "[" key with
  | Some (base, rest) =>
      match cut_last "]" rest with
      | Some (digits, "") =>
          if negb (String.eqb base "") && no_byte newline base && negb (String.eqb digits "") && str_forallb is_digit digits
          then Some (base, digits) else None
      | _ => None
      end
  | None => None
  end.

Inductive routing_error := ErrIndexExceeds (key : string).

(** An [indexedGroup]; its keys in the order in which they were found. *)
Record indexedGroup := { ig_max : nat; ig_values : gmap nat value; ig_keys : list string }.

Section routing.
Context `{GoStd}.

Definition normalizeRoutingKey (key : string) (lowercase : bool) : string := if lowercase then ToLower key else key.

Definition collectRoutingLabelPairs (input : label_input) (lowercase : bool) : list LabelPair :=
  (λ p, (normalizeRoutingKey p.1 lowercase, p.2)) <$> NormalizeLabelInput input.

Definition routingTruthy (v : string) : bool :=
  bool_decide (ToLower (TrimSpace v) ∈ ["true"; "1"; "yes"; "on"]).

Definition routingGateBlocks (pairs : list LabelPair) (gate : string) : bool :=
  if String.eqb gate "" then false
  else match foldl (λ found p, if String.eqb p.1 gate then Some p.2 else found) None pairs with
       | Some v => negb (routingTruthy v)
       | None => false
       end.

Definition routingKeepRaw (dottedPath : string) (configured : option (list string)) : bool :=
  existsb (λ suffix, negb (String.eqb suffix "") && HasSuffix (ToLower dottedPath) (ToLower suffix))
    (default [".rule"; "regexp"] configured).

Definition coerceRoutingScalar (v : string) : value := Coerce v {| co_TrimSpace := true; co_IgnoreCase := true |}.

Definition rewriteRoutingLeaf (v dottedPath : string) (opts : Routing) : value :=
  if ro_Raw opts then VString v
  else if routingKeepRaw dottedPath (ro_KeepRawSuffixes opts) then VString v
  else
    let separator := if String.eqb (ro_ListSeparator opts) "" then "," else ro_ListSeparator opts in
    if negb (ro_NoListSplit opts) && strings_Contains v separator
    then VSlice ((λ part, coerceRoutingScalar (TrimSpace part)) <$> strings_Split v separator)
    else coerceRoutingScalar v.

Definition rewriteLeavesAtLevel (node : gmap string value) (path : list string) (opts : Routing) : gmap string value :=
  map_rebuild (λ key v, match v with
                        | VString s => rewriteRoutingLeaf s (strings_Join (path ++ [key]) ".") opts
                        | _ => v
                        end) node.

(** The order in which Go ranges over a map. *)
Context (range : ∀ A, gmap string A → list (string * A)).
Arguments range {A} _.

Definition add_to_group (g : option indexedGroup) (key : string) (index : nat) (v : value) : indexedGroup :=
  match g with
  | Some g => {| ig_max := Nat.max index (ig_max g); ig_values := <[index := v]> (ig_values g); ig_keys := ig_keys g ++ [key] |}
  | None => {| ig_max := index; ig_values := {[index := v]}; ig_keys := [key] |}
  end.

Definition group_step (path : list string) (groups : gmap string indexedGroup) (e : string * value)
    : result routing_error (gmap string indexedGroup) :=
  match indexed_key e.1 with
  | None => Ok groups
  | Some (base, digits) =>
      match Atoi digits with
      | Some index =>
          if (MaxRoutingIndex <? index)%Z then Err (ErrIndexExceeds (strings_Join (path ++ [e.1]) "."))
          else Ok (<[base := add_to_group (groups !! base) e.1 (Z.to_nat index) e.2]> groups)
      | None => Err (ErrIndexExceeds (strings_Join (path ++ [e.1]) "."))
      end
  end.

Definition items_of (g : indexedGroup) : list value :=
  (λ i, default VNil (ig_values g !! i)) <$> seq 0 (S (ig_max g)).

Definition promote_group (node : gmap string value) (e : string * indexedGroup) : gmap string value :=
  match node !! e.1 with
  | Some _ => node
  | None => <[e.1 := VSlice (items_of e.2)]> (foldl (λ node key, delete key node) node (ig_keys e.2))
  end.

Definition promoteIndexedKeysAtLevel (node : gmap string value) (path : list string) : result routing_error (gmap string value) :=
  groups ← foldM (group_step path) ∅ (range node);
  Ok (foldl promote_group node (range groups)).

(** The children first, then the leaves and the indexed keys of this level. *)
Fixpoint transform_value (v : value) (path : list string) (opts : Routing) : result routing_error value :=
  match v with
  | VMap node =>
      let children := (λ c, transform_value c) <$> node in
      node ← foldM (λ acc e, c ← e.2 (path ++ [e.1]) opts; Ok (<[e.1 := c]> acc)) node (range children);
      node ← promoteIndexedKeysAtLevel (rewriteLeavesAtLevel node path opts) path;
      Ok (VMap node)
  | _ => Ok v
  end.

Definition transformRoutingTree (node : gmap string value) (path : list string) (opts : Routing) : result routing_error (gmap string value) :=
  v ← transform_value (VMap node) path opts;
  match v with VMap node => Ok node | _ => Ok node end.

(** ** The provider (providers/labels/labels.go) *)

Definition loadRouting (labels : label_input) (opts : Options) (r : Routing) : result routing_error (gmap string value) :=
  let pairs := collectRoutingLabelPairs labels (ro_LowercaseKeys r) in
  if routingGateBlocks pairs (normalizeRoutingKey (ro_EnableGate r) (ro_LowercaseKeys r)) then Ok ∅
  else
    let tree := ExpandLabels (InPairs pairs)
      {| lo_Prefix := normalizeRoutingKey (op_Prefix opts) (ro_LowercaseKeys r); lo_StripPrefix := op_StripPrefix opts;
         lo_Separator := ""; lo_Separators := op_Separators opts; lo_Coerce := false |} in
    transformRoutingTree tree [] r.

Definition Labels_Load (labels : label_input) (opts : Options) : result routing_error (gmap string value) :=
  match op_Routing opts with
  | Some r => loadRouting labels opts r
  | None => Ok (ExpandLabels labels {| lo_Prefix := op_Prefix opts; lo_StripPrefix := op_StripPrefix opts; lo_Separator := "";
                                       lo_Separators := op_Separators opts; lo_Coerce := op_Coerce opts |})
  end.
End routing.

Example expand_k8s : @ExpandLabels example_std (InPairs [("app.kubernetes.io/name", "web")])
    {| lo_Prefix := ""; lo_StripPrefix := false; lo_Separator := ""; lo_Separators := ["/"; "."]; lo_Coerce := false |}
  = {["app" := VMap {["kubernetes" := VMap {["io" := VMap {["name" := VString "web"]}]}]}]}.
Proof. vm_compute. reflexivity. Qed.

Example indexed_key_example : indexed_key "domains[0][12]" = Some ("domains[0]", "12") ∧ indexed_key "[1]" = None ∧ indexed_key "a[1]x" = None.
Proof. vm_compute. split_and!; reflexivity. Qed.

(** ** Lemmas: splitting *)

(** The bytes of a string that satisfy [p]. *)
Fixpoint str_filter (p : ascii → bool) (s : string) : string :=
  match s with "" => "" | String c s => if p c then String c (str_filter p s) else str_filter p s end.

Definition str_concat (l : list string) : string := foldr String.append "" l.

Lemma str_concat_app a b : str_concat (a ++ b) = str_concat a +:+ str_concat b.
Proof. induction a as [|s a IH]; [done|]. simpl. by rewrite IH, app_str_assoc. Qed.

Lemma str_filter_app p a b : str_filter p (a +:+ b) = str_filter p a +:+ str_filter p b.
Proof. induction a as [|c a IH]; [done|]. cbn [String.append str_filter]. destruct (p c); [|done]. cbn [String.append]. by rewrite IH. Qed.

Lemma str_filter_filter p q s : str_filter p (str_filter q s) = str_filter (λ c, q c && p c) s.
Proof. induction s as [|c s IH]; [done|]. cbn [str_filter]. destruct (q c); cbn [str_filter andb]; by rewrite IH. Qed.

Lemma str_filter_ext p q s : (∀ c, p c = q c) → str_filter p s = str_filter q s.
Proof. intros Hpq. induction s as [|c s IH]; [done|]. cbn [str_filter]. by rewrite Hpq, IH. Qed.

Lemma concat_nonempty l : str_concat (filter (λ s, s ≠ "") l) = str_concat l.
Proof. induction l as [|s l IH]; [done|]. rewrite filter_cons. destruct (decide (s ≠ "")) as [|Hs]; simpl; [by rewrite IH|]. by apply dec_stable in Hs as ->. Qed.

Lemma concat_Split d s : str_concat (strings_Split s (String d "")) = str_filter (λ c, negb (Ascii.eqb c d)) s.
Proof.
  induction s as [|c s IH]; [done|]. cbn [str_filter]. destruct (Ascii.eqb_spec c d) as [->|Hc]; cbn [negb].
  - rewrite Split_at_sep. simpl. exact IH.
  - destruct (Split_at_byte d c s Hc) as (h & t & Hs & ->). rewrite Hs in IH. simpl in *. by rewrite IH.
Qed.

Lemma Split_parts d s w : w ∈ strings_Split s (String d "") → no_byte d w = true ∧ ∀ p, str_forallb p s = true → str_forallb p w = true.
Proof.
  revert w. induction s as [|c s IH]; intros w; [by intros ->%list_elem_of_singleton|].
  destruct (decide (c = d)) as [->|Hc].
  - rewrite Split_at_sep. intros [->|Hw]%elem_of_cons; [done|]. destruct (IH w Hw) as [? Hp]. split; [done|].
    intros p Hs. apply Hp. cbn [str_forallb] in Hs. by apply andb_true_iff in Hs as [_ ?].
  - destruct (Split_at_byte d c s Hc) as (h & t & Hs & ->). rewrite Hs in IH. intros [->|Hw]%elem_of_cons.
    + destruct (IH h) as [Hn Hp]; [constructor|]. split.
      * unfold no_byte; cbn [str_forallb]. by rewrite (proj2 (Ascii.eqb_neq c d) Hc).
      * intros p Hall. cbn [str_forallb] in *. apply andb_true_iff in Hall as [-> Hall]. by apply Hp.
    + destruct (IH w) as [? Hp]; [by constructor|]. split; [done|].
      intros p Hall. apply Hp. cbn [str_forallb] in Hall. by apply andb_true_iff in Hall as [_ ?].
Qed.

Definition singles (seps : list ascii) : list string := (λ d, String d "") <$> seps.
Definition not_sep (seps : list ascii) (c : ascii) : bool := forallb (λ d, negb (Ascii.eqb c d)) seps.

Lemma splitMulti_parts seps parts p :
  (∀ w, w ∈ parts → w ≠ "" ∧ str_forallb p w = true) →
  let r := foldl (λ parts sep, parts ≫= λ p, filter (λ sub, sub ≠ "") (strings_Split p sep)) parts (singles seps) in
  (∀ w, w ∈ r → w ≠ "" ∧ str_forallb p w = true ∧ str_forallb (not_sep seps) w = true)
  ∧ str_concat r = str_filter (not_sep seps) (str_concat parts).
Proof.
  revert parts p. induction seps as [|d seps IH]; intros parts p Hparts; cbn [singles fmap list_fmap foldl].
  - split.
    + intros w Hw. destruct (Hparts w Hw). split_and!; [done..|]. clear. induction w as [|c w IHw]; [done|]. exact IHw.
    + induction (str_concat parts) as [|c w IHw]; [done|]. cbn [str_filter not_sep forallb]. by rewrite <-IHw.
  - set (parts' := parts ≫= _).
    assert (∀ w, w ∈ parts' → w ≠ "" ∧ str_forallb (λ c, p c && negb (Ascii.eqb c d)) w = true) as Hparts'.
    { intros w (u & [Hne Hw]%list_elem_of_filter & Hu)%list_elem_of_bind. split; [done|].
      destruct (Split_parts d u w Hw) as [Hn Hall]. destruct (Hparts u Hu) as [_ Hpu]. specialize (Hall p Hpu).
      revert Hn Hall. unfold no_byte. clear. induction w as [|c w IHw]; [done|]. cbn [str_forallb].
      intros [-> Hn]%andb_true_iff [-> Hall]%andb_true_iff. by apply IHw. }
    destruct (IH parts' (λ c, p c && negb (Ascii.eqb c d)) Hparts') as [Hw Hc]. fold (singles seps). split.
    + intros w Hin. destruct (Hw w Hin) as (? & Hpd & Hns). split; [done|]. revert Hpd Hns. clear.
      induction w as [|c w IHw]; [done|]. cbn [str_forallb not_sep forallb].
      intros [[-> ->]%andb_true_iff H1]%andb_true_iff [Hns H2]%andb_true_iff. destruct (IHw H1 H2) as [-> ->].
      unfold not_sep in Hns. by rewrite Hns.
    + rewrite Hc. assert (str_concat parts' = str_filter (λ c, negb (Ascii.eqb c d)) (str_concat parts)) as ->.
      { unfold parts'. clear. induction parts as [|u parts IHp]; [done|]. cbn [mbind list_bind].
        rewrite str_concat_app, IHp, concat_nonempty, concat_Split. simpl. by rewrite str_filter_app. }
      rewrite str_filter_filter. apply str_filter_ext. done.
Qed.

(** ** Lemmas: promotion *)

(** The base and the index of an indexed key whose index is accepted. *)
Definition place (key : string) : option (string * nat) :=
  match indexed_key key with
  | Some (base, digits) =>
      match Atoi digits with Some n => if (MaxRoutingIndex <? n)%Z then None else Some (base, Z.to_nat n) | None => None end
  | None => None
  end.

Definition too_large (key : string) : bool := bool_decide (is_Some (indexed_key key)) && negb (bool_decide (is_Some (place key))).

Lemma group_step_cases path groups e :
  (too_large e.1 = true ∧ ∃ err, group_step path groups e = Err err)
  ∨ (indexed_key e.1 = None ∧ place e.1 = None ∧ too_large e.1 = false ∧ group_step path groups e = Ok groups)
  ∨ ∃ b i, place e.1 = Some (b, i) ∧ too_large e.1 = false
      ∧ group_step path groups e = Ok (<[b := add_to_group (groups !! b) e.1 i e.2]> groups).
Proof.
  unfold group_step, too_large, place. destruct (indexed_key e.1) as [[b d]|]; [|right; left; by split_and!].
  destruct (Atoi d) as [n|]; [|left; split; [done|by eexists]]. destruct (MaxRoutingIndex <? n)%Z; [left; split; [done|by eexists]|].
  right; right. exists b, (Z.to_nat n). by split_and!.
Qed.

(** What a group knows of the entries seen so far. *)
Definition group_ok (l : list (string * value)) (b : string) (g : option indexedGroup) : Prop :=
  match g with
  | None => ∀ key v i, (key, v) ∈ l → place key ≠ Some (b, i)
  | Some g =>
      (∀ key, key ∈ ig_keys g ↔ ∃ v i, (key, v) ∈ l ∧ place key = Some (b, i))
      ∧ (∀ i v, ig_values g !! i = Some v → i ≤ ig_max g ∧ ∃ key, (key, v) ∈ l ∧ place key = Some (b, i))
      ∧ (∀ key v i, (key, v) ∈ l → place key = Some (b, i) → is_Some (ig_values g !! i))
      ∧ is_Some (ig_values g !! ig_max g)
  end.

Lemma group_ok_other l e b g : (∀ i, place e.1 ≠ Some (b, i)) → group_ok l b g → group_ok (l ++ [e]) b g.
Proof.
  intros Hne. assert (∀ key v i, (key, v) ∈ l ++ [e] ∧ place key = Some (b, i) ↔ (key, v) ∈ l ∧ place key = Some (b, i)) as Heq.
  { intros key v i. rewrite elem_of_app, list_elem_of_singleton. split; [|naive_solver].
    intros [[?|<-] ?]; [done|]. by destruct (Hne i). }
  destruct g as [g|]; simpl.
  - intros (Hk & Hv & Hs & Hm). split_and!; [|..|done].
    + intros key. rewrite Hk. split; intros (v & i & ?); exists v, i; by apply Heq.
    + intros i v Hi. destruct (Hv i v Hi) as (? & key & ?). split; [done|]. exists key. by apply Heq.
    + intros key v i Hin Hp. apply (Hs key v i); [by apply (Heq key v i)|done].
  - intros Hn key v i Hin Hp. apply (Hn key v i); [by apply (Heq key v i)|done].
Qed.

Lemma group_ok_add l e b i g : place e.1 = Some (b, i) → group_ok l b g → group_ok (l ++ [e]) b (Some (add_to_group g e.1 i e.2)).
Proof.
  intros He Hg. assert (e ∈ l ++ [e]) as Hlast by (apply elem_of_app; right; by apply list_elem_of_singleton).
  assert (∀ x, x ∈ l → x ∈ l ++ [e]) as Hold by (intros x Hx; apply elem_of_app; by left).
  destruct e as [ke ve]; simpl in He. unfold add_to_group. destruct g as [g|]; simpl in Hg |- *.
  - destruct Hg as (Hk & Hv & Hs & Hm). split_and!.
    + intros key. rewrite elem_of_app, list_elem_of_singleton, Hk. split.
      * intros [(v & j & Hin & Hp)| ->]; [exists v, j; auto|]. by exists ve, i.
      * intros (v & j & [Hin|[= -> ->]%list_elem_of_singleton]%elem_of_app & Hp); [left; eauto|by right].
    + intros j v [[<- <-]|[Hj Hl]]%lookup_insert_Some; [split; [lia|by exists ke]|].
      destruct (Hv j v Hl) as (? & key & Hin & ?). split; [lia|]. exists key. auto.
    + intros key v j Hin Hp. destruct (decide (i = j)) as [->|Hij]; [rewrite lookup_insert_eq; by eexists|].
      rewrite lookup_insert_ne by done. apply elem_of_app in Hin as [Hin|[= -> ->]%list_elem_of_singleton]; [by eapply Hs|congruence].
    + destruct (decide (i = i `max` ig_max g)) as [<-|Hij]; [rewrite lookup_insert_eq; by eexists|].
      rewrite lookup_insert_ne by done. assert (i `max` ig_max g = ig_max g) as -> by lia. done.
  - split_and!.
    + intros key. rewrite list_elem_of_singleton. split; [intros ->; by exists ve, i|].
      intros (v & j & [Hin|[= -> ->]%list_elem_of_singleton]%elem_of_app & Hp); [by destruct (Hg key v j)|done].
    + intros j v [<- <-]%lookup_singleton_Some. split; [done|]. by exists ke.
    + intros key v j [Hin|[= -> ->]%list_elem_of_singleton]%elem_of_app Hp; [by destruct (Hg key v j)|].
      assert (i = j) as -> by congruence. rewrite lookup_singleton_eq. by eexists.
    + rewrite lookup_singleton_eq. by eexists.
Qed.

Lemma group_ok_perm l l' b g : l ≡ₚ l' → group_ok l b g → group_ok l' b g.
Proof. intros Hp. destruct g as [g|]; unfold group_ok; setoid_rewrite Hp; done. Qed.

Lemma groups_spec path l :
  match foldM (group_step path) ∅ l with
  | Ok groups => (∀ e, e ∈ l → too_large e.1 = false) ∧ ∀ b, group_ok l b (groups !! b)
  | Err _ => ∃ e, e ∈ l ∧ too_large e.1 = true
  end.
Proof.
  induction l as [|e l IH] using rev_ind; cbn [foldM].
  { split; [intros e He; by apply not_elem_of_nil in He|]. intros b. rewrite lookup_empty. intros key v i Hin. by apply not_elem_of_nil in Hin. }
  rewrite foldM_app. destruct (foldM (group_step path) ∅ l) as [groups|err]; cbn [mbind result_bind foldM].
  2:{ destruct IH as (x & Hx & ?). exists x. split; [|done]. apply elem_of_app. by left. }
  destruct IH as [Hl Hg].
  destruct (group_step_cases path groups e) as [[Hbig [err ->]]|[(_ & Hp & Hbig & ->)|(b & i & Hp & Hbig & ->)]]; cbn [mbind result_bind foldM].
  - exists e. split; [|done]. apply elem_of_app. right. by apply list_elem_of_singleton.
  - split; [intros x [Hx| ->%list_elem_of_singleton]%elem_of_app; [by apply Hl|done]|].
    intros b. apply group_ok_other; [by rewrite Hp|done].
  - split; [intros x [Hx| ->%list_elem_of_singleton]%elem_of_app; [by apply Hl|done]|].
    intros b'. destruct (decide (b = b')) as [<-|Hb]; [rewrite lookup_insert_eq; by apply group_ok_add|].
    rewrite lookup_insert_ne by done. apply group_ok_other; [intros j; congruence|done].
Qed.

Lemma foldl_delete (keys : list string) (node : gmap string value) k :
  foldl (λ node key, delete key node) node keys !! k = if decide (k ∈ keys) then None else node !! k.
Proof.
  revert node. induction keys as [|key keys IH]; intros node; [by rewrite decide_False by apply not_elem_of_nil|].
  cbn [foldl]. rewrite IH. destruct (decide (k ∈ keys)); [by rewrite decide_True by (by constructor)|].
  destruct (decide (k = key)) as [->|Hk]; [by rewrite lookup_delete_eq, decide_True by constructor|].
  rewrite lookup_delete_ne by done. by rewrite decide_False by (by apply not_elem_of_cons).
Qed.

(** A node in which the promotions do not meet: two keys with one base have two
    indices, and no base is an indexed key itself. *)
Definition unambiguous (node : gmap string value) : Prop :=
  (∀ k1 k2 p, is_Some (node !! k1) → is_Some (node !! k2) → place k1 = Some p → place k2 = Some p → k1 = k2)
  ∧ (∀ k b i, is_Some (node !! k) → place k = Some (b, i) → indexed_key b = None).

Lemma place_indexed k b i : place k = Some (b, i) → is_Some (indexed_key k).
Proof. unfold place. destruct (indexed_key k); [by eexists|done]. Qed.

Definition promoted (node : gmap string value) (gs : list (string * indexedGroup)) (k : string) : option value :=
  match place k with
  | Some (b, _) => if decide (b ∈ gs.*1 ∧ node !! b = None) then None else node !! k
  | None => match node !! k with
            | Some v => Some v
            | None => (λ g, VSlice (items_of g)) <$> (list_to_map gs : gmap string indexedGroup) !! k
            end
  end.

Lemma list_to_map_one (b : string) (g : indexedGroup) : (list_to_map [(b, g)] : gmap string indexedGroup) = {[b := g]}.
Proof. done. Qed.

(** Promoting groups one by one, in any order. *)
Lemma promote_fold node gs : unambiguous node → NoDup gs.*1 →
  (∀ b g, (b, g) ∈ gs → group_ok (map_to_list node) b (Some g)) →
  ∀ k, foldl promote_group node gs !! k = promoted node gs k.
Proof.
  intros [_ Hbase] Hnd Hgs. induction gs as [|[b g] gs IH] using rev_ind; intros k.
  { unfold promoted. cbn [foldl]. change (list_to_map [] : gmap string indexedGroup) with (∅ : gmap string indexedGroup). rewrite lookup_empty. destruct (place k) as [[b i]|]; [|by destruct (node !! k)].
    rewrite decide_False; [done|]. intros [Hin _]. by apply not_elem_of_nil in Hin. }
  rewrite fmap_app in Hnd. apply NoDup_app in Hnd as (Hnd & Hnot & _).
  assert (b ∉ gs.*1) as Hb by (intros Hin; apply (Hnot b Hin); left).
  specialize (IH Hnd (λ b' g' Hin, Hgs b' g' ltac:(apply elem_of_app; by left))).
  assert (group_ok (map_to_list node) b (Some g)) as (Hkeys & _ & _ & Hmax) by (apply Hgs, elem_of_app; right; by apply list_elem_of_singleton).
  assert (∀ key, key ∈ ig_keys g → ∃ i, place key = Some (b, i) ∧ is_Some (node !! key)) as Hkey.
  { intros key (v & i & Hin & Hp)%Hkeys. apply elem_of_map_to_list in Hin. eauto. }
  assert (place b = None ∧ node !! b = foldl promote_group node gs !! b) as [Hpb Hlook].
  { destruct Hmax as [v Hv]. destruct (Hgs b g) as (_ & Hval & _); [apply elem_of_app; right; by apply list_elem_of_singleton|].
    destruct (Hval _ _ Hv) as (_ & key & Hin & Hp). apply elem_of_map_to_list in Hin.
    pose proof (Hbase key b _ (mk_is_Some _ _ Hin) Hp) as Hnone.
    assert (place b = None) as Hpb by (unfold place; by rewrite Hnone). split; [done|].
    rewrite IH. unfold promoted. rewrite Hpb. rewrite (not_elem_of_list_to_map_1 gs b Hb). by destruct (node !! b). }
  rewrite foldl_app. cbn [foldl]. set (acc := foldl promote_group node gs) in *.
  unfold promote_group; simpl fst; simpl snd. rewrite <-Hlook. unfold promoted.
  rewrite fmap_app. change ([(b, g)].*1) with [b]. destruct (node !! b) as [vb|] eqn:Hnb.
  - rewrite IH. unfold promoted. destruct (place k) as [[b' i]|] eqn:Hp.
    + apply decide_ext. rewrite elem_of_app, list_elem_of_singleton. naive_solver.
    + destruct (node !! k) eqn:Hk; [done|]. rewrite list_to_map_app, lookup_union_l; [done|].
      rewrite list_to_map_one, lookup_singleton_ne; [done|congruence].
  - destruct (decide (k = b)) as [->|Hkb].
    + rewrite lookup_insert_eq, Hpb, Hnb. rewrite list_to_map_app.
      rewrite lookup_union_r by (by apply not_elem_of_list_to_map_1). by rewrite list_to_map_one, lookup_singleton_eq.
    + rewrite lookup_insert_ne by done. rewrite foldl_delete, IH. unfold promoted. destruct (place k) as [[b' i]|] eqn:Hp.
      * destruct (decide (b' = b)) as [->|Hbb].
        -- rewrite (decide_True (P := b ∈ gs.*1 ++ [b] ∧ _)); [|split; [apply elem_of_app; right; by apply list_elem_of_singleton|done]].
           destruct (decide (k ∈ ig_keys g)) as [|Hnk]; [done|]. rewrite decide_False by naive_solver.
           destruct (node !! k) as [v|] eqn:Hk; [|done]. destruct Hnk. apply Hkeys. exists v, i. by rewrite elem_of_map_to_list.
        -- rewrite decide_False by (intros (j & ? & _)%Hkey; congruence). apply decide_ext.
           rewrite elem_of_app, list_elem_of_singleton. naive_solver.
      * rewrite decide_False by (intros (j & ? & _)%Hkey; congruence). destruct (node !! k); [done|].
        rewrite list_to_map_app, lookup_union_l; [done|rewrite list_to_map_one, lookup_singleton_ne; [done|congruence]].
Qed.

Lemma place_bound k b i : place k = Some (b, i) → i ≤ 1023.
Proof.
  unfold place. destruct (indexed_key k) as [[b' d]|]; [|done]. destruct (Atoi d) as [n|]; [|done].
  unfold MaxRoutingIndex. destruct (Z.ltb_spec 1023 n); [done|]. intros [= _ <-]. lia.
Qed.

Lemma items_lookup g i : items_of g !! i = if decide (i ≤ ig_max g) then Some (default VNil (ig_values g !! i)) else None.
Proof.
  unfold items_of. rewrite list_lookup_fmap. destruct (decide (i ≤ ig_max g)).
  - by rewrite lookup_seq_lt by lia.
  - by rewrite lookup_seq_ge by lia.
Qed.

(** ** Correctness of labels *)

(** Indexed keys become lists. Promotion fails exactly when an index is above
    1023. Otherwise, and when no two keys of a level compete, whatever order Go
    ranges over the maps in: an indexed key goes exactly when its base is not
    taken; a new key is such a base, and its list has at most 1024 items, the
    value of every indexed key at its index, nil between them, and ends at the
    largest index; everything else stays. *)
Theorem routing_promotion (range : ∀ A, gmap string A → list (string * A)) (node : gmap string value) (path : list string)
    (Hrange : ∀ A (m : gmap string A), range A m ≡ₚ map_to_list m) :
  (is_Ok (promoteIndexedKeysAtLevel range node path) = false ↔ ∃ k, is_Some (node !! k) ∧ too_large k = true)
  ∧ (∀ node', unambiguous node → promoteIndexedKeysAtLevel range node path = Ok node' → ∀ k,
       match place k, node !! k with
       | Some (b, _), _ => node' !! k = if node !! b is None then None else node !! k
       | None, Some v => node' !! k = Some v
       | None, None =>
           node' !! k = None ∧ (∀ key i, is_Some (node !! key) → place key ≠ Some (k, i))
           ∨ ∃ items, node' !! k = Some (VSlice items) ∧ length items ≤ 1024
             ∧ (∀ key v i, node !! key = Some v → place key = Some (k, i) → items !! i = Some v)
             ∧ (∀ i v, items !! i = Some v → v = VNil ∨ ∃ key, node !! key = Some v ∧ place key = Some (k, i))
             ∧ ∃ key, is_Some (node !! key) ∧ place key = Some (k, pred (length items))
       end).
Proof.
  unfold promoteIndexedKeysAtLevel. pose proof (groups_spec path (range _ node)) as Hgroups.
  assert (∀ e, e ∈ range _ node ↔ node !! e.1 = Some e.2) as Hin.
  { intros [k v]. rewrite (Hrange _ node). apply elem_of_map_to_list. }
  destruct (foldM (group_step path) ∅ (range value node)) as [groups|err]; cbn [mbind result_bind].
  2:{ split; [|done]. split; [|done]. intros _. destruct Hgroups as ([k v] & Hx & ?). exists k. apply Hin in Hx. by split. }
  destruct Hgroups as [Hsmall Hok]. split.
  { split; [done|]. intros (k & [v Hk] & Hbig). pose proof (Hsmall (k, v) ltac:(by apply Hin)) as Hs. simpl in Hs. congruence. }
  assert (∀ b, group_ok (map_to_list node) b (groups !! b)) as Hok'.
  { intros b. eapply group_ok_perm; [|apply Hok]. apply Hrange. }
  intros node' Hun [= <-] k.
  assert (NoDup (range _ groups).*1) as Hnd by (rewrite (Hrange _ groups); apply NoDup_fst_map_to_list).
  rewrite (promote_fold node (range _ groups) Hun Hnd).
  2:{ intros b g Hbg. rewrite (Hrange _ groups) in Hbg. apply elem_of_map_to_list in Hbg. rewrite <-Hbg. apply Hok'. }
  unfold promoted.
  assert ((list_to_map (range _ groups) : gmap string indexedGroup) = groups) as ->.
  { etransitivity; [apply (list_to_map_proper (M := gmap string)); [exact Hnd|apply Hrange]|apply list_to_map_to_list]. }
  destruct (place k) as [[b i]|] eqn:Hp.
  - destruct (node !! b) as [vb|] eqn:Hb; [by rewrite decide_False by naive_solver|].
    destruct (node !! k) as [v|] eqn:Hk; [|by destruct (decide _)]. rewrite decide_True; [done|]. split; [|done].
    destruct (groups !! b) as [g|] eqn:Hg.
    + rewrite (Hrange _ groups). apply list_elem_of_fmap. exists (b, g). split; [done|]. by apply elem_of_map_to_list.
    + exfalso. specialize (Hok' b). rewrite Hg in Hok'. apply (Hok' k v i); [by apply elem_of_map_to_list|done].
  - destruct (node !! k) as [v|] eqn:Hk; [done|]. specialize (Hok' k). destruct (groups !! k) as [g|].
    + right. exists (items_of g). destruct Hok' as (_ & Hval & Hsome & [vm Hmax]).
      assert (length (items_of g) = S (ig_max g)) as Hlen by (unfold items_of; by rewrite length_fmap, length_seq).
      destruct (Hval _ _ Hmax) as (_ & kmax & Hkm & Hpm). apply elem_of_map_to_list in Hkm. rewrite Hlen.
      split_and!; [done|apply place_bound in Hpm; lia| | |exists kmax; by split; [eexists|]].
      * intros key v i Hkey Hpk. rewrite items_lookup.
        destruct (Hsome key v i) as [w Hw]; [by apply elem_of_map_to_list|done|].
        destruct (Hval i w Hw) as (Hle & key' & Hin' & Hp'). rewrite decide_True, Hw by done. simpl.
        apply elem_of_map_to_list in Hin'. assert (key' = key) as -> by (by apply (proj1 Hun key' key (k, i)); eauto). congruence.
      * intros i v. rewrite items_lookup. destruct (decide (i ≤ ig_max g)); [|done]. intros [= <-].
        destruct (ig_values g !! i) as [w|] eqn:Hw; [right|by left]. destruct (Hval i w Hw) as (_ & key & Hin' & ?).
        apply elem_of_map_to_list in Hin'. by exists key.
    + left. split; [done|]. intros key i [v Hkey] Hpk. apply (Hok' key v i); [by apply elem_of_map_to_list|done].
Qed.

(** Expansion splits keys at separators and nothing else, and the last label
    wins. The path of a key has no empty segment and no separator in it, and its
    segments are, run together, the key without its separators; and a label's
    value is at its path unless a later label wrote an overlapping one. *)
Theorem label_expansion `{GoStd} (opts : LabelOptions) (seps : list ascii) (input : label_input)
    (Hseps : resolveSeparators opts = singles seps) :
  (∀ k, k ≠ "" → let path := splitMulti k (resolveSeparators opts) in
     (∀ w, w ∈ path → w ≠ "" ∧ str_forallb (not_sep seps) w = true)
     ∧ str_concat path = str_filter (not_sep seps) k)
  ∧ (∀ before p after path v, NormalizeLabelInput input = before ++ p :: after →
       label_write opts p = Some (path, v) → path ≠ [] →
       (∀ p' q w, p' ∈ after → label_write opts p' = Some (q, w) → disjoint_paths q path) →
       get_at (VMap (ExpandLabels input opts)) path = Some v).
Proof.
  split.
  - intros k Hk. rewrite Hseps. destruct (splitMulti_parts seps [k] (λ _, true)) as [Hw Hc].
    + intros w ->%list_elem_of_singleton. split; [done|]. clear. by induction k.
    + split; [intros w Hin; by destruct (Hw w Hin) as (? & _ & ?)|]. unfold splitMulti. rewrite Hc. simpl. by rewrite app_str_nil_r.
  - intros before p after path v Heq Hp Hne Hd. unfold ExpandLabels. rewrite Heq, foldl_written, fmap_app, fmap_cons, Hp.
    apply written_last; [done|]. intros q w (p' & Hp' & Hin)%list_elem_of_fmap. by apply (Hd p' q w).
Qed.

(** Nested indexed keys depend on the iteration order of Go's maps. With
    [a[0]] and [a[0][1]] in one level, promoting the group of [a] first frees the
    key [a[0]] for the group of [a[0][1]], which the opposite order skips because
    the key is still there. *)
Theorem promotion_order_matters (x y : string) :
  let node : gmap string value := {["a[0]" := VString x; "a[0][1]" := VString y]} in
  promoteIndexedKeysAtLevel (λ A m, map_to_list m) node []
  ≠ promoteIndexedKeysAtLevel (λ A m, reverse (map_to_list m)) node [].
Proof. intros node Heq. unfold node in Heq. vm_compute in Heq. discriminate. Qed.

(** ** Examples *)

Definition example_indexed : gmap string value := {["hosts[0]" := VString "a"; "hosts[2]" := VString "c"; "x" := VNil]}.

Example example_promoted : promoteIndexedKeysAtLevel (λ A m, map_to_list m) example_indexed []
  = Ok {["hosts" := VSlice [VString "a"; VNil; VString "c"]; "x" := VNil]}.
Proof. vm_compute. reflexivity. Qed.

Lemma routing_promotion_witness : is_Ok (promoteIndexedKeysAtLevel (λ A m, map_to_list m) {["a[1024]" := VNil]} []) = false.
Proof.
  apply (routing_promotion (λ A m, map_to_list m) {["a[1024]" := VNil]} []); [reflexivity|].
  exists "a[1024]". split; [exists VNil|]; vm_compute; reflexivity.
Defined.

Definition example_label_options : LabelOptions :=
  {| lo_Prefix := "app."; lo_StripPrefix := true; lo_Separator := ""; lo_Separators := ["/"; "."]; lo_Coerce := false |}.

Lemma label_expansion_witness : str_concat (splitMulti "a/b.c" (resolveSeparators example_label_options)) = "abc".
Proof.
  destruct (@label_expansion example_std example_label_options ["/"%char; "."%char] InOther) as [Hk _]; [reflexivity|].
  destruct (Hk "a/b.c") as [_ ->]; [discriminate|reflexivity].
Defined.
