(* ===== verification/Feature.v ===== *)
(** * Feature flags (feature/feature.go)

    Rules with targets and percentage rollouts, evaluated on the attributes of a
    request.  SHA-256 is [go_sha256]. *)
From S2P Require Import Prelude GoStrings Value.
From Stdlib Require Import Ascii.
Open Scope Z_scope.

Notation EvalContext := (gmap string string).

Record Target := { t_When : EvalContext; t_Value : value }.
Record Rollout := { ro_Percent : Z; ro_HashKey : string; ro_Value : value }.
Record Rule := { ru_Key : string; ru_Default : value; ru_Targets : list Target; ru_Rollouts : list Rollout }.

(** The loop over [want], which stops at the first attribute that differs. *)
Fixpoint matches_loop (want : list (string * string)) (have : EvalContext) : bool :=
  match want with
  | [] => true
  | (k, v) :: want => match have !! k with
                      | Some got => if String.eqb got v then matches_loop want have else false
                      | None => false
                      end
  end.

Definition matches (want have : EvalContext) : bool :=
  if decide (want = ∅) then false else matches_loop (map_to_list want) have.

(** [binary.BigEndian.Uint64] of the first eight bytes. *)
Fixpoint big_endian (n : nat) (s : string) (acc : Z) : Z :=
  match n, s with
  | S n, String c s => big_endian n s (256 * acc + Z.of_nat (nat_of_ascii c))
  | _, _ => acc
  end.

Section feature.
Context `{GoStd}.

Definition inBucket (anchor : string) (percent : Z) : bool :=
  if percent <=? 0 then false
  else if 100 <=? percent then true
  else big_endian 8 (go_sha256 anchor) 0 mod 100 <? percent.

(** Whether a request lands in a rollout; without an anchor it is skipped. *)
Definition rollout_hits (ro : Rollout) (ctx : EvalContext) : bool :=
  if String.eqb (ro_HashKey ro) "" then false
  else match ctx !! ro_HashKey ro with
       | Some anchor => if String.eqb anchor "" then false else inBucket anchor (ro_Percent ro)
       | None => false
       end.

Fixpoint eval_rollouts (l : list Rollout) (ctx : EvalContext) (def : value) : value :=
  match l with [] => def | ro :: l => if rollout_hits ro ctx then ro_Value ro else eval_rollouts l ctx def end.

Fixpoint eval_targets (l : list Target) (ctx : EvalContext) (rest : value) : value :=
  match l with [] => rest | t :: l => if matches (t_When t) ctx then t_Value t else eval_targets l ctx rest end.

Definition Evaluate (r : Rule) (ctx : EvalContext) : value :=
  eval_targets (ru_Targets r) ctx (eval_rollouts (ru_Rollouts r) ctx (ru_Default r)).

Definition Eval (rules : gmap string Rule) (key : string) (ctx : EvalContext) (def : value) : value :=
  match rules !! key with Some r => Evaluate r ctx | None => def end.

(** ** Lemmas *)

Lemma matches_loop_spec want have : matches_loop want have = true ↔ ∀ k v, (k, v) ∈ want → have !! k = Some v.
Proof.
  induction want as [|[k v] want IH]; simpl.
  { split; [|done]. intros _ k v Hin. by apply not_elem_of_nil in Hin. }
  destruct (have !! k) as [got|] eqn:Hk.
  - destruct (String.eqb_spec got v) as [->|Hne].
    + rewrite IH. split; [|intros Hall k' v' Hin; apply Hall; by constructor].
      intros Hall k' v' [[= -> ->]|Hin]%elem_of_cons; [done|by apply Hall].
    + split; [done|]. intros Hall. specialize (Hall k v ltac:(left)). congruence.
  - split; [done|]. intros Hall. specialize (Hall k v ltac:(left)). congruence.
Qed.

(** A target matches when its attributes are a non-empty part of the context. *)
Lemma matches_spec want have : matches want have = true ↔ want ≠ ∅ ∧ want ⊆ have.
Proof.
  unfold matches. destruct (decide (want = ∅)) as [->|Hne]; [split; [done|intros [Hn _]; by destruct Hn]|].
  rewrite matches_loop_spec. rewrite map_subseteq_spec. setoid_rewrite elem_of_map_to_list. naive_solver.
Qed.

Lemma eval_targets_first l ctx rest :
  (∃ i t, l !! i = Some t ∧ matches (t_When t) ctx = true ∧ eval_targets l ctx rest = t_Value t
          ∧ ∀ j t', (j < i)%nat → l !! j = Some t' → matches (t_When t') ctx = false)
  ∨ eval_targets l ctx rest = rest ∧ ∀ t, t ∈ l → matches (t_When t) ctx = false.
Proof.
  induction l as [|t l IH]; simpl; [right; split; [done|]; intros t Ht; by apply not_elem_of_nil in Ht|].
  destruct (matches (t_When t) ctx) eqn:Hm.
  - left. exists 0%nat, t. split_and!; [done..|]. intros j t' Hj. lia.
  - destruct IH as [(i & t' & Hi & Hm' & He & Hlt)|[He Hall]].
    + left. exists (S i), t'. split_and!; [done..|]. intros [|j] t'' Hj Hl; [simpl in Hl; congruence|]. apply (Hlt j); [lia|done].
    + right. split; [done|]. intros t' [->|Hin]%elem_of_cons; [done|by apply Hall].
Qed.

Lemma eval_rollouts_first l ctx def :
  (∃ i ro, l !! i = Some ro ∧ rollout_hits ro ctx = true ∧ eval_rollouts l ctx def = ro_Value ro
           ∧ ∀ j ro', (j < i)%nat → l !! j = Some ro' → rollout_hits ro' ctx = false)
  ∨ eval_rollouts l ctx def = def ∧ ∀ ro, ro ∈ l → rollout_hits ro ctx = false.
Proof.
  induction l as [|ro l IH]; simpl; [right; split; [done|]; intros ro Hro; by apply not_elem_of_nil in Hro|].
  destruct (rollout_hits ro ctx) eqn:Hm.
  - left. exists 0%nat, ro. split_and!; [done..|]. intros j ro' Hj. lia.
  - destruct IH as [(i & ro' & Hi & Hm' & He & Hlt)|[He Hall]].
    + left. exists (S i), ro'. split_and!; [done..|]. intros [|j] ro'' Hj Hl; [simpl in Hl; congruence|]. apply (Hlt j); [lia|done].
    + right. split; [done|]. intros ro' [->|Hin]%elem_of_cons; [done|by apply Hall].
Qed.

Lemma inBucket_mono anchor p q : p <= q → inBucket anchor p = true → inBucket anchor q = true.
Proof.
  intros Hpq. unfold inBucket. destruct (Z.leb_spec p 0); [done|]. destruct (Z.leb_spec q 0); [lia|].
  destruct (Z.leb_spec 100 q); [done|]. destruct (Z.leb_spec 100 p); [lia|]. rewrite !Z.ltb_lt. lia.
Qed.

Definition widen (ro : Rollout) (q : Z) : Rollout := {| ro_Percent := q; ro_HashKey := ro_HashKey ro; ro_Value := ro_Value ro |}.

Lemma widen_hits ro q ctx : ro_Percent ro <= q → rollout_hits ro ctx = true → rollout_hits (widen ro q) ctx = true.
Proof.
  intros Hq. unfold rollout_hits; simpl. destruct (String.eqb (ro_HashKey ro) ""); [done|].
  destruct (ctx !! ro_HashKey ro) as [a|]; [|done]. destruct (String.eqb a ""); [done|]. by apply inBucket_mono.
Qed.

Lemma eval_targets_rest l ctx rest rest' :
  eval_targets l ctx rest = eval_targets l ctx rest' ∨ (eval_targets l ctx rest = rest ∧ eval_targets l ctx rest' = rest').
Proof. induction l as [|t l IH]; simpl; [by right|]. destruct (matches (t_When t) ctx); [by left|done]. Qed.

Lemma eval_rollouts_widen l i ro q ctx def : l !! i = Some ro → ro_Percent ro <= q →
  eval_rollouts (<[i := widen ro q]> l) ctx def = eval_rollouts l ctx def
  ∨ eval_rollouts (<[i := widen ro q]> l) ctx def = ro_Value ro.
Proof.
  intros Hi Hq. revert i Hi. induction l as [|ro' l IH]; intros [|i] Hi; try done; simpl in Hi |- *.
  - injection Hi as ->. destruct (rollout_hits (widen ro q) ctx) eqn:Hw; [by right|].
    destruct (rollout_hits ro ctx) eqn:Hh; [|by left]. by rewrite (widen_hits ro q ctx Hq Hh) in Hw.
  - destruct (rollout_hits ro' ctx); [by left|by apply IH].
Qed.
End feature.

(** ** Correctness of flags *)

(** A flag is decided by its first match. The value is that of the first target
    whose attributes are a non-empty part of the request's; if there is none, of
    the first rollout that the request's anchor falls in; if there is none, the
    default. *)
Theorem flag_evaluation `{GoStd} (r : Rule) (ctx : EvalContext) :
  (∃ i t, ru_Targets r !! i = Some t ∧ (t_When t ≠ ∅ ∧ t_When t ⊆ ctx) ∧ Evaluate r ctx = t_Value t
     ∧ ∀ j t', (j < i)%nat → ru_Targets r !! j = Some t' → ¬ (t_When t' ≠ ∅ ∧ t_When t' ⊆ ctx))
  ∨ (∀ t, t ∈ ru_Targets r → ¬ (t_When t ≠ ∅ ∧ t_When t ⊆ ctx))
    ∧ ((∃ i ro, ru_Rollouts r !! i = Some ro ∧ rollout_hits ro ctx = true ∧ Evaluate r ctx = ro_Value ro
          ∧ ∀ j ro', (j < i)%nat → ru_Rollouts r !! j = Some ro' → rollout_hits ro' ctx = false)
       ∨ Evaluate r ctx = ru_Default r ∧ ∀ ro, ro ∈ ru_Rollouts r → rollout_hits ro ctx = false).
Proof.
  unfold Evaluate.
  destruct (eval_targets_first (ru_Targets r) ctx (eval_rollouts (ru_Rollouts r) ctx (ru_Default r)))
    as [(i & t & Hi & Hm & -> & Hlt)|[-> Hall]].
  - left. exists i, t. apply matches_spec in Hm. split; [done|split; [done|split; [done|]]].
    intros j t' Hj Ht' Hm'%matches_spec. by rewrite (Hlt j t') in Hm'.
  - right. split; [|apply eval_rollouts_first]. intros t Ht Hm%matches_spec. by rewrite (Hall t) in Hm.
Qed.

(** A wider rollout is safe. Raising a rollout's percentage leaves a request's
    value as it was or gives it that rollout's value; so that no request that had
    the value loses it. *)
Theorem rollout_monotone `{GoStd} (r : Rule) (i : nat) (ro : Rollout) (q : Z) (ctx : EvalContext)
    (Hi : ru_Rollouts r !! i = Some ro) (Hq : ro_Percent ro <= q) :
  let r' := {| ru_Key := ru_Key r; ru_Default := ru_Default r; ru_Targets := ru_Targets r;
               ru_Rollouts := <[i := widen ro q]> (ru_Rollouts r) |} in
  Evaluate r' ctx = Evaluate r ctx ∨ Evaluate r' ctx = ro_Value ro.
Proof.
  unfold Evaluate; simpl.
  destruct (eval_targets_rest (ru_Targets r) ctx (eval_rollouts (<[i := widen ro q]> (ru_Rollouts r)) ctx (ru_Default r))
    (eval_rollouts (ru_Rollouts r) ctx (ru_Default r))) as [->|[-> ->]]; [by left|].
  by apply eval_rollouts_widen.
Qed.

(** ** Examples *)

Definition example_rollout : Rollout := {| ro_Percent := 0; ro_HashKey := "user"; ro_Value := VBool true |}.
Definition example_rule : Rule :=
  {| ru_Key := "dark"; ru_Default := VBool false;
     ru_Targets := [{| t_When := {["beta" := "yes"]}; t_Value := VString "beta" |}]; ru_Rollouts := [example_rollout] |}.

Example example_flags :
  @Evaluate example_std example_rule {["beta" := "yes"; "user" := "u1"]} = VString "beta"
  ∧ @Evaluate example_std example_rule {["user" := "u1"]} = VBool false
  ∧ @inBucket example_std "abcdefgh" 64 = false ∧ @inBucket example_std "abcdefgh" 65 = true.
Proof. vm_compute. split_and!; reflexivity. Qed.

Lemma rollout_monotone_witness :
  @Evaluate example_std {| ru_Key := "dark"; ru_Default := VBool false; ru_Targets := ru_Targets example_rule;
    ru_Rollouts := <[0%nat := widen example_rollout 100]> [example_rollout] |} {["user" := "u1"]} = VBool true.
Proof.
  destruct (@rollout_monotone example_std example_rule 0 example_rollout 100 {["user" := "u1"]}) as [Hr|Hr];
    [reflexivity|discriminate|vm_compute in Hr; discriminate|exact Hr].
Defined.
