(* ===== verification/Downward.v ===== *)
(** * The Downward API provider (providers/k8s/downward.go)

    The label and annotation files that kubelet mounts: [KEY="VALUE"] lines, kept
    under their raw keys or expanded into paths. *)
From S2P Require Import Prelude GoStrings Value Path Env Labels.
From Stdlib Require Import Ascii.
Open Scope nat_scope.

Definition DefaultLabelsPath : string := "/etc/podinfo/labels".
Definition DefaultAnnotationsPath : string := "/etc/podinfo/annotations".
Definition PriorityK8s : Z := 40.

Inductive MetadataMode := MetadataRaw | MetadataExpanded.

Record Options := {
  do_Name : string; do_Priority : Z; do_LabelsPath : string; do_AnnotationsPath : string; do_Separators : list string;
  do_LabelsMode : MetadataMode; do_AnnotationsMode : MetadataMode; do_At : string; do_MustExist : bool;
}.

Record DownwardProvider := { dp_opts : Options; dp_root : list string }.

Definition New (o : Options) : DownwardProvider :=
  {| dp_opts := {| do_Name := if String.eqb (do_Name o) "" then "k8s-downward" else do_Name o;
                   do_Priority := if (do_Priority o =? 0)%Z then PriorityK8s else do_Priority o;
                   do_LabelsPath := do_LabelsPath o; do_AnnotationsPath := do_AnnotationsPath o;
                   do_Separators := match do_Separators o with [] => ["/"; "."] | seps => seps end;
                   do_LabelsMode := do_LabelsMode o; do_AnnotationsMode := do_AnnotationsMode o;
                   do_At := do_At o; do_MustExist := do_MustExist o |};
     dp_root := Split (do_At o) |}.

Definition preset (mode : MetadataMode) (at_ : string) : Options :=
  {| do_Name := ""; do_Priority := 0; do_LabelsPath := DefaultLabelsPath; do_AnnotationsPath := DefaultAnnotationsPath;
     do_Separators := []; do_LabelsMode := mode; do_AnnotationsMode := mode; do_At := at_; do_MustExist := false |}.

Definition NewDefault : DownwardProvider := New (preset MetadataRaw "k8s.metadata").
Definition NewExpandedDefault : DownwardProvider := New (preset MetadataExpanded "").

Definition watchPaths (p : DownwardProvider) : list string :=
  let l := do_LabelsPath (dp_opts p) in
  let a := do_AnnotationsPath (dp_opts p) in
  (if String.eqb l "" then [] else [l]) ++ (if String.eqb a "" || String.eqb a l then [] else [a]).

(** ** The files *)

Definition downward_escape (d : ascii) : option ascii :=
  if Ascii.eqb d "r" then Some carriage else dotenv_escape d.

Definition parseQuoted (s : string) : result parse_error string := scan_quoted downward_escape s.

Inductive line_error := MissingEquals | EmptyKey | NotQuoted | BadQuoted (e : parse_error).

Definition downward_line (raw : string) : result line_error (option (string * string)) :=
  let line := TrimSpace raw in
  if String.eqb line "" || HasPrefix line "#" then Ok None
  else match strings_Cut line "=" with
       | None => Err MissingEquals
       | Some (k, rest) =>
           let key := TrimSpace k in
           if String.eqb key "" then Err EmptyKey
           else match rest with
                | String c body =>
                    if Ascii.eqb c quote then
                      match parseQuoted body with Ok v => Ok (Some (key, v)) | Err e => Err (BadQuoted e) end
                    else Err NotQuoted
                | "" => Err NotQuoted
                end
       end.

Fixpoint downward_lines (n : nat) (out : gmap string string) (lines : list string) : result (nat * line_error) (gmap string string) :=
  match lines with
  | [] => Ok out
  | raw :: lines =>
      match downward_line raw with
      | Err e => Err (S n, e)
      | Ok kv => downward_lines (S n) match kv with Some (k, v) => <[k := v]> out | None => out end lines
      end
  end.

Definition parseDownward (data : string) : result (nat * line_error) (gmap string string) :=
  downward_lines 0 ∅ (strings_Split data (String newline "")).

(** ** Loading *)

Inductive downward_error := ErrReadMeta (path : string) (e : file_error) | ErrParseMeta (path : string) (e : nat * line_error).

Section load.
Context `{GoStd}.
(** [os.ReadFile]. *)
Context (ReadFile : string → result file_error string).

Definition pair_leb (a b : string * string) : bool := str_leb a.1 b.1.

Definition loadBucket (p : DownwardProvider) (path : string) (mode : MetadataMode)
    : result downward_error (option (gmap string value)) :=
  match ReadFile path with
  | Err NotExist => if do_MustExist (dp_opts p) then Err (ErrReadMeta path NotExist) else Ok None
  | Err e => Err (ErrReadMeta path e)
  | Ok data =>
      match parseDownward data with
      | Err e => Err (ErrParseMeta path e)
      | Ok pairs =>
          if decide (pairs = ∅) then Ok (Some ∅)
          else match mode with
               | MetadataRaw => Ok (Some (VString <$> pairs))
               | MetadataExpanded =>
                   Ok (Some (ExpandLabels (InPairs (sort_stable pair_leb (map_to_list pairs)))
                     {| lo_Prefix := ""; lo_StripPrefix := false; lo_Separator := "";
                        lo_Separators := do_Separators (dp_opts p); lo_Coerce := false |}))
               end
      end
  end.

(** One bucket of [loadMap]: a missing file leaves no trace. *)
Definition add_bucket (p : DownwardProvider) (name path : string) (mode : MetadataMode) (inner : gmap string value)
    : result downward_error (gmap string value) :=
  if String.eqb path "" then Ok inner
  else tree ← loadBucket p path mode;
       Ok match tree with Some t => <[name := VMap t]> inner | None => inner end.

Definition downward_loadMap (p : DownwardProvider) : result downward_error (gmap string value) :=
  inner ← add_bucket p "labels" (do_LabelsPath (dp_opts p)) (do_LabelsMode (dp_opts p)) ∅;
  inner ← add_bucket p "annotations" (do_AnnotationsPath (dp_opts p)) (do_AnnotationsMode (dp_opts p)) inner;
  Ok (GraftAt inner (dp_root p)).
End load.

(** ** Lemmas: printing *)

Definition downward_escape_byte (c : ascii) : string :=
  if Ascii.eqb c carriage then String "\" "r" else escape_byte c.

Definition downward_print_line (kv : string * string) : string :=
  kv.1 +:+ String "=" (String quote (escape_by downward_escape_byte kv.2 +:+ String quote "")).

Definition print_downward (l : list (string * string)) : string :=
  strings_Join (downward_print_line <$> l) (String newline "").

Lemma parseQuoted_escape v rest : parseQuoted (escape_by downward_escape_byte v +:+ String quote rest) = Ok v.
Proof.
  apply scan_escape_by. intros c s. unfold downward_escape_byte. destruct (Ascii.eqb_spec c carriage) as [->|?].
  - by apply scan_escaped.
  - by apply scan_escape_byte.
Qed.

Lemma downward_line_print k v : key_ok k = true → downward_line (downward_print_line (k, v)) = Ok (Some (k, v)).
Proof.
  intros Hk. destruct (key_ok_spec k Hk) as (Hall & Heq & _ & c & t & Hkc & Hc & Hh).
  assert (TrimSpace (downward_print_line (k, v)) = downward_print_line (k, v)) as Htrim.
  { unfold downward_print_line; simpl. rewrite Hkc.
    eapply (TrimSpace_visible c _ quote (String c t +:+ String "=" (String quote (escape_by downward_escape_byte v)))); [done|done|].
    rewrite app_str_assoc. simpl. done. }
  unfold downward_line. rewrite Htrim.
  assert (String.eqb (downward_print_line (k, v)) "" || HasPrefix (downward_print_line (k, v)) "#" = false) as ->.
  { unfold downward_print_line; simpl. rewrite Hkc. unfold HasPrefix. simpl String.append.
    apply orb_false_iff. split; [done|]. cbn [String.prefix]. destruct (ascii_dec "#" c); [congruence|done]. }
  unfold downward_print_line at 1; simpl. rewrite Cut_app by done. rewrite TrimSpace_key by done.
  rewrite (proj2 (String.eqb_neq k "")) by (subst k; done).
  change (Ascii.eqb quote quote) with true. cbv iota. by rewrite parseQuoted_escape.
Qed.

Lemma downward_line_no_newline k v : key_ok k = true → no_byte newline (downward_print_line (k, v)) = true.
Proof.
  intros (_ & _ & Hn & _)%key_ok_spec. unfold downward_print_line, no_byte in *; simpl fst; simpl snd.
  rewrite str_forallb_app, Hn. cbn [str_forallb andb]. change (negb (Ascii.eqb "=" newline)) with true.
  change (negb (Ascii.eqb quote newline)) with true. cbn [andb]. rewrite str_forallb_app. apply andb_true_iff. split; [|done].
  induction v as [|c v IH]; [done|]. cbn [escape_by]. rewrite str_forallb_app, IH, andb_true_r.
  unfold downward_escape_byte. destruct (Ascii.eqb_spec c carriage); [done|].
  pose proof (escape_no_newline (String c "")) as He. unfold escape, no_byte in He. cbn [escape_by] in He.
  rewrite str_forallb_app in He. by apply andb_true_iff in He as [? _].
Qed.

Lemma downward_lines_print l n out : Forall (λ kv, key_ok kv.1 = true) l →
  downward_lines n out (downward_print_line <$> l) = Ok (foldl (λ out kv, <[kv.1 := kv.2]> out) out l).
Proof.
  intros Hl. revert n out. induction Hl as [|[k v] l Hk Hl IH]; intros n out; [done|]. cbn [fmap list_fmap downward_lines foldl].
  rewrite downward_line_print by done. apply IH.
Qed.

Lemma foldl_insert_map l (out : gmap string string) : NoDup l.*1 →
  foldl (λ out kv, <[kv.1 := kv.2]> out) out l = list_to_map l ∪ out.
Proof.
  intros Hnd. revert out. induction l as [|[k v] l IH]; intros out; [symmetry; apply (left_id_L ∅ (∪))|].
  cbn [fmap list_fmap] in Hnd. apply NoDup_cons in Hnd as [Hk Hnd]. cbn [foldl]. rewrite (IH Hnd). simpl fst; simpl snd.
  change (list_to_map ((k, v) :: l) : gmap string string) with (<[k := v]> (list_to_map l : gmap string string)).
  rewrite <-insert_union_r by (by apply not_elem_of_list_to_map_1). by rewrite insert_union_l.
Qed.

Lemma parseDownward_print pairs : Forall (λ kv, key_ok kv.1 = true) pairs → NoDup pairs.*1 → pairs ≠ [] →
  parseDownward (print_downward pairs) = Ok (list_to_map pairs).
Proof.
  intros Hok Hnd Hne. unfold parseDownward, print_downward. rewrite Split_Join.
  - rewrite downward_lines_print by done. rewrite foldl_insert_map by done. f_equal. apply (right_id_L ∅ (∪)).
  - by destruct pairs.
  - apply Forall_fmap. eapply Forall_impl; [exact Hok|]. intros [k v] Hk. by apply downward_line_no_newline.
Qed.

Lemma downward_lines_keep n out lines m k : downward_lines n out lines = Ok m → is_Some (out !! k) → is_Some (m !! k).
Proof.
  revert n out. induction lines as [|raw lines IH]; intros n out; cbn [downward_lines]; [by intros [= <-]|].
  destruct (downward_line raw) as [[[k' v]|]|e]; [|apply IH|done]. intros Hm Hk. eapply IH; [exact Hm|].
  destruct (decide (k = k')) as [->|]; [rewrite lookup_insert_eq; by eexists|by rewrite lookup_insert_ne].
Qed.

Lemma downward_lines_all n out lines m line : downward_lines n out lines = Ok m → line ∈ lines →
  downward_line line = Ok None ∨ ∃ k v, downward_line line = Ok (Some (k, v)) ∧ is_Some (m !! k).
Proof.
  revert n out. induction lines as [|raw lines IH]; intros n out Hm Hin; [by apply not_elem_of_nil in Hin|].
  cbn [downward_lines] in Hm. destruct (downward_line raw) as [kv|e] eqn:Hraw; [|done].
  apply elem_of_cons in Hin as [->|Hin]; [|by eapply IH]. destruct kv as [[k v]|]; [right|by left].
  exists k, v. split; [done|]. eapply downward_lines_keep; [exact Hm|]. rewrite lookup_insert_eq. by eexists.
Qed.

(** Raw mode keeps the pairs of the file, whatever they are. *)
Lemma load_raw `{GoStd} ReadFile p path pairs : Forall (λ kv, key_ok kv.1 = true) pairs → NoDup pairs.*1 → pairs ≠ [] →
  ReadFile path = Ok (print_downward pairs) →
  loadBucket ReadFile p path MetadataRaw = Ok (Some (VString <$> (list_to_map pairs : gmap string string))).
Proof.
  intros Hok Hnd Hne Hread. unfold loadBucket. rewrite Hread, (parseDownward_print pairs) by done.
  rewrite decide_False; [done|]. destruct pairs as [|[k v] pairs]; [done|]. apply insert_non_empty.
Qed.

(** ** Correctness of the provider *)

(** The metadata files round trip. Printing pairs with distinct keys of
    visible bytes and arbitrary values in escaped quotes, and parsing the text,
    gives the pairs back; and parsing succeeds only when every line is blank, a
    comment, or a key with a closed quoted value, so that no metadata is dropped
    silently. *)
Theorem downward_roundtrip (pairs : list (string * string)) (Hok : Forall (λ kv, key_ok kv.1 = true) pairs)
    (Hnd : NoDup pairs.*1) (Hne : pairs ≠ []) :
  parseDownward (print_downward pairs) = Ok (list_to_map pairs)
  ∧ ∀ data m, parseDownward data = Ok m → ∀ line, line ∈ strings_Split data (String newline "") →
      downward_line line = Ok None ∨ ∃ k v, downward_line line = Ok (Some (k, v)) ∧ is_Some (m !! k).
Proof.
  split; [by apply parseDownward_print|]. intros data m Hm line Hin. unfold parseDownward in Hm.
  by eapply downward_lines_all.
Qed.

(** ** Examples *)

(** kubelet quotes a bell as [\a]; the parser keeps the two bytes. *)
Example downward_bell : parseQuoted (String "\" (String "a" (String quote ""))) = Ok (String "\" (String "a" "")).
Proof. reflexivity. Qed.

Lemma downward_roundtrip_witness :
  parseDownward (print_downward [("app", "a=b"); ("note", String carriage (String newline ""))])
  = Ok (list_to_map [("app", "a=b"); ("note", String carriage (String newline ""))]).
Proof.
  destruct (downward_roundtrip [("app", "a=b"); ("note", String carriage (String newline ""))]) as [Hp _]; [| | |exact Hp].
  - repeat constructor.
  - apply NoDup_cons. split; [|apply NoDup_singleton]. intros Hin%list_elem_of_singleton. discriminate.
  - discriminate.
Defined.
