(* ===== verification/TypeInfo.v ===== *)
(** * Struct types and their tags (internal/typeinfo)

    Go types as [reflect] shows them, in a table in which a type is its index, so
    that recursive types are cycles of the table; the names, embedding rules and
    walks that the rest of the library derives from a type. *)
From S2P Require Import Prelude GoStrings Value.
From Stdlib Require Import Ascii.
Open Scope nat_scope.

Inductive kind := KindBool | KindInt (k : intkind) | KindFloat (k : floatkind) | KindString | KindStruct | KindPointer
                | KindSlice | KindArray | KindMap | KindInterface | KindOther.

#[export] Instance kind_eq_dec : EqDecision kind.
Proof. solve_decision. Defined.

(** A [reflect.StructField]; [f_Tag] is [Tag.Get]. *)
Record StructField := {
  f_Name : string; f_Exported : bool; f_Anonymous : bool; f_Type : nat; f_Tags : gmap string string;
}.

#[export] Instance StructField_eq_dec : EqDecision StructField.
Proof. solve_decision. Defined.

Definition f_Tag (f : StructField) (key : string) : string := default "" (f_Tags f !! key).

(** A [reflect.Type]; [ty_Marshaler]: it or a pointer to it marshals itself. *)
Record gotype := { ty_Kind : kind; ty_Fields : list StructField; ty_Elem : nat; ty_Key : nat; ty_Marshaler : bool }.

Definition other_type : gotype := {| ty_Kind := KindOther; ty_Fields := []; ty_Elem := 0; ty_Key := 0; ty_Marshaler := false |}.

(** ** Tags and names (tags.go, fields.go, json.go) *)

Definition TagKey : string := "fc".

Definition stripTag (t : string) : string := match strings_Cut t "," with Some (a, _) => a | None => t end.

Definition YAMLInline (tag : string) : bool :=
  let flags := match strings_Cut tag "," with Some (_, b) => b | None => "" end in
  existsb (λ flag, String.eqb flag "inline") (strings_Split flags ",").

Record FieldNames := { fn_Primary : string; fn_InputAliases : list string; fn_Flatten : bool }.

Definition add_candidate (l : list string) (s : string) : list string :=
  let s := TrimSpace s in
  if String.eqb s "" || String.eqb s "-" then l else if decide (s ∈ l) then l else l ++ [s].

Section names.
Context `{GoStd}.
(** [unicode.IsLetter] or [unicode.IsDigit] of the runes of a string that is not ASCII, one by one. *)
Context (unicode_name : string → bool).

Definition FieldNamesOf (f : StructField) : FieldNames :=
  let jsonName := stripTag (f_Tag f "json") in
  let yamlName := stripTag (f_Tag f "yaml") in
  let use_json := negb (String.eqb jsonName "") && negb (String.eqb jsonName "-") in
  let use_yaml := negb (String.eqb yamlName "") && negb (String.eqb yamlName "-") in
  {| fn_Primary := if use_json then jsonName else if use_yaml then yamlName
                   else if f_Anonymous f then "" else ToLower (f_Name f);
     fn_InputAliases := foldl add_candidate [] [jsonName; yamlName; ToLower (f_Name f); f_Name f];
     fn_Flatten := negb use_json && negb use_yaml && f_Anonymous f |}.

Definition json_name_byte (c : ascii) : bool :=
  is_upper c || is_lower c || is_digit c || existsb (String.eqb (String c "")) (explode "!#$%&()*+-./:;<=>?@[]^_{|}~ ").

Definition validJSONName (name : string) : bool :=
  if String.eqb name "" then false
  else if str_forallb is_ascii name then str_forallb json_name_byte name else unicode_name name.

(** ** Visits *)

Context (types : list gotype).

Definition type_at (t : nat) : gotype := default other_type (types !! t).
Definition Kind (t : nat) : kind := ty_Kind (type_at t).

(** [for t.Kind() == reflect.Pointer { t = t.Elem() }]; the loop does not end
    on a type that points to itself. *)
Fixpoint deref_from (fuel t : nat) : nat :=
  match fuel with
  | O => t
  | S fuel => if decide (Kind t = KindPointer) then deref_from fuel (ty_Elem (type_at t)) else t
  end.
Definition deref (t : nat) : nat := deref_from (length types) t.

Record Embed := { EmbedJSON : bool; EmbedYAML : bool }.

(** What [StructFields] does with a field: nothing, a call, or a visit of an embed. *)
Inductive field_action := Skip | CallField | VisitEmbed (t : nat).

Definition field_action_of (embed : Embed) (f : StructField) : field_action :=
  let ft := deref (f_Type f) in
  let is_struct := bool_decide (Kind ft = KindStruct) in
  if negb (f_Exported f) && (negb (EmbedJSON embed) || negb (f_Anonymous f) || negb is_struct) then Skip
  else
    let jsonTag := f_Tag f "json" in
    let jsonEmbed := EmbedJSON embed && f_Anonymous f && negb (String.eqb jsonTag "-") && negb (validJSONName (stripTag jsonTag)) in
    let yamlEmbed := EmbedYAML embed && YAMLInline (f_Tag f "yaml") in
    if is_struct && (jsonEmbed || yamlEmbed) then VisitEmbed ft else CallField.

Fixpoint struct_fields (fuel : nat) (embed : Embed) (stack : list nat) (t : nat) (index : list nat) : list (StructField * list nat) :=
  match fuel with
  | O => []
  | S fuel =>
      let t := deref t in
      if bool_decide (Kind t ≠ KindStruct) || bool_decide (t ∈ stack) then []
      else concat (imap (λ i f,
             match field_action_of embed f with
             | Skip => []
             | CallField => [(f, index ++ [i])]
             | VisitEmbed ft => struct_fields fuel embed (t :: stack) ft (index ++ [i])
             end) (ty_Fields (type_at t)))
  end.

Definition StructFields (t : nat) (embed : Embed) : list (StructField * list nat) :=
  struct_fields (S (length types)) embed [] t [].

(** The types that [Reaches] visits from a type. *)
Definition successors (t : nat) : list nat :=
  match Kind t with
  | KindPointer | KindSlice | KindArray => [ty_Elem (type_at t)]
  | KindMap => [ty_Key (type_at t); ty_Elem (type_at t)]
  | KindStruct => f_Type <$> filter (λ f, f_Exported f || f_Anonymous f = true) (ty_Fields (type_at t))
  | _ => []
  end.

(** The depth-first search: [seen] outlives a visit, and a hit ends it. *)
Fixpoint reaches (fuel : nat) (pred : nat → bool) (t : nat) (seen : gset nat) : gset nat * bool :=
  match fuel with
  | O => (seen, false)
  | S fuel =>
      if decide (t ∈ seen) then (seen, false)
      else if pred t then ({[t]} ∪ seen, true)
      else foldl (λ acc u, if acc.2 : bool then acc else reaches fuel pred u acc.1) ({[t]} ∪ seen, false) (successors t)
  end.

Definition Reaches (t : nat) (pred : nat → bool) : bool := (reaches (S (S (length types))) pred t ∅).2.

(** [walk] with the callback's verdict on descending into a field. *)
Definition maxTypeDepth : nat := 256.

Fixpoint walk (fuel : nat) (visit : string → list nat → StructField → bool) (t : nat) (prefix : string) (idx : list nat)
    (depth : nat) (stack : list nat) : list (string * list nat * StructField) :=
  match fuel with
  | O => []
  | S fuel =>
      if maxTypeDepth <? depth then []
      else
        let t := deref t in
        if bool_decide (Kind t ≠ KindStruct) || bool_decide (t ∈ stack) then []
        else concat (imap (λ i f,
               let ft := deref (f_Type f) in
               let is_struct := bool_decide (Kind ft = KindStruct) in
               if negb (f_Exported f) && (negb (f_Anonymous f) || negb is_struct) then []
               else
                 let name := fn_Primary (FieldNamesOf f) in
                 let path := if String.eqb name "" then prefix
                             else if String.eqb prefix "" then name else prefix +:+ "." +:+ name in
                 let nextIdx := idx ++ [i] in
                 (path, nextIdx, f) ::
                   (if visit path nextIdx f && is_struct then walk fuel visit ft path nextIdx (S depth) (t :: stack) else []))
               (ty_Fields (type_at t)))
  end.

Definition Walk (t : nat) (visit : string → list nat → StructField → bool) : list (string * list nat * StructField) :=
  walk (S (length types)) visit t "" [] 0 [].

(** ** The fields of the JSON form (json.go) *)

Record JSONField := { jf_Name : string; jf_Field : StructField; jf_Index : list nat; jf_tagged : bool }.

#[export] Instance JSONField_eq_dec : EqDecision JSONField.
Proof. solve_decision. Defined.

Definition json_candidate (e : StructField * list nat) : option JSONField :=
  let tag := f_Tag e.1 "json" in
  if String.eqb tag "-" then None
  else
    let name := if validJSONName (stripTag tag) then stripTag tag else "" in
    let tagged := negb (String.eqb name "") in
    Some {| jf_Name := if tagged then name else f_Name e.1; jf_Field := e.1; jf_Index := e.2; jf_tagged := tagged |}.

(** By name, then by depth, then tagged before untagged. *)
Definition json_leb (a b : JSONField) : bool :=
  if String.eqb (jf_Name a) (jf_Name b) then
    if length (jf_Index a) =? length (jf_Index b) then implb (jf_tagged b) (jf_tagged a)
    else length (jf_Index a) <? length (jf_Index b)
  else str_leb (jf_Name a) (jf_Name b).

Definition same_rank (a b : JSONField) : bool :=
  (length (jf_Index a) =? length (jf_Index b)) && Bool.eqb (jf_tagged a) (jf_tagged b).

(** The loop over runs of one name: its first field, unless the second ties. *)
Fixpoint dominant (prev : option string) (l : list JSONField) : list JSONField :=
  match l with
  | [] => []
  | a :: l' =>
      if bool_decide (prev = Some (jf_Name a)) then dominant prev l'
      else let tie := match l' with b :: _ => String.eqb (jf_Name b) (jf_Name a) && same_rank a b | [] => false end in
           if tie then dominant (Some (jf_Name a)) l' else a :: dominant (Some (jf_Name a)) l'
  end.

Definition JSONFields (t : nat) : list JSONField :=
  dominant None (sort_stable json_leb (omap json_candidate (StructFields t {| EmbedJSON := true; EmbedYAML := false |}))).
End names.

(** ** Lemmas: the search *)

Section reach_facts.
Context (types : list gotype).
Notation type_at := (type_at types).
Notation Kind := (Kind types).
Notation successors := (successors types).

Definition edge (a b : nat) : Prop := b ∈ successors a.

Lemma out_of_range t : ¬ t < length types → type_at t = other_type.
Proof. intros Ht. unfold TypeInfo.type_at. by rewrite lookup_ge_None_2 by lia. Qed.

Lemma successors_out t : ¬ t < length types → successors t = [].
Proof. intros Ht. unfold TypeInfo.successors, TypeInfo.Kind. by rewrite out_of_range. Qed.

(** The types of the table that the search has not seen. *)
Definition unseen (seen : gset nat) : nat := length (filter (λ t, t ∉ seen) (seq 0 (length types))).

Lemma unseen_mono (s1 s2 : gset nat) : s1 ⊆ s2 → unseen s2 ≤ unseen s1.
Proof.
  intros Hs. unfold unseen. induction (seq 0 (length types)) as [|t l IH]; [done|]. rewrite !filter_cons.
  destruct (decide (t ∉ s2)), (decide (t ∉ s1)); simpl; [lia|set_solver|lia|lia].
Qed.

Lemma unseen_add (s : gset nat) t : t < length types → t ∉ s → unseen ({[t]} ∪ s) < unseen s.
Proof.
  intros Ht Hs. unfold unseen. assert (t ∈ seq 0 (length types)) as Hin by (apply elem_of_seq; lia). revert Hin.
  induction (seq 0 (length types)) as [|u l IH]; [by intros ?%not_elem_of_nil|]. rewrite !filter_cons.
  intros [->|Hin]%elem_of_cons.
  - rewrite decide_False by set_solver. rewrite decide_True by done. simpl. apply Nat.lt_succ_r.
    clear IH. induction l as [|v l IH]; [done|]. rewrite !filter_cons.
    destruct (decide (v ∉ {[u]} ∪ s)), (decide (v ∉ s)); simpl; [lia|set_solver|lia|lia].
  - specialize (IH Hin). destruct (decide (u ∉ {[t]} ∪ s)), (decide (u ∉ s)); simpl; [lia|set_solver|lia|lia].
Qed.

(** What a visit from [t] makes of the types seen before. *)
Definition visited (pred : nat → bool) (t : nat) (seen : gset nat) (r : gset nat * bool) : Prop :=
  seen ⊆ r.1 ∧
  if r.2 then ∃ u, rtc edge t u ∧ pred u = true
  else t ∈ r.1 ∧ ∀ x, x ∈ r.1 → x ∈ seen ∨ (pred x = false ∧ ∀ y, edge x y → y ∈ r.1).

Lemma reaches_visited pred fuel t seen : unseen seen < fuel → visited pred t seen (reaches types fuel pred t seen).
Proof.
  revert t seen. induction fuel as [|fuel IH]; intros t seen Hfuel; [lia|]. cbn [reaches].
  destruct (decide (t ∈ seen)) as [Ht|Ht]; [split; [done|split; [done|by left]]|].
  destruct (pred t) eqn:Hp; [split; [set_solver|by exists t]|].
  assert (∀ l (acc : gset nat * bool), (∀ u, u ∈ l → edge t u) →
    (acc.2 = true → ∃ u, rtc edge t u ∧ pred u = true) → {[t]} ∪ seen ⊆ acc.1 →
    (acc.2 = false → ∀ x, x ∈ acc.1 → x ∈ seen ∨ x = t ∨ (pred x = false ∧ ∀ y, edge x y → y ∈ acc.1)) →
    let r := foldl (λ acc u, if acc.2 : bool then acc else reaches types fuel pred u acc.1) acc l in
    (r.2 = true → ∃ u, rtc edge t u ∧ pred u = true) ∧ acc.1 ⊆ r.1 ∧
    (r.2 = false → (∀ u, u ∈ l → u ∈ r.1) ∧ ∀ x, x ∈ r.1 → x ∈ seen ∨ x = t ∨ (pred x = false ∧ ∀ y, edge x y → y ∈ r.1))) as Hfold.
  { intros l. induction l as [|u l IHl]; intros acc Hl Hhit Hsub Hmiss; cbn [foldl].
    { split; [done|split; [done|]]. intros Hf. split; [|by apply Hmiss]. intros u Hu. by apply not_elem_of_nil in Hu. }
    destruct acc as [s [|]]; cbn [fst snd] in *.
    - destruct (IHl (s, true)) as (H1 & H2 & H3); [intros v Hv; apply Hl; by constructor|done|done|done|].
      split; [done|split; [done|]]. intros Hf. exfalso.
      assert (∀ l, (foldl (λ acc u, if acc.2 : bool then acc else reaches types fuel pred u acc.1) (s, true) l).2 = true) as Hstay
        by (clear; intros l; by induction l). by rewrite Hstay in Hf.
    - assert (visited pred u s (reaches types fuel pred u s)) as [Hv1 Hv2].
      { destruct (decide (t < length types)) as [Hin|Hout].
        - apply IH. eapply Nat.le_lt_trans; [apply unseen_mono; exact Hsub|]. pose proof (unseen_add seen t Hin Ht). lia.
        - specialize (Hl u ltac:(left)). unfold edge in Hl. rewrite successors_out in Hl by done. by apply not_elem_of_nil in Hl. }
      destruct (reaches types fuel pred u s) as [s' hit]. cbn [fst snd] in *.
      destruct (IHl (s', hit)) as (H1 & H2 & H3); cbn [fst snd].
      + intros v Hv. apply Hl. by constructor.
      + intros ->. destruct Hv2 as (w & Hw & ?). exists w. split; [|done]. eapply rtc_l; [apply Hl; left|done].
      + set_solver.
      + intros ->. destruct Hv2 as [_ Hx]. intros x Hin. destruct (Hx x Hin) as [Hs|?]; [|by right; right].
        destruct (Hmiss eq_refl x Hs) as [?|[?|[? Hy]]]; [by left|by right; left|right; right]. split; [done|].
        intros y Hxy. apply Hv1. by apply Hy.
      + split; [done|]. split; [cbn [fst] in *; set_solver|]. intros Hf. destruct (H3 Hf) as [Hall Hx]. split; [|done].
        intros v [->|Hv]%elem_of_cons; [|by apply Hall]. cbn [fst] in H2. apply H2. destruct hit; [|by destruct Hv2].
        exfalso. assert (∀ l, (foldl (λ acc u, if acc.2 : bool then acc else reaches types fuel pred u acc.1) (s', true) l).2 = true) as Hstay
          by (clear; intros l; by induction l). by rewrite Hstay in Hf. }
  destruct (Hfold (successors t) ({[t]} ∪ seen, false)) as (H1 & H2 & H3); [done|done|done|cbn [fst snd]; intros _ x; set_solver|].
  set (r := foldl _ _ _) in *. split; [cbn [fst] in H2; set_solver|]. destruct (r.2) eqn:Hr; [by apply H1|].
  destruct (H3 eq_refl) as [Hall Hx]. cbn [fst] in H2. split; [set_solver|].
  intros x Hin. destruct (Hx x Hin) as [?|[->|?]]; [by left|right; split; [done|exact Hall]|by right].
Qed.
End reach_facts.

(** [Reaches] decides reachability: the fuel suffices and the set of seen types is closed. *)
Lemma Reaches_spec (types : list gotype) (t : nat) (pred : nat → bool) :
  Reaches types t pred = true ↔ ∃ u, rtc (edge types) t u ∧ pred u = true.
Proof.
  unfold Reaches. assert (unseen types ∅ < S (S (length types))) as Hfuel.
  { unfold unseen. eapply Nat.le_lt_trans; [apply length_filter|rewrite length_seq; lia]. }
  destruct (reaches_visited types pred _ t ∅ Hfuel) as [_ Hv]. destruct (reaches types _ pred t ∅) as [s hit]; cbn [fst snd] in *.
  destruct hit; [done|]. split; [done|]. intros (u & Hu & Hp). exfalso. destruct Hv as [Ht Hx].
  assert (u ∈ s) as Hus.
  { clear Hp. induction Hu as [x|x y z Hxy _ IH]; [done|]. apply IH. destruct (Hx x Ht) as [?|[_ Hy]]; [set_solver|by apply Hy]. }
  destruct (Hx u Hus) as [?|[? _]]; [set_solver|congruence].
Qed.

(** ** Lemmas: the dominant fields *)

Lemma json_leb_total a b : json_leb a b = true ∨ json_leb b a = true.
Proof.
  unfold json_leb. rewrite (String.eqb_sym (jf_Name b)), (Nat.eqb_sym (length (jf_Index b))).
  destruct (String.eqb_spec (jf_Name a) (jf_Name b)); [|apply str_leb_total].
  destruct (Nat.eqb_spec (length (jf_Index a)) (length (jf_Index b))); [destruct (jf_tagged a), (jf_tagged b); auto|].
  rewrite !Nat.ltb_lt. lia.
Qed.

Lemma json_leb_name a b : json_leb a b = true → str_leb (jf_Name a) (jf_Name b) = true.
Proof. unfold json_leb. destruct (String.eqb_spec (jf_Name a) (jf_Name b)) as [->|]; [intros _; apply str_leb_refl|done]. Qed.

Lemma json_leb_trans a b c : json_leb a b = true → json_leb b c = true → json_leb a c = true.
Proof.
  intros Hab Hbc. pose proof (json_leb_name _ _ Hab) as Nab. pose proof (json_leb_name _ _ Hbc) as Nbc. revert Hab Hbc.
  unfold json_leb. destruct (String.eqb_spec (jf_Name a) (jf_Name c)) as [Hac|Hac].
  - assert (jf_Name b = jf_Name c) as Hb by (apply str_leb_antisym; [done|by rewrite <-Hac]). rewrite Hac, Hb, !String.eqb_refl.
    destruct (Nat.eqb_spec (length (jf_Index a)) (length (jf_Index b))), (Nat.eqb_spec (length (jf_Index b)) (length (jf_Index c))),
      (Nat.eqb_spec (length (jf_Index a)) (length (jf_Index c))); try lia; rewrite ?Nat.ltb_lt; try lia;
      destruct (jf_tagged a), (jf_tagged b), (jf_tagged c); done.
  - intros _ _. by eapply str_leb_trans.
Qed.

(** [a] comes first among the fields of its name, with no other of its rank. *)
Definition strictly_first (a : JSONField) (rest : list JSONField) : Prop :=
  ∀ g, g ∈ rest → jf_Name g = jf_Name a → json_leb g a = false.

Lemma tie_spec a l : Forall (λ b, json_leb a b = true) l → StronglySorted (λ a b, json_leb a b = true) l →
  match l with b :: _ => String.eqb (jf_Name b) (jf_Name a) && same_rank a b | [] => false end = true ∨ strictly_first a l.
Proof.
  intros Ha Hl. destruct l as [|b l]; [right; intros g Hg; by apply not_elem_of_nil in Hg|].
  apply Forall_cons in Ha as [Hab Ha]. apply StronglySorted_inv in Hl as [Hl Hb].
  destruct (String.eqb (jf_Name b) (jf_Name a) && same_rank a b) eqn:Htie; [by left|right].
  assert (jf_Name b = jf_Name a → json_leb b a = false) as Hba.
  { intros Hn. rewrite Hn, String.eqb_refl in Htie. unfold same_rank in Htie. cbn [andb] in Htie. revert Hab.
    unfold json_leb. rewrite Hn, String.eqb_refl, (Nat.eqb_sym (length (jf_Index b))). revert Htie.
    destruct (Nat.eqb_spec (length (jf_Index a)) (length (jf_Index b))); cbn [andb].
    - destruct (jf_tagged a), (jf_tagged b); done.
    - rewrite Nat.ltb_lt, Nat.ltb_ge. lia. }
  intros g [->|Hg]%elem_of_cons Hn; [by apply Hba|]. destruct (json_leb g a) eqn:Hga; [|done].
  rewrite Forall_forall in Hb. pose proof (Hb g Hg) as Hbg. pose proof (json_leb_trans _ _ _ Hbg Hga) as Hba'.
  assert (jf_Name b = jf_Name a) as Hbn.
  { apply str_leb_antisym; [by apply json_leb_name|by apply json_leb_name]. }
  by rewrite Hba in Hba'.
Qed.

Lemma dominant_spec prev l f : StronglySorted (λ a b, json_leb a b = true) l →
  (∀ n, prev = Some n → Forall (λ g, str_leb n (jf_Name g) = true) l) →
  f ∈ dominant prev l ↔ prev ≠ Some (jf_Name f) ∧ ∃ rest, l ≡ₚ f :: rest ∧ strictly_first f rest.
Proof.
  intros Hl. revert prev f. induction Hl as [|a l Hl IH Ha]; intros prev f Hprev; cbn [dominant].
  { split; [by intros ?%not_elem_of_nil|]. intros (_ & rest & Hp & _). apply Permutation_length in Hp. done. }
  (* The fields after [a], of another name than [a]'s. *)
  assert (∀ f, jf_Name f ≠ jf_Name a → (∃ rest, a :: l ≡ₚ f :: rest ∧ strictly_first f rest) ↔
                ∃ rest, l ≡ₚ f :: rest ∧ strictly_first f rest) as Hskip.
  { intros g Hg. split.
    - intros (rest & Hp & Hs). assert (a ∈ g :: rest) as Hin by (rewrite <-Hp; left).
      apply elem_of_cons in Hin as [->|Hin]; [done|]. apply elem_of_Permutation in Hin as [rest' Hr].
      exists rest'. split.
      + apply (Permutation_cons_inv (a := a)). rewrite Hp, Hr. constructor.
      + intros h Hh. apply Hs. rewrite Hr. by right.
    - intros (rest & Hp & Hs). exists (a :: rest). split; [rewrite Hp; constructor|].
      intros h [->|Hh]%elem_of_cons; [congruence|by apply Hs]. }
  (* A field after [a] of the same name does not come first. *)
  assert (∀ f, f ∈ l → jf_Name f = jf_Name a → ¬ ∃ rest, a :: l ≡ₚ f :: rest ∧ strictly_first f rest ∧ a ∈ rest) as Hlater.
  { intros g Hg Hn (rest & Hp & Hs & Hin). specialize (Hs a Hin ltac:(congruence)).
    rewrite Forall_forall in Ha. by rewrite (Ha g Hg) in Hs. }
  assert (Forall (λ g, str_leb (jf_Name a) (jf_Name g) = true) l) as Hnames.
  { eapply Forall_impl; [exact Ha|]. intros g. apply json_leb_name. }
  destruct (decide (prev = Some (jf_Name a))) as [Hpa|Hpa]; [rewrite bool_decide_true by done|rewrite bool_decide_false by done].
  - rewrite IH; [|intros n Hn; specialize (Hprev n Hn); by apply Forall_cons in Hprev as [_ ?]].
    split; intros [Hne Hex]; (split; [done|]); (apply Hskip; [congruence|done]).
  - assert (∀ f, f ∈ dominant (Some (jf_Name a)) l ↔ jf_Name f ≠ jf_Name a ∧ ∃ rest, l ≡ₚ f :: rest ∧ strictly_first f rest) as IH'.
    { intros g. rewrite IH; [|by intros n [= <-]]. split; intros [? ?]; (split; [congruence|done]). }
    assert (∀ f, f ∈ l → jf_Name f ≠ jf_Name a → prev ≠ Some (jf_Name f)) as Hprev'.
    { intros g Hg Hne Hp. specialize (Hprev _ Hp). apply Forall_cons in Hprev as [Hle _]. apply Hne.
      rewrite Forall_forall in Hnames. by apply str_leb_antisym, Hnames. }
    assert (∀ f rest, a :: l ≡ₚ f :: rest → f = a ∧ l ≡ₚ rest ∨ f ∈ l ∧ a ∈ rest) as Hcase.
    { intros g rest Hp. assert (a ∈ g :: rest) as Hin by (rewrite <-Hp; left).
      apply elem_of_cons in Hin as [->|Hin]; [left; split; [done|by apply (Permutation_cons_inv Hp)]|].
      destruct (decide (g ∈ l)) as [Hgl|Hgl]; [by right|left]. assert (g ∈ a :: l) as Hgal by (rewrite Hp; left).
      apply elem_of_cons in Hgal as [->|?]; [|done]. split; [done|]. by apply (Permutation_cons_inv Hp). }
    assert (∀ f, jf_Name f ≠ jf_Name a → (prev ≠ Some (jf_Name f) ∧ ∃ rest, a :: l ≡ₚ f :: rest ∧ strictly_first f rest) ↔ f ∈ dominant (Some (jf_Name a)) l) as Hother.
    { intros g Hne. rewrite IH'. rewrite Hskip by done. split; [naive_solver|]. intros (_ & rest & Hp & Hs). split; [|by exists rest].
      apply Hprev'; [rewrite Hp; left|done]. }
    pose proof (tie_spec a l Ha Hl) as Htie.
    destruct (match l with b :: _ => _ | [] => false end) eqn:Heq.
    + (* a tie: no field of this name *)
      destruct (decide (jf_Name f = jf_Name a)) as [Hn|Hn]; [|by rewrite Hother].
      split; [intros [? _]%IH'; done|]. intros (_ & rest & Hp & Hs). exfalso.
      destruct (Hcase f rest Hp) as [[-> Hr]|[Hf Hin]]; [|by apply (Hlater f Hf Hn); exists rest].
      destruct l as [|b l]; [done|]. apply andb_true_iff in Heq as [Hbn Hrank]. apply String.eqb_eq in Hbn.
      assert (json_leb b a = false) as Hba by (apply Hs; [rewrite <-Hr; left|done]). revert Hba Hrank.
      unfold json_leb, same_rank. rewrite Hbn, String.eqb_refl, (Nat.eqb_sym (length (jf_Index b))).
      destruct (_ =? _); [|done]. by destruct (jf_tagged a), (jf_tagged b).
    + destruct Htie as [?|Hs]; [done|]. rewrite elem_of_cons.
      destruct (decide (jf_Name f = jf_Name a)) as [Hn|Hn]; [|rewrite Hother by done; split; [intros [->|?]; done|by right]].
      split.
      * intros [->|[? _]%IH']; [|done]. split; [done|]. by exists l.
      * intros (_ & rest & Hp & Hs'). left. destruct (Hcase f rest Hp) as [[-> _]|[Hf Hin]]; [done|].
        exfalso. apply (Hlater f Hf Hn). by exists rest.
Qed.

(** ** Correctness of type inspection *)

(** [Reaches] decides reachability. It answers whether a type satisfying the
    predicate can be reached through pointers, elements, keys, and exported or
    embedded fields, also when types are recursive; the search ends because it
    visits no type of the table twice. *)
Theorem reaches_decides (types : list gotype) (t : nat) (pred : nat → bool) :
  Reaches types t pred = true ↔ ∃ u, rtc (edge types) t u ∧ pred u = true.
Proof. apply Reaches_spec. Qed.

(** The JSON fields obey the dominance rule of encoding/json. Of the candidate
    fields with one name, the one that is less deep than all others, or as deep
    but the only tagged one at that depth, is kept; when two tie, the name has no
    field. *)
Theorem json_dominance (unicode_name : string → bool) (types : list gotype) (t : nat) (f : JSONField) :
  let candidates := omap (json_candidate unicode_name) (StructFields unicode_name types t {| EmbedJSON := true; EmbedYAML := false |}) in
  f ∈ JSONFields unicode_name types t ↔ ∃ others, candidates ≡ₚ f :: others ∧
    ∀ g, g ∈ others → jf_Name g = jf_Name f →
      length (jf_Index f) < length (jf_Index g) ∨ length (jf_Index f) = length (jf_Index g) ∧ jf_tagged f = true ∧ jf_tagged g = false.
Proof.
  intros candidates. unfold JSONFields. fold candidates.
  rewrite dominant_spec; [|apply sort_stable_sorted; [apply json_leb_total|apply json_leb_trans]|done].
  assert (∀ g, jf_Name g = jf_Name f → json_leb g f = false ↔
    length (jf_Index f) < length (jf_Index g) ∨ length (jf_Index f) = length (jf_Index g) ∧ jf_tagged f = true ∧ jf_tagged g = false) as Hrank.
  { intros g Hn. unfold json_leb. rewrite Hn, String.eqb_refl.
    destruct (Nat.eqb_spec (length (jf_Index g)) (length (jf_Index f))); [destruct (jf_tagged f), (jf_tagged g); simpl; split; intros; try done; naive_solver lia|].
    rewrite Nat.ltb_ge. lia. }
  split.
  - intros [_ (rest & Hp & Hs)]. exists rest. split; [by rewrite <-Hp, sort_stable_perm|]. intros g Hg Hn. apply Hrank; [done|by apply Hs].
  - intros (rest & Hp & Hs). split; [done|]. exists rest. split; [by rewrite sort_stable_perm|]. intros g Hg Hn. apply Hrank; [done|by apply Hs].
Qed.

(** ** The fuel of the visits *)

Section fuel.
Context `{GoStd} (unicode_name : string → bool) (types : list gotype).

(** A stack of distinct struct types is no longer than the table. *)
Lemma stack_bound stack : NoDup stack → Forall (λ t, Kind types t = KindStruct) stack → length stack ≤ length types.
Proof.
  intros Hnd Hs. transitivity (length (seq 0 (length types))); [|by rewrite length_seq]. apply NoDup_incl_length; [by apply NoDup_ListNoDup|].
  intros t Ht. apply in_seq. rewrite Forall_forall in Hs. specialize (Hs t ltac:(by apply list_elem_of_In)).
  destruct (decide (t < length types)); [lia|]. unfold Kind in Hs. by rewrite out_of_range in Hs.
Qed.

Lemma concat_imap_ext {A B} (f g : nat → A → list B) l : (∀ i a, a ∈ l → f i a = g i a) → concat (imap f l) = concat (imap g l).
Proof.
  revert f g. induction l as [|a l IH]; intros f g Hfg; [done|]. simpl. rewrite (Hfg 0 a) by constructor. f_equal.
  apply IH. intros i b Hb. apply Hfg. by constructor.
Qed.

(** More fuel than there are types left to visit changes nothing. *)
Lemma struct_fields_fuel embed f1 f2 stack t index :
  NoDup stack → Forall (λ t, Kind types t = KindStruct) stack →
  length types < f1 + length stack → length types < f2 + length stack →
  struct_fields unicode_name types f1 embed stack t index = struct_fields unicode_name types f2 embed stack t index.
Proof.
  revert f2 stack t index. induction f1 as [|f1 IH]; intros f2 stack t index Hnd Hs H1 H2; pose proof (stack_bound stack Hnd Hs); [lia|].
  destruct f2 as [|f2]; [lia|]. cbn [struct_fields]. case_bool_decide as Hk; [done|]. case_bool_decide as Hin; [done|]. cbn [orb].
  apply concat_imap_ext. intros i f _. destruct (field_action_of _ _ _ _) as [| |ft]; [done..|].
  apply IH; simpl; [by constructor|by constructor|lia|lia].
Qed.

Lemma walk_fuel visit f1 f2 t prefix idx depth stack :
  NoDup stack → Forall (λ t, Kind types t = KindStruct) stack →
  length types < f1 + length stack → length types < f2 + length stack →
  walk types f1 visit t prefix idx depth stack = walk types f2 visit t prefix idx depth stack.
Proof.
  revert f2 t prefix idx depth stack. induction f1 as [|f1 IH]; intros f2 t prefix idx depth stack Hnd Hs H1 H2;
    pose proof (stack_bound stack Hnd Hs); [lia|].
  destruct f2 as [|f2]; [lia|]. cbn [walk]. destruct (maxTypeDepth <? depth); [done|].
  case_bool_decide as Hk; [done|]. case_bool_decide as Hin; [done|]. cbn [orb].
  apply concat_imap_ext. intros i f _. destruct (negb (f_Exported f) && _); [done|]. f_equal.
  destruct (visit _ _ f && _); [|done]. apply IH; simpl; [by constructor|by constructor|lia|lia].
Qed.
End fuel.

(** The walks over a type end and are complete: the recursion nests no deeper
    than the table has types, because a struct inside itself is cut, so that any
    larger bound gives the same fields and the same visits. *)
Theorem type_walks_complete `{GoStd} (unicode_name : string → bool) (types : list gotype) (t extra : nat) (embed : Embed)
    (visit : string → list nat → StructField → bool) :
  struct_fields unicode_name types (S (length types) + extra) embed [] t [] = StructFields unicode_name types t embed
  ∧ walk types (S (length types) + extra) visit t "" [] 0 [] = Walk types t visit.
Proof.
  split; [apply struct_fields_fuel|apply walk_fuel]; [apply NoDup_nil_2|apply Forall_nil_2|simpl; lia|simpl; lia|apply NoDup_nil_2|apply Forall_nil_2|simpl; lia|simpl; lia].
Qed.

(** ** Examples *)

(** A recursive type: [type Node struct { Base; Next *Node; Pass string }],
    whose embedded [Base] has a [Pass] too. *)
Definition example_types : list gotype :=
  [ {| ty_Kind := KindStruct; ty_Elem := 0; ty_Key := 0; ty_Marshaler := false; ty_Fields :=
         [ {| f_Name := "Base"; f_Exported := true; f_Anonymous := true; f_Type := 3; f_Tags := ∅ |};
           {| f_Name := "Next"; f_Exported := true; f_Anonymous := false; f_Type := 1; f_Tags := ∅ |};
           {| f_Name := "Pass"; f_Exported := true; f_Anonymous := false; f_Type := 2; f_Tags := {["fc" := "secret"]} |} ] |};
    {| ty_Kind := KindPointer; ty_Elem := 0; ty_Key := 0; ty_Marshaler := false; ty_Fields := [] |};
    {| ty_Kind := KindString; ty_Elem := 0; ty_Key := 0; ty_Marshaler := false; ty_Fields := [] |};
    {| ty_Kind := KindStruct; ty_Elem := 0; ty_Key := 0; ty_Marshaler := false; ty_Fields :=
         [ {| f_Name := "Pass"; f_Exported := true; f_Anonymous := false; f_Type := 2; f_Tags := ∅ |} ] |} ].

Example example_json_fields :
  (λ f, (jf_Name f, jf_Index f)) <$> JSONFields (λ _, true) example_types 1 = [("Next", [1]); ("Pass", [2])].
Proof. vm_compute. reflexivity. Qed.
