(* ===== verification/SecretPlan.v ===== *)
(** * The redaction plan of a type (internal/secret/plan.go)

    What the struct tags of a Go type say about secrets: which nodes of its JSON
    form are masked, and which provenance paths may show one.  The plan of a type
    is read off the table of types; the source memoizes it per type, which makes
    recursive types finite. *)
From stdpp Require Import pretty.
From S2P Require Import Prelude GoStrings Value Merge Secret TypeInfo.
From Stdlib Require Import Ascii.
Open Scope nat_scope.

Record planField := { pf_name : string; pf_candidates : list string; pf_marked : bool; pf_child : nat; pf_inline : bool }.

Section plan.
Context `{GoStd}.
(** [unicode.IsLetter] or [IsDigit] of every rune, and [strings.EqualFold] when
    one of the strings is not ASCII. *)
Context (unicode_name : string → bool) (fold_unicode : string → string → bool).
Context (types : list gotype).

Notation deref := (deref types).
Notation Kind := (Kind types).
Notation type_at := (type_at types).

Definition EqualFold (a b : string) : bool :=
  if str_forallb is_ascii a && str_forallb is_ascii b then String.eqb (str_map lower_byte a) (str_map lower_byte b)
  else fold_unicode a b.

Definition marked_field (f : StructField) : bool := HasTag (f_Tag f TagKey).

Definition tagged_struct (t : nat) : bool :=
  bool_decide (Kind t = KindStruct) && existsb (λ f, (f_Exported f || f_Anonymous f) && marked_field f) (ty_Fields (type_at t)).

Definition hasSecrets (t : nat) : bool := Reaches types t tagged_struct.

Definition opaqueJSONType (t : nat) : bool := ty_Marshaler (type_at t).

(** The field that an index leads to: whether the path has a marked field, and its type. *)
Fixpoint follow_index (t : nat) (marked : bool) (index : list nat) : nat * bool :=
  match index with
  | [] => (t, marked)
  | i :: index =>
      match ty_Fields (type_at (deref t)) !! i with
      | Some f => follow_index (f_Type f) (marked || marked_field f) index
      | None => (t, marked)
      end
  end.

(** [typePlan.fields]. *)
Definition plan_fields (t : nat) : list planField :=
  (λ jf, let '(ft, marked) := follow_index t false (jf_Index jf) in
         {| pf_name := jf_Name jf; pf_candidates := []; pf_marked := marked; pf_child := deref ft; pf_inline := false |})
  <$> JSONFields unicode_name types t.

(** [typePlan.origins]. *)
Fixpoint provenanceFields (fuel t : nat) (marked : bool) (stack : list nat) : list planField :=
  match fuel with
  | O => []
  | S fuel =>
      if bool_decide (t ∈ stack) then []
      else ty_Fields (type_at t) ≫= λ field,
             if negb (f_Exported field) && negb (f_Anonymous field) then []
             else
               let aliases := FieldNamesOf field in
               let secret := marked || marked_field field in
               let child := deref (f_Type field) in
               {| pf_name := ""; pf_candidates := fn_InputAliases aliases; pf_marked := secret; pf_child := child; pf_inline := false |} ::
               (if negb (fn_Flatten aliases) && negb (YAMLInline (f_Tag field "yaml")) then []
                else match Kind child with
                     | KindStruct => provenanceFields fuel child secret (t :: stack)
                     | KindMap => [{| pf_name := ""; pf_candidates := []; pf_marked := secret; pf_child := child; pf_inline := true |}]
                     | _ => []
                     end)
  end.

Definition plan_origins (t : nat) : list planField := provenanceFields (S (length types)) t false [].

(** ** Masking *)

Definition joinPath (parent child : string) : string := if String.eqb parent "" then child else parent +:+ "." +:+ child.

Context (redactor : string → value → value).

(** [typePlan.redact] of the plan of [t], a type that is no pointer. *)
Fixpoint redact (node : value) (t : nat) (path : string) : value :=
  match node with
  | VNil => node
  | _ =>
      if negb (hasSecrets t) then node
      else if opaqueJSONType t then redactor path node
      else match Kind t, node with
           | KindStruct, VMap m =>
               let sub := redact <$> m in
               VMap (foldl (λ out field,
                 match m !! pf_name field, sub !! pf_name field with
                 | Some v, Some rec =>
                     if pf_marked field then <[pf_name field := redactor (joinPath path (pf_name field)) v]> out
                     else if hasSecrets (pf_child field) then <[pf_name field := rec (pf_child field) (joinPath path (pf_name field))]> out
                     else out
                 | _, _ => out
                 end) m (plan_fields t))
           | (KindSlice | KindArray), VSlice l =>
               VSlice (imap (λ i rec, rec (deref (ty_Elem (type_at t))) (joinPath path (itoa i))) (redact <$> l))
           | KindMap, VMap m =>
               VMap (map_imap (λ k rec, Some (rec (deref (ty_Elem (type_at t))) (joinPath path k))) (redact <$> m))
           | _, _ => node
           end
  end.

(** [Plan.Apply] for the plan of [t] and the patterns. *)
Definition Plan_Apply (t : nat) (patterns : patternPlan) (tree : gomap) : gomap :=
  let v := redact (VMapOpt tree) (deref t) "" in
  let out := match as_map v with Some m => m | None => Some {["$redacted" := v]} end in
  match as_map (redactPatterns (stateless redactor) (pp_tree patterns) (VMapOpt out) [] ()).2 with Some m => m | None => out end.

(** ** Provenance paths *)

(** The loop over the names of a field: what follows the name in the path. *)
Fixpoint match_candidates (path : string) (names : list string) : option string :=
  match names with
  | [] => None
  | name :: names =>
      if EqualFold path name then Some ""
      else
        let n := String.length name in
        if String.prefix "." (str_drop n path) && EqualFold (str_take n path) name then Some (str_drop (S n) path)
        else match_candidates path names
  end.

(** Every remainder that the loop over a dotted map key tries. *)
Fixpoint remainders (fuel : nat) (path : string) : list string :=
  match fuel with
  | O => []
  | S fuel => match strings_Cut path "." with Some (_, rest) => rest :: remainders fuel rest | None => [""] end
  end.

Fixpoint pathHasSecrets (fuel : nat) (t : nat) (path : string) : bool :=
  match fuel with
  | O => false
  | S fuel =>
      if negb (hasSecrets t) then false
      else if String.eqb path "" || opaqueJSONType t then true
      else match Kind t with
           | KindStruct =>
               existsb (λ field,
                 pf_inline field && (pf_marked field || pathHasSecrets fuel (pf_child field) path)
                 || match match_candidates path (pf_candidates field) with
                    | Some rest => pf_marked field || pathHasSecrets fuel (pf_child field) rest
                    | None => false
                    end) (plan_origins t)
           | KindMap => existsb (pathHasSecrets fuel (deref (ty_Elem (type_at t)))) (remainders (S (String.length path)) path)
           | KindSlice | KindArray =>
               pathHasSecrets fuel (deref (ty_Elem (type_at t))) match strings_Cut path "." with Some (_, rest) => rest | None => "" end
           | _ => false
           end
  end.

(** Every call but one into an inline map shortens the path. *)
Definition PathHasSecrets (t : nat) (path : string) : bool := pathHasSecrets (2 * String.length path + 2) (deref t) path.
End plan.

(** ** What is secret *)

Section specification.
Context `{GoStd} (unicode_name : string → bool) (types : list gotype).

Notation deref := (deref types).
Notation Kind := (Kind types).
Notation type_at := (type_at types).
Notation plan_fields := (plan_fields unicode_name types).

(** [type_child t v seg marked u x]: in a JSON node [v] of type [t], the child [x]
    under a segment has type [u], and its field may be marked. *)
Inductive type_child (t : nat) : value → string → bool → nat → value → Prop :=
  | child_field m pf x : Kind t = KindStruct → pf ∈ plan_fields t → m !! pf_name pf = Some x →
      type_child t (VMap m) (pf_name pf) (pf_marked pf) (pf_child pf) x
  | child_key m k x : Kind t = KindMap → m !! k = Some x → type_child t (VMap m) k false (deref (ty_Elem (type_at t))) x
  | child_item l i x : Kind t = KindSlice ∨ Kind t = KindArray → nth_named 0 l i = Some x →
      type_child t (VSlice l) i false (deref (ty_Elem (type_at t))) x.

(** The topmost secret nodes: those of a type that prints itself and has a marked
    field somewhere, and those in a marked field. *)
Inductive secret_at : nat → value → list string → Prop :=
  | secret_opaque t v : v ≠ VNil → hasSecrets types t = true → opaqueJSONType types t = true → secret_at t v []
  | secret_marked t v seg u x : hasSecrets types t = true → opaqueJSONType types t = false →
      type_child t v seg true u x → secret_at t v [seg]
  | secret_below t v seg u x p : hasSecrets types t = true → opaqueJSONType types t = false →
      type_child t v seg false u x → secret_at u x p → secret_at t v (seg :: p).

(** The fields whose names are keys of a struct's input, with the mark that they
    have or inherit: its own, and those of the structs flattened into it. *)
Inductive input_field : list nat → nat → StructField → bool → Prop :=
  | input_own stack t f : t ∉ stack → f ∈ ty_Fields (type_at t) → f_Exported f || f_Anonymous f = true →
      input_field stack t f (marked_field f)
  | input_embedded stack t g f m : t ∉ stack → g ∈ ty_Fields (type_at t) → f_Exported g || f_Anonymous g = true →
      fn_Flatten (FieldNamesOf g) || YAMLInline (f_Tag g "yaml") = true → Kind (deref (f_Type g)) = KindStruct →
      input_field (t :: stack) (deref (f_Type g)) f m → input_field stack t f (marked_field g || m).

(** The maps inlined into a struct. *)
Inductive inline_map : list nat → nat → nat → bool → Prop :=
  | inline_own stack t f : t ∉ stack → f ∈ ty_Fields (type_at t) → f_Exported f || f_Anonymous f = true →
      fn_Flatten (FieldNamesOf f) || YAMLInline (f_Tag f "yaml") = true → Kind (deref (f_Type f)) = KindMap →
      inline_map stack t (deref (f_Type f)) (marked_field f)
  | inline_embedded stack t g u m : t ∉ stack → g ∈ ty_Fields (type_at t) → f_Exported g || f_Anonymous g = true →
      fn_Flatten (FieldNamesOf g) || YAMLInline (f_Tag g "yaml") = true → Kind (deref (f_Type g)) = KindStruct →
      inline_map (t :: stack) (deref (f_Type g)) u m → inline_map stack t u (marked_field g || m).

Context (fold_unicode : string → string → bool).

(** A key that names a field, in any case; the source compares as many bytes as the name has. *)
Definition names_field (key : string) (f : StructField) : Prop :=
  ∃ name, name ∈ fn_InputAliases (FieldNamesOf f) ∧ EqualFold fold_unicode key name = true ∧ String.length key = String.length name.

(** The keys of an input, from a value of type [t] down, that reach a secret: they
    enter a marked field, or a type that prints itself, or stop above one. *)
Inductive leads_to_secret : nat → list string → Prop :=
  | leads_here t : hasSecrets types t = true → leads_to_secret t []
  | leads_opaque t keys : hasSecrets types t = true → opaqueJSONType types t = true → leads_to_secret t keys
  | leads_marked t f key keys : Kind t = KindStruct → input_field [] t f true → names_field key f → leads_to_secret t (key :: keys)
  | leads_field t f m key keys : Kind t = KindStruct → input_field [] t f m → names_field key f →
      leads_to_secret (deref (f_Type f)) keys → leads_to_secret t (key :: keys)
  | leads_inline_marked t u keys : Kind t = KindStruct → inline_map [] t u true → leads_to_secret t keys
  | leads_inline t u m keys : Kind t = KindStruct → inline_map [] t u m → leads_to_secret u keys → leads_to_secret t keys
  | leads_key t key keys : Kind t = KindMap → leads_to_secret (deref (ty_Elem (type_at t))) keys → leads_to_secret t (key :: keys)
  | leads_item t i keys : Kind t = KindSlice ∨ Kind t = KindArray → leads_to_secret (deref (ty_Elem (type_at t))) keys →
      leads_to_secret t (itoa i :: keys).
End specification.

(** ** Lemmas: masking by type *)

Lemma foldl_updates {A} (name : A → string) (upd : A → option value) l (out : gmap string value) k :
  (∀ f g, f ∈ l → g ∈ l → name f = name g → f = g) →
  foldl (λ out f, match upd f with Some v => <[name f := v]> out | None => out end) out l !! k =
  match find (λ f, String.eqb (name f) k) l ≫= upd with Some v => Some v | None => out !! k end.
Proof.
  revert out. induction l as [|f l IH]; intros out Huniq; [done|]. cbn [foldl find].
  rewrite IH by (intros g h ? ?; apply Huniq; by constructor).
  destruct (String.eqb_spec (name f) k) as [<-|Hne].
  - cbn [mbind option_bind]. destruct (find _ l) as [g|] eqn:Hg; cbn [mbind option_bind].
    + apply find_some in Hg as [Hg%list_elem_of_In Hn%String.eqb_eq].
      rewrite <-(Huniq f g); [|left|by right|done]. destruct (upd f); [done|]. done.
    + destruct (upd f); [by rewrite lookup_insert_eq|done].
  - destruct (find _ l ≫= upd); [done|]. destruct (upd f); [by rewrite lookup_insert_ne|done].
Qed.

Section typed_masking.
Context `{GoStd} (unicode_name : string → bool) (types : list gotype) (redactor : string → value → value).

Notation deref := (deref types).
Notation Kind := (Kind types).
Notation type_at := (type_at types).
Notation plan_fields := (plan_fields unicode_name types).
Notation redact := (redact unicode_name types redactor).
Notation secret_at := (secret_at unicode_name types).
Notation type_child := (type_child unicode_name types).

Lemma JSONFields_unique t f g :
  f ∈ JSONFields unicode_name types t → g ∈ JSONFields unicode_name types t → jf_Name f = jf_Name g → f = g.
Proof.
  unfold JSONFields. set (l := sort_stable _ _).
  assert (StronglySorted (λ a b, json_leb a b = true) l) as Hl by (apply sort_stable_sorted; [apply json_leb_total|apply json_leb_trans]).
  rewrite !dominant_spec by done. intros (_ & fs & Hf & Hff) (_ & gs & Hg & Hgf) Hn.
  destruct (decide (f = g)) as [|Hne]; [done|exfalso].
  assert (g ∈ fs) as Hin. { assert (g ∈ f :: fs) as Hc by (rewrite <-Hf, Hg; left). apply elem_of_cons in Hc as [?|?]; [congruence|done]. }
  assert (f ∈ gs) as Hin'. { assert (f ∈ g :: gs) as Hc by (rewrite <-Hg, Hf; left). apply elem_of_cons in Hc as [?|?]; [congruence|done]. }
  specialize (Hff g Hin ltac:(done)). specialize (Hgf f Hin' Hn). destruct (json_leb_total f g); congruence.
Qed.

Lemma plan_fields_unique t f g : f ∈ plan_fields t → g ∈ plan_fields t → pf_name f = pf_name g → f = g.
Proof.
  unfold SecretPlan.plan_fields. intros (jf & -> & Hjf)%list_elem_of_fmap (jg & -> & Hjg)%list_elem_of_fmap.
  destruct (follow_index types t false (jf_Index jf)) eqn:?, (follow_index types t false (jf_Index jg)) eqn:?. simpl.
  intros Hn. assert (jf = jg) as -> by eauto using JSONFields_unique. congruence.
Qed.

Lemma redact_clear t v path : hasSecrets types t = false → redact v t path = v.
Proof. intros Ht. by destruct v; simpl; rewrite ?Ht. Qed.

(** What the child of a node under a segment becomes. *)
Definition redact_child (t : nat) (v : value) (path seg : string) (x : value) : value :=
  match Kind t, v with
  | KindStruct, VMap _ =>
      match find (λ f, String.eqb (pf_name f) seg) (plan_fields t) with
      | Some f => if pf_marked f then redactor (joinPath path seg) x else redact x (pf_child f) (joinPath path seg)
      | None => x
      end
  | (KindSlice | KindArray), VSlice _ => redact x (deref (ty_Elem (type_at t))) (joinPath path seg)
  | KindMap, VMap _ => redact x (deref (ty_Elem (type_at t))) (joinPath path seg)
  | _, _ => x
  end.

Lemma redact_struct t m path k : hasSecrets types t = true → opaqueJSONType types t = false → Kind t = KindStruct →
  child (redact (VMap m) t path) k = redact_child t (VMap m) path k <$> m !! k.
Proof.
  intros Ht Ho Hk. cbn [SecretPlan.redact]. rewrite Ht, Ho, Hk. cbn [negb child]. unfold redact_child. rewrite Hk.
  set (upd f := m !! pf_name f ≫= λ x,
    if pf_marked f then Some (redactor (joinPath path (pf_name f)) x)
    else if hasSecrets types (pf_child f) then Some (redact x (pf_child f) (joinPath path (pf_name f))) else None).
  rewrite (foldl_same _ (λ out f, match upd f with Some v => <[pf_name f := v]> out | None => out end)).
  2:{ intros out f. unfold upd. rewrite lookup_fmap. destruct (m !! pf_name f); [|done]. cbn.
      destruct (pf_marked f); [done|]. by destruct (hasSecrets types (pf_child f)). }
  rewrite foldl_updates by (intros f g; apply plan_fields_unique).
  destruct (find _ (plan_fields t)) as [f|] eqn:Hf; cbn [mbind option_bind]; [|by destruct (m !! k)].
  apply find_some in Hf as [_ Hn%String.eqb_eq]. unfold upd. rewrite Hn.
  destruct (m !! k) as [x|]; [|done]. cbn [mbind option_bind fmap option_fmap option_map].
  destruct (pf_marked f); [done|]. destruct (hasSecrets types (pf_child f)) eqn:Hc; [done|]. by rewrite redact_clear.
Qed.

Lemma nth_named_redact u path i l seg :
  nth_named i (imap (λ j rec, rec u (joinPath path (itoa (i + j)))) (redact <$> l)) seg =
  (λ x, redact x u (joinPath path seg)) <$> nth_named i l seg.
Proof.
  revert i. induction l as [|x l IH]; intros i; [done|]. cbn [fmap list_fmap imap nth_named].
  rewrite Nat.add_0_r. destruct (String.eqb_spec (itoa i) seg) as [->|]; [done|].
  rewrite <-IH. f_equal. apply imap_ext. intros j rec _. simpl. by rewrite Nat.add_succ_r.
Qed.

Lemma child_redact t v path seg : hasSecrets types t = true → opaqueJSONType types t = false →
  child (redact v t path) seg = redact_child t v path seg <$> child v seg.
Proof.
  intros Ht Ho. destruct v as [| | | | | |m| |l| |]; try (cbn; rewrite ?Ht, ?Ho; by destruct (Kind t)).
  - destruct (Kind t) eqn:Hk; try (cbn; rewrite Ht, Ho, Hk; cbn; unfold redact_child; rewrite Hk; by destruct (m !! seg)).
    + by apply redact_struct.
    + cbn. rewrite Ht, Ho, Hk. cbn. unfold redact_child. rewrite Hk, map_lookup_imap, lookup_fmap. by destruct (m !! seg).
  - destruct (Kind t) eqn:Hk; try (cbn; rewrite Ht, Ho, Hk; cbn; unfold redact_child; rewrite Hk; by destruct (nth_named 0 l seg)).
    all: cbn; rewrite Ht, Ho, Hk; cbn; rewrite (nth_named_redact _ path 0); unfold redact_child; by rewrite Hk.
Qed.

(** What becomes of a child, from what its field says. *)
Lemma redact_child_typed t v path seg marked u x : type_child t v seg marked u x →
  redact_child t v path seg x = if marked then redactor (joinPath path seg) x else redact x u (joinPath path seg).
Proof.
  intros Hc. unfold redact_child. destruct Hc as [m pf x Hk Hf Hm|m k x Hk Hm|l i x Hk Hl]; rewrite ?Hk; [|done|by destruct Hk as [-> | ->]].
  destruct (find _ _) as [f|] eqn:Hfind.
  - apply find_some in Hfind as [Hin%list_elem_of_In Hn%String.eqb_eq]. by rewrite (plan_fields_unique t f pf Hin Hf Hn).
  - apply (find_none _ _ Hfind) in Hf || (apply list_elem_of_In in Hf; apply (find_none _ _ Hfind) in Hf).
    by rewrite String.eqb_refl in Hf.
Qed.

Lemma redact_child_cases t v path seg x : child v seg = Some x →
  (∃ marked u, type_child t v seg marked u x) ∨ redact_child t v path seg x = x.
Proof.
  unfold redact_child. destruct v as [| | | | | |m| |l| |]; intros Hx; try done; cbn in Hx; destruct (Kind t) eqn:Hk; try (by right).
  - destruct (find _ _) as [f|] eqn:Hf; [|by right]. apply find_some in Hf as [Hin%list_elem_of_In Hn%String.eqb_eq]. subst seg.
    left. do 2 eexists. by apply child_field.
  - left. do 2 eexists. by apply child_key.
  - left. do 2 eexists. apply child_item; [by left|done].
  - left. do 2 eexists. apply child_item; [by right|done].
Qed.

Lemma type_child_child t v seg marked u x : type_child t v seg marked u x → child v seg = Some x.
Proof. by destruct 1. Qed.

Lemma redact_secret t v path p : secret_at t v p →
  at_path (redact v t path) p = redactor (foldl joinPath path p) <$> at_path v p.
Proof.
  intros Hs. revert path. induction Hs as [t v Hv Ht Ho|t v seg u x Ht Ho Hc|t v seg u x p Ht Ho Hc _ IH]; intros path.
  - by destruct v; simpl; rewrite ?Ht, ?Ho.
  - cbn [at_path]. rewrite child_redact, (type_child_child _ _ _ _ _ _ Hc) by done. simpl. by rewrite (redact_child_typed _ _ _ _ _ _ _ Hc).
  - cbn [at_path]. rewrite child_redact, (type_child_child _ _ _ _ _ _ Hc) by done. simpl.
    rewrite (redact_child_typed _ _ _ _ _ _ _ Hc). by rewrite IH.
Qed.

(** A leaf, or nothing. *)
Definition leaf_or_none (o : option value) : Prop := match o with Some (VMap _ | VSlice _) => False | _ => True end.

Lemma redact_frame t v path p : (∀ q, q `prefix_of` p → ¬ secret_at t v q) → leaf_or_none (at_path v p) →
  at_path (redact v t path) p = at_path v p.
Proof.
  revert t v path. induction p as [|s p IH]; intros t v path Hno Hleaf; cbn [at_path] in *;
    (destruct (hasSecrets types t) eqn:Ht; [|by rewrite redact_clear]).
  - destruct v as [| | | | | |m| |l| |]; try done;
      (destruct (opaqueJSONType types t) eqn:Ho; [exfalso; apply (Hno []); [done|by constructor]|]); try (cbn; rewrite Ht, Ho; by destruct (Kind t)).
  - destruct (decide (v = VNil)) as [->|Hv]; [done|].
    destruct (opaqueJSONType types t) eqn:Ho; [exfalso; apply (Hno []); [by exists (s :: p)|by constructor]|].
    rewrite child_redact by done. destruct (child v s) as [x|] eqn:Hx; [|done]. cbn [fmap option_fmap option_map mbind option_bind].
    destruct (redact_child_cases t v path s x Hx) as [(marked & u & Hc)| ->]; [|done].
    rewrite (redact_child_typed _ _ _ _ _ _ _ Hc). destruct marked.
    + exfalso. apply (Hno [s]); [by exists p|by econstructor].
    + apply IH; [|done]. intros q [r ->] Hq. apply (Hno (s :: q)); [by exists r|by eapply secret_below].
Qed.

End typed_masking.

(** ** Lemmas: provenance paths *)

Lemma Join_head k keys sep : strings_Join (k :: keys) sep = match keys with [] => k | _ => k +:+ sep +:+ strings_Join keys sep end.
Proof. by destruct keys. Qed.

Lemma remainders_join k keys fuel : String.length (strings_Join (k :: keys) ".") < fuel →
  strings_Join keys "." ∈ remainders fuel (strings_Join (k :: keys) ".").
Proof.
  revert k. induction fuel as [|fuel IH]; intros k Hfuel; [lia|]. cbn [remainders].
  destruct (byte_cut "." k) as [Hk|(a & b & Ha & ->)].
  - rewrite Join_head. destruct keys as [|k' keys]; [rewrite Cut_none by done; left|].
    change (k +:+ "." +:+ strings_Join (k' :: keys) ".") with (k +:+ String "." (strings_Join (k' :: keys) ".")).
    rewrite Cut_app by done. left.
  - assert (strings_Join ((a +:+ String "." b) :: keys) "." = a +:+ String "." (strings_Join (b :: keys) ".")) as Heq.
    { rewrite !Join_head. destruct keys; [done|]. by rewrite app_str_assoc. }
    rewrite Heq, Cut_app by done. right. apply IH. rewrite Heq, length_app_str in Hfuel. cbn [String.length] in Hfuel. lia.
Qed.

(** A decimal has no dot. *)
Lemma itoa_no_dot n : no_byte "." (itoa n) = true.
Proof.
  unfold itoa, pretty, pretty_N. destruct (decide _); [done|]. generalize (N.of_nat n). intros x.
  assert (no_byte "." "" = true) as Hs by done. revert Hs. generalize "". induction (N.lt_wf_0 x) as [x _ IH]; intros s Hs.
  destruct (decide (x = 0%N)) as [->|Hx]; [by rewrite pretty_N_go_0|]. rewrite pretty_N_go_step by lia. apply IH; [apply N.div_lt; lia|].
  unfold no_byte in *. cbn [str_forallb]. rewrite Hs, andb_true_r. unfold pretty_N_char. by repeat case_match.
Qed.

Section provenance_paths.
Context `{GoStd} (unicode_name : string → bool) (fold_unicode : string → string → bool) (types : list gotype).

Notation deref := (deref types).
Notation Kind := (Kind types).
Notation type_at := (type_at types).
Notation input_field := (input_field types).
Notation inline_map := (inline_map types).
Notation leads_to_secret := (leads_to_secret types fold_unicode).
Notation hasSecrets := (hasSecrets types).

Lemma edge_deref t : rtc (edge types) t (deref t).
Proof.
  unfold TypeInfo.deref. generalize (length types). intros n. revert t. induction n as [|n IH]; intros t; [done|]. cbn [deref_from].
  destruct (decide _) as [Hk|_]; [|done]. eapply rtc_l; [|apply IH]. unfold edge, successors. rewrite Hk. left.
Qed.

Lemma hasSecrets_edge t u : rtc (edge types) t u → hasSecrets u = true → hasSecrets t = true.
Proof. intros Htu (w & Huw & Hw)%Reaches_spec. apply Reaches_spec. exists w. split; [by etransitivity|done]. Qed.

Lemma edge_field t f : Kind t = KindStruct → f ∈ ty_Fields (type_at t) → f_Exported f || f_Anonymous f = true →
  rtc (edge types) t (deref (f_Type f)).
Proof.
  intros Hk Hf Hv. eapply rtc_l; [|apply edge_deref]. unfold edge, successors. rewrite Hk.
  apply list_elem_of_fmap. exists f. split; [done|]. by apply list_elem_of_filter.
Qed.

Lemma hasSecrets_marked t f : Kind t = KindStruct → f ∈ ty_Fields (type_at t) → f_Exported f || f_Anonymous f = true →
  marked_field f = true → hasSecrets t = true.
Proof.
  intros Hk Hf Hv Hm. apply Reaches_spec. exists t. split; [done|]. unfold tagged_struct. rewrite bool_decide_true by done.
  apply existsb_exists. exists f. split; [by apply list_elem_of_In|]. by rewrite Hv, Hm.
Qed.

Lemma input_field_secrets stack t f m : Kind t = KindStruct → input_field stack t f m →
  (m = true → hasSecrets t = true) ∧ rtc (edge types) t (deref (f_Type f)).
Proof.
  intros Hk Hi. induction Hi as [stack t f _ Hf Hv|stack t g f m _ Hg Hv _ Hks _ IH].
  - split; [by apply hasSecrets_marked|by apply edge_field].
  - specialize (IH Hks) as [IHm IHt]. pose proof (edge_field t g Hk Hg Hv) as He. split; [|by etransitivity].
    intros [Hm|Hm]%orb_true_iff; [by eapply hasSecrets_marked|]. eapply hasSecrets_edge; [exact He|by apply IHm].
Qed.

Lemma inline_map_secrets stack t u m : Kind t = KindStruct → inline_map stack t u m →
  (m = true → hasSecrets t = true) ∧ rtc (edge types) t u ∧ Kind u = KindMap.
Proof.
  intros Hk Hi. induction Hi as [stack t f _ Hf Hv _ Hm|stack t g u m _ Hg Hv _ Hks _ IH].
  - split; [by apply hasSecrets_marked|split; [by apply edge_field|done]].
  - specialize (IH Hks) as (IHm & IHt & ?). pose proof (edge_field t g Hk Hg Hv) as He. split; [|split; [by etransitivity|done]].
    intros [Hm|Hm]%orb_true_iff; [by eapply hasSecrets_marked|]. eapply hasSecrets_edge; [exact He|by apply IHm].
Qed.

Lemma edge_elem t : Kind t = KindMap ∨ Kind t = KindSlice ∨ Kind t = KindArray → rtc (edge types) t (deref (ty_Elem (type_at t))).
Proof.
  intros Hk. eapply rtc_l; [|apply edge_deref]. unfold edge, successors.
  destruct Hk as [-> |[-> | ->]]; [by right; left|left|left].
Qed.

Lemma leads_hasSecrets t keys : leads_to_secret t keys → hasSecrets t = true.
Proof.
  induction 1 as [t Ht|t keys Ht Ho|t f key keys Hk Hi Hn|t f m key keys Hk Hi Hn _ IH|t u keys Hk Hi|t u m keys Hk Hi _ IH
    |t key keys Hk _ IH|t i keys Hk _ IH]; [done|done|..].
  - by apply (input_field_secrets _ _ _ _ Hk Hi).
  - destruct (input_field_secrets _ _ _ _ Hk Hi) as [_ He]. by eapply hasSecrets_edge.
  - by apply (inline_map_secrets _ _ _ _ Hk Hi).
  - destruct (inline_map_secrets _ _ _ _ Hk Hi) as (_ & He & _). by eapply hasSecrets_edge.
  - eapply hasSecrets_edge; [apply edge_elem; by left|done].
  - eapply hasSecrets_edge; [apply edge_elem; by right|done].
Qed.

(** The plan of a struct lists its input fields. *)
Lemma origins_field stack t f m fuel m0 : input_field stack t f m → Kind t = KindStruct →
  NoDup stack → Forall (λ t, Kind t = KindStruct) stack → length types < fuel + length stack →
  {| pf_name := ""; pf_candidates := fn_InputAliases (FieldNamesOf f); pf_marked := m0 || m; pf_child := deref (f_Type f); pf_inline := false |}
    ∈ provenanceFields types fuel t m0 stack.
Proof.
  intros Hi. revert fuel m0. induction Hi as [stack t f Hs Hf Hv|stack t g f m Hs Hg Hv Hfl Hks _ IH]; intros fuel m0 Hk Hnd Hst Hfuel;
    pose proof (stack_bound types stack Hnd Hst); (destruct fuel as [|fuel]; [lia|]); cbn [provenanceFields];
    rewrite bool_decide_false by done; apply list_elem_of_bind.
  - exists f. split; [|done]. replace (negb (f_Exported f) && _) with false by (by destruct (f_Exported f), (f_Anonymous f)). left.
  - exists g. split; [|done]. replace (negb (f_Exported g) && _) with false by (by destruct (f_Exported g), (f_Anonymous g)).
    replace (negb (fn_Flatten _) && _) with false by (by destruct (fn_Flatten _), (YAMLInline _)). rewrite Hks. right.
    rewrite orb_assoc. apply IH; [done|by constructor|by constructor|simpl; lia].
Qed.

Lemma origins_inline stack t u m fuel m0 : inline_map stack t u m → Kind t = KindStruct →
  NoDup stack → Forall (λ t, Kind t = KindStruct) stack → length types < fuel + length stack →
  {| pf_name := ""; pf_candidates := []; pf_marked := m0 || m; pf_child := u; pf_inline := true |} ∈ provenanceFields types fuel t m0 stack.
Proof.
  intros Hi. revert fuel m0. induction Hi as [stack t f Hs Hf Hv Hfl Hkm|stack t g u m Hs Hg Hv Hfl Hks _ IH]; intros fuel m0 Hk Hnd Hst Hfuel;
    pose proof (stack_bound types stack Hnd Hst); (destruct fuel as [|fuel]; [lia|]); cbn [provenanceFields];
    rewrite bool_decide_false by done; apply list_elem_of_bind.
  - exists f. split; [|done]. replace (negb (f_Exported f) && _) with false by (by destruct (f_Exported f), (f_Anonymous f)).
    replace (negb (fn_Flatten _) && _) with false by (by destruct (fn_Flatten _), (YAMLInline _)). rewrite Hkm. right. left.
  - exists g. split; [|done]. replace (negb (f_Exported g) && _) with false by (by destruct (f_Exported g), (f_Anonymous g)).
    replace (negb (fn_Flatten _) && _) with false by (by destruct (fn_Flatten _), (YAMLInline _)). rewrite Hks. right.
    rewrite orb_assoc. apply IH; [done|by constructor|by constructor|simpl; lia].
Qed.

(** [unicode_names] have no dot, and no other rune folds to one. *)
Context (fold_dot : ∀ a b, fold_unicode a b = true → no_byte "." b = true → no_byte "." a = true).
Context (names_plain : ∀ t f name, f ∈ ty_Fields (type_at t) → name ∈ fn_InputAliases (FieldNamesOf f) → no_byte "." name = true).

Notation EqualFold := (EqualFold fold_unicode).
Notation match_candidates := (match_candidates fold_unicode).
Notation pathHasSecrets := (pathHasSecrets fold_unicode types).

Lemma lower_no_dot a b : str_map lower_byte a = str_map lower_byte b → no_byte "." b = true → no_byte "." a = true.
Proof.
  revert b. induction a as [|c a IH]; intros [|d b] Heq Hb; try done. cbn in Heq. injection Heq as Hcd Heq.
  unfold no_byte in *. cbn in *. apply andb_true_iff in Hb as [Hd Hb]. rewrite (IH b Heq Hb), andb_true_r.
  destruct (Ascii.eqb_spec c ".") as [->|]; [|done]. symmetry in Hcd. by rewrite (lower_byte_dot d Hcd) in Hd.
Qed.

Lemma EqualFold_dot a b : EqualFold a b = true → no_byte "." b = true → no_byte "." a = true.
Proof.
  unfold SecretPlan.EqualFold. destruct (str_forallb is_ascii a && _); [|apply fold_dot].
  intros Heq%String.eqb_eq. by apply lower_no_dot.
Qed.

Lemma Join_dot key keys : keys ≠ [] → no_byte "." (strings_Join (key :: keys) ".") = false.
Proof.
  intros Hne. rewrite Join_cons by done. unfold no_byte. rewrite !str_forallb_app. cbn. by rewrite andb_false_r.
Qed.

Lemma match_candidates_key key keys names name : Forall (λ n, no_byte "." n = true) names → name ∈ names →
  EqualFold key name = true → String.length key = String.length name →
  match_candidates (strings_Join (key :: keys) ".") names = Some (strings_Join keys ".").
Proof.
  intros Hplain Hin Hfold Hlen. pose proof (EqualFold_dot key name Hfold) as Hkey.
  rewrite Forall_forall in Hplain. specialize (Hkey (Hplain name Hin)).
  assert (Forall (λ n, no_byte "." n = true) names) as Hall by (by apply Forall_forall). clear Hplain.
  set (P := strings_Join (key :: keys) ".") in *.
  assert (keys = [] ∧ P = key ∨ keys ≠ [] ∧ P = key +:+ String "." (strings_Join keys ".")) as HP.
  { destruct (decide (keys = [])) as [->|Hne]; [by left|right]. split; [done|]. unfold P. by rewrite Join_cons. }
  induction names as [|n names IH]; [by apply not_elem_of_nil in Hin|]. apply Forall_cons in Hall as [Hn Hall]. cbn [SecretPlan.match_candidates].
  destruct (EqualFold P n) eqn:HPn.
  { apply EqualFold_dot in HPn; [|done]. destruct HP as [[-> _]|[Hne _]]; [done|]. unfold P in HPn. by rewrite Join_dot in HPn. }
  destruct (String.prefix "." (str_drop (String.length n) P) && EqualFold (str_take (String.length n) P) n) eqn:Hp.
  - apply andb_true_iff in Hp as [Hpre Hf]. apply prefix_inv in Hpre. apply EqualFold_dot in Hf; [|done].
    set (tk := str_take _ P) in *. pose proof (str_take_drop (String.length n) P) as Htd. fold tk in Htd. rewrite Hpre in Htd.
    destruct HP as [[_ HP]|[_ HP]].
    + exfalso. rewrite HP in Htd at 2. rewrite <-Htd in Hkey. unfold no_byte in Hkey. rewrite str_forallb_app in Hkey.
      cbn in Hkey. by rewrite andb_false_r in Hkey.
    + rewrite HP in Htd at 2. apply (app_byte_inj ".") in Htd as [Htk Hrest]; [|done|done]. f_equal. rewrite <-Hrest.
      generalize (String.length n), P. clear. intros m s. revert s. induction m as [|m IH]; intros [|c s]; try done. cbn [str_drop]. apply IH.
  - apply elem_of_cons in Hin as [->|Hin]; [exfalso|by apply IH].
    destruct HP as [[_ HP]|[_ HP]]; rewrite HP in HPn, Hp; [congruence|].
    rewrite <-Hlen, str_drop_app, str_take_app, Hfold, andb_true_r in Hp.
    pose proof (prefix_app "." (strings_Join keys ".")) as Hpre. cbn [String.append] in Hpre. congruence.
Qed.

Lemma length_Join key keys : String.length (strings_Join keys ".") ≤ String.length (strings_Join (key :: keys) ".") - 1 ∨ keys = [].
Proof.
  destruct (decide (keys = [])) as [|Hne]; [by right|left]. rewrite Join_cons by done. rewrite !length_app_str. cbn [String.length]. lia.
Qed.

(** The fuel left after the key of a child. *)
Lemma child_fuel key keys fuel : strings_Join (key :: keys) "." ≠ "" →
  2 * String.length (strings_Join (key :: keys) ".") + 1 ≤ S fuel → 2 * String.length (strings_Join keys ".") + 2 ≤ fuel.
Proof.
  intros Hne Hf. assert (1 ≤ String.length (strings_Join (key :: keys) ".")) as Hpos by (destruct (strings_Join _ _); simpl; [done|lia]).
  destruct (length_Join key keys) as [?| ->]; [lia|]. cbn [strings_Join String.length] in *. lia.
Qed.

Definition path_fuel (t : nat) (path : string) : nat := 2 * String.length path + (if decide (Kind t = KindMap) then 1 else 2).

Lemma path_fuel_ge t path : 2 * String.length path + 1 ≤ path_fuel t path ≤ 2 * String.length path + 2.
Proof. unfold path_fuel. destruct (decide _); lia. Qed.

(** One call, at a type with secrets and a path that goes on. *)
Lemma pathHasSecrets_step fuel t path : hasSecrets t = true →
  (path ≠ "" → opaqueJSONType types t = false → pathHasSecrets (S fuel) t path = true) → pathHasSecrets (S fuel) t path = true.
Proof.
  intros Ht Hstep. cbn [SecretPlan.pathHasSecrets] in *. rewrite Ht in *. cbn [negb] in *.
  destruct (String.eqb_spec path ""); [done|]. destruct (opaqueJSONType types t) eqn:Ho; [by rewrite orb_true_r|]. by apply Hstep.
Qed.

Lemma pathHasSecrets_field fuel t path field : hasSecrets t = true → Kind t = KindStruct → field ∈ plan_origins types t →
  pf_inline field && (pf_marked field || pathHasSecrets fuel (pf_child field) path)
    || match match_candidates path (pf_candidates field) with
       | Some rest => pf_marked field || pathHasSecrets fuel (pf_child field) rest
       | None => false
       end = true →
  pathHasSecrets (S fuel) t path = true.
Proof.
  intros Ht Hk Hf Hhit. cbn [SecretPlan.pathHasSecrets]. rewrite Ht, Hk. destruct (_ || opaqueJSONType types t); [done|].
  apply existsb_exists. exists field. by rewrite <-list_elem_of_In.
Qed.

Lemma input_field_plain stack t f m : input_field stack t f m → Forall (λ n, no_byte "." n = true) (fn_InputAliases (FieldNamesOf f)).
Proof. induction 1 as [stack t f _ Hf _|]; [|done]. apply Forall_forall. intros n. by eapply names_plain. Qed.

Lemma plan_origins_field t f m : Kind t = KindStruct → input_field [] t f m →
  {| pf_name := ""; pf_candidates := fn_InputAliases (FieldNamesOf f); pf_marked := m; pf_child := deref (f_Type f); pf_inline := false |}
    ∈ plan_origins types t.
Proof. intros Hk Hi. apply (origins_field [] t f m _ false Hi Hk); [apply NoDup_nil_2|apply Forall_nil_2|simpl; lia]. Qed.

Lemma plan_origins_inline t u m : Kind t = KindStruct → inline_map [] t u m →
  {| pf_name := ""; pf_candidates := []; pf_marked := m; pf_child := u; pf_inline := true |} ∈ plan_origins types t.
Proof. intros Hk Hi. apply (origins_inline [] t u m _ false Hi Hk); [apply NoDup_nil_2|apply Forall_nil_2|simpl; lia]. Qed.

Lemma pathHasSecrets_complete t keys : leads_to_secret t keys →
  ∀ fuel, path_fuel t (strings_Join keys ".") ≤ S fuel → pathHasSecrets (S fuel) t (strings_Join keys ".") = true.
Proof.
  intros Hl. assert (hasSecrets t = true) as Ht by (by eapply leads_hasSecrets). revert Ht.
  induction Hl as [t|t keys _ Ho|t f key keys Hk Hi (name & Hname & Hfold & Hlen)|t f m key keys Hk Hi (name & Hname & Hfold & Hlen) Hl IH
    |t u keys Hk Hi|t u m keys Hk Hi Hl IH|t key keys Hk Hl IH|t i keys Hk Hl IH]; intros Ht fuel Hfuel;
    (apply pathHasSecrets_step; [done|]); intros Hne Hno; try congruence;
    try (apply leads_hasSecrets in Hl; specialize (IH Hl)); [done|..].
  - eapply pathHasSecrets_field; [done|done|by apply plan_origins_field|]. cbn [pf_inline pf_candidates pf_marked pf_child].
    by rewrite (match_candidates_key _ _ _ name) by eauto using input_field_plain.
  - eapply pathHasSecrets_field; [done|done|by apply plan_origins_field|]. cbn [pf_inline pf_candidates pf_marked pf_child].
    rewrite (match_candidates_key _ _ _ name) by eauto using input_field_plain.
    pose proof (path_fuel_ge t (strings_Join (key :: keys) ".")). pose proof (child_fuel key keys fuel Hne ltac:(lia)).
    destruct fuel as [|fuel]; [lia|]. rewrite IH; [by rewrite orb_true_r|]. pose proof (path_fuel_ge (deref (f_Type f)) (strings_Join keys ".")). lia.
  - eapply pathHasSecrets_field; [done|done|by apply plan_origins_inline|]. done.
  - eapply pathHasSecrets_field; [done|done|by apply plan_origins_inline|]. cbn [pf_inline pf_candidates pf_marked pf_child].
    destruct (inline_map_secrets _ _ _ _ Hk Hi) as (_ & _ & Hu). unfold path_fuel in Hfuel, IH. rewrite Hk, Hu in *.
    rewrite decide_False in Hfuel by done. rewrite decide_True in IH by done.
    destruct fuel as [|fuel]; [lia|]. rewrite IH by lia. by rewrite orb_true_r.
  - cbn [SecretPlan.pathHasSecrets]. rewrite Ht, Hk. destruct (_ || opaqueJSONType types t); [done|]. cbn [negb].
    apply existsb_exists. exists (strings_Join keys "."). split; [apply list_elem_of_In, remainders_join; lia|].
    pose proof (path_fuel_ge t (strings_Join (key :: keys) ".")). pose proof (child_fuel key keys fuel Hne ltac:(lia)).
    destruct fuel as [|fuel]; [lia|]. apply IH. pose proof (path_fuel_ge (deref (ty_Elem (type_at t))) (strings_Join keys ".")). lia.
  - cbn [SecretPlan.pathHasSecrets]. rewrite Ht. destruct (_ || opaqueJSONType types t); [done|]. cbn [negb].
    assert (match strings_Cut (strings_Join (itoa i :: keys) ".") "." with Some (_, rest) => rest | None => "" end = strings_Join keys ".") as Hcut.
    { rewrite Join_head. destruct keys as [|k keys]; [by rewrite Cut_none by apply itoa_no_dot|].
      change (itoa i +:+ "." +:+ strings_Join (k :: keys) ".") with (itoa i +:+ String "." (strings_Join (k :: keys) ".")).
      by rewrite Cut_app by apply itoa_no_dot. }
    pose proof (path_fuel_ge t (strings_Join (itoa i :: keys) ".")). pose proof (child_fuel (itoa i) keys fuel Hne ltac:(lia)).
    destruct fuel as [|fuel]; [lia|].
    assert (pathHasSecrets (S fuel) (deref (ty_Elem (type_at t))) (strings_Join keys ".") = true) as Hrec.
    { apply IH. pose proof (path_fuel_ge (deref (ty_Elem (type_at t))) (strings_Join keys ".")). lia. }
    rewrite Hcut. by destruct Hk as [-> | ->].
Qed.
End provenance_paths.

(** No secret slips through provenance. If the keys of some input lead to a
    secret of the type (into a marked field or one that inherits the mark, into a
    type that prints itself, or to a container above one), through structs with
    any of their input names, flattened structs, inlined maps, maps whose keys may
    contain dots, and lists, then the dotted path of these keys is reported as
    secret, so that [Explain] masks what was recorded for it. *)
Theorem provenance_covers_types `{GoStd} (fold_unicode : string → string → bool) (types : list gotype)
    (t : nat) (keys : list string)
    (fold_dot : ∀ a b, fold_unicode a b = true → no_byte "." b = true → no_byte "." a = true)
    (names_plain : ∀ t f name, f ∈ ty_Fields (type_at types t) → name ∈ fn_InputAliases (FieldNamesOf f) → no_byte "." name = true)
    (Hleads : leads_to_secret types fold_unicode (deref types t) keys) :
  PathHasSecrets fold_unicode types t (strings_Join keys ".") = true.
Proof.
  unfold PathHasSecrets. rewrite Nat.add_succ_r. apply pathHasSecrets_complete; [done..|].
  pose proof (path_fuel_ge types (deref types t) (strings_Join keys ".")). lia.
Qed.

(** C24: masking by type is exact. In the JSON form of a typed value, the topmost
    nodes in a marked field, or of a type that prints itself and holds a marked
    field, become what the redactor makes of them and their dotted path; a leaf
    that is in no such node is unchanged, and no node appears. *)
Theorem typed_redaction_exact `{GoStd} (unicode_name : string → bool) (types : list gotype) (redactor : string → value → value)
    (t : nat) (v : value) (p : list string) :
  let masked := redact unicode_name types redactor v t "" in
  (secret_at unicode_name types t v p → at_path masked p = redactor (foldl joinPath "" p) <$> at_path v p)
  ∧ ((∀ q, q `prefix_of` p → ¬ secret_at unicode_name types t v q) → leaf_or_none (at_path v p) → at_path masked p = at_path v p).
Proof. split; [apply redact_secret|apply redact_frame]. Qed.

(** [Node] of [example_types]: the field [Pass] of every node of the chain is masked. *)
Example example_redact :
  Plan_Apply (λ _, true) example_types (λ _ _, VString "***") 1 (compilePatterns [])
    (Some {["Next" := VMap (<["Pass" := VString "b"]> {["Base" := VString "c"]}); "Pass" := VString "a"]})
  = Some {["Next" := VMap (<["Pass" := VString "***"]> {["Base" := VString "c"]}); "Pass" := VString "***"]}.
Proof. vm_compute. reflexivity. Qed.

(** The input names of the examples are folded by this instance. *)
#[local] Existing Instance example_std.

(** The keys [Next], [Pass] of the recursive [Node] lead to the marked field. *)
Lemma provenance_covers_types_witness : PathHasSecrets (λ _ _, false) example_types 1 (strings_Join ["next"; "PASS"] ".") = true.
Proof.
  assert (∀ t f name, f ∈ ty_Fields (type_at example_types t) → name ∈ fn_InputAliases (FieldNamesOf f) → no_byte "." name = true) as Hnames.
  { assert (Forall (λ t, Forall (λ f, Forall (λ n, no_byte "." n = true) (fn_InputAliases (FieldNamesOf f))) (ty_Fields t)) example_types) as Hall
      by (repeat constructor).
    intros t f name Hf Hn. unfold type_at in Hf. destruct (example_types !! t) as [ty|] eqn:Ht; [|by apply not_elem_of_nil in Hf].
    rewrite Forall_lookup in Hall. specialize (Hall t ty Ht). rewrite Forall_forall in Hall. specialize (Hall f Hf).
    rewrite Forall_forall in Hall. by apply Hall. }
  eapply provenance_covers_types; [done|exact Hnames|].
  apply leads_field with (f := nth 1 (ty_Fields (type_at example_types 0)) {| f_Name := ""; f_Exported := true; f_Anonymous := false; f_Type := 0; f_Tags := ∅ |}) (m := false).
  - reflexivity.
  - apply (input_own example_types [] 0); [apply not_elem_of_nil|right; left|reflexivity].
  - exists "next". split; [left|split; reflexivity].
  - apply leads_marked with (f := nth 2 (ty_Fields (type_at example_types 0)) {| f_Name := ""; f_Exported := true; f_Anonymous := false; f_Type := 0; f_Tags := ∅ |}).
    + reflexivity.
    + apply (input_own example_types [] 0); [apply not_elem_of_nil|right; right; left|reflexivity].
    + exists "pass". split; [left|split; reflexivity].
Defined.
