(* ===== verification/FieldMeta.v ===== *)
(** * Defaults and constraints of struct fields (internal/typeinfo)

    What the [fc] tags of a Go type do to a decoded value: [default=] fills zero
    fields (defaults.go), and [required], [min], [max] and [oneof] are checked
    afterwards (fieldmeta.go).  A typed value is a tree whose structs have their
    fields in order; the plan of a type is read off its table, so the per-type
    caches, which return what they computed first, are not part of the model. *)
From S2P Require Import Prelude GoStrings Value TypeInfo.
From Stdlib Require Import Ascii SpecFloat.
Open Scope nat_scope.

(** A [reflect.Value]; a struct has its fields with whether they are exported, a map
    keys of a string kind, and a value of another kind whether it is zero. *)
Inductive gval :=
  | GBool (b : bool)
  | GInt (k : intkind) (n : Z)
  | GFloat (k : floatkind) (f : spec_float)
  | GString (s : string)
  | GStruct (fields : list (bool * gval))
  | GPtr (o : option gval)
  | GSlice (o : option (list gval))
  | GArray (l : list gval)
  | GMap (o : option (gmap string gval))
  | GOther (zero : bool) (id : N).

(** [Value.IsZero]. *)
Fixpoint IsZero (v : gval) : bool :=
  match v with
  | GBool b => negb b
  | GInt _ n => (n =? 0)%Z
  | GFloat _ f => bool_decide (f = S754_zero false)
  | GString s => String.eqb s ""
  | GStruct l => forallb (λ p, IsZero p.2) l
  | GPtr None | GSlice None | GMap None => true
  | GPtr (Some _) | GSlice (Some _) | GMap (Some _) => false
  | GArray l => forallb IsZero l
  | GOther zero _ => zero
  end.

(** The loop that follows pointers; [None] at a nil one. *)
Fixpoint deref_value (v : gval) : option gval :=
  match v with GPtr (Some v) => deref_value v | GPtr None => None | _ => Some v end.

(** [fieldAt], with whether the field can be set ([Value.CanSet]): only exported fields can. *)
Fixpoint fieldAt (v : gval) (settable : bool) (index : list nat) : option (gval * bool) :=
  match index with
  | [] => Some (v, settable)
  | i :: index =>
      match deref_value v with
      | Some (GStruct l) => p ← l !! i; fieldAt p.2 p.1 index
      | _ => None
      end
  end.

(** A change of the value behind the pointers, and of a field ([Value.Set]). *)
Fixpoint update_deref (f : gval → gval) (v : gval) : gval :=
  match v with GPtr (Some v) => GPtr (Some (update_deref f v)) | GPtr None => v | _ => f v end.

Fixpoint set_field (index : list nat) (w v : gval) : gval :=
  match index with
  | [] => w
  | i :: index =>
      update_deref (λ u, match u with GStruct l => GStruct (alter (λ p, (p.1, set_field index w p.2)) i l) | _ => u end) v
  end.

Definition int_bits (k : intkind) : Z :=
  match k with KInt | KInt64 | KUint | KUint64 => 64 | KInt8 | KUint8 => 8 | KInt16 | KUint16 => 16 | KInt32 | KUint32 => 32 end.

Definition is_signed (k : intkind) : bool :=
  match k with KInt | KInt8 | KInt16 | KInt32 | KInt64 => true | _ => false end.

(** [strconv.ParseBool]. *)
Definition ParseBool (s : string) : option bool :=
  if decide (s ∈ ["1"; "t"; "T"; "TRUE"; "true"; "True"]) then Some true
  else if decide (s ∈ ["0"; "f"; "F"; "FALSE"; "false"; "False"]) then Some false else None.

Definition CutPrefix (s pre : string) : option string := if HasPrefix s pre then Some (TrimPrefix s pre) else None.

(** [float64(n)], rounded to even. *)
Definition float_of_int (n : Z) : spec_float := binary_normalize 53 1024 n 0 false.

Inductive assign_error := ErrParse | ErrUnsupportedKind.
Record default_error := { de_raw : string; de_cause : assign_error }.

Record fieldConstraint := {
  fc_Path : string; fc_Index : list nat; fc_Required : bool; fc_Min : option spec_float; fc_Max : option spec_float; fc_OneOf : list string;
}.

Inductive violation_msg := MsgRequired | MsgBelow (f min : spec_float) | MsgAbove (f max : spec_float) | MsgOneOf (got : string) (allowed : list string).
Record Violation := { vi_Path : string; vi_Msg : violation_msg }.

Section fieldmeta.
Context `{GoStd}.
(** [strconv.ParseFloat(s, 32)], and [fmt.Sprint] of the field at an index, whose type may have a [String] method. *)
Context (parse_float32 : string → option spec_float) (Sprint : list nat → gval → string).
Context (types : list gotype).

(** ** Defaults *)

Fixpoint first_default (parts : list string) : option string :=
  match parts with
  | [] => None
  | p :: parts => match CutPrefix (TrimSpace p) "default=" with Some v => Some v | None => first_default parts end
  end.

Definition defaultTagValue (tag : string) : option string :=
  if String.eqb tag "" then None else first_default (strings_Split tag ",").

(** The callback of both plans descends into structs only. *)
Definition into_structs (path : string) (index : list nat) (f : StructField) : bool :=
  bool_decide (Kind types (deref types (f_Type f)) = KindStruct).

Definition default_entry (e : string * list nat * StructField) : option (list nat * string) :=
  raw ← defaultTagValue (f_Tag e.2 TagKey); Some (e.1.2, raw).

Definition defaultsPlanFor (t : nat) : list (list nat * string) := omap default_entry (Walk types t into_structs).

Definition assignFromTag (v : gval) (raw : string) : result assign_error gval :=
  let parsed {A} (o : option A) (f : A → gval) := match o with Some a => Ok (f a) | None => Err ErrParse end in
  match v with
  | GString _ => Ok (GString raw)
  | GBool _ => parsed (ParseBool raw) GBool
  | GInt k _ => parsed (if is_signed k then ParseInt raw (int_bits k) else ParseUint raw (int_bits k)) (GInt k)
  | GFloat KFloat32 _ => parsed (parse_float32 raw) (GFloat KFloat32)
  | GFloat KFloat64 _ => parsed (go_parse_float raw) (GFloat KFloat64)
  | _ => Err ErrUnsupportedKind
  end.

Definition apply_default (v : gval) (e : list nat * string) : result default_error gval :=
  match fieldAt v true e.1 with
  | Some (w, true) =>
      if IsZero w then
        match assignFromTag w e.2 with
        | Ok w' => Ok (set_field e.1 w' v)
        | Err c => Err {| de_raw := e.2; de_cause := c |}
        end
      else Ok v
  | _ => Ok v
  end.

(** The value after the loop over the plan, and the error that ended it. *)
Fixpoint apply_defaults (plan : list (list nat * string)) (v : gval) : gval * option default_error :=
  match plan with
  | [] => (v, None)
  | e :: plan => match apply_default v e with Ok v => apply_defaults plan v | Err e => (v, Some e) end
  end.

(** [ApplyStructDefaults] of a pointer to a value of type [t]. *)
Definition ApplyStructDefaults (t : nat) (v : gval) : gval * option default_error := apply_defaults (defaultsPlanFor t) v.

(** ** Constraints *)

Definition parse_token (fs : fieldConstraint) (raw : string) : fieldConstraint :=
  let raw := TrimSpace raw in
  if String.eqb raw "" then fs
  else if String.eqb raw "required" then
    {| fc_Path := fc_Path fs; fc_Index := fc_Index fs; fc_Required := true; fc_Min := fc_Min fs; fc_Max := fc_Max fs; fc_OneOf := fc_OneOf fs |}
  else if HasPrefix raw "min=" then
    match go_parse_float (TrimPrefix raw "min=") with
    | Some v => {| fc_Path := fc_Path fs; fc_Index := fc_Index fs; fc_Required := fc_Required fs; fc_Min := Some v; fc_Max := fc_Max fs; fc_OneOf := fc_OneOf fs |}
    | None => fs
    end
  else if HasPrefix raw "max=" then
    match go_parse_float (TrimPrefix raw "max=") with
    | Some v => {| fc_Path := fc_Path fs; fc_Index := fc_Index fs; fc_Required := fc_Required fs; fc_Min := fc_Min fs; fc_Max := Some v; fc_OneOf := fc_OneOf fs |}
    | None => fs
    end
  else if HasPrefix raw "oneof=" then
    {| fc_Path := fc_Path fs; fc_Index := fc_Index fs; fc_Required := fc_Required fs; fc_Min := fc_Min fs; fc_Max := fc_Max fs;
       fc_OneOf := strings_Split (TrimPrefix raw "oneof=") "|" |}
  else fs.

Definition no_constraint (path : string) (index : list nat) : fieldConstraint :=
  {| fc_Path := path; fc_Index := index; fc_Required := false; fc_Min := None; fc_Max := None; fc_OneOf := [] |}.

Definition parseFieldTag (path : string) (index : list nat) (tag : string) : fieldConstraint :=
  foldl parse_token (no_constraint path index) (strings_Split tag ",").

Definition has_constraint (fs : fieldConstraint) : bool :=
  fc_Required fs || bool_decide (is_Some (fc_Min fs)) || bool_decide (is_Some (fc_Max fs)) || negb (Nat.eqb (length (fc_OneOf fs)) 0).

Definition constraint_entry (e : string * list nat * StructField) : option fieldConstraint :=
  let tag := f_Tag e.2 TagKey in
  if String.eqb tag "" then None
  else let fs := parseFieldTag e.1.1 e.1.2 tag in if has_constraint fs then Some fs else None.

Definition fieldMetaPlanFor (t : nat) : list fieldConstraint := omap constraint_entry (Walk types t into_structs).

Definition numericAsFloat (v : gval) : option spec_float :=
  match v with GInt _ n => Some (float_of_int n) | GFloat _ f => Some f | _ => None end.

Definition check_bounds (fs : fieldConstraint) (v : gval) : list violation_msg :=
  match numericAsFloat v with
  | Some f =>
      match fc_Min fs with Some m => if SFltb f m then [MsgBelow f m] else [] | None => [] end ++
      match fc_Max fs with Some m => if SFltb m f then [MsgAbove f m] else [] | None => [] end
  | None => []
  end.

Definition check_oneof (fs : fieldConstraint) (v : gval) : list violation_msg :=
  if Nat.eqb (length (fc_OneOf fs)) 0 then []
  else let got := Sprint (fc_Index fs) v in if decide (got ∈ fc_OneOf fs) then [] else [MsgOneOf got (fc_OneOf fs)].

(** One turn of the loop of [CheckFieldMeta]. *)
Definition check_field (v : gval) (fs : fieldConstraint) : list Violation :=
  match fieldAt v true (fc_Index fs) with
  | None => []
  | Some (w, _) =>
      if fc_Required fs && IsZero w then [{| vi_Path := fc_Path fs; vi_Msg := MsgRequired |}]
      else match deref_value w with
           | None => []
           | Some u => (λ m, {| vi_Path := fc_Path fs; vi_Msg := m |}) <$> (check_bounds fs u ++ check_oneof fs u)
           end
  end.

Definition CheckFieldMeta (t : nat) (v : gval) : list Violation := fieldMetaPlanFor t ≫= check_field v.
End fieldmeta.

(** ** Lemmas: fields of a value *)

(** A value that is no struct and no pointer. *)
Definition leaf (v : gval) : bool := match v with GStruct _ | GPtr _ => false | _ => true end.

Definition no_pointer (v : gval) : Prop := match v with GPtr _ => False | _ => True end.

(** Induction along a chain of pointers. *)
Lemma pointer_ind (P : gval → Prop) : (∀ v, no_pointer v → P v) → P (GPtr None) → (∀ v, P v → P (GPtr (Some v))) → ∀ v, P v.
Proof. intros Hv Hnil Hptr. fix IH 1. intros [ | | | | |[v|]| | | | ]; try (by apply Hv); [|done]. apply Hptr, IH. Qed.

Lemma deref_no_pointer v : no_pointer v → deref_value v = Some v.
Proof. by destruct v. Qed.

Lemma update_no_pointer f v : no_pointer v → update_deref f v = f v.
Proof. by destruct v. Qed.

Lemma deref_target v u : deref_value v = Some u → no_pointer u.
Proof. induction v as [v Hv| |v IH] using pointer_ind; simpl; [|done|done]. rewrite deref_no_pointer by done. congruence. Qed.

Lemma deref_update f v u : deref_value v = Some u → deref_value (update_deref f v) = deref_value (f u).
Proof.
  induction v as [v Hv| |v IH] using pointer_ind; simpl; [|done|done].
  rewrite deref_no_pointer, update_no_pointer by done. congruence.
Qed.

Lemma deref_none f v : deref_value v = None → update_deref f v = v.
Proof.
  induction v as [v Hv| |v IH] using pointer_ind; simpl; [by rewrite deref_no_pointer by done|done|]. intros Hn. by rewrite IH.
Qed.

Lemma update_id f v u : deref_value v = Some u → f u = u → update_deref f v = v.
Proof.
  intros Hu Hf. induction v as [v Hv| |v IH] using pointer_ind; simpl in *; [|done|by rewrite IH].
  rewrite deref_no_pointer in Hu by done. rewrite update_no_pointer by done. congruence.
Qed.

Lemma deref_leaf v : leaf v = true → deref_value v = Some v.
Proof. by destruct v. Qed.

Lemma fieldAt_leaf v s i j : leaf v = true → fieldAt v s (i :: j) = None.
Proof. intros Hv. simpl. rewrite deref_leaf by done. by destruct v. Qed.

Lemma fieldAt_app v s i j : fieldAt v s (i ++ j) = p ← fieldAt v s i; fieldAt p.1 p.2 j.
Proof.
  revert v s. induction i as [|a i IH]; intros v s; [done|]. simpl. destruct (deref_value v) as [[]|]; try done.
  destruct (fields !! a) as [p|]; [|done]. simpl. apply IH.
Qed.

Lemma deref_set_field a i w v u : deref_value v = Some u →
  deref_value (set_field (a :: i) w v) =
  match u with GStruct l => Some (GStruct (alter (λ p, (p.1, set_field i w p.2)) a l)) | _ => Some u end.
Proof.
  intros Hu. cbn [set_field]. rewrite (deref_update _ v u Hu).
  apply deref_target in Hu.
  by destruct u.
Qed.

(** What a write at [i] does to reads at [i], above it, below it, and elsewhere. *)
Lemma fieldAt_set_same v s i w x : fieldAt v s i = Some x → fieldAt (set_field i w v) s i = Some (w, x.2).
Proof.
  revert v s. induction i as [|a i IH]; intros v s Hx; [by simplify_eq/=|]. cbn [fieldAt] in *.
  destruct (deref_value v) as [u|] eqn:Hu; [|done]. rewrite (deref_set_field _ _ _ _ _ Hu). destruct u; try done.
  rewrite list_lookup_alter_eq. destruct (fields !! a) as [p|]; [|done]. simpl in *. by apply IH.
Qed.

Lemma fieldAt_set_above v s i j w : fieldAt (set_field (i ++ j) w v) s i = (λ x, (set_field j w x.1, x.2)) <$> fieldAt v s i.
Proof.
  revert v s. induction i as [|a i IH]; intros v s; [done|]. cbn [app fieldAt].
  destruct (deref_value v) as [u|] eqn:Hu; [|cbn [set_field]; by rewrite deref_none, Hu by done].
  rewrite (deref_set_field _ _ _ _ _ Hu). destruct u; try done.
  rewrite list_lookup_alter_eq. destruct (fields !! a) as [p|]; [|done]. simpl. apply IH.
Qed.

Lemma fieldAt_set_other v s i j w : ¬ i `prefix_of` j → ¬ j `prefix_of` i → fieldAt (set_field i w v) s j = fieldAt v s j.
Proof.
  revert v s j. induction i as [|a i IH]; intros v s j Hij Hji; [by destruct Hij; apply prefix_nil|].
  destruct j as [|b j]; [by destruct Hji; apply prefix_nil|]. cbn [fieldAt].
  destruct (deref_value v) as [u|] eqn:Hu; [|cbn [set_field]; by rewrite deref_none, Hu by done].
  rewrite (deref_set_field _ _ _ _ _ Hu). destruct u; try done. destruct (decide (a = b)) as [->|Hab].
  - rewrite list_lookup_alter_eq. destruct (fields !! b) as [p|]; [|done]. simpl.
    apply IH; intros Hp; [apply Hij|apply Hji]; by apply prefix_cons.
  - by rewrite list_lookup_alter_ne.
Qed.

Lemma set_field_id v s i x : fieldAt v s i = Some x → set_field i x.1 v = v.
Proof.
  revert v s. induction i as [|a i IH]; intros v s Hx; [by simplify_eq/=|]. cbn [fieldAt set_field] in *.
  destruct (deref_value v) as [u|] eqn:Hu; [|done]. destruct u as [| | | |l| | | | |]; try done.
  destruct (l !! a) as [p|] eqn:Hp; [|done]. simpl in Hx.
  assert (alter (λ p, (p.1, set_field i x.1 p.2)) a l = l) as Hl.
  { apply list_eq. intros b. destruct (decide (a = b)) as [<-|]; [|by rewrite list_lookup_alter_ne].
    rewrite list_lookup_alter_eq, Hp. simpl. rewrite (IH _ _ Hx). by destruct p. }
  apply (update_id _ _ _ Hu). by rewrite Hl.
Qed.

(** Filling a zero field in does not make a struct zero. *)
Lemma IsZero_set v s i w x : fieldAt v s i = Some x → IsZero x.1 = true → IsZero (set_field i w v) = true → IsZero v = true.
Proof.
  revert v s. induction i as [|a i IH]; intros v s Hx Hz Hset; [by simplify_eq/=|]. cbn [fieldAt set_field] in *.
  destruct v as [| | | |l|[v|]| | | |]; try done. simpl in *. destruct (l !! a) as [p|] eqn:Hp; [|done]. simpl in Hx.
  apply forallb_forall. intros q [b Hb]%list_elem_of_In%list_elem_of_lookup. rewrite forallb_forall in Hset.
  destruct (decide (a = b)) as [<-|Hab].
  - assert (q = p) as -> by congruence. eapply IH; [exact Hx|done|]. apply (Hset (p.1, set_field i w p.2)).
    apply list_elem_of_In, (list_elem_of_lookup_2 _ a). by rewrite list_lookup_alter_eq, Hb.
  - apply Hset, list_elem_of_In, (list_elem_of_lookup_2 _ b). by rewrite list_lookup_alter_ne.
Qed.

(** ** Lemmas: applying defaults *)

Section defaults.
Context `{GoStd} (parse_float32 : string → option spec_float).

Notation assignFromTag := (assignFromTag parse_float32).
Notation apply_default := (apply_default parse_float32).
Notation apply_defaults := (apply_defaults parse_float32).

Lemma assign_leaf w raw w' : assignFromTag w raw = Ok w' → leaf w = true ∧ leaf w' = true ∧ assignFromTag w' raw = Ok w'.
Proof.
  destruct w as [b|k n|[] f|s| | | | | | ]; simpl; try done.
  - destruct (ParseBool raw) eqn:Hp; [|done]. intros [= <-]. simpl. by rewrite Hp.
  - destruct (if is_signed k then _ else _) eqn:Hp; [|done]. intros [= <-]. simpl. by rewrite Hp.
  - destruct (parse_float32 raw) eqn:Hp; [|done]. intros [= <-]. simpl. by rewrite Hp.
  - destruct (go_parse_float raw) eqn:Hp; [|done]. intros [= <-]. simpl. by rewrite Hp.
  - by intros [= <-].
Qed.

(** An entry of the plan either leaves the value alone or fills a zero leaf in. *)
Lemma apply_default_cases v i raw v' : apply_default v (i, raw) = Ok v' →
  (v' = v ∧ ∀ w, fieldAt v true i = Some (w, true) → IsZero w = false)
  ∨ ∃ w w', fieldAt v true i = Some (w, true) ∧ IsZero w = true ∧ assignFromTag w raw = Ok w' ∧ v' = set_field i w' v.
Proof.
  unfold FieldMeta.apply_default. cbn [fst snd]. destruct (fieldAt v true i) as [[w [|]]|] eqn:Hw; [|intros [= ->]; left; split; [done|congruence]..].
  destruct (IsZero w) eqn:Hz; [|intros [= ->]; left; split; [done|congruence]]. destruct (assignFromTag w raw) as [w'|] eqn:Ha; [|done].
  intros [= <-]. right. by exists w, w'.
Qed.

(** Reads after a leaf was filled in: at another place it is the same, or the struct around it. *)
Lemma fieldAt_filled v i w w' j : fieldAt v true i = Some (w, true) → leaf w = true → leaf w' = true →
  (j = i ∧ fieldAt (set_field i w' v) true j = Some (w', true))
  ∨ (j ≠ i ∧ fieldAt (set_field i w' v) true j = fieldAt v true j)
  ∨ (j ≠ i ∧ ∃ k x, i = j ++ k ∧ fieldAt v true j = Some x ∧ leaf x.1 = false ∧ fieldAt (set_field i w' v) true j = Some (set_field k w' x.1, x.2)).
Proof.
  intros Hi Hw Hw'. destruct (decide (j = i)) as [->|Hne]; [left; split; [done|by rewrite (fieldAt_set_same _ _ _ _ _ Hi)]|right].
  destruct (decide (j `prefix_of` i)) as [[k ->]|Hji].
  - right. split; [done|]. rewrite fieldAt_app in Hi. destruct (fieldAt v true j) as [x|] eqn:Hx; [|done]. exists k, x.
    rewrite fieldAt_set_above, Hx. destruct k as [|a k]; [by rewrite app_nil_r in Hne|].
    split; [done|]. split; [done|]. split; [|done]. cbn [mbind option_bind] in Hi. destruct (leaf x.1) eqn:Hl; [|done].
    by rewrite fieldAt_leaf in Hi.
  - left. split; [done|]. destruct (decide (i `prefix_of` j)) as [[k ->]|Hij]; [|by apply fieldAt_set_other].
    rewrite !fieldAt_app, Hi, (fieldAt_set_same _ _ _ _ _ Hi). cbn [mbind option_bind fst snd].
    destruct k as [|a k]; [by rewrite app_nil_r in Hne|]. by rewrite !fieldAt_leaf.
Qed.

(** A field has one default. *)
Definition functional (plan : list (list nat * string)) : Prop := ∀ i r1 r2, (i, r1) ∈ plan → (i, r2) ∈ plan → r1 = r2.

Lemma functional_tail e plan : functional (e :: plan) → functional plan.
Proof. intros Hf i r1 r2 H1 H2. apply (Hf i); by right. Qed.

Lemma apply_defaults_cons i raw plan v v' : apply_defaults ((i, raw) :: plan) v = (v', None) →
  ∃ v1, apply_default v (i, raw) = Ok v1 ∧ apply_defaults plan v1 = (v', None).
Proof. cbn [FieldMeta.apply_defaults]. destruct (apply_default v (i, raw)) as [v1|]; [|done]. intros ?. by exists v1. Qed.

Lemma apply_defaults_leaf plan v v' j x s : functional plan → apply_defaults plan v = (v', None) →
  fieldAt v true j = Some (x, s) → leaf x = true →
  (∀ raw, (j, raw) ∈ plan → s = true → IsZero x = true → ∃ x', assignFromTag x raw = Ok x' ∧ fieldAt v' true j = Some (x', s))
  ∧ ((∀ raw, (j, raw) ∈ plan → s = true → IsZero x = false) → fieldAt v' true j = Some (x, s)).
Proof.
  revert v x s. induction plan as [|[i raw0] plan IH]; intros v x s Hf Hrun Hx Hl.
  { simplify_eq/=. split; [|done]. intros raw Hin. by apply not_elem_of_nil in Hin. }
  pose proof (functional_tail _ _ Hf) as Hf'.
  apply apply_defaults_cons in Hrun as (v1 & Hv1 & Hrun). apply apply_default_cases in Hv1 as [[-> Hno]|(w & w' & Hw & Hz & Ha & ->)].
  - destruct (IH v x s Hf' Hrun Hx Hl) as [IH1 IH2]. split.
    + intros raw [[= -> ->]|Hin]%elem_of_cons Hs Hz; [|by apply (IH1 raw)]. subst s. specialize (Hno x Hx). congruence.
    + intros Hall. apply IH2. intros raw Hin. apply (Hall raw). by right.
  - destruct (assign_leaf _ _ _ Ha) as (Hlw & Hlw' & Haw').
    destruct (fieldAt_filled v i w w' j Hw Hlw Hlw') as [[-> Hj]|[[Hne Hj]|(Hne & k & y & -> & Hy & Hly & _)]].
    + assert (x = w ∧ s = true) as [-> ->] by (by simplify_eq). destruct (IH _ w' true Hf' Hrun Hj Hlw') as [IH1 IH2].
      assert (∃ x', assignFromTag w raw0 = Ok x' ∧ fieldAt v' true i = Some (x', true)) as Hdone.
      { destruct (IsZero w') eqn:Hz'.
        - destruct (decide ((i, raw0) ∈ plan)) as [Hin|Hno].
          + destruct (IH1 raw0 Hin eq_refl eq_refl) as (x' & Hx' & ?). exists x'. split; [|done]. rewrite Ha, <-Hx'. by rewrite Haw'.
          + exists w'. split; [done|]. apply IH2. intros raw Hin. exfalso. apply Hno.
            by rewrite (Hf i raw0 raw ltac:(left) ltac:(by right)).
        - exists w'. split; [done|]. by apply IH2. }
      split.
      * intros raw Hin _ _. assert (raw = raw0) as -> by (apply (Hf i); [done|left]). done.
      * intros Hall. specialize (Hall raw0 ltac:(left) eq_refl). congruence.
    + rewrite Hx in Hj. destruct (IH _ x s Hf' Hrun Hj Hl) as [IH1 IH2]. split.
      * intros raw [[= -> ->]|Hin]%elem_of_cons Hs Hzx; [done|by apply (IH1 raw)].
      * intros Hall. apply IH2. intros raw Hin. apply (Hall raw). by right.
    + simplify_eq. simpl in Hly. congruence.
Qed.

(** The default of an entry is in place: it has nothing to fill in, or what it writes is there. *)
Definition settled (v : gval) (e : list nat * string) : Prop :=
  ∀ w, fieldAt v true e.1 = Some (w, true) → IsZero w = true → assignFromTag w e.2 = Ok w.

Lemma settled_apply v e : settled v e → apply_default v e = Ok v.
Proof.
  destruct e as [i raw]. unfold settled, FieldMeta.apply_default. cbn [fst snd]. intros Hs.
  destruct (fieldAt v true i) as [[w [|]]|] eqn:Hw; try done. destruct (IsZero w) eqn:Hz; [|done].
  rewrite (Hs w eq_refl Hz). f_equal. exact (set_field_id _ _ _ _ Hw).
Qed.

Lemma settled_step v e e1 v1 : (e.1 = e1.1 → e.2 = e1.2) → settled v e → apply_default v e1 = Ok v1 → settled v1 e.
Proof.
  destruct e as [j raw], e1 as [i raw1]. cbn [fst snd]. intros Hf Hs.
  intros [[-> _]|(w & w' & Hw & Hz & Ha & ->)]%apply_default_cases; [done|].
  destruct (assign_leaf _ _ _ Ha) as (Hlw & Hlw' & Haw'). intros x Hx Hzx. cbn [fst snd] in *.
  destruct (fieldAt_filled v i w w' j Hw Hlw Hlw') as [[-> Hj]|[[Hne Hj]|(Hne & k & y & -> & Hy & Hly & Hj)]].
  - rewrite Hj in Hx. simplify_eq. by rewrite (Hf eq_refl).
  - apply (Hs x); [cbn [fst]; by rewrite <-Hj|done].
  - rewrite Hj in Hx. simplify_eq. destruct y as [y sy]. cbn [fst snd] in *. simplify_eq.
    rewrite fieldAt_app, Hy in Hw. cbn [mbind option_bind fst snd] in Hw.
    assert (IsZero y = true) as Hzy by (by eapply (IsZero_set _ _ _ _ _ Hw)).
    specialize (Hs y Hy Hzy). apply assign_leaf in Hs as (? & _). congruence.
Qed.

Lemma settled_after v e v1 : apply_default v e = Ok v1 → settled v1 e.
Proof.
  destruct e as [i raw]. intros [[-> Hno]|(w & w' & Hw & Hz & Ha & ->)]%apply_default_cases; intros x Hx Hzx; cbn [fst snd] in *.
  - rewrite (Hno x Hx) in Hzx. done.
  - rewrite (fieldAt_set_same _ _ _ _ _ Hw) in Hx. simplify_eq/=. by apply (assign_leaf w).
Qed.

Lemma apply_defaults_settled plan v v' : functional plan → apply_defaults plan v = (v', None) →
  (∀ e, e ∈ plan → settled v' e) ∧ (∀ e, settled v e → (∀ r, (e.1, r) ∈ plan → e.2 = r) → settled v' e).
Proof.
  revert v. induction plan as [|[i raw] plan IH]; intros v Hf Hrun.
  { simplify_eq/=. split; [|done]. intros e He. by apply not_elem_of_nil in He. }
  apply apply_defaults_cons in Hrun as (v1 & Hv1 & Hrun). destruct (IH v1 (functional_tail _ _ Hf) Hrun) as [IH1 IH2]. split.
  - intros e [->|He]%elem_of_cons; [|by apply IH1]. apply IH2; [by eapply settled_after|].
    intros r Hr. cbn [fst snd] in *. apply (Hf i); [left|by right].
  - intros e He Hfe. apply IH2; [|intros r Hr; apply Hfe; by right]. eapply settled_step; [|exact He|exact Hv1].
    intros He1. destruct e as [j rj]. cbn [fst snd] in *. subst j. apply Hfe. left.
Qed.

Lemma settled_run plan v : (∀ e, e ∈ plan → settled v e) → apply_defaults plan v = (v, None).
Proof.
  induction plan as [|e plan IH]; intros Hall; [done|]. cbn [FieldMeta.apply_defaults]. rewrite settled_apply by (apply Hall; left).
  apply IH. intros e' He'. apply Hall. by right.
Qed.

(** The zero fields with a default have one that their type accepts. *)
Definition defaults_valid (plan : list (list nat * string)) (v : gval) : Prop :=
  ∀ i raw w, (i, raw) ∈ plan → fieldAt v true i = Some (w, true) → IsZero w = true → is_Ok (assignFromTag w raw) = true.

Lemma apply_defaults_total plan v : functional plan → defaults_valid plan v → ∃ v', apply_defaults plan v = (v', None).
Proof.
  revert v. induction plan as [|[i raw] plan IH]; intros v Hf Hv; [by exists v|]. cbn [FieldMeta.apply_defaults].
  destruct (apply_default v (i, raw)) as [v1|e] eqn:H1.
  2:{ exfalso. unfold FieldMeta.apply_default in H1. cbn [fst snd] in H1. destruct (fieldAt v true i) as [[w [|]]|] eqn:Hw; try done.
      destruct (IsZero w) eqn:Hz; [|done]. specialize (Hv i raw w ltac:(left) Hw Hz). by destruct (assignFromTag w raw). }
  apply IH; [by eapply functional_tail|]. intros j rj x Hin Hx Hzx.
  apply apply_default_cases in H1 as [[-> _]|(w & w' & Hw & Hz & Ha & ->)]; [eapply Hv; [by right|done|done]|].
  destruct (assign_leaf _ _ _ Ha) as (Hlw & Hlw' & Haw').
  destruct (fieldAt_filled v i w w' j Hw Hlw Hlw') as [[-> Hj]|[[Hne Hj]|(Hne & k & y & -> & Hy & Hly & Hj)]].
  - rewrite Hj in Hx. simplify_eq. rewrite (Hf i rj raw ltac:(by right) ltac:(left)). by rewrite Haw'.
  - eapply Hv; [by right|by rewrite <-Hj|done].
  - rewrite Hj in Hx. simplify_eq. destruct y as [y sy]. cbn [fst snd] in *. simplify_eq.
    rewrite fieldAt_app, Hy in Hw. cbn [mbind option_bind fst snd] in Hw.
    assert (IsZero y = true) as Hzy by (by eapply (IsZero_set _ _ _ _ _ Hw)).
    specialize (Hv j rj y ltac:(by right) Hy Hzy). destruct (assignFromTag y rj) eqn:Hay; [|done]. apply assign_leaf in Hay as (? & _). congruence.
Qed.
End defaults.

(** ** Lemmas: the plans *)

Lemma elem_of_concat_imap {A B} (f : nat → A → list B) l x :
  x ∈ concat (imap f l) ↔ ∃ i a, l !! i = Some a ∧ x ∈ f i a.
Proof.
  rewrite list_elem_of_In, in_concat. split.
  - intros (y & (i & Hi)%list_elem_of_In%list_elem_of_lookup & Hx). apply list_lookup_imap_Some in Hi as (a & Ha & ->).
    exists i, a. by rewrite list_elem_of_In.
  - intros (i & a & Ha & Hx). exists (f i a). rewrite <-!list_elem_of_In. split; [|done].
    apply list_elem_of_lookup. exists i. by rewrite list_lookup_imap, Ha.
Qed.

Section plans.
Context `{GoStd} (types : list gotype).

(** The field that an index leads to. *)
Fixpoint field_of (t : nat) (index : list nat) : option StructField :=
  match index with
  | [] => None
  | i :: index =>
      f ← ty_Fields (type_at types (deref types t)) !! i;
      match index with [] => Some f | _ => field_of (deref types (f_Type f)) index end
  end.

Lemma walk_field fuel visit t prefix idx depth stack path index f :
  (path, index, f) ∈ walk types fuel visit t prefix idx depth stack → ∃ rest, index = idx ++ rest ∧ field_of t rest = Some f.
Proof.
  revert t prefix idx depth stack. induction fuel as [|fuel IH]; intros t prefix idx depth stack; cbn [walk]; [by intros ?%not_elem_of_nil|].
  destruct (maxTypeDepth <? depth); [by intros ?%not_elem_of_nil|]. destruct (_ || _); [by intros ?%not_elem_of_nil|].
  intros (i & g & Hg & Hin)%elem_of_concat_imap. destruct (_ && _); [by apply not_elem_of_nil in Hin|].
  apply elem_of_cons in Hin as [[= -> -> ->]|Hin].
  - exists [i]. split; [done|]. simpl. by rewrite Hg.
  - destruct (_ && _); [|by apply not_elem_of_nil in Hin]. apply IH in Hin as (rest & -> & Hrest).
    exists (i :: rest). split; [by rewrite <-app_assoc|]. simpl. rewrite Hg. simpl. by destruct rest.
Qed.

Lemma Walk_field visit t path index f : (path, index, f) ∈ Walk types t visit → field_of t index = Some f.
Proof. intros (rest & -> & Hf)%walk_field. done. Qed.

Lemma defaultsPlan_functional t : functional (defaultsPlanFor types t).
Proof.
  intros i r1 r2 ([[p1 i1] f1] & H1 & E1)%list_elem_of_omap ([[p2 i2] f2] & H2 & E2)%list_elem_of_omap.
  unfold default_entry in *. cbn [fst snd] in *.
  destruct (defaultTagValue (f_Tag f1 TagKey)) eqn:D1; [|done]. destruct (defaultTagValue (f_Tag f2 TagKey)) eqn:D2; [|done].
  simplify_eq/=. apply Walk_field in H1, H2. congruence.
Qed.
End plans.

(** ** Lemmas: constraints *)

Lemma fmap_empty {A B} (g : A → B) (l : list A) : g <$> l = [] ↔ l = [].
Proof. by destruct l. Qed.

Section constraints.
Context (Sprint : list nat → gval → string).

(** What a field must satisfy: a required field is not zero, and a value that is
    there, behind its pointers, is in the range and among the listed texts. *)
Definition meets (fs : fieldConstraint) (w : gval) : Prop :=
  (fc_Required fs = true → IsZero w = false)
  ∧ ∀ u, deref_value w = Some u →
      (∀ f, numericAsFloat u = Some f →
         (∀ m, fc_Min fs = Some m → SFltb f m = false) ∧ (∀ m, fc_Max fs = Some m → SFltb m f = false))
      ∧ (fc_OneOf fs ≠ [] → Sprint (fc_Index fs) u ∈ fc_OneOf fs).

Lemma check_bounds_nil fs u : check_bounds fs u = [] ↔ ∀ f, numericAsFloat u = Some f →
  (∀ m, fc_Min fs = Some m → SFltb f m = false) ∧ (∀ m, fc_Max fs = Some m → SFltb m f = false).
Proof.
  unfold check_bounds. destruct (numericAsFloat u) as [f|]; [|split; [done|done]]. rewrite app_nil. split.
  - intros [Hmin Hmax] g [= <-]. split; intros m Hm; rewrite Hm in *; [by destruct (SFltb f m)|by destruct (SFltb m f)].
  - intros Hall. destruct (Hall f eq_refl) as [Hmin Hmax]. split.
    + destruct (fc_Min fs) as [m|]; [|done]. by rewrite Hmin.
    + destruct (fc_Max fs) as [m|]; [|done]. by rewrite Hmax.
Qed.

Lemma check_oneof_nil fs u : check_oneof Sprint fs u = [] ↔ (fc_OneOf fs ≠ [] → Sprint (fc_Index fs) u ∈ fc_OneOf fs).
Proof.
  unfold check_oneof. destruct (Nat.eqb_spec (length (fc_OneOf fs)) 0) as [Hl|Hl].
  - apply length_zero_iff_nil in Hl. by rewrite Hl.
  - destruct (decide _) as [Hin|Hin]; split; try done. intros Hc. exfalso. apply Hin, Hc. by intros Heq; rewrite Heq in Hl.
Qed.

Lemma check_field_nil v fs : check_field Sprint v fs = [] ↔ ∀ w s, fieldAt v true (fc_Index fs) = Some (w, s) → meets fs w.
Proof.
  unfold check_field. destruct (fieldAt v true (fc_Index fs)) as [[w s]|]; [|split; [done|done]].
  assert ((∀ w' s', Some (w, s) = Some (w', s') → meets fs w') ↔ meets fs w) as -> by (split; [intros Hm; by apply (Hm w s)|by intros Hm ? ? [= <- <-]]).
  unfold meets. destruct (fc_Required fs && IsZero w) eqn:Hr.
  - apply andb_true_iff in Hr as [Hr Hz]. split; [done|]. intros [Hm _]. specialize (Hm Hr). congruence.
  - apply andb_false_iff in Hr. assert (fc_Required fs = true → IsZero w = false) as Hreq by (intros ?; destruct Hr; congruence).
    destruct (deref_value w) as [u|]; [|split; [done|done]].
    rewrite fmap_empty, app_nil, check_bounds_nil, check_oneof_nil. split.
    + intros Hu. split; [done|]. by intros ? [= <-].
    + intros [_ Hu]. by apply Hu.
Qed.

Lemma check_field_path v fs vi : vi ∈ check_field Sprint v fs → vi_Path vi = fc_Path fs.
Proof.
  unfold check_field. destruct (fieldAt v true (fc_Index fs)) as [[w s]|]; [|by intros ?%not_elem_of_nil].
  destruct (_ && _); [by intros ->%list_elem_of_singleton|]. destruct (deref_value w); [|by intros ?%not_elem_of_nil].
  by intros (m & -> & _)%list_elem_of_fmap.
Qed.
End constraints.

(** ** Correctness of defaults and constraints *)

(** Struct defaults are exact. If every zero field with a default has a text that
    its kind accepts, applying the defaults succeeds. When it does, a zero field
    (no struct, no pointer) with a default holds the parsed text, every other
    field is as it was, and applying the defaults again changes nothing. *)
Theorem struct_defaults_exact `{GoStd} (parse_float32 : string → option spec_float) (types : list gotype) (t : nat) (v : gval) :
  let plan := defaultsPlanFor types t in
  let apply v := ApplyStructDefaults parse_float32 types t v in
  (defaults_valid parse_float32 plan v → ∃ v', apply v = (v', None))
  ∧ ∀ v', apply v = (v', None) →
      (∀ index x s, fieldAt v true index = Some (x, s) → leaf x = true →
         (∀ raw, (index, raw) ∈ plan → s = true → IsZero x = true →
            ∃ x', assignFromTag parse_float32 x raw = Ok x' ∧ fieldAt v' true index = Some (x', s))
         ∧ ((∀ raw, (index, raw) ∈ plan → s = true → IsZero x = false) → fieldAt v' true index = Some (x, s)))
      ∧ apply v' = (v', None).
Proof.
  intros plan apply. pose proof (defaultsPlan_functional types t) as Hf. split; [exact (apply_defaults_total parse_float32 plan v Hf)|]. intros v' Hrun. split.
  - intros index x s Hx Hl. exact (apply_defaults_leaf parse_float32 plan v v' index x s Hf Hrun Hx Hl).
  - apply settled_run. intros e He. exact (proj1 (apply_defaults_settled parse_float32 plan v v' Hf Hrun) e He).
Qed.

(** The field checks are exact. A path is reported if and only if a constraint
    declared for it fails on the field, looking through pointers, and skipping
    fields below a nil parent; nothing is reported when all constraints hold. *)
Theorem field_meta_exact `{GoStd} (Sprint : list nat → gval → string) (types : list gotype) (t : nat) (v : gval) (path : string) :
  (∃ vi, vi ∈ CheckFieldMeta Sprint types t v ∧ vi_Path vi = path)
  ↔ ∃ fs w s, fs ∈ fieldMetaPlanFor types t ∧ fc_Path fs = path ∧ fieldAt v true (fc_Index fs) = Some (w, s) ∧ ¬ meets Sprint fs w.
Proof.
  unfold CheckFieldMeta. split.
  - intros (vi & (fs & Hvi & Hfs)%list_elem_of_bind & Hp). pose proof (check_field_path _ _ _ _ Hvi) as Hpath.
    destruct (fieldAt v true (fc_Index fs)) as [[w s]|] eqn:Hw.
    + exists fs, w, s. split_and!; [done|congruence|done|]. intros Hm.
      assert (check_field Sprint v fs = []) as Hnil by (apply check_field_nil; rewrite Hw; by intros ? ? [= <- <-]).
      rewrite Hnil in Hvi. by apply not_elem_of_nil in Hvi.
    + unfold check_field in Hvi. rewrite Hw in Hvi. by apply not_elem_of_nil in Hvi.
  - intros (fs & w & s & Hfs & Hp & Hw & Hm). destruct (check_field Sprint v fs) as [|vi l] eqn:Hc.
    { exfalso. apply Hm. rewrite check_field_nil in Hc. by apply (Hc w s). }
    exists vi. split; [|rewrite (check_field_path Sprint v fs vi) by (rewrite Hc; left); done].
    apply list_elem_of_bind. exists fs. rewrite Hc. split; [left|done].
Qed.

(** [type Server struct { Port int `fc:"default=8080,min=1,max=65535"`; Mode *string `fc:"required,oneof=a|b"` }] *)
Definition example_server : list gotype :=
  [ {| ty_Kind := KindStruct; ty_Elem := 0; ty_Key := 0; ty_Marshaler := false; ty_Fields :=
         [ {| f_Name := "Port"; f_Exported := true; f_Anonymous := false; f_Type := 1; f_Tags := {["fc" := "default=8080,min=1,max=65535"]} |};
           {| f_Name := "Mode"; f_Exported := true; f_Anonymous := false; f_Type := 2; f_Tags := {["fc" := "required,oneof=a|b"]} |} ] |};
    {| ty_Kind := KindInt KInt; ty_Fields := []; ty_Elem := 0; ty_Key := 0; ty_Marshaler := false |};
    {| ty_Kind := KindPointer; ty_Fields := []; ty_Elem := 3; ty_Key := 0; ty_Marshaler := false |};
    {| ty_Kind := KindString; ty_Fields := []; ty_Elem := 0; ty_Key := 0; ty_Marshaler := false |} ].

Example example_defaults :
  @ApplyStructDefaults example_std (λ _, None) example_server 0 (GStruct [(true, GInt KInt 0); (true, GPtr None)])
  = (GStruct [(true, GInt KInt 8080); (true, GPtr None)], None).
Proof. vm_compute. reflexivity. Qed.

Example example_violations :
  (λ vi, (vi_Path vi, vi_Msg vi)) <$> @CheckFieldMeta (Build_GoStd (λ s, Some (float_of_int (if String.eqb s "1" then 1 else 65535))) id id (λ _ _, None))
    (λ _ v, match v with GString s => s | _ => "" end) example_server 0 (GStruct [(true, GInt KInt 70000); (true, GPtr (Some (GString "c")))])
  = [("port", MsgAbove (float_of_int 70000) (float_of_int 65535)); ("mode", MsgOneOf "c" ["a"; "b"])].
Proof. vm_compute. reflexivity. Qed.
