(* ===== verification/TypedHooks.v ===== *)
(** * Typed decode hooks (codec/typed_hooks.go, codec/typed_hooks_defaults.go)

    Hooks convert the raw values of the merged tree (mostly strings) to what the
    decoder accepts for a field of some type.  The plan of a type says where hooks
    apply; a node of the plan is a hook, or the shape of a container type, which is
    shared, so that recursive types have finite plans. *)
From S2P Require Import Prelude GoStrings Value TypeInfo FieldMeta.
From Stdlib Require Import Ascii SpecFloat.
Open Scope nat_scope.

(** A value of the merged tree: a hook can put a value of any Go type there, and
    the walker wraps those that have no wire form ([assignedValue]).  [AVal] holds
    nil, booleans, strings, numbers and nil containers. *)
Inductive any :=
  | AVal (v : value)
  | AMap (m : gmap string any)
  | ASlice (l : list any)
  | ATyped (t : nat) (g : gval)
  | AAssigned (t : nat) (g : gval).

(** A [TypedHook], and its [ConvertWithTarget] when it has one; a conversion
    returns a value and an error. *)
Record TypedHook := {
  Match : nat → bool;
  Convert : any → any * option string;
  ConvertWithTarget : option (any → nat → any * option string);
}.

(** A reference to a [typePlan]: a hook node, or the shape of a type. *)
Inductive planRef := PHook (h : TypedHook) (target : nat) (direct : bool) | PShape (t : nat).

Record fieldPlan := { fp_aliases : list string; fp_index : list nat; fp_plan : planRef }.
Record shape := { sh_fields : list fieldPlan; sh_elem : option planRef }.

(** The node flags that [propagate] computes. *)
Record flags := { fl_live : gset nat; fl_assigns : gset nat }.

#[export] Instance flags_eq_dec : EqDecision flags.
Proof. solve_decision. Defined.

Section hooks.
Context `{GoStd} (unicode_name : string → bool) (types : list gotype).
Context (hooks : list TypedHook) (yaml : bool).

Notation Kind := (Kind types).
Notation deref := (deref types).
Notation type_at := (type_at types).

Definition directTarget (t : nat) : bool :=
  match Kind t with KindStruct | KindPointer | KindInterface => true | _ => false end.

(** ** Building the plan *)

Fixpoint first_hook (hs : list TypedHook) (t base : nat) : option (TypedHook * nat) :=
  match hs with
  | [] => None
  | h :: hs =>
      if Match h t then Some (h, t)
      else if negb (Nat.eqb base t) && Match h base then Some (h, base)
      else first_hook hs t base
  end.

Definition planFor (t : nat) : planRef :=
  match first_hook hooks t (deref t) with
  | Some (h, target) => PHook h target (directTarget target)
  | None => PShape (deref t)
  end.

Definition addField (f : StructField) (index : list nat) : option fieldPlan :=
  match fn_InputAliases (FieldNamesOf f) with
  | [] => None
  | aliases => Some {| fp_aliases := aliases; fp_index := index; fp_plan := planFor (f_Type f) |}
  end.

Definition shapeFor (t : nat) : shape :=
  match Kind t with
  | KindStruct =>
      {| sh_elem := None;
         sh_fields := if yaml then
             omap (λ e, if YAMLInline (f_Tag e.1 "yaml") then None else addField e.1 e.2)
               (StructFields unicode_name types t {| EmbedJSON := false; EmbedYAML := true |})
           else omap (λ jf, addField (jf_Field jf) (jf_Index jf)) (JSONFields unicode_name types t) |}
  | KindSlice | KindArray | KindMap => {| sh_fields := []; sh_elem := Some (planFor (ty_Elem (type_at t))) |}
  | _ => {| sh_fields := []; sh_elem := None |}
  end.

Definition children (sh : shape) : list planRef := (fp_plan <$> sh_fields sh) ++ option_list (sh_elem sh).

(** [planBuilder.all] after a call of [planFor]: the shapes in the order of their first visit. *)
Fixpoint build (fuel : nat) (r : planRef) (all : list nat) : list nat :=
  match fuel, r with
  | S fuel, PShape t =>
      if decide (t ∈ all) then all else foldl (λ all r, build fuel r all) (all ++ [t]) (children (shapeFor t))
  | _, _ => all
  end.

Definition ref_live (fl : flags) (r : planRef) : bool :=
  match r with PHook _ _ _ => true | PShape t => bool_decide (t ∈ fl_live fl) end.
Definition ref_assigns (fl : flags) (r : planRef) : bool :=
  match r with PHook _ _ direct => direct | PShape t => bool_decide (t ∈ fl_assigns fl) end.

(** One visit of the inner loop of [propagate], and one round of the outer one. *)
Definition propagate_node (fl : flags) (t : nat) : flags :=
  let cs := children (shapeFor t) in
  {| fl_live := if existsb (ref_live fl) cs then {[t]} ∪ fl_live fl else fl_live fl;
     fl_assigns := if existsb (ref_assigns fl) cs then {[t]} ∪ fl_assigns fl else fl_assigns fl |}.

Fixpoint propagate (fuel : nat) (all : list nat) (fl : flags) : flags :=
  match fuel with
  | O => fl
  | S fuel => let fl' := foldl propagate_node fl all in if decide (fl' = fl) then fl else propagate fuel all fl'
  end.

(** Dropping what has no reachable hook. *)
Definition prune (fl : flags) (sh : shape) : shape :=
  {| sh_fields := filter (λ f, ref_live fl (fp_plan f) = true) (sh_fields sh);
     sh_elem := sh_elem sh ≫= λ r, if ref_live fl r then Some r else None |}.

Record TypedHookPlan := { tp_root : planRef; tp_flags : flags }.

Definition no_flags : flags := {| fl_live := ∅; fl_assigns := ∅ |}.
Definition plan_flags (t : nat) : flags :=
  let all := build (S (length types)) (planFor t) [] in propagate (S (2 * length all)) all no_flags.

(** [BuildTypedHookPlan]; [None] is the empty plan. *)
Definition BuildTypedHookPlan (t : nat) : option TypedHookPlan :=
  match hooks with
  | [] => None
  | _ => let fl := plan_flags t in
         if ref_live fl (planFor t) then Some {| tp_root := planFor t; tp_flags := fl |} else None
  end.

(** ** Converting the tree *)

Fixpoint pickAlias {A} (node : gmap string A) (aliases : list string) : option string :=
  match aliases with
  | [] => None
  | a :: aliases => if decide (is_Some (node !! a)) then Some a else pickAlias node aliases
  end.

Definition keep (first err : option string) : option string := match first with Some _ => first | None => err end.

Definition convert_at (h : TypedHook) (target : nat) (direct : bool) (v : any) : any * option string :=
  let '(converted, err) := match ConvertWithTarget h with Some conv => conv v target | None => Convert h v end in
  match err, converted with
  | None, ATyped t g => if direct && Nat.eqb t target then (AAssigned t g, None) else (converted, None)
  | _, _ => (converted, err)
  end.

(** [typePlan.apply] with the shapes of the plan; a walk nests as deep as the fuel. *)
Section apply.
Context (shapes : nat → shape).

Fixpoint apply (fuel : nat) (r : planRef) (v : any) : any * option string :=
  match fuel with
  | O => (v, None)
  | S fuel =>
      match r with
      | PHook h target direct => convert_at h target direct v
      | PShape t =>
          let sh := shapes t in
          let item r x st := let '(c, err) := apply fuel r x in (keep st err, c) in
          match v, sh_elem sh with
          | AMap m, Some r => let '(err, m) := map_rebuild_st (λ _ x st, item r x st) m None in (AMap m, err)
          | AMap m, None =>
              let '(m, err) := foldl (λ acc f, let '(m, err) := acc in
                match pickAlias m (fp_aliases f) with
                | Some key =>
                    match m !! key with
                    | Some x => let '(c, e) := apply fuel (fp_plan f) x in (<[key := c]> m, keep err e)
                    | None => (m, err)
                    end
                | None => (m, err)
                end) (m, None) (sh_fields sh) in
              (AMap m, err)
          | ASlice l, Some r => let '(err, l) := list_rebuild_st (λ _ x st, item r x st) 0 l None in (ASlice l, err)
          | _, _ => (v, None)
          end
      end
  end.
End apply.

Fixpoint any_depth (v : any) : nat :=
  match v with
  | AMap m => S (map_fold (λ _ x n, any_depth x `max` n) 0 m)
  | ASlice l => S (foldr (λ x n, any_depth x `max` n) 0 l)
  | _ => 0
  end.

(** [TypedHookPlan.Apply]: the tree afterwards, and the first error. *)
Definition Apply (plan : option TypedHookPlan) (merged : gmap string any) : gmap string any * option string :=
  match plan with
  | None => (merged, None)
  | Some p =>
      let '(v, err) := apply (λ t, prune (tp_flags p) (shapeFor t)) (S (any_depth (AMap merged))) (tp_root p) (AMap merged) in
      (match v with AMap m => m | _ => merged end, err)
  end.

(** ** Storing hook results in the decoded value *)

(** The length of an array type. *)
Context (array_len : nat → nat).

(** [reflect.New(t).Elem()]. *)
Fixpoint zero_value (fuel t : nat) : gval :=
  match Kind t with
  | KindBool => GBool false
  | KindInt k => GInt k 0
  | KindFloat k => GFloat k (S754_zero false)
  | KindString => GString ""
  | KindStruct =>
      GStruct match fuel with O => [] | S fuel => (λ f, (f_Exported f, zero_value fuel (f_Type f))) <$> ty_Fields (type_at t) end
  | KindPointer => GPtr None
  | KindSlice => GSlice None
  | KindArray => GArray match fuel with O => [] | S fuel => replicate (array_len t) (zero_value fuel (ty_Elem (type_at t))) end
  | KindMap => GMap None
  | KindInterface | KindOther => GOther true 0
  end.

(** [settle], then a change of the place it returns; nil pointers on the way are
    allocated.  A place that cannot be set, or that has the wrong type, is left. *)
Fixpoint settle (fuel t : nat) (settable : bool) (dst : gval) (want : option nat) (f : nat → gval → gval) : gval :=
  match fuel with
  | O => dst
  | S fuel =>
      if bool_decide (want = Some t) || negb (bool_decide (Kind t = KindPointer)) then
        if settable && (bool_decide (want = None) || bool_decide (want = Some t)) then f t dst else dst
      else
        let elem := ty_Elem (type_at t) in
        match dst with
        | GPtr (Some d) => GPtr (Some (settle fuel elem settable d want f))
        | GPtr None => if settable then GPtr (Some (settle fuel elem settable (zero_value (length types) elem) want f)) else dst
        | _ => dst
        end
  end.

Definition settled_at := settle (S (length types)).

(** The value at a field index ([fieldAt] of this package), changed: the embedded
    structs on the way are settled. *)
Definition in_struct (t i : nat) (d : gval) (f : nat → bool → gval → gval) : gval :=
  match d, ty_Fields (type_at t) !! i with
  | GStruct l, Some fld => GStruct (alter (λ p, (p.1, f (f_Type fld) p.1 p.2)) i l)
  | _, _ => d
  end.

Fixpoint field_below (index : list nat) (t : nat) (settable : bool) (d : gval) (f : nat → bool → gval → gval) : gval :=
  match index with
  | [] => f t settable d
  | i :: index => settled_at t settable d None (λ t d, in_struct t i d (λ ft fs x, field_below index ft fs x f))
  end.

Definition at_field (index : list nat) (t : nat) (d : gval) (f : nat → bool → gval → gval) : gval :=
  match index with [] => d | i :: index => in_struct t i d (λ ft fs x, field_below index ft fs x f) end.

(** [typePlan.assign] for the place [dst] of type [t]. *)
Fixpoint assign (fl : flags) (raw : any) (r : planRef) (t : nat) (settable : bool) (dst : gval) : gval :=
  if negb (ref_assigns fl r) then dst
  else
    match r with
    | PHook _ target _ => match raw with AAssigned _ g => settled_at t settable dst (Some target) (λ _ _, g) | _ => dst end
    | PShape s =>
        let sh := prune fl (shapeFor s) in
        match raw with
        | AMap m =>
            let sub := (λ x, assign fl x) <$> m in
            settled_at t settable dst None (λ t d,
              match sh_elem sh, Kind t, d with
              | Some e, KindMap, GMap (Some dm) =>
                  if bool_decide (Kind (ty_Key (type_at t)) = KindString) then
                    GMap (Some (map_imap (λ k x, Some match sub !! k with Some rec => rec e (ty_Elem (type_at t)) true x | None => x end) dm))
                  else d
              | Some _, KindMap, _ => d
              | _, KindStruct, _ =>
                  foldl (λ d f, match pickAlias m (fp_aliases f) ≫= λ key, sub !! key with
                                | Some rec => at_field (fp_index f) t d (rec (fp_plan f))
                                | None => d
                                end) d (sh_fields sh)
              | _, _, _ => d
              end)
        | ASlice l =>
            let sub := (λ x, assign fl x) <$> l in
            settled_at t settable dst None (λ t d,
              let items e ds := imap (λ i x, match sub !! i with Some rec => rec e (ty_Elem (type_at t)) true x | None => x end) ds in
              match sh_elem sh, d with
              | Some e, GSlice (Some ds) => GSlice (Some (items e ds))
              | Some e, GArray ds => GArray (items e ds)
              | _, _ => d
              end)
        | AVal VNil => dst
        | _ => settled_at t settable dst None (λ _ d, d)
        end
    end.

(** [TypedHookPlan.Assign]: [target] is a pointer to a value of type [t]. *)
Definition Assign (plan : option TypedHookPlan) (merged : gmap string any) (t : nat) (target : gval) : gval :=
  match plan with
  | None => target
  | Some p => if ref_assigns (tp_flags p) (tp_root p) then assign (tp_flags p) (AMap merged) (tp_root p) t true target else target
  end.
End hooks.

(** ** The built-in hooks (typed_hooks_defaults.go)

    The named types are indices of the table; an error keeps the name of its hook. *)
Section builtin_hooks.
Context `{GoStd} (types : list gotype).
(** [Type.PkgPath] is not empty. *)
Context (named : nat → bool).
Context (durationType ipType urlType urlValType regexType : nat).
(** [time.ParseDuration], [net.ParseIP] with its canonical text, [url.Parse], and whether [regexp.Compile] accepts. *)
Context (ParseDuration : string → option Z) (ParseIP : string → option string) (url_Parse : string → option gval) (regexp_ok : string → bool).

Definition on_string (raw : any) (f : string → any * option string) : any * option string :=
  match raw with AVal (VString s) => f s | _ => (raw, None) end.

Definition DurationHook : TypedHook := {|
  Match t := Nat.eqb t durationType;
  Convert raw := on_string raw (λ s, match ParseDuration s with
    | Some d => (ATyped durationType (GInt KInt64 d), None) | None => (raw, Some "duration hook") end);
  ConvertWithTarget := None;
|}.

Definition IPHook : TypedHook := {|
  Match t := Nat.eqb t ipType;
  Convert raw := on_string raw (λ s, match ParseIP s with Some ip => (AVal (VString ip), None) | None => (raw, Some "ip hook") end);
  ConvertWithTarget := None;
|}.

Definition url_convert (raw : any) (target : nat) : any * option string :=
  on_string raw (λ s, match url_Parse s with
    | Some u => if Nat.eqb target urlValType then (ATyped urlValType u, None) else (ATyped urlType (GPtr (Some u)), None)
    | None => (raw, Some "url hook")
    end).

Definition URLHook : TypedHook := {|
  Match t := Nat.eqb t urlType || Nat.eqb t urlValType;
  Convert raw := url_convert raw urlType;
  ConvertWithTarget := Some url_convert;
|}.

Definition RegexHook : TypedHook := {|
  Match t := Nat.eqb t regexType;
  Convert raw := on_string raw (λ s, if regexp_ok s then (raw, None) else (raw, Some "regex hook"));
  ConvertWithTarget := None;
|}.

Definition parse_bool_text (s : string) : option bool :=
  let s := ToLower (TrimSpace s) in
  if decide (s ∈ ["true"; "1"; "yes"; "on"]) then Some true
  else if decide (s ∈ ["false"; "0"; "no"; "off"; ""]) then Some false else None.

Definition string_convert (raw : any) (target : nat) : any * option string :=
  on_string raw (λ s,
    let parsed {A} (o : option A) (f : A → value) := match o with Some a => (AVal (f a), None) | None => (raw, Some "string-primitive hook") end in
    match Kind types target with
    | KindBool => parsed (parse_bool_text s) VBool
    | KindInt k => if is_signed k then parsed (ParseInt (TrimSpace s) 64) (VInt KInt64) else parsed (ParseUint (TrimSpace s) 64) (VInt KUint64)
    | KindFloat _ => parsed (go_parse_float (TrimSpace s)) (VFloat KFloat64)
    | _ => (raw, None)
    end).

Definition StringPrimitiveHook : TypedHook := {|
  Match t := negb (named t) && match Kind types t with KindBool | KindInt _ | KindFloat _ => true | _ => false end;
  Convert raw := (raw, None);
  ConvertWithTarget := Some string_convert;
|}.

Definition defaultTypedHooks : list TypedHook := [DurationHook; StringPrimitiveHook].
End builtin_hooks.

(** ** Lemmas: the plan *)

Section plan_facts.
Context `{GoStd} (unicode_name : string → bool) (types : list gotype) (hooks : list TypedHook) (yaml : bool).

Notation shapeFor := (shapeFor unicode_name types hooks yaml).
Notation planFor := (planFor types hooks).
Notation build := (build unicode_name types hooks yaml).
Notation propagate_node := (propagate_node unicode_name types hooks yaml).
Notation propagate := (propagate unicode_name types hooks yaml).

(** A hook can be reached from a node of the plan. *)
Inductive reaches_hook : bool → planRef → Prop :=
  | reaches_here any_hook h target direct : any_hook || direct = true → reaches_hook any_hook (PHook h target direct)
  | reaches_child any_hook t r : r ∈ children (shapeFor t) → reaches_hook any_hook r → reaches_hook any_hook (PShape t).

(** All shapes of the children of a node are in a list. *)
Definition closed_in (all : list nat) (t : nat) : Prop := ∀ u, PShape u ∈ children (shapeFor t) → u ∈ all.

Lemma children_out t : ¬ t < length types → children (shapeFor t) = [].
Proof. intros Ht. unfold TypedHooks.shapeFor, Kind. by rewrite out_of_range. Qed.

Lemma build_visited fuel r all : unseen types (list_to_set all) < fuel →
  let all' := build fuel r all in
  all ⊆ all' ∧ (∀ t, r = PShape t → t ∈ all') ∧ ∀ x, x ∈ all' → x ∈ all ∨ closed_in all' x.
Proof.
  revert r all. induction fuel as [|fuel IH]; intros r all Hfuel; [lia|]. cbn [TypedHooks.build].
  destruct r as [h target direct|t]; [split; [done|split; [done|by left]]|].
  destruct (decide (t ∈ all)) as [Ht|Ht]; [split; [done|split; [by intros ? [= <-]|by left]]|].
  assert (∀ cs acc, (∀ r, r ∈ cs → r ∈ children (shapeFor t)) → all ++ [t] ⊆ acc →
    (∀ x, x ∈ acc → x ∈ all ++ [t] ∨ closed_in acc x) →
    let acc' := foldl (λ all r, build fuel r all) acc cs in
    acc ⊆ acc' ∧ (∀ u, PShape u ∈ cs → u ∈ acc') ∧ ∀ x, x ∈ acc' → x ∈ all ++ [t] ∨ closed_in acc' x) as Hfold.
  { intros cs. induction cs as [|r cs IHcs]; intros acc Hcs Hsub Hacc; cbn [foldl].
    { split; [done|split; [by intros u ?%not_elem_of_nil|done]]. }
    assert (unseen types (list_to_set acc) < fuel) as Hacc'.
    { destruct (decide (t < length types)) as [Hin|Hout].
      - pose proof (unseen_add types (list_to_set all) t Hin ltac:(by rewrite elem_of_list_to_set)) as Hadd.
        pose proof (unseen_mono types ({[t]} ∪ list_to_set all) (list_to_set acc)) as Hmono.
        assert ({[t]} ∪ list_to_set all ⊆ (list_to_set acc : gset nat)) as Hs.
        { intros x. rewrite elem_of_union, elem_of_singleton, !elem_of_list_to_set. intros [->|Hx]; apply Hsub, elem_of_app; [right; left|by left]. }
        specialize (Hmono Hs). lia.
      - specialize (Hcs r ltac:(left)). rewrite children_out in Hcs by done. by apply not_elem_of_nil in Hcs. }
    destruct (IH r acc Hacc') as (H1 & H2 & H3). set (acc1 := build fuel r acc) in *.
    destruct (IHcs acc1) as (G1 & G2 & G3).
    - intros r' Hr'. apply Hcs. by right.
    - etrans; [exact Hsub|exact H1].
    - intros x Hx. destruct (H3 x Hx) as [Hxa|?]; [|by right]. destruct (Hacc x Hxa) as [?|Hcl]; [by left|right].
      intros u Hu. by apply H1, Hcl.
    - split; [by etrans|split; [|done]]. intros u [<-|Hu]%elem_of_cons; [|by apply G2]. by apply G1, H2. }
  destruct (Hfold (children (shapeFor t)) (all ++ [t])) as (H1 & H2 & H3); [done|done|by left|].
  set (all' := foldl _ _ _) in *. split; [etrans; [|exact H1]; intros x Hx; apply elem_of_app; by left|]. split.
  - intros ? [= <-]. apply H1, elem_of_app. right. left.
  - intros x Hx. destruct (H3 x Hx) as [[?| ->%list_elem_of_singleton]%elem_of_app|?]; [by left| |by right]. right. exact H2.
Qed.

(** The order of flags, and what a round adds. *)
Definition flags_le (a b : flags) : Prop := fl_live a ⊆ fl_live b ∧ fl_assigns a ⊆ fl_assigns b.

#[local] Instance flags_le_preorder : PreOrder flags_le.
Proof. split; [by intros a; split|intros a b c [] []; split; by etrans]. Qed.

Lemma flags_le_antisym a b : flags_le a b → flags_le b a → a = b.
Proof. destruct a, b. unfold flags_le. simpl. intros [] []. f_equal; by apply set_eq_subseteq. Qed.

Lemma propagate_node_le fl t : flags_le fl (propagate_node fl t).
Proof. unfold propagate_node, flags_le. cbn [fl_live fl_assigns]. split; destruct (existsb _ _); set_solver. Qed.

Lemma propagate_round_le fl all : flags_le fl (foldl propagate_node fl all).
Proof.
  revert fl. induction all as [|t all IH]; intros fl; [done|]. cbn [foldl]. etrans; [apply propagate_node_le|apply IH].
Qed.

(** When a round changes nothing, no node of the round does. *)
Lemma propagate_round_fixed fl all t : foldl propagate_node fl all = fl → t ∈ all → propagate_node fl t = fl.
Proof.
  intros Hfix. assert (∀ fl', flags_le fl fl' → foldl propagate_node fl' all = fl → t ∈ all → propagate_node fl t = fl) as Hgen.
  { clear Hfix. induction all as [|u all IH]; intros fl' Hle Hfold Ht; [by apply not_elem_of_nil in Ht|]. cbn [foldl] in Hfold.
    assert (fl' = fl) as ->.
    { apply flags_le_antisym; [|done]. rewrite <-Hfold. etrans; [apply propagate_node_le|apply propagate_round_le]. }
    apply elem_of_cons in Ht as [->|Ht].
    - apply flags_le_antisym; [|apply propagate_node_le]. rewrite <-Hfold at 2. apply propagate_round_le.
    - by apply (IH (propagate_node fl u)); [apply propagate_node_le| |]. }
  by apply (Hgen fl).
Qed.

Definition flags_in (all : list nat) (fl : flags) : Prop := ∀ t, t ∈ fl_live fl ∪ fl_assigns fl → t ∈ all.
Definition flags_size (fl : flags) : nat := size (fl_live fl) + size (fl_assigns fl).

Lemma flags_size_bound all fl : flags_in all fl → flags_size fl ≤ 2 * length all.
Proof.
  intros Hin. unfold flags_size. assert (∀ s : gset nat, (∀ t, t ∈ s → t ∈ all) → size s ≤ length all) as Hs.
  { intros s Hs. transitivity (size (list_to_set all : gset nat)); [apply subseteq_size; intros t; rewrite elem_of_list_to_set; apply Hs|].
    clear. induction all as [|t all IH]; [done|]. cbn [list_to_set length].
    pose proof (size_union_alt {[t]} (list_to_set all : gset nat)) as Hu. rewrite size_singleton in Hu.
    assert (size ((list_to_set all : gset nat) ∖ {[t]}) ≤ size (list_to_set all : gset nat)) by (apply subseteq_size; set_solver). lia. }
  pose proof (Hs (fl_live fl) ltac:(intros; apply Hin; set_solver)). pose proof (Hs (fl_assigns fl) ltac:(intros; apply Hin; set_solver)). lia.
Qed.

Lemma flags_size_lt a b : flags_le a b → a ≠ b → flags_size a < flags_size b.
Proof.
  intros [Hl Ha] Hne. unfold flags_size. pose proof (subseteq_size _ _ Hl). pose proof (subseteq_size _ _ Ha).
  destruct (decide (fl_live a = fl_live b)) as [El|El].
  - destruct (decide (fl_assigns a = fl_assigns b)) as [Ea|Ea]; [destruct a, b; simpl in *; congruence|].
    assert (size (fl_assigns a) < size (fl_assigns b)) by (apply subset_size; set_solver). lia.
  - assert (size (fl_live a) < size (fl_live b)) by (apply subset_size; set_solver). lia.
Qed.

Lemma propagate_node_in all fl t : t ∈ all → flags_in all fl → flags_in all (propagate_node fl t).
Proof.
  intros Ht Hin u. unfold propagate_node. cbn [fl_live fl_assigns]. specialize (Hin u).
  destruct (existsb (ref_live fl) _), (existsb (ref_assigns fl) _); set_solver.
Qed.

Lemma propagate_round_in all fl l : l ⊆ all → flags_in all fl → flags_in all (foldl propagate_node fl l).
Proof.
  revert fl. induction l as [|t l IH]; intros fl Hl Hin; [done|]. cbn [foldl]. apply IH; [set_solver|].
  apply propagate_node_in; [set_solver|done].
Qed.

Lemma propagate_fixed fuel all fl : flags_in all fl → 2 * length all < fuel + flags_size fl →
  foldl propagate_node (propagate fuel all fl) all = propagate fuel all fl.
Proof.
  revert fl. induction fuel as [|fuel IH]; intros fl Hin Hf; [pose proof (flags_size_bound all fl Hin); lia|]. cbn [TypedHooks.propagate].
  destruct (decide _) as [Heq|Hne]; [done|]. apply IH; [by apply propagate_round_in|].
  pose proof (flags_size_lt fl _ (propagate_round_le fl all) ltac:(congruence)). lia.
Qed.

(** Flags are only set on nodes from which a hook can be reached. *)
Definition flags_sound (fl : flags) : Prop :=
  (∀ t, t ∈ fl_live fl → reaches_hook true (PShape t)) ∧ (∀ t, t ∈ fl_assigns fl → reaches_hook false (PShape t)).

Lemma ref_live_sound fl r : flags_sound fl → ref_live fl r = true → reaches_hook true r.
Proof. intros [Hl _]. destruct r as [|t]; simpl; [by constructor|]. intros ?%bool_decide_eq_true. by apply Hl. Qed.

Lemma ref_assigns_sound fl r : flags_sound fl → ref_assigns fl r = true → reaches_hook false r.
Proof. intros [_ Ha]. destruct r as [|t]; simpl; [by constructor|]. intros ?%bool_decide_eq_true. by apply Ha. Qed.

Lemma propagate_node_sound fl t : flags_sound fl → flags_sound (propagate_node fl t).
Proof.
  intros Hs. pose proof Hs as [Hl Ha]. unfold propagate_node. split; cbn [fl_live fl_assigns]; intros u.
  - destruct (existsb (ref_live fl) _) eqn:He; [|apply Hl]. intros [->%elem_of_singleton|Hu]%elem_of_union; [|by apply Hl].
    apply existsb_exists in He as (r & Hr%list_elem_of_In & Hlive). eapply reaches_child; [exact Hr|]. by eapply ref_live_sound.
  - destruct (existsb (ref_assigns fl) _) eqn:He; [|apply Ha]. intros [->%elem_of_singleton|Hu]%elem_of_union; [|by apply Ha].
    apply existsb_exists in He as (r & Hr%list_elem_of_In & Hlive). eapply reaches_child; [exact Hr|]. by eapply ref_assigns_sound.
Qed.

Lemma propagate_sound fuel all fl : flags_sound fl → flags_sound (propagate fuel all fl).
Proof.
  revert fl. induction fuel as [|fuel IH]; intros fl Hs; [done|]. cbn [TypedHooks.propagate]. destruct (decide _); [done|].
  apply IH. clear -Hs. revert fl Hs. induction all as [|t all IH]; intros fl Hs; [done|]. cbn [foldl]. by apply IH, propagate_node_sound.
Qed.
End plan_facts.

(** ** Lemmas: walking with the plan *)

Lemma map_rebuild_st_same {St A B} (f g : string → A → St → St * B) m st : (∀ k x st, f k x st = g k x st) →
  map_rebuild_st f m st = map_rebuild_st g m st.
Proof.
  intros Hfg. unfold map_rebuild_st. rewrite !map_fold_foldr. induction (map_to_list m) as [|[k x] l IH]; [done|].
  simpl. rewrite IH. by rewrite Hfg.
Qed.

Lemma map_rebuild_st_id {St A} (f : string → A → St → St * A) m st : (∀ k x st, f k x st = (st, x)) → map_rebuild_st f m st = (st, m).
Proof.
  intros Hf. apply injective_projections; [|]; simpl; apply (map_rebuild_st_ind (λ st' done out, st' = st ∧ out = done) f m st); try done;
    intros k v m' acc st' _ _ _ [-> ->]; by rewrite Hf.
Qed.

Lemma list_rebuild_st_same {St A B} (f g : nat → A → St → St * B) i l st : (∀ i x st, f i x st = g i x st) →
  list_rebuild_st f i l st = list_rebuild_st g i l st.
Proof. intros Hfg. revert i st. induction l as [|x l IH]; intros i st; [done|]. simpl. rewrite Hfg. destruct (g i x st). by rewrite IH. Qed.

Lemma list_rebuild_st_id {St A} (f : nat → A → St → St * A) i l st : (∀ i x st, f i x st = (st, x)) → list_rebuild_st f i l st = (st, l).
Proof. intros Hf. revert i st. induction l as [|x l IH]; intros i st; [done|]. simpl. by rewrite Hf, IH. Qed.

Lemma pickAlias_spec {A} (m : gmap string A) aliases key : pickAlias m aliases = Some key → key ∈ aliases ∧ is_Some (m !! key).
Proof.
  induction aliases as [|a aliases IH]; [done|]. cbn [pickAlias]. destruct (decide _) as [Hs|_]; [intros [= <-]; split; [left|done]|].
  intros Hp. destruct (IH Hp) as [? ?]. split; [by right|done].
Qed.

Lemma pickAlias_same {A B} (m : gmap string A) (m' : gmap string B) aliases : dom m = dom m' → pickAlias m aliases = pickAlias m' aliases.
Proof.
  intros Hd. induction aliases as [|a aliases IH]; [done|]. cbn [pickAlias]. rewrite IH.
  assert (is_Some (m !! a) ↔ is_Some (m' !! a)) as Hi by (by rewrite <-!elem_of_dom, Hd).
  destruct (decide (is_Some (m !! a))), (decide (is_Some (m' !! a))); tauto.
Qed.

Section walk_facts.
Context `{GoStd} (unicode_name : string → bool) (types : list gotype) (hooks : list TypedHook) (yaml : bool).

Notation shapeFor := (shapeFor unicode_name types hooks yaml).
Notation planFor := (planFor types hooks).
Notation build := (build unicode_name types hooks yaml).
Notation propagate_node := (propagate_node unicode_name types hooks yaml).
Notation plan_flags := (plan_flags unicode_name types hooks yaml).
Notation reaches_hook := (reaches_hook unicode_name types hooks yaml).

Definition all_shapes (t : nat) : list nat := build (S (length types)) (planFor t) [].

(** A reference of the plan of [t0]. *)
Definition in_plan (t0 : nat) (r : planRef) : Prop := ∀ t, r = PShape t → t ∈ all_shapes t0.

Lemma all_shapes_closed t0 : in_plan t0 (planFor t0) ∧ ∀ t, t ∈ all_shapes t0 → closed_in unicode_name types hooks yaml (all_shapes t0) t.
Proof.
  destruct (build_visited unicode_name types hooks yaml (S (length types)) (planFor t0) []) as (_ & H2 & H3).
  { unfold unseen. eapply Nat.le_lt_trans; [apply length_filter|rewrite length_seq; lia]. }
  split; [exact H2|]. intros t Ht. destruct (H3 t Ht) as [?%not_elem_of_nil|?]; done.
Qed.

Lemma in_plan_child t0 t r : in_plan t0 (PShape t) → r ∈ children (shapeFor t) → in_plan t0 r.
Proof. intros Ht Hr u ->. destruct (all_shapes_closed t0) as [_ Hc]. by apply (Hc t (Ht t eq_refl)). Qed.

Lemma plan_flags_fixed t0 t : t ∈ all_shapes t0 → propagate_node (plan_flags t0) t = plan_flags t0.
Proof.
  intros Ht. eapply propagate_round_fixed; [|exact Ht]. apply propagate_fixed.
  - intros u Hu. unfold no_flags in Hu. simpl in Hu. set_solver.
  - unfold flags_size, no_flags. cbn [fl_live fl_assigns]. rewrite !size_empty. unfold all_shapes. lia.
Qed.

Lemma plan_flags_sound t0 : flags_sound unicode_name types hooks yaml (plan_flags t0).
Proof. apply propagate_sound. split; intros t; unfold no_flags; simpl; set_solver. Qed.

(** The flags of the plan say exactly from where a hook can be reached. *)
Lemma plan_flags_exact t0 r : in_plan t0 r →
  (ref_live (plan_flags t0) r = true ↔ reaches_hook true r) ∧ (ref_assigns (plan_flags t0) r = true ↔ reaches_hook false r).
Proof.
  intros Hin. pose proof (plan_flags_sound t0) as Hs. split; (split; [by first [apply ref_live_sound|apply ref_assigns_sound]|]); intros Hr.
  - remember true as b eqn:Hb. induction Hr as [b h target direct _|b t r Hrc _ IH]; subst; [done|].
    specialize (IH ltac:(by eapply in_plan_child) eq_refl). simpl. apply bool_decide_eq_true.
    rewrite <-(plan_flags_fixed t0 t (Hin t eq_refl)). unfold propagate_node. cbn [fl_live].
    assert (existsb (ref_live (plan_flags t0)) (children (shapeFor t)) = true) as ->; [|set_solver].
    apply existsb_exists. exists r. split; [by apply list_elem_of_In|done].
  - remember false as b eqn:Hb. induction Hr as [b h target direct Hd|b t r Hrc _ IH]; subst; [done|].
    specialize (IH ltac:(by eapply in_plan_child) eq_refl). simpl. apply bool_decide_eq_true.
    rewrite <-(plan_flags_fixed t0 t (Hin t eq_refl)). unfold propagate_node. cbn [fl_assigns].
    assert (existsb (ref_assigns (plan_flags t0)) (children (shapeFor t)) = true) as ->; [|set_solver].
    apply existsb_exists. exists r. split; [by apply list_elem_of_In|done].
Qed.

(** The children of a node without hooks below have none. *)
Lemma dead_child t0 t r : in_plan t0 (PShape t) → ref_live (plan_flags t0) (PShape t) = false → r ∈ children (shapeFor t) →
  ref_live (plan_flags t0) r = false.
Proof.
  intros Hin Hd Hr. apply not_true_iff_false. intros Hl. apply not_true_iff_false in Hd. apply Hd.
  apply plan_flags_exact; [done|]. eapply reaches_child; [exact Hr|]. apply (plan_flags_exact t0); [by eapply in_plan_child|done].
Qed.

Lemma child_field t f : f ∈ sh_fields (shapeFor t) → fp_plan f ∈ children (shapeFor t).
Proof. intros Hf. apply elem_of_app. left. apply list_elem_of_fmap. by exists f. Qed.

Lemma child_elem t r : sh_elem (shapeFor t) = Some r → r ∈ children (shapeFor t).
Proof. intros He. apply elem_of_app. right. rewrite He. left. Qed.

Lemma shape_exclusive t r : sh_elem (shapeFor t) = Some r → sh_fields (shapeFor t) = [].
Proof. unfold TypedHooks.shapeFor. by destruct (Kind types t). Qed.

(** The body of the loop over the fields of a struct. *)
Definition field_step (g : planRef → any → any * option string) (acc : gmap string any * option string) (f : fieldPlan) :=
  let '(m, err) := acc in
  match pickAlias m (fp_aliases f) with
  | Some key =>
      match m !! key with
      | Some x => let '(c, e) := g (fp_plan f) x in (<[key := c]> m, keep err e)
      | None => (m, err)
      end
  | None => (m, err)
  end.

Definition item_step (g : planRef → any → any * option string) (r : planRef) (x : any) (st : option string) : option string * any :=
  let '(c, err) := g r x in (keep st err, c).

Lemma apply_map_elem shapes fuel t m r : sh_elem (shapes t) = Some r →
  apply shapes (S fuel) (PShape t) (AMap m) =
  let '(err, m) := map_rebuild_st (λ _ x st, item_step (apply shapes fuel) r x st) m None in (AMap m, err).
Proof. intros He. cbn [apply]. by rewrite He. Qed.

Lemma apply_slice_elem shapes fuel t l r : sh_elem (shapes t) = Some r →
  apply shapes (S fuel) (PShape t) (ASlice l) =
  let '(err, l) := list_rebuild_st (λ _ x st, item_step (apply shapes fuel) r x st) 0 l None in (ASlice l, err).
Proof. intros He. cbn [apply]. by rewrite He. Qed.

Lemma apply_fields shapes fuel t m : sh_elem (shapes t) = None →
  apply shapes (S fuel) (PShape t) (AMap m) =
  let '(m, err) := foldl (field_step (apply shapes fuel)) (m, None) (sh_fields (shapes t)) in (AMap m, err).
Proof. intros He. cbn [apply]. by rewrite He. Qed.

Lemma keep_none st : keep st None = st.
Proof. by destruct st. Qed.

Lemma field_step_dead g acc f : (∀ x, g (fp_plan f) x = (x, None)) → field_step g acc f = acc.
Proof.
  intros Hg. destruct acc as [m err]. unfold field_step. destruct (pickAlias m (fp_aliases f)) as [key|]; [|done].
  destruct (m !! key) as [x|] eqn:Hx; [|done]. by rewrite Hg, insert_id, keep_none.
Qed.

(** A walk does nothing where no hook can be reached. *)
Lemma apply_dead t0 fuel r v : in_plan t0 r → ref_live (plan_flags t0) r = false → apply shapeFor fuel r v = (v, None).
Proof.
  revert r v. induction fuel as [|fuel IH]; intros r v Hin Hd; [done|]. destruct r as [|t]; [done|].
  assert (∀ r x, r ∈ children (shapeFor t) → apply shapeFor fuel r x = (x, None)) as Hc.
  { intros r x Hr. apply IH; [by eapply in_plan_child|by eapply dead_child]. }
  assert (∀ r x st, r ∈ children (shapeFor t) → item_step (apply shapeFor fuel) r x st = (st, x)) as Hitem.
  { intros r x st Hr. unfold item_step. by rewrite Hc, keep_none. }
  destruct (sh_elem (shapeFor t)) as [r|] eqn:He.
  - pose proof (child_elem _ _ He) as Hr. destruct v as [v|m|l| |]; [by simpl|..|by simpl|by simpl].
    + rewrite (apply_map_elem _ _ _ _ r) by done. by rewrite map_rebuild_st_id by (intros; by apply Hitem).
    + rewrite (apply_slice_elem _ _ _ _ r) by done. by rewrite list_rebuild_st_id by (intros; by apply Hitem).
  - destruct v as [v|m|l| |]; [by simpl|..|by simpl|by simpl].
    + rewrite apply_fields by done. assert (∀ f, f ∈ sh_fields (shapeFor t) → fp_plan f ∈ children (shapeFor t)) as Hf by (intros f; eapply child_field).
      assert (∀ l acc, (∀ f, f ∈ l → fp_plan f ∈ children (shapeFor t)) → foldl (field_step (apply shapeFor fuel)) acc l = acc) as Hfold.
      { intros l. induction l as [|f l IHl]; intros acc Hl; [done|]. cbn [foldl].
        rewrite field_step_dead; [apply IHl; intros; apply Hl; by right|]. intros x. apply Hc, Hl. left. }
      by rewrite Hfold by done.
    + cbn [apply]. by rewrite He.
Qed.

Lemma foldl_filter_same {A B} (P : B → Prop) `{!∀ x, Decision (P x)} (f : A → B → A) l acc :
  (∀ acc x, x ∈ l → ¬ P x → f acc x = acc) → foldl f acc (filter P l) = foldl f acc l.
Proof.
  revert acc. induction l as [|x l IH]; intros acc Hf; [done|]. rewrite filter_cons. cbn [foldl].
  destruct (decide (P x)) as [Hx|Hx]; cbn [foldl].
  - apply IH. intros acc' y Hy. apply Hf. by right.
  - rewrite Hf by (done || left). apply IH. intros acc' y Hy. apply Hf. by right.
Qed.

(** Walking the pruned plan is walking the whole one. *)
Lemma apply_pruned t0 fuel r v : in_plan t0 r →
  apply (λ t, prune (plan_flags t0) (shapeFor t)) fuel r v = apply shapeFor fuel r v.
Proof.
  revert r v. induction fuel as [|fuel IH]; intros r v Hin; [done|]. destruct r as [|t]; [done|]. set (pruned := λ t, prune _ _).
  assert (∀ r x, r ∈ children (shapeFor t) → apply pruned fuel r x = apply shapeFor fuel r x) as Hc.
  { intros r x Hr. apply IH. by eapply in_plan_child. }
  assert (∀ r x, r ∈ children (shapeFor t) → ref_live (plan_flags t0) r = false → apply shapeFor fuel r x = (x, None)) as Hdead.
  { intros r x Hr Hd. eapply apply_dead; [by eapply in_plan_child|done]. }
  destruct (sh_elem (shapeFor t)) as [r|] eqn:He.
  - pose proof (child_elem _ _ He) as Hr. pose proof (shape_exclusive _ _ He) as Hnil.
    destruct (ref_live (plan_flags t0) r) eqn:Hl.
    + assert (sh_elem (pruned t) = Some r) as Hp by (unfold pruned, prune; cbn [sh_elem]; rewrite He; simpl; by rewrite Hl).
      destruct v as [v|m|l| |]; [by simpl|..|by simpl|by simpl].
      * rewrite !(apply_map_elem _ _ _ _ r) by done. erewrite map_rebuild_st_same; [done|].
        intros k x st. unfold item_step. by rewrite Hc.
      * rewrite !(apply_slice_elem _ _ _ _ r) by done. erewrite list_rebuild_st_same; [done|].
        intros k x st. unfold item_step. by rewrite Hc.
    + assert (sh_elem (pruned t) = None) as Hp by (unfold pruned, prune; cbn [sh_elem]; rewrite He; simpl; by rewrite Hl).
      assert (sh_fields (pruned t) = []) as Hpf by (unfold pruned, prune; cbn [sh_fields]; by rewrite Hnil).
      assert (ref_live (plan_flags t0) (PShape t) = false) as Hdt.
      { apply not_true_iff_false. intros Hlt. apply (plan_flags_exact t0 (PShape t) Hin) in Hlt. inversion Hlt as [|? ? r' Hr' Hrr]; subst.
        unfold children in Hr'. rewrite Hnil, He in Hr'. apply list_elem_of_singleton in Hr' as ->.
        apply (plan_flags_exact t0 r) in Hrr; [congruence|by eapply in_plan_child]. }
      rewrite (apply_dead t0 (S fuel)) by done. destruct v as [v|m|l| |]; [done|..|done|done].
      * rewrite apply_fields by done. by rewrite Hpf.
      * cbn [apply]. by rewrite Hp.
  - assert (sh_elem (pruned t) = None) as Hp by (unfold pruned, prune; cbn [sh_elem]; by rewrite He).
    destruct v as [v|m|l| |]; [done|..|done|done]; [|cbn [apply]; by rewrite Hp, He].
    rewrite !apply_fields by done. unfold pruned at 2, prune. cbn [sh_fields].
    rewrite (foldl_same_in (field_step (apply pruned fuel)) (field_step (apply shapeFor fuel))).
    + rewrite foldl_filter_same; [done|]. intros acc f Hf Hl. apply field_step_dead. intros x. apply Hdead; [by apply child_field|].
      by apply not_true_iff_false.
    + intros [m' err] f Hf%list_elem_of_filter. unfold field_step. destruct (pickAlias m' (fp_aliases f)); [|done].
      destruct (m' !! s); [|done]. rewrite Hc by (apply child_field; apply Hf). done.
Qed.

(** ** What a walk converts *)

Definition child_any (v : any) (seg : string) : option any :=
  match v with AMap m => m !! seg | ASlice l => nth_named 0 l seg | _ => None end.

Fixpoint at_any (v : any) (p : list string) : option any :=
  match p with [] => Some v | seg :: p => child_any v seg ≫= λ x, at_any x p end.

(** The field whose first alias in a node is a key. *)
Definition owner (l : list fieldPlan) {A} (m : gmap string A) (key : string) : option fieldPlan :=
  find (λ f, bool_decide (pickAlias m (fp_aliases f) = Some key)) l.

(** The plan node for a child of a value. *)
Definition child_ref (t : nat) (v : any) (seg : string) : option planRef :=
  match v with
  | AMap m => match sh_elem (shapeFor t) with Some r => Some r | None => fp_plan <$> owner (sh_fields (shapeFor t)) m seg end
  | ASlice _ => sh_elem (shapeFor t)
  | _ => None
  end.

(** The values that the plan sends to a hook, by their path. *)
Inductive hooked_at : planRef → any → list string → TypedHook → nat → bool → any → Prop :=
  | hooked_here h target direct v : hooked_at (PHook h target direct) v [] h target direct v
  | hooked_below t v seg x r p h target direct y : child_any v seg = Some x → child_ref t v seg = Some r →
      hooked_at r x p h target direct y → hooked_at (PShape t) v (seg :: p) h target direct y.

(** No two fields of a struct answer to the same key. *)
Definition separate (l : list fieldPlan) : Prop :=
  ∀ i j f g a, l !! i = Some f → l !! j = Some g → a ∈ fp_aliases f → a ∈ fp_aliases g → i = j.

Lemma separate_tail f l : separate (f :: l) → separate l.
Proof. intros Hs i j g h a Hi Hj Ha Hb. by specialize (Hs (S i) (S j) g h a Hi Hj Ha Hb) as [= ?]. Qed.

Lemma separate_head f l g a : separate (f :: l) → g ∈ l → a ∈ fp_aliases f → a ∉ fp_aliases g.
Proof. intros Hs [j Hj]%list_elem_of_lookup Ha Hb. by specialize (Hs 0 (S j) f g a eq_refl Hj Ha Hb). Qed.

Lemma owner_none l {A} (m : gmap string A) key : (∀ f, f ∈ l → key ∉ fp_aliases f) → owner l m key = None.
Proof.
  intros Hl. unfold owner. destruct (find _ l) as [f|] eqn:Hf; [|done]. apply find_some in Hf as [Hin%list_elem_of_In Hp%bool_decide_eq_true].
  apply pickAlias_spec in Hp as [? _]. by destruct (Hl f Hin).
Qed.

Lemma owner_same l {A B} (m : gmap string A) (m' : gmap string B) key : dom m = dom m' → owner l m key = owner l m' key.
Proof.
  intros Hd. unfold owner. induction l as [|f l IH]; [done|]. simpl. by rewrite IH, (pickAlias_same _ _ _ Hd).
Qed.

(** The loop over the fields of a struct. *)
Lemma fields_spec g l m e : separate l →
  let r := foldl (field_step g) (m, e) l in
  (∀ k, r.1 !! k = (λ x, match owner l m k with Some f => (g (fp_plan f) x).1 | None => x end) <$> m !! k)
  ∧ (r.2 = None ↔ e = None ∧ ∀ k f x, owner l m k = Some f → m !! k = Some x → (g (fp_plan f) x).2 = None).
Proof.
  revert m e. induction l as [|f l IH]; intros m e Hs; cbn [foldl].
  { split; [intros k; simpl; by destruct (m !! k)|]. simpl. split; [|tauto]. intros ->. split; [done|]. by intros k f x. }
  pose proof (separate_tail _ _ Hs) as Hs'. unfold field_step at 2 4.
  destruct (pickAlias m (fp_aliases f)) as [key|] eqn:Hpick.
  2:{ destruct (IH m e Hs') as [IH1 IH2]. assert (∀ k, owner (f :: l) m k = owner l m k) as Ho.
      { intros k. unfold owner. simpl. rewrite Hpick. by rewrite bool_decide_false. }
      split; [intros k; by rewrite Ho|]. cbn zeta in *. rewrite IH2. by setoid_rewrite Ho. }
  pose proof Hpick as Hpick'. apply pickAlias_spec in Hpick' as [Hkey [x Hx]]. rewrite Hx.
  destruct (g (fp_plan f) x) as [c e1] eqn:Hg. assert (dom (<[key := c]> m) = dom m) as Hd by (apply dom_insert_lookup_L; by exists x).
  destruct (IH (<[key := c]> m) (keep e e1) Hs') as [IH1 IH2].
  assert (owner (f :: l) m key = Some f) as Hok by (unfold owner; simpl; rewrite Hpick; by rewrite bool_decide_true).
  assert (∀ k, k ≠ key → owner (f :: l) m k = owner l (<[key := c]> m) k) as Ho.
  { intros k Hk. rewrite (owner_same l _ m) by done. unfold owner. simpl. rewrite Hpick. rewrite bool_decide_false by congruence. done. }
  assert (owner l (<[key := c]> m) key = None) as Hno.
  { apply owner_none. intros h Hh. by eapply separate_head. }
  split.
  - intros k. rewrite IH1. destruct (decide (k = key)) as [->|Hk].
    + rewrite lookup_insert_eq, Hno, Hok, Hx. simpl. by rewrite Hg.
    + rewrite lookup_insert_ne by done. by rewrite Ho.
  - cbn zeta in *. rewrite IH2. split.
    + intros [Hkeep Hall]. destruct e; [done|]. simpl in Hkeep. subst e1. split; [done|]. intros k h y Hh Hy.
      destruct (decide (k = key)) as [->|Hk]; [rewrite Hok in Hh; simplify_eq; by rewrite Hg|].
      apply (Hall k h y); [by rewrite <-Ho|by rewrite lookup_insert_ne].
    + intros [-> Hall]. split; [simpl; by specialize (Hall key f x Hok Hx); rewrite Hg in Hall|]. intros k h y Hh Hy.
      destruct (decide (k = key)) as [->|Hk]; [congruence|]. rewrite lookup_insert_ne in Hy by done. apply (Hall k h y); [by rewrite Ho|done].
Qed.

(** The loop over the entries of a map, and over the items of a slice. *)
Lemma entries_spec (g : any → any * option string) m :
  let r := map_rebuild_st (λ _ x st, let '(c, e) := g x in (keep st e, c)) m None in
  (∀ k, r.2 !! k = (λ x, (g x).1) <$> m !! k) ∧ (r.1 = None ↔ ∀ k x, m !! k = Some x → (g x).2 = None).
Proof.
  apply (map_rebuild_st_ind (λ st done out, (∀ k, out !! k = (λ x, (g x).1) <$> done !! k) ∧ (st = None ↔ ∀ k x, done !! k = Some x → (g x).2 = None))).
  { split; [intros k; by rewrite !lookup_empty|]. split; [|done]. intros _ k x. by rewrite lookup_empty. }
  intros k v m' acc st' _ Hk _ [IH1 IH2]. destruct (g v) as [c e] eqn:Hg. cbn [fst snd]. split.
  - intros j. destruct (decide (k = j)) as [->|Hne]; [rewrite !lookup_insert_eq; simpl; by rewrite Hg|by rewrite !lookup_insert_ne].
  - split.
    + intros Hkeep. destruct st'; [done|]. simpl in Hkeep. subst e. intros j x Hj. destruct (decide (k = j)) as [->|Hne].
      * rewrite lookup_insert_eq in Hj. simplify_eq. by rewrite Hg.
      * rewrite lookup_insert_ne in Hj by done. by eapply (proj1 IH2).
    + intros Hall. assert (st' = None) as ->.
      { apply IH2. intros j x Hj. apply (Hall j). rewrite lookup_insert_ne; [done|congruence]. }
      simpl. specialize (Hall k v). rewrite lookup_insert_eq, Hg in Hall. by apply Hall.
Qed.

Lemma items_spec (g : any → any * option string) i l st :
  let r := list_rebuild_st (λ _ x st, let '(c, e) := g x in (keep st e, c)) i l st in
  (∀ seg, nth_named i r.2 seg = (λ x, (g x).1) <$> nth_named i l seg)
  ∧ (r.1 = None ↔ st = None ∧ ∀ x, x ∈ l → (g x).2 = None).
Proof.
  revert i st. induction l as [|x l IH]; intros i st; cbn [list_rebuild_st].
  { split; [done|]. simpl. split; [|tauto]. intros ->. split; [done|]. by intros x ?%not_elem_of_nil. }
  destruct (g x) as [c e] eqn:Hg. specialize (IH (S i) (keep st e)). destruct (list_rebuild_st _ (S i) l (keep st e)) as [st' out].
  cbn [fst snd nth_named] in *. destruct IH as [IH1 IH2]. split.
  - intros seg. destruct (String.eqb (itoa i) seg); [simpl; by rewrite Hg|apply IH1].
  - rewrite IH2. split.
    + intros [Hk Hall]. destruct st; [done|]. simpl in Hk. subst e. split; [done|]. intros y [->|Hy]%elem_of_cons; [by rewrite Hg|by apply Hall].
    + intros [-> Hall]. split; [specialize (Hall x ltac:(left)); by rewrite Hg in Hall|]. intros y Hy. apply Hall. by right.
Qed.

Definition container (v : any) : bool := match v with AMap _ | ASlice _ => true | _ => false end.

Lemma child_depth v seg x : child_any v seg = Some x → any_depth x < any_depth v.
Proof.
  destruct v as [|m|l| |]; try done; cbn [child_any any_depth]; intros Hx; apply Nat.lt_succ_r.
  - revert Hx. apply (map_fold_weak_ind (λ n m, m !! seg = Some x → any_depth x ≤ n)); [by rewrite lookup_empty|].
    intros k y m' n _ IH. destruct (decide (k = seg)) as [->|Hne]; [rewrite lookup_insert_eq; intros [= ->]; lia|].
    rewrite lookup_insert_ne by done. intros Hs. specialize (IH Hs). lia.
  - revert Hx. generalize 0 at 1. induction l as [|y l IH]; intros i; simpl; [done|]. destruct (String.eqb _ _); [intros [= ->]; lia|].
    intros Hs. specialize (IH (S i) Hs). lia.
Qed.

Section separated.
Hypothesis Hsep : ∀ t, separate (sh_fields (shapeFor t)).

(** One step of the walk, child by child. *)
Lemma apply_child fuel t v :
  let r := apply shapeFor (S fuel) (PShape t) v in
  (∀ seg, child_any r.1 seg = (λ x, match child_ref t v seg with Some ref => (apply shapeFor fuel ref x).1 | None => x end) <$> child_any v seg)
  ∧ (r.2 = None ↔ ∀ seg x ref, child_any v seg = Some x → child_ref t v seg = Some ref → (apply shapeFor fuel ref x).2 = None)
  ∧ (container v = false → r.1 = v).
Proof.
  destruct v as [v|m|l| |]; [by (split; [|split])|..|by (split; [|split])|by (split; [|split])].
  - destruct (sh_elem (shapeFor t)) as [r|] eqn:He; cbn [child_any child_ref]; rewrite He.
    + rewrite (apply_map_elem _ _ _ _ r) by done. pose proof (entries_spec (apply shapeFor fuel r) m) as [H1 H2].
      change (λ (_ : string) x st, item_step (apply shapeFor fuel) r x st)
        with (λ (_ : string) x st, let '(c, e) := apply shapeFor fuel r x in (keep st e, c)).
      destruct (map_rebuild_st _ m None) as [err m']. cbn [fst snd child_any] in *. split; [done|split; [|done]].
      rewrite H2. split; [by intros Hall k x ? ? [= <-]; apply (Hall k)|]. intros Hall k x Hx. by apply (Hall k x r).
    + rewrite apply_fields by done. pose proof (fields_spec (apply shapeFor fuel) (sh_fields (shapeFor t)) m None (Hsep t)) as [H1 H2].
      destruct (foldl _ (m, None) _) as [m' err]. cbn [fst snd child_any] in *. split; [|split; [|done]].
      * intros seg. rewrite H1. by destruct (owner _ m seg).
      * rewrite H2. split.
        -- intros [_ Hall] seg x ref Hx Hr. destruct (owner _ m seg) as [f|] eqn:Ho; [|done]. simplify_eq/=. by apply (Hall seg f).
        -- intros Hall. split; [done|]. intros seg f x Ho Hx. apply (Hall seg x); [done|]. by rewrite Ho.
  - destruct (sh_elem (shapeFor t)) as [r|] eqn:He; cbn [child_any child_ref]; rewrite ?He.
    + rewrite (apply_slice_elem _ _ _ _ r) by done. pose proof (items_spec (apply shapeFor fuel r) 0 l None) as [H1 H2].
      change (λ (_ : nat) x st, item_step (apply shapeFor fuel) r x st)
        with (λ (_ : nat) x st, let '(c, e) := apply shapeFor fuel r x in (keep st e, c)).
      destruct (list_rebuild_st _ 0 l None) as [err l']. cbn [fst snd child_any] in *. split; [done|split; [|done]].
      rewrite H2. split.
      * intros [_ Hall] seg x ? Hx [= <-]. apply Hall. revert Hx. generalize 0. clear. induction l as [|y l IH]; intros i; simpl; [done|].
        destruct (String.eqb _ _); [intros [= ->]; left|]. intros Hs. right. by eapply IH.
      * intros Hall. split; [done|]. intros x [i Hi]%list_elem_of_lookup. apply (Hall (itoa i) x r); [|done].
        assert (∀ j, nth_named j l (itoa (j + i)) = Some x) as Hn; [|apply (Hn 0)]. clear -Hi. revert i Hi. induction l as [|y l IH]; intros [|i] Hi j; simplify_eq/=.
        -- by rewrite Nat.add_0_r, String.eqb_refl.
        -- destruct (String.eqb_spec (itoa j) (itoa (j + S i))) as [Heq|_]; [apply (inj itoa) in Heq; lia|]. rewrite <-Nat.add_succ_comm. by apply IH.
    + cbn [apply]. rewrite He. cbn [fst snd child_any]. split; [intros seg; by destruct (nth_named 0 l seg)|split; [|done]]. done.
Qed.

Lemma apply_hooked fuel r v p h target direct x : hooked_at r v p h target direct x → any_depth v < fuel →
  at_any (apply shapeFor fuel r v).1 p = Some (convert_at h target direct x).1.
Proof.
  intros Hh. revert fuel. induction Hh as [h target direct v|t v seg x r p h target direct y Hx Hr _ IH]; intros [|fuel] Hf; try lia.
  - cbn [apply]. done.
  - destruct (apply_child fuel t v) as (H1 & _ & _). cbn [at_any]. rewrite H1, Hx, Hr. simpl. apply IH. apply child_depth in Hx. lia.
Qed.

Lemma apply_unhooked fuel r v p : (∀ q, q `prefix_of` p → ¬ ∃ h target direct x, hooked_at r v q h target direct x) →
  match at_any v p with Some x => container x = false | None => True end →
  at_any (apply shapeFor fuel r v).1 p = at_any v p.
Proof.
  revert fuel r v. induction p as [|seg p IH]; intros fuel r v Hno Hleaf; (destruct fuel as [|fuel]; [done|]);
    (destruct r as [h target direct|t]; [exfalso; apply (Hno []); [by apply prefix_nil|]; by do 4 eexists; constructor|]);
    destruct (apply_child fuel t v) as (H1 & _ & H3).
  - cbn [at_any] in *. by rewrite H3.
  - cbn [at_any] in *. rewrite H1. destruct (child_any v seg) as [x|] eqn:Hx; [|done]. simpl in *.
    destruct (child_ref t v seg) as [r|] eqn:Hr; [|done]. apply IH; [|done]. intros q Hq (h & target & direct & y & Hh).
    apply (Hno (seg :: q)); [by apply prefix_cons|]. exists h, target, direct, y. by eapply hooked_below.
Qed.

Lemma apply_error fuel r v : any_depth v < fuel →
  (apply shapeFor fuel r v).2 = None ↔ ∀ p h target direct x, hooked_at r v p h target direct x → (convert_at h target direct x).2 = None.
Proof.
  revert r v. induction fuel as [|fuel IH]; intros r v Hf; [lia|]. destruct r as [h target direct|t].
  - cbn [apply]. split; [|intros Hall; by eapply (Hall []), hooked_here]. intros He p h' target' direct' x Hh. by inversion Hh; subst.
  - destruct (apply_child fuel t v) as (_ & H2 & _). rewrite H2. split.
    + intros Hall p h target direct y Hh. inversion Hh as [|? ? seg x r q ? ? ? ? Hx Hr Hq]; subst.
      specialize (Hall seg x r Hx Hr). apply (proj1 (IH r x ltac:(apply child_depth in Hx; lia)) Hall q). exact Hq.
    + intros Hall seg x r Hx Hr. apply IH; [apply child_depth in Hx; lia|]. intros p h target direct y Hh.
      apply (Hall (seg :: p)). by eapply hooked_below.
Qed.
End separated.

Lemma child_is_plan t r : r ∈ children (shapeFor t) → ∃ u, r = planFor u.
Proof.
  assert (∀ f index fp, addField types hooks f index = Some fp → fp_plan fp = planFor (f_Type f)) as Hadd.
  { intros f index fp. unfold addField. destruct (fn_InputAliases _); [done|]. by intros [= <-]. }
  unfold TypedHooks.shapeFor, children. destruct (Kind types t); cbn [sh_fields sh_elem];
    intros [Hr|Hr]%elem_of_app; try (by apply not_elem_of_nil in Hr); try (apply list_elem_of_singleton in Hr; by eexists).
  apply list_elem_of_fmap in Hr as (fp & -> & Hfp). destruct yaml; apply list_elem_of_omap in Hfp as (e & _ & He).
  - destruct (YAMLInline _); [done|]. by eexists; eapply Hadd.
  - by eexists; eapply Hadd.
Qed.

(** The compiled plan does what walking the whole type does. *)
Lemma apply_whole t merged :
  let full := apply shapeFor (S (any_depth (AMap merged))) (planFor t) (AMap merged) in
  Apply unicode_name types hooks yaml (BuildTypedHookPlan unicode_name types hooks yaml t) merged
  = (match full.1 with AMap m => m | _ => merged end, full.2).
Proof.
  cbn zeta. pose proof (all_shapes_closed t) as [Hroot _]. set (fl := plan_flags t).
  assert (ref_live fl (planFor t) = false → apply shapeFor (S (any_depth (AMap merged))) (planFor t) (AMap merged) = (AMap merged, None)) as Hdead
    by exact (apply_dead t _ _ _ Hroot).
  assert (hooks = [] → ref_live fl (planFor t) = false) as Hnil.
  { intros Hn. apply not_true_iff_false. intros Hl. apply (plan_flags_exact t _ Hroot) in Hl.
    assert (∀ b r, reaches_hook b r → ∀ u, r ≠ planFor u) as Hno; [|by apply (Hno _ _ Hl t)].
    clear -Hn. intros b r Hr. induction Hr as [b h target direct _|b u r Hr _ IH]; intros w Hw; [by subst hooks|].
    apply child_is_plan in Hr as [x ->]. by apply (IH x). }
  assert (BuildTypedHookPlan unicode_name types hooks yaml t =
    if ref_live fl (planFor t) then Some {| tp_root := planFor t; tp_flags := fl |} else None) as ->.
  { unfold BuildTypedHookPlan. fold fl. clear -Hnil. subst fl. destruct hooks as [|h hs]; [by rewrite Hnil|done]. }
  destruct (ref_live fl (planFor t)) eqn:Hl; [|by rewrite Hdead].
  unfold Apply. cbn [tp_flags tp_root]. unfold fl. rewrite apply_pruned by done. by destruct (apply _ _ _ _).
Qed.

Lemma apply_map_shape shapes fuel t m : ∃ m', (apply shapes fuel (PShape t) (AMap m)).1 = AMap m'.
Proof.
  destruct fuel as [|fuel]; [by exists m|]. destruct (sh_elem (shapes t)) as [r|] eqn:He.
  - rewrite (apply_map_elem _ _ _ _ r) by done. destruct (map_rebuild_st _ m None) as [e m']. by exists m'.
  - rewrite apply_fields by done. destruct (foldl _ _ _) as [m' e]. by exists m'.
Qed.
End walk_facts.

(** ** Correctness of the hooks *)

(** Compiling the plan changes nothing. The fixpoint marks a node exactly when a
    hook can be reached from it, also through recursive types; the walk of the
    pruned plan, or no walk when nothing is marked, gives for every tree the tree
    and the error that walking the whole type would give. *)
Theorem hook_plan_exact `{GoStd} (unicode_name : string → bool) (types : list gotype) (hooks : list TypedHook) (yaml : bool) (t : nat)
    (merged : gmap string any) :
  let full := apply (shapeFor unicode_name types hooks yaml) (S (any_depth (AMap merged))) (planFor types hooks t) (AMap merged) in
  let fl := plan_flags unicode_name types hooks yaml t in
  (∀ u, u ∈ all_shapes unicode_name types hooks yaml t →
     (u ∈ fl_live fl ↔ reaches_hook unicode_name types hooks yaml true (PShape u))
     ∧ (u ∈ fl_assigns fl ↔ reaches_hook unicode_name types hooks yaml false (PShape u)))
  ∧ Apply unicode_name types hooks yaml (BuildTypedHookPlan unicode_name types hooks yaml t) merged
    = (match full.1 with AMap m => m | _ => merged end, full.2).
Proof.
  split; [|apply apply_whole]. intros u Hu.
  assert (in_plan unicode_name types hooks yaml t (PShape u)) as Hin by (by intros ? [= <-]).
  destruct (plan_flags_exact unicode_name types hooks yaml t _ Hin) as [H1 H2]. simpl in H1, H2.
  by rewrite bool_decide_eq_true in H1, H2.
Qed.

(** C26: the walk converts exactly the values that the type sends to a hook. If no
    two fields of a struct share a key, every such value is replaced by what its
    hook makes of it (wrapped when it has no wire form), every other leaf is
    unchanged, and an error is returned exactly when one of these conversions
    fails. *)
Theorem typed_hooks_convert `{GoStd} (unicode_name : string → bool) (types : list gotype) (hooks : list TypedHook) (yaml : bool) (t : nat)
    (merged : gmap string any)
    (Hsep : ∀ u, separate (sh_fields (shapeFor unicode_name types hooks yaml u)))
    (Hroot : first_hook hooks t (deref types t) = None) :
  let hooked := hooked_at unicode_name types hooks yaml (planFor types hooks t) (AMap merged) in
  let '(out, err) := Apply unicode_name types hooks yaml (BuildTypedHookPlan unicode_name types hooks yaml t) merged in
  (∀ p h target direct x, hooked p h target direct x → at_any (AMap out) p = Some (convert_at h target direct x).1)
  ∧ (∀ p, (∀ q, q `prefix_of` p → ¬ ∃ h target direct x, hooked q h target direct x) →
       match at_any (AMap merged) p with Some x => container x = false | None => True end →
       at_any (AMap out) p = at_any (AMap merged) p)
  ∧ (err = None ↔ ∀ p h target direct x, hooked p h target direct x → (convert_at h target direct x).2 = None).
Proof.
  cbn zeta. rewrite apply_whole. set (full := apply _ _ _ _). 
  assert (full.1 = AMap match full.1 with AMap m => m | _ => merged end) as Hmap.
  { unfold full, planFor. rewrite Hroot.
    by destruct (apply_map_shape (shapeFor unicode_name types hooks yaml) (S (any_depth (AMap merged))) (deref types t) merged) as [m' ->]. }
  rewrite <-Hmap. split_and!.
  - intros p h target direct x Hh. by apply apply_hooked; [..|exact Hh|lia].
  - intros p Hno Hleaf. by apply apply_unhooked.
  - by apply apply_error; [|lia].
Qed.

(** ** Examples *)

(** Separation, by computation. *)
Fixpoint separateb (l : list fieldPlan) : bool :=
  match l with
  | [] => true
  | f :: l => forallb (λ g, forallb (λ a, negb (bool_decide (a ∈ fp_aliases g))) (fp_aliases f)) l && separateb l
  end.

Lemma separateb_sound l : separateb l = true → separate l.
Proof.
  induction l as [|f l IH]; [by intros _ i j g h a Hi|]. cbn [separateb]. intros [Hf Hl]%andb_true_iff.
  assert (∀ g a, g ∈ l → a ∈ fp_aliases f → a ∉ fp_aliases g) as Hfg.
  { intros g a Hg Ha. rewrite forallb_forall in Hf. specialize (Hf g ltac:(by apply list_elem_of_In)). rewrite forallb_forall in Hf.
    specialize (Hf a ltac:(by apply list_elem_of_In)). by apply negb_true_iff, bool_decide_eq_false in Hf. }
  intros [|i] [|j] g h a Hi Hj Ha Hb; [done|..]; cbn [lookup list_lookup] in *.
  - simplify_eq. destruct (Hfg h a); [by eapply list_elem_of_lookup_2|done..].
  - simplify_eq. destruct (Hfg g a); [by eapply list_elem_of_lookup_2|done..].
  - f_equal. by apply (IH Hl i j g h a).
Qed.

#[local] Existing Instance example_std.

(** [type base struct { U url.URL }] and
    [type Cfg struct { base; Port int `json:"port"`; Peers []Cfg `json:"peers"` }]. *)
Definition hook_types : list gotype :=
  let plain k elem := {| ty_Kind := k; ty_Fields := []; ty_Elem := elem; ty_Key := 0; ty_Marshaler := false |} in
  [ {| ty_Kind := KindStruct; ty_Elem := 0; ty_Key := 0; ty_Marshaler := false; ty_Fields :=
         [ {| f_Name := "base"; f_Exported := false; f_Anonymous := true; f_Type := 1; f_Tags := ∅ |};
           {| f_Name := "Port"; f_Exported := true; f_Anonymous := false; f_Type := 3; f_Tags := {["json" := "port"]} |};
           {| f_Name := "Peers"; f_Exported := true; f_Anonymous := false; f_Type := 4; f_Tags := {["json" := "peers"]} |} ] |};
    {| ty_Kind := KindStruct; ty_Elem := 0; ty_Key := 0; ty_Marshaler := false; ty_Fields :=
         [ {| f_Name := "U"; f_Exported := true; f_Anonymous := false; f_Type := 2; f_Tags := ∅ |} ] |};
    plain KindStruct 0; plain (KindInt KInt) 0; plain KindSlice 0 ].

Definition example_url : gval := GStruct [].
Definition example_hooks : list TypedHook :=
  [URLHook 9 2 (λ _, Some example_url); StringPrimitiveHook hook_types (λ _, false)].
Definition hook_plan : option TypedHookPlan := BuildTypedHookPlan (λ _, true) hook_types example_hooks false 0.

Definition raw_tree : gmap string any :=
  {["u" := AVal (VString "http://a"); "peers" := ASlice [AMap {["port" := AVal (VString " 81 ")]}; AVal VNil]]}.

Example hook_apply :
  Apply (λ _, true) hook_types example_hooks false hook_plan raw_tree
  = ({["u" := AAssigned 2 example_url; "peers" := ASlice [AMap {["port" := AVal (VInt KInt64 81)]}; AVal VNil]]}, None).
Proof. vm_compute. reflexivity. Qed.

(** The result of a hook for a field promoted through an unexported embedded
    struct is dropped: [settle] finds that the embedded struct cannot be set,
    although its exported fields can. *)
Example hook_result_lost :
  Assign (λ _, true) hook_types example_hooks false (λ _, 0) hook_plan {["u" := AAssigned 2 (GStruct [(true, GBool true)])]} 0
    (GStruct [(false, GStruct [(true, GStruct [])]); (true, GInt KInt 0); (true, GSlice None)])
  = GStruct [(false, GStruct [(true, GStruct [])]); (true, GInt KInt 0); (true, GSlice None)].
Proof. vm_compute. reflexivity. Qed.

(** A hook that turns every string in an integer field into the same number. *)
Definition constant_hook : TypedHook :=
  {| Match t := Nat.eqb t 3; Convert raw := on_string raw (λ _, (AVal (VInt KInt64 81), None)); ConvertWithTarget := None |}.

Lemma typed_hooks_convert_witness :
  at_any (AMap (Apply (λ _, true) hook_types [constant_hook] false (BuildTypedHookPlan (λ _, true) hook_types [constant_hook] false 0) raw_tree).1)
    ["peers"; "0"; "port"] = Some (AVal (VInt KInt64 81)).
Proof.
  assert (∀ u, separate (sh_fields (shapeFor (λ _, true) hook_types [constant_hook] false u))) as Hsep.
  { intros u. destruct (decide (u < 5)) as [Hu|Hu].
    - apply separateb_sound. do 5 (destruct u as [|u]; [vm_compute; reflexivity|]). lia.
    - unfold shapeFor, Kind. rewrite out_of_range by exact Hu. by intros i j f g a Hi. }
  pose proof (typed_hooks_convert (λ _, true) hook_types [constant_hook] false 0 raw_tree Hsep eq_refl) as Ht.
  cbn zeta in Ht. destruct (Apply _ _ _ _ _ raw_tree) as [out err]. destruct Ht as [Hc _].
  apply (Hc ["peers"; "0"; "port"] constant_hook 3 false (AVal (VString " 81 "))).
  change (planFor hook_types [constant_hook] 0) with (PShape 0).
  apply hooked_below with (x := ASlice [AMap {["port" := AVal (VString " 81 ")]}; AVal VNil]) (r := PShape 4); [reflexivity|vm_compute; reflexivity|].
  apply hooked_below with (x := AMap {["port" := AVal (VString " 81 ")]}) (r := PShape 0); [vm_compute; reflexivity|vm_compute; reflexivity|].
  apply hooked_below with (x := AVal (VString " 81 ")) (r := PHook constant_hook 3 false); [vm_compute; reflexivity|vm_compute; reflexivity|].
  apply hooked_here.
Defined.
