(* ===== verification/Watch.v ===== *)
(** * File and provider watching (internal/watcher, file_watch.go, provider_watch.go, internal/providerutil)

    The registrations of the directory watcher and the events it forwards, the slot
    that serializes the reloads of one directory, and the bookkeeping of provider
    subscriptions: revisions, retries and what an event asks for.  Durations are
    nanoseconds. *)
From S2P Require Import Prelude GoStrings Value.
From Stdlib Require Import Ascii.
Open Scope nat_scope.

(** [filepath.Dir] and [filepath.Base] on slash-separated paths. *)
Definition dir_part (p : string) : string := match cut_last "/" p with Some (x, _) => x +:+ "/" | None => "" end.
Definition filepath_Dir (p : string) : string := path_Clean (dir_part p).
Definition filepath_Base (p : string) : string :=
  if String.eqb p "" then "."
  else let q := TrimRight p "/" in
       let b := match cut_last "/" q with Some (_, y) => y | None => q end in
       if String.eqb b "" then "/" else b.

(** ** The directory watcher (internal/watcher/watcher.go) *)

Record Watcher := { w_want : gset string; w_dirs : gset string; w_closed : bool }.

(** The operations of an [fsnotify.Event], as its bit mask. *)
Definition op_Create : Z := 1.
Definition op_Write : Z := 2.
Definition op_Remove : Z := 4.
Definition op_Rename : Z := 8.
Definition op_Chmod : Z := 16.
Definition has_op (op mask : Z) : bool := negb (Z.land op mask =? 0)%Z.

Record Event := { ev_Op : Z; ev_Name : string }.

Section watcher.
(** The world while the watcher looks at it: every call of [os.Stat] and of
    [fsw.Add] takes one tick of a clock, and the file system can change from one
    tick to the next.  Whether a path is a directory at a tick, and whether
    [fsnotify] accepts a watch on it. *)
Context (is_dir fsw_Add : nat → string → bool).

(** The directory, and the tick after the last [os.Stat]. *)
Fixpoint watch_dir (fuel t : nat) (dir : string) : string * nat :=
  match fuel with
  | O => (dir, t)
  | S fuel =>
      if is_dir t dir then (dir, S t)
      else let parent := filepath_Dir dir in if String.eqb parent dir then (dir, S t) else watch_dir fuel (S t) parent
  end.

Definition watchDir (t : nat) (path : string) : string * nat := watch_dir (String.length path + 3) t path.

(** The watcher, whether a watch was added, whether adding it failed, and the clock. *)
Definition register (w : Watcher) (t : nat) (path : string) : Watcher * bool * bool * nat :=
  let '(dir, t) := watchDir t path in
  if decide (dir ∈ w_dirs w) then (w, false, false, t)
  else if fsw_Add t dir then ({| w_want := w_want w; w_dirs := {[dir]} ∪ w_dirs w; w_closed := w_closed w |}, true, false, S t)
  else (w, false, true, S t).

Definition AddPath (w : Watcher) (t : nat) (path : string) : Watcher * bool * nat :=
  if w_closed w then (w, false, t)
  else let '(w, _, failed, t) := register {| w_want := {[path]} ∪ w_want w; w_dirs := w_dirs w; w_closed := false |} t path in (w, failed, t).

Definition Close (w : Watcher) : Watcher := {| w_want := w_want w; w_dirs := w_dirs w; w_closed := true |}.

Fixpoint add_paths (w : Watcher) (t : nat) (paths : list string) : option Watcher :=
  match paths with
  | [] => Some w
  | p :: paths => let '(w, failed, t) := AddPath w t p in if failed then None else add_paths w t paths
  end.

(** [New]; [None] is an error, after which the watcher is closed. *)
Definition New (t : nat) (paths : list string) : option Watcher :=
  add_paths {| w_want := ∅; w_dirs := ∅; w_closed := false |} t paths.

(** One round of [track] over the requested paths, looked up one after the other. *)
Definition track_path (acc : Watcher * bool * nat) (path : string) : Watcher * bool * nat :=
  let '(w, added, t) := acc in let '(w, ok, _, t) := register w t path in (w, added || ok, t).

Definition track_round (w : Watcher) (t : nat) : Watcher * bool * nat := foldl track_path (w, false, t) (elements (w_want w)).

(** The rounds of [track], repeated while watches are added. *)
Fixpoint track_loop (fuel : nat) (w : Watcher) (t : nat) : option (Watcher * nat) :=
  match fuel with
  | O => None
  | S fuel => let '(w, added, t) := track_round w t in if added then track_loop fuel w t else Some (w, t)
  end.

Definition track (fuel : nat) (w : Watcher) (t : nat) (ev : Event) : option (Watcher * nat) :=
  if w_closed w then Some (w, t)
  else if has_op (ev_Op ev) (Z.lor op_Remove op_Rename) then
    if decide (ev_Name ev ∈ w_dirs w)
    then track_loop fuel {| w_want := w_want w; w_dirs := w_dirs w ∖ {[ev_Name ev]}; w_closed := false |} t else Some (w, t)
  else if has_op (ev_Op ev) op_Create then if is_dir t (ev_Name ev) then track_loop fuel w (S t) else Some (w, S t)
  else Some (w, t).
End watcher.

Definition isK8sSwapCommit (op : Z) (base : string) : bool :=
  has_op op (Z.lor op_Create op_Rename) && (String.eqb base "..data" || HasPrefix base "..data_tmp_").

(** What [Run] does with an event: the watcher, and the call of [Push]; [op_string] is [Op.String] of fsnotify. *)
Definition Run_event (is_dir fsw_Add : nat → string → bool) (op_string : Z → string) (fuel : nat) (w : Watcher) (t : nat) (ev : Event)
    : option (Watcher * nat) * option (string * string * bool) :=
  if has_op (ev_Op ev) (Z.lor op_Create (Z.lor op_Write (Z.lor op_Chmod (Z.lor op_Rename op_Remove)))) then
    (track is_dir fsw_Add fuel w t ev,
     Some (filepath_Dir (ev_Name ev), "fs:" +:+ op_string (ev_Op ev) +:+ ":" +:+ ev_Name ev,
           isK8sSwapCommit (ev_Op ev) (filepath_Base (ev_Name ev))))
  else (Some (w, t), None).

Definition Run_error (err : string) : string * string * bool := ("", "fs-error:" +:+ err, false).

(** ** The paths to watch (file_watch.go) *)

Section paths.
(** [filepath.Abs], which can fail. *)
Context (filepath_Abs : string → option string).

Definition normalizeWatchPath (p : string) : string := if String.eqb p "" then "" else default p (filepath_Abs p).

Definition add_watch_path (out : list string) (p : string) : list string :=
  if String.eqb p "" then out
  else let abs := default p (filepath_Abs p) in if decide (abs ∈ out) then out else out ++ [abs].

(** The directory, the watch paths of the options, and those of the providers. *)
Definition staticWatchPaths (dir : string) (watch_paths : list string) (providers : list (list string)) : list string :=
  foldl add_watch_path [] ([dir; path_Join [dir; "base"]; path_Join [dir; "overlays"]] ++ watch_paths ++ concat providers).

(** [startFileWatcher] also watches every directory of the first scan. *)
Definition start_paths (dir : string) (watch_paths : list string) (providers : list (list string)) (scanned : list string) : list string :=
  foldl (λ out p, let p := normalizeWatchPath p in if decide (p ∈ out) then out else out ++ [p])
    (staticWatchPaths dir watch_paths providers) scanned.

(** [refreshWatchPaths]: the directories that a reload scanned; an error is logged. *)
Definition refreshWatchPaths (is_dir fsw_Add : nat → string → bool) (w : option Watcher) (t : nat) (done : bool) (dirs : list string)
    : option Watcher :=
  if done then w
  else (λ w, (foldl (λ acc p, let p := normalizeWatchPath p in
                     if String.eqb p "" then acc else let '(w, _, t) := AddPath is_dir fsw_Add acc.1 acc.2 p in (w, t)) (w, t) dirs).1) <$> w.
End paths.

(** ** The slot of a directory (file_watch.go) *)

(** [s_reload] is the reason of the [requestReload] in flight; the history has the
    events, and the reloads started, each with the number of events before it. *)
Record dirReloadSlot := { s_running : bool; s_pending : bool; s_reason : string }.
Record slot_state := { ss_slot : dirReloadSlot; ss_reload : option string; ss_events : list string; ss_started : list (string * nat) }.

Definition idle_slot : slot_state :=
  {| ss_slot := {| s_running := false; s_pending := false; s_reason := "" |}; ss_reload := None; ss_events := []; ss_started := [] |}.

(** The top of the loop, with the lock held: the reason is read and the reload starts. *)
Definition start_reload (s : slot_state) (reason : string) (events : list string) : slot_state :=
  {| ss_slot := {| s_running := true; s_pending := false; s_reason := reason |}; ss_reload := Some reason; ss_events := events;
     ss_started := ss_started s ++ [(reason, length events)] |}.

(** The callback of the coalescer; it is ignored after the shutdown and while paused. *)
Definition slot_event (s : slot_state) (done paused : bool) (reason : string) : slot_state :=
  if done || paused then s
  else
    let events := ss_events s ++ [reason] in
    if s_running (ss_slot s) then
      {| ss_slot := {| s_running := true; s_pending := true; s_reason := reason |}; ss_reload := ss_reload s; ss_events := events;
         ss_started := ss_started s |}
    else start_reload s reason events.

(** The reload in flight returns. *)
Definition slot_returned (s : slot_state) : slot_state :=
  match ss_reload s with
  | None => s
  | Some _ =>
      if s_pending (ss_slot s) then start_reload s (s_reason (ss_slot s)) (ss_events s)
      else {| ss_slot := {| s_running := false; s_pending := false; s_reason := s_reason (ss_slot s) |}; ss_reload := None;
              ss_events := ss_events s; ss_started := ss_started s |}
  end.

Inductive slot_step : slot_state → slot_state → Prop :=
  | step_event s done paused reason : slot_step s (slot_event s done paused reason)
  | step_returned s : slot_step s (slot_returned s).

(** ** Provider subscriptions (provider_watch.go, internal/providerutil) *)

(** The [revisionTable]. *)
Definition revision_get (r : gmap string string) (name : string) : string := default "" (r !! name).
Definition revision_set (r : gmap string string) (name rev : string)  : gmap string string := if String.eqb rev "" then r else <[name := rev]> r.

(** [time.Duration] arithmetic of [jitter]: [extra] is the random part. *)
Definition jitter_range (d : Z) : Z := (Z.quot d 2 + 1)%Z.
Definition jitter (d extra : Z) : Z := if (d <=? 0)%Z then d else (d + extra)%Z.

Record Backoff := { bo_Min : Z; bo_Max : Z; bo_cur : Z }.

Definition Next (b : Backoff) : Z * Backoff :=
  let cur := if (bo_cur b =? 0)%Z then bo_Min b else bo_cur b in
  (cur, {| bo_Min := bo_Min b; bo_Max := bo_Max b; bo_cur := if (bo_Max b - cur <=? cur)%Z then bo_Max b else (cur * 2)%Z |}).

Definition Reset_ (b : Backoff) : Backoff := {| bo_Min := bo_Min b; bo_Max := bo_Max b; bo_cur := 0 |}.

Record ProviderEvent := { pe_Reason : string; pe_Revision : string; pe_Gap : bool }.

Inductive watch_effect :=
  | EmitResumeGap (provider : string)
  | EnqueueReload (reason : string)
  | OverflowToken
  | EmitDropped (provider : string)
  | EmitWatchError (provider : string) (retry_in : Z).

(** One event of [consumeProviderEvents]. *)
Definition consume_event (revs : gmap string string) (name : string) (paused full : bool) (ev : ProviderEvent) : gmap string string * list watch_effect :=
  let revs := revision_set revs name (pe_Revision ev) in
  let gap := if pe_Gap ev then [EmitResumeGap name] else [] in
  if paused then (revs, gap)
  else
    let reason := "provider:" +:+ name +:+ (if String.eqb (pe_Reason ev) "" then "" else ":" +:+ pe_Reason ev) in
    (revs, gap ++ if full then [OverflowToken; EmitDropped name] else [EnqueueReload reason]).

Definition minDelay : Z := 250000000.
Definition maxDelay : Z := 30000000000.

(** What a call of [Watch] returns: an error, a nil channel, or a channel with
    the events it delivers until it closes (each with [paused] and [full]). *)
Inductive watch_result := WatchError | OptOut | Events (evs : list (bool * bool * ProviderEvent)).

(** [runProviderWatcher] over the results of its calls of [Watch]; a pair is the
    revision asked for, and the delay before the next call if there is one. *)
Fixpoint run_watcher (b : Backoff) (revs : gmap string string) (name : string) (script : list watch_result)
    : list (string * option Z) * gmap string string * list watch_effect :=
  match script with
  | [] => ([], revs, [])
  | r :: script =>
      let from := revision_get revs name in
      match r with
      | WatchError =>
          let '(delay, b) := Next b in
          let '(calls, revs, effs) := run_watcher b revs name script in
          ((from, Some delay) :: calls, revs, EmitWatchError name delay :: effs)
      | OptOut => ([(from, None)], revs, [])
      | Events evs =>
          let '(revs, effs) := foldl (λ acc e, let '(revs, effs) := consume_event acc.1 name e.1.1 e.1.2 e.2 in (revs, acc.2 ++ effs)) (revs, []) evs in
          let '(calls, revs, effs') := run_watcher (Reset_ b) revs name script in
          ((from, Some minDelay) :: calls, revs, effs ++ effs')
      end
  end.

Definition runProviderWatcher (revs : gmap string string) (name : string) (script : list watch_result) :=
  run_watcher {| bo_Min := minDelay; bo_Max := maxDelay; bo_cur := 0 |} revs name script.

(** The latest document of a streaming provider. *)
Record Latest := { la_value : gomap; la_revision : string; la_loaded : bool }.
Definition Store (l : Latest) (v : gomap) (revision : string) : Latest :=
  {| la_value := v; la_loaded := true; la_revision := if String.eqb revision "" then la_revision l else revision |}.
Definition Latest_Snapshot (l : Latest) : gmap string value * string * bool := (default ∅ (la_value l), la_revision l, negb (la_loaded l)).

(** [Offer] on a channel of some capacity. *)
Definition Offer {A} (cap : nat) (ch : list A) (ev : A) : list A * bool := if length ch <? cap then (ch ++ [ev], true) else (ch, false).

(** ** Lemmas: directories *)

(** The room that path elements take, with their separators. *)
Fixpoint room (l : list string) : nat := match l with [] => 0 | e :: l => S (String.length e + room l) end.

Lemma room_app l1 l2 : room (l1 ++ l2) = room l1 + room l2.
Proof. induction l1 as [|e l1 IH]; simpl; lia. Qed.

Lemma room_Join l : l ≠ [] → S (String.length (strings_Join l "/")) = room l.
Proof.
  induction l as [|e l IH]; [done|]. intros _. destruct l as [|e' l]; [simpl; lia|].
  rewrite Join_cons by done. rewrite !length_app_str. cbn [room String.length]. specialize (IH ltac:(done)). cbn [room] in IH. lia.
Qed.

Lemma room_clean rooted out l : room (clean_elems rooted out l) ≤ room out + room l.
Proof.
  revert out. induction l as [|e l IH]; intros out; cbn [clean_elems].
  { clear. induction out as [|e out IH]; [done|]. cbn [rev]. change (rev (e :: out)) with (rev out ++ [e]). rewrite room_app. cbn [room] in *. lia. }
  destruct (_ || _); [specialize (IH out); simpl; lia|]. destruct (String.eqb e "..").
  - destruct out as [|h t]; [destruct rooted; [specialize (IH [])|specialize (IH [e])]; simpl in *; lia|].
    destruct (String.eqb h ".."); [specialize (IH (e :: h :: t))|specialize (IH t)]; simpl in *; lia.
  - specialize (IH (e :: out)). simpl in *. lia.
Qed.

(** Empty elements take no room in the cleaned path. *)
Lemma clean_skip rooted out l : clean_elems rooted out ("" :: l) = clean_elems rooted out l.
Proof. done. Qed.

Lemma clean_last rooted out l : clean_elems rooted out (l ++ [""]) = clean_elems rooted out l.
Proof.
  revert out. induction l as [|e l IH]; intros out; [done|]. cbn [app clean_elems].
  destruct (_ || _); [apply IH|]. destruct (String.eqb e ".."); [|apply IH].
  destruct out as [|h t]; [destruct rooted; apply IH|]. destruct (String.eqb h ".."); apply IH.
Qed.


Lemma dir_part_cases p : dir_part p = "" ∨ ∃ x y, p = x +:+ "/" +:+ y ∧ dir_part p = x +:+ "/".
Proof.
  unfold dir_part. destruct (cut_last "/" p) as [[x y]|] eqn:Hc; [right|by left]. exists x, y. split; [|done].
  revert x y Hc. induction p as [|c p IH]; intros x y; [done|]. cbn [cut_last]. destruct (cut_last "/" p) as [[x' y']|] eqn:Hp.
  - intros [= <- <-]. simpl. f_equal. by apply IH.
  - destruct (Ascii.eqb_spec c "/") as [->|]; [|done]. by intros [= <- <-].
Qed.

(** The parent of a path is shorter, or a root. *)
Lemma filepath_Dir_shorter p : String.length (filepath_Dir p) < String.length p ∨ filepath_Dir p = "." ∨ filepath_Dir p = "/".
Proof.
  unfold filepath_Dir. destruct (dir_part_cases p) as [-> |(x & y & Hp & ->)]; [by right; left|].
  rewrite Hp. rewrite !length_app_str. unfold path_Clean.
  change (x +:+ "/") with (x +:+ String "/" ""). rewrite Split_end, clean_last.
  set (rooted := String.prefix "/" (x +:+ String "/" "")).
  pose proof (room_clean rooted [] (strings_Split x "/")) as Hroom.
  pose proof (room_Join (strings_Split x "/") (Split_ne x "/")) as Hx. rewrite Join_Split in Hx by done.
  destruct (clean_elems rooted [] (strings_Split x "/")) as [|e l] eqn:Hc.
  { simpl. destruct rooted; right; [by right|by left]. }
  pose proof (room_Join (e :: l) ltac:(done)) as Hb. destruct rooted eqn:Hr.
  - left. destruct x as [|c x].
    { vm_compute in Hc. done. }
    assert (c = "/"%char) as ->.
    { unfold rooted in Hr. cbn [String.append String.prefix] in Hr. by destruct (ascii_dec "/" c). }
    assert (strings_Split (String "/" x) "/" = "" :: strings_Split x "/") as Hs by exact (Split_app "/" "" x eq_refl).
    rewrite Hs in Hc, Hx, Hroom. rewrite clean_skip in Hc.
    pose proof (room_clean true [] (strings_Split x "/")) as Hroom'. rewrite Hc in Hroom'.
    rewrite length_app_str. change (room ("" :: strings_Split x "/")) with (S (room (strings_Split x "/"))) in Hx. cbn [String.length] in *.
    change (room []) with 0 in Hroom'. lia.
  - left. destruct x as [|c x]; [vm_compute in Hc; done|]. cbn [String.length] in *. change (room []) with 0 in Hroom. change (String.length "/") with 1.
    destruct (String.eqb_spec (strings_Join (e :: l) "/") "") as [_|_]; [change (String.length ".") with 1|]; lia.
Qed.

Lemma filepath_Dir_root p : filepath_Dir p = "." ∨ filepath_Dir p = "/" → filepath_Dir (filepath_Dir p) = filepath_Dir p.
Proof. by intros [-> | ->]. Qed.

(** ** Lemmas: registrations *)

Section registrations.
Context (is_dir fsw_Add : nat → string → bool).

(** [p] resolves to [d]: from tick [t] on its ancestors were looked up in turn,
    and before [t'] [d] was found to be a directory, or is the last of them. *)
Definition resolves (t : nat) (p d : string) (t' : nat) : Prop :=
  ∃ k, t' = S (t + k) ∧ d = Nat.iter k filepath_Dir p ∧ (is_dir (t + k) d = true ∨ filepath_Dir d = d)
    ∧ ∀ j, j < k → is_dir (t + j) (Nat.iter j filepath_Dir p) = false.

Lemma watch_dir_resolves fuel t p : String.length p + 3 ≤ fuel ∨ 0 < fuel ∧ filepath_Dir p = p →
  resolves t p (watch_dir is_dir fuel t p).1 (watch_dir is_dir fuel t p).2.
Proof.
  revert t p. induction fuel as [|fuel IH]; intros t p Hfuel; [lia|]. cbn [watch_dir].
  assert (is_dir t p = true ∨ filepath_Dir p = p → resolves t p p (S t)) as Hhere.
  { intros Hp. exists 0. rewrite Nat.add_0_r. split_and!; [done..|lia]. }
  destruct (is_dir t p) eqn:Hp; [apply Hhere; by left|].
  destruct (String.eqb_spec (filepath_Dir p) p) as [Heq|Hne]; [apply Hhere; by right|].
  destruct Hfuel as [Hfuel|[_ ?]]; [|done]. destruct (IH (S t) (filepath_Dir p)) as (k & Ht & Hk & Hd & Hj).
  { destruct (filepath_Dir_shorter p) as [?|Hroot]; [left; lia|right]. split; [lia|by apply filepath_Dir_root]. }
  assert (∀ n, Nat.iter n filepath_Dir (filepath_Dir p) = Nat.iter (S n) filepath_Dir p) as Hiter by (intros n; by rewrite Nat.iter_succ_r).
  exists (S k). rewrite <-Hiter, Nat.add_succ_r. split_and!; [done..|].
  intros [|j] Hlt; [by rewrite Nat.add_0_r|]. rewrite <-Hiter, Nat.add_succ_r. apply Hj. lia.
Qed.

Lemma watchDir_resolves t p : resolves t p (watchDir is_dir t p).1 (watchDir is_dir t p).2.
Proof. apply watch_dir_resolves. by left. Qed.

Lemma resolves_later t p d t' : resolves t p d t' → t < t'.
Proof. intros (k & -> & _). lia. Qed.

(** Between [t0] and [t1], [p] was resolved to a directory that is watched, or
    on which a watch was refused. *)
Definition looked_up (w : Watcher) (t0 t1 : nat) (p : string) : Prop :=
  ∃ t d t', t0 ≤ t ∧ t' ≤ t1 ∧ resolves t p d t' ∧ (d ∈ w_dirs w ∨ t' < t1 ∧ fsw_Add t' d = false).

(** A watch on [d] was accepted between [t0] and [t1], for a path of [l]. *)
Definition accepted (l : list string) (t0 t1 : nat) (d : string) : Prop :=
  ∃ t p t', p ∈ l ∧ t0 ≤ t ∧ t' < t1 ∧ resolves t p d t' ∧ fsw_Add t' d = true.

Lemma looked_up_mono w w' t0 t1 s0 s1 p :
  w_dirs w ⊆ w_dirs w' → s0 ≤ t0 → t1 ≤ s1 → looked_up w t0 t1 p → looked_up w' s0 s1 p.
Proof.
  intros Hw H0 H1 (t & d & t' & ? & ? & Hr & Hd). exists t, d, t'. split_and!; [lia|lia|done|].
  destruct Hd as [Hd|[? ?]]; [left; by apply Hw|right; split; [lia|done]].
Qed.

Lemma accepted_mono l l' t0 t1 s0 s1 d : l ⊆ l' → s0 ≤ t0 → t1 ≤ s1 → accepted l t0 t1 d → accepted l' s0 s1 d.
Proof. intros Hl ? ? (t & p & t' & ? & ? & ? & ? & ?). exists t, p, t'. split_and!; [by apply Hl|lia|lia|done..]. Qed.

Lemma register_spec w t p :
  let '(w', ok, _, t') := register is_dir fsw_Add w t p in
  w_want w' = w_want w ∧ w_closed w' = w_closed w ∧ t < t' ∧ w_dirs w ⊆ w_dirs w' ∧ looked_up w' t t' p
  ∧ (∀ d, d ∈ w_dirs w' → d ∈ w_dirs w ∨ accepted [p] t t' d) ∧ (ok = false → w' = w).
Proof.
  unfold register. pose proof (watchDir_resolves t p) as Hr. destruct (watchDir is_dir t p) as [d t1]. cbn [fst snd] in Hr.
  pose proof (resolves_later _ _ _ _ Hr) as Ht. destruct (decide (d ∈ w_dirs w)) as [Hin|Hin].
  { split_and!; try done; [|by left]. exists t, d, t1. split_and!; [lia|lia|done|by left]. }
  destruct (fsw_Add t1 d) eqn:Ha; cbn [w_want w_closed w_dirs].
  - split_and!; try done; [lia|set_solver| |].
    + exists t, d, t1. cbn [w_dirs]. split_and!; [lia|lia|done|left; set_solver].
    + intros d' [->%elem_of_singleton|?]%elem_of_union; [right|by left]. exists t, p, t1. split_and!; [left|lia|lia|done..].
  - split_and!; try done; [lia| |by left]. exists t, d, t1. split_and!; [lia|lia|done|right; split; [lia|done]].
Qed.

Lemma track_paths_spec l w a t :
  let '(w', a', t') := foldl (track_path is_dir fsw_Add) (w, a, t) l in
  w_want w' = w_want w ∧ w_closed w' = w_closed w ∧ t + length l ≤ t' ∧ w_dirs w ⊆ w_dirs w'
  ∧ (∀ p, p ∈ l → looked_up w' t t' p) ∧ (∀ d, d ∈ w_dirs w' → d ∈ w_dirs w ∨ accepted l t t' d)
  ∧ (a' = false → a = false ∧ w' = w).
Proof.
  revert w a t. induction l as [|p l IH]; intros w a t; cbn [foldl].
  { split_and!; try done; [simpl; lia| |by left]. intros p Hp. by apply not_elem_of_nil in Hp. }
  cbn [track_path]. pose proof (register_spec w t p) as Hr.
  destruct (register is_dir fsw_Add w t p) as [[[w1 ok] failed] t1]. destruct Hr as (R1 & R2 & R3 & R4 & R5 & R6 & R7).
  specialize (IH w1 (a || ok) t1). destruct (foldl _ _ l) as [[w' a'] t']. destruct IH as (I1 & I2 & I3 & I4 & I5 & I6 & I7).
  split_and!; [congruence|congruence|simpl; lia|by etrans| | |].
  - intros q [->|Hq]%elem_of_cons; [by eapply looked_up_mono; [| | |exact R5]; [|lia..]|].
    eapply looked_up_mono; [| | |exact (I5 q Hq)]; [done|lia..].
  - intros d Hd. destruct (I6 d Hd) as [Hd1|Hd1].
    + destruct (R6 d Hd1) as [?|?]; [by left|right]. eapply accepted_mono; [| | |done]; [set_solver|lia..].
    + right. eapply accepted_mono; [| | |exact Hd1]; [set_solver|lia..].
  - intros Ha. destruct (I7 Ha) as [[-> Hok]%orb_false_elim ->]. split; [done|by apply R7].
Qed.

(** In the last round nothing is added: every path was looked up when all the
    watches were in place. *)
Lemma track_loop_settles fuel w t w' t' : track_loop is_dir fsw_Add fuel w t = Some (w', t') →
  w_want w' = w_want w ∧ ∃ t0, t ≤ t0 ∧ t0 ≤ t' ∧ (∀ p, p ∈ w_want w → looked_up w' t0 t' p)
  ∧ ∀ d, d ∈ w_dirs w' → d ∈ w_dirs w ∨ accepted (elements (w_want w)) t t0 d.
Proof.
  revert w t. induction fuel as [|fuel IH]; intros w t; [done|]. cbn [track_loop]. unfold track_round.
  pose proof (track_paths_spec (elements (w_want w)) w false t) as Hround.
  destruct (foldl _ _ _) as [[w1 added] t1]. destruct Hround as (R1 & R2 & R3 & R4 & R5 & R6 & R7). destruct added.
  - intros (I1 & t0 & I2 & I3 & I4 & I5)%IH. rewrite R1 in *. split; [done|]. exists t0. split_and!; [lia|done|done|].
    intros d Hd. destruct (I5 d Hd) as [Hd1|Hd1].
    + destruct (R6 d Hd1) as [?|?]; [by left|right]. eapply accepted_mono; [| | |done]; [done|lia|lia].
    + right. eapply accepted_mono; [| | |exact Hd1]; [done|lia|lia].
  - intros [= <- <-]. destruct (R7 eq_refl) as [_ ->]. split; [done|]. exists t. split_and!; [done|lia| |by left].
    intros p Hp. apply R5. by apply elem_of_elements.
Qed.

(** ** Lemmas: a file system that settles *)

Section settled.
Context (T : nat).
Hypothesis Hdir : ∀ t d, T ≤ t → is_dir t d = is_dir T d.
Hypothesis Hadd : ∀ t d, T ≤ t → fsw_Add t d = fsw_Add T d.

Lemma watch_dir_settled fuel t t' p : T ≤ t → T ≤ t' → (watch_dir is_dir fuel t p).1 = (watch_dir is_dir fuel t' p).1.
Proof using Hdir.
  revert t t' p. induction fuel as [|fuel IH]; intros t t' p Ht Ht'; [done|]. cbn [watch_dir].
  rewrite (Hdir t), (Hdir t') by done. destruct (is_dir T p); [done|]. destruct (String.eqb _ p); [done|]. apply IH; lia.
Qed.

(** The path is watched, or refused, from [T] on. *)
Definition settled_path (w : Watcher) (p : string) : Prop :=
  (watchDir is_dir T p).1 ∈ w_dirs w ∨ fsw_Add T (watchDir is_dir T p).1 = false.

Lemma register_settled w t p : T ≤ t →
  let '(w', ok, _, t') := register is_dir fsw_Add w t p in
  t ≤ t' ∧ w_dirs w ⊆ w_dirs w' ∧ settled_path w' p ∧ (settled_path w p → ok = false ∧ w' = w).
Proof using Hdir Hadd.
  intros Ht. unfold register, settled_path. pose proof (watchDir_resolves t p) as Hr%resolves_later.
  assert ((watchDir is_dir t p).1 = (watchDir is_dir T p).1) as Heq by by apply watch_dir_settled.
  destruct (watchDir is_dir t p) as [d t1]. cbn [fst snd] in *. rewrite <-Heq.
  destruct (decide (d ∈ w_dirs w)); [split_and!; [lia|done|by left|done]|]. rewrite (Hadd t1) by lia.
  destruct (fsw_Add T d) eqn:Ha; cbn [w_dirs]; split_and!; try done; try lia; try set_solver; by right.
Qed.

Lemma track_paths_settled l w a t : T ≤ t →
  let '(w', a', t') := foldl (track_path is_dir fsw_Add) (w, a, t) l in
  T ≤ t' ∧ w_dirs w ⊆ w_dirs w' ∧ (∀ p, p ∈ l → settled_path w' p) ∧ ((∀ p, p ∈ l → settled_path w p) → a' = a).
Proof using Hdir Hadd.
  revert w a t. induction l as [|p l IH]; intros w a t Ht; cbn [foldl].
  { split_and!; try done. intros p Hp. by apply not_elem_of_nil in Hp. }
  cbn [track_path]. pose proof (register_settled w t p Ht) as Hr.
  destruct (register is_dir fsw_Add w t p) as [[[w1 ok] failed] t1]. destruct Hr as (R1 & R2 & R3 & R4).
  specialize (IH w1 (a || ok) t1 ltac:(lia)). destruct (foldl _ _ l) as [[w' a'] t']. destruct IH as (I1 & I2 & I3 & I4).
  split_and!; [done|by etrans| |].
  - intros q [->|Hq]%elem_of_cons; [|by apply I3]. destruct R3 as [?|?]; [left; by apply I2|by right].
  - intros Hl. destruct (R4 ltac:(apply Hl; left)) as [-> ->]. rewrite orb_false_r in I4. apply I4.
    intros q Hq. apply Hl. by right.
Qed.

Lemma track_loop_ends fuel w t : T - t + 2 ≤ fuel → ∃ r, track_loop is_dir fsw_Add fuel w t = Some r.
Proof using Hdir Hadd.
  revert w t. induction fuel as [|fuel IH]; intros w t Hf; [lia|]. cbn [track_loop]. unfold track_round.
  pose proof (track_paths_spec (elements (w_want w)) w false t) as Hround.
  pose proof (track_paths_settled (elements (w_want w)) w false t) as Hset.
  destruct (foldl _ _ (elements (w_want w))) as [[w1 added] t1] eqn:Hfold. destruct Hround as (R1 & _ & R3 & _).
  destruct added; [|by eexists].
  assert (0 < length (elements (w_want w))) as Hne by (destruct (elements (w_want w)); [simplify_eq|simpl; lia]).
  destruct (decide (T ≤ t)) as [Ht|Ht]; [|apply IH; lia]. destruct (Hset Ht) as (S1 & _ & S3 & _).
  destruct fuel as [|fuel]; [lia|]. cbn [track_loop]. unfold track_round. rewrite R1.
  pose proof (track_paths_settled (elements (w_want w)) w1 false t1 S1) as Hset2.
  destruct (foldl _ (w1, false, t1) _) as [[w2 added2] t2]. destruct Hset2 as (_ & _ & _ & Hidle). rewrite (Hidle S3). by eexists.
Qed.
End settled.
End registrations.

(** ** Correctness of the directory watcher *)

(** [track] acts on the removal of a watched directory and on the creation of a directory. *)
Definition handled (is_dir : nat → string → bool) (t : nat) (w : Watcher) (ev : Event) : Prop :=
  w_closed w = false ∧
  if has_op (ev_Op ev) (Z.lor op_Remove op_Rename) then ev_Name ev ∈ w_dirs w
  else has_op (ev_Op ev) op_Create = true ∧ is_dir t (ev_Name ev) = true.

(** C27: the watches follow the directories, without a gap. The file system may
    change between any two looks at it. When [track] has handled an event, there
    is a moment [t0] at which all the watches of the result were in place, and
    after which every requested path was looked up and found to resolve to a
    watched directory, its nearest existing ancestor at that time, unless the
    watch on it was refused: a directory that appears after its path was looked
    up appears below a watch that is there already. A watch is kept from before
    or was accepted for a path that resolved to its directory, so a removed
    directory stays watched only if a path resolved to it again. Every other
    event leaves the watcher as it is. If the file system settles, the rounds
    end. *)
Theorem watches_follow_directories (is_dir fsw_Add : nat → string → bool) (w : Watcher) (t : nat) (ev : Event) :
  (∀ fuel w' t', track is_dir fsw_Add fuel w t ev = Some (w', t') →
     (handled is_dir t w ev →
        w_want w' = w_want w
        ∧ ∃ t0, t ≤ t0 ∧ t0 ≤ t' ∧ (∀ p, p ∈ w_want w → looked_up is_dir fsw_Add w' t0 t' p)
          ∧ ∀ d, d ∈ w_dirs w' →
              (d ∈ w_dirs w ∧ (has_op (ev_Op ev) (Z.lor op_Remove op_Rename) = true → d ≠ ev_Name ev))
              ∨ accepted is_dir fsw_Add (elements (w_want w)) t t0 d)
     ∧ (¬ handled is_dir t w ev → w' = w))
  ∧ (∀ T, (∀ t d, T ≤ t → is_dir t d = is_dir T d ∧ fsw_Add t d = fsw_Add T d) →
       ∃ r, track is_dir fsw_Add (T - t + 2) w t ev = Some r).
Proof.
  split.
  - intros fuel w' t' Ht. unfold handled, track in *. destruct (w_closed w); [split; [by intros [? _]|by simplify_eq]|].
    destruct (has_op (ev_Op ev) (Z.lor op_Remove op_Rename)).
    + destruct (decide (ev_Name ev ∈ w_dirs w)) as [Hin|Hin]; [|split; [by intros [_ ?]|by simplify_eq]].
      split; [intros _|intros Hn; by destruct Hn].
      apply track_loop_settles in Ht as (H1 & t0 & H2 & H3 & H4 & H5). cbn [w_want w_dirs] in *. split; [done|].
      exists t0. split_and!; [done..|]. intros d Hd. destruct (H5 d Hd) as [Hd1|?]; [left|by right]. set_solver.
    + destruct (has_op (ev_Op ev) op_Create); [|split; [by intros (_ & ? & _)|by simplify_eq]].
      destruct (is_dir t (ev_Name ev)); [|split; [by intros (_ & _ & ?)|by simplify_eq]].
      split; [intros _|intros Hn; by destruct Hn].
      apply track_loop_settles in Ht as (H1 & t0 & H2 & H3 & H4 & H5). split; [done|].
      exists t0. split_and!; [lia|done|done|]. intros d Hd. destruct (H5 d Hd) as [Hd1|Ha]; [by left|right].
      eapply accepted_mono; [| | |exact Ha]; [done|lia|lia].
  - intros T Hset. assert (∀ t d, T ≤ t → is_dir t d = is_dir T d) as Hd by (intros; by apply Hset).
    assert (∀ t d, T ≤ t → fsw_Add t d = fsw_Add T d) as Ha by (intros; by apply Hset).
    unfold track. destruct (w_closed w); [by eexists|]. destruct (has_op _ (Z.lor _ _)).
    + destruct (decide _); [by apply (track_loop_ends is_dir fsw_Add T)|by eexists].
    + destruct (has_op _ _); [|by eexists]. destruct (is_dir t _); [|by eexists].
      apply (track_loop_ends is_dir fsw_Add T); [done..|lia].
Qed.

(** ** Correctness of the reload slot *)

Record slot_ok (s : slot_state) : Prop := {
  ok_running : s_running (ss_slot s) = true ↔ is_Some (ss_reload s);
  ok_pending : s_pending (ss_slot s) = true → is_Some (ss_reload s);
  ok_nonempty : is_Some (ss_reload s) → ss_events s ≠ [];
  ok_reason : ss_events s ≠ [] → last (ss_events s) = Some (s_reason (ss_slot s));
  ok_last : ss_events s ≠ [] → ∃ reason n, last (ss_started s) = Some (reason, n) ∧ (n = length (ss_events s) ∨ s_pending (ss_slot s) = true);
  ok_started : ∀ reason n, (reason, n) ∈ ss_started s → ∃ k, n = S k ∧ ss_events s !! k = Some reason;
  ok_count : length (ss_started s) + (if s_pending (ss_slot s) then 1 else 0) ≤ length (ss_events s);
}.

Lemma start_reload_ok s reason events : ss_events s `prefix_of` events → last events = Some reason →
  (∀ reason n, (reason, n) ∈ ss_started s → ∃ k, n = S k ∧ ss_events s !! k = Some reason) →
  length (ss_started s) + 1 ≤ length events → slot_ok (start_reload s reason events).
Proof.
  intros Hpre Hlast Hst Hcount. unfold start_reload. constructor; cbn [ss_slot ss_reload ss_events ss_started s_running s_pending s_reason].
  - split; [by eexists|done].
  - done.
  - intros _ Hnil. by rewrite Hnil in Hlast.
  - done.
  - intros _. exists reason, (length events). rewrite last_snoc. split; [done|by left].
  - intros r n [Hin|Hin]%elem_of_app.
    + destruct (Hst r n Hin) as (k & -> & Hk). exists k. split; [done|]. by eapply prefix_lookup_Some.
    + apply list_elem_of_singleton in Hin as [= -> ->]. rewrite last_lookup in Hlast. exists (pred (length events)).
      split; [|done]. destruct events; [done|simpl; lia].
  - rewrite length_app. simpl. lia.
Qed.

Lemma slot_step_ok s s' : slot_ok s → slot_step s s' → slot_ok s'.
Proof.
  intros Hok. pose proof Hok as [Hrun Hpend Hne Hreason Hlast Hst Hcount]. destruct 1 as [s done paused reason|s].
  - unfold slot_event. destruct (done || paused); [done|]. destruct (s_running (ss_slot s)) eqn:Hr.
    + assert (ss_events s ≠ []) as Hev by (by apply Hne, Hrun).
      constructor; cbn [ss_slot ss_reload ss_events ss_started s_running s_pending s_reason].
      * by rewrite <-Hrun.
      * intros _. by apply Hrun.
      * intros _ Hnil. by apply app_nil in Hnil as [_ ?].
      * intros _. by rewrite last_snoc.
      * intros _. destruct (Hlast Hev) as (r & n & Hl & _). exists r, n. split; [done|by right].
      * intros r n Hin. destruct (Hst r n Hin) as (k & -> & Hk). exists k. split; [done|]. rewrite lookup_app_l; [done|by eapply lookup_lt_Some].
      * rewrite length_app. simpl. destruct (s_pending (ss_slot s)); lia.
    + apply start_reload_ok; [by apply prefix_app_r|by rewrite last_snoc|done|]. rewrite length_app. simpl. destruct (s_pending (ss_slot s)); lia.
  - unfold slot_returned. destruct (ss_reload s) as [re|] eqn:Hre; [|done].
    assert (ss_events s ≠ []) as Hev by (apply Hne; by eexists).
    destruct (s_pending (ss_slot s)) eqn:Hp.
    + apply start_reload_ok; [done|by apply Hreason|done|lia].
    + constructor; cbn [ss_slot ss_reload ss_events ss_started s_running s_pending s_reason].
      * split; [done|by intros []].
      * done.
      * by intros [].
      * done.
      * intros _. destruct (Hlast Hev) as (r & n & Hl & [Hn|Hn]); [|congruence]. exists r, n. split; [done|by left].
      * done.
      * done.
Qed.

Lemma slot_reachable_ok s : rtc slot_step idle_slot s → slot_ok s.
Proof.
  intros Hs. assert (slot_ok idle_slot) as H0.
  { constructor; unfold idle_slot; cbn; try done. intros r n Hin. by apply not_elem_of_nil in Hin. }
  induction Hs as [|x y z Hxy _ IH]; [done|]. apply IH. by eapply slot_step_ok.
Qed.

(** No event of a directory is lost, and its reloads do not overlap. In every
    reachable state of the slot, each reload started for the reason of the latest
    event before it, there are no more reloads than events, and either a reload
    started after the last event or one will, when the reload in flight returns;
    without further events, two returns end all reloads, the last of which started
    after the last event. *)
Theorem slot_no_lost_event (s : slot_state) (Hs : rtc slot_step idle_slot s) :
  let caught_up s := ss_events s ≠ [] → ∃ reason, last (ss_started s) = Some (reason, length (ss_events s)) in
  (caught_up s ∨ s_pending (ss_slot s) = true ∧ is_Some (ss_reload s))
  ∧ (∀ reason n, (reason, n) ∈ ss_started s → ∃ k, n = S k ∧ ss_events s !! k = Some reason)
  ∧ length (ss_started s) ≤ length (ss_events s)
  ∧ (let s' := slot_returned (slot_returned s) in ss_events s' = ss_events s ∧ ss_reload s' = None ∧ caught_up s').
Proof.
  cbn zeta. apply slot_reachable_ok in Hs.
  assert (∀ s, slot_ok s → (ss_events s ≠ [] → ∃ reason, last (ss_started s) = Some (reason, length (ss_events s)))
    ∨ s_pending (ss_slot s) = true ∧ is_Some (ss_reload s)) as Hcaught.
  { clear. intros s [_ Hpend _ _ Hlast _ _]. destruct (s_pending (ss_slot s)) eqn:Hp; [right; split; [done|by apply Hpend]|left].
    intros Hev. destruct (Hlast Hev) as (r & n & Hl & [->|?]); [by exists r|done]. }
  split; [by apply Hcaught|]. split; [by apply Hs|]. split; [destruct Hs as [_ _ _ _ _ _ Hc]; destruct (s_pending _); lia|].
  assert (slot_ok (slot_returned (slot_returned s))) as Hok by (do 2 (eapply slot_step_ok; [|apply step_returned]); done).
  assert (ss_reload (slot_returned (slot_returned s)) = None ∧ ss_events (slot_returned (slot_returned s)) = ss_events s) as [Hnone Hevs].
  { unfold slot_returned. destruct (ss_reload s) eqn:Hre; [|by rewrite Hre]. by destruct (s_pending (ss_slot s)). }
  split; [done|split; [done|]]. destruct (Hcaught _ Hok) as [Hc|[_ [? ?]]]; [done|congruence].
Qed.

(** ** Correctness of the subscriptions *)

Definition consecutive_errors (script : list watch_result) : nat :=
  foldl (λ n r, match r with WatchError => S n | _ => 0 end) 0 script.

(** The last revision that is not empty, of the events delivered so far. *)
Definition last_revision (from : string) (script : list watch_result) : string :=
  foldl (λ rev r, match r with
                  | Events evs => foldl (λ rev e, if String.eqb (pe_Revision e.2) "" then rev else pe_Revision e.2) rev evs
                  | _ => rev
                  end) from script.

Lemma run_watcher_calls b revs name script : (0 < bo_Min b ≤ bo_Max b)%Z →
  ∀ m, (bo_cur b = if (m =? 0)%nat then 0 else Z.min (bo_Min b * 2 ^ Z.of_nat m) (bo_Max b))%Z →
  ∀ i from delay, (run_watcher b revs name script).1.1 !! i = Some (from, delay) →
    from = last_revision (revision_get revs name) (take i script)
    ∧ match script !! i with
      | Some WatchError => delay = Some (Z.min (bo_Min b * 2 ^ Z.of_nat (foldl (λ n r, match r with WatchError => S n | _ => 0 end) m (take i script))) (bo_Max b))
      | Some (Events _) => delay = Some minDelay
      | _ => delay = None
      end.
Proof.
  intros Hb. revert b revs Hb. induction script as [|r script IH]; intros b revs Hb m Hm i from delay; [done|].
  assert (∀ b m, (0 < bo_Min b ≤ bo_Max b)%Z → (bo_cur b = if (m =? 0)%nat then 0 else Z.min (bo_Min b * 2 ^ Z.of_nat m) (bo_Max b))%Z →
    let r := Next b in r.1 = Z.min (bo_Min b * 2 ^ Z.of_nat m) (bo_Max b) ∧ bo_Min r.2 = bo_Min b ∧ bo_Max r.2 = bo_Max b
      ∧ bo_cur r.2 = Z.min (bo_Min b * 2 ^ Z.of_nat (S m)) (bo_Max b)) as Hnext.
  { clear. intros b m Hb Hm. unfold Next. cbn [fst snd bo_Min bo_Max bo_cur].
    assert ((if bo_cur b =? 0 then bo_Min b else bo_cur b) = Z.min (bo_Min b * 2 ^ Z.of_nat m) (bo_Max b))%Z as ->.
    { rewrite Hm. destruct m as [|m]; [simpl; lia|]. cbn [Nat.eqb]. assert (0 < 2 ^ Z.of_nat (S m))%Z by lia.
      destruct (Z.eqb_spec (Z.min (bo_Min b * 2 ^ Z.of_nat (S m)) (bo_Max b)) 0); nia. }
    rewrite Nat2Z.inj_succ, Z.pow_succ_r by lia. set (x := (bo_Min b * 2 ^ Z.of_nat m)%Z).
    replace (bo_Min b * (2 * 2 ^ Z.of_nat m))%Z with (2 * x)%Z by (unfold x; ring).
    assert (0 < x)%Z by (unfold x; nia). split_and!; [done..|]. destruct (Z.leb_spec (bo_Max b - Z.min x (bo_Max b)) (Z.min x (bo_Max b)))%Z; lia. }
  cbn [run_watcher]. destruct r as [| |evs].
  - destruct (Hnext b m Hb Hm) as (N1 & N2 & N3 & N4). destruct (Next b) as [d b1]. cbn [fst snd] in *.
    specialize (IH b1 revs ltac:(rewrite N2, N3; done) (S m) ltac:(rewrite N2, N3; exact N4)).
    destruct (run_watcher b1 revs name script) as [[calls revs'] effs]. cbn [fst snd] in *. destruct i as [|i]; cbn [lookup list_lookup take].
    + intros [= <- <-]. split; [done|]. by rewrite N1.
    + intros Hi. destruct (IH i from delay Hi) as [I1 I2]. split; [done|]. cbn [foldl]. by rewrite N2, N3 in I2.
  - destruct i as [|i]; [|done]. intros [= <- <-]. done.
  - destruct (foldl _ (revs, []) evs) as [revs1 effs] eqn:Hf.
    specialize (IH (Reset_ b) revs1 Hb 0 eq_refl). destruct (run_watcher (Reset_ b) revs1 name script) as [[calls revs'] effs']. cbn [fst snd] in *.
    assert (∀ evs revs effs revs1 effs1,
      foldl (λ acc e, let '(revs, effs) := consume_event acc.1 name e.1.1 e.1.2 e.2 in (revs, acc.2 ++ effs)) (revs, effs) evs = (revs1, effs1) →
      revision_get revs1 name = foldl (λ rev e, if String.eqb (pe_Revision e.2) "" then rev else pe_Revision e.2) (revision_get revs name) evs) as Hrev.
    { clear. intros evs. induction evs as [|[[paused full] ev] evs IH]; intros revs effs revs1 effs1; [by intros [= <- _]|]. cbn [foldl fst snd].
      destruct (consume_event revs name paused full ev) as [revs2 effs2] eqn:Hc. intros Hf. rewrite (IH _ _ _ _ Hf). f_equal.
      assert (revs2 = revision_set revs name (pe_Revision ev)) as ->.
      { unfold consume_event in Hc. destruct paused; by simplify_eq. }
      unfold revision_set, revision_get. destruct (String.eqb _ _); [done|]. by rewrite lookup_insert_eq. }
    destruct i as [|i]; cbn [lookup list_lookup take].
    + intros [= <- <-]. done.
    + intros Hi. destruct (IH i from delay Hi) as [I1 I2]. split; [|done]. rewrite I1. unfold last_revision. cbn [foldl]. by rewrite (Hrev _ _ _ _ _ Hf).
Qed.

(** A subscription resumes and retries as documented. Each call of [Watch] asks
    for the last revision that an event carried, whatever happened in between; the
    delay after the k-th failure in a row is 250 ms doubled k times, at most 30 s,
    and a subscription that ended is renewed after 250 ms. *)
Theorem provider_resumes (name : string) (revs : gmap string string) (script : list watch_result) (i : nat) (from : string) (delay : option Z)
    (Hcall : (runProviderWatcher revs name script).1.1 !! i = Some (from, delay)) :
  from = last_revision (revision_get revs name) (take i script)
  ∧ match script !! i with
    | Some WatchError => delay = Some (Z.min (minDelay * 2 ^ Z.of_nat (consecutive_errors (take i script))) maxDelay)
    | Some (Events _) => delay = Some minDelay
    | _ => delay = None
    end.
Proof. apply (run_watcher_calls {| bo_Min := minDelay; bo_Max := maxDelay; bo_cur := 0 |} revs name script ltac:(done) 0 eq_refl i from delay Hcall). Qed.

(** The random part keeps a delay within half of it. *)
Lemma jitter_bounds d extra : (0 < d → 0 ≤ extra < jitter_range d → d ≤ jitter d extra ∧ 2 * jitter d extra ≤ 3 * d)%Z.
Proof. unfold jitter, jitter_range. intros Hd He. destruct (Z.leb_spec d 0); [lia|]. rewrite Z.quot_div_nonneg in He by lia. pose proof (Z.mul_div_le d 2). lia. Qed.

(** ** Examples *)

Lemma slot_no_lost_event_witness :
  let s := slot_event (slot_event (slot_event idle_slot false false "a") false false "b") false false "c" in
  ss_started s = [("a", 1)] ∧ length (ss_started s) ≤ length (ss_events s) ∧ ss_started (slot_returned (slot_returned s)) = [("a", 1); ("c", 3)].
Proof.
  set (s := slot_event _ _ _ _). assert (rtc slot_step idle_slot s) as Hs by (do 3 (eapply rtc_r; [|apply step_event]); apply rtc_refl).
  destruct (slot_no_lost_event s Hs) as (_ & _ & Hc & _). split_and!; [reflexivity|exact Hc|reflexivity].
Defined.

Lemma provider_resumes_witness :
  let script := [WatchError; WatchError; Events [(false, false, {| pe_Reason := "poll"; pe_Revision := "7"; pe_Gap := false |})]; WatchError] in
  (runProviderWatcher ∅ "kv" script).1.1 = [("", Some 250000000%Z); ("", Some 500000000%Z); ("", Some 250000000%Z); ("7", Some 250000000%Z)]
  ∧ "7" = last_revision "" (take 3 script).
Proof.
  intros script. split; [vm_compute; reflexivity|].
  apply (provider_resumes "kv" ∅ script 3 "7" (Some 250000000%Z)). vm_compute. reflexivity.
Defined.

Example watch_dir_example :
  watchDir (λ _ p, String.eqb p "/etc") 0 "/etc/app/conf.d" = ("/etc", 3) ∧ watchDir (λ _ _, false) 5 "a/b" = (".", 8) ∧ filepath_Base "/x/..data" = "..data".
Proof. vm_compute. repeat split. Qed.

(** A directory and one inside it appear while the watcher looks. *)
Definition example_tree (t : nat) (p : string) : bool :=
  String.eqb p "/" || String.eqb p "/a" || String.eqb p "/a/b" && (2 <? t).
Definition example_watcher : Watcher := {| w_want := {["/a/b/c"]}; w_dirs := {["/"]}; w_closed := false |}.
Definition example_create : Event := {| ev_Op := op_Create; ev_Name := "/a" |}.

Lemma watches_follow_directories_witness :
  ∃ w' t' t0, track example_tree (λ _ _, true) 4 example_watcher 0 example_create = Some (w', t')
    ∧ looked_up example_tree (λ _ _, true) w' t0 t' "/a/b/c" ∧ w_dirs w' = {["/"; "/a"; "/a/b"]}.
Proof.
  destruct (track example_tree (λ _ _, true) 4 example_watcher 0 example_create) as [[w' t']|] eqn:Ht;
    [|vm_compute in Ht; discriminate Ht].
  destruct (watches_follow_directories example_tree (λ _ _, true) example_watcher 0 example_create) as [Hc _].
  destruct (Hc 4 w' t' Ht) as [Hh _]. destruct Hh as (_ & t0 & _ & _ & Hl & _).
  { split; [reflexivity|]. split; reflexivity. }
  exists w', t', t0. split; [reflexivity|]. split; [apply Hl; unfold example_watcher; cbn [w_want]; apply elem_of_singleton_2; reflexivity|].
  vm_compute in Ht. injection Ht as <- _. vm_compute. reflexivity.
Defined.
