(* ===== verification/StateView.v ===== *)
(** * Views of a state (state.go, dump.go, decode.go)

    What a published state shows: its JSON tree, masked or not, the origins of a
    path, and the dumps.  The Go type of the configuration is an entry of the
    table of types; encoding the value as a JSON tree, and the JSON, TOML and YAML
    encoders, are parameters. *)
From S2P Require Import Prelude GoStrings Value Merge Secret Provenance TypeInfo SecretPlan.
From Stdlib Require Import Ascii.
Open Scope nat_scope.

Definition Redactor : Type := string → value → value.

(** The fields of a [State] that its views read; [vw_jsonTree] is the cache. *)
Record State (T : Type) := {
  vw_value : option T;
  vw_origins : option Index;
  vw_redactor : option Redactor;
  vw_secretPatterns : list string;
  vw_jsonTree : option gomap;
}.
Arguments Build_State {T} _ _ _ _ _.
Arguments vw_value {T} _.
Arguments vw_origins {T} _.
Arguments vw_redactor {T} _.
Arguments vw_secretPatterns {T} _.
Arguments vw_jsonTree {T} _.

Inductive Format := YAML | JSON | TOML | OtherFormat (n : nat).

Definition Format_String (f : Format) : string :=
  match f with YAML => "yaml" | JSON => "json" | TOML => "toml" | OtherFormat n => "format(" +:+ itoa n +:+ ")" end.

(** ** TOML (dump.go) *)

(** A tree for the TOML encoder: numbers keep their JSON text. *)
Inductive tomlv := TNumber (lit : string) | TMap (m : gmap string tomlv) | TSlice (l : list tomlv) | TOther (v : value).

Definition toml_child (path k : string) : string := if String.eqb path "" then k else path +:+ "." +:+ k.
Definition toml_item (path : string) (i : nat) : string := path +:+ "[" +:+ itoa i +:+ "]".

(** An error names the path of a null. *)
Fixpoint tomlValue (path : string) (v : value) : result string tomlv :=
  match v with
  | VNil => Err path
  | VNumber lit => Ok (TNumber lit)
  | VMap m =>
      TMap <$> map_fold (λ k x acc,
        match x with
        | VNil => acc
        | _ => out ← acc; c ← tomlValue (toml_child path k) x; Ok (<[k := c]> out)
        end) (Ok ∅) m
  | VNilMap => Ok (TMap ∅)
  | VSlice l =>
      TSlice <$> (fix items i l := match l with
                                   | [] => Ok []
                                   | x :: l => c ← tomlValue (toml_item path i) x; cs ← items (S i) l; Ok (c :: cs)
                                   end) 0 l
  | VNilSlice => Ok (TSlice [])
  | _ => Ok (TOther v)
  end.

(** ** YAML (dump.go) *)

(** A [yaml.Node]; [YEncoded] is what [Node.Encode] makes of another value. *)
Inductive ynode := YScalar (tag lit : string) | YMapping (l : list (string * ynode)) | YSequence (l : list ynode) | YEncoded (v : value).

Definition is_float_text (lit : string) : bool := ContainsAny lit ".eE".

Fixpoint sortedYAMLNode (v : value) : ynode :=
  match v with
  | VNumber lit => YScalar (if is_float_text lit then "!!float" else "!!int") lit
  | VMap m =>
      let sub := sortedYAMLNode <$> m in
      YMapping (omap (λ k, (λ n, (k, n)) <$> sub !! k) (sort_strings (map_to_list m).*1))
  | VSlice l => YSequence (sortedYAMLNode <$> l)
  | VNilMap | VNilSlice => YEncoded VNil
  | _ => YEncoded v
  end.

Section views.
Context `{GoStd} {T : Type}.
Context (unicode_name : string → bool) (fold_unicode : string → string → bool) (types : list gotype).
(** [reflect.TypeFor[T]], and the type of a value, which is another one when T is an interface. *)
Context (static_type : nat) (dynamic_type : T → nat).
(** [encodeJSONTree]. *)
Context (encode_tree : T → result string gomap).

Definition displayRedactor (s : option (State T)) : Redactor :=
  match s with
  | Some s => match vw_redactor s with Some r => r | None => DefaultRedactor end
  | None => DefaultRedactor
  end.

(** The state with its cache filled, and the tree. *)
Definition cachedJSONTree (s : State T) : State T * result string gomap :=
  match vw_value s with
  | None => (s, Ok None)
  | Some v =>
      match vw_jsonTree s with
      | Some tree => (s, Ok tree)
      | None =>
          match encode_tree v with
          | Err e => (s, Err e)
          | Ok tree => (Build_State (vw_value s) (vw_origins s) (vw_redactor s) (vw_secretPatterns s) (Some tree), Ok tree)
          end
      end
  end.

Definition viewTree (s : option (State T)) (redactor : option Redactor) : option (State T) * result string gomap :=
  match s with
  | None => (None, Ok None)
  | Some s =>
      let '(s', r) := cachedJSONTree s in
      (Some s',
       raw ← r;
       match redactor, vw_value s with
       | Some redactor, Some v =>
           let t := if Nat.eqb (dynamic_type v) static_type then static_type else dynamic_type v in
           Ok (Plan_Apply unicode_name types redactor t (compilePatterns (vw_secretPatterns s)) raw)
       | _, _ => Ok raw
       end)
  end.

(** [Map], and [Unredacted().Map]; an error gives a nil map. *)
Definition view_or_nil (r : result string gomap) : gomap := match r with Ok m => m | Err _ => None end.
Definition Map (s : option (State T)) : gomap := view_or_nil (viewTree s (Some (displayRedactor s))).2.
Definition Unredacted_Map (s : option (State T)) : gomap := view_or_nil (viewTree s None).2.

(** [Explain]. *)
Definition mask_origin (s : State T) (path : string) (o : Origin) : Origin :=
  match o_Value o with
  | VNil => o
  | v =>
      if PathHasSecrets fold_unicode types static_type path || matchesValue (compilePatterns (vw_secretPatterns s)) v path
      then {| o_Path := o_Path o; o_Source := o_Source o; o_Value := displayRedactor (Some s) path v |} else o
  end.

Definition State_Explain (s : option (State T)) (path : string) : list Origin :=
  match s with None => [] | Some s => mask_origin s path <$> Explain (vw_origins s) path end.

(** [dumpState]. *)
Inductive dump_error := ErrView (e : string) | ErrTomlNull (path : string) | ErrTomlNumber (lit : string) | ErrUnknownFormat (name : string) | ErrEncode (e : string).

Context (marshal_indent : value → result string string) (toml_encode : tomlv → result string string) (yaml_marshal : ynode → result string string).

Definition dumpState (s : option (State T)) (format : Format) (redactor : option Redactor) : result dump_error string :=
  tree ← map_err ErrView (viewTree s redactor).2;
  let tree := VMap (default ∅ tree) in
  match format with
  | JSON => map_err ErrEncode (marshal_indent tree)
  | TOML => v ← map_err ErrTomlNull (tomlValue "" tree); map_err ErrEncode (toml_encode v)
  | YAML => map_err ErrEncode (yaml_marshal (sortedYAMLNode tree))
  | OtherFormat _ => Err (ErrUnknownFormat (Format_String format))
  end.

Definition Dump (s : option (State T)) (format : Format) : result dump_error string := dumpState s format (Some (displayRedactor s)).
Definition Unredacted_Dump (s : option (State T)) (format : Format) : result dump_error string := dumpState s format None.
End views.

(** [tomlNumber.MarshalTOML]: the text of a number that fits a float or an int64. *)
Definition MarshalTOML `{GoStd} (lit : string) : option string :=
  if is_float_text lit then _ ← go_parse_float lit; Some lit else _ ← ParseInt lit 64; Some lit.

(** ** Warnings (decode.go) *)

(** [warnIfYAMLOnlyTags]: whether the warning is logged. *)
Definition warnIfYAMLOnlyTags (unicode_name : string → bool) (types : list gotype) (t : nat) : bool :=
  bool_decide (Kind types (deref types t) = KindStruct)
  && let fields := fst <$> StructFields unicode_name types t {| EmbedJSON := false; EmbedYAML := false |} in
     let has key := existsb (λ f, negb (String.eqb (f_Tag f key) "")) fields in
     negb (has "json") && has "yaml".

(** [warnUnknownField]: the last message, and whether this one is logged. *)
Definition warnUnknownField (last : option string) (msg : string) : option string * bool :=
  if bool_decide (last = Some msg) then (last, false) else (Some msg, true).

(** ** Lemmas: TOML *)

(** A null that TOML cannot show: the value itself, or one in an array; nulls of a
    map are left out. *)
Inductive null_at : string → value → string → Prop :=
  | null_here path : null_at path VNil path
  | null_in_map path m k x p : m !! k = Some x → x ≠ VNil → null_at (toml_child path k) x p → null_at path (VMap m) p
  | null_in_list path l i x p : l !! i = Some x → null_at (toml_item path i) x p → null_at path (VSlice l) p.

Lemma null_at_nil path p : null_at path VNil p → p = path.
Proof. by inversion 1. Qed.

(** The outcome of a conversion. *)
Definition toml_outcome (path : string) (v : value) (r : result string tomlv) : Prop :=
  match r with Ok _ => ∀ p, ¬ null_at path v p | Err p => null_at path v p end.

Lemma tomlValue_spec path v : toml_outcome path v (tomlValue path v).
Proof.
  revert path. induction v as [m IH|l IH|v Hm Hs] using value_tree_ind; intros path.
  - cbn [tomlValue]. set (step := λ (k : string) (x : value) (acc : result string (gmap string tomlv)), _).
    assert (∀ m', m' ⊆ m → match map_fold step (Ok ∅) m' with
      | Ok _ => ∀ k x p, m' !! k = Some x → x ≠ VNil → ¬ null_at (toml_child path k) x p
      | Err p => ∃ k x, m' !! k = Some x ∧ x ≠ VNil ∧ null_at (toml_child path k) x p
      end) as Hfold.
    { intros m'. apply (map_fold_weak_ind (λ r m', m' ⊆ m → match r with
        | Ok _ => ∀ k x p, m' !! k = Some x → x ≠ VNil → ¬ null_at (toml_child path k) x p
        | Err p => ∃ k x, m' !! k = Some x ∧ x ≠ VNil ∧ null_at (toml_child path k) x p
        end)); [by intros _ k x p; rewrite lookup_empty|].
      intros k x m1 acc Hk IHacc Hsub. assert (m1 ⊆ m) as Hm1 by (etrans; [apply insert_subseteq; exact Hk|exact Hsub]). specialize (IHacc Hm1).
      assert (m !! k = Some x) as Hmk by (eapply lookup_weaken; [|exact Hsub]; apply lookup_insert_eq).
      assert (∀ k' x', m1 !! k' = Some x' → <[k := x]> m1 !! k' = Some x') as Hext.
      { intros k' x' Hk'. rewrite lookup_insert_ne; [done|]. intros ->. congruence. }
      assert (∀ k' x', <[k := x]> m1 !! k' = Some x' → k' = k ∧ x' = x ∨ m1 !! k' = Some x') as Hinv.
      { intros k' x'. rewrite lookup_insert. destruct (decide (k = k')) as [->|]; [intros [= ->]; by left|by right]. }
      destruct (decide (x = VNil)) as [->|Hx].
      { unfold step. destruct acc as [out|p].
        - intros k' x' p [[-> ->]|Hk']%Hinv Hne; [done|by eapply IHacc].
        - destruct IHacc as (k' & x' & Hk' & ? & ?). exists k', x'. eauto. }
      assert (step k x acc = (out ← acc; c ← tomlValue (toml_child path k) x; Ok (<[k := c]> out))) as -> by (by destruct x).
      destruct acc as [out|p]; cbn [mbind result_bind].
      2:{ destruct IHacc as (k' & x' & Hk' & ? & ?). exists k', x'. eauto. }
      pose proof (IH k x Hmk (toml_child path k)) as Hout. destruct (tomlValue (toml_child path k) x) as [c|p]; cbn [mbind result_bind toml_outcome] in *.
      - intros k' x' p [[-> ->]|Hk']%Hinv Hne; [apply Hout|by eapply IHacc].
      - exists k, x. split; [apply lookup_insert_eq|done]. }
    specialize (Hfold m ltac:(done)). destruct (map_fold step (Ok ∅) m) as [out|p]; cbn [fmap result_fmap toml_outcome].
    + intros p Hn. inversion Hn; subst. by eapply Hfold.
    + destruct Hfold as (k & x & Hk & Hx & Hn). by eapply null_in_map.
  - cbn [tomlValue]. match goal with |- context [TSlice <$> ?f 0 l] => set (items := f) end.
    assert (∀ l' i, Forall (λ v, ∀ path, toml_outcome path v (tomlValue path v)) l' → match items i l' with
      | Ok _ => ∀ j x p, l' !! j = Some x → ¬ null_at (toml_item path (i + j)) x p
      | Err p => ∃ j x, l' !! j = Some x ∧ null_at (toml_item path (i + j)) x p
      end) as Hitems.
    { intros l'. induction l' as [|x l' IHl]; intros i Hall; [done|]. apply Forall_cons in Hall as [Hx Hall]. cbn [items].
 specialize (Hx (toml_item path i)). specialize (IHl (S i) Hall).
      destruct (tomlValue (toml_item path i) x) as [c|p]; cbn [mbind result_bind toml_outcome] in *.
      2:{ exists 0, x. by rewrite Nat.add_0_r. }
      destruct (items (S i) l') as [cs|p]; cbn [mbind result_bind].
      - intros [|j] y p Hj; [simplify_eq/=; rewrite Nat.add_0_r; apply Hx|]. rewrite Nat.add_succ_r. by apply IHl.
      - destruct IHl as (j & y & Hj & Hn). exists (S j), y. by rewrite Nat.add_succ_r. }
    specialize (Hitems l 0 IH). destruct (items 0 l) as [cs|p]; cbn [fmap result_fmap toml_outcome].
    + intros p Hn. inversion Hn; subst. by eapply Hitems.
    + destruct Hitems as (j & x & Hj & Hn). by eapply null_in_list.
  - destruct v; simpl in *; try (by intros p Hn; inversion Hn); try (by destruct Hm); try (by destruct Hs). constructor.
Qed.

(** A state is shown as TOML unless an array holds a null. The conversion fails
    exactly when the tree holds a null inside an array (or is one), also through
    maps, and the error names the path of such a null; nulls that are entries of a
    map are left out. *)
Theorem toml_nulls (path : string) (v : value) :
  (is_Ok (tomlValue path v) = true ↔ ∀ p, ¬ null_at path v p)
  ∧ (∀ p, tomlValue path v = Err p → null_at path v p).
Proof.
  pose proof (tomlValue_spec path v) as Hs. destruct (tomlValue path v) as [t|p]; simpl in *.
  - split; [split; [done|done]|done].
  - split; [|by intros ? [= <-]]. split; [done|]. intros Hall. by destruct (Hall p).
Qed.

(** ** Lemmas: YAML *)

(** Reading a node back; [decode] reads a scalar that [Node.Encode] wrote. *)
Fixpoint read_node (decode : value → value) (n : ynode) : value :=
  match n with
  | YScalar _ lit => VNumber lit
  | YMapping l => VMap (list_to_map ((λ e, (e.1, read_node decode e.2)) <$> l))
  | YSequence l => VSlice (read_node decode <$> l)
  | YEncoded v => decode v
  end.

Fixpoint nil_containers_to_null (v : value) : value :=
  match v with
  | VMap m => VMap (nil_containers_to_null <$> m)
  | VSlice l => VSlice (nil_containers_to_null <$> l)
  | VNilMap | VNilSlice => VNil
  | _ => v
  end.

Fixpoint keys_sorted (n : ynode) : Prop :=
  match n with
  | YMapping l => StronglySorted (λ a b, str_leb a b = true) l.*1 ∧ NoDup l.*1 ∧ foldr (λ e P, keys_sorted e.2 ∧ P) True l
  | YSequence l => foldr (λ x P, keys_sorted x ∧ P) True l
  | _ => True
  end.

Lemma keys_of_sub (m : gmap string value) :
  omap (λ k, (λ n, (k, n)) <$> (sortedYAMLNode <$> m) !! k) (sort_strings (map_to_list m).*1)
  = (λ k, (k, sortedYAMLNode (default VNil (m !! k)))) <$> sort_strings (map_to_list m).*1.
Proof.
  assert (∀ k, k ∈ sort_strings (map_to_list m).*1 → is_Some (m !! k)) as Hin.
  { intros k. unfold sort_strings. rewrite sort_stable_perm. intros ([k' x] & -> & Hx%elem_of_map_to_list)%list_elem_of_fmap. by exists x. }
  revert Hin. generalize (sort_strings (map_to_list m).*1). intros l. induction l as [|k l IH]; intros Hin; [done|]. simpl.
  destruct (Hin k ltac:(left)) as [x Hx]. rewrite lookup_fmap, Hx. simpl. f_equal. apply IH. intros k' Hk'. apply Hin. by right.
Qed.

Lemma yaml_roundtrip_lemma decode (Hdecode : ∀ v, as_map v = None → as_slice v = None → decode v = v) v :
  read_node decode (sortedYAMLNode v) = nil_containers_to_null v ∧ keys_sorted (sortedYAMLNode v).
Proof.
  induction v as [m IH|l IH|v Hm Hs] using value_tree_ind.
  - cbn [sortedYAMLNode]. rewrite keys_of_sub. set (ks := sort_strings (map_to_list m).*1).
    assert (ks ≡ₚ (map_to_list m).*1) as Hperm by (unfold ks, sort_strings; apply sort_stable_perm).
    assert (NoDup ks) as Hnd by (rewrite Hperm; apply NoDup_fst_map_to_list).
    assert (∀ k, k ∈ ks ↔ is_Some (m !! k)) as Hks.
    { intros k. rewrite Hperm. split.
      - intros ([k' x] & -> & Hx%elem_of_map_to_list)%list_elem_of_fmap. by exists x.
      - intros [x Hx]. apply list_elem_of_fmap. exists (k, x). split; [done|]. by apply elem_of_map_to_list. }
    assert (((λ k, (k, sortedYAMLNode (default VNil (m !! k)))) <$> ks).*1 = ks) as Hfst by (rewrite <-list_fmap_compose; apply list_fmap_id).
    split.
    + cbn [read_node nil_containers_to_null]. f_equal. apply map_eq. intros k. rewrite lookup_fmap, <-list_fmap_compose. simpl.
      destruct (m !! k) as [x|] eqn:Hk; simpl.
      * apply elem_of_list_to_map_1.
        -- rewrite <-list_fmap_compose. simpl. by rewrite list_fmap_id.
        -- apply list_elem_of_fmap. exists k. split; [|apply Hks; by exists x]. simpl. rewrite Hk. simpl. by rewrite (proj1 (IH k x Hk)).
      * apply not_elem_of_list_to_map_1. rewrite <-list_fmap_compose. simpl. rewrite list_fmap_id, Hks. rewrite Hk. by intros [].
    + cbn [keys_sorted]. rewrite Hfst. split_and!.
      * unfold ks, sort_strings. apply sort_stable_sorted; [apply str_leb_total|apply str_leb_trans].
      * done.
      * clear Hfst Hperm Hnd. assert (∀ k, k ∈ ks → is_Some (m !! k)) as Hin by (intros k; apply Hks). clear Hks. revert Hin.
        induction ks as [|k ks' IHks]; intros Hin; [done|]. simpl. split; [|apply IHks; intros k' Hk'; apply Hin; by right].
        destruct (Hin k ltac:(left)) as [x Hx]. rewrite Hx. simpl. by apply (IH k x Hx).
  - cbn [sortedYAMLNode read_node nil_containers_to_null keys_sorted]. split.
    + f_equal. rewrite <-list_fmap_compose. apply list_fmap_ext. intros i x Hx. rewrite Forall_lookup in IH. by apply (IH i x Hx).
    + induction IH as [|x l [_ Hx] _ IHl]; [done|]. by split.
  - destruct v; simpl in *; try (by destruct Hm as [?|?]); try (by destruct Hs as [?|?]); (split; [|done]); try (by apply Hdecode); by rewrite Hdecode.
Qed.

(** YAML dumps are faithful and deterministic. The keys of every mapping are in
    order without repetition, and reading the nodes back gives the tree, with nil
    containers as nulls and numbers with their text, for any decoder that reads
    back the scalars. *)
Theorem yaml_node_roundtrip (decode : value → value) (v : value)
    (Hdecode : ∀ v, as_map v = None → as_slice v = None → decode v = v) :
  read_node decode (sortedYAMLNode v) = nil_containers_to_null v ∧ keys_sorted (sortedYAMLNode v).
Proof. by apply yaml_roundtrip_lemma. Qed.

(** ** What a view shows *)

Section view_facts.
Context `{GoStd} {T : Type}.
Context (unicode_name : string → bool) (fold_unicode : string → string → bool) (types : list gotype).
Context (static_type : nat) (dynamic_type : T → nat) (encode_tree : T → result string gomap).

Notation viewTree := (viewTree unicode_name types static_type dynamic_type encode_tree).
Notation State_Explain := (@State_Explain _ T fold_unicode types static_type).

(** The cache of a state holds the tree of its value. *)
Definition cache_ok (s : State T) : Prop := ∀ v tree, vw_value s = Some v → vw_jsonTree s = Some tree → encode_tree v = Ok tree.

(** The cache changes no view, and stays right. *)
Lemma cachedJSONTree_transparent s : cache_ok s →
  cache_ok (cachedJSONTree encode_tree s).1
  ∧ (cachedJSONTree encode_tree s).2 = match vw_value s with None => Ok None | Some v => encode_tree v end.
Proof.
  intros Hc. unfold cachedJSONTree. destruct (vw_value s) as [v|] eqn:Hv; [|done]. destruct (vw_jsonTree s) as [tree|] eqn:Ht; [by rewrite (Hc v tree)|].
  destruct (encode_tree v) as [tree|e] eqn:He; [|done]. split; [|done]. intros v' tree' Hv' Ht'. simpl in *. congruence.
Qed.

(** The origins of a path that is secret are masked. *)
Lemma mask_origin_secret (s : State T) path o :
  PathHasSecrets fold_unicode types static_type path = true ∨ matchesValue (compilePatterns (vw_secretPatterns s)) (o_Value o) path = true →
  o_Value (mask_origin fold_unicode types static_type s path o) = match o_Value o with VNil => VNil | v => displayRedactor (Some s) path v end.
Proof.
  intros Hs. unfold mask_origin. destruct (o_Value o) eqn:Ho; try done; destruct Hs as [-> | ->]; rewrite ?orb_true_r; done.
Qed.
End view_facts.

(** [Explain] shows no secret. If the keys of some input lead to a secret of the
    configuration type, or pass through a node that a secret pattern hides, every
    origin recorded under their dotted path is shown with its value masked by the
    redactor, if it has one; the layers and their order are those recorded. *)
Theorem explain_hides_secrets `{GoStd} {T : Type} (fold_unicode : string → string → bool) (types : list gotype) (static_type : nat)
    (s : State T) (keys : list string)
    (fold_dot : ∀ a b, fold_unicode a b = true → no_byte "." b = true → no_byte "." a = true)
    (names_plain : ∀ t f name, f ∈ ty_Fields (type_at types t) → name ∈ fn_InputAliases (FieldNamesOf f) → no_byte "." name = true)
    (Hsecret : leads_to_secret types fold_unicode (deref types static_type) keys
               ∨ ∃ hidden rest, keys = hidden ++ rest ∧ hidden ≠ [] ∧ pattern_hit (pp_tree (compilePatterns (vw_secretPatterns s))) hidden = true) :
  let path := strings_Join keys "." in
  (λ o, (o_Source o, o_Value o)) <$> State_Explain fold_unicode types static_type (Some s) path
  = (λ o, (o_Source o, match o_Value o with VNil => VNil | v => displayRedactor (Some s) path v end)) <$> Explain (vw_origins s) path.
Proof.
  intros path. unfold State_Explain. rewrite <-list_fmap_compose. apply list_fmap_ext. intros i o _. simpl.
  f_equal; [unfold mask_origin; destruct (o_Value o); try done; by destruct (_ || _)|]. apply mask_origin_secret.
  destruct Hsecret as [Hl|(hidden & rest & -> & Hne & Hhit)].
  - left. unfold PathHasSecrets. rewrite Nat.add_succ_r. apply pathHasSecrets_complete; [done..|].
    pose proof (path_fuel_ge types (deref types static_type) path). unfold path in *. lia.
  - right. by apply provenance_covers_tree.
Qed.

Definition example_state : State value :=
  {| vw_value := None;
     vw_origins := RecordTree (NewIndex Full) "" (Some {["next" := VMap {["PASS" := VString "hunter2"]}]})
       {| sr_Path := "base.yaml"; sr_Kind := LayerMerge; sr_Profile := ""; sr_Priority := 0; sr_Codec := ""; sr_Revision := ""; sr_Stale := false |};
     vw_redactor := None; vw_secretPatterns := ["next.*"]; vw_jsonTree := None |}.

Lemma explain_hides_secrets_witness :
  o_Value <$> @State_Explain example_std value (λ _ _, false) [] 0 (Some example_state) (strings_Join ["next"; "PASS"] ".") = [VString "***REDACTED***"].
Proof.
  assert (pattern_hit (pp_tree (compilePatterns ["next.*"])) ["next"; "PASS"] = true) as Hhit by (vm_compute; reflexivity).
  assert (∀ a b : string, (λ _ _ : string, false) a b = true → no_byte "." b = true → no_byte "." a = true) as Hdot by (intros a b Hf; discriminate Hf).
  assert (∀ t f name, f ∈ ty_Fields (type_at [] t) → name ∈ fn_InputAliases (@FieldNamesOf example_std f) → no_byte "." name = true) as Hnames.
  { intros t f name Hf. exfalso. exact (not_elem_of_nil _ Hf). }
  assert (∃ hidden rest, ["next"; "PASS"] = hidden ++ rest ∧ hidden ≠ []
    ∧ pattern_hit (pp_tree (compilePatterns (vw_secretPatterns example_state))) hidden = true) as Hsecret.
  { exists ["next"; "PASS"], []. split; [reflexivity|split; [discriminate|exact Hhit]]. }
  pose proof (@explain_hides_secrets example_std value (λ _ _, false) [] 0 example_state ["next"; "PASS"] Hdot Hnames (or_intror Hsecret)) as Ht.
  cbn zeta in Ht. apply (f_equal (fmap snd)) in Ht. rewrite <-!list_fmap_compose in Ht.
  etransitivity; [exact Ht|]. vm_compute. reflexivity.
Defined.

Lemma yaml_node_roundtrip_witness :
  let v := VMap {["b" := VNumber "1.50"; "a" := VSlice [VBool true; VNilMap]]} in
  sortedYAMLNode v = YMapping [("a", YSequence [YEncoded (VBool true); YEncoded VNil]); ("b", YScalar "!!float" "1.50")]
  ∧ read_node id (sortedYAMLNode v) = nil_containers_to_null v.
Proof. intros v. split; [vm_compute; reflexivity|]. apply yaml_node_roundtrip. reflexivity. Defined.

Example toml_null_example :
  tomlValue "" (VMap {["a" := VNil; "b" := VSlice [VNumber "1"; VMap {["c" := VSlice [VNil]]}]]}) = Err "b[1].c[0]"
  ∧ is_Ok (tomlValue "" (VMap {["a" := VNil; "b" := VSlice [VNumber "1"]]})) = true.
Proof. vm_compute. split; reflexivity. Qed.
