(* ===== verification/Codecs.v ===== *)
(** * Document decoders (codec/builtin.go, codec/ini.go, codec/decoder.go, providers/source/snapshot.go)

    The YAML, JSON, TOML and INI decoders.  The libraries that parse the text are
    parameters: a YAML or JSON decoder is the list of the outcomes of its
    successive [Decode] calls up to the end of the stream, [yaml.Unmarshal] and
    [toml.Unmarshal] return one tree, and [ini.LoadSources] the sections of a file
    with their own keys in order. *)
From S2P Require Import Prelude GoStrings Value Options CodecRegistry Assemble.
From Stdlib Require Import Ascii.
Open Scope nat_scope.

(** A tree as a decoder library returns it: beside the shapes of a value it may
    hold a [map[any]any], listed here in the order a [range] meets its entries,
    each with [fmt.Sprint] of its key, and a [[]map[string]any].  [RLeaf] is
    any other value, typed nil containers included. *)
Inductive raw :=
| RLeaf (v : value)
| RMap (m : gmap string raw)
| RAnyMap (l : list (string * raw))
| RMapSlice (l : list (option (gmap string raw)))
| RSlice (l : list raw).

Fixpoint normalizeValue (v : raw) : value :=
  match v with
  | RLeaf v => v
  | RMap m => VMap (normalizeValue <$> m)
  | RAnyMap l => VMap (foldl (λ out e, <[e.1 := normalizeValue e.2]> out) ∅ l)
  | RMapSlice l => VSlice ((λ o, match o with Some m => VMap (normalizeValue <$> m) | None => VNilMap end) <$> l)
  | RSlice l => VSlice (normalizeValue <$> l)
  end.

(** [normalize], on the map behind a [raw.(map[string]any)] assertion. *)
Definition normalize (v : raw) : option gomap :=
  match v with
  | RMap m => Some (Some (normalizeValue <$> m))
  | RLeaf v => as_map v
  | _ => None
  end.

Definition is_nil (v : raw) : bool := match v with RLeaf VNil => true | _ => false end.

(** The errors of the decoders; [f] is the prefix of the message. *)
Inductive decode_error :=
| ErrParse (f : string) (e : string)
| ErrTrailing (f : string) (e : string)
| ErrMultiple (f : string)
| ErrTopLevel (f : string)
| ErrSection (name : string)
| ErrUnknownCodec (name : string).

(** The outcomes of the [Decode] calls on a stream, before its end. *)
Notation stream A := (list (result string A)).

Section decoders.
Context (yaml_Unmarshal : string → result string raw) (yaml_stream : string → stream raw)
  (json_stream : string → stream value) (toml_Unmarshal : string → result string raw)
  (ini_LoadSources : string → result string (list (string * list (string * string)))).

(** ** YAML *)

Definition hasYAMLDocumentBoundary (data : string) : bool :=
  HasPrefix data "---" || HasPrefix data "..."
  || (strings_Contains data (bytes [10] +:+ "---") || strings_Contains data (bytes [10] +:+ "...")).

Fixpoint rejectExtraYAMLDocuments (dec : stream raw) : option decode_error :=
  match dec with
  | [] => None
  | Err e :: _ => Some (ErrTrailing "yaml" e)
  | Ok extra :: dec => if is_nil extra then rejectExtraYAMLDocuments dec else Some (ErrMultiple "yaml")
  end.

Definition decodeSingleYAMLDocument (data : string) : result decode_error raw :=
  if hasYAMLDocumentBoundary data then
    match yaml_stream data with
    | [] => Ok (RLeaf VNil)
    | Err e :: _ => Err (ErrParse "yaml" e)
    | Ok v :: dec => match rejectExtraYAMLDocuments dec with Some e => Err e | None => Ok v end
    end
  else map_err (ErrParse "yaml") (yaml_Unmarshal data).

Definition yaml_Decode (data : string) : result decode_error gomap :=
  if String.eqb (TrimSpace data) "" then Ok (Some ∅) else
  v ← decodeSingleYAMLDocument data;
  if is_nil v then Ok (Some ∅) else of_option (ErrTopLevel "yaml") (normalize v).

(** ** JSON *)

Definition json_document (data : string) : result decode_error value :=
  match json_stream data with
  | [] => Err (ErrParse "json" "EOF")
  | Err e :: _ => Err (ErrParse "json" e)
  | [Ok v] => Ok v
  | Ok _ :: Ok _ :: _ => Err (ErrMultiple "json")
  | Ok _ :: Err e :: _ => Err (ErrTrailing "json" e)
  end.

Definition json_Decode (data : string) : result decode_error gomap :=
  if String.eqb data "" then Ok (Some ∅) else
  v ← json_document data;
  match v with VNil => Ok (Some ∅) | _ => of_option (ErrTopLevel "json") (as_map v) end.

(** ** TOML *)

Definition toml_Decode (data : string) : result decode_error gomap :=
  if String.eqb data "" then Ok (Some ∅) else
  v ← map_err (ErrParse "toml") (toml_Unmarshal data);
  of_option (ErrTopLevel "toml") (normalize v).

(** ** INI *)

Definition DefaultSection : string := "DEFAULT".

Definition section_map (keys : list (string * string)) (target : gmap string value) : gmap string value :=
  foldl (λ out k, <[k.1 := VString k.2]> out) target keys.

Definition ini_section (out : gmap string value) (s : string * list (string * string)) : result decode_error (gmap string value) :=
  if String.eqb s.1 DefaultSection then Ok (section_map s.2 out)
  else match out !! s.1 with
       | Some _ => Err (ErrSection s.1)
       | None => Ok (<[s.1 := VMap (section_map s.2 ∅)]> out)
       end.

Definition ini_Decode (data : string) : result decode_error gomap :=
  if String.eqb data "" then Ok (Some ∅) else
  file ← map_err (ErrParse "ini") (ini_LoadSources data);
  Some <$> foldM ini_section ∅ file.

(** ** Lookup (decoder.go) *)

Section lookup.
Context `{GoStd}.
Notation decoder := (string → result decode_error gomap).

Definition builtin_registry : registry decoder := init_registry yaml_Decode json_Decode toml_Decode ini_Decode.

Definition For (r : registry decoder) (codec : string) : result decode_error decoder :=
  of_option (ErrUnknownCodec codec) (Lookup r codec).

Definition DecodeAny (codec data : string) : result decode_error value :=
  if String.eqb (TrimSpace data) "" then Ok VNil else
  let name := ToLower codec in
  if String.eqb name "yaml" || String.eqb name "yml" then normalizeValue <$> decodeSingleYAMLDocument data
  else if String.eqb name "json" then json_document data
  else Err (ErrUnknownCodec codec).

(** The document of a source provider (providers/source/snapshot.go): what was
    read, or the error of reading, with its content type and revision. *)
Inductive source_error := ErrRead (e : string) | ErrContentType (name ct : string) | ErrDecode (e : decode_error).

Definition snapshotFrom (r : registry decoder) (name ct rev : string) (data : result string string)
    : result source_error (gomap * string) :=
  data ← map_err ErrRead data;
  if String.eqb data "" then Ok (Some ∅, rev) else
  c ← of_option (ErrContentType name ct) (ByContentType r ct);
  m ← map_err ErrDecode (c data);
  Ok (m, rev).

(** What assembly uses of the registry and the decoders; [text] prints an error. *)
Definition registry_codecs (r : registry decoder) (text : decode_error → string)
    (patch_bytes : value → result string (option string)) (meta_match : string → option string)
    (meta : string → option Scan.MetaSpec) : Codecs := {|
  codec_For name := (λ (c : decoder) data, map_err text (c data)) <$> Lookup r name;
  codec_DecodeAny name data := map_err text (DecodeAny name data);
  codec_PatchBytes := patch_bytes;
  codec_LookupExt := LookupExt r;
  codec_Generation := generation r;
  yaml_match := meta_match;
  yaml_meta := meta;
|}.
End lookup.
End decoders.

(** ** Line starts of a YAML text *)

(** A document marker at the start of a text. *)
Definition marker (s : string) : bool := HasPrefix s "---" || HasPrefix s "...".

(** What follows each occurrence of a line break. *)
Fixpoint line_starts (breaks : list string) (s : string) : list string :=
  ((λ b, str_drop (String.length b) s) <$> filter (λ b, String.prefix b s = true) breaks)
  ++ match s with "" => [] | String _ s' => line_starts breaks s' end.

(** YAML 1.1 ends a line at LF, and at CR, NEL, LS and PS. *)
Definition line_feed : string := bytes [10].
Definition other_breaks : list string := [bytes [13]; bytes [194; 133]; bytes [226; 128; 168]; bytes [226; 128; 169]].

Definition starts_document (breaks : list string) (s : string) : bool := existsb marker (line_starts breaks s).

Lemma starts_document_app b1 b2 s : starts_document (b1 ++ b2) s = starts_document b1 s || starts_document b2 s.
Proof.
  unfold starts_document. induction s as [|c s IH]; cbn [line_starts]; rewrite filter_app, fmap_app, !existsb_app; [by rewrite !orb_false_r|].
  rewrite IH. by repeat destruct (existsb marker _).
Qed.

Lemma Contains_cons sep c s : sep ≠ "" →
  strings_Contains (String c s) sep = String.prefix sep (String c s) || strings_Contains s sep.
Proof.
  intros Hsep. unfold strings_Contains. cbn [strings_Cut]. destruct (String.prefix sep (String c s)) eqn:Hp; [done|]. simpl.
  destruct (strings_Cut s sep) as [[a b]|]; done.
Qed.

Lemma boundary_marker_cons c s :
  strings_Contains (String c s) (line_feed +:+ "---") || strings_Contains (String c s) (line_feed +:+ "...")
  = existsb marker ((λ b, str_drop (String.length b) (String c s)) <$> filter (λ b, String.prefix b (String c s) = true) [line_feed])
    || (strings_Contains s (line_feed +:+ "---") || strings_Contains s (line_feed +:+ "...")).
Proof.
  rewrite !Contains_cons by done. change (line_feed +:+ ?x) with (String "010" x). rewrite filter_cons.
  change (String.prefix (String "010" ?x) (String c s)) with (if ascii_dec "010" c then String.prefix x s else false).
  change (String.prefix line_feed (String c s)) with (if ascii_dec "010" c then String.prefix "" s else false).
  assert (String.prefix "" s = true) as -> by (by destruct s). destruct (ascii_dec "010" c) as [<-|Hc].
  - rewrite decide_True by done. cbn [filter fmap list_fmap existsb]. rewrite orb_false_r. unfold marker, HasPrefix. cbn [line_feed str_drop String.length].
    change (str_drop _ _) with s.
    by destruct (String.prefix "---" s), (String.prefix "..." s), (strings_Contains s _), (strings_Contains s _).
  - by rewrite decide_False.
Qed.

(** The test for a boundary looks at the starts of the lines that end with a line feed. *)
Lemma boundary_spec data : hasYAMLDocumentBoundary data = marker data || starts_document [line_feed] data.
Proof.
  unfold hasYAMLDocumentBoundary. change (bytes [10]) with line_feed. unfold marker. f_equal.
  unfold starts_document. induction data as [|c s IH]; [done|].
  rewrite boundary_marker_cons, IH. cbn [line_starts]. by rewrite existsb_app.
Qed.

(** ** One document *)

(** What a stream of documents holds when all but the first must be empty. *)
Definition single_document (docs : stream raw) : result decode_error raw :=
  match docs with
  | [] => Ok (RLeaf VNil)
  | d :: rest =>
      v ← map_err (ErrParse "yaml") d;
      match find (λ r, match r with Ok v => negb (is_nil v) | Err _ => true end) rest with
      | None => Ok v
      | Some (Ok _) => Err (ErrMultiple "yaml")
      | Some (Err e) => Err (ErrTrailing "yaml" e)
      end
  end.

Lemma rejectExtra_find dec : rejectExtraYAMLDocuments dec =
  match find (λ r, match r with Ok v => negb (is_nil v) | Err _ => true end) dec with
  | None => None
  | Some (Ok _) => Some (ErrMultiple "yaml")
  | Some (Err e) => Some (ErrTrailing "yaml" e)
  end.
Proof. induction dec as [|[v|e] dec IH]; [done| |done]. cbn [rejectExtraYAMLDocuments find]. by destruct (is_nil v). Qed.

Lemma is_nil_true v : is_nil v = true → v = RLeaf VNil.
Proof. destruct v as [[]| | | |]; done. Qed.

Lemma single_document_Ok docs v : single_document docs = Ok v →
  (∀ d, d ∈ tail docs → d = Ok (RLeaf VNil)) ∧ default (Ok (RLeaf VNil)) (head docs) = Ok v.
Proof.
  destruct docs as [|d rest]; [intros [= <-]; split; [by intros ? ?%not_elem_of_nil|done]|].
  cbn [single_document tail head default]. intros (v' & Hd & Hv)%bind_Ok. destruct d as [v''|]; [|done]. injection Hd as ->.
  destruct (find _ rest) as [[|]|] eqn:Hf; [done|done|]. injection Hv as ->. split; [|done].
  intros d Hd%(find_none_elem _ _ Hf). destruct d as [u|]; [|done]. f_equal. apply is_nil_true. by destruct (is_nil u).
Qed.

(** A YAML text is decoded as its only document: whatever follows the first one
    must be empty, or decoding fails with the first thing that is not; nothing is
    dropped silently.  The shortcut around the document stream is sound when no
    document marker follows a CR, NEL, LS or PS break ([yaml.Unmarshal] reads the
    first document, and documents are separated by a marker at a line start). *)
Theorem yaml_single_document (yaml_Unmarshal : string → result string raw) (yaml_stream : string → stream raw)
    (Hunmarshal : ∀ s, yaml_Unmarshal s = match yaml_stream s with [] => Ok (RLeaf VNil) | d :: _ => d end)
    (Hseparated : ∀ s, marker s || starts_document (line_feed :: other_breaks) s = false → length (yaml_stream s) ≤ 1)
    (data : string) (Hdata : starts_document other_breaks data = false) :
  decodeSingleYAMLDocument yaml_Unmarshal yaml_stream data = single_document (yaml_stream data)
  ∧ (∀ m, yaml_Decode yaml_Unmarshal yaml_stream data = Ok m → TrimSpace data ≠ "" →
      (∀ d, d ∈ tail (yaml_stream data) → d = Ok (RLeaf VNil))
      ∧ ∃ v, default (Ok (RLeaf VNil)) (head (yaml_stream data)) = Ok v ∧ (v = RLeaf VNil ∧ m = Some ∅ ∨ normalize v = Some m)).
Proof.
  assert (decodeSingleYAMLDocument yaml_Unmarshal yaml_stream data = single_document (yaml_stream data)) as Hdoc.
  { unfold decodeSingleYAMLDocument. rewrite boundary_spec. destruct (marker data || starts_document [line_feed] data) eqn:Hb.
    - destruct (yaml_stream data) as [|[v|e] dec]; [done| |done]. cbn. rewrite rejectExtra_find. by destruct (find _ dec) as [[|]|].
    - assert (length (yaml_stream data) ≤ 1) as Hlen.
      { apply Hseparated. change (line_feed :: other_breaks) with ([line_feed] ++ other_breaks).
        by rewrite starts_document_app, Hdata, orb_false_r. }
      rewrite Hunmarshal. by destruct (yaml_stream data) as [|[v|e] [|]]; try (simpl in Hlen; lia). }
  split; [done|]. intros m. unfold yaml_Decode. rewrite Hdoc. intros Hm Hblank. rewrite (proj2 (String.eqb_neq _ _) Hblank) in Hm.
  apply bind_Ok in Hm as (v & Hv & Hm). apply single_document_Ok in Hv as [Htail Hv]. split; [done|].
  exists v. split; [done|]. destruct (is_nil v) eqn:Hn; [|right; by destruct (normalize v); simplify_eq/=].
  apply is_nil_true in Hn as ->. left. by injection Hm as <-.
Qed.

(** ** INI *)

(** The value of the last entry of a key. *)
Definition last_value (keys : list (string * string)) (k : string) : option value :=
  (λ e, VString e.2) <$> last (filter (λ e : string * string, e.1 = k) keys).

Lemma section_map_lookup keys target k :
  section_map keys target !! k = match last_value keys k with Some v => Some v | None => target !! k end.
Proof.
  unfold section_map, last_value. induction keys as [|e keys IH] using rev_ind; [done|].
  rewrite foldl_snoc, filter_app, filter_cons, filter_nil. destruct (decide (e.1 = k)) as [<-|Hk].
  - by rewrite lookup_insert_eq, last_snoc.
  - rewrite lookup_insert_ne by done. by rewrite app_nil_r.
Qed.

Lemma last_value_is_Some keys k : is_Some (last_value keys k) ↔ k ∈ keys.*1.
Proof.
  unfold last_value. rewrite fmap_is_Some, last_is_Some, list_elem_of_fmap. split.
  - intros Hne. destruct (filter _ keys) as [|e l] eqn:Hf; [done|].
    assert (e ∈ filter (λ e : string * string, e.1 = k) keys) as [? ?]%list_elem_of_filter by (rewrite Hf; left). by exists e.
  - intros (e & -> & He) Hf. assert (e ∈ filter (λ e' : string * string, e'.1 = e.1) keys) as He' by by apply list_elem_of_filter.
    rewrite Hf in He'. by apply not_elem_of_nil in He'.
Qed.

Definition add_section (out : gmap string value) (s : string * list (string * string)) : gmap string value :=
  <[s.1 := VMap (section_map s.2 ∅)]> out.

Lemma ini_sections rest out : NoDup (DefaultSection :: rest.*1) →
  foldM ini_section out rest =
  match find (λ s, bool_decide (is_Some (out !! s.1))) rest with
  | Some s => Err (ErrSection s.1)
  | None => Ok (foldl add_section out rest)
  end.
Proof.
  revert out. induction rest as [|s rest IH]; intros out Hnd; [done|]. cbn [fmap list_fmap] in Hnd.
  apply NoDup_cons in Hnd as [Hdef Hnd]. apply not_elem_of_cons in Hdef as [Hs Hdef]. apply NoDup_cons in Hnd as [Hfresh Hnd].
  cbn [foldM find foldl].
  assert (ini_section out s = match out !! s.1 with Some _ => Err (ErrSection s.1) | None => Ok (add_section out s) end) as ->.
  { unfold ini_section. by rewrite (proj2 (String.eqb_neq s.1 DefaultSection)). }
  destruct (out !! s.1) as [v|] eqn:Hv.
  - by rewrite bool_decide_true by eauto.
  - rewrite bool_decide_false by (by intros [? [=]]). rewrite bind_of_Ok, IH by (by apply NoDup_cons).
    replace (find (λ s0, bool_decide (is_Some (add_section out s !! s0.1))) rest) with (find (λ s0, bool_decide (is_Some (out !! s0.1))) rest); [done|].
    clear -Hfresh. induction rest as [|s' rest IH]; [done|]. apply not_elem_of_cons in Hfresh as [Hne Hfresh]. cbn [find].
    assert (add_section out s !! s'.1 = out !! s'.1) as -> by (unfold add_section; by rewrite lookup_insert_ne). by rewrite IH.
Qed.

Lemma add_sections_lookup rest out k : NoDup rest.*1 →
  foldl add_section out rest !! k =
  match find (λ s, String.eqb s.1 k) rest with Some s => Some (VMap (section_map s.2 ∅)) | None => out !! k end.
Proof.
  revert out. induction rest as [|s rest IH]; intros out Hnd; [done|]. apply NoDup_cons in Hnd as [Hfresh Hnd].
  cbn [foldl find]. rewrite IH by done. destruct (String.eqb_spec s.1 k) as [<-|Hk].
  - destruct (find _ rest) as [s'|] eqn:Hf; [|unfold add_section; by rewrite lookup_insert_eq].
    apply find_some in Hf as [Hin Heq%String.eqb_eq]. destruct Hfresh. rewrite <-Heq. apply list_elem_of_fmap. exists s'. by rewrite list_elem_of_In.
  - assert (add_section out s !! k = out !! k) as -> by (unfold add_section; by rewrite lookup_insert_ne). done.
Qed.

(** An INI file becomes its default section at the root, the last entry of a key
    winning, with every other section as a map under its literal name; it is
    rejected at the first section named like a root key, and at no other. *)
Theorem ini_layout (ini_LoadSources : string → result string (list (string * list (string * string)))) (data : string)
    (root : list (string * string)) (rest : list (string * list (string * string)))
    (Hdata : data ≠ "") (Hload : ini_LoadSources data = Ok ((DefaultSection, root) :: rest))
    (Hnames : NoDup (DefaultSection :: rest.*1)) :
  match find (λ s, bool_decide (s.1 ∈ root.*1)) rest with
  | Some s => ini_Decode ini_LoadSources data = Err (ErrSection s.1)
  | None => ∃ t, ini_Decode ini_LoadSources data = Ok (Some t) ∧
      ∀ k, match last_value root k, find (λ s, String.eqb s.1 k) rest with
           | Some v, _ => t !! k = Some v
           | None, Some s => ∃ sec, t !! k = Some (VMap sec) ∧ ∀ k', sec !! k' = last_value s.2 k'
           | None, None => t !! k = None
           end
  end.
Proof.
  unfold ini_Decode. rewrite (proj2 (String.eqb_neq _ _) Hdata), Hload. cbn [map_err]. rewrite bind_of_Ok.
  cbn [foldM]. assert (ini_section ∅ (DefaultSection, root) = Ok (section_map root ∅)) as -> by done. rewrite bind_of_Ok, ini_sections by done.
  assert (∀ k, section_map root ∅ !! k = last_value root k) as Hroot.
  { intros k. rewrite section_map_lookup, lookup_empty. by destruct (last_value root k). }
  replace (find (λ s, bool_decide (is_Some (section_map root ∅ !! s.1))) rest) with (find (λ s, bool_decide (s.1 ∈ root.*1)) rest).
  2: { clear Hnames Hload. induction rest as [|s rest IH]; [done|]. cbn [find]. by rewrite IH, Hroot, (bool_decide_ext _ _ (last_value_is_Some root s.1)). }
  destruct (find _ rest) as [s|] eqn:Hf; [done|]. eexists. split; [done|]. intros k.
  apply NoDup_cons in Hnames as [_ Hnames]. rewrite add_sections_lookup, Hroot by done.
  destruct (last_value root k) as [v|] eqn:Hv, (find (λ s, String.eqb s.1 k) rest) as [s|] eqn:Hs; try done.
  - apply find_some in Hs as [Hin <-%String.eqb_eq]. apply list_elem_of_In, (find_none_elem _ _ Hf) in Hin. apply bool_decide_eq_false in Hin.
    destruct Hin. apply last_value_is_Some. eauto.
  - exists (section_map s.2 ∅). split; [done|]. intros k'. rewrite section_map_lookup, lookup_empty. by destruct (last_value s.2 k').
Qed.

(** ** Iteration order of a [map[any]any] *)

(** The same tree met in another order: somewhere in it two entries of a
    [map[any]any] whose keys print differently change places. *)
Inductive reordered : raw → raw → Prop :=
| Reorder_here l1 e1 e2 l2 : e1.1 ≠ e2.1 → reordered (RAnyMap (l1 ++ e1 :: e2 :: l2)) (RAnyMap (l1 ++ e2 :: e1 :: l2))
| Reorder_any l1 k x y l2 : reordered x y → reordered (RAnyMap (l1 ++ (k, x) :: l2)) (RAnyMap (l1 ++ (k, y) :: l2))
| Reorder_map m k x y : reordered x y → reordered (RMap (<[k := x]> m)) (RMap (<[k := y]> m))
| Reorder_maps l1 m k x y l2 : reordered x y →
    reordered (RMapSlice (l1 ++ Some (<[k := x]> m) :: l2)) (RMapSlice (l1 ++ Some (<[k := y]> m) :: l2))
| Reorder_slice l1 x y l2 : reordered x y → reordered (RSlice (l1 ++ x :: l2)) (RSlice (l1 ++ y :: l2)).

(** Normalising a tree does not depend on the order in which Go ranges over its
    maps, as long as no two keys of one map print the same text. *)
Theorem normalize_order_independent (a b : raw) (Hab : rtc reordered a b) : normalizeValue a = normalizeValue b.
Proof.
  induction Hab as [|a b c Hab _ <-]; [done|].
  induction Hab as [l1 e1 e2 l2 Hne|l1 k x y l2 _ IH|m k x y _ IH|l1 m k x y l2 _ IH|l1 x y l2 _ IH]; cbn [normalizeValue].
  - rewrite !foldl_app. cbn [foldl]. by rewrite insert_insert_ne.
  - rewrite !foldl_app. cbn [foldl fst snd]. by rewrite IH.
  - by rewrite !fmap_insert, IH.
  - rewrite !fmap_app, !fmap_cons. by rewrite !fmap_insert, IH.
  - by rewrite !fmap_app, !fmap_cons, IH.
Qed.

(** Keys that print alike, such as [1] and ["1"], collapse to the one met last. *)
Example colliding_keys :
  normalizeValue (RAnyMap [("1", RLeaf (VBool true)); ("1", RLeaf (VBool false))]) = VMap {[ "1" := VBool false ]}
  ∧ normalizeValue (RAnyMap [("1", RLeaf (VBool false)); ("1", RLeaf (VBool true))]) = VMap {[ "1" := VBool true ]}.
Proof. split; reflexivity. Qed.

Lemma normalize_order_independent_witness :
  normalizeValue (RSlice [RAnyMap [("1", RLeaf VNil); ("2", RLeaf (VBool true))]])
  = normalizeValue (RSlice [RAnyMap [("2", RLeaf (VBool true)); ("1", RLeaf VNil)]]).
Proof.
  apply normalize_order_independent, rtc_once.
  apply (Reorder_slice [] _ _ []), (Reorder_here [] ("1", RLeaf VNil) ("2", RLeaf (VBool true)) []). discriminate.
Defined.

(** ** Examples *)

Definition example_doc (k v : string) : raw := RMap {[ k := RLeaf (VString v) ]}.

(** Two documents between line feeds, and the same between a carriage return. *)
Definition example_stream (s : string) : stream raw :=
  if String.eqb s ("a: 1" +:+ bytes [10] +:+ "---" +:+ bytes [10] +:+ "b: 2") then [Ok (example_doc "a" "1"); Ok (example_doc "b" "2")]
  else if String.eqb s ("a: 1" +:+ bytes [13] +:+ "---" +:+ bytes [13] +:+ "b: 2") then [Ok (example_doc "a" "1"); Ok (example_doc "b" "2")]
  else [].
Definition example_unmarshal (s : string) : result string raw :=
  match example_stream s with [] => Ok (RLeaf VNil) | d :: _ => d end.

Example second_document :
  yaml_Decode example_unmarshal example_stream ("a: 1" +:+ bytes [10] +:+ "---" +:+ bytes [10] +:+ "b: 2") = Err (ErrMultiple "yaml").
Proof. vm_compute. reflexivity. Qed.

(** With bare carriage returns the second document is dropped without an error. *)
Example second_document_dropped :
  yaml_Decode example_unmarshal example_stream ("a: 1" +:+ bytes [13] +:+ "---" +:+ bytes [13] +:+ "b: 2")
  = Ok (Some {[ "a" := VString "1" ]}).
Proof. vm_compute. reflexivity. Qed.

Lemma yaml_single_document_witness :
  let data := "a: 1" +:+ bytes [10] +:+ "---" +:+ bytes [10] +:+ "b: 2" in
  decodeSingleYAMLDocument example_unmarshal example_stream data = single_document (example_stream data).
Proof.
  intros data. apply (yaml_single_document example_unmarshal example_stream).
  - intros s. reflexivity.
  - intros s Hs. unfold example_stream. destruct (String.eqb_spec s ("a: 1" +:+ bytes [10] +:+ "---" +:+ bytes [10] +:+ "b: 2")) as [->|]; [vm_compute in Hs; discriminate|].
    destruct (String.eqb_spec s ("a: 1" +:+ bytes [13] +:+ "---" +:+ bytes [13] +:+ "b: 2")) as [->|]; [vm_compute in Hs; discriminate|]. simpl. lia.
  - vm_compute. reflexivity.
Defined.

Lemma ini_layout_witness :
  let data := "a=1" in
  let load (_ : string) : result string (list (string * list (string * string))) :=
    Ok [(DefaultSection, [("a", "1")]); ("db", [("dsn", "x"); ("dsn", "y")])] in
  ∃ t, ini_Decode load data = Ok (Some t)
    ∧ ∀ k, match last_value [("a", "1")] k, find (λ s, String.eqb s.1 k) [("db", [("dsn", "x"); ("dsn", "y")])] with
           | Some v, _ => t !! k = Some v
           | None, Some s => ∃ sec, t !! k = Some (VMap sec) ∧ ∀ k', sec !! k' = last_value s.2 k'
           | None, None => t !! k = None
           end.
Proof.
  intros data load. apply (ini_layout load data [("a", "1")] [("db", [("dsn", "x"); ("dsn", "y")])]).
  - discriminate.
  - reflexivity.
  - apply (bool_decide_unpack _). vm_compute. reflexivity.
Defined.
