(* ===== verification/KVProviders.v ===== *)
(** * Key-value providers (providers/consul/consul.go, providers/vault)

    The Consul and Vault providers from the decoded answers of their servers to
    the tree they load, and their watch loops as state machines.  The HTTP client,
    the JSON and base64 decoders and the blob codec are parameters; Consul indexes
    are [uint64], Vault versions are Go [int]s.  Values that JSON decodes to have
    no typed nil maps. *)
From S2P Require Import Prelude GoStrings Value Path CodecRegistry Env Watch.
From Stdlib Require Import Ascii.
Open Scope nat_scope.

(** ** Consul *)

Inductive Mode := ModeKV | ModeBlob.

(** The settings of a provider that its operations read. *)
Record consul_provider := {
  cp_name : string;
  cp_addr : string;
  cp_prefix : string;
  cp_mode : Mode;
  cp_token : string;
  cp_dc : string;
  cp_wait : string;          (** [p.wait.String()] *)
  cp_maxBodyBytes : Z;
}.

Record kvPair := { kv_Key : string; kv_Value : string; kv_ModifyIndex : N }.

Inductive consul_error := ErrAddr | ErrNoCodec | ErrRequest (e : string) | ErrStatus (code : Z)
| ErrBody (e : read_error string) | ErrJSON (e : string) | ErrBase64 (key : string) | ErrBlob (e : string).

(** [strings.Trim(s, "/")] *)
Definition trim_slashes (s : string) : string := TrimRight (TrimLeft s "/") "/".

(** [New]: [p] holds the fields after the options ran, [has_codec] whether one
    of them set a codec, and [parse_ok] whether [url.Parse] accepts the address. *)
Definition consul_New (addr prefix : string) (parse_ok has_codec : bool) (p : consul_provider) : result consul_error consul_provider :=
  if String.eqb addr "" || negb parse_ok then Err ErrAddr else
  let addr := TrimRight addr "/" in
  let prefix := trim_slashes prefix in
  let name := if String.eqb (cp_name p) "" then "consul://" +:+ TrimPrefix addr "http://" +:+ "/" +:+ prefix else cp_name p in
  let p := {| cp_name := name; cp_addr := addr; cp_prefix := prefix; cp_mode := cp_mode p; cp_token := cp_token p;
              cp_dc := cp_dc p; cp_wait := cp_wait p; cp_maxBodyBytes := cp_maxBodyBytes p |} in
  match cp_mode p with
  | ModeBlob => if has_codec then Ok p else Err ErrNoCodec
  | ModeKV => Ok p
  end.

(** [parseIndex]: decimal digits modulo 2^64, anything else is 0. *)
Definition uint64 (n : N) : N := (n mod 2 ^ 64)%N.

Fixpoint index_digits (acc : N) (s : string) : option N :=
  match s with
  | "" => Some acc
  | String c s => if is_digit c then index_digits (uint64 (uint64 (acc * 10) + N.of_nat (nat_of_ascii c - 48))) s else None
  end.
Definition parseIndex (s : string) : N := default 0%N (index_digits 0 s).

Definition contains (p : consul_provider) (key : string) : bool :=
  String.eqb (cp_prefix p) "" || String.eqb key (cp_prefix p) || HasPrefix key (cp_prefix p +:+ "/").

(** An HTTP answer: the status, the [X-Consul-Index] header and the body. *)
Record response := { rs_Status : Z; rs_Index : string; rs_Body : reader string }.

Section consul.
Context (QueryEscape : string → string) (json_pairs : string → result string (list kvPair))
  (base64 : string → option string) (codec_Decode : string → result string gomap).

Definition fetch_url (p : consul_provider) (index : N) : string :=
  let prefix := match cp_mode p with ModeKV => if String.eqb (cp_prefix p) "" then "" else cp_prefix p +:+ "/" | ModeBlob => cp_prefix p end in
  let u := cp_addr p +:+ "/v1/kv/" +:+ prefix +:+ "?recurse=true" in
  let u := if (0 <? index)%N then u +:+ "&index=" +:+ pretty.pretty index +:+ "&wait=" +:+ cp_wait p else u in
  if String.eqb (cp_dc p) "" then u else u +:+ "&dc=" +:+ QueryEscape (cp_dc p).

(** [fetch] on the answer of the client. *)
Definition consul_fetch (p : consul_provider) (resp : result string response) : result consul_error (list kvPair * N) :=
  r ← map_err ErrRequest resp;
  if Z.eqb (rs_Status r) 404 then Ok ([], parseIndex (rs_Index r))
  else if negb (Z.eqb (rs_Status r) 200) then Err (ErrStatus (rs_Status r)) else
  body ← map_err ErrBody (ReadAllMax (rs_Body r) (cp_maxBodyBytes p));
  pairs ← map_err ErrJSON (json_pairs body);
  Ok (pairs, parseIndex (rs_Index r)).

(** [decode] in [ModeBlob]. *)
Fixpoint decode_blob (p : consul_provider) (pairs : list kvPair) : result consul_error gomap :=
  match pairs with
  | [] => Ok (Some ∅)
  | kv :: pairs =>
      if negb (contains p (kv_Key kv)) then decode_blob p pairs
      else if HasSuffix (kv_Key kv) "/" || String.eqb (kv_Value kv) "" then decode_blob p pairs
      else match base64 (kv_Value kv) with
           | None => Err (ErrBase64 (kv_Key kv))
           | Some raw => map_err ErrBlob (codec_Decode raw)
           end
  end.

(** The key below the prefix, when the pair is a leaf of the subtree. *)
Definition leaf_key (p : consul_provider) (kv : kvPair) : option string :=
  if negb (contains p (kv_Key kv)) then None else
  let key := TrimPrefix (TrimPrefix (kv_Key kv) (cp_prefix p)) "/" in
  if String.eqb key "" || HasSuffix key "/" then None else Some key.

Definition decode_pair (p : consul_provider) (out : gmap string value) (kv : kvPair) : result consul_error (gmap string value) :=
  match leaf_key p kv with
  | None => Ok out
  | Some key =>
      match base64 (kv_Value kv) with
      | None => Err (ErrBase64 (kv_Key kv))
      | Some val => Ok (set_at out (strings_Split key "/") (VString val))
      end
  end.

Definition consul_decode (p : consul_provider) (pairs : list kvPair) : result consul_error gomap :=
  match pairs with
  | [] => Ok (Some ∅)
  | _ => match cp_mode p with
         | ModeBlob => decode_blob p pairs
         | ModeKV => Some <$> foldM (decode_pair p) ∅ pairs
         end
  end.

(** [loadMap]: the accepted index after it, and the tree. *)
Definition consul_loadMap (p : consul_provider) (index : N) (resp : result string response) : N * result consul_error gomap :=
  match consul_fetch p resp with
  | Err e => (index, Err e)
  | Ok (pairs, idx) =>
      match consul_decode p pairs with
      | Err e => (index, Err e)
      | Ok m => (idx, Ok m)
      end
  end.
End consul.

(** *** The blocking-query loop

    One iteration reads [p.index] before the query ([idx]) and after it
    ([accepted]), since a concurrent [Load] may advance it meanwhile. *)
Record watch_state := { w_cursor : N; w_loaded : N; w_out : list string; w_backoff : Backoff }.

Definition consul_backoff : Backoff := {| bo_Min := 250000000; bo_Max := 30000000000; bo_cur := 0 |}.
Definition watch_start : watch_state := {| w_cursor := 0; w_loaded := 0; w_out := []; w_backoff := consul_backoff |}.

(** The cursor that the next query waits on. *)
Definition query_cursor (w : watch_state) (idx : N) : watch_state :=
  if (idx =? w_loaded w)%N then w
  else {| w_cursor := N.max (w_cursor w) idx; w_loaded := idx; w_out := w_out w; w_backoff := w_backoff w |}.

Definition set_cursor (w : watch_state) (c : N) : watch_state :=
  {| w_cursor := c; w_loaded := w_loaded w; w_out := w_out w; w_backoff := Reset_ (w_backoff w) |}.

Definition watch_answer (w : watch_state) (accepted newIdx : N) : watch_state :=
  if (newIdx =? 0)%N then set_cursor w 1
  else if (0 <? w_cursor w)%N && (newIdx <? w_cursor w)%N then set_cursor w 1
  else if (newIdx =? w_cursor w)%N && (newIdx =? accepted)%N then set_cursor w (w_cursor w)
  else
    let reason := if (newIdx =? w_cursor w)%N then "consul-index-retry" else "consul-index" in
    {| w_cursor := newIdx; w_loaded := w_loaded w; w_out := (Offer 1 (w_out w) reason).1; w_backoff := Reset_ (w_backoff w) |}.

(** An iteration: the delay before the next one after an error. *)
Definition watch_iteration {E} (w : watch_state) (idx accepted : N) (fetched : result E N) : watch_state * option Z :=
  let w := query_cursor w idx in
  match fetched with
  | Err _ =>
      let '(d, b) := Next (w_backoff w) in
      ({| w_cursor := w_cursor w; w_loaded := w_loaded w; w_out := w_out w; w_backoff := b |}, Some d)
  | Ok newIdx => (watch_answer w accepted newIdx, None)
  end.

(** ** Vault *)

Record vault_provider := { vp_separator : string; vp_renewBefore : Z }.

(** [strings.Count] for a non-empty separator. *)
Definition strings_Count (s sep : string) : nat := pred (length (strings_Split s sep)).

(** The order of the keys: by number of separators, then by text. *)
Definition expand_leb (sep a b : string) : bool :=
  match Nat.compare (strings_Count a sep) (strings_Count b sep) with
  | Lt => true
  | Gt => false
  | Eq => str_leb a b
  end.

(** [expand], given the keys of [inp] in the order of a [range]. *)
Definition expand (p : vault_provider) (inp : gmap string value) (keys : list string) : gmap string value :=
  if String.eqb (vp_separator p) "" || Nat.eqb (size inp) 0 then inp
  else foldl (λ out k, match inp !! k with Some v => set_at out (strings_Split k (vp_separator p)) v | None => out end)
         ∅ (sort_stable (expand_leb (vp_separator p)) keys).

(** *** Loads and the metadata poll

    The fields under the mutex, the event channel of the watch (capacity 4), a
    send that the poll has announced in [notified] but not tried yet, and whether
    the consumer has taken an event since the last [Load] began. *)
Record vault_state := { v_version : Z; v_notified : Z; v_sending : option Z; v_events : nat; v_taken : bool }.

Definition vault_start : vault_state := {| v_version := 0; v_notified := 0; v_sending := None; v_events := 0; v_taken := false |}.
Definition vault_cap : nat := 4.

(** [loadMap] begins: a failed or stale read is announced again. *)
Definition load_begins (s : vault_state) : vault_state :=
  {| v_version := v_version s; v_notified := 0; v_sending := v_sending s; v_events := v_events s; v_taken := false |}.

(** [loadMap] has read a version. *)
Definition load_accepts (s : vault_state) (version : Z) : vault_state :=
  {| v_version := version; v_notified := v_notified s; v_sending := v_sending s; v_events := v_events s; v_taken := v_taken s |}.

(** A tick that read [v] from the metadata, up to the send. *)
Definition poll_marks (s : vault_state) (v : Z) : vault_state :=
  if Z.eqb v 0 || Z.eqb v (v_version s) || Z.eqb v (v_notified s) then s
  else {| v_version := v_version s; v_notified := v; v_sending := Some v; v_events := v_events s; v_taken := v_taken s |}.

(** The send: an event, or the announcement is taken back. *)
Definition poll_sends (s : vault_state) : vault_state :=
  match v_sending s with
  | None => s
  | Some v =>
      if v_events s <? vault_cap
      then {| v_version := v_version s; v_notified := v_notified s; v_sending := None; v_events := S (v_events s); v_taken := v_taken s |}
      else {| v_version := v_version s; v_notified := if Z.eqb (v_notified s) v then 0 else v_notified s; v_sending := None;
              v_events := v_events s; v_taken := v_taken s |}
  end.

(** The consumer receives an event: it will ask for a reload. *)
Definition take_event (s : vault_state) : vault_state :=
  match v_events s with
  | 0 => s
  | S n => {| v_version := v_version s; v_notified := v_notified s; v_sending := v_sending s; v_events := n; v_taken := true |}
  end.

Inductive vault_step : vault_state → vault_state → Prop :=
| Step_load s : vault_step s (load_begins s)
| Step_accept s version : vault_step s (load_accepts s version)
| Step_mark s v : v_sending s = None → vault_step s (poll_marks s v)
| Step_send s : vault_step s (poll_sends s)
| Step_take s : vault_step s (take_event s).

(** *** Tokens (auth.go)

    Durations are nanoseconds; the lease is kept in whole seconds. *)
Definition second : Z := 1000000000.
Record token_state := { t_token : string; t_ttl : Z }.

Definition token_login (login : result string (string * Z)) (s : token_state) : result string token_state :=
  r ← login; Ok {| t_token := r.1; t_ttl := Z.quot r.2 second |}.

(** [ensureToken]; [login] is the answer of [auth.Login], if there is an [auth]. *)
Definition ensureToken (auth : option (result string (string * Z))) (s : token_state) : result string token_state :=
  match auth with
  | None => Ok s
  | Some login => if String.eqb (t_token s) "" then token_login login s else Ok s
  end.

(** How long [renewLoop] waits before a login, [None] when the token does not
    expire; [retryDelay] is the delay that a failed login left. *)
Definition renew_wait (p : vault_provider) (ttl retryDelay : Z) : option Z :=
  if (ttl <=? 0)%Z then None else
  let before := Z.max (vp_renewBefore p) (5 * second) in
  let wait := Z.max (ttl * second - before) second in
  Some (if (0 <? retryDelay)%Z then retryDelay else wait).

Definition renew_retry (ttl : Z) : Z :=
  let half := Z.quot ttl 2 in
  let retry := (if (0 <? half)%Z && (half <? 15)%Z then half else 15)%Z in
  (Z.max retry 1 * second)%Z.

(** A login of the loop: the token, the retry delay, and whether a
    [lease-renew] event is offered. *)
Definition renew_login (login : result string (string * Z)) (s : token_state) : token_state * Z * bool :=
  match token_login login s with
  | Err _ => (s, renew_retry (t_ttl s), false)
  | Ok s => (s, 0%Z, true)
  end.

(** ** The tree of a Consul subtree *)

(** The keys that are read are those below the prefix: a sibling such as
    [application] of the prefix [app] is not. *)
Lemma leaf_key_spec p kv key : leaf_key p kv = Some key → cp_prefix p ≠ "" → kv_Key kv = cp_prefix p +:+ "/" +:+ key.
Proof.
  unfold leaf_key, contains. intros Hk Hp. rewrite (proj2 (String.eqb_neq _ _) Hp) in Hk. cbn [orb] in Hk.
  destruct (String.eqb_spec (kv_Key kv) (cp_prefix p)) as [Heq|Hne]; cbn [orb negb] in Hk.
  - rewrite Heq in Hk. rewrite <-(app_str_nil_r (cp_prefix p)) in Hk at 1. by rewrite TrimPrefix_app in Hk.
  - destruct (HasPrefix (kv_Key kv) (cp_prefix p +:+ "/")) eqn:Hpre; [|done]. cbn [negb] in Hk.
    apply prefix_inv in Hpre. rewrite Hpre in Hk |- *. rewrite app_str_assoc in Hk. rewrite !TrimPrefix_app in Hk.
    rewrite app_str_assoc. f_equal. destruct (String.eqb _ "" || HasSuffix _ "/"); [done|]. by injection Hk as ->.
Qed.

(** What a pair writes, and whether it cannot be read. *)
Definition pair_write (base64 : string → option string) (p : consul_provider) (kv : kvPair) : option (list string * value) :=
  key ← leaf_key p kv; val ← base64 (kv_Value kv); Some (strings_Split key "/", VString val).
Definition pair_bad (base64 : string → option string) (p : consul_provider) (kv : kvPair) : bool :=
  bool_decide (is_Some (leaf_key p kv)) && negb (bool_decide (is_Some (base64 (kv_Value kv)))).

Lemma pair_write_ok base64 p kv : write_ok (pair_write base64 p kv).
Proof.
  unfold pair_write. destruct (leaf_key p kv); [|done]. simpl. destruct (base64 _); [|done]. simpl.
  split; [apply Split_ne|done].
Qed.

Lemma decode_pair_eq base64 p out kv :
  decode_pair base64 p out kv =
  if pair_bad base64 p kv then Err (ErrBase64 (kv_Key kv)) else Ok (set_variable out (pair_write base64 p kv)).
Proof.
  unfold decode_pair, pair_bad, pair_write. destruct (leaf_key p kv) as [key|]; [|done]. cbn.
  destruct (base64 (kv_Value kv)) as [val|]; [|done]. cbn. pose proof (Split_ne key "/") as Hne. by destruct (strings_Split key "/").
Qed.

Lemma decode_pairs base64 p pairs out :
  foldM (decode_pair base64 p) out pairs =
  match find (pair_bad base64 p) pairs with
  | Some kv => Err (ErrBase64 (kv_Key kv))
  | None => Ok (foldl set_variable out (pair_write base64 p <$> pairs))
  end.
Proof.
  revert out. induction pairs as [|kv pairs IH]; intros out; [done|]. cbn [foldM find fmap list_fmap foldl].
  rewrite decode_pair_eq. destruct (pair_bad base64 p kv); [done|]. by rewrite bind_of_Ok, IH.
Qed.

(** Loading a subtree fails at the first leaf whose value is not base64.
    Otherwise the value of a leaf is at the path of its key below the prefix,
    unless a later leaf wrote an overlapping path, and every value of the tree
    that is not a map is the value of such a leaf. *)
Theorem consul_tree (json_pairs : string → result string (list kvPair)) (base64 : string → option string)
    (codec_Decode : string → result string gomap) (p : consul_provider) (pairs : list kvPair) (Hmode : cp_mode p = ModeKV) :
  match find (pair_bad base64 p) pairs with
  | Some kv => consul_decode base64 codec_Decode p pairs = Err (ErrBase64 (kv_Key kv))
  | None => ∃ t, consul_decode base64 codec_Decode p pairs = Ok (Some t)
      ∧ (∀ before kv after path v, pairs = before ++ kv :: after → pair_write base64 p kv = Some (path, v) →
           (∀ kv' q w, kv' ∈ after → pair_write base64 p kv' = Some (q, w) → disjoint_paths q path) →
           get_at (VMap t) path = Some v)
      ∧ (∀ path v, path ≠ [] → (∀ m, v ≠ VMap m) → get_at (VMap t) path = Some v →
           ∃ kv, kv ∈ pairs ∧ pair_write base64 p kv = Some (path, v))
  end.
Proof.
  pose proof (decode_pairs base64 p pairs ∅) as Hd. unfold consul_decode. rewrite Hmode.
  assert (∀ path v, path ≠ [] → (∀ m, v ≠ VMap m) → get_at (VMap (written (pair_write base64 p <$> pairs))) path = Some v →
    ∃ kv, kv ∈ pairs ∧ pair_write base64 p kv = Some (path, v)) as Hleaf.
  { intros path v Hne Hv Hg%written_leaf; [|by apply Forall_fmap, Forall_forall; intros ? _; apply pair_write_ok|done..].
    apply list_elem_of_fmap in Hg as (kv & ? & ?). by exists kv. }
  destruct (find (pair_bad base64 p) pairs) as [kv|]; [by destruct pairs; [|rewrite Hd]|].
  exists (written (pair_write base64 p <$> pairs)). split; [by destruct pairs; [|rewrite Hd]|]. split; [|done].
  intros before kv after path v -> Hw Hdis. rewrite fmap_app, fmap_cons, Hw.
  pose proof (pair_write_ok base64 p kv) as Hok. rewrite Hw in Hok. apply written_last; [by destruct Hok|].
  intros q w (kv' & Heq & Hin)%list_elem_of_fmap. by apply (Hdis kv' q w).
Qed.

(** ** The Consul watch *)

Lemma Offer_some {A} (l : list A) x : (Offer 1 l x).1 ≠ [].
Proof. unfold Offer. destruct l as [|y l]; [done|]. by destruct (_ <? _). Qed.

Lemma answer_announces w accepted n : n ≠ 0%N → n ≠ accepted → (w_cursor w ≤ n)%N → w_out (watch_answer w accepted n) ≠ [].
Proof.
  intros Hn Ha Hc. unfold watch_answer. rewrite (proj2 (N.eqb_neq _ _) Hn), (proj2 (N.ltb_ge _ _) Hc), andb_false_r.
  rewrite (proj2 (N.eqb_neq _ _) Ha), andb_false_r. apply Offer_some.
Qed.

Lemma query_loaded w idx : w_loaded (query_cursor w idx) = idx.
Proof. unfold query_cursor. by destruct (N.eqb_spec idx (w_loaded w)). Qed.

Lemma query_idle w idx : w_loaded w = idx → query_cursor w idx = w.
Proof. intros <-. unfold query_cursor. by rewrite N.eqb_refl. Qed.

Lemma answer_loaded w accepted n : w_loaded (watch_answer w accepted n) = w_loaded w.
Proof. unfold watch_answer. by repeat case_match. Qed.

(** A change is announced until a load accepts it.  While the server answers
    with an index [n] that is not the accepted one, an event is in the channel
    after two queries at most, from any state of the loop and also when the
    index went backwards; once [n] is accepted and waited on, no event is sent. *)
Theorem consul_change_announced (E : Type) (w : watch_state) (accepted n : N) (Hn : n ≠ 0%N) :
  (n ≠ accepted →
     let w1 := (watch_iteration (E := E) w accepted accepted (Ok n)).1 in
     let w2 := (watch_iteration (E := E) w1 accepted accepted (Ok n)).1 in
     (w_cursor (query_cursor w accepted) ≤ n → w_out w1 ≠ [])%N ∧ w_out w2 ≠ [])
  ∧ (w_loaded w = n → w_cursor w = n → w_out (watch_iteration (E := E) w n n (Ok n)).1 = w_out w).
Proof.
  split.
  - intros Ha w1 w2. subst w1 w2. cbn [watch_iteration fst].
    set (w1 := watch_answer (query_cursor w accepted) accepted n).
    assert (query_cursor w1 accepted = w1) as -> by (apply query_idle; unfold w1; by rewrite answer_loaded, query_loaded).
    split; [intros Hc; by apply answer_announces|]. apply answer_announces; [done..|].
    unfold w1, watch_answer. rewrite (proj2 (N.eqb_neq _ _) Hn). destruct (_ && _)%bool; [cbn; lia|].
    destruct (N.eqb_spec n (w_cursor (query_cursor w accepted))); cbn; destruct (N.eqb n accepted); cbn; lia.
  - intros Hl Hc. cbn [watch_iteration fst]. rewrite query_idle by done. unfold watch_answer.
    rewrite (proj2 (N.eqb_neq _ _) Hn), Hc, N.ltb_irrefl, andb_false_r, N.eqb_refl. done.
Qed.

(** ** The tree of a Vault secret *)

Lemma expand_leb_trans sep a b c : expand_leb sep a b = true → expand_leb sep b c = true → expand_leb sep a c = true.
Proof.
  unfold expand_leb. destruct (Nat.compare_spec (strings_Count a sep) (strings_Count b sep)) as [H1|H1|H1], (Nat.compare_spec (strings_Count b sep) (strings_Count c sep)) as [H2|H2|H2],
    (Nat.compare_spec (strings_Count a sep) (strings_Count c sep)) as [H3|H3|H3]; try lia; try done. apply str_leb_trans.
Qed.

Lemma expand_leb_total sep a b : expand_leb sep a b = true ∨ expand_leb sep b a = true.
Proof.
  unfold expand_leb. rewrite (Nat.compare_antisym (strings_Count a sep)).
  destruct (Nat.compare (strings_Count a sep) (strings_Count b sep)); cbn; [apply str_leb_total|by left|by right].
Qed.

Lemma expand_leb_antisym sep a b : expand_leb sep a b = true → expand_leb sep b a = true → a = b.
Proof.
  unfold expand_leb. rewrite (Nat.compare_antisym (strings_Count a sep)).
  destruct (Nat.compare (strings_Count a sep) (strings_Count b sep)); cbn; [apply str_leb_antisym|done|done].
Qed.

Lemma expand_sorted sep keys : StronglySorted (λ a b, expand_leb sep a b = true) (sort_stable (expand_leb sep) keys).
Proof. apply sort_stable_sorted; [exact (expand_leb_total sep)|exact (expand_leb_trans sep)]. Qed.

Lemma expand_order sep keys keys' : keys ≡ₚ keys' → sort_stable (expand_leb sep) keys = sort_stable (expand_leb sep) keys'.
Proof.
  intros Hp. apply (StronglySorted_unique_strong (λ a b, expand_leb sep a b = true)).
  - intros a b _ _. apply expand_leb_antisym.
  - apply expand_sorted.
  - apply expand_sorted.
  - by rewrite !sort_stable_perm.
Qed.

Lemma strings_Count_spec k sep : length (strings_Split k sep) = S (strings_Count k sep).
Proof. unfold strings_Count. pose proof (Split_ne k sep). by destruct (strings_Split k sep). Qed.

(** A path that is not a prefix of a path at least as short is disjoint from it. *)
Lemma not_prefix_disjoint (p q : list string) : length p ≤ length q → p ≠ q → ¬ p `prefix_of` q → disjoint_paths q p.
Proof.
  intros Hlen Hne Hpq. split; [|done]. intros [r Hr]. apply Hne. rewrite Hr in Hlen |- *. rewrite length_app in Hlen.
  destruct r; [by rewrite app_nil_r|simpl in Hlen; lia].
Qed.

(** Expanding the flat keys of a secret: every key is found at its path, unless
    its path is a proper prefix of another key's (there the deeper key wins); and
    the tree does not depend on the order in which Go ranges over the keys. *)
Theorem vault_expand (p : vault_provider) (inp : gmap string value) (keys : list string)
    (Hsep : vp_separator p ≠ "") (Hkeys : keys ≡ₚ (map_to_list inp).*1) :
  (∀ k v, inp !! k = Some v →
     (∀ k', is_Some (inp !! k') → k' ≠ k → ¬ strings_Split k (vp_separator p) `prefix_of` strings_Split k' (vp_separator p)) →
     get_at (VMap (expand p inp keys)) (strings_Split k (vp_separator p)) = Some v)
  ∧ (∀ keys', keys' ≡ₚ keys → expand p inp keys' = expand p inp keys).
Proof.
  set (sep := vp_separator p) in *. split; [|intros keys' Hp; unfold expand; fold sep; by rewrite (expand_order sep keys' keys Hp)].
  intros k v Hk Hdeep. unfold expand. fold sep. rewrite (proj2 (String.eqb_neq _ _) Hsep). cbn [orb].
  destruct (Nat.eqb_spec (size inp) 0) as [->%map_size_empty_inv|_]; [by rewrite lookup_empty in Hk|].
  set (write := λ k, (λ v, (strings_Split k sep, v)) <$> inp !! k).
  rewrite (foldl_same _ (λ out k, set_variable out (write k))).
  2: { intros out k'. unfold write. destruct (inp !! k'); [|done]. cbn. pose proof (Split_ne k' sep). by destruct (strings_Split k' sep). }
  rewrite foldl_written. set (sorted := sort_stable (expand_leb sep) keys).
  assert (sorted ≡ₚ (map_to_list inp).*1) as Hperm by (unfold sorted; by rewrite sort_stable_perm).
  assert (NoDup sorted) as Hnd by (rewrite Hperm; apply NoDup_fst_map_to_list).
  assert (k ∈ sorted) as (before & after & Hsorted)%list_elem_of_split.
  { rewrite Hperm. apply list_elem_of_fmap. exists (k, v). split; [done|]. by apply elem_of_map_to_list. }
  rewrite Hsorted, fmap_app, fmap_cons. unfold write at 2. rewrite Hk. cbn [fmap option_fmap option_map].
  apply written_last; [apply Split_ne|]. intros q w (k' & Hw & Hin)%list_elem_of_fmap.
  assert (k' ≠ k) as Hne. { intros ->. rewrite Hsorted in Hnd. by apply NoDup_app in Hnd as (_ & _ & [Hnd _]%NoDup_cons). }
  unfold write in Hw. destruct (inp !! k') as [w'|] eqn:Hk'; [|done]. injection Hw as -> ->.
  apply not_prefix_disjoint; [|intros Heq; apply Hne; rewrite <-(Join_Split k sep), <-(Join_Split k' sep) by done; by rewrite Heq|apply Hdeep; eauto].
  pose proof (expand_sorted sep keys) as Hs. fold sorted in Hs. rewrite Hsorted in Hs. apply StronglySorted_app in Hs as (_ & _ & Hs).
  apply StronglySorted_inv in Hs as [_ Hs]. rewrite Forall_forall in Hs. specialize (Hs k' Hin). unfold expand_leb in Hs.
  rewrite !strings_Count_spec. destruct (Nat.compare_spec (strings_Count k sep) (strings_Count k' sep)); [lia|lia|done].
Qed.

(** ** The Vault watch *)

(** A suppressed version has an event on its way whose load has not begun. *)
Definition in_flight (s : vault_state) : Prop := v_sending s = Some (v_notified s) ∨ 0 < v_events s ∨ v_taken s = true.
Definition vault_ok (s : vault_state) : Prop := v_notified s ≠ 0%Z → in_flight s.

Lemma vault_step_ok s s' : vault_ok s → vault_step s s' → vault_ok s'.
Proof.
  unfold vault_ok, in_flight. intros Hok Hstep. destruct Hstep as [s|s version|s v Hs|s|s]; cbn; [done|done| | |].
  - unfold poll_marks. destruct (_ || _ || _); cbn; [done|by left].
  - unfold poll_sends. destruct (v_sending s) as [v|] eqn:Hv; [|intros Hn; specialize (Hok Hn); by rewrite Hv].
    destruct (v_events s <? vault_cap) eqn:Hcap; cbn; [intros _; right; left; lia|].
    apply Nat.ltb_ge in Hcap. unfold vault_cap in Hcap. intros _. right; left. lia.
  - unfold take_event. destruct (v_events s) as [|n] eqn:Hn; cbn; [rewrite Hn; done|]. intros _. right; by right.
Qed.

Lemma vault_reachable_ok s : rtc vault_step vault_start s → vault_ok s.
Proof.
  intros Hs. assert (vault_ok vault_start) as H0 by (intros H; by destruct H). induction Hs as [|s1 s2 s3 H1 _ IH]; [done|]. apply IH. by eapply vault_step_ok.
Qed.

(** No new version of a secret is lost.  However loads, polls and the consumer
    interleave, a version that a poll does not announce is either the loaded one
    or has an event on its way whose load has not begun; so a poll that finds the
    watch idle announces every other version. *)
Theorem vault_no_lost_version (s : vault_state) (v : Z) (Hs : rtc vault_step vault_start s) (Hv : v ≠ 0%Z) (Hnew : v ≠ v_version s) :
  (poll_marks s v = s → in_flight s)
  ∧ (v_sending s = None → v_events s = 0 → v_taken s = false → v_events (poll_sends (poll_marks s v)) = 1).
Proof.
  pose proof (vault_reachable_ok s Hs) as Hok. unfold poll_marks.
  rewrite (proj2 (Z.eqb_neq _ _) Hv), (proj2 (Z.eqb_neq _ _) Hnew). cbn [orb]. destruct (Z.eqb_spec v (v_notified s)) as [->|Hne].
  - split; [intros _; by apply Hok|]. intros Hsend Hev Htaken. destruct (Hok Hv) as [H|[H|H]]; [congruence|lia|congruence].
  - split; [intros Heq; rewrite <-Heq; by left|]. intros _ Hev _. unfold poll_sends. cbn. by rewrite Hev.
Qed.

(** A lease is renewed before it expires: a token with a lease of at least two
    seconds logs in again earlier than that, and five seconds earlier when the
    lease is longer than that margin. *)
Lemma renew_before_expiry p ttl : (2 ≤ ttl → ∃ wait, renew_wait p ttl 0 = Some wait ∧ wait < ttl * second ∧ (6 ≤ ttl → wait ≤ (ttl - 5) * second))%Z.
Proof.
  intros Ht. unfold renew_wait. rewrite (proj2 (Z.leb_gt _ _)) by lia. cbn [Z.ltb]. eexists. split; [done|].
  change (0 <? 0)%Z with false. cbn match. unfold second. lia.
Qed.

(** A lease shorter than a second counts as one that does not expire, and after
    a failed login with a lease of one second the retry comes after fifteen. *)
Example short_leases p :
  (∃ s, token_login (Ok ("t", second - 1)%Z) {| t_token := ""; t_ttl := 0 |} = Ok s ∧ renew_wait p (t_ttl s) 0 = None)
  ∧ renew_retry 1 = (15 * second)%Z.
Proof. split; [|done]. eexists. split; [reflexivity|]. reflexivity. Qed.

(** ** Witnesses *)

Lemma consul_tree_witness :
  let p := {| cp_name := "c"; cp_addr := "http://h"; cp_prefix := "app"; cp_mode := ModeKV; cp_token := ""; cp_dc := ""; cp_wait := "5m0s"; cp_maxBodyBytes := 0 |} in
  let pairs := [{| kv_Key := "app/db/dsn"; kv_Value := "x"; kv_ModifyIndex := 1 |}; {| kv_Key := "application/a"; kv_Value := "y"; kv_ModifyIndex := 2 |}] in
  ∃ t, consul_decode Some (λ _, Ok None) p pairs = Ok (Some t) ∧ get_at (VMap t) ["db"; "dsn"] = Some (VString "x").
Proof.
  intros p pairs. pose proof (consul_tree (λ _, Ok []) Some (λ _, Ok None) p pairs eq_refl) as Ht.
  change (find (pair_bad Some p) pairs) with (@None kvPair) in Ht. cbn iota in Ht. destruct Ht as (t & Ht & Hget & _). exists t. split; [exact Ht|].
  apply (Hget [] (nth 0 pairs (Build_kvPair "" "" 0)) [nth 1 pairs (Build_kvPair "" "" 0)]); [reflexivity|reflexivity|].
  intros kv' q w Hin Hw. apply list_elem_of_singleton in Hin. subst kv'. vm_compute in Hw. discriminate.
Defined.

Lemma consul_change_announced_witness :
  let w := {| w_cursor := 9; w_loaded := 9; w_out := []; w_backoff := consul_backoff |} in
  let w1 := (watch_iteration (E := string) w 9 9 (Ok 4%N)).1 in
  w_out (watch_iteration (E := string) w1 9 9 (Ok 4%N)).1 ≠ [].
Proof. intros w w1. apply (consul_change_announced string w 9 4); discriminate. Defined.

Lemma vault_expand_witness :
  get_at (VMap (expand {| vp_separator := "."; vp_renewBefore := 0 |} {[ "a.b" := VBool true; "a" := VBool false ]} ["a.b"; "a"])) ["a"; "b"]
  = Some (VBool true).
Proof.
  apply (vault_expand {| vp_separator := "."; vp_renewBefore := 0 |} {[ "a.b" := VBool true; "a" := VBool false ]} ["a.b"; "a"]) with (k := "a.b").
  - discriminate.
  - apply (bool_decide_unpack _). vm_compute. reflexivity.
  - reflexivity.
  - intros k' Hk' Hne. assert (k' = "a") as ->.
    { destruct Hk' as [x Hx]. apply lookup_insert_Some in Hx as [[<- _]|[_ Hx]]; [done|]. by apply lookup_singleton_Some in Hx as [<- _]. }
    apply (bool_decide_unpack _). vm_compute. reflexivity.
Defined.

Lemma vault_no_lost_version_witness :
  v_events (poll_sends (poll_marks (load_accepts vault_start 1) 2)) = 1.
Proof.
  apply (vault_no_lost_version (load_accepts vault_start 1) 2); [|discriminate|discriminate|reflexivity..].
  apply rtc_once. constructor.
Defined.
