(* ===== verification/Hierarchies.v ===== *)
(** * Hierarchies of settings (providers/parameterstore, providers/azappconfig)

    The providers that read flat, separated names page by page into a tree and
    refuse conflicting names.  The SDK clients are parameters: a load is given the
    answers of its successive page requests, an error among them standing for a
    failed call or a cancelled context.  [strconv.Quote] is a parameter. *)
From S2P Require Import Prelude GoStrings Value Path CodecRegistry Env.
From Stdlib Require Import Ascii.
From stdpp Require Import pretty.
Open Scope nat_scope.

(** ** Insertion without conflicts *)

Inductive insert_error := ErrSegment | ErrConflictingKey | ErrLeafBranch.

(** [insert]; [bad] is the test on segments, in which the providers differ. *)
Fixpoint insert_setting (bad : string → bool) (root : gmap string value) (keys : list string) (v : string)
    : result insert_error (gmap string value) :=
  match keys with
  | [] => Ok root
  | key :: rest =>
      if bad key then Err ErrSegment else
      match rest, root !! key with
      | [], Some _ => Err ErrConflictingKey
      | [], None => Ok (<[key := VString v]> root)
      | _, None => b ← insert_setting bad ∅ rest v; Ok (<[key := VMap b]> root)
      | _, Some (VMap branch) => b ← insert_setting bad branch rest v; Ok (<[key := VMap b]> root)
      | _, Some _ => Err ErrLeafBranch
      end
  end.

(** ** Parameter Store *)

Inductive store_error := ErrLoad (e : string) | ErrItem | ErrDuplicate (name : string) | ErrTooLarge (limit : Z)
| ErrToken | ErrInsert (name : string) (e : insert_error).

Record parameter := { pm_Name : option string; pm_Value : option string; pm_Version : Z }.
Record parameter_page := { pg_Parameters : list parameter; pg_NextToken : option string }.
Record parameter_provider := { ps_path : string; ps_maxBodyBytes : Z }.

Definition bad_parameter_segment (s : string) : bool := String.eqb s "" || String.eqb s "." || String.eqb s "..".

(** [New], on the path of the configuration. *)
Definition parameter_New (path : string) : option string :=
  let root := TrimRight path "/" in
  if String.eqb root "" || negb (HasPrefix root "/") then None
  else if existsb bad_parameter_segment (strings_Split (str_drop 1 root) "/") then None else Some root.

Section parameters.
Context `{GoStd} (quote : string → string).

Notation values := (gmap string (string * Z)).

(** One item of a page: the values by name and the bytes so far. *)
Definition collect_parameter (p : parameter_provider) (acc : values * Z) (item : parameter) : result store_error (values * Z) :=
  match pm_Name item, pm_Value item with
  | Some full, Some v =>
      if negb (HasPrefix full (ps_path p +:+ "/")) then Err ErrItem else
      let name := TrimPrefix full (ps_path p +:+ "/") in
      match acc.1 !! name with
      | Some _ => Err (ErrDuplicate name)
      | None =>
          let total := (acc.2 + len64 full + len64 v)%Z in
          if (ps_maxBodyBytes p <? total)%Z then Err (ErrTooLarge (ps_maxBodyBytes p))
          else Ok (<[name := (v, pm_Version item)]> acc.1, total)
      end
  | _, _ => Err ErrItem
  end.

(** The page loop; [None] when the answers end before the last page. *)
Fixpoint parameter_pages (p : parameter_provider) (answers : list (result string parameter_page)) (tokens : gset string)
    (acc : values * Z) : option (result store_error values) :=
  match answers with
  | [] => None
  | Err e :: _ => Some (Err (ErrLoad e))
  | Ok page :: answers =>
      match foldM (collect_parameter p) acc (pg_Parameters page) with
      | Err e => Some (Err e)
      | Ok acc =>
          match pg_NextToken page with
          | None | Some "" => Some (Ok acc.1)
          | Some token => if bool_decide (token ∈ tokens) then Some (Err ErrToken)
                          else parameter_pages p answers ({[ token ]} ∪ tokens) acc
          end
      end
  end.

Definition sorted_names {A} (m : gmap string A) : list string := sort_strings (map_to_list m).*1.

(** The tree and the text that is hashed. *)
Definition parameter_step (vals : values) (acc : gmap string value * string) (name : string)
    : result store_error (gmap string value * string) :=
  let item := default ("", 0%Z) (vals !! name) in
  data ← map_err (ErrInsert name) (insert_setting bad_parameter_segment acc.1 (strings_Split name "/") item.1);
  Ok (data, acc.2 +:+ quote name +:+ ":" +:+ quote item.1 +:+ ":" +:+ pretty item.2 +:+ ";").

Definition parameter_snapshot (vals : values) : result store_error (gmap string value * string) :=
  r ← foldM (parameter_step vals) (∅, "") (sorted_names vals);
  Ok (r.1, hex (go_sha256 r.2)).

Definition parameter_Load (p : parameter_provider) (answers : list (result string parameter_page))
    : option (result store_error (gmap string value * string)) :=
  r ← parameter_pages p answers ∅ (∅, 0%Z); Some (r ≫= parameter_snapshot).
End parameters.

(** ** Azure App Configuration *)

Record setting := { st_Key : option string; st_Value : option string; st_Label : option string; st_ContentType : option string; st_ETag : option string }.
Record azure_config := { az_Prefix : string; az_Label : string; az_maxBytes : Z }.

Inductive azure_error := ErrList (e : string) | ErrMissing | ErrSelection | ErrContentType | ErrAzureTooLarge | ErrDuplicateKey | ErrKey (e : insert_error).

(** [escape]: the literal form of a filter. *)
Fixpoint escape (s : string) : string :=
  match s with
  | "" => ""
  | String c s =>
      if Ascii.eqb c "\"%char || Ascii.eqb c "*"%char || Ascii.eqb c ","%char then String "\" (String c (escape s)) else String c (escape s)
  end.

(** The filters of the listing; an empty label selects unlabelled settings. *)
Definition key_filter (c : azure_config) : string := escape (az_Prefix c) +:+ "*".
Definition label_filter (c : azure_config) : string :=
  let label := escape (az_Label c) in if String.eqb label "" then bytes [0] else label.

Definition bad_azure_segment (s : string) : bool := String.eqb s "".

Section azure.
Context `{GoStd} (quote : string → string).

Definition collect_setting (c : azure_config) (acc : gmap string setting * Z) (s : setting) : result azure_error (gmap string setting * Z) :=
  match st_Key s, st_Value s with
  | Some key, Some v =>
      let label := default "" (st_Label s) in
      if negb (HasPrefix key (az_Prefix c)) || negb (String.eqb label (az_Label c)) then Err ErrSelection
      else if HasPrefix (ToLower (default "" (st_ContentType s))) "application/vnd.microsoft.appconfig." then Err ErrContentType else
      let total := (acc.2 + (len64 key + len64 v + len64 label))%Z in
      if (az_maxBytes c <? total)%Z then Err ErrAzureTooLarge
      else match acc.1 !! key with
           | Some _ => Err ErrDuplicateKey
           | None => Ok (<[key := s]> acc.1, total)
           end
  | _, _ => Err ErrMissing
  end.

Fixpoint setting_pages (c : azure_config) (pages : list (result string (list setting))) (acc : gmap string setting * Z)
    : result azure_error (gmap string setting) :=
  match pages with
  | [] => Ok acc.1
  | Err e :: _ => Err (ErrList e)
  | Ok page :: pages => acc ← foldM (collect_setting c) acc page; setting_pages c pages acc
  end.

Definition setting_step (c : azure_config) (settings : gmap string setting) (acc : gmap string value * string) (key : string)
    : result azure_error (gmap string value * string) :=
  let s := default (Build_setting None None None None None) (settings !! key) in
  let v := default "" (st_Value s) in
  data ← map_err ErrKey (insert_setting bad_azure_segment acc.1 (strings_Split (TrimPrefix key (az_Prefix c)) ":") v);
  Ok (data, acc.2 +:+ quote key +:+ ":" +:+ quote (az_Label c) +:+ ":" +:+ quote (default "" (st_ETag s)) +:+ ":" +:+ quote v +:+ ";").

Definition azure_Load (c : azure_config) (pages : list (result string (list setting))) : result azure_error (gmap string value * string) :=
  settings ← setting_pages c pages (∅, 0%Z);
  r ← foldM (setting_step c settings) (∅, "") (sorted_names settings);
  Ok (r.1, hex (go_sha256 r.2)).
End azure.

(** ** What insertion accepts *)

(** The path can be created: nothing is there, and every node above is a map. *)
Definition free (root : gmap string value) (keys : list string) : Prop :=
  get_at (VMap root) keys = None
  ∧ ∀ q r w, q ≠ [] → r ≠ [] → keys = q ++ r → get_at (VMap root) q = Some w → ∃ m, w = VMap m.

Lemma free_cons root key rest : rest ≠ [] → (∀ w, root !! key = Some w → ∃ m, w = VMap m) →
  free (child_map root key) rest ↔ free root (key :: rest).
Proof.
  intros Hrest Hchild. unfold free. rewrite (get_at_child root key rest) by done. split; intros [Hnone Hup]; (split; [done|]); intros q r w Hq Hr Heq Hw.
  - destruct q as [|k q]; [done|]. injection Heq as <- Heq. destruct q as [|k' q].
    + rewrite get_at_map in Hw. destruct (root !! key) as [w'|] eqn:Hk; [|done]. injection Hw as <-. by apply Hchild.
    + rewrite get_at_child in Hw by done. by eapply (Hup (k' :: q) r).
  - subst rest. apply (Hup (key :: q) r w); [done|done|done|]. by rewrite get_at_child.
Qed.

Lemma insert_spec bad keys : ∀ root v, keys ≠ [] →
  (∀ root', insert_setting bad root keys v = Ok root' →
     root' = set_at root keys (VString v) ∧ Forall (λ k, bad k = false) keys ∧ free root keys)
  ∧ (Forall (λ k, bad k = false) keys → free root keys → insert_setting bad root keys v = Ok (set_at root keys (VString v))).
Proof.
  induction keys as [|key rest IH]; intros root v Hne; [done|]. cbn [insert_setting]. destruct (decide (rest = [])) as [->|Hrest].
  - split.
    + intros root'. destruct (bad key) eqn:Hbad, (root !! key) eqn:Hk; try done. intros [= <-]. split; [done|]. split; [by repeat constructor|].
      split; [by rewrite get_at_map, Hk|]. intros q r w Hq Hr Heq. destruct q as [|k [|]], r; simplify_eq/=.
    + intros [-> _]%Forall_cons [Hnone _]. rewrite get_at_map in Hnone. by destruct (root !! key).
  - destruct rest as [|k rest]; [done|]. clear Hrest. set (tl := k :: rest) in *. assert (tl ≠ []) as Htl by done.
    pose proof (IH (child_map root key) v Htl) as [IH1 IH2]. clear IH. unfold child_map in IH1, IH2. fold (child_map root key) in IH1, IH2.
    assert (∀ w, root !! key = Some w → free root (key :: tl) → ∃ m, w = VMap m) as Hup.
    { intros w Hw [_ Hf]. apply (Hf [key] tl w); [done|done|done|]. by rewrite get_at_map, Hw. }
    rewrite set_at_cons by done. split.
    + intros root'. destruct (bad key) eqn:Hbad; [done|]. unfold child_map in IH1.
      assert ((∀ w, root !! key = Some w → ∃ m, w = VMap m) → insert_setting bad (child_map root key) tl v ≫= (λ b, Ok (<[key := VMap b]> root)) = Ok root' →
        root' = <[key := VMap (set_at (child_map root key) tl (VString v))]> root ∧ Forall (λ k, bad k = false) (key :: tl) ∧ free root (key :: tl)) as Hgo.
      { intros Hmap (b & Hb & Hr)%bind_Ok. apply IH1 in Hb as (-> & Hgood & Hfree). injection Hr as <-. split; [done|]. split; [by constructor|]. by apply free_cons. }
      unfold child_map in Hgo. destruct (root !! key) as [w|] eqn:Hk; [|apply Hgo; by intros].
      destruct w; try done. intros H. apply Hgo; [|done]. intros w' [= <-]. eauto.
    + intros [-> Hgood]%Forall_cons Hfree. assert (∀ w, root !! key = Some w → ∃ m, w = VMap m) as Hmap by (intros w Hw; by apply Hup).
      apply free_cons in Hfree; [|done|done]. specialize (IH2 Hgood Hfree). unfold child_map in IH2 |- *.
      destruct (root !! key) as [w|] eqn:Hk; [destruct (Hmap w eq_refl) as [m ->]|]; by rewrite IH2.
Qed.

(** ** The tree of a list of settings *)

Notation entry := (list string * string)%type.

(** The nodes of a tree that holds exactly the entries. *)
Record tree_of (t : gmap string value) (es : list entry) : Prop := {
  to_leaf : ∀ p s, (p, s) ∈ es → get_at (VMap t) p = Some (VString s);
  to_node : ∀ q w, q ≠ [] → get_at (VMap t) q = Some w →
    (∃ s, w = VString s ∧ (q, s) ∈ es) ∨ (∃ m p s r, w = VMap m ∧ (p, s) ∈ es ∧ r ≠ [] ∧ p = q ++ r);
}.

Lemma get_set_above m p q r v : q ≠ [] → r ≠ [] → p = q ++ r → ∃ m', get_at (VMap (set_at m p v)) q = Some (VMap m').
Proof.
  intros Hq Hr ->. revert m. induction q as [|k q IH]; intros m; [done|]. cbn [app]. rewrite set_at_cons by (by destruct q).
  rewrite get_at_map, lookup_insert_eq. destruct q as [|k' q]; [by eexists|]. by apply IH.
Qed.

Lemma get_set_below m p q r s : p ≠ [] → r ≠ [] → q = p ++ r → get_at (VMap (set_at m p (VString s))) q = None.
Proof.
  intros Hp Hr ->. revert m. induction p as [|k p IH]; intros m; [done|]. cbn [app]. destruct (decide (p = [])) as [->|Hne].
  - cbn [set_at app]. rewrite get_at_map, lookup_insert_eq. by rewrite get_at_non_map.
  - rewrite set_at_cons by done. rewrite get_at_map, lookup_insert_eq. by apply IH.
Qed.

Lemma tree_of_empty : tree_of ∅ [].
Proof. split; [by intros ?? ?%not_elem_of_nil|]. intros q w Hq Hg. by rewrite get_at_empty in Hg. Qed.

Lemma tree_of_insert t es p s : p ≠ [] → tree_of t es → (∀ e, e ∈ es → disjoint_paths p e.1) →
  tree_of (set_at t p (VString s)) (es ++ [(p, s)]).
Proof.
  intros Hp [Hleaf Hnode] Hdis. split.
  - intros q s' [Hin|Heq%list_elem_of_singleton]%elem_of_app; [|simplify_eq; by apply get_set_at].
    rewrite get_set_at_frame; [by apply Hleaf|]. by apply (Hdis (q, s')).
  - intros q w Hq Hg. destruct (decide (p `prefix_of` q)) as [[r ->]|Hpq].
    { destruct (decide (r = [])) as [->|Hr]; [|by rewrite (get_set_below t p (p ++ r) r s) in Hg].
      rewrite app_nil_r in *. rewrite get_set_at in Hg by done. injection Hg as <-. left. exists s. split; [done|]. set_solver. }
    destruct (decide (q `prefix_of` p)) as [[r Hr]|Hqp].
    { assert (r ≠ []) as Hrn by (intros ->; rewrite app_nil_r in Hr; by subst). destruct (get_set_above t p q r (VString s) Hq Hrn Hr) as [m' Hm].
      rewrite Hm in Hg. injection Hg as <-. right. exists m', p, s, r. split_and!; [done|set_solver|done|done]. }
    rewrite get_set_at_frame in Hg by done. destruct (Hnode q w Hq Hg) as [(s' & -> & Hin)|(m & p' & s' & r & -> & Hin & ? & ?)]; [left|right].
    + exists s'. split; [done|]. set_solver.
    + exists m, p', s', r. split_and!; [done|set_solver|done|done].
Qed.

(** A path is free in the tree exactly when it is disjoint from every entry. *)
Lemma tree_of_free t es p : p ≠ [] → (∀ e, e ∈ es → e.1 ≠ []) → tree_of t es → free t p ↔ ∀ e, e ∈ es → disjoint_paths p e.1.
Proof.
  intros Hp Hne [Hleaf Hnode]. split.
  - intros [Hnone Hup] [q s] Hin. cbn. pose proof (Hleaf q s Hin) as Hq. specialize (Hne _ Hin). cbn in Hne. split.
    + intros [r Hr]. destruct (decide (r = [])) as [->|Hrn]; [rewrite app_nil_r in Hr; subst q; congruence|].
      assert (∀ m k r x, get_at (VMap m) (k ++ r) = Some x → k ≠ [] → get_at (VMap m) k ≠ None) as Habove.
      { clear. intros m k. revert m. induction k as [|a k IH]; intros m r x Hg Hk; [done|]. cbn [app] in Hg. rewrite get_at_map in Hg |- *.
        destruct (m !! a) as [w|]; [|done]. destruct (decide (k = [])) as [->|Hkn]; [done|].
        destruct k as [|b k]; [done|]. destruct w; try done. by eapply IH. }
      rewrite Hr in Hq. by eapply Habove.
    + intros [r Hr]. destruct (decide (r = [])) as [->|Hrn]; [rewrite app_nil_r in Hr; subst q; congruence|].
      destruct (Hup q r _ Hne Hrn Hr Hq) as [m ?]. done.
  - intros Hdis. split.
    + destruct (get_at (VMap t) p) as [w|] eqn:Hg; [|done]. destruct (Hnode p w Hp Hg) as [(s & -> & Hin)|(m & p' & s & r & -> & Hin & Hr & ->)].
      * destruct (Hdis _ Hin) as [H _]. by destruct H.
      * destruct (Hdis _ Hin) as [H _]. destruct H. by exists r.
    + intros q r w Hq Hr -> Hw. destruct (Hnode q w Hq Hw) as [(s & -> & Hin)|(m & ? & ? & ? & -> & _)]; [|by exists m].
      destruct (Hdis _ Hin) as [_ H]. destruct H. by exists r.
Qed.

(** Inserting the entries one after the other. *)
Definition insert_entries (bad : string → bool) (es : list entry) : result insert_error (gmap string value) :=
  foldM (λ t e, insert_setting bad t e.1 e.2) ∅ es.

Definition acceptable (bad : string → bool) (es : list entry) : Prop :=
  (∀ e, e ∈ es → Forall (λ k, bad k = false) e.1) ∧ ForallOrdPairs (λ a b, disjoint_paths b.1 a.1) es.

Lemma insert_entries_spec bad es : (∀ e, e ∈ es → e.1 ≠ []) →
  (∀ t, insert_entries bad es = Ok t → acceptable bad es ∧ tree_of t es)
  ∧ (acceptable bad es → ∃ t, insert_entries bad es = Ok t).
Proof.
  unfold insert_entries. induction es as [|[p s] es IH] using rev_ind; intros Hne.
  - split; [|intros _; by eexists]. intros t [= <-]. split; [|apply tree_of_empty]. split; [by intros ? ?%not_elem_of_nil|constructor].
  - assert (∀ e, e ∈ es → e.1 ≠ []) as Hne' by (intros e He; apply Hne; set_solver). destruct (IH Hne') as [IH1 IH2]. clear IH.
    assert (p ≠ []) as Hp by (apply (Hne (p, s)); set_solver). rewrite foldM_app. cbn [foldM]. split.
    + intros t (t0 & Ht0 & Ht)%bind_Ok. apply bind_Ok in Ht as (t1 & Ht & [= <-]). apply IH1 in Ht0 as [[Hgood Hpairs] Htree].
      cbn [fst snd] in Ht. apply insert_spec in Ht as (-> & Hseg & Hfree); [|done]. pose proof (proj1 (tree_of_free t0 es p Hp Hne' Htree) Hfree) as Hdis. split.
      * split; [|by apply ForallOrdPairs_snoc]. intros e [He| ->%list_elem_of_singleton]%elem_of_app; [by apply Hgood|done].
      * by apply tree_of_insert.
    + intros [Hgood Hpairs]. apply ForallOrdPairs_snoc in Hpairs as [Hpairs Hdis]. destruct IH2 as [t0 Ht0]; [split; [|done]; intros e He; apply Hgood; set_solver|].
      rewrite Ht0, bind_of_Ok. cbn [fst snd]. destruct (IH1 t0 Ht0) as [_ Htree].
      destruct (insert_spec bad p t0 s Hp) as [_ Hins]. rewrite Hins; [by eexists|apply (Hgood (p, s)); set_solver|]. by apply (proj2 (tree_of_free t0 es p Hp Hne' Htree)).
Qed.

Lemma tree_of_elements t es es' : (∀ e, e ∈ es ↔ e ∈ es') → tree_of t es → tree_of t es'.
Proof.
  intros Hes [Hleaf Hnode]. split.
  - intros p s Hin. apply Hleaf. by apply Hes.
  - intros q w Hq Hg. destruct (Hnode q w Hq Hg) as [(s & -> & Hin)|(m & p & s & r & -> & Hin & Hr & Hp)]; [left; exists s|right; exists m, p, s, r].
    + split; [done|]. by apply Hes.
    + split_and!; [done|by apply Hes|done|done].
Qed.

(** ** Loads of Parameter Store *)

Section parameter_facts.
Context (p : parameter_provider).

(** The name and the value of an item below the path. *)
Definition item_entry (item : parameter) : option (string * (string * Z)) :=
  full ← pm_Name item; v ← pm_Value item;
  if HasPrefix full (ps_path p +:+ "/") then Some (TrimPrefix full (ps_path p +:+ "/"), (v, pm_Version item)) else None.

Definition item_size (item : parameter) : Z := (len64 (default "" (pm_Name item)) + len64 (default "" (pm_Value item)))%Z.

Lemma item_size_pos item : (0 ≤ item_size item)%Z.
Proof. unfold item_size, len64. lia. Qed.

Lemma collect_eq acc item acc' : collect_parameter p acc item = Ok acc' ↔
  ∃ name x, item_entry item = Some (name, x) ∧ acc.1 !! name = None ∧ (acc.2 + item_size item ≤ ps_maxBodyBytes p)%Z
            ∧ acc' = (<[name := x]> acc.1, (acc.2 + item_size item)%Z).
Proof.
  unfold collect_parameter, item_entry, item_size. destruct (pm_Name item) as [full|], (pm_Value item) as [v|]; cbn; [|split; [done|by intros (?&?&?&_)]..].
  destruct (HasPrefix full _); cbn; [|split; [done|by intros (?&?&?&_)]]. set (name := TrimPrefix _ _).
  destruct (acc.1 !! name) eqn:Hk; [split; [done|intros (?&?&[= <- <-]&?&_); congruence]|].
  rewrite Z.add_assoc. destruct (Z.ltb_spec (ps_maxBodyBytes p) (acc.2 + len64 full + len64 v)).
  - split; [done|]. intros (?&?&[= <- <-]&_&Hle&_). lia.
  - split; [|by intros (?&?&[= <- <-]&_&_& ->)]. intros [= <-]. by eexists _, _.
Qed.

Lemma collect_swap acc x y r : collect_parameter p acc x ≫= (λ b, collect_parameter p b y) = Ok r →
  collect_parameter p acc y ≫= (λ b, collect_parameter p b x) = Ok r.
Proof.
  intros (b & (nx & vx & Hx & Hnx & Hsx & ->)%collect_eq & (ny & vy & Hy & Hny & Hsy & ->)%collect_eq)%bind_Ok. cbn [fst snd] in *.
  apply lookup_insert_None in Hny as [Hny Hne]. pose proof (item_size_pos x). pose proof (item_size_pos y).
  assert (collect_parameter p acc y = Ok (<[ny := vy]> acc.1, acc.2 + item_size y)%Z) as -> by (apply collect_eq; exists ny, vy; split_and!; [done..|lia|done]).
  rewrite bind_of_Ok. apply collect_eq. exists nx, vx. cbn [fst snd]. split_and!; [done|by rewrite lookup_insert_ne|lia|].
  f_equal; [by rewrite insert_insert_ne|lia].
Qed.

Lemma collect_elements items acc acc' : foldM (collect_parameter p) acc items = Ok acc' →
  ∀ name x, acc'.1 !! name = Some x ↔ acc.1 !! name = Some x ∨ ∃ item, item ∈ items ∧ item_entry item = Some (name, x).
Proof.
  revert acc. induction items as [|item items IH]; intros acc; cbn [foldM].
  - intros [= <-] name x. split; [by left|]. intros [?|(?&?%not_elem_of_nil&_)]; done.
  - intros (b & (n & v & He & Hn & _ & ->)%collect_eq & Hr)%bind_Ok name x. rewrite (IH _ Hr). cbn [fst]. rewrite lookup_insert_Some. split.
    + intros [[[<- <-]|[_ ?]]|(i & Hi & ?)]; [right; exists item; split; [left|done]|by left|right; exists i; split; [by right|done]].
    + intros [Hx|(i & [->|Hi]%elem_of_cons & Hie)]; [left; right; split; [congruence|done]|left; left; naive_solver|right; by exists i].
Qed.

(** Answers of a server that holds the items: every page but the last names the
    next one with a token of its own. *)
Inductive served : list (result string parameter_page) → gset string → list parameter → Prop :=
| Served_last page tokens : pg_NextToken page = None ∨ pg_NextToken page = Some "" → served [Ok page] tokens (pg_Parameters page)
| Served_next page token tokens answers items : pg_NextToken page = Some token → token ≠ "" → token ∉ tokens →
    served answers ({[ token ]} ∪ tokens) items → served (Ok page :: answers) tokens (pg_Parameters page ++ items).

Lemma pages_served answers tokens items acc : served answers tokens items →
  parameter_pages p answers tokens acc = Some (fst <$> foldM (collect_parameter p) acc items).
Proof.
  intros Hs. revert acc. induction Hs as [page tokens Hlast|page token tokens answers items Htok Hne Hfresh _ IH]; intros acc; cbn [parameter_pages].
  - destruct (foldM _ acc _); [|done]. by destruct Hlast as [-> | ->].
  - rewrite foldM_app. destruct (foldM _ acc _) as [acc'|]; [|done]. rewrite Htok, bind_of_Ok, bool_decide_false by done.
    destruct token; [done|]. apply IH.
Qed.

End parameter_facts.

Definition name_entry (vals : gmap string (string * Z)) (name : string) : entry :=
  (strings_Split name "/", (default ("", 0%Z) (vals !! name)).1).

Lemma step_fold quote vals names t text r : foldM (parameter_step quote vals) (t, text) names = Ok r →
  foldM (λ t e, insert_setting bad_parameter_segment t e.1 e.2) t (name_entry vals <$> names) = Ok r.1.
Proof.
  revert t text. induction names as [|name names IH]; intros t text; [by intros [= <-]|]. cbn [foldM fmap list_fmap].
  intros (acc & Hacc & Hr)%bind_Ok. unfold parameter_step in Hacc. cbn [fst snd] in Hacc. apply bind_Ok in Hacc as (data & Hdata & [= <-]).
  destruct (insert_setting _ _ _ _) as [t'|] eqn:Hi in Hdata; [|done]. injection Hdata as ->. cbn [fst snd name_entry]. rewrite Hi, bind_of_Ok. by eapply IH.
Qed.

Lemma sorted_names_elem {A} (m : gmap string A) name : name ∈ sorted_names m ↔ is_Some (m !! name).
Proof.
  unfold sorted_names, sort_strings. rewrite sort_stable_perm, list_elem_of_fmap. split.
  - intros ([k v] & -> & Hk%elem_of_map_to_list). by eexists.
  - intros [v Hv]. exists (name, v). split; [done|]. by apply elem_of_map_to_list.
Qed.

Lemma snapshot_tree `{GoStd} quote vals t rev : parameter_snapshot quote vals = Ok (t, rev) →
  tree_of t (name_entry vals <$> sorted_names vals) ∧ acceptable bad_parameter_segment (name_entry vals <$> sorted_names vals).
Proof.
  unfold parameter_snapshot. intros ([t' text] & Hr%step_fold & [= -> _])%bind_Ok. cbn [fst] in Hr.
  destruct (insert_entries_spec bad_parameter_segment (name_entry vals <$> sorted_names vals)) as [Hok _].
  - intros e (name & -> & _)%list_elem_of_fmap. apply Split_ne.
  - by destruct (Hok t Hr).
Qed.

(** A load of Parameter Store gives exactly the items of all pages: its leaves
    are their values, at the segments of their names below the path, no name is a
    prefix of another one, and neither the order of the items nor the way they
    are split into pages changes the tree or its revision. *)
Theorem parameter_load_exact `{GoStd} (quote : string → string) (p : parameter_provider) (answers : list (result string parameter_page))
    (items : list parameter) (t : gmap string value) (rev : string)
    (Hserved : served answers ∅ items) (Hload : parameter_Load quote p answers = Some (Ok (t, rev))) :
  (∀ path s, path ≠ [] → get_at (VMap t) path = Some (VString s) ↔
     ∃ item name version, item ∈ items ∧ item_entry p item = Some (name, (s, version)) ∧ path = strings_Split name "/")
  ∧ (∀ path w, path ≠ [] → get_at (VMap t) path = Some w → (∃ s, w = VString s) ∨ ∃ m, w = VMap m)
  ∧ (∀ answers' items', served answers' ∅ items' → items' ≡ₚ items → parameter_Load quote p answers' = Some (Ok (t, rev))).
Proof.
  unfold parameter_Load in *. rewrite (pages_served p _ _ _ _ Hserved) in Hload. cbn [mbind option_bind] in Hload. injection Hload as Hload.
  destruct (foldM (collect_parameter p) (∅, 0%Z) items) as [acc|] eqn:Hfold; [|done]. cbn in Hload.
  pose proof (collect_elements p _ _ _ Hfold) as Hel. destruct (snapshot_tree quote _ _ _ Hload) as [[Hleaf Hnode] _].
  split; [|split].
  - intros path s Hne. split.
    + intros Hg. destruct (Hnode path _ Hne Hg) as [(s' & [= <-] & Hin)|(m & ? & ? & ? & ? & _)]; [|done].
      apply list_elem_of_fmap in Hin as (name & [= -> Hs] & Hname%sorted_names_elem). destruct Hname as [[v version] Hv]. rewrite Hv in Hs. cbn in Hs. subst v.
      apply Hel in Hv as [Hv|(item & Hin & He)]; [cbn in Hv; by rewrite lookup_empty in Hv|]. by exists item, name, version.
    + intros (item & name & version & Hin & He & ->). assert (acc.1 !! name = Some (s, version)) as Hv by (apply Hel; right; by exists item).
      apply Hleaf. apply list_elem_of_fmap. exists name. unfold name_entry. rewrite Hv. split; [done|]. apply sorted_names_elem. eauto.
  - intros path w Hne Hg. destruct (Hnode path w Hne Hg) as [(s & -> & _)|(m & ? & ? & ? & -> & _)]; eauto.
  - intros answers' items' Hserved' Hperm. rewrite (pages_served p _ _ _ _ Hserved'). cbn [mbind option_bind].
    rewrite (foldM_perm _ items items' _ acc); [by cbn; rewrite Hload|apply collect_swap|done|done].
Qed.

(** ** Loads of Azure App Configuration *)

Section azure_facts.
Context `{GoStd} (c : azure_config).

(** A setting that the selection accepts. *)
Definition selected_setting (s : setting) (key v : string) : Prop :=
  st_Key s = Some key ∧ st_Value s = Some v ∧ HasPrefix key (az_Prefix c) = true ∧ default "" (st_Label s) = az_Label c
  ∧ HasPrefix (ToLower (default "" (st_ContentType s))) "application/vnd.microsoft.appconfig." = false.

Lemma collect_setting_inv acc s acc' : collect_setting c acc s = Ok acc' →
  ∃ key v, selected_setting s key v ∧ acc.1 !! key = None ∧ acc'.1 = <[key := s]> acc.1.
Proof.
  unfold collect_setting, selected_setting. destruct (st_Key s) as [key|], (st_Value s) as [v|]; try done.
  destruct (HasPrefix key (az_Prefix c)) eqn:Hp; [|done]. destruct (String.eqb_spec (default "" (st_Label s)) (az_Label c)) as [Hl|]; [|done]. cbn [negb orb].
  destruct (HasPrefix (ToLower _) _) eqn:Hct; [done|]. destruct (_ <? _)%Z; [done|]. destruct (acc.1 !! key) eqn:Hk; [done|].
  intros [= <-]. exists key, v. done.
Qed.

Lemma setting_pages_inv pages acc settings : setting_pages c pages acc = Ok settings →
  ∃ items, pages = Ok <$> items ∧ (∀ key s, acc.1 !! key = Some s → settings !! key = Some s)
    ∧ (∀ s, s ∈ concat items → ∃ key v, selected_setting s key v ∧ settings !! key = Some s)
    ∧ ∀ key s, settings !! key = Some s → acc.1 !! key = Some s ∨ s ∈ concat items ∧ st_Key s = Some key.
Proof.
  assert (∀ l acc acc', foldM (collect_setting c) acc l = Ok acc' → (∀ key s, acc.1 !! key = Some s → acc'.1 !! key = Some s)
    ∧ (∀ s, s ∈ l → ∃ key v, selected_setting s key v ∧ acc'.1 !! key = Some s)
    ∧ ∀ key s, acc'.1 !! key = Some s → acc.1 !! key = Some s ∨ s ∈ l ∧ st_Key s = Some key) as Hpage.
  { clear. intros l. induction l as [|x l IH]; intros acc acc'; cbn [foldM].
    - intros [= <-]. split; [done|]. split; [by intros ? ?%not_elem_of_nil|by left].
    - intros (b & (key & v & Hx & Hk & Hb)%collect_setting_inv & (Hkeep & Hin & Hfrom)%IH)%bind_Ok. rewrite Hb in Hkeep, Hfrom. split_and!.
      + intros k s Hs. apply Hkeep. rewrite lookup_insert_ne by congruence. done.
      + intros s [->|Hs]%elem_of_cons; [|by apply Hin]. exists key, v. split; [done|]. apply Hkeep. by rewrite lookup_insert_eq.
      + intros k s [Hs|[Hs ?]]%Hfrom; [|right; split; [by right|done]]. apply lookup_insert_Some in Hs as [[<- <-]|[_ ?]]; [|by left].
        right. split; [left|]. by destruct Hx. }
  revert acc. induction pages as [|[page|e] pages IH]; intros acc; cbn [setting_pages]; [| |done].
  - intros [= <-]. exists []. split; [done|]. split; [done|]. split; [by intros ? ?%not_elem_of_nil|by left].
  - intros (acc' & (Hkeep & Hin & Hfrom)%Hpage & Hr)%bind_Ok. destruct (IH acc' Hr) as (items & -> & Hkeep' & Hitems & Hback).
    exists (page :: items). split; [done|]. cbn [concat]. split; [by intros key s Hs%Hkeep%Hkeep'|]. split.
    + intros s [Hs|Hs]%elem_of_app; [|by apply Hitems]. destruct (Hin s Hs) as (key & v & Hsel & Hk). exists key, v. split; [done|by apply Hkeep'].
    + intros key s [Hs|[Hs ?]]%Hback; [apply Hfrom in Hs as [?|[? ?]]; [by left|right; split; [set_solver|done]]|right; split; [set_solver|done]].
Qed.

Definition az_entry (settings : gmap string setting) (key : string) : entry :=
  (strings_Split (TrimPrefix key (az_Prefix c)) ":", default "" (settings !! key ≫= st_Value)).

Lemma setting_fold quote settings keys t text r : foldM (setting_step quote c settings) (t, text) keys = Ok r →
  foldM (λ t e, insert_setting bad_azure_segment t e.1 e.2) t (az_entry settings <$> keys) = Ok r.1.
Proof.
  revert t text. induction keys as [|key keys IH]; intros t text; [by intros [= <-]|]. cbn [foldM fmap list_fmap].
  intros (acc & Hacc & Hr)%bind_Ok. unfold setting_step in Hacc. cbn [fst snd] in Hacc. apply bind_Ok in Hacc as (data & Hdata & [= <-]).
  destruct (insert_setting _ _ _ _) as [t'|] eqn:Hi in Hdata; [|done]. injection Hdata as ->. cbn [fst snd az_entry].
  assert (default "" (settings !! key ≫= st_Value) = default "" (st_Value (default (Build_setting None None None None None) (settings !! key)))) as ->
    by (by destruct (settings !! key)).
  rewrite Hi, bind_of_Ok. by eapply IH.
Qed.
End azure_facts.

(** A load of Azure App Configuration gives exactly the listed settings, which
    all belong to the selection: the leaves of the tree are their values, at the
    segments of their keys below the prefix. *)
Theorem azure_load_exact `{GoStd} (quote : string → string) (c : azure_config) (pages : list (result string (list setting)))
    (t : gmap string value) (rev : string) (Hload : azure_Load quote c pages = Ok (t, rev)) :
  ∃ items, pages = Ok <$> items
    ∧ (∀ s, s ∈ concat items → ∃ key v, selected_setting c s key v)
    ∧ (∀ path v, path ≠ [] → get_at (VMap t) path = Some (VString v) ↔
         ∃ s key, s ∈ concat items ∧ selected_setting c s key v ∧ path = strings_Split (TrimPrefix key (az_Prefix c)) ":").
Proof.
  unfold azure_Load in Hload. apply bind_Ok in Hload as (settings & Hpages & Hload). apply bind_Ok in Hload as ([t' text] & Hr & [= -> _]).
  apply setting_pages_inv in Hpages as (items & -> & _ & Hitems & Hback). exists items. split; [done|].
  split; [intros s (key & v & ? & _)%Hitems; by exists key, v|]. apply setting_fold in Hr. cbn [fst] in Hr.
  destruct (insert_entries_spec bad_azure_segment (az_entry c settings <$> sorted_names settings)) as [Hok _].
  { intros e (name & -> & _)%list_elem_of_fmap. apply Split_ne. }
  destruct (Hok t Hr) as [_ [Hleaf Hnode]]. intros path v Hne. split.
  - intros Hg. destruct (Hnode path _ Hne Hg) as [(s' & [= <-] & Hin)|(m & ? & ? & ? & ? & _)]; [|done].
    apply list_elem_of_fmap in Hin as (key & [= -> Hs] & Hkey%sorted_names_elem). destruct Hkey as [s Hsk]. rewrite Hsk in Hs. cbn in Hs.
    destruct (Hback key s Hsk) as [Hbad|[Hin Hks]]; [cbn in Hbad; by rewrite lookup_empty in Hbad|].
    destruct (Hitems s Hin) as (key' & v' & Hsel & _). exists s, key'. split; [done|]. destruct Hsel as (Hk' & Hv' & ?). rewrite Hk' in Hks. injection Hks as ->.
    rewrite Hv' in Hs. cbn in Hs. subst v'. done.
  - intros (s & key & Hin & Hsel & ->). destruct (Hitems s Hin) as (key' & v' & Hsel' & Hk').
    destruct Hsel as (Hk & Hv & ?), Hsel' as (Hk2 & Hv2 & ?). rewrite Hk in Hk2. injection Hk2 as <-.
    apply Hleaf. apply list_elem_of_fmap. exists key. unfold az_entry. rewrite Hk'. cbn. rewrite Hv. split; [done|]. apply sorted_names_elem. eauto.
Qed.

(** ** Witnesses *)

Lemma parameter_load_exact_witness :
  let p := {| ps_path := "/app"; ps_maxBodyBytes := 1000 |} in
  let item name v := {| pm_Name := Some name; pm_Value := Some v; pm_Version := 1 |} in
  let answers := [Ok {| pg_Parameters := [item "/app/db/dsn" "x"]; pg_NextToken := Some "n" |};
                  Ok {| pg_Parameters := [item "/app/port" "y"]; pg_NextToken := None |}] in
  let items := [item "/app/db/dsn" "x"; item "/app/port" "y"] in
  ∃ t rev, @parameter_Load example_std (λ s, s) p answers = Some (Ok (t, rev))
    ∧ get_at (VMap t) ["db"; "dsn"] = Some (VString "x").
Proof.
  intros p item answers items.
  destruct (@parameter_Load example_std (λ s, s) p answers) as [[[t rev]|]|] eqn:Hload; [|exfalso; vm_compute in Hload; discriminate..].
  exists t, rev. split; [reflexivity|].
  apply (@parameter_load_exact example_std (λ s, s) p answers items t rev); [|exact Hload|discriminate|].
  - apply (Served_next {| pg_Parameters := [item "/app/db/dsn" "x"]; pg_NextToken := Some "n" |} "n" ∅ _ [item "/app/port" "y"]);
      [reflexivity|discriminate|apply not_elem_of_empty|]. apply Served_last. left. reflexivity.
  - exists (item "/app/db/dsn" "x"), "db/dsn", 1%Z. split; [left|split; vm_compute; reflexivity].
Defined.

Lemma azure_load_exact_witness :
  let c := {| az_Prefix := "app:"; az_Label := ""; az_maxBytes := 1000 |} in
  let s := {| st_Key := Some "app:a:b"; st_Value := Some "x"; st_Label := None; st_ContentType := None; st_ETag := None |} in
  ∃ t rev, @azure_Load example_std (λ s, s) c [Ok [s]] = Ok (t, rev) ∧ ∃ items, [Ok [s]] = Ok (E := string) <$> items.
Proof.
  intros c s. destruct (@azure_Load example_std (λ s, s) c [Ok [s]]) as [[t rev]|] eqn:Hload; [|exfalso; vm_compute in Hload; discriminate].
  exists t, rev. split; [reflexivity|].
  destruct (@azure_load_exact example_std (λ s, s) c [Ok [s]] t rev Hload) as (items & Hitems & _). exists items. exact Hitems.
Defined.
