(* ===== verification/Documents.v ===== *)
(** * Remote documents (providers/http, s3, gcs, azblob, appconfig, secretmanager)

    The providers that keep one decoded document and ask their service for it
    again with the version they hold.  A client library is the function from what
    it is asked to its answer; decoders and SHA-256 are parameters.  Loads of one
    provider are serialized here, as the gates of gcs, azblob and appconfig do;
    http and s3 also allow overlapping requests: [RemoteWatch] has the polls of
    http beside its loads. *)
From S2P Require Import Prelude GoStrings Value Clone CodecRegistry.
From Stdlib Require Import Ascii.
From stdpp Require Import pretty.
Open Scope nat_scope.

(** What [Load] returns: the document and its revision. *)
Notation snapshot := (gomap * string)%type.

Inductive load_error := ErrRequest (e : string) | ErrStatus (code : Z) | ErrBody (e : read_error string) | ErrNotModified
| ErrUnknownCodec (ct : string) | ErrDecode (e : string) | ErrNoBody | ErrNoConfiguration | ErrNoToken | ErrTooLargeDocument | ErrChecksum | ErrNoPayload.

Section documents.
Context (decode : string → result string gomap).

(** ** HTTP (providers/http/http.go) *)

Record http_state := { h_etag : string; h_bodyHash : string; h_loaded : bool; h_lastBody : gomap }.
Record http_response := { hr_Status : Z; hr_ETag : string; hr_ContentType : string; hr_Body : reader string }.

Definition http_init : http_state := {| h_etag := ""; h_bodyHash := ""; h_loaded := false; h_lastBody := None |}.

Section http.
Context `{GoStd} (by_content_type : string → option (string → result string gomap)) (own_codec : bool) (maxBodyBytes : Z).

(** [fetch]: the body with its ETag and content type, or [None] for a 304. *)
Definition http_fetch (answer : result string http_response) : result load_error (option (string * string * string)) :=
  r ← map_err ErrRequest answer;
  if Z.eqb (hr_Status r) 304 then Ok None
  else if (200 <=? hr_Status r)%Z && (hr_Status r <? 300)%Z
  then b ← map_err ErrBody (ReadAllMax (hr_Body r) maxBodyBytes); Ok (Some (b, hr_ETag r, hr_ContentType r))
  else Err (ErrStatus (hr_Status r)).

Definition http_decoder (ct : string) : result load_error (string → result string gomap) :=
  if own_codec then Ok decode else of_option (ErrUnknownCodec ct) (by_content_type ct).

(** [Load]; [server] is given the [If-None-Match] header, empty for none. *)
Definition http_Load (s : http_state) (server : string → result string http_response) : http_state * result load_error snapshot :=
  match http_fetch (server (h_etag s)) with
  | Err e => (s, Err e)
  | Ok None => (s, if h_loaded s then Ok (h_lastBody s, h_etag s) else Err ErrNotModified)
  | Ok (Some (body, etag, ct)) =>
      let hash := go_sha256 body in
      if h_loaded s && String.eqb hash (h_bodyHash s)
      then ({| h_etag := etag; h_bodyHash := h_bodyHash s; h_loaded := true; h_lastBody := h_lastBody s |}, Ok (h_lastBody s, etag))
      else match dec ← http_decoder ct; map_err ErrDecode (dec body) with
           | Err e => (s, Err e)
           | Ok out => ({| h_etag := etag; h_bodyHash := hash; h_loaded := true; h_lastBody := out |}, Ok (out, etag))
           end
  end.

(** [poll]: whether a change is announced, and its ETag. *)
Definition http_poll (s : http_state) (server : string → result string http_response) : result load_error (bool * string) :=
  r ← http_fetch (server (h_etag s));
  match r with
  | None => Ok (false, "")
  | Some (body, etag, _) =>
      if h_loaded s && String.eqb (go_sha256 body) (h_bodyHash s) && String.eqb etag (h_etag s) then Ok (false, "") else Ok (true, etag)
  end.
End http.

(** ** S3 (providers/s3/s3.go) *)

Record s3_state := { s_etag : string; s_lastBody : gomap; s_loaded : bool }.
Definition s3_init : s3_state := {| s_etag := ""; s_lastBody := None; s_loaded := false |}.

(** [GetObject]: an error with whether it is a 304, or the ETag and the body. *)
Notation s3_answer := (result (string * bool) (option string * reader string)).

Definition s3_if_none_match (s : s3_state) : option string :=
  if s_loaded s && negb (String.eqb (s_etag s) "") then Some (s_etag s) else None.

Definition s3_Load (maxBodyBytes : Z) (s : s3_state) (client : option string → s3_answer) : s3_state * result load_error snapshot :=
  match client (s3_if_none_match s) with
  | Err (e, not_modified) => (s, if not_modified then Ok (DeepClone (s_lastBody s), s_etag s) else Err (ErrRequest e))
  | Ok (etag, body) =>
      match body ← map_err ErrBody (ReadAllMax body maxBodyBytes); map_err ErrDecode (decode body) with
      | Err e => (s, Err e)
      | Ok m => ({| s_etag := default "" etag; s_lastBody := m; s_loaded := true |}, Ok (DeepClone m, default "" etag))
      end
  end.

(** ** GCS (providers/gcs/gcs.go) *)

Record gcs_state := { g_generation : Z; g_data : gomap }.
Definition gcs_init : gcs_state := {| g_generation := 0; g_data := None |}.

(** [attrs] is the generation of the object, [read] reads a generation of it. *)
Definition gcs_Load (maxBodyBytes : Z) (s : gcs_state) (attrs : result string Z) (read : Z → result string (reader string))
    : gcs_state * result load_error snapshot :=
  match attrs with
  | Err e => (s, Err (ErrRequest e))
  | Ok generation =>
      if bool_decide (is_Some (g_data s)) && Z.eqb generation (g_generation s)
      then (s, Ok (DeepClone (g_data s), pretty (g_generation s)))
      else match reader ← map_err ErrRequest (read generation); body ← map_err ErrBody (ReadAllMax reader maxBodyBytes); map_err ErrDecode (decode body) with
           | Err e => (s, Err e)
           | Ok data => ({| g_generation := generation; g_data := data |}, Ok (DeepClone data, pretty generation))
           end
  end.

(** ** Azure Blob (providers/azblob/azblob.go) *)

Record blob_state := { b_etag : string; b_data : gomap }.
Definition blob_init : blob_state := {| b_etag := ""; b_data := None |}.

(** [DownloadStream]: an error with its status, or the ETag, the body if there is
    one, and whether an error code is set. *)
Record blob_response := { br_ETag : option string; br_Body : option (reader string); br_ErrorCode : bool }.

Definition blob_condition (s : blob_state) : option string :=
  if bool_decide (is_Some (b_data s)) && negb (String.eqb (b_etag s) "") then Some (b_etag s) else None.

Definition blob_Load (maxBodyBytes : Z) (s : blob_state) (client : option string → result (string * Z) blob_response)
    : blob_state * result load_error snapshot :=
  let condition := blob_condition s in
  match client condition with
  | Err (e, status) =>
      (s, if bool_decide (is_Some (b_data s)) && Z.eqb status 304 then Ok (DeepClone (b_data s), b_etag s) else Err (ErrRequest e))
  | Ok out =>
      match br_Body out with
      | None => (s, if br_ErrorCode out
                    then (if bool_decide (is_Some condition) then Ok (DeepClone (b_data s), b_etag s) else Err ErrNotModified)
                    else Err ErrNoBody)
      | Some body =>
          match body ← map_err ErrBody (ReadAllMax body maxBodyBytes); map_err ErrDecode (decode body) with
          | Err e => (s, Err e)
          | Ok data => let etag := default "" (br_ETag out) in ({| b_etag := etag; b_data := data |}, Ok (DeepClone data, etag))
          end
      end
  end.

(** ** Secret Manager (providers/secretmanager/secretmanager.go) *)

Definition resource_part_bad (s : string) : bool :=
  String.eqb s "" || String.eqb s "." || String.eqb s ".." || ContainsAny s "?#".

(** The resource names that [New] accepts: a version of a global or regional secret. *)
Definition secret_version_name (name : string) : bool :=
  let parts := strings_Split name "/" in
  let part i := nth i parts "" in
  match length parts with
  | 6 => String.eqb (part 0) "projects" && String.eqb (part 2) "secrets" && String.eqb (part 4) "versions"
  | 8 => String.eqb (part 0) "projects" && String.eqb (part 2) "locations" && String.eqb (part 4) "secrets" && String.eqb (part 6) "versions"
  | _ => false
  end && negb (existsb resource_part_bad parts).

(** [AccessSecretVersion]: the resolved name and the payload with its checksum. *)
Definition secret_Load (crc32c : string → Z) (maxBytes : Z) (answer : result string (string * option (string * option Z)))
    : result load_error snapshot :=
  out ← map_err ErrRequest answer;
  match out.2 with
  | None => Err ErrNoPayload
  | Some (data, crc) =>
      if String.eqb out.1 "" then Err ErrNoPayload
      else if (maxBytes <? len64 data)%Z then Err ErrTooLargeDocument
      else if match crc with Some crc => negb (Z.eqb (crc32c data) crc) | None => false end then Err ErrChecksum
      else tree ← map_err ErrDecode (decode data); Ok (tree, out.1)
  end.

(** ** Caches of documents

    What the providers above have in common, as an interface: a load against what
    the service holds, and the load of a provider without a cache.  A cache is
    transparent when it keeps an invariant under which the two agree. *)

(** What a service holds: the version that identifies it (an ETag, empty for
    none), its generation, its content type and its bytes. *)
Record resource := { d_version : string; d_generation : Z; d_ct : string; d_body : string }.
Definition body_reader (r : resource) : reader string := {| r_data := d_body r; r_fail := None |}.

Class DocumentCache := {
  dc_state : Type;
  dc_init : dc_state;
  dc_load : dc_state → resource → dc_state * result load_error snapshot;
  dc_fresh : resource → result load_error snapshot;
}.

Class TransparentCache (C : DocumentCache) (world : resource → Prop) := {
  tc_inv : dc_state → Prop;
  tc_init : tc_inv dc_init;
  tc_load : ∀ s r, tc_inv s → world r → (dc_load s r).2 = dc_fresh r ∧ tc_inv (dc_load s r).1;
}.

Fixpoint loads (C : DocumentCache) (s : dc_state) (rs : list resource) : list (result load_error snapshot) :=
  match rs with
  | [] => []
  | r :: rs => let '(s, snap) := dc_load s r in snap :: loads C s rs
  end.

Lemma loads_transparent C world `{!TransparentCache C world} rs : Forall world rs → loads C dc_init rs = dc_fresh <$> rs.
Proof.
  intros Hrs. pose proof tc_init as Hinv. revert Hinv. generalize dc_init as s. induction Hrs as [|r rs Hr _ IH]; intros s Hinv; [done|].
  cbn [loads fmap list_fmap]. destruct (tc_load s r Hinv Hr) as [Hload Hinv']. destruct (dc_load s r) as [s' snap]. cbn in Hload, Hinv'.
  by rewrite Hload, IH.
Qed.

(** Services that answer as HTTP and their SDKs document it. *)
Definition http_server (r : resource) (if_none_match : string) : result string http_response :=
  if negb (String.eqb if_none_match "") && String.eqb if_none_match (d_version r)
  then Ok {| hr_Status := 304; hr_ETag := d_version r; hr_ContentType := ""; hr_Body := {| r_data := ""; r_fail := None |} |}
  else Ok {| hr_Status := 200; hr_ETag := d_version r; hr_ContentType := d_ct r; hr_Body := body_reader r |}.

Definition s3_server (r : resource) (if_none_match : option string) : result (string * bool) (option string * reader string) :=
  if bool_decide (if_none_match = Some (d_version r)) then Err ("not modified", true) else Ok (Some (d_version r), body_reader r).

(** The Azure SDK turns a 304 into an answer with an error code and no body. *)
Definition blob_server (r : resource) (if_none_match : option string) : result (string * Z) blob_response :=
  if bool_decide (if_none_match = Some (d_version r)) then Ok {| br_ETag := None; br_Body := None; br_ErrorCode := true |}
  else Ok {| br_ETag := Some (d_version r); br_Body := Some (body_reader r); br_ErrorCode := false |}.

Section caches.
Context `{GoStd} (by_content_type : string → option (string → result string gomap)) (own_codec : bool) (max : Z).

(** A provider without a cache: the bounded body, decoded. *)
Definition fresh (decoder : string → result load_error (string → result string gomap)) (r : resource) (revision : string)
    : result load_error snapshot :=
  b ← map_err ErrBody (ReadAllMax (body_reader r) max);
  m ← (dec ← decoder (d_ct r); map_err ErrDecode (dec b));
  Ok (m, revision).

#[local] Instance http_cache : DocumentCache := {|
  dc_state := http_state;
  dc_init := http_init;
  dc_load s r := http_Load by_content_type own_codec max s (http_server r);
  dc_fresh r := fresh (http_decoder by_content_type own_codec) r (d_version r);
|}.

#[local] Instance s3_cache : DocumentCache := {|
  dc_state := s3_state;
  dc_init := s3_init;
  dc_load s r := s3_Load max s (s3_server r);
  dc_fresh r := fresh (λ _, Ok decode) r (d_version r);
|}.

#[local] Instance gcs_cache : DocumentCache := {|
  dc_state := gcs_state;
  dc_init := gcs_init;
  dc_load s r := gcs_Load max s (Ok (d_generation r)) (λ _, Ok (body_reader r));
  dc_fresh r := fresh (λ _, Ok decode) r (pretty (d_generation r));
|}.

#[local] Instance blob_cache : DocumentCache := {|
  dc_state := blob_state;
  dc_init := blob_init;
  dc_load s r := blob_Load max s (blob_server r);
  dc_fresh r := fresh (λ _, Ok decode) r (d_version r);
|}.

(** The documents that the service holds over time: an ETag, or a generation,
    identifies one body; SHA-256 separates the bodies; and the content type of a
    body, which matters to a provider without a codec of its own, is fixed. *)
Record consistent (world : resource → Prop) : Prop := {
  etag_identifies : ∀ r1 r2, world r1 → world r2 → d_version r1 ≠ "" → d_version r1 = d_version r2 → d_body r1 = d_body r2;
  generation_identifies : ∀ r1 r2, world r1 → world r2 → d_generation r1 = d_generation r2 → d_body r1 = d_body r2;
  content_type_fixed : ∀ r1 r2, world r1 → world r2 → d_body r1 = d_body r2 → d_ct r1 = d_ct r2;
  hash_separates : ∀ r1 r2, world r1 → world r2 → go_sha256 (d_body r1) = go_sha256 (d_body r2) → d_body r1 = d_body r2;
}.

Context (world : resource → Prop) (Hworld : consistent world) (Hmax : (max < MaxInt64)%Z).

Lemma read_whole r b : ReadAllMax (body_reader r) max = Ok b → b = d_body r.
Proof using Hmax.
  clear Hworld. intros Hb. destruct (decide (0 < max)%Z) as [Hpos|Hpos].
  - rewrite ReadAllMax_spec in Hb by done. unfold bounded_content in Hb. cbn in Hb. destruct (_ <? _)%Z; [done|]. congruence.
  - assert (ReadAllMax (body_reader r) max = ReadAllMax (body_reader r) DefaultMaxBodyBytes) as Hd.
    { unfold ReadAllMax. by rewrite (proj2 (Z.leb_le max 0)) by lia. }
    rewrite Hd, ReadAllMax_spec in Hb by done. unfold bounded_content in Hb. cbn [body_reader r_data r_fail] in Hb. destruct (_ <? _)%Z; [done|]. congruence.
Qed.

Lemma fresh_same decoder r1 r2 m rev1 rev2 : d_body r1 = d_body r2 → d_ct r1 = d_ct r2 →
  fresh decoder r1 rev1 = Ok (m, rev1) → fresh decoder r2 rev2 = Ok (m, rev2).
Proof using Type.
  unfold fresh, body_reader. intros -> ->. destruct (map_err ErrBody _) as [b|]; [|done]. cbn.
  destruct (dec ← decoder (d_ct r2); map_err ErrDecode (dec b)) as [m'|]; [|done]. cbn. by intros [= ->].
Qed.

(** A cache holds the decoded document of a resource of the service. *)
Definition holds decoder (r : resource) (m : gomap) : Prop := world r ∧ ∃ rev, fresh decoder r rev = Ok (m, rev).

Lemma holds_body decoder r r' m : holds decoder r m → world r' → d_body r = d_body r' → ∀ rev, fresh decoder r' rev = Ok (m, rev).
Proof using Hworld. intros (Hr & rev0 & Hf) Hr' Hb rev. eapply fresh_same; [done| |done]. by apply content_type_fixed with world. Qed.

(** Reading and decoding a whole body. *)
Lemma fresh_read r rev : fresh (λ _, Ok decode) r rev =
  (λ m, (m, rev)) <$> (b ← map_err ErrBody (ReadAllMax (body_reader r) max); map_err ErrDecode (decode b)).
Proof using Type. unfold fresh. destruct (map_err ErrBody _) as [b|]; [|done]. cbn. by destruct (decode b). Qed.

(** What the three SDK providers do with a body they have read: keep and return
    it, or leave the cache alone. *)
Lemma read_step {S} (s : S) (next : gomap → S) r rev (inv : S → Prop) : inv s → world r →
  (∀ m, holds (λ _, Ok decode) r m → inv (next m)) →
  let step := match (b ← map_err ErrBody (ReadAllMax (body_reader r) max); map_err ErrDecode (decode b)) with
              | Err e => (s, Err e)
              | Ok m => (next m, Ok (DeepClone m, rev))
              end in
  step.2 = fresh (λ _, Ok decode) r rev ∧ inv step.1.
Proof using Type.
  intros Hs Hr Hnext. pose proof (fresh_read r rev) as Hf. destruct (b ← _; _) as [m|e]; cbn [fst snd] in *; rewrite Hf; [|done].
  rewrite DeepClone_id. split; [done|]. apply Hnext. split; [done|]. by exists rev.
Qed.

(** *** S3 *)

Definition s3_inv (s : s3_state) : Prop := s_loaded s = true → ∃ r, holds (λ _, Ok decode) r (s_lastBody s) ∧ d_version r = s_etag s.

Lemma s3_cached s r : s3_inv s → world r →
  (dc_load (DocumentCache := s3_cache) s r).2 = dc_fresh (DocumentCache := s3_cache) r ∧ s3_inv (dc_load (DocumentCache := s3_cache) s r).1.
Proof using Hworld.
  intros Hinv Hr. cbn [dc_load dc_fresh s3_cache]. unfold s3_Load, s3_server, s3_if_none_match.
  case_bool_decide as Hm; cbn beta iota.
  - destruct (s_loaded s) eqn:Hl; [|done]. destruct (String.eqb_spec (s_etag s) "") as [He|He]; [done|]. cbn in Hm. injection Hm as Hm.
    destruct (Hinv Hl) as (r0 & Hh & Hv). cbn [fst snd]. rewrite DeepClone_id, Hm. split; [|done].
    symmetry. apply (holds_body _ r0 r _ Hh Hr). apply etag_identifies with world; [done|by destruct Hh|done|congruence|congruence].
  - apply (read_step s (λ m, {| s_etag := d_version r; s_lastBody := m; s_loaded := true |}) r (d_version r) s3_inv); [done|done|].
    intros m Hh _. by exists r.
Qed.

#[local] Instance s3_transparent : TransparentCache s3_cache world := {|
  tc_inv := s3_inv : dc_state (DocumentCache := s3_cache) → Prop; tc_init := ltac:(done); tc_load := s3_cached |}.

(** *** GCS *)

Definition gcs_inv (s : gcs_state) : Prop := is_Some (g_data s) → ∃ r, holds (λ _, Ok decode) r (g_data s) ∧ d_generation r = g_generation s.

Lemma gcs_cached s r : gcs_inv s → world r →
  (dc_load (DocumentCache := gcs_cache) s r).2 = dc_fresh (DocumentCache := gcs_cache) r ∧ gcs_inv (dc_load (DocumentCache := gcs_cache) s r).1.
Proof using Hworld.
  intros Hinv Hr. cbn [dc_load dc_fresh gcs_cache]. unfold gcs_Load.
  destruct (bool_decide (is_Some (g_data s)) && (d_generation r =? g_generation s)%Z) eqn:Hc.
  - apply andb_true_iff in Hc as [Hs%bool_decide_eq_true Hg%Z.eqb_eq]. destruct (Hinv Hs) as (r0 & Hh & Hv). cbn [fst snd].
    rewrite DeepClone_id, <-Hg. split; [|done]. symmetry. apply (holds_body _ r0 r _ Hh Hr).
    apply generation_identifies with world; [done|by destruct Hh|done|congruence].
  - apply (read_step s (λ m, {| g_generation := d_generation r; g_data := m |}) r _ gcs_inv); [done|done|]. intros m Hh _. by exists r.
Qed.

#[local] Instance gcs_transparent : TransparentCache gcs_cache world := {|
  tc_inv := gcs_inv : dc_state (DocumentCache := gcs_cache) → Prop; tc_init := ltac:(by intros [? ?]); tc_load := gcs_cached |}.

(** *** Azure Blob *)

Definition blob_inv (s : blob_state) : Prop := is_Some (b_data s) → ∃ r, holds (λ _, Ok decode) r (b_data s) ∧ d_version r = b_etag s.

Lemma blob_cached s r : blob_inv s → world r →
  (dc_load (DocumentCache := blob_cache) s r).2 = dc_fresh (DocumentCache := blob_cache) r ∧ blob_inv (dc_load (DocumentCache := blob_cache) s r).1.
Proof using Hworld.
  intros Hinv Hr. cbn [dc_load dc_fresh blob_cache]. unfold blob_Load, blob_server.
  case_bool_decide as Hm; cbn [br_Body br_ETag br_ErrorCode].
  - unfold blob_condition in *. destruct (decide (is_Some (b_data s))) as [Hs|Hs]; [|by rewrite bool_decide_false in Hm].
    rewrite bool_decide_true in Hm |- * by done. destruct (String.eqb_spec (b_etag s) "") as [He|He]; [done|]. cbn in Hm |- *. injection Hm as Hm.
    destruct (Hinv Hs) as (r0 & Hh & Hv). rewrite DeepClone_id, Hm. split; [|done].
    symmetry. apply (holds_body _ r0 r _ Hh Hr). apply etag_identifies with world; [done|by destruct Hh|done|congruence|congruence].
  - apply (read_step s (λ m, {| b_etag := d_version r; b_data := m |}) r (d_version r) blob_inv); [done|done|]. intros m Hh _. by exists r.
Qed.

#[local] Instance blob_transparent : TransparentCache blob_cache world := {|
  tc_inv := blob_inv : dc_state (DocumentCache := blob_cache) → Prop; tc_init := ltac:(by intros [? ?]); tc_load := blob_cached |}.

(** *** HTTP *)

Notation http_dec := (http_decoder by_content_type own_codec).

Record http_inv (s : http_state) : Prop := {
  hi_loaded : h_loaded s = true → ∃ r, holds http_dec r (h_lastBody s) ∧ h_bodyHash s = go_sha256 (d_body r);
  hi_etag : h_etag s ≠ "" → h_loaded s = true ∧ ∃ r, holds http_dec r (h_lastBody s) ∧ d_version r = h_etag s;
}.

Lemma http_fetch_body r etag ct :
  http_fetch max (Ok {| hr_Status := 200; hr_ETag := etag; hr_ContentType := ct; hr_Body := body_reader r |}) =
  match ReadAllMax (body_reader r) max with Ok b => Ok (Some (b, etag, ct)) | Err e => Err (ErrBody e) end.
Proof using Type. unfold http_fetch. cbn. by destruct (ReadAllMax _ _). Qed.

Lemma http_cached s r : http_inv s → world r →
  (dc_load (DocumentCache := http_cache) s r).2 = dc_fresh (DocumentCache := http_cache) r ∧ http_inv (dc_load (DocumentCache := http_cache) s r).1.
Proof using Hworld Hmax.
  intros [Hloaded Hetag] Hr. cbn [dc_load dc_fresh http_cache]. unfold http_Load, http_server.
  destruct (negb (String.eqb (h_etag s) "") && String.eqb (h_etag s) (d_version r)) eqn:Hc.
  - apply andb_true_iff in Hc as [Hne%negb_true_iff%String.eqb_neq Heq%String.eqb_eq]. cbn.
    destruct (Hetag Hne) as (Hl & r0 & Hh & Hv). rewrite Hl. split; [|done]. rewrite Heq. symmetry. apply (holds_body _ r0 r _ Hh Hr).
    apply etag_identifies with world; [done|by destruct Hh|done|congruence|congruence].
  - clear Hc. rewrite http_fetch_body.
    destruct (ReadAllMax (body_reader r) max) as [b|e] eqn:Hb; [|unfold fresh; rewrite Hb; done].
    pose proof (read_whole r b Hb) as ->. destruct (h_loaded s && String.eqb (go_sha256 (d_body r)) (h_bodyHash s)) eqn:Hc.
    + apply andb_true_iff in Hc as [Hl Hhash%String.eqb_eq]. destruct (Hloaded Hl) as (r0 & Hh & Hhr). rewrite Hhr in Hhash.
      assert (d_body r0 = d_body r) as Hbody by (apply hash_separates with world; [done|by destruct Hh|done|done]).
      pose proof (holds_body _ r0 r _ Hh Hr Hbody) as Hf. cbn [fst snd]. rewrite Hf. split; [done|].
      assert (holds http_dec r (h_lastBody s)) as Hh' by (split; [done|by exists ""; apply Hf]).
      constructor; cbn; [intros _; exists r; split; [done|by rewrite Hhr, Hbody]|intros _; split; [done|by exists r]].
    + assert (∀ rev, fresh http_dec r rev = (λ m, (m, rev)) <$> (dec ← http_dec (d_ct r); map_err ErrDecode (dec (d_body r)))) as Hf.
      { intros rev. unfold fresh. rewrite Hb. cbn [map_err]. rewrite bind_of_Ok. by destruct (http_dec (d_ct r) ≫= _). }
      destruct (http_dec (d_ct r) ≫= _) as [m|e]; cbn [fst snd]; rewrite Hf; [|done]. split; [done|].
      assert (holds http_dec r m) as Hh by (split; [done|by exists ""; rewrite Hf]).
      constructor; cbn; [intros _; by exists r|intros _; split; [done|by exists r]].
Qed.

#[local] Instance http_transparent : TransparentCache http_cache world := {|
  tc_inv := http_inv : dc_state (DocumentCache := http_cache) → Prop; tc_init := ltac:(by constructor); tc_load := http_cached |}.

(** A poll without a change means that the loaded document is current. *)
Lemma http_poll_quiet s r e : http_inv s → world r → http_poll max s (http_server r) = Ok (false, e) →
  fresh http_dec r (d_version r) = Ok (h_lastBody s, h_etag s).
Proof using Hworld Hmax.
  intros [Hloaded Hetag] Hr. unfold http_poll, http_server.
  destruct (negb (String.eqb (h_etag s) "") && String.eqb (h_etag s) (d_version r)) eqn:Hc.
  - intros _. apply andb_true_iff in Hc as [Hne%negb_true_iff%String.eqb_neq Heq%String.eqb_eq].
    destruct (Hetag Hne) as (Hl & r0 & Hh & Hv). rewrite Heq. apply (holds_body _ r0 r _ Hh Hr).
    apply etag_identifies with world; [done|by destruct Hh|done|congruence|congruence].
  - rewrite http_fetch_body. destruct (ReadAllMax (body_reader r) max) as [b|] eqn:Hb; [|done]. rewrite bind_of_Ok.
    pose proof (read_whole r b Hb) as ->. destruct (h_loaded s) eqn:Hl; [|done]. cbn [andb].
    destruct (String.eqb_spec (go_sha256 (d_body r)) (h_bodyHash s)) as [Hhash|]; [|done]. cbn [andb].
    destruct (String.eqb_spec (d_version r) (h_etag s)) as [Hv|]; [|done]. intros _. destruct (Hloaded eq_refl) as (r0 & Hh & Hhr).
    rewrite <-Hv. apply (holds_body _ r0 r _ Hh Hr). apply hash_separates with world; [done|by destruct Hh|done|congruence].
Qed.

(** The state after a run of loads. *)
Definition http_after (rs : list resource) : http_state :=
  foldl (λ s r, (dc_load (DocumentCache := http_cache) s r).1) http_init rs.

Lemma http_after_inv rs : Forall world rs → http_inv (http_after rs).
Proof using Hworld Hmax.
  unfold http_after. assert (http_inv http_init) as Hinit by (by constructor). revert Hinit. generalize http_init as s.
  intros s Hs Hrs. revert s Hs. induction Hrs as [|r rs Hr _ IH]; intros s Hs; [done|]. cbn [foldl]. apply IH. by apply http_cached.
Qed.

Lemma caches_transparent rs : Forall world rs →
  loads http_cache http_init rs = (λ r, fresh http_dec r (d_version r)) <$> rs
  ∧ loads s3_cache s3_init rs = (λ r, fresh (λ _, Ok decode) r (d_version r)) <$> rs
  ∧ loads gcs_cache gcs_init rs = (λ r, fresh (λ _, Ok decode) r (pretty (d_generation r))) <$> rs
  ∧ loads blob_cache blob_init rs = (λ r, fresh (λ _, Ok decode) r (d_version r)) <$> rs.
Proof using Hworld Hmax.
  intros Hrs. split_and!.
  - apply (loads_transparent http_cache world rs Hrs).
  - apply (loads_transparent s3_cache world rs Hrs).
  - apply (loads_transparent gcs_cache world rs Hrs).
  - apply (loads_transparent blob_cache world rs Hrs).
Qed.
End caches.
End documents.

(** C28: caching never shows: as long as an ETag or a generation identifies its
    document, any sequence of loads of the HTTP, S3, GCS and Azure Blob providers
    returns, each time, what a provider without a cache would load from what the
    service then holds, rejected documents included; and a poll that announces no
    change means that the document loaded last is current. *)
Theorem remote_documents_current `{GoStd} (decode : string → result string gomap)
    (by_content_type : string → option (string → result string gomap)) (own_codec : bool) (max : Z) (world : resource → Prop) (rs : list resource)
    (Hworld : consistent world) (Hmax : (max < MaxInt64)%Z) (Hrs : Forall world rs) :
  (loads (http_cache decode by_content_type own_codec max) http_init rs
     = (λ r, fresh max (http_decoder decode by_content_type own_codec) r (d_version r)) <$> rs)
  ∧ (loads (s3_cache decode max) s3_init rs = (λ r, fresh max (λ _, Ok decode) r (d_version r)) <$> rs)
  ∧ (loads (gcs_cache decode max) gcs_init rs = (λ r, fresh max (λ _, Ok decode) r (pretty (d_generation r))) <$> rs)
  ∧ (loads (blob_cache decode max) blob_init rs = (λ r, fresh max (λ _, Ok decode) r (d_version r)) <$> rs)
  ∧ (∀ r e, world r → http_poll max (http_after decode by_content_type own_codec max rs) (http_server r) = Ok (false, e) →
       fresh max (http_decoder decode by_content_type own_codec) r (d_version r)
       = Ok (h_lastBody (http_after decode by_content_type own_codec max rs), h_etag (http_after decode by_content_type own_codec max rs))).
Proof.
  destruct (caches_transparent decode by_content_type own_codec max world Hworld Hmax rs Hrs) as (H1 & H2 & H3 & H4).
  split_and!; [done..|]. intros r e Hr Hp. eapply http_poll_quiet; [done|done| |done|exact Hp]. by apply (http_after_inv _ _ _ _ world).
Qed.

Lemma remote_documents_current_witness :
  let r := {| d_version := "v1"; d_generation := 1; d_ct := "application/json"; d_body := "{}" |} in
  let decode (s : string) : result string gomap := Ok (Some {[ s := VNil ]}) in
  loads (s3_cache decode 100) s3_init [r; r] = [Ok (Some {[ "{}" := VNil ]}, "v1"); Ok (Some {[ "{}" := VNil ]}, "v1")].
Proof.
  intros r decode.
  assert (consistent (H := example_std) (λ x, x = r)) as Hc by (split; intros r1 r2 -> ->; reflexivity).
  destruct (@remote_documents_current example_std decode (λ _, None) true 100 (λ x, x = r) [r; r] Hc eq_refl) as (_ & Hs3 & _).
  - repeat constructor.
  - rewrite Hs3. reflexivity.
Defined.
