(* ===== verification/AppConfig.v ===== *)
(** * AWS AppConfig sessions (providers/appconfig/appconfig.go)

    The provider keeps one poll token of its session.  Its loads are serialized by
    a gate; the SDK client, the clock and the decoders are parameters. *)
From S2P Require Import Prelude GoStrings Value Clone CodecRegistry Documents.
From Stdlib Require Import Ascii.
Open Scope Z_scope.

Definition minute : Z := 60000000000.
Definition nanosecond_second : Z := 1000000000.

(** [New]: the poll interval, a minute by default. *)
Definition poll_interval (configured : Z) : option Z :=
  let d := if configured =? 0 then minute else configured in
  if (d <? 15 * nanosecond_second) || (86400 * nanosecond_second <? d) || negb (Z.rem d nanosecond_second =? 0) then None else Some d.

Record appconfig := { ac_interval : Z; ac_maxBytes : Z }.

Record app_state := {
  a_token : string;
  a_nextPoll : Z;
  a_data : gomap;
  a_revision : string;
  a_loaded : bool;
  a_lastErr : option load_error;
}.

(** The zero time precedes every other. *)
Definition app_init (epoch : Z) : app_state :=
  {| a_token := ""; a_nextPoll := epoch; a_data := None; a_revision := ""; a_loaded := false; a_lastErr := None |}.

(** The answer to [GetLatestConfiguration]. *)
Record latest := { lt_Next : option string; lt_IntervalSeconds : Z; lt_Configuration : string; lt_ContentType : option string }.

(** What one load meets: its readings of the clock in order, the answer to
    [StartConfigurationSession] and the one to [GetLatestConfiguration]. *)
Record meeting := {
  mt_now : nat → Z;
  mt_start : result string (option string);
  mt_latest : string → result string latest;
}.

(** A call with the token that its answer hands out, empty for none. *)
Inductive call := CallStart (issued : string) | CallLatest (token issued : string).
Definition issued (k : call) : string := match k with CallStart i | CallLatest _ i => i end.

Section load.
Context `{GoStd} (decode : option (string → result string gomap))
  (by_content_type : string → option (string → result string gomap)) (c : appconfig).

Definition app_snapshot (s : app_state) : result load_error snapshot :=
  match a_lastErr s with
  | Some e => Err e
  | None => if a_loaded s then Ok (DeepClone (a_data s), a_revision s) else Err ErrNoConfiguration
  end.

Definition app_fail (s : app_state) (e : load_error) : app_state :=
  {| a_token := a_token s; a_nextPoll := a_nextPoll s; a_data := a_data s; a_revision := a_revision s; a_loaded := a_loaded s; a_lastErr := Some e |}.

Definition with_token (s : app_state) (token : string) : app_state :=
  {| a_token := token; a_nextPoll := a_nextPoll s; a_data := a_data s; a_revision := a_revision s; a_loaded := a_loaded s; a_lastErr := a_lastErr s |}.

Definition with_poll (s : app_state) (t : Z) : app_state :=
  {| a_token := a_token s; a_nextPoll := t; a_data := a_data s; a_revision := a_revision s; a_loaded := a_loaded s; a_lastErr := a_lastErr s |}.

(** The document of an answer, once the session has advanced. *)
Definition app_document (s : app_state) (out : latest) : app_state :=
  if String.eqb (lt_Configuration out) "" then s
  else if ac_maxBytes c <? len64 (lt_Configuration out) then app_fail s ErrTooLargeDocument
  else
    let decoder := match decode with Some d => Some d | None => by_content_type (default "" (lt_ContentType out)) end in
    match decoder with
    | None => app_fail s (ErrUnknownCodec (default "" (lt_ContentType out)))
    | Some d =>
        match d (lt_Configuration out) with
        | Err e => app_fail s (ErrDecode e)
        | Ok data =>
            {| a_token := a_token s; a_nextPoll := a_nextPoll s; a_data := data; a_revision := hex (go_sha256 (lt_Configuration out));
               a_loaded := true; a_lastErr := None |}
        end
    end.

(** The call with the token, which is given up before it. *)
Definition app_latest (s : app_state) (m : meeting) : app_state * list call * result load_error snapshot :=
  let token := a_token s in
  let s := with_poll (with_token s "") (mt_now m 2%nat + ac_interval c) in
  match mt_latest m token with
  | Err e => (app_fail s (ErrRequest e), [CallLatest token ""], Err (ErrRequest e))
  | Ok out =>
      let s := with_token s (default "" (lt_Next out)) in
      let s := with_poll s (mt_now m 3%nat + Z.max (ac_interval c) (lt_IntervalSeconds out * nanosecond_second)) in
      let s := app_document s out in
      (s, [CallLatest token (default "" (lt_Next out))], app_snapshot s)
  end.

Definition app_Load (s : app_state) (m : meeting) : app_state * list call * result load_error snapshot :=
  if mt_now m 0%nat <? a_nextPoll s then (s, [], app_snapshot s)
  else if negb (String.eqb (a_token s) "") then app_latest s m
  else match mt_start m with
       | Err e => (app_fail (with_poll s (mt_now m 1%nat + ac_interval c)) (ErrRequest e), [CallStart ""], Err (ErrRequest e))
       | Ok token =>
           let token := default "" token in
           if String.eqb token "" then (app_fail s ErrNoToken, [CallStart ""], Err ErrNoToken)
           else let '(s, calls, r) := app_latest (with_token s token) m in (s, CallStart token :: calls, r)
       end.

(** The loads of a run: the calls of each, and what it returned. *)
Fixpoint app_loads (s : app_state) (ms : list meeting) : list (list call * result load_error snapshot) :=
  match ms with
  | [] => []
  | m :: ms => let '(s, calls, r) := app_Load s m in (calls, r) :: app_loads s ms
  end.

(** The calls of a run, each with the time at which its load began. *)
Fixpoint app_run (s : app_state) (ms : list meeting) : list (Z * call) :=
  match ms with
  | [] => []
  | m :: ms => let '(s, calls, _) := app_Load s m in ((λ k, (mt_now m 0%nat, k)) <$> calls) ++ app_run s ms
  end.
End load.

(** ** Tokens and intervals *)

(** The clock does not go back during a load. *)
Definition clock_runs (m : meeting) : Prop := ∀ i, mt_now m 0%nat ≤ mt_now m i.

Section session.
Context `{GoStd} (decode : option (string → result string gomap))
  (by_content_type : string → option (string → result string gomap)) (c : appconfig).

Notation app_Load := (app_Load decode by_content_type c).
Notation app_latest := (app_latest decode by_content_type c).

Lemma document_session s out : a_token (app_document decode by_content_type c s out) = a_token s
  ∧ a_nextPoll (app_document decode by_content_type c s out) = a_nextPoll s.
Proof. unfold app_document. by repeat case_match. Qed.

(** What the call with a token does to the session. *)
Lemma latest_session s m : ∃ i, (app_latest s m).1.2 = [CallLatest (a_token s) i] ∧ a_token (app_latest s m).1.1 = i
  ∧ (clock_runs m → mt_now m 0%nat + ac_interval c ≤ a_nextPoll (app_latest s m).1.1).
Proof.
  unfold app_latest. destruct (mt_latest m (a_token s)) as [out|e]; cbn.
  - exists (default "" (lt_Next out)). destruct (document_session (with_poll (with_token (with_poll (with_token s "") (mt_now m 2%nat + ac_interval c)) (default "" (lt_Next out)))
      (mt_now m 3%nat + Z.max (ac_interval c) (lt_IntervalSeconds out * nanosecond_second))) out) as [-> ->]. cbn.
    split; [done|]. split; [done|]. intros Hm. specialize (Hm 3%nat). lia.
  - exists "". split; [done|]. split; [done|]. intros Hm. specialize (Hm 2%nat). lia.
Qed.

(** The calls of a load: none before the next poll; otherwise a token is either
    the one that is held or the one just handed out. *)
Lemma load_session s m : let '(s', calls, _) := app_Load s m in
  (calls = [] ∧ a_token s' = a_token s ∧ a_nextPoll s' = a_nextPoll s)
  ∨ a_nextPoll s ≤ mt_now m 0%nat ∧
    ((∃ i, calls = [CallLatest (a_token s) i] ∧ a_token s ≠ "" ∧ a_token s' = i ∧ (clock_runs m → mt_now m 0%nat + ac_interval c ≤ a_nextPoll s'))
     ∨ (calls = [CallStart ""] ∧ a_token s' = "" ∧ (clock_runs m → 0 ≤ ac_interval c → a_nextPoll s ≤ a_nextPoll s'))
     ∨ ∃ t i, calls = [CallStart t; CallLatest t i] ∧ t ≠ "" ∧ a_token s' = i ∧ (clock_runs m → mt_now m 0%nat + ac_interval c ≤ a_nextPoll s')).
Proof.
  unfold app_Load. destruct (Z.ltb_spec (mt_now m 0%nat) (a_nextPoll s)) as [|Hnow]; [by left|].
  destruct (String.eqb_spec (a_token s) "") as [Ht|Ht]; cbn [negb].
  - destruct (mt_start m) as [t|e].
    + destruct (String.eqb_spec (default "" t) "") as [Hd|Hd].
      * right. split; [done|]. right; left. cbn. split_and!; [done|done|]. intros; lia.
      * destruct (latest_session (with_token s (default "" t)) m) as (i & Hc & Hi & Hp). destruct (app_latest _ m) as [[s' calls] r]. cbn in Hc, Hi, Hp.
        right. split; [done|]. right; right. exists (default "" t), i. by rewrite Hc.
    + right. split; [done|]. right; left. split; [done|]. split; [done|]. intros Hm Hc. specialize (Hm 1%nat). cbn. lia.
  - destruct (latest_session s m) as (i & Hc & Hi & Hp). destruct (app_latest s m) as [[s' calls] r]. cbn in Hc, Hi, Hp.
    right. split; [done|]. left. by exists i.
Qed.

(** The times of the calls with a token. *)
Definition latest_times (l : list (Z * call)) : list Z :=
  omap (λ k, match k.2 with CallLatest _ _ => Some k.1 | CallStart _ => None end) l.

(** ** What an exchange with the service means *)

(** The answer to a poll: nothing new, or a document, or why it is rejected. *)
Definition news (out : latest) : option (result load_error snapshot) :=
  if String.eqb (lt_Configuration out) "" then None
  else if ac_maxBytes c <? len64 (lt_Configuration out) then Some (Err ErrTooLargeDocument)
  else match (match decode with Some d => Some d | None => by_content_type (default "" (lt_ContentType out)) end) with
       | None => Some (Err (ErrUnknownCodec (default "" (lt_ContentType out))))
       | Some d => Some match d (lt_Configuration out) with
                        | Err e => Err (ErrDecode e)
                        | Ok data => Ok (data, hex (go_sha256 (lt_Configuration out)))
                        end
       end.

(** What a load learns from its last call, if it made one. *)
Definition verdict (x : meeting * list call) : option (result load_error snapshot) :=
  match last x.2 with
  | None => None
  | Some (CallStart _) => Some (Err match mt_start x.1 with Err e => ErrRequest e | Ok _ => ErrNoToken end)
  | Some (CallLatest token _) => match mt_latest x.1 token with Err e => Some (Err (ErrRequest e)) | Ok out => news out end
  end.

(** The time before which it asks for no further call: the configured interval,
    or the longer one the service answered with, after the exchange. *)
Definition next_allowed (x : meeting * list call) : option Z :=
  match last x.2 with
  | None => None
  | Some (CallStart _) => match mt_start x.1 with Err _ => Some (mt_now x.1 1%nat + ac_interval c) | Ok _ => None end
  | Some (CallLatest token _) =>
      Some match mt_latest x.1 token with
           | Err _ => mt_now x.1 2%nat + ac_interval c
           | Ok out => mt_now x.1 3%nat + Z.max (ac_interval c) (lt_IntervalSeconds out * nanosecond_second)
           end
  end.

Lemma document_news s out :
  app_snapshot (app_document decode by_content_type c s out) = default (app_snapshot s) (news out).
Proof.
  unfold app_document, news. destruct (String.eqb _ ""); [done|]. destruct (_ <? _); [done|].
  destruct decode as [d|]; [|destruct (by_content_type _) as [d|]; [|done]];
    (destruct (d _) as [data|e]; [|done]); unfold app_snapshot; cbn; by rewrite DeepClone_id.
Qed.

Lemma latest_verdict s m tok :
  a_token s = tok →
  let '(s', calls, r) := app_latest s m in
  r = app_snapshot s' ∧ (∃ i, calls = [CallLatest tok i])
  ∧ app_snapshot s' = default (app_snapshot s) (verdict (m, calls)) ∧ next_allowed (m, calls) = Some (a_nextPoll s').
Proof.
  intros Htok. unfold app_latest. rewrite Htok. destruct (mt_latest m tok) as [out|e] eqn:Hl.
  - split_and!; [done|by eexists| |].
    + rewrite document_news. unfold verdict. cbn [last fst snd]. by rewrite Hl.
    + unfold next_allowed. cbn [last fst snd]. rewrite Hl. f_equal. symmetry. apply document_session.
  - split_and!; [done|by eexists| |]; unfold verdict, next_allowed; cbn [last fst snd]; by rewrite Hl.
Qed.

(** What a load returns, and when it makes a call. *)
Lemma load_verdict s m :
  let '(s', calls, r) := app_Load s m in
  r = app_snapshot s' ∧ app_snapshot s' = default (app_snapshot s) (verdict (m, calls))
  ∧ a_nextPoll s' = default (a_nextPoll s) (next_allowed (m, calls)) ∧ (calls = [] ↔ mt_now m 0%nat < a_nextPoll s).
Proof.
  unfold app_Load. destruct (Z.ltb_spec (mt_now m 0%nat) (a_nextPoll s)) as [Hn|Hn]; [done|].
  destruct (String.eqb_spec (a_token s) "") as [Ht|Ht]; cbn [negb].
  - destruct (mt_start m) as [t|e] eqn:Hs.
    + destruct (String.eqb_spec (default "" t) "") as [Hd|Hd].
      * unfold verdict, next_allowed. cbn [last fst snd]. rewrite Hs. split_and!; [done..|]. split; [done|lia].
      * pose proof (latest_verdict (with_token s (default "" t)) m _ eq_refl) as Hl.
        destruct (app_latest _ m) as [[s' calls] r]. destruct Hl as (L1 & [i ->] & L3 & L4).
        change (verdict (m, CallStart (default "" t) :: _)) with (verdict (m, [CallLatest (default "" t) i])).
        change (next_allowed (m, CallStart (default "" t) :: _)) with (next_allowed (m, [CallLatest (default "" t) i])).
        cbn [with_token a_token] in L3, L4. rewrite L4. split_and!; [done..|]. split; [done|lia].
    + unfold verdict, next_allowed. cbn [last fst snd]. rewrite Hs. split_and!; [done..|]. split; [done|lia].
  - pose proof (latest_verdict s m _ eq_refl) as Hl. destruct (app_latest s m) as [[s' calls] r].
    destruct Hl as (L1 & [i ->] & L3 & L4). rewrite L4. split_and!; [done..|]. split; [done|lia].
Qed.

Notation app_loads := (app_loads decode by_content_type c).

(** The exchanges of the loads before number [i]. *)
Definition exchanges (s : app_state) (ms : list meeting) (i : nat) : list (meeting * list call) :=
  take i (zip ms (app_loads s ms).*1).

Lemma last_omap_cons {A B} (f : A → option B) (x : A) (l : list A) (d : B) :
  default d (last (omap f (x :: l))) = default (default d (f x)) (last (omap f l)).
Proof.
  cbn. destruct (f x) as [b|]; [|done]. rewrite last_cons. by destruct (last (omap f l)).
Qed.

Lemma loads_verdict s ms i m calls r :
  ms !! i = Some m → app_loads s ms !! i = Some (calls, r) →
  r = default (app_snapshot s) (last (omap verdict (exchanges s ms (S i))))
  ∧ (calls = [] ↔ mt_now m 0%nat < default (a_nextPoll s) (last (omap next_allowed (exchanges s ms i)))).
Proof.
  revert s i. induction ms as [|m0 ms IH]; intros s i; [done|]. unfold exchanges. cbn [AppConfig.app_loads].
  pose proof (load_verdict s m0) as Hl. destruct (app_Load s m0) as [[s' calls0] r0]. destruct Hl as (L1 & L2 & L3 & L4).
  cbn [fmap list_fmap fst zip_with zip take]. destruct i as [|i]; cbn [lookup list_lookup].
  - intros [= <-] [= <- <-]. rewrite last_omap_cons. cbn [take omap list_omap last from_option default id]. by rewrite L1, L2.
  - intros Hm Hr. destruct (IH s' i Hm Hr) as [I1 I2]. unfold exchanges in *. cbn [take].
    rewrite !last_omap_cons, <-L2, <-L3. done.
Qed.

(** Every token that is used was handed out by the call right before. *)
Fixpoint chained (prev : string) (l : list call) : Prop :=
  match l with
  | [] => True
  | k :: l => match k with CallLatest tok _ => tok ≠ "" ∧ tok = prev | CallStart _ => True end ∧ chained (issued k) l
  end.

Notation app_run := (app_run decode by_content_type c).

Lemma run_chained s ms : chained (a_token s) (app_run s ms).*2.
Proof.
  revert s. induction ms as [|m ms IH]; intros s; [done|]. cbn [AppConfig.app_run]. pose proof (load_session s m) as Hl. destruct (app_Load s m) as [[s' calls] r].
  specialize (IH s'). destruct Hl as [(-> & <- & _)|(_ & [(i & -> & Hne & <- & _)|[(-> & <- & _)|(t & i & -> & Hne & <- & _)]])]; cbn; [done| |done|]; done.
Qed.

Lemma run_times s ms : 0 ≤ ac_interval c → Forall clock_runs ms →
  ForallOrdPairs (λ a b, a + ac_interval c ≤ b) (latest_times (app_run s ms)) ∧ Forall (λ t, a_nextPoll s ≤ t) (latest_times (app_run s ms)).
Proof.
  intros Hc Hms. revert s. induction Hms as [|m ms Hm _ IH]; intros s; [split; constructor|]. cbn [AppConfig.app_run].
  pose proof (load_session s m) as Hl. destruct (app_Load s m) as [[s' calls] r]. destruct (IH s') as [IH1 IH2]. clear IH.
  assert (∀ t, t ≤ a_nextPoll s' → Forall (λ x, t ≤ x) (latest_times (app_run s' ms))) as Hlater.
  { intros t Ht. eapply Forall_impl; [exact IH2|]. cbn. lia. }
  destruct Hl as [(-> & _ & Hn)|(Hnow & [(i & -> & _ & _ & Hn)|[(-> & _ & Hn)|(t & i & -> & _ & _ & Hn)]])]; cbn.
  - split; [done|]. apply Hlater. lia.
  - specialize (Hn Hm). split; [constructor; [apply Hlater; lia|done]|]. constructor; [done|apply Hlater; lia].
  - split; [done|]. apply Hlater. by apply Hn.
  - specialize (Hn Hm). split; [constructor; [apply Hlater; lia|done]|]. constructor; [done|apply Hlater; lia].
Qed.

(** A document that was rejected stays an error over empty answers. *)
Lemma rejection_sticks s m e out : a_lastErr s = Some e → mt_now m 0%nat <? a_nextPoll s = false → a_token s ≠ "" →
  mt_latest m (a_token s) = Ok out → lt_Configuration out = "" → (app_Load s m).2 = Err e.
Proof.
  intros He Hn Ht Hl Hempty. unfold app_Load. rewrite Hn, (proj2 (String.eqb_neq _ _) Ht). cbn [negb]. unfold app_latest. rewrite Hl.
  unfold app_document. by rewrite Hempty; cbn; unfold app_snapshot; cbn; rewrite He.
Qed.
End session.

(** C29: a session is used as the service asks, and loads return what it last
    said.  However often and with whatever answers the provider is loaded:
    - no token is used that the call right before did not hand out, so that none
      is replayed after an uncertain outcome;
    - a load makes a call exactly when the interval after the last exchange has
      passed, the configured one or the longer one the service asked for, and
      the start of one poll is at least the configured interval after another;
    - a load returns the document of the last answer that held one, under the
      digest of its bytes, or the error of the last exchange that failed or
      whose document was rejected, whichever came later: an empty answer and a
      load before the next poll change nothing. *)
Theorem appconfig_session `{GoStd} (decode : option (string → result string gomap))
    (by_content_type : string → option (string → result string gomap)) (c : appconfig) (epoch : Z) (ms : list meeting)
    (Hc : 0 ≤ ac_interval c) (Hms : Forall clock_runs ms) :
  let s := app_init epoch in
  chained "" (app_run decode by_content_type c s ms).*2
  ∧ ForallOrdPairs (λ a b, a + ac_interval c ≤ b) (latest_times (app_run decode by_content_type c s ms))
  ∧ ∀ i m calls r, ms !! i = Some m → app_loads decode by_content_type c s ms !! i = Some (calls, r) →
      (calls = [] ↔
         mt_now m 0%nat < default epoch (last (omap (next_allowed c) (exchanges decode by_content_type c s ms i))))
      ∧ r = default (Err ErrNoConfiguration)
              (last (omap (verdict decode by_content_type c) (exchanges decode by_content_type c s ms (S i)))).
Proof.
  cbn zeta. split; [apply (run_chained decode by_content_type c (app_init epoch))|]. split; [by apply run_times|].
  intros i m calls r Hm Hr. destruct (loads_verdict decode by_content_type c (app_init epoch) ms i m calls r Hm Hr) as [-> Hcalls].
  done.
Qed.

(** ** Examples *)

Definition example_meeting (t : Z) (start : result string (option string)) (next : string) : meeting :=
  {| mt_now _ := t; mt_start := start;
     mt_latest _ := Ok {| lt_Next := Some next; lt_IntervalSeconds := 60; lt_Configuration := ""; lt_ContentType := None |} |}.

Lemma appconfig_session_witness :
  let c := {| ac_interval := minute; ac_maxBytes := 100 |} in
  let ms := [example_meeting 0 (Ok (Some "a")) "b"; example_meeting 5 (Err "x") "c"; example_meeting (2 * minute) (Err "x") "c"] in
  let run := @app_run example_std None (λ _, None) c (app_init 0) ms in
  run = [(0, CallStart "a"); (0, CallLatest "a" "b"); (2 * minute, CallLatest "b" "c")] ∧ chained "" run.*2.
Proof.
  intros c ms run. split; [reflexivity|]. apply (@appconfig_session example_std None (λ _, None) c 0 ms); [discriminate|].
  repeat constructor; intros i; discriminate.
Defined.

(** The answers of a service that asks for an interval longer than the configured
    one: the load before it has passed returns the first document, though there is
    a newer one. *)
Example early_load_is_cached :
  let answer t asked text := {| mt_now _ := t; mt_start := Ok (Some "t"); mt_latest _ := Ok {| lt_Next := Some "n"; lt_IntervalSeconds := asked;
    lt_Configuration := text; lt_ContentType := None |} |} in
  let decode := Some (λ text, if String.eqb text "" then Err "empty" else Ok (Some {["doc" := VString text]})) in
  (λ l, match l.2 with Ok (m, _) => Some (length l.1, m) | Err _ => None end) <$>
    @app_loads example_std decode (λ _, None) {| ac_interval := minute; ac_maxBytes := 100 |} (app_init 0)
      [answer 0 120 "one"; answer minute 120 "two"; answer (2 * minute) 120 "two"]
  = [Some (2%nat, Some {["doc" := VString "one"]}); Some (0%nat, Some {["doc" := VString "one"]}); Some (1%nat, Some {["doc" := VString "two"]})].
Proof. vm_compute. reflexivity. Qed.

(** A session that starts without a token sets no time for the next poll: each
    load asks for a session again at once. *)
Example missing_token :
  @app_run example_std None (λ _, None) {| ac_interval := minute; ac_maxBytes := 100 |} (app_init 0)
    [example_meeting 0 (Ok None) "b"; example_meeting 1 (Ok None) "b"] = [(0, CallStart ""); (1, CallStart "")].
Proof. reflexivity. Qed.
