(* ===== verification/Notify.v ===== *)
(** * Change notifications (integrations/notify, providers/s3/s3events)

    Which messages of a queue concern the configured source, and when a message
    is acknowledged.  [encoding/json] and [net/url] are parameters: a decoder
    returns the fields of the Go struct it fills.  A consumer is run one message
    at a time, with the answers of its client, the refresh callback and the
    contexts as arguments. *)
From S2P Require Import Prelude GoStrings SecretPlan CodecRegistry.
From Stdlib Require Import Ascii.
Open Scope nat_scope.

Definition max_notification : Z := Z.shiftl 1 20.

(** ** Amazon SNS (integrations/notify/sns) *)

Inductive aws_source := S3 | AppConfig | ParameterStore | OtherSource.

Record sns_config := {
  sc_TopicARN : string; sc_Source : aws_source; sc_Bucket : string; sc_Key : string;
  sc_Application : string; sc_Environment : string; sc_Profile : string; sc_Path : string;
}.

(** [validateSource] *)
Definition validateSource (c : sns_config) : bool :=
  match sc_Source c with
  | S3 => negb (String.eqb (sc_Bucket c) "") && negb (String.eqb (sc_Key c) "")
  | AppConfig => negb (String.eqb (sc_Application c) "") && negb (String.eqb (sc_Environment c) "") && negb (String.eqb (sc_Profile c) "")
  | ParameterStore => HasPrefix (sc_Path c) "/" && negb (String.eqb (TrimRight (TrimLeft (sc_Path c) "/") "/") "")
  | OtherSource => false
  end.

(** The envelope: [ev_Message] is the raw JSON of its message. *)
Record sns_envelope := { ev_Type : string; ev_TopicArn : string; ev_Message : string }.
Record s3_object := { ob_Bucket : string; ob_Key : string }.
Record s3_record := { rc_EventSource : string; rc_EventName : string; rc_S3 : s3_object }.
Record s3_event := {
  s3_Service : string; s3_Event : string; s3_Source : string; s3_DetailType : string; s3_Detail : s3_object;
  s3_Records : option (list s3_record);
}.
Record parameter_event := { pe_Source : string; pe_DetailType : string; pe_Name : string }.
Record deployment_event := { de_Type : string; de_Application : string; de_Environment : string; de_Profile : string }.

Inductive match_error := ErrTooLong | ErrJSON (e : string) | ErrNotObject | ErrSchema | ErrIdentity | ErrURL (e : string) | ErrUnsupported.

Definition empty (s : string) : bool := String.eqb s "".

(** The EventBridge events of S3 that change an object. *)
Definition s3_mutations : list string :=
  ["Object Created"; "Object Deleted"; "Object Restore Completed"; "Object Tags Added"; "Object Tags Deleted"; "Object ACL Updated"].
Definition isObjectMutation (detailType : string) : bool := existsb (String.eqb detailType) s3_mutations.

(** The same for the native notifications. *)
Definition native_mutation (name : string) : bool :=
  HasPrefix name "ObjectCreated:" || HasPrefix name "ObjectRemoved:" || String.eqb name "ObjectRestore:Completed".

Section sns.
Context (json_envelope : string → result string sns_envelope) (json_string : string → result string string) (json_valid : string → bool)
  (json_s3 : string → result string s3_event) (json_parameter : string → result string parameter_event)
  (json_deployment : string → result string deployment_event) (QueryUnescape : string → result string string).

(** One record of a native notification. *)
Definition match_record (c : sns_config) (matched : bool) (r : s3_record) : result match_error bool :=
  if negb (String.eqb (rc_EventSource r) "aws:s3") then Ok matched
  else if empty (rc_EventName r) || empty (ob_Bucket (rc_S3 r)) || empty (ob_Key (rc_S3 r)) then Err ErrIdentity
  else
    key ← map_err ErrURL (QueryUnescape (ob_Key (rc_S3 r)));
    Ok (matched || (native_mutation (rc_EventName r) && String.eqb (ob_Bucket (rc_S3 r)) (sc_Bucket c) && String.eqb key (sc_Key c))).

(** [matchS3] *)
Definition matchS3 (c : sns_config) (body : string) : result match_error bool :=
  ev ← map_err ErrJSON (json_s3 body);
  if String.eqb (s3_Service ev) "Amazon S3" && String.eqb (s3_Event ev) "s3:TestEvent" then Ok false
  else if empty (s3_Source ev) && negb (bool_decide (is_Some (s3_Records ev))) then Err ErrSchema
  else
    matched ← foldM (match_record c) false (default [] (s3_Records ev));
    if String.eqb (s3_Source ev) "aws.s3" then
      if empty (s3_DetailType ev) || empty (ob_Bucket (s3_Detail ev)) || empty (ob_Key (s3_Detail ev)) then Err ErrIdentity
      else Ok (matched || (isObjectMutation (s3_DetailType ev) && String.eqb (ob_Bucket (s3_Detail ev)) (sc_Bucket c)
                           && String.eqb (ob_Key (s3_Detail ev)) (sc_Key c)))
    else Ok matched.

Definition match_parameter (c : sns_config) (body : string) : result match_error bool :=
  ev ← map_err ErrJSON (json_parameter body);
  if empty (pe_Source ev) || empty (pe_DetailType ev) then Err ErrSchema else
  let change := String.eqb (pe_Source ev) "aws.ssm" && String.eqb (pe_DetailType ev) "Parameter Store Change" in
  if change && empty (pe_Name ev) then Err ErrIdentity else
  let root := TrimRight (sc_Path c) "/" in
  Ok (change && (String.eqb (pe_Name ev) root || HasPrefix (pe_Name ev) (root +:+ "/"))).

Definition match_deployment (c : sns_config) (body : string) : result match_error bool :=
  ev ← map_err ErrJSON (json_deployment body);
  if empty (de_Type ev) then Err ErrSchema else
  let mutation := existsb (String.eqb (de_Type ev)) ["OnDeploymentStart"; "OnDeploymentComplete"; "OnDeploymentRolledBack"] in
  if mutation && (empty (de_Application ev) || empty (de_Environment ev) || empty (de_Profile ev)) then Err ErrIdentity
  else Ok (mutation && String.eqb (de_Application ev) (sc_Application c) && String.eqb (de_Environment ev) (sc_Environment c)
           && String.eqb (de_Profile ev) (sc_Profile c)).

(** [match]; the message of an envelope is a JSON string or a raw object. *)
Definition sns_match (c : sns_config) (body : string) : result match_error bool :=
  if (max_notification <? len64 body)%Z then Err ErrTooLong else
  outer ← map_err ErrJSON (json_envelope body);
  let payload (body : string) :=
    if negb (json_valid body) || String.eqb (TrimSpace body) "null" then Err ErrNotObject
    else match sc_Source c with
         | S3 => matchS3 c body
         | ParameterStore => match_parameter c body
         | AppConfig => match_deployment c body
         | OtherSource => Err ErrUnsupported
         end in
  if String.eqb (ev_Type outer) "Notification" then
    if negb (empty (sc_TopicARN c)) && negb (String.eqb (ev_TopicArn outer) (sc_TopicARN c)) then Ok false
    else if HasPrefix (ev_Message outer) (bytes [34]) then body ← map_err ErrJSON (json_string (ev_Message outer)); payload body
    else payload (ev_Message outer)
  else payload body.
End sns.

(** ** Azure Event Grid (integrations/notify/azservicebus/match.go) *)

Inductive azure_source := AppConfiguration | Blob | OtherAzure.
Record azure_config := { zc_Source : azure_source; zc_ResourceID : string; zc_Prefix : string; zc_Label : string; zc_Container : string; zc_Key : string }.
Record grid_event := { ge_Topic : string; ge_EventType : string; ge_Key : string; ge_Label : string; ge_API : string; ge_URL : string }.

Section azure.
Context (fold_unicode : string → string → bool) (json_event : string → result string grid_event) (json_events : string → result string (list grid_event))
  (url_Parse : string → result string (string * string * string)).

(** One event; [url_Parse] gives the scheme, the host and the path. *)
Definition match_grid (c : azure_config) (matched : bool) (ev : grid_event) : result match_error bool :=
  if empty (ge_EventType ev) || empty (ge_Topic ev) then Err ErrSchema
  else if negb (EqualFold fold_unicode (ge_Topic ev) (zc_ResourceID c)) then Ok matched
  else match zc_Source c with
       | AppConfiguration =>
           if String.eqb (ge_EventType ev) "Microsoft.AppConfiguration.KeyValueModified" || String.eqb (ge_EventType ev) "Microsoft.AppConfiguration.KeyValueDeleted" then
             if empty (ge_Key ev) then Err ErrIdentity
             else Ok (matched || (HasPrefix (ge_Key ev) (zc_Prefix c) && String.eqb (ge_Label ev) (zc_Label c)))
           else Ok matched
       | Blob =>
           if negb (String.eqb (ge_EventType ev) "Microsoft.Storage.BlobCreated") && negb (String.eqb (ge_EventType ev) "Microsoft.Storage.BlobDeleted") then Ok matched
           else if existsb (String.eqb (ge_API ev)) ["CreateFile"; "SftpCreate"; "SftpWrite"] then Ok matched
           else match url_Parse (ge_URL ev) with
                | Err e => Err (ErrURL e)
                | Ok (scheme, host, path) =>
                    if empty host || negb (String.eqb scheme "https" || String.eqb scheme "http") then Err (ErrURL (ge_URL ev))
                    else Ok (matched || String.eqb path ("/" +:+ zc_Container c +:+ "/" +:+ zc_Key c))
                end
       | OtherAzure => Ok matched
       end.

Definition azure_match (c : azure_config) (body : string) : result match_error bool :=
  if (max_notification <? len64 body)%Z then Err ErrTooLong else
  let trimmed := TrimSpace body in
  if empty trimmed then Err ErrNotObject else
  events ← (if HasPrefix trimmed "[" then map_err ErrJSON (json_events trimmed) else one ← map_err ErrJSON (json_event trimmed); Ok [one]);
  foldM (match_grid c) false events.
End azure.

(** ** Google Pub/Sub (integrations/notify/pubsub/pubsub.go) *)

Inductive google_source := GCS | SecretManager | OtherGoogle.
Record google_config := { gc_Source : google_source; gc_Bucket : string; gc_Key : string; gc_Secret : string }.

Definition secret_part_bad (s : string) : bool := empty s || String.eqb s "." || String.eqb s ".." || ContainsAny s "?#".

(** The source selection that [New] accepts. *)
Definition google_valid (c : google_config) : bool :=
  match gc_Source c with
  | GCS => negb (empty (gc_Bucket c)) && negb (empty (gc_Key c))
  | SecretManager =>
      let parts := strings_Split (gc_Secret c) "/" in
      let part i := nth i parts "" in
      match length parts with
      | 4 => String.eqb (part 0) "projects" && String.eqb (part 2) "secrets"
      | 6 => String.eqb (part 0) "projects" && String.eqb (part 2) "locations" && String.eqb (part 4) "secrets"
      | _ => false
      end && negb (existsb secret_part_bad parts)
  | OtherGoogle => false
  end.

Definition attribute (a : gmap string string) (k : string) : string := default "" (a !! k).

Definition object_events : list string := ["OBJECT_FINALIZE"; "OBJECT_DELETE"; "OBJECT_ARCHIVE"; "OBJECT_METADATA_UPDATE"].
Definition secret_events : list string :=
  ["SECRET_CREATE"; "SECRET_UPDATE"; "SECRET_DELETE"; "SECRET_VERSION_ADD"; "SECRET_VERSION_ENABLE"; "SECRET_VERSION_DISABLE";
   "SECRET_VERSION_DESTROY"; "SECRET_VERSION_DESTROY_SCHEDULED"].

Definition google_size (data : string) (a : gmap string string) : Z :=
  foldr (λ kv n, (n + len64 kv.1 + len64 kv.2)%Z) (len64 data) (map_to_list a).

Definition google_match (c : google_config) (data : string) (a : gmap string string) : result match_error bool :=
  let event := attribute a "eventType" in
  if (max_notification <? google_size data a)%Z then Err ErrTooLong
  else if empty event then Err ErrSchema
  else match gc_Source c with
       | GCS =>
           if existsb (String.eqb event) object_events then
             if empty (attribute a "bucketId") || empty (attribute a "objectId") then Err ErrIdentity
             else Ok (String.eqb (attribute a "bucketId") (gc_Bucket c) && String.eqb (attribute a "objectId") (gc_Key c))
           else Ok false
       | SecretManager =>
           if existsb (String.eqb event) secret_events then
             if empty (attribute a "secretId") then Err ErrIdentity else Ok (String.eqb (attribute a "secretId") (gc_Secret c))
           else Ok false
       | OtherGoogle => Ok false
       end.

(** ** Consumers

    What a consumer does with one message, in order. *)
Inductive action := Refresh | Acknowledge | Release | Report (operation : string).

(** What it meets: the answer of the refresh, whether its deadline had passed
    before and after it, whether the consumer's context is cancelled when it is
    polled, and the answer to the settlement. *)
Record message_env := {
  me_refresh : option string;      (** the error of the refresh *)
  me_expired : bool;               (** the deadline passed before the refresh *)
  me_late : bool;                  (** the deadline passed during it *)
  me_cancelled : bool;
  me_settle : option string;       (** the error of the settlement *)
}.

(** The refresh of a matching message and the error it leaves; [check] polls the
    deadline before it too. *)
Definition refresh_message (check : bool) (matched : result match_error bool) (env : message_env) : list action * bool :=
  match matched with
  | Err _ => ([], true)
  | Ok false => ([], false)
  | Ok true =>
      if check && me_expired env then ([], true)
      else ([Refresh], bool_decide (is_Some (me_refresh env)) || me_late env)
  end.

(** [sns.Consumer.Run]: the actions, and whether the loop returns. *)
Definition sns_message (matched : result match_error bool) (env : message_env) : list action * bool :=
  let '(acts, failed) := refresh_message false matched env in
  if failed then (acts ++ [Report "process"], false)
  else if me_cancelled env then (acts, true)
  else (acts ++ [Acknowledge] ++ (if bool_decide (is_Some (me_settle env)) then [Report "acknowledge"] else []), false).

(** [azservicebus.Consumer.Run] on a message with a lock. *)
Definition azure_message (matched : result match_error bool) (env : message_env) : list action * bool :=
  let '(acts, failed) := refresh_message true matched env in
  if me_cancelled env then (acts, true)
  else (acts ++ (if failed then [Report "process"; Release] else [Acknowledge])
             ++ (if bool_decide (is_Some (me_settle env)) then [Report "settle"] else []), false).

(** [pubsub.Consumer.Run], the callback of a message. *)
Definition google_message (matched : result match_error bool) (env : message_env) : list action :=
  let '(acts, failed) := refresh_message true matched env in
  if failed || me_cancelled env then acts ++ [Report "process"; Release] else acts ++ [Acknowledge].

(** ** S3 events (providers/s3/s3events/s3events.go) *)

Record s3events_provider := { sp_name : string; sp_bucket : string; sp_keyPrefix : string }.
Record bridge_event := { br_Source : string; br_DetailType : string; br_Bucket : string; br_Key : string; br_ETag : string }.
(** A message of SQS: its body (empty when there is none) and its receipt handle. *)
Record s3_message := { sm_Body : string; sm_Receipt : string }.
Record s3_trigger := { tr_Reason : string; tr_Revision : string; tr_Gap : bool }.

(** [decodeAndMatch], without the time stamp. *)
Definition decodeAndMatch (json_bridge : string → result string bridge_event) (p : s3events_provider) (body : string) : option (string * string) :=
  if empty body then None else
  match json_bridge body with
  | Err _ => None
  | Ok env =>
      if negb (String.eqb (br_Source env) "aws.s3") || negb (isObjectMutation (br_DetailType env)) || negb (String.eqb (br_Bucket env) (sp_bucket p)) then None
      else if negb (empty (sp_keyPrefix p)) && negb (HasPrefix (br_Key env) (sp_keyPrefix p)) then None
      else Some ("s3:" +:+ br_DetailType env +:+ ":" +:+ br_Key env, br_ETag env)
  end.

(** The message loop of [poll]: the triggers that are sent, the messages to
    delete, and the gap flag; [room] sends succeed before the context ends, and
    then nothing is deleted. *)
Fixpoint poll_messages (json_bridge : string → result string bridge_event) (p : s3events_provider) (room : nat) (gap : bool)
    (msgs : list s3_message) (sent : list s3_trigger) (matched : list s3_message) : list s3_trigger * list s3_message * bool :=
  match msgs with
  | [] => (sent, matched, gap)
  | msg :: msgs =>
      match decodeAndMatch json_bridge p (sm_Body msg) with
      | None => poll_messages json_bridge p room gap msgs sent matched
      | Some (reason, revision) =>
          match room with
          | O => (sent, [], gap)
          | S room => poll_messages json_bridge p room false msgs (sent ++ [{| tr_Reason := reason; tr_Revision := revision; tr_Gap := gap |}]) (matched ++ [msg])
          end
      end
  end.

Definition clamp (n lo_exclusive hi fallback : Z) : Z := if (n <=? lo_exclusive)%Z || (hi <? n)%Z then fallback else n.

(** [newProvider]: the name, and the batch size and wait it asks for. *)
Definition s3events_name (name bucket keyPrefix : string) : string :=
  if empty name then "s3events:" +:+ bucket +:+ (if empty keyPrefix then "" else "/" +:+ keyPrefix) else name.
Definition s3events_batch (maxMessages waitSeconds : Z) : Z * Z := (clamp maxMessages 0 10 10, clamp waitSeconds 0 20 20).

(** ** What a match means *)

Section s3_match.
Context (json_s3 : string → result string s3_event) (QueryUnescape : string → result string string) (c : sns_config).

Definition malformed_record (r : s3_record) : bool :=
  String.eqb (rc_EventSource r) "aws:s3"
  && (empty (rc_EventName r) || empty (ob_Bucket (rc_S3 r)) || empty (ob_Key (rc_S3 r)) || negb (is_Ok (QueryUnescape (ob_Key (rc_S3 r))))).

(** A record of the configured object that changes it. *)
Definition record_of_object (r : s3_record) : bool :=
  String.eqb (rc_EventSource r) "aws:s3" && native_mutation (rc_EventName r) && String.eqb (ob_Bucket (rc_S3 r)) (sc_Bucket c)
  && match QueryUnescape (ob_Key (rc_S3 r)) with Ok key => String.eqb key (sc_Key c) | Err _ => false end.

Definition malformed_bridge (ev : s3_event) : bool :=
  String.eqb (s3_Source ev) "aws.s3" && (empty (s3_DetailType ev) || empty (ob_Bucket (s3_Detail ev)) || empty (ob_Key (s3_Detail ev))).

Definition bridge_of_object (ev : s3_event) : bool :=
  String.eqb (s3_Source ev) "aws.s3" && isObjectMutation (s3_DetailType ev) && String.eqb (ob_Bucket (s3_Detail ev)) (sc_Bucket c)
  && String.eqb (ob_Key (s3_Detail ev)) (sc_Key c).

Lemma match_record_eq matched r :
  if malformed_record r then is_Ok (match_record QueryUnescape c matched r) = false
  else match_record QueryUnescape c matched r = Ok (matched || record_of_object r).
Proof.
  unfold match_record, malformed_record, record_of_object. destruct (String.eqb (rc_EventSource r) "aws:s3"); cbn [negb andb]; [|by rewrite orb_false_r].
  destruct (empty (rc_EventName r) || empty (ob_Bucket (rc_S3 r)) || empty (ob_Key (rc_S3 r))); cbn [orb]; [done|].
  by destruct (QueryUnescape (ob_Key (rc_S3 r))).
Qed.

Lemma match_records matched rs :
  if existsb malformed_record rs then is_Ok (foldM (match_record QueryUnescape c) matched rs) = false
  else foldM (match_record QueryUnescape c) matched rs = Ok (matched || existsb record_of_object rs).
Proof.
  revert matched. induction rs as [|r rs IH]; intros matched; cbn [existsb foldM]; [by rewrite orb_false_r|].
  pose proof (match_record_eq matched r) as Hr. destruct (malformed_record r); cbn [orb].
  - by destruct (match_record _ _ _ _).
  - rewrite Hr, bind_of_Ok, orb_assoc. apply IH.
Qed.

(** An S3 notification matches exactly when it is about the configured object:
    one of its records, or its EventBridge detail, is a change of the bucket and
    key.  It is an error exactly when its schema is missing or one of the S3 parts
    it has lacks an identity; a test event matches nothing. *)
Theorem s3_match_exact (body : string) (ev : s3_event) (Hjson : json_s3 body = Ok ev)
    (Htest : String.eqb (s3_Service ev) "Amazon S3" && String.eqb (s3_Event ev) "s3:TestEvent" = false) :
  let records := default [] (s3_Records ev) in
  let malformed := (s3_Source ev = "" ∧ s3_Records ev = None) ∨ existsb malformed_record records = true ∨ malformed_bridge ev = true in
  (malformed → is_Ok (matchS3 json_s3 QueryUnescape c body) = false)
  ∧ (¬ malformed → matchS3 json_s3 QueryUnescape c body = Ok (existsb record_of_object records || bridge_of_object ev)).
Proof.
  intros records malformed. unfold matchS3. rewrite Hjson. cbn [map_err]. rewrite bind_of_Ok, Htest. fold records.
  pose proof (match_records false records) as Hrecords. cbn [orb] in Hrecords.
  destruct (empty (s3_Source ev) && negb (bool_decide (is_Some (s3_Records ev)))) eqn:Hs.
  { apply andb_true_iff in Hs as [Hs%String.eqb_eq Hr%negb_true_iff%bool_decide_eq_false]. split; [done|]. intros []. left. split; [done|]. by destruct (s3_Records ev); [destruct Hr; eauto|]. }
  assert (¬ (s3_Source ev = "" ∧ s3_Records ev = None)) as Hs'. { intros [Ha Hb]. unfold empty in Hs. rewrite Ha, Hb in Hs. done. }
  destruct (existsb malformed_record records) eqn:Hm.
  { split; [intros _|intros []; right; by left]. by destruct (foldM _ _ _). }
  rewrite Hrecords, bind_of_Ok. unfold malformed, malformed_bridge, bridge_of_object. destruct (String.eqb (s3_Source ev) "aws.s3"); cbn [andb].
  - destruct (empty (s3_DetailType ev) || _ || _); split; naive_solver.
  - rewrite orb_false_r. split; naive_solver.
Qed.
End s3_match.

(** ** Acknowledgement *)

(** An acknowledged message was either unrelated, or refreshed before it was
    acknowledged, in time and without an error. *)
Definition acknowledged_safely (matched : result match_error bool) (env : message_env) (acts : list action) : Prop :=
  Acknowledge ∈ acts →
  Release ∉ acts ∧
  (matched = Ok false ∧ Refresh ∉ acts
   ∨ matched = Ok true ∧ me_refresh env = None ∧ me_late env = false ∧ ∃ rest, acts = Refresh :: Acknowledge :: rest).

(** No consumer acknowledges a message before the configuration it announces was
    refreshed: a malformed message, a failing or late refresh leave it to be
    delivered again, and are reported unless the consumer is being cancelled. *)
Theorem acknowledged_after_refresh (matched : result match_error bool) (env : message_env) :
  acknowledged_safely matched env (sns_message matched env).1
  ∧ acknowledged_safely matched env (azure_message matched env).1
  ∧ acknowledged_safely matched env (google_message matched env)
  ∧ (me_cancelled env = false →
       ∀ acts, acts ∈ [(sns_message matched env).1; (azure_message matched env).1; google_message matched env] →
       Acknowledge ∈ acts ∨ Report "process" ∈ acts).
Proof.
  unfold acknowledged_safely, sns_message, azure_message, google_message, refresh_message.
  destruct matched as [[|]|e], env as [[err|] [] [] [] [settle|]]; cbn; split_and!; intros; try set_solver.
  all: match goal with H : _ ∈ [_; _; _] |- _ => apply elem_of_cons in H as [->|[->|[->|?%not_elem_of_nil]%elem_of_cons]%elem_of_cons] end; set_solver.
Qed.

(** ** S3 events *)

(** The triggers of a batch: every matching message once, in order, and the first
    of a resumed watch reports the gap. *)
Definition triggers (l : list (string * string)) (gap : bool) : list s3_trigger :=
  match l with
  | [] => []
  | x :: l => {| tr_Reason := x.1; tr_Revision := x.2; tr_Gap := gap |} :: ((λ y, {| tr_Reason := y.1; tr_Revision := y.2; tr_Gap := false |}) <$> l)
  end.

(** What a message triggers. *)
Definition hit json_bridge p (msg : s3_message) : option (string * string) := decodeAndMatch json_bridge p (sm_Body msg).

Lemma poll_messages_spec json_bridge p room gap msgs sent matched :
  let hits := omap (hit json_bridge p) msgs in
  length hits ≤ room →
  poll_messages json_bridge p room gap msgs sent matched =
  (sent ++ triggers hits gap, matched ++ filter (λ m, is_Some (hit json_bridge p m)) msgs, gap && bool_decide (hits = [])).
Proof.
  revert room gap sent matched. induction msgs as [|msg msgs IH]; intros room gap sent matched hits Hroom.
  - cbn. rewrite !app_nil_r, andb_true_r. done.
  - subst hits. cbn [omap list_omap poll_messages] in *. rewrite filter_cons. change (decodeAndMatch json_bridge p (sm_Body msg)) with (hit json_bridge p msg). destruct (hit json_bridge p msg) as [[reason revision]|] eqn:Hd.
    + destruct room as [|room]; [simpl in Hroom; lia|]. rewrite IH by (simpl in Hroom; lia). rewrite decide_True by eauto. rewrite <-!app_assoc.
      rewrite (bool_decide_false (_ :: _ = [])) by done. rewrite andb_false_r. cbn [andb app].
      assert (triggers (omap (hit json_bridge p) msgs) false
              = (λ y, {| tr_Reason := y.1; tr_Revision := y.2; tr_Gap := false |}) <$> omap (hit json_bridge p) msgs) as ->
        by (by destruct (omap _ msgs)). done.
    + rewrite IH by done. rewrite decide_False by (by intros [? [=]]). done.
Qed.

(** A poll of the S3 event queue sends one trigger for each message about the
    bucket and prefix, in order, and deletes exactly those messages; a resumed
    watch reports its gap on the first trigger only.  When the watch ends before
    all could be sent, nothing is deleted. *)
Theorem s3events_poll (json_bridge : string → result string bridge_event) (p : s3events_provider) (room : nat) (gap : bool) (msgs : list s3_message) :
  let hits := omap (hit json_bridge p) msgs in
  if length hits <=? room
  then poll_messages json_bridge p room gap msgs [] [] =
       (triggers hits gap, filter (λ m, is_Some (hit json_bridge p m)) msgs, gap && bool_decide (hits = []))
  else (poll_messages json_bridge p room gap msgs [] []).1.2 = [].
Proof.
  intros hits. destruct (Nat.leb_spec (length hits) room) as [Hle|Hgt]; [by apply poll_messages_spec|]. subst hits. revert Hgt.
  enough (∀ room gap sent matched, room < length (omap (hit json_bridge p) msgs) →
    (poll_messages json_bridge p room gap msgs sent matched).1.2 = []) as Hstop by (by apply Hstop).
  clear room gap. induction msgs as [|msg msgs IH]; intros room gap sent matched; cbn; [lia|]. change (decodeAndMatch json_bridge p (sm_Body msg)) with (hit json_bridge p msg).
  destruct (hit json_bridge p msg) as [[reason revision]|]; cbn; [|apply IH]. destruct room as [|room]; [done|]. intros Hgt. apply IH. lia.
Qed.

Lemma s3_match_exact_witness :
  let c := {| sc_TopicARN := ""; sc_Source := S3; sc_Bucket := "b"; sc_Key := "k 1"; sc_Application := ""; sc_Environment := ""; sc_Profile := ""; sc_Path := "" |} in
  let r := {| rc_EventSource := "aws:s3"; rc_EventName := "ObjectCreated:Put"; rc_S3 := {| ob_Bucket := "b"; ob_Key := "k+1" |} |} in
  let ev := {| s3_Service := ""; s3_Event := ""; s3_Source := ""; s3_DetailType := ""; s3_Detail := {| ob_Bucket := ""; ob_Key := "" |}; s3_Records := Some [r] |} in
  matchS3 (λ _, Ok ev) (λ s, Ok (ReplaceAll s "+" " ")) c "{}" = Ok true.
Proof.
  intros c r ev. destruct (s3_match_exact (λ _, Ok ev) (λ s, Ok (ReplaceAll s "+" " ")) c "{}" ev eq_refl eq_refl) as [_ Hm].
  rewrite Hm; [reflexivity|]. intros [[_ H]|[H|H]]; vm_compute in H; discriminate.
Defined.
