(* ===== verification/Observers.v ===== *)
(** * Observers and renderers (observe/observe.go, observe.go, integrations/render/render.go)

    The asynchronous observer as a transition system, the fan-out of events, their
    translation for a metrics sink, and the renderer that keeps a file in step with
    the published states.  Events are those of a reload and, besides, the errors
    and drops that provider watchers report; time stamps and durations are left
    out. *)
From S2P Require Import Prelude GoStrings Options Pipeline Manager.
Open Scope nat_scope.

(** ** Asynchronous delivery *)

Section async.
Context {E : Type}.

(** The bounded queue between [Observe] and the goroutine that calls the target. *)
Record AsyncObserver := {
  as_cap : nat;
  as_ch : list E;
  as_closed : bool;
  as_dropped : nat;
  as_current : option E;      (** the event whose delivery is running *)
  as_delivered : list E;
  as_done : bool;             (** [run] has returned *)
}.

(** [Async] *)
Definition Async (queueCap : Z) : AsyncObserver :=
  {| as_cap := if (queueCap <? 1)%Z then 1 else Z.to_nat queueCap; as_ch := []; as_closed := false; as_dropped := 0;
     as_current := None; as_delivered := []; as_done := false |}.

Definition Observe (a : AsyncObserver) (e : E) : AsyncObserver :=
  if as_closed a || negb (length (as_ch a) <? as_cap a)
  then {| as_cap := as_cap a; as_ch := as_ch a; as_closed := as_closed a; as_dropped := S (as_dropped a);
          as_current := as_current a; as_delivered := as_delivered a; as_done := as_done a |}
  else {| as_cap := as_cap a; as_ch := as_ch a ++ [e]; as_closed := as_closed a; as_dropped := as_dropped a;
          as_current := as_current a; as_delivered := as_delivered a; as_done := as_done a |}.

(** [Close] up to its wait for [done]. *)
Definition Close (a : AsyncObserver) : AsyncObserver :=
  {| as_cap := as_cap a; as_ch := as_ch a; as_closed := true; as_dropped := as_dropped a;
     as_current := as_current a; as_delivered := as_delivered a; as_done := as_done a |}.

(** A step of [run]: the running delivery ends, the next event is received, or
    the closed and empty channel ends the loop.  [None] when it waits or has
    returned. *)
Definition run_step (a : AsyncObserver) : option AsyncObserver :=
  match as_current a, as_ch a with
  | Some e, ch =>
      Some {| as_cap := as_cap a; as_ch := ch; as_closed := as_closed a; as_dropped := as_dropped a;
              as_current := None; as_delivered := as_delivered a ++ [e]; as_done := as_done a |}
  | None, e :: ch =>
      Some {| as_cap := as_cap a; as_ch := ch; as_closed := as_closed a; as_dropped := as_dropped a;
              as_current := Some e; as_delivered := as_delivered a; as_done := as_done a |}
  | None, [] =>
      if as_closed a && negb (as_done a)
      then Some {| as_cap := as_cap a; as_ch := []; as_closed := true; as_dropped := as_dropped a;
                   as_current := None; as_delivered := as_delivered a; as_done := true |}
      else None
  end.

(** What happens to an observer: the events in the order of the [Observe] calls. *)
Inductive async_step : AsyncObserver * list E → AsyncObserver * list E → Prop :=
| Step_observe a l e : async_step (a, l) (Observe a e, l ++ [e])
| Step_close a l : async_step (a, l) (Close a, l)
| Step_run a a' l : run_step a = Some a' → async_step (a, l) (a', l).

(** [run] alone, for a number of steps. *)
Fixpoint drain (n : nat) (a : AsyncObserver) : AsyncObserver :=
  match n with
  | O => a
  | S n => match run_step a with Some a => drain n a | None => a end
  end.
End async.
Arguments AsyncObserver : clear implicits.

(** ** Fan-out and metrics *)

(** [Multi]: the targets of an event, [None] for a nil entry. *)
Definition Multi {O} (os : list (option O)) : list O := omap id os.

Inductive any_event := Lifecycle (e : event) | ProviderError (provider : string) | EventDropped (source : string).

(** The calls of a [MetricsSink], durations left out. *)
Inductive sink_call :=
| SinkReloadFinished (ok : bool) | SinkStageDuration (stage : string) (ok : bool) | SinkStateGeneration (gen : N)
| SinkLayersTotal (n : nat) | SinkProviderError (provider : string) | SinkEventDropped (source : string).

Definition no_error (e : option fc_error) : bool := match e with None => true | Some _ => false end.

Definition Metrics (e : any_event) : list sink_call :=
  match e with
  | Lifecycle (ReloadStarted _) => []
  | Lifecycle (ReloadFinished _ err) => [SinkReloadFinished (no_error err)]
  | Lifecycle (StageFinished stage err) => [SinkStageDuration stage (no_error err)]
  | Lifecycle (Committed _ next _ layers) => [SinkStateGeneration next; SinkLayersTotal layers]
  | ProviderError p => [SinkProviderError p]
  | EventDropped s => [SinkEventDropped s]
  end.

(** [JSONLines]: the fields of the object written for an event. *)
Definition JSONLines (e : any_event) : option (string * N * N) :=
  match e with Lifecycle (Committed prev next reason _) => Some (reason, next, prev) | _ => None end.

(** ** Rendering to a file (integrations/render/render.go) *)

Section render.
Context {T : Type} (Render : T → result string string) (atomicWrite : string → option string) (hooks : list (option (option string))) (SkipFirstHook : bool).

(** The variables of [Wire], and the file: its contents when it was written. *)
Record wire_state := { wi_lastGen : N; wi_lastBytes : string; wi_written : bool; wi_file : option string }.
Definition wire_start (file : option string) : wire_state := {| wi_lastGen := 0; wi_lastBytes := ""; wi_written := false; wi_file := file |}.

Inductive render_report := RenderError (e : string) | WriteError (e : string) | HookError (e : string) | HookRan.

(** The hooks in order, a nil one skipped; a failure is reported and does not stop. *)
Definition run_hooks : list render_report :=
  omap (λ h, match h with None => None | Some None => Some HookRan | Some (Some e) => Some (HookError e) end) hooks.

(** [apply]: a snapshot is its generation and its value; [atomicWrite] returns
    its error, and leaves the old file in place with one. *)
Definition wire_apply (s : wire_state) (snap : option (N * option T)) (initial : bool) : wire_state * list render_report :=
  match snap with
  | Some (gen, Some v) =>
      if negb (wi_lastGen s =? 0)%N && (gen <=? wi_lastGen s)%N then (s, []) else
      let s := {| wi_lastGen := gen; wi_lastBytes := wi_lastBytes s; wi_written := wi_written s; wi_file := wi_file s |} in
      match Render v with
      | Err e => (s, [RenderError e])
      | Ok buf =>
          if wi_written s && String.eqb buf (wi_lastBytes s) then (s, []) else
          match atomicWrite buf with
          | Some e => (s, [WriteError e])
          | None =>
              ({| wi_lastGen := gen; wi_lastBytes := buf; wi_written := true; wi_file := Some buf |},
               if initial && SkipFirstHook then [] else run_hooks)
          end
      end
  | _ => (s, [])
  end.

(** The snapshots that [apply] is called with, in the order of its mutex. *)
Definition wire_run (s : wire_state) (snaps : list (N * option T)) : wire_state :=
  foldl (λ s snap, (wire_apply s (Some snap) false).1) s snaps.
End render.

(** ** Facts: delivery *)

Section async_facts.
Context {E : Type}.

Definition in_queue (a : AsyncObserver E) : list E := option_list (as_current a) ++ as_ch a.

(** Accepted events are delivered in order, each once; the others are counted. *)
Record async_ok (st : AsyncObserver E * list E) : Prop := {
  ao_split : ∃ accepted, accepted = as_delivered st.1 ++ in_queue st.1 ∧ accepted `sublist_of` st.2
             ∧ length st.2 = length accepted + as_dropped st.1;
  ao_cap : length (as_ch st.1) ≤ as_cap st.1;
  ao_done : as_done st.1 = true → as_closed st.1 = true ∧ in_queue st.1 = [];
}.

Lemma async_step_ok st st' : async_ok st → async_step st st' → async_ok st'.
Proof.
  intros [(acc & Hacc & Hsub & Hlen) Hcap Hdone] Hstep. destruct Hstep as [a l e|a l|a a' l Hrun]; cbn [fst snd] in *; subst acc.
  - unfold Observe. destruct (as_closed a || negb (length (as_ch a) <? as_cap a)) eqn:Hfull; constructor; cbn [fst snd in_queue as_current as_ch as_delivered as_dropped as_closed as_done as_cap];
      try done.
    + exists (as_delivered a ++ in_queue a). split; [done|]. split; [by apply sublist_inserts_r|]. rewrite length_app. cbn [length]. lia.
    + exists ((as_delivered a ++ in_queue a) ++ [e]). split; [unfold in_queue; cbn; by rewrite <-!app_assoc|]. split; [by apply sublist_app|]. rewrite (length_app l), (length_app (_ ++ _)). cbn [length]. lia.
    + apply orb_false_iff in Hfull as [_ Hfull%negb_false_iff%Nat.ltb_lt]. rewrite length_app. cbn. lia.
    + intros Hd%Hdone. apply orb_false_iff in Hfull as [Hc _]. rewrite Hc in Hd. by destruct Hd.
  - constructor; cbn; [by eexists|done|]. intros Hd%Hdone. split; [done|]. by destruct Hd.
  - unfold run_step in Hrun. unfold in_queue in *. destruct a as [cap ch closed dropped current delivered dn]. cbn in *.
    destruct current as [e|].
    + injection Hrun as <-. constructor; cbn; [|done|].
      * eexists. split; [done|]. rewrite <-app_assoc. done.
      * intros Hd%Hdone. by destruct Hd.
    + destruct ch as [|e ch].
      * destruct closed, dn; try done. injection Hrun as <-. constructor; cbn; [by eexists|lia|done].
      * injection Hrun as <-. constructor; cbn; [by eexists|cbn in Hcap; lia|]. intros Hd%Hdone. by destruct Hd.
Qed.

Lemma async_reachable_ok cap st : rtc async_step (Async cap, []) st → async_ok st.
Proof.
  intros Hs. assert (async_ok (Async cap, [])) as H0.
  { constructor; cbn; [exists []; by split_and!|lia|done]. }
  induction Hs as [|x y z Hxy _ IH]; [done|]. apply IH. by eapply async_step_ok.
Qed.

(** The number of steps that the goroutine has left once it is closed. *)
Definition steps_left (a : AsyncObserver E) : nat :=
  2 * length (as_ch a) + (if as_current a then 1 else 0) + (if as_done a then 0 else 1).

Lemma drain_spec n a : as_closed a = true → (as_done a = true → in_queue a = []) → steps_left a ≤ n →
  as_done (drain n a) = true ∧ as_delivered (drain n a) = as_delivered a ++ in_queue a ∧ as_dropped (drain n a) = as_dropped a.
Proof.
  revert a. induction n as [|n IH]; intros [cap ch closed dropped current delivered dn]; unfold steps_left, in_queue; cbn; intros -> Hdone Hn.
  - destruct dn; [|lia]. specialize (Hdone eq_refl). by rewrite Hdone, app_nil_r.
  - unfold run_step. cbn. destruct current as [e|]; [|destruct ch as [|e ch]; [destruct dn; cbn; [by rewrite app_nil_r|]|]].
    all: match goal with Hind : (∀ a, as_closed a = true → _), Hle : _ ≤ _ |- context [drain _ ?x] =>
           pose proof (Hind x) as Hx; unfold steps_left, in_queue in Hx; cbn in Hx, Hle end.
    + destruct Hx as (H1 & H2 & H3); [done|intros Hd; by specialize (Hdone Hd)|destruct dn; lia|]. by rewrite H1, H2, H3, <-app_assoc.
    + destruct Hx as (H1 & H2 & H3); [done|done|lia|]. by rewrite H1, H2, H3.
    + destruct Hx as (H1 & H2 & H3); [done|intros Hd; by specialize (Hdone Hd)|destruct dn; lia|]. by rewrite H1, H2, H3.
Qed.
End async_facts.

(** Asynchronous delivery.  In every reachable state the accepted events were
    delivered, or are waiting, each once and in the order in which they were
    observed; every other one is counted as dropped; and the queue is bounded.
    After [Close] the goroutine delivers all that waits in boundedly many steps
    and returns, so that [Close] returns too. *)
Theorem async_delivery (E : Type) (cap : Z) (a : AsyncObserver E) (observed : list E) (Hs : rtc async_step (Async cap, []) (a, observed)) :
  (∃ accepted, accepted = as_delivered a ++ in_queue a ∧ accepted `sublist_of` observed ∧ length observed = length accepted + as_dropped a)
  ∧ length (as_ch a) ≤ as_cap a
  ∧ (let closed := drain (steps_left (Close a)) (Close a) in
     as_done closed = true ∧ as_delivered closed = as_delivered a ++ in_queue a ∧ as_dropped closed = as_dropped a).
Proof.
  destruct (async_reachable_ok cap _ Hs) as [Hsplit Hcap Hdone]. split_and!; [done|done|..].
  all: destruct (drain_spec (steps_left (Close a)) (Close a)) as (H1 & H2 & H3); [done|intros Hd; by apply Hdone|done|]; done.
Qed.

Lemma async_delivery_witness :
  let a := Observe (Observe (Async 1) 5) 6 in
  as_delivered (drain (steps_left (Close a)) (Close a)) = [5] ∧ as_dropped a = 1.
Proof.
  intros a. split; [|reflexivity].
  destruct (async_delivery nat 1 a [5; 6]) as (_ & _ & _ & H & _).
  - eapply rtc_l; [apply (Step_observe (Async 1) [] 5)|]. apply rtc_once. apply (Step_observe (Observe (Async 1) 5) [5] 6).
  - exact H.
Defined.

(** ** Facts: the rendered file *)

Section render_facts.
Context {T : Type} (Render : T → result string string) (hooks : list (option (option string))) (SkipFirstHook : bool) (value_of : N → T).

Notation wire_apply := (wire_apply Render (λ _, None) hooks SkipFirstHook).

(** The file shows the newest snapshot whose rendering succeeded. *)
Record wire_ok (s : wire_state) : Prop := {
  wo_bytes : wi_written s = true → wi_file s = Some (wi_lastBytes s);
  wo_fresh : wi_lastGen s ≠ 0%N → ∀ buf, Render (value_of (wi_lastGen s)) = Ok buf → wi_file s = Some buf;
}.

Lemma wire_apply_ok s gen initial : wire_ok s → gen ≠ 0%N →
  let s' := (wire_apply s (Some (gen, Some (value_of gen))) initial).1 in wire_ok s' ∧ wi_lastGen s' = N.max (wi_lastGen s) gen.
Proof.
  intros [Hbytes Hfresh] Hgen. cbn. destruct (negb (wi_lastGen s =? 0)%N && (gen <=? wi_lastGen s)%N) eqn:Hold.
  - apply andb_true_iff in Hold as [_ Hle%N.leb_le]. cbn. split; [done|]. lia.
  - assert (gen = N.max (wi_lastGen s) gen) as Hmax.
    { apply andb_false_iff in Hold as [Hz%negb_false_iff%N.eqb_eq|Hle%N.leb_gt]; lia. }
    destruct (Render (value_of gen)) as [buf|e] eqn:Hr; [destruct (wi_written s && String.eqb buf (wi_lastBytes s)) eqn:Hsame|]; cbn; (split; [constructor; cbn|done]); try done.
    + intros _ buf' Hr'. rewrite Hr in Hr'. injection Hr' as <-. apply andb_true_iff in Hsame as [Hw ->%String.eqb_eq]. by apply Hbytes.
    + intros _ buf' Hr'. congruence.
    + intros _ buf' Hr'. congruence.
Qed.

Lemma wire_run_ok gens s : wire_ok s → Forall (λ g, g ≠ 0%N) gens →
  let s' := wire_run Render (λ _, None) hooks SkipFirstHook s ((λ g, (g, Some (value_of g))) <$> gens) in
  wire_ok s' ∧ wi_lastGen s' = foldr N.max (wi_lastGen s) gens.
Proof.
  intros Hs Hgens. revert s Hs. induction Hgens as [|g gens Hg _ IH]; intros s Hs; [done|].
  destruct (wire_apply_ok s g false Hs Hg) as [Hs' Hmax]. destruct (IH _ Hs') as [IH1 IH2]. split; [exact IH1|].
  change (wi_lastGen (wire_run Render (λ _, None) hooks SkipFirstHook (wire_apply s (Some (g, Some (value_of g))) false).1 ((λ g, (g, Some (value_of g))) <$> gens))
          = foldr N.max (wi_lastGen s) (g :: gens)). rewrite IH2, Hmax. cbn [foldr]. clear. induction gens as [|h gens IH]; cbn [foldr]; [lia|]. rewrite IH. lia.
Qed.
End render_facts.

(** Snapshots may reach the renderer in any order and more than once; when writes
    succeed, the file holds in the end what the newest of them renders to, and a
    stale snapshot never overwrites it. *)
Theorem rendered_newest (T : Type) (Render : T → result string string) (hooks : list (option (option string))) (SkipFirstHook : bool)
    (value_of : N → T) (gens : list N) (newest : N) (file : option string) (buf : string)
    (Hpos : Forall (λ g, g ≠ 0%N) gens) (Hin : newest ∈ gens) (Hmax : ∀ g, g ∈ gens → (g ≤ newest)%N) (Hr : Render (value_of newest) = Ok buf) :
  wi_file (wire_run Render (λ _, None) hooks SkipFirstHook (wire_start file) ((λ g, (g, Some (value_of g))) <$> gens)) = Some buf.
Proof.
  destruct (wire_run_ok Render hooks SkipFirstHook value_of gens (wire_start file)) as [[_ Hfresh] Hgen]; [by constructor|done|].
  assert (foldr N.max (wi_lastGen (wire_start file)) gens = newest) as Hnew.
  { apply N.le_antisymm.
    - clear -Hmax. induction gens as [|g gens IH]; cbn [foldr]; [cbn; lia|]. apply N.max_lub; [apply Hmax; left|]. apply IH. intros g' Hg'. apply Hmax. by right.
    - clear -Hin. induction Hin as [g gens|g h gens _ IH]; cbn [foldr]; lia. }
  apply Hfresh; rewrite Hgen, Hnew; [|done]. rewrite Forall_forall in Hpos. by apply Hpos.
Qed.

Lemma rendered_newest_witness :
  wi_file (wire_run (λ n : N, Ok (pretty.pretty n)) (λ _, None) [] false (wire_start None) ((λ g, (g, Some g)) <$> [3; 5; 4]%N)) = Some "5".
Proof.
  apply (rendered_newest N (λ n, Ok (pretty.pretty n)) [] false (λ g, g) [3; 5; 4]%N 5 None "5").
  - repeat constructor; discriminate.
  - right. left.
  - intros g Hg. repeat (apply elem_of_cons in Hg as [->|Hg]; [vm_compute; discriminate|]). by apply not_elem_of_nil in Hg.
  - vm_compute. reflexivity.
Defined.
