(* ===== verification/StructGen.v ===== *)
(** * Structs from a sample (cmd/fastconfgen/main.go)

    [fastconfgen] reads a YAML or JSON sample and prints Go structs for it.
    The names it makes up are distinct, and the sample decodes into the structs. *)
From S2P Require Import Prelude GoStrings Value.
From Stdlib Require Import Ascii SpecFloat.
From stdpp Require Import pretty.
Open Scope nat_scope.

(** ** Runes *)

(** What the source uses of Go's [unicode] package, on the UTF-8 encoding of a rune. *)
Class Unicode := {
  IsLetter : string → bool;
  IsDigit : string → bool;
  IsUpper : string → bool;
  ToUpper : string → string;
}.

(** U+FFFD, which a loop over a string yields for a byte that is not UTF-8. *)
Definition RuneError : string := bytes [239; 191; 189].

Fixpoint rune_rest (pend : list (nat * nat)) (s : string) : bool :=
  match pend, s with
  | [], _ => true
  | (lo, hi) :: pend, String b s => (lo <=? nat_of_ascii b) && (nat_of_ascii b <=? hi) && rune_rest pend s
  | _ :: _, EmptyString => false
  end.

(** The bytes after the first one of the rune that [b s] starts with. *)
Definition rune_tail (b : ascii) (s : string) : option nat :=
  match utf8_start (nat_of_ascii b) with
  | Some pend => if rune_rest pend s then Some (length pend) else None
  | None => None
  end.

(** [for _, r := range s] *)
Fixpoint runes_go (skip : nat) (s : string) : list string :=
  match s with
  | EmptyString => []
  | String b t =>
      match skip with
      | S k => runes_go k t
      | 0 => match rune_tail b t with
             | Some n => str_take (S n) s :: runes_go n t
             | None => RuneError :: runes_go 0 t
             end
      end
  end.

Definition runes (s : string) : list string := runes_go 0 s.

Definition concat_runes (rs : list string) : string := foldr String.append "" rs.

(** ** Names *)

Section names.
Context `{Unicode, GoStd}.

Definition tag_punctuation : list string := explode "!#$%&()*+-./:;<=>?@[]^_{|}~ ".

Definition validTagKey (key : string) : bool :=
  if String.eqb key "" || String.eqb key "-" then false
  else forallb (λ r, IsLetter r || IsDigit r || existsb (String.eqb r) tag_punctuation) (runes key).

(** The loop of [splitIdent]: the parts so far, and the current one. *)
Definition split_rune (st : list string * string) (r : string) : list string * string :=
  let '(out, cur) := st in
  if negb (IsLetter r) && negb (IsDigit r) then
    (if String.eqb cur "" then (out, cur) else (out ++ [cur], ""))
  else (out, cur +:+ r).

Definition splitIdent (s : string) : list string :=
  let '(out, cur) := foldl split_rune ([], "") (runes s) in
  if String.eqb cur "" then out else out ++ [cur].

Definition capitalize (s : string) : string :=
  match runes s with [] => s | r :: rs => ToUpper r +:+ concat_runes rs end.

Definition initialisms : gmap string string := list_to_map
  [("id", "ID"); ("url", "URL"); ("uri", "URI"); ("http", "HTTP"); ("https", "HTTPS");
   ("api", "API"); ("ip", "IP"); ("tcp", "TCP"); ("udp", "UDP"); ("tls", "TLS");
   ("sql", "SQL"); ("json", "JSON"); ("yaml", "YAML"); ("uuid", "UUID"); ("db", "DB")].

Definition exportName (k : string) : string :=
  let out := strings_Join (map (λ p, match initialisms !! ToLower p with Some up => up | None => capitalize p end) (splitIdent k)) "" in
  match runes out with
  | [] => "Field"
  | first :: _ => if IsUpper first then out else "F" +:+ out
  end.
End names.

(** [base], or [base] with a counter of at least two. *)
Definition numbered (base : string) (n : nat) : string := if 1 <? n then base +:+ itoa n else base.

(** The loop of [uniqueName] over its counter. *)
Fixpoint unique_search (fuel : nat) (base : string) (n : nat) (used : gmap string nat) : option nat :=
  match fuel with
  | 0 => None
  | S fuel => match used !! numbered base n with None => Some n | Some _ => unique_search fuel base (S n) used end
  end.

(** [uniqueName]; the search succeeds within one step more than there are names
    ([unique_search_total]). *)
Definition uniqueName (base : string) (used : gmap string nat) : string * gmap string nat :=
  let n := default 1 (unique_search (S (size used)) base (default 0 (used !! base) + 1) used) in
  let name := numbered base n in
  let used := <[base := n]> used in
  (name, <[name := Nat.max (default 0 (used !! name)) 1]> used).

Definition uniqueExportName `{Unicode, GoStd} (k : string) (used : gmap string nat) : string * gmap string nat :=
  uniqueName (exportName k) used.

(** ** Types *)

(** The results of [scalarType], and the types that [fieldType] prints. *)
Inductive scalar := SString | SBool | SInt64 | SFloat64 | SAny.

#[export] Instance scalar_eq_dec : EqDecision scalar.
Proof. solve_decision. Defined.

Inductive gotype := TScalar (s : scalar) | TNamed (name : string) | TSliceOf (t : gotype).

Definition scalar_text (s : scalar) : string :=
  match s with SString => "string" | SBool => "bool" | SInt64 => "int64" | SFloat64 => "float64" | SAny => "any" end.

Fixpoint type_text (t : gotype) : string :=
  match t with TScalar s => scalar_text s | TNamed n => n | TSliceOf t => "[]" +:+ type_text t end.

Definition scalarType (v : value) : scalar :=
  match v with
  | VString _ => SString
  | VBool _ => SBool
  | VInt _ _ => SInt64
  | VFloat _ _ => SFloat64
  | _ => SAny
  end.

(** [mergeScalarType]; the empty string is [None]. *)
Definition mergeScalarType (a : option scalar) (b : scalar) : scalar :=
  match a with
  | None => b
  | Some a =>
      if decide (a = b) then a
      else match a, b with
           | SInt64, SFloat64 | SFloat64, SInt64 => SFloat64
           | _, _ => SAny
           end
  end.

(** ** Samples *)

(** [anySample], a pointer that no decoder returns. *)
Definition anySample : value := VOpaque "*struct {}" 0.

Definition is_anySample (v : value) : bool := bool_decide (v = anySample).

(** [append(append([]any(nil), as...), bs...)] *)
Definition slice_of_list (l : list value) : value := match l with [] => VNilSlice | _ => VSlice l end.

Definition merged_scalar (t : scalar) : value :=
  match t with
  | SString => VString ""
  | SBool => VBool false
  | SInt64 => VInt KInt64 0
  | SFloat64 => VFloat KFloat64 (S754_zero false)
  | SAny => anySample
  end.

(** The map that [mergeSampleMap] leaves in [dst], [merge] being [mergeSampleValue]. *)
Definition merge_entries (merge : value → value → value) (dst src : gmap string value) : gmap string value :=
  map_rebuild (λ k v, match dst !! k with Some old => merge old v | None => v end) src ∪ dst.

(** [mergeSampleValue].  The source merges into a clone of a map, so that the
    sample stays as it is; a decoded sample has no nil map to write to. *)
Fixpoint mergeSampleValue (a b : value) {struct b} : value :=
  if is_anySample a || is_anySample b then anySample
  else if bool_decide (a = VNil) then b
  else
    match b with
    | VNil => a
    | VMap bm =>
        match as_map a with
        | Some am => VMap (merge_entries mergeSampleValue (default ∅ am) bm)
        | None => anySample
        end
    | _ =>
        match as_map a, as_map b with
        | Some am, Some _ => a
        | Some _, None | None, Some _ => anySample
        | None, None =>
            match as_slice a, as_slice b with
            | Some la, Some lb => slice_of_list (la ++ lb)
            | Some _, None | None, Some _ => anySample
            | None, None => merged_scalar (mergeScalarType (Some (scalarType a)) (scalarType b))
            end
        end
    end.

Definition mergeSampleMap (dst src : gmap string value) : gmap string value := merge_entries mergeSampleValue dst src.

(** The loop of [sliceElemType]: [None] when it returns [any] at once. *)
Fixpoint scan_elems (sc : option scalar) (object : option (gmap string value)) (s : list value) :
    option (option scalar * option (gmap string value)) :=
  match s with
  | [] => Some (sc, object)
  | v :: s =>
      if bool_decide (v = VNil) then scan_elems sc object s
      else
        match as_map v with
        | Some m =>
            match sc with
            | Some _ => None
            | None => scan_elems sc (Some (mergeSampleMap (default ∅ object) (default ∅ m))) s
            end
        | None =>
            let typ := scalarType v in
            match typ, object with
            | SAny, _ | _, Some _ => None
            | _, None =>
                let sc := mergeScalarType sc typ in
                if decide (sc = SAny) then None else scan_elems (Some sc) object s
            end
        end
  end.

(** ** The emitter *)

Record nested := { n_name : string; n_val : gmap string value }.
Record field := { f_name : string; f_type : gotype; f_key : string }.
Record struct_decl := { d_name : string; d_fields : list field }.

(** [sliceElemType] *)
Definition sliceElemType (typeHint : string) (s : list value) (used : gmap string nat) (nests : list nested) :
    gotype * gmap string nat * list nested :=
  match scan_elems None None s with
  | None => (TScalar SAny, used, nests)
  | Some (_, Some object) =>
      let '(sub, used) := uniqueName (typeHint +:+ "Item") used in
      (TNamed sub, used, nests ++ [{| n_name := sub; n_val := object |}])
  | Some (Some sc, None) => (TScalar sc, used, nests)
  | Some (None, None) => (TScalar SAny, used, nests)
  end.

(** [fieldType] *)
Definition fieldType (typeHint : string) (v : value) (used : gmap string nat) (nests : list nested) :
    gotype * gmap string nat * list nested :=
  match as_map v with
  | Some m =>
      let '(name, used) := uniqueName typeHint used in
      (TNamed name, used, nests ++ [{| n_name := name; n_val := default ∅ m |}])
  | None =>
      match as_slice v with
      | Some l => let '(t, used, nests) := sliceElemType typeHint l used nests in (TSliceOf t, used, nests)
      | None => (TScalar (scalarType v), used, nests)
      end
  end.

Inductive gen_error := InvalidKey (k : string) | OutOfFuel.

(** The state of the loop of [emitStruct] over the keys. *)
Record emit_state := {
  es_usedFields : gmap string nat;
  es_usedTypes : gmap string nat;
  es_nests : list nested;
  es_fields : list field;
}.

Section emitter.
Context `{Unicode, GoStd}.

Definition emit_field (name : string) (m : gmap string value) (st : emit_state) (k : string) :
    result gen_error emit_state :=
  if negb (validTagKey k) then Err (InvalidKey k)
  else
    let v := default VNil (m !! k) in
    let '(fname, usedFields) := uniqueExportName k (es_usedFields st) in
    let '(ftype, usedTypes, nests) := fieldType (name +:+ fname) v (es_usedTypes st) (es_nests st) in
    Ok {| es_usedFields := usedFields; es_usedTypes := usedTypes; es_nests := nests;
          es_fields := es_fields st ++ [{| f_name := fname; f_type := ftype; f_key := k |}] |}.

Definition emit_keys (m : gmap string value) : list string := sort_strings (map_to_list m).*1.

Definition emit_fields (name : string) (m : gmap string value) (used : gmap string nat) : result gen_error emit_state :=
  foldM (emit_field name m) {| es_usedFields := ∅; es_usedTypes := used; es_nests := []; es_fields := [] |} (emit_keys m).

(** [emitStruct]: the structs in the order they are printed.  The fuel bounds
    the nesting of structs; the depth of the sample is enough. *)
Fixpoint emitStruct (fuel : nat) (name : string) (m : gmap string value) (used : gmap string nat) :
    result gen_error (gmap string nat * list struct_decl) :=
  match fuel with
  | 0 => Err OutOfFuel
  | S fuel =>
      st ← emit_fields name m used;
      foldM (λ acc n, r ← emitStruct fuel (n_name n) (n_val n) acc.1; Ok (r.1, acc.2 ++ r.2))
        (es_usedTypes st, [{| d_name := name; d_fields := es_fields st |}]) (es_nests st)
  end.

(** [emit]; [value_size] bounds the depth. *)
Definition emit (name : string) (m : gmap string value) : result gen_error (list struct_decl) :=
  snd <$> emitStruct (value_size (VMap m)) name m {[ name := 1 ]}.
End emitter.

(** ** The printed source *)

Definition quoted (k : string) : string := String (byte_of 34) k +:+ String (byte_of 34) "".

(** A line of [emitStruct]: a valid key has nothing that [%q] would escape. *)
Definition field_line (f : field) : string :=
  String (byte_of 9) (f_name f) +:+ " " +:+ type_text (f_type f) +:+ " `yaml:" +:+ quoted (f_key f) +:+ " json:" +:+ quoted (f_key f) +:+ "`"
  +:+ bytes [10].

Definition struct_text (d : struct_decl) : string :=
  "type " +:+ d_name d +:+ " struct {" +:+ bytes [10] +:+ concat_runes (map field_line (d_fields d)) +:+ "}" +:+ bytes [10; 10].

(** [renderSource]; [format_source] is [go/format]. *)
Definition renderSource `{Unicode, GoStd} (format_source : string → result string string) (pkg typ : string) (root : gomap) :
    result (gen_error + string) string :=
  decls ← map_err inl (emit typ (default ∅ root));
  map_err inr (format_source ("// Code generated by fastconfgen. DO NOT EDIT." +:+ bytes [10; 10] +:+ "package " +:+ pkg +:+ bytes [10; 10]
                              +:+ concat_runes (map struct_text decls))).

(** ** What a struct type accepts *)

Definition in_int64 (n : Z) : Prop := (-2 ^ 63 ≤ n < 2 ^ 63)%Z.

(** A scalar type other than [any] decodes the value. *)
Definition accepts (s : scalar) (v : value) : Prop :=
  match s, v with
  | SString, VString _ | SBool, VBool _ | SFloat64, VFloat _ _ | SFloat64, VInt _ _ => True
  | SInt64, VInt _ n => in_int64 n
  | _, _ => False
  end.

(** The decoders fill a value of the type with [v]: null leaves the zero value,
    and every key of a map has the field that its tag names. *)
Inductive fits (ds : list struct_decl) : gotype → value → Prop :=
| fits_null t : fits ds t VNil
| fits_any v : fits ds (TScalar SAny) v
| fits_scalar s v : accepts s v → fits ds (TScalar s) v
| fits_slice t v l : as_slice v = Some l → (∀ x, x ∈ l → fits ds t x) → fits ds (TSliceOf t) v
| fits_struct d m :
    d ∈ ds →
    (∀ k x, m !! k = Some x → ∃ f, f ∈ d_fields d ∧ f_key f = k ∧ fits ds (f_type f) x) →
    fits ds (TNamed (d_name d)) (VMap m).

(** The values directly below a value. *)
Definition below (v x : value) : Prop :=
  match v with
  | VMap m => ∃ k, m !! k = Some x
  | VSlice l => x ∈ l
  | _ => False
  end.

(** [P] holds of a value and of every value below it. *)
Inductive everywhere (P : value → Prop) (v : value) : Prop :=
| everywhere_intro : P v → (∀ x, below v x → everywhere P x) → everywhere P v.

(** What a decoder of a document returns: integers that [int64] holds, and no nil map. *)
Definition decoded_node (v : value) : Prop :=
  match v with VInt _ n => in_int64 n | VNilMap => False | _ => True end.

Definition decoded : value → Prop := everywhere decoded_node.

Definition valid_keys_node `{Unicode} (v : value) : Prop :=
  match v with VMap m => ∀ k, is_Some (m !! k) → validTagKey k = true | _ => True end.

Definition valid_keys `{Unicode} : value → Prop := everywhere valid_keys_node.

(** ** Names are new *)

Lemma itoa_ne n : itoa n ≠ "".
Proof.
  unfold itoa, pretty, pretty_N. destruct (decide _) as [|Hn]; [done|]. rewrite pretty_N_go_step by lia.
  generalize (N.of_nat n `div` 10)%N. intros x.
  assert (String (pretty_N_char (N.of_nat n `mod` 10)) "" ≠ "") as Hs by done. revert Hs. generalize (String (pretty_N_char (N.of_nat n `mod` 10)) "").
  induction (N.lt_wf_0 x) as [x _ IH]; intros s Hs.
  destruct (decide (x = 0%N)) as [->|Hx]; [by rewrite pretty_N_go_0|]. rewrite pretty_N_go_step by lia. apply IH; [apply N.div_lt; lia|done].
Qed.

Lemma numbered_inj base n m : 1 ≤ n → 1 ≤ m → numbered base n = numbered base m → n = m.
Proof.
  intros Hn Hm. unfold numbered.
  assert (∀ k, base ≠ base +:+ itoa k) as Hne.
  { intros k E. apply (f_equal String.length) in E. rewrite length_app_str in E.
    destruct (itoa k) eqn:Hp; [by apply itoa_ne in Hp|]. cbn in E. lia. }
  destruct (Nat.ltb_spec 1 n), (Nat.ltb_spec 1 m); intros E; [|by destruct (Hne n)|by destruct (Hne m)|lia].
  apply (inj (String.append base)) in E. unfold itoa in E. apply (inj pretty) in E. lia.
Qed.

Lemma unique_search_spec fuel base n0 used n : unique_search fuel base n0 used = Some n →
  n0 ≤ n ∧ used !! numbered base n = None ∧ ∀ i, n0 ≤ i < n → is_Some (used !! numbered base i).
Proof.
  revert n0. induction fuel as [|fuel IH]; intros n0; [done|]. cbn [unique_search].
  destruct (used !! numbered base n0) as [u|] eqn:Hu.
  - intros (Hle & Hn & Hall)%IH. split; [lia|]. split; [done|]. intros i Hi.
    destruct (decide (i = n0)) as [->|]; [by eexists|apply Hall; lia].
  - intros [= ->]. split; [lia|]. split; [done|]. lia.
Qed.

Lemma unique_search_none fuel base n0 used : unique_search fuel base n0 used = None →
  ∀ i, n0 ≤ i < n0 + fuel → is_Some (used !! numbered base i).
Proof.
  revert n0. induction fuel as [|fuel IH]; intros n0; cbn [unique_search]; [lia|].
  destruct (used !! numbered base n0) as [u|] eqn:Hu; [|done]. intros Hs i Hi.
  destruct (decide (i = n0)) as [->|]; [by eexists|apply (IH (S n0) Hs); lia].
Qed.

(** As many counters as there are names, and one more, cannot all be taken. *)
Lemma unique_search_total base n0 used : 1 ≤ n0 → is_Some (unique_search (S (size used)) base n0 used).
Proof.
  intros Hn0. destruct (unique_search _ base n0 used) as [n|] eqn:Hs; [by eexists|]. exfalso.
  pose proof (unique_search_none _ _ _ _ Hs) as Hall.
  assert (length (numbered base <$> seq n0 (S (size used))) ≤ size (dom used)) as Hlen.
  { rewrite <-(size_list_to_set (C := gset string)).
    - apply subseteq_size. intros x (i & -> & Hi%elem_of_seq)%elem_of_list_to_set%list_elem_of_fmap. apply elem_of_dom, Hall. lia.
    - apply NoDup_fmap_2_strong; [|apply NoDup_seq]. intros i j Hi%elem_of_seq Hj%elem_of_seq. apply numbered_inj; lia. }
  rewrite length_fmap, length_seq, size_dom in Hlen. lia.
Qed.

(** The counter of a name says how many of its numbered forms are taken. *)
Definition names_ok (used : gmap string nat) : Prop :=
  ∀ b n, used !! b = Some n → 1 ≤ n ∧ ∀ i, 1 ≤ i ≤ n → is_Some (used !! numbered b i).

Lemma uniqueName_spec base used : names_ok used →
  ∃ n, 1 ≤ n ∧ (uniqueName base used).1 = numbered base n
  ∧ used !! (uniqueName base used).1 = None
  ∧ (∀ i, 1 ≤ i < n → is_Some (used !! numbered base i))
  ∧ names_ok (uniqueName base used).2
  ∧ dom (uniqueName base used).2 = {[(uniqueName base used).1]} ∪ dom used.
Proof.
  intros Hok. unfold uniqueName.
  destruct (unique_search_total base (default 0 (used !! base) + 1) used) as [n Hs]; [lia|]. rewrite Hs. change (default 1 (Some n)) with n. cbn [fst snd].
  destruct (unique_search_spec _ _ _ _ _ Hs) as (Hle & Hnew & Hall). exists n.
  assert (∀ i, 1 ≤ i < n → is_Some (used !! numbered base i)) as Hbelow.
  { intros i Hi. destruct (decide (default 0 (used !! base) + 1 ≤ i)); [apply Hall; lia|].
    destruct (used !! base) as [c|] eqn:Hc; cbn in *; [|lia]. apply (Hok _ _ Hc). lia. }
  split; [lia|]. split; [done|]. split; [done|]. split; [done|].
  set (u := <[base := n]> used).
  assert (∀ x, is_Some (used !! x) ∨ x = numbered base n → is_Some (<[numbered base n := Nat.max (default 0 (u !! numbered base n)) 1]> u !! x)) as Hin.
  { intros x Hx. rewrite lookup_insert_is_Some'. unfold u. rewrite lookup_insert_is_Some'. destruct Hx as [Hx| ->]; auto. }
  assert (numbered base 1 = base) as H1 by done. split.
  - intros b c Hb. destruct (decide (numbered base n = b)) as [<-|Hne].
    + rewrite lookup_insert_eq in Hb. injection Hb as Hb. split; [lia|]. intros i Hi. apply Hin.
      destruct (decide (numbered base n = base)) as [E|E].
      * assert (n = 1) as -> by (apply (numbered_inj base); [lia|lia|]; by rewrite E).
        unfold u in Hb. rewrite E, lookup_insert_eq in Hb. cbn in Hb. assert (i = 1) as -> by lia. by right.
      * unfold u in Hb. rewrite lookup_insert_ne, Hnew in Hb by done. cbn in Hb. assert (i = 1) as -> by lia. by right.
    + rewrite lookup_insert_ne in Hb by done. destruct (decide (base = b)) as [<-|Hne'].
      * unfold u in Hb. rewrite lookup_insert_eq in Hb. injection Hb as <-. split; [lia|]. intros i Hi. apply Hin.
        destruct (decide (i = n)) as [->|]; [by right|left; apply Hbelow; lia].
      * unfold u in Hb. rewrite lookup_insert_ne in Hb by done. destruct (Hok _ _ Hb) as [Hc Hi]. split; [done|].
        intros i Hi'. apply Hin. left. by apply Hi.
  - rewrite dom_insert_L. unfold u. rewrite dom_insert_L. destruct (decide (n = 1)) as [->|Hn1].
    + rewrite H1. set_solver.
    + assert (base ∈ dom used) by (rewrite <-H1; apply elem_of_dom, Hbelow; lia). set_solver.
Qed.

(** ** Merging samples *)

Lemma lookup_merge_entries merge dst src k :
  merge_entries merge dst src !! k =
    match src !! k, dst !! k with
    | Some v, Some old => Some (merge old v)
    | Some v, None => Some v
    | None, o => o
    end.
Proof.
  unfold merge_entries. rewrite lookup_union, lookup_map_rebuild.
  destruct (src !! k) as [v|]; cbn; [|by destruct (dst !! k)]. destruct (dst !! k); [by destruct v|done].
Qed.

Lemma dom_merge_entries merge dst src : dom (merge_entries merge dst src) = dom dst ∪ dom src.
Proof.
  apply set_eq. intros k. rewrite elem_of_union, !elem_of_dom, lookup_merge_entries. unfold is_Some.
  destruct (src !! k), (dst !! k); naive_solver.
Qed.

(** The values without entries or elements. *)
Definition leaf (v : value) : Prop := as_map v = None ∧ as_slice v = None.

Inductive merge_result (a b : value) : value → Prop :=
| merge_any : merge_result a b anySample
| merge_left : a = VNil → merge_result a b b
| merge_right : b = VNil → merge_result a b a
| merge_nil_map am : as_map a = Some am → b = VNilMap → merge_result a b a
| merge_maps am bm : as_map a = Some am → b = VMap bm → merge_result a b (VMap (mergeSampleMap (default ∅ am) bm))
| merge_slices la lb : as_slice a = Some la → as_slice b = Some lb → merge_result a b (slice_of_list (la ++ lb))
| merge_leaves : leaf a → leaf b → a ≠ VNil → b ≠ VNil →
    merge_result a b (merged_scalar (mergeScalarType (Some (scalarType a)) (scalarType b))).

Lemma mergeSampleValue_cases a b : merge_result a b (mergeSampleValue a b).
Proof.
  destruct b as [| | | | | |bm| | | |]; cbn [mergeSampleValue];
    (destruct (is_anySample a || is_anySample _); [by constructor|]);
    (case_bool_decide as Ha; [by apply merge_left|]); [by apply merge_right|..];
    destruct (as_map a) as [am|] eqn:Hm; try by constructor.
  all: try (by eapply merge_maps); try (by eapply merge_nil_map).
  all: destruct (as_slice a) as [la|] eqn:Hs; first [by constructor|by eapply merge_slices|by apply merge_leaves].
Qed.

(** Properties of one node that merging preserves. *)
Record merge_closed (P : value → Prop) : Prop := {
  mc_any : P anySample;
  mc_scalar t : P (merged_scalar t);
  mc_slice l : P (slice_of_list l);
  mc_map va a b c : as_map va = Some a → P va → P (VMap b) → dom c = dom (default ∅ a) ∪ dom b → P (VMap c);
}.

Lemma everywhere_node P v : everywhere P v → P v.
Proof. by intros [H _]. Qed.

Lemma everywhere_below P v x : everywhere P v → below v x → everywhere P x.
Proof. intros [_ H]. apply H. Qed.

Lemma everywhere_leaf (P : value → Prop) v : leaf v → P v → everywhere P v.
Proof. intros [Hm Hs] HP. split; [done|]. by destruct v. Qed.

Lemma below_size v x : below v x → value_size x < value_size v.
Proof. destruct v; try done; cbn [below]; [intros [k Hk]; by eapply value_size_map|apply value_size_slice]. Qed.

Lemma slice_below v l x : as_slice v = Some l → x ∈ l → below v x.
Proof. destruct v; try done; intros [= <-]; [done|by intros ?%not_elem_of_nil]. Qed.

Lemma below_slice l x : below (slice_of_list l) x → x ∈ l.
Proof. by destruct l. Qed.

Lemma map_below v m k x : as_map v = Some m → default ∅ m !! k = Some x → below v x.
Proof. destruct v; try done; intros [= <-]; cbn; [by exists k|by rewrite lookup_empty]. Qed.

Lemma merge_everywhere P a b : merge_closed P → everywhere P a → everywhere P b → everywhere P (mergeSampleValue a b).
Proof.
  intros HP. revert a. induction b as [b IH] using value_lt_ind. intros a Ha Hb.
  destruct (mergeSampleValue_cases a b) as [|_|_|am _ _|am bm Hm ->|la lb Hla Hlb|]; [|exact Hb|exact Ha|exact Ha|..].
  - apply everywhere_leaf; [done|by apply mc_any].
  - split.
    + eapply mc_map; [done|done|by apply everywhere_node|by apply everywhere_node|]. apply dom_merge_entries.
    + intros x [k Hk]. unfold mergeSampleMap in Hk. rewrite lookup_merge_entries in Hk.
      destruct (bm !! k) as [v|] eqn:Hv.
      * assert (everywhere P v) as Hv' by (eapply everywhere_below; [exact Hb|by exists k]).
        destruct (default ∅ am !! k) as [old|] eqn:Hold; injection Hk as <-; [|done].
        apply IH; [by eapply value_size_map| |done]. eapply everywhere_below; [exact Ha|by eapply map_below].
      * eapply everywhere_below; [exact Ha|by eapply map_below].
  - split; [by apply mc_slice|]. intros x [Hx|Hx]%below_slice%elem_of_app; [apply (everywhere_below _ a)|apply (everywhere_below _ b)]; try done; by eapply slice_below.
  - apply everywhere_leaf; [by destruct (mergeScalarType _ _)|by apply mc_scalar].
Qed.

Lemma merge_map_everywhere P a b : merge_closed P → everywhere P (VMap a) → everywhere P (VMap b) → everywhere P (VMap (mergeSampleMap a b)).
Proof. intros HP Ha Hb. exact (merge_everywhere P (VMap a) (VMap b) HP Ha Hb). Qed.

(** A sample [w] covers [v]: the type of [w] accepts [v]. *)
Inductive covers : value → value → Prop :=
| covers_null w : covers w VNil
| covers_any w v : leaf w → w ≠ VNil → scalarType w = SAny → covers w v
| covers_leaf w v : leaf w → accepts (scalarType w) v → covers w v
| covers_map mw mv :
    (∀ k x, mv !! k = Some x → ∃ y, mw !! k = Some y ∧ covers y x) → covers (VMap mw) (VMap mv)
| covers_slice w v lw lv : as_slice w = Some lw → as_slice v = Some lv → (∀ x, x ∈ lv → x ∈ lw) → covers w v.

Lemma decoded_closed : merge_closed decoded_node.
Proof. split; [done| |by intros []|done]. intros []; cbn; unfold in_int64; lia. Qed.

Lemma covers_refl v : decoded v → covers v v.
Proof.
  induction v as [v IH] using value_lt_ind. intros [Hn Hv].
  destruct v as [| | |k n|k f| |m| |l| |]; try (by apply covers_any); try (by apply covers_leaf); try (by eapply covers_slice).
  - apply covers_null.
  - apply covers_map. intros k x Hk. exists x. split; [done|]. apply IH; [by eapply value_size_map|]. apply Hv. by exists k.
Qed.

Lemma accepts_trans u w v : leaf w → w ≠ VNil → accepts (scalarType u) w → covers w v → v = VNil ∨ accepts (scalarType u) v.
Proof.
  intros Hw Hne Hu Hc. inversion Hc as [|? ? _ _ Ht|? ? _ Ha| |? ? ? ? Hl]; subst.
  - by left.
  - destruct w, (scalarType u); done.
  - right. by destruct w, (scalarType u), v.
  - by destruct Hw.
  - destruct Hw. congruence.
Qed.

Lemma covers_trans u w v : covers u w → covers w v → covers u v.
Proof.
  revert u w. induction v as [v IH] using value_lt_ind. intros u w Hu Hw.
  inversion Hu as [|? ? Hl Hne Ht|? ? Hl Ha|mu mw Hm|? ? lu lw Hlu Hlw Hin]; subst.
  - inversion Hw as [|? ? _ Hne _|? ? _ Ha| |? ? ? ? Hl]; subst; try done; constructor.
  - by apply covers_any.
  - destruct (decide (w = VNil)) as [->|Hne]; [by destruct (scalarType u)|].
    assert (leaf w) as Hlw by (by destruct w, (scalarType u)).
    destruct (accepts_trans u w v Hlw Hne Ha Hw) as [->|]; [constructor|by apply covers_leaf].
  - inversion Hw as [|? ? Hl|? ? Hl|? mv Hm'|]; subst; try by destruct Hl. + constructor.
    + apply covers_map. intros k x Hk. destruct (Hm' k x Hk) as (y & Hy & Hyx). destruct (Hm k y Hy) as (z & Hz & Hzy).
      exists z. split; [done|]. eapply IH; [by eapply value_size_map|exact Hzy|exact Hyx].
    + done.
  - inversion Hw as [|? ? Hl|? ? Hl|? mv Hm'|? ? lw' lv Hlw' Hlv Hin']; subst; [constructor|..].
    1-2: destruct Hl; congruence.
    + done.
    + rewrite Hlw in Hlw'. injection Hlw' as <-. eapply covers_slice; [done..|]. auto.
Qed.

Lemma mergeScalarType_accepts a b :
  leaf a → leaf b → a ≠ VNil → b ≠ VNil → decoded_node a → decoded_node b →
  let t := mergeScalarType (Some (scalarType a)) (scalarType b) in t = SAny ∨ accepts t a ∧ accepts t b.
Proof.
  intros Ha Hb Hna Hnb Hda Hdb. cbn zeta. unfold mergeScalarType.
  destruct (decide _) as [He|He].
  - destruct (decide (scalarType a = SAny)) as [?|Hne]; [by left|right]. destruct a, b; done.
  - destruct a, b; cbn in *; try (by left); try done; by right.
Qed.

Lemma merge_covers a b : decoded a → decoded b → covers (mergeSampleValue a b) a ∧ covers (mergeSampleValue a b) b.
Proof.
  revert a. induction b as [b IH] using value_lt_ind. intros a Ha Hb.
  destruct (mergeSampleValue_cases a b) as [| ->| ->|am Hm ->|am bm Hm ->|la lb Hla Hlb|Hla Hlb Hna Hnb].
  - by split; apply covers_any.
  - split; [constructor|by apply covers_refl].
  - split; [by apply covers_refl|constructor].
  - by destruct (everywhere_node _ _ Hb).
  - assert (a = VMap (default ∅ am)) as Ea.
    { destruct a; try done; injection Hm as <-; [done|]. by destruct (everywhere_node _ _ Ha). }
    rewrite Ea. split; apply covers_map; intros k x Hk; unfold mergeSampleMap; rewrite lookup_merge_entries.
    + assert (decoded x) as Hx by (eapply everywhere_below; [exact Ha|]; rewrite Ea; by exists k). rewrite Hk.
      destruct (bm !! k) as [v|] eqn:Hv; [|exists x; split; [done|by apply covers_refl]].
      exists (mergeSampleValue x v). split; [done|]. apply IH; [by eapply value_size_map|done|]. eapply everywhere_below; [exact Hb|by exists k].
    + assert (decoded x) as Hx by (eapply everywhere_below; [exact Hb|by exists k]). rewrite Hk.
      destruct (default ∅ am !! k) as [v|] eqn:Hv; [|exists x; split; [done|by apply covers_refl]].
      exists (mergeSampleValue v x). split; [done|]. apply IH; [by eapply value_size_map| |done].
      eapply everywhere_below; [exact Ha|]. rewrite Ea. by exists k.
  - assert (as_slice (slice_of_list (la ++ lb)) = Some (la ++ lb)) as Hs by (by destruct (la ++ lb)).
    split; (eapply covers_slice; [done..|]); intros x Hx; apply elem_of_app; auto.
  - destruct (mergeScalarType_accepts a b Hla Hlb Hna Hnb (everywhere_node _ _ Ha) (everywhere_node _ _ Hb)) as [->|[H1 H2]].
    + by split; apply covers_any.
    + assert (scalarType (merged_scalar (mergeScalarType (Some (scalarType a)) (scalarType b))) = mergeScalarType (Some (scalarType a)) (scalarType b)) as Ht
        by (by destruct (mergeScalarType _ _)).
      split; (apply covers_leaf; [by destruct (mergeScalarType _ _)|by rewrite Ht]).
Qed.

(** ** Elements of a slice *)

Definition elem_ok (sc : option scalar) (object : option (gmap string value)) (x : value) : Prop :=
  x = VNil ∨ (∃ o, object = Some o ∧ covers (VMap o) x) ∨ (∃ t, sc = Some t ∧ accepts t x).

Definition object_in (P : value → Prop) (object : option (gmap string value)) : Prop :=
  match object with Some o => P (VMap o) | None => True end.

(** What a scan has seen stays accepted as it goes on. *)
Definition scan_grows (sc : option scalar) object (sc' : option scalar) object' : Prop :=
  ∀ x, elem_ok sc object x → elem_ok sc' object' x.

Lemma mergeScalarType_grows sc t : t ≠ SAny → mergeScalarType sc t ≠ SAny →
  (∀ v, accepts t v → accepts (mergeScalarType sc t) v) ∧ ∀ s, sc = Some s → ∀ v, accepts s v → accepts (mergeScalarType sc t) v.
Proof.
  intros Ht Hm. destruct sc as [s|]; cbn in *; [|done]. destruct (decide (s = t)) as [->|]; [split; [done|by intros ? [= ->]]|].
  split; [intros v|intros ? [= <-] v]; by destruct s, t, v.
Qed.

Lemma scan_map sc object m s :
  scan_elems sc object (VMap m :: s) =
    match sc with Some _ => None | None => scan_elems sc (Some (mergeSampleMap (default ∅ object) m)) s end.
Proof. done. Qed.

Lemma scan_leaf sc object v s : leaf v → v ≠ VNil → scalarType v ≠ SAny → ∀ r,
  scan_elems sc object (v :: s) = Some r →
  object = None ∧ mergeScalarType sc (scalarType v) ≠ SAny ∧ scan_elems (Some (mergeScalarType sc (scalarType v))) None s = Some r.
Proof.
  intros [Hm _] Hne Ht r. cbn [scan_elems]. rewrite bool_decide_eq_false_2, Hm by done. intros Hr.
  destruct (scalarType v) eqn:Hv; [..|done]; (destruct object; [done|]); cbn zeta in Hr; (destruct (decide _); [done|]); done.
Qed.

Lemma scan_other sc object v s : v ≠ VNil → as_map v = None → scalarType v = SAny → scan_elems sc object (v :: s) = None.
Proof. intros Hne Hm Ht. cbn [scan_elems]. by rewrite bool_decide_eq_false_2, Hm, Ht by done. Qed.

Lemma merge_map_covers a b : decoded (VMap a) → decoded (VMap b) →
  covers (VMap (mergeSampleMap a b)) (VMap a) ∧ covers (VMap (mergeSampleMap a b)) (VMap b).
Proof. intros Ha Hb. exact (merge_covers (VMap a) (VMap b) Ha Hb). Qed.

Lemma everywhere_empty P : P (VMap ∅) → everywhere P (VMap ∅).
Proof. intros HP. split; [done|]. intros x [k Hk]. by rewrite lookup_empty in Hk. Qed.

Lemma object_default P object : P (VMap ∅) → object_in (everywhere P) object → everywhere P (VMap (default ∅ object)).
Proof. destruct object; [done|]. intros HP _. by apply everywhere_empty. Qed.

(** One element: the scan goes on with a state that accepts it and all before. *)
Lemma scan_step sc object v s r : decoded v → object_in decoded object → scan_elems sc object (v :: s) = Some r →
  ∃ sc' object', scan_elems sc' object' s = Some r ∧ object_in decoded object' ∧ scan_grows sc object sc' object' ∧ elem_ok sc' object' v.
Proof.
  intros Hv Ho Hr. destruct (decide (v = VNil)) as [->|Hne].
  { exists sc, object. split; [exact Hr|]. split; [done|]. split; [by intros x|]. by left. }
  destruct (as_map v) as [m|] eqn:Hm.
  - assert (∃ m, v = VMap m) as [m' ->] by (destruct v; try done; [by eexists|by destruct (everywhere_node _ _ Hv)]).
    rewrite scan_map in Hr. destruct sc; [done|].
    assert (decoded (VMap (default ∅ object))) as Hd by (by apply object_default).
    destruct (merge_map_covers _ _ Hd Hv) as [H1 H2].
    eexists None, (Some _). split; [exact Hr|]. split; [by apply merge_map_everywhere; [apply decoded_closed|..]|]. split.
    + intros x [->|[(o & -> & Hx)|(? & [=] & _)]]; [by left|]. right; left. eexists. split; [done|]. by eapply covers_trans.
    + right; left. by eexists.
  - destruct (decide (scalarType v = SAny)) as [Ht|Ht]; [by rewrite scan_other in Hr|].
    assert (leaf v) as Hl by (by destruct v).
    destruct (scan_leaf _ _ _ _ Hl Hne Ht _ Hr) as (-> & Hs & Hr').
    destruct (mergeScalarType_grows sc (scalarType v) Ht Hs) as [H1 H2].
    eexists _, None. split; [exact Hr'|]. split; [done|].
    assert (accepts (scalarType v) v) as Ha by (pose proof (everywhere_node _ _ Hv); by destruct v). split.
    + intros x [->|[(? & [=] & _)|(t & -> & Hx)]]; [by left|]. right; right. eexists. split; [done|]. by eapply H2.
    + right; right. eexists. split; [done|]. by apply H1.
Qed.

Lemma scan_elems_spec s sc object sc' object' : (∀ x, x ∈ s → decoded x) → object_in decoded object →
  scan_elems sc object s = Some (sc', object') →
  scan_grows sc object sc' object' ∧ ∀ x, x ∈ s → elem_ok sc' object' x.
Proof.
  revert sc object. induction s as [|v s IH]; intros sc object Hs Ho Hr.
  - injection Hr as -> ->. split; [by intros x|]. by intros x ?%not_elem_of_nil.
  - assert (decoded v) as Hv by (apply Hs; left).
    destruct (scan_step _ _ _ _ _ Hv Ho Hr) as (sc1 & o1 & Hr1 & Ho1 & Hg & He).
    destruct (IH _ _ (λ x Hx, Hs x (proj2 (elem_of_cons _ _ _) (or_intror Hx))) Ho1 Hr1) as [Hg' Hall]. split.
    + intros x Hx. by apply Hg', Hg.
    + intros x [->|Hx]%elem_of_cons; [by apply Hg'|by apply Hall].
Qed.

Lemma scan_exclusive s sc object r : sc = None ∨ object = None → scan_elems sc object s = Some r → r.1 = None ∨ r.2 = None.
Proof.
  revert sc object. induction s as [|v s IH]; intros sc object Ho Hr; [by injection Hr as <-|].
  destruct (decide (v = VNil)) as [->|Hne]; [exact (IH sc object Ho Hr)|].
  destruct (as_map v) as [m|] eqn:Hm.
  - cbn [scan_elems] in Hr. rewrite bool_decide_eq_false_2, Hm in Hr by done. destruct sc; [done|].
    refine (IH _ _ _ Hr). by left.
  - destruct (decide (scalarType v = SAny)) as [Ht|Ht]; [by rewrite scan_other in Hr|].
    assert (leaf v) as Hl by (by destruct v). destruct (scan_leaf _ _ _ _ Hl Hne Ht _ Hr) as (-> & _ & Hr'). refine (IH _ _ _ Hr'). by right.
Qed.

(** A property that merging preserves holds of the object of the scan. *)
Lemma scan_object (Q : value → Prop) s sc object sc' o' :
  Q (VMap ∅) → (∀ a b, Q (VMap a) → Q (VMap b) → Q (VMap (mergeSampleMap a b))) →
  (∀ x, x ∈ s → Q x) → object_in Q object →
  scan_elems sc object s = Some (sc', Some o') → Q (VMap o').
Proof.
  intros H0 Hmerge. revert sc object. induction s as [|v s IH]; intros sc object Hs Ho Hr; [injection Hr as _ ->; exact Ho|].
  assert (Q v) as Hv by (apply Hs; left). assert (∀ x, x ∈ s → Q x) as Hs' by (intros x Hx; apply Hs; by right).
  destruct (decide (v = VNil)) as [->|Hne]; [exact (IH sc object Hs' Ho Hr)|].
  destruct (as_map v) as [m|] eqn:Hm.
  - cbn [scan_elems] in Hr. rewrite bool_decide_eq_false_2, Hm in Hr by done. destruct sc; [done|].
    refine (IH _ _ Hs' _ Hr). apply Hmerge; [by destruct object|].
    destruct v; try discriminate Hm; injection Hm as <-; [exact Hv|exact H0].
  - destruct (decide (scalarType v = SAny)) as [Ht|Ht]; [by rewrite scan_other in Hr|].
    assert (leaf v) as Hl by (by destruct v). destruct (scan_leaf _ _ _ _ Hl Hne Ht _ Hr) as (-> & _ & Hr'). exact (IH _ _ Hs' Ho Hr').
Qed.

(** ** Types of fields *)

(** The sample of a nested struct comes from the field's value. *)
Definition nest_from (v : value) (o : gmap string value) : Prop :=
  (∃ m, as_map v = Some m ∧ o = default ∅ m) ∨
  (∃ l sc, as_slice v = Some l ∧ scan_elems None None l = Some (sc, Some o)).

(** The type of a field, against the value of the sample. *)
Definition typed_by (new : list nested) (t : gotype) (v : value) : Prop :=
  (∃ m n, as_map v = Some m ∧ n ∈ new ∧ n_val n = default ∅ m ∧ t = TNamed (n_name n)) ∨
  (∃ l t', as_slice v = Some l ∧ t = TSliceOf t' ∧
     (t' = TScalar SAny
      ∨ (∃ sc, scan_elems None None l = Some (Some sc, None) ∧ t' = TScalar sc)
      ∨ (∃ sc n, scan_elems None None l = Some (sc, Some (n_val n)) ∧ n ∈ new ∧ t' = TNamed (n_name n)))) ∨
  (leaf v ∧ t = TScalar (scalarType v)).

(** Names are taken: they are new, distinct, and recorded. *)
Definition takes (used used' : gmap string nat) (names : list string) : Prop :=
  names_ok used' ∧ NoDup names ∧ (∀ x, x ∈ names → used !! x = None) ∧
  ∀ x, is_Some (used' !! x) ↔ is_Some (used !! x) ∨ x ∈ names.

Lemma takes_nil used : names_ok used → takes used used [].
Proof. intros H. split; [done|]. split; [constructor|]. split; [by intros ? ?%not_elem_of_nil|]. intros x. rewrite elem_of_nil. tauto. Qed.

Lemma takes_app used1 used2 used3 l1 l2 : takes used1 used2 l1 → takes used2 used3 l2 → takes used1 used3 (l1 ++ l2).
Proof.
  intros (H1 & N1 & F1 & D1) (H2 & N2 & F2 & D2). split; [done|]. split; [|split].
  - apply NoDup_app. split; [done|]. split; [|done]. intros x Hx Hx'. pose proof (F2 x Hx') as Hn.
    assert (is_Some (used2 !! x)) as [? E] by (apply D1; by right). congruence.
  - intros x [Hx|Hx]%elem_of_app; [by apply F1|]. pose proof (F2 x Hx) as Hn.
    destruct (used1 !! x) eqn:E; [|done]. assert (is_Some (used2 !! x)) as [? E'] by (apply D1; left; by eexists). congruence.
  - intros x. rewrite D2, D1, elem_of_app. tauto.
Qed.

Lemma uniqueName_takes base used : names_ok used → takes used (uniqueName base used).2 [(uniqueName base used).1].
Proof.
  intros Hok. destruct (uniqueName_spec base used Hok) as (n & _ & _ & Hnew & _ & Hok' & Hdom).
  split; [done|]. split; [apply NoDup_singleton|]. split; [by intros x ->%list_elem_of_singleton|].
  intros x. rewrite <-!elem_of_dom, Hdom, list_elem_of_singleton. set_solver.
Qed.

Lemma fieldType_spec hint v used nests : names_ok used →
  let '(t, used', nests') := fieldType hint v used nests in
  ∃ new, nests' = nests ++ new ∧ takes used used' (n_name <$> new) ∧ typed_by new t v ∧ ∀ n, n ∈ new → nest_from v (n_val n).
Proof.
  intros Hok. unfold fieldType. destruct (as_map v) as [m|] eqn:Hm.
  - pose proof (uniqueName_takes hint used Hok) as Ht. destruct (uniqueName hint used) as [name used'].
    exists [{| n_name := name; n_val := default ∅ m |}]. split; [done|]. split; [done|]. split.
    + left. exists m. eexists. split; [done|]. split; [by left|done].
    + intros n ->%list_elem_of_singleton. left. by exists m.
  - destruct (as_slice v) as [l|] eqn:Hs.
    2:{ exists []. rewrite app_nil_r. split; [done|]. split; [by apply takes_nil|]. split; [by right; right|]. by intros ? ?%not_elem_of_nil. }
    unfold sliceElemType. destruct (scan_elems None None l) as [[sc [object|]]|] eqn:Hl.
    + pose proof (uniqueName_takes (hint +:+ "Item") used Hok) as Ht. destruct (uniqueName (hint +:+ "Item") used) as [name used'].
      replace (match sc with Some _ | _ => (TNamed name, used', nests ++ [{| n_name := name; n_val := object |}]) end)
        with (TNamed name, used', nests ++ [{| n_name := name; n_val := object |}]) by (by destruct sc).
      exists [{| n_name := name; n_val := object |}]. split; [done|]. split; [done|]. split.
      * right; left. exists l. eexists. split; [done|]. split; [done|]. right; right.
        exists sc, {| n_name := name; n_val := object |}. split; [done|]. split; [by left|done].
      * intros n ->%list_elem_of_singleton. right. by exists l, sc.
    + assert (takes used used []) by (by apply takes_nil).
      destruct sc as [sc|]; exists []; rewrite app_nil_r; (split; [done|]; split; [done|]; split; [|by intros ? ?%not_elem_of_nil]); right; left; exists l; eexists; (split; [done|]); (split; [done|]).
      * right; left. by exists sc.
      * by left.
    + exists []. rewrite app_nil_r. split; [done|]. split; [by apply takes_nil|]. split; [|by intros ? ?%not_elem_of_nil].
      right; left. exists l. eexists. split; [done|]. split; [done|]. by left.
Qed.

Lemma typed_by_mono new new' t v : (∀ n, n ∈ new → n ∈ new') → typed_by new t v → typed_by new' t v.
Proof.
  intros Hin [(m & n & H1 & H2 & H3 & H4)|[(l & t' & H1 & H2 & [H3|[H3|(sc & n & H3 & H4 & H5)]])|H]].
  - left. exists m, n. auto.
  - right; left. exists l, t'. auto.
  - right; left. exists l, t'. auto.
  - right; left. exists l, t'. split; [done|]. split; [done|]. right; right. exists sc, n. auto.
  - by right; right.
Qed.

Section emission.
Context `{Unicode, GoStd}.

(** The loop over the keys, so far: the fields of the keys seen, with new names. *)
Record fields_ok (m : gmap string value) (used0 : gmap string nat) (seen : list string) (st : emit_state) : Prop := {
  fo_keys : f_key <$> es_fields st = seen;
  fo_valid : ∀ k, k ∈ seen → validTagKey k = true;
  fo_names : takes ∅ (es_usedFields st) (f_name <$> es_fields st);
  fo_types : takes used0 (es_usedTypes st) (n_name <$> es_nests st);
  fo_typed : ∀ f, f ∈ es_fields st → typed_by (es_nests st) (f_type f) (default VNil (m !! f_key f));
  fo_from : ∀ n, n ∈ es_nests st → ∃ k, k ∈ seen ∧ nest_from (default VNil (m !! k)) (n_val n);
}.

Lemma emit_field_ok name m used0 seen st st' k : fields_ok m used0 seen st → emit_field name m st k = Ok st' →
  fields_ok m used0 (seen ++ [k]) st'.
Proof.
  intros Hok. unfold emit_field. destruct (validTagKey k) eqn:Hk; cbn [negb]; [|done].
  pose proof (uniqueName_takes (exportName k) (es_usedFields st) (proj1 (fo_names _ _ _ _ Hok))) as Hn. unfold uniqueExportName.
  destruct (uniqueName (exportName k) (es_usedFields st)) as [fname usedFields]. cbn [fst snd] in Hn.
  pose proof (fieldType_spec (name +:+ fname) (default VNil (m !! k)) (es_usedTypes st) (es_nests st) (proj1 (fo_types _ _ _ _ Hok))) as Ht.
  destruct (fieldType _ _ _ _) as [[ftype usedTypes] nests]. destruct Ht as (new & -> & Htakes & Htyped & Hfrom).
  intros [= <-]. split; cbn.
  - rewrite fmap_app. by rewrite (fo_keys _ _ _ _ Hok).
  - intros k' [Hk'| ->%list_elem_of_singleton]%elem_of_app; [by apply (fo_valid _ _ _ _ Hok)|done].
  - rewrite fmap_app. eapply takes_app; [apply Hok|exact Hn].
  - rewrite fmap_app. eapply takes_app; [apply Hok|exact Htakes].
  - intros f [Hf| ->%list_elem_of_singleton]%elem_of_app.
    + eapply typed_by_mono; [|by apply (fo_typed _ _ _ _ Hok)]. intros n Hin. apply elem_of_app. by left.
    + eapply typed_by_mono; [|exact Htyped]. intros n Hin. apply elem_of_app. by right.
  - intros n [Hin|Hin]%elem_of_app.
    + destruct (fo_from _ _ _ _ Hok n Hin) as (k' & Hk' & Hf). exists k'. split; [apply elem_of_app; by left|done].
    + exists k. split; [apply elem_of_app; right; by left|by apply Hfrom].
Qed.

Lemma emit_fields_ok name m used st : names_ok used → emit_fields name m used = Ok st → fields_ok m used (emit_keys m) st.
Proof.
  intros Hused. unfold emit_fields.
  assert (∀ l seen st0, fields_ok m used seen st0 → foldM (emit_field name m) st0 l = Ok st → fields_ok m used (seen ++ l) st) as Hl.
  { induction l as [|k l IH]; intros seen st0 Hok; cbn [foldM]; [intros [= <-]; by rewrite app_nil_r|].
    intros (st1 & H1 & Hr)%bind_Ok.
    replace (seen ++ k :: l) with ((seen ++ [k]) ++ l) by (by rewrite <-app_assoc). eapply IH; [|exact Hr]. by eapply emit_field_ok. }
  intros Hr. apply (Hl _ [] _) in Hr; [exact Hr|]. split; cbn; try done.
  - by intros k ?%not_elem_of_nil.
  - apply takes_nil. intros b n Hb. by rewrite lookup_empty in Hb.
  - by apply takes_nil.
  - by intros f ?%not_elem_of_nil.
  - by intros n ?%not_elem_of_nil.
Qed.

Lemma elem_of_emit_keys m k : k ∈ emit_keys m ↔ is_Some (m !! k).
Proof.
  unfold emit_keys, sort_strings. rewrite sort_stable_perm, list_elem_of_fmap. split.
  - intros ([k' v] & -> & Hkv%elem_of_map_to_list). by exists v.
  - intros [v Hv]. exists (k, v). split; [done|]. by apply elem_of_map_to_list.
Qed.
End emission.

(** ** Samples of nested structs *)

Lemma nest_everywhere P v o : merge_closed P → P (VMap ∅) → everywhere P v → nest_from v o → everywhere P (VMap o).
Proof.
  intros HP H0 Hv [(m & Hm & ->)|(l & sc & Hl & Hscan)].
  - destruct v; try discriminate Hm; injection Hm as <-; [exact Hv|by apply everywhere_empty].
  - eapply scan_object, Hscan; [by apply everywhere_empty|intros; by apply merge_map_everywhere| |done].
    intros x Hx. eapply everywhere_below; [exact Hv|by eapply slice_below].
Qed.

(** The nesting below a value is at most [n]. *)
Fixpoint depth_le (n : nat) (v : value) : Prop :=
  ∀ x, below v x → match n with 0 => False | S n => depth_le n x end.

Lemma depth_below n v x : depth_le n v → below v x → ∃ n', n = S n' ∧ depth_le n' x.
Proof. destruct n as [|n]; cbn; intros Hv Hx; [by destruct (Hv x)|]. exists n. split; [done|by apply Hv]. Qed.

Lemma depth_intro n v : (∀ x, below v x → ∃ n', n = S n' ∧ depth_le n' x) → depth_le n v.
Proof. intros Hv. destruct n as [|n]; intros x Hx; destruct (Hv x Hx) as (n' & E & Hn'); [done|]. by injection E as <-. Qed.

Lemma depth_mono n v : depth_le n v → depth_le (S n) v.
Proof.
  revert v. induction n as [|n IH]; intros v Hv; apply depth_intro; intros x Hx; destruct (depth_below _ _ _ Hv Hx) as (n' & [=] & Hn').
  subst n'. exists (S n). split; [done|by apply IH].
Qed.

Lemma depth_leaf n v : leaf v → depth_le n v.
Proof. intros [Hm Hs]. apply depth_intro. intros x. by destruct v. Qed.

Lemma depth_size n v : value_size v ≤ S n → depth_le n v.
Proof.
  revert v. induction n as [|n IH]; intros v Hv; apply depth_intro; intros x Hx%below_size; pose proof (value_size_pos x); [lia|].
  exists n. split; [done|]. apply IH. lia.
Qed.

Lemma depth_merge n a b : depth_le n a → depth_le n b → depth_le n (mergeSampleValue a b).
Proof.
  revert a b. induction n as [n IH] using lt_wf_ind. intros a b Ha Hb.
  destruct (mergeSampleValue_cases a b) as [|_|_|am _ _|am bm Hm ->|la lb Hla Hlb|]; [by apply depth_leaf|exact Hb|exact Ha|exact Ha|..].
  - apply depth_intro. intros x [k Hk]. unfold mergeSampleMap in Hk. rewrite lookup_merge_entries in Hk.
    destruct (bm !! k) as [v|] eqn:Hv.
    + destruct (depth_below _ _ v Hb) as (n' & -> & Hv'); [by exists k|]. exists n'. split; [done|].
      destruct (default ∅ am !! k) as [old|] eqn:Hold; injection Hk as <-; [|done].
      apply IH; [lia| |done]. destruct (depth_below _ _ old Ha) as (n'' & [= <-] & Hold'); [by eapply map_below|done].
    + apply (depth_below _ a); [done|by eapply map_below].
  - apply depth_intro. intros x [Hx|Hx]%below_slice%elem_of_app; [apply (depth_below _ a)|apply (depth_below _ b)]; try done; by eapply slice_below.
  - apply depth_leaf. by destruct (mergeScalarType _ _).
Qed.

Lemma nest_depth n v o : depth_le n v → nest_from v o → depth_le n (VMap o).
Proof.
  intros Hv Hn. assert (∀ n, depth_le n (VMap ∅)) as H0.
  { intros n'. apply depth_intro. intros x [k Hk]. by rewrite lookup_empty in Hk. }
  destruct Hn as [(m & Hm & ->)|(l & sc & Hl & Hscan)].
  - destruct v; try discriminate Hm; injection Hm as <-; [exact Hv|apply H0].
  - destruct n as [|n]; [|apply depth_mono]; (eapply scan_object, Hscan; [apply H0|intros a b; apply (depth_merge _ (VMap a) (VMap b))| |done]);
      intros x Hx; destruct (depth_below _ _ x Hv) as (n' & [=] & Hx'); try (by eapply slice_below). by subst n'.
Qed.

(** ** Emission *)

Lemma takes_perm used used' l l' : l ≡ₚ l' → takes used used' l → takes used used' l'.
Proof.
  intros Hp (H1 & H2 & H3 & H4). split; [done|]. split; [by rewrite <-Hp|]. split; [intros x Hx; apply H3; by rewrite Hp|].
  intros x. by rewrite H4, Hp.
Qed.

Definition struct_ok (d : struct_decl) : Prop := NoDup (f_name <$> d_fields d) ∧ NoDup (f_key <$> d_fields d).

Section emit_struct.
Context `{Unicode, GoStd}.

Definition emit_nest (fuel : nat) (acc : gmap string nat * list struct_decl) (n : nested) :
    result gen_error (gmap string nat * list struct_decl) :=
  r ← emitStruct fuel (n_name n) (n_val n) acc.1; Ok (r.1, acc.2 ++ r.2).

Lemma emitStruct_eq fuel name m used :
  emitStruct (S fuel) name m used =
    (st ← emit_fields name m used;
     foldM (emit_nest fuel) (es_usedTypes st, [{| d_name := name; d_fields := es_fields st |}]) (es_nests st)).
Proof. done. Qed.

(** What a call adds: the struct itself, then structs with new names. *)
Definition emits (used used' : gmap string nat) (name : string) (out : list struct_decl) : Prop :=
  (∃ rest, d_name <$> out ≡ₚ name :: rest ∧ takes used used' rest) ∧ Forall struct_ok out.

Lemma emit_nests_spec fuel nests used out used' out' :
  (∀ name m used used' out, names_ok used → emitStruct fuel name m used = Ok (used', out) → emits used used' name out) →
  names_ok used → Forall struct_ok out → foldM (emit_nest fuel) (used, out) nests = Ok (used', out') →
  ∃ rest, d_name <$> out' ≡ₚ (d_name <$> out) ++ (n_name <$> nests) ++ rest ∧ takes used used' rest ∧ Forall struct_ok out'.
Proof.
  intros IH. revert used out. induction nests as [|n nests IHn]; intros used out Hok Hout Hr.
  - injection Hr as <- <-. exists []. rewrite app_nil_r. split; [done|]. split; [by apply takes_nil|done].
  - cbn [foldM] in Hr. apply bind_Ok in Hr as ([used1 out1] & Hn & Hr). unfold emit_nest in Hn.
    apply bind_Ok in Hn as ([used2 out2] & Hn & [= <- <-]). cbn [fst snd] in *.
    destruct (IH _ _ _ _ _ Hok Hn) as [(rest1 & Hp1 & Ht1) Hf1].
    destruct (IHn _ _ (proj1 Ht1) (Forall_app_2 _ _ _ Hout Hf1) Hr) as (rest2 & Hp2 & Ht2 & Hf2).
    exists (rest1 ++ rest2). split; [|split; [by eapply takes_app|done]].
    rewrite Hp2, fmap_app, Hp1. solve_Permutation.
Qed.

Lemma emit_keys_NoDup m : NoDup (emit_keys m).
Proof. unfold emit_keys, sort_strings. rewrite sort_stable_perm. apply NoDup_fst_map_to_list. Qed.

Lemma emitStruct_names fuel name m used used' out : names_ok used → emitStruct fuel name m used = Ok (used', out) → emits used used' name out.
Proof.
  revert name m used used' out. induction fuel as [|fuel IH]; intros name m used used' out Hok; [done|].
  rewrite emitStruct_eq. intros (st & Hst & Hr)%bind_Ok. pose proof (emit_fields_ok _ _ _ _ Hok Hst) as Hf.
  assert (Forall struct_ok [{| d_name := name; d_fields := es_fields st |}]) as Hs.
  { apply Forall_singleton. split; [apply (fo_names _ _ _ _ Hf)|]. cbn. rewrite (fo_keys _ _ _ _ Hf). apply emit_keys_NoDup. }
  destruct (emit_nests_spec fuel _ _ _ _ _ IH (proj1 (fo_types _ _ _ _ Hf)) Hs Hr) as (rest & Hp & Ht & Hout).
  split; [|done]. exists ((n_name <$> es_nests st) ++ rest). split; [exact Hp|]. eapply takes_app; [apply Hf|exact Ht].
Qed.

(** The calls for the nested structs are part of the output. *)
Lemma emit_nests_in fuel nests used out used' out' :
  names_ok used → foldM (emit_nest fuel) (used, out) nests = Ok (used', out') →
  (∀ d, d ∈ out → d ∈ out') ∧
  ∀ n, n ∈ nests → ∃ u r, names_ok u ∧ emitStruct fuel (n_name n) (n_val n) u = Ok r ∧ ∀ d, d ∈ r.2 → d ∈ out'.
Proof.
  revert used out. induction nests as [|n nests IHn]; intros used out Hok Hr.
  - injection Hr as <- <-. split; [done|]. by intros ? ?%not_elem_of_nil.
  - cbn [foldM] in Hr. apply bind_Ok in Hr as ([used1 out1] & Hn & Hr). unfold emit_nest in Hn.
    apply bind_Ok in Hn as ([used2 out2] & Hn & [= <- <-]). cbn [fst snd] in *.
    destruct (emitStruct_names _ _ _ _ _ _ Hok Hn) as [(rest1 & _ & Ht1) _].
    destruct (IHn _ _ (proj1 Ht1) Hr) as [Hin Hall]. split; [intros d Hd; apply Hin, elem_of_app; by left|].
    intros n' [->|Hn']%elem_of_cons; [|by apply Hall]. exists used, (used2, out2). split; [done|]. split; [done|].
    intros d Hd. apply Hin, elem_of_app. by right.
Qed.

(** A field type accepts what the sample of the field covers, when the nested
    structs accept what their samples cover. *)
Lemma typed_fits ds new t y x : typed_by new t y → decoded y → covers y x →
  (∀ n, n ∈ new → decoded (VMap (n_val n)) → ∀ v, covers (VMap (n_val n)) v → fits ds (TNamed (n_name n)) v) →
  fits ds t x.
Proof.
  intros Ht Hy Hc Hnew. destruct (decide (x = VNil)) as [->|Hx]; [constructor|].
  destruct Ht as [(m & n & Hm & Hn & Hv & ->)|[(l & t' & Hl & -> & Ht')|[Hl ->]]].
  - assert (y = VMap (n_val n)) as ->.
    { rewrite Hv. destruct y; try discriminate Hm; injection Hm as <-; [done|]. by destruct (everywhere_node _ _ Hy). }
    by apply Hnew.
  - inversion Hc as [|? ? Hleaf|? ? Hleaf| |? ? lw lv Hlw Hlv Hin]; subst; [done|destruct Hleaf; congruence|destruct Hleaf; congruence|done|].
    rewrite Hl in Hlw. injection Hlw as <-. eapply fits_slice; [done|]. intros e He%Hin.
    assert (∀ x, x ∈ l → decoded x) as Hd by (intros z Hz; eapply everywhere_below; [exact Hy|by eapply slice_below]).
    destruct Ht' as [->|[(sc & Hs & ->)|(sc & n & Hs & Hn & ->)]]; [by apply fits_any|..].
    + destruct (proj2 (scan_elems_spec l None None _ _ Hd I Hs) e He) as [->|[(? & [=] & _)|(? & [= <-] & Ha)]]; [constructor|by apply fits_scalar].
    + destruct (scan_exclusive _ _ _ _ (or_introl eq_refl) Hs) as [E|E]; [cbn in E; subst sc|done].
      destruct (proj2 (scan_elems_spec l None None _ _ Hd I Hs) e He) as [->|[(? & [= <-] & Ha)|(? & [=] & _)]]; [constructor|].
      apply Hnew; [done| |done]. eapply nest_everywhere; [apply decoded_closed|done|exact Hy|]. right. by exists l, None.
  - inversion Hc as [|? ? _ _ Hs|? ? _ Ha|mw mv|? ? lw lv Hlw]; subst; [done| |by apply fits_scalar|by destruct Hl|destruct Hl; congruence].
    rewrite Hs. apply fits_any.
Qed.

Lemma emitStruct_fits fuel name m used r ds v : names_ok used → emitStruct fuel name m used = Ok r →
  (∀ d, d ∈ r.2 → d ∈ ds) → decoded (VMap m) → covers (VMap m) v → fits ds (TNamed name) v.
Proof.
  revert name m used r v. induction fuel as [|fuel IH]; intros name m used r v Hok; [done|].
  rewrite emitStruct_eq. intros (st & Hst & Hr)%bind_Ok Hds Hm Hc. destruct r as [used' out'].
  pose proof (emit_fields_ok _ _ _ _ Hok Hst) as Hf.
  destruct (emit_nests_in _ _ _ _ _ _ (proj1 (fo_types _ _ _ _ Hf)) Hr) as [Hin Hnests].
  inversion Hc as [|? ? Hl|? ? Hl|? mv Hmv|? ? ? ? Hl]; subst; [constructor|by destruct Hl|by destruct Hl| |done].
  apply (fits_struct ds {| d_name := name; d_fields := es_fields st |}); [apply Hds, Hin; by left|].
  intros k x Hk. destruct (Hmv k x Hk) as (y & Hy & Hyx).
  assert (k ∈ f_key <$> es_fields st) as (f & -> & Hff)%list_elem_of_fmap by (rewrite (fo_keys _ _ _ _ Hf); apply elem_of_emit_keys; by eexists).
  exists f. split; [done|]. split; [done|].
  pose proof (fo_typed _ _ _ _ Hf f Hff) as Ht. rewrite Hy in Ht. cbn in Ht.
  eapply typed_fits; [exact Ht| |exact Hyx|].
  - eapply everywhere_below; [exact Hm|by exists (f_key f)].
  - intros n Hn Hdn w Hw. destruct (Hnests n Hn) as (u & r & Hu & Hr' & Hsub). eapply IH; [exact Hu|exact Hr'| |done|done].
    intros d Hd. apply Hds, Hsub, Hd.
Qed.
End emit_struct.

(** ** Failure *)

Section failure.
Context `{Unicode, GoStd}.

Lemma emit_field_error name m st k e : emit_field name m st k = Err e → e = InvalidKey k ∧ validTagKey k = false.
Proof.
  unfold emit_field. destruct (validTagKey k); cbn [negb].
  - destruct (uniqueExportName _ _). by destruct (fieldType _ _ _ _) as [[??]?].
  - by intros [= <-].
Qed.

Lemma emit_fields_error name m used e : emit_fields name m used = Err e →
  ∃ k, e = InvalidKey k ∧ is_Some (m !! k) ∧ validTagKey k = false.
Proof.
  unfold emit_fields. assert (∀ k, k ∈ emit_keys m → is_Some (m !! k)) as Hk by (intros k; apply elem_of_emit_keys).
  revert Hk. generalize (emit_keys m). intros l. generalize ({| es_usedFields := ∅; es_usedTypes := used; es_nests := []; es_fields := [] |}).
  induction l as [|k l IH]; intros st Hk; [done|]. cbn [foldM]. intros [He|(st' & _ & He)]%bind_Err.
  - apply emit_field_error in He as [-> Hv]. exists k. split; [done|]. split; [apply Hk; by left|done].
  - eapply IH; [|exact He]. intros k' Hk'. apply Hk. by right.
Qed.

Lemma valid_keys_closed : merge_closed valid_keys_node.
Proof.
  split; [done|by intros []|by intros []|]. intros va a b c Hm Ha Hb Hd k Hk%elem_of_dom. rewrite Hd in Hk.
  apply elem_of_union in Hk as [Hk|Hk]; apply elem_of_dom in Hk; [|by apply Hb].
  destruct va; try discriminate Hm; injection Hm as <-; [by apply Ha|]. destruct Hk as [? E]. cbn in E. by rewrite lookup_empty in E.
Qed.

(** With fuel for the depth of the sample, only an invalid key stops the emitter. *)
Lemma emitStruct_error n name m used e : names_ok used → depth_le n (VMap m) → emitStruct (S n) name m used = Err e →
  ∃ k, e = InvalidKey k ∧ validTagKey k = false ∧ ¬ valid_keys (VMap m).
Proof.
  revert name m used e. induction n as [n IH] using lt_wf_ind. intros name m used e Hok Hd.
  rewrite emitStruct_eq. intros [He|(st & Hst & Hr)]%bind_Err.
  { apply emit_fields_error in He as (k & -> & Hk & Hv). exists k. split; [done|]. split; [done|].
    intros [Hn _]. pose proof (Hn k Hk). congruence. }
  pose proof (emit_fields_ok _ _ _ _ Hok Hst) as Hf.
  assert (∀ n', n' ∈ es_nests st → ∃ y, below (VMap m) y ∧ nest_from y (n_val n')) as Hfrom.
  { intros n' Hn'. destruct (fo_from _ _ _ _ Hf n' Hn') as (k & [y Hy]%elem_of_emit_keys & Hn). exists y. rewrite Hy in Hn. split; [by exists k|done]. }
  revert Hr. generalize [{| d_name := name; d_fields := es_fields st |}]. generalize (proj1 (fo_types _ _ _ _ Hf)).
  generalize (es_usedTypes st). revert Hfrom. generalize (es_nests st). intros nests.
  induction nests as [|n' nests IHn]; intros Hfrom u Hu out; [done|]. cbn [foldM].
  destruct (Hfrom n') as (y & Hy & Hn); [by left|]. destruct (depth_below _ _ _ Hd Hy) as (n0 & -> & Hy').
  intros [He|([u' out'] & Hn' & Hr)]%bind_Err; unfold emit_nest in *.
  - apply bind_Err in He as [He|(? & _ & [=])].
    destruct (IH n0 (Nat.lt_succ_diag_r _) _ _ _ _ Hu (nest_depth _ _ _ Hy' Hn) He) as (k & -> & Hv & Hbad).
    exists k. split; [done|]. split; [done|]. intros Hall. apply Hbad. eapply nest_everywhere; [apply valid_keys_closed| |by eapply everywhere_below|exact Hn].
      intros k' [? E]. by rewrite lookup_empty in E.
  - apply bind_Ok in Hn' as ([u1 out1] & Hn' & [= <- <-]). destruct (emitStruct_names _ _ _ _ _ _ Hu Hn') as [(rest & _ & Ht) _].
    eapply IHn; [|exact (proj1 Ht)|exact Hr]. intros n1 Hn1. apply Hfrom. by right.
Qed.
End failure.

(** ** Properties *)

Lemma names_ok_root typ : names_ok {[ typ := 1 ]}.
Proof.
  intros b n [<- <-]%lookup_singleton_Some. split; [lia|]. intros i Hi. assert (i = 1) as -> by lia. cbn.
  rewrite lookup_singleton_eq. by eexists.
Qed.

(** The structs that are generated for a sample accept the sample: every key has
    a field whose type decodes the value, in every element of a slice and at
    every depth.  Their names are distinct, so are the names and the keys of the
    fields of one struct. *)
Theorem sample_conforms `{Unicode, GoStd} (typ : string) (root : gmap string value) (decls : list struct_decl)
    (Hroot : decoded (VMap root)) (Hemit : emit typ root = Ok decls) :
  NoDup (d_name <$> decls) ∧ Forall struct_ok decls ∧ fits decls (TNamed typ) (VMap root).
Proof.
  unfold emit in Hemit. apply fmap_Ok in Hemit as ([used' out] & Hr & ->). pose proof (names_ok_root typ) as Hok.
  destruct (emitStruct_names _ _ _ _ _ _ Hok Hr) as [(rest & Hp & Hok' & Hnd & Hfresh & _) Hs]. split; [|split; [done|]].
  - cbn [snd]. rewrite Hp. apply NoDup_cons. split; [|done]. intros Hin%Hfresh. by rewrite lookup_singleton_eq in Hin.
  - eapply emitStruct_fits; [exact Hok|exact Hr|done|done|]. by apply covers_refl.
Qed.

(** Generation comes to an end: it gives structs whenever every key of the
    sample can be a tag, and otherwise it either does or names such a key. *)
Theorem generation_outcome `{Unicode, GoStd} (typ : string) (root : gmap string value) :
  (valid_keys (VMap root) → ∃ decls, emit typ root = Ok decls)
  ∧ ∀ e, emit typ root = Err e → ∃ k, e = InvalidKey k ∧ validTagKey k = false.
Proof.
  assert (∀ e, emit typ root = Err e → ∃ k, e = InvalidKey k ∧ validTagKey k = false ∧ ¬ valid_keys (VMap root)) as He.
  { intros e. unfold emit. intros Hr%fmap_Err. pose proof (value_size_pos (VMap root)).
    destruct (value_size (VMap root)) as [|n] eqn:Hn; [lia|].
    eapply emitStruct_error; [apply names_ok_root| |exact Hr]. apply depth_size. lia. }
  split.
  - intros Hv. destruct (emit typ root) as [decls|e] eqn:Hr; [by eexists|]. destruct (He e eq_refl) as (? & _ & _ & Hn). by destruct Hn.
  - intros e Hr. destruct (He e Hr) as (k & ? & ? & _). by exists k.
Qed.

(** ** Examples *)

Definition one_byte (p : ascii → bool) (s : string) : bool := match s with String c "" => p c | _ => false end.

(** The ASCII part of Go's tables. *)
Definition ascii_unicode : Unicode := {|
  IsLetter := one_byte (λ c, is_lower c || is_upper c);
  IsDigit := one_byte is_digit;
  IsUpper := one_byte is_upper;
  ToUpper s := match s with String c "" => if is_lower c then String (byte_of (nat_of_ascii c - 32)) "" else s | _ => s end;
|}.

Definition sample_root : gmap string value :=
  {["db-url" := VString "x"; "db_url" := VInt KInt 3;
    "srv" := VSlice [VMap {["a" := VInt KInt 1]}; VMap {["a" := VFloat KFloat64 (S754_zero false); "b" := VNil]}]]}.

Definition sample_decls : list struct_decl :=
  [{| d_name := "Config"; d_fields :=
        [{| f_name := "DBURL"; f_type := TScalar SString; f_key := "db-url" |};
         {| f_name := "DBURL2"; f_type := TScalar SInt64; f_key := "db_url" |};
         {| f_name := "Srv"; f_type := TSliceOf (TNamed "ConfigSrvItem"); f_key := "srv" |}] |};
   {| d_name := "ConfigSrvItem"; d_fields :=
        [{| f_name := "A"; f_type := TScalar SFloat64; f_key := "a" |}; {| f_name := "B"; f_type := TScalar SAny; f_key := "b" |}] |}].

Lemma map_everywhere (P : value → Prop) m : P (VMap m) → map_Forall (λ _, everywhere P) m → everywhere P (VMap m).
Proof. intros HP Hm. split; [done|]. intros x [k Hk]. by apply (Hm k). Qed.

Lemma slice_everywhere (P : value → Prop) l : P (VSlice l) → Forall (everywhere P) l → everywhere P (VSlice l).
Proof. intros HP Hl. split; [done|]. intros x Hx. by eapply Forall_forall. Qed.

Ltac decoded_sample :=
  repeat first [ apply map_everywhere; [exact I|] | apply slice_everywhere; [exact I|]
               | apply map_Forall_insert_2 | apply map_Forall_empty | apply Forall_cons_2 | apply Forall_nil_2
               | apply everywhere_leaf; [split; reflexivity|cbn; unfold in_int64; first [exact I|lia]] ].

Lemma sample_conforms_witness :
  @emit ascii_unicode example_std "Config" sample_root = Ok sample_decls
  ∧ decoded (VMap sample_root) ∧ fits sample_decls (TNamed "Config") (VMap sample_root).
Proof.
  assert (@emit ascii_unicode example_std "Config" sample_root = Ok sample_decls) as He by (vm_compute; reflexivity).
  assert (decoded (VMap sample_root)) as Hd by (unfold decoded, sample_root; decoded_sample).
  split; [exact He|]. split; [exact Hd|]. exact (proj2 (proj2 (@sample_conforms ascii_unicode example_std "Config" sample_root sample_decls Hd He))).
Defined.

(** An integer above the range of [int64], which the YAML decoder gives as a
    [uint64], has a field of type [int64] all the same, which cannot hold it. *)
Example uint64_sample :
  @emit ascii_unicode example_std "Config" {["big" := VInt KUint64 (2 ^ 63)]}
    = Ok [{| d_name := "Config"; d_fields := [{| f_name := "Big"; f_type := TScalar SInt64; f_key := "big" |}] |}]
  ∧ ¬ accepts SInt64 (VInt KUint64 (2 ^ 63)).
Proof. split; [vm_compute; reflexivity|]. cbn. unfold in_int64. lia. Qed.

(** A suffixed name also blocks a later key that is spelled like it. *)
Example names_do_not_collide :
  map f_name (match @emit ascii_unicode example_std "C" {["a-b" := VNil; "a_b" := VNil; "a_b2" := VNil]} with Ok (d :: _) => d_fields d | _ => [] end)
  = ["AB"; "AB2"; "AB22"].
Proof. vm_compute. reflexivity. Qed.
