(* ===== verification/Settings.v ===== *)
(** * The option functions (options.go, options_resolve.go, observe.go, stages.go)

    The options of a manager as the [With...] functions build them, the checks
    of [resolveOptions] and [checkTypedOptions], and the order of the calls. *)
From S2P Require Import Prelude GoStrings Value ProfileExpr Scan Secret Provenance Coalesce Options TypeInfo TypedHooks StateView.
From Stdlib Require Import Eqdep_dec.
Open Scope nat_scope.

(** [Axis] of the public API is [AxisSpec] field by field. *)
Definition Axis : Type := AxisSpec.

(** [Watch] *)
Record Watch := { w_Paths : list string; w_Quiet : Z; w_MaxLag : Z; w_SwapHint : Z; w_Profile : Coalesce.Profile }.

(** [Profile] *)
Record ProfileOption := { po_Names : list string; po_Env : string; po_Default : string; po_Match : string }.

Definition DefaultDir : string := "conf.d".
Definition DefaultObserverTimeout : Z := 2000000000.

Section settings.
(** The Go types that a validator or a policy can be written for. *)
Context {Typ : Type} `{EqDecision Typ} (denote : Typ → Type).
(** Loggers, tracers and observers are values of other packages. *)
Context {Logger Tracer Observer : Type}.

(** A [*T] in an [any]. *)
Definition target : Type := { ty : Typ & denote ty }.

(** [target.( *T)] *)
Definition as_type (ty : Typ) (d : target) : option (denote ty) :=
  match decide (projT1 d = ty) with left e => Some (eq_rect _ denote (projT2 d) _ e) | right _ => None end.

Record anyPolicy := { ap_Name : string; ap_EvaluateAny : target → string → string → result string (list Violation) }.

(** [options], field by field. *)
Record settings := {
  se_Dir : string;
  se_FS : option FileSystem;
  se_SkipDiscovery : bool;
  se_ProfileNames : list string;
  se_ProfileMatch : string;
  se_ProfileEnv : string;
  se_ProfileDefault : string;
  se_Strict : bool;
  se_Logger : Logger;
  se_Providers : list providerEntry;
  se_FileWatch : bool;
  se_CoalesceWindows : Coalesce.Options;
  se_WatchPaths : list string;
  se_Axes : list AxisSpec;
  se_RegisteredTargetTypes : list Typ;
  se_Validators : list (target → result string unit);
  se_Transforms : list (gomap → result string gomap);
  se_Provenance : Level;
  se_HistoryCap : Z;
  se_SecretRedactor : option Redactor;
  se_SecretPaths : list string;
  se_YAMLBridge : bool;
  se_UnknownFields : UnknownFields;
  se_Tracer : Tracer;
  se_Policies : list anyPolicy;
  se_OptionErrs : list fc_error;
  se_SecretResolver : option SecretResolver;
  se_Generators : list Generator;
  se_TypedHooks : list TypedHook;
  se_DefaultTypedHooksOff : bool;
  se_MergeKeys : gmap string string;
  se_Observers : list Observer;
  se_ObserverTimeout : Z;
  se_Tenant : string;
}.

(** ** Assignments to one field *)

Definition fields_of (o : settings) : settings :=
  Build_settings (se_Dir o) (se_FS o) (se_SkipDiscovery o) (se_ProfileNames o) (se_ProfileMatch o) (se_ProfileEnv o)
    (se_ProfileDefault o) (se_Strict o) (se_Logger o) (se_Providers o) (se_FileWatch o) (se_CoalesceWindows o)
    (se_WatchPaths o) (se_Axes o) (se_RegisteredTargetTypes o) (se_Validators o) (se_Transforms o) (se_Provenance o)
    (se_HistoryCap o) (se_SecretRedactor o) (se_SecretPaths o) (se_YAMLBridge o) (se_UnknownFields o) (se_Tracer o)
    (se_Policies o) (se_OptionErrs o) (se_SecretResolver o) (se_Generators o) (se_TypedHooks o)
    (se_DefaultTypedHooksOff o) (se_MergeKeys o) (se_Observers o) (se_ObserverTimeout o) (se_Tenant o).

(** [o.field = f o.field] *)
Local Ltac assign field :=
  exact (λ f o, ltac:(let e := eval cbv [fields_of] in (fields_of o) in
                      let p := eval pattern (field o) in e in
                      match p with ?g _ => let r := eval cbv beta in (g (f (field o))) in exact r end)).

Definition upd_Dir : (string → string) → settings → settings := ltac:(assign se_Dir).
Definition upd_FS : (option FileSystem → option FileSystem) → settings → settings := ltac:(assign se_FS).
Definition upd_SkipDiscovery : (bool → bool) → settings → settings := ltac:(assign se_SkipDiscovery).
Definition upd_ProfileNames : (list string → list string) → settings → settings := ltac:(assign se_ProfileNames).
Definition upd_ProfileMatch : (string → string) → settings → settings := ltac:(assign se_ProfileMatch).
Definition upd_ProfileEnv : (string → string) → settings → settings := ltac:(assign se_ProfileEnv).
Definition upd_ProfileDefault : (string → string) → settings → settings := ltac:(assign se_ProfileDefault).
Definition upd_Strict : (bool → bool) → settings → settings := ltac:(assign se_Strict).
Definition upd_Logger : (Logger → Logger) → settings → settings := ltac:(assign se_Logger).
Definition upd_Providers : (list providerEntry → list providerEntry) → settings → settings := ltac:(assign se_Providers).
Definition upd_FileWatch : (bool → bool) → settings → settings := ltac:(assign se_FileWatch).
Definition upd_Windows : (Coalesce.Options → Coalesce.Options) → settings → settings := ltac:(assign se_CoalesceWindows).
Definition upd_WatchPaths : (list string → list string) → settings → settings := ltac:(assign se_WatchPaths).
Definition upd_Axes : (list AxisSpec → list AxisSpec) → settings → settings := ltac:(assign se_Axes).
Definition upd_Types : (list Typ → list Typ) → settings → settings := ltac:(assign se_RegisteredTargetTypes).
Definition upd_Validators : (list (target → result string unit) → list (target → result string unit)) → settings → settings :=
  ltac:(assign se_Validators).
Definition upd_Transforms : (list (gomap → result string gomap) → list (gomap → result string gomap)) → settings → settings :=
  ltac:(assign se_Transforms).
Definition upd_Provenance : (Level → Level) → settings → settings := ltac:(assign se_Provenance).
Definition upd_HistoryCap : (Z → Z) → settings → settings := ltac:(assign se_HistoryCap).
Definition upd_Redactor : (option Redactor → option Redactor) → settings → settings := ltac:(assign se_SecretRedactor).
Definition upd_SecretPaths : (list string → list string) → settings → settings := ltac:(assign se_SecretPaths).
Definition upd_YAMLBridge : (bool → bool) → settings → settings := ltac:(assign se_YAMLBridge).
Definition upd_UnknownFields : (UnknownFields → UnknownFields) → settings → settings := ltac:(assign se_UnknownFields).
Definition upd_Tracer : (Tracer → Tracer) → settings → settings := ltac:(assign se_Tracer).
Definition upd_Policies : (list anyPolicy → list anyPolicy) → settings → settings := ltac:(assign se_Policies).
Definition upd_OptionErrs : (list fc_error → list fc_error) → settings → settings := ltac:(assign se_OptionErrs).
Definition upd_Resolver : (option SecretResolver → option SecretResolver) → settings → settings := ltac:(assign se_SecretResolver).
Definition upd_Generators : (list Generator → list Generator) → settings → settings := ltac:(assign se_Generators).
Definition upd_TypedHooks : (list TypedHook → list TypedHook) → settings → settings := ltac:(assign se_TypedHooks).
Definition upd_DefaultHooksOff : (bool → bool) → settings → settings := ltac:(assign se_DefaultTypedHooksOff).
Definition upd_MergeKeys : (gmap string string → gmap string string) → settings → settings := ltac:(assign se_MergeKeys).
Definition upd_Observers : (list Observer → list Observer) → settings → settings := ltac:(assign se_Observers).
Definition upd_ObserverTimeout : (Z → Z) → settings → settings := ltac:(assign se_ObserverTimeout).
Definition upd_Tenant : (string → string) → settings → settings := ltac:(assign se_Tenant).

Definition fail (detail : string) : settings → settings := upd_OptionErrs (λ es, es ++ [ErrFastConf detail]).

(** ** The options *)

(** [Option] *)
Definition Option : Type := settings → settings.

Definition WithDecodeFormat (f : Format) : Option :=
  match f with
  | JSON => upd_YAMLBridge (λ _, false)
  | YAML => upd_YAMLBridge (λ _, true)
  | _ => fail ("WithDecodeFormat(" +:+ Format_String f +:+ "): want JSON or YAML")
  end.

Definition WithUnknownFields (mode : UnknownFields) : Option := upd_UnknownFields (λ _, mode).
Definition WithDir (dir : string) : Option := upd_Dir (λ _, dir).
Definition WithFS (f : option FileSystem) : Option := upd_FS (λ _, f).
Definition WithStrictMerge (strict : bool) : Option := upd_Strict (λ _, strict).

Definition WithLogger (l : option Logger) : Option :=
  match l with None => fail "WithLogger(nil)" | Some l => upd_Logger (λ _, l) end.

(** The windows of a preset, with the positive fields of [w] over them. *)
Definition watch_windows (w : Watch) : Coalesce.Options :=
  let preset := Coalesce.Apply (w_Profile w) in
  {| Coalesce.Quiet := if (0 <? w_Quiet w)%Z then w_Quiet w else Coalesce.Quiet preset;
     Coalesce.MaxLag := if (0 <? w_MaxLag w)%Z then w_MaxLag w else Coalesce.MaxLag preset;
     Coalesce.SwapHint := if (0 <? w_SwapHint w)%Z then w_SwapHint w else Coalesce.SwapHint preset |}.

Definition WithWatch (w : Watch) : Option := λ o,
  upd_Windows (λ _, watch_windows w) (upd_WatchPaths (λ ps, ps ++ w_Paths w) (upd_FileWatch (λ _, true) o)).

Definition WithAxes (axes : list Axis) : Option := λ o,
  if (MaxAxes <? Z.of_nat (length (se_Axes o) + length axes))%Z then fail ("WithAxes: at most " +:+ itoa (Z.to_nat MaxAxes) +:+ " axes fit in the file priority band") o
  else upd_Axes (λ a, a ++ axes) o.

Definition WithTenant (id : string) : Option := upd_Tenant (λ _, id).
Definition WithRedactor (r : option Redactor) : Option := upd_Redactor (λ _, r).
Definition WithSecretPaths (patterns : list string) : Option := upd_SecretPaths (λ ps, ps ++ patterns).
Definition WithProvenance (level : Level) : Option := upd_Provenance (λ _, level).

Definition WithHistory (n : Z) : Option :=
  if (n <? 0)%Z then fail "WithHistory: capacity must be non-negative" else upd_HistoryCap (λ _, n).

(** The entries of a variadic argument that are not nil. *)
Definition non_nil {A} (l : list (option A)) : list A := omap id l.

(** [addProvider]; an entry holds what [Describe] answered. *)
Definition addProvider (p : providerEntry) : Option := upd_Providers (λ ps, ps ++ [p]).

Definition WithProvider (ps : list (option providerEntry)) : Option := λ o,
  foldl (λ o p, match p with Some p => addProvider p o | None => o end) o ps.

Definition WithGenerator (gs : list (option Generator)) : Option := λ o,
  foldl (λ o g, match g with Some g => upd_Generators (λ l, l ++ [g]) o | None => o end) o gs.

Definition WithTypedHook (hs : list (option TypedHook)) : Option := λ o,
  foldl (λ o h, match h with Some h => upd_TypedHooks (λ l, l ++ [h]) o | None => o end) o hs.

Definition WithoutDefaultTypedHooks : Option := upd_DefaultHooksOff (λ _, true).
Definition WithMergeKeys (keys : gmap string string) : Option := upd_MergeKeys (λ old, addMergeKeys old keys).

(** The loop of [WithTransform] and of [WithObserver]: nil entries are errors. *)
Fixpoint required {A} (what : string) (add : A → Option) (i : nat) (l : list (option A)) : Option := λ o,
  match l with
  | [] => o
  | None :: l => required what add (S i) l (fail (what +:+ itoa i) o)
  | Some a :: l => required what add (S i) l (add a o)
  end.

Definition WithTransform (fns : list (option (gomap → result string gomap))) : Option :=
  required "WithTransform: nil function at #" (λ fn, upd_Transforms (λ l, l ++ [fn])) 0 fns.

(** The validator of a type as the manager calls it. *)
Definition adaptValidator (t : Typ) (v : denote t → result string unit) (d : target) : result string unit :=
  match as_type t d with Some x => v x | None => Err "invalid" end.

Definition WithValidate (t : Typ) (fns : list (option (denote t → result string unit))) : Option := λ o,
  foldl (λ o v, match v with
                | Some v => upd_Validators (λ l, l ++ [adaptValidator t v]) (upd_Types (λ l, l ++ [t]) o)
                | None => o
                end) o fns.

Definition WithProfile (p : ProfileOption) : Option := λ o,
  upd_ProfileMatch (λ _, po_Match p)
    (upd_ProfileDefault (λ _, po_Default p)
      (upd_ProfileEnv (λ _, po_Env p)
        (upd_ProfileNames (λ _, trimProfiles [] (po_Names p)) o))).

(** [policyAdapter.EvaluateAny] *)
Definition adaptPolicy (t : Typ) (p : policy (denote t)) : anyPolicy := {|
  ap_Name := p_Name p;
  ap_EvaluateAny d reason tenant :=
    match as_type t d with
    | Some c => p_Evaluate p c reason tenant
    | None => Ok [{| v_Path := ""; v_Message := "policy: type mismatch (framework bug)"; v_Severity := SeverityError; v_Rule := p_Name p |}]
    end;
|}.

Definition WithPolicy (t : Typ) (ps : list (option (policy (denote t)))) : Option := λ o,
  foldl (λ o p, match p with
                | Some p => upd_Policies (λ l, l ++ [adaptPolicy t p]) (upd_Types (λ l, l ++ [t]) o)
                | None => o
                end) o ps.

Definition WithSecretResolver (r : option SecretResolver) : Option := upd_Resolver (λ _, r).

Definition WithObserver (os : list (option Observer)) : Option :=
  required "WithObserver: nil observer at #" (λ ob, upd_Observers (λ l, l ++ [ob])) 0 os.

Definition WithObserverTimeout (d : Z) : Option := upd_ObserverTimeout (λ _, d).

Definition WithTracer (t : option Tracer) : Option :=
  match t with None => fail "WithTracer(nil)" | Some t => upd_Tracer (λ _, t) end.

(** ** Resolution *)

Definition defaultOptions (base : Logger) (noop : Tracer) : settings := {|
  se_Dir := DefaultDir; se_FS := None; se_SkipDiscovery := false; se_ProfileNames := []; se_ProfileMatch := "";
  se_ProfileEnv := ""; se_ProfileDefault := ""; se_Strict := false; se_Logger := base; se_Providers := [];
  se_FileWatch := false; se_CoalesceWindows := Coalesce.Apply ProfileK8s; se_WatchPaths := []; se_Axes := [];
  se_RegisteredTargetTypes := []; se_Validators := []; se_Transforms := []; se_Provenance := Off; se_HistoryCap := 0;
  se_SecretRedactor := None; se_SecretPaths := []; se_YAMLBridge := false; se_UnknownFields := UnknownWarn;
  se_Tracer := noop; se_Policies := []; se_OptionErrs := []; se_SecretResolver := None; se_Generators := [];
  se_TypedHooks := []; se_DefaultTypedHooksOff := false; se_MergeKeys := ∅; se_Observers := [];
  se_ObserverTimeout := 0; se_Tenant := "" |}.

(** The checks at the end of [resolveOptions]: the recorded errors are all joined. *)
Definition check_resolved (o : settings) : result (list fc_error) settings :=
  match se_OptionErrs o with
  | _ :: _ => Err (se_OptionErrs o)
  | [] =>
      if String.eqb (se_ProfileMatch o) "" then Ok o
      else match Compile (se_ProfileMatch o) with
           | Err _ => Err [ErrFastConf ("WithProfile.Match: " +:+ se_ProfileMatch o)]
           | Ok _ => Ok o
           end
  end.

(** [resolveOptions]: [opts] may hold nil options. *)
Definition resolveOptions (base : Logger) (noop : Tracer) (opts : list (option Option)) : result (list fc_error) settings :=
  let o := foldl (λ o fn, match fn with Some fn => fn o | None => o end) (defaultOptions base noop) opts in
  let o := if Z.eqb (se_ObserverTimeout o) 0 then upd_ObserverTimeout (λ _, DefaultObserverTimeout) o else o in
  check_resolved o.

Definition checkTypedOptions (want : Typ) (o : settings) : fres unit :=
  match find (λ got, negb (bool_decide (got = want))) (se_RegisteredTargetTypes o) with
  | Some _ => Err (ErrFastConf "WithValidate/WithPolicy registered for another type")
  | None => Ok ()
  end.

(** [buildTypedHookPlan]: the defaults first, unless they are off; no hook, no plan. *)
Definition buildTypedHookPlan `{GoStd} (unicode_name : string → bool) (types : list gotype) (defaults : list TypedHook)
    (root : nat) (o : settings) : option TypedHookPlan :=
  let hooks := (if se_DefaultTypedHooksOff o then [] else defaults) ++ se_TypedHooks o in
  match hooks with
  | [] => None
  | _ => BuildTypedHookPlan unicode_name types hooks (se_YAMLBridge o) root
  end.

(** What the pipeline of a manager of values of type [want] reads of the options. *)
Definition pipeline_options (want : Typ) (o : settings) : options (denote want) := {|
  o_Dir := se_Dir o; o_FS := se_FS o; o_SkipDiscovery := se_SkipDiscovery o; o_ProfileNames := se_ProfileNames o;
  o_ProfileMatch := se_ProfileMatch o; o_ProfileEnv := se_ProfileEnv o; o_ProfileDefault := se_ProfileDefault o;
  o_Strict := se_Strict o; o_Providers := se_Providers o; o_Axes := se_Axes o;
  o_Validators := map (λ v x, v (existT want x)) (se_Validators o); o_Transforms := se_Transforms o;
  o_Provenance := se_Provenance o; o_HistoryCap := se_HistoryCap o; o_YAMLBridge := se_YAMLBridge o;
  o_UnknownFields := se_UnknownFields o;
  o_Policies := map (λ p, {| p_Name := ap_Name p; p_Evaluate x := ap_EvaluateAny p (existT want x) |}) (se_Policies o);
  o_SecretResolver := se_SecretResolver o; o_Generators := se_Generators o; o_TypedHooks := length (se_TypedHooks o);
  o_MergeKeys := se_MergeKeys o; o_Observers := length (se_Observers o); o_Tenant := se_Tenant o |}.

(** The checks of [newManager]. *)
Definition newManager_options (base : Logger) (noop : Tracer) (want : Typ) (opts : list (option Option)) :
    result (list fc_error) (settings * options (denote want)) :=
  o ← resolveOptions base noop opts;
  _ ← map_err (λ e, [e]) (checkTypedOptions want o);
  Ok (o, pipeline_options want o).

(** ** Calls *)

(** A call of an option function with its arguments. *)
Inductive Call :=
| CallDecodeFormat (f : Format)
| CallUnknownFields (mode : UnknownFields)
| CallDir (dir : string)
| CallFS (f : option FileSystem)
| CallStrictMerge (strict : bool)
| CallLogger (l : option Logger)
| CallWatch (w : Watch)
| CallAxes (axes : list Axis)
| CallTenant (id : string)
| CallRedactor (r : option Redactor)
| CallSecretPaths (patterns : list string)
| CallProvenance (level : Level)
| CallHistory (n : Z)
| CallProvider (ps : list (option providerEntry))
| CallGenerator (gs : list (option Generator))
| CallTypedHook (hs : list (option TypedHook))
| CallWithoutDefaultTypedHooks
| CallMergeKeys (keys : gmap string string)
| CallTransform (fns : list (option (gomap → result string gomap)))
| CallValidate (t : Typ) (fns : list (option (denote t → result string unit)))
| CallProfile (p : ProfileOption)
| CallPolicy (t : Typ) (ps : list (option (policy (denote t))))
| CallSecretResolver (r : option SecretResolver)
| CallObserver (os : list (option Observer))
| CallObserverTimeout (d : Z)
| CallTracer (t : option Tracer).

Definition option_of (c : Call) : Option :=
  match c with
  | CallDecodeFormat f => WithDecodeFormat f
  | CallUnknownFields mode => WithUnknownFields mode
  | CallDir dir => WithDir dir
  | CallFS f => WithFS f
  | CallStrictMerge strict => WithStrictMerge strict
  | CallLogger l => WithLogger l
  | CallWatch w => WithWatch w
  | CallAxes axes => WithAxes axes
  | CallTenant id => WithTenant id
  | CallRedactor r => WithRedactor r
  | CallSecretPaths ps => WithSecretPaths ps
  | CallProvenance level => WithProvenance level
  | CallHistory n => WithHistory n
  | CallProvider ps => WithProvider ps
  | CallGenerator gs => WithGenerator gs
  | CallTypedHook hs => WithTypedHook hs
  | CallWithoutDefaultTypedHooks => WithoutDefaultTypedHooks
  | CallMergeKeys keys => WithMergeKeys keys
  | CallTransform fns => WithTransform fns
  | CallValidate t fns => WithValidate t fns
  | CallProfile p => WithProfile p
  | CallPolicy t ps => WithPolicy t ps
  | CallSecretResolver r => WithSecretResolver r
  | CallObserver os => WithObserver os
  | CallObserverTimeout d => WithObserverTimeout d
  | CallTracer t => WithTracer t
  end.

(** The function that a call is of. *)
Definition function_of (c : Call) : nat :=
  match c with
  | CallDecodeFormat _ => 0 | CallUnknownFields _ => 1 | CallDir _ => 2 | CallFS _ => 3 | CallStrictMerge _ => 4
  | CallLogger _ => 5 | CallWatch _ => 6 | CallAxes _ => 7 | CallTenant _ => 8 | CallRedactor _ => 9
  | CallSecretPaths _ => 10 | CallProvenance _ => 11 | CallHistory _ => 12 | CallProvider _ => 13 | CallGenerator _ => 14
  | CallTypedHook _ => 15 | CallWithoutDefaultTypedHooks => 16 | CallMergeKeys _ => 17 | CallTransform _ => 18
  | CallValidate _ _ => 19 | CallProfile _ => 20 | CallPolicy _ _ => 21 | CallSecretResolver _ => 22
  | CallObserver _ => 23 | CallObserverTimeout _ => 24 | CallTracer _ => 25
  end.

Definition run_calls (o : settings) (cs : list Call) : settings := foldl (λ o c, option_of c o) o cs.

(** Settings that differ at most in the order in which errors and types were recorded. *)
Record same_settings (a b : settings) : Prop := {
  ss_errors : se_OptionErrs a ≡ₚ se_OptionErrs b;
  ss_types : se_RegisteredTargetTypes a ≡ₚ se_RegisteredTargetTypes b;
  ss_rest : upd_Types (λ _, []) (upd_OptionErrs (λ _, []) a) = upd_Types (λ _, []) (upd_OptionErrs (λ _, []) b);
}.

#[export] Instance same_settings_equiv : Equivalence same_settings.
Proof.
  split.
  - by intros a.
  - intros a b [H1 H2 H3]. by split.
  - intros a b c [H1 H2 H3] [H4 H5 H6]. split; [by rewrite H1|by rewrite H2|congruence].
Qed.

(** ** Closed forms of the loops *)

(** What the loops use of the assignment to a list field. *)
Record field_update {B : Type} (upd : (list B → list B) → settings → settings) : Prop := {
  fu_id f o : (∀ l, f l = l) → upd f o = o;
  fu_comp f g h o : (∀ l, f (g l) = h l) → upd f (upd g o) = upd h o;
}.

Local Ltac update_laws :=
  split; [intros f [] Hf; cbv; by rewrite Hf|intros f g h [] Hf; cbv; by rewrite Hf].

Lemma upd_Providers_laws : field_update upd_Providers.
Proof. update_laws. Qed.
Lemma upd_Generators_laws : field_update upd_Generators.
Proof. update_laws. Qed.
Lemma upd_TypedHooks_laws : field_update upd_TypedHooks.
Proof. update_laws. Qed.
Lemma upd_Transforms_laws : field_update upd_Transforms.
Proof. update_laws. Qed.
Lemma upd_Observers_laws : field_update upd_Observers.
Proof. update_laws. Qed.
Lemma upd_Validators_laws : field_update upd_Validators.
Proof. update_laws. Qed.
Lemma upd_Policies_laws : field_update upd_Policies.
Proof. update_laws. Qed.
Lemma upd_Types_laws : field_update upd_Types.
Proof. update_laws. Qed.
Lemma upd_OptionErrs_laws : field_update upd_OptionErrs.
Proof. update_laws. Qed.

Lemma append_loop {A B} (upd : (list B → list B) → settings → settings) (f : A → B) (l : list (option A)) o :
  field_update upd →
  foldl (λ o a, match a with Some a => upd (λ l, l ++ [f a]) o | None => o end) o l = upd (λ bs, bs ++ (f <$> non_nil l)) o.
Proof.
  intros Hupd. revert o. induction l as [|[a|] l IH]; intros o; cbn [foldl].
  - rewrite fu_id; [done|done|]. intros bs. apply app_nil_r.
  - rewrite IH. apply fu_comp; [done|]. intros bs. by rewrite <-app_assoc.
  - by rewrite IH.
Qed.

(** The loops of [WithValidate] and [WithPolicy], which record a type per entry. *)
Lemma typed_loop {A B} (upd : (list B → list B) → settings → settings) (f : A → B) t (l : list (option A)) o :
  field_update upd → (∀ f g o, upd f (upd_Types g o) = upd_Types g (upd f o)) →
  foldl (λ o a, match a with Some a => upd (λ l, l ++ [f a]) (upd_Types (λ l, l ++ [t]) o) | None => o end) o l
  = upd (λ bs, bs ++ (f <$> non_nil l)) (upd_Types (λ ts, ts ++ ((λ _, t) <$> non_nil l)) o).
Proof.
  intros Hupd Hswap. revert o. induction l as [|[a|] l IH]; intros o; cbn [foldl].
  - rewrite !fu_id; [done|apply upd_Types_laws|..]; [| done|]; intros bs; apply app_nil_r.
  - rewrite IH, <-Hswap. rewrite (fu_comp _ upd_Types_laws _ _ (λ ts, ts ++ ((λ _, t) <$> non_nil (Some a :: l)))).
    + apply fu_comp; [done|]. intros bs. by rewrite <-app_assoc.
    + intros ts. by rewrite <-app_assoc.
  - by rewrite IH.
Qed.

(** The errors that [required] records. *)
Fixpoint nil_errors {A} (what : string) (i : nat) (l : list (option A)) : list fc_error :=
  match l with
  | [] => []
  | None :: l => ErrFastConf (what +:+ itoa i) :: nil_errors what (S i) l
  | Some _ :: l => nil_errors what (S i) l
  end.

Lemma required_eq {A} what (upd : (list A → list A) → settings → settings) i (l : list (option A)) o :
  field_update upd → (∀ f g o, upd f (upd_OptionErrs g o) = upd_OptionErrs g (upd f o)) →
  required what (λ a, upd (λ l, l ++ [a])) i l o
  = upd (λ bs, bs ++ non_nil l) (upd_OptionErrs (λ es, es ++ nil_errors what i l) o).
Proof.
  intros Hupd Hswap. revert i o. induction l as [|[a|] l IH]; intros i o; cbn [required nil_errors].
  - rewrite !fu_id; [done|apply upd_OptionErrs_laws|..]; [|done|]; intros bs; apply app_nil_r.
  - rewrite IH, <-Hswap. apply fu_comp; [done|]. intros bs. by rewrite <-app_assoc.
  - rewrite IH. unfold fail. f_equal. apply fu_comp; [apply upd_OptionErrs_laws|]. intros es. by rewrite <-app_assoc.
Qed.

(** ** Calls of different functions commute *)

(** A call as assignments to the fields of its function, and the errors and types it records. *)
Definition assigned (c : Call) : settings → settings :=
  match c with
  | CallProvider ps => upd_Providers (λ l, l ++ (id <$> non_nil ps))
  | CallGenerator gs => upd_Generators (λ l, l ++ (id <$> non_nil gs))
  | CallTypedHook hs => upd_TypedHooks (λ l, l ++ (id <$> non_nil hs))
  | CallTransform fns => λ o, upd_Transforms (λ l, l ++ non_nil fns)
      (upd_OptionErrs (λ es, es ++ nil_errors "WithTransform: nil function at #" 0 fns) o)
  | CallObserver os => λ o, upd_Observers (λ l, l ++ non_nil os)
      (upd_OptionErrs (λ es, es ++ nil_errors "WithObserver: nil observer at #" 0 os) o)
  | CallValidate t fns => λ o, upd_Validators (λ l, l ++ (adaptValidator t <$> non_nil fns))
      (upd_Types (λ ts, ts ++ ((λ _, t) <$> non_nil fns)) o)
  | CallPolicy t ps => λ o, upd_Policies (λ l, l ++ (adaptPolicy t <$> non_nil ps))
      (upd_Types (λ ts, ts ++ ((λ _, t) <$> non_nil ps)) o)
  | c => option_of c
  end.

Lemma option_of_assigned c o : option_of c o = assigned c o.
Proof.
  destruct c; try done; cbn [option_of assigned].
  - apply (append_loop _ id), upd_Providers_laws.
  - apply (append_loop _ id), upd_Generators_laws.
  - apply (append_loop _ id), upd_TypedHooks_laws.
  - apply required_eq; [apply upd_Transforms_laws|done].
  - apply typed_loop; [apply upd_Validators_laws|done].
  - apply typed_loop; [apply upd_Policies_laws|done].
  - apply required_eq; [apply upd_Observers_laws|done].
Qed.

Local Ltac appended :=
  first [reflexivity | rewrite <-!app_assoc; apply Permutation_app_head, Permutation_app_comm].

Local Ltac unfold_calls :=
  cbv [assigned option_of WithDecodeFormat WithUnknownFields WithDir WithFS WithStrictMerge WithLogger WithWatch
       WithTenant WithRedactor WithSecretPaths WithProvenance WithHistory WithoutDefaultTypedHooks WithMergeKeys WithProfile
       WithSecretResolver WithObserverTimeout WithTracer fail];
  repeat match goal with
  | |- context [match ?f with YAML => _ | _ => _ end] => destruct f
  | |- context [match ?f with Some _ => _ | None => _ end] => destruct f
  | |- context [if (?n <? 0)%Z then _ else _] => destruct (n <? 0)%Z
  end.

Local Ltac reduce_updates :=
  cbv beta iota delta [
       upd_Dir upd_FS upd_SkipDiscovery upd_ProfileNames upd_ProfileMatch upd_ProfileEnv upd_ProfileDefault
       upd_Strict upd_Logger upd_Providers upd_FileWatch upd_Windows upd_WatchPaths upd_Axes upd_Types upd_Validators
       upd_Transforms upd_Provenance upd_HistoryCap upd_Redactor upd_SecretPaths upd_YAMLBridge upd_UnknownFields
       upd_Tracer upd_Policies upd_OptionErrs upd_Resolver upd_Generators upd_TypedHooks upd_DefaultHooksOff
       upd_MergeKeys upd_Observers upd_ObserverTimeout upd_Tenant se_Dir se_FS se_SkipDiscovery se_ProfileNames
       se_ProfileMatch se_ProfileEnv se_ProfileDefault se_Strict se_Logger se_Providers se_FileWatch
       se_CoalesceWindows se_WatchPaths se_Axes se_RegisteredTargetTypes se_Validators se_Transforms se_Provenance
       se_HistoryCap se_SecretRedactor se_SecretPaths se_YAMLBridge se_UnknownFields se_Tracer se_Policies
       se_OptionErrs se_SecretResolver se_Generators se_TypedHooks se_DefaultTypedHooksOff se_MergeKeys se_Observers
       se_ObserverTimeout se_Tenant se_Dir se_ProfileEnv se_FileWatch se_RegisteredTargetTypes se_SecretRedactor
       se_Tracer se_TypedHooks se_ObserverTimeout].

Local Ltac same_fields := split; reduce_updates; [appended|appended|reflexivity].

Lemma se_Axes_assigned c o : function_of c ≠ 7 → se_Axes (assigned c o) = se_Axes o.
Proof. intros Hne. destruct o. destruct c; try (by destruct Hne); unfold_calls; reflexivity. Qed.

Lemma axes_commute axes c o : function_of c ≠ 7 →
  same_settings (WithAxes axes (assigned c o)) (assigned c (WithAxes axes o)).
Proof.
  intros Hne. unfold WithAxes. rewrite se_Axes_assigned by done.
  destruct (MaxAxes <? _)%Z; destruct o; (destruct c; try (by destruct Hne)); unfold_calls; same_fields.
Qed.

Lemma calls_commute c1 c2 o : function_of c1 ≠ function_of c2 →
  same_settings (option_of c1 (option_of c2 o)) (option_of c2 (option_of c1 o)).
Proof.
  intros Hne. rewrite !option_of_assigned.
  destruct (decide (function_of c1 = 7)) as [H1|H1].
  { destruct c1; try discriminate H1. apply axes_commute. congruence. }
  destruct (decide (function_of c2 = 7)) as [H2|H2].
  { destruct c2; try discriminate H2. symmetry. by apply axes_commute. }
  destruct o. destruct c1, c2; try (by destruct Hne); try (by destruct H1); try (by destruct H2); clear; unfold_calls; same_fields.
Qed.

#[export] Instance option_of_proper c : Proper (same_settings ==> same_settings) (option_of c).
Proof.
  intros a b [H1 H2 H3]. rewrite !option_of_assigned. destruct a, b. revert H1 H2 H3. reduce_updates. intros H1 H2 H3.
  injection H3. intros. subst.
  destruct c; unfold_calls; cbv [WithAxes fail]; cbn [se_Axes];
    repeat match goal with |- context [if (?a <? ?b)%Z then _ else _] => destruct (a <? b)%Z end;
    (split; reduce_updates; [first [done|by f_equiv]|first [done|by f_equiv]|reflexivity]).
Qed.

#[export] Instance run_calls_proper : Proper (same_settings ==> (=) ==> same_settings) run_calls.
Proof.
  intros a b Hab cs ? <-. revert a b Hab. induction cs as [|c cs IH]; intros a b Hab; [done|].
  cbn [run_calls foldl]. apply IH. by rewrite Hab.
Qed.

Lemma run_calls_app o l1 l2 : run_calls o (l1 ++ l2) = run_calls (run_calls o l1) l2.
Proof. apply foldl_app. Qed.

(** A call moves over calls of other functions. *)
Lemma run_calls_move o c l : Forall (λ d, function_of d ≠ function_of c) l →
  same_settings (run_calls o (l ++ [c])) (run_calls (option_of c o) l).
Proof.
  revert o. induction l as [|d l IH]; intros o Hl; [done|]. inversion Hl as [|? ? Hd Hl']; subst.
  cbn [app run_calls foldl]. etrans; [by apply IH|]. apply run_calls_proper; [|done]. by apply calls_commute.
Qed.

(** The calls of one function, in order. *)
Definition calls_of (k : nat) (cs : list Call) : list Call := filter (λ c, function_of c = k) cs.

Lemma run_calls_order o cs cs' : (∀ k, calls_of k cs = calls_of k cs') → same_settings (run_calls o cs) (run_calls o cs').
Proof.
  revert o cs'. induction cs as [|c cs IH]; intros o cs' Hk.
  - destruct cs' as [|c' cs']; [done|]. specialize (Hk (function_of c')). unfold calls_of in Hk.
    rewrite filter_cons_True in Hk by done. done.
  - assert (∃ l1 l2, cs' = l1 ++ c :: l2 ∧ Forall (λ d, function_of d ≠ function_of c) l1) as (l1 & l2 & -> & Hl1).
    { specialize (Hk (function_of c)). unfold calls_of in Hk. rewrite filter_cons_True in Hk by done.
      clear -Hk. induction cs' as [|d cs' IH]; [done|]. destruct (decide (function_of d = function_of c)) as [He|He].
      - rewrite filter_cons_True in Hk by done. injection Hk as -> _. by exists [], cs'.
      - rewrite filter_cons_False in Hk by done. destruct (IH Hk) as (l1 & l2 & -> & Hl). exists (d :: l1), l2. split; [done|by constructor]. }
    replace (l1 ++ c :: l2) with ((l1 ++ [c]) ++ l2) by (by rewrite <-app_assoc).
    rewrite (run_calls_app o (l1 ++ [c])). etrans; [|apply run_calls_proper; [symmetry; by apply run_calls_move|done]].
    rewrite <-run_calls_app. cbn [run_calls foldl]. apply IH. intros k. specialize (Hk k). unfold calls_of in *.
    rewrite filter_app in Hk. rewrite filter_app. destruct (decide (function_of c = k)) as [<-|He].
    + assert (filter (λ d, function_of d = function_of c) l1 = []) as Hn.
      { clear -Hl1. induction Hl1; [done|]. by rewrite filter_cons_False. }
      rewrite Hn in *. rewrite !filter_cons_True in Hk by done. by injection Hk.
    + by rewrite !filter_cons_False in Hk by done.
Qed.

(** ** What resolved settings satisfy *)

Lemma as_type_same t (x : denote t) : as_type t (existT t x) = Some x.
Proof.
  unfold as_type. cbn. destruct (decide (t = t)) as [e|]; [|done]. f_equal.
  by rewrite (UIP_dec (λ a b, decide (a = b)) e eq_refl).
Qed.

Definition windows_ok (w : Coalesce.Options) : Prop := (0 < Coalesce.Quiet w ∧ 0 < Coalesce.MaxLag w ∧ 0 < Coalesce.SwapHint w)%Z.

(** Settings that the calls [cs] built. *)
Record settings_ok (cs : list Call) (o : settings) : Prop := {
  so_axes : (Z.of_nat (length (se_Axes o)) ≤ MaxAxes)%Z;
  so_history : (0 ≤ se_HistoryCap o)%Z;
  so_windows : windows_ok (se_CoalesceWindows o);
  so_names : Forall (λ n, n ≠ "") (se_ProfileNames o);
  so_validators : ∀ v, v ∈ se_Validators o → ∃ t fns f, CallValidate t fns ∈ cs ∧ Some f ∈ fns ∧ v = adaptValidator t f;
  so_policies : ∀ p, p ∈ se_Policies o → ∃ t ps q, CallPolicy t ps ∈ cs ∧ Some q ∈ ps ∧ p = adaptPolicy t q;
  so_types : ∀ t, (∃ fns f, CallValidate t fns ∈ cs ∧ Some f ∈ fns) ∨ (∃ ps q, CallPolicy t ps ∈ cs ∧ Some q ∈ ps) → t ∈ se_RegisteredTargetTypes o;
}.

Lemma watch_windows_ok w : windows_ok (watch_windows w).
Proof.
  unfold windows_ok, watch_windows. cbn [Coalesce.Quiet Coalesce.MaxLag Coalesce.SwapHint].
  destruct (Z.ltb_spec 0 (w_Quiet w)), (Z.ltb_spec 0 (w_MaxLag w)), (Z.ltb_spec 0 (w_SwapHint w)), (w_Profile w); cbn; unfold DefaultQuiet, DefaultMaxLag, DefaultSwapHint; lia.
Qed.

Lemma trimProfiles_ne dst vals : Forall (λ n, n ≠ "") dst → Forall (λ n, n ≠ "") (trimProfiles dst vals).
Proof.
  unfold trimProfiles. revert dst. induction vals as [|x vals IH]; intros dst Hd; [done|]. cbn [foldl]. apply IH.
  destruct (String.eqb_spec (TrimSpace x) ""); [done|]. apply Forall_app. split; [done|by apply Forall_singleton].
Qed.

Lemma elem_of_non_nil {A} (l : list (option A)) a : a ∈ non_nil l ↔ Some a ∈ l.
Proof. unfold non_nil. rewrite list_elem_of_omap. split; [|by exists (Some a)]. intros (x & Hx & E). unfold id in E. by subst x. Qed.

Local Ltac split_calls :=
  repeat match goal with
  | |- context [match ?f with YAML => _ | _ => _ end] => destruct f
  | |- context [match ?f with Some _ => _ | None => _ end] => destruct f
  end.

(** A call keeps what it does not assign. *)
Lemma other_fields c o :
  (function_of c ≠ 7 → se_Axes (assigned c o) = se_Axes o) ∧
  (function_of c ≠ 12 → se_HistoryCap (assigned c o) = se_HistoryCap o) ∧
  (function_of c ≠ 6 → se_CoalesceWindows (assigned c o) = se_CoalesceWindows o) ∧
  (function_of c ≠ 20 → se_ProfileNames (assigned c o) = se_ProfileNames o) ∧
  (function_of c ≠ 19 → se_Validators (assigned c o) = se_Validators o) ∧
  (function_of c ≠ 21 → se_Policies (assigned c o) = se_Policies o) ∧
  (∀ t, t ∈ se_RegisteredTargetTypes o → t ∈ se_RegisteredTargetTypes (assigned c o)).
Proof.
  assert (∀ (l l' : list Typ) t, t ∈ l → t ∈ l ++ l') as Happ by (intros; apply elem_of_app; by left).
  destruct o. destruct c; cbv [assigned option_of WithAxes WithHistory]; reduce_updates; unfold_calls;
    repeat match goal with |- context [if ?b then _ else _] => destruct b end; reduce_updates; repeat split; auto; by intros [].
Qed.

Lemma call_ok cs c o : settings_ok cs o → settings_ok (cs ++ [c]) (option_of c o).
Proof.
  intros [H1 H2 H3 H4 H5 H6 H7]. rewrite option_of_assigned.
  destruct (other_fields c o) as (E1 & E2 & E3 & E4 & E5 & E6 & E7). split.
  - destruct (decide (function_of c = 7)) as [E|E]; [|by rewrite E1]. destruct c; try discriminate E. cbn [assigned option_of]. unfold WithAxes.
    destruct (Z.ltb_spec MaxAxes (Z.of_nat (length (se_Axes o) + length axes))); [by destruct o|].
    change (se_Axes (upd_Axes (λ a, a ++ axes) o)) with (se_Axes o ++ axes). rewrite length_app. unfold Axis in *. lia.
  - destruct (decide (function_of c = 12)) as [E|E]; [|by rewrite E2]. destruct c; try discriminate E. cbn [assigned option_of]. unfold WithHistory.
    destruct (Z.ltb_spec n 0); by destruct o.
  - destruct (decide (function_of c = 6)) as [E|E]; [|by rewrite E3]. destruct c; try discriminate E. destruct o. apply watch_windows_ok.
  - destruct (decide (function_of c = 20)) as [E|E]; [|by rewrite E4]. destruct c; try discriminate E. destruct o. by apply trimProfiles_ne.
  - intros v Hv. destruct (decide (function_of c = 19)) as [E|E].
    + destruct c as [| | | | | | | | | | | | | | | | | | |t fns| | | | | |]; try discriminate E. destruct o. cbn in Hv. apply elem_of_app in Hv as [Hv|Hv].
      * destruct (H5 v Hv) as (t' & fns' & f & Hc & Hf & ->). exists t', fns', f. split; [apply elem_of_app; by left|done].
      * apply list_elem_of_fmap in Hv as (f & -> & Hf%elem_of_non_nil). exists t, fns, f. split; [apply elem_of_app; right; by left|done].
    + rewrite E5 in Hv by done. destruct (H5 v Hv) as (t' & fns' & f & Hc & Hf & ->). exists t', fns', f. split; [apply elem_of_app; by left|done].
  - intros p Hp. destruct (decide (function_of c = 21)) as [E|E].
    + destruct c as [| | | | | | | | | | | | | | | | | | | | |t ps| | | |]; try discriminate E. destruct o. cbn in Hp. apply elem_of_app in Hp as [Hp|Hp].
      * destruct (H6 p Hp) as (t' & ps' & q & Hc & Hq & ->). exists t', ps', q. split; [apply elem_of_app; by left|done].
      * apply list_elem_of_fmap in Hp as (q & -> & Hq%elem_of_non_nil). exists t, ps, q. split; [apply elem_of_app; right; by left|done].
    + rewrite E6 in Hp by done. destruct (H6 p Hp) as (t' & ps' & q & Hc & Hq & ->). exists t', ps', q. split; [apply elem_of_app; by left|done].
  - intros t Ht. assert (t ∈ se_RegisteredTargetTypes o ∨ (∃ fns f, c = CallValidate t fns ∧ Some f ∈ fns) ∨ (∃ ps q, c = CallPolicy t ps ∧ Some q ∈ ps)) as [Hin|[(fns & f & -> & Hf)|(ps & q & -> & Hq)]].
    { destruct Ht as [(fns & f & [Hc|Hc%list_elem_of_singleton]%elem_of_app & Hf)|(ps & q & [Hc|Hc%list_elem_of_singleton]%elem_of_app & Hq)]; eauto 10. }
    + by apply E7.
    + destruct o. cbn. apply elem_of_app. right. apply list_elem_of_fmap. exists f. split; [done|by apply elem_of_non_nil].
    + destruct o. cbn. apply elem_of_app. right. apply list_elem_of_fmap. exists q. split; [done|by apply elem_of_non_nil].
Qed.

Lemma run_calls_ok base noop cs : settings_ok cs (run_calls (defaultOptions base noop) cs).
Proof.
  induction cs as [|c cs IH] using rev_ind.
  - split; try done; try (by intros ? ?%not_elem_of_nil); intros t [(? & ? & []%not_elem_of_nil & _)|(? & ? & []%not_elem_of_nil & _)].
  - unfold run_calls in *. rewrite foldl_app. by apply call_ok.
Qed.

Lemma find_none {A} (p : A → bool) l : find p l = None ↔ ∀ x, x ∈ l → p x = false.
Proof.
  split; [apply find_none_elem|]. induction l as [|y l IH]; intros Hl; [done|]. cbn [find]. rewrite Hl by left.
  apply IH. intros x Hx. apply Hl. by right.
Qed.

Lemma foldl_options (cs : list (option Call)) o :
  foldl (λ o fn, match fn with Some fn => fn o | None => o end) o (map (option_map option_of) cs) = run_calls o (non_nil cs).
Proof. revert o. induction cs as [|[c|] cs IH]; intros o; [done|apply IH|apply IH]. Qed.

Lemma resolveOptions_Ok base noop (cs : list (option Call)) o : resolveOptions base noop (map (option_map option_of) cs) = Ok o →
  let r := run_calls (defaultOptions base noop) (non_nil cs) in
  se_OptionErrs r = [] ∧ (se_ProfileMatch o = "" ∨ is_Some (match Compile (se_ProfileMatch o) with Ok e => Some e | _ => None end))
  ∧ o = if Z.eqb (se_ObserverTimeout r) 0 then upd_ObserverTimeout (λ _, DefaultObserverTimeout) r else r.
Proof.
  unfold resolveOptions, check_resolved. rewrite foldl_options. cbn zeta. set (r := run_calls _ _). set (r' := if Z.eqb _ 0 then _ else r).
  assert (se_OptionErrs r' = se_OptionErrs r) as -> by (unfold r'; destruct (Z.eqb _ 0); [by destruct r|done]).
  destruct (se_OptionErrs r); [|done]. intros Hr. split; [done|].
  destruct (String.eqb_spec (se_ProfileMatch r') "") as [E|E]; [injection Hr as <-; auto|].
  destruct (Compile (se_ProfileMatch r')) as [e|] eqn:Hc; [|done]. injection Hr as <-. split; [|done]. right. rewrite Hc. by eexists.
Qed.

Lemma same_timeout a b : same_settings a b →
  same_settings (if Z.eqb (se_ObserverTimeout a) 0 then upd_ObserverTimeout (λ _, DefaultObserverTimeout) a else a)
                (if Z.eqb (se_ObserverTimeout b) 0 then upd_ObserverTimeout (λ _, DefaultObserverTimeout) b else b).
Proof.
  intros Hab. assert (se_ObserverTimeout a = se_ObserverTimeout b) as -> by (pose proof (f_equal se_ObserverTimeout (ss_rest _ _ Hab)) as E; by destruct a, b).
  destruct (Z.eqb _ 0); [|done]. exact (option_of_proper (CallObserverTimeout DefaultObserverTimeout) _ _ Hab).
Qed.

Lemma same_checks a b : same_settings a b →
  match check_resolved a, check_resolved b with Ok o, Ok o' => same_settings o o' | Err es, Err es' => es ≡ₚ es' | _, _ => False end.
Proof.
  intros Hab. unfold check_resolved. pose proof (ss_errors _ _ Hab) as He.
  assert (se_ProfileMatch a = se_ProfileMatch b) as -> by (pose proof (f_equal se_ProfileMatch (ss_rest _ _ Hab)) as E; by destruct a, b).
  destruct (se_OptionErrs a) as [|e es].
  - apply Permutation_nil_l in He as <-. destruct (String.eqb _ _); [done|]. by destruct (Compile _).
  - destruct (se_OptionErrs b); [by apply Permutation_nil_r in He|done].
Qed.

Lemma resolve_timeout_ok cs o o' : settings_ok cs o →
  o' = (if Z.eqb (se_ObserverTimeout o) 0 then upd_ObserverTimeout (λ _, DefaultObserverTimeout) o else o) →
  settings_ok cs o' ∧ se_ObserverTimeout o' ≠ 0%Z.
Proof.
  intros Hok ->. destruct (Z.eqb_spec (se_ObserverTimeout o) 0) as [E|E]; [|done].
  destruct Hok as [H1 H2 H3 H4 H5 H6 H7]. destruct o. by split.
Qed.
End settings.

(** ** Properties *)

(** C31: whatever options are given, in whatever order, a manager that is built from
    them has settings within their bounds: the axes fit in their band, the
    history has a capacity, the windows of the file watch and the observer
    timeout are positive or set, no profile name is empty, and a profile
    expression compiles.  Its validators and policies are exactly functions that
    were given for the type the manager decodes, so that none of them can meet a
    value of another type. *)
Theorem resolved_options_ok {Typ} `{EqDecision Typ} (denote : Typ → Type) {Logger Tracer Observer : Type} (base : Logger) (noop : Tracer)
    (want : Typ) (opts : list (option (@Call Typ denote Logger Tracer Observer))) (o : settings denote) (po : options (denote want))
    (Hnew : newManager_options denote base noop want (map (option_map (option_of denote)) opts) = Ok (o, po)) :
  (Z.of_nat (length (o_Axes po)) ≤ MaxAxes)%Z ∧ (0 ≤ o_HistoryCap po)%Z ∧ windows_ok (se_CoalesceWindows denote o)
  ∧ se_ObserverTimeout denote o ≠ 0%Z ∧ Forall (λ n, n ≠ "") (o_ProfileNames po)
  ∧ (o_ProfileMatch po = "" ∨ ∃ e, Compile (o_ProfileMatch po) = Ok e)
  ∧ (∀ v, v ∈ o_Validators po → ∃ fns f, Some (CallValidate denote want fns) ∈ opts ∧ Some f ∈ fns ∧ ∀ x, v x = f x)
  ∧ (∀ p, p ∈ o_Policies po → ∃ ps q, Some (CallPolicy denote want ps) ∈ opts ∧ Some q ∈ ps ∧ p_Name p = p_Name q
       ∧ ∀ x reason tenant, p_Evaluate p x reason tenant = p_Evaluate q x reason tenant).
Proof.
  unfold newManager_options in Hnew. apply bind_Ok in Hnew as (o' & Hr & Hnew). apply bind_Ok in Hnew as ([] & Ht & [= -> <-]).
  destruct (resolveOptions_Ok _ _ _ _ _ Hr) as (_ & Hm & Ho).
  destruct (resolve_timeout_ok _ _ _ _ (run_calls_ok denote base noop (non_nil opts)) Ho) as [[H1 H2 H3 H4 H5 H6 H7] Htime].
  assert (∀ t, t ∈ se_RegisteredTargetTypes denote o → t = want) as Hwant.
  { unfold checkTypedOptions in Ht. destruct (find _ _) eqn:Hf; [done|]. intros t Hin. pose proof (proj1 (find_none _ _) Hf t Hin) as E.
    apply negb_false_iff in E. by case_bool_decide. }
  split; [done|]. split; [done|]. split; [done|]. split; [done|]. split; [done|]. split; [|split].
  - destruct Hm as [Hm|[e Hm]]; [by left|right]. cbn. destruct (Compile _) as [e'|]; [by exists e'|done].
  - intros v (f & -> & Hf)%list_elem_of_fmap. destruct (H5 f Hf) as (t & fns & g & Hc & Hg & ->).
    assert (t = want) as -> by (apply Hwant, H7; left; eauto). exists fns, g. split; [by apply elem_of_non_nil|]. split; [done|].
    intros x. unfold adaptValidator. by rewrite as_type_same.
  - intros p (q & -> & Hq)%list_elem_of_fmap. destruct (H6 q Hq) as (t & ps & g & Hc & Hg & ->).
    assert (t = want) as -> by (apply Hwant, H7; right; eauto). exists ps, g. split; [by apply elem_of_non_nil|]. split; [done|]. split; [done|].
    intros x reason tenant. cbn. by rewrite as_type_same.
Qed.

(** Only the order of the calls of one function matters.  When each option
    function is called with the same arguments in the same order, its calls can
    be interleaved with those of the others in any way: construction fails in
    both cases, with the same errors up to their order, or gives the same
    settings. *)
Theorem option_order_irrelevant {Typ} `{EqDecision Typ} (denote : Typ → Type) {Logger Tracer Observer : Type} (base : Logger) (noop : Tracer)
    (cs cs' : list (@Call Typ denote Logger Tracer Observer)) (Hcs : ∀ k, calls_of denote k cs = calls_of denote k cs') :
  match resolveOptions denote base noop (map Some (map (option_of denote) cs)), resolveOptions denote base noop (map Some (map (option_of denote) cs')) with
  | Ok o, Ok o' => same_settings denote o o'
  | Err es, Err es' => es ≡ₚ es'
  | _, _ => False
  end.
Proof.
  assert (∀ l : list (@Call Typ denote Logger Tracer Observer), map Some (map (option_of denote) l) = map (option_map (option_of denote)) (map Some l)) as Hl by (intros l; by rewrite !map_map).
  assert (∀ l : list (@Call Typ denote Logger Tracer Observer), non_nil (map Some l) = l) as Hn.
  { induction l as [|c l IH]; [done|]. cbn. f_equal. exact IH. }
  unfold resolveOptions. rewrite !Hl, !foldl_options, !Hn. cbn zeta. by apply same_checks, same_timeout, run_calls_order.
Qed.

(** ** Examples *)

Definition one_type (t : unit) : Type := string.

Definition example_calls : list (@Call unit one_type nat nat nat) :=
  [CallDir one_type "etc"; CallValidate one_type () [None; Some (λ s, if String.eqb s "" then Err "empty" else Ok ())];
   CallWatch one_type {| w_Paths := ["a"]; w_Quiet := 7; w_MaxLag := 0; w_SwapHint := -1; w_Profile := ProfileLocalDev |};
   CallDir one_type "conf"; CallHistory one_type 3].

Lemma resolved_options_ok_witness :
  ∃ o po, newManager_options one_type 0 0 () (map (option_map (option_of one_type)) (map Some example_calls)) = Ok (o, po)
  ∧ (se_Dir one_type o, se_CoalesceWindows one_type o, o_HistoryCap po)
    = ("conf", {| Quiet := 7; MaxLag := 500000000; SwapHint := 20000000 |}, 3%Z)
  ∧ windows_ok (se_CoalesceWindows one_type o).
Proof.
  destruct (newManager_options one_type 0 0 () (map (option_map (option_of one_type)) (map Some example_calls))) as [[o po]|] eqn:Hr; [|vm_compute in Hr; discriminate Hr].
  exists o, po. split; [reflexivity|]. split; [vm_compute in Hr; injection Hr as <- <-; vm_compute; reflexivity|].
  exact (proj1 (proj2 (proj2 (resolved_options_ok one_type 0 0 () (map Some example_calls) o po Hr)))).
Defined.

Lemma option_order_irrelevant_witness :
  let cs := [CallDir one_type "a"; CallLogger one_type (@None nat); CallHistory one_type (-1); CallDir one_type "b"] in
  let cs' := [CallHistory one_type (-1); CallDir one_type "a"; CallDir one_type "b"; CallLogger one_type (@None nat)] in
  (∀ k, calls_of one_type k cs = calls_of one_type k cs') ∧
  match resolveOptions one_type 0 0 (map Some (map (option_of one_type) cs)), resolveOptions one_type 0 0 (map Some (map (option_of one_type) cs')) with
  | Ok o, Ok o' => same_settings (Observer := nat) one_type o o'
  | Err es, Err es' => es ≡ₚ es'
  | _, _ => False
  end.
Proof.
  intros cs cs'. assert (∀ k, calls_of one_type k cs = calls_of one_type k cs') as Hk.
  { intros k. do 13 (destruct k as [|k]; [reflexivity|]). reflexivity. }
  split; [exact Hk|]. exact (option_order_irrelevant one_type 0 0 cs cs' Hk).
Defined.
