(* ===== verification/LogHandler.v ===== *)
(** * Log handlers (integrations/log: internal/fclog/fclog.go, phuslu, zerolog)

    The half of the log adapters that does not depend on the logger: levels,
    groups and the flattening of attributes into the fields of a record. *)
From S2P Require Import Prelude GoStrings.
Open Scope nat_scope.

(** ** Levels *)

(** [Level] *)
Inductive Level := TraceLevel | DebugLevel | InfoLevel | WarnLevel | ErrorLevel.

Definition slog_Debug : Z := -4.
Definition slog_Info : Z := 0.
Definition slog_Warn : Z := 4.
Definition slog_Error : Z := 8.

Definition LevelOf (l : Z) : Level :=
  if (slog_Error <=? l)%Z then ErrorLevel
  else if (slog_Warn <=? l)%Z then WarnLevel
  else if (slog_Info <=? l)%Z then InfoLevel
  else if (slog_Debug <=? l)%Z then DebugLevel
  else TraceLevel.

(** The backend's levels in their order, as [plevel] and [zlevel] map them. *)
Definition level_rank (l : Level) : Z :=
  match l with TraceLevel => -1 | DebugLevel => 0 | InfoLevel => 1 | WarnLevel => 2 | ErrorLevel => 3 end.

(** ** Attributes *)

(** A [slog.Value]; [LNil] is the zero value, [LValuer v] a [LogValuer] whose
    [LogValue] is [v]. *)
Inductive lvalue :=
| LNil
| LString (s : string)
| LInt64 (n : Z)
| LUint64 (n : Z)
| LFloat64 (bits : Z)
| LBool (b : bool)
| LDuration (d : Z)
| LTime (t : Z)
| LGroup (attrs : list (string * lvalue))
| LValuer (v : lvalue)
| LError (e : string)
| LAny (id : nat).

Definition attr : Type := string * lvalue.

(** [Value.Resolve], which gives up after a hundred [LogValuer]s. *)
Definition maxLogValues : nat := 100.
Definition too_many : string := "LogValue called too many times".

(** [a.Equal(slog.Attr{})] *)
Definition empty_attr (a : attr) : bool := match a with ("", LNil) => true | _ => false end.

(** A call of a method of [Event]. *)
Inductive event_call :=
| EvStr (key val : string)
| EvInt64 (key : string) (n : Z)
| EvUint64 (key : string) (n : Z)
| EvFloat64 (key : string) (bits : Z)
| EvBool (key : string) (b : bool)
| EvDur (key : string) (d : Z)
| EvTime (key : string) (t : Z)
| EvErr (key e : string)
| EvAny (key : string) (id : option nat)
| EvMsg (msg : string).

(** The field of a value that is resolved and no group. *)
Definition leaf_call (key : string) (v : lvalue) : event_call :=
  match v with
  | LString s => EvStr key s
  | LInt64 n => EvInt64 key n
  | LUint64 n => EvUint64 key n
  | LFloat64 f => EvFloat64 key f
  | LBool b => EvBool key b
  | LDuration d => EvDur key d
  | LTime t => EvTime key t
  | LError e => EvErr key e
  | LAny id => EvAny key (Some id)
  | LNil | LGroup _ | LValuer _ => EvAny key None
  end.

(** [appendAttr], [n] being the [LogValuer]s that [Resolve] may still follow. *)
Fixpoint append_value (n : nat) (sep prefix k : string) (v : lvalue) : list event_call :=
  match v with
  | LNil => if String.eqb k "" && (n =? maxLogValues) then [] else [leaf_call (prefix +:+ k) v]
  | LValuer w => match n with 0 | 1 => [leaf_call (prefix +:+ k) (LError too_many)] | S n => append_value n sep prefix k w end
  | LGroup attrs =>
      let inner := if String.eqb k "" then prefix else prefix +:+ k +:+ sep in
      flat_map (λ a, append_value maxLogValues sep inner a.1 a.2) attrs
  | _ => [leaf_call (prefix +:+ k) v]
  end.

Definition appendAttr (prefix : string) (a : attr) (sep : string) : list event_call :=
  append_value maxLogValues sep prefix a.1 a.2.

(** ** The handler *)

(** [Options]; [Level] is the gate of an optional [slog.Leveler]. *)
Record Options := { ho_Level : option Z; ho_AddSource : bool; ho_GroupSeparator : string }.

(** [Backend]: the levels that it admits, and those it starts a record for. *)
Record Backend := { be_Enabled : Level → bool; be_Event : Level → bool }.

Record boundAttr := { ba_prefix : string; ba_attr : attr }.

Record handler := { h_b : Backend; h_opts : Options; h_attrs : list boundAttr; h_groupPrefix : string }.

(** [NewHandler]; [None] is the handler that discards everything. *)
Definition NewHandler (b : option Backend) (opts : Options) : option handler :=
  match b with
  | None => None
  | Some b =>
      let sep := if String.eqb (ho_GroupSeparator opts) "" then "." else ho_GroupSeparator opts in
      Some {| h_b := b; h_opts := {| ho_Level := ho_Level opts; ho_AddSource := ho_AddSource opts; ho_GroupSeparator := sep |};
              h_attrs := []; h_groupPrefix := "" |}
  end.

Definition Enabled (h : handler) (lvl : Z) : bool :=
  if match ho_Level (h_opts h) with Some gate => (lvl <? gate)%Z | None => false end then false
  else be_Enabled (h_b h) (LevelOf lvl).

(** A [slog.Record]; the source of its program counter, if it has one. *)
Record record := { r_Level : Z; r_source : option string; r_Time : option Z; r_attrs : list attr; r_Message : string }.

Definition Handle (h : handler) (r : record) : list event_call :=
  if negb (be_Event (h_b h) (LevelOf (r_Level r))) then []
  else
    let sep := ho_GroupSeparator (h_opts h) in
    (if ho_AddSource (h_opts h) then match r_source r with Some s => [EvStr "source" s] | None => [] end else [])
    ++ match r_Time r with Some t => [EvTime "time" t] | None => [] end
    ++ flat_map (λ b, appendAttr (ba_prefix b) (ba_attr b) sep) (h_attrs h)
    ++ flat_map (λ a, appendAttr (h_groupPrefix h) a sep) (r_attrs r)
    ++ [EvMsg (r_Message r)].

Definition WithAttrs (h : handler) (as_ : list attr) : handler :=
  match as_ with
  | [] => h
  | _ => {| h_b := h_b h; h_opts := h_opts h;
            h_attrs := h_attrs h ++ map (λ a, {| ba_prefix := h_groupPrefix h; ba_attr := a |}) as_; h_groupPrefix := h_groupPrefix h |}
  end.

Definition WithGroup (h : handler) (name : string) : handler :=
  if String.eqb name "" then h
  else {| h_b := h_b h; h_opts := h_opts h; h_attrs := h_attrs h; h_groupPrefix := h_groupPrefix h +:+ name +:+ ho_GroupSeparator (h_opts h) |}.

(** The [Enabled] of both adapters: [plevel(lvl) >= l.Level]. *)
Definition adapter_Enabled (min : Z) (lvl : Level) : bool := (min <=? level_rank lvl)%Z.

(** ** Reference semantics *)

(** A step of deriving a logger. *)
Inductive derivation := DAttrs (as_ : list attr) | DGroup (name : string).

Definition derive (h : handler) (ds : list derivation) : handler :=
  foldl (λ h d, match d with DAttrs as_ => WithAttrs h as_ | DGroup name => WithGroup h name end) h ds.

(** The attributes of the record that a derived logger stands for: a group
    holds everything that comes after it. *)
Fixpoint nest (ds : list derivation) (attrs : list attr) : list attr :=
  match ds with
  | [] => attrs
  | DAttrs as_ :: ds => as_ ++ nest ds attrs
  | DGroup name :: ds => if String.eqb name "" then nest ds attrs else [(name, LGroup (nest ds attrs))]
  end.

(** The leaves of a value: the groups around each, its key and its resolved value. *)
Fixpoint leaves (n : nat) (path : list string) (k : string) (v : lvalue) : list (list string * lvalue) :=
  match v with
  | LNil => if String.eqb k "" && (n =? maxLogValues) then [] else [(path ++ [k], v)]
  | LValuer w => match n with 0 | 1 => [(path ++ [k], LError too_many)] | S n => leaves n path k w end
  | LGroup attrs => flat_map (λ a, leaves maxLogValues (if String.eqb k "" then path else path ++ [k]) a.1 a.2) attrs
  | _ => [(path ++ [k], v)]
  end.

Definition all_leaves (attrs : list attr) : list (list string * lvalue) := flat_map (λ a, leaves maxLogValues [] a.1 a.2) attrs.

(** ** Lemmas *)

Section lvalue_ind.
Variable P : lvalue → Prop.
Hypothesis HGroup : ∀ attrs, Forall (λ a, P a.2) attrs → P (LGroup attrs).
Hypothesis HValuer : ∀ v, P v → P (LValuer v).
Hypothesis HLeaf : ∀ v, (∀ attrs, v ≠ LGroup attrs) → (∀ w, v ≠ LValuer w) → P v.

Fixpoint lvalue_nested_ind (v : lvalue) : P v.
Proof using All.
  destruct v as [| | | | | | | |attrs|w| |]; try solve [apply HLeaf; intros ? [=]].
  - apply HGroup. induction attrs as [|[k x] attrs IH]; constructor; [apply lvalue_nested_ind|exact IH].
  - apply HValuer, lvalue_nested_ind.
Qed.
End lvalue_ind.

(** The prefix that the groups of a path leave. *)
Definition path_prefix (sep : string) (path : list string) : string := foldr (λ g s, g +:+ sep +:+ s) "" path.

Lemma path_prefix_app sep p q : path_prefix sep (p ++ q) = path_prefix sep p +:+ path_prefix sep q.
Proof. unfold path_prefix. induction p as [|g p IH]; [done|]. cbn [app foldr]. by rewrite IH, !app_str_assoc. Qed.

Lemma path_prefix_join sep path k : path_prefix sep path +:+ k = strings_Join (path ++ [k]) sep.
Proof.
  induction path as [|g path IH]; [done|]. cbn [path_prefix foldr app]. rewrite !app_str_assoc.
  rewrite Join_cons by (by destruct path). by rewrite <-IH.
Qed.

Definition field_call (sep : string) (f : list string * lvalue) : event_call := leaf_call (strings_Join f.1 sep) f.2.

Lemma append_value_leaves sep v : ∀ n path k,
  append_value n sep (path_prefix sep path) k v = map (field_call sep) (leaves n path k v).
Proof.
  induction v as [attrs IH|v IH|v Hg Hv] using lvalue_nested_ind; intros n path k.
  - cbn [append_value leaves]. rewrite flat_map_concat_map, flat_map_concat_map, concat_map, map_map. f_equal. apply map_ext_in.
    intros a Ha%list_elem_of_In. rewrite Forall_forall in IH. destruct (String.eqb k ""); [by apply IH|].
    rewrite <-(IH a Ha). f_equal. rewrite path_prefix_app. cbn. by rewrite app_str_nil_r.
  - cbn [append_value leaves]. destruct n as [|[|n]]; [| |by apply IH]; cbn [map]; unfold field_call; cbn [fst snd]; by rewrite <-path_prefix_join.
  - destruct v; try (by destruct (Hg attrs)); try (by destruct (Hv v)); cbn [append_value leaves];
      try (destruct (String.eqb k "" && (n =? maxLogValues))); cbn [map]; unfold field_call; cbn [fst snd]; by rewrite <-?path_prefix_join.
Qed.

Lemma appendAttr_group prefix name attrs sep : name ≠ "" →
  appendAttr prefix (name, LGroup attrs) sep = flat_map (λ a, appendAttr (prefix +:+ name +:+ sep) a sep) attrs.
Proof. intros Hn. unfold appendAttr. cbn [append_value fst snd]. by rewrite (proj2 (String.eqb_neq _ _) Hn). Qed.

(** What a handler writes between the time and the message. *)
Definition bound_calls (h : handler) : list event_call :=
  flat_map (λ b, appendAttr (ba_prefix b) (ba_attr b) (ho_GroupSeparator (h_opts h))) (h_attrs h).

Definition record_calls (h : handler) (attrs : list attr) : list event_call :=
  flat_map (λ a, appendAttr (h_groupPrefix h) a (ho_GroupSeparator (h_opts h))) attrs.

Lemma derive_keeps h ds : h_b (derive h ds) = h_b h ∧ h_opts (derive h ds) = h_opts h.
Proof.
  revert h. induction ds as [|d ds IH]; intros h; [done|]. cbn [derive foldl]. destruct (IH (match d with DAttrs as_ => WithAttrs h as_ | DGroup name => WithGroup h name end)) as [E1 E2].
  unfold derive in *. rewrite E1, E2. destruct d as [[]|name]; cbn; [done|done|]. unfold WithGroup. by destruct (String.eqb name "").
Qed.

Lemma derive_calls h ds attrs :
  bound_calls (derive h ds) ++ record_calls (derive h ds) attrs = bound_calls h ++ record_calls h (nest ds attrs).
Proof.
  revert h. induction ds as [|[as_|name] ds IH]; intros h; [done|..].
  - change (derive h (DAttrs as_ :: ds)) with (derive (WithAttrs h as_) ds). rewrite IH. cbn [nest].
    destruct as_ as [|a as_]; [done|]. cbn [WithAttrs]. unfold bound_calls, record_calls at 1. cbn [h_attrs h_opts h_groupPrefix].
    rewrite flat_map_app. unfold record_calls. rewrite flat_map_app, app_assoc. do 2 f_equal.
    rewrite !flat_map_concat_map, map_map. done.
  - change (derive h (DGroup name :: ds)) with (derive (WithGroup h name) ds). rewrite IH. cbn [nest]. unfold WithGroup.
    destruct (String.eqb_spec name "") as [->|Hn]; [done|]. unfold bound_calls at 1, record_calls at 1. cbn [h_attrs h_opts h_groupPrefix].
    f_equal. unfold record_calls. cbn [flat_map]. by rewrite app_nil_r, appendAttr_group.
Qed.

(** ** Properties *)

(** A derived logger writes what the record it stands for would write.  Through
    any number of [WithGroup] and [WithAttrs], the fields of a record are the
    leaves of its attributes, each once, in order, under the names of the groups
    that were open when the attribute was added, joined by the separator. *)
Theorem derived_logger_fields (b : Backend) (opts : Options) (h : handler) (ds : list derivation) (r : record)
    (Hh : NewHandler (Some b) opts = Some h) (Hevent : be_Event b (LevelOf (r_Level r)) = true) :
  let sep := if String.eqb (ho_GroupSeparator opts) "" then "." else ho_GroupSeparator opts in
  ∃ header, Handle (derive h ds) r = header ++ map (field_call sep) (all_leaves (nest ds (r_attrs r))) ++ [EvMsg (r_Message r)]
  ∧ header = (if ho_AddSource opts then match r_source r with Some s => [EvStr "source" s] | None => [] end else [])
             ++ match r_Time r with Some t => [EvTime "time" t] | None => [] end.
Proof.
  intros sep. injection Hh as <-. eexists. split; [|done].
  match goal with |- Handle (derive ?h0 ds) r = _ => set (h := h0) end. destruct (derive_keeps h ds) as [E1 E2].
  pose proof (derive_calls h ds (r_attrs r)) as Hc. unfold Handle. rewrite E1. cbn [h h_b]. rewrite Hevent. cbn [negb].
  unfold bound_calls, record_calls in Hc. rewrite E2 in *. cbn [h h_opts ho_AddSource ho_GroupSeparator h_attrs h_groupPrefix flat_map app] in *.
  rewrite <-!app_assoc. do 2 f_equal. rewrite app_assoc, Hc. f_equal. unfold all_leaves.
  rewrite !flat_map_concat_map, concat_map, map_map. f_equal. apply map_ext. intros a. exact (append_value_leaves sep a.2 maxLogValues [] a.1).
Qed.

(** A level that is enabled stays enabled for records of higher levels. *)
Lemma LevelOf_mono a b : (a ≤ b → level_rank (LevelOf a) ≤ level_rank (LevelOf b))%Z.
Proof.
  intros Hab. unfold LevelOf, slog_Error, slog_Warn, slog_Info, slog_Debug.
  destruct (Z.leb_spec 8 a), (Z.leb_spec 4 a), (Z.leb_spec 0 a), (Z.leb_spec (-4) a),
    (Z.leb_spec 8 b), (Z.leb_spec 4 b), (Z.leb_spec 0 b), (Z.leb_spec (-4) b); cbn; lia.
Qed.

Lemma enabled_upward h min a b : be_Enabled (h_b h) = adapter_Enabled min → (a ≤ b)%Z → Enabled h a = true → Enabled h b = true.
Proof.
  intros Hb Hab. unfold Enabled. rewrite Hb. unfold adapter_Enabled. intros Ha.
  pose proof (LevelOf_mono a b Hab). destruct (ho_Level (h_opts h)) as [g|].
  - destruct (Z.ltb_spec a g); [done|]. rewrite (proj2 (Z.ltb_ge b g)) by lia. apply Z.leb_le in Ha. apply Z.leb_le. lia.
  - apply Z.leb_le in Ha. apply Z.leb_le. lia.
Qed.

(** ** Examples *)

Definition example_backend : Backend := {| be_Enabled := adapter_Enabled 1; be_Event := adapter_Enabled 1 |}.

Lemma derived_logger_fields_witness :
  let opts := {| ho_Level := None; ho_AddSource := false; ho_GroupSeparator := "" |} in
  let r := {| r_Level := 4; r_source := None; r_Time := None; r_attrs := [("d", LGroup [("n", LInt64 3); ("", LNil)]); ("", LGroup [("e", LBool true)])]; r_Message := "m" |} in
  ∃ h, NewHandler (Some example_backend) opts = Some h ∧
  Handle (derive h [DAttrs [("a", LString "x")]; DGroup "g"; DAttrs [("b", LUint64 1)]; DGroup "f"]) r
    = [EvStr "a" "x"; EvUint64 "g.b" 1; EvInt64 "g.f.d.n" 3; EvBool "g.f.e" true; EvMsg "m"].
Proof.
  intros opts r. eexists. split; [reflexivity|].
  destruct (derived_logger_fields example_backend opts _ [DAttrs [("a", LString "x")]; DGroup "g"; DAttrs [("b", LUint64 1)]; DGroup "f"] r eq_refl eq_refl)
    as (header & E & ->).
  exact E.
Defined.
