(* ===== verification/Daemon.v ===== *)
(** * The HTTP daemon (cmd/fastconfd)

    Who may read what of the configuration over HTTP, and the bus that carries
    commits to the event streams.  The manager is what its [Snapshot] and [Reload]
    answer; the router of Go's [net/http] answers paths that are not registered. *)
From S2P Require Import Prelude GoStrings Value Path Secret Provenance TypeInfo SecretPlan StateView.
Open Scope nat_scope.

(** ** Requests and responses *)

(** [rq_Query] holds the first value of each parameter, [rq_Header] of each
    header; [rq_Flusher] says whether the connection can stream. *)
Record request := {
  rq_Method : string;
  rq_Path : string;
  rq_Query : gmap string string;
  rq_Header : gmap string string;
  rq_Flusher : bool;
}.

Definition Query_Get (r : request) (k : string) : string := default "" (rq_Query r !! k).
Definition Header_Get (r : request) (k : string) : string := default "" (rq_Header r !! k).

Inductive body := Text (s : string) | Json (v : value) | Raw (s : string) | EventStream.

Record response := { rs_Code : nat; rs_ContentType : string; rs_Body : body }.

(** [http.Error] *)
Definition http_Error (msg : string) (code : nat) : response :=
  {| rs_Code := code; rs_ContentType := "text/plain; charset=utf-8"; rs_Body := Text msg |}.

Definition StatusOK : nat := 200.
Definition StatusUnauthorized : nat := 401.
Definition StatusNotFound : nat := 404.
Definition StatusMethodNotAllowed : nat := 405.
Definition StatusInternalServerError : nat := 500.
Definition StatusServiceUnavailable : nat := 503.

(** [w.Write] of a handler that sets no header. *)
Definition written (s : string) : response := {| rs_Code := StatusOK; rs_ContentType := "text/plain; charset=utf-8"; rs_Body := Raw s |}.

Definition writeJSON (code : nat) (v : value) : response :=
  {| rs_Code := code; rs_ContentType := "application/json"; rs_Body := Json v |}.

(** [subtle.ConstantTimeCompare(a, b) == 1] *)
Definition ConstantTimeCompare (a b : string) : bool := String.eqb a b.

(** ** The server *)

(** [server]: its tokens. *)
Record server := { sv_token : string; sv_readToken : string; sv_unredactedToken : string }.

Definition newServer (token : string) : server := {| sv_token := token; sv_readToken := ""; sv_unredactedToken := "" |}.

(** The state that [Snapshot] returns, with what [handleVersion] reads of it. *)
Record snapshot (T : Type) := {
  sn_State : StateView.State T;
  sn_Generation : N;
  sn_Hash : string;
  sn_At : value;
  sn_Reason : string;
}.
Arguments sn_State {T} _.
Arguments sn_Generation {T} _.
Arguments sn_Hash {T} _.
Arguments sn_At {T} _.
Arguments sn_Reason {T} _.

Definition authorizedRead (s : server) (r : request) : bool :=
  if String.eqb (sv_readToken s) "" then true
  else ConstantTimeCompare (Header_Get r "X-Config-Token") (sv_readToken s).

(** [plaintext]: the response that it writes, or whether plaintext is asked for. *)
Definition plaintext (s : server) (r : request) : result response bool :=
  if negb (String.eqb (Query_Get r "unredacted") "true") then Ok false
  else if String.eqb (sv_unredactedToken s) "" || negb (ConstantTimeCompare (Header_Get r "X-Unredacted-Token") (sv_unredactedToken s))
  then Err (http_Error "unauthorized" StatusUnauthorized)
  else Ok true.

Section handlers.
Context (unicode_name : string → bool) (types : list gotype).
(** The manager's type, [map[string]any], and its encoding as a JSON tree. *)
Context {T : Type} (static_type : nat) (dynamic_type : T → nat) (encode_tree : T → result string gomap).
Context (marshal_indent : value → result string string) (toml_encode : tomlv → result string string) (yaml_marshal : ynode → result string string).
(** The answers of the router to other paths. *)
Context (mux_default : request → response) (version : string).

Definition state_Map (s : option (StateView.State T)) : gomap := Map unicode_name types static_type dynamic_type encode_tree s.
Definition state_Unredacted_Map (s : option (StateView.State T)) : gomap := Unredacted_Map unicode_name types static_type dynamic_type encode_tree s.
Definition state_Dump (s : option (StateView.State T)) (f : Format) : result dump_error string :=
  Dump unicode_name types static_type dynamic_type encode_tree marshal_indent toml_encode yaml_marshal s f.
Definition state_Unredacted_Dump (s : option (StateView.State T)) (f : Format) : result dump_error string :=
  Unredacted_Dump unicode_name types static_type dynamic_type encode_tree marshal_indent toml_encode yaml_marshal s f.

(** [s.mgr.Get() == nil] holds exactly when there is no state, or its value is nil. *)
Definition handleHealth (st : option (snapshot T)) : response :=
  match st ≫= (λ sn, vw_value (sn_State sn)) with
  | None => http_Error "not ready" StatusServiceUnavailable
  | Some _ => written "ok"
  end.

Definition handleVersion (st : option (snapshot T)) : response :=
  match st with
  | None => http_Error "no state" StatusServiceUnavailable
  | Some sn =>
      writeJSON StatusOK (VMap {[ "version" := VString version; "generation" := VInt KUint64 (Z.of_N (sn_Generation sn));
                                 "hash" := VString (sn_Hash sn); "loaded_at" := sn_At sn; "reason" := VString (sn_Reason sn) ]})
  end.

Definition handleConfig (s : server) (st : option (snapshot T)) (r : request) : response :=
  if negb (authorizedRead s r) then http_Error "unauthorized" StatusUnauthorized
  else
    match st with
    | None => http_Error "no state" StatusServiceUnavailable
    | Some sn =>
        match plaintext s r with
        | Err refused => refused
        | Ok plain =>
            let tree := if plain then state_Unredacted_Map (Some (sn_State sn)) else state_Map (Some (sn_State sn)) in
            let path := Query_Get r "path" in
            if String.eqb path "" then writeJSON StatusOK (VMapOpt tree)
            else match GetDotted tree path with
                 | Some v => writeJSON StatusOK v
                 | None => http_Error "not found" StatusNotFound
                 end
        end
    end.

Definition handleDump (s : server) (st : option (snapshot T)) (r : request) : response :=
  if negb (authorizedRead s r) then http_Error "unauthorized" StatusUnauthorized
  else
    match st with
    | None => http_Error "no state" StatusServiceUnavailable
    | Some sn =>
        match plaintext s r with
        | Err refused => refused
        | Ok plain =>
          let '(format, contentType) := if String.eqb (Query_Get r "format") "json" then (JSON, "application/json") else (YAML, "application/yaml") in
          match (if plain then state_Unredacted_Dump (Some (sn_State sn)) format else state_Dump (Some (sn_State sn)) format) with
          | Err _ => http_Error "dump failed" StatusInternalServerError
          | Ok b => {| rs_Code := StatusOK; rs_ContentType := contentType; rs_Body := Raw b |}
          end
        end
    end.

(** [handleReload]: whether it reloads, [reload] being the outcome. *)
Definition handleReload (s : server) (reload : result string unit) (r : request) : bool * response :=
  if negb (String.eqb (rq_Method r) "POST") then (false, http_Error "POST only" StatusMethodNotAllowed)
  else if String.eqb (sv_token s) "" then (false, http_Error "reload authentication is not configured" StatusServiceUnavailable)
  else if negb (ConstantTimeCompare (Header_Get r "X-Reload-Token") (sv_token s)) then (false, http_Error "unauthorized" StatusUnauthorized)
  else match reload with
       | Err _ => (true, http_Error "reload failed" StatusInternalServerError)
       | Ok _ => (true, written "reloaded")
       end.

(** [handleEvents] up to its loop. *)
Definition handleEvents (s : server) (r : request) : response :=
  if negb (authorizedRead s r) then http_Error "unauthorized" StatusUnauthorized
  else if negb (rq_Flusher r) then http_Error "streaming unsupported" StatusInternalServerError
  else {| rs_Code := StatusOK; rs_ContentType := "text/event-stream"; rs_Body := EventStream |}.

(** [routes]: whether the request reloads, and the response. *)
Definition routes (s : server) (st : option (snapshot T)) (reload : result string unit) (r : request) : bool * response :=
  let path := rq_Path r in
  if String.eqb path "/healthz" then (false, handleHealth st)
  else if String.eqb path "/version" then (false, handleVersion st)
  else if String.eqb path "/config" then (false, handleConfig s st r)
  else if String.eqb path "/dump" then (false, handleDump s st r)
  else if String.eqb path "/reload" then handleReload s reload r
  else if String.eqb path "/events" then (false, handleEvents s r)
  else (false, mux_default r).

(** ** Starting *)

(** [daemonFlags] as the command line gives them. *)
Record daemonFlags := { df_token : string; df_readToken : string; df_unredactedToken : string }.

(** [parseFlags] after [fs.Parse]: the environment fills in empty tokens. *)
Definition parseFlags (f : daemonFlags) (getenv : string → string) : daemonFlags := {|
  df_token := if String.eqb (df_token f) "" then getenv "FASTCONFD_RELOAD_TOKEN" else df_token f;
  df_readToken := if String.eqb (df_readToken f) "" then getenv "FASTCONFD_READ_TOKEN" else df_readToken f;
  df_unredactedToken := if String.eqb (df_unredactedToken f) "" then getenv "FASTCONFD_UNREDACTED_TOKEN" else df_unredactedToken f;
|}.

Definition authGate (token readToken : string) : result string unit :=
  if String.eqb token "" || String.eqb readToken "" then Err "-reload-token and -read-token are required" else Ok ().

(** The server that [main] runs. *)
Definition main_server (f : daemonFlags) (getenv : string → string) : result string server :=
  let f := parseFlags f getenv in
  _ ← authGate (df_token f) (df_readToken f);
  Ok {| sv_token := df_token f; sv_readToken := df_readToken f; sv_unredactedToken := df_unredactedToken f |}.

(** ** Lemmas *)

(** What every request may learn: that there is a value, and the version. *)
Definition public_part (st : option (snapshot T)) : option (bool * N * string * value * string) :=
  (λ sn, (bool_decide (is_Some (vw_value (sn_State sn))), sn_Generation sn, sn_Hash sn, sn_At sn, sn_Reason sn)) <$> st.

(** What a reader without the token for plaintext may learn as well. *)
Definition masked_view (sn : snapshot T) : result string gomap :=
  (viewTree unicode_name types static_type dynamic_type encode_tree (Some (sn_State sn)) (Some (displayRedactor (Some (sn_State sn))))).2.

Definition masked_part (st : option (snapshot T)) : option (result string gomap) := masked_view <$> st.

Definition reads (s : server) (r : request) : Prop := Header_Get r "X-Config-Token" = sv_readToken s.
Definition sees_plaintext (s : server) (r : request) : Prop :=
  sv_unredactedToken s ≠ "" ∧ Header_Get r "X-Unredacted-Token" = sv_unredactedToken s.

Lemma main_server_tokens f getenv s : main_server f getenv = Ok s → sv_token s ≠ "" ∧ sv_readToken s ≠ "".
Proof.
  unfold main_server, authGate. intros (? & Hg & [= <-])%bind_Ok. cbn [sv_token sv_readToken].
  destruct (String.eqb_spec (df_token (parseFlags f getenv)) ""); [done|]. by destruct (String.eqb_spec (df_readToken (parseFlags f getenv)) "").
Qed.

Lemma authorizedRead_spec s r : sv_readToken s ≠ "" → authorizedRead s r = true ↔ reads s r.
Proof.
  intros Hs. unfold authorizedRead, reads, ConstantTimeCompare. rewrite (proj2 (String.eqb_neq _ _) Hs). apply String.eqb_eq.
Qed.

Lemma plaintext_spec s r : plaintext s r = Ok true → sees_plaintext s r.
Proof.
  unfold plaintext, sees_plaintext, ConstantTimeCompare. destruct (negb _); [done|].
  destruct (String.eqb_spec (sv_unredactedToken s) ""); [done|]. cbn [orb].
  by destruct (String.eqb_spec (Header_Get r "X-Unredacted-Token") (sv_unredactedToken s)).
Qed.

Lemma public_health st st' : public_part st = public_part st' → handleHealth st = handleHealth st'.
Proof.
  unfold handleHealth. destruct st as [sn|], st' as [sn'|]; try done. cbn. intros [= E _ _ _ _].
  by destruct (vw_value (sn_State sn)), (vw_value (sn_State sn')).
Qed.

Lemma public_version st st' : public_part st = public_part st' → handleVersion st = handleVersion st'.
Proof. unfold handleVersion. destruct st as [sn|], st' as [sn'|]; try done. cbn. by intros [= _ -> -> -> ->]. Qed.

Lemma masked_views (sn sn' : snapshot T) f : masked_view sn = masked_view sn' →
  state_Map (Some (sn_State sn)) = state_Map (Some (sn_State sn')) ∧ state_Dump (Some (sn_State sn)) f = state_Dump (Some (sn_State sn')) f.
Proof.
  unfold masked_view. intros E. unfold state_Map, state_Dump, Map, Dump, dumpState. by rewrite E.
Qed.

(** Without the token for plaintext, only the masked view is shown. *)
Lemma masked_config s sn sn' r : masked_view sn = masked_view sn' → ¬ sees_plaintext s r →
  handleConfig s (Some sn) r = handleConfig s (Some sn') r ∧ handleDump s (Some sn) r = handleDump s (Some sn') r.
Proof.
  intros Hm Hp. unfold handleConfig, handleDump. destruct (negb _); [done|].
  destruct (plaintext s r) as [[]|] eqn:Hpl; [by apply plaintext_spec in Hpl|..]; [|done].
  split; [by rewrite (proj1 (masked_views sn sn' JSON Hm))|].
  destruct (String.eqb (Query_Get r "format") "json"); [by rewrite (proj2 (masked_views sn sn' JSON Hm))|by rewrite (proj2 (masked_views sn sn' YAML Hm))].
Qed.
End handlers.

(** ** The bus of commits *)

(** [eventBus]: the buffers of its channels; a channel is named by its turn. *)
Record eventBus (C : Type) := { eb_next : nat; eb_subs : gmap nat (list C) }.
Arguments eb_next {C} _.
Arguments eb_subs {C} _.

Section bus.
Context {C : Type}.

Definition busCap : nat := 8.

Definition newEventBus : eventBus C := {| eb_next := 0; eb_subs := ∅ |}.

(** A send that would block is dropped. *)
Definition offer (cause : C) (buf : list C) : list C := if length buf <? busCap then buf ++ [cause] else buf.

Definition publish (b : eventBus C) (cause : C) : eventBus C := {| eb_next := eb_next b; eb_subs := offer cause <$> eb_subs b |}.

Definition subscribe (b : eventBus C) : nat * eventBus C :=
  (eb_next b, {| eb_next := S (eb_next b); eb_subs := <[eb_next b := []]> (eb_subs b) |}).

Definition unsubscribe (b : eventBus C) (c : nat) : eventBus C := {| eb_next := eb_next b; eb_subs := delete c (eb_subs b) |}.

(** A receive of the event loop of [handleEvents]. *)
Definition receive (b : eventBus C) (c : nat) : option C * eventBus C :=
  match eb_subs b !! c with
  | Some (x :: buf) => (Some x, {| eb_next := eb_next b; eb_subs := <[c := buf]> (eb_subs b) |})
  | _ => (None, b)
  end.

Inductive bus_op := OpPublish (cause : C) | OpSubscribe | OpUnsubscribe (c : nat) | OpReceive (c : nat).

Definition bus_step (b : eventBus C) (op : bus_op) : eventBus C :=
  match op with
  | OpPublish cause => publish b cause
  | OpSubscribe => (subscribe b).2
  | OpUnsubscribe c => unsubscribe b c
  | OpReceive c => (receive b c).2
  end.

(** What stream [c] receives in a step. *)
Definition received (b : eventBus C) (c : nat) (op : bus_op) : list C :=
  match op with
  | OpReceive c' => if decide (c' = c) then match (receive b c).1 with Some x => [x] | None => [] end else []
  | _ => []
  end.

Fixpoint stream (b : eventBus C) (c : nat) (ops : list bus_op) : list C :=
  match ops with [] => [] | op :: ops => received b c op ++ stream (bus_step b op) c ops end.

Definition published (ops : list bus_op) : list C := omap (λ op, match op with OpPublish x => Some x | _ => None end) ops.

(** The buffer of [c] is full when a cause is published. *)
Fixpoint overflows (b : eventBus C) (c : nat) (ops : list bus_op) : nat :=
  match ops with
  | [] => 0
  | op :: ops =>
      match op with OpPublish _ => if busCap <=? length (default [] (eb_subs b !! c)) then 1 else 0 | _ => 0 end
      + overflows (bus_step b op) c ops
  end.

Lemma lookup_publish b x c buf : eb_subs b !! c = Some buf → eb_subs (publish b x) !! c = Some (offer x buf).
Proof. intros Hc. cbn. by rewrite lookup_fmap, Hc. Qed.

(** A stream gets the causes that are published while it is subscribed, in
    order, each at most once; one is missing only when eight were waiting. *)
Lemma stream_published b c buf ops : eb_subs b !! c = Some buf → c < eb_next b → length buf ≤ busCap → Forall (λ op, op ≠ OpUnsubscribe c) ops →
  ∃ rest, eb_subs (foldl bus_step b ops) !! c = Some rest ∧ length rest ≤ busCap
  ∧ sublist (stream b c ops ++ rest) (buf ++ published ops)
  ∧ length (buf ++ published ops) = length (stream b c ops ++ rest) + overflows b c ops.
Proof.
  revert b buf. induction ops as [|op ops IH]; intros b buf Hc Hn Hl Hops.
  - exists buf. cbn. rewrite app_nil_r. split; [done|]. split; [done|]. split; [done|]. lia.
  - apply Forall_cons in Hops as [Hop Hops]. cbn [foldl stream overflows]. destruct op as [x| |c'|c']; cbn [received].
    + assert (length (offer x buf) ≤ busCap) as Hl'.
      { unfold offer. destruct (Nat.ltb_spec (length buf) busCap); [rewrite length_app; cbn; lia|done]. }
      destruct (IH (publish b x) (offer x buf)) as (rest & H1 & H2 & H3 & H4); [by apply lookup_publish|done|done|done|].
      exists rest. split; [done|]. split; [done|]. cbn [bus_step published omap list_omap app]. fold (published ops). rewrite Hc. cbn [default from_option id].
      unfold offer in *. destruct (Nat.ltb_spec (length buf) busCap).
      * rewrite <-app_assoc in *. cbn [app] in *. split; [done|]. rewrite (proj2 (Nat.leb_gt _ _)) by lia. cbn [Nat.add]. exact H4.
      * split.
        { etrans; [exact H3|]. apply sublist_app; [done|]. by apply sublist_cons. }
        rewrite (proj2 (Nat.leb_le _ _)) by lia. rewrite !length_app in *. cbn [length]. lia.
    + destruct (IH (subscribe b).2 buf) as (rest & H1 & H2 & H3 & H4); [cbn; by rewrite lookup_insert_ne by lia|cbn; lia|done|done|].
      exists rest. done.
    + destruct (IH (unsubscribe b c') buf) as (rest & H1 & H2 & H3 & H4); [cbn; rewrite lookup_delete_ne; [done|congruence]|done|done|done|].
      exists rest. done.
    + change (published (OpReceive c' :: ops)) with (published ops). cbn [bus_step]. unfold receive. destruct (decide (c' = c)) as [->|Hne].
      * rewrite Hc. destruct buf as [|x buf]; cbn [fst snd app].
        { exact (IH b [] Hc Hn Hl Hops). }
        destruct (IH {| eb_next := eb_next b; eb_subs := <[c := buf]> (eb_subs b) |} buf) as (rest & H1 & H2 & H3 & H4);
          [cbn; by rewrite lookup_insert_eq|done|cbn in Hl; lia|done|].
        exists rest. split; [done|]. split; [done|]. split; [by apply sublist_skip|].
        cbn [app length]. rewrite H4. done.
      * cbn [app]. destruct (eb_subs b !! c') as [[|x buf']|] eqn:Hc'; [exact (IH b buf Hc Hn Hl Hops)| |exact (IH b buf Hc Hn Hl Hops)].
        destruct (IH {| eb_next := eb_next b; eb_subs := <[c' := buf']> (eb_subs b) |} buf) as (rest & H1 & H2 & H3 & H4);
          [cbn; by rewrite lookup_insert_ne|done|done|done|]. exists rest. done.
Qed.
End bus.

(** ** Properties *)

(** C32: the daemon discloses the configuration to nobody else.  For the server that
    [main] starts, and two states that differ only in what a requester must not
    see, the response is the same: without the read token, it depends on
    readiness and version alone; without the token for plaintext, also on the
    masked view; and only a POST with the reload token reloads. *)
Theorem daemon_discloses_nothing (unicode_name : string → bool) (types : list gotype) {T : Type} (static_type : nat)
    (dynamic_type : T → nat) (encode_tree : T → result string gomap) (marshal_indent : value → result string string)
    (toml_encode : tomlv → result string string) (yaml_marshal : ynode → result string string) (mux_default : request → response) (version : string)
    (f : daemonFlags) (getenv : string → string) (s : server) (st st' : option (snapshot T)) (reload : result string unit) (r : request)
    (Hs : main_server f getenv = Ok s) (Hpublic : public_part st = public_part st') :
  let respond := routes unicode_name types static_type dynamic_type encode_tree marshal_indent toml_encode yaml_marshal mux_default version s in
  (¬ reads s r → respond st reload r = respond st' reload r)
  ∧ (¬ sees_plaintext s r → masked_part unicode_name types static_type dynamic_type encode_tree st = masked_part unicode_name types static_type dynamic_type encode_tree st' →
     respond st reload r = respond st' reload r)
  ∧ ((respond st reload r).1 = true → rq_Method r = "POST" ∧ Header_Get r "X-Reload-Token" = sv_token s).
Proof.
  destruct (main_server_tokens _ _ _ Hs) as [Htoken Hread]. intros respond. unfold respond, routes. cbn zeta.
  pose proof (public_health _ _ Hpublic) as Hhealth. pose proof (public_version version _ _ Hpublic) as Hversion. split; [|split].
  - intros Hr. assert (authorizedRead s r = false) as Ha by (apply not_true_is_false; by rewrite authorizedRead_spec).
    unfold handleConfig, handleDump. rewrite Ha, Hhealth, Hversion. done.
  - intros Hp Hm. rewrite Hhealth, Hversion. destruct st as [sn|], st' as [sn'|]; try done. injection Hm as Hm.
    destruct (masked_config unicode_name types static_type dynamic_type encode_tree marshal_indent toml_encode yaml_marshal s sn sn' r Hm Hp) as [-> ->]. done.
  - repeat match goal with |- context [if String.eqb (rq_Path r) ?p then _ else _] => destruct (String.eqb (rq_Path r) p) end; try done.
    unfold handleReload, ConstantTimeCompare. destruct (String.eqb_spec (rq_Method r) "POST"); [|done].
    destruct (String.eqb_spec (sv_token s) ""); [done|]. by destruct (String.eqb_spec (Header_Get r "X-Reload-Token") (sv_token s)).
Qed.

(** ** Examples *)

Definition example_snapshot (password : string) : option (snapshot gomap) :=
  Some {| sn_State := StateView.Build_State (Some (Some {["password" := VString password]})) None None ["**.password"] None;
          sn_Generation := 1; sn_Hash := "h"; sn_At := VString "now"; sn_Reason := "initial" |}.

Definition example_request (header : gmap string string) : request :=
  {| rq_Method := "GET"; rq_Path := "/config"; rq_Query := {["path" := "password"]}; rq_Header := header; rq_Flusher := true |}.

Lemma daemon_discloses_nothing_witness :
  let f := {| df_token := ""; df_readToken := "c"; df_unredactedToken := "" |} in
  let getenv k := if String.eqb k "FASTCONFD_RELOAD_TOKEN" then "r" else "" in
  let s := {| sv_token := "r"; sv_readToken := "c"; sv_unredactedToken := "" |} in
  let respond := @routes (λ _, false) [] gomap 0 (λ _, 0) Ok (λ _, Ok "") (λ _, Ok "") (λ _, Ok "") (λ _, written "") "v" s in
  main_server f getenv = Ok s
  ∧ (respond (example_snapshot "a") (Ok ()) (example_request ∅)).2 = http_Error "unauthorized" StatusUnauthorized
  ∧ (respond (example_snapshot "a") (Ok ()) (example_request {["X-Config-Token" := "c"]})).2 = writeJSON StatusOK (VString "***REDACTED***")
  ∧ respond (example_snapshot "a") (Ok ()) (example_request ∅) = respond (example_snapshot "b") (Ok ()) (example_request ∅).
Proof.
  intros f getenv s respond. split; [reflexivity|]. split; [reflexivity|]. split; [vm_compute; reflexivity|].
  assert (¬ reads s (example_request ∅)) as Hr by (unfold reads; vm_compute; discriminate).
  exact (proj1 (@daemon_discloses_nothing (λ _, false) [] gomap 0 (λ _, 0) Ok (λ _, Ok "") (λ _, Ok "") (λ _, Ok "") (λ _, written "") "v"
    f getenv s (example_snapshot "a") (example_snapshot "b") (Ok ()) (example_request ∅) eq_refl eq_refl) Hr).
Defined.
