(* ===== verification/CliSetup.v ===== *)
(** * The command-line tools (cmd/internal/cli/setup.go, cmd/fastconfctl)

    The flags that the binaries share, the options and providers they stand for,
    and the commands of fastconfctl.  Parsing the command line is Go's [flag]
    package; commands are given their flags. *)
From S2P Require Import Prelude GoStrings Value Path ProfileExpr Scan Secret Provenance Coalesce Options TypeInfo SecretPlan TypedHooks StateView Diff Settings.
Open Scope nat_scope.

Definition DefaultSecretPaths : list string :=
  ["**.password"; "**.passwd"; "**.secret"; "**.token"; "**.api_key"; "**.apikey"; "**.private_key"].

(** [Flags] *)
Record Flags := {
  fl_Unredacted : bool;
  fl_Dir : string;
  fl_Profile : string;
  fl_BaseOnly : bool;
  fl_Strict : bool;
  fl_Watch : bool;
  fl_Providers : list string;
}.

Definition baseOnlyProfile : string := "fastconfctl-base-only".
Definition baseOnlyMatch : string := baseOnlyProfile +:+ " & !" +:+ baseOnlyProfile.

(** [ProviderFlags.Set] *)
Definition ProviderFlags_Set (p : list string) (v : string) : list string := p ++ [v].

(** [ChangedValues] on the flags that [Visit] reports; [build] adds one to the values. *)
Definition ChangedValues (visited : list (string * string))
    (build : option (string → string → gmap string value → result string (gmap string value))) : result string (gmap string value) :=
  foldM (λ out f, match build with
                  | None => Ok (<[f.1 := VString f.2]> out)
                  | Some build => build f.1 f.2 out
                  end) ∅ visited.

(** ** Providers *)

(** What the factories of [Providers] build. *)
Inductive provider_desc :=
| EnvProvider (prefix : string)
| DotenvProvider (prefix : string) (paths : list string)
| FileProvider (path : string).

(** [s, _ := cfg[k].(string)] *)
Definition cfg_string (cfg : gomap) (k : string) : string := default "" (gomap_lookup cfg k ≫= as_string).

Definition ProviderFactory : Type := gomap → result string provider_desc.

Definition Providers : gmap string ProviderFactory := {[
  "env" := λ cfg, Ok (EnvProvider (cfg_string cfg "value"));
  "dotenv" := λ cfg,
    let p := cfg_string cfg "value" in
    Ok (DotenvProvider (cfg_string cfg "prefix") (if String.eqb p "" then [] else [p]));
  "file" := λ cfg,
    let path := cfg_string cfg "value" in
    if String.eqb path "" then Err "file provider: path required" else Ok (FileProvider path)
]}.

Section cli.
(** [json.Unmarshal] into a [map[string]any]; [None] is an error. *)
Context (json_map : string → option gomap).

Definition parseProviderSpec (spec : string) : result string (string * gomap) :=
  let '(name, val) := match strings_Cut spec "=" with Some (n, v) => (n, Some v) | None => (spec, None) end in
  if String.eqb name "" then Err ("provider spec " +:+ spec +:+ ": name must not be empty")
  else match val with
       | None | Some "" => Ok (name, Some ∅)
       | Some val => Ok (name, match json_map val with Some cfg => cfg | None => Some {["value" := VString val]} end)
       end.

(** One round of [ProviderFlags.Apply]. *)
Definition spec_provider (spec : string) : result string provider_desc :=
  '(name, cfg) ← parseProviderSpec spec;
  match Providers !! name with
  | None => Err ("provider " +:+ name +:+ ": unknown (have "
                 +:+ strings_Join (sort_strings (map_to_list Providers).*1) ", " +:+ ")")
  | Some f => map_err (λ e, "provider " +:+ name +:+ ": " +:+ e) (f cfg)
  end.

Context {Typ : Type} `{EqDecision Typ} (denote : Typ → Type) {Logger Tracer Observer : Type}.
(** The constructed provider, described. *)
Context (construct : provider_desc → providerEntry).

Notation call := (@Call Typ denote Logger Tracer Observer).

(** [ProviderFlags.Apply] *)
Definition Apply (p : list string) (opts : list call) : result string (list call) :=
  foldM (λ opts spec, d ← spec_provider spec; Ok (opts ++ [CallProvider denote [Some (construct d)]])) opts p.

Definition no_watch : Watch := {| w_Paths := []; w_Quiet := 0; w_MaxLag := 0; w_SwapHint := 0; w_Profile := ProfileK8s |}.

(** [Flags.Options] *)
Definition Options (f : Flags) (extra : list call) : result string (list call) :=
  if fl_BaseOnly f && negb (String.eqb (fl_Profile f) "") then Err "cli: base-only and profile cannot both be set"
  else
    let opts := [CallDir denote (fl_Dir f); CallSecretPaths denote DefaultSecretPaths; CallStrictMerge denote (fl_Strict f)] in
    let opts := if fl_Watch f then opts ++ [CallWatch denote no_watch] else opts in
    let opts :=
      if fl_BaseOnly f then
        opts ++ [CallProfile denote {| po_Names := [baseOnlyProfile]; po_Env := ""; po_Default := ""; po_Match := baseOnlyMatch |}]
      else if negb (String.eqb (fl_Profile f) "") then
        opts ++ [CallProfile denote {| po_Names := strings_Split (fl_Profile f) ","; po_Env := ""; po_Default := ""; po_Match := "" |}]
      else opts in
    opts ← Apply (fl_Providers f) opts;
    Ok (opts ++ extra).

(** ** fastconfctl *)

(** [loadSnapshot]: plaintext output also shows old values as they are. *)
Definition snapshot_options (f : Flags) (extra : list call) : result string (list call) :=
  opts ← Options f extra;
  Ok (if fl_Unredacted f then opts ++ [CallRedactor denote (Some (λ _ v, v))] else opts).

(** [fastconf.Load], and the views of what it returns. *)
Context `{GoStd} {T : Type} (Load : list call → result string (StateView.State T)).
Context (unicode_name : string → bool) (fold_unicode : string → string → bool) (types : list gotype) (static_type : nat) (dynamic_type : T → nat) (encode_tree : T → result string gomap).
Context (yaml_marshal : ynode → result string string) (show : value → string) (marshal : value → option string).

Definition loadSnapshot (f : Flags) (extra : list call) : result string (StateView.State T) :=
  opts ← snapshot_options f extra; Load opts.

Definition view (plain : bool) (st : StateView.State T) : gomap :=
  if plain then Unredacted_Map unicode_name types static_type dynamic_type encode_tree (Some st)
  else Map unicode_name types static_type dynamic_type encode_tree (Some st).

Inductive output := OutJson (indent : bool) (v : value) | OutText (s : string) | OutLines (l : list string).

Definition runDump (f : Flags) (pretty : bool) (format : string) : result string output :=
  st ← loadSnapshot f [];
  if String.eqb format "yaml" then
    let dump := if fl_Unredacted f then Unredacted_Dump unicode_name types static_type dynamic_type encode_tree (λ _, Err "") (λ _, Err "") yaml_marshal
                else Dump unicode_name types static_type dynamic_type encode_tree (λ _, Err "") (λ _, Err "") yaml_marshal in
    OutText <$> map_err (λ _, "dump") (dump (Some st) YAML)
  else Ok (OutJson pretty (VMapOpt (view (fl_Unredacted f) st))).

(** [runDiff]: the first profile may be empty, which stands for the base alone. *)
Definition diff_flags (f : Flags) (from to : string) : Flags * Flags :=
  ({| fl_Unredacted := fl_Unredacted f; fl_Dir := fl_Dir f; fl_Profile := from; fl_BaseOnly := String.eqb from "";
      fl_Strict := fl_Strict f; fl_Watch := fl_Watch f; fl_Providers := fl_Providers f |},
   {| fl_Unredacted := fl_Unredacted f; fl_Dir := fl_Dir f; fl_Profile := to; fl_BaseOnly := fl_BaseOnly f;
      fl_Strict := fl_Strict f; fl_Watch := fl_Watch f; fl_Providers := fl_Providers f |}).

(** [printJSONDiff] *)
Definition json_change (e : DiffEntry) : value :=
  VMap (<["path" := VString (de_Path e)]>
    match de_Change e with
    | DiffAdded => {["op" := VString "+"; "to" := de_After e]}
    | DiffRemoved => {["op" := VString "-"; "from" := de_Before e]}
    | DiffModified => {["op" := VString "~"; "from" := de_Before e; "to" := de_After e]}
    end).

Definition printJSONDiff (from to : string) (entries : list DiffEntry) : output :=
  OutJson true (VMap {["from" := VString from; "to" := VString to;
                       "changes" := match entries with [] => VNilSlice | _ => VSlice (json_change <$> entries) end]}).

Definition runDiff (f : Flags) (from to : string) (jsonOut : bool) : result string output :=
  if String.eqb to "" then Err "--to is required"
  else
    let '(fa, fb) := diff_flags f from to in
    a ← map_err (λ e, "load " +:+ from +:+ ": " +:+ e) (loadSnapshot fa []);
    b ← map_err (λ e, "load " +:+ to +:+ ": " +:+ e) (loadSnapshot fb []);
    let entries := diagnosticDiff marshal (view true a) (view true b) (view false a) (view false b) in
    if jsonOut then Ok (printJSONDiff from to entries)
    else match FormatDiff show entries with
         | [] => Ok (OutLines ["(no differences)"])
         | lines => Ok (OutLines lines)
         end.

(** [pickWinner] *)
Definition source_fields (o : Origin) : gmap string value :=
  {["path" := VString (sr_Path (o_Source o)); "kind" := VString (LayerKind_String (sr_Kind (o_Source o)));
    "priority" := VInt KInt (sr_Priority (o_Source o))]}.

Definition pickWinner (chain : list Origin) : value :=
  match last chain with None => VNil | Some w => VMap (source_fields w) end.

Definition origin_row (o : Origin) : value :=
  VMap (<["profile" := VString (sr_Profile (o_Source o))]> (<["codec" := VString (sr_Codec (o_Source o))]>
    (<["value" := o_Value o]> (source_fields o)))).

Definition runExplain (f : Flags) (args : list string) : result string output :=
  match args with
  | [path] =>
      st ← loadSnapshot f [CallProvenance denote Full];
      match vw_value st with
      | None => Err "snapshot value is nil"
      | Some _ =>
          match GetDotted (view false st) path with
          | None => Err ("path " +:+ path +:+ " not found")
          | Some v =>
              let chain := State_Explain fold_unicode types static_type (Some st) path in
              Ok (OutJson true (VMap {["path" := VString path; "value" := v; "origins" := VSlice (origin_row <$> chain); "winner" := pickWinner chain]}))
          end
      end
  | _ => Err "explain takes exactly one dotted path argument"
  end.

Definition runValidate (f : Flags) : result string output := _ ← loadSnapshot f []; Ok (OutText "OK").
End cli.

(** ** Lemmas *)

Section cli_facts.
Context (json_map : string → option gomap) {Typ : Type} `{EqDecision Typ} (denote : Typ → Type) {Logger Tracer Observer : Type}.
Context (construct : provider_desc → providerEntry).

Lemma Apply_spec p (opts opts' : list (@Call Typ denote Logger Tracer Observer)) :
  Apply json_map denote construct p opts = Ok opts' →
  ∃ ds, mapR (spec_provider json_map) p = Ok ds ∧ opts' = opts ++ ((λ d, CallProvider denote [Some (construct d)]) <$> ds).
Proof.
  unfold Apply. revert opts. induction p as [|spec p IH]; intros opts; cbn [foldM mapR].
  - intros [= <-]. exists []. by rewrite app_nil_r.
  - intros (o1 & Ho1 & Hr)%bind_Ok. apply bind_Ok in Ho1 as (d & Hd & [= <-]). destruct (IH _ Hr) as (ds & Hds & ->).
    exists (d :: ds). rewrite Hd, Hds. split; [done|]. by rewrite <-app_assoc.
Qed.

Lemma run_providers (o : @settings Typ denote Logger Tracer Observer) ds :
  run_calls denote o ((λ d, CallProvider denote [Some (construct d)]) <$> ds) = upd_Providers denote (λ ps, ps ++ (construct <$> ds)) o.
Proof.
  revert o. induction ds as [|d ds IH]; intros o.
  - cbn. destruct o. cbv [upd_Providers]. by rewrite app_nil_r.
  - rewrite fmap_cons. etrans; [exact (IH (WithProvider denote [Some (construct d)] o))|].
    apply (fu_comp denote _ (upd_Providers_laws denote)). intros l. cbn. by rewrite <-app_assoc.
Qed.
End cli_facts.

(** The expression of base-only runs compiles, and no set of profiles satisfies it. *)
Lemma base_only_never active : Eval baseOnlyMatch active = Ok false.
Proof.
  assert (∃ fn, Compile baseOnlyMatch = Ok fn ∧ ∀ a, fn a = (Has a baseOnlyProfile && negb (Has a baseOnlyProfile))) as (fn & Hc & Hfn).
  { eexists. split; [vm_compute; reflexivity|]. reflexivity. }
  unfold Eval. rewrite Hc. cbn. rewrite Hfn. by destruct (Has active baseOnlyProfile).
Qed.

(** ** Properties *)

(** Base-only runs read no overlay.  With the options that the flag [BaseOnly]
    stands for, the profile expression is never satisfied, so that the overlays
    that are collected are none, whatever the directories are called, whatever
    their metadata says and whatever the environment selects. *)
Theorem base_only_reads_base `{GoStd} {Typ : Type} `{EqDecision Typ} (denote : Typ → Type) {Logger Tracer Observer : Type}
    (json_map : string → option gomap) (construct : provider_desc → providerEntry) (f : Flags)
    (calls : list (@Call Typ denote Logger Tracer Observer)) (base : Logger) (noop : Tracer)
    (os : FileSystem) (lookup_ext : string → string) (yaml_match : string → option string) (root : string) (opt : Scan.Options)
    (dirs : list string) (layers : list Layer)
    (Hbase : fl_BaseOnly f = true) (Hcalls : Options json_map denote construct f [] = Ok calls)
    (Hopt : GlobalMatch opt = se_ProfileMatch denote (run_calls denote (defaultOptions denote base noop) calls))
    (Hscan : collectProfileOverlays os lookup_ext yaml_match (opt_FS opt) root opt = (dirs, Ok layers)) :
  layers = [].
Proof.
  assert (GlobalMatch opt = baseOnlyMatch) as Hm.
  { rewrite Hopt. unfold Options in Hcalls. rewrite Hbase in Hcalls. destruct (true && _); [done|].
    apply bind_Ok in Hcalls as (opts & Ha & [= <-]). apply Apply_spec in Ha as (ds & _ & ->). rewrite app_nil_r, run_calls_app, run_providers.
    destruct (fl_Watch f); reflexivity. }
  unfold collectProfileOverlays in Hscan. destruct (readDir _ _ _) as [entries|[]]; try congruence. rewrite Hm in Hscan.
  change (String.eqb (TrimSpace baseOnlyMatch) "") with false in Hscan. cbn iota in Hscan. rewrite base_only_never in Hscan.
  change BandFileOverlay with (BandFileOverlay + 0 * overlayStride)%Z in Hscan.
  apply overlays_loop_selected in Hscan as (_ & groups & [Hlen _] & ->).
  assert (filter (selected os yaml_match (opt_FS opt) root opt baseOnlyMatch (NewProfileSet (Profiles opt))) (sort_entries entries) = []) as E.
  { clear Hlen. induction (sort_entries entries) as [|e es IH]; [done|]. rewrite filter_cons_False; [exact IH|].
    intros (_ & _ & _ & Hg). unfold globalMatches in Hg. by rewrite base_only_never in Hg. }
  rewrite E in Hlen. by destruct groups.
Qed.

(** What the flags stand for.  The options that they give set exactly the
    directory, strictness, watching, the paths that are masked, the profiles, and
    the providers of the specifications in their order; they are refused when
    base-only and a profile are both asked for, or a specification is wrong. *)
Theorem flags_become_settings {Typ : Type} `{EqDecision Typ} (denote : Typ → Type) {Logger Tracer Observer : Type}
    (json_map : string → option gomap) (construct : provider_desc → providerEntry) (f : Flags) (base : Logger) (noop : Tracer) :
  match Options json_map denote construct f [] with
  | Ok calls =>
      let o := run_calls denote (@defaultOptions Typ denote Logger Tracer Observer base noop) calls in
      ∃ ds, mapR (spec_provider json_map) (fl_Providers f) = Ok ds
      ∧ se_Providers denote o = construct <$> ds ∧ se_Dir denote o = fl_Dir f ∧ se_Strict denote o = fl_Strict f
      ∧ se_FileWatch denote o = fl_Watch f ∧ se_SecretPaths denote o = DefaultSecretPaths ∧ se_OptionErrs denote o = []
      ∧ se_ProfileNames denote o = (if fl_BaseOnly f then [baseOnlyProfile]
                                    else if String.eqb (fl_Profile f) "" then [] else trimProfiles [] (strings_Split (fl_Profile f) ","))
  | Err e => fl_BaseOnly f = true ∧ fl_Profile f ≠ "" ∨ mapR (spec_provider json_map) (fl_Providers f) = Err e
  end.
Proof.
  assert (∀ (o : list (@Call Typ denote Logger Tracer Observer)) e, Apply json_map denote construct (fl_Providers f) o = Err e → mapR (spec_provider json_map) (fl_Providers f) = Err e) as Hbad.
  { unfold Apply. induction (fl_Providers f) as [|spec p IH]; intros o e; [done|]. cbn [foldM mapR].
    destruct (spec_provider json_map spec) as [d|e']; [|by intros [= ->]]. cbn. intros He. by rewrite (IH _ _ He). }
  unfold Options. destruct (fl_BaseOnly f) eqn:Hb; cbn [andb].
  - destruct (String.eqb_spec (fl_Profile f) "") as [Hp|Hp]; cbn [negb]; [|by left].
    destruct (Apply _ _ _ _ _) as [calls|e] eqn:Ha; cbn [mbind result_bind]; [|right; by eapply Hbad].
    apply Apply_spec in Ha as (ds & Hds & ->). exists ds. rewrite app_nil_r, run_calls_app, run_providers.
    split; [done|]. destruct (fl_Watch f); done.
  - destruct (String.eqb_spec (fl_Profile f) "") as [Hp|Hp]; cbn [negb];
      (destruct (Apply _ _ _ _ _) as [calls|e] eqn:Ha; cbn [mbind result_bind]; [|right; by eapply Hbad]);
      apply Apply_spec in Ha as (ds & Hds & ->); exists ds; rewrite app_nil_r, run_calls_app, run_providers;
      (split; [done|]); destruct (fl_Watch f); done.
Qed.

(** ** Examples *)

Definition example_entry (d : provider_desc) : providerEntry :=
  {| pe_Name := match d with EnvProvider p => p | DotenvProvider p _ => p | FileProvider p => p end; pe_Priority := 0;
     pe_Load := Ok {| ps_Map := None; ps_Revision := ""; ps_Stale := false |} |}.

Definition example_flags : Flags :=
  {| fl_Unredacted := false; fl_Dir := "etc"; fl_Profile := ""; fl_BaseOnly := true; fl_Strict := false; fl_Watch := false;
     fl_Providers := ["env=APP_"; "file=x.yaml"] |}.

Lemma base_only_reads_base_witness :
  let opt := {| BaseDir := "base"; OverlayDir := "overlays"; Profiles := [baseOnlyProfile]; GlobalMatch := baseOnlyMatch;
                PatchSuffixes := [".patch.yaml"]; Strict := false; opt_FS := None; AxisOverlays := [] |} in
  ∃ calls, Options (λ _, None) one_type example_entry example_flags [] = Ok calls
  ∧ GlobalMatch opt = se_ProfileMatch one_type (run_calls one_type (@defaultOptions unit one_type nat nat nat 0 0) calls)
  ∧ ∃ dirs layers, @collectProfileOverlays example_std (ex_fs ex_ab) ex_ext (λ _, None) None "etc" opt = (dirs, Ok layers) ∧ layers = [].
Proof.
  intros opt. eexists. split; [vm_compute; reflexivity|]. split; [vm_compute; reflexivity|].
  exists ["etc/overlays"], []. split; [vm_compute; reflexivity|].
  eapply (@base_only_reads_base example_std unit _ one_type nat nat nat (λ _, None) example_entry example_flags _ 0 0 (ex_fs ex_ab) ex_ext (λ _, None) "etc" opt);
    [reflexivity|vm_compute; reflexivity|vm_compute; reflexivity|vm_compute; reflexivity].
Defined.

Example unknown_provider :
  Options (λ _, None) one_type example_entry {| fl_Unredacted := false; fl_Dir := "etc"; fl_Profile := ""; fl_BaseOnly := false;
    fl_Strict := false; fl_Watch := false; fl_Providers := ["etcd=x"] |} ([] : list (@Call unit one_type nat nat nat))
  = Err "provider etcd: unknown (have dotenv, env, file)".
Proof. vm_compute. reflexivity. Qed.
