(* ===== verification/FileRender.v ===== *)
(** * Rendered files and hooks (integrations/render/render.go)

    [atomicWrite] step by step over a file system that can crash, and the
    built-in renderers and hooks.  What the system calls answer is an argument. *)
From S2P Require Import Prelude GoStrings.
Open Scope nat_scope.

(** ** The file system *)

(** A file: its contents, whether they are on the disk, and its mode. *)
Record file := { fi_data : string; fi_synced : bool; fi_mode : nat }.

(** Names of one directory, and the files behind them. *)
Record fs := { fs_names : gmap string nat; fs_files : gmap nat file; fs_next : nat }.

Definition set_file (s : fs) (i : nat) (f : file) : fs :=
  {| fs_names := fs_names s; fs_files := <[i := f]> (fs_files s); fs_next := fs_next s |}.

Definition update_file (s : fs) (i : nat) (u : file → file) : fs :=
  match fs_files s !! i with Some f => set_file s i (u f) | None => s end.

(** [os.CreateTemp] with the mode it uses. *)
Definition temp_mode : nat := 384.

Definition create (s : fs) (name : string) : nat * fs :=
  (fs_next s, {| fs_names := <[name := fs_next s]> (fs_names s);
                 fs_files := <[fs_next s := {| fi_data := ""; fi_synced := true; fi_mode := temp_mode |}]> (fs_files s);
                 fs_next := S (fs_next s) |}).

Definition remove (s : fs) (name : string) : fs :=
  {| fs_names := delete name (fs_names s); fs_files := fs_files s; fs_next := fs_next s |}.

Definition rename (s : fs) (from to : string) : fs :=
  match fs_names s !! from with
  | Some i => {| fs_names := <[to := i]> (delete from (fs_names s)); fs_files := fs_files s; fs_next := fs_next s |}
  | None => s
  end.

(** What a reader of a name sees. *)
Definition read (s : fs) (name : string) : option string := (fs_names s !! name) ≫= λ i, fi_data <$> fs_files s !! i.

(** ** atomicWrite *)

(** The answers of the system calls: [sys_Write] says how much is written, and
    the error; [sys_Remove] whether the temporary file can be removed. *)
Record system := {
  sys_MkdirAll : option string;
  sys_CreateTemp : result string string;
  sys_Write : nat * option string;
  sys_Sync : option string;
  sys_Close : option string;
  sys_Chmod : option string;
  sys_Rename : option string;
  sys_Remove : bool;
}.

(** A sequence of system calls: the states it goes through, the last one, and
    what it returns. *)
Definition io (A : Type) : Type := fs → list fs * fs * result string A.

#[export] Instance io_ret : MRet io := λ A a s, ([], s, Ok a).
#[export] Instance io_bind : MBind io := λ A B k m s,
  let '(t1, s1, r) := m s in
  match r with
  | Err e => (t1, s1, Err e)
  | Ok a => let '(t2, s2, r) := k a s1 in (t1 ++ t2, s2, r)
  end.

(** A call that changes the file system when it succeeds. *)
Definition syscall (change : fs → fs) (err : option string) : io unit := λ s,
  match err with
  | Some e => ([s], s, Err e)
  | None => ([change s], change s, Ok ())
  end.

Section atomic_write.
Context (sys : system).

Definition CreateTemp : io (string * nat) := λ s,
  match sys_CreateTemp sys with
  | Err e => ([s], s, Err e)
  | Ok tmp => let '(i, s1) := create s tmp in ([s1], s1, Ok (tmp, i))
  end.

(** [f.Write]: also a failed call leaves what it wrote. *)
Definition Write (i : nat) (data : string) : io unit := λ s,
  let s1 := update_file s i (λ f, {| fi_data := str_take (sys_Write sys).1 data; fi_synced := false; fi_mode := fi_mode f |}) in
  ([s1], s1, match (sys_Write sys).2 with Some e => Err e | None => Ok () end).

Definition Sync (i : nat) : io unit :=
  syscall (λ s, update_file s i (λ f, {| fi_data := fi_data f; fi_synced := true; fi_mode := fi_mode f |})) (sys_Sync sys).

Definition Chmod (i : nat) (mode : nat) : io unit :=
  syscall (λ s, update_file s i (λ f, {| fi_data := fi_data f; fi_synced := fi_synced f; fi_mode := mode |})) (sys_Chmod sys).

(** [if err := ...; err != nil { _ = os.Remove(tmp); return err }] *)
Definition or_remove (tmp : string) (m : io unit) : io unit := λ s,
  let '(t, s1, r) := m s in
  match r with
  | Ok _ => (t, s1, r)
  | Err e => let s2 := if sys_Remove sys then remove s1 tmp else s1 in (t ++ [s2], s2, Err e)
  end.

(** The part of [atomicWrite] between the creation and the rename. *)
Definition fill (tmp : string) (i : nat) (data : string) (mode : nat) : io unit :=
  _ ← or_remove tmp (Write i data);
  _ ← or_remove tmp (Sync i);
  _ ← or_remove tmp (syscall id (sys_Close sys));
  or_remove tmp (Chmod i mode).

Definition atomicWrite (outPath data : string) (mode : nat) : io unit :=
  _ ← syscall id (sys_MkdirAll sys);
  '(tmp, i) ← CreateTemp;
  _ ← fill tmp i data mode;
  or_remove tmp (syscall (λ s, rename s tmp outPath) (sys_Rename sys)).
End atomic_write.

(** ** Renderers and hooks *)

(** [GoTemplate]: [parse] compiles the text, with the functions it may use. *)
Definition GoTemplate {T Tpl Funcs} (parse : option Funcs → string → result string Tpl) (execute : Tpl → T → result string string)
    (read_file : string → result string string) (tmplPath : string) (funcs : option Funcs) : result string (T → result string string) :=
  raw ← map_err (λ e, "render: read template " +:+ tmplPath +:+ ": " +:+ e) (read_file tmplPath);
  tpl ← map_err (λ e, "render: parse template " +:+ tmplPath +:+ ": " +:+ e) (parse funcs raw);
  Ok (execute tpl).

(** [SignalProcess]: [kill] sends the signal, which must be one of the system. *)
Definition SignalProcess (read_file : string → result string string) (find_process : Z → option string)
    (kill : Z → option string) (is_syscall_signal : bool) (pidFile : string) : result string unit :=
  raw ← map_err (λ e, "render: read pid " +:+ pidFile +:+ ": " +:+ e) (read_file pidFile);
  match Atoi (TrimSpace raw) with
  | Some pid =>
      if (pid <=? 0)%Z then Err ("render: bad pid in " +:+ pidFile)
      else match find_process pid with
           | Some e => Err e
           | None => if negb is_syscall_signal then Err "render: signal is not a syscall.Signal"
                     else match kill pid with Some e => Err e | None => Ok () end
           end
  | None => Err ("render: bad pid in " +:+ pidFile)
  end.

(** [HTTPGet]: the request and the status of the response. *)
Definition HTTPGet (get : string → result string Z) (url : string) : result string unit :=
  status ← get url;
  if (400 <=? status)%Z then Err ("render: http " +:+ url) else Ok ().

(** [ReloadSystemd] *)
Definition ReloadSystemd (run : list string → option string) (unit_ : string) : result string unit :=
  match run ["systemctl"; "reload"; unit_] with Some e => Err e | None => Ok () end.

(** ** What may be seen *)

(** A write that reports no error has written all of the data. *)
Definition writes_all (sys : system) (data : string) : Prop := (sys_Write sys).2 = None → String.length data ≤ (sys_Write sys).1.

(** The names of [s0] with the files of [s1], of which only what is on the disk is certain. *)
Definition crashed (s0 s1 s2 : fs) : Prop :=
  fs_names s2 = fs_names s0 ∧
  ∀ i f, fs_files s1 !! i = Some f → fi_synced f = true → fi_data <$> fs_files s2 !! i = Some (fi_data f).

(** Files that names point to exist, and their numbers are not reused. *)
Definition fs_ok (s : fs) : Prop :=
  (∀ name i, fs_names s !! name = Some i → is_Some (fs_files s !! i)) ∧ ∀ i, is_Some (fs_files s !! i) → i < fs_next s.

Definition durable (s : fs) (name : string) : Prop := ∀ i f, fs_names s !! name = Some i → fs_files s !! i = Some f → fi_synced f = true.

(** ** Lemmas *)

Section states.
Context (sys : system) (s : fs) (tmp : string).

(** The file system with the temporary file [f] in it. *)
Definition with_temp (f : file) : fs :=
  {| fs_names := <[tmp := fs_next s]> (fs_names s); fs_files := <[fs_next s := f]> (fs_files s); fs_next := S (fs_next s) |}.

Lemma update_with_temp f u : update_file (with_temp f) (fs_next s) u = with_temp (u f).
Proof. unfold update_file, with_temp. cbn. rewrite lookup_insert_eq. unfold set_file. cbn. by rewrite insert_insert_eq. Qed.

(** The states before the rename. *)
Definition before (s1 : fs) : Prop := s1 = s ∨ ∃ f, s1 = with_temp f ∨ s1 = remove (with_temp f) tmp.

(** The states after a failure. *)
Definition abandoned (s1 : fs) : Prop := s1 = s ∨ ∃ f, s1 = if sys_Remove sys then remove (with_temp f) tmp else with_temp f.

Lemma before_temp f : before (with_temp f).
Proof. right. exists f. by left. Qed.

Lemma before_abandoned s1 : abandoned s1 → before s1.
Proof. intros [->|(f & ->)]; [by left|right]. exists f. destruct (sys_Remove sys); [by right|by left]. Qed.

(** A step that turns the temporary file [f] into [v f], or is abandoned. *)
Definition turns {A} (m : io A) (v : file → file) (a : A) : Prop :=
  ∀ f, let '(t, s', r) := m (with_temp f) in
  Forall before t ∧ match r with Ok b => b = a ∧ s' = with_temp (v f) | Err _ => abandoned s' end.

Lemma turns_bind {A B} v w u a b (m : io A) (k : A → io B) :
  turns m v a → turns (k a) w b → (∀ f, w (v f) = u f) → turns (m ≫= k) u b.
Proof.
  intros Hm Hk Hu f. specialize (Hm f). unfold mbind, io_bind. destruct (m (with_temp f)) as [[t s1] [a'|e]]; [|done].
  destruct Hm as [Ht [-> ->]]. specialize (Hk (v f)). destruct (k a (with_temp (v f))) as [[t2 s2] r]. destruct Hk as [Ht2 Hr].
  rewrite <- Hu. split; [by apply Forall_app|done].
Qed.

Lemma turns_or_remove (m : io unit) v :
  (∀ f, ∃ g r, m (with_temp f) = ([with_temp g], with_temp g, r) ∧ (r = Ok () → g = v f)) → turns (or_remove sys tmp m) v ().
Proof.
  intros Hm f. destruct (Hm f) as (g & r & E & Hg). unfold or_remove. rewrite E. destruct r as [[]|e].
  - split; [constructor; [apply before_temp|constructor]|]. by rewrite Hg.
  - split; [|right; by exists g]. constructor; [apply before_temp|]. constructor; [|constructor]. apply before_abandoned. right. by exists g.
Qed.

Lemma turns_syscall (u : fs → fs) v err : (∀ f, u (with_temp f) = with_temp (v f)) → turns (or_remove sys tmp (syscall u err)) v ().
Proof.
  intros Hu. apply turns_or_remove. intros f. unfold syscall. destruct err as [e|]; [by exists f, (Err e)|].
  exists (v f), (Ok ()). by rewrite Hu.
Qed.
End states.


(** The file that takes the place of [outPath]. *)
Definition complete (data : string) (mode : nat) : file := {| fi_data := data; fi_synced := true; fi_mode := mode |}.

Definition filled (data : string) (f : file) : file := {| fi_data := data; fi_synced := false; fi_mode := fi_mode f |}.

Definition flushed (f : file) : file := {| fi_data := fi_data f; fi_synced := true; fi_mode := fi_mode f |}.

Definition moded (mode : nat) (f : file) : file := {| fi_data := fi_data f; fi_synced := fi_synced f; fi_mode := mode |}.

Lemma fill_turns sys s tmp data mode :
  writes_all sys data → turns sys s tmp (fill sys tmp (fs_next s) data mode) (λ _, complete data mode) ().
Proof.
  intros Hw. unfold fill. eapply (turns_bind _ _ _ (filled data) (λ f, moded mode (flushed f)) _ () ()).
  { apply turns_or_remove. intros f. unfold Write. rewrite update_with_temp. eexists _, _. split; [reflexivity|].
    destruct (sys_Write sys).2 eqn:E; [done|]. intros _. unfold filled. f_equal. apply str_take_ge. by apply Hw. }
  2: { done. }
  eapply (turns_bind _ _ _ flushed (moded mode) _ () ()); [|eapply (turns_bind _ _ _ id (moded mode) _ () ())|].
  - apply turns_syscall. intros f. apply update_with_temp.
  - by apply turns_syscall.
  - apply turns_syscall. intros f. apply update_with_temp.
  - done.
  - done.
Qed.

(** The states [atomicWrite] goes through: those before the rename, and then the renamed one if all succeeds. *)
Lemma atomicWrite_shape sys outPath data mode s tmp :
  (∀ t, sys_CreateTemp sys = Ok t → t = tmp) → writes_all sys data →
  let '(t, s', r) := atomicWrite sys outPath data mode s in
  match r with
  | Ok _ => ∃ t0, t = t0 ++ [s'] ∧ Forall (before s tmp) t0 ∧ s' = rename (with_temp s tmp (complete data mode)) tmp outPath
  | Err _ => Forall (before s tmp) t ∧ abandoned sys s tmp s'
  end.
Proof.
  intros Htmp Hw. assert (Hs : before s tmp s) by by left. assert (Ha : abandoned sys s tmp s) by by left.
  unfold atomicWrite, mbind, io_bind, syscall, CreateTemp.
  destruct (sys_MkdirAll sys); [by split; [apply Forall_singleton|]|]. destruct (sys_CreateTemp sys) as [tmp'|e] eqn:E.
  2: { split; [|done]. cbn [app]. by rewrite !Forall_cons. }
  rewrite (Htmp _ eq_refl). unfold create. pose proof (fill_turns sys s tmp data mode Hw) as Hf.
  specialize (Hf {| fi_data := ""; fi_synced := true; fi_mode := temp_mode |}). unfold with_temp at 1 in Hf.
  assert (Hall : ∀ t, Forall (before s tmp) t → Forall (before s tmp)
            (id s :: {| fs_names := <[tmp := fs_next s]> (fs_names s);
                        fs_files := <[fs_next s := {| fi_data := ""; fi_synced := true; fi_mode := temp_mode |}]> (fs_files s);
                        fs_next := S (fs_next s) |} :: t)).
  { intros t Ht. rewrite !Forall_cons. split_and!; [done|apply before_temp|done]. }
  destruct (fill sys tmp _ data mode _) as [[t s1] [[]|e]]; destruct Hf as [Ht Hr]; [|split; [by apply Hall|done]].
  destruct Hr as [_ ->]. unfold or_remove. destruct (sys_Rename sys).
  - split; [|right; by exists (complete data mode)]. apply Hall. rewrite !Forall_app, !Forall_singleton.
    split_and!; [done|apply before_temp|]. apply (before_abandoned sys). right. by eexists.
  - eexists (_ :: _ :: t). split; [done|]. by split; [apply Hall|].
Qed.

Section reading.
Context (s : fs) (tmp outPath : string) (Hok : fs_ok s) (Hfresh : fs_names s !! tmp = None).

(** Before the rename all other names are as they were, with their files. *)
Lemma before_names s1 name : before s tmp s1 → name ≠ tmp → fs_names s1 !! name = fs_names s !! name.
Proof. intros [->|(f & [->| ->])] Hn; [done| |]; cbn; [by rewrite lookup_insert_ne|]. by rewrite lookup_delete_ne, lookup_insert_ne. Qed.

Lemma before_files s1 i : before s tmp s1 → i ≠ fs_next s → fs_files s1 !! i = fs_files s !! i.
Proof. intros [->|(f & [->| ->])] Hn; [done| |]; cbn; by rewrite lookup_insert_ne. Qed.

Lemma old_file name i : fs_names s !! name = Some i → is_Some (fs_files s !! i) ∧ i ≠ fs_next s.
Proof. intros H. destruct Hok as [H1 H2]. specialize (H1 _ _ H). split; [done|]. specialize (H2 _ H1). lia. Qed.

Lemma rename_temp f : rename (with_temp s tmp f) tmp outPath =
  {| fs_names := <[outPath := fs_next s]> (fs_names s); fs_files := <[fs_next s := f]> (fs_files s); fs_next := S (fs_next s) |}.
Proof. unfold rename, with_temp. cbn. by rewrite lookup_insert_eq, delete_insert_id. Qed.

Lemma read_before s1 name : before s tmp s1 → name ≠ tmp → read s1 name = read s name.
Proof.
  intros Hb Hn. unfold read. rewrite (before_names s1) by done. destruct (fs_names s !! name) as [i|] eqn:E; [|done]. cbn.
  by rewrite (before_files s1 i Hb) by by apply (old_file name).
Qed.

Lemma read_renamed f name : name ≠ outPath → read (rename (with_temp s tmp f) tmp outPath) name = read s name.
Proof.
  intros Hn. rewrite rename_temp. unfold read. cbn. rewrite lookup_insert_ne by done.
  destruct (fs_names s !! name) as [i|] eqn:E; [|done]. cbn. rewrite lookup_insert_ne; [done|]. apply not_eq_sym. by apply (old_file name).
Qed.
End reading.

(** What [atomicWrite] starts from: a directory whose files exist, a name for
    the temporary file that no file has, and a destination that is on the disk. *)
Record starts (sys : system) (s : fs) (outPath data : string) : Prop := {
  st_ok : fs_ok s;
  st_fresh : ∀ tmp, sys_CreateTemp sys = Ok tmp → fs_names s !! tmp = None ∧ tmp ≠ outPath;
  st_write : writes_all sys data;
  st_durable : durable s outPath;
}.

(** A name for the temporary file, whether it is made or not. *)
Lemma temp_name sys s outPath data : starts sys s outPath data →
  ∃ tmp, (∀ t, sys_CreateTemp sys = Ok t → t = tmp) ∧ fs_names s !! tmp = None ∧ tmp ≠ outPath.
Proof.
  intros Hs. destruct (sys_CreateTemp sys) as [tmp|e] eqn:E.
  - exists tmp. split; [by intros t [= ->]|]. by apply (st_fresh sys s outPath data Hs).
  - exists (fresh ({[outPath]} ∪ dom (fs_names s) : gset string)). split; [done|].
    pose proof (is_fresh ({[outPath]} ∪ dom (fs_names s) : gset string)) as H.
    split; [apply not_elem_of_dom|]; set_solver.
Qed.

(** The states of a run are all before the rename, but for a last one after it. *)
Lemma run_states sys outPath data mode s tmp t s' r s1 :
  (∀ t, sys_CreateTemp sys = Ok t → t = tmp) → writes_all sys data →
  atomicWrite sys outPath data mode s = (t, s', r) → s1 ∈ t →
  before s tmp s1 ∨ s1 = rename (with_temp s tmp (complete data mode)) tmp outPath.
Proof.
  intros Htmp Hw E Hin. pose proof (atomicWrite_shape sys outPath data mode s tmp Htmp Hw) as H. rewrite E in H.
  destruct r; [|left; by eapply Forall_forall; [apply H|]]. destruct H as (t0 & -> & Ht0 & ->).
  apply elem_of_app in Hin as [Hin|Hin%list_elem_of_singleton]; [left; by eapply Forall_forall|by right].
Qed.

(** In a run, the states before a state that is before the rename are so too. *)
Lemma run_order sys outPath data mode s tmp t1 s1 t2 s' r s0 :
  (∀ t, sys_CreateTemp sys = Ok t → t = tmp) → writes_all sys data →
  atomicWrite sys outPath data mode s = (t1 ++ s1 :: t2, s', r) → s0 ∈ s :: t1 ++ [s1] →
  before s tmp s0 ∨ s0 = s1 ∧ s1 = rename (with_temp s tmp (complete data mode)) tmp outPath.
Proof.
  intros Htmp Hw E [->|Hin]%elem_of_cons; [left; by left|].
  pose proof (atomicWrite_shape sys outPath data mode s tmp Htmp Hw) as H. rewrite E in H.
  assert (Hin' : s0 ∈ t1 ++ s1 :: t2) by (apply elem_of_app in Hin; apply elem_of_app; set_solver).
  destruct r; [|left; by eapply Forall_forall; [apply H|]]. destruct H as (t0 & Ht & Ht0 & ->).
  destruct t2 as [|x t2' _] using rev_ind.
  - apply app_inj_tail in Ht as [-> Hs1]. apply elem_of_app in Hin as [Hin|Hin%list_elem_of_singleton]; [left; by eapply Forall_forall|right; by subst].
  - rewrite app_comm_cons, app_assoc in Ht. apply app_inj_tail in Ht as [<- _]. left. eapply Forall_forall; [exact Ht0|].
    apply elem_of_app in Hin. apply elem_of_app. set_solver.
Qed.

Lemma crashed_file s0 s1 s2 i f :
  crashed s0 s1 s2 → fs_files s1 !! i = Some f → fi_synced f = true → fi_data <$> fs_files s2 !! i = Some (fi_data f).
Proof. intros [_ H]. apply H. Qed.

(** After a crash before the rename the destination holds what it held. *)
Lemma crash_before s tmp outPath s0 s1 s2 :
  fs_ok s → durable s outPath → tmp ≠ outPath → before s tmp s0 → (∀ i, i ≠ fs_next s → fs_files s1 !! i = fs_files s !! i) →
  crashed s0 s1 s2 → read s2 outPath = read s outPath.
Proof.
  intros Hok Hd Hne Hb Hf Hc. unfold read. rewrite (proj1 Hc), (before_names s tmp s0) by done.
  destruct (fs_names s !! outPath) as [i|] eqn:E; [|done]. cbn. destruct (old_file s Hok _ _ E) as [[f Hi] Hn].
  rewrite Hi. apply (crashed_file s0 s1); [done|by rewrite Hf|by apply (Hd i)].
Qed.

(** C30: [atomicWrite], at every state it goes through and after a crash in any
    of them (with names as they were then or at an earlier state, and only
    synced contents certain), leaves at the destination either the contents
    that were there or the whole of the new ones; no other file changes.  When
    it succeeds the new contents, with the mode, are there and no temporary
    file is; when it fails the old contents are, and the directory is as it
    was if the temporary file could be removed. *)
Theorem atomic_write_safe sys s outPath data mode (Hs : starts sys s outPath data) :
  let '(t, s', r) := atomicWrite sys outPath data mode s in
  (∀ s1, s1 ∈ t → (read s1 outPath = read s outPath ∨ read s1 outPath = Some data)
    ∧ ∀ name, is_Some (fs_names s !! name) → name ≠ outPath → read s1 name = read s name)
  ∧ (∀ t1 s1 t2 s0 s2, t = t1 ++ s1 :: t2 → s0 ∈ s :: t1 ++ [s1] → crashed s0 s1 s2 →
       read s2 outPath = read s outPath ∨ read s2 outPath = Some data)
  ∧ match r with
    | Ok _ => (∃ i, fs_names s' = <[outPath := i]> (fs_names s) ∧ fs_files s' !! i = Some (complete data mode))
    | Err _ => read s' outPath = read s outPath ∧ (sys_Remove sys = true → fs_names s' = fs_names s)
    end.
Proof.
  destruct (temp_name sys s outPath data Hs) as (tmp & Htmp & Hfresh & Hne). destruct Hs as [Hok _ Hw Hd].
  pose proof (atomicWrite_shape sys outPath data mode s tmp Htmp Hw) as Hshape.
  destruct (atomicWrite sys outPath data mode s) as [[t s'] r] eqn:E. split_and!.
  - intros s1 Hin. assert (Hother : ∀ name, is_Some (fs_names s !! name) → name ≠ tmp) by (intros name [i Hi] ->; congruence).
    destruct (run_states _ _ _ _ _ _ _ _ _ _ Htmp Hw E Hin) as [Hb| ->].
    + split; [left; by eapply read_before|]. intros name Hn _. eapply read_before; [done|exact Hb|by apply Hother].
    + split; [right|intros name _ Hn; by apply read_renamed]. rewrite rename_temp by done. unfold read. cbn [fs_names fs_files].
      rewrite lookup_insert_eq. cbn [mbind option_bind]. by rewrite lookup_insert_eq.
  - intros t1 s1 t2 s0 s2 -> Hin Hc. assert (Hin1 : s1 ∈ t1 ++ s1 :: t2) by (apply elem_of_app; right; left).
    destruct (run_order _ _ _ _ _ _ _ _ _ _ _ _ Htmp Hw E Hin) as [Hb|[-> ->]].
    + left. apply (crash_before s tmp outPath s0 s1); try done. intros i Hi.
      destruct (run_states _ _ _ _ _ _ _ _ _ _ Htmp Hw E Hin1) as [Hb1| ->]; [by eapply before_files|].
      rewrite rename_temp by done. cbn. by rewrite lookup_insert_ne.
    + right. unfold read. rewrite (proj1 Hc). rewrite rename_temp in Hc |- * by done. cbn [fs_names]. rewrite lookup_insert_eq. cbn [mbind option_bind].
      apply (crashed_file _ _ s2 _ (complete data mode) Hc); [apply lookup_insert_eq|done].
  - destruct r as [[]|e].
    + destruct Hshape as (t0 & _ & _ & ->). rewrite rename_temp by done. exists (fs_next s). split; [done|apply lookup_insert_eq].
    + destruct Hshape as [_ Ha]. split.
      { apply (read_before s tmp Hok); [exact (before_abandoned sys s tmp s' Ha)|by apply not_eq_sym]. }
      intros Hr. destruct Ha as [->|(f & ->)]; [done|]. rewrite Hr. cbn. by apply delete_insert_id.
Qed.

(** An old file of two letters, and a new one of three. *)
Definition one_file : fs :=
  {| fs_names := {["app.conf" := 0]}; fs_files := {[0 := complete "v1" 420]}; fs_next := 1 |}.

Definition all_works : system :=
  {| sys_MkdirAll := None; sys_CreateTemp := Ok ".fastconf-render-1"; sys_Write := (3, None); sys_Sync := None;
     sys_Close := None; sys_Chmod := None; sys_Rename := None; sys_Remove := true |}.

Example replaced :
  let '(t, s', r) := atomicWrite all_works "app.conf" "v22" 420 one_file in
  (length t, read s' "app.conf", read s' ".fastconf-render-1", r) = (7, Some "v22", None, Ok ()).
Proof. reflexivity. Qed.

Lemma atomic_write_safe_witness :
  starts all_works one_file "app.conf" "v22" ∧
  let '(t, s', r) := atomicWrite all_works "app.conf" "v22" 420 one_file in
  (∀ s1, s1 ∈ t → (read s1 "app.conf" = read one_file "app.conf" ∨ read s1 "app.conf" = Some "v22")
    ∧ ∀ name, is_Some (fs_names one_file !! name) → name ≠ "app.conf" → read s1 name = read one_file name)
  ∧ (∀ t1 s1 t2 s0 s2, t = t1 ++ s1 :: t2 → s0 ∈ one_file :: t1 ++ [s1] → crashed s0 s1 s2 →
       read s2 "app.conf" = read one_file "app.conf" ∨ read s2 "app.conf" = Some "v22")
  ∧ match r with
    | Ok _ => (∃ i, fs_names s' = <["app.conf" := i]> (fs_names one_file) ∧ fs_files s' !! i = Some (complete "v22" 420))
    | Err _ => read s' "app.conf" = read one_file "app.conf" ∧ (sys_Remove all_works = true → fs_names s' = fs_names one_file)
    end.
Proof.
  assert (H : starts all_works one_file "app.conf" "v22").
  { split.
    - split.
      + intros name i H. unfold one_file in H. cbn [fs_names] in H. apply lookup_singleton_Some in H as [_ <-]. by eexists.
      + intros i [f H]. unfold one_file in H. cbn [fs_files] in H. apply lookup_singleton_Some in H as [<- _]. cbn. lia.
    - by intros tmp [= <-].
    - intros _. cbn. lia.
    - intros i f H1 H2. unfold one_file in H2. cbn [fs_files] in H2. apply lookup_singleton_Some in H2 as [_ <-]. done. }
  split; [exact H|]. exact (atomic_write_safe all_works one_file "app.conf" "v22" 420 H).
Defined.
