(* ===== verification/Lifecycle.v ===== *)
(** * The lifecycle of a manager (manager.go, reload_queue.go, file_watch.go, provider_watch.go)

    [New], [startBackground], [Shutdown], [Close] and [finishClose] with the
    goroutines they start, those of the coalescer's timers included, as a step
    relation: one step per operation on the wait group, a channel, the context or
    the [sync.Once].  What panics in Go (a send on a closed channel, a second
    close, a negative counter) is a flag.  The steps of code that the manager only
    calls (the stages and subscribers of a request, the [Watch] of a provider) are
    kept apart: whether they are ever made is a hypothesis of the liveness claim. *)
From S2P Require Import Prelude Manager.
Open Scope nat_scope.

(** ** Goroutines and how they are started *)

Inductive worker := ReloadLoop | FileWatcher | ProviderWatcher (i : nat).

#[export] Instance worker_eq_dec : EqDecision worker.
Proof. solve_decision. Defined.

(** [m.bgWG.Add(1)] and the [go] statement that follows it. *)
Inductive start_op := Add | Go (w : worker).

Definition spawn (w : worker) : list start_op := [Add; Go w].

(** What [startBackground] depends on: the watch option, whether the sources
    are a virtual file system, the paths to watch, whether the system gives a
    watcher for them, and which providers are watchers. *)
Record start_config := {
  sc_FileWatch : bool;
  sc_virtual : bool;
  sc_paths : list string;
  sc_watcher : option string;
  sc_providers : list bool;
}.

Definition startFileWatcher (c : start_config) : list start_op * option string :=
  if sc_virtual c then ([], None)
  else if length (sc_paths c) =? 0 then ([], None)
  else match sc_watcher c with
       | Some e => ([], Some e)
       | None => (spawn FileWatcher, None)
       end.

Definition startProviderWatchers (c : start_config) : list start_op :=
  concat (imap (λ i (watches : bool), if watches then spawn (ProviderWatcher i) else []) (sc_providers c)).

Definition startBackground (c : start_config) : list start_op * option string :=
  let '(files, err) := if sc_FileWatch c then startFileWatcher c else ([], None) in
  (spawn ReloadLoop ++ files ++ (if err then [] else startProviderWatchers c), err).

(** ** The callbacks of the coalescer and the watches of the providers *)

(** A call of the function that [startFileWatcher] gives to the coalescer, for a
    key: on a goroutine of a timer, or inline, in the file watcher, for a burst
    that a [Push] evicts.  It has not looked at the lifetime yet, has found the
    manager open, or waits in [requestReload]. *)
Inductive cb_phase := Fired | Passed | Requesting.
Record callback := { cb_inline : bool; cb_key : string; cb_at : cb_phase }.

Definition at_phase (cb : callback) (p : cb_phase) : callback := {| cb_inline := cb_inline cb; cb_key := cb_key cb; cb_at := p |}.

Record side := {
  sd_watching : gset nat;            (* the providers whose [Watch] or channel a watcher is in *)
  sd_callbacks : list callback;
  sd_busy : gset string;             (* the keys whose [dirReloadSlot] is running *)
  sd_pending : gset string;          (* the keys whose slot is pending *)
  sd_inside : option nat;            (* the call of [Shutdown] a subscriber waits for, on the writer *)
}.

Definition with_watching (d : side) (w : gset nat) : side :=
  {| sd_watching := w; sd_callbacks := sd_callbacks d; sd_busy := sd_busy d; sd_pending := sd_pending d; sd_inside := sd_inside d |}.
Definition with_inside (d : side) (i : option nat) : side :=
  {| sd_watching := sd_watching d; sd_callbacks := sd_callbacks d; sd_busy := sd_busy d; sd_pending := sd_pending d; sd_inside := i |}.
Definition with_callbacks (d : side) (l : list callback) (busy pending : gset string) : side :=
  {| sd_watching := sd_watching d; sd_callbacks := l; sd_busy := busy; sd_pending := pending; sd_inside := sd_inside d |}.

(** [requestReload] returns: the slot asks again if it is pending, otherwise the callback is over. *)
Inductive cb_answered (d : side) : side → Prop :=
| a_again l1 cb l2 : sd_callbacks d = l1 ++ cb :: l2 → cb_at cb = Requesting → cb_key cb ∈ sd_pending d →
    cb_answered d (with_callbacks d (sd_callbacks d) (sd_busy d) (sd_pending d ∖ {[cb_key cb]}))
| a_over l1 cb l2 : sd_callbacks d = l1 ++ cb :: l2 → cb_at cb = Requesting → cb_key cb ∉ sd_pending d →
    cb_answered d (with_callbacks d (l1 ++ l2) (sd_busy d ∖ {[cb_key cb]}) (sd_pending d)).

(** A callback ends when the lifetime is over or events are paused, joins the
    slot that runs for its key, or runs it; once the lifetime is over its request
    is refused. *)
Inductive cb_step (canceled : bool) (d : side) : side → Prop :=
| c_late l1 cb l2 : sd_callbacks d = l1 ++ cb :: l2 → cb_at cb = Fired → canceled = true →
    cb_step canceled d (with_callbacks d (l1 ++ l2) (sd_busy d) (sd_pending d))
| c_passes l1 cb l2 : sd_callbacks d = l1 ++ cb :: l2 → cb_at cb = Fired → canceled = false →
    cb_step canceled d (with_callbacks d (l1 ++ at_phase cb Passed :: l2) (sd_busy d) (sd_pending d))
| c_paused l1 cb l2 : sd_callbacks d = l1 ++ cb :: l2 → cb_at cb = Passed →
    cb_step canceled d (with_callbacks d (l1 ++ l2) (sd_busy d) (sd_pending d))
| c_joins l1 cb l2 : sd_callbacks d = l1 ++ cb :: l2 → cb_at cb = Passed → cb_key cb ∈ sd_busy d →
    cb_step canceled d (with_callbacks d (l1 ++ l2) (sd_busy d) ({[cb_key cb]} ∪ sd_pending d))
| c_runs l1 cb l2 : sd_callbacks d = l1 ++ cb :: l2 → cb_at cb = Passed → cb_key cb ∉ sd_busy d →
    cb_step canceled d (with_callbacks d (l1 ++ at_phase cb Requesting :: l2) ({[cb_key cb]} ∪ sd_busy d) (sd_pending d ∖ {[cb_key cb]}))
| c_refused d' : canceled = true → cb_answered d d' → cb_step canceled d d'.

(** ** State *)

Section life.
Context {E : Type}.

(** Where [New] is: starting goroutines, back with the manager, or closing what it started. *)
Inductive starter := Starting (todo : list start_op) (err : option string) | Ready | Failing.

(** Where a call of [Shutdown] is; it has returned [nil], or [ctx.Err()]. *)
Inductive call := Entering | Testing | Blocked | Returned (deadline : bool).

(** Where [finishClose] is. *)
Inductive finisher := Idle | WaitingWorkers | ClosingErrors | ClosingDone | Finished.

Record life := {
  lf_new : starter;
  lf_wg : nat;                       (* bgWG *)
  lf_running : list worker;
  lf_serving : option nat;           (* the publications and errors left of the request being served *)
  lf_canceled : bool;                (* lifetime is done *)
  lf_once : bool;                    (* closeOnce has run *)
  lf_finish : finisher;
  lf_errors : list E;                (* errorsCh *)
  lf_errors_closed : bool;
  lf_done_closed : bool;             (* closeDone *)
  lf_calls : list (bool * call);     (* whether the context can end, and the call *)
  lf_reading : bool;                 (* a consumer ranges over Errors() *)
  lf_published : nat;                (* history: the snapshots published *)
  lf_panicked : bool;
  lf_side : side;
}.

Definition init (c : start_config) : life :=
  let '(ops, err) := startBackground c in
  {| lf_new := Starting ops err; lf_wg := 0; lf_running := []; lf_serving := None; lf_canceled := false; lf_once := false;
     lf_finish := Idle; lf_errors := []; lf_errors_closed := false; lf_done_closed := false; lf_calls := [];
     lf_reading := true; lf_published := 0; lf_panicked := false;
     lf_side := {| sd_watching := ∅; sd_callbacks := []; sd_busy := ∅; sd_pending := ∅; sd_inside := None |} |}.

(** ** Updates *)

Definition set_new (s : life) (n : starter) (wg : nat) (running : list worker) (calls : list (bool * call)) : life :=
  {| lf_new := n; lf_wg := wg; lf_running := running; lf_serving := lf_serving s; lf_canceled := lf_canceled s;
     lf_once := lf_once s; lf_finish := lf_finish s; lf_errors := lf_errors s; lf_errors_closed := lf_errors_closed s;
     lf_done_closed := lf_done_closed s; lf_calls := calls; lf_reading := lf_reading s; lf_published := lf_published s;
     lf_panicked := lf_panicked s; lf_side := lf_side s |}.

Definition set_serving (s : life) (n : option nat) (published : nat) : life :=
  {| lf_new := lf_new s; lf_wg := lf_wg s; lf_running := lf_running s; lf_serving := n; lf_canceled := lf_canceled s;
     lf_once := lf_once s; lf_finish := lf_finish s; lf_errors := lf_errors s; lf_errors_closed := lf_errors_closed s;
     lf_done_closed := lf_done_closed s; lf_calls := lf_calls s; lf_reading := lf_reading s; lf_published := published;
     lf_panicked := lf_panicked s; lf_side := lf_side s |}.

Definition set_errors (s : life) (q : list E) (reading : bool) : life :=
  {| lf_new := lf_new s; lf_wg := lf_wg s; lf_running := lf_running s; lf_serving := lf_serving s; lf_canceled := lf_canceled s;
     lf_once := lf_once s; lf_finish := lf_finish s; lf_errors := q; lf_errors_closed := lf_errors_closed s;
     lf_done_closed := lf_done_closed s; lf_calls := lf_calls s; lf_reading := reading; lf_published := lf_published s;
     lf_panicked := lf_panicked s; lf_side := lf_side s |}.

Definition set_close (s : life) (canceled once : bool) (f : finisher) (errors_closed done_closed panicked : bool) : life :=
  {| lf_new := lf_new s; lf_wg := lf_wg s; lf_running := lf_running s; lf_serving := lf_serving s; lf_canceled := canceled;
     lf_once := once; lf_finish := f; lf_errors := lf_errors s; lf_errors_closed := errors_closed;
     lf_done_closed := done_closed; lf_calls := lf_calls s; lf_reading := lf_reading s; lf_published := lf_published s;
     lf_panicked := panicked; lf_side := lf_side s |}.

Definition set_side (s : life) (d : side) : life :=
  {| lf_new := lf_new s; lf_wg := lf_wg s; lf_running := lf_running s; lf_serving := lf_serving s; lf_canceled := lf_canceled s;
     lf_once := lf_once s; lf_finish := lf_finish s; lf_errors := lf_errors s; lf_errors_closed := lf_errors_closed s;
     lf_done_closed := lf_done_closed s; lf_calls := lf_calls s; lf_reading := lf_reading s; lf_published := lf_published s;
     lf_panicked := lf_panicked s; lf_side := d |}.

Definition panic (s : life) : life :=
  set_close s (lf_canceled s) (lf_once s) (lf_finish s) (lf_errors_closed s) (lf_done_closed s) true.

Definition set_calls (s : life) (calls : list (bool * call)) : life := set_new s (lf_new s) (lf_wg s) (lf_running s) calls.

Definition set_call (s : life) (i : nat) (c : bool * call) : life := set_calls s (<[i := c]> (lf_calls s)).

(** ** Operations *)

(** [m.errorsCh <- re], which makes room by dropping the oldest error. *)
Definition send_error (s : life) (e : E) : life :=
  if lf_errors_closed s then panic s
  else match publish_loop (S (length (lf_errors s))) (lf_errors s) e with
       | Some q => set_errors s q (lf_reading s)
       | None => s
       end.

(** [defer m.bgWG.Done()] *)
Definition worker_done (s : life) (others : list worker) : life :=
  match lf_wg s with
  | O => panic s
  | S n => set_new s (lf_new s) n others (lf_calls s)
  end.

(** [m.closeOnce.Do(func() { m.lifetimeCancel(); go m.finishClose() })] *)
Definition close_once (s : life) : life :=
  if lf_once s then s
  else set_close s true true WaitingWorkers (lf_errors_closed s) (lf_done_closed s) (lf_panicked s).

(** [close(m.errorsCh)] and [close(m.closeDone)] *)
Definition close_errors (s : life) : life :=
  set_close s (lf_canceled s) (lf_once s) ClosingDone true (lf_done_closed s) (lf_panicked s || lf_errors_closed s).

Definition close_done (s : life) : life :=
  set_close s (lf_canceled s) (lf_once s) Finished (lf_errors_closed s) true (lf_panicked s || lf_done_closed s).

(** When the lifetime is over, the reload loop returns between requests, the file
    watcher outside the coalescer's function, and the watcher of a provider when
    it is neither in [Watch] nor waiting for its channel. *)
Definition at_rest (s : life) (w : worker) : Prop :=
  match w with
  | ReloadLoop => lf_serving s = None
  | FileWatcher => ∀ cb, cb ∈ sd_callbacks (lf_side s) → cb_inline cb = false
  | ProviderWatcher i => i ∉ sd_watching (lf_side s)
  end.

Definition may_return (s : life) (w : worker) : Prop := lf_canceled s = true ∧ at_rest s w.

(** ** Steps *)

(** The manager's own steps. *)
Inductive own_step (s : life) : life → Prop :=
(** [startBackground] *)
| o_add todo err : lf_new s = Starting (Add :: todo) err → own_step s (set_new s (Starting todo err) (S (lf_wg s)) (lf_running s) (lf_calls s))
| o_go w todo err : lf_new s = Starting (Go w :: todo) err → own_step s (set_new s (Starting todo err) (lf_wg s) (w :: lf_running s) (lf_calls s))
(** [New] returns the manager, or calls [Close] on it *)
| o_started : lf_new s = Starting [] None → own_step s (set_new s Ready (lf_wg s) (lf_running s) (lf_calls s))
| o_failed e : lf_new s = Starting [] (Some e) → own_step s (set_new s Failing (lf_wg s) (lf_running s) [(false, Entering)])
(** a goroutine of the wait group returns; the file watcher stops the coalescer first *)
| o_return l1 w l2 : lf_running s = l1 ++ w :: l2 → may_return s w → own_step s (worker_done s (l1 ++ l2))
(** [Shutdown] *)
| o_once i b : lf_calls s !! i = Some (b, Entering) → own_step s (set_call (close_once s) i (b, Testing))
| o_test_done i b : lf_calls s !! i = Some (b, Testing) → lf_done_closed s = true → own_step s (set_call s i (b, Returned false))
| o_test_open i b : lf_calls s !! i = Some (b, Testing) → lf_done_closed s = false → own_step s (set_call s i (b, Blocked))
| o_done i b : lf_calls s !! i = Some (b, Blocked) → lf_done_closed s = true → own_step s (set_call s i (b, Returned false))
| o_deadline i : lf_calls s !! i = Some (true, Blocked) → own_step s (set_call s i (true, Returned true))
(** [finishClose] *)
| o_wait : lf_finish s = WaitingWorkers → lf_wg s = 0 →
    own_step s (set_close s (lf_canceled s) (lf_once s) ClosingErrors (lf_errors_closed s) (lf_done_closed s) (lf_panicked s))
| o_close_errors : lf_finish s = ClosingErrors → own_step s (close_errors s)
| o_close_done : lf_finish s = ClosingDone → own_step s (close_done s)
(** the consumer of [Errors] *)
| o_recv e q : lf_reading s = true → lf_errors s = e :: q → own_step s (set_errors s q true)
| o_eof : lf_reading s = true → lf_errors s = [] → lf_errors_closed s = true → own_step s (set_errors s [] false)
(** the coalescer's callbacks *)
| o_callback d : cb_step (lf_canceled s) (lf_side s) d → own_step s (set_side s d)
(** a subscriber that called [Shutdown] goes on when the call returns *)
| o_inside i b r : sd_inside (lf_side s) = Some i → lf_calls s !! i = Some (b, Returned r) → own_step s (set_side s (with_inside (lf_side s) None)).

(** Steps that wait for others: for the code that serves a request, which
    publishes, reports an error, or is done; for the [Watch] of a provider or its
    channel, after which the watcher goes on, or is over if the provider opts out;
    for the writer to answer a callback. *)
Inductive outside := Serving | Watching (i : nat) | Answering.

Inductive outside_step (s : life) : outside → life → Prop :=
| x_publish n : lf_serving s = Some (S n) → sd_inside (lf_side s) = None → outside_step s Serving (set_serving s (Some n) (S (lf_published s)))
| x_error n e : lf_serving s = Some (S n) → sd_inside (lf_side s) = None → outside_step s Serving (send_error (set_serving s (Some n) (lf_published s)) e)
| x_served : lf_serving s = Some 0 → sd_inside (lf_side s) = None → outside_step s Serving (set_serving s None (lf_published s))
| x_watched i : i ∈ sd_watching (lf_side s) → outside_step s (Watching i) (set_side s (with_watching (lf_side s) (sd_watching (lf_side s) ∖ {[i]})))
| x_opted_out i l1 l2 : i ∈ sd_watching (lf_side s) → lf_running s = l1 ++ ProviderWatcher i :: l2 →
    outside_step s (Watching i) (worker_done (set_side s (with_watching (lf_side s) (sd_watching (lf_side s) ∖ {[i]}))) (l1 ++ l2))
| x_answered d : cb_answered (lf_side s) d → outside_step s Answering (set_side s d).

(** What may begin: the reload loop takes a request, which will publish or report
    [n] times; a caller closes the manager, with a context that can end or cannot,
    or a subscriber does, on the writer; a provider is watched, unless the lifetime
    is over; a burst of events is flushed while the coalescer runs, which is until
    the file watcher returns. *)
Inductive env_step (s : life) : life → Prop :=
| e_serve n : ReloadLoop ∈ lf_running s → lf_serving s = None → lf_canceled s = false → env_step s (set_serving s (Some n) (lf_published s))
| e_call b : lf_new s = Ready → env_step s (set_calls s (lf_calls s ++ [(b, Entering)]))
| e_call_inside b n : lf_new s = Ready → lf_serving s = Some n → sd_inside (lf_side s) = None →
    env_step s (set_side (set_calls s (lf_calls s ++ [(b, Entering)])) (with_inside (lf_side s) (Some (length (lf_calls s)))))
| e_watch i : ProviderWatcher i ∈ lf_running s → lf_canceled s = false →
    env_step s (set_side s (with_watching (lf_side s) ({[i]} ∪ sd_watching (lf_side s))))
| e_fire key inl : FileWatcher ∈ lf_running s →
    env_step s (set_side s (with_callbacks (lf_side s) (sd_callbacks (lf_side s) ++ [{| cb_inline := inl; cb_key := key; cb_at := Fired |}])
                              (sd_busy (lf_side s)) (sd_pending (lf_side s)))).

Definition moves (s s' : life) : Prop := own_step s s' ∨ ∃ a, outside_step s a s'.

Inductive steps : life → life → Prop :=
| steps_refl s : steps s s
| steps_move s s1 s2 : moves s s1 → steps s1 s2 → steps s s2
| steps_env s s1 s2 : env_step s s1 → steps s1 s2 → steps s s2.

(** The steps that are sure to be made in the end: the manager's own and, once the
    lifetime is over, those of the code that is [live]. *)
Definition due (live : outside → Prop) (s s' : life) : Prop :=
  own_step s s' ∨ lf_canceled s = true ∧ ∃ a, live a ∧ outside_step s a s'.

(** Every execution from [s] in which nothing begins reaches [P]. *)
Inductive eventually (live : outside → Prop) (P : life → Prop) (s : life) : Prop :=
| ev_now : P s → eventually live P s
| ev_later : (∃ s', due live s s') → (∀ s', moves s s' → eventually live P s') → eventually live P s.
End life.
Arguments life : clear implicits.

(** ** Invariant *)

Section invariant.
Context {E : Type}.
Implicit Types s : life E.

Definition back (c : call) : bool := match c with Returned _ => true | _ => false end.

(** Each [Add] is followed by its [go] statement. *)
Inductive paired : list start_op → Prop :=
| paired_nil : paired []
| paired_spawn w todo : paired todo → paired (Add :: Go w :: todo).

(** What is left of [startBackground], and how many goroutines are counted that do not run yet. *)
Definition starting (n : starter) (ahead : nat) : Prop :=
  match n with
  | Starting todo _ => ahead = 0 ∧ paired todo ∨ ahead = 1 ∧ ∃ w rest, todo = Go w :: rest ∧ paired rest
  | _ => ahead = 0
  end.

(** The channels at each point of [finishClose]. *)
Definition finisher_ok s : Prop :=
  match lf_finish s with
  | Idle => lf_canceled s = false ∧ lf_once s = false ∧ lf_errors_closed s = false ∧ lf_done_closed s = false
  | WaitingWorkers => lf_canceled s = true ∧ lf_once s = true ∧ lf_errors_closed s = false ∧ lf_done_closed s = false
  | ClosingErrors => lf_canceled s = true ∧ lf_once s = true ∧ lf_running s = [] ∧ lf_errors_closed s = false ∧ lf_done_closed s = false
  | ClosingDone => lf_canceled s = true ∧ lf_once s = true ∧ lf_running s = [] ∧ lf_errors_closed s = true ∧ lf_done_closed s = false
  | Finished => lf_canceled s = true ∧ lf_once s = true ∧ lf_running s = [] ∧ lf_errors_closed s = true ∧ lf_done_closed s = true
  end.

Definition call_ok s (c : bool * call) : Prop :=
  match c with
  | (_, Entering) => True
  | (_, Testing) => lf_once s = true
  | (_, Blocked) => lf_once s = true
  | (b, Returned d) => lf_once s = true ∧ if d then b = true else lf_done_closed s = true
  end.

(** Only a running watcher is in [Watch], only the file watcher runs callbacks
    inline, and a subscriber waits only while a request is served. *)
Record side_ok (d : side) (running : list worker) (serving : option nat) (calls : nat) : Prop := {
  side_watching : ∀ i, i ∈ sd_watching d → ProviderWatcher i ∈ running;
  side_inline : ∀ cb, cb ∈ sd_callbacks d → cb_inline cb = true → FileWatcher ∈ running;
  side_inside : ∀ i, sd_inside d = Some i → serving ≠ None ∧ i < calls;
}.

Record life_ok s : Prop := {
  ok_count : ∃ ahead, lf_wg s = length (lf_running s) + ahead ∧ starting (lf_new s) ahead;
  ok_calls : match lf_new s with Starting _ _ => lf_calls s = [] | Failing => lf_calls s ≠ [] | Ready => True end;
  ok_serving : lf_serving s ≠ None → ReloadLoop ∈ lf_running s;
  ok_finisher : finisher_ok s;
  ok_call : Forall (call_ok s) (lf_calls s);
  ok_idle : lf_calls s = [] → lf_once s = false;
  ok_reader : lf_reading s = false → lf_errors s = [] ∧ lf_errors_closed s = true;
  ok_panic : lf_panicked s = false;
  ok_side : side_ok (lf_side s) (lf_running s) (lf_serving s) (length (lf_calls s));
}.

Lemma starting_add todo err ahead : starting (Starting (Add :: todo) err) ahead → ahead = 0 ∧ starting (Starting todo err) 1.
Proof.
  intros [[-> Hp]|(-> & w & rest & Hw & _)]; [|done]. inversion Hp; subst. split; [done|]. right. split; [done|]. by eexists _, _.
Qed.

Lemma starting_go w todo err ahead : starting (Starting (Go w :: todo) err) ahead → ahead = 1 ∧ starting (Starting todo err) 0.
Proof. intros [[-> Hp]|(-> & w' & rest & [= -> ->] & Hp)]; [inversion Hp|]. split; [done|]. by left. Qed.

Lemma starting_nil err ahead : starting (Starting [] err) ahead → ahead = 0.
Proof. by intros [[-> _]|(_ & ? & ? & ? & _)]. Qed.

(** The steps keep what has been closed closed. *)
Lemma call_ok_mono s s' c : (lf_once s = true → lf_once s' = true) → (lf_done_closed s = true → lf_done_closed s' = true) →
  call_ok s c → call_ok s' c.
Proof. intros H1 H2. destruct c as [b [| | |[]]]; cbn; intuition. Qed.

Lemma calls_insert s s' i b c c' : (lf_once s = true → lf_once s' = true) → (lf_done_closed s = true → lf_done_closed s' = true) →
  lf_calls s !! i = Some (b, c) → Forall (call_ok s) (lf_calls s) → call_ok s' (b, c') → Forall (call_ok s') (<[i := (b, c')]> (lf_calls s)).
Proof.
  intros H1 H2 Hi Hf Hc. apply Forall_insert; [|done]. eapply Forall_impl; [exact Hf|]. intros x. by apply call_ok_mono.
Qed.

Lemma insert_not_nil {A} i (x : A) l : <[i := x]> l = [] → l = [].
Proof. intros H. apply nil_length_inv. rewrite <- (length_insert l i x), H. done. Qed.

Lemma lookup_not_nil {A} i (x : A) l : l !! i = Some x → l ≠ [].
Proof. by intros H ->. Qed.

(** Calling [closeOnce.Do]. *)
Lemma close_once_ok s : life_ok s →
  lf_once (close_once s) = true ∧ lf_canceled (close_once s) = true ∧ finisher_ok (close_once s).
Proof.
  intros H. pose proof (ok_finisher s H) as Hf. unfold close_once. destruct (lf_once s) eqn:Ho.
  - unfold finisher_ok in Hf |- *. destruct (lf_finish s); intuition congruence.
  - unfold finisher_ok in Hf |- *. cbn. destruct (lf_finish s); intuition congruence.
Qed.

(** ** Callbacks, watches and the subscriber inside *)

Definition phase_rank (cb : callback) : nat := match cb_at cb with Fired => 4 | Passed => 3 | Requesting => 1 end.

Definition side_rank (d : side) : nat :=
  size (sd_watching d) + sum_list_with phase_rank (sd_callbacks d) + 2 * size (sd_pending d) + (if sd_inside d then 1 else 0).

Lemma side_mono d running running' serving serving' n n' :
  side_ok d running serving n → (∀ w, w ∈ running → w ∈ running') → (serving ≠ None → serving' ≠ None) → n ≤ n' →
  side_ok d running' serving' n'.
Proof.
  intros [Hw Hi Hin] Hr Hs Hn. split; [by eauto|by eauto|]. intros i Hx. destruct (Hin i Hx). split; [by apply Hs|lia].
Qed.

(** What a step of the callbacks leaves alone: no callback becomes another's goroutine. *)
Definition kept (d d' : side) : Prop :=
  sd_watching d' = sd_watching d ∧ sd_inside d' = sd_inside d ∧ length (sd_callbacks d') ≤ length (sd_callbacks d)
  ∧ ∀ cb, cb ∈ sd_callbacks d' → ∃ cb0, cb0 ∈ sd_callbacks d ∧ cb_inline cb0 = cb_inline cb.

Lemma kept_drop d l1 cb l2 busy pending : sd_callbacks d = l1 ++ cb :: l2 → kept d (with_callbacks d (l1 ++ l2) busy pending).
Proof.
  intros Hd. unfold kept. cbn. rewrite Hd, !length_app. cbn. split_and!; [done..|lia|]. intros x Hx. exists x. split; [set_solver|done].
Qed.

Lemma kept_phase d l1 cb l2 ph busy pending : sd_callbacks d = l1 ++ cb :: l2 → kept d (with_callbacks d (l1 ++ at_phase cb ph :: l2) busy pending).
Proof.
  intros Hd. unfold kept. cbn. rewrite Hd, !length_app. cbn. split_and!; [done..|lia|].
  intros x Hx. apply elem_of_app in Hx as [Hx|[->|Hx]%elem_of_cons]; [exists x|exists cb|exists x]; (split; [set_solver|done]).
Qed.

Lemma pending_drop (P : gset string) k : k ∈ P → size (P ∖ {[k]}) < size P.
Proof. intros Hk. apply subset_size. set_solver. Qed.

Lemma pending_less (P : gset string) k : size (P ∖ {[k]}) ≤ size P.
Proof. apply subseteq_size. set_solver. Qed.

Lemma pending_add (P : gset string) k : size ({[k]} ∪ P) ≤ S (size P).
Proof. rewrite size_union_alt, size_singleton. pose proof (pending_less P k). lia. Qed.

Lemma sum_middle {A} (f : A → nat) l1 x l2 : sum_list_with f (l1 ++ x :: l2) = f x + sum_list_with f (l1 ++ l2).
Proof. rewrite !sum_list_with_app. cbn [sum_list_with]. lia. Qed.

Lemma cb_answered_kept d d' : cb_answered d d' → kept d d' ∧ side_rank d' < side_rank d.
Proof.
  intros [l1 cb l2 Hd Hat Hk|l1 cb l2 Hd Hat Hk]; unfold side_rank; cbn.
  - split; [unfold kept; cbn; split_and!; [done..|lia|by eauto]|]. pose proof (pending_drop _ _ Hk). lia.
  - split; [by eapply kept_drop|]. rewrite Hd, sum_middle. unfold phase_rank at 2. rewrite Hat. lia.
Qed.

Lemma cb_step_kept c d d' : cb_step c d d' → kept d d' ∧ side_rank d' < side_rank d.
Proof.
  intros [l1 cb l2 Hd Hat _|l1 cb l2 Hd Hat _|l1 cb l2 Hd Hat|l1 cb l2 Hd Hat Hk|l1 cb l2 Hd Hat Hk|d'' _ Ha];
    [..|by apply cb_answered_kept]; (split; [first [by eapply kept_drop|by eapply kept_phase]|]);
    unfold side_rank; cbn; rewrite Hd, !sum_middle; unfold phase_rank; cbn; rewrite Hat.
  - lia.
  - lia.
  - lia.
  - pose proof (pending_add (sd_pending d) (cb_key cb)). lia.
  - pose proof (pending_less (sd_pending d) (cb_key cb)). lia.
Qed.

Lemma kept_ok d d' running serving n : kept d d' → side_ok d running serving n → side_ok d' running serving n.
Proof.
  intros (Hw & Hin & _ & Hcb) [Kw Ki Kin]. split.
  - by rewrite Hw.
  - intros cb Hx Hi. destruct (Hcb cb Hx) as (cb0 & H0 & E0). apply (Ki cb0 H0). congruence.
  - by rewrite Hin.
Qed.

(** Once the lifetime is over no callback is stuck. *)
Lemma callback_can_move d cb l : sd_callbacks d = cb :: l → ∃ d', cb_step true d d'.
Proof.
  intros Hd. destruct (cb_at cb) eqn:Hat.
  - eexists. by apply (c_late true d [] cb l).
  - eexists. by apply (c_paused true d [] cb l).
  - destruct (decide (cb_key cb ∈ sd_pending d)); eexists; (apply c_refused; [done|]);
      [by apply (a_again d [] cb l)|by apply (a_over d [] cb l)].
Qed.

Lemma set_side_ok s d : life_ok s → side_ok d (lf_running s) (lf_serving s) (length (lf_calls s)) → life_ok (set_side s d).
Proof. intros [] Hd. by split. Qed.

(** ** Each operation keeps the invariant *)

Lemma start_op_ok s op todo err : life_ok s → lf_new s = Starting (op :: todo) err →
  life_ok (set_new s (Starting todo err) (match op with Add => S (lf_wg s) | Go _ => lf_wg s end)
             (match op with Add => lf_running s | Go w => w :: lf_running s end) (lf_calls s)).
Proof.
  intros H Hn. pose proof (ok_calls s H) as Hc. rewrite Hn in Hc. destruct (ok_count s H) as (ahead & Hwg & Hs). rewrite Hn in Hs.
  pose proof (ok_idle s H Hc) as Ho. pose proof (ok_finisher s H) as Hf. unfold finisher_ok in Hf.
  split; cbn; [| | | |exact (ok_call s H)|exact (ok_idle s H)|exact (ok_reader s H)|exact (ok_panic s H)|].
  - destruct op as [|w].
    + apply starting_add in Hs as [-> Hs]. exists 1. split; [lia|done].
    + apply starting_go in Hs as [-> Hs]. exists 0. split; [cbn; lia|done].
  - done.
  - intros Hne. destruct op; [by apply (ok_serving s H)|]. right. by apply (ok_serving s H).
  - unfold finisher_ok. cbn. destruct (lf_finish s); intuition congruence.
  - eapply side_mono; [exact (ok_side s H)| |done|done]. intros w Hw. destruct op; [done|by right].
Qed.

Lemma started_ok s err : life_ok s → lf_new s = Starting [] err →
  life_ok (set_new s (if err then Failing else Ready) (lf_wg s) (lf_running s) (if err then [(false, Entering)] else lf_calls s)).
Proof.
  intros H Hn. pose proof (ok_calls s H) as Hc. rewrite Hn in Hc. destruct (ok_count s H) as (ahead & Hwg & Hs). rewrite Hn in Hs.
  apply starting_nil in Hs as ->. pose proof (ok_idle s H Hc) as Ho. pose proof (ok_finisher s H) as Hf.
  split; cbn; [| |exact (ok_serving s H)|exact Hf| | |exact (ok_reader s H)|exact (ok_panic s H)|].
  - exists 0. by destruct err.
  - by destruct err.
  - destruct err; [by repeat constructor|exact (ok_call s H)].
  - by destruct err.
  - eapply side_mono; [exact (ok_side s H)|done|done|]. rewrite Hc. destruct err; cbn; lia.
Qed.

Lemma set_serving_ok s n k : life_ok s → ReloadLoop ∈ lf_running s → (n = None → sd_inside (lf_side s) = None) → life_ok (set_serving s n k).
Proof.
  intros [] Hr Hn. split; try done. cbn. destruct ok_side0 as [Kw Ki Kin]. split; [done|done|].
  intros i Hi. destruct (Kin i Hi) as [_ ?]. split; [|done]. intros ->. rewrite (Hn eq_refl) in Hi. done.
Qed.

Lemma send_error_ok s e : life_ok s → lf_running s ≠ [] → life_ok (send_error s e).
Proof.
  intros H Hr. unfold send_error. pose proof (ok_finisher s H) as Hf. destruct (lf_errors_closed s) eqn:Hcl.
  { unfold finisher_ok in Hf. destruct (lf_finish s); intuition congruence. }
  destruct (publish_loop _ _ e) as [q|]; [|done]. destruct H. split; try done. cbn. intros Hd. intuition congruence.
Qed.

Lemma worker_done_ok s l1 w l2 : life_ok s → lf_running s = l1 ++ w :: l2 → at_rest s w → life_ok (worker_done s (l1 ++ l2)).
Proof.
  intros H Hr Hm. destruct (ok_count s H) as (ahead & Hwg & Hs). unfold worker_done. rewrite Hr, length_app in Hwg. cbn in Hwg.
  destruct (lf_wg s) as [|n]; [lia|]. pose proof (ok_finisher s H) as Hf. pose proof (ok_serving s H) as Hsv.
  pose proof (ok_side s H) as Hside. destruct H. split; try done; cbn.
  - exists ahead. rewrite length_app. split; [lia|done].
  - intros Hne. specialize (Hsv Hne). rewrite Hr in Hsv. apply elem_of_app in Hsv as [Hi|[<-|Hi]%elem_of_cons]; [set_solver| |set_solver].
    by destruct Hne.
  - unfold finisher_ok in *. cbn. assert (∀ l : list worker, l1 ++ w :: l2 ≠ []) by (intros _ Hx; by destruct l1).
    rewrite Hr in Hf. destruct (lf_finish s); intuition congruence.
  - rewrite Hr in Hside. destruct Hside as [Kw Ki Kin]. split; [| |done].
    + intros i Hi. specialize (Kw i Hi). apply elem_of_app in Kw as [?|[<-|?]%elem_of_cons]; [set_solver|by destruct (Hm Hi)|set_solver].
    + intros cb Hcb Hi. specialize (Ki cb Hcb Hi). apply elem_of_app in Ki as [?|[<-|?]%elem_of_cons]; [set_solver| |set_solver].
      specialize (Hm cb Hcb). congruence.
Qed.

(** A call moves on: what the new point claims holds, and closing has begun. *)
Lemma set_call_ok s i b c c' : life_ok s → lf_calls s !! i = Some (b, c) → call_ok s (b, c') → life_ok (set_call s i (b, c')).
Proof.
  intros H Hi Hc. pose proof (lookup_not_nil _ _ _ Hi) as Hne. pose proof (ok_call s H) as Hf. destruct H. split; try done; cbn.
  - destruct (lf_new s); [done|done|]. by intros Hx%insert_not_nil.
  - by eapply (calls_insert s (set_call s i (b, c'))).
  - by intros Hx%insert_not_nil.
  - by rewrite length_insert.
Qed.

Lemma called_once s i b : life_ok s → lf_calls s !! i = Some (b, Entering) → life_ok (set_call (close_once s) i (b, Testing)).
Proof.
  intros H Hi. destruct (close_once_ok s H) as (Ho & _ & Hf). pose proof (lookup_not_nil _ _ _ Hi) as Hne.
  apply (set_call_ok _ i b Entering); [|unfold close_once; by destruct (lf_once s)|done].
  revert Ho Hf. unfold close_once. destruct (lf_once s) eqn:E1; [done|]. intros _ Hf. pose proof (ok_call s H) as Hcs.
  destruct H. split; try done. eapply Forall_impl; [exact Hcs|]. intros x. by apply call_ok_mono.
Qed.

(** A step of [finishClose]. *)
Lemma finish_ok s f ec dc : life_ok s → lf_once s = true → (lf_done_closed s = true → dc = true) → (lf_errors_closed s = true → ec = true) →
  finisher_ok (set_close s (lf_canceled s) (lf_once s) f ec dc (lf_panicked s)) →
  life_ok (set_close s (lf_canceled s) (lf_once s) f ec dc (lf_panicked s)).
Proof.
  intros H Ho Hd He Hf. pose proof (ok_call s H) as Hc. destruct H. split; try done.
  - eapply Forall_impl; [exact Hc|]. intros x. by apply call_ok_mono.
  - cbn. intros Hr. destruct (ok_reader0 Hr) as [? ?]. split; [done|]. by apply He.
Qed.

Lemma close_errors_ok s : life_ok s → lf_finish s = ClosingErrors → life_ok (close_errors s).
Proof.
  intros H Hf. pose proof (ok_finisher s H) as Hs. unfold finisher_ok in Hs. rewrite Hf in Hs. destruct Hs as (Hc & Ho & Hr & He & Hd).
  unfold close_errors. rewrite He, orb_false_r. by apply finish_ok.
Qed.

Lemma close_done_ok s : life_ok s → lf_finish s = ClosingDone → life_ok (close_done s).
Proof.
  intros H Hf. pose proof (ok_finisher s H) as Hs. unfold finisher_ok in Hs. rewrite Hf in Hs. destruct Hs as (Hc & Ho & Hr & He & Hd).
  unfold close_done. rewrite Hd, orb_false_r. by apply finish_ok.
Qed.

Lemma waited_ok s : life_ok s → lf_finish s = WaitingWorkers → lf_wg s = 0 →
  life_ok (set_close s (lf_canceled s) (lf_once s) ClosingErrors (lf_errors_closed s) (lf_done_closed s) (lf_panicked s)).
Proof.
  intros H Hf Hwg. pose proof (ok_finisher s H) as Hs. unfold finisher_ok in Hs. rewrite Hf in Hs. destruct Hs as (Hc & Ho & He & Hd).
  apply finish_ok; try done. unfold finisher_ok. cbn. split_and!; try done.
  destruct (ok_count s H) as (ahead & Hn & _). apply nil_length_inv. lia.
Qed.

Lemma set_errors_ok s q reading : life_ok s → (reading = false → q = [] ∧ lf_errors_closed s = true) → life_ok (set_errors s q reading).
Proof. intros [] Hr. by split. Qed.

Lemma serving_ok s n : life_ok s → lf_serving s = Some n → ReloadLoop ∈ lf_running s.
Proof. intros H Hs. apply (ok_serving s H). by rewrite Hs. Qed.

Lemma own_ok s s' : life_ok s → own_step s s' → life_ok s'.
Proof.
  intros H Hstep. destruct Hstep as
    [todo err Hn|w todo err Hn|Hn|e Hn|l1 w l2 Hr [_ Hm]|i b Hi|i b Hi Hd|i b Hi Hd|i b Hi Hd|i Hi|Hf Hwg|Hf|Hf|e q Hr Hq|Hr Hq He|d Hd|i b r Hin Hi].
  - by apply (start_op_ok s Add).
  - by apply (start_op_ok s (Go w)).
  - by apply (started_ok s None).
  - by apply (started_ok s (Some e)).
  - by eapply worker_done_ok.
  - by apply called_once.
  - eapply set_call_ok; [done..|]. split; [|done]. apply (Forall_lookup_1 _ _ _ _ (ok_call s H) Hi).
  - eapply set_call_ok; [done..|]. apply (Forall_lookup_1 _ _ _ _ (ok_call s H) Hi).
  - eapply set_call_ok; [done..|]. split; [|done]. apply (Forall_lookup_1 _ _ _ _ (ok_call s H) Hi).
  - eapply set_call_ok; [done..|]. split; [|done]. apply (Forall_lookup_1 _ _ _ _ (ok_call s H) Hi).
  - by apply waited_ok.
  - by apply close_errors_ok.
  - by apply close_done_ok.
  - by apply set_errors_ok.
  - by apply set_errors_ok.
  - apply set_side_ok; [done|]. eapply kept_ok; [by apply cb_step_kept in Hd as [? _]|exact (ok_side s H)].
  - apply set_side_ok; [done|]. by destruct (ok_side s H).
Qed.

Lemma unwatched_ok s i : life_ok s → life_ok (set_side s (with_watching (lf_side s) (sd_watching (lf_side s) ∖ {[i]}))).
Proof.
  intros H. apply set_side_ok; [done|]. destruct (ok_side s H) as [Kw Ki Kin]. split; [|done|done].
  cbn. intros j Hj. apply Kw. set_solver.
Qed.

Lemma outside_ok s a s' : life_ok s → outside_step s a s' → life_ok s'.
Proof.
  intros H Hstep. destruct Hstep as [n Hs Hi|n e Hs Hi|Hs Hi|i Hi|i l1 l2 Hi Hr|d Hd].
  - apply set_serving_ok; [done|by eapply serving_ok|done].
  - pose proof (serving_ok _ _ H Hs). apply send_error_ok; [by apply set_serving_ok|]. cbn. by intros Hx; rewrite Hx in *; set_solver.
  - apply set_serving_ok; [done|by eapply serving_ok|done].
  - by apply unwatched_ok.
  - apply (worker_done_ok _ l1 (ProviderWatcher i) l2); [by apply unwatched_ok|done|]. cbn. set_solver.
  - apply set_side_ok; [done|]. eapply kept_ok; [by apply cb_answered_kept in Hd as [? _]|exact (ok_side s H)].
Qed.

Lemma moves_ok s s' : life_ok s → moves s s' → life_ok s'.
Proof. intros H [Hs|[a Hs]]; [by eapply own_ok|by eapply outside_ok]. Qed.

Lemma call_begins_ok s b : life_ok s → lf_new s = Ready → life_ok (set_calls s (lf_calls s ++ [(b, Entering)])).
Proof.
  intros H Hn. pose proof (ok_call s H) as Hf. pose proof (ok_side s H) as Hside. destruct H. split; try done; cbn.
  - by rewrite Hn.
  - apply Forall_app. split; [|by repeat constructor]. eapply Forall_impl; [exact Hf|]. intros x. by apply call_ok_mono.
  - by intros [_ ?]%app_nil.
  - eapply side_mono; [exact Hside|done|done|]. rewrite length_app. cbn. lia.
Qed.

Lemma life_env_ok s s' : life_ok s → env_step s s' → life_ok s'.
Proof.
  intros H Hstep. destruct Hstep as [n Hr Hs Hc|b Hn|b n Hn Hs Hi|i Hr Hc|key inl Hr].
  - by apply set_serving_ok.
  - by apply call_begins_ok.
  - apply set_side_ok; [by apply call_begins_ok|]. destruct (ok_side s H) as [Kw Ki Kin]. split; [done|done|].
    cbn. intros i [= <-]. rewrite Hs, length_app. split; [done|cbn; lia].
  - apply set_side_ok; [done|]. destruct (ok_side s H) as [Kw Ki Kin]. split; [|done|done]. cbn. intros j [->%elem_of_singleton|?]%elem_of_union; auto.
  - apply set_side_ok; [done|]. destruct (ok_side s H) as [Kw Ki Kin]. split; [done| |done]. cbn.
    intros cb [?| ->%list_elem_of_singleton]%elem_of_app; [by apply Ki|done].
Qed.

Lemma life_steps_ok s s' : life_ok s → steps s s' → life_ok s'.
Proof. intros H Hs. induction Hs; [done| |]; eauto using moves_ok, life_env_ok. Qed.

(** ** What is left to do *)

Definition start_rank (n : starter) : nat := match n with Starting todo _ => 4 + 2 * length todo | _ => 0 end.

Definition serving_rank (n : option nat) : nat := match n with Some n => 1 + 2 * n | None => 0 end.

Definition finish_rank (f : finisher) : nat :=
  match f with Idle => 4 | WaitingWorkers => 3 | ClosingErrors => 2 | ClosingDone => 1 | Finished => 0 end.

Definition call_rank (c : bool * call) : nat := match c.2 with Entering => 3 | Testing => 2 | Blocked => 1 | Returned _ => 0 end.

Definition rank s : nat :=
  start_rank (lf_new s) + serving_rank (lf_serving s) + finish_rank (lf_finish s) + sum_list_with call_rank (lf_calls s)
  + length (lf_running s) + length (lf_errors s) + (if lf_reading s then 1 else 0) + side_rank (lf_side s).

Lemma sum_insert {A} (f : A → nat) l i x y : l !! i = Some x → sum_list_with f (<[i := y]> l) + f x = sum_list_with f l + f y.
Proof.
  revert i. induction l as [|z l IH]; intros i Hi; [done|]. destruct i as [|i].
  - injection Hi as ->. cbn. lia.
  - pose proof (IH i Hi) as E1. change (f z + sum_list_with f (<[i := y]> l) + f x = f z + sum_list_with f l + f y). lia.
Qed.

Lemma rank_call s s1 i b c c' : lf_calls s !! i = Some (b, c) → call_rank (b, c') < call_rank (b, c) →
  s1 = s ∨ s1 = close_once s → life_ok s → rank (set_call s1 i (b, c')) < rank s.
Proof.
  intros Hi Hc Hs H. pose proof (sum_insert call_rank _ i _ (b, c') Hi) as Hsum. pose proof (ok_finisher s H) as Hf.
  assert (Hr : lf_calls s1 = lf_calls s ∧ lf_new s1 = lf_new s ∧ lf_running s1 = lf_running s ∧ lf_serving s1 = lf_serving s
               ∧ lf_errors s1 = lf_errors s ∧ lf_reading s1 = lf_reading s ∧ lf_side s1 = lf_side s ∧ finish_rank (lf_finish s1) ≤ finish_rank (lf_finish s)).
  { destruct Hs as [->| ->]; [by split_and!|]. unfold close_once. destruct (lf_once s) eqn:Ho; [by split_and!|]. cbn. split_and!; try done.
    unfold finisher_ok in Hf. destruct (lf_finish s); cbn; [lia|..]; intuition congruence. }
  destruct Hr as (E1 & E2 & E3 & E4 & E5 & E6 & E8 & E7). unfold rank. cbn. rewrite E1, E2, E3, E4, E5, E6, E8. lia.
Qed.

Lemma rank_error s n k e : lf_serving s = Some (S n) → rank (send_error (set_serving s (Some n) k) e) < rank s.
Proof.
  intros Hs. unfold send_error. cbn [lf_errors_closed set_serving lf_errors]. destruct (lf_errors_closed s); [unfold rank; cbn; rewrite Hs; cbn; lia|].
  destruct (publish_loop (S (length (lf_errors s))) (lf_errors s) e) as [q|] eqn:E1; [|unfold rank; cbn; rewrite Hs; cbn; lia].
  assert (Hq : length q ≤ S (length (lf_errors s))).
  { assert (Hg : ∀ fuel (l : list E) q, publish_loop fuel l e = Some q → length q ≤ S (length l)).
    { clear. induction fuel as [|fuel IH]; intros l q Hl; cbn in Hl; [done|]. case_match; [inversion Hl; rewrite length_app; cbn; lia|].
      apply IH in Hl. destruct l; cbn in *; lia. }
    by eapply Hg. }
  unfold rank. cbn -[length]. rewrite Hs. cbn -[length]. lia.
Qed.

Lemma rank_side s d : side_rank d < side_rank (lf_side s) → rank (set_side s d) < rank s.
Proof. unfold rank. cbn. lia. Qed.

Lemma own_rank s s' : life_ok s → own_step s s' → rank s' < rank s.
Proof.
  intros H Hstep. destruct Hstep as
    [todo err Hn|w todo err Hn|Hn|e Hn|l1 w l2 Hr Hm|i b Hi|i b Hi Hd|i b Hi Hd|i b Hi Hd|i Hi|Hf Hwg|Hf|Hf|e q Hr Hq|Hr Hq He|d Hd|i b r Hin Hi].
  - unfold rank. cbn. rewrite Hn. cbn. lia.
  - unfold rank. cbn. rewrite Hn. cbn. lia.
  - unfold rank. cbn. rewrite Hn. cbn. lia.
  - pose proof (ok_calls s H) as Hc. rewrite Hn in Hc. unfold rank. cbn. rewrite Hn, Hc. cbn. lia.
  - destruct (ok_count s H) as (ahead & Hwg & _). unfold worker_done. rewrite Hr, length_app in Hwg. cbn in Hwg.
    destruct (lf_wg s); [lia|]. unfold rank. cbn. rewrite Hr, !length_app. cbn. lia.
  - apply (rank_call s _ i b Entering); [done|cbn; lia|by right|done].
  - apply (rank_call s _ i b Testing); [done|cbn; lia|by left|done].
  - apply (rank_call s _ i b Testing); [done|cbn; lia|by left|done].
  - apply (rank_call s _ i b Blocked); [done|cbn; lia|by left|done].
  - apply (rank_call s _ i true Blocked); [done|cbn; lia|by left|done].
  - unfold rank. cbn. rewrite Hf. cbn. lia.
  - unfold rank. cbn. rewrite Hf. cbn. lia.
  - unfold rank. cbn. rewrite Hf. cbn. lia.
  - unfold rank. cbn. rewrite Hq, Hr. cbn. lia.
  - unfold rank. cbn. rewrite Hq, Hr. cbn. lia.
  - apply rank_side. by apply cb_step_kept in Hd as [_ ?].
  - apply rank_side. unfold side_rank. cbn. rewrite Hin. lia.
Qed.

Lemma unwatched_rank s i : i ∈ sd_watching (lf_side s) →
  side_rank (with_watching (lf_side s) (sd_watching (lf_side s) ∖ {[i]})) < side_rank (lf_side s).
Proof.
  intros Hi. unfold side_rank. cbn. assert (size (sd_watching (lf_side s) ∖ {[i]}) < size (sd_watching (lf_side s))); [|lia].
  apply subset_size. set_solver.
Qed.

Lemma outside_rank s a s' : life_ok s → outside_step s a s' → rank s' < rank s.
Proof.
  intros H Hstep. destruct Hstep as [n Hs Hi|n e Hs Hi|Hs Hi|i Hi|i l1 l2 Hi Hr|d Hd].
  - unfold rank. cbn. rewrite Hs. cbn. lia.
  - by apply rank_error.
  - unfold rank. cbn. rewrite Hs. cbn. lia.
  - by apply rank_side, unwatched_rank.
  - destruct (ok_count s H) as (ahead & Hwg & _). unfold worker_done. rewrite Hr, length_app in Hwg. cbn in Hwg. cbn [lf_wg set_side].
    destruct (lf_wg s); [lia|]. pose proof (unwatched_rank s i Hi). unfold rank. cbn in *. rewrite Hr, !length_app. cbn. lia.
  - apply rank_side. by apply cb_answered_kept in Hd as [_ ?].
Qed.

Lemma moves_rank s s' : life_ok s → moves s s' → rank s' < rank s.
Proof. intros H [Hs|[a Hs]]; [by apply own_rank|by eapply outside_rank]. Qed.

(** ** Progress *)

(** A call of [Shutdown] is under way, or [New] is going to make one. *)
Definition closing s : Prop := lf_calls s ≠ [] ∨ ∃ todo e, lf_new s = Starting todo (Some e).

(** All calls have returned and everything that was started is gone. *)
Definition stopped s : Prop :=
  lf_calls s ≠ [] ∧ Forall (λ c, back c.2 = true) (lf_calls s) ∧ lf_running s = [] ∧ lf_serving s = None
  ∧ sd_callbacks (lf_side s) = [] ∧ lf_finish s = Finished ∧ lf_reading s = false.

(** A subscriber on the writer waits for a call whose context can end. *)
Definition inside_ends s : Prop := ∀ i, sd_inside (lf_side s) = Some i → ∃ c, lf_calls s !! i = Some (true, c).

Lemma call_can_move s i b c : life_ok s → b = true ∨ (lf_once s = true → lf_finish s = Finished) → lf_calls s !! i = Some (b, c) → back c = false →
  ∃ s', own_step s s'.
Proof.
  intros H Hfin Hi Hb. pose proof (Forall_lookup_1 _ _ _ _ (ok_call s H) Hi) as Hc. destruct c; [by eexists; eapply o_once| | |done].
  - destruct (lf_done_closed s) eqn:Hd; [by eexists; eapply o_test_done|by eexists; eapply o_test_open].
  - destruct Hfin as [->|Hfin]; [by eexists; eapply o_deadline|].
    cbn in Hc. pose proof (ok_finisher s H) as Hf. unfold finisher_ok in Hf. rewrite (Hfin Hc) in Hf. destruct Hf as (_ & _ & _ & _ & Hd).
    by eexists; eapply o_done.
Qed.

Lemma starting_can_move s todo err : lf_new s = Starting todo err → ∃ s', own_step s s'.
Proof.
  intros Hn. destruct todo as [|[|w] todo]; [destruct err as [e|]|..]; eexists;
    [by eapply o_failed|by eapply o_started|by eapply o_add|by eapply o_go].
Qed.

(** Before the first call of [closeOnce.Do] some call is about to make it. *)
Lemma not_once_can_move s : life_ok s → lf_calls s ≠ [] → lf_once s = false → ∃ s', own_step s s'.
Proof.
  intros H Hc Ho. destruct (lf_calls s) as [|[b c] calls] eqn:Hcs; [done|]. assert (Hi : lf_calls s !! 0 = Some (b, c)) by by rewrite Hcs.
  pose proof (Forall_lookup_1 _ _ _ _ (ok_call s H) Hi) as Hok. destruct c; [by eexists; eapply o_once|..]; cbn in Hok; intuition congruence.
Qed.

(** When the workers are gone [finishClose] goes on to its end. *)
Lemma finisher_can_move s : life_ok s → lf_once s = true → lf_wg s = 0 → lf_finish s = Finished ∨ ∃ s', own_step s s'.
Proof.
  intros H Ho Hwg. pose proof (ok_finisher s H) as Hf. unfold finisher_ok in Hf. destruct (lf_finish s) eqn:E1; [|right; eexists..|by left].
  - intuition congruence.
  - by apply o_wait.
  - by apply o_close_errors.
  - by apply o_close_done.
Qed.

(** In the end the consumer of the errors sees that they are over, and the calls return. *)
Lemma finished_can_move s : life_ok s → lf_finish s = Finished → lf_calls s ≠ [] → lf_serving s = None → sd_callbacks (lf_side s) = [] →
  stopped s ∨ ∃ s', own_step s s'.
Proof.
  intros H Hfin Hc Hsv Hcb. pose proof (ok_finisher s H) as Hf. unfold finisher_ok in Hf. rewrite Hfin in Hf. destruct Hf as (_ & _ & Hr & He & _).
  destruct (lf_reading s) eqn:Hread.
  { right. destruct (lf_errors s) as [|e q] eqn:Hq; eexists; [by apply o_eof|by eapply o_recv]. }
  destruct (decide (Forall (λ c, back c.2 = true) (lf_calls s))) as [Hall|Hnot]; [left; by repeat split|right].
  apply not_Forall_Exists, Exists_exists in Hnot as ([b c] & Hin & Hb); [|intros c; destruct (back c.2); [by left|by right]].
  apply list_elem_of_lookup in Hin as [i Hi]. apply (call_can_move s i b c H (or_intror (λ _, Hfin)) Hi). cbn in Hb. by destruct (back c).
Qed.

(** Nothing is started, served or called back any more: the watchers return, then the rest. *)
Lemma workers_can_move s : life_ok s → lf_calls s ≠ [] → lf_once s = true → lf_canceled s = true → lf_serving s = None →
  sd_callbacks (lf_side s) = [] → sd_watching (lf_side s) = ∅ → (∀ todo err, lf_new s ≠ Starting todo err) → stopped s ∨ ∃ s', own_step s s'.
Proof.
  intros H Hc Ho Hca Hsv Hcb Hw Hn. destruct (lf_running s) as [|w rest] eqn:Hr.
  - assert (Hwg : lf_wg s = 0).
    { destruct (ok_count s H) as (ahead & Hwg & Hs). rewrite Hr in Hwg. destruct (lf_new s) as [todo err| |]; cbn in *; [by destruct (Hn todo err)|lia..]. }
    destruct (finisher_can_move s H Ho Hwg) as [Hfin|?]; [by apply finished_can_move|by right].
  - right. eexists. apply (o_return s [] w rest); [done|]. split; [done|]. destruct w; cbn; [done| |].
    + rewrite Hcb. by intros ? ?%not_elem_of_nil.
    + rewrite Hw. apply not_elem_of_empty.
Qed.

Section liveness.
Context (live : outside → Prop) (Hlive : ∀ a, live a).

Lemma outside_due s a s' : lf_canceled s = true → outside_step s a s' → ∃ s', due live s s'.
Proof using Hlive. intros Hc Hs. exists s'. right. split; [done|]. exists a. by split. Qed.

Lemma own_due s : (∃ s', own_step s s') → ∃ s', due live s s'.
Proof using Type. intros [s' Hs]. exists s'. by left. Qed.

Lemma progress s : life_ok s → closing s → inside_ends s → stopped s ∨ ∃ s', due live s s'.
Proof using Hlive.
  intros H Hcl Hins. destruct (lf_new s) as [todo err| |] eqn:Hn; [right; by eapply own_due, starting_can_move|..];
    (assert (Hc : lf_calls s ≠ []) by (destruct Hcl as [?|(todo & e & ?)]; congruence));
    (destruct (lf_once s) eqn:Ho; [|right; by apply own_due, not_once_can_move]);
    (assert (Hca : lf_canceled s = true) by
       (pose proof (ok_finisher s H) as Hf; unfold finisher_ok in Hf; destruct (lf_finish s); intuition congruence));
    (destruct (sd_inside (lf_side s)) as [i|] eqn:Hi;
      [right; destruct (Hins i Hi) as [c Hc']; destruct (back c) eqn:Hb;
         [destruct c; try done; eapply own_due; eexists; by eapply o_inside|by eapply own_due, (call_can_move s i true c H (or_introl eq_refl))]|]);
    (destruct (lf_serving s) as [[|n]|] eqn:Hsv; [right; by eapply outside_due, x_served|right; by eapply outside_due, x_publish|]);
    (destruct (sd_callbacks (lf_side s)) as [|cb l] eqn:Hcb;
      [|right; destruct (callback_can_move _ _ _ Hcb) as [d Hd]; eapply own_due; eexists; apply o_callback; by rewrite Hca]);
    (destruct (set_choose_or_empty (sd_watching (lf_side s))) as [[j Hj]|Hw]; [right; by eapply outside_due, x_watched|]);
    (destruct (workers_can_move s H Hc Ho Hca Hsv Hcb) as [?|?]; [by apply leibniz_equiv|congruence|by left|right; by apply own_due]).
Qed.

(** The calls stay, with their contexts, and a subscriber inside waits for the same one. *)
Lemma moves_calls s s' : life_ok s → moves s s' →
  (∀ i b c, lf_calls s !! i = Some (b, c) → ∃ c', lf_calls s' !! i = Some (b, c'))
  ∧ (sd_inside (lf_side s') = sd_inside (lf_side s) ∨ sd_inside (lf_side s') = None).
Proof using Type.
  intros H Hm.
  assert (∀ s1 j b c c', lf_calls s1 = lf_calls s → lf_calls s !! j = Some (b, c) → ∀ i b0 c0, lf_calls s !! i = Some (b0, c0) →
    ∃ c1, lf_calls (set_call s1 j (b, c')) !! i = Some (b0, c1)) as Hset.
  { intros s1 j b c c' Hs1 Hj i b0 c0 Hi. cbn. rewrite Hs1. destruct (decide (j = i)) as [->|Hne].
    - rewrite list_lookup_insert_eq by (by eapply lookup_lt_Some). exists c'. congruence.
    - rewrite list_lookup_insert_ne by done. by eauto. }
  assert (lf_calls (close_once s) = lf_calls s ∧ sd_inside (lf_side (close_once s)) = sd_inside (lf_side s)) as [Hco Hci]
    by (unfold close_once; by destruct (lf_once s)).
  destruct Hm as [Hs|[a Hs]].
  - destruct Hs as [todo err Hn|w todo err Hn|Hn|e Hn|l1 w l2 Hr Hm|i b Hi|i b Hi Hd|i b Hi Hd|i b Hi Hd|i Hi|Hf Hwg|Hf|Hf|e q Hr Hq|Hr Hq He|d Hd|i b r Hin Hi];
      try (split; [by eauto|by left]); try (split; [by eapply Hset|by left]).
    + pose proof (ok_calls s H) as Hc. rewrite Hn in Hc. split; [|by left]. intros i b c. by rewrite Hc.
    + unfold worker_done. destruct (lf_wg s); (split; [by eauto|by left]).
    + apply cb_step_kept in Hd as [(_ & Hin & _) _]. split; [by eauto|by left].
    + split; [by eauto|by right].
  - destruct Hs as [n Hs Hi|n e Hs Hi|Hs Hi|i Hi|i l1 l2 Hi Hr|d Hd]; try (split; [by eauto|by left]).
    + unfold send_error. destruct (lf_errors_closed _); [|destruct (publish_loop _ _ e)]; (split; [by eauto|by left]).
    + unfold worker_done. destruct (lf_wg _); (split; [by eauto|by left]).
    + apply cb_answered_kept in Hd as [(_ & Hin & _) _]. split; [by eauto|by left].
Qed.

Lemma moves_closing s s' : life_ok s → closing s → moves s s' → closing s'.
Proof using Type.
  intros H Hcl Hm. destruct (moves_calls s s' H Hm) as [Hcalls _].
  destruct (lf_calls s) as [|[b c] calls] eqn:Hcs.
  - destruct Hcl as [?|(todo & e & Hn)]; [congruence|]. destruct Hm as [Hs|[a Hs]].
    + destruct Hs; unfold closing; cbn; try (right; by eexists _, _); try congruence;
        try (exfalso; rewrite Hcs in *; by simplify_list_eq).
      * rewrite Hn in *. simplify_eq. right. by eexists _, _.
      * rewrite Hn in *. simplify_eq. right. by eexists _, _.
      * by left.
      * unfold worker_done. destruct (lf_wg s); right; by eexists _, _.
    + destruct Hs; unfold closing; cbn; try (right; by eexists _, _).
      * unfold send_error. destruct (lf_errors_closed _); [|destruct (publish_loop _ _ _)]; right; by eexists _, _.
      * unfold worker_done. destruct (lf_wg _); right; by eexists _, _.
  - left. destruct (Hcalls 0 b c eq_refl) as [c' Hc']. by eapply lookup_not_nil.
Qed.

Lemma moves_inside s s' : life_ok s → inside_ends s → moves s s' → inside_ends s'.
Proof using Type.
  intros H Hi Hm. destruct (moves_calls s s' H Hm) as [Hcalls [Hin|Hin]]; intros i Hx; rewrite Hin in Hx; [|done].
  destruct (Hi i Hx) as [c Hc]. by apply Hcalls in Hc.
Qed.

Lemma closing_stops s : life_ok s → closing s → inside_ends s → eventually live stopped s.
Proof using Hlive.
  remember (rank s) as n eqn:Hn. revert s Hn. induction (lt_wf n) as [n _ IH]. intros s -> H Hcl Hins.
  destruct (progress s H Hcl Hins) as [Hst|Hmove]; [by apply ev_now|]. apply ev_later; [done|]. intros s' Hs.
  eapply (IH (rank s')); [by apply moves_rank|done|by eapply moves_ok|by eapply moves_closing|by eapply moves_inside].
Qed.
End liveness.

(** ** A call that cannot end, from a subscriber *)

(** The writer waits for a call of [Shutdown] without an end, and this one for the writer. *)
Definition deadlocked (i : nat) s : Prop :=
  sd_inside (lf_side s) = Some i ∧ ∃ c, lf_calls s !! i = Some (false, c) ∧ back c = false.

Lemma deadlocked_open i s : life_ok s → deadlocked i s → lf_serving s ≠ None ∧ lf_done_closed s = false.
Proof.
  intros H [Hin _]. destruct (side_inside _ _ _ _ (ok_side s H) i Hin) as [Hs _]. split; [done|].
  pose proof (ok_serving s H Hs) as Hr. pose proof (ok_finisher s H) as Hf. unfold finisher_ok in Hf.
  destruct (lf_finish s); try (by intuition); destruct Hf as (_ & _ & Hx & _); rewrite Hx in Hr; by apply not_elem_of_nil in Hr.
Qed.

Lemma deadlocked_call i j s s1 b c c' : lf_calls s1 = lf_calls s → lf_side s1 = lf_side s → lf_calls s !! j = Some (b, c) →
  (b = false → back c' = false) → deadlocked i s → deadlocked i (set_call s1 j (b, c')).
Proof.
  intros Hc Hsd Hj Hb [Hin (c0 & Hi & H0)]. split; [cbn; by rewrite Hsd|]. cbn. rewrite Hc. destruct (decide (j = i)) as [->|Hne].
  - rewrite list_lookup_insert_eq by (by eapply lookup_lt_Some). assert (b = false) as -> by congruence. exists c'. by auto.
  - rewrite list_lookup_insert_ne by done. by exists c0.
Qed.

Lemma deadlocked_stays i s s' : life_ok s → deadlocked i s → moves s s' ∨ env_step s s' → deadlocked i s'.
Proof.
  intros H Hd. destruct (deadlocked_open i s H Hd) as [Hsv Hopen]. pose proof Hd as [Hin (c0 & Hc0 & Hb0)].
  intros [[Hs|[a Hs]]|Hs].
  - destruct Hs as [todo err Hn|w todo err Hn|Hn|e Hn|l1 w l2 Hr Hm|j b Hj|j b Hj Hdc|j b Hj Hdo|j b Hj Hdc|j Hj|Hf Hwg|Hf|Hf|e q Hr Hq|Hr Hq He|d Hcb|j b r Hj Hr]; try done.
    + pose proof (ok_calls s H) as Hc. rewrite Hn in Hc. by rewrite Hc in Hc0.
    + unfold worker_done. by destruct (lf_wg s).
    + eapply deadlocked_call; [| |exact Hj|done|done]; unfold close_once; by destruct (lf_once s).
    + congruence.
    + by eapply deadlocked_call.
    + congruence.
    + by eapply deadlocked_call.
    + apply cb_step_kept in Hcb as [(_ & Hi & _) _]. split; [cbn; congruence|by exists c0].
    + exfalso. rewrite Hin in Hj. injection Hj as <-. rewrite Hc0 in Hr. injection Hr as <- ->. done.
  - destruct Hs as [n Hn Hi|n e Hn Hi|Hn Hi|j Hj|j l1 l2 Hj Hr|d Hcb]; try congruence; try done.
    + unfold worker_done. by destruct (lf_wg _).
    + apply cb_answered_kept in Hcb as [(_ & Hi & _) _]. split; [cbn; congruence|by exists c0].
  - destruct Hs as [n Hr Hn Hc|b Hn|b n Hn Hx Hi|j Hr Hc|key inl Hr]; try congruence; try done.
    split; [done|]. exists c0. split; [|done]. cbn. by apply lookup_app_l_Some.
Qed.

Lemma deadlocked_steps i s s' : life_ok s → deadlocked i s → steps s s' → deadlocked i s'.
Proof.
  intros H Hd Hs. induction Hs as [s|s s1 s2 H1 _ IH|s s1 s2 H1 _ IH]; [done|..]; apply IH.
  - by eapply moves_ok.
  - eapply deadlocked_stays; [done..|by left].
  - by eapply life_env_ok.
  - eapply deadlocked_stays; [done..|by right].
Qed.

(** ** The beginning *)

Lemma paired_app l1 l2 : paired l1 → paired l2 → paired (l1 ++ l2).
Proof. intros H1 H2. induction H1; [done|by constructor]. Qed.

Lemma startBackground_paired c : paired (startBackground c).1.
Proof.
  assert (Hp : paired (startProviderWatchers c)).
  { unfold startProviderWatchers. assert (Hg : ∀ (f : nat → worker) l, paired (concat (imap (λ i (x : bool), if x then spawn (f i) else []) l))).
    { intros f l. revert f. induction l as [|x l IH]; intros f; cbn; [constructor|]. apply paired_app; [destruct x; repeat constructor|apply (IH (f ∘ S))]. }
    apply (Hg ProviderWatcher). }
  assert (Hf : paired (startFileWatcher c).1).
  { unfold startFileWatcher. destruct (sc_virtual c), (length (sc_paths c) =? 0), (sc_watcher c); cbn; repeat constructor. }
  unfold startBackground. destruct (sc_FileWatch c); [destruct (startFileWatcher c) as [l [e|]]|]; cbn in *; constructor;
    [by rewrite app_nil_r|by apply paired_app|done].
Qed.

Lemma life_init_ok c : life_ok (@init E c).
Proof.
  unfold init. pose proof (startBackground_paired c) as Hp. destruct (startBackground c) as [ops err]. split; cbn; try done.
  - exists 0. split; [done|]. by left.
  - split; [by intros ? ?%not_elem_of_empty|by intros ? ?%not_elem_of_nil|done].
Qed.

(** ** After the close *)

Lemma done_finished s : life_ok s → lf_done_closed s = true → lf_finish s = Finished ∧ lf_running s = [] ∧ lf_serving s = None ∧ lf_errors_closed s = true.
Proof.
  intros H Hd. pose proof (ok_finisher s H) as Hf. unfold finisher_ok in Hf. destruct (lf_finish s); try (intuition congruence).
  destruct Hf as (_ & _ & Hr & He & _). split_and!; try done. destruct (lf_serving s) eqn:Hs; [|done].
  pose proof (serving_ok s _ H Hs) as Hin. rewrite Hr in Hin. by apply not_elem_of_nil in Hin.
Qed.

(** Once [closeDone] is closed nothing is published, errors are only received and no callback begins. *)
Definition after s s' : Prop :=
  lf_done_closed s' = true ∧ lf_published s' = lf_published s ∧ lf_errors s' `suffix_of` lf_errors s
  ∧ length (sd_callbacks (lf_side s')) ≤ length (sd_callbacks (lf_side s)).

Lemma after_trans s s1 s2 : after s s1 → after s1 s2 → after s s2.
Proof. intros (_ & P1 & E1 & C1) (D2 & P2 & E2 & C2). split_and!; [done|congruence|by etransitivity|lia]. Qed.

Lemma after_own s s' : life_ok s → lf_done_closed s = true → own_step s s' → after s s'.
Proof.
  intros H Hd Hstep. destruct (done_finished s H Hd) as (Hf & Hr & Hs & He). unfold after. destruct Hstep; try congruence; cbn; try done.
  - by rewrite Hr in *; destruct l1.
  - unfold close_once. by destruct (lf_once s).
  - split_and!; [done..| |done]. by exists [e].
  - split_and!; [done..| |done]. by eexists (lf_errors s); rewrite app_nil_r.
  - match goal with Hc : cb_step _ _ _ |- _ => apply cb_step_kept in Hc as [(_ & _ & Hl & _) _] end. done.
Qed.

Lemma after_outside s a s' : life_ok s → lf_done_closed s = true → outside_step s a s' → after s s'.
Proof.
  intros H Hd Hstep. destruct (done_finished s H Hd) as (Hf & Hr & Hs & He). unfold after. destruct Hstep; try congruence; cbn; try done.
  - by rewrite Hr in *; destruct l1.
  - match goal with Hc : cb_answered _ _ |- _ => apply cb_answered_kept in Hc as [(_ & _ & Hl & _) _] end. done.
Qed.

Lemma after_env s s' : life_ok s → lf_done_closed s = true → env_step s s' → after s s'.
Proof.
  intros H Hd Hstep. destruct (done_finished s H Hd) as (Hf & Hr & Hs & He). unfold after.
  destruct Hstep as [n Hin _ _|b Hn|b n Hn Hx Hi|i Hin Hc|key inl Hin]; try congruence; cbn; try done;
    rewrite Hr in Hin; by apply not_elem_of_nil in Hin.
Qed.

Lemma after_steps s s' : life_ok s → lf_done_closed s = true → steps s s' → after s s'.
Proof.
  intros H Hd Hs. induction Hs as [s|s s1 s2 H1 _ IH|s s1 s2 H1 _ IH]; [done|..].
  - assert (after s s1) as Ha by (destruct H1 as [H1|[a H1]]; [by apply after_own|by eapply after_outside]).
    eapply after_trans; [done|]. apply IH; [by eapply moves_ok|by destruct Ha].
  - assert (after s s1) as Ha by by apply after_env. eapply after_trans; [done|]. apply IH; [by eapply life_env_ok|by destruct Ha].
Qed.
End invariant.

(** ** Properties *)

(** C33: in every execution of a manager, however it is started and closed, no
    goroutine sends on a closed channel, closes a channel twice or makes the
    wait group negative.  A [Shutdown] or [Close] that returns [nil] returns
    after every goroutine of the wait group has, with the error channel closed.
    From then on nothing is published, no error is added, and no callback of the
    coalescer begins: what can still run are callbacks on timer goroutines that had
    begun before, which nothing waits for.  Only a call with a context that can end
    returns that context's error. *)
Theorem shutdown_safe {E} (c : start_config) (s : life E) (Hs : steps (init c) s) :
  lf_panicked s = false
  ∧ (∀ i b, lf_calls s !! i = Some (b, Returned false) →
       lf_running s = [] ∧ lf_serving s = None ∧ lf_errors_closed s = true
       ∧ (∀ cb, cb ∈ sd_callbacks (lf_side s) → cb_inline cb = false)
       ∧ ∀ s', steps s s' → lf_running s' = [] ∧ lf_published s' = lf_published s ∧ lf_errors s' `suffix_of` lf_errors s
           ∧ length (sd_callbacks (lf_side s')) ≤ length (sd_callbacks (lf_side s)))
  ∧ ∀ i, lf_calls s !! i ≠ Some (false, Returned true).
Proof.
  pose proof (life_steps_ok _ _ (life_init_ok c) Hs) as H. split_and!; [exact (ok_panic s H)| |].
  - intros i b Hi. pose proof (Forall_lookup_1 _ _ _ _ (ok_call s H) Hi) as [_ Hd]. destruct (done_finished s H Hd) as (_ & Hr & Hsv & He).
    split_and!; [done..| |].
    + intros cb Hcb. destruct (cb_inline cb) eqn:Hx; [|done]. pose proof (side_inline _ _ _ _ (ok_side s H) cb Hcb Hx) as Hin.
      rewrite Hr in Hin. by apply not_elem_of_nil in Hin.
    + intros s' Hs'. destruct (after_steps s s' H Hd Hs') as (Hd' & Hp & Hq & Hc).
      by destruct (done_finished s' (life_steps_ok _ _ H Hs') Hd') as (_ & Hr' & _).
  - intros i Hi. by destruct (Forall_lookup_1 _ _ _ _ (ok_call s H) Hi) as [_ Hb].
Qed.

(** C34: closing ends, and the one way in which it does not.  Suppose that, once
    the lifetime is over, the code a request runs and the [Watch] of every provider
    return.  When the manager is being closed, or [New] is bound to fail, and no
    subscriber has called [Close], or [Shutdown] with a context that cannot end, on
    the writer, every execution in which nothing new begins reaches, after finitely
    many steps, a state where all calls of [Shutdown] are back, the goroutines and
    the callbacks are gone, the channels closed and the consumer of [Errors] at its
    end; in between there is always a step that is due. A call that a subscriber
    does make there never returns, whatever happens. *)
Theorem close_returns {E} (live : outside → Prop) (c : start_config) (s : life E) (Hlive : ∀ a, live a) (Hs : steps (init c) s) :
  (closing s → inside_ends s → eventually live stopped s)
  ∧ ∀ i s', deadlocked i s → steps s s' → deadlocked i s' ∧ ¬ stopped s'.
Proof.
  pose proof (life_steps_ok _ _ (life_init_ok c) Hs) as H. split; [intros; by apply closing_stops|].
  intros i s' Hd Hs'. pose proof (deadlocked_steps i s s' H Hd Hs') as Hd'. split; [done|]. intros (_ & _ & _ & Hsv & _).
  by destruct (deadlocked_open i s' (life_steps_ok _ _ H Hs') Hd') as [? _].
Qed.

(** A manager with a file watcher and one provider of two that is watched. *)
Definition example_config : start_config :=
  {| sc_FileWatch := true; sc_virtual := false; sc_paths := ["conf.d"]; sc_watcher := None; sc_providers := [false; true] |}.

Definition no_watcher : start_config :=
  {| sc_FileWatch := true; sc_virtual := false; sc_paths := ["conf.d"]; sc_watcher := Some "too many open files"; sc_providers := [true] |}.

Example what_is_started :
  startBackground example_config = (spawn ReloadLoop ++ spawn FileWatcher ++ spawn (ProviderWatcher 1), None)
  ∧ startBackground no_watcher = (spawn ReloadLoop, Some "too many open files").
Proof. by split. Qed.

(** A caller of [Close], after [New] failed to start the file watcher. *)
Definition closing_failed : life nat :=
  set_new (set_new (set_new (init no_watcher) (Starting [Go ReloadLoop] (Some "too many open files")) 1 [] [])
    (Starting [] (Some "too many open files")) 1 [ReloadLoop] []) Failing 1 [ReloadLoop] [(false, Entering)].

Lemma reach_closing_failed : steps (init no_watcher) closing_failed.
Proof.
  eapply steps_move; [left; by eapply o_add|]. eapply steps_move; [left; by eapply o_go|]. eapply steps_move; [left; by eapply o_failed|]. apply steps_refl.
Qed.

Lemma shutdown_safe_witness : steps (init no_watcher) closing_failed ∧ lf_panicked closing_failed = false.
Proof. split; [exact reach_closing_failed|]. exact (proj1 (shutdown_safe no_watcher closing_failed reach_closing_failed)). Defined.

Lemma close_returns_witness : steps (init no_watcher) closing_failed ∧ closing closing_failed ∧ eventually (λ _, True) stopped closing_failed.
Proof.
  split; [exact reach_closing_failed|]. assert (H : closing closing_failed) by (by left). split; [exact H|].
  refine (proj1 (close_returns (λ _, True) no_watcher closing_failed _ reach_closing_failed) H _).
  - intros a. exact I.
  - intros i Hi. discriminate Hi.
Defined.

(** A manager that watches files only. *)
Definition file_config : start_config :=
  {| sc_FileWatch := true; sc_virtual := false; sc_paths := ["conf.d"]; sc_watcher := None; sc_providers := [] |}.

(** The manager, started. *)
Definition file_manager : life nat := set_new (init file_config) Ready 2 [FileWatcher; ReloadLoop] [].

Lemma reach_file_manager : steps (init file_config) file_manager.
Proof.
  eapply steps_move; [left; by eapply o_add|]. eapply steps_move; [left; by eapply o_go|].
  eapply steps_move; [left; by eapply o_add|]. eapply steps_move; [left; by eapply o_go|].
  eapply steps_move; [left; by eapply o_started|]. apply steps_refl.
Qed.

Lemma steps_trans {E} (s1 s2 s3 : life E) : steps s1 s2 → steps s2 s3 → steps s1 s3.
Proof. intros H. revert s3. induction H; intros s3 H3; [done|eapply steps_move|eapply steps_env]; eauto. Qed.

(** [Close] can return [nil] while a callback of the coalescer is still in
    [requestReload]: its timer goroutine is not in the wait group, and [Stop]
    does not wait for it. It is refused, and logs, after the close. *)
Lemma callback_outlives_close : ∃ s : life nat, steps (init file_config) s
  ∧ lf_calls s = [(false, Returned false)] ∧ cb_at <$> sd_callbacks (lf_side s) = [Requesting].
Proof.
  eexists. split.
  - eapply steps_trans; [exact reach_file_manager|].
    eapply steps_env; [eapply (e_fire _ "conf.d" false); by left|].
    eapply steps_move; [left; eapply o_callback; by apply (c_passes false _ [] {| cb_inline := false; cb_key := "conf.d"; cb_at := Fired |} [])|].
    eapply steps_move; [left; eapply o_callback; apply (c_runs false _ [] {| cb_inline := false; cb_key := "conf.d"; cb_at := Passed |} []);
      [done|done|apply not_elem_of_empty]|].
    eapply steps_env; [by apply (e_call _ false)|].
    eapply steps_move; [left; by apply (o_once _ 0 false)|]. eapply steps_move; [left; by apply (o_test_open _ 0 false)|].
    eapply steps_move; [left; apply (o_return _ [FileWatcher] ReloadLoop []); [done|by split]|].
    eapply steps_move; [left; apply (o_return _ [] FileWatcher []); [done|]; split; [done|]; intros cb; cbn;
      intros ->%list_elem_of_singleton; done|].
    eapply steps_move; [left; by apply o_wait|]. eapply steps_move; [left; by apply o_close_errors|].
    eapply steps_move; [left; by apply o_close_done|]. eapply steps_move; [left; by apply (o_done _ 0 false)|]. apply steps_refl.
  - by split.
Qed.

(** A subscriber that calls [Close] on the writer, as [Subscribe] warns. *)
Lemma close_from_subscriber_deadlocks : ∃ s : life nat, steps (init file_config) s ∧ closing s ∧ deadlocked 0 s.
Proof.
  eexists. split; [|split].
  - eapply steps_trans; [exact reach_file_manager|].
    eapply steps_env; [apply (e_serve _ 1); [right; by left|done|done]|].
    eapply steps_env; [by apply (e_call_inside _ false 1)|]. apply steps_refl.
  - by left.
  - split; [done|]. by exists Entering.
Qed.
