(* ===== verification/Sources.v ===== *)
(** * Document sources and LoadFile (providers/source, contracts/provider.go, load_file.go)

    The providers of one document, from memory, a file or an [fs.FS], and
    [LoadFile], which runs the whole pipeline on one of them.  What opening a
    file answers is an argument; SHA-1 is too. *)
From S2P Require Import Prelude GoStrings Value Clone Merge Patch CodecRegistry Provenance Options Assemble Pipeline Manager Settings Codecs.
From stdpp Require Import pretty.
Open Scope nat_scope.

(** ** Provider metadata (contracts/provider.go) *)

Definition PriorityDotEnv : Z := 5.
Definition PriorityStatic : Z := 10.
Definition PriorityKV : Z := 30.
Definition PriorityK8s : Z := 40.
Definition PriorityEnv : Z := 50.
Definition PriorityCLI : Z := 60.

Record ProviderInfo := { pi_Priority : Z; pi_WatchPaths : list string }.

(** [Describe]: the metadata of a provider that has some. *)
Definition Describe (describer : option ProviderInfo) : ProviderInfo :=
  match describer with Some info => info | None => {| pi_Priority := 0; pi_WatchPaths := [] |} end.

(** An open file, or why it does not open. *)
Inductive open_error := NotExist | OpenErr (e : string).
Definition opened : Type := result open_error (reader string).

(** [codec.Codec] *)
Definition decoder : Type := string → result Codecs.decode_error gomap.

Definition read_text (e : read_error string) : string :=
  match e with CodecRegistry.ErrTooLarge _ => "too large" | CodecRegistry.ErrRead e => e end.

(** ** Bytes (bytes.go) *)

Record Bytes := {
  by_name : string;
  by_contentType : string;
  by_data : string;
  by_priority : Z;
  by_rev : string;
  by_maxBodyBytes : Z;
}.

(** [NewBytes]: [sha1] gives the hexadecimal digits of the first eight bytes. *)
Definition NewBytes (sha1 : string → string) (name contentType data : string) : Bytes :=
  {| by_name := name; by_contentType := contentType; by_data := data; by_priority := PriorityStatic; by_rev := sha1 data;
     by_maxBodyBytes := DefaultMaxBodyBytes |}.

Definition Bytes_WithPriority (b : Bytes) (p : Z) : Bytes :=
  {| by_name := by_name b; by_contentType := by_contentType b; by_data := by_data b; by_priority := p; by_rev := by_rev b;
     by_maxBodyBytes := by_maxBodyBytes b |}.

Definition Bytes_WithMaxBodyBytes (b : Bytes) (n : Z) : Bytes :=
  {| by_name := by_name b; by_contentType := by_contentType b; by_data := by_data b; by_priority := by_priority b;
     by_rev := by_rev b; by_maxBodyBytes := n |}.

Definition Bytes_Describe (b : Bytes) : ProviderInfo := {| pi_Priority := by_priority b; pi_WatchPaths := [] |}.

(** [Bytes.read]: the data, its type and its revision. *)
Definition Bytes_read (b : Bytes) : result string (string * string * string) :=
  let max := if (by_maxBodyBytes b <=? 0)%Z then DefaultMaxBodyBytes else by_maxBodyBytes b in
  if (max <? len64 (by_data b))%Z then Err "bytes source: too large" else Ok (by_data b, by_contentType b, by_rev b).

(** [snapshotFrom] on what a [read] returns. *)
Definition load_document `{GoStd} (r : registry decoder) (name : string) (doc : result string (string * string * string)) :
    result source_error (gomap * string) :=
  match doc with
  | Err e => snapshotFrom r name "" "" (Err e)
  | Ok (data, ct, rev) => snapshotFrom r name ct rev (Ok data)
  end.

Definition Bytes_Load `{GoStd} (r : registry decoder) (b : Bytes) : result source_error (gomap * string) := load_document r (by_name b) (Bytes_read b).

(** ** File (file.go) *)

Record File := { fl_path : string; fl_priority : Z; fl_maxBodyBytes : Z }.

Definition NewFile (path : string) : File := {| fl_path := path; fl_priority := PriorityStatic; fl_maxBodyBytes := DefaultMaxBodyBytes |}.

Definition File_WithPriority (f : File) (p : Z) : File := {| fl_path := fl_path f; fl_priority := p; fl_maxBodyBytes := fl_maxBodyBytes f |}.

Definition File_WithMaxBodyBytes (f : File) (n : Z) : File := {| fl_path := fl_path f; fl_priority := fl_priority f; fl_maxBodyBytes := n |}.

Definition File_Name (f : File) : string := "file:" +:+ fl_path f.

Definition File_Describe (f : File) : ProviderInfo := {| pi_Priority := fl_priority f; pi_WatchPaths := [fl_path f] |}.

Definition contentTypeForPath (p : string) : string := let ext := filepath_Ext p in if String.eqb ext "" then "" else ext.

(** [fileRevision]: the time of the last change in nanoseconds, and the size. *)
Definition fileRevision (stat : option (Z * Z)) : string :=
  match stat with None => "" | Some (mtime, size) => pretty mtime +:+ ":" +:+ pretty size end.

(** [File.read]: a missing file is an empty document. *)
Definition File_read (f : File) (file : opened) (stat : option (Z * Z)) : result string (string * string * string) :=
  match file with
  | Err NotExist => Ok ("", contentTypeForPath (fl_path f), "")
  | Err (OpenErr e) => Err ("file source: " +:+ e)
  | Ok r =>
      match ReadAllMax r (fl_maxBodyBytes f) with
      | Err e => Err ("file source: " +:+ read_text e)
      | Ok data => Ok (data, contentTypeForPath (fl_path f), fileRevision stat)
      end
  end.

Definition File_Load `{GoStd} (r : registry decoder) (f : File) (file : opened) (stat : option (Z * Z)) : result source_error (gomap * string) :=
  load_document r (File_Name f) (File_read f file stat).

(** ** FS (fs.go) *)

Record FS := { fs_fsys : option (string → result string (reader string)); fs_path : string; fs_priority : Z; fs_maxBodyBytes : Z }.

Definition NewFS (fsys : option (string → result string (reader string))) (name : string) : FS :=
  {| fs_fsys := fsys; fs_path := name; fs_priority := PriorityStatic; fs_maxBodyBytes := DefaultMaxBodyBytes |}.

Definition FS_WithPriority (f : FS) (p : Z) : FS :=
  {| fs_fsys := fs_fsys f; fs_path := fs_path f; fs_priority := p; fs_maxBodyBytes := fs_maxBodyBytes f |}.

Definition FS_WithMaxBodyBytes (f : FS) (n : Z) : FS :=
  {| fs_fsys := fs_fsys f; fs_path := fs_path f; fs_priority := fs_priority f; fs_maxBodyBytes := n |}.

Definition FS_Name (f : FS) : string := "fs:" +:+ fs_path f.

Definition FS_Describe (f : FS) : ProviderInfo := {| pi_Priority := fs_priority f; pi_WatchPaths := [] |}.

(** The two points at which [FS.Load] polls its context. *)
Inductive fs_poll := AtStart | AfterRead.

Inductive fs_error := FsCtx (e : ctx_error) | FsSource (e : source_error).

(** [FS.Load]; [path.Ext] is [filepath.Ext] on slashes. *)
Definition FS_Load `{GoStd} (r : registry decoder) (ctx : fs_poll → option ctx_error) (f : FS) : result fs_error (gomap * string) :=
  match ctx AtStart with
  | Some e => Err (FsCtx e)
  | None =>
      match fs_fsys f with
      | None => Err (FsSource (Codecs.ErrRead (FS_Name f +:+ ": filesystem is required")))
      | Some open =>
          if negb (fs_ValidPath (fs_path f)) then Err (FsSource (Codecs.ErrRead (FS_Name f +:+ ": invalid argument")))
          else match open (fs_path f) with
               | Err e => Err (FsSource (Codecs.ErrRead (FS_Name f +:+ ": " +:+ e)))
               | Ok file =>
                   match ReadAllMax file (fs_maxBodyBytes f) with
                   | Err e => Err (FsSource (Codecs.ErrRead (FS_Name f +:+ ": " +:+ read_text e)))
                   | Ok data =>
                       match ctx AfterRead with
                       | Some e => Err (FsCtx e)
                       | None => map_err FsSource (snapshotFrom r (FS_Name f) (filepath_Ext (fs_path f)) (go_sha256 data) (Ok data))
                       end
                   end
               end
      end
  end.

(** ** The value of one document *)

Section value.
Context {T : Type} `{!Target T}.

(** The value of a document: its tree through the hooks, the strict decoder, the
    defaults and the constraints of the type. *)
Definition decoded_value (tree : gomap) : fres T :=
  tree ← match t_hooks with
         | None => Ok tree
         | Some hook => map_err (λ e, ErrTransform ("typed-hook: " +:+ e)) (hook tree)
         end;
  input ← map_err Options.ErrDecode (t_encode false tree);
  v ← map_err (λ e, Options.ErrDecode (de_msg e)) (t_decode false true input);
  let v := match t_hooks with Some _ => t_assign tree v | None => v end in
  v ← map_err Options.ErrDecode (t_struct_defaults v);
  let v := match t_Defaults with Some d => d v | None => v end in
  match t_field_meta v with [] => Ok v | violations => Err (ErrInvalid violations) end.

(** It must have a hash as well. *)
Definition file_value (tree : gomap) : fres T :=
  v ← decoded_value tree;
  _ ← map_err ErrHash (t_marshal false v);
  Ok v.

End value.

(** ** LoadFile (load_file.go) *)

Section load_file.
Context `{GoStd} `{GoJson} `{!Assemble.Codecs} {Typ : Type} `{EqDecision Typ} (denote : Typ → Type) {Logger Tracer Observer : Type}.
Context (want : Typ) `{!Target (denote want)} (customEncoding : bool) (base : Logger) (noop : Tracer).
Context (r : registry decoder) (sha1 : string → string).

(** What assembly keeps of the error of a source. *)
Definition source_text (e : source_error) : string :=
  match e with
  | Codecs.ErrRead e => e
  | ErrContentType name ct => "source " +:+ name +:+ ": content-type " +:+ ct
  | Codecs.ErrDecode _ => "decode"
  end.

(** A source as [WithProvider] registers it; [NewBytes] is not a watcher. *)
Definition bytes_entry (b : Bytes) : providerEntry :=
  {| pe_Name := by_name b; pe_Priority := pi_Priority (Bytes_Describe b);
     pe_Load := (λ x, {| ps_Map := x.1; ps_Revision := x.2; ps_Stale := false |})
                  <$> map_err (λ e, ProviderErr (source_text e)) (Bytes_Load r b) |}.

(** The options of [LoadFile] on a document. *)
Definition file_options (path ext data : string) : list (option (@Settings.Option Typ denote Logger Tracer Observer)) :=
  [Some (upd_SkipDiscovery denote (λ _, true));
   Some (WithProvider denote [Some (bytes_entry (NewBytes sha1 path ext data))]);
   Some (WithUnknownFields denote UnknownError)].

(** [Load] on options that may not resolve; their errors are joined, and the first names the sentinel. *)
Definition load_options (w : world) (ctx : Pipeline.context) (opts : list (option (@Settings.Option Typ denote Logger Tracer Observer))) :
    fres (option (State (denote want))) :=
  match newManager_options denote base noop want opts with
  | Err es => Err (hd (ErrFastConf "") es)
  | Ok (_, po) => Load customEncoding po w ctx []
  end.

Definition LoadFile (open : string → opened) (w : world) (path : string) : fres (option (denote want)) :=
  match open path with
  | Err _ => Err (ErrProvider path)
  | Ok file =>
      let ext := filepath_Ext path in
      match ByContentType r ext with
      | None => Err (Options.ErrDecode path)
      | Some _ =>
          match ReadAllMax file DefaultMaxBodyBytes with
          | Err _ => Err (ErrProvider path)
          | Ok data => option_map st_value <$> load_options w (λ _, None) (file_options path ext data)
          end
      end
  end.

(** ** What LoadFile is *)

(** The document of a file, as the source decodes it. *)
Definition file_tree (path data : string) (decode : decoder) : fres gomap :=
  if String.eqb data "" then Ok (Some ∅)
  else match decode data with
       | Err _ => Err (ErrProvider path)
       | Ok None => Err ErrNoSources
       | Ok tree => Ok tree
       end.

Definition load_file_spec (open : string → opened) (path : string) : fres (option (denote want)) :=
  match open path with
  | Err _ => Err (ErrProvider path)
  | Ok file =>
      match ByContentType r (filepath_Ext path) with
      | None => Err (Options.ErrDecode path)
      | Some decode =>
          match bounded_content DefaultMaxBodyBytes file with
          | Err _ => Err (ErrProvider path)
          | Ok data => tree ← file_tree path data decode; Some <$> file_value tree
          end
      end
  end.
End load_file.

(** ** Lemmas *)

Definition never : Pipeline.context := λ _, None.

Section pipeline.
Context `{GoStd} `{GoJson} `{!Assemble.Codecs} {T : Type} `{!Target T}.

Lemma run_stages_never (o : options T) k stages p : (run_stages o never k stages p).2 = run_all stages p.
Proof.
  revert k p. induction stages as [|[name run] stages IH]; intros k p; [done|]. cbn [run_stages never]. unfold run_all. cbn [foldM snd].
  destruct (run p) as [q|e]; [|done]. specialize (IH (S k) q). destruct (run_stages o never (S k) stages q). exact IH.
Qed.

(** [Load] without a deadline: the assembly, the pipeline, and the value they end with. *)
Lemma Load_value (customEncoding : bool) (o : options T) w :
  option_map st_value <$> Load customEncoding o w never [] =
  (_ ← check_options o [];
   a ← (assemble customEncoding w o None "" (mg_caches (newManager o)) []).2;
   '(p, _) ← (runPipeline o never a "load" false).2;
   Ok (pl_target p)).
Proof.
  unfold Load. destruct (check_options o []); [|done]. cbn [mbind result_bind]. unfold reload. cbn [never].
  destruct (assemble _ _ _ _ _ _ _) as [[ca dirs] [asm|e]]; [|done]. cbn [snd mbind result_bind]. unfold commit. cbn [never].
  replace (mg_publishedFingerprint (set_inputs (newManager o) ca dirs)) with zero32 by done.
  rewrite andb_comm. destruct (String.eqb (ar_fingerprint asm) zero32) eqn:E1; cbn [andb negb];
    (unfold runPipeline; destruct (runStages o never _) as [evs [p|e]]; [|done]; destruct (pl_target p) as [v|] eqn:Hv; [|done];
     destruct (canonicalHash o v) as [h|e]; [|done]; cbn; by rewrite Hv).
Qed.

(** The options that [LoadFile] runs the pipeline with: one provider, a strict decoder and nothing else. *)
Record single (o : options T) (e : providerEntry) : Prop := {
  sg_skip : o_SkipDiscovery o = true;
  sg_providers : o_Providers o = [e];
  sg_generators : o_Generators o = [];
  sg_match : o_ProfileMatch o = "";
  sg_transforms : o_Transforms o = [];
  sg_secrets : o_SecretResolver o = None;
  sg_bridge : o_YAMLBridge o = false;
  sg_unknown : o_UnknownFields o = UnknownError;
  sg_validators : o_Validators o = [];
  sg_policies : o_Policies o = [];
}.

(** Merging one layer over nothing gives its tree. *)
Lemma deep_over_nothing opt (m : gmap string value) : Deep (Some ∅) (Some m) opt = Ok (Some m).
Proof.
  apply Deep_Ok. exists m. split; [done|]. intros k. rewrite lookup_empty. cbn. by destruct (m !! k).
Qed.

Lemma merge_single (o : options T) (p : pipelineState T) e snap m :
  pl_staged p = [provider_layer e snap m] →
  ∃ ix, runMerge o p = Ok (set_tree p (Some m) ix [sl_src (provider_layer e snap m)]).
Proof.
  intros Hp. unfold runMerge. rewrite Hp. cbn [foldM]. unfold merge_layer. cbn [sl_patch sl_cached sl_data provider_layer].
  rewrite DeepClone_id, deep_over_nothing. by eexists.
Qed.

(** Decoding and checking a merged tree with the options of [LoadFile]. *)
Lemma checked_single (o : options T) e (p : pipelineState T) : single o e → pl_dryRun p = false →
  pl_target <$> run_all [("typed-hooks", runTypedHooks); ("decode", runDecode o); ("field-meta", runFieldMetaCheck);
                         ("validate", runValidate o); ("policy", runPolicy o)] p
  = Some <$> decoded_value (pl_merged p).
Proof.
  intros [Hs1 Hs2 Hs3 Hs4 Hs5 Hs6 Hs7 Hs8 Hs9 Hs10] Hd. unfold run_all. cbn [foldM snd]. unfold runTypedHooks, decoded_value.
  set (hooked := match t_hooks with None => Ok (pl_merged p) | Some hook => _ end).
  replace (match t_hooks with None => Ok p | Some hook => _ end) with (set_merged p <$> hooked).
  2: { unfold hooked. destruct t_hooks; [done|]. cbn. by destruct p. }
  destruct hooked as [tree|err]; [|done]. cbn [fmap result_fmap mbind result_bind]. unfold runDecode, decode_input. rewrite Hs7, Hs8.
  cbn [set_merged set_tree pl_merged]. destruct (t_encode false tree) as [input|err]; [|done]. cbn [map_err mbind result_bind].
  rewrite bool_decide_eq_false_2 by done. cbn [negb].
  destruct (t_decode false true input) as [v|err]; [|rewrite bool_decide_eq_false_2 by done; done]. cbn [map_err mbind result_bind].
  destruct (t_struct_defaults _) as [v1|err]; [|done]. cbn [map_err mbind result_bind].
  set (v2 := match t_Defaults with Some d => d v1 | None => v1 end). unfold runFieldMetaCheck at 1. cbn [set_target pl_target].
  destruct (t_field_meta v2) as [|msg violations].
  - cbn [mbind result_bind]. unfold runValidate. rewrite Hs9. cbn [set_target pl_target validate_loop mbind result_bind]. unfold runPolicy. by rewrite Hs10.
  - rewrite field_meta_reload by done. done.
Qed.

Lemma pipeline_single (o : options T) e snap m fp appendSlices keys : single o e →
  ('(p, _) ← (runPipeline o never {| ar_staged := [provider_layer e snap m]; ar_strict := o_Strict o; ar_appendSlices := appendSlices;
                                     ar_mergeKeys := keys; ar_fingerprint := fp |} "load" false).2; Ok (pl_target p))
  = Some <$> file_value (Some m).
Proof.
  intros Ho. set (a := {| ar_staged := _ |}). unfold runPipeline, runStages. set (p0 := new_pipeline a "load" false).
  pose proof (run_stages_never o 0 (defaultStages o) p0) as Hrun. destruct (run_stages o never 0 (defaultStages o) p0) as [evs res]. cbn [snd] in Hrun |- *.
  destruct (merge_single o p0 e snap m eq_refl) as [ix Hm]. unfold run_all, defaultStages in Hrun. cbn [foldM snd] in Hrun. rewrite Hm in Hrun.
  set (p1 := set_tree p0 _ _ _) in Hrun. cbn [mbind result_bind] in Hrun.
  unfold runTransform in Hrun at 1. rewrite (sg_transforms o e Ho) in Hrun. cbn [foldM fmap result_fmap mbind result_bind] in Hrun.
  unfold runSecretResolve in Hrun at 1. rewrite (sg_secrets o e Ho) in Hrun. cbn [mbind result_bind] in Hrun.
  pose proof (checked_single o e (set_merged p1 (pl_merged p1)) Ho eq_refl) as Hc. unfold run_all in Hc. cbn [foldM snd] in Hc. rewrite <- Hrun in Hc.
  change (pl_merged (set_merged p1 (pl_merged p1))) with (Some m) in Hc. unfold file_value.
  destruct res as [p|err], (decoded_value (Some m)) as [v|err']; cbn in Hc; try discriminate; [|by injection Hc as ->].
  injection Hc as Hv. rewrite Hv. unfold canonicalHash. rewrite (sg_bridge o e Ho). cbn [mbind result_bind]. destruct (t_marshal false v); cbn; [by rewrite Hv|done].
Qed.

(** Assembling one provider. *)
Lemma assemble_single (customEncoding : bool) (o : options T) w ca e : single o e →
  (assemble customEncoding w o None "" ca []).2 =
  match pe_Load e with
  | Err (ProviderCtx c) => Err (CtxErr c)
  | Err (ProviderErr _) => Err (ErrProvider (pe_Name e))
  | Ok snap =>
      match ps_Map snap with
      | None => Err ErrNoSources
      | Some m =>
          Ok {| ar_staged := [provider_layer e snap m]; ar_strict := o_Strict o; ar_appendSlices := false; ar_mergeKeys := ∅;
                ar_fingerprint := inputFingerprint customEncoding o [provider_layer e snap m] zero32 codec_Generation (w_generation w) |}
      end
  end.
Proof.
  intros Ho. unfold assemble. rewrite (sg_skip o e Ho). cbn [snd]. unfold finish_assembly. rewrite (sg_generators o e Ho), (sg_providers o e Ho).
  cbn [assembleGeneratorLayers assembleProviderLayers mbind result_bind]. destruct (pe_Load e) as [snap|[]]; [|done..].
  by destruct (ps_Map snap).
Qed.

Lemma load_single (customEncoding : bool) (o : options T) w e : single o e →
  option_map st_value <$> Load customEncoding o w never [] =
  match pe_Load e with
  | Err (ProviderCtx c) => Err (CtxErr c)
  | Err (ProviderErr _) => Err (ErrProvider (pe_Name e))
  | Ok snap => match ps_Map snap with None => Err ErrNoSources | Some m => Some <$> file_value (Some m) end
  end.
Proof.
  intros Ho. rewrite Load_value, (assemble_single _ _ _ _ e) by done. unfold check_options. rewrite (sg_match o e Ho). cbn [String.eqb mbind result_bind].
  destruct (pe_Load e) as [snap|[]]; [|done..]. destruct (ps_Map snap) as [m|]; [|done]. by apply pipeline_single.
Qed.
End pipeline.

Section loading.
Context `{GoStd} `{GoJson} `{!Assemble.Codecs} {Typ : Type} `{EqDecision Typ} (denote : Typ → Type) {Logger Tracer Observer : Type}.
Context (want : Typ) `{!Target (denote want)} (customEncoding : bool) (base : Logger) (noop : Tracer).
Context (r : registry decoder) (sha1 : string → string).

(** The options of [LoadFile] always resolve. *)
Lemma file_options_resolve path ext data :
  ∃ o po, newManager_options denote base noop want (file_options denote (Observer := Observer) r sha1 path ext data) = Ok (o, po)
  ∧ single po (bytes_entry r (NewBytes sha1 path ext data)).
Proof. eexists _, _. split; [reflexivity|]. by split. Qed.

Lemma bounded_data (file : reader string) data : bounded_content DefaultMaxBodyBytes file = Ok data → (len64 data ≤ DefaultMaxBodyBytes)%Z.
Proof.
  unfold bounded_content. destruct (Z.ltb_spec DefaultMaxBodyBytes (len64 (r_data file))); [done|].
  destruct (r_fail file); [done|]. by intros [= <-].
Qed.

(** A document of at most the default size, as a source. *)
Lemma bytes_load path ext data decode : ByContentType r ext = Some decode → (len64 data ≤ DefaultMaxBodyBytes)%Z →
  Bytes_Load r (NewBytes sha1 path ext data) =
  if String.eqb data "" then Ok (Some ∅, sha1 data) else (λ m, (m, sha1 data)) <$> map_err Codecs.ErrDecode (decode data).
Proof.
  intros Hc Hl. unfold Bytes_Load, Bytes_read, load_document. cbn [by_maxBodyBytes by_data NewBytes].
  rewrite (proj2 (Z.leb_gt DefaultMaxBodyBytes 0)), (proj2 (Z.ltb_ge _ _) Hl) by done. unfold snapshotFrom. cbn [map_err mbind result_bind].
  destruct (String.eqb data ""); [done|]. cbn [by_contentType by_name by_rev NewBytes]. unfold decoder in Hc. rewrite Hc. cbn [of_option mbind result_bind].
  by destruct (decode data).
Qed.

(** [LoadFile] returns exactly the value of the one document: the file must
    open, have the extension of a codec, be no larger than four MiB and decode to
    a tree; the tree goes through the typed hooks, the strict decoder, the
    defaults and the constraints of the type, and the value must have a hash.
    Each failure is reported under its sentinel, and nothing else of the file
    system, the environment or the host has an influence. *)
Theorem load_file_outcome (open : string → opened) (w : world) (path : string) :
  LoadFile denote (Observer := Observer) want customEncoding base noop r sha1 open w path = load_file_spec denote want r open path.
Proof.
  unfold LoadFile, load_file_spec. destruct (open path) as [file|]; [|done]. destruct (ByContentType r (filepath_Ext path)) as [decode|] eqn:Hc; [|done].
  rewrite ReadAllMax_spec by done. destruct (bounded_content DefaultMaxBodyBytes file) as [data|] eqn:Hb; [|done].
  destruct (file_options_resolve path (filepath_Ext path) data) as (o & po & Ho & Hsingle). unfold load_options. rewrite Ho.
  rewrite (load_single customEncoding po w _ Hsingle). unfold bytes_entry. cbn [pe_Load pe_Name by_name NewBytes].
  rewrite (bytes_load _ _ _ decode Hc) by by eapply bounded_data. unfold file_tree. destruct (String.eqb data ""); [done|].
  by destruct (decode data) as [[m|]|].
Qed.
End loading.

(** ** One document from three sources *)

Definition document {Err} (x : result Err (gomap * string)) : option gomap := match x with Ok (m, _) => Some m | Err _ => None end.

(** What every source makes of a content type, a size limit and the bytes. *)
Definition document_of `{GoStd} (r : registry decoder) (ct : string) (n : Z) (data : string) : option gomap :=
  let max := if (n <=? 0)%Z then DefaultMaxBodyBytes else n in
  if (max <? len64 data)%Z then None
  else if String.eqb data "" then Some (Some ∅)
  else match ByContentType r ct with
       | None => None
       | Some decode => match decode data with Ok m => Some m | Err _ => None end
       end.

Lemma document_snapshot `{GoStd} (r : registry decoder) name ct rev data :
  document (snapshotFrom r name ct rev (Ok data)) =
  if String.eqb data "" then Some (Some ∅)
  else match ByContentType r ct with
       | None => None
       | Some decode => match decode data with Ok m => Some m | Err _ => None end
       end.
Proof.
  unfold snapshotFrom. cbn [map_err mbind result_bind]. destruct (String.eqb data ""); [done|]. unfold decoder in *.
  destruct (ByContentType r ct) as [decode|]; [|done]. cbn. by destruct (decode data).
Qed.

Lemma source_read_whole (n : Z) (data : string) : (n < MaxInt64)%Z →
  ReadAllMax {| r_data := data; r_fail := @None string |} n =
  let max := if (n <=? 0)%Z then DefaultMaxBodyBytes else n in
  if (max <? len64 data)%Z then Err (CodecRegistry.ErrTooLarge max) else Ok data.
Proof.
  intros Hn. destruct (Z.leb_spec n 0).
  - unfold ReadAllMax. rewrite (proj2 (Z.leb_le n 0)) by done. exact (ReadAllMax_spec _ DefaultMaxBodyBytes ltac:(done)).
  - by rewrite ReadAllMax_spec by lia.
Qed.

(** The three sources of a document agree: the same bytes under the same
    path and size limit give the same tree, or are rejected, whether they come
    from memory, a file or a file system; non-positive limits are the default of
    four MiB.  They differ on a path that names nothing: a missing file is an
    empty document, a missing entry of a file system an error. *)
Theorem sources_agree `{GoStd} (r : registry decoder) (sha1 : string → string) (path name data : string) (n : Z) (stat : option (Z * Z))
    (open : string → result string (reader string))
    (Hn : (n < MaxInt64)%Z) (Hpath : fs_ValidPath path = true) (Hopen : open path = Ok {| r_data := data; r_fail := None |}) :
  document (Bytes_Load r (Bytes_WithMaxBodyBytes (NewBytes sha1 name (filepath_Ext path) data) n)) = document_of r (filepath_Ext path) n data
  ∧ document (File_Load r (File_WithMaxBodyBytes (NewFile path) n) (Ok {| r_data := data; r_fail := None |}) stat)
    = document_of r (filepath_Ext path) n data
  ∧ document (FS_Load r (λ _, None) (FS_WithMaxBodyBytes (NewFS (Some open) path) n)) = document_of r (filepath_Ext path) n data
  ∧ document (File_Load r (NewFile path) (Err NotExist) stat) = Some (Some ∅)
  ∧ ∀ e, document (FS_Load r (λ _, None) (NewFS (Some (λ _, Err e)) path)) = None.
Proof.
  assert (Hext : contentTypeForPath path = filepath_Ext path).
  { unfold contentTypeForPath. destruct (String.eqb_spec (filepath_Ext path) ""); congruence. }
  unfold document_of. split_and!.
  - unfold Bytes_Load, Bytes_read, load_document. cbn [by_maxBodyBytes by_data by_name by_contentType by_rev NewBytes Bytes_WithMaxBodyBytes].
    cbv zeta. destruct (_ <? _)%Z; [done|]. by rewrite document_snapshot.
  - unfold File_Load, File_read, load_document. cbn [fl_path fl_maxBodyBytes NewFile File_WithMaxBodyBytes]. rewrite source_read_whole by done.
    cbv zeta. destruct (_ <? _)%Z; [done|]. by rewrite document_snapshot, Hext.
  - unfold FS_Load. cbn [fs_fsys fs_path fs_maxBodyBytes NewFS FS_WithMaxBodyBytes]. rewrite Hpath, Hopen, source_read_whole by done. cbn [negb].
    cbv zeta. destruct (_ <? _)%Z; [done|]. rewrite <- (document_snapshot r (FS_Name (FS_WithMaxBodyBytes (NewFS (Some open) path) n)) _ (go_sha256 data)).
    by destruct (snapshotFrom _ _ _ _ _) as [[]|].
  - done.
  - intros e. unfold FS_Load. cbn [fs_fsys fs_path NewFS]. by rewrite Hpath.
Qed.

(** A registry with one decoder that reads a document as one string. *)
Definition example_registry : registry decoder :=
  @init_registry example_std decoder (λ s, Ok (Some {["text" := VString s]})) (λ _, Err (Codecs.ErrUnknownCodec "json"))
    (λ _, Err (Codecs.ErrUnknownCodec "toml")) (λ _, Err (Codecs.ErrUnknownCodec "ini")).

Lemma sources_agree_witness :
  fs_ValidPath "conf/app.yaml" = true
  ∧ @document_of example_std example_registry ".yaml" 5 "a: b" = Some (Some {["text" := VString "a: b"]})
  ∧ @document_of example_std example_registry ".yaml" 3 "a: b" = None
  ∧ document (@Bytes_Load example_std example_registry (Bytes_WithMaxBodyBytes (NewBytes id "boot" (filepath_Ext "conf/app.yaml") "a: b") 5))
    = @document_of example_std example_registry (filepath_Ext "conf/app.yaml") 5 "a: b".
Proof.
  split; [reflexivity|]. split; [reflexivity|]. split; [reflexivity|].
  exact (proj1 (@sources_agree example_std example_registry id "conf/app.yaml" "boot" "a: b" 5 None
    (λ _, Ok {| r_data := "a: b"; r_fail := None |}) ltac:(reflexivity) ltac:(reflexivity) ltac:(reflexivity))).
Defined.
