(* ===== verification/Calls.v ===== *)
(** * The calls on a manager (reload.go, plan.go, history.go, manager.go)

    What the public methods submit to the writer: a reload with its options and
    one-shot override, a preview, a rollback; and what they guarantee together
    about the values a manager publishes.  Encoding to JSON is an argument. *)
From S2P Require Import Prelude GoStrings Value Path Merge Patch Scan LayerCache Secret History Provenance Options Assemble Pipeline Subscribe Manager.
Open Scope nat_scope.

(** ** Reload and its options (reload.go) *)

Section reload.
Context {T : Type} (json_Marshal : value → result string string) (json_tree : string → result string gomap).

Record reloadConfig := { cfg_reason : string; cfg_override : gomap; cfg_err : option fc_error }.

(** [ReloadOption] *)
Definition ReloadOption : Type := reloadConfig → reloadConfig.

(** [cloneOverride]: through JSON, into a tree of its own. *)
Definition cloneOverride (m : gomap) : result string gomap :=
  match m with
  | None => Ok None
  | Some m =>
      buf ← json_Marshal (VMap m);
      json_tree buf
  end.

Definition WithOverride (override : gomap) : ReloadOption := λ c,
  match cloneOverride override with
  | Err e => {| cfg_reason := cfg_reason c; cfg_override := cfg_override c; cfg_err := Some (ErrDecode ("WithOverride: " +:+ e)) |}
  | Ok copied => {| cfg_reason := cfg_reason c; cfg_override := copied; cfg_err := cfg_err c |}
  end.

Definition WithReason (reason : string) : ReloadOption := λ c,
  if String.eqb reason "" then c
  else {| cfg_reason := reason; cfg_override := cfg_override c; cfg_err := cfg_err c |}.

Definition overrideReloadReason (reason : string) : string := if String.eqb reason "manual" then "override" else reason.

(** The layer of an override. *)
Definition override_layer (m : gomap) : stagedLayer :=
  {| sl_src := {| sr_Path := "override://once"; sr_Kind := LayerOverride; sr_Profile := ""; sr_Priority := rankOffsetOverride;
                  sr_Codec := ""; sr_Revision := ""; sr_Stale := false |};
     sl_class := classOverride; sl_classPriority := 0%Z; sl_data := m; sl_cached := None; sl_patch := None; sl_fileSum := zero32 |}.

Definition reload_config (opts : list (option ReloadOption)) : reloadConfig :=
  foldl (λ c opt, match opt with Some opt => opt c | None => c end) {| cfg_reason := "manual"; cfg_override := None; cfg_err := None |} opts.

(** The request that [Reload] submits; a nil manager is closed. *)
Definition Reload (m : option (manager T)) (opts : list (option ReloadOption)) : fres (@request T) :=
  match m with
  | None => Err ErrClosed
  | Some _ =>
      let cfg := reload_config opts in
      match cfg_err cfg, cfg_override cfg with
      | Some e, _ => Ok (ReqOptionError (overrideReloadReason (cfg_reason cfg)) e)
      | None, None => Ok (ReqReload (cfg_reason cfg) "" [])
      | None, Some d => Ok (ReqReload (overrideReloadReason (cfg_reason cfg)) "" [override_layer (Some d)])
      end
  end.

(** ** Plan (plan.go) *)

Definition planConfig : Type := string.
Definition PlanOption : Type := planConfig → planConfig.
Definition WithPlanHostname (host : string) : PlanOption := λ _, host.

Definition Plan (m : option (manager T)) (opts : list (option PlanOption)) : fres (@request T) :=
  match m with
  | None => Err ErrClosed
  | Some _ => Ok (ReqPlan (foldl (λ c opt, match opt with Some opt => opt c | None => c end) "" opts))
  end.

(** ** History (history.go) *)

(** [Manager.History]: nil without a ring. *)
Definition History (m : option (manager T)) : option (manager T) :=
  match m with Some m' => match mg_history m' with Some _ => m | None => None end | None => None end.

Definition List (r : option (manager T)) : list (option (State T)) :=
  match r with None => [] | Some m => Snapshot (mg_history m) end.

Definition Rollback (r : option (manager T)) (target : option (State T)) : fres (@request T) :=
  match r with
  | None => Err ErrHistoryDisabled
  | Some m => ReqRollback <$> rollback_check m target
  end.

(** ** Reading (manager.go) *)

Definition Snapshot_of (m : option (manager T)) : option (State T) := m ≫= mg_state.
Definition Get_value (m : option (manager T)) : option T := st_value <$> Snapshot_of m.
End reload.

(** ** The override is on top *)

(** A layer that no other goes above stays last when the layers are sorted. *)
Lemma insert_snoc y x l : layer_leb y x = true → insert_stable layer_leb y (l ++ [x]) = insert_stable layer_leb y l ++ [x].
Proof. intros Hx. induction l as [|z l IH]; cbn; [by rewrite Hx|]. destruct (layer_leb y z); [done|]. by rewrite IH. Qed.

Lemma sort_layers_snoc l x : Forall (λ y, layer_leb y x = true) l → sort_layers (l ++ [x]) = sort_layers l ++ [x].
Proof.
  unfold sort_layers, sort_stable. rewrite foldr_app. intros Hl. induction Hl as [|y l Hy Hl IH]; [done|].
  change (insert_stable layer_leb y (foldr (insert_stable layer_leb) (foldr (insert_stable layer_leb) [] [x]) l)
          = insert_stable layer_leb y (foldr (insert_stable layer_leb) [] l) ++ [x]).
  rewrite IH. by apply insert_snoc.
Qed.

Lemma below_override y m : sl_class y ≠ classOverride → layer_leb y (override_layer m) = true.
Proof. unfold layer_leb. cbn. by destruct (sl_class y). Qed.

(** The class of the layers of each kind of source. *)
Section classes.
Context `{GoStd} `{Codecs} {T : Type}.

Definition of_class (c : layerClass) (l : stagedLayer) : Prop := sl_class l = c.

Lemma file_layer_class c l : match (file_layer c l).2 with Ok s => of_class classFile s | Err _ => True end.
Proof.
  unfold file_layer. destruct (l_Kind l).
  all: try (destruct (codec_For (l_Codec l)) as [dec|]; [|done]; by destruct (getOrDecode _ _ _ _ _) as [c' [raw|]]).
  cbn. destruct (codec_DecodeAny _ _); [|done]. by destruct (codec_PatchBytes _).
Qed.

Lemma file_layers_class c dirs staged evs err lc ds files :
  Forall (of_class classFile) staged → file_layers_loop c dirs staged evs err = (lc, ds, Ok files) → Forall (of_class classFile) files.
Proof.
  revert c dirs staged. induction evs as [|[d|l] evs IH]; intros c dirs staged Hs; cbn.
  - destruct err; [done|]. by intros [= _ _ <-].
  - by apply IH.
  - pose proof (file_layer_class c l) as Hn. destruct (file_layer c l) as [c' [s|e]]; [|done]. apply IH. apply Forall_app. by split; [|constructor].
Qed.

Lemma generators_class gs layers : assembleGeneratorLayers gs = Ok layers → Forall (of_class classGenerator) layers.
Proof.
  revert layers. induction gs as [|g gs IH]; intros layers; cbn; [by intros [= <-]|]. destruct (g_Generate g) as [srcs|]; [|done].
  intros (l1 & H1 & (l2 & H2 & [= <-])%bind_Ok)%bind_Ok. apply Forall_app. split; [|by apply IH].
  apply mapR_Ok in H1. clear H2. induction H1 as [|gsrc s srcs l1 Hs _ IH1]; constructor; [|done].
  unfold generator_layer in Hs. destruct (codec_For _) as [dec|]; [|done]. destruct (dec _); [|done]. by injection Hs as <-.
Qed.

(** Each layer of a list of providers has the priority of one of them. *)
Lemma providers_class (P : Z → Prop) ps layers : Forall (λ e, P (pe_Priority e)) ps → assembleProviderLayers ps = Ok layers →
  Forall (λ l, of_class classProvider l ∧ P (sl_classPriority l)) layers.
Proof.
  intros Hps. revert layers. induction Hps as [|e ps He Hps IH]; intros layers; cbn; [by intros [= <-]|].
  destruct (pe_Load e) as [snap|[]]; [|done..]. destruct (ps_Map snap) as [m|]; [|apply IH].
  intros (rest & Hrest & [= <-])%bind_Ok. constructor; [done|by apply IH].
Qed.

(** The layers of an assembly, by source. *)
Lemma assembled_sources computed (w : world) (o : options T) ctx host ca extra ca' dirs r :
  assemble computed w o ctx host ca extra = (ca', dirs, Ok r) →
  ∃ files gens provs, Forall (of_class classFile) files ∧ Forall (of_class classGenerator) gens
    ∧ assembleProviderLayers (o_Providers o) = Ok provs ∧ ar_staged r = sort_layers (files ++ gens ++ provs ++ extra).
Proof.
  intros Hrun. assert (∃ files gen now strict meta, Forall (of_class classFile) files ∧ finish_assembly computed o gen now strict meta files extra = Ok r)
    as (files & gen & now & strict & meta & Hn & Hfin).
  { unfold assemble in Hrun. destruct ctx; [done|]. destruct (o_SkipDiscovery o).
    { injection Hrun as _ _ Hrun. by eexists [], _, _, _, _. }
    destruct (resolveDiscovery w o host (ca_meta ca)) as [mc [[scanOpt meta]|e]]; [|done].
    destruct (assembleFileLayers w o (ca_layers _) scanOpt) as [[lc ds] [files|e]] eqn:Hf; [|done].
    injection Hrun as _ _ Hrun. eexists files, _, _, _, _. split; [|exact Hrun].
    unfold assembleFileLayers in Hf. destruct (Scan _ _ _ _ _) as [evs err]. by eapply file_layers_class in Hf. }
  apply finish_assembly_Ok in Hfin as (gens & provs & Hg & Hp & Hr & _). exists files, gens, provs. split_and!; [done|by eapply generators_class|done..].
Qed.

(** An assembly with an override has its layer on top. *)
Lemma assembled_on_top computed (w : world) (o : options T) ctx host ca d ca' dirs r :
  assemble computed w o ctx host ca [override_layer d] = (ca', dirs, Ok r) → ∃ below, ar_staged r = below ++ [override_layer d].
Proof.
  intros (files & gens & provs & Hf & Hg & Hp & ->)%assembled_sources. exists (sort_layers (files ++ gens ++ provs)).
  replace (files ++ gens ++ provs ++ [override_layer d]) with ((files ++ gens ++ provs) ++ [override_layer d]) by by rewrite <- !app_assoc.
  apply sort_layers_snoc. apply (providers_class (λ _, True)) in Hp; [|by apply Forall_true].
  rewrite !Forall_app. split_and!; (eapply Forall_impl; [eassumption|]); intros y Hy; apply below_override; cbn in Hy; unfold of_class in Hy; intuition congruence.
Qed.
End classes.

(** Merging leaves what the topmost layer says. *)
Lemma merge_on_top `{GoStd} `{GoJson} {T} `{Target T} (o : options T) (p p' : pipelineState T) below l d path v :
  pl_staged p = below ++ [l] → sl_patch l = None → layer_data l = Some d → pl_appendSlices p = false → pl_mergeKeys p = ∅ → path ≠ [] →
  get_at (VMap d) path = Some v → as_map v = None → runMerge o p = Ok p' → Get (pl_merged p') path = Some v.
Proof.
  intros Hstaged Hpatch Hdata Happ Hkeys Hpath Hv Hleaf Hrun. unfold runMerge in Hrun. rewrite Hstaged, foldM_app in Hrun. cbn [foldM] in Hrun.
  apply bind_Ok in Hrun as ([m ix] & Hfold & Hp'). injection Hp' as <-. cbn [set_tree pl_merged].
  apply bind_Ok in Hfold as ([m0 ix0] & _ & (acc & Hl & [= Hacc])%bind_Ok). subst acc.
  set (opt := {| Merge.AppendSlices := _; Merge.Strict := _; MergeKeys := _ |}) in *. assert (plain opt) as Hplain by by split.
  destruct m0 as [m0|].
  - destruct (merge_layer_writes opt m0 ix0 l (m, ix) d path v Hplain Hpatch Hdata Hv Hleaf Hl) as (m' & Hm & Hg).
    cbn in Hm. subst m. by destruct path.
  - exfalso. unfold merge_layer in Hl. rewrite Hpatch in Hl. cbv zeta in Hl. fold (layer_data l) in Hl. rewrite Hdata in Hl. unfold Deep in Hl.
    case_bool_decide as He; [|done]. cbn in He. subst d. destruct path as [|k path]; [done|]. cbn in Hv. by rewrite lookup_empty in Hv.
Qed.

(** A one-shot override wins over every source.  When the options of [Reload]
    end up with an override, the reload it submits merges it on top of all files,
    patches, generators and providers: wherever the override has a value other
    than a map, the merged tree has exactly that value, and the override is
    recorded as its last source, with slices replaced rather than merged. *)
Theorem override_wins `{GoStd} `{GoJson} `{Codecs} {T} `{Target T} (customEncoding : bool) (o : options T)
    (w : world) (m : manager T) (opts : list (option ReloadOption)) (ctx : context) (reason key : string) (extra : list stagedLayer)
    (d : gmap string value) (ca : caches) (dirs : list string) (a : assemblyResult) (p : pipelineState T) (path : list string) (v : value)
    (Hreq : Reload (Some m) opts = Ok (ReqReload reason key extra)) (Hd : cfg_override (reload_config opts) = Some d)
    (Hasm : assemble customEncoding w o (ctx AtAssemble) "" (mg_caches m) extra = (ca, dirs, Ok a))
    (Hplain : ar_appendSlices a = false ∧ ar_mergeKeys a = ∅)
    (Hrun : runMerge o (new_pipeline a reason false) = Ok p)
    (Hpath : path ≠ []) (Hv : get_at (VMap d) path = Some v) (Hleaf : as_map v = None) :
  Get (pl_merged p) path = Some v ∧ last (pl_sources p) = Some (sl_src (override_layer (Some d))).
Proof.
  assert (extra = [override_layer (Some d)]) as ->.
  { unfold Reload in Hreq. rewrite Hd in Hreq. destruct (cfg_err (reload_config opts)); [done|]. by injection Hreq as _ _ <-. }
  destruct (assembled_on_top _ _ _ _ _ _ _ _ _ _ Hasm) as [below Hstaged]. destruct Hplain as [Happ Hkeys].
  split; [by eapply (merge_on_top o (new_pipeline a reason false))|].
  unfold runMerge in Hrun. apply bind_Ok in Hrun as ([m1 ix1] & _ & [= <-]). cbn [set_tree pl_sources new_pipeline pl_staged]. rewrite Hstaged, fmap_app. apply last_snoc.
Qed.

(** ** What has been published is valid *)

Section valid.
Context `{GoStd} `{GoJson} `{Codecs} {T : Type} `{Target T}.
Context (customEncoding : bool) (o : options T).

(** The constraints of the type, every validator, and every policy for the
    reason of the reload, accept the value. *)
Definition value_ok (v : T) : Prop :=
  t_field_meta v = [] ∧ Forall (λ validate, validate v = Ok ()) (o_Validators o)
  ∧ ∃ reason, (evaluatePolicies o v reason).1 = [].

Lemma field_meta_pass (p q : pipelineState T) v : pl_dryRun p = false → pl_target p = Some v → runFieldMetaCheck p = Ok q →
  q = p ∧ t_field_meta v = [].
Proof.
  intros Hd Hv. unfold runFieldMetaCheck. rewrite Hv. destruct (t_field_meta v) as [|msg ms] eqn:E1; [by intros [= <-]|].
  rewrite field_meta_reload by done. done.
Qed.

Lemma validate_pass i vs (p q : pipelineState T) v : pl_dryRun p = false → validate_loop i vs v p = Ok q →
  q = p ∧ Forall (λ validate, validate v = Ok ()) vs.
Proof.
  intros Hd. revert i. induction vs as [|f vs IH]; intros i; cbn; [by intros [= <-]|]. unfold finding. rewrite Hd.
  destruct (f v) as [[]|e] eqn:Hf; cbn; [|done]. intros Hq. destruct (IH _ Hq) as [-> Hall]. split; [done|by constructor].
Qed.

Lemma policy_pass (p q : pipelineState T) v : pl_dryRun p = false → pl_target p = Some v → runPolicy o p = Ok q →
  q = p ∧ (evaluatePolicies o v (pl_reason p)).1 = [].
Proof.
  intros Hd Hv. unfold runPolicy. rewrite Hv. destruct (o_Policies o) as [|pol pols] eqn:Hp.
  { intros [= <-]. split; [done|]. unfold evaluatePolicies. by rewrite Hp. }
  destruct (evaluatePolicies o v (pl_reason p)) as [[|err errs] warns]; rewrite Hd; [by intros [= <-]|done].
Qed.

(** The stages before the decoding keep the reason and the mode. *)
Definition same_run (p q : pipelineState T) : Prop := pl_dryRun q = pl_dryRun p.

Lemma merge_same p q : runMerge o p = Ok q → same_run p q.
Proof. intros (acc & _ & Hq)%bind_Ok. destruct acc. by injection Hq as <-. Qed.

Lemma transform_same p q : runTransform o p = Ok q → same_run p q.
Proof. unfold runTransform. by intros (m & _ & ->)%fmap_Ok. Qed.

Lemma secret_same p q : runSecretResolve o p = Ok q → same_run p q.
Proof.
  unfold runSecretResolve. destruct (o_SecretResolver o) as [r|]; [|by intros [= <-]].
  destruct (WalkLeaves _ _ _ _) as [[[e|] ix] tree]; [done|]. by intros [= <-].
Qed.

Lemma hooks_same p q : runTypedHooks p = Ok q → same_run p q.
Proof. unfold runTypedHooks. destruct t_hooks; [|by intros [= <-]]. by intros (m & _ & ->)%fmap_Ok. Qed.

Lemma decode_same p q : runDecode o p = Ok q → same_run p q ∧ ∃ v, pl_target q = Some v.
Proof.
  unfold runDecode. destruct (t_encode _ _); [|done]. destruct (decode_input o _); [|done]. destruct (t_struct_defaults _) as [v|]; [|done].
  intros [= <-]. split; [done|]. by eexists.
Qed.

Lemma stages_valid p q : pl_dryRun p = false → run_all (defaultStages o) p = Ok q → ∃ v, pl_target q = Some v ∧ value_ok v.
Proof.
  intros Hd. unfold run_all, defaultStages. cbn [foldM snd].
  intros (p1 & Hs1%merge_same & (p2 & Hs2%transform_same & (p3 & Hs3%secret_same & (p4 & Hs4%hooks_same
    & (p5 & [Hs5 [v Hv]]%decode_same & (p6 & Hs6 & (p7 & Hs7 & (p8 & Hs8 & [= <-])%bind_Ok)%bind_Ok)%bind_Ok)%bind_Ok)%bind_Ok)%bind_Ok)%bind_Ok)%bind_Ok.
  unfold same_run in *. assert (Hd5 : pl_dryRun p5 = false) by congruence.
  apply (field_meta_pass _ _ v) in Hs6 as [-> Hm]; [|done..]. unfold runValidate in Hs7. rewrite Hv in Hs7.
  apply validate_pass in Hs7 as [-> Hval]; [|done]. apply (policy_pass _ _ v) in Hs8 as [-> Hpol]; [|done..].
  exists v. split; [done|]. split_and!; [done|done|]. by eexists.
Qed.

Lemma pipeline_valid ctx a reason evs p hash v : runPipeline o ctx a reason false = (evs, Ok (p, hash)) → pl_target p = Some v → value_ok v.
Proof.
  unfold runPipeline, runStages. pose proof (run_stages_outcome o ctx 0 (defaultStages o) (new_pipeline a reason false)) as Hout.
  destruct (run_stages _ _ _ _ _) as [evs' [q|e]]; [|done]. destruct Hout as (Hall & _ & _).
  apply stages_valid in Hall as (v' & Hv' & Hok); [|done]. rewrite Hv'. destruct (canonicalHash o v'); [|done].
  intros [= _ <- _]. rewrite Hv'. by intros [= <-].
Qed.

(** A step leaves the current state, or makes one current whose value is valid,
    or is the one it rolls back to. *)
Definition moves (act : action T) (m m' : manager T) : Prop :=
  mg_state m' = mg_state m
  ∨ ∃ next, mg_state m' = Some next
      ∧ (value_ok (st_value next) ∨ ∃ w done ctx t, act = Serve w done ctx (ReqRollback t) ∧ st_value next = st_value t).

Lemma reload_moves w m ctx reason key extra m' effs r : reload customEncoding o w m ctx reason key extra = (m', effs, r) →
  mg_state m' = mg_state m ∨ ∃ next, mg_state m' = Some next ∧ value_ok (st_value next).
Proof.
  unfold reload. destruct (assemble _ _ _ _ _ _ _) as [[ca dirs] [a|e]]; [|intros [= <- _ _]; by left].
  destruct (commit o _ ctx a reason key) as [[m1 effs1] r1] eqn:Hc. intros [= -> _ _].
  apply commit_cases in Hc as [(e & _ & -> & _)|[(_ & [->| ->] & _)|(_ & evs & p & hash & v & _ & Hp & Hv & _ & Hpub)]]; [by left..|right].
  cbn [newCommittedState] in Hpub. set (next := newState _ p v hash _ _) in *. exists next.
  destruct (publishSnapshot o _ _ next) as [m2 pubs] eqn:Hpubs. destruct Hpub as [-> _]. unfold publishSnapshot in Hpubs.
  injection Hpubs as <- _. split; [done|]. by eapply pipeline_valid.
Qed.

Lemma request_moves w done ctx m m' effs res req : run_request customEncoding o w m ctx req = (m', effs, res) →
  moves (Serve w done ctx req) m m'.
Proof.
  destruct req as [reason key extra|hostname|t|reason e]; cbn [run_request].
  - intros [Hs|(next & Hs & Hok)]%reload_moves; [by left|right]. exists next. split; [done|by left].
  - destruct (runPlan _ _ _ _ _ _) as [[m1 effs1] r1] eqn:Hp. intros [= <- _ _]. apply runPlan_advance in Hp as (_ & [Hs _] & _). by left.
  - unfold applyRollback. destruct (publishSnapshot o _ _ _) as [m1 effs1] eqn:Hp. intros [= <- _ _]. unfold publishSnapshot in Hp.
    injection Hp as <- _. right. eexists. split; [done|]. right. by exists w, done, ctx, t.
  - intros [= <- _ _]. by left.
Qed.

Lemma perform_moves act m : moves act m (perform customEncoding o m act).1.
Proof.
  destruct act as [w done ctx req|sub|id]; [|by left..]. cbn [perform]. unfold runReloadRequest. destruct done as [c|]; [by left|].
  destruct (run_request customEncoding o w m ctx req) as [[m1 effs] res] eqn:Hr. apply (request_moves w None) in Hr.
  destruct res; [exact Hr|]. exact Hr.
Qed.

(** The states that are current after each of the actions. *)
Fixpoint published (m : manager T) (actions : list (action T)) : list (State T) :=
  match actions with
  | [] => []
  | act :: actions =>
      let m := (perform customEncoding o m act).1 in
      option_list (mg_state m) ++ published m actions
  end.

(** Rollbacks go to states that have been published. *)
Fixpoint rolls_back_to (known : list (State T)) (m : manager T) (actions : list (action T)) : Prop :=
  match actions with
  | [] => True
  | act :: actions =>
      match act with Serve _ _ _ (ReqRollback t) => t ∈ known | _ => True end
      ∧ let m := (perform customEncoding o m act).1 in rolls_back_to (option_list (mg_state m) ++ known) m actions
  end.

Lemma published_ok actions m known :
  Forall (λ s, value_ok (st_value s)) known → (∀ s, mg_state m = Some s → value_ok (st_value s)) → rolls_back_to known m actions →
  Forall (λ s, value_ok (st_value s)) (published m actions).
Proof.
  revert m known. induction actions as [|act actions IH]; intros m known Hk Hm; cbn [rolls_back_to published]; [constructor|].
  intros [Ht Hrest]. pose proof (perform_moves act m) as Hmove. set (m' := (perform customEncoding o m act).1) in *.
  assert (Hm' : ∀ s, mg_state m' = Some s → value_ok (st_value s)).
  { intros s Hs. destruct Hmove as [Hsame|(next & Hn & [Hok|(w & dn & ctx & t & -> & Hv)])].
    - apply Hm. congruence.
    - congruence.
    - assert (s = next) as -> by congruence. rewrite Hv. by eapply Forall_forall in Hk. }
  assert (Hcur : Forall (λ s, value_ok (st_value s)) (option_list (mg_state m'))).
  { destruct (mg_state m') as [s|] eqn:Hs; [|constructor]. constructor; [by apply Hm'|constructor]. }
  apply Forall_app. split; [done|]. apply (IH _ (option_list (mg_state m') ++ known)); [by apply Forall_app|done|done].
Qed.
End valid.

(** C35: A manager only ever publishes valid values.  Whatever requests are served,
    with whatever sources, contexts and results, every state that becomes current
    has a value that satisfies the constraints of its type and every validator,
    and that no policy refuses; a rollback republishes a state that was. *)
Theorem published_valid `{GoStd} `{GoJson} `{Codecs} {T} `{Target T} (customEncoding : bool) (o : options T) (actions : list (action T))
    (Hback : rolls_back_to customEncoding o [] (newManager o) actions) :
  Forall (λ s, value_ok o (st_value s)) (published customEncoding o (newManager o) actions).
Proof. by apply (published_ok _ _ _ _ []). Qed.

(** Two reloads with an override, the second refused by the decoder of the
    example, and a rollback to the first. *)
Definition first_state : option (State string) :=
  mg_state (@perform example_std example_json example_codecs string example_target true (with_resolver example_resolver)
    (newManager (with_resolver example_resolver)) (Serve example_world None never (ReqReload "a" "" [example_over "one"]))).1.

Definition there_and_back : list (action string) :=
  [Serve example_world None never (ReqReload "a" "" [example_over "one"]);
   Serve example_world None never (ReqReload "b" "" [example_over "two"]);
   Serve example_world None never (ReqReload "c" "" [example_over "bad"])]
  ++ match first_state with Some s => [Serve example_world None never (ReqRollback s)] | None => [] end.

Lemma published_valid_witness :
  st_value <$> @published example_std example_json example_codecs string example_target true (with_resolver example_resolver)
    (newManager (with_resolver example_resolver)) there_and_back = ["one"; "two"; "two"; "one"]
  ∧ Forall (λ s, @value_ok string example_target (with_resolver example_resolver) (st_value s))
      (@published example_std example_json example_codecs string example_target true (with_resolver example_resolver)
        (newManager (with_resolver example_resolver)) there_and_back).
Proof.
  split; [vm_compute; reflexivity|].
  apply (@published_valid example_std example_json example_codecs string example_target true (with_resolver example_resolver) there_and_back).
  vm_compute. repeat split. do 2 right. left.
Defined.

(** A reload of one source with an override above it. *)
Definition example_opts : list (option ReloadOption) :=
  [Some (WithReason "deploy"); None;
   Some (WithOverride (λ _, Ok "{...}") (λ _, Ok (Some {[ "host" := VString "two" ]})) (Some {[ "host" := VString "two" ]}))].

Lemma override_wins_witness :
  ∃ a (p : pipelineState string), Get (pl_merged p) ["host"] = Some (VString "two") ∧ last (sr_Path <$> pl_sources p) = Some "override://once"
  ∧ (@assemble example_std example_codecs string true example_world (with_resolver example_resolver) None ""
       (mg_caches (newManager (with_resolver example_resolver))) [override_layer (Some {[ "host" := VString "two" ]})]).2 = Ok a.
Proof.
  destruct (@assemble example_std example_codecs string true example_world (with_resolver example_resolver) None ""
       (mg_caches (newManager (with_resolver example_resolver))) [override_layer (Some {[ "host" := VString "two" ]})]) as [[ca dirs] [a|e]] eqn:Ha;
    [|vm_compute in Ha; discriminate].
  destruct (@runMerge example_std example_json string (with_resolver example_resolver) (new_pipeline a "deploy" false)) as [p|e] eqn:Hp.
  2: { vm_compute in Ha. injection Ha as _ _ <-. vm_compute in Hp. discriminate. }
  exists a, p. assert (Hplain : ar_appendSlices a = false ∧ ar_mergeKeys a = ∅).
  { vm_compute in Ha. injection Ha as _ _ <-. split; reflexivity. }
  destruct (@override_wins example_std example_json example_codecs string example_target true (with_resolver example_resolver)
    example_world (newManager (with_resolver example_resolver)) example_opts never
    "deploy" "" [override_layer (Some {[ "host" := VString "two" ]})] {[ "host" := VString "two" ]} ca dirs a p ["host"] (VString "two")
    ltac:(reflexivity) ltac:(reflexivity) Ha Hplain Hp ltac:(discriminate) ltac:(reflexivity) ltac:(reflexivity)) as [Hg Hl].
  split; [exact Hg|]. split; [|reflexivity]. rewrite fmap_last, Hl. reflexivity.
Defined.
