(* ===== verification/RemoteSetup.v ===== *)
(** * Construction of the remote providers
    (providers/s3, gcs, azblob, http, vault, azappconfig)

    The constructors with their options and checks, the S3 address of
    [FromURL], and the requests of Vault.  SDK clients, [net/url] and the JSON
    decoder are arguments. *)
From S2P Require Import Prelude GoStrings Value CodecRegistry Codecs FieldMeta KVProviders Sources.
Open Scope nat_scope.

Definition setup_error : Type := string.

(** The name of the codec of an object, and its decoder. *)
Definition resolve_codec `{GoStd} (r : registry decoder) (configured key : string) : option decoder :=
  Lookup r (if String.eqb configured "" then LookupExt r (filepath_Ext key) else configured).

Definition priority_or_default (p : Z) : Z := if Z.eqb p 0 then PriorityKV else p.

Definition empty (s : string) : bool := String.eqb s "".

(** ** S3 (s3.go) *)

Definition s3_defaultMaxBodyBytes : Z := 10 * 1024 * 1024.

Record s3_config := {
  s3_Region : string;
  s3_Bucket : string;
  s3_Key : string;
  s3_AccessKey : string;
  s3_SecretKey : string;
  s3_Token : string;
  s3_Codec : string;
  s3_Priority : Z;
  s3_Endpoint : string;
  s3_PathStyle : bool;
  s3_VersionID : string;
}.

Record s3_provider := {
  sp_name : string;
  sp_bucket : string;
  sp_key : string;
  sp_versionID : string;
  sp_priority : Z;
  sp_codec : decoder;
  sp_maxBodyBytes : Z;
}.

Definition s3_Option : Type := s3_provider → s3_provider.

Definition s3_WithMaxBodyBytes (n : Z) : s3_Option := λ p,
  {| sp_name := sp_name p; sp_bucket := sp_bucket p; sp_key := sp_key p; sp_versionID := sp_versionID p; sp_priority := sp_priority p;
     sp_codec := sp_codec p; sp_maxBodyBytes := if (n <=? 0)%Z then s3_defaultMaxBodyBytes else n |}.

Definition s3_newProvider `{GoStd} (r : registry decoder) (cfg : s3_config) (opts : list s3_Option) : result setup_error s3_provider :=
  if empty (s3_Bucket cfg) then Err "fastconf/s3: bucket is required"
  else if empty (s3_Key cfg) then Err "fastconf/s3: key is required"
  else
    let codecName := if empty (s3_Codec cfg) then LookupExt r (filepath_Ext (s3_Key cfg)) else s3_Codec cfg in
    if empty codecName then Err ("fastconf/s3: cannot infer codec from key " +:+ s3_Key cfg)
    else match Lookup r codecName with
         | None => Err "fastconf/s3: unknown codec"
         | Some dec =>
             Ok (foldl (λ p (opt : s3_Option), opt p)
                   {| sp_name := "s3://" +:+ s3_Bucket cfg +:+ "/" +:+ s3_Key cfg; sp_bucket := s3_Bucket cfg; sp_key := s3_Key cfg;
                      sp_versionID := s3_VersionID cfg; sp_priority := priority_or_default (s3_Priority cfg);
                      sp_codec := dec; sp_maxBodyBytes := s3_defaultMaxBodyBytes |} opts)
         end.

Definition s3_New `{GoStd} (r : registry decoder) (cfg : s3_config) (opts : list s3_Option) : result setup_error s3_provider :=
  if empty (s3_Region cfg) then Err "fastconf/s3: region is required"
  else if empty (s3_AccessKey cfg) then Err "fastconf/s3: access key is required"
  else if empty (s3_SecretKey cfg) then Err "fastconf/s3: secret key is required"
  else s3_newProvider r cfg opts.

Definition s3_NewWithClient `{GoStd} (r : registry decoder) (cfg : s3_config) (has_client : bool) (opts : list s3_Option) :
    result setup_error s3_provider :=
  if has_client then s3_newProvider r cfg opts else Err "fastconf/s3: client is required".

(** What [url.Parse] gives: the parts of an address. *)
Record url := { u_Scheme : string; u_User : string; u_Host : string; u_Path : string; u_RawQuery : string; u_Fragment : string }.

Record Credentials := { cr_AccessKey : string; cr_SecretKey : string; cr_Token : string }.

(** [FromURL]; [query_Get] reads one parameter of a query. *)
Definition FromURL (url_Parse : string → result string url) (query_Get : string → string → string) (rawurl : string) (creds : Credentials) :
    result setup_error s3_config :=
  u ← map_err (λ e, "fastconf/s3: parse url: " +:+ e) (url_Parse rawurl);
  if negb (String.eqb (u_Scheme u) "s3") then Err ("fastconf/s3: unsupported scheme " +:+ u_Scheme u)
  else if empty (u_Host u) then Err "fastconf/s3: bucket is required in url host"
  else
    let key := TrimPrefix (u_Path u) "/" in
    if empty key then Err "fastconf/s3: key is required in url path"
    else
      let q := query_Get (u_RawQuery u) in
      path_style ← (if empty (q "path_style") then Ok false else of_option "fastconf/s3: path_style" (ParseBool (q "path_style")));
      priority ← (if empty (q "priority") then Ok 0%Z else of_option "fastconf/s3: priority" (Atoi (q "priority")));
      Ok {| s3_Region := q "region"; s3_Bucket := u_Host u; s3_Key := key; s3_AccessKey := cr_AccessKey creds;
            s3_SecretKey := cr_SecretKey creds; s3_Token := cr_Token creds; s3_Codec := q "codec"; s3_Priority := priority;
            s3_Endpoint := q "endpoint"; s3_PathStyle := path_style; s3_VersionID := q "version_id" |}.

(** ** GCS and Azure Blob (gcs.go, azblob.go) *)

Record object_config := { oc_Container : string; oc_Key : string; oc_Codec : string; oc_Priority : Z }.

Record object_provider := { op_name : string; op_container : string; op_key : string; op_codec : decoder; op_priority : Z; op_maxBodyBytes : Z }.

Definition object_Option : Type := object_provider → object_provider.

(** [WithMaxBodyBytes] of both packages. *)
Definition object_WithMaxBodyBytes (n : Z) : object_Option := λ p,
  {| op_name := op_name p; op_container := op_container p; op_key := op_key p; op_codec := op_codec p; op_priority := op_priority p;
     op_maxBodyBytes := if (n <=? 0)%Z then DefaultMaxBodyBytes else n |}.

(** What the two constructors share once their arguments are checked. *)
Definition object_provider_of `{GoStd} (r : registry decoder) (cfg : object_config) (name : string) (opts : list object_Option) :
    result setup_error object_provider :=
  match resolve_codec r (oc_Codec cfg) (oc_Key cfg) with
  | None => Err ("codec for " +:+ oc_Key cfg)
  | Some dec =>
      Ok (foldl (λ p (opt : object_Option), opt p)
            {| op_name := name; op_container := oc_Container cfg; op_key := oc_Key cfg; op_codec := dec;
               op_priority := priority_or_default (oc_Priority cfg); op_maxBodyBytes := DefaultMaxBodyBytes |} opts)
  end.

Definition gcs_New `{GoStd} (r : registry decoder) (cfg : object_config) (has_client : bool) (opts : list object_Option) :
    result setup_error object_provider :=
  if negb has_client then Err "fastconf/gcs: client is required"
  else if empty (oc_Container cfg) || empty (oc_Key cfg) then Err "fastconf/gcs: bucket and key are required"
  else object_provider_of r cfg ("gcs://" +:+ oc_Container cfg +:+ "/" +:+ oc_Key cfg) opts.

(** [New] of azblob: the address of the client's account without its query, fragment and user. *)
Definition blob_New `{GoStd} (r : registry decoder) (url_Parse : string → result string url) (url_String : url → string)
    (cfg : object_config) (client_URL : option string) (opts : list object_Option) : result setup_error object_provider :=
  match client_URL with
  | None => Err "fastconf/azblob: client is required"
  | Some raw =>
      if empty (oc_Container cfg) || empty (oc_Key cfg) then Err "fastconf/azblob: container and key are required"
      else match url_Parse raw with
           | Err _ => Err "fastconf/azblob: invalid client service URL"
           | Ok account =>
               if empty (u_Host account) || negb (String.eqb (u_Scheme account) "http" || String.eqb (u_Scheme account) "https")
               then Err "fastconf/azblob: invalid client service URL"
               else
                 let account := {| u_Scheme := u_Scheme account; u_User := ""; u_Host := u_Host account; u_Path := u_Path account;
                                   u_RawQuery := ""; u_Fragment := "" |} in
                 object_provider_of r cfg ("azblob:" +:+ TrimRight (url_String account) "/" +:+ "/" +:+ oc_Container cfg +:+ "/" +:+ oc_Key cfg) opts
           end
  end.

(** ** HTTP (http.go) *)

Record http_provider := {
  hp_name : string;
  hp_url : string;
  hp_priority : Z;
  hp_codec : option decoder;
  hp_interval : Z;
  hp_headers : gmap string string;
  hp_maxBodyBytes : Z;
}.

Definition http_Option : Type := http_provider → http_provider.

Definition http_WithPriority (n : Z) : http_Option := λ p,
  {| hp_name := hp_name p; hp_url := hp_url p; hp_priority := n; hp_codec := hp_codec p; hp_interval := hp_interval p;
     hp_headers := hp_headers p; hp_maxBodyBytes := hp_maxBodyBytes p |}.

Definition http_WithInterval (d : Z) : http_Option := λ p,
  {| hp_name := hp_name p; hp_url := hp_url p; hp_priority := hp_priority p; hp_codec := hp_codec p; hp_interval := d;
     hp_headers := hp_headers p; hp_maxBodyBytes := hp_maxBodyBytes p |}.

Definition http_WithMaxBodyBytes (n : Z) : http_Option := λ p,
  {| hp_name := hp_name p; hp_url := hp_url p; hp_priority := hp_priority p; hp_codec := hp_codec p; hp_interval := hp_interval p;
     hp_headers := hp_headers p; hp_maxBodyBytes := n |}.

Definition http_WithHeader (k v : string) : http_Option := λ p,
  {| hp_name := hp_name p; hp_url := hp_url p; hp_priority := hp_priority p; hp_codec := hp_codec p; hp_interval := hp_interval p;
     hp_headers := <[k := v]> (hp_headers p); hp_maxBodyBytes := hp_maxBodyBytes p |}.

Definition http_New (name url : string) (codec : option decoder) (opts : list http_Option) : result setup_error http_provider :=
  if empty name then Err "fastconf/http: provider name is required"
  else if empty url then Err "fastconf/http: url is required"
  else Ok (foldl (λ p (opt : http_Option), opt p)
             {| hp_name := name; hp_url := url; hp_priority := PriorityKV; hp_codec := codec; hp_interval := 30 * second; hp_headers := ∅;
                hp_maxBodyBytes := DefaultMaxBodyBytes |} opts).

(** ** Vault (vault.go, auth.go) *)

(** A login: a token and how long it lives in nanoseconds. *)
Definition Auth : Type := result string (string * Z).

Definition TokenAuth (token : string) : Auth := Ok (token, 0%Z).

Record vault_setup := {
  vs_name : string;
  vs_addr : string;
  vs_mount : string;
  vs_path : string;
  vs_token : string;
  vs_priority : Z;
  vs_separator : string;
  vs_interval : Z;
  vs_maxBodyBytes : Z;
  vs_auth : option Auth;
  vs_renewBefore : Z;
}.

Definition vault_Option : Type := vault_setup → vault_setup.

Section vault_options.
Context (p : vault_setup).

Definition vault_WithName (n : string) : vault_setup :=
  Build_vault_setup n (vs_addr p) (vs_mount p) (vs_path p) (vs_token p) (vs_priority p) (vs_separator p) (vs_interval p) (vs_maxBodyBytes p)
    (vs_auth p) (vs_renewBefore p).

Definition vault_WithPriority (n : Z) : vault_setup :=
  Build_vault_setup (vs_name p) (vs_addr p) (vs_mount p) (vs_path p) (vs_token p) n (vs_separator p) (vs_interval p) (vs_maxBodyBytes p)
    (vs_auth p) (vs_renewBefore p).

Definition vault_WithMount (m : string) : vault_setup :=
  Build_vault_setup (vs_name p) (vs_addr p) (trim_slashes m) (vs_path p) (vs_token p) (vs_priority p) (vs_separator p) (vs_interval p)
    (vs_maxBodyBytes p) (vs_auth p) (vs_renewBefore p).

Definition vault_WithSeparator (s : string) : vault_setup :=
  Build_vault_setup (vs_name p) (vs_addr p) (vs_mount p) (vs_path p) (vs_token p) (vs_priority p) s (vs_interval p) (vs_maxBodyBytes p)
    (vs_auth p) (vs_renewBefore p).

Definition vault_WithInterval (d : Z) : vault_setup :=
  Build_vault_setup (vs_name p) (vs_addr p) (vs_mount p) (vs_path p) (vs_token p) (vs_priority p) (vs_separator p) d (vs_maxBodyBytes p)
    (vs_auth p) (vs_renewBefore p).

Definition vault_WithMaxBodyBytes (n : Z) : vault_setup :=
  Build_vault_setup (vs_name p) (vs_addr p) (vs_mount p) (vs_path p) (vs_token p) (vs_priority p) (vs_separator p) (vs_interval p) n
    (vs_auth p) (vs_renewBefore p).

Definition vault_WithAuth (a : Auth) : vault_setup :=
  Build_vault_setup (vs_name p) (vs_addr p) (vs_mount p) (vs_path p) (vs_token p) (vs_priority p) (vs_separator p) (vs_interval p)
    (vs_maxBodyBytes p) (Some a) (vs_renewBefore p).

Definition vault_WithRenewBefore (d : Z) : vault_setup :=
  Build_vault_setup (vs_name p) (vs_addr p) (vs_mount p) (vs_path p) (vs_token p) (vs_priority p) (vs_separator p) (vs_interval p)
    (vs_maxBodyBytes p) (vs_auth p) d.
End vault_options.

Definition vault_New (addr path token : string) (opts : list vault_Option) : result setup_error vault_setup :=
  if empty addr then Err "vault: addr is empty"
  else if empty path then Err "vault: path is empty"
  else
    let p := foldl (λ p (opt : vault_Option), opt p)
               {| vs_name := ""; vs_addr := TrimRight addr "/"; vs_mount := "secret"; vs_path := trim_slashes path; vs_token := token;
                  vs_priority := PriorityKV; vs_separator := "."; vs_interval := 30 * second; vs_maxBodyBytes := DefaultMaxBodyBytes;
                  vs_auth := None; vs_renewBefore := 30 * second |} opts in
    if empty (vs_token p) && negb (bool_decide (is_Some (vs_auth p))) then Err "vault: token is empty (use WithAuth for dynamic tokens)"
    else Ok (if empty (vs_name p) then vault_WithName p ("vault://" +:+ vs_mount p +:+ "/" +:+ vs_path p) else p).

(** The token of a new provider, before any login. *)
Definition vault_token (p : vault_setup) : token_state := {| t_token := vs_token p; t_ttl := 0 |}.

(** What [Watch] does after its login: it polls the metadata, renews the lease, or is no watch at all. *)
Definition vault_watches (p : vault_setup) : option (bool * bool) :=
  let renews := bool_decide (is_Some (vs_auth p)) && (0 <? vs_renewBefore p)%Z in
  if (vs_interval p =? 0)%Z && negb renews then None else Some ((0 <? vs_interval p)%Z, renews).

(** A request: its address and its token. *)
Definition vault_request : Type := string * string.

(** An answer: the status, and the body. *)
Definition vault_answer : Type := result string (Z * reader string).

(** [readData]; [json] is the secret and its version in the answer. *)
Definition readData (p : vault_setup) (token : string) (send : vault_request → vault_answer)
    (json : string → result string (gomap * Z)) : result string (gomap * Z) :=
  resp ← send (vs_addr p +:+ "/v1/" +:+ vs_mount p +:+ "/data/" +:+ vs_path p, token);
  if negb (Z.eqb resp.1 200) then Err "vault: status"
  else
    body ← map_err (λ e, "vault: read body: " +:+ read_text e) (ReadAllMax resp.2 (vs_maxBodyBytes p));
    map_err (λ e, "vault: decode: " +:+ e) (json body).

Definition readMetadataVersion (p : vault_setup) (token : string) (send : vault_request → vault_answer)
    (json : string → result string Z) : result string Z :=
  resp ← send (vs_addr p +:+ "/v1/" +:+ vs_mount p +:+ "/metadata/" +:+ vs_path p, token);
  if negb (Z.eqb resp.1 200) then Err "vault metadata: status"
  else
    body ← map_err (λ e, "vault metadata: read body: " +:+ read_text e) (ReadAllMax resp.2 (vs_maxBodyBytes p));
    json body.

(** [AppRoleAuth]: at most 64 KiB of the answer are read; [json] is the token and the lease in seconds. *)
Definition AppRoleAuth (send : string → vault_answer) (json : string → result string (string * Z)) (addr : string) : Auth :=
  resp ← send (addr +:+ "/v1/auth/approle/login");
  let raw := str_take 65536 (r_data resp.2) in
  if negb (Z.eqb resp.1 200) then Err ("approle: status: " +:+ raw)
  else
    out ← map_err (λ e, "approle: decode: " +:+ e) (json raw);
    if empty out.1 then Err "approle: empty client_token" else Ok (out.1, (out.2 * second)%Z).

(** ** Facts *)

(** A codec of the registry, chosen by name or by the extension of the key. *)
Definition chosen `{GoStd} (r : registry decoder) (configured key : string) (dec : decoder) : Prop :=
  (configured ≠ "" ∧ Lookup r configured = Some dec) ∨ (configured = "" ∧ Lookup r (LookupExt r (filepath_Ext key)) = Some dec).

Lemma resolve_chosen `{GoStd} (r : registry decoder) configured key dec : resolve_codec r configured key = Some dec → chosen r configured key dec.
Proof. unfold resolve_codec, chosen. destruct (String.eqb_spec configured ""); [by right|by left]. Qed.

Lemma priority_default_nonzero n : priority_or_default n ≠ 0%Z.
Proof. unfold priority_or_default. destruct (Z.eqb_spec n 0); [done|done]. Qed.

Definition s3_made `{GoStd} (r : registry decoder) (cfg : s3_config) (p : s3_provider) : Prop :=
  s3_Bucket cfg ≠ "" ∧ s3_Key cfg ≠ "" ∧ sp_bucket p = s3_Bucket cfg ∧ sp_key p = s3_Key cfg ∧ sp_versionID p = s3_VersionID cfg
  ∧ sp_name p = "s3://" +:+ s3_Bucket cfg +:+ "/" +:+ s3_Key cfg ∧ chosen r (s3_Codec cfg) (s3_Key cfg) (sp_codec p)
  ∧ sp_priority p ≠ 0%Z ∧ (0 < sp_maxBodyBytes p)%Z.

Lemma s3_limit_keeps `{GoStd} r cfg n p : s3_made r cfg p → s3_made r cfg (s3_WithMaxBodyBytes n p).
Proof.
  intros (? & ? & ? & ? & ? & ? & ? & ? & ?). unfold s3_made, s3_WithMaxBodyBytes. cbn. split_and!; try done.
  destruct (Z.leb_spec n 0); [done|lia].
Qed.

Lemma s3_provider_made `{GoStd} (r : registry decoder) cfg opts p :
  Forall (λ opt, ∃ n, opt = s3_WithMaxBodyBytes n) opts → s3_newProvider r cfg opts = Ok p → s3_made r cfg p.
Proof.
  intros Ho. unfold s3_newProvider, empty. destruct (String.eqb_spec (s3_Bucket cfg) ""); [done|]. destruct (String.eqb_spec (s3_Key cfg) ""); [done|].
  set (name := if String.eqb (s3_Codec cfg) "" then _ else _). destruct (String.eqb name ""); [done|].
  destruct (Lookup r name) as [dec|] eqn:Hdec; [|done]. intros [= <-]. apply (options_keep (s3_made r cfg)).
  - unfold s3_made. cbn. split_and!; try done; [|apply priority_default_nonzero]. apply resolve_chosen. exact Hdec.
  - eapply Forall_impl; [exact Ho|]. intros opt [lim ->] q. apply s3_limit_keeps.
Qed.

Definition object_made `{GoStd} (r : registry decoder) (cfg : object_config) (p : object_provider) : Prop :=
  op_container p = oc_Container cfg ∧ op_key p = oc_Key cfg ∧ chosen r (oc_Codec cfg) (oc_Key cfg) (op_codec p)
  ∧ op_priority p ≠ 0%Z ∧ (0 < op_maxBodyBytes p)%Z.

Lemma object_provider_made `{GoStd} (r : registry decoder) cfg name opts p :
  Forall (λ opt, ∃ n, opt = object_WithMaxBodyBytes n) opts → object_provider_of r cfg name opts = Ok p →
  object_made r cfg p ∧ op_name p = name.
Proof.
  intros Ho. unfold object_provider_of. destruct (resolve_codec r _ _) as [dec|] eqn:Hdec; [|done]. intros [= <-].
  apply (options_keep (λ p, object_made r cfg p ∧ op_name p = name)).
  - unfold object_made. cbn. split_and!; try done; [by apply resolve_chosen|apply priority_default_nonzero].
  - eapply Forall_impl; [exact Ho|]. intros opt [lim ->] q [(? & ? & ? & ? & ?) ?]. unfold object_made, object_WithMaxBodyBytes. cbn.
    split_and!; try done. destruct (Z.leb_spec lim 0); [done|lia].
Qed.

(** Without an option that gives it a name a Vault provider is named after its mount and path. *)
Definition keeps_name (opt : vault_Option) : Prop := ∀ p, vs_name (opt p) = vs_name p.

Lemma vault_default_name addr path token opts p : Forall keeps_name opts → vault_New addr path token opts = Ok p →
  addr ≠ "" ∧ path ≠ "" ∧ (vs_token p ≠ "" ∨ is_Some (vs_auth p)) ∧ vs_name p = "vault://" +:+ vs_mount p +:+ "/" +:+ vs_path p.
Proof.
  intros Ho. unfold vault_New, empty. destruct (String.eqb_spec addr ""); [done|]. destruct (String.eqb_spec path ""); [done|].
  set (p0 := {| vs_name := "" |}). set (q := foldl _ p0 opts).
  assert (Hq : vs_name q = "").
  { unfold q. apply (options_keep (λ p, vs_name p = "")); [done|]. eapply Forall_impl; [exact Ho|]. intros opt Hk p' <-. apply Hk. }
  rewrite Hq. destruct (String.eqb_spec (vs_token q) "") as [Ht|Ht]; cbn [andb negb String.eqb].
  - case_bool_decide as Ha; [|done]. intros [= <-]. split_and!; try done. by right.
  - intros [= <-]. split_and!; try done. by left.
Qed.

(** ** Properties *)

(** What the constructors give is well formed: the required settings are there,
    the codec is the registered one that the configuration names or the extension
    of the key implies, the priority is not zero and the size limit is positive. *)
Theorem remote_setup_ok `{GoStd} (r : registry decoder) (sopts : list s3_Option) (oopts : list object_Option)
    (Hs : Forall (λ opt, ∃ n, opt = s3_WithMaxBodyBytes n) sopts) (Ho : Forall (λ opt, ∃ n, opt = object_WithMaxBodyBytes n) oopts) :
  (∀ cfg p, s3_New r cfg sopts = Ok p → s3_Region cfg ≠ "" ∧ s3_AccessKey cfg ≠ "" ∧ s3_SecretKey cfg ≠ "" ∧ s3_made r cfg p)
  ∧ (∀ cfg b p, gcs_New r cfg b oopts = Ok p → b = true ∧ oc_Container cfg ≠ "" ∧ oc_Key cfg ≠ "" ∧ object_made r cfg p)
  ∧ (∀ parse str cfg raw p, blob_New r parse str cfg raw oopts = Ok p →
       oc_Container cfg ≠ "" ∧ oc_Key cfg ≠ "" ∧ object_made r cfg p
       ∧ ∃ addr u, raw = Some addr ∧ parse addr = Ok u ∧ u_Host u ≠ "" ∧ (u_Scheme u = "http" ∨ u_Scheme u = "https")).
Proof.
  split_and!.
  - intros cfg p. unfold s3_New, empty. destruct (String.eqb_spec (s3_Region cfg) ""); [done|]. destruct (String.eqb_spec (s3_AccessKey cfg) ""); [done|].
    destruct (String.eqb_spec (s3_SecretKey cfg) ""); [done|]. intros Hp. split_and!; [done..|]. by apply (s3_provider_made r cfg sopts).
  - intros cfg b p. unfold gcs_New, empty. destruct b; [|done]. cbn [negb]. destruct (String.eqb_spec (oc_Container cfg) ""); [done|].
    destruct (String.eqb_spec (oc_Key cfg) ""); [done|]. cbn [orb]. intros Hp. split_and!; [done..|]. by apply (object_provider_made r cfg _ oopts) in Hp as [? _].
  - intros parse str cfg raw p. unfold blob_New, empty. destruct raw as [addr|]; [|done]. destruct (String.eqb_spec (oc_Container cfg) ""); [done|].
    destruct (String.eqb_spec (oc_Key cfg) ""); [done|]. cbn [orb]. destruct (parse addr) as [u|] eqn:Hu; [|done].
    destruct (String.eqb_spec (u_Host u) ""); [done|]. cbn [orb]. destruct (String.eqb_spec (u_Scheme u) "http") as [Hh|];
      [|destruct (String.eqb_spec (u_Scheme u) "https") as [Hh|]; [|done]]; cbn [orb negb]; intros Hp;
      (split_and!; [done..|by apply (object_provider_made r cfg _ oopts) in Hp as [? _]|]; exists addr, u; split_and!; auto).
Qed.

(** Names end up in logs, in the sources of a state and in its provenance, and
    hold no credentials: the name of an S3 provider made from an address depends
    on the bucket and the key alone, not on the user or the query of the address
    or on the credentials beside it; that of a blob provider not on the user, the
    query (where a shared access signature is) or the fragment of its account. *)
Theorem provider_names_public `{GoStd} (r : registry decoder) (parse : string → result string url) (str : url → string)
    (query_Get : string → string → string) (sopts : list s3_Option) (oopts : list object_Option)
    (Hs : Forall (λ opt, ∃ n, opt = s3_WithMaxBodyBytes n) sopts) (Ho : Forall (λ opt, ∃ n, opt = object_WithMaxBodyBytes n) oopts)
    (raw raw' : string) (u u' : url) (Hu : parse raw = Ok u) (Hu' : parse raw' = Ok u')
    (Hsame : u_Scheme u = u_Scheme u' ∧ u_Host u = u_Host u' ∧ u_Path u = u_Path u') :
  (∀ creds creds' cfg cfg' p p', FromURL parse query_Get raw creds = Ok cfg → FromURL parse query_Get raw' creds' = Ok cfg' →
     s3_New r cfg sopts = Ok p → s3_New r cfg' sopts = Ok p' → sp_name p = sp_name p')
  ∧ (∀ cfg p p', blob_New r parse str cfg (Some raw) oopts = Ok p → blob_New r parse str cfg (Some raw') oopts = Ok p' → op_name p = op_name p').
Proof.
  destruct Hsame as (Hscheme & Hhost & Hpath). split.
  - assert (Hfrom : ∀ raw u creds cfg, parse raw = Ok u → FromURL parse query_Get raw creds = Ok cfg →
              s3_Bucket cfg = u_Host u ∧ s3_Key cfg = TrimPrefix (u_Path u) "/").
    { clear. intros raw u creds cfg Hu. unfold FromURL. rewrite Hu. cbn [map_err mbind result_bind]. destruct (negb _); [done|].
      destruct (empty (u_Host u)); [done|]. destruct (empty (TrimPrefix _ _)); [done|].
      by intros (b & _ & (n & _ & [= <-])%bind_Ok)%bind_Ok. }
    intros creds creds' cfg cfg' p p' Hc Hc' Hp Hp'. apply (Hfrom _ u) in Hc as [Hb Hk]; [|done]. apply (Hfrom _ u') in Hc' as [Hb' Hk']; [|done].
    assert (Hname : ∀ cfg p, s3_New r cfg sopts = Ok p → sp_name p = "s3://" +:+ s3_Bucket cfg +:+ "/" +:+ s3_Key cfg).
    { clear -Hs. intros cfg p. unfold s3_New. destruct (empty _); [done|]. destruct (empty _); [done|]. destruct (empty _); [done|].
      by intros (_ & _ & _ & _ & _ & Hname & _)%s3_provider_made. }
    rewrite (Hname _ _ Hp), (Hname _ _ Hp'). congruence.
  - intros cfg p p'. unfold blob_New. rewrite Hu, Hu'. destruct (_ || _); [done|]. destruct (_ || _); [done|].
    intros [_ ->]%(object_provider_made r cfg _ _ _ Ho). destruct (_ || _); [done|]. intros [_ ->]%(object_provider_made r cfg _ _ _ Ho).
    by rewrite Hscheme, Hhost, Hpath.
Qed.

(** A provider that is given both a static token and an [Auth] never logs in:
    the token is there already, and a token without a lease is not renewed,
    although [WithAuth] is documented to take the place of the token. *)
Example static_token_wins login path :
  ∃ p, vault_New "https://v" "app" "tok" [λ p, vault_WithAuth p login] = Ok p
  ∧ ensureToken (vs_auth p) (vault_token p) = Ok (vault_token p)
  ∧ renew_wait {| vp_separator := path; vp_renewBefore := vs_renewBefore p |} (t_ttl (vault_token p)) 0 = None.
Proof. eexists. split; [reflexivity|]. split; reflexivity. Qed.
