(* ===== verification/Bridge.v ===== *)
(** * The decode bridge on a described type (decode.go, stages.go)

    The interface [Target] that the pipeline relies on, implemented for a Go type
    given by its table: the tree is encoded as JSON or sorted YAML and decoded
    into a value of the type, whose tags then fill defaults and state
    constraints.  The JSON and YAML libraries are arguments. *)
From S2P Require Import Prelude GoStrings Value Merge Patch Secret Options Assemble Pipeline Manager TypeInfo FieldMeta StateView Calls.
From Stdlib Require Import SpecFloat.
Open Scope nat_scope.

Section bridge.
Context `{GoStd} (types : list gotype) (root : nat).
Context (parse_float32 : string → option spec_float) (Sprint : list nat → gval → string).
(** [json.Encoder.Encode] without its line break, and [json.Decoder.Decode]
    into a new value, strict or not. *)
Context (json_Encode : value → result string string) (json_Decode : bool → string → result Pipeline.decode_error gval).
(** [yaml.Marshal], and [yaml.Decoder.Decode], which ends with no error at [io.EOF]. *)
Context (yaml_Marshal : ynode → result string string) (yaml_Decode : bool → string → result (option Pipeline.decode_error) gval).
(** [new(T)], the text of errors, [Defaulter], and the encoding that is hashed. *)
Context (zero : gval) (default_text : default_error → string) (violation_text : FieldMeta.Violation → string).
Context (Defaults : option (gval → gval)) (marshal : bool → gval → result string string).

Definition line_break : string := String (Ascii.ascii_of_nat 10) "".

Definition encodeBridgeInput (yamlBridge : bool) (m : gomap) : result string string :=
  if yamlBridge then yaml_Marshal (sortedYAMLNode (VMapOpt m))
  else (λ s, s +:+ line_break) <$> json_Encode (VMapOpt m).

(** [bridgeInput.decode]: an empty YAML document leaves the new value as it is. *)
Definition bridge_decode (yamlBridge strict : bool) (input : string) : result Pipeline.decode_error gval :=
  if yamlBridge then
    match yaml_Decode strict input with
    | Err None => Ok zero
    | Err (Some e) => Err e
    | Ok v => Ok v
    end
  else json_Decode strict input.

Definition struct_defaults (v : gval) : result string gval :=
  match ApplyStructDefaults parse_float32 types root v with
  | (v, None) => Ok v
  | (_, Some e) => Err (default_text e)
  end.

(** The pipeline on values of the type, without typed hooks. *)
Definition described : Target gval := {|
  t_encode := encodeBridgeInput;
  t_decode := bridge_decode;
  t_hooks := None;
  t_assign := λ _ v, v;
  t_struct_defaults := struct_defaults;
  t_Defaults := Defaults;
  t_field_meta := λ v, map violation_text (CheckFieldMeta Sprint types root v);
  t_marshal := marshal;
|}.

(** The constraints of the type hold. *)
Definition constraints_hold (v : gval) : Prop :=
  ∀ fs w s, fs ∈ fieldMetaPlanFor types root → fieldAt v true (fc_Index fs) = Some (w, s) → meets Sprint fs w.

Lemma accepted_constraints (o : options gval) v : @value_ok gval described o v → constraints_hold v.
Proof.
  intros [Hm _]. change (map violation_text (CheckFieldMeta Sprint types root v) = []) in Hm. apply map_eq_nil in Hm. intros fs w s Hfs Hw.
  assert (Hnil : check_field Sprint v fs = []).
  { destruct (check_field Sprint v fs) as [|vi l] eqn:E1; [done|].
    assert (Hin : vi ∈ CheckFieldMeta Sprint types root v) by (apply list_elem_of_bind; exists fs; rewrite E1; split; [left|done]).
    rewrite Hm in Hin. by apply not_elem_of_nil in Hin. }
  by apply (proj1 (check_field_nil Sprint v fs) Hnil w s).
Qed.
End bridge.

(** Every value that a manager of the type publishes, by whatever requests,
    satisfies the [required], [min], [max] and [oneof] tags of all its fields. *)
Theorem published_constraints `{GoStd} `{GoJson} `{Assemble.Codecs} (types : list gotype) (root : nat)
    (parse_float32 : string → option spec_float) (Sprint : list nat → gval → string)
    (json_Encode : value → result string string) (json_Decode : bool → string → result Pipeline.decode_error gval)
    (yaml_Marshal : ynode → result string string) (yaml_Decode : bool → string → result (option Pipeline.decode_error) gval)
    (zero : gval) (default_text : default_error → string) (violation_text : FieldMeta.Violation → string)
    (Defaults : option (gval → gval)) (marshal : bool → gval → result string string) (customEncoding : bool) (o : options gval) (actions : list (action gval)) :
  let target := described types root parse_float32 Sprint json_Encode json_Decode yaml_Marshal yaml_Decode zero default_text violation_text Defaults marshal in
  @rolls_back_to _ _ _ gval target customEncoding o [] (newManager o) actions →
  Forall (λ s, constraints_hold types root Sprint (st_value s)) (@published _ _ _ gval target customEncoding o (newManager o) actions).
Proof.
  intros target Hback. eapply Forall_impl; [by apply (published_ok customEncoding o actions (newManager o) [])|].
  intros s. apply accepted_constraints.
Qed.
