(* ===== verification/Consumers.v ===== *)
(** * Notification consumers (integrations/notify/*, providers/s3/s3events)

    The constructors and the [Run] loops of the consumers, the watch of the S3
    event queue, and a queue service with at-least-once delivery in which the
    consumers run: messages arrive late, twice and in any order, workers fail
    and stop at any point. *)
From S2P Require Import Prelude GoStrings Sources Notify.
Open Scope nat_scope.

Definition setup_error : Type := string.

(** ** Constructors *)

(** Durations are nanoseconds. *)
Definition Second : Z := 1000000000.
Definition DefaultRefreshTimeout : Z := 30 * Second.
Definition MaxRefreshTimeout : Z := 12 * 3600 * Second - 10 * Second.

(** [sns.New]: the refresh timeout of the consumer it gives. *)
Definition sns_New (client : bool) (queueURL : string) (c : sns_config) (timeout : Z) : result setup_error Z :=
  if negb client || empty queueURL then Err "fastconf/sns: client and queue URL are required"
  else if negb (validateSource c) then Err "fastconf/sns: source and its resource identifiers are required"
  else
    let timeout := if Z.eqb timeout 0 then DefaultRefreshTimeout else timeout in
    if (timeout <? 0)%Z || (MaxRefreshTimeout <? timeout)%Z then Err "fastconf/sns: refresh timeout must be positive and below 12h minus 10s"
    else Ok timeout.

(** Conversion to [int32], and the visibility timeout that [sns.Run] asks for. *)
Definition int32 (n : Z) : Z := (n + 2 ^ 31) mod 2 ^ 32 - 2 ^ 31.
Definition visibility (timeout : Z) : Z := int32 (int32 (Z.quot (timeout + Second - 1) Second) + 10).

(** [azservicebus.New] *)
Definition azure_New (receiver : bool) (c : azure_config) (timeout : Z) : result setup_error Z :=
  if negb receiver || empty (zc_ResourceID c) then Err "fastconf/azservicebus: receiver and resource ID are required"
  else
    _ ← match zc_Source c with
        | AppConfiguration => Ok tt
        | Blob => if empty (zc_Container c) || empty (zc_Key c) then Err "fastconf/azservicebus: container and key are required" else Ok tt
        | OtherAzure => Err "fastconf/azservicebus: unsupported source"
        end;
    let timeout := if Z.eqb timeout 0 then DefaultRefreshTimeout else timeout in
    if (timeout <? 0)%Z then Err "fastconf/azservicebus: refresh timeout must be positive" else Ok timeout.

Definition minTime (a b : Z) : Z := if (a <? b)%Z then a else b.

(** The deadlines of the refresh and of the settlement of a message locked until
    [locked]. *)
Definition azure_deadline (now timeout locked : Z) : Z := minTime (now + timeout) (locked - Second).
Definition azure_settle (now timeout locked : Z) : Z := minTime (now + timeout) locked.

(** [pubsub.New] *)
Definition google_New (subscriber : bool) (c : google_config) (timeout : Z) : result setup_error Z :=
  if negb subscriber then Err "fastconf/pubsub: subscriber is required"
  else if negb (google_valid c) then
    Err match gc_Source c with
        | GCS => "fastconf/pubsub: bucket and key are required"
        | SecretManager => "fastconf/pubsub: full secret resource without /versions is required"
        | OtherGoogle => "fastconf/pubsub: unsupported source"
        end
  else
    let timeout := if Z.eqb timeout 0 then DefaultRefreshTimeout else timeout in
    if (timeout <? 0)%Z then Err "fastconf/pubsub: refresh timeout must be positive" else Ok timeout.

(** [s3events.Config] and the provider that [newProvider] makes of it. *)
Record events_config := {
  ec_Region : string; ec_AccessKey : string; ec_SecretKey : string; ec_QueueURL : string; ec_Bucket : string; ec_KeyPrefix : string;
  ec_Name : string; ec_Priority : Z; ec_MaxMessages : Z; ec_WaitTimeSeconds : Z;
}.

Record events_provider := { ev_base : s3events_provider; ev_queueURL : string; ev_priority : Z; ev_maxMsgs : Z; ev_waitSecs : Z }.

Definition events_newProvider (cfg : events_config) : result setup_error events_provider :=
  if empty (ec_QueueURL cfg) then Err "fastconf/s3events: queue url is required"
  else if empty (ec_Bucket cfg) then Err "fastconf/s3events: bucket is required"
  else
    let '(maxMsgs, waitSecs) := s3events_batch (ec_MaxMessages cfg) (ec_WaitTimeSeconds cfg) in
    Ok {| ev_base := {| sp_name := s3events_name (ec_Name cfg) (ec_Bucket cfg) (ec_KeyPrefix cfg); sp_bucket := ec_Bucket cfg; sp_keyPrefix := ec_KeyPrefix cfg |};
          ev_queueURL := ec_QueueURL cfg; ev_priority := if Z.eqb (ec_Priority cfg) 0 then PriorityKV else ec_Priority cfg;
          ev_maxMsgs := maxMsgs; ev_waitSecs := waitSecs |}.

(** [s3events.New], up to the SDK client; [NewWithClient]. *)
Definition events_New (cfg : events_config) : result setup_error events_provider :=
  if empty (ec_Region cfg) then Err "fastconf/s3events: region is required"
  else if empty (ec_AccessKey cfg) then Err "fastconf/s3events: access key is required"
  else if empty (ec_SecretKey cfg) then Err "fastconf/s3events: secret key is required"
  else events_newProvider cfg.

Definition events_NewWithClient (cfg : events_config) (client : bool) : result setup_error events_provider :=
  if negb client then Err "fastconf/s3events: client is required" else events_newProvider cfg.

(** ** The loops of the consumers

    One round of [Run]: whether its context is cancelled when the round starts,
    and the messages that the client returns. *)
Record round (M : Type) := { rd_cancelled : bool; rd_answer : result string (list (M * message_env)) }.
Arguments rd_cancelled {M}.
Arguments rd_answer {M}.

Inductive run_end := EndNoRefresh | EndCtx | EndReceive (e : string) | EndPeekLock.

(** The messages of a round: a function gives the actions of one of them and, when
    [Run] returns there, why. *)
Fixpoint each_message {M} (one : M → message_env → list action * option run_end) (ms : list (M * message_env)) : list action * option run_end :=
  match ms with
  | [] => ([], None)
  | (m, env) :: ms =>
      match one m env with
      | (acts, Some e) => (acts, Some e)
      | (acts, None) => let '(more, e) := each_message one ms in (acts ++ more, e)
      end
  end.

(** The rounds; [None] for a loop that is still running. *)
Fixpoint run_rounds {M} (one : M → message_env → list action * option run_end) (script : list (round M)) : list action * option run_end :=
  match script with
  | [] => ([], None)
  | r :: script =>
      if rd_cancelled r then ([], Some EndCtx) else
      match rd_answer r with
      | Err e => ([], Some (EndReceive e))
      | Ok ms =>
          match each_message one ms with
          | (acts, Some e) => (acts, Some e)
          | (acts, None) => let '(more, e) := run_rounds one script in (acts ++ more, e)
          end
      end
  end.

Definition or_cancelled (r : list action * bool) : list action * option run_end := (r.1, if r.2 then Some EndCtx else None).

(** [sns.Consumer.Run] with a [match] *)
Definition sns_Run (matches : string → result match_error bool) (refresh : bool) (script : list (round string)) : list action * option run_end :=
  if negb refresh then ([], Some EndNoRefresh) else run_rounds (λ body env, or_cancelled (sns_message (matches body) env)) script.

(** [azservicebus.Consumer.Run]: a message without a lock ends the loop. *)
Definition azure_Run (matches : string → result match_error bool) (refresh : bool) (script : list (round (string * bool))) : list action * option run_end :=
  if negb refresh then ([], Some EndNoRefresh) else
  run_rounds (λ (m : string * bool) env, let '(body, locked) := m in if locked then or_cancelled (azure_message (matches body) env) else ([], Some EndPeekLock)) script.

(** ** The watch of the S3 event queue *)

(** What one poll meets: whether the context is done at its start and after a
    failed receive, the answer of the queue, and how many sends succeed before
    the context is done. *)
Record events_round := { er_done : bool; er_answer : result bool (list s3_message); er_room : nat }.

Inductive events_action := WarnReceive | Backoff | Send (t : s3_trigger) | DeleteBatch (entries : list (string * string)).

(** [ack]: one batch; an entry is an id and a receipt handle. *)
Definition ack (matched : list s3_message) : list events_action :=
  match matched with
  | [] => []
  | _ => [DeleteBatch (imap (λ i m, (itoa i, sm_Receipt m)) matched)]
  end.

(** [poll] with its flags [gap] and [failing]. *)
Definition events_poll (json_bridge : string → result string bridge_event) (p : s3events_provider) (r : events_round) (flags : bool * bool) :
    list events_action * (bool * bool) :=
  let '(gap, failing) := flags in
  match er_answer r with
  | Err ctx_done => if ctx_done then ([], flags) else ((if failing then [] else [WarnReceive]) ++ [Backoff], (gap, true))
  | Ok msgs =>
      let '(sent, matched, gap) := poll_messages json_bridge p (er_room r) gap msgs [] [] in
      (map Send sent ++ ack matched, (gap, false))
  end.

(** [Watch]: the polls until the context is done. *)
Fixpoint events_watch (json_bridge : string → result string bridge_event) (p : s3events_provider) (script : list events_round) (flags : bool * bool) :
    list events_action :=
  match script with
  | [] => []
  | r :: script => if er_done r then [] else let '(acts, flags) := events_poll json_bridge p r flags in acts ++ events_watch json_bridge p script flags
  end.

Definition events_Watch json_bridge p (from : string) (script : list events_round) : list events_action :=
  events_watch json_bridge p script (negb (empty from), false).

(** ** A queue service

    A message carries the revision of the source that it announces, 0 for one
    that announces none; the revision is for the proofs, consumers see the body.
    A worker runs the actions of a consumer for the message it has received.

    The manager holds a revision, [sv_local].  What a reload gets from the provider
    is up to the provider: one that reads its source gives the revision of the
    source, and one that keeps to a poll interval, like that of AppConfig, gives
    what it holds.  [sv_read] is the revision that the source had at the last
    reload that succeeded, whatever that reload was given. *)
Record delivery := { dv_body : string; dv_revision : nat }.
Record worker := { wk_msg : delivery; wk_env : message_env; wk_todo : list action; wk_deleted : bool }.
Record service := { sv_remote : nat; sv_read : nat; sv_local : nat; sv_queue : list delivery; sv_workers : list worker }.

Inductive consumer := Sns | ServiceBus | PubSub.

Definition consumer_actions (k : consumer) (matched : result match_error bool) (env : message_env) : list action :=
  match k with
  | Sns => (sns_message matched env).1
  | ServiceBus => (azure_message matched env).1
  | PubSub => google_message matched env
  end.

Definition is_none {A} (o : option A) : bool := match o with None => true | Some _ => false end.

(** One action of a worker: a refresh that succeeds loads the revision [n], an
    acknowledgement that succeeds deletes the message. *)
Definition refreshes (w : worker) (a : action) : bool := match a with Refresh => is_none (me_refresh (wk_env w)) | _ => false end.

Definition act (s : service) (pre post : list worker) (w : worker) (a : action) (todo : list action) (n : nat) : service :=
  let w' := {| wk_msg := wk_msg w; wk_env := wk_env w; wk_todo := todo;
               wk_deleted := match a with Acknowledge => wk_deleted w || is_none (me_settle (wk_env w)) | _ => wk_deleted w end |} in
  {| sv_remote := sv_remote s;
     sv_read := if refreshes w a then sv_remote s else sv_read s;
     sv_local := if refreshes w a then n else sv_local s;
     sv_queue := sv_queue s; sv_workers := pre ++ w' :: post |}.

Section service.
Context (k : consumer) (matches : string → result match_error bool).

(** What a load can give when the source is at a revision and another is held. *)
Context (reads : nat → nat → nat → Prop).

Definition start (d : delivery) (env : message_env) : worker :=
  {| wk_msg := d; wk_env := env; wk_todo := consumer_actions k (matches (dv_body d)) env; wk_deleted := false |}.

Inductive service_step : service → service → Prop :=
| change s body : matches body = Ok true →
    (** the source changes, and announces it *)
    service_step s {| sv_remote := S (sv_remote s); sv_read := sv_read s; sv_local := sv_local s;
      sv_queue := sv_queue s ++ [{| dv_body := body; dv_revision := S (sv_remote s) |}]; sv_workers := sv_workers s |}
| arrive s d : dv_revision d ≤ sv_remote s →
    (** any other message, or one that is delivered again *)
    service_step s {| sv_remote := sv_remote s; sv_read := sv_read s; sv_local := sv_local s; sv_queue := sv_queue s ++ [d]; sv_workers := sv_workers s |}
| receive s pre d post env : sv_queue s = pre ++ d :: post →
    service_step s {| sv_remote := sv_remote s; sv_read := sv_read s; sv_local := sv_local s; sv_queue := pre ++ post; sv_workers := start d env :: sv_workers s |}
| work s pre w post a todo n : sv_workers s = pre ++ w :: post → wk_todo w = a :: todo →
    (refreshes w a = true → reads (sv_remote s) (sv_local s) n) → service_step s (act s pre post w a todo n)
| periodic s n : reads (sv_remote s) (sv_local s) n →
    (** a reload that no message asked for *)
    service_step s {| sv_remote := sv_remote s; sv_read := sv_remote s; sv_local := n; sv_queue := sv_queue s; sv_workers := sv_workers s |}
| stop s pre w post : sv_workers s = pre ++ w :: post →
    (** the worker is done, fails, or its message becomes visible again *)
    service_step s {| sv_remote := sv_remote s; sv_read := sv_read s; sv_local := sv_local s;
      sv_queue := if wk_deleted w then sv_queue s else sv_queue s ++ [wk_msg w]; sv_workers := pre ++ post |}.

Definition idle (n : nat) : service := {| sv_remote := n; sv_read := n; sv_local := n; sv_queue := []; sv_workers := [] |}.













End service.

(** ** Draining the queue *)

Definition good_env : message_env := {| me_refresh := None; me_expired := false; me_late := false; me_cancelled := false; me_settle := None |}.

Definition served (s : service) (b : bool) (n : nat) (q : list delivery) : service :=
  {| sv_remote := sv_remote s; sv_read := if b then sv_remote s else sv_read s; sv_local := if b then n else sv_local s; sv_queue := q; sv_workers := [] |}.

Section drain.
Context (k : consumer) (matches : string → result match_error bool) (reads : nat → nat → nat → Prop).

(** A message that is well formed is served and deleted. *)
Lemma serve_one s d post b n : sv_workers s = [] → sv_queue s = d :: post → matches (dv_body d) = Ok b → (b = true → reads (sv_remote s) (sv_local s) n) →
  rtc (service_step k matches reads) s (served s b n post).
Proof.
  intros Hw Hq Hm Hr. set (ack := {| wk_msg := d; wk_env := good_env; wk_todo := []; wk_deleted := true |}).
  set (mid := λ w, {| sv_remote := sv_remote s; sv_read := if b then sv_remote s else sv_read s; sv_local := if b then n else sv_local s;
    sv_queue := post; sv_workers := [w] |}).
  assert (service_step k matches reads (mid ack) (served s b n post)) as Hstop by (apply (stop _ _ _ (mid ack) [] ack []); done).
  set (todo := {| wk_msg := d; wk_env := good_env; wk_todo := [Acknowledge]; wk_deleted := false |}).
  assert (service_step k matches reads (mid todo) (mid ack)) as Hack by (apply (work _ _ _ (mid todo) [] todo [] Acknowledge [] n); done).
  eapply rtc_l; [apply (receive _ _ _ s [] d post good_env Hq)|]. rewrite Hw. unfold start. rewrite Hm.
  assert (consumer_actions k (Ok b) good_env = (if b then [Refresh] else []) ++ [Acknowledge]) as -> by (by destruct k, b).
  destruct b; cbn [app].
  - eapply rtc_l; [eapply (work _ _ _ _ [] _ [] Refresh _ n); [reflexivity..|]; intros _; by apply Hr|]. eapply rtc_l; [exact Hack|]. by apply rtc_once.
  - eapply rtc_l; [exact Hack|]. by apply rtc_once.
Qed.

End drain.

(** ** The S3 watch as a whole *)

(** A poll that is neither interrupted nor, while it sends, cancelled. *)
Definition calm (json_bridge : string → result string bridge_event) (p : s3events_provider) (r : events_round) : Prop :=
  er_done r = false ∧ match er_answer r with Ok msgs => length (omap (hit json_bridge p) msgs) ≤ er_room r | Err ctx_done => ctx_done = false end.

Definition sent_of (acts : list events_action) : list s3_trigger := omap (λ a, match a with Send t => Some t | _ => None end) acts.
Definition deleted_of (acts : list events_action) : list string := flat_map (λ a, match a with DeleteBatch es => es.*2 | _ => [] end) acts.
Definition warnings_of (acts : list events_action) : nat := length (omap (λ a, match a with WarnReceive => Some tt | _ => None end) acts).

(** The messages of a script, and its outages: failures that follow none. *)
Definition messages_of (script : list events_round) : list s3_message := flat_map (λ r, match er_answer r with Ok msgs => msgs | Err _ => [] end) script.
Fixpoint outages (failing : bool) (script : list events_round) : nat :=
  match script with
  | [] => 0
  | r :: script => match er_answer r with Ok _ => outages false script | Err _ => (if failing then 0 else 1) + outages true script end
  end.
Lemma triggers_app l l' gap : triggers (l ++ l') gap = triggers l gap ++ triggers l' (gap && bool_decide (l = [])).
Proof.
  destruct l as [|x l]; [cbn; by rewrite andb_true_r|]. rewrite (bool_decide_false (_ :: _ = [])), andb_false_r by done.
  cbn [triggers app]. rewrite fmap_app. by destruct l'.
Qed.

Lemma sent_app a b : sent_of (a ++ b) = sent_of a ++ sent_of b.
Proof. apply omap_app. Qed.
Lemma deleted_app a b : deleted_of (a ++ b) = deleted_of a ++ deleted_of b.
Proof. apply flat_map_app. Qed.
Lemma warnings_app a b : warnings_of (a ++ b) = warnings_of a + warnings_of b.
Proof. unfold warnings_of. by rewrite omap_app, length_app. Qed.

Lemma sends l : sent_of (map Send l) = l ∧ deleted_of (map Send l) = [] ∧ warnings_of (map Send l) = 0.
Proof. induction l as [|t l (IH1 & IH2 & IH3)]; [done|]. unfold sent_of, deleted_of, warnings_of in *. cbn. by rewrite IH1, IH2, IH3. Qed.

Lemma acks m : sent_of (ack m) = [] ∧ deleted_of (ack m) = sm_Receipt <$> m ∧ warnings_of (ack m) = 0.
Proof.
  destruct m as [|x m]; [done|]. split_and!; [done| |done]. unfold ack, deleted_of. cbn [flat_map]. rewrite app_nil_r.
  rewrite fmap_imap. unfold compose. cbn [snd]. generalize (x :: m). intros l. clear. apply list_eq. intros i.
  by rewrite list_lookup_imap, list_lookup_fmap.
Qed.

(** The ids of a batch are distinct. *)
Lemma batch_ids m es : DeleteBatch es ∈ ack m → NoDup es.*1 ∧ es ≠ [] ∧ length es = length m.
Proof.
  destruct m as [|x m]; [by intros ?%not_elem_of_nil|]. intros Hes%list_elem_of_singleton.
  assert (es = imap (λ i m, (itoa i, sm_Receipt m)) (x :: m)) as -> by congruence. clear Hes.
  split_and!; [|done|by rewrite length_imap]. rewrite fmap_imap. unfold compose. cbn [fst]. generalize (x :: m). intros l.
  apply NoDup_alt. intros i j id Hi Hj. rewrite list_lookup_imap in Hi, Hj.
  apply fmap_Some in Hi as (? & _ & ->). apply fmap_Some in Hj as (? & _ & Hj). by apply (inj itoa) in Hj.
Qed.

Lemma calm_poll json_bridge p r gap failing : calm json_bridge p r →
  let msgs := messages_of [r] in
  let '(acts, flags) := events_poll json_bridge p r (gap, failing) in
  sent_of acts = triggers (omap (hit json_bridge p) msgs) gap
  ∧ deleted_of acts = sm_Receipt <$> filter (λ m, is_Some (hit json_bridge p m)) msgs
  ∧ warnings_of acts = outages failing [r]
  ∧ flags = (gap && bool_decide (omap (hit json_bridge p) msgs = []), match er_answer r with Ok _ => false | Err _ => true end)
  ∧ (∀ es, DeleteBatch es ∈ acts → NoDup es.*1 ∧ es ≠ [] ∧ length es ≤ length msgs).
Proof.
  intros [_ Hc]. unfold events_poll, messages_of. cbn [flat_map outages]. destruct (er_answer r) as [msgs|ctx_done].
  - rewrite (poll_messages_spec _ _ _ _ _ [] []) by done. rewrite !app_nil_l, app_nil_r.
    set (m := filter _ msgs). destruct (sends (triggers (omap (hit json_bridge p) msgs) gap)) as (H1 & H2 & H3), (acks m) as (H4 & H5 & H6).
    rewrite sent_app, deleted_app, warnings_app, H1, H2, H3, H4, H5, H6, app_nil_r. split_and!; try done.
    intros es [Hes|Hes]%elem_of_app; [by apply list_elem_of_In, in_map_iff in Hes as (? & ? & _)|].
    destruct (batch_ids m es Hes) as (Hnd & Hne & Hl). split_and!; [done..|]. rewrite Hl. apply length_filter.
  - subst. destruct gap, failing; cbn; split_and!; try done; intros es Hes; set_solver.
Qed.

(** ** Settings *)

Lemma timeout_positive (t : Z) : (if Z.eqb t 0 then DefaultRefreshTimeout else t) ≠ 0%Z.
Proof. by destruct (Z.eqb_spec t 0). Qed.

Lemma int32_small (n : Z) : (0 ≤ n < 2 ^ 31)%Z → int32 n = n.
Proof. intros Hn. unfold int32. rewrite Z.mod_small; lia. Qed.

Lemma visibility_bounds (t : Z) : (0 < t ≤ MaxRefreshTimeout)%Z →
  (t + 10 * Second ≤ visibility t * Second ≤ 12 * 3600 * Second)%Z.
Proof.
  unfold MaxRefreshTimeout, visibility, Second. intros Ht. rewrite Z.quot_div_nonneg by lia.
  pose proof (Z.div_mod (t + 1000000000 - 1) 1000000000 ltac:(lia)) as Hd.
  pose proof (Z.mod_pos_bound (t + 1000000000 - 1) 1000000000 ltac:(lia)) as Hm.
  set (q := ((t + 1000000000 - 1) / 1000000000)%Z) in *. rewrite (int32_small q) by lia. rewrite int32_small by lia. lia.
Qed.

Lemma sns_settings client url c t t' : sns_New client url c t = Ok t' →
  client = true ∧ url ≠ "" ∧ validateSource c = true ∧ (0 < t')%Z ∧ (t' + 10 * Second ≤ visibility t' * Second ≤ 12 * 3600 * Second)%Z.
Proof.
  unfold sns_New, empty. destruct client; [|done]. destruct (String.eqb_spec url ""); [done|]. cbn [negb orb].
  destruct (validateSource c); [|done]. cbn [negb]. pose proof (timeout_positive t) as Hnz.
  set (u := if Z.eqb t 0 then DefaultRefreshTimeout else t) in *.
  destruct (Z.ltb_spec u 0); [done|]. destruct (Z.ltb_spec MaxRefreshTimeout u); [done|]. intros [= <-].
  split_and!; try done; [lia|apply visibility_bounds; lia..].
Qed.

Lemma azure_settings receiver c t t' now locked : azure_New receiver c t = Ok t' →
  receiver = true ∧ zc_ResourceID c ≠ "" ∧ zc_Source c ≠ OtherAzure ∧ (0 < t')%Z
  ∧ (azure_deadline now t' locked ≤ azure_settle now t' locked ∧ azure_deadline now t' locked + Second ≤ locked ∧ azure_deadline now t' locked ≤ now + t')%Z.
Proof.
  unfold azure_New, empty. destruct receiver; [|done]. destruct (String.eqb_spec (zc_ResourceID c) ""); [done|]. cbn [negb orb].
  intros ([] & Hs & Ht)%bind_Ok. pose proof (timeout_positive t) as Hnz. set (u := if Z.eqb t 0 then DefaultRefreshTimeout else t) in *.
  destruct (Z.ltb_spec u 0); [done|]. injection Ht as <-.
  split_and!; try done; [by intros Hx; rewrite Hx in Hs|lia|..];
    unfold azure_deadline, azure_settle, minTime, Second; repeat case_match; lia.
Qed.

Lemma google_settings subscriber c t t' : google_New subscriber c t = Ok t' → subscriber = true ∧ google_valid c = true ∧ (0 < t')%Z.
Proof.
  unfold google_New. destruct subscriber; [|done]. destruct (google_valid c); [|done]. cbn [negb]. pose proof (timeout_positive t) as Hnz.
  set (u := if Z.eqb t 0 then DefaultRefreshTimeout else t) in *. destruct (Z.ltb_spec u 0); [done|]. intros [= <-]. split_and!; try done. lia.
Qed.

Lemma events_settings cfg p : events_New cfg = Ok p →
  ec_QueueURL cfg ≠ "" ∧ ec_Bucket cfg ≠ "" ∧ (1 ≤ ev_maxMsgs p ≤ 10 ∧ 1 ≤ ev_waitSecs p ≤ 20 ∧ ev_priority p ≠ 0)%Z ∧ sp_name (ev_base p) ≠ "".
Proof.
  unfold events_New, events_newProvider, empty. do 3 (case_match; [done|]).
  destruct (String.eqb_spec (ec_QueueURL cfg) ""); [done|]. destruct (String.eqb_spec (ec_Bucket cfg) ""); [done|].
  unfold s3events_batch. intros [= <-]. cbn. unfold clamp, s3events_name, empty.
  split_and!; try done; try (repeat case_match; lia).
  - destruct (Z.eqb_spec (ec_Priority cfg) 0); [done|]. done.
  - destruct (String.eqb_spec (ec_Name cfg) ""); [|done]. done.
Qed.

(** ** The loops as a whole *)

Definition received {M} (r : round M) : list (M * message_env) := match rd_answer r with Ok ms => ms | Err _ => [] end.

(** Why a loop returned: the context or a receive, or a message of a round. *)
Definition returns_because {M} (cancels : M → message_env → Prop) (unlocked : M → Prop) (script : list (round M)) (e : run_end) : Prop :=
  match e with
  | EndNoRefresh => False
  | EndCtx => ∃ r, r ∈ script ∧ (rd_cancelled r = true ∨ ∃ m env, (m, env) ∈ received r ∧ cancels m env)
  | EndReceive err => ∃ r, r ∈ script ∧ rd_answer r = Err err
  | EndPeekLock => ∃ r m env, r ∈ script ∧ (m, env) ∈ received r ∧ unlocked m
  end.

Section loops.
Context {M : Type} (one : M → message_env → list action * option run_end).

Lemma each_message_on (acts : M → message_env → list action) ms : Forall (λ m, one m.1 m.2 = (acts m.1 m.2, None)) ms →
  each_message one ms = (concat ((λ m, acts m.1 m.2) <$> ms), None).
Proof. induction 1 as [|[m env] ms Hm _ IH]; [done|]. cbn in *. by rewrite Hm, IH. Qed.

Lemma run_rounds_on (acts : M → message_env → list action) script :
  Forall (λ r, rd_cancelled r = false ∧ ∃ ms, rd_answer r = Ok ms ∧ Forall (λ m, one m.1 m.2 = (acts m.1 m.2, None)) ms) script →
  run_rounds one script = (concat ((λ m, acts m.1 m.2) <$> concat ((λ r, received r) <$> script)), None).
Proof.
  induction 1 as [|r script (Hc & ms & Ha & Hms) _ IH]; [done|]. cbn [run_rounds fmap list_fmap concat]. unfold received at 1.
  by rewrite Hc, Ha, (each_message_on acts ms Hms), IH, fmap_app, concat_app.
Qed.

Lemma each_message_why ms acts e : each_message one ms = (acts, Some e) → ∃ m env acts', (m, env) ∈ ms ∧ one m env = (acts', Some e).
Proof.
  revert acts. induction ms as [|[m env] ms IH]; intros acts; [done|]. cbn. destruct (one m env) as [a [e'|]] eqn:Hone.
  - intros [= _ ->]. exists m, env, a. split; [left|done].
  - destruct (each_message one ms) as [more [e'|]]; [|done]. intros [= _ ->]. destruct (IH more eq_refl) as (m' & env' & a' & Hin & Ho).
    exists m', env', a'. split; [by right|done].
Qed.

Lemma run_rounds_why (cancels : M → message_env → Prop) (unlocked : M → Prop) script e
    (Hone : ∀ m env acts e, one m env = (acts, Some e) → e = EndCtx ∧ cancels m env ∨ e = EndPeekLock ∧ unlocked m) :
  (run_rounds one script).2 = Some e → returns_because cancels unlocked script e.
Proof.
  induction script as [|r script IH]; [done|]. cbn [run_rounds]. destruct (rd_cancelled r) eqn:Hc; [intros [= <-]; exists r; split; [left|by left]|].
  destruct (rd_answer r) as [ms|err] eqn:Ha; [|intros [= <-]; exists r; split; [left|done]].
  assert (received r = ms) as Hr by (unfold received; by rewrite Ha).
  destruct (each_message one ms) as [acts [e'|]] eqn:Hms.
  - intros [= ->]. destruct (each_message_why ms acts e Hms) as (m & env & a & Hin & Ho). rewrite <-Hr in Hin.
    destruct (Hone _ _ _ _ Ho) as [[-> Hw]|[-> Hw]]; cbn; [exists r; split; [left|right; by exists m, env]|exists r, m, env; split; [left|done]].
  - destruct (run_rounds one script) as [more [e'|]] eqn:Hs; [|done]. intros [= ->]. specialize (IH eq_refl).
    destruct e; cbn in *; [done|destruct IH as (r' & Hin & Hw)..|destruct IH as (r' & m & env & Hin & Hw)].
    + exists r'. split; [by right|done].
    + exists r'. split; [by right|done].
    + exists r', m, env. split; [by right|done].
Qed.
End loops.

Lemma sns_goes_on m env : me_cancelled env = false → or_cancelled (sns_message m env) = ((sns_message m env).1, None).
Proof. unfold or_cancelled, sns_message. intros ->. by destruct (refresh_message false m env) as [a [|]]. Qed.

Lemma azure_goes_on m env : me_cancelled env = false → or_cancelled (azure_message m env) = ((azure_message m env).1, None).
Proof. unfold or_cancelled, azure_message. intros ->. by destruct (refresh_message true m env) as [a failed]. Qed.

(** ** Properties *)


(** A change whose first refresh fails: the message is back in the queue. *)
Definition change_message : delivery := {| dv_body := "m"; dv_revision := 1 |}.




(** A provider before its next poll gives what is held: the change is acknowledged
    and the queue is empty, but the old revision is held until a later reload. *)
Lemma cached_source_lags (k : consumer) :
  let s := {| sv_remote := 1; sv_read := 1; sv_local := 0; sv_queue := []; sv_workers := [] |} in
  rtc (service_step k (λ _, Ok true) (λ r l n, n = l ∨ n = r)) (idle 0) s
  ∧ service_step k (λ _, Ok true) (λ r l n, n = l ∨ n = r) s {| sv_remote := 1; sv_read := 1; sv_local := 1; sv_queue := []; sv_workers := [] |}.
Proof.
  intros s. split; [|by apply (periodic _ _ _ s 1); right].
  eapply rtc_l; [by apply (change _ _ _ (idle 0) "m")|]. cbn.
  set (s1 := {| sv_remote := 1; sv_read := 0; sv_local := 0; sv_queue := [change_message]; sv_workers := [] |}).
  exact (serve_one k (λ _, Ok true) _ s1 change_message [] true 0 eq_refl eq_refl eq_refl (λ _, or_introl eq_refl)).
Qed.

(** A watch of the S3 event queue that is not cancelled sends one trigger for each
    message about its bucket and prefix, over all polls and in order, of which
    only the first reports the gap of a resumed watch; it deletes exactly those
    messages, in batches whose entries have distinct ids and that are not larger
    than what was received; and it warns once for each outage. *)
Theorem s3events_watch (json_bridge : string → result string bridge_event) (p : s3events_provider) (script : list events_round)
    (gap failing : bool) (Hcalm : Forall (calm json_bridge p) script) :
  let acts := events_watch json_bridge p script (gap, failing) in
  sent_of acts = triggers (omap (hit json_bridge p) (messages_of script)) gap
  ∧ deleted_of acts = sm_Receipt <$> filter (λ m, is_Some (hit json_bridge p m)) (messages_of script)
  ∧ warnings_of acts = outages failing script
  ∧ (∀ n es, Forall (λ r, length (messages_of [r]) ≤ n) script → DeleteBatch es ∈ acts → NoDup es.*1 ∧ es ≠ [] ∧ length es ≤ n).
Proof.
  revert gap failing. induction Hcalm as [|r script Hr Hcalm IH]; intros gap failing acts.
  { split_and!; [done..|]. intros n es _ Hes. set_solver. }
  subst acts. cbn [events_watch]. pose proof (calm_poll json_bridge p r gap failing Hr) as Hp. destruct Hr as [-> _].
  destruct (events_poll json_bridge p r (gap, failing)) as [a flags]. destruct Hp as (H1 & H2 & H3 & -> & H5).
  destruct (IH (gap && bool_decide (omap (hit json_bridge p) (messages_of [r]) = [])) (match er_answer r with Ok _ => false | Err _ => true end))
    as (I1 & I2 & I3 & I5).
  assert (messages_of (r :: script) = messages_of [r] ++ messages_of script) as -> by (unfold messages_of; cbn [flat_map]; by rewrite app_nil_r).
  rewrite sent_app, deleted_app, warnings_app, H1, H2, H3, I1, I2, I3, omap_app, triggers_app, filter_app, fmap_app.
  split_and!; [done..| |].
  - cbn [outages]. destruct (er_answer r); cbn; lia.
  - intros n es [Hn Hall]%Forall_cons [Hes|Hes]%elem_of_app; [|by apply (I5 n)]. destruct (H5 es Hes) as (? & ? & ?). split_and!; [done..|lia].
Qed.

Lemma s3events_watch_witness :
  let p := {| sp_name := "e"; sp_bucket := "b"; sp_keyPrefix := "" |} in
  let json_bridge := λ k, Ok {| br_Source := "aws.s3"; br_DetailType := "Object Created"; br_Bucket := "b"; br_Key := k; br_ETag := "1" |} in
  let down := {| er_done := false; er_answer := Err false; er_room := 0 |} in
  let some := {| er_done := false; er_answer := Ok [{| sm_Body := "x"; sm_Receipt := "r" |}; {| sm_Body := ""; sm_Receipt := "s" |}]; er_room := 16 |} in
  let acts := events_watch json_bridge p [down; down; some; down] (true, false) in
  deleted_of acts = ["r"] ∧ warnings_of acts = 2.
Proof.
  intros p json_bridge down some acts.
  destruct (s3events_watch json_bridge p [down; down; some; down] true false) as (_ & H1 & H2 & _).
  { repeat constructor; vm_compute; lia. }
  split; [exact H1|exact H2].
Defined.

(** The settings that the constructors accept are within the services' bounds.  A
    refresh of SNS has a positive timeout, and the visibility that is requested for
    its message covers the timeout with ten seconds to spare, is at most the
    twelve hours that SQS allows, and does not overflow.  A refresh of Service
    Bus ends a second before the lock of its message and before the settlement
    must.  A poll of S3 events asks for 1 to 10 messages and waits 1 to 20 seconds. *)
Theorem consumer_settings_ok :
  (∀ client url c t t', sns_New client url c t = Ok t' →
     client = true ∧ url ≠ "" ∧ validateSource c = true ∧ (0 < t')%Z ∧ (t' + 10 * Second ≤ visibility t' * Second ≤ 12 * 3600 * Second)%Z)
  ∧ (∀ receiver c t t' now locked, azure_New receiver c t = Ok t' →
     receiver = true ∧ zc_ResourceID c ≠ "" ∧ zc_Source c ≠ OtherAzure ∧ (0 < t')%Z
     ∧ (azure_deadline now t' locked ≤ azure_settle now t' locked ∧ azure_deadline now t' locked + Second ≤ locked ∧ azure_deadline now t' locked ≤ now + t')%Z)
  ∧ (∀ subscriber c t t', google_New subscriber c t = Ok t' → subscriber = true ∧ google_valid c = true ∧ (0 < t')%Z)
  ∧ (∀ cfg p, events_New cfg = Ok p → ec_QueueURL cfg ≠ "" ∧ ec_Bucket cfg ≠ "" ∧ (1 ≤ ev_maxMsgs p ≤ 10 ∧ 1 ≤ ev_waitSecs p ≤ 20 ∧ ev_priority p ≠ 0)%Z
     ∧ sp_name (ev_base p) ≠ "").
Proof.
  split_and!; intros.
  - by apply (sns_settings client url c t).
  - by apply (azure_settings receiver c t).
  - by apply (google_settings subscriber c t).
  - by apply events_settings.
Qed.

Lemma consumer_settings_ok_witness :
  let c := {| sc_TopicARN := ""; sc_Source := S3; sc_Bucket := "b"; sc_Key := "k"; sc_Application := ""; sc_Environment := ""; sc_Profile := ""; sc_Path := "" |} in
  sns_New true "q" c MaxRefreshTimeout = Ok MaxRefreshTimeout ∧ (visibility MaxRefreshTimeout * Second ≤ 12 * 3600 * Second)%Z.
Proof.
  intros c. split; [reflexivity|]. destruct consumer_settings_ok as (H & _).
  destruct (H true "q" c MaxRefreshTimeout MaxRefreshTimeout eq_refl) as (_ & _ & _ & _ & [_ Hv]). exact Hv.
Defined.

(** [Run] goes on, whatever happens to single messages: as long as no receive
    fails, the context is not cancelled and each message of Service Bus has a
    lock, it does not return, and what it does is what a worker does for each
    message, in the order in which they come.  Otherwise it returns with the
    reason. *)
Theorem run_goes_on (matches : string → result match_error bool) (script : list (round string)) (locked : list (round (string * bool))) :
  (Forall (λ r, rd_cancelled r = false ∧ ∃ ms, rd_answer r = Ok ms ∧ Forall (λ m, me_cancelled m.2 = false) ms) script →
     sns_Run matches true script
     = (concat ((λ m, consumer_actions Sns (matches m.1) m.2) <$> concat ((λ r, received r) <$> script)), None))
  ∧ (Forall (λ r, rd_cancelled r = false ∧ ∃ ms, rd_answer r = Ok ms ∧ Forall (λ m, me_cancelled m.2 = false ∧ m.1.2 = true) ms) locked →
     azure_Run matches true locked
     = (concat ((λ m, consumer_actions ServiceBus (matches m.1.1) m.2) <$> concat ((λ r, received r) <$> locked)), None))
  ∧ (∀ e, (sns_Run matches true script).2 = Some e → returns_because (λ _ env, me_cancelled env = true) (λ _, False) script e)
  ∧ (∀ e, (azure_Run matches true locked).2 = Some e →
       returns_because (λ m env, m.2 = true ∧ me_cancelled env = true) (λ m, m.2 = false) locked e).
Proof.
  split_and!.
  - intros Hs. apply (run_rounds_on _ (λ m env, consumer_actions Sns (matches m) env)). apply (Forall_impl _ _ _ Hs). intros r (Hc & ms & Ha & Hms). split; [done|]. exists ms. split; [done|].
    apply (Forall_impl _ _ _ Hms). intros [m env] Hm. by apply sns_goes_on.
  - intros Hs. apply (run_rounds_on _ (λ m env, consumer_actions ServiceBus (matches m.1) env)). apply (Forall_impl _ _ _ Hs). intros r (Hc & ms & Ha & Hms). split; [done|]. exists ms. split; [done|].
    apply (Forall_impl _ _ _ Hms). intros [[body b] env] [Hm Hb]. cbn in *. rewrite Hb. by apply azure_goes_on.
  - intros e. apply run_rounds_why. intros body env acts e'. unfold or_cancelled, sns_message.
    destruct (refresh_message false (matches body) env) as [a [|]]; [done|]. destruct (me_cancelled env); [|done]. intros [= _ <-]. by left.
  - intros e. apply run_rounds_why. intros [body b] env acts e'. destruct b; [|intros [= _ <-]; by right].
    unfold or_cancelled, azure_message. destruct (refresh_message true (matches body) env) as [a failed].
    destruct (me_cancelled env); [|done]. intros [= _ <-]. by left.
Qed.

Lemma run_goes_on_witness :
  let env := {| me_refresh := Some "down"; me_expired := false; me_late := false; me_cancelled := false; me_settle := None |} in
  let r := {| rd_cancelled := false; rd_answer := Ok [("a", env); ("b", good_env)] |} in
  sns_Run (λ b, Ok (String.eqb b "a")) true [r] = ([Refresh; Report "process"; Acknowledge], None).
Proof.
  intros env r. destruct (run_goes_on (λ b, Ok (String.eqb b "a")) [r] []) as (H & _). rewrite H; [reflexivity|].
  repeat constructor. eexists. split; [reflexivity|]. repeat constructor.
Defined.
