(* ===== verification/Adapters.v ===== *)
(** * Policies and validators on other engines
    (policy/opa, cue/policy, cue/cuelang, validate/playground)

    The adapters that turn a Rego query, a CUE schema or a struct validator into
    a policy or a validator of a manager.  The engines and [encoding/json] are
    arguments; what the adapters make of their answers is modelled. *)
From S2P Require Import Prelude GoStrings Value Patch Provenance Options Assemble Pipeline Manager Calls.
Open Scope nat_scope.

(** [policy.Func] *)
Definition Func {T} (N : string) (Fn : T → string → string → result string (list Violation)) : policy T :=
  {| p_Name := N; p_Evaluate := Fn |}.

Section adapters.
Context {T : Type} (json_Marshal : T → result string string).

(** ** OPA (policy/opa/opa.go)

    A prepared query answers with results, each a list of expression values. *)
Section opa.
Context (json_Unmarshal : string → result string value) {query : Type}
  (PrepareForEval : string → string → result string query) (Eval : query → value → result string (list (list value))).

Record opa_Policy := { op_name : string; op_query : query }.

Definition NewWithQuery (name module q : string) : result string opa_Policy :=
  query ← map_err (λ e, "opa: prepare: " +:+ e) (PrepareForEval q module);
  Ok {| op_name := name; op_query := query |}.

Definition opa_New (name module : string) : result string opa_Policy := NewWithQuery name module "data.fastconf.deny".

Definition opa_violation (p : opa_Policy) (s : string) : Violation :=
  {| v_Path := ""; v_Message := s; v_Severity := SeverityError; v_Rule := op_name p |}.

(** The denials in the value of one expression: a string, or the strings of an
    array. *)
Definition denials (v : value) : list string :=
  match v with
  | VSlice items => omap (λ item, match item with VString s => Some s | _ => None end) items
  | VString s => [s]
  | _ => []
  end.

Definition opa_input (cfg : value) (reason tenant : string) : value :=
  VMap {[ "config" := cfg; "reason" := VString reason; "tenant" := VString tenant ]}.

Definition opa_Evaluate (p : opa_Policy) (config : T) (reason tenant : string) : result string (list Violation) :=
  raw ← map_err (λ e, "opa: marshal config: " +:+ e) (json_Marshal config);
  cfg ← map_err (λ e, "opa: unmarshal config: " +:+ e) (json_Unmarshal raw);
  rs ← map_err (λ e, "opa: eval: " +:+ e) (Eval (op_query p) (opa_input cfg reason tenant));
  Ok (opa_violation p <$> concat ((λ r, concat (denials <$> r)) <$> rs)).

Definition opa_policy (p : opa_Policy) : policy T := {| p_Name := op_name p; p_Evaluate := opa_Evaluate p |}.
End opa.

(** ** CUE (cue/policy/cue.go, cue/cuelang/cuelang.go) *)
Section cue.
Context {cue_value cue_expr : Type} (CompileString CompileBytes : string → result string cue_value) (Unify : cue_value → cue_value → cue_value)
  (Validate_Concrete : cue_value → option string) (json_Extract : string → result string cue_expr) (BuildExpr : cue_expr → result string cue_value).

Record cue_Policy := { cp_name : string; cp_schema : cue_value }.

Definition cue_New (name source : string) : result string cue_Policy :=
  v ← map_err (λ e, "cue: compile: " +:+ e) (CompileString source);
  Ok {| cp_name := name; cp_schema := v |}.

Definition cue_Evaluate (p : cue_Policy) (config : T) (reason tenant : string) : result string (list Violation) :=
  raw ← map_err (λ e, "cue: marshal: " +:+ e) (json_Marshal config);
  cfg ← map_err (λ e, "cue: load: " +:+ e) (CompileBytes raw);
  Ok match Validate_Concrete (Unify (cp_schema p) cfg) with
     | Some e => [{| v_Path := ""; v_Message := e; v_Severity := SeverityError; v_Rule := cp_name p |}]
     | None => []
     end.

Definition cue_policy (p : cue_Policy) : policy T := {| p_Name := cp_name p; p_Evaluate := cue_Evaluate p |}.

(** [cuelang.Schema]; a nil pointer is [None]. *)
Definition Schema : Type := cue_value.

Definition cuelang_Compile (src : string) : result string Schema := map_err (λ e, "cuelang: compile: " +:+ e) (CompileString src).

Definition ValidateJSON (s : option Schema) (data : string) : result string unit :=
  match s with
  | None => Err "cuelang: nil schema"
  | Some schema =>
      expr ← map_err (λ e, "cuelang: extract json: " +:+ e) (json_Extract data);
      v ← map_err (λ e, "cuelang: build: " +:+ e) (BuildExpr expr);
      match Validate_Concrete (Unify schema v) with
      | Some e => Err ("cuelang: validate: " +:+ e)
      | None => Ok tt
      end
  end.

Definition cuelang_Validate (s : option Schema) (t : option T) : result string unit :=
  match t with
  | None => Err "cuelang: nil config"
  | Some t => data ← map_err (λ e, "cuelang: marshal: " +:+ e) (json_Marshal t); ValidateJSON s data
  end.
End cue.

(** ** go-playground (validate/playground/playground.go)

    A validator answers with the failing fields, each a namespace and a tag, or
    with another error. *)
Section playground.
Inductive struct_error := ValidationErrors (fields : list (string * string)) | OtherError (e : string).
Context {validator : Type} (Struct : validator → T → option struct_error) (quote : string → string) (defaultValidator : validator).

Definition wrap (err : struct_error) : string :=
  match err with
  | OtherError e => e
  | ValidationErrors ves => "playground: " +:+ strings_Join ((λ fe, fe.1 +:+ ": failed " +:+ quote fe.2) <$> ves) "; "
  end.

Definition NewWith (v : option validator) (t : option T) : result string unit :=
  match t with
  | None => Err "playground: nil config"
  | Some t => match Struct (default defaultValidator v) t with Some err => Err (wrap err) | None => Ok tt end
  end.

Definition playground_New : option T → result string unit := NewWith None.
End playground.
End adapters.

(** ** What passes the policies *)

Section passing.
Context {T : Type} (o : options T).

Lemma findings_pass v reason p : (policy_findings o v reason p).1 = [] →
  ∃ vs, p_Evaluate p v reason (o_Tenant o) = Ok vs ∧ Forall (λ x, v_Severity x ≠ SeverityError) vs.
Proof.
  unfold policy_findings. destruct (p_Evaluate p v reason (o_Tenant o)) as [vs|e]; [|done]. cbn [fst]. intros Hf. exists vs. split; [done|].
  apply Forall_forall. intros x Hx Hs. set (f := λ v : Violation, if String.eqb (v_Rule v) "" then _ else v) in Hf.
  assert (f x ∈ filter (λ v, v_Severity v = SeverityError) (f <$> vs)) as Hin.
  { apply list_elem_of_filter. split; [|by apply list_elem_of_fmap_2]. unfold f. by destruct (String.eqb (v_Rule x) ""). }
  rewrite Hf in Hin. by apply not_elem_of_nil in Hin.
Qed.

Lemma evaluate_app v reason (ps : list (policy T)) (acc : list Violation * list Violation) :
  (foldl (λ acc p, let '(e, w) := policy_findings o v reason p in (acc.1 ++ e, acc.2 ++ w)) acc ps).1
  = acc.1 ++ concat ((λ p, (policy_findings o v reason p).1) <$> ps).
Proof.
  revert acc. induction ps as [|p ps IH]; intros acc; cbn; [by rewrite app_nil_r|]. rewrite IH.
  destruct (policy_findings o v reason p) as [e w]. cbn. by rewrite <-app_assoc.
Qed.

(** A value that no policy refuses was evaluated by each of them. *)
Lemma policies_pass v reason p : (evaluatePolicies o v reason).1 = [] → p ∈ o_Policies o →
  ∃ vs, p_Evaluate p v reason (o_Tenant o) = Ok vs ∧ Forall (λ x, v_Severity x ≠ SeverityError) vs.
Proof.
  unfold evaluatePolicies. rewrite evaluate_app. cbn [app fst]. intros He Hp. apply (findings_pass v reason).
  apply list_elem_of_split in Hp as (l1 & l2 & Hl). rewrite Hl, fmap_app, fmap_cons, concat_app in He. cbn in He.
  apply app_eq_nil in He as [_ He]. by apply app_eq_nil in He as [? _].
Qed.
End passing.

Lemma map_err_Ok {E F A} (f : E → F) (r : result E A) x : map_err f r = Ok x → r = Ok x.
Proof. destruct r; [by intros [= ->]|done]. Qed.

Section accepts.
Context {T : Type} (json_Marshal : T → result string string).

(** What a query says against a value: a string, or one among the values of an
    array. *)
Inductive denied : value → Prop :=
| denied_string s : denied (VString s)
| denied_array items s : VString s ∈ items → denied (VSlice items).

(** The query is answered, and none of its expressions denies. *)
Definition opa_accepts (json_Unmarshal : string → result string value) {query} (Eval : query → value → result string (list (list value)))
    (p : opa_Policy) (v : T) (reason tenant : string) : Prop :=
  ∃ raw cfg rs, json_Marshal v = Ok raw ∧ json_Unmarshal raw = Ok cfg ∧ Eval (op_query p) (opa_input cfg reason tenant) = Ok rs
  ∧ ∀ r e, r ∈ rs → e ∈ r → ¬ denied e.

(** The value, as JSON, is an instance of the schema. *)
Definition cue_accepts {cue_value} (CompileBytes : string → result string cue_value) (Unify : cue_value → cue_value → cue_value)
    (Validate_Concrete : cue_value → option string) (schema : cue_value) (v : T) : Prop :=
  ∃ raw cfg, json_Marshal v = Ok raw ∧ CompileBytes raw = Ok cfg ∧ Validate_Concrete (Unify schema cfg) = None.

Lemma concat_nil_each {A} (ls : list (list A)) l : concat ls = [] → l ∈ ls → l = [].
Proof. intros Hc Hl. apply list_elem_of_split in Hl as (l1 & l2 & ->). rewrite concat_app in Hc. apply app_eq_nil in Hc as [_ Hc]. by apply app_eq_nil in Hc as [? _]. Qed.

Lemma denials_nil e : denials e = [] → ¬ denied e.
Proof.
  intros He Hd. destruct Hd as [s|items s Hin]; [done|]. cbn [denials] in He.
  assert (s ∈ omap (λ item, match item with VString s => Some s | _ => None end) items) as Hs by (apply list_elem_of_omap; by exists (VString s)).
  rewrite He in Hs. by apply not_elem_of_nil in Hs.
Qed.

Lemma opa_pass json_Unmarshal {query} (Eval : query → value → result string (list (list value))) p v reason tenant vs :
  opa_Evaluate json_Marshal json_Unmarshal Eval p v reason tenant = Ok vs → Forall (λ x, v_Severity x ≠ SeverityError) vs →
  opa_accepts json_Unmarshal Eval p v reason tenant.
Proof.
  unfold opa_Evaluate. intros (raw & Hraw & (cfg & Hcfg & (rs & Hrs & [= <-])%bind_Ok)%bind_Ok)%bind_Ok Hall.
  apply map_err_Ok in Hraw, Hcfg, Hrs. exists raw, cfg, rs. split_and!; [done..|]. intros r e Hr He.
  set (l := concat ((λ r, concat (denials <$> r)) <$> rs)) in *. assert (l = []) as Hl.
  { destruct l as [|s l]; [done|]. cbn in Hall. apply Forall_cons in Hall as [Hs _]. done. }
  assert (concat (denials <$> r) = []) as Hc by (apply (concat_nil_each _ _ Hl); apply list_elem_of_fmap; by exists r).
  apply denials_nil, (concat_nil_each _ _ Hc). apply list_elem_of_fmap. by exists e.
Qed.

Lemma cue_pass {cue_value} (CompileBytes : string → result string cue_value) Unify Validate_Concrete p v reason tenant vs :
  cue_Evaluate json_Marshal CompileBytes Unify Validate_Concrete p v reason tenant = Ok vs → Forall (λ x, v_Severity x ≠ SeverityError) vs →
  cue_accepts CompileBytes Unify Validate_Concrete (cp_schema p) v.
Proof.
  unfold cue_Evaluate. intros (raw & Hraw & (cfg & Hcfg & [= <-])%bind_Ok)%bind_Ok Hall. apply map_err_Ok in Hraw, Hcfg.
  exists raw, cfg. split_and!; [done..|]. destruct (Validate_Concrete _); [|done]. by apply Forall_cons in Hall as [? _].
Qed.

Lemma cuelang_pass {cue_value cue_expr} Unify Validate_Concrete (json_Extract : string → result string cue_expr)
    (BuildExpr : cue_expr → result string cue_value) s (v : T) :
  cuelang_Validate json_Marshal Unify Validate_Concrete json_Extract BuildExpr s (Some v) = Ok () →
  ∃ schema, s = Some schema ∧ cue_accepts (λ raw, expr ← json_Extract raw; BuildExpr expr) Unify Validate_Concrete schema v.
Proof.
  unfold cuelang_Validate. intros (raw & Hraw & Hv)%bind_Ok. apply map_err_Ok in Hraw. destruct s as [schema|]; [|done].
  apply bind_Ok in Hv as (expr & Hexpr & (cfg & Hcfg & Hv)%bind_Ok). apply map_err_Ok in Hexpr, Hcfg.
  exists schema. split; [done|]. exists raw, cfg. split_and!; [done| |by destruct (Validate_Concrete _)]. by rewrite Hexpr.
Qed.

Lemma playground_pass {validator} (Struct : validator → T → option struct_error) quote d v t : NewWith Struct quote d v (Some t) = Ok () →
  Struct (default d v) t = None.
Proof. unfold NewWith. by destruct (Struct _ _). Qed.
End accepts.

(** ** Properties *)

(** C37: an engine that is installed guards every state: whatever requests a manager
    serves, rollbacks included, a value that is ever current was, as JSON, given
    to each OPA query, which answered without a denial, that is neither a string
    nor an array with a string in it; is an instance of each CUE schema; and
    satisfies each struct validator.  A query or an encoding that fails keeps the
    value out too. *)
Theorem engines_guard `{GoStd} `{GoJson} `{Codecs} {T} `{Target T} (customEncoding : bool) (o : options T) (actions : list (action T))
    (json_Marshal : T → result string string) (json_Unmarshal : string → result string value)
    {query : Type} (Eval : query → value → result string (list (list value)))
    {cue_value cue_expr : Type} (CompileBytes : string → result string cue_value) (Unify : cue_value → cue_value → cue_value)
    (Validate_Concrete : cue_value → option string) (json_Extract : string → result string cue_expr) (BuildExpr : cue_expr → result string cue_value)
    {validator : Type} (Struct : validator → T → option struct_error) (quote : string → string) (d : validator)
    (Hback : rolls_back_to customEncoding o [] (newManager o) actions) :
  Forall (λ s, let v := st_value s in
    (∀ p, opa_policy json_Marshal json_Unmarshal Eval p ∈ o_Policies o → ∃ reason, opa_accepts json_Marshal json_Unmarshal Eval p v reason (o_Tenant o))
    ∧ (∀ p, cue_policy json_Marshal CompileBytes Unify Validate_Concrete p ∈ o_Policies o →
         cue_accepts json_Marshal CompileBytes Unify Validate_Concrete (cp_schema p) v)
    ∧ (∀ schema, (λ v, cuelang_Validate json_Marshal Unify Validate_Concrete json_Extract BuildExpr schema (Some v)) ∈ o_Validators o →
         ∃ sc, schema = Some sc ∧ cue_accepts json_Marshal (λ raw, expr ← json_Extract raw; BuildExpr expr) Unify Validate_Concrete sc v)
    ∧ (∀ va, (λ v, NewWith Struct quote d va (Some v)) ∈ o_Validators o → Struct (default d va) v = None))
  (published customEncoding o (newManager o) actions).
Proof.
  assert (Forall (λ s, value_ok o (st_value s)) (published customEncoding o (newManager o) actions)) as Hall by (by apply (published_ok _ _ _ _ [])).
  apply (Forall_impl _ _ _ Hall). intros s (_ & Hval & reason & Hpol). rewrite Forall_forall in Hval. cbn zeta. split_and!.
  - intros p Hp. exists reason. destruct (policies_pass o _ reason _ Hpol Hp) as (vs & Hvs & Hsev). by eapply opa_pass.
  - intros p Hp. destruct (policies_pass o _ reason _ Hpol Hp) as (vs & Hvs & Hsev). exact (cue_pass _ _ _ _ _ _ reason (o_Tenant o) vs Hvs Hsev).
  - intros schema Hs%Hval. exact (cuelang_pass _ _ _ _ _ _ _ Hs).
  - intros va Hv%Hval. exact (playground_pass _ _ _ _ _ Hv).
Qed.

(** A query that denies one host. *)
Definition example_eval (_ : unit) (input : value) : result string (list (list value)) :=
  match input with
  | VMap m => match m !! "config" with Some (VString "two") => Ok [[VSlice [VString "host two is taken"]]] | _ => Ok [[VSlice []]] end
  | _ => Err "no input"
  end.

Definition example_opa : opa_Policy := {| op_name := "hosts"; op_query := tt |}.

Definition guarded : options string :=
  {|
  o_Dir := "etc"; o_FS := None; o_SkipDiscovery := true; o_ProfileNames := []; o_ProfileMatch := "";
  o_ProfileEnv := ""; o_ProfileDefault := ""; o_Strict := false; o_Providers := []; o_Axes := [];
  o_Validators := []; o_Transforms := []; o_Provenance := Full; o_HistoryCap := 2;
  o_YAMLBridge := false; o_UnknownFields := UnknownIgnore;
  o_Policies := [opa_policy (λ v, Ok v) (λ raw, Ok (VString raw)) example_eval example_opa]; o_SecretResolver := None;
  o_Generators := []; o_TypedHooks := 0; o_MergeKeys := ∅; o_Observers := 1; o_Tenant := "";
|}.

Definition guarded_actions : list (action string) :=
  [Serve example_world None never (ReqReload "a" "" [example_over "one"]); Serve example_world None never (ReqReload "b" "" [example_over "two"])].

Lemma engines_guard_witness :
  st_value <$> @published example_std example_json example_codecs string example_target true guarded (newManager guarded) guarded_actions = ["one"; "one"]
  ∧ Forall (λ s, ∃ reason, opa_accepts (λ v, Ok v) (λ raw, Ok (VString raw)) example_eval example_opa (st_value s) reason "")
      (@published example_std example_json example_codecs string example_target true guarded (newManager guarded) guarded_actions).
Proof.
  split; [vm_compute; reflexivity|].
  eapply Forall_impl; [apply (@engines_guard example_std example_json example_codecs string example_target true guarded guarded_actions
    (λ v, Ok v) (λ raw, Ok (VString raw)) unit example_eval unit unit (λ _, Ok tt) (λ _ _, tt) (λ _, None) (λ _, Ok tt) (λ _, Ok tt)
    unit (λ _ _, None) (λ s, s) tt)|].
  - vm_compute. repeat split.
  - intros s (Hopa & _). apply Hopa. left.
Defined.
