(* ===== verification/LocalSetup.v ===== *)
(** * Setting up the local providers
    (providers/env, dotenv, cliflag, labels, integrations/cli/pflag)

    Constructors, option setters and metadata of the providers whose loading
    [Env] and [Labels] model, and their place among the other sources. *)
From S2P Require Import Prelude GoStrings Value Path Clone Merge Patch Provenance Options Assemble Pipeline Manager Env Labels Sources Calls.
Open Scope nat_scope.

(** A snapshot without a revision. *)
Definition snapshot_of (m : gmap string value) : ProviderSnapshot := {| ps_Map := Some m; ps_Revision := ""; ps_Stale := false |}.

(** ** Environment variables (providers/env/env.go)

    [getenv] is an argument of [env_Load]. *)
Record env_provider := { en_settings : Env.Provider; en_priority : Z }.

Definition env_New (prefix : string) : env_provider :=
  {| en_settings := {| ep_prefix := prefix; ep_coerce := false; ep_replacer := DotReplacer; ep_root := [] |}; en_priority := PriorityEnv |}.

Definition with_coerce (s : Env.Provider) (on : bool) : Env.Provider :=
  {| ep_prefix := ep_prefix s; ep_coerce := on; ep_replacer := ep_replacer s; ep_root := ep_root s |}.
Definition with_replacer (s : Env.Provider) (r : option (string → string)) : Env.Provider :=
  {| ep_prefix := ep_prefix s; ep_coerce := ep_coerce s; ep_replacer := default DotReplacer r; ep_root := ep_root s |}.
Definition with_root (s : Env.Provider) (path : string) : Env.Provider :=
  {| ep_prefix := ep_prefix s; ep_coerce := ep_coerce s; ep_replacer := ep_replacer s; ep_root := Split path |}.

Definition env_WithPriority (p : env_provider) (prio : Z) : env_provider := {| en_settings := en_settings p; en_priority := prio |}.
Definition env_WithCoerce (p : env_provider) (on : bool) : env_provider := {| en_settings := with_coerce (en_settings p) on; en_priority := en_priority p |}.
Definition env_WithReplacer (p : env_provider) (r : option (string → string)) : env_provider :=
  {| en_settings := with_replacer (en_settings p) r; en_priority := en_priority p |}.
Definition env_At (p : env_provider) (path : string) : env_provider := {| en_settings := with_root (en_settings p) path; en_priority := en_priority p |}.

Definition env_Name (p : env_provider) : string := "env:" +:+ ep_prefix (en_settings p).
Definition env_Describe (p : env_provider) : ProviderInfo := {| pi_Priority := en_priority p; pi_WatchPaths := [] |}.

Definition env_Load `{GoStd} (p : env_provider) (environ : list string) : result provider_error ProviderSnapshot :=
  Ok (snapshot_of (env_loadMap (en_settings p) environ)).

(** ** Files of variables (providers/dotenv/dotenv.go) *)
Record dotenv_provider := {
  de_settings : Env.Provider;
  de_paths : list string;
  de_priority : Z;
  de_lookup : string → option string;
}.

Definition dotenv_New (LookupEnv : string → option string) (prefix : string) (paths : list string) : dotenv_provider :=
  {| de_settings := {| ep_prefix := prefix; ep_coerce := false; ep_replacer := DotReplacer; ep_root := [] |};
     de_paths := paths; de_priority := PriorityDotEnv; de_lookup := LookupEnv |}.

Definition dotenv_set (p : dotenv_provider) (s : Env.Provider) : dotenv_provider :=
  {| de_settings := s; de_paths := de_paths p; de_priority := de_priority p; de_lookup := de_lookup p |}.
Definition dotenv_WithPriority (p : dotenv_provider) (prio : Z) : dotenv_provider :=
  {| de_settings := de_settings p; de_paths := de_paths p; de_priority := prio; de_lookup := de_lookup p |}.
Definition dotenv_WithCoerce (p : dotenv_provider) (on : bool) : dotenv_provider := dotenv_set p (with_coerce (de_settings p) on).
Definition dotenv_WithReplacer (p : dotenv_provider) (r : option (string → string)) : dotenv_provider := dotenv_set p (with_replacer (de_settings p) r).
Definition dotenv_At (p : dotenv_provider) (path : string) : dotenv_provider := dotenv_set p (with_root (de_settings p) path).
(** A nil function selects the process environment again. *)
Definition dotenv_WithLookup (LookupEnv : string → option string) (p : dotenv_provider) (fn : option (string → option string)) : dotenv_provider :=
  {| de_settings := de_settings p; de_paths := de_paths p; de_priority := de_priority p; de_lookup := default LookupEnv fn |}.

Definition dotenv_Name (p : dotenv_provider) : string := "dotenv:" +:+ strings_Join (de_paths p) ",".
Definition dotenv_Describe (p : dotenv_provider) : ProviderInfo := {| pi_Priority := de_priority p; pi_WatchPaths := de_paths p |}.

(** [Load]; [print] is the text of an error. *)
Definition dotenv_Load `{GoStd} (print : dotenv_error → string) (ReadFile : string → result file_error string) (p : dotenv_provider) :
    result provider_error ProviderSnapshot :=
  snapshot_of <$> map_err (λ e, ProviderErr (print e)) (dotenv_loadMap ReadFile (Some (de_lookup p)) (de_settings p) (de_paths p)).

(** [AutoDotEnvPaths]; [cwd] is empty when the working directory is unknown. *)
Definition AutoDotEnvPaths (Join : string → string → string) (cwd configDir : string) : list string :=
  (if String.eqb configDir "" then [] else [Join configDir ".env"])
  ++ (if String.eqb cwd "" || String.eqb cwd configDir then [] else [Join cwd ".env"]).

(** ** Flags (providers/cliflag, integrations/cli/pflag)

    The [Visit] of a flag set yields the flags that were set, with their values
    as text. *)
Record flag_provider := { fp_data : gmap string value; fp_priority : Z }.

Definition flag_New (data : gomap) : flag_provider := {| fp_data := default ∅ data; fp_priority := PriorityCLI |}.
Definition flag_WithPriority (p : flag_provider) (prio : Z) : flag_provider := {| fp_data := fp_data p; fp_priority := prio |}.
Definition flag_Name : string := "cli".
Definition flag_Describe (p : flag_provider) : ProviderInfo := {| pi_Priority := fp_priority p; pi_WatchPaths := [] |}.
Definition flag_Load (p : flag_provider) : result provider_error ProviderSnapshot := Ok (snapshot_of (fp_data p)).

Definition FromStdFlag (Visit : list (string * string)) : gmap string value := From Visit.
Definition FromChanged (Visit : list (string * string)) : gmap string value := From Visit.

(** ** Labels (providers/labels/labels.go) *)
Record label_settings := { ls_Name : string; ls_Priority : Z; ls_opts : Labels.Options }.
Record label_provider := { lp_labels : label_input; lp_settings : label_settings }.

Definition labels_New (labels : label_input) (s : label_settings) : label_provider :=
  {| lp_labels := labels;
     lp_settings := {|
       ls_Name := if negb (String.eqb (ls_Name s) "") then ls_Name s
                  else match op_Routing (ls_opts s) with
                       | None => "labels:" +:+ op_Prefix (ls_opts s)
                       | Some _ => if negb (String.eqb (op_Prefix (ls_opts s)) "") then "labels:routing:" +:+ op_Prefix (ls_opts s) else "labels:routing"
                       end;
       ls_Priority := if Z.eqb (ls_Priority s) 0 then PriorityStatic else ls_Priority s;
       ls_opts := ls_opts s |} |}.

Definition labels_Describe (p : label_provider) : ProviderInfo := {| pi_Priority := ls_Priority (lp_settings p); pi_WatchPaths := [] |}.

(** ** Entries

    What a manager keeps of a provider: its name, the priority that [Describe]
    gives, and what a [Load] answers. *)
Definition entry (name : string) (info : ProviderInfo) (load : result provider_error ProviderSnapshot) : providerEntry :=
  {| pe_Name := name; pe_Priority := pi_Priority (Describe (Some info)); pe_Load := load |}.

Definition env_entry_of `{GoStd} (p : env_provider) (environ : list string) : providerEntry := entry (env_Name p) (env_Describe p) (env_Load p environ).
Definition flag_entry (p : flag_provider) : providerEntry := entry flag_Name (flag_Describe p) (flag_Load p).

(** ** The topmost provider *)

Lemma sort_layers_top l r x : Forall (λ y, layer_leb y x = true) l → Forall (λ y, layer_leb x y = false) r → Forall (λ y, layer_leb y x = true) r →
  sort_layers (l ++ x :: r) = sort_layers (l ++ r) ++ [x].
Proof.
  intros Hl Hlt Hr. assert (sort_layers (x :: r) = sort_layers r ++ [x]) as Hx.
  { unfold sort_layers at 1, sort_stable. cbn [foldr]. fold (sort_stable layer_leb r). fold (sort_layers r).
    assert (Forall (λ y, layer_leb x y = false) (sort_layers r)) as Hs.
    { unfold sort_layers. by rewrite sort_stable_perm. }
    clear -Hs. induction Hs as [|y s Hy _ IH]; [done|]. cbn. by rewrite Hy, IH. }
  unfold sort_layers, sort_stable in *. rewrite !foldr_app, Hx. clear Hx. induction Hl as [|y l Hy Hl IH]; [done|].
  cbn [foldr]. rewrite IH. by apply insert_snoc.
Qed.

Lemma providers_app (ps qs : list providerEntry) layers : assembleProviderLayers (ps ++ qs) = Ok layers →
  ∃ l1 l2, assembleProviderLayers ps = Ok l1 ∧ assembleProviderLayers qs = Ok l2 ∧ layers = l1 ++ l2.
Proof.
  revert layers. induction ps as [|e ps IH]; intros layers; [intros Hq; by exists [], layers|]. cbn [app assembleProviderLayers].
  destruct (pe_Load e) as [snap|[]]; [|done..]. destruct (ps_Map snap) as [m|]; [|apply IH].
  intros (rest & Hrest & [= <-])%bind_Ok. destruct (IH rest Hrest) as (l1 & l2 & H1 & H2 & ->).
  exists (provider_layer e snap m :: l1), l2. split_and!; [by rewrite H1|done|done].
Qed.

(** Without an override, the provider of the highest priority, the last of them
    when several have it, is on top. *)
Lemma provider_on_top `{GoStd} `{Codecs} {T} computed (w : world) (o : options T) ctx host ca ca' dirs r qs1 e qs2 snap m :
  o_Providers o = qs1 ++ e :: qs2 → Forall (λ q, (pe_Priority q ≤ pe_Priority e)%Z) qs1 → Forall (λ q, (pe_Priority q < pe_Priority e)%Z) qs2 →
  pe_Load e = Ok snap → ps_Map snap = Some m →
  assemble computed w o ctx host ca [] = (ca', dirs, Ok r) → ∃ below, ar_staged r = below ++ [provider_layer e snap m].
Proof.
  intros Ho H1' H2' Hload Hmap (files & gens & provs & Hf & Hg & Hp & ->)%assembled_sources. rewrite Ho in Hp.
  apply providers_app in Hp as (l1 & l2 & Hl1 & Hl2 & ->). cbn [assembleProviderLayers] in Hl2. rewrite Hload, Hmap in Hl2.
  apply bind_Ok in Hl2 as (rest & Hrest & [= <-]). rewrite app_nil_r.
  apply (providers_class (λ n, (n ≤ pe_Priority e)%Z) _ _ H1') in Hl1. apply (providers_class (λ n, (n < pe_Priority e)%Z) _ _ H2') in Hrest.
  exists (sort_layers ((files ++ gens ++ l1) ++ rest)).
  replace (files ++ gens ++ l1 ++ provider_layer e snap m :: rest) with ((files ++ gens ++ l1) ++ provider_layer e snap m :: rest) by by rewrite <-!app_assoc.
  apply sort_layers_top.
  - rewrite !Forall_app. split_and!; [eapply Forall_impl; [exact Hf|]|eapply Forall_impl; [exact Hg|]|eapply Forall_impl; [exact Hl1|]]; intros y Hy; unfold layer_leb.
    1-2: by rewrite Hy.
    destruct Hy as [Hc Hy]. rewrite Hc. cbn. by apply Z.leb_le.
  - eapply Forall_impl; [exact Hrest|]. intros y [Hc Hy]. unfold layer_leb. rewrite Hc. cbn. by apply Z.leb_gt.
  - eapply Forall_impl; [exact Hrest|]. intros y [Hc Hy]. unfold layer_leb. rewrite Hc. cbn. apply Z.leb_le. lia.
Qed.

(** The writes of [From]. *)
Definition flag_write (f : string * string) : write := if String.eqb f.1 "" then None else Some (strings_Split f.1 ".", VString f.2).

Lemma From_written flags : From flags = written (flag_write <$> flags).
Proof.
  unfold From, written. assert (∀ f m, (let '(name, v) := f in if String.eqb name "" then m else default ∅ (Set_ (Some m) (strings_Split name ".") (VString v)))
    = set_variable m (flag_write f)) as Hstep.
  { intros [name v] m. unfold flag_write. cbn [fst snd]. by destruct (String.eqb name ""). }
  induction flags as [|f flags IH] using rev_ind; [done|]. rewrite fmap_app, !foldl_app, IH. apply Hstep.
Qed.

Lemma From_last before name v after : name ≠ "" →
  (∀ f, f ∈ after → f.1 ≠ "" → disjoint_paths (strings_Split f.1 ".") (strings_Split name ".")) →
  get_at (VMap (From (before ++ (name, v) :: after))) (strings_Split name ".") = Some (VString v).
Proof.
  intros Hne Hd. rewrite From_written, fmap_app, fmap_cons. unfold flag_write at 2. cbn [fst snd].
  destruct (String.eqb_spec name ""); [done|]. apply written_last; [apply Split_ne|].
  intros q' w (f & Hf & Hin)%list_elem_of_fmap. unfold flag_write in Hf. destruct (String.eqb_spec f.1 ""); [done|]. injection Hf as -> _. by apply Hd.
Qed.

(** ** Properties *)

(** Flags win over the environment, and both over what has a lower priority.  In a
    reload without an override, with slices replaced: when the provider of the
    flags has the highest priority, which [flag_New] gives it among the built-in
    providers, each flag that was set, and is not overwritten by a later
    overlapping flag, is in the merged tree as text, at the path that its dots
    spell; when that is the provider of the environment, each selected variable
    is, below its graft, with the same exception.  Files, patches, generators and
    other providers, wherever they are listed, cannot change it. *)
Theorem local_precedence `{GoStd} `{GoJson} `{Codecs} {T} `{Target T} (customEncoding : bool) (o : options T)
    (w : world) (ctx : option ctx_error) (reason host : string) (ca ca' : caches) (dirs : list string) (a : assemblyResult) (p : pipelineState T)
    (qs1 qs2 : list providerEntry) (top : providerEntry)
    (Ho : o_Providers o = qs1 ++ top :: qs2)
    (Hbefore : Forall (λ q, (pe_Priority q ≤ pe_Priority top)%Z) qs1) (Hafter : Forall (λ q, (pe_Priority q < pe_Priority top)%Z) qs2)
    (Hasm : assemble customEncoding w o ctx host ca [] = (ca', dirs, Ok a))
    (Hplain : ar_appendSlices a = false ∧ ar_mergeKeys a = ∅)
    (Hrun : runMerge o (new_pipeline a reason false) = Ok p) :
  (∀ before name v after prio, top = flag_entry (flag_WithPriority (flag_New (Some (FromStdFlag (before ++ (name, v) :: after)))) prio) → name ≠ "" →
     (∀ f, f ∈ after → f.1 ≠ "" → disjoint_paths (strings_Split f.1 ".") (strings_Split name ".")) →
     Get (pl_merged p) (strings_Split name ".") = Some (VString v))
  ∧ (∀ ep before kv after path v, top = env_entry_of ep (before ++ kv :: after) → env_entry (en_settings ep) kv = Some (path, v) → as_map v = None →
     (∀ kv' q v', kv' ∈ after → env_entry (en_settings ep) kv' = Some (q, v') → disjoint_paths q path) →
     Get (pl_merged p) (ep_root (en_settings ep) ++ path) = Some v).
Proof.
  destruct Hplain as [Happ Hkeys].
  assert (∀ snap m q x, pe_Load top = Ok snap → ps_Map snap = Some m → q ≠ [] → get_at (VMap m) q = Some x → as_map x = None → Get (pl_merged p) q = Some x)
    as Htop.
  { intros snap m q x Hl Hm Hq Hx Hleaf. destruct (provider_on_top _ _ _ _ _ _ _ _ _ _ _ _ _ _ Ho Hbefore Hafter Hl Hm Hasm) as [below Hstaged].
    eapply (merge_on_top o (new_pipeline a reason false)); [exact Hstaged|done| |done|done|exact Hq|exact Hx|exact Hleaf|exact Hrun].
    unfold layer_data. cbn [provider_layer sl_cached sl_data]. apply DeepClone_id. }
  split.
  - intros before name v after prio -> Hne Hd. eapply Htop; [done|done|apply Split_ne| |done]. by apply From_last.
  - intros ep before kv after path v -> He Hv Hd. pose proof (env_entry_ok (en_settings ep) kv) as Hok. rewrite He in Hok. destruct Hok as [Hne _].
    eapply Htop; [done|done|by intros [_ ?]%app_eq_nil| |done].
    unfold env_loadMap. rewrite get_at_graft by done. rewrite (foldl_written (env_entry (en_settings ep))), fmap_app, fmap_cons, He.
    apply written_last; [done|]. intros q v' (kv' & Hq & Hin)%list_elem_of_fmap. by apply (Hd kv' q v').
Qed.

(** The same key from the environment and from a flag. *)
Definition example_flags : flag_provider := flag_WithPriority (flag_New (Some (FromStdFlag [("host", "flag")]))) PriorityCLI.
Definition local_options : options string := {|
  o_Dir := "etc"; o_FS := None; o_SkipDiscovery := true; o_ProfileNames := []; o_ProfileMatch := "";
  o_ProfileEnv := ""; o_ProfileDefault := ""; o_Strict := false;
  o_Providers := [flag_entry example_flags; @env_entry_of example_std (env_New "APP_") ["APP_HOST=env"; "APP_PORT=80"]]; o_Axes := [];
  o_Validators := []; o_Transforms := []; o_Provenance := Full; o_HistoryCap := 2;
  o_YAMLBridge := false; o_UnknownFields := UnknownIgnore; o_Policies := []; o_SecretResolver := None;
  o_Generators := []; o_TypedHooks := 0; o_MergeKeys := ∅; o_Observers := 1; o_Tenant := "";
|}.

Lemma local_precedence_witness :
  ∃ p : pipelineState string, Get (pl_merged p) ["host"] = Some (VString "flag") ∧ Get (pl_merged p) ["port"] = Some (VString "80").
Proof.
  destruct (@assemble example_std example_codecs string true example_world local_options None "" (mg_caches (newManager local_options)) [])
    as [[ca dirs] [a|e]] eqn:Ha; [|vm_compute in Ha; discriminate].
  destruct (@runMerge example_std example_json string local_options (new_pipeline a "deploy" false)) as [p|e] eqn:Hp.
  2: { vm_compute in Ha. injection Ha as _ _ <-. vm_compute in Hp. discriminate. }
  exists p. split.
  - assert (Hplain : ar_appendSlices a = false ∧ ar_mergeKeys a = ∅).
    { vm_compute in Ha. injection Ha as _ _ <-. split; reflexivity. }
    destruct (@local_precedence example_std example_json example_codecs string example_target true local_options example_world None "deploy" ""
      (mg_caches (newManager local_options)) ca dirs a p [] [@env_entry_of example_std (env_New "APP_") ["APP_HOST=env"; "APP_PORT=80"]]
      (flag_entry example_flags) eq_refl ltac:(constructor) ltac:(repeat constructor) Ha Hplain Hp) as [Hflags _].
    apply (Hflags [] "host" "flag" [] PriorityCLI eq_refl); [discriminate|]. intros f Hin. by apply not_elem_of_nil in Hin.
  - vm_compute in Ha. injection Ha as _ _ <-. vm_compute in Hp. injection Hp as <-. reflexivity.
Defined.
