(* ===== verification/Memo.v ===== *)
(** * Memoized values, spans and stage events
    (state.go, observe.go, input_fingerprint.go, internal/obs, internal/typeinfo/cache.go)

    Values that goroutines share and compute once: the JSON tree of a state, the
    difference of a commit and the caches by type; the types whose encoding is not
    their fields; and the span and the event around a stage.  Goroutines are
    transition systems, one step for each access to shared memory. *)
From S2P Require Import Prelude GoStrings Value Diff TypeInfo Provenance Options Assemble Pipeline.
Open Scope nat_scope.

(** ** The JSON tree of a state (state.go)

    [encodeJSONTree]: [json_Marshal] is given the value, [json_Decode] the text. *)
Definition encodeJSONTree {T} (json_Marshal : T → result string string) (json_Decode : string → result string gomap) (v : option T) : result string gomap :=
  match v with
  | None => Ok None
  | Some v => buf ← json_Marshal v; json_Decode buf
  end.

(** A reader in [cachedJSONTree] of a state with a value.  The cell holds the box
    and its tree; [box] is the allocation of the reader, and [encoded] what the
    encoder answers this time. *)
Inductive reader := RLoad | REncode | RSwap (box : nat) (tree : gomap) | RReload | RReturn (r : result string (nat * gomap)) | RPanic.
Definition cell : Type := option (nat * gomap).

Definition reader_step (box : nat) (encoded : result string gomap) (c : cell) (r : reader) : cell * reader :=
  match r with
  | RLoad => match c with Some b => (c, RReturn (Ok b)) | None => (c, REncode) end
  | REncode => match encoded with Err e => (c, RReturn (Err e)) | Ok tree => (c, RSwap box tree) end
  | RSwap box tree => (match c with None => Some (box, tree) | Some b => Some b end, RReload)
  | RReload => match c with Some b => (c, RReturn (Ok b)) | None => (c, RPanic) end
  | RReturn _ | RPanic => (c, r)
  end.

Record readers := { rs_cell : cell; rs_next : nat; rs_readers : list reader }.

Inductive readers_step (encodes : result string gomap → Prop) : readers → readers → Prop :=
| read s : readers_step encodes s {| rs_cell := rs_cell s; rs_next := rs_next s; rs_readers := rs_readers s ++ [RLoad] |}
| run s i r encoded c' r' : rs_readers s !! i = Some r → encodes encoded → reader_step (rs_next s) encoded (rs_cell s) r = (c', r') →
    readers_step encodes s {| rs_cell := c'; rs_next := S (rs_next s); rs_readers := <[i := r']> (rs_readers s) |}.

Definition no_readers : readers := {| rs_cell := None; rs_next := 0; rs_readers := [] |}.

(** ** The difference of a commit (observe.go)

    [lazyDiff]: [sync.Once] has a flag and a lock; a caller that finds the flag
    unset waits for the lock, and looks again when it has it. *)
Inductive diff_caller := CCall | CLock | CCompute | CReturn.
Record lazy_diff := { ld_done : bool; ld_locked : bool; ld_diff : list DiffEntry; ld_computed : nat; ld_callers : list diff_caller }.

Section lazy.
(** [prev != nil], and [diagnosticDiff(prev, next)]. *)
Context (has_prev : bool) (diagnostic : list DiffEntry).

(** One step of a caller, when it is not waiting for the lock. *)
Definition caller_step (s : lazy_diff) (c : diff_caller) : option (lazy_diff * diff_caller) :=
  match c with
  | CCall => Some (s, if ld_done s then CReturn else CLock)
  | CLock =>
      if ld_locked s then None
      else if ld_done s then Some (s, CReturn)
      else Some ({| ld_done := false; ld_locked := true; ld_diff := ld_diff s; ld_computed := ld_computed s; ld_callers := ld_callers s |}, CCompute)
  | CCompute =>
      Some ({| ld_done := true; ld_locked := false; ld_diff := if has_prev then diagnostic else ld_diff s;
               ld_computed := if has_prev then S (ld_computed s) else ld_computed s; ld_callers := ld_callers s |}, CReturn)
  | CReturn => None
  end.

Definition set_callers (s : lazy_diff) (l : list diff_caller) : lazy_diff :=
  {| ld_done := ld_done s; ld_locked := ld_locked s; ld_diff := ld_diff s; ld_computed := ld_computed s; ld_callers := l |}.

Inductive lazy_step : lazy_diff → lazy_diff → Prop :=
| call s : lazy_step s (set_callers s (ld_callers s ++ [CCall]))
| advance s i c s' c' : ld_callers s !! i = Some c → caller_step s c = Some (s', c') → lazy_step s (set_callers s' (<[i := c']> (ld_callers s))).

Definition lazyDiff : lazy_diff := {| ld_done := false; ld_locked := false; ld_diff := []; ld_computed := 0; ld_callers := [] |}.
End lazy.

(** ** Caches by type (internal/typeinfo/cache.go)

    Calls exclude each other. *)
Definition GetOrCompute {V} (m : gmap nat V) (t : nat) (fn : V) : gmap nat V * V :=
  match m !! t with
  | Some v => (m, v)
  | None => (<[t := fn]> m, fn)
  end.

Definition lookups {V} (compute : nat → V) (m : gmap nat V) (ts : list nat) : gmap nat V * list V :=
  foldl (λ acc t, let '(m, v) := GetOrCompute acc.1 t (compute t) in (m, acc.2 ++ [v])) (m, []) ts.

(** ** Types that encode themselves (input_fingerprint.go) *)
Inductive encoding_interface := JSONMarshaler | JSONUnmarshaler | TextMarshaler | TextUnmarshaler | YAMLMarshaler | YAMLUnmarshaler | YAMLUnmarshalerV2.

Definition customEncodingTypes : list encoding_interface :=
  [JSONMarshaler; JSONUnmarshaler; TextMarshaler; TextUnmarshaler; YAMLMarshaler; YAMLUnmarshaler; YAMLUnmarshalerV2].

(** [Implements] is the method set of a type, [PointerImplements] that of the
    pointer to it. *)
Definition hasCustomEncoding (types : list gotype) (Implements PointerImplements : nat → encoding_interface → bool) (t : nat) : bool :=
  Reaches types t (λ u, existsb (λ iface, Implements u iface || PointerImplements u iface) customEncodingTypes).

(** ** Stages (observe.go, internal/obs/obs.go) *)
Inductive span_op := SpanRecordError (e : fc_error) | SpanSetElapsed | SpanSetSuccess (ok : bool) | SpanEnd.

(** [StartSpan]: a tracer is nil, or gives a span or nil; without a span the
    operations are discarded. *)
Definition StartSpan (tracer : option (string → bool)) (name : string) : bool :=
  match tracer with None => false | Some start => start name end.

(** [runTimedStage], without its durations: the operations on the span, and the
    event. *)
Definition runTimedStage {A} (tracer : option (string → bool)) (observers : nat) (spanName : string) (r : fres A) : list span_op * list event * fres A :=
  let ops := match error_of r with Some e => [SpanRecordError e] | None => [] end
             ++ [SpanSetElapsed; SpanSetSuccess (bool_decide (error_of r = None)); SpanEnd] in
  (if StartSpan tracer spanName then ops else [],
   if 0 <? observers then [StageFinished (TrimPrefix spanName "fastconf.") (error_of r)] else [], r).

(** [ObserverContext]: when the context of a callback is done, if its parent is
    done at [parent]; [None] for never. *)
Definition ObserverContext (now : Z) (parent : option Z) (timeout : Z) : option Z :=
  if (timeout <? 0)%Z then parent
  else Some (match parent with Some p => Z.min p (now + timeout) | None => now + timeout end)%Z.

(** ** Lemmas: the JSON tree *)

Section tree_facts.
Context (encodes : result string gomap → Prop).

Definition reader_ok (c : cell) (r : reader) : Prop :=
  match r with
  | RLoad | REncode => True
  | RSwap _ tree => encodes (Ok tree)
  | RReload => is_Some c
  | RReturn (Ok b) => c = Some b
  | RReturn (Err e) => encodes (Err e)
  | RPanic => False
  end.

Definition readers_ok (s : readers) : Prop :=
  (∀ b, rs_cell s = Some b → encodes (Ok b.2)) ∧ Forall (reader_ok (rs_cell s)) (rs_readers s).

Lemma reader_step_ok box encoded c r c' r' : encodes encoded → (∀ b, c = Some b → encodes (Ok b.2)) → reader_ok c r →
  reader_step box encoded c r = (c', r') → (∀ b, c' = Some b → encodes (Ok b.2)) ∧ reader_ok c' r' ∧ (∀ b, c = Some b → c' = Some b).
Proof.
  intros He Hc Hr. destruct r as [| |b t| |r|]; cbn.
  - destruct c as [b|]; intros [= <- <-]; split_and!; naive_solver.
  - destruct encoded as [t|e]; intros [= <- <-]; split_and!; naive_solver.
  - destruct c as [b'|]; intros [= <- <-]; split_and!; naive_solver.
  - cbn in Hr. destruct Hr as [b ->]. intros [= <- <-]. split_and!; naive_solver.
  - intros [= <- <-]. by split_and!.
  - done.
Qed.

Lemma reader_ok_mono c c' r : (∀ b, c = Some b → c' = Some b) → reader_ok c r → reader_ok c' r.
Proof. intros Hc. destruct r as [| |b t| |[b|e]|]; cbn; try done; [intros [b Hb]; exists b|]; auto. Qed.

Lemma readers_reachable s : rtc (readers_step encodes) no_readers s → readers_ok s.
Proof.
  assert (∀ s s', readers_step encodes s s' → readers_ok s → readers_ok s') as Hstep.
  { intros s1 s2 [s'|s' i r encoded c' r' Hi He Hr] [Hc Hall].
    - split; [done|]. apply Forall_app. split; [done|by repeat constructor].
    - destruct (reader_step_ok _ _ _ _ _ _ He Hc (proj1 (Forall_lookup _ _) Hall i r Hi) Hr) as (H1 & H2 & H3). split; [done|].
      apply Forall_insert; [|done]. apply (Forall_impl _ _ _ Hall). intros x. by apply reader_ok_mono. }
  intros Hs. assert (readers_ok no_readers) as Hi by (split; [done|constructor]). revert Hi. induction Hs; [done|eauto].
Qed.
End tree_facts.

(** ** Lemmas: the difference *)

Section lazy_facts.
Context (has_prev : bool) (diagnostic : list DiffEntry).

Definition weight (c : diff_caller) : nat := match c with CCompute => 1 | _ => 0 end.
Definition computing (l : list diff_caller) : nat := sum_list_with weight l.
#[local] Arguments computing _ : simpl never.

Record lazy_ok (s : lazy_diff) : Prop := {
  lo_computing : computing (ld_callers s) = if ld_locked s then 1 else 0;
  lo_locked : ld_locked s = true → ld_done s = false;
  lo_value : ld_diff s = if ld_done s && has_prev then diagnostic else [];
  lo_computed : ld_computed s = if ld_done s && has_prev then 1 else 0;
  lo_returned : CReturn ∈ ld_callers s → ld_done s = true;
}.

Lemma computing_insert l i c c' : l !! i = Some c → computing (<[i := c']> l) + weight c = computing l + weight c'.
Proof.
  unfold computing. revert i. induction l as [|x l IH]; intros [|i]; [done..|cbn; intros [= ->]; lia|]. intros Hi. specialize (IH i Hi). apply (f_equal (Nat.add (weight x))) in IH. cbn. rewrite !Nat.add_assoc in IH. exact IH.
Qed.

Lemma returned_insert (l : list diff_caller) (i : nat) c' : CReturn ∈ <[i := c']> l → c' = CReturn ∨ CReturn ∈ l.
Proof.
  intros [j Hj]%list_elem_of_lookup. apply list_lookup_insert_Some in Hj as [(-> & -> & _)|[_ Hj]]; [by left|right].
  apply list_elem_of_lookup. by exists j.
Qed.

Lemma lazy_step_ok s s' : lazy_step has_prev diagnostic s s' → lazy_ok s → lazy_ok s'.
Proof.
  intros [s1|s1 i c s1' c' Hi Hc] [H1 H2 H3 H4 H5].
  - split; cbn; try done; [unfold computing in *; rewrite sum_list_with_app; cbn; lia|].
    intros [?|Hin]%elem_of_app; [auto|]. apply list_elem_of_singleton in Hin. done.
  - pose proof (computing_insert _ _ _ c' Hi) as Hn. pose proof (returned_insert (ld_callers s1) i c') as Hret.
    revert Hn Hret. generalize (<[i := c']> (ld_callers s1)). intros l Hn Hret. destruct c; cbn in Hc.
    + injection Hc as <- <-. destruct (ld_done s1) eqn:Hd; split; cbn in *; rewrite ?Hd in *; try done; try lia; intros Hr; apply Hret in Hr as [?|Hr]; auto; done.
    + destruct (ld_locked s1) eqn:Hl; [done|]. destruct (ld_done s1) eqn:Hd; injection Hc as <- <-; split; cbn in *; rewrite ?Hl, ?Hd in *; try done; try lia.
      intros Hr. apply Hret in Hr as [?|Hr]; [done|auto].
    + injection Hc as <- <-. assert (ld_locked s1 = true) as Hl.
      { destruct (ld_locked s1) eqn:Hl; [done|exfalso]. cbn in Hn. lia. }
      specialize (H2 Hl). rewrite Hl, H2 in *. split; cbn in *; try done; try lia.
      * rewrite H3. by destruct has_prev.
      * rewrite H4. by destruct has_prev.
    + done.
Qed.

Lemma lazy_reachable s : rtc (lazy_step has_prev diagnostic) lazyDiff s → lazy_ok s.
Proof.
  intros Hs. assert (lazy_ok lazyDiff) as Hi by (split; cbn; try done; intros Hin; by apply not_elem_of_nil in Hin).
  revert Hi. induction Hs; [done|eauto using lazy_step_ok].
Qed.

(** Whoever holds the lock can go on, and so can the others when it is free. *)
Lemma lazy_progress s i c : lazy_ok s → ld_callers s !! i = Some c → c ≠ CReturn →
  ∃ j c1 s' c2, ld_callers s !! j = Some c1 ∧ caller_step has_prev diagnostic s c1 = Some (s', c2).
Proof.
  intros [H1 _ _ _ _] Hi Hc. destruct (ld_locked s) eqn:Hl.
  - assert (∃ j, ld_callers s !! j = Some CCompute) as [j Hj].
    { unfold computing in H1. clear -H1. induction (ld_callers s) as [|x l IH]; [done|]. destruct x; cbn in H1.
      1,2,4: destruct (IH H1) as [j Hj]; by exists (S j). by exists 0. }
    exists j, CCompute. by eexists _, _.
  - destruct c; [| | |done].
    + exists i, CCall. by eexists _, _.
    + exists i, CLock. destruct (ld_done s) eqn:Hd; eexists _, _; (split; [exact Hi|]); cbn; by rewrite Hl, Hd.
    + exists i, CCompute. by eexists _, _.
Qed.
End lazy_facts.

(** ** Properties *)

(** Readers of a state share one JSON view.  However many first readers race, and
    even if the encoder answers them differently, no read of the cell comes
    before it is set, all readers that get a view get the same box, its tree is
    one that the encoder gave, and a reader that gets an error got it from the
    encoder. *)
Theorem json_tree_shared (encodes : result string gomap → Prop) (s : readers) (Hs : rtc (readers_step encodes) no_readers s) :
  RPanic ∉ rs_readers s
  ∧ (∀ b b', RReturn (Ok b) ∈ rs_readers s → RReturn (Ok b') ∈ rs_readers s → b = b' ∧ rs_cell s = Some b)
  ∧ (∀ b, RReturn (Ok b) ∈ rs_readers s → encodes (Ok b.2))
  ∧ (∀ e, RReturn (Err e) ∈ rs_readers s → encodes (Err e)).
Proof.
  destruct (readers_reachable _ _ Hs) as [Hc Hall]. rewrite Forall_forall in Hall. split_and!.
  - intros Hp. exact (Hall _ Hp).
  - intros b b' Hb%Hall Hb'%Hall. cbn in *. split; congruence.
  - intros b Hb%Hall. by apply Hc.
  - intros e He. exact (Hall _ He).
Qed.

(** Two readers that both find the cell empty: the second box is dropped. *)
Lemma json_tree_shared_witness :
  let encodes := λ r, r = encodeJSONTree (λ v : string, Ok v) (λ s, Ok (Some {[ "v" := VString s ]})) (Some "x") in
  ∃ s, rtc (readers_step encodes) no_readers s ∧ rs_next s = 8 ∧ length (rs_readers s) = 2
    ∧ (∀ b, RReturn (Ok b) ∈ rs_readers s → b.2 = Some {[ "v" := VString "x" ]}).
Proof.
  intros encodes. set (t := Some {[ "v" := VString "x" ]} : gomap).
  set (s := {| rs_cell := Some (2, t); rs_next := 8; rs_readers := [RReturn (Ok (2, t)); RReturn (Ok (2, t))] |}).
  assert (rtc (readers_step encodes) no_readers s) as Hr.
  { do 2 (eapply rtc_l; [apply read|]; cbn).
    do 3 (eapply rtc_l; [by eapply (run _ _ 0 _ (Ok t)); reflexivity|]; cbn;
          eapply rtc_l; [by eapply (run _ _ 1 _ (Ok t)); reflexivity|]; cbn).
    eapply rtc_l; [by eapply (run _ _ 0 _ (Ok t)); reflexivity|]. cbn.
    eapply rtc_l; [by eapply (run _ _ 1 _ (Ok t)); reflexivity|]. apply rtc_refl. }
  exists s. split; [exact Hr|split; [reflexivity|split; [reflexivity|]]]. intros b Hb.
  pose proof (json_tree_shared encodes s Hr) as (_ & _ & H & _). specialize (H b Hb). by injection H.
Defined.

(** The difference of a commit is computed once at most, and not at all for the
    first state; every call that returns does so after it was computed, and so
    with the same entries; and callers cannot block each other for good. *)
Theorem lazy_diff_once (has_prev : bool) (diagnostic : list DiffEntry) (s : lazy_diff) (Hs : rtc (lazy_step has_prev diagnostic) lazyDiff s) :
  ld_computed s ≤ (if has_prev then 1 else 0)
  ∧ (CReturn ∈ ld_callers s → ld_diff s = if has_prev then diagnostic else [])
  ∧ ((∃ c, c ∈ ld_callers s ∧ c ≠ CReturn) →
     ∃ i c s' c', ld_callers s !! i = Some c ∧ caller_step has_prev diagnostic s c = Some (s', c')).
Proof.
  apply lazy_reachable in Hs. pose proof Hs as [_ _ Hv Hc Hr]. split_and!.
  - rewrite Hc. destruct (ld_done s), has_prev; cbn; lia.
  - intros Hin%Hr. by rewrite Hv, Hin.
  - intros (c & [i Hi]%list_elem_of_lookup & Hc'). by eapply lazy_progress.
Qed.

(** Two callers, of which the second waits while the first computes. *)
Lemma lazy_diff_once_witness :
  ∃ s, rtc (lazy_step true []) lazyDiff s ∧ ld_callers s = [CReturn; CReturn] ∧ ld_computed s = 1 ∧ ld_diff s = [].
Proof.
  set (s := {| ld_done := true; ld_locked := false; ld_diff := []; ld_computed := 1; ld_callers := [CReturn; CReturn] |}).
  assert (rtc (lazy_step true []) lazyDiff s) as Hr.
  { do 2 (eapply rtc_l; [apply call|]; cbn). cbn.
    do 2 (eapply rtc_l; [by eapply (advance _ _ _ 0); reflexivity|]; cbn). cbn.
    eapply rtc_l; [by eapply (advance _ _ _ 1); reflexivity|]. cbn.
    eapply rtc_l; [by eapply (advance _ _ _ 0); reflexivity|]. cbn.
    eapply rtc_l; [by eapply (advance _ _ _ 1); reflexivity|]. apply rtc_refl. }
  exists s. split; [exact Hr|split; [reflexivity|split; [reflexivity|]]].
  destruct (lazy_diff_once true [] s Hr) as (_ & H & _). apply H. left.
Defined.

(** A cache by type cannot be seen: any sequence of calls returns what computing
    each time would, and keeps what was in the cache. *)
Theorem type_cache_transparent {V} (compute : nat → V) (m : gmap nat V) (ts : list nat) (Hm : ∀ t v, m !! t = Some v → v = compute t) :
  (lookups compute m ts).2 = compute <$> ts
  ∧ (∀ t, (lookups compute m ts).1 !! t = if bool_decide (t ∈ ts ∨ is_Some (m !! t)) then Some (compute t) else None).
Proof.
  unfold lookups. induction ts as [|t ts [IH1 IH2]] using rev_ind.
  - split; [done|]. intros t. cbn. destruct (m !! t) as [v|] eqn:Ht; case_bool_decide as Hb; try done.
    + by rewrite (Hm _ _ Ht).
    + exfalso. apply Hb. right. by eexists.
    + exfalso. destruct Hb as [?%not_elem_of_nil|[? [=]]]. done.
  - rewrite foldl_app, fmap_app. cbn [foldl]. destruct (foldl _ _ ts) as [m' out]. cbn [fst snd] in *. subst out. unfold GetOrCompute.
    pose proof (IH2 t) as Ht. destruct (m' !! t) as [v|] eqn:Hv; case_bool_decide as Hb; try done; cbn [fst snd].
    + injection Ht as ->. split; [done|]. intros u. rewrite IH2. apply (f_equal (λ b : bool, if b then Some (compute u) else None)), bool_decide_ext.
      rewrite elem_of_app, list_elem_of_singleton. split; [intuition|]. intros [[?|Hu]|?]; [by left|subst u; exact Hb|by right].
    + split; [done|]. intros u. destruct (decide (t = u)) as [<-|Hne].
      * rewrite lookup_insert_eq, bool_decide_true; [done|]. left. apply elem_of_app. right. by apply list_elem_of_singleton.
      * rewrite lookup_insert_ne by done. rewrite IH2. apply (f_equal (λ b : bool, if b then Some (compute u) else None)), bool_decide_ext.
        rewrite elem_of_app, list_elem_of_singleton. intuition congruence.
Qed.

Lemma type_cache_transparent_witness : (lookups S ∅ [3; 5; 3]).2 = [4; 6; 4].
Proof. apply (type_cache_transparent S ∅ [3; 5; 3]). intros t v H. by rewrite lookup_empty in H. Defined.

(** A manager whose configuration type reaches, through fields, elements and
    pointers, a type that marshals or unmarshals itself does not skip a reload
    because its input files are the same: their fingerprint is the zero one. *)
Theorem custom_encoding_no_shortcut `{GoStd} {T} (types : list gotype) (Implements PointerImplements : nat → encoding_interface → bool) (t : nat) :
  (hasCustomEncoding types Implements PointerImplements t = true
     ↔ ∃ u iface, rtc (edge types) t u ∧ (Implements u iface = true ∨ PointerImplements u iface = true))
  ∧ (∀ defaulter (o : options T) staged metaSum generation now, hasCustomEncoding types Implements PointerImplements t = true →
       inputFingerprint (defaulter || hasCustomEncoding types Implements PointerImplements t) o staged metaSum generation now = zero32).
Proof.
  split.
  - unfold hasCustomEncoding. rewrite Reaches_spec. split.
    + intros (u & Hu & (iface & _ & Hi%orb_true_iff)%existsb_exists). by exists u, iface.
    + intros (u & iface & Hu & Hi). exists u. split; [done|]. apply existsb_exists. exists iface. split; [by destruct iface; cbn; tauto|by apply orb_true_iff].
  - intros defaulter o staged metaSum generation now ->. rewrite orb_true_r. unfold inputFingerprint. by repeat case_match.
Qed.

(** A stage reports what it did: its span, when there is one, records the error if
    there is one, then the time and the success, and ends last and once; and
    the event is that of the pipeline's stages. *)
Theorem timed_stage_reports {A T} (o : options T) (tracer : option (string → bool)) (name : string) (r : fres A) :
  let '(ops, events, r') := runTimedStage tracer (o_Observers o) ("fastconf." +:+ name) r in
  r' = r ∧ events = emit o (StageFinished name (error_of r))
  ∧ (ops = [] ∨ ∃ before, ops = before ++ [SpanEnd] ∧ SpanEnd ∉ before ∧ (∀ e, SpanRecordError e ∈ before ↔ r = Err e)
       ∧ (SpanSetSuccess true ∈ before ↔ ∃ v, r = Ok v)).
Proof.
  unfold runTimedStage. split_and!; [done| |].
  - rewrite TrimPrefix_app. unfold emit, hasObservers. by destruct (0 <? o_Observers o).
  - destruct (StartSpan _ _); [right|by left]. destruct r as [v|e]; cbn.
    + exists [SpanSetElapsed; SpanSetSuccess true]. split_and!; [done| |intros e'|]; rewrite !elem_of_cons, elem_of_nil; naive_solver.
    + exists [SpanRecordError e; SpanSetElapsed; SpanSetSuccess false]. split_and!; [done| |intros e'|]; rewrite !elem_of_cons, elem_of_nil; naive_solver.
Qed.
