(* ===== verification/Convergence.v ===== *)
(** * Convergence: watchers, queue and manager together
    (provider_watch.go, reload_queue.go, reload.go)

    The queue of [ReloadQueue] with the manager of [Manager] behind it and
    sources that change in front of it.  A request loads the sources at some
    point while it is served; what it loads may be out of date when it is
    published.  The question is whether the manager catches up. *)
From S2P Require Import Prelude GoStrings Value Patch Provenance Options Assemble Pipeline Manager ReloadQueue.
Open Scope nat_scope.

Lemma surjective_pairing_3 {A B D} (x : A * B * D) : x = (x.1.1, x.1.2, x.2).
Proof. by destruct x as [[a b] d]. Qed.

Section convergence.
Context `{GoStd} `{GoJson} `{Codecs} {T : Type} `{Target T}.
(** The contents of all sources, the options and the file system they make, and
    the requests of callers and the reasons of providers, by id. *)
Context {C : Type} (customEncoding : bool) (options_of : C → options T) (world_of : C → world)
  (requests : N → @request T) (reasons : N → string).

(** [y_contents] lists what the sources have held, newest last; [y_owed] counts the
    announced changes that [consumeProviderEvents] has not yet received.  For the
    proofs: the number of contents that the last finished refresh knew, that
    refresh with the manager before and after it, and whether a change was
    ignored while paused. *)
Record sys := {
  y_queue : qstate (fres unit);
  y_manager : manager T;
  y_contents : list C;
  y_owed : nat;
  y_loaded : option nat;
  y_seen : nat;
  y_last : option (manager T * manager T);
  y_missed : bool;
}.

Definition version (s : sys) : nat := length (y_contents s).

Definition with_queue (s : sys) (q : qstate (fres unit)) (owed : nat) (missed : bool) : sys :=
  {| y_queue := q; y_manager := y_manager s; y_contents := y_contents s; y_owed := owed; y_loaded := y_loaded s; y_seen := y_seen s;
     y_last := y_last s; y_missed := missed |}.

(** Triggers of providers, and the resync, have no caller. *)
Definition refreshing (x : option req) : bool := match x with Some r => negb (rq_waits r) | None => true end.

Definition request_of (x : option req) : @request T :=
  match x with
  | Some r => if rq_waits r then requests (rq_id r) else ReqReload (reasons (rq_id r)) "" []
  | None => ReqReload "provider:resync" "" []
  end.

(** Nothing but the shutdown cancels a refresh. *)
Definition undisturbed (x : option req) (closed : bool) (done : option ctx_error) (ctx : context) : Prop :=
  refreshing x = true → closed = false → done = None ∧ ∀ p, ctx p = None.

Definition loaded (s : sys) : sys :=
  {| y_queue := y_queue s; y_manager := y_manager s; y_contents := y_contents s; y_owed := y_owed s; y_loaded := Some (version s); y_seen := y_seen s;
     y_last := y_last s; y_missed := match q_writer (y_queue s) with Serving x => if refreshing x then false else y_missed s | _ => y_missed s end |}.

(** The end of a request that loaded the first [v] contents: the queue moves to
    [q], the manager to [m]. *)
Definition served (s : sys) (x : option req) (v : nat) (q : qstate (fres unit)) (m : manager T) : sys :=
  {| y_queue := q; y_manager := m; y_contents := y_contents s; y_owed := y_owed s; y_loaded := None;
     y_seen := if refreshing x then v else y_seen s;
     y_last := if refreshing x then Some (y_manager s, m) else y_last s; y_missed := y_missed s |}.

(** A request runs on what it loaded. *)
Definition runs (s : sys) (x : option req) (v : nat) (m : manager T) (res : fres unit) : Prop :=
  ∃ c done ctx effs, y_contents s !! pred v = Some c ∧ undisturbed x (q_closed (y_queue s)) done ctx
    ∧ runReloadRequest customEncoding (options_of c) (world_of c) (y_manager s) done ctx (request_of x) = (m, effs, res).

(** ** Steps *)

(** What the watchers and the writer do by themselves. *)
Inductive internal (s : sys) : sys → Prop :=
(** [consumeProviderEvents]: ignored while paused, queued, or dropped for a token. *)
| i_ignored n : y_owed s = S n → q_paused (y_queue s) = true → internal s (with_queue s (y_queue s) n true)
| i_queued n id : y_owed s = S n → fresh (y_queue s) id → length (q_ch (y_queue s)) < reloadChanCap →
    internal s (with_queue s (enqueue (y_queue s) {| rq_id := id; rq_waits := false |}) n (y_missed s))
| i_full n q : y_owed s = S n → length (q_ch (y_queue s)) = reloadChanCap →
    q = set_flags (y_queue s) (q_token (y_queue s)) (q_paused (y_queue s)) (q_closed (y_queue s)) (S (q_dropping (y_queue s))) true false →
    internal s (with_queue s q n (y_missed s))
| i_token n q : q_dropping (y_queue s) = S n →
    q = set_flags (y_queue s) true (q_paused (y_queue s)) (q_closed (y_queue s)) n (q_behind (y_queue s)) (q_excused (y_queue s)) →
    internal s (with_queue s q (y_owed s) (y_missed s))
(** The writer: moves, and a request in three steps. *)
| i_writer q : (∀ x, q_writer (y_queue s) ≠ Serving x) → writer_step (y_queue s) q →
    internal s (with_queue s q (y_owed s) (y_missed s || match q_writer (y_queue s), q_writer q with Resync, Top => true | _, _ => false end))
| i_load x : q_writer (y_queue s) = Serving x → y_loaded s = None → internal s (loaded s)
| i_served r v m res : q_writer (y_queue s) = Serving (Some r) → y_loaded s = Some v → runs s (Some r) v m res →
    internal s (served s (Some r) v (goto (answer (y_queue s) r (Result res)) Tail) m)
| i_resynced v m res : q_writer (y_queue s) = Serving None → y_loaded s = Some v → runs s None v m res →
    internal s (served s None v (goto (y_queue s) Top) m).

(** What others do: a source changes and announces it; callers, spurious events,
    [Pause], [Resume] and [Close].  Events may be merged: after a change one waits
    at least, as the watches of [Streams] and [RemoteWatch] guarantee. *)
Inductive external (s : sys) : sys → Prop :=
| x_change c owed : y_owed s ≤ owed → 0 < owed → external s {| y_queue := y_queue s; y_manager := y_manager s; y_contents := y_contents s ++ [c];
    y_owed := owed; y_loaded := y_loaded s; y_seen := y_seen s; y_last := y_last s; y_missed := y_missed s |}
| x_env q : env_step (y_queue s) q → q_dropping (y_queue s) ≤ q_dropping q →
    external s (with_queue s q (y_owed s) (y_missed s || (q_token (y_queue s) && negb (q_token q)))).

Definition sys_step (s s' : sys) : Prop := internal s s' ∨ external s s'.

(** A manager [m] that was built from the content [c]. *)
Definition built (m : manager T) (c : C) : sys :=
  {| y_queue := ReloadQueue.init; y_manager := m; y_contents := [c]; y_owed := 0; y_loaded := None; y_seen := 1; y_last := None; y_missed := false |}.

(** Nothing is left to do. *)
Definition quiet (s : sys) : Prop :=
  y_owed s = 0 ∧ q_dropping (y_queue s) = 0 ∧ q_writer (y_queue s) = Select ∧ q_ch (y_queue s) = [] ∧ q_token (y_queue s) = false.

(** ** The invariant *)

(** What is left to do when a content is newer than the last refresh. *)
Definition on_its_way (s : sys) : Prop :=
  0 < y_owed s ∨ (∃ r, r ∈ q_ch (y_queue s) ∧ rq_waits r = false)
  ∨ (∃ x, q_writer (y_queue s) = Serving x ∧ refreshing x = true ∧ (y_loaded s = None ∨ y_loaded s = Some (version s)))
  ∨ q_token (y_queue s) = true ∨ 0 < q_dropping (y_queue s) ∨ q_writer (y_queue s) = Resync
  ∨ y_missed s = true ∨ q_closed (y_queue s) = true.

(** A request of a caller takes the manager from one state to the other. *)
Definition caller_run (m m' : manager T) : Prop :=
  ∃ c done ctx id effs res, runReloadRequest customEncoding (options_of c) (world_of c) m done ctx (requests id) = (m', effs, res).

(** The last refresh ran on the first [y_seen] contents. *)
Definition refreshed (s : sys) : Prop :=
  match y_last s with
  | None => y_seen s = 1
  | Some (before, after) =>
      ∃ c done ctx reason effs res, y_contents s !! pred (y_seen s) = Some c
      ∧ (q_closed (y_queue s) = false → done = None ∧ ∀ p, ctx p = None)
      ∧ runReloadRequest customEncoding (options_of c) (world_of c) before done ctx (ReqReload reason "" []) = (after, effs, res)
      ∧ rtc caller_run after (y_manager s)
  end.

Record sys_ok (s : sys) : Prop := {
  so_queue : queue_ok (y_queue s);
  so_seen : 0 < y_seen s ≤ version s;
  so_loaded : ∀ v, y_loaded s = Some v → y_seen s ≤ v ≤ version s ∧ ∃ x, q_writer (y_queue s) = Serving x;
  so_way : y_seen s < version s → on_its_way s;
  so_last : refreshed s;
}.

Lemma env_frame (q q' : qstate (fres unit)) : env_step q q' →
  q_writer q' = q_writer q ∧ (∃ more, q_ch q' = q_ch q ++ more) ∧ (q_closed q = true → q_closed q' = true).
Proof. intros Hs. destruct Hs; (split_and!; [done| |done]); simpl; try (by exists []; rewrite app_nil_r); by eexists. Qed.

Lemma writer_closed (q q' : qstate (fres unit)) : writer_step q q' → q_closed q' = q_closed q.
Proof. by intros []. Qed.

(** A change of the queue that does not move the writer, and drops neither a token
    nor an event that is about to leave one without saying so. *)
Lemma with_queue_ok s q owed missed : sys_ok s → queue_ok q → q_writer q = q_writer (y_queue s) →
  (∃ more, q_ch q = q_ch (y_queue s) ++ more) → (q_closed (y_queue s) = true → q_closed q = true) →
  (y_owed s ≤ owed ∨ missed = true ∨ 0 < q_dropping q ∨ ∃ r, r ∈ q_ch q ∧ rq_waits r = false) →
  (q_token (y_queue s) = true → q_token q = true ∨ missed = true) →
  (0 < q_dropping (y_queue s) → 0 < q_dropping q ∨ q_token q = true) →
  (y_missed s = true → missed = true) → sys_ok (with_queue s q owed missed).
Proof.
  intros [Hq Hseen Hload Hway Hlast] Hq' Hw (more & Hch) Hcl Howed Htok Hdrop Hmiss.
  split; [done|done| | |].
  - intros v Hv. destruct (Hload v Hv) as (? & x & Hx). split; [done|]. exists x. by rewrite <-Hx.
  - intros Hlt. unfold on_its_way. cbn [with_queue y_owed y_queue y_loaded y_missed].
    destruct Howed as [Hle|[->|[Hd|Hr]]]; [|tauto..].
    destruct (Hway Hlt) as [?|[(r & Hr & Hrw)|[(x & Hx & ?)|[Ht%Htok|[Hd%Hdrop|[Hr|[?%Hmiss|?%Hcl]]]]]]]; try tauto.
    + left. lia.
    + right; left. exists r. rewrite Hch, elem_of_app. tauto.
    + do 2 right; left. exists x. by rewrite Hw.
    + do 5 right; left. by rewrite Hw.
  - unfold refreshed in *. cbn [with_queue y_last y_seen y_contents y_queue y_manager]. destruct (y_last s) as [[before after]|]; [|done].
    destruct Hlast as (c & done & ctx & reason & effs & res & Hc & Hd & Hrun & Hsince). exists c, done, ctx, reason, effs, res. split_and!; try done.
    intros Hc'. apply Hd. destruct (q_closed (y_queue s)); [|done]. by rewrite Hcl in Hc'.
Qed.

Lemma external_ok s s' : external s s' → sys_ok s → sys_ok s'.
Proof.
  intros Hs Hok. destruct Hs as [c owed Hge Howed|q Hstep Hdrop].
  - destruct Hok as [Hq Hseen Hload Hway Hlast]. split; cbn; [done|unfold version in *; cbn; rewrite length_app; cbn; lia| | |].
    + intros v Hv. destruct (Hload v Hv) as [Hle Hx]. split; [|done]. unfold version in *. cbn. rewrite length_app. cbn. lia.
    + intros _. left. exact Howed.
    + unfold refreshed in *. cbn. destruct (y_last s) as [[before after]|]; [|done].
      destruct Hlast as (c' & done & ctx & reason & effs & res & Hc & Hrest). exists c', done, ctx, reason, effs, res. split; [|done].
      by apply lookup_app_l_Some.
  - destruct (env_frame _ _ Hstep) as (Hw & Hch & Hcl). apply with_queue_ok; try done.
    + eapply env_ok; [apply Hok|done].
    + by left.
    + intros ->. destruct (q_token q); [by left|right]. by rewrite orb_true_r.
    + intros ?. left. lia.
    + by intros ->.
Qed.

Lemma loaded_ok s x : q_writer (y_queue s) = Serving x → sys_ok s → sys_ok (loaded s).
Proof.
  intros Hx [Hq Hseen Hload Hway Hlast]. split; [done|done| | |done].
  - intros v [= <-]. split; [cbn; unfold version in *; lia|by exists x].
  - intros Hlt. unfold on_its_way. cbn [loaded y_owed y_queue y_loaded y_missed]. rewrite Hx. destruct (refreshing x) eqn:Hr.
    + do 2 right; left. exists x. split_and!; [done..|by right].
    + destruct (Hway Hlt) as [?|[?|[(x' & Hx' & Hr' & _)|Hrest]]]; [tauto..| |]; [congruence|]. rewrite Hx in Hrest. tauto.
Qed.

(** A move of the writer takes what it finds, or leaves it. *)
Lemma writer_way s q : sys_ok s → (∀ x, q_writer (y_queue s) ≠ Serving x) → writer_step (y_queue s) q →
  on_its_way s →
  on_its_way (with_queue s q (y_owed s) (y_missed s || match q_writer (y_queue s), q_writer q with Resync, Top => true | _, _ => false end)).
Proof.
  intros Hok Hns Hstep Hway. assert (y_loaded s = None) as Hl.
  { destruct (y_loaded s) as [v|] eqn:Hv; [|done]. destruct (so_loaded s Hok v Hv) as (_ & x & Hx). by destruct (Hns x). }
  unfold on_its_way in *. cbn [with_queue y_owed y_queue y_loaded y_missed].
  pose proof (ok_exited _ (so_queue _ Hok)) as Hex.
  assert (∀ x, q_writer (y_queue s) = Serving x → False) as Hns' by (intros x Hx; by apply (Hns x)).
  destruct Hstep as [Hw Hc|Hw Hc|r ch Hw Hch|Hw Hch|Hw Hc|r ch Hw Hch|Hw Ht|Hw Ht|Hw Ht|Hw Hp|Hw Hp|r res Hw|Hw|r ch Hw Hch|Hw Hch];
    rewrite Hw in *; cbn [goto take_req answer set_flags q_writer q_ch q_token q_dropping q_closed] in *.
  1, 5, 14, 15: do 7 right; first [done|by apply Hex; [left|right]|apply Hex; by left|apply Hex; by right].
  10, 11: exfalso; by eapply Hns'.
  all: destruct Hway as [?|[(r' & Hin & Hr')|[(x & [=] & _)|[?|[?|[Hrs|[Hm|?]]]]]]]; try tauto; try discriminate.
  all: try (rewrite Hm; tauto).
  all: try (rewrite Hch in Hin; apply elem_of_cons in Hin as [->|Hin]; [do 2 right; left; exists (Some r); rewrite Hl; cbn; rewrite Hr'; tauto|]).
  all: try (right; left; by exists r').
  all: try (do 6 right; left; by rewrite orb_true_r).
  all: try congruence.
  all: do 2 right; left; exists None; rewrite Hl; tauto.
Qed.

Lemma writer_move_ok s q : sys_ok s → (∀ x, q_writer (y_queue s) ≠ Serving x) → writer_step (y_queue s) q →
  sys_ok (with_queue s q (y_owed s) (y_missed s || match q_writer (y_queue s), q_writer q with Resync, Top => true | _, _ => false end)).
Proof.
  intros Hok Hns Hstep. pose proof Hok as [Hq Hseen Hload Hway Hlast]. split; [by eapply writer_ok|done| | |].
  - intros v Hv. destruct (Hload v Hv) as (_ & x & Hx). by destruct (Hns x).
  - intros Hlt. apply writer_way; [done..|]. by apply Hway.
  - unfold refreshed in *. cbn. destruct (y_last s) as [[before after]|]; [|done]. by rewrite (writer_closed _ _ Hstep).
Qed.

(** The end of a request. *)
Lemma served_sys_ok s x v q m res : sys_ok s → q_writer (y_queue s) = Serving x → y_loaded s = Some v → runs s x v m res →
  queue_ok q → q_ch q = q_ch (y_queue s) → q_token q = q_token (y_queue s) → q_dropping q = q_dropping (y_queue s) →
  q_closed q = q_closed (y_queue s) → sys_ok (served s x v q m).
Proof.
  intros [Hq Hseen Hload Hway Hlast] Hx Hv Hrun Hq' Hch Ht Hd Hc. destruct (Hload v Hv) as [Hle _]. split.
  - done.
  - cbn. unfold version in *. cbn. destruct (refreshing x); lia.
  - done.
  - intros Hlt. unfold on_its_way. cbn [served y_owed y_queue y_loaded y_missed]. rewrite Hch, Ht, Hd, Hc.
    assert (y_seen s < version s) as Hlt'. { unfold version in *. cbn in Hlt. destruct (refreshing x); lia. }
    destruct (Hway Hlt') as [?|[?|[(x' & Hx' & Hr & Hl)|[?|[?|[?|?]]]]]]; try tauto; [|congruence]. exfalso.
    assert (x' = x) as -> by congruence. rewrite Hv in Hl. destruct Hl as [|[= ->]]; [done|].
    unfold version in Hlt. cbn in Hlt. rewrite Hr in Hlt. unfold version in Hlt. lia.
  - destruct Hrun as (c & done & ctx & effs & Hc' & Hd' & Hrun). unfold refreshed. cbn. destruct (refreshing x) eqn:Hr.
    + assert (∃ reason, request_of x = ReqReload reason "" []) as [reason Hreq].
      { destruct x as [r|]; [|by eexists]. cbn in *. destruct (rq_waits r); [done|by eexists]. }
      exists c, done, ctx, reason, effs, res. rewrite Hc. split_and!; [done|by intros Hcl; apply Hd'|by rewrite <-Hreq|reflexivity].
    + unfold refreshed in Hlast. destruct (y_last s) as [[before after]|]; [|done].
      destruct Hlast as (c1 & done1 & ctx1 & reason & effs1 & res1 & Hc1 & Hd1 & Hrun1 & Hsince).
      exists c1, done1, ctx1, reason, effs1, res1. rewrite Hc. split_and!; [done..|]. eapply rtc_r; [exact Hsince|].
      destruct x as [r|]; [|done]. cbn in *. destruct (rq_waits r); [|done]. by exists c, done, ctx, (rq_id r), effs, res.
Qed.

Lemma internal_ok s s' : internal s s' → sys_ok s → sys_ok s'.
Proof.
  intros Hs Hok. pose proof (so_queue _ Hok) as Hq.
  destruct Hs as [n Hn Hp|n id Hn Hf Hlt|n q Hn Hfull ->|n q Hn ->|q Hns Hstep|x Hx Hl|r v m res Hw Hl Hrun|v m res Hw Hl Hrun].
  - apply with_queue_ok; try done; [by exists []; rewrite app_nil_r|by right; left|by left|by left].
  - apply with_queue_ok; try done; [by apply (env_ok _ _ Hq), e_provider_send|by eexists| |by left|by left].
    do 3 right. eexists. split; [cbn; apply elem_of_app; right; left|done].
  - apply with_queue_ok; try done; [by apply (env_ok _ _ Hq), e_provider_full|by exists []; rewrite app_nil_r| |by left|cbn; left; lia].
    right; right; left. cbn. lia.
  - apply with_queue_ok; try done; [by apply (env_ok _ _ Hq), e_provider_token|by exists []; rewrite app_nil_r|by left|by left|by right].
  - by apply writer_move_ok.
  - by eapply loaded_ok.
  - eapply served_sys_ok; try done. by apply served_ok.
  - eapply served_sys_ok; try done. by eapply writer_ok, w_resynced.
Qed.

Lemma built_ok m c : sys_ok (built m c).
Proof. split; cbn; [apply init_ok|unfold version; cbn; lia|done|unfold version; cbn; lia|done]. Qed.

Lemma reachable_sys_ok m c s : rtc sys_step (built m c) s → sys_ok s.
Proof.
  intros Hs. pose proof (built_ok m c) as Hok. revert Hok. induction Hs as [|s s1 s2 [Hs|Hs] _ IH]; [done|intros Hok; apply IH..].
  - by eapply internal_ok.
  - by eapply external_ok.
Qed.

(** ** Coming to rest *)

Definition phase (s : sys) : nat :=
  match q_writer (y_queue s) with
  | Select => 0 | TryRecv => 1 | Top => 2 | Tail => 3
  | Serving _ => if y_loaded s then 4 else 5
  | Resync => 6 | Draining | Exited => 0
  end.

Definition work (s : sys) : nat :=
  11 * y_owed s + 10 * q_dropping (y_queue s) + 8 * length (q_ch (y_queue s)) + (if q_token (y_queue s) then 7 else 0) + phase s.

Lemma internal_closed s s' : internal s s' → q_closed (y_queue s') = q_closed (y_queue s).
Proof. intros [n|n id|n q Hn Hf ->|n q Hn ->|q Hns Hstep|x Hx Hl|r v m res|v m res]; try done. by apply writer_closed in Hstep. Qed.

(** Every step of the watchers and the writer leaves less to do. *)
Lemma internal_work s s' : sys_ok s → q_closed (y_queue s) = false → internal s s' → work s' < work s.
Proof.
  intros Hok Hc Hs. pose proof (ok_exited _ (so_queue _ Hok)) as Hex. unfold work, phase.
  destruct Hs as [n Hn Hp|n id Hn Hf Hlt|n q Hn Hfull ->|n q Hn ->|q Hns Hstep|x Hx Hl|r v m res Hw Hl Hrun|v m res Hw Hl Hrun];
    cbn [with_queue loaded served y_owed y_queue y_loaded goto answer enqueue set_flags q_writer q_ch q_token q_dropping].
  - rewrite Hn. lia.
  - rewrite Hn, length_app. cbn. lia.
  - rewrite Hn. lia.
  - rewrite Hn. destruct (q_token _); lia.
  - assert (y_loaded s = None) as ->.
    { destruct (y_loaded s) as [v|] eqn:Hv; [|done]. destruct (so_loaded s Hok v Hv) as (_ & x & Hx). by destruct (Hns x). }
    destruct Hstep as [Hw ?|Hw ?|r ch Hw Hch|Hw Hch|Hw ?|r ch Hw Hch|Hw Ht|Hw Ht|Hw Ht|Hw Hp|Hw Hp|r res Hw|Hw|r ch Hw Hch|Hw Hch];
      try congruence; try (by destruct (Hns _ Hw)); try (rewrite Hex in Hc by auto; done);
      cbn [goto take_req set_flags q_writer q_ch q_token q_dropping]; rewrite Hw; rewrite ?Ht, ?Hch; cbn; lia.
  - rewrite Hx, Hl. destruct (q_token _); lia.
  - rewrite Hw, Hl. lia.
  - rewrite Hw, Hl. lia.
Qed.

Lemma fresh_exists (q : qstate (fres unit)) : ∃ id, fresh q id.
Proof.
  set (used := dom (q_callers q) ∪ list_to_set (q_accepted q) : gset N). exists (base.fresh used).
  pose proof (is_fresh used) as Hf. unfold used in Hf at 2. rewrite not_elem_of_union, elem_of_list_to_set in Hf. destruct Hf as [Hf1 Hf2].
  split; [by apply not_elem_of_dom|done].
Qed.

(** They can always take one, unless nothing is left to do. *)
Lemma internal_progress s : sys_ok s → q_closed (y_queue s) = false → ¬ quiet s → ∃ s', internal s s'.
Proof.
  intros Hok Hc Hq. pose proof (so_queue _ Hok) as Hqok.
  destruct (y_owed s) as [|n] eqn:Hn.
  2: { destruct (decide (length (q_ch (y_queue s)) < reloadChanCap)) as [Hlt|Hge].
       - destruct (fresh_exists (y_queue s)) as [id Hid]. eexists. by eapply i_queued.
       - pose proof (ok_bound _ Hqok). eexists. eapply i_full; [done|lia|reflexivity]. }
  destruct (q_dropping (y_queue s)) as [|n] eqn:Hd; [|eexists; by eapply i_token].
  assert ((∃ x, q_writer (y_queue s) = Serving x) ∨ ∀ x, q_writer (y_queue s) ≠ Serving x) as [[x Hx]|Hns].
  { destruct (q_writer (y_queue s)) as [| | |x| | | |]; try (right; done). left. by exists x. }
  - destruct (y_loaded s) as [v|] eqn:Hl; [|eexists; by eapply i_load].
    destruct (so_loaded s Hok v Hl) as [Hv _]. pose proof (so_seen s Hok) as Hseen.
    destruct (lookup_lt_is_Some_2 (y_contents s) (pred v)) as [c Hcc]; [unfold version in *; lia|].
    destruct (runReloadRequest customEncoding (options_of c) (world_of c) (y_manager s) None (λ _, None) (request_of x)) as [[m effs] res] eqn:Hrun.
    assert (runs s x v m res) as Hr by (exists c, None, (λ _, None), effs; by split_and!).
    destruct x as [r|]; eexists; [by eapply i_served|by eapply i_resynced].
  - destruct (writer_progress (y_queue s) (Ok tt) Hqok) as [[q Hstep]|[Hx|(Hw & Hch & Ht & _)]].
    + eexists. by eapply i_writer.
    + rewrite (ok_exited _ Hqok) in Hc by auto. done.
    + destruct Hq. by split_and!.
Qed.
End convergence.

(** ** Properties *)

(** C8: convergence.  A manager whose sources announce their changes catches up with
    them by itself, as long as it is not closed.  The watchers and the writer can
    always go on until nothing is left to do, and come to that point after
    boundedly many steps of theirs in any order, whatever is in the queue,
    overflow included.  Then, unless a change was ignored while paused and not
    loaded since, the last refresh ran, undisturbed, on what the sources hold
    now, and only requests of callers changed the manager since. *)
Theorem manager_converges `{GoStd} `{GoJson} `{Codecs} {T} `{Target T} {C : Type} (customEncoding : bool) (options_of : C → options T)
    (world_of : C → world) (requests : N → @request T) (reasons : N → string) (m : manager T) (c : C) (s : sys)
    (Hs : rtc (sys_step customEncoding options_of world_of requests reasons) (built m c) s) (Hopen : q_closed (y_queue s) = false) :
  let internal := internal customEncoding options_of world_of requests reasons in
  (∀ n s', nsteps internal n s s' → n ≤ work s)
  ∧ (¬ quiet s → ∃ s', internal s s')
  ∧ (quiet s → y_missed s = false →
       y_last s = None ∧ length (y_contents s) = 1
       ∨ ∃ current before after ctx reason effs res, last (y_contents s) = Some current ∧ y_last s = Some (before, after)
         ∧ runReloadRequest customEncoding (options_of current) (world_of current) before None ctx (ReqReload reason "" []) = (after, effs, res)
         ∧ (∀ p, ctx p = None)
         ∧ rtc (caller_run customEncoding options_of world_of requests) after (y_manager s)).
Proof.
  apply reachable_sys_ok in Hs as Hok. intros internal. split_and!.
  - intros n s' Hn. clear Hs. induction Hn as [s|n s s1 s2 Hst Hn IH]; [lia|].
    assert (work s1 < work s) by (by eapply internal_work). assert (n ≤ work s1); [|lia].
    apply IH; [by rewrite (internal_closed _ _ _ _ _ _ _ Hst)|by eapply internal_ok].
  - by apply internal_progress.
  - intros (Howed & Hdrop & Hw & Hch & Ht) Hmiss. destruct Hok as [Hq Hseen Hload Hway Hlast].
    assert (y_seen s = version s) as Hcur.
    { destruct (decide (y_seen s < version s)) as [Hlt|]; [exfalso|lia]. destruct (Hway Hlt) as [?|[(r & Hr & _)|[(x & Hx & _)|[?|[?|[?|[?|?]]]]]]]; try congruence; try lia.
      rewrite Hch in Hr. by apply not_elem_of_nil in Hr. }
    unfold refreshed in Hlast. rewrite Hcur in Hlast. destruct (y_last s) as [[before after]|]; [right|by left].
    destruct Hlast as (c' & done & ctx & reason & effs & res & Hc & Hd & Hrun & Hsince). destruct (Hd Hopen) as [-> Hctx].
    exists c', before, after, ctx, reason, effs, res. split_and!; [by rewrite last_lookup|done..].
Qed.

(** One provider that holds a host name. *)
Definition host_options (host : string) : options string := {|
  o_Dir := "etc"; o_FS := None; o_SkipDiscovery := true; o_ProfileNames := []; o_ProfileMatch := "";
  o_ProfileEnv := ""; o_ProfileDefault := ""; o_Strict := false;
  o_Providers := [{| pe_Name := "kv"; pe_Priority := 30%Z;
                     pe_Load := Ok {| ps_Map := Some {[ "host" := VString host ]}; ps_Revision := host; ps_Stale := false |} |}]; o_Axes := [];
  o_Validators := []; o_Transforms := []; o_Provenance := Full; o_HistoryCap := 2;
  o_YAMLBridge := false; o_UnknownFields := UnknownIgnore; o_Policies := []; o_SecretResolver := None;
  o_Generators := []; o_TypedHooks := 0; o_MergeKeys := ∅; o_Observers := 1; o_Tenant := "";
|}.

(** The source changes from one name to another. *)
Lemma manager_converges_witness :
  ∃ s : @sys string string, quiet s ∧ (∃ before after, y_last s = Some (before, after))
    ∧ (st_value <$> mg_state (y_manager s)) = Some "two".
Proof.
  set (step := @sys_step example_std example_json example_codecs string example_target string true host_options (λ _, example_world)
    (λ _, ReqPlan "") (λ _, "provider:kv")).
  set (m := newManager (host_options "one")).
  assert (∃ s, rtc step (built m "one") s ∧ quiet s ∧ y_missed s = false ∧ q_closed (y_queue s) = false ∧ length (y_contents s) = 2
    ∧ (st_value <$> mg_state (y_manager s)) = Some "two") as (s & Hs & Hq & Hmiss & Hopen & Hlen & Hval).
  { eexists. split; [|split; [|split; [|split; [|split]]]].
    - eapply rtc_l; [right; apply (x_change _ "two" 1); cbn; lia|]. cbn.
      eapply rtc_l; [left; eapply (i_queued _ _ _ _ _ _ 0 7%N); [reflexivity|split; [reflexivity|apply not_elem_of_nil]|cbn; unfold reloadChanCap; lia]|]. cbn.
      eapply rtc_l; [left; eapply i_writer; [discriminate|by apply w_top]|]. cbn.
      eapply rtc_l; [left; eapply i_writer; [discriminate|by eapply w_try_recv]|]. cbn.
      eapply rtc_l; [left; by eapply i_load|]. cbn.
      eapply rtc_l; [left; eapply i_served; [reflexivity|reflexivity|]|].
      { exists "two", None, never, (@runReloadRequest example_std example_json example_codecs string example_target true (host_options "two") example_world m None never (ReqReload "provider:kv" "" [])).1.2.
        split; [reflexivity|]. split; [by intros _ _|]. apply surjective_pairing_3. }
      cbn. eapply rtc_l; [left; eapply i_writer; [discriminate|by apply w_tail_empty]|]. cbn.
      eapply rtc_l; [left; eapply i_writer; [discriminate|by apply w_top]|]. cbn.
      eapply rtc_l; [left; eapply i_writer; [discriminate|by eapply w_try_empty]|]. cbn. apply rtc_refl.
    - by split_and!.
    - reflexivity.
    - reflexivity.
    - reflexivity.
    - vm_compute. reflexivity. }
  exists s. split; [exact Hq|]. split; [|exact Hval].
  destruct (@manager_converges example_std example_json example_codecs string example_target string true host_options (λ _, example_world) (λ _, ReqPlan "") (λ _, "provider:kv") m "one" s Hs Hopen) as (_ & _ & Hc).
  destruct (Hc Hq Hmiss) as [[_ Hl]|(current & before & after & ctx & reason & effs & res & _ & Hlast & _)]; [rewrite Hlen in Hl; discriminate|].
  by exists before, after.
Defined.
