(* ===== verification/Streams.v ===== *)
(** * Streaming providers (examples/redisstream, examples/nats, contracts/providertest)

    The two reference providers that follow a stream: their constructors, the
    read loop over Redis Streams, the subscription of a NATS connection, and the
    document and events that both leave for the manager.  The clients are
    arguments; the order of stream ids is a parameter. *)
From S2P Require Import Prelude GoStrings Value CodecRegistry Codecs Options KVProviders Sources Watch.
Open Scope nat_scope.

(** ** What a stream leaves for the manager (internal/providerutil)

    The latest document, the channel of capacity 16 and the dropped counter of a
    watch.  For the proofs: the events offered and received so far, and what
    [Load] would give at the last receive. *)
Definition streamChanCap : nat := 16.

Record outlet := {
  ol_latest : Latest;
  ol_ch : list ProviderEvent;
  ol_dropped : nat;
  ol_offered : list ProviderEvent;
  ol_received : list ProviderEvent;
  ol_loaded : Latest;
}.

(** A fresh channel for a provider that holds [l]. *)
Definition new_outlet (l : Latest) : outlet :=
  {| ol_latest := l; ol_ch := []; ol_dropped := 0; ol_offered := []; ol_received := []; ol_loaded := l |}.

Definition outlet_store (o : outlet) (m : gomap) (rev : string) : outlet :=
  {| ol_latest := Store (ol_latest o) m rev; ol_ch := ol_ch o; ol_dropped := ol_dropped o; ol_offered := ol_offered o;
     ol_received := ol_received o; ol_loaded := ol_loaded o |}.

(** [if !providerutil.Offer(out, ev) { p.dropped.Add(1) }], on a 64-bit counter
    that is assumed not to wrap. *)
Definition outlet_offer (o : outlet) (ev : ProviderEvent) : outlet :=
  let '(ch, sent) := Offer streamChanCap (ol_ch o) ev in
  {| ol_latest := ol_latest o; ol_ch := ch; ol_dropped := if sent then ol_dropped o else S (ol_dropped o); ol_offered := ol_offered o ++ [ev];
     ol_received := ol_received o; ol_loaded := ol_loaded o |}.

(** The manager receives an event, and loads no earlier than that. *)
Definition outlet_receive (o : outlet) : outlet :=
  match ol_ch o with
  | [] => o
  | ev :: ch => {| ol_latest := ol_latest o; ol_ch := ch; ol_dropped := ol_dropped o; ol_offered := ol_offered o;
                   ol_received := ol_received o ++ [ev]; ol_loaded := ol_latest o |}
  end.

(** What the manager registers: [Load] never fails. *)
Definition stream_entry (name : string) (priority : Z) (o : outlet) : providerEntry :=
  let '(m, rev, stale) := Latest_Snapshot (ol_latest o) in
  {| pe_Name := name; pe_Priority := priority; pe_Load := Ok {| ps_Map := Some m; ps_Revision := rev; ps_Stale := stale |} |}.

(** ** Redis Streams (redisstream.go) *)

Record Entry := { en_ID : string; en_Fields : gmap string string }.

Record redis_provider := {
  rp_name : string;
  rp_stream : string;
  rp_priority : Z;
  rp_codec : decoder;
  rp_block : Z;
  rp_payloadField : string;
}.

Definition redis_Option : Type := redis_provider → redis_provider.

Definition redis_WithPriority (n : Z) : redis_Option := λ p,
  {| rp_name := rp_name p; rp_stream := rp_stream p; rp_priority := n; rp_codec := rp_codec p; rp_block := rp_block p;
     rp_payloadField := rp_payloadField p |}.
Definition redis_WithBlock (d : Z) : redis_Option := λ p,
  {| rp_name := rp_name p; rp_stream := rp_stream p; rp_priority := rp_priority p; rp_codec := rp_codec p; rp_block := d;
     rp_payloadField := rp_payloadField p |}.
Definition redis_WithPayloadField (name : string) : redis_Option := λ p,
  {| rp_name := rp_name p; rp_stream := rp_stream p; rp_priority := rp_priority p; rp_codec := rp_codec p; rp_block := rp_block p;
     rp_payloadField := name |}.

(** [New]; [client] says whether there is one. *)
Definition redis_New (name stream : string) (codec : option decoder) (client : bool) (opts : list redis_Option) : result string redis_provider :=
  if String.eqb name "" then Err "fastconf/redisstream: provider name is required"
  else if String.eqb stream "" then Err "fastconf/redisstream: stream is required"
  else match codec with
       | None => Err "fastconf/redisstream: codec is required"
       | Some codec =>
           if negb client then Err "fastconf/redisstream: client is required"
           else Ok (foldl (λ p (opt : redis_Option), opt p)
                  {| rp_name := name; rp_stream := stream; rp_priority := PriorityKV; rp_codec := codec; rp_block := 5000000000;
                     rp_payloadField := "payload" |} opts)
       end.

(** The document of an entry, if it has the field and the field decodes. *)
Definition entry_payload (p : redis_provider) (e : Entry) : option gomap :=
  raw ← en_Fields e !! rp_payloadField p;
  match rp_codec p raw with Ok m => Some m | Err _ => None end.

Definition entry_event (e : Entry) : ProviderEvent := {| pe_Reason := "redis-streams"; pe_Revision := en_ID e; pe_Gap := false |}.

(** Where the goroutine of [loop] is.  [Reading n] is a call of [XRead] that was
    made when the stream had [n] entries; [Handling] has the rest of a batch;
    [Offering] stored a document and is about to offer its event. *)
Inductive loop_phase := Top | Reading (start : nat) | Handling (es : list Entry) | Offering (ev : ProviderEvent) (es : list Entry) | BackOff | Stopped.

(** [rw_log] is the stream, oldest entry first; [rw_consumed] has the entries
    handled so far. *)
Record redis_watch := {
  rw_log : list Entry;
  rw_cancelled : bool;
  rw_lastID : string;
  rw_phase : loop_phase;
  rw_out : outlet;
  rw_consumed : list Entry;
}.

Definition goto (s : redis_watch) (ph : loop_phase) : redis_watch :=
  {| rw_log := rw_log s; rw_cancelled := rw_cancelled s; rw_lastID := rw_lastID s; rw_phase := ph; rw_out := rw_out s; rw_consumed := rw_consumed s |}.

Definition with_out (s : redis_watch) (o : outlet) (ph : loop_phase) : redis_watch :=
  {| rw_log := rw_log s; rw_cancelled := rw_cancelled s; rw_lastID := rw_lastID s; rw_phase := ph; rw_out := o; rw_consumed := rw_consumed s |}.

(** [Watch] on a stream that holds [log], by a provider that holds [l]. *)
Definition redis_Watch (l : Latest) (log : list Entry) (from : string) : redis_watch :=
  {| rw_log := log; rw_cancelled := false; rw_lastID := if String.eqb from "" then "$" else from; rw_phase := Top;
     rw_out := new_outlet l; rw_consumed := [] |}.

(** The body of the inner loop up to the event, for the first entry of a batch. *)
Definition handle (p : redis_provider) (s : redis_watch) (e : Entry) (es : list Entry) : redis_watch :=
  let next o ph := {| rw_log := rw_log s; rw_cancelled := rw_cancelled s; rw_lastID := en_ID e; rw_phase := ph; rw_out := o;
                      rw_consumed := rw_consumed s ++ [e] |} in
  match entry_payload p e with
  | None => next (rw_out s) (Handling es)
  | Some m => next (outlet_store (rw_out s) m (en_ID e)) (Offering (entry_event e) es)
  end.

Section redis.
(** [newer a b]: the id [a] is greater than the id [b]. *)
Context (newer : string → string → bool) (p : redis_provider).

(** The entries after an id. *)
Definition after (id : string) (log : list Entry) : list Entry := filter (λ e, newer (en_ID e) id = true) log.

(** What [XRead] can return: the id [$] stands for the end of the stream at the
    time of the call. *)
Definition available (s : redis_watch) (start : nat) : list Entry :=
  if String.eqb (rw_lastID s) "$" then drop start (rw_log s) else after (rw_lastID s) (rw_log s).

Inductive loop_step (s : redis_watch) : redis_watch → Prop :=
| l_cancelled : rw_phase s = Top → rw_cancelled s = true → loop_step s (goto s Stopped)
| l_call : rw_phase s = Top → rw_cancelled s = false → loop_step s (goto s (Reading (length (rw_log s))))
(** [XRead] returns some of the entries, none when the block elapses, or an error. *)
| l_entries start es : rw_phase s = Reading start → es `prefix_of` available s start → loop_step s (goto s (Handling es))
| l_error_done start : rw_phase s = Reading start → rw_cancelled s = true → loop_step s (goto s Stopped)
| l_error start : rw_phase s = Reading start → rw_cancelled s = false → loop_step s (goto s BackOff)
| l_entry e es : rw_phase s = Handling (e :: es) → loop_step s (handle p s e es)
| l_batch : rw_phase s = Handling [] → loop_step s (goto s Top)
| l_offer ev es : rw_phase s = Offering ev es → loop_step s (with_out s (outlet_offer (rw_out s) ev) (Handling es))
| l_retry : rw_phase s = BackOff → loop_step s (goto s Top)
| l_retry_done : rw_phase s = BackOff → rw_cancelled s = true → loop_step s (goto s Stopped).

(** What others do: an entry is added under a new greatest id, the watch is
    cancelled, the manager receives. *)
Inductive other_step (s : redis_watch) : redis_watch → Prop :=
| o_added e : en_ID e ≠ "$" → (∀ e', e' ∈ rw_log s → newer (en_ID e) (en_ID e') = true) →
    other_step s {| rw_log := rw_log s ++ [e]; rw_cancelled := rw_cancelled s; rw_lastID := rw_lastID s; rw_phase := rw_phase s;
                    rw_out := rw_out s; rw_consumed := rw_consumed s |}
| o_cancel : other_step s {| rw_log := rw_log s; rw_cancelled := true; rw_lastID := rw_lastID s; rw_phase := rw_phase s;
                             rw_out := rw_out s; rw_consumed := rw_consumed s |}
| o_receive : other_step s (with_out s (outlet_receive (rw_out s)) (rw_phase s)).

Definition redis_step (s s' : redis_watch) : Prop := loop_step s s' ∨ other_step s s'.
End redis.

(** ** NATS (nats.go) *)

Record Msg := { ms_Subject : string; ms_Data : string; ms_Revision : string }.

Record nats_provider := { np_name : string; np_subject : string; np_priority : Z; np_codec : decoder }.

Definition nats_Option : Type := nats_provider → nats_provider.

Definition nats_WithPriority (n : Z) : nats_Option := λ p,
  {| np_name := np_name p; np_subject := np_subject p; np_priority := n; np_codec := np_codec p |}.

(** [New]; [conn] says whether there is one. *)
Definition nats_New (name subject : string) (codec : option decoder) (conn : bool) (opts : list nats_Option) : result string nats_provider :=
  if String.eqb name "" then Err "fastconf/nats: provider name is required"
  else if String.eqb subject "" then Err "fastconf/nats: subject is required"
  else match codec with
       | None => Err "fastconf/nats: codec is required"
       | Some codec =>
           if negb conn then Err "fastconf/nats: conn is required"
           else Ok (foldl (λ p (opt : nats_Option), opt p) {| np_name := name; np_subject := subject; np_priority := PriorityKV; np_codec := codec |} opts)
       end.

(** A subscription: [sb_gap] is [pendingGap], and [sb_offering] the event of a
    running handler.  [sb_messages] has the messages delivered so far. *)
Record subscription := {
  sb_gap : bool;
  sb_offering : option ProviderEvent;
  sb_closed : bool;
  sb_out : outlet;
  sb_messages : list Msg;
}.

(** [subscribe], with the error of the connection if there is one. *)
Definition subscribe (l : Latest) (gap : bool) (conn_err : option string) : result string subscription :=
  match conn_err with
  | Some e => Err e
  | None => Ok {| sb_gap := gap; sb_offering := None; sb_closed := false; sb_out := new_outlet l; sb_messages := [] |}
  end.

(** [Watch]: [resume] and [cold] are what [SubscribeFrom] and [Subscribe] answer. *)
Definition nats_Watch (l : Latest) (from : string) (resume cold : option string) : result string subscription :=
  if String.eqb from "" then subscribe l false cold
  else match subscribe l false resume with
       | Ok s => Ok s
       | Err _ => subscribe l true cold
       end.

Definition message_event (gap : bool) (m : Msg) : ProviderEvent := {| pe_Reason := "nats-push"; pe_Revision := ms_Revision m; pe_Gap := gap |}.

(** The handler up to the offer of the event, and the offer. *)
Definition nats_handler (p : nats_provider) (s : subscription) (m : Msg) : subscription :=
  let messages := sb_messages s ++ [m] in
  match np_codec p (ms_Data m) with
  | Err _ => {| sb_gap := sb_gap s; sb_offering := sb_offering s; sb_closed := sb_closed s; sb_out := sb_out s; sb_messages := messages |}
  | Ok doc => {| sb_gap := false; sb_offering := Some (message_event (sb_gap s) m); sb_closed := sb_closed s;
                 sb_out := outlet_store (sb_out s) doc (ms_Revision m); sb_messages := messages |}
  end.

Definition nats_offer (s : subscription) (ev : ProviderEvent) : subscription :=
  {| sb_gap := sb_gap s; sb_offering := None; sb_closed := sb_closed s; sb_out := outlet_offer (sb_out s) ev; sb_messages := sb_messages s |}.

(** The connection calls the handler for one message at a time, and [Unsubscribe]
    waits for it. *)
Inductive nats_step (p : nats_provider) (s : subscription) : subscription → Prop :=
| n_message m : sb_closed s = false → sb_offering s = None → nats_step p s (nats_handler p s m)
| n_offer ev : sb_offering s = Some ev → nats_step p s (nats_offer s ev)
| n_receive : nats_step p s {| sb_gap := sb_gap s; sb_offering := sb_offering s; sb_closed := sb_closed s; sb_out := outlet_receive (sb_out s);
                               sb_messages := sb_messages s |}
| n_done : sb_offering s = None →
    nats_step p s {| sb_gap := sb_gap s; sb_offering := None; sb_closed := true; sb_out := sb_out s; sb_messages := sb_messages s |}.

(** ** Conformance (contracts/providertest) *)

(** [AssertProviderBasics]: the first failure it reports for a provider. *)
Definition AssertProviderBasics (p : option providerEntry) : option string :=
  match p with
  | None => Some "provider is nil"
  | Some p =>
      if String.eqb (pe_Name p) "" then Some "Provider.Name() is empty"
      else match pe_Load p with Ok _ => None | Err _ => Some "Provider.Load()" end
  end.

(** [waitClosed]: what its [select] finds, round by round; it fails on the timer. *)
Inductive wait_event := WaitReceived | WaitClosed | WaitTimer.

Fixpoint waitClosed (script : list wait_event) : option bool :=
  match script with
  | [] => None
  | WaitReceived :: script => waitClosed script
  | WaitClosed :: _ => Some true
  | WaitTimer :: _ => Some false
  end.

(** [AssertWatchClosesOnCancel]: whether it passes; [None] while it waits. *)
Definition AssertWatchClosesOnCancel (watches : bool) (watch : result string (option (list wait_event))) : option bool :=
  if negb watches then Some true
  else match watch with
       | Err _ => Some false
       | Ok None => Some true
       | Ok (Some script) => waitClosed script
       end.

(** ** Lemmas: the outlet *)

(** [storing]: a document was stored whose event is not yet offered. *)
Record outlet_ok (storing : bool) (o : outlet) : Prop := {
  oo_cap : length (ol_ch o) ≤ streamChanCap;
  oo_order : ol_received o ++ ol_ch o `sublist_of` ol_offered o;
  oo_count : length (ol_received o) + length (ol_ch o) + ol_dropped o = length (ol_offered o);
  oo_first : head (ol_received o ++ ol_ch o) = head (ol_offered o);
  oo_current : ol_ch o = [] → storing = false → ol_loaded o = ol_latest o;
}.

Lemma new_outlet_ok l storing : outlet_ok storing (new_outlet l).
Proof. by split; cbn; [unfold streamChanCap; lia|..]. Qed.

Lemma outlet_store_ok b o m rev : outlet_ok b o → outlet_ok true (outlet_store o m rev).
Proof. by intros []. Qed.

Lemma outlet_receive_ok b o : outlet_ok b o → outlet_ok b (outlet_receive o).
Proof.
  intros [Hcap Hord Hcnt Hfst Hcur]. unfold outlet_receive. destruct (ol_ch o) as [|ev ch] eqn:Hch; [by split; rewrite ?Hch|].
  cbn [length] in *. split; cbn; rewrite ?length_app, <-?(assoc_L app); cbn; try done; lia.
Qed.

Lemma outlet_offer_ok b o ev : outlet_ok b o → outlet_ok false (outlet_offer o ev).
Proof.
  intros [Hcap Hord Hcnt Hfst Hcur]. unfold outlet_offer, Offer. destruct (Nat.ltb_spec (length (ol_ch o)) streamChanCap) as [Hlt|Hge].
  - split; cbn; rewrite ?length_app; cbn [length].
    + lia.
    + rewrite (assoc_L app). by apply sublist_app.
    + lia.
    + rewrite (assoc_L app). destruct (ol_received o ++ ol_ch o), (ol_offered o); try done.
    + by destruct (ol_ch o).
  - split; cbn; rewrite ?length_app; cbn [length].
    + done.
    + by apply sublist_inserts_r.
    + lia.
    + rewrite Hfst. destruct (ol_offered o); [|done]. destruct (ol_received o), (ol_ch o); cbn in *; (done || lia || (unfold streamChanCap in *; lia)).
    + intros Hnil. rewrite Hnil in Hge. cbn in Hge. unfold streamChanCap in Hge. lia.
Qed.

Lemma outlet_offer_frame o ev : ol_latest (outlet_offer o ev) = ol_latest o ∧ ol_offered (outlet_offer o ev) = ol_offered o ++ [ev].
Proof. unfold outlet_offer. by destruct (Offer _ _ _). Qed.

Lemma outlet_receive_frame o : ol_latest (outlet_receive o) = ol_latest o ∧ ol_offered (outlet_receive o) = ol_offered o.
Proof. unfold outlet_receive. by destruct (ol_ch o). Qed.

(** ** Lemmas: Redis *)

Section redis_facts.
Context (newer : string → string → bool) (p : redis_provider).
Context (newer_irrefl : ∀ a, newer a a = false) (newer_trans : ∀ a b c, newer a b = true → newer b c = true → newer a c = true).

Definition ordered (log : list Entry) : Prop := StronglySorted (λ a b, newer (en_ID b) (en_ID a) = true) log ∧ Forall (λ e, en_ID e ≠ "$") log.

Lemma ordered_snoc log e : ordered log → en_ID e ≠ "$" → (∀ e', e' ∈ log → newer (en_ID e) (en_ID e') = true) → ordered (log ++ [e]).
Proof using Type.
  intros [Hs Hf] He Hn. split; [|apply Forall_app; split; [done|by constructor]].
  induction log as [|x log IH]; cbn; [by repeat constructor|].
  apply StronglySorted_inv in Hs as [Hs Hx]. constructor.
  - apply IH; [done|by inversion Hf|]. intros e' Hin. apply Hn. by right.
  - apply Forall_app. split; [done|]. constructor; [|constructor]. apply Hn. by left.
Qed.

(** In an ordered stream, what follows an entry is what is newer. *)
Lemma after_entry pre e rest : ordered (pre ++ e :: rest) → after newer (en_ID e) (pre ++ e :: rest) = rest.
Proof using newer_irrefl newer_trans.
  intros [Hs _]. unfold after. induction pre as [|x pre IH]; cbn [app] in *.
  - rewrite filter_cons, decide_False by (rewrite newer_irrefl; done). apply StronglySorted_inv in Hs as [_ Hf].
    clear -Hf. induction Hf as [|y rest Hy Hf IH]; [done|]. rewrite filter_cons, decide_True by done. by f_equal.
  - apply StronglySorted_inv in Hs as [Hs Hf]. rewrite filter_cons, decide_False; [by apply IH|].
    apply Forall_app in Hf as [_ Hf]. apply Forall_cons in Hf as [Hxe _]. intros Hex.
    assert (newer (en_ID e) (en_ID e) = true) as Hc by (by eapply newer_trans). by rewrite newer_irrefl in Hc.
Qed.

(** What is newer than an id is the end of the stream. *)
Lemma after_suffix id log : ordered log → ∃ pre, log = pre ++ after newer id log.
Proof using newer_trans.
  intros [Hs _]. unfold after. induction log as [|x log IH]; [by exists []|]. apply StronglySorted_inv in Hs as [Hs Hf].
  rewrite filter_cons. case_decide as Hx.
  - exists []. cbn. f_equal. clear IH. induction Hf as [|y log Hy Hf IH]; [done|].
    rewrite filter_cons, decide_True by (by eapply newer_trans). f_equal. apply IH. by apply StronglySorted_inv in Hs as [? _].
  - destruct (IH Hs) as [pre Heq]. exists (x :: pre). cbn. by f_equal.
Qed.

Lemma after_snoc id log e : after newer id log `prefix_of` after newer id (log ++ [e]).
Proof using Type. unfold after. rewrite filter_app. by eexists. Qed.

(** The entries that a watch from [from] is to handle: those after it, or those
    after a place [k] of the stream. *)
Definition wanted (from : string) (k : nat) (log : list Entry) : list Entry :=
  if String.eqb from "$" then drop k log else after newer from log.

Lemma wanted_suffix from k log : ordered log → ∃ pre, log = pre ++ wanted from k log.
Proof using newer_trans.
  intros Ho. unfold wanted. destruct (String.eqb from "$"); [|by apply after_suffix]. exists (take k log). by rewrite take_drop.
Qed.

Lemma wanted_snoc from k log e : k ≤ length log → wanted from k log `prefix_of` wanted from k (log ++ [e]).
Proof using Type.
  intros Hk. unfold wanted. destruct (String.eqb from "$"); [|apply after_snoc]. rewrite drop_app_le by done. by eexists.
Qed.

(** The entries of the batch that are not handled yet. *)
Definition batch (ph : loop_phase) : list Entry := match ph with Handling es | Offering _ es => es | _ => [] end.
Definition storing (ph : loop_phase) : bool := match ph with Offering _ _ => true | _ => false end.
Definition offering (ph : loop_phase) : list ProviderEvent := match ph with Offering ev _ => [ev] | _ => [] end.

Definition documents (es : list Entry) : list (gomap * string) := omap (λ e, m ← entry_payload p e; Some (m, en_ID e)) es.
Definition events (es : list Entry) : list ProviderEvent := omap (λ e, _ ← entry_payload p e; Some (entry_event e)) es.

(** [n0] is the length of the stream when the watch began. *)
Record redis_ok (l : Latest) (from : string) (n0 : nat) (s : redis_watch) : Prop := {
  ro_log : ordered (rw_log s);
  ro_long : n0 ≤ length (rw_log s);
  ro_id : rw_lastID s = default from (en_ID <$> last (rw_consumed s));
  ro_start : ∀ start, rw_phase s = Reading start → n0 ≤ start ≤ length (rw_log s);
  ro_wanted : ∃ k, n0 ≤ k ≤ length (rw_log s) ∧ rw_consumed s ++ batch (rw_phase s) `prefix_of` wanted from k (rw_log s);
  ro_outlet : outlet_ok (storing (rw_phase s)) (rw_out s);
  ro_latest : ol_latest (rw_out s) = foldl (λ l d, Store l d.1 d.2) l (documents (rw_consumed s));
  ro_events : ol_offered (rw_out s) ++ offering (rw_phase s) = events (rw_consumed s);
}.

(** What is after the last handled entry is what is left. *)
Lemma left_over from k log es rest id : ordered log → wanted from k log = es ++ rest → id = default from (en_ID <$> last es) →
  es ≠ [] ∨ from ≠ "$" → after newer id log = rest.
Proof using newer_irrefl newer_trans.
  intros Ho Hw -> Hne. destruct (wanted_suffix from k log Ho) as [pre Hpre]. rewrite Hw in Hpre. destruct es as [|e es _] using rev_ind.
  - destruct Hne as [?|Hne]; [done|]. cbn. unfold wanted in Hw. by destruct (String.eqb_spec from "$").
  - rewrite last_snoc. cbn. rewrite Hpre in Ho |- *. rewrite <-(assoc_L app es), (assoc_L app pre) in Ho |- *. by apply after_entry.
Qed.

Lemma consumed_id from k log es : ordered log → es `prefix_of` wanted from k log → es ≠ [] → default from (en_ID <$> last es) ≠ "$".
Proof using newer_trans.
  intros Ho [rest Hw] Hne. destruct (wanted_suffix from k log Ho) as [pre Hpre]. destruct es as [|e es _] using rev_ind; [done|].
  rewrite last_snoc. cbn. destruct Ho as [_ Hf]. rewrite Forall_forall in Hf. apply Hf. rewrite Hpre, Hw, !elem_of_app. right; left; right. by left.
Qed.

(** The entries that [XRead] returns continue what was handled. *)
Lemma read_wanted l from n0 s start es : redis_ok l from n0 s → rw_phase s = Reading start → es `prefix_of` available newer s start →
  ∃ k, n0 ≤ k ≤ length (rw_log s) ∧ rw_consumed s ++ es `prefix_of` wanted from k (rw_log s).
Proof using newer_irrefl newer_trans.
  intros [Hlog Hlong Hid Hstart (k & Hk & Hw) _ _ _] Hph Hes. rewrite Hph in Hw. cbn in Hw. rewrite app_nil_r in Hw. unfold available in Hes.
  destruct (decide (rw_consumed s = [] ∧ from = "$")) as [[Hc ->]|Hne].
  - exists start. split; [by apply Hstart|]. rewrite Hc in Hid |- *. cbn in Hid. rewrite Hid in Hes. cbn in Hes. exact Hes.
  - exists k. split; [done|]. destruct Hw as [rest Hw].
    assert (after newer (rw_lastID s) (rw_log s) = rest) as Hrest.
    { eapply left_over; [done|exact Hw|done|]. destruct (decide (from = "$")); [left|by right]. naive_solver. }
    assert (rw_lastID s ≠ "$") as Hd.
    { rewrite Hid. destruct (decide (rw_consumed s = [])) as [Hnil|]; [rewrite Hnil; cbn; naive_solver|]. eapply consumed_id; [done|by exists rest|done]. }
    apply String.eqb_neq in Hd. rewrite Hd, Hrest in Hes. rewrite Hw. destruct Hes as [t ->]. exists t. by rewrite (assoc_L app).
Qed.

(** ** Lemmas: every step keeps the invariant *)

Lemma redis_goto_ok l from n0 s ph : redis_ok l from n0 s → batch ph = batch (rw_phase s) → storing (rw_phase s) = false → storing ph = false →
  offering ph = [] → (∀ start, ph = Reading start → start = length (rw_log s)) → redis_ok l from n0 (goto s ph).
Proof using Type.
  intros [Hlog Hlong Hid Hstart Hw Hout Hl He] Hb Hs Hs' Ho Hr. split; cbn; try done.
  - intros start ->. rewrite (Hr start eq_refl). lia.
  - by rewrite Hb.
  - by rewrite Hs', <-Hs.
  - rewrite Ho. destruct (rw_phase s); try discriminate Hs; exact He.
Qed.

Lemma handle_ok l from n0 s e es : redis_ok l from n0 s → rw_phase s = Handling (e :: es) → redis_ok l from n0 (handle p s e es).
Proof using Type.
  intros [Hlog Hlong Hid Hstart (k & Hk & Hw) Hout Hl He] Hph. rewrite Hph in *. cbn in Hw, Hout, He. rewrite app_nil_r in He.
  assert (rw_consumed s ++ e :: es = (rw_consumed s ++ [e]) ++ es) as Heq by by rewrite <-(assoc_L app). rewrite Heq in Hw.
  unfold handle. destruct (entry_payload p e) as [m|] eqn:Hp; split; cbn; try done; try (by rewrite last_snoc); try (by exists k).
  - by eapply outlet_store_ok.
  - unfold documents in *. rewrite omap_app, foldl_app, <-Hl. cbn. by rewrite Hp.
  - unfold events in *. rewrite omap_app, <-He. cbn. by rewrite Hp.
  - unfold documents in *. rewrite omap_app, foldl_app, <-Hl. cbn. by rewrite Hp.
  - unfold events in *. rewrite omap_app, <-He. cbn. by rewrite Hp.
Qed.

Lemma loop_ok l from n0 s s' : loop_step newer p s s' → redis_ok l from n0 s → redis_ok l from n0 s'.
Proof using newer_irrefl newer_trans.
  intros Hst Hok. destruct Hst as [Hph _|Hph _|start es Hph Hes|start Hph _|start Hph _|e es Hph|Hph|ev es Hph|Hph|Hph _];
    try (apply redis_goto_ok; [done|by rewrite Hph|by rewrite Hph|done|done|naive_solver]).
  - destruct (read_wanted _ _ _ _ _ _ Hok Hph Hes) as (k & Hk & Hw). destruct Hok as [Hlog Hlong Hid Hstart _ Hout Hl He].
    rewrite Hph in *. split; cbn; try done. by exists k.
  - by apply handle_ok.
  - destruct Hok as [Hlog Hlong Hid Hstart Hw Hout Hl He]. rewrite Hph in *. destruct (outlet_offer_frame (rw_out s) ev) as [Hl' Ho'].
    split; cbn; try done; [by eapply outlet_offer_ok|by rewrite Hl'|by rewrite Ho', app_nil_r].
Qed.

Lemma other_ok l from n0 s s' : other_step newer s s' → redis_ok l from n0 s → redis_ok l from n0 s'.
Proof using newer_irrefl newer_trans.
  intros Hst [Hlog Hlong Hid Hstart (k & Hk & Hw) Hout Hl He]. destruct Hst as [e Hne Hnew| |].
  - split; cbn; rewrite ?length_app; try done; [by apply ordered_snoc|lia| |].
    + intros start Hs. specialize (Hstart start Hs). lia.
    + exists k. split; [lia|]. etrans; [exact Hw|]. apply wanted_snoc. lia.
  - split; cbn; try done. by exists k.
  - destruct (outlet_receive_frame (rw_out s)) as [Hl' Ho']. split; cbn; try done; [by exists k|by eapply outlet_receive_ok|by rewrite Hl'|by rewrite Ho'].
Qed.

Lemma redis_reachable_ok l log from s : ordered log → rtc (redis_step newer p) (redis_Watch l log from) s →
  redis_ok l (if String.eqb from "" then "$" else from) (length log) s.
Proof using newer_irrefl newer_trans.
  intros Hlog Hs. set (from' := if String.eqb from "" then "$" else from).
  assert (redis_ok l from' (length log) (redis_Watch l log from)) as Hok.
  { split; cbn; try done; [|apply new_outlet_ok]. exists (length log). split; [lia|]. apply prefix_nil. }
  clearbody from'. generalize (length log) Hok. clear Hok. intros n0. induction Hs as [s|s1 s2 s Hst Hs IH]; [done|]. intros Hok. apply IH.
  destruct Hst; [by eapply loop_ok|by eapply other_ok].
Qed.

(** ** Lemmas: the loop comes to its end *)

(** The steps that the loop can still make once it is cancelled. *)
Definition steps_left (s : redis_watch) : nat :=
  match rw_phase s with
  | Stopped => 0
  | Top => 1
  | BackOff => 2
  | Handling es => 2 + 2 * length es
  | Offering _ es => 3 + 2 * length es
  | Reading _ => 3 + 2 * length (rw_log s)
  end.

Lemma available_length s start : length (available newer s start) ≤ length (rw_log s).
Proof using Type.
  unfold available, after. destruct (String.eqb _ _); [rewrite length_drop; lia|]. induction (rw_log s) as [|e log IH]; [done|].
  rewrite filter_cons. case_decide; cbn; lia.
Qed.

Lemma loop_step_down s s' : rw_cancelled s = true → loop_step newer p s s' → rw_cancelled s' = true ∧ steps_left s' < steps_left s.
Proof using Type.
  intros Hc Hst. destruct Hst as [Hph _|Hph Hc'|start es Hph Hes|start Hph _|start Hph Hc'|e es Hph|Hph|ev es Hph|Hph|Hph _];
    try congruence; unfold steps_left; rewrite Hph; cbn; try (split; [done|lia]).
  - split; [done|]. destruct Hes as [t Ht]. pose proof (available_length s start) as Hlen. rewrite Ht, length_app in Hlen. lia.
  - unfold handle. destruct (entry_payload p e); cbn; (split; [done|lia]).
Qed.

Lemma loop_goes_on s : rw_phase s ≠ Stopped → ∃ s', loop_step newer p s s'.
Proof using Type.
  intros Hns. destruct (rw_phase s) as [|start|[|e es]|ev es| |] eqn:Hph; [| | | | | |done].
  - destruct (rw_cancelled s) eqn:Hc; eexists; [by apply l_cancelled|by apply l_call].
  - eexists. apply (l_entries _ _ _ start []); [done|apply prefix_nil].
  - eexists. by apply l_batch.
  - eexists. by apply l_entry.
  - eexists. by apply l_offer.
  - eexists. by apply l_retry.
Qed.
End redis_facts.

(** ** Lemmas: NATS *)

(** The events of some messages: the first one that decodes carries the gap. *)
Fixpoint nats_events (p : nats_provider) (gap : bool) (ms : list Msg) : list ProviderEvent :=
  match ms with
  | [] => []
  | m :: ms => match np_codec p (ms_Data m) with Err _ => nats_events p gap ms | Ok _ => message_event gap m :: nats_events p false ms end
  end.

Definition nats_documents (p : nats_provider) (ms : list Msg) : list (gomap * string) :=
  omap (λ m, match np_codec p (ms_Data m) with Ok doc => Some (doc, ms_Revision m) | Err _ => None end) ms.

Arguments nats_documents : simpl never.

Lemma nats_documents_snoc p ms m :
  nats_documents p (ms ++ [m]) = nats_documents p ms ++ match np_codec p (ms_Data m) with Ok doc => [(doc, ms_Revision m)] | Err _ => [] end.
Proof. unfold nats_documents. rewrite omap_app. cbn. by destruct (np_codec p (ms_Data m)). Qed.

(** Whether the gap is still to be told after some messages. *)
Definition pending_gap (p : nats_provider) (gap : bool) (ms : list Msg) : bool := gap && bool_decide (nats_events p gap ms = []).

Lemma nats_events_snoc p gap ms m :
  nats_events p gap (ms ++ [m])
  = nats_events p gap ms ++ match np_codec p (ms_Data m) with Err _ => [] | Ok _ => [message_event (pending_gap p gap ms) m] end.
Proof.
  unfold pending_gap. revert gap. induction ms as [|m' ms IH]; intros gap; cbn.
  - destruct (np_codec p (ms_Data m)); [|done]. by rewrite andb_true_r.
  - destruct (np_codec p (ms_Data m')); [|by rewrite IH]. cbn. rewrite IH. by rewrite andb_false_r.
Qed.

Lemma pending_gap_snoc p gap ms m :
  pending_gap p gap (ms ++ [m]) = match np_codec p (ms_Data m) with Err _ => pending_gap p gap ms | Ok _ => false end.
Proof.
  unfold pending_gap at 1. rewrite nats_events_snoc. destruct (np_codec p (ms_Data m)); [|by rewrite app_nil_r].
  rewrite bool_decide_false; [by rewrite andb_false_r|]. by destruct (nats_events p gap ms).
Qed.

Record nats_ok (p : nats_provider) (l : Latest) (gap : bool) (s : subscription) : Prop := {
  no_outlet : outlet_ok (bool_decide (is_Some (sb_offering s))) (sb_out s);
  no_latest : ol_latest (sb_out s) = foldl (λ l d, Store l d.1 d.2) l (nats_documents p (sb_messages s));
  no_events : ol_offered (sb_out s) ++ option_list (sb_offering s) = nats_events p gap (sb_messages s);
  no_gap : sb_gap s = pending_gap p gap (sb_messages s);
  no_closed : sb_closed s = true → sb_offering s = None;
}.

Lemma nats_step_ok p l gap s s' : nats_step p s s' → nats_ok p l gap s → nats_ok p l gap s'.
Proof.
  intros Hst [Hout Hl He Hg Hc]. destruct Hst as [m Hopen Hoff|ev Hoff| |Hoff].
  - rewrite Hoff in *. cbn in He. rewrite app_nil_r in He. unfold nats_handler.
    pose proof (nats_events_snoc p gap (sb_messages s) m) as Hes. pose proof (pending_gap_snoc p gap (sb_messages s) m) as Hgs.
    pose proof (nats_documents_snoc p (sb_messages s) m) as Hds.
    destruct (np_codec p (ms_Data m)) as [doc|e] eqn:Hdoc; split; cbn; try congruence; rewrite ?Hoff; cbn.
    + by eapply outlet_store_ok.
    + rewrite Hds, foldl_app, <-Hl. done.
    + done.
    + by rewrite Hds, app_nil_r.
    + rewrite Hes, !app_nil_r. exact He.
  - destruct (outlet_offer_frame (sb_out s) ev) as [Hl' Ho']. rewrite Hoff in *. split; cbn; try done; [by eapply outlet_offer_ok|by rewrite Hl'|].
    by rewrite Ho', app_nil_r.
  - destruct (outlet_receive_frame (sb_out s)) as [Hl' Ho']. split; cbn; try done; [by apply outlet_receive_ok|by rewrite Hl'|by rewrite Ho'].
  - rewrite Hoff in *. by split.
Qed.

Definition resumed (from : string) (resume : option string) : bool := negb (String.eqb from "") && bool_decide (is_Some resume).

Lemma nats_reachable_ok p l from resume cold s0 s : nats_Watch l from resume cold = Ok s0 → rtc (nats_step p) s0 s → nats_ok p l (resumed from resume) s.
Proof.
  intros Hw Hs. assert (nats_ok p l (resumed from resume) s0) as Hok.
  { unfold nats_Watch, resumed in *. destruct (String.eqb from ""); [|destruct resume]; cbn in Hw; try (destruct cold; [done|]); injection Hw as <-;
      (split; cbn; [apply new_outlet_ok|done..]). }
  clear Hw. induction Hs as [s|s1 s2 s Hst _ IH]; [done|]. apply IH. by eapply nats_step_ok.
Qed.

(** Only the first event of a subscription can carry the gap. *)
Lemma nats_gap_once p gap ms evs : evs `sublist_of` nats_events p gap ms → head evs = head (nats_events p gap ms) →
  ∀ ev rest, evs = ev :: rest → pe_Gap ev = gap ∧ Forall (λ ev, pe_Gap ev = false) rest.
Proof.
  assert (∀ ms, Forall (λ ev, pe_Gap ev = false) (nats_events p false ms)) as Hno.
  { clear. intros ms. induction ms as [|m ms IH]; cbn; [constructor|]. destruct (np_codec p (ms_Data m)); [|done]. by constructor. }
  intros Hsub Hhead ev rest ->. revert gap Hsub Hhead. induction ms as [|m ms IH]; intros gap Hsub Hhead; cbn in *; [done|].
  destruct (np_codec p (ms_Data m)); [|by apply IH]. injection Hhead as ->. split; [done|].
  assert (rest `sublist_of` nats_events p false ms) as Hr.
  { apply sublist_cons_r in Hsub as [Hsub|(? & [= <-] & Hsub)]; [|done]. etrans; [|exact Hsub]. by apply sublist_cons. }
  specialize (Hno ms). rewrite Forall_forall in Hno |- *. intros e He. apply Hno. eapply elem_of_submseteq; [exact He|by apply sublist_submseteq].
Qed.

(** ** Properties: Redis *)

(** C38: redis.  A watch from a stream id handles the entries after that id exactly
    once and in order, whatever errors, delays and batches the reads have.  The
    document that [Load] gives is that of the last entry that decodes; every
    such entry has an event, which was received, waits, is about to be offered,
    or was counted as dropped; and when no event waits, the last load of the
    manager saw the latest document.  A new watch from the revision of any event
    that was received misses nothing that this one has not handled. *)
Theorem redis_watch_exact (newer : string → string → bool) (p : redis_provider) (l : Latest) (log : list Entry) (from : string) (s : redis_watch)
    (Hirrefl : ∀ a, newer a a = false) (Htrans : ∀ a b c, newer a b = true → newer b c = true → newer a c = true)
    (Hlog : ordered newer log) (Hfrom : from ≠ "" ∧ from ≠ "$") (Hs : rtc (redis_step newer p) (redis_Watch l log from) s) :
  let left := after newer (rw_lastID s) (rw_log s) in
  let o := rw_out s in
  rw_consumed s ++ left = after newer from (rw_log s)
  ∧ ol_latest o = foldl (λ l d, Store l d.1 d.2) l (documents p (rw_consumed s))
  ∧ ol_received o ++ ol_ch o `sublist_of` events p (rw_consumed s)
  ∧ length (ol_received o) + length (ol_ch o) + ol_dropped o + length (offering (rw_phase s)) = length (events p (rw_consumed s))
  ∧ (ol_ch o = [] → offering (rw_phase s) = [] → ol_loaded o = ol_latest o)
  ∧ ∀ ev, ev ∈ ol_received o → ∃ again, after newer (pe_Revision ev) (rw_log s) = again ++ left.
Proof.
  destruct Hfrom as [Hne Hnd]. apply redis_reachable_ok in Hs as [Hlog' _ Hid _ (k & _ & Hw) Hout Hl He]; [|done..].
  rewrite (proj2 (String.eqb_neq _ _) Hne) in *. intros left o. destruct Hw as [rest Hw]. rewrite <-(assoc_L app) in Hw.
  assert (left = batch (rw_phase s) ++ rest) as Hleft by (eapply left_over; [done..|exact Hw|done|by right]).
  assert (wanted newer from k (rw_log s) = after newer from (rw_log s)) as Hwa by (unfold wanted; by rewrite (proj2 (String.eqb_neq _ _) Hnd)).
  destruct Hout as [_ Hord Hcnt _ Hcur]. rewrite <-He. split_and!.
  - by rewrite Hleft, <-Hw.
  - done.
  - by apply sublist_inserts_r.
  - rewrite length_app. unfold o. lia.
  - intros Hch Hof. apply Hcur; [done|]. by destruct (rw_phase s).
  - intros ev Hev. assert (ev ∈ events p (rw_consumed s)) as Hin.
    { rewrite <-He, elem_of_app. left. eapply elem_of_submseteq; [|by apply sublist_submseteq]. apply elem_of_app. by left. }
    unfold events in Hin. apply list_elem_of_omap in Hin as (e & Hine & Hpe). destruct (entry_payload p e); [|done]. injection Hpe as <-. cbn.
    apply list_elem_of_split in Hine as (es1 & es2 & Hc). exists es2. rewrite Hleft.
    destruct (wanted_suffix newer Htrans from k _ Hlog') as [pre Hpre]. rewrite Hw, Hc in Hpre. rewrite <-!(assoc_L app) in Hpre. cbn in Hpre.
    rewrite (assoc_L app) in Hpre. rewrite Hpre. apply after_entry; [done..|]. by rewrite <-Hpre.
Qed.

(** The goroutine of a cancelled watch ends and closes the channel, under every
    schedule and whatever the reads return. *)
Lemma redis_watch_stops (newer : string → string → bool) (p : redis_provider) (s : redis_watch) : rw_cancelled s = true →
  (∀ n s', nsteps (loop_step newer p) n s s' → n ≤ steps_left s ∧ (rw_phase s' ≠ Stopped → ∃ s'', loop_step newer p s' s'')).
Proof.
  intros Hc n s' Hn. split; [|apply loop_goes_on]. induction Hn as [s|n s s1 s2 Hst Hn IH]; [lia|].
  destruct (loop_step_down newer p s s1 Hc Hst) as [Hc1 Hlt]. specialize (IH Hc1). lia.
Qed.

(** A watch without a revision can lose an entry that was added after it began.
    When the first read ends empty, or fails, the next one starts again at the
    end of the stream: an entry that came in between is not available to it, and
    the loop waits with the older document. *)
Definition newer_length (a b : string) : bool := String.length b <? String.length a.

Definition text_provider : redis_provider :=
  {| rp_name := "rs"; rp_stream := "cfg:app"; rp_priority := PriorityKV; rp_codec := λ raw, Ok (Some {[ "host" := VString raw ]});
     rp_block := 5000000000; rp_payloadField := "payload" |}.

Definition text_entry (id : string) (host : option string) : Entry :=
  {| en_ID := id; en_Fields := match host with Some h => {[ "payload" := h ]} | None => ∅ end |}.

Definition no_document : Latest := {| la_value := None; la_revision := ""; la_loaded := false |}.

Lemma tail_read_misses : ∃ s, rtc (redis_step newer_length text_provider) (redis_Watch no_document [] "") s
  ∧ rw_log s = [text_entry "1" (Some "new")] ∧ rw_consumed s = [] ∧ rw_phase s = Reading 1 ∧ available newer_length s 1 = []
  ∧ ol_latest (rw_out s) = no_document.
Proof.
  eexists. split.
  - eapply rtc_l; [left; by apply l_call|]. eapply rtc_l; [left; eapply (l_entries _ _ _ 0 []); [done|apply prefix_nil]|].
    eapply rtc_l; [left; by apply l_batch|].
    eapply rtc_l; [right; apply (o_added _ _ (text_entry "1" (Some "new"))); [done|]; intros e' He'; by apply elem_of_nil in He'|].
    eapply rtc_l; [left; by apply l_call|]. apply rtc_refl.
  - by split_and!.
Qed.

(** What the configuration tests check of a provider, for both. *)
Lemma streams_conform name stream codec client ropts nopts pr pn subject o :
  (redis_New name stream codec client ropts = Ok pr → Forall (λ opt, ∀ q, rp_name (opt q) = rp_name q) ropts →
     AssertProviderBasics (Some (stream_entry (rp_name pr) (rp_priority pr) o)) = None)
  ∧ (nats_New name subject codec client nopts = Ok pn → Forall (λ opt, ∀ q, np_name (opt q) = np_name q) nopts →
     AssertProviderBasics (Some (stream_entry (np_name pn) (np_priority pn) o)) = None).
Proof.
  assert (∀ n prio, n ≠ "" → AssertProviderBasics (Some (stream_entry n prio o)) = None) as Hb.
  { intros n prio Hn. unfold AssertProviderBasics, stream_entry. cbn. by rewrite (proj2 (String.eqb_neq _ _) Hn). }
  unfold redis_New, nats_New. split.
  - destruct (String.eqb_spec name "") as [|Hn]; [done|]. destruct (String.eqb stream ""), codec, client; try done. intros [= <-] Hf. apply Hb.
    by apply (options_keep (λ q, rp_name q ≠ "")); [|eapply Forall_impl; [exact Hf|]; intros opt Ho q; rewrite Ho].
  - destruct (String.eqb_spec name "") as [|Hn]; [done|]. destruct (String.eqb subject ""), codec, client; try done. intros [= <-] Hf. apply Hb.
    by apply (options_keep (λ q, np_name q ≠ "")); [|eapply Forall_impl; [exact Hf|]; intros opt Ho q; rewrite Ho].
Qed.

(** ** Properties: NATS *)

(** NATS.  After any messages, [Load] gives the last document that decoded, and
    every such message has an event that was received, waits, is about to be
    offered, or was counted as dropped.  When a watch could not be resumed, the
    very first event that reaches the manager reports the gap, and no other; it
    cannot be the one that is dropped.  Nothing is offered on a closed channel. *)
Theorem nats_watch_exact (p : nats_provider) (l : Latest) (from : string) (resume cold : option string) (s0 s : subscription)
    (Hw : nats_Watch l from resume cold = Ok s0) (Hs : rtc (nats_step p) s0 s) :
  let gap := negb (String.eqb from "") && bool_decide (is_Some resume) in
  let o := sb_out s in
  let all := nats_events p gap (sb_messages s) in
  ol_latest o = foldl (λ l d, Store l d.1 d.2) l (nats_documents p (sb_messages s))
  ∧ ol_received o ++ ol_ch o `sublist_of` all
  ∧ length (ol_received o) + length (ol_ch o) + ol_dropped o + length (option_list (sb_offering s)) = length all
  ∧ (ol_ch o = [] → sb_offering s = None → ol_loaded o = ol_latest o)
  ∧ (∀ ev rest, ol_received o ++ ol_ch o = ev :: rest → pe_Gap ev = gap ∧ Forall (λ ev, pe_Gap ev = false) rest)
  ∧ (sb_closed s = true → sb_offering s = None).
Proof.
  apply (nats_reachable_ok _ _ _ _ _ _ _ Hw) in Hs as [[_ Hord Hcnt Hfst Hcur] Hl He _ Hc]. intros gap o all.
  change (resumed from resume) with gap in *. fold all in He. rewrite <-He. split_and!; try done.
  - by apply sublist_inserts_r.
  - rewrite length_app. unfold o. lia.
  - intros Hch Hof. apply Hcur; [done|]. by rewrite Hof.
  - intros ev rest Heq. apply (nats_gap_once p gap (sb_messages s) (ev :: rest)); [| |done]; fold all; rewrite <-He, <-Heq; unfold o in *.
    + by apply sublist_inserts_r.
    + rewrite Heq in Hfst |- *. by destruct (ol_offered (sb_out s)).
Qed.

(** ** Witnesses *)

Lemma redis_watch_exact_witness :
  ∃ s, la_revision (ol_latest (rw_out s)) = "11" ∧ length (rw_consumed s) = 2 ∧ length (ol_received (rw_out s)) = 1
    ∧ rw_consumed s ++ after newer_length (rw_lastID s) (rw_log s) = after newer_length "1" (rw_log s).
Proof.
  set (log := [text_entry "1" (Some "a"); text_entry "11" (Some "b"); text_entry "111" None]).
  assert (∃ s, rtc (redis_step newer_length text_provider) (redis_Watch no_document log "1") s
    ∧ la_revision (ol_latest (rw_out s)) = "11" ∧ length (rw_consumed s) = 2 ∧ length (ol_received (rw_out s)) = 1) as (s & Hs & Hrev & Hlen & Hrcv).
  { eexists. split.
    - eapply rtc_l; [left; by apply l_call|]. eapply rtc_l; [left; by eapply l_error|]. eapply rtc_l; [left; by apply l_retry|].
      eapply rtc_l; [left; by apply l_call|]. eapply rtc_l; [left; by eapply l_entries|]. cbn.
      eapply rtc_l; [left; by eapply l_entry|]. cbn. eapply rtc_l; [left; by eapply l_offer|]. cbn.
      eapply rtc_l; [right; apply o_receive|]. cbn. eapply rtc_l; [left; by eapply l_entry|]. cbn. eapply rtc_l; [left; by apply l_batch|]. apply rtc_refl.
    - by split_and!. }
  exists s. split_and!; [done..|]. apply (redis_watch_exact newer_length text_provider no_document log "1" s).
  - intros a. apply Nat.ltb_irrefl.
  - unfold newer_length. intros a b c Hab Hbc. apply Nat.ltb_lt in Hab, Hbc. apply Nat.ltb_lt. lia.
  - split; repeat constructor; done.
  - done.
  - exact Hs.
Defined.

Lemma nats_watch_exact_witness :
  ∃ s, la_revision (ol_latest (sb_out s)) = "8" ∧ ∀ ev rest, ol_received (sb_out s) ++ ol_ch (sb_out s) = ev :: rest → pe_Gap ev = true.
Proof.
  set (p := {| np_name := "nats"; np_subject := "app"; np_priority := PriorityKV;
               np_codec := λ raw, if String.eqb raw "bad" then Err (ErrTopLevel "text") else Ok (Some {[ "host" := VString raw ]}) |}).
  assert (∃ s0 s, nats_Watch no_document "6" (Some "expired") None = Ok s0 ∧ rtc (nats_step p) s0 s ∧ la_revision (ol_latest (sb_out s)) = "8")
    as (s0 & s & Hw & Hs & Hrev).
  { eexists _, _. split; [reflexivity|]. split.
    - eapply rtc_l; [apply (n_message _ _ {| ms_Subject := "app"; ms_Data := "bad"; ms_Revision := "7" |}); done|]. cbn.
      eapply rtc_l; [apply (n_message _ _ {| ms_Subject := "app"; ms_Data := "new"; ms_Revision := "8" |}); done|]. cbn.
      eapply rtc_l; [by eapply n_offer|]. cbn. eapply rtc_l; [apply n_receive|]. apply rtc_refl.
    - reflexivity. }
  exists s. split; [done|]. intros ev rest Heq.
  destruct (nats_watch_exact p no_document "6" (Some "expired") None s0 s Hw Hs) as (_ & _ & _ & _ & Hgap & _). by apply (Hgap ev rest).
Defined.
