(* ===== verification/RemoteWatch.v ===== *)
(** * Polling a document, and the selections of the stores
    (providers/http, parameterstore, azappconfig)

    The watch of the HTTP provider while the manager loads from the same
    provider: requests overlap, answers arrive late, and the document changes
    meanwhile.  Then the constructors of the providers that read a hierarchy. *)
From S2P Require Import Prelude GoStrings Value CodecRegistry KVProviders Documents Hierarchies Sources Watch.
Open Scope nat_scope.

(** ** The HTTP watch (http.go) *)

(** What [fetch] returns: a body with its ETag and content type, or nothing for a 304. *)
Notation fetched := (result load_error (option (string * string * string))).

(** [Load] after its [fetch], with the lock held. *)
Definition http_accept `{GoStd} (decode : string → result string gomap) (by_content_type : string → option (string → result string gomap))
    (own_codec : bool) (s : http_state) (x : fetched) : http_state * result load_error snapshot :=
  match x with
  | Err e => (s, Err e)
  | Ok None => (s, if h_loaded s then Ok (h_lastBody s, h_etag s) else Err ErrNotModified)
  | Ok (Some (body, etag, ct)) =>
      let hash := go_sha256 body in
      if h_loaded s && String.eqb hash (h_bodyHash s)
      then ({| h_etag := etag; h_bodyHash := h_bodyHash s; h_loaded := true; h_lastBody := h_lastBody s |}, Ok (h_lastBody s, etag))
      else match dec ← http_decoder decode by_content_type own_codec ct; map_err Documents.ErrDecode (dec body) with
           | Err e => (s, Err e)
           | Ok out => ({| h_etag := etag; h_bodyHash := hash; h_loaded := true; h_lastBody := out |}, Ok (out, etag))
           end
  end.

(** [poll] after its [fetch]: whether a change is announced, and its ETag. *)
Definition http_compare `{GoStd} (s : http_state) (x : option (string * string * string)) : bool * string :=
  match x with
  | None => (false, "")
  | Some (body, etag, _) =>
      if h_loaded s && String.eqb (go_sha256 body) (h_bodyHash s) && String.eqb etag (h_etag s) then (false, "") else (true, etag)
  end.

(** [Watch] has a channel when its interval is positive. *)
Definition http_Watch (interval : Z) : bool := (0 <? interval)%Z.

Definition http_event (revision : string) : ProviderEvent := {| pe_Reason := "http-poll-diff"; pe_Revision := revision; pe_Gap := false |}.

(** A request: sent with an [If-None-Match], or answered. *)
Inductive flight := Asked (etag : string) | Answered (x : fetched).

(** The provider, its watch and its loads, and the document that the server
    holds.  [hw_due] is set between the receive of an event and the load it asks
    for.  For the proofs: whether a request began after the last change and saw
    nothing older, and whether such a poll has ended, with no failed load since. *)
Record http_watch := {
  hw_cache : http_state;
  hw_server : resource;
  hw_ch : list ProviderEvent;
  hw_poll : option (flight * bool);
  hw_load : option (flight * bool);
  hw_due : bool;
  hw_polled : bool;
}.

(** A load whose answer is older than the last change. *)
Definition stale_load (l : option (flight * bool)) : bool := match l with Some (_, false) => true | _ => false end.

Definition outdate (l : option (flight * bool)) : option (flight * bool) :=
  match l with Some (Answered x, _) => Some (Answered x, false) | _ => l end.

Definition with_poll (s : http_watch) (p : option (flight * bool)) (ch : list ProviderEvent) (polled : bool) : http_watch :=
  {| hw_cache := hw_cache s; hw_server := hw_server s; hw_ch := ch; hw_poll := p; hw_load := hw_load s; hw_due := hw_due s; hw_polled := polled |}.

Definition with_load (s : http_watch) (c : http_state) (l : option (flight * bool)) (due polled : bool) : http_watch :=
  {| hw_cache := c; hw_server := hw_server s; hw_ch := hw_ch s; hw_poll := hw_poll s; hw_load := l; hw_due := due; hw_polled := polled |}.

Section http_watch.
Context `{GoStd} (decode : string → result string gomap) (by_content_type : string → option (string → result string gomap))
  (own_codec : bool) (max : Z) (world : resource → Prop).

(** What a request comes to: the answer of the server, or a failure on the way. *)
Definition comes_to (s : http_watch) (etag : string) (x : fetched) : Prop :=
  (∃ e, x = Err e) ∨ x = http_fetch max (http_server (hw_server s) etag).

Inductive http_step (s : http_watch) : http_watch → Prop :=
(** The document changes. *)
| h_change r : world r →
    http_step s {| hw_cache := hw_cache s; hw_server := r; hw_ch := hw_ch s;
                   hw_poll := match hw_poll s with Some (f, _) => Some (f, false) | None => None end;
                   hw_load := outdate (hw_load s); hw_due := hw_due s; hw_polled := false |}
(** The goroutine of [Watch]: a tick, the answer, and the comparison. *)
| h_tick : hw_poll s = None → http_step s (with_poll s (Some (Asked (h_etag (hw_cache s)), negb (stale_load (hw_load s)))) (hw_ch s) (hw_polled s))
| h_poll_answer etag c x : hw_poll s = Some (Asked etag, c) → comes_to s etag x → http_step s (with_poll s (Some (Answered x, c)) (hw_ch s) (hw_polled s))
| h_poll_failed e c : hw_poll s = Some (Answered (Err e), c) → http_step s (with_poll s None (hw_ch s) (hw_polled s))
| h_poll_done x c ch : hw_poll s = Some (Answered (Ok x), c) →
    ch = (let '(changed, revision) := http_compare (hw_cache s) x in if changed then (Offer 1 (hw_ch s) (http_event revision)).1 else hw_ch s) →
    http_step s (with_poll s None ch (hw_polled s || c))
(** The manager: it receives, and loads, for an event or for another reason. *)
| h_receive ev ch : hw_ch s = ev :: ch → http_step s {| hw_cache := hw_cache s; hw_server := hw_server s; hw_ch := ch; hw_poll := hw_poll s;
    hw_load := hw_load s; hw_due := true; hw_polled := hw_polled s |}
| h_load due : hw_load s = None → (due = true → hw_due s = true) →
    http_step s (with_load s (hw_cache s) (Some (Asked (h_etag (hw_cache s)), true)) due (hw_polled s))
| h_load_answer etag c x : hw_load s = Some (Asked etag, c) → comes_to s etag x →
    http_step s (with_load s (hw_cache s) (Some (Answered x, c)) (hw_due s) (hw_polled s))
| h_load_done x c cache res : hw_load s = Some (Answered x, c) → http_accept decode by_content_type own_codec (hw_cache s) x = (cache, res) →
    http_step s (with_load s cache None (hw_due s) (hw_polled s && is_Ok res)).

(** A provider that is new, for a server that holds [r]. *)
Definition http_start (r : resource) : http_watch :=
  {| hw_cache := http_init; hw_server := r; hw_ch := []; hw_poll := None; hw_load := None; hw_due := false; hw_polled := false |}.

(** ** Lemmas *)

Context (Hworld : consistent world) (Hmax : (max < MaxInt64)%Z).

Notation http_dec := (http_decoder decode by_content_type own_codec).

(** The cache holds what the server holds. *)
Definition current (r : resource) (c : http_state) : Prop := fresh max http_dec r (d_version r) = Ok (h_lastBody c, h_etag c).

Lemma http_Load_split c server : http_Load decode by_content_type own_codec max c server = http_accept decode by_content_type own_codec c (http_fetch max (server (h_etag c))).
Proof using Type. reflexivity. Qed.

Lemma http_poll_split c server : http_poll max c server = http_compare c <$> http_fetch max (server (h_etag c)).
Proof using Type. unfold http_poll. destruct (http_fetch max (server (h_etag c))) as [x|e]; [|done]. destruct x as [[[b e] ct]|]; [|done]. cbn. by destruct (_ && _ && _). Qed.

Lemma http_accept_ok c x cache res : http_accept decode by_content_type own_codec c x = (cache, res) →
  match res with Ok snap => snap = (h_lastBody cache, h_etag cache) | Err _ => cache = c end.
Proof using Type.
  unfold http_accept. destruct x as [[[[b e] ct]|]|e]; [| |by intros [= <- <-]].
  - destruct (h_loaded c && _); [by intros [= <- <-]|]. destruct (http_dec ct ≫= _); by intros [= <- <-].
  - destruct (h_loaded c); by intros [= <- <-].
Qed.

(** What the server answers: a 304, a failure to read it, or its document. *)
Lemma fetch_cases r etag :
  (http_fetch max (http_server r etag) = Ok None ∧ etag ≠ "" ∧ etag = d_version r)
  ∨ (∃ e, http_fetch max (http_server r etag) = Err e)
  ∨ http_fetch max (http_server r etag) = Ok (Some (d_body r, d_version r, d_ct r)).
Proof using Hmax.
  unfold http_server. destruct (negb (String.eqb etag "") && String.eqb etag (d_version r)) eqn:Hc.
  - left. apply andb_true_iff in Hc as [Hne%negb_true_iff%String.eqb_neq Heq%String.eqb_eq]. done.
  - right. rewrite http_fetch_body. destruct (ReadAllMax (body_reader r) max) as [b|e] eqn:Hb; [right|left; by eexists].
    by rewrite (read_whole max Hmax r b Hb).
Qed.

Notation inv := (http_inv decode by_content_type own_codec max world).

(** An ETag, and a hash, that match say that the cache is current. *)
Lemma current_etag c r : inv c → world r → h_etag c ≠ "" → h_etag c = d_version r → current r c.
Proof using Hworld.
  intros [_ Hetag] Hr Hne Heq. destruct (Hetag Hne) as (Hl & r0 & Hh & Hv). unfold current. rewrite Heq.
  eapply holds_body; [exact Hworld|exact Hh|exact Hr|]. apply (etag_identifies world); [done|by destruct Hh|done|congruence|congruence].
Qed.

Lemma current_hash c r : inv c → world r → h_loaded c = true → go_sha256 (d_body r) = h_bodyHash c → d_version r = h_etag c → current r c.
Proof using Hworld.
  intros [Hloaded _] Hr Hl Hhash Hv. destruct (Hloaded Hl) as (r0 & Hh & Hhr). unfold current. rewrite <-Hv.
  eapply holds_body; [exact Hworld|exact Hh|exact Hr|]. apply (hash_separates world); [done|by destruct Hh|done|congruence].
Qed.

(** A load of an answer keeps the invariant, and makes the cache current unless it fails. *)
Lemma accept_ok c r cache res : inv c → world r → http_accept decode by_content_type own_codec c (http_fetch max (http_server r (h_etag c))) = (cache, res) →
  inv cache ∧ (is_Ok res = true → current r cache).
Proof using Hworld Hmax.
  intros Hc Hr Ha. destruct (http_cached decode by_content_type own_codec max world Hworld Hmax c r Hc Hr) as [Hres Hinv].
  cbn [dc_load dc_fresh http_cache] in Hres, Hinv. rewrite http_Load_split, Ha in Hres, Hinv. split; [exact Hinv|].
  apply http_accept_ok in Ha. destruct res as [snap|]; [|done]. intros _. unfold current. cbn in Hres. by rewrite <-Hres, Ha.
Qed.

Definition load_ok (s : http_watch) : Prop :=
  match hw_load s with
  | None => True
  | Some (Asked etag, c) => etag = h_etag (hw_cache s) ∧ c = true
  | Some (Answered x, c) => (∃ e, x = Err e) ∨ ∃ r, world r ∧ x = http_fetch max (http_server r (h_etag (hw_cache s))) ∧ (c = true → r = hw_server s)
  end.

Definition poll_ok (s : http_watch) : Prop :=
  match hw_poll s with
  | Some (f, true) =>
      stale_load (hw_load s) = false ∧
      match f with
      | Asked etag => etag ≠ "" → etag = d_version (hw_server s) → current (hw_server s) (hw_cache s)
      | Answered (Err _) => True
      | Answered (Ok None) => current (hw_server s) (hw_cache s)
      | Answered (Ok (Some (body, etag, _))) => body = d_body (hw_server s) ∧ etag = d_version (hw_server s)
      end
  | _ => True
  end.

Record http_ok (s : http_watch) : Prop := {
  ho_world : world (hw_server s);
  ho_inv : inv (hw_cache s);
  ho_load : load_ok s;
  ho_poll : poll_ok s;
  ho_polled : hw_polled s = true → stale_load (hw_load s) = false
                ∧ (current (hw_server s) (hw_cache s) ∨ hw_ch s ≠ [] ∨ hw_due s = true ∨ is_Some (hw_load s));
}.

(** A comparison that finds no change, of an answer that is not stale. *)
Lemma compare_current s x : http_ok s → hw_poll s = Some (Answered (Ok x), true) → (http_compare (hw_cache s) x).1 = false →
  current (hw_server s) (hw_cache s).
Proof using Hworld.
  intros [Hw Hinv _ Hp _] Hpoll. unfold poll_ok in Hp. rewrite Hpoll in Hp. destruct Hp as [_ Hp]. destruct x as [[[body etag] ct]|]; [|done].
  destruct Hp as [-> ->]. cbn. destruct (h_loaded (hw_cache s)) eqn:Hl; [|done]. cbn.
  destruct (String.eqb_spec (go_sha256 (d_body (hw_server s))) (h_bodyHash (hw_cache s))) as [Hh|]; [|done].
  destruct (String.eqb_spec (d_version (hw_server s)) (h_etag (hw_cache s))) as [Hv|]; [|done]. intros _. by apply current_hash.
Qed.

Lemma offer_one_nonempty {A} (ch : list A) ev : (Offer 1 ch ev).1 ≠ [].
Proof using Type. destruct ch as [|x ch]; cbn; [done|]. by destruct ch. Qed.

Lemma http_step_ok s s' : http_step s s' → http_ok s → http_ok s'.
Proof using Hworld Hmax.
  intros Hst Hok. pose proof Hok as [Hw Hinv Hl Hp Hpd]. unfold load_ok, poll_ok in *.
  destruct Hst as [r Hr|Hnone|etag c x Hpoll Hx|e c Hpoll|x c ch Hpoll Hch|ev ch Hch|due Hload Hdue|etag c x Hload Hx|x c cache res Hload Ha].
  - split; cbn; try done; unfold load_ok, poll_ok; cbn.
    + destruct (hw_load s) as [[[etag|x] c]|]; cbn; [done| |done]. destruct Hl as [?|(r0 & Hr0 & Hx & _)]; [by left|right]. by exists r0.
    + by destruct (hw_poll s) as [[f c]|].
  - split; cbn; try done. unfold poll_ok. cbn. destruct (stale_load (hw_load s)) eqn:Hs; cbn; [done|]. split; [done|]. intros Hne Heq. by apply current_etag.
  - split; cbn; try done. unfold poll_ok. cbn. rewrite Hpoll in Hp. destruct c; [|done]. destruct Hp as [Hs Hp]. split; [done|].
    destruct Hx as [[e ->]|Hx]; [done|]. destruct (fetch_cases (hw_server s) etag) as [(Hf & Hne & Heq)|[[e Hf]|Hf]]; rewrite Hx, Hf; [by apply Hp|done|done].
  - by split.
  - split; cbn; try done. intros Hpol. assert (stale_load (hw_load s) = false) as Hs.
    { apply orb_true_iff in Hpol as [Hpol| ->]; [by apply Hpd|]. rewrite Hpoll in Hp. by destruct Hp. }
    split; [done|]. destruct (http_compare (hw_cache s) x) as [changed revision] eqn:Hcmp. destruct changed.
    { right; left. rewrite Hch. apply offer_one_nonempty. }
    subst ch. destruct c; [left; apply (compare_current s x); [done..|by rewrite Hcmp]|]. rewrite orb_false_r in Hpol. by apply Hpd.
  - split; cbn; try done. intros Hpol. destruct (Hpd Hpol) as [Hs _]. split; [done|]. tauto.
  - split; cbn; try done.
    + unfold poll_ok. cbn. destruct (hw_poll s) as [[f []]|]; [|done..]. by destruct Hp.
    + intros Hpol. split; [done|]. do 3 right. by eexists.
  - rewrite Hload in Hl. destruct Hl as [-> ->]. split; cbn; try done.
    + unfold load_ok. cbn. destruct Hx as [?|Hx]; [by left|right]. by exists (hw_server s).
    + unfold poll_ok. cbn. destruct (hw_poll s) as [[f []]|]; [|done..]. by destruct Hp.
    + intros Hpol. split; [done|]. do 3 right. by eexists.
  - rewrite Hload in Hl. assert (inv cache ∧ (c = true → is_Ok res = true → current (hw_server s) cache)) as [Hinv' Hcur].
    { destruct Hl as [[e ->]|(r & Hr & -> & Hc)]; [injection Ha as <- <-; by split|]. destruct (accept_ok _ _ _ _ Hinv Hr Ha) as [Hi Hc'].
      split; [done|]. intros ->. by rewrite <-(Hc eq_refl). }
    assert (c = true → current (hw_server s) (hw_cache s) → current (hw_server s) cache) as Hkeep.
    { intros Hc Hcs. destruct res eqn:Hres; [by apply Hcur|]. apply http_accept_ok in Ha. by subst cache. }
    split; cbn; try done.
    + unfold poll_ok. cbn. destruct (hw_poll s) as [[f []]|] eqn:Hpoll; [|done..]. destruct Hp as [Hs Hp]. rewrite Hload in Hs. split; [done|].
      assert (c = true) as Hct by (by destruct c). destruct f as [etag|[[[[b e] ct]|]|e]]; [|done| |done].
      * intros Hne Heq. apply Hkeep; [done|]. by apply Hp.
      * by apply Hkeep.
    + intros [Hpol Hres]%andb_true_iff. split; [done|]. left. destruct (Hpd Hpol) as [Hs _]. rewrite Hload in Hs. apply Hcur; [by destruct c|done].
Qed.

Lemma http_reachable_ok r s : world r → rtc http_step (http_start r) s → http_ok s.
Proof using Hworld Hmax.
  intros Hr Hs. assert (http_ok (http_start r)) as Hok by (split; cbn; [done|by constructor|done|done|done]).
  induction Hs as [s|s1 s2 s Hst _ IH]; [done|]. apply IH. by eapply http_step_ok.
Qed.
End http_watch.

(** ** Hierarchies (parameterstore.go, azappconfig.go) *)

Record ssm_config := { sc_Path : string; sc_Decrypt : bool; sc_Priority : Z }.
Record ssm_provider := { sv_base : parameter_provider; sv_decrypt : bool; sv_priority : Z }.

Definition ssm_Option : Type := ssm_provider → ssm_provider.

Definition ssm_WithMaxBodyBytes (n : Z) : ssm_Option := λ p,
  {| sv_base := {| ps_path := ps_path (sv_base p); ps_maxBodyBytes := if (n <=? 0)%Z then DefaultMaxBodyBytes else n |};
     sv_decrypt := sv_decrypt p; sv_priority := sv_priority p |}.

(** [parameterstore.New]; [client] says whether there is one. *)
Definition ssm_New (cfg : ssm_config) (client : bool) (opts : list ssm_Option) : result string ssm_provider :=
  if negb client then Err "fastconf/parameterstore: client is required"
  else
    let root := TrimRight (sc_Path cfg) "/" in
    if String.eqb root "" || negb (HasPrefix root "/") then Err "fastconf/parameterstore: non-root absolute path is required"
    else if existsb bad_parameter_segment (strings_Split (str_drop 1 root) "/") then Err "fastconf/parameterstore: invalid path"
    else Ok (foldl (λ p (opt : ssm_Option), opt p)
           {| sv_base := {| ps_path := root; ps_maxBodyBytes := DefaultMaxBodyBytes |}; sv_decrypt := sc_Decrypt cfg;
              sv_priority := if Z.eqb (sc_Priority cfg) 0 then PriorityKV else sc_Priority cfg |} opts).

Definition ssm_Name (p : ssm_provider) : string := "ssm:" +:+ ps_path (sv_base p).

Record az_setup := { as_Name : string; as_Prefix : string; as_Label : string; as_Priority : Z }.
Record az_provider := { ap_cfg : az_setup; ap_maxBytes : Z }.

Definition az_Option : Type := az_provider → az_provider.

Definition az_WithMaxBodyBytes (n : Z) : az_Option := λ p,
  {| ap_cfg := ap_cfg p; ap_maxBytes := if (n <=? 0)%Z then DefaultMaxBodyBytes else n |}.

(** [azappconfig.New]; [QueryEscape] is that of [net/url]. *)
Definition az_New (QueryEscape : string → string) (cfg : az_setup) (client : bool) (opts : list az_Option) : result string az_provider :=
  if negb client then Err "fastconf/azappconfig: client is required"
  else if existsb (λ c, Ascii.eqb c Ascii.zero) (String.list_ascii_of_string (as_Prefix cfg +:+ as_Label cfg))
  then Err "fastconf/azappconfig: NUL is not a valid selector"
  else Ok (foldl (λ p (opt : az_Option), opt p)
         {| ap_cfg := {| as_Name := if String.eqb (as_Name cfg) "" then "azappconfig:" +:+ as_Prefix cfg +:+ "?label=" +:+ QueryEscape (as_Label cfg)
                                    else as_Name cfg;
                         as_Prefix := as_Prefix cfg; as_Label := as_Label cfg;
                         as_Priority := if Z.eqb (as_Priority cfg) 0 then PriorityKV else as_Priority cfg |};
            ap_maxBytes := DefaultMaxBodyBytes |} opts).

(** The selection that a provider loads. *)
Definition az_selection (p : az_provider) : azure_config :=
  {| az_Prefix := as_Prefix (ap_cfg p); az_Label := as_Label (ap_cfg p); az_maxBytes := ap_maxBytes p |}.

Lemma limit_positive n : (0 < if (n <=? 0)%Z then DefaultMaxBodyBytes else n)%Z.
Proof. destruct (Z.leb_spec n 0); [done|lia]. Qed.

Lemma priority_set n : (if Z.eqb n 0 then PriorityKV else n) ≠ 0%Z.
Proof. by destruct (Z.eqb_spec n 0). Qed.

(** Whatever limits are set, a provider that [New] accepts has a name, a priority
    and a positive limit, and selects what its configuration says. *)
Lemma ssm_setup_ok cfg limits p : ssm_New cfg true (ssm_WithMaxBodyBytes <$> limits) = Ok p →
  parameter_New (sc_Path cfg) = Some (ps_path (sv_base p)) ∧ sv_priority p ≠ 0%Z ∧ (0 < ps_maxBodyBytes (sv_base p))%Z.
Proof.
  unfold ssm_New, parameter_New. cbn [negb]. destruct (_ || _); [done|]. destruct (existsb _ _); [done|]. intros [= <-].
  apply (options_keep
    (λ q, Some (TrimRight (sc_Path cfg) "/") = Some (ps_path (sv_base q)) ∧ sv_priority q ≠ 0%Z ∧ (0 < ps_maxBodyBytes (sv_base q))%Z)).
  - split_and!; [done|apply priority_set|done].
  - apply Forall_fmap, Forall_true. intros n q (Hp & Hprio & _). split_and!; [done..|]. apply limit_positive.
Qed.

Lemma az_setup_ok QueryEscape cfg limits p : az_New QueryEscape cfg true (az_WithMaxBodyBytes <$> limits) = Ok p →
  as_Name (ap_cfg p) ≠ "" ∧ as_Priority (ap_cfg p) ≠ 0%Z ∧ (0 < ap_maxBytes p)%Z
  ∧ key_filter (az_selection p) = Hierarchies.escape (as_Prefix cfg) +:+ "*".
Proof.
  unfold az_New. cbn [negb]. destruct (existsb _ _); [done|]. intros [= <-].
  apply (options_keep (λ q, as_Name (ap_cfg q) ≠ "" ∧ as_Priority (ap_cfg q) ≠ 0%Z ∧ (0 < ap_maxBytes q)%Z
    ∧ key_filter (az_selection q) = Hierarchies.escape (as_Prefix cfg) +:+ "*")).
  - split_and!; cbn; [|apply priority_set|done|done]. destruct (String.eqb_spec (as_Name cfg) ""); done.
  - apply Forall_fmap, Forall_true. intros n q (Hn & Hprio & _ & Hk). split_and!; [done..| |done]. apply limit_positive.
Qed.

(** ** Properties *)

(** C39: the HTTP watch.  Loads and polls overlap, requests fail, and the document
    changes at any moment.  Still no change is lost: once a poll has ended that
    began after the last change, and no load failed since, the provider holds
    what the server holds, or an event waits, or a load is due or under way; so
    that with an empty channel and no load left the document is current.  And
    such a poll is always possible once no load is under way. *)
Theorem http_watch_current `{GoStd} (decode : string → result string gomap) (by_content_type : string → option (string → result string gomap))
    (own_codec : bool) (max : Z) (world : resource → Prop) (r : resource) (s : http_watch)
    (Hworld : consistent world) (Hmax : (max < MaxInt64)%Z) (Hr : world r)
    (Hs : rtc (http_step decode by_content_type own_codec max world) (http_start r) s) :
  let fresh_now := fresh max (http_decoder decode by_content_type own_codec) (hw_server s) (d_version (hw_server s)) in
  (hw_polled s = true →
     fresh_now = Ok (h_lastBody (hw_cache s), h_etag (hw_cache s)) ∨ hw_ch s ≠ [] ∨ hw_due s = true ∨ is_Some (hw_load s))
  ∧ (hw_poll s = None → hw_load s = None → is_Ok (http_fetch max (http_server (hw_server s) (h_etag (hw_cache s)))) = true →
     ∃ s', rtc (http_step decode by_content_type own_codec max world) s s' ∧ hw_polled s' = true ∧ hw_server s' = hw_server s).
Proof.
  apply (http_reachable_ok _ _ _ _ _ Hworld Hmax r s Hr) in Hs as [_ _ _ _ Hpd]. split; [by intros Hpol; apply Hpd|].
  intros Hpoll Hload Hok. destruct (http_fetch _ _) as [x|e] eqn:Hx; [|done].
  eexists. split; [|split].
  - eapply rtc_l; [by apply h_tick|]. rewrite Hload. eapply rtc_l; [eapply h_poll_answer; [done|right; exact (eq_sym Hx)]|].
    eapply rtc_l; [by eapply h_poll_done|]. apply rtc_refl.
  - cbn. by rewrite orb_true_r.
  - done.
Qed.

(** The state that a run has come to, computed. *)
Ltac evaluated := match goal with |- rtc _ ?s _ => let s' := eval vm_compute in s in change s with s' end.

(** The document changes from one version to another, and the watch notices. *)
Lemma http_watch_current_witness :
  let decode (b : string) : result string gomap := Ok (Some {[ b := VNil ]}) in
  let r1 := {| d_version := "v1"; d_generation := 1; d_ct := "text"; d_body := "one" |} in
  let r2 := {| d_version := "v2"; d_generation := 2; d_ct := "text"; d_body := "two" |} in
  ∃ s, hw_server s = r2 ∧ fresh 100 (http_decoder decode (λ _, None) true) r2 "v2" = Ok (h_lastBody (hw_cache s), h_etag (hw_cache s)).
Proof.
  intros decode r1 r2. set (world := λ r, r = r1 ∨ r = r2).
  assert (@consistent example_std world) as Hw by (split; intros x y [-> | ->] [-> | ->]; (reflexivity || (vm_compute; congruence))).
  set (step := @http_step example_std decode (λ _, None) true 100 world).
  assert (∃ s, rtc step (http_start r1) s ∧ hw_server s = r2 ∧ hw_polled s = true ∧ hw_ch s = [] ∧ hw_due s = false ∧ hw_load s = None)
    as (s & Hs & Hsv & Hp & Hc & Hd & Hl).
  { eexists. split.
    - evaluated. eapply rtc_l; [by apply (h_load _ _ _ _ _ _ false)|]. evaluated. eapply rtc_l; [by eapply h_load_answer; [|right]|].
      evaluated. eapply rtc_l; [by eapply h_load_done|]. evaluated. eapply rtc_l; [apply (h_change _ _ _ _ _ _ r2); by right|].
      evaluated. eapply rtc_l; [by apply h_tick|]. evaluated. eapply rtc_l; [by eapply h_poll_answer; [|right]|].
      evaluated. eapply rtc_l; [by eapply h_poll_done|]. evaluated. eapply rtc_l; [by eapply h_receive|].
      evaluated. eapply rtc_l; [by apply (h_load _ _ _ _ _ _ false)|]. evaluated. eapply rtc_l; [by eapply h_load_answer; [|right]|].
      evaluated. eapply rtc_l; [by eapply h_load_done|]. evaluated. apply rtc_refl.
    - vm_compute. by split_and!. }
  exists s. split; [done|]. destruct (@http_watch_current example_std decode (λ _, None) true 100 world r1 s Hw eq_refl (or_introl eq_refl) Hs) as [Hcur _].
  rewrite Hsv in Hcur. destruct (Hcur Hp) as [Hf|[Hne|[Hdue|[? Hld]]]]; [exact Hf|congruence|congruence|congruence].
Defined.
