(* ===== verification/Telemetry.v ===== *)
(** * Metrics, traces and log backends
    (observability/metrics/prometheus, observability/otel, integrations/log)

    The Prometheus sink as a table of counters and gauges, its agreement with the
    manager whose events it counts, the attributes that reach OpenTelemetry, and
    the two log backends.  Durations are left out: a histogram is the number of
    its observations. *)
From S2P Require Import Prelude GoStrings Value Patch Provenance History Options Subscribe Assemble Pipeline Manager Observers LogHandler.
Open Scope nat_scope.

(** ** The Prometheus sink (prometheus.go) *)

(** [float64(n)] of an unsigned integer, rounded to even beyond 53 bits. *)
Definition float64 (n : N) : N :=
  if (n <? 2 ^ 53)%N then n
  else
    let unit := (2 ^ (N.log2 n - 52))%N in
    let q := (n / unit)%N in
    let r := (n mod unit)%N in
    let up := ((unit <? 2 * r) || ((2 * r =? unit) && N.odd q))%N in
    ((if up then q + 1 else q) * unit)%N.

Record Sink := {
  sk_reloadTotal : gmap string nat;
  sk_reloadDur : nat;
  sk_gen : N;
  sk_layers : N;
  sk_provError : gmap string nat;
  sk_eventDropped : gmap string nat;
  sk_stageDur : gmap (string * string) nat;
}.

Definition zero_sink : Sink :=
  {| sk_reloadTotal := ∅; sk_reloadDur := 0; sk_gen := 0; sk_layers := 0; sk_provError := ∅; sk_eventDropped := ∅; sk_stageDur := ∅ |}.

Definition metric_names : list string :=
  ["fastconf_reload_total"; "fastconf_reload_duration_seconds"; "fastconf_state_generation"; "fastconf_layers_total";
   "fastconf_provider_error_total"; "fastconf_event_dropped_total"; "fastconf_stage_duration_seconds"].

(** [reg.MustRegister] in order; [None] is its panic on a name that is taken. *)
Fixpoint MustRegister (reg : gset string) (names : list string) : option (gset string) :=
  match names with
  | [] => Some reg
  | n :: names => if decide (n ∈ reg) then None else MustRegister ({[n]} ∪ reg) names
  end.

(** [New] on a registry that holds some names; a nil one is the default one. *)
Definition prom_New (default_reg : gset string) (reg : option (gset string)) : option (gset string * Sink) :=
  (λ r, (r, zero_sink)) <$> MustRegister (default default_reg reg) metric_names.

(** [vec.WithLabelValues(l).Inc()] *)
Definition inc `{Countable K} (k : K) (m : gmap K nat) : gmap K nat := <[k := S (default 0 (m !! k))]> m.

Definition result_label (ok : bool) : string := if ok then "ok" else "error".

(** The methods of the sink. *)
Definition sink_apply (s : Sink) (c : sink_call) : Sink :=
  match c with
  | SinkReloadFinished ok =>
      {| sk_reloadTotal := inc (result_label ok) (sk_reloadTotal s); sk_reloadDur := S (sk_reloadDur s); sk_gen := sk_gen s; sk_layers := sk_layers s;
         sk_provError := sk_provError s; sk_eventDropped := sk_eventDropped s; sk_stageDur := sk_stageDur s |}
  | SinkStageDuration stage ok =>
      {| sk_reloadTotal := sk_reloadTotal s; sk_reloadDur := sk_reloadDur s; sk_gen := sk_gen s; sk_layers := sk_layers s;
         sk_provError := sk_provError s; sk_eventDropped := sk_eventDropped s; sk_stageDur := inc (stage, result_label ok) (sk_stageDur s) |}
  | SinkStateGeneration gen =>
      {| sk_reloadTotal := sk_reloadTotal s; sk_reloadDur := sk_reloadDur s; sk_gen := float64 gen; sk_layers := sk_layers s;
         sk_provError := sk_provError s; sk_eventDropped := sk_eventDropped s; sk_stageDur := sk_stageDur s |}
  | SinkLayersTotal n =>
      {| sk_reloadTotal := sk_reloadTotal s; sk_reloadDur := sk_reloadDur s; sk_gen := sk_gen s; sk_layers := float64 (N.of_nat n);
         sk_provError := sk_provError s; sk_eventDropped := sk_eventDropped s; sk_stageDur := sk_stageDur s |}
  | SinkProviderError p =>
      {| sk_reloadTotal := sk_reloadTotal s; sk_reloadDur := sk_reloadDur s; sk_gen := sk_gen s; sk_layers := sk_layers s;
         sk_provError := inc p (sk_provError s); sk_eventDropped := sk_eventDropped s; sk_stageDur := sk_stageDur s |}
  | SinkEventDropped p =>
      {| sk_reloadTotal := sk_reloadTotal s; sk_reloadDur := sk_reloadDur s; sk_gen := sk_gen s; sk_layers := sk_layers s;
         sk_provError := sk_provError s; sk_eventDropped := inc p (sk_eventDropped s); sk_stageDur := sk_stageDur s |}
  end.

(** The sink behind [observe.Metrics], installed as an observer of a manager. *)
Definition effect_calls (e : effect) : list sink_call := match e with Observed ev => Metrics (Lifecycle ev) | Called _ _ => [] end.
Definition watch_metrics (s : Sink) (effs : list effect) : Sink := foldl sink_apply s (flat_map effect_calls effs).

(** ** Spans (pipeline.go, reload.go, observability/otel/otel.go) *)

(** An attribute of a span, by its Go type; the value of another type is opaque. *)
Inductive attr_value := AString (s : string) | AInt (n : Z) | AInt64 (n : Z) | ABool (b : bool) | AFloat64 (bits : Z) | AOther (id : nat).

(** What OpenTelemetry is told: an attribute, an error with the status, the end. *)
Inductive otel_call := OtelAttribute (key : string) (v : attr_value) | OtelError (e : string) | OtelStatus (e : string) | OtelEnd.

Definition otel_SetAttribute (key : string) (v : attr_value) : list otel_call :=
  match v with
  | AString _ | AInt _ | AInt64 _ | ABool _ | AFloat64 _ => [OtelAttribute key v]
  | AOther _ => []
  end.

Definition otel_RecordError (e : option string) : list otel_call :=
  match e with None => [] | Some e => [OtelError e; OtelStatus e] end.

(** [New]: whether there is a tracer. *)
Definition otel_New {A} (t : option A) : option A := t.

(** [int64(n)] of a 64-bit counter. *)
Definition int64 (n : N) : Z := if (n <? 2 ^ 63)%N then Z.of_N n else Z.of_N n - 2 ^ 64.

(** The attributes that a reload sets on its root span and on the span of the
    assembly, and a stage on its own, before [runTimedStage] adds its two. *)
Definition reload_attributes (reason : string) (gen : N) : list (string * attr_value) := [("reason", AString reason); ("generation", AInt64 (int64 gen))].
Definition assemble_attributes (layers : option nat) : list (string * attr_value) :=
  match layers with Some n => [("layers", AInt64 (Z.of_nat n))] | None => [] end.
Definition stage_attributes (name : string) (i : nat) (reason : string) : list (string * attr_value) :=
  [("fastconf.stage", AString name); ("fastconf.stage.index", AInt64 (Z.of_nat i)); ("fastconf.reload.reason", AString reason)].
Definition timed_attributes (elapsed_ms : Z) (err : option string) : list (string * attr_value) :=
  [("fastconf.stage.elapsed_ms", AInt64 elapsed_ms); ("fastconf.stage.success", ABool (bool_decide (err = None)))].

(** The span of a timed stage as OpenTelemetry sees it. *)
Definition otel_attributes (attrs : list (string * attr_value)) : list otel_call := flat_map (λ a, otel_SetAttribute a.1 a.2) attrs.
Definition otel_stage (own : list (string * attr_value)) (elapsed_ms : Z) (err : option string) : list otel_call :=
  otel_attributes own ++ otel_RecordError err ++ otel_attributes (timed_attributes elapsed_ms err) ++ [OtelEnd].

(** ** Log backends (phuslu.go, zerolog.go)

    [number] gives the library's number of each of its levels. *)
Section backends.
Context (number : Level → Z).

(** The backend of a logger with a level; [WithLevel] starts a record, or none. *)
Definition log_backend (logger_level : Z) (WithLevel : Z → bool) : Backend :=
  {| be_Enabled := λ l, (logger_level <=? number l)%Z; be_Event := λ l, WithLevel (number l) |}.

Definition zerolog_NewHandler (logger_level : Z) (WithLevel : Z → bool) (opts : Options) : option handler :=
  NewHandler (Some (log_backend logger_level WithLevel)) opts.

(** A nil logger is [None]. *)
Definition phuslu_NewHandler (l : option (Z * (Z → bool))) (opts : Options) : option handler :=
  NewHandler ((λ l, log_backend l.1 l.2) <$> l) opts.
End backends.

(** The methods of a handler, [noopHandler] included. *)
Definition slog_Enabled (h : option handler) (lvl : Z) : bool := match h with Some h => Enabled h lvl | None => false end.
Definition slog_Handle (h : option handler) (r : record) : list event_call := match h with Some h => Handle h r | None => [] end.
Definition slog_WithAttrs (h : option handler) (attrs : list attr) : option handler := (λ h, WithAttrs h attrs) <$> h.
Definition slog_WithGroup (h : option handler) (name : string) : option handler := (λ h, WithGroup h name) <$> h.

(** [sourceFor] a frame: its file and line. *)
Definition sourceFor (frame : string * nat) : string := if String.eqb frame.1 "" then "" else frame.1 +:+ ":" +:+ itoa frame.2.

(** ** Lemmas: the table *)

Definition count_of `{Countable K} (k : K) (m : gmap K nat) : nat := default 0 (m !! k).

Lemma count_inc `{Countable K} (k k' : K) m : count_of k (inc k' m) = (if decide (k = k') then 1 else 0) + count_of k m.
Proof. unfold count_of, inc. case_decide as Hk; [subst; by rewrite lookup_insert_eq|by rewrite lookup_insert_ne]. Qed.

(** The reloads that some effects report as finished, and the states as published,
    each with its generation and its layers. *)
Definition finishes (effs : list effect) : list bool := omap (λ e, match e with Observed (ReloadFinished _ err) => Some (no_error err) | _ => None end) effs.
Definition published (effs : list effect) : list (N * nat) :=
  omap (λ e, match e with Observed (Committed _ next _ layers) => Some (next, layers) | _ => None end) effs.

Lemma finishes_app a b : finishes (a ++ b) = finishes a ++ finishes b.
Proof. apply omap_app. Qed.

Lemma published_app a b : published (a ++ b) = published a ++ published b.
Proof. apply omap_app. Qed.

Lemma published_publications effs : published effs = published (publications effs).
Proof.
  induction effs as [|e effs IH]; [done|]. unfold publications. rewrite filter_cons. fold (publications effs).
  destruct e as [[]|]; simpl; by rewrite ?IH.
Qed.

Lemma watch_metrics_app s a b : watch_metrics s (a ++ b) = watch_metrics (watch_metrics s a) b.
Proof. unfold watch_metrics. by rewrite flat_map_app, foldl_app. Qed.

Definition occurrences (b : bool) (l : list bool) : nat := length (filter (λ x, x = b) l).

Lemma label_inj b b' : result_label b = result_label b' ↔ b = b'.
Proof. by destruct b, b'. Qed.

(** What the sink holds, from the events it was told of. *)
Lemma watch_metrics_totals s effs b :
  count_of (result_label b) (sk_reloadTotal (watch_metrics s effs)) = count_of (result_label b) (sk_reloadTotal s) + occurrences b (finishes effs)
  ∧ sk_reloadDur (watch_metrics s effs) = sk_reloadDur s + length (finishes effs).
Proof.
  revert s. induction effs as [|e effs IH]; intros s; [unfold occurrences; cbn; lia|].
  change (e :: effs) with ([e] ++ effs). rewrite watch_metrics_app, finishes_app, length_app. unfold occurrences in *. rewrite filter_app, length_app.
  destruct (IH (watch_metrics s [e])) as [-> ->]. destruct e as [[]|]; cbn; try lia. rewrite count_inc. split; [|lia].
  by destruct b, (no_error err); cbn; rewrite ?Nat.add_0_r, ?Nat.add_succ_r.
Qed.

Definition result_labelled (s : Sink) : Prop := ∀ l, is_Some (sk_reloadTotal s !! l) → l = "ok" ∨ l = "error".

Lemma watch_metrics_labels s effs : result_labelled s → result_labelled (watch_metrics s effs).
Proof.
  revert s. induction effs as [|e effs IH]; intros s Hs; [done|]. change (e :: effs) with ([e] ++ effs). rewrite watch_metrics_app. apply IH. clear IH.
  destruct e as [[]|]; try exact Hs. intros l. cbn. unfold inc.
  destruct (decide (l = result_label (no_error err))) as [->|Hne]; [intros _; destruct (no_error err); [by left|by right]|].
  rewrite lookup_insert_ne by done. apply Hs.
Qed.

Lemma watch_metrics_gauges s effs :
  sk_gen (watch_metrics s effs) = match last (published effs) with Some (g, _) => float64 g | None => sk_gen s end
  ∧ sk_layers (watch_metrics s effs) = match last (published effs) with Some (_, n) => float64 (N.of_nat n) | None => sk_layers s end.
Proof.
  induction effs as [|e effs IH] using rev_ind; [done|]. rewrite watch_metrics_app, published_app.
  destruct e as [[]|]; cbn; rewrite ?app_nil_r; try exact IH. by rewrite last_snoc.
Qed.

(** Whole numbers up to 2^53 are exact. *)
Lemma float64_exact n : (n <= 2 ^ 53)%N → float64 n = n.
Proof.
  intros Hn. unfold float64. destruct (N.ltb_spec n (2 ^ 53)); [done|]. assert (n = 2 ^ 53)%N as -> by lia. reflexivity.
Qed.

(** ** Lemmas: the manager *)

Section counted.
Context `{GoStd} `{GoJson} `{Codecs} {T : Type} `{Target T}.
Context (customEncoding : bool) (o : options T).

(** The outcomes of the reloads that an action runs. *)
Definition finished (m : manager T) (a : action T) : list bool :=
  match a with
  | Serve w None ctx (ReqReload reason key extra) => let '(_, _, r) := reload customEncoding o w m ctx reason key extra in [is_Ok r]
  | _ => []
  end.

Fixpoint all_finished (m : manager T) (actions : list (action T)) : list bool :=
  match actions with
  | [] => []
  | a :: actions => finished m a ++ all_finished (perform customEncoding o m a).1 actions
  end.

Lemma finishes_emit e : (∀ reason err, e ≠ ReloadFinished reason err) → finishes (observed (emit o e)) = [].
Proof. intros He. unfold emit, observed. destruct (hasObservers o); [|done]. destruct e; try done. by destruct (He reason err). Qed.

Lemma finishes_calls (calls : list (N * sub_result)) : finishes ((λ c : N * sub_result, Called c.1 c.2) <$> calls) = [].
Proof. by induction calls. Qed.

Lemma run_stages_unfinished ctx i stages (p : pipelineState T) evs r : run_stages o ctx i stages p = (evs, r) → finishes (observed evs) = [].
Proof.
  revert i p evs r. induction stages as [|[name run] stages IH]; intros i p evs r; cbn [run_stages]; [by intros [= <- _]|].
  destruct (ctx (AtStage i)); [by intros [= <- _]|]. destruct (run p) as [p'|e]; [|intros [= <- _]; by apply finishes_emit].
  destruct (run_stages o ctx (S i) stages p') as [evs' r'] eqn:Hrun. intros [= <- _].
  rewrite observed_app, finishes_app, finishes_emit by done. by eapply IH.
Qed.

Lemma runPipeline_unfinished ctx a reason dry evs r : runPipeline o ctx a reason dry = (evs, r) → finishes (observed evs) = [].
Proof.
  unfold runPipeline. destruct (runStages o ctx _) as [evs' r'] eqn:Hrun. intros [= <- _]. by eapply run_stages_unfinished.
Qed.

Lemma publishSnapshot_unfinished (m : manager T) prev next : finishes (publishSnapshot o m prev next).2 = [].
Proof. unfold publishSnapshot. cbn. by rewrite finishes_app, finishes_emit, finishes_calls. Qed.

Lemma commit_unfinished (m m' : manager T) ctx a reason key effs r : commit o m ctx a reason key = (m', effs, r) → finishes effs = [].
Proof.
  unfold commit. destruct (ctx AtCommit); [by intros [= _ <- _]|]. destruct (negb _ && _); [by intros [= _ <- _]|].
  destruct (runPipeline o ctx a reason false) as [evs r0] eqn:Hrun. apply runPipeline_unfinished in Hrun as Hev.
  destruct r0 as [[p hash]|e]; [|by intros [= _ <- _]]. destruct (ctx AtPublish); [by intros [= _ <- _]|].
  destruct (pl_target p) as [v|]; [|by intros [= _ <- _]]. destruct (match mg_state m with Some prev => _ | None => _ end); [by intros [= _ <- _]|].
  destruct (newCommittedState _ _ _ _ _ _ _) as [m1 next]. pose proof (publishSnapshot_unfinished m1 (mg_state m) next) as Hp.
  destruct (publishSnapshot o m1 (mg_state m) next) as [m2 pubs]. intros [= _ <- _]. cbn [snd] in Hp. by rewrite finishes_app, Hev, Hp.
Qed.

Lemma is_Ok_no_error {A} (r : fres A) : no_error (error_of r) = is_Ok r.
Proof. by destruct r. Qed.

Lemma reload_finishes w (m m' : manager T) ctx reason key extra effs r : hasObservers o = true →
  reload customEncoding o w m ctx reason key extra = (m', effs, r) → finishes effs = [is_Ok r].
Proof.
  intros Ho. unfold reload. destruct (assemble _ _ _ _ _ _ _) as [[ca dirs] ra]. destruct ra as [a|e]; cbn [error_of].
  - destruct (commit o _ ctx a reason key) as [[m1 effs1] r1] eqn:Hc. apply commit_unfinished in Hc. intros [= _ <- <-].
    rewrite !finishes_app, Hc, !observed_app, !finishes_app, !finishes_emit by done. unfold emit. rewrite Ho. cbn. by rewrite is_Ok_no_error.
  - intros [= _ <- <-]. rewrite !observed_app, !finishes_app, !finishes_emit by done. unfold emit. by rewrite Ho.
Qed.

Lemma perform_finishes (m : manager T) a : hasObservers o = true → finishes (perform customEncoding o m a).2 = finished m a.
Proof.
  intros Ho. destruct a as [w ended ctx r|s|id]; [|done..]. cbn [perform finished]. unfold runReloadRequest. destruct ended as [e|]; [done|].
  destruct r as [reason key extra|hostname|target|reason e]; cbn [run_request].
  - destruct (reload customEncoding o w m ctx reason key extra) as [[m1 effs1] r1] eqn:Hr. apply reload_finishes in Hr; [|done]. by destruct r1.
  - unfold runPlan. destruct (assemble _ _ _ _ _ _ _) as [[ca dirs] [a|e]]; [|done].
    destruct (runPipeline o ctx a "plan" true) as [evs [[p hash]|e]] eqn:Hrun; apply runPipeline_unfinished in Hrun; [|done]. by destruct (pl_target p).
  - unfold applyRollback. match goal with |- context [publishSnapshot o ?a ?b ?c] =>
      pose proof (publishSnapshot_unfinished a b c) as Hp; destruct (publishSnapshot o a b c) as [m1 pubs] end. exact Hp.
  - done.
Qed.

Lemma published_publication subs prev (next : State T) : hasObservers o = true →
  published (publication_of o subs prev next) = [(st_generation next, length (st_sources next))].
Proof.
  intros Ho. assert (∀ calls : list (N * sub_result), published ((λ c, Called c.1 c.2) <$> calls) = []) as Hcalls by (intros calls; by induction calls).
  unfold publication_of. rewrite published_app, Hcalls. unfold emit. by rewrite Ho.
Qed.

(** The last publication reported is the current state. *)
Lemma perform_published (m : manager T) a m' effs : hasObservers o = true → perform customEncoding o m a = (m', effs) →
  (published effs = [] ∧ mg_state m' = mg_state m)
  ∨ ∃ next, published effs = [(st_generation next, length (st_sources next))] ∧ mg_state m' = Some next.
Proof.
  intros Ho Hp. apply perform_advance in Hp as [[Hadv|(-> & Hs & _)] _]; [|by left]. rewrite published_publications.
  remember (publications effs) as pubs eqn:Hpubs. destruct Hadv as [(Hs & _)|next Hs]; [by left|right].
  exists next. split; [by apply published_publication|done].
Qed.

Lemma perform_all_published (m : manager T) actions m' effs : hasObservers o = true → perform_all customEncoding o m actions = (m', effs) →
  match last (published effs) with
  | None => mg_state m' = mg_state m
  | Some (g, n) => ∃ next, mg_state m' = Some next ∧ st_generation next = g ∧ length (st_sources next) = n
  end
  ∧ finishes effs = all_finished m actions.
Proof.
  intros Ho. revert m m' effs. induction actions as [|a actions IH]; intros m m' effs; cbn [perform_all all_finished]; [by intros [= <- <-]|].
  destruct (perform customEncoding o m a) as [m1 effs1] eqn:Ha. destruct (perform_all customEncoding o m1 actions) as [m2 effs2] eqn:Hall.
  intros [= <- <-]. destruct (IH _ _ _ Hall) as [Hlast Hfin]. pose proof (perform_finishes m a Ho) as Hf. rewrite Ha in Hf.
  rewrite published_app, finishes_app, last_app, Hfin. cbn [fst snd] in Hf |- *. rewrite Hf. split; [|done].
  destruct (last (published effs2)) as [[g n]|]; [done|]. destruct (perform_published m a m1 effs1 Ho Ha) as [[-> Hs]|(next & -> & Hs)]; [cbn; congruence|].
  cbn. exists next. by rewrite Hlast.
Qed.
End counted.

(** ** Properties *)

(** C40: metrics.  Whatever requests a manager serves, its sink agrees with it: the
    generation and layer gauges are those of the published state, the counter
    under the label "ok" is the number of reloads that ended without an error and
    the one under "error" that of the others, no other label is used, and the
    histogram has one observation for each reload.  The layers are thus not those
    of the most recent reload, as the help text of the gauge has it, when that
    reload failed or found nothing changed: see [layers_of_the_published]. *)
Theorem metrics_exact `{GoStd} `{GoJson} `{Codecs} {T} `{Target T} (customEncoding : bool) (o : options T) (actions : list (action T))
    (m : manager T) (effs : list effect) (s : Sink)
    (Hobs : hasObservers o = true) (Hrun : perform_all customEncoding o (newManager o) actions = (m, effs)) (Hs : s = watch_metrics zero_sink effs) :
  sk_gen s = float64 (default 0%N (st_generation <$> mg_state m))
  ∧ sk_layers s = float64 (N.of_nat (default 0 (length ∘ st_sources <$> mg_state m)))
  ∧ count_of "ok" (sk_reloadTotal s) = occurrences true (all_finished customEncoding o (newManager o) actions)
  ∧ count_of "error" (sk_reloadTotal s) = occurrences false (all_finished customEncoding o (newManager o) actions)
  ∧ (∀ l, is_Some (sk_reloadTotal s !! l) → l = "ok" ∨ l = "error")
  ∧ sk_reloadDur s = length (all_finished customEncoding o (newManager o) actions).
Proof.
  apply perform_all_published in Hrun as [Hlast <-]; [|done]. rewrite Hs. destruct (watch_metrics_gauges zero_sink effs) as [-> ->].
  split_and!.
  - destruct (last (published effs)) as [[g n]|]; [destruct Hlast as (next & -> & <- & _); done|by rewrite Hlast].
  - destruct (last (published effs)) as [[g n]|]; [destruct Hlast as (next & -> & _ & <-); done|by rewrite Hlast].
  - exact (proj1 (watch_metrics_totals zero_sink effs true)).
  - exact (proj1 (watch_metrics_totals zero_sink effs false)).
  - apply watch_metrics_labels. by intros l [? ?].
  - by destruct (watch_metrics_totals zero_sink effs true) as [_ ->].
Qed.

(** Every attribute that fastconf sets is of a type that OpenTelemetry takes, and
    a failed stage has its error and its status set before the span ends. *)
Lemma otel_complete name i reason gen layers elapsed err :
  otel_stage (stage_attributes name i reason) elapsed err
  = ((λ a, OtelAttribute a.1 a.2) <$> stage_attributes name i reason)
    ++ match err with Some e => [OtelError e; OtelStatus e] | None => [] end
    ++ ((λ a, OtelAttribute a.1 a.2) <$> timed_attributes elapsed err) ++ [OtelEnd]
  ∧ otel_attributes (reload_attributes reason gen) = ((λ a, OtelAttribute a.1 a.2) <$> reload_attributes reason gen)
  ∧ otel_attributes (assemble_attributes layers) = ((λ a, OtelAttribute a.1 a.2) <$> assemble_attributes layers).
Proof. split_and!; [by destruct err|done|by destruct layers]. Qed.

(** A metric name can be registered once: a second sink on a registry panics, and
    the first leaves what was there. *)
Lemma prom_once def reg : (∀ n, n ∈ metric_names → n ∉ default def reg) →
  ∃ reg', prom_New def reg = Some (reg', zero_sink) ∧ default def reg ⊆ reg' ∧ prom_New def (Some reg') = None.
Proof.
  intros Hfree. unfold prom_New. cbn [default]. set (r := default def reg) in *. clearbody r.
  assert (∀ names r, NoDup names → (∀ n, n ∈ names → n ∉ r) → ∃ r', MustRegister r names = Some r' ∧ r ⊆ r' ∧ ∀ n, n ∈ names → n ∈ r') as Hm.
  { clear. intros names. induction names as [|n names IH]; intros r Hnd Hf; [exists r; split_and!; [done..|]; by intros n ?%elem_of_nil|].
    apply NoDup_cons in Hnd as [Hn Hnd]. cbn. rewrite decide_False by (apply Hf; by left).
    destruct (IH ({[n]} ∪ r) Hnd) as (r' & -> & Hsub & Hin).
    { intros n' Hn' [->%elem_of_singleton|Hr]%elem_of_union; [done|]. by apply (Hf n'); [right|]. }
    exists r'. split_and!; [done|set_solver|]. intros n' [->|Hn']%elem_of_cons; [set_solver|by apply Hin]. }
  destruct (Hm metric_names r) as (r' & -> & Hsub & Hin); [apply (bool_decide_unpack _); vm_compute; exact I|done|].
  exists r'. split_and!; [done..|]. cbn [MustRegister metric_names]. rewrite decide_True; [done|]. apply Hin. by left.
Qed.

(** A record is not lost between the gate and the backend: what [Enabled] admits
    is written when the library starts records from its own level on, and a nil
    logger writes nothing. *)
Lemma log_backend_writes number level opts r :
  let h := zerolog_NewHandler number level (λ n, (level <=? n)%Z) opts in
  (slog_Enabled h (r_Level r) = true → last (slog_Handle h r) = Some (EvMsg (r_Message r)))
  ∧ slog_Handle (phuslu_NewHandler number None opts) r = [] ∧ slog_Enabled (phuslu_NewHandler number None opts) (r_Level r) = false.
Proof.
  split_and!; [|done..]. cbn [zerolog_NewHandler NewHandler slog_Enabled slog_Handle]. unfold Enabled, Handle.
  cbn [h_opts h_b ho_Level ho_AddSource h_attrs h_groupPrefix ho_GroupSeparator log_backend be_Enabled be_Event].
  destruct (match ho_Level opts with Some gate => _ | None => _ end); [done|]. intros ->. cbn [negb]. by rewrite !(assoc_L app), last_snoc.
Qed.

(** Two reloads that publish, and one that fails to. *)
Lemma metrics_exact_witness :
  let o := with_resolver example_resolver in
  let reload_with r v := Serve example_world None never (ReqReload r "" [example_over v]) in
  ∃ m effs, @perform_all example_std example_json example_codecs string example_target true o (newManager o)
      [reload_with "a" "one"; reload_with "b" "two"; reload_with "c" "bad"] = (m, effs)
    ∧ sk_gen (watch_metrics zero_sink effs) = 2%N ∧ count_of "ok" (sk_reloadTotal (watch_metrics zero_sink effs)) = 2.
Proof.
  intros o reload_with. set (actions := [_; _; _]). destruct (@perform_all example_std example_json example_codecs string example_target true o (newManager o) actions)
    as [m effs] eqn:Hrun. exists m, effs. split; [done|].
  destruct (@metrics_exact example_std example_json example_codecs string example_target true o actions m effs _ eq_refl Hrun eq_refl) as (Hg & _ & Ht & _ & _).
  split.
  - rewrite Hg. clear Hg Ht. assert (mg_state m = mg_state (@perform_all example_std example_json example_codecs string example_target true o (newManager o) actions).1)
      as -> by by rewrite Hrun. vm_compute. reflexivity.
  - etrans; [exact Ht|]. vm_compute. reflexivity.
Defined.

(** One layer is published, then two that hold the same: the gauge keeps to the one
    layer of the published state. *)
Example layers_of_the_published :
  let o := with_resolver example_resolver in
  let reload_with r vs := Serve example_world None never (ReqReload r "" (example_over <$> vs)) in
  let s := watch_metrics zero_sink (@perform_all example_std example_json example_codecs string example_target true o (newManager o)
    [reload_with "a" ["one"]; reload_with "b" ["one"; "one"]]).2 in
  sk_layers s = 1%N ∧ count_of "ok" (sk_reloadTotal s) = 2.
Proof. vm_compute. by split. Qed.
