(* ===== verification/Workflow.v ===== *)
(** * Checked updates (examples/reload, plan.go, reload.go)

    The workflow that the library is made for: look at a preview of the changed
    sources, check its reports, and only then reload.  The reload runs the
    pipeline again, for another reason and on caches that the preview warmed; the
    theorems say where it can end: as proposed, unless a policy judges by the
    reason. *)
From S2P Require Import Prelude GoStrings Value Clone Merge Patch Scan Secret Provenance LayerCache History Options Subscribe Assemble Pipeline Manager.
Open Scope nat_scope.

(** ** The checks of a preview (examples/reload/main.go) *)

Inductive plan_refusal := ValidatorFailed (name : string) (e : fc_error) | PolicyRejected (rule path : string).

Fixpoint first_failure (rs : list ValidatorReport) : option plan_refusal :=
  match rs with
  | [] => None
  | r :: rs => match vr_Err r with Some e => Some (ValidatorFailed (vr_Name r) e) | None => first_failure rs end
  end.

Fixpoint first_rejection (vs : list Violation) : option plan_refusal :=
  match vs with
  | [] => None
  | v :: vs => if bool_decide (v_Severity v = SeverityError) then Some (PolicyRejected (v_Rule v) (v_Path v)) else first_rejection vs
  end.

Definition checkPlan {T} (p : @PlanResult T) : option plan_refusal :=
  match first_failure (pr_Validators p) with Some e => Some e | None => first_rejection (pr_Policies p) end.

(** [printChange]: whether the content changed, and the line it prints. *)
Definition printChange {T} (before : State T) (p : @PlanResult T) (diffs : nat) : bool * string :=
  let changed := negb (String.eqb (st_hash before) (st_hash (pr_Proposed p))) in
  (changed,
   if changed && (diffs =? 0) then "configuration changed; no visible JSON field differences"
   else "content changed=" +:+ (if changed then "true" else "false") +:+ " warnings=" +:+ itoa (length (pr_Policies p))).

Section workflow.
Context `{GoStd} `{GoJson} `{Codecs} {T : Type} `{Target T}.
Context (customEncoding : bool) (o : options T).

Inductive update_end := Updated | PlanFailed (e : fc_error) | Refused (r : plan_refusal) | ReloadFailed (e : fc_error).

(** A step of [run]: preview, check, reload; on sources that do not change meanwhile. *)
Definition checked_update (w : world) (m : manager T) (reason : string) : manager T * list effect * update_end :=
  let '(m, effs, r) := runPlan customEncoding o w m never "" in
  match r with
  | Err e => (m, effs, PlanFailed e)
  | Ok p =>
      match checkPlan p with
      | Some e => (m, effs, Refused e)
      | None =>
          let '(m, effs', r) := reload customEncoding o w m never reason "" [] in
          (m, effs ++ effs', match r with Ok _ => Updated | Err e => ReloadFailed e end)
      end
  end.

(** ** The reason of a run *)

Definition with_reason (p : pipelineState T) (r : string) : pipelineState T :=
  Build_pipelineState r (pl_staged p) (pl_sources p) (pl_merged p) (pl_origins p) (pl_target p) (pl_strict p) (pl_appendSlices p) (pl_mergeKeys p)
    (pl_dryRun p) (pl_reports p) (pl_policyViolations p).

(** The policies, that are told the reason, answer to it as to that of a preview. *)
Definition same_verdicts (v : T) (reason : string) : Prop :=
  ∀ p, p ∈ o_Policies o → p_Evaluate p v reason (o_Tenant o) = p_Evaluate p v "plan" (o_Tenant o).

Definition ignores_reason (run : pipelineState T → fres (pipelineState T)) : Prop :=
  ∀ p r, run (with_reason p r) = (λ q, with_reason q r) <$> run p.

Ltac blind := intros p r; destruct p.

Lemma merge_blind : ignores_reason (runMerge o).
Proof. blind. unfold runMerge. cbn. by destruct (foldM _ _ _) as [[m ix]|]. Qed.

Lemma transform_blind : ignores_reason (runTransform o).
Proof. blind. unfold runTransform. cbn. by destruct (foldM _ _ _). Qed.

Lemma secret_blind : ignores_reason (runSecretResolve o).
Proof. blind. unfold runSecretResolve. cbn. destruct (o_SecretResolver o); [|done]. by destruct (WalkLeaves _ _ _ _) as [[[e|] ix] tree]. Qed.

Lemma hooks_blind : ignores_reason runTypedHooks.
Proof. blind. unfold runTypedHooks. cbn. destruct t_hooks as [hook|]; [|done]. by destruct (hook _). Qed.

Lemma decode_blind : ignores_reason (runDecode o).
Proof. blind. unfold runDecode. cbn. destruct (t_encode _ _); [|done]. destruct (decode_input o _); [|done]. by destruct (t_struct_defaults _). Qed.

Lemma finding_blind p r name err : finding (with_reason p r) name err = (with_reason (finding p name err).1 r, (finding p name err).2).
Proof. unfold finding. cbn. by destruct (pl_dryRun p). Qed.

Lemma field_meta_blind : ignores_reason runFieldMetaCheck.
Proof.
  intros p r. unfold runFieldMetaCheck. cbn [with_reason pl_target]. destruct (pl_target p) as [v|]; [|done].
  destruct (t_field_meta v) as [|x ms]; [done|]. generalize (x :: ms). clear x ms. intros ms.
  assert (∀ errs, foldl field_meta_step (with_reason p r, errs) ms
    = (with_reason (foldl field_meta_step (p, errs) ms).1 r, (foldl field_meta_step (p, errs) ms).2)) as Hf.
  { revert p. induction ms as [|m ms IH]; intros p errs; [done|]. cbn [foldl]. unfold field_meta_step at 2 4 6. cbn [fst snd]. rewrite finding_blind.
    destruct (finding p _ _) as [p' err]. cbn [fst snd]. apply IH. }
  rewrite Hf. destruct (foldl field_meta_step (p, []) ms) as [p' errs]. cbn. by destruct errs.
Qed.

Lemma validate_blind : ignores_reason (runValidate o).
Proof.
  intros p r. unfold runValidate. cbn [with_reason pl_target]. destruct (pl_target p) as [v|]; [|done]. generalize 0. intros n.
  revert p n. induction (o_Validators o) as [|f fs IH]; intros p n; [done|]. cbn [validate_loop]. cbn [with_reason pl_dryRun]. rewrite finding_blind.
  destruct (finding p _ _) as [p' [[]|]]; cbn [fst snd]; first [done|apply IH].
Qed.

(** The stages before the policies. *)
Definition front : list (string * (pipelineState T → fres (pipelineState T))) := take 7 (defaultStages o).

Lemma run_front p : run_all (defaultStages o) p = run_all front p ≫= runPolicy o.
Proof.
  change (defaultStages o) with (front ++ [("policy", runPolicy o)]). unfold run_all. rewrite foldM_app.
  destruct (foldM _ p front) as [q|e]; [|done]. cbn. by destruct (runPolicy o q).
Qed.

Lemma front_blind p r : run_all front (with_reason p r) = (λ q, with_reason q r) <$> run_all front p.
Proof.
  assert (Forall (λ s, ignores_reason (snd s)) front) as Hall.
  { unfold front, defaultStages. cbn [take]. repeat apply Forall_cons_2; [..|by constructor]; cbn [snd].
    - apply merge_blind.
    - apply transform_blind.
    - apply secret_blind.
    - apply hooks_blind.
    - apply decode_blind.
    - apply field_meta_blind.
    - apply validate_blind. }
  revert p. unfold run_all. induction Hall as [|[name run] stages Hs Hall IH]; intros p; [done|]. cbn [foldM snd] in *. rewrite Hs.
  destruct (run p) as [q|e]; [|done]. cbn. apply IH.
Qed.

(** A policy that reads the reason can refuse a reload for it, and change nothing. *)
Lemma policy_outcome p : pl_dryRun p = false → runPolicy o p = Ok p ∨ ∃ errs, runPolicy o p = Err (PolicyError errs).
Proof.
  unfold runPolicy. intros ->. destruct (o_Policies o); [by left|]. destruct (pl_target p); [|by left]. destruct (evaluatePolicies _ _ _) as [[|x errs] warns]; [by left|right].
  by exists (x :: errs).
Qed.

Lemma policy_blind p v r : pl_target p = Some v → pl_reason p = "plan" → same_verdicts v r →
  runPolicy o (with_reason p r) = (λ q, with_reason q r) <$> runPolicy o p.
Proof.
  intros Ht Hp Hs. unfold runPolicy. cbn [with_reason pl_target pl_reason pl_dryRun]. rewrite Ht, Hp.
  assert (evaluatePolicies o v r = evaluatePolicies o v "plan") as ->.
  { unfold evaluatePolicies. apply foldl_same_in. intros acc pol Hin. unfold policy_findings. by rewrite (Hs pol Hin). }
  destruct (o_Policies o); [done|]. destruct (evaluatePolicies o v "plan") as [errs warns]. destruct (pl_dryRun p); [done|]. by destruct errs.
Qed.

(** ** Warm caches *)

(** Contents that were read; the digest tells them apart. *)
Context (contents : string → Prop) (Hsha : ∀ b1 b2, contents b1 → contents b2 → go_sha256 b1 = go_sha256 b2 → b1 = b2).

Definition decode_as (codec : string) (generation : N) : string → result string gomap :=
  match codec_For codec with Some dec => dec | None => λ _, Err "" end.

Definition layers_ok (c : layerCache) : Prop := ∃ seen, Forall contents seen ∧ sound decode_as go_sha256 seen c.

(** The merge keys of a [_meta.yaml]. *)
Definition meta_of (b : string) : option (option MetaSpec) := if String.eqb b "" then Some None else Some <$> yaml_meta b.
Definition keys_of (b : string) : gmap string string := addMergeKeys (default ∅ (ms_MergeKeys <$> default None (meta_of b))) (o_MergeKeys o).

Definition meta_ok (c : metaKeysCache) : Prop := mk_set c = true → ∃ b, contents b ∧ mk_sum c = go_sha256 b ∧ mk_keys c = keys_of b.

Definition caches_ok (ca : caches) : Prop := layers_ok (ca_layers ca) ∧ meta_ok (ca_meta ca).

(** A world whose files have such contents. *)
Record readable (w : world) : Prop := {
  rw_files : ∀ scanOpt l, Yield l ∈ (Scan (w_os w) codec_LookupExt yaml_match (o_Dir o) scanOpt).1 → contents (l_Bytes l);
  rw_meta : ∀ b, LoadMeta (w_os w) (o_FS o) (o_Dir o) = Ok b → contents (default "" b);
}.

Lemma lookup_ok c l dec : layers_ok c → contents (l_Bytes l) → codec_For (l_Codec l) = Some dec →
  layers_ok (getOrDecode c l (go_sha256 (l_Bytes l)) dec codec_Generation).1
  ∧ (getOrDecode c l (go_sha256 (l_Bytes l)) dec codec_Generation).2
    = (λ t, {| dl_sum := go_sha256 (l_Bytes l); dl_generation := codec_Generation; dl_tree := t |}) <$> dec (l_Bytes l).
Proof.
  intros (seen & Hseen & Hs) Hl Hdec.
  destruct (run_request_sound decode_as go_sha256 seen c (l, codec_Generation)) as [Hs' Hr]; [|done|].
  - intros b Hb Heq. rewrite Forall_forall in Hseen. apply Hsha; [by apply Hseen|done|done].
  - assert (LayerCache.run_request decode_as go_sha256 c (l, codec_Generation) = getOrDecode c l (go_sha256 (l_Bytes l)) dec codec_Generation) as Hrr
      by (unfold LayerCache.run_request, decode_as; cbn; by rewrite Hdec).
    rewrite Hrr in Hs', Hr. split; [exists (l_Bytes l :: seen); split; [by constructor|exact Hs']|].
    rewrite Hr. unfold decode_as. cbn. rewrite Hdec. by destruct (dec _).
Qed.

Lemma file_layer_warm c c' l : layers_ok c → layers_ok c' → contents (l_Bytes l) →
  (file_layer c l).2 = (file_layer c' l).2 ∧ layers_ok (file_layer c l).1.
Proof.
  intros Hc Hc' Hl. unfold file_layer. destruct (l_Kind l); [| |by split]; (destruct (codec_For (l_Codec l)) as [dec|] eqn:Hdec; [|by split]);
    destruct (lookup_ok c l dec Hc Hl Hdec) as [HA1 HA2], (lookup_ok c' l dec Hc' Hl Hdec) as [_ HA3];
    destruct (getOrDecode c l _ dec _) as [c1 r1], (getOrDecode c' l _ dec _) as [c2 r2]; cbn in *; subst; by split.
Qed.

Lemma loop_warm evs err : ∀ c c' dirs staged, layers_ok c → layers_ok c' → (∀ l, Yield l ∈ evs → contents (l_Bytes l)) →
  (file_layers_loop c dirs staged evs err).1.2 = (file_layers_loop c' dirs staged evs err).1.2
  ∧ (file_layers_loop c dirs staged evs err).2 = (file_layers_loop c' dirs staged evs err).2
  ∧ layers_ok (file_layers_loop c dirs staged evs err).1.1.
Proof.
  induction evs as [|[d|l] evs IH]; intros c c' dirs staged Hc Hc' Hevs; cbn [file_layers_loop]; [by split_and!| |].
  - apply IH; [done..|]. intros l Hl. apply Hevs. by right.
  - assert (contents (l_Bytes l)) as Hl by (apply Hevs; by left).
    destruct (file_layer_warm c c' l Hc Hc' Hl) as [Heq HA1]. destruct (file_layer_warm c' c l Hc' Hc Hl) as [_ HA2].
    destruct (file_layer c l) as [c1 r1], (file_layer c' l) as [c2 r2]. cbn in Heq, HA1, HA2. subst r2. destruct r1 as [s|e]; [|by split_and!].
    apply IH; [done..|]. intros l' Hl'. apply Hevs. by right.
Qed.

Lemma keys_ok mc b : meta_ok mc → contents b →
  (getOrBuild mc b (λ _, keys_of b)).2 = keys_of b ∧ meta_ok (getOrBuild mc b (λ _, keys_of b)).1.
Proof.
  intros Hmc Hb. unfold getOrBuild. cbv zeta. destruct (mk_set mc) eqn:Hset; cbn [negb orb fst snd].
  2:{ split; [done|]. intros _. by exists b. }
  destruct (Hmc Hset) as (b' & Hb' & Hsum & Hkeys). destruct (String.eqb_spec (mk_sum mc) (go_sha256 b)) as [Heq|Hne]; cbn [negb fst snd].
  - split; [|exact Hmc]. rewrite Hkeys. f_equal. apply Hsha; [done..|congruence].
  - split; [done|]. intros _. by exists b.
Qed.

Lemma discovery_warm w host mc mc' : readable w → meta_ok mc → meta_ok mc' →
  (resolveDiscovery w o host mc).2 = (resolveDiscovery w o host mc').2 ∧ meta_ok (resolveDiscovery w o host mc).1.
Proof.
  intros [_ Hmeta] Hmc Hmc'. unfold resolveDiscovery. destruct (LoadMeta _ _ _) as [b|e]; [|by split]. specialize (Hmeta b eq_refl).
  set (text := default "" b) in *. fold (meta_of text). destruct (meta_of text) as [meta|] eqn:Hm; [|by split].
  assert (addMergeKeys (default ∅ (ms_MergeKeys <$> meta)) (o_MergeKeys o) = keys_of text) as Hk by (unfold keys_of; by rewrite Hm). rewrite Hk.
  destruct (keys_ok mc text Hmc Hmeta) as [HA1 HA2], (keys_ok mc' text Hmc' Hmeta) as [HA3 _].
  destruct (getOrBuild mc text _) as [mc1 k1], (getOrBuild mc' text _) as [mc2 k2]. cbn in HA1, HA2, HA3. subst.
  destruct (ResolveAxes _ _ _) as [extras axes]. by split.
Qed.

(** Assembly does not depend on what the caches hold. *)
Lemma assemble_warm w host ca ca' extra : readable w → caches_ok ca → caches_ok ca' →
  (assemble customEncoding w o None host ca extra).1.2 = (assemble customEncoding w o None host ca' extra).1.2
  ∧ (assemble customEncoding w o None host ca extra).2 = (assemble customEncoding w o None host ca' extra).2
  ∧ caches_ok (assemble customEncoding w o None host ca extra).1.1.
Proof.
  intros Hw [Hl Hm] [Hl' Hm']. unfold assemble. destruct (o_SkipDiscovery o); [by split_and!|].
  destruct (discovery_warm w host _ _ Hw Hm Hm') as [HA1 HA2].
  destruct (resolveDiscovery w o host (ca_meta ca)) as [mc r], (resolveDiscovery w o host (ca_meta ca')) as [mc' r']. cbn in HA1, HA2. subst r'.
  destruct r as [[scanOpt meta]|e]; [|by split_and!]. cbn [ca_layers ca_meta]. unfold assembleFileLayers.
  destruct (Scan _ _ _ _ scanOpt) as [evs err] eqn:Hscan.
  destruct (loop_warm evs err (ca_layers ca) (ca_layers ca') [] [] Hl Hl') as (HA3 & HA4 & HA5).
  { intros l Hin. apply (rw_files w Hw scanOpt). by rewrite Hscan. }
  destruct (file_layers_loop (ca_layers ca) _ _ _ _) as [[lc dirs] files], (file_layers_loop (ca_layers ca') _ _ _ _) as [[lc' dirs'] files'].
  cbn in HA3, HA4, HA5. subst. destruct files'; by split_and!.
Qed.

Lemma assemble_cancelled w e host ca extra : assemble customEncoding w o (Some e) host ca extra = (ca, [], Err (CtxErr e)).
Proof. done. Qed.

(** ** The caches of a manager *)

Lemma newManager_caches : caches_ok (mg_caches (newManager o)).
Proof. split; [exists []; split; [done|]; by intros p k e He|done]. Qed.

Lemma assembled_caches w ctx host ca extra : readable w → caches_ok ca → caches_ok (assemble customEncoding w o ctx host ca extra).1.1.
Proof. intros Hw Hca. destruct ctx as [e|]; [by rewrite assemble_cancelled|]. exact (proj2 (proj2 (assemble_warm w host ca ca extra Hw Hca Hca))). Qed.

Lemma publishSnapshot_caches (m : manager T) prev next : mg_caches (publishSnapshot o m prev next).1 = mg_caches m.
Proof. done. Qed.

Lemma commit_caches (m : manager T) ctx a reason key : mg_caches (commit o m ctx a reason key).1.1 = mg_caches m.
Proof.
  unfold commit. destruct (ctx AtCommit); [done|]. destruct (negb _ && _); [done|]. destruct (runPipeline o ctx a reason false) as [evs [[p hash]|e]]; [|done].
  destruct (ctx AtPublish), (pl_target p); try done. by destruct (match mg_state m with Some prev => _ | None => _ end).
Qed.

Lemma request_caches w (m : manager T) done ctx r : readable w → caches_ok (mg_caches m) →
  caches_ok (mg_caches (runReloadRequest customEncoding o w m done ctx r).1.1).
Proof.
  intros Hw Hm. unfold runReloadRequest. destruct done as [e|]; [exact Hm|].
  assert (caches_ok (mg_caches (run_request customEncoding o w m ctx r).1.1)) as Hr.
  { destruct r as [reason key extra|hostname|target|reason e]; cbn [run_request]; [| | |exact Hm].
    - unfold reload. pose proof (assembled_caches w (ctx AtAssemble) "" (mg_caches m) extra Hw Hm) as Ha.
      destruct (assemble _ _ _ _ _ _ _) as [[ca dirs] [a|e]]; [|exact Ha].
      pose proof (commit_caches (set_inputs m ca dirs) ctx a reason key) as Hc. destruct (commit o _ ctx a reason key) as [[m1 effs1] r1]. cbn in Hc |- *. by rewrite Hc.
    - unfold runPlan. pose proof (assembled_caches w (ctx AtAssemble) hostname (mg_caches m) [] Hw Hm) as Ha.
      destruct (assemble _ _ _ _ _ _ _) as [[ca dirs] [a|e]]; [|exact Ha]. destruct (runPipeline o ctx a "plan" true) as [evs [[p hash]|e]]; [|exact Ha].
      by destruct (pl_target p).
    - exact Hm. }
  destruct (run_request customEncoding o w m ctx r) as [[m1 effs] [[]|e]]; exact Hr.
Qed.

(** The actions of a history in which every request sees such a world. *)
Definition readable_action (a : action T) : Prop := match a with Serve w _ _ _ => readable w | _ => True end.

Lemma perform_caches (m : manager T) a : readable_action a → caches_ok (mg_caches m) → caches_ok (mg_caches (perform customEncoding o m a).1).
Proof.
  intros Ha Hm. destruct a as [w ended ctx r|s|id]; [|exact Hm..]. cbn [perform]. pose proof (request_caches w m ended ctx r Ha Hm) as Hr.
  by destruct (runReloadRequest _ _ _ _ _ _ _) as [[m1 effs] res].
Qed.

(** ** A preview and the reload after it *)

(** Some validator or policy judges the value; then no reload is cut short. *)
Definition judged : Prop := o_Validators o ≠ [] ∨ o_Policies o ≠ [].

Lemma judged_fingerprint w ctx host ca extra ca' dirs a : judged → assemble customEncoding w o ctx host ca extra = (ca', dirs, Ok a) → ar_fingerprint a = zero32.
Proof.
  intros Hj. assert (∀ staged sum g now, inputFingerprint customEncoding o staged sum g now = zero32) as Hz.
  { intros staged sum g now. unfold inputFingerprint. destruct (negb _); [done|].
    assert (bool_decide (o_Validators o ≠ []) || bool_decide (o_Policies o ≠ []) = true) as Hb.
    { apply orb_true_iff. destruct Hj; [left|right]; by apply bool_decide_true. }
    destruct (bool_decide (o_Transforms o ≠ [])), (bool_decide (is_Some (o_SecretResolver o))), (0 <? o_TypedHooks o); cbn; try done.
    by rewrite Hb. }
  assert (∀ g now strict meta files r, finish_assembly customEncoding o g now strict meta files extra = Ok r → ar_fingerprint r = zero32) as Hf.
  { intros g now strict meta files r. unfold finish_assembly. destruct (assembleGeneratorLayers _) as [gens|]; [|done].
    destruct (assembleProviderLayers _) as [provs|]; [|done]. cbn [mbind result_bind]. destruct (files ++ gens ++ provs ++ extra); [done|]. intros [= <-]. apply Hz. }
  unfold assemble. destruct ctx; [done|]. destruct (o_SkipDiscovery o); [intros [= _ _ Ha]; by eapply Hf|].
  destruct (resolveDiscovery _ _ _ _) as [mc [[scanOpt meta]|e]]; [|done]. destruct (assembleFileLayers _ _ _ _) as [[lc ds] [files|e]]; [|done].
  intros [= _ _ Ha]. by eapply Hf.
Qed.

Lemma checkPlan_none (p : @PlanResult T) : checkPlan p = None ↔
  Forall (λ r, vr_Err r = None) (pr_Validators p) ∧ Forall (λ v, v_Severity v ≠ SeverityError) (pr_Policies p).
Proof.
  unfold checkPlan. assert (∀ rs, first_failure rs = None ↔ Forall (λ r, vr_Err r = None) rs) as Hf.
  { induction rs as [|r rs IH]; cbn; [by split|]. rewrite Forall_cons, <-IH. destruct (vr_Err r); [split; [done|by intros [? _]]|tauto]. }
  assert (∀ vs, first_rejection vs = None ↔ Forall (λ v, v_Severity v ≠ SeverityError) vs) as Hr.
  { induction vs as [|v vs IH]; cbn; [by split|]. rewrite Forall_cons, <-IH. case_bool_decide; [split; [done|by intros [? _]]|tauto]. }
  rewrite <-Hf, <-Hr. destruct (first_failure (pr_Validators p)); [split; [done|by intros [? _]]|tauto].
Qed.

(** The inputs of a reload are those of the published state: then it is cut short. *)
Definition same_inputs (w : world) (m : manager T) : Prop :=
  ∃ a, (assemble customEncoding w o None "" (mg_caches m) []).2 = Ok a ∧ ar_fingerprint a ≠ zero32 ∧ ar_fingerprint a = mg_publishedFingerprint m.

Lemma judged_inputs w m : judged → ¬ same_inputs w m.
Proof.
  intros Hj (a & Ha & Hne & _). destruct (assemble _ _ _ _ _ _ _) as [[ca dirs] r] eqn:Has. cbn in Ha. subst r. by apply judged_fingerprint in Has.
Qed.

(** What the pipeline of the reload does, from that of the preview. *)
Lemma pipeline_after_plan a reason q v hash : (runPipeline o never a "plan" true).2 = Ok (q, hash) → pl_target q = Some v →
  let '(evs, r) := runPipeline o never a reason false in
  match r with
  | Ok (p, hash') => hash' = hash ∧ pl_target p = Some v ∧ pl_sources p = pl_sources q ∧ pl_origins p = pl_origins q ∧ (same_verdicts v reason → no_findings q)
  | Err e => is_invalid e = true ∧ (same_verdicts v reason → ¬ no_findings q)
  end.
Proof.
  change never with (λ _ : poll, None : option ctx_error). unfold runPipeline.
  pose proof (stages_mirror o (new_pipeline a "plan" false) (new_pipeline a "plan" true) ltac:(by repeat split)) as Hm.
  pose proof (run_all_mirror front (new_pipeline a "plan" false) (new_pipeline a "plan" true) (Forall_take _ 7 _ (default_mirrors o)) ltac:(by repeat split)) as Hfm.
  pose proof (front_blind (new_pipeline a "plan" false) reason) as Hr. pose proof (front_blind (new_pipeline a "plan" false) "plan") as Hrp.
  change (with_reason (new_pipeline a "plan" false) "plan") with (new_pipeline (T := T) a "plan" false) in Hrp.
  change (with_reason (new_pipeline a "plan" false) reason) with (new_pipeline (T := T) a reason false) in Hr.
  destruct (runStages o (λ _, None) (new_pipeline a "plan" true)) as [evq [q'|eq]] eqn:Hq; [|done].
  destruct (runStages o (λ _, None) (new_pipeline a reason false)) as [evp rp] eqn:Hp.
  apply (f_equal snd) in Hq, Hp. rewrite runStages_free in Hq, Hp. cbn [snd] in Hq, Hp. rewrite Hq in Hm. rewrite run_front, Hr in Hp. rewrite run_front in Hq.
  destruct (pl_target q') as [v'|] eqn:Hv; [|done]. destruct (canonicalHash o v') as [h|] eqn:Hh; [|done]. cbn [snd]. intros [= -> ->] Htgt.
  rewrite Hv in Htgt. injection Htgt as ->. rewrite run_front in Hm.
  destruct (run_all front (new_pipeline a "plan" true)) as [q0|]; [|done]. cbn [mbind result_bind] in Hq.
  destruct (run_all front (new_pipeline a "plan" false)) as [f|e].
  2:{ cbn [fmap result_fmap mbind result_bind] in Hp, Hm. subst rp. tauto. }
  cbn [fmap result_fmap mbind result_bind] in Hp, Hm, Hrp. destruct Hfm as [Hpf Hno]. pose proof Hpf as (Hc & Hdf & _).
  assert (pl_target q0 = Some v ∧ pl_sources q0 = pl_sources q ∧ pl_origins q0 = pl_origins q) as (Ht0 & Hs0 & Ho0).
  { revert Hq Hv. clear. unfold runPolicy. intros Hq Hv. assert (q = q0 ∨ ∃ vs, q = add_violations q0 vs) as [->|[vs ->]]; [|by split_and!..].
    destruct (o_Policies o); [by injection Hq; left|]. destruct (pl_target q0); [|by injection Hq; left]. destruct (evaluatePolicies _ _ _) as [[|x errs] warns].
    all: destruct (pl_dryRun q0); [right; eexists; by injection Hq|]; first [by injection Hq; left|done]. }
  assert (pl_target f = Some v ∧ pl_sources f = pl_sources q0 ∧ pl_origins f = pl_origins q0 ∧ pl_reason f = "plan") as (Htf & Hsf & Hof & Hrf).
  { unfold core in Hc. injection Hc as Hc1 Hc2 Hc3 Hc4 Hc5 Hc6 _ _ _. split_and!; try congruence. injection Hrp as Hrp. by rewrite Hrp. }
  assert (same_verdicts v reason → rp = (λ q, with_reason q reason) <$> runPolicy o f) as Hsame by (intros Hs; rewrite <-Hp; by apply (policy_blind f v)).
  destruct (policy_outcome (with_reason f reason) Hdf) as [Hok|[errs Herr]]; rewrite Hp in *; clear Hp.
  - subst rp. cbn [with_reason pl_target]. rewrite Htf, Hh. cbn. split_and!; try congruence.
    intros Hs. specialize (Hsame Hs). destruct (runPolicy o f); [|done]. apply Hm. by split; constructor.
  - subst rp. split; [done|]. intros Hs. specialize (Hsame Hs). destruct (runPolicy o f); [done|tauto].
Qed.

(** The reload after a preview. *)
Lemma plan_then_reload w (m : manager T) m1 effs p reason : readable w → caches_ok (mg_caches m) →
  runPlan customEncoding o w m never "" = (m1, effs, Ok p) →
  same_published m m1
  ∧ match reload customEncoding o w m1 never reason "" [] with
    | (m2, _, Ok _) =>
        (mg_state m2 = mg_state m ∧ same_inputs w m)
        ∨ (same_verdicts (st_value (pr_Proposed p)) reason → checkPlan p = None)
          ∧ ((mg_state m2 = mg_state m ∧ ∃ st, mg_state m = Some st ∧ st_hash st = st_hash (pr_Proposed p))
             ∨ ∃ st, mg_state m2 = Some st ∧ st_value st = st_value (pr_Proposed p) ∧ st_hash st = st_hash (pr_Proposed p)
                 ∧ st_sources st = st_sources (pr_Proposed p) ∧ st_origins st = st_origins (pr_Proposed p) ∧ st_generation st = next_gen (mg_gen m))
    | (m2, _, Err e) => is_invalid e = true ∧ same_published m m2 ∧ (same_verdicts (st_value (pr_Proposed p)) reason → checkPlan p ≠ None)
    end.
Proof.
  intros Hw Hca Hplan. apply runPlan_advance in Hplan as Hadv. destruct Hadv as (_ & Hsame & _). split; [done|].
  unfold runPlan in Hplan. change (never AtAssemble) with (None : option ctx_error) in Hplan.
  destruct (assemble customEncoding w o None "" (mg_caches m) []) as [[ca dirs] [a|e]] eqn:Ha; [|done].
  assert (caches_ok ca) as Hca1 by (pose proof (assembled_caches w None "" (mg_caches m) [] Hw Hca) as Hx; by rewrite Ha in Hx).
  destruct (runPipeline o never a "plan" true) as [evs [[q hash]|e]] eqn:Hrun; [|done].
  destruct (pl_target q) as [v|] eqn:Hv; [|done]. injection Hplan as <- _ <-. cbn [pr_Proposed newState st_value st_hash st_sources st_origins].
  match goal with |- context [checkPlan ?plan] => assert (checkPlan plan = None ↔ no_findings q) as Hcheck by apply checkPlan_none end.
  pose proof (pipeline_after_plan a reason q v hash ltac:(by rewrite Hrun) Hv) as Hpipe.
  unfold reload. change (never AtAssemble) with (None : option ctx_error). cbn [mg_caches].
  destruct (assemble_warm w "" (mg_caches m) ca [] Hw Hca Hca1) as (_ & Heq & _). rewrite Ha in Heq. cbn [snd] in Heq.
  destruct (assemble customEncoding w o None "" ca []) as [[ca2 dirs2] r2]. cbn [snd] in Heq. subst r2.
  unfold commit. change (never AtCommit) with (None : option ctx_error). cbn [set_inputs mg_publishedFingerprint].
  destruct (negb (String.eqb (ar_fingerprint a) zero32) && String.eqb (ar_fingerprint a) (mg_publishedFingerprint m)) eqn:Hfp.
  { left. split; [done|]. apply andb_true_iff in Hfp as [Hne%negb_true_iff%String.eqb_neq Hpub%String.eqb_eq]. exists a. by rewrite Ha. }
  destruct (runPipeline o never a reason false) as [evp [[p h]|e]]; [|destruct Hpipe as [Hi Hf]; split; [done|]; rewrite Hcheck; split; [done|exact Hf]].
  destruct Hpipe as (-> & Ht & Hs & Ho & Hf). rewrite <-Hcheck in Hf. rewrite Ht. change (never AtPublish) with (None : option ctx_error).
  cbn [set_inputs set_fingerprint mg_state]. destruct (mg_state m) as [prev|] eqn:Hprev.
  - destruct (String.eqb_spec (st_hash prev) hash) as [Hh|Hh].
    + right. split; [done|]. left. split; [done|]. by exists prev.
    + cbn. right. split; [done|]. right. eexists. by split_and!.
  - cbn. right. split; [done|]. right. eexists. by split_and!.
Qed.
End workflow.

(** A history of a manager whose providers change: each action sees the options
    with what its providers give then. *)
Definition perform_changing `{GoStd} `{GoJson} `{Codecs} {T} `{Target T} (customEncoding : bool) (m : manager T) (history : list (options T * action T)) : manager T :=
  foldl (λ m x, (perform customEncoding x.1 m x.2).1) m history.

(** The merge keys are those of [o]; everything else may differ. *)
Definition fits `{GoStd} `{Codecs} {T} (o : options T) (contents : string → Prop) (x : options T * action T) : Prop :=
  o_MergeKeys x.1 = o_MergeKeys o ∧ readable_action x.1 contents x.2.

Lemma caches_ok_keys `{GoStd} `{Codecs} {T} (o o' : options T) contents ca : o_MergeKeys o' = o_MergeKeys o → caches_ok o contents ca → caches_ok o' contents ca.
Proof. intros Hk [Hl Hm]. split; [exact Hl|]. unfold meta_ok, keys_of in *. by rewrite Hk. Qed.

Lemma changing_caches `{GoStd} `{GoJson} `{Codecs} {T} `{Target T} customEncoding (o : options T) contents history (m : manager T)
    (Hsha : ∀ b1 b2, contents b1 → contents b2 → go_sha256 b1 = go_sha256 b2 → b1 = b2) :
  Forall (fits o contents) history → caches_ok o contents (mg_caches m) → caches_ok o contents (mg_caches (perform_changing customEncoding m history)).
Proof.
  intros Hh. revert m. induction Hh as [|[o' a] history [Hk Ha] _ IH]; intros m Hm; [done|]. cbn [perform_changing foldl fst snd] in *. apply IH.
  apply (caches_ok_keys o'); [done|]. apply perform_caches; [done|done|]. by apply (caches_ok_keys o).
Qed.

(** ** Properties *)

(** C4: checked updates.  On a manager with any history, whatever the caches hold, a
    preview is checked and the reload follows on unchanged sources.
    - When the update goes through, the check had passed, and it publishes exactly
      the proposed value with its hash, sources and origins under the next
      generation; or it leaves the state alone, because the state has the proposed
      hash already or, when no validator and no policy is installed, because the
      inputs have the fingerprint of the published ones.
    - When the preview fails or is refused nothing is published.  A reload in spite
      of a refusal would be rejected as invalid or find its inputs published,
      unless a policy judges the proposed value differently for the reason of the
      reload than for that of a preview.
    - After a check that passed the reload fails only when a policy does so: the
      preview asks policies with the reason "plan".  The failure is an invalid
      configuration, and nothing is published. *)
Theorem checked_update_safe `{GoStd} `{GoJson} `{Codecs} {T} `{Target T} (customEncoding : bool) (o : options T) (contents : string → Prop)
    (history : list (options T * action T)) (w : world) (reason : string)
    (Hsha : ∀ b1 b2, contents b1 → contents b2 → go_sha256 b1 = go_sha256 b2 → b1 = b2)
    (Hw : readable o contents w) (Hhistory : Forall (fits o contents) history) :
  let m := perform_changing customEncoding (newManager o) history in
  let '(m', _, e) := checked_update customEncoding o w m reason in
  let planned p := (runPlan customEncoding o w m never "").2 = Ok p in
  match e with
  | Updated => ∃ p, planned p ∧ checkPlan p = None
      ∧ ((mg_state m' = mg_state m
          ∧ ((∃ st, mg_state m = Some st ∧ st_hash st = st_hash (pr_Proposed p)) ∨ ¬ judged o ∧ same_inputs customEncoding o w m))
         ∨ ∃ st, mg_state m' = Some st ∧ st_value st = st_value (pr_Proposed p) ∧ st_hash st = st_hash (pr_Proposed p)
             ∧ st_sources st = st_sources (pr_Proposed p) ∧ st_origins st = st_origins (pr_Proposed p) ∧ st_generation st = next_gen (mg_gen m))
  | PlanFailed _ => same_published m m'
  | Refused _ => same_published m m' ∧ ∃ p, planned p ∧
      (same_verdicts o (st_value (pr_Proposed p)) reason →
         mg_state (reload customEncoding o w m' never reason "" []).1.1 = mg_state m
         ∧ (judged o ∨ ¬ same_inputs customEncoding o w m →
            ∃ invalid, (reload customEncoding o w m' never reason "" []).2 = Err invalid ∧ is_invalid invalid = true))
  | ReloadFailed e => same_published m m' ∧ is_invalid e = true
      ∧ ∃ p, planned p ∧ checkPlan p = None ∧ ¬ same_verdicts o (st_value (pr_Proposed p)) reason
  end.
Proof.
  intros m. assert (caches_ok o contents (mg_caches m)) as Hm by (apply changing_caches; [done..|apply newManager_caches]). clearbody m.
  unfold checked_update. destruct (runPlan customEncoding o w m never "") as [[m1 effs1] [p|e]] eqn:Hplan.
  2:{ apply runPlan_advance in Hplan. tauto. }
  destruct (plan_then_reload customEncoding o contents Hsha w m m1 effs1 p reason Hw Hm Hplan) as [Hsame Hre]. cbn [snd].
  pose proof (judged_inputs customEncoding o w m) as Hj.
  destruct (checkPlan p) as [refusal|] eqn:Hc.
  - split; [done|]. exists p. split; [done|]. intros Hv. destruct (reload customEncoding o w m1 never reason "" []) as [[m2 effs2] [u|e]]; cbn [fst snd].
    + destruct Hre as [[Hst Hin]|[Hf _]]; [split; [done|tauto]|by specialize (Hf Hv)].
    + destruct Hre as (Hi & [Hst _] & _). split; [done|]. intros _. by exists e.
  - destruct (reload customEncoding o w m1 never reason "" []) as [[m2 effs2] [u|e]].
    + exists p. split_and!; [done..|]. destruct Hre as [[Hst Hin]|[_ [[Hst Hh]|Hpub]]]; [left|left|by right]; (split; [done|]); [right|by left].
      split; [|done]. intros Hx. by apply (Hj Hx).
    + destruct Hre as (Hi & Hst & Hf). split_and!; [done..|]. exists p. split_and!; [done..|]. intros Hv. by apply (Hf Hv).
Qed.

(** The options of the example: one provider, and a validator that refuses one port. *)
Definition policed_options (policies : list (policy string)) (port : string) : options string := {|
  o_Dir := "etc"; o_FS := None; o_SkipDiscovery := true; o_ProfileNames := []; o_ProfileMatch := "";
  o_ProfileEnv := ""; o_ProfileDefault := ""; o_Strict := false;
  o_Providers := [{| pe_Name := "app.yaml"; pe_Priority := 10;
                     pe_Load := Ok {| ps_Map := Some {[ "host" := VString port ]}; ps_Revision := ""; ps_Stale := false |} |}];
  o_Axes := []; o_Validators := [λ v, if String.eqb v "7070" then Err "reserved" else Ok ()]; o_Transforms := []; o_Provenance := Full; o_HistoryCap := 4;
  o_YAMLBridge := false; o_UnknownFields := UnknownError; o_Policies := policies; o_SecretResolver := None;
  o_Generators := []; o_TypedHooks := 0; o_MergeKeys := ∅; o_Observers := 1; o_Tenant := "";
|}.

Definition update_options : string → options string := policed_options [].

(** A port is published, the next one is refused, and the one after it is accepted. *)
Definition live_manager : manager string :=
  @perform_changing example_std example_json example_codecs string example_target true (newManager (update_options "9090"))
    [(update_options "8080", Serve example_world None never (ReqReload "initial" "" []))].

Definition update_to (port : string) : manager string * list effect * update_end :=
  @checked_update example_std example_json example_codecs string example_target true (update_options port) example_world live_manager "manual".

Lemma checked_update_safe_witness :
  (st_value <$> mg_state live_manager) = Some "8080" ∧ (update_to "7070").2 = Refused (ValidatorFailed "validator[0]" (ErrUser "reserved"))
  ∧ (update_to "9090").2 = Updated ∧ ∃ p : @PlanResult string, checkPlan p = None
      ∧ ∃ st, mg_state (update_to "9090").1.1 = Some st ∧ st_value st = st_value (pr_Proposed p) ∧ st_generation st = 2%N.
Proof.
  split; [vm_compute; reflexivity|]. split; [vm_compute; reflexivity|]. split; [vm_compute; reflexivity|].
  assert (@readable example_std example_codecs string (update_options "9090") (λ _, True) example_world) as Hw by (split; intros; exact I).
  assert (Forall (@fits example_std example_codecs string (update_options "9090") (λ _, True))
    [(update_options "8080", Serve example_world None never (ReqReload "initial" "" []))]) as Hh.
  { repeat constructor. }
  assert (∀ b1 b2 : string, True → True → @go_sha256 example_std b1 = @go_sha256 example_std b2 → b1 = b2) as Hsha by (intros b1 b2 _ _ Heq; exact Heq).
  pose proof (@checked_update_safe example_std example_json example_codecs string example_target true (update_options "9090") (λ _, True)
    _ example_world "manual" Hsha Hw Hh) as Hs.
  assert ((update_to "9090").2 = Updated) as Hu by (vm_compute; reflexivity).
  assert (st_generation <$> mg_state (update_to "9090").1.1 = Some 2%N) as Hg by (vm_compute; reflexivity).
  assert (st_generation <$> mg_state live_manager = Some 1%N) as Hold by (vm_compute; reflexivity).
  assert (mg_gen live_manager = 1%N) as Hgen by (vm_compute; reflexivity).
  cbv zeta in Hs. unfold update_to, live_manager in *.
  destruct (checked_update _ _ _ _ _) as [[m' effs] e]. cbn in Hu, Hg. subst e. destruct Hs as (p & _ & Hc & Hst). exists p. split; [done|].
  destruct Hst as [[Hsame _]|(st & Hm & Hv & _ & _ & _ & Hn)].
  - rewrite Hsame, Hold in Hg. exfalso. clear -Hg. discriminate Hg.
  - exists st. cbn [fst]. split; [exact Hm|]. split; [exact Hv|]. by rewrite Hn, Hgen.
Defined.

(** A policy that lets only previews pass: the check passes, and the reload fails. *)
Example freeze_refuses_the_reload :
  let freeze := {| p_Name := "freeze"; p_Evaluate _ reason _ := if String.eqb reason "plan" then Ok [] else Err "frozen" |} in
  (@checked_update example_std example_json example_codecs string example_target true (policed_options [freeze] "9090") example_world live_manager "manual").2
  = ReloadFailed (PolicyError [{| v_Path := ""; v_Message := "evaluation error: frozen"; v_Severity := SeverityError; v_Rule := "freeze" |}]).
Proof. vm_compute. reflexivity. Qed.
